(* ===== verification/_CoqProject ===== *)
-Q . S2P
Prelude.v
CtypeTables.v
Ctype.v
CMem.v
CString.v
StrToInt.v
SortSearch.v
Calendar.v
Utf8.v
Threads.v
Mutex.v
Ieee.v
MathBits.v
MathRound.v
MathRem.v
MathTables.v
MathElem.v
MathElemFacts.v
MathSqrt.v
Stdio.v
PrintfFloat.v
FloatDigits.v
Printf.v
PrintfFacts.v
Scanf.v
ScanfFacts.v
Once.v
Semaphore.v
RwLock.v
ThreadKeys.v
Cond.v
Barrier.v
SoftFloat.v
SoftFloatFacts.v
SoftConvFacts.v
IntDiv.v
Elf.v
ElfFacts.v
Linker.v
LookupFacts.v
InitFacts.v
LoadFacts.v
LinkExample.v
Dlfcn.v
Literal.v
StrToFloat.v
FloatText.v
Strftime.v
Env.v
Random.v
Exit.v
Inet.v
Dns.v
Netdb.v
Getopt.v
Fnmatch.v
Libgen.v
Accounts.v
Dirent.v
Tokens.v
