(* ===== verification/Prelude.v ===== *)
(** * Horizon libc (hzlibc): a verification development

    The program is a C library for several operating systems, in C++ with a
    vendored C mathematics library.  This is the root file; the header describes
    the whole development and the rest of the file is the prelude.

    ** The program and the files that model it

    Paths are relative to [src/src].  A definition has the name of the function it
    models; helpers that model a part of a function (a loop, a block of
    cases) are named after what they do.

    - Characters.  [CtypeTables]: the three arrays of [internal/ctype.cpp];
      [Ctype]: [ansi/ctype.cpp], [posix/ctype.cpp], [ansi/wctype.cpp].
    - Byte strings.  [CMem]: a flat byte memory with faults; [CString]:
      [ansi/string.cpp], [posix/string.cpp], [posix/strings.cpp] on it.
    - Numbers in strings.  [StrToInt]: [ansi/str_to_int.hpp] and its clients in
      [ansi/stdlib.cpp], [ansi/inttypes.cpp], [ansi/wchar.cpp].
    - Sorting and searching.  [SortSearch]: [qsort], [bsearch] of
      [ansi/stdlib.cpp], the comparison a parameter.
    - Calendar time.  [Calendar]: [internal/time.hpp], the conversions of
      [ansi/time.cpp].
    - Multibyte characters.  [Utf8]: [ansi/wchar.cpp], [ansi/uchar.cpp],
      [internal/string.cpp], the multibyte functions of [ansi/stdlib.cpp].
    - Threads.  [Threads]: interleaving semantics over futexes; on it [Mutex]
      ([internal/mutex.cpp]), [Once] and [ThreadKeys]
      ([internal/thread.cpp]), [Cond] ([internal/thread.cpp],
      [posix/pthread.cpp]), [Semaphore] ([posix/semaphore.cpp]), [RwLock] and
      [Barrier] ([posix/pthread.cpp]).
    - Streams and formatted text.  [Stdio]: [FILE] and its operations
      ([ansi/stdio.cpp], [internal/stdio_unlocked.cpp], [posix/stdio.cpp]);
      [PrintfFloat], [Printf], [PrintfFacts]: [vfprintf] and its callers,
      [FloatDigits]: its floating point conversions are defined;
      [Scanf], [ScanfFacts]: [vfscanf] and its callers.  [Printf] and [Scanf]
      see a file through a class (a sink, a source); [Printf] and [ScanfFacts]
      show that the streams are instances.
    - Mathematics ([ansi/musl-math]).  [Ieee]: binary floating point; [MathBits]
      (functions on the bits), [MathRound], [MathRem] (their theorems),
      [MathTables], [MathElem], [MathElemFacts] (exponentials, logarithms, powers),
      [MathSqrt] (roots, [hypot], [fma]).
    - Compiler support.  [SoftFloat], [SoftFloatFacts], [SoftConvFacts]:
      [internal/float_gcc.cpp]; [IntDiv]: [internal/gcc.cpp].
    - The dynamic linker ([rtld]).  [Elf]: ELF structures read from memory, the
      constructor of [SharedObject] and both hash table lookups
      ([shared_object.cpp], [elf.hpp]), [ElfFacts] their theorem; [Linker]: the
      state of the linker and [ObjectStorage] ([object_storage.cpp]), relocation
      and initialisation of an object ([shared_object.cpp]), the blocks of
      thread-local storage ([rtld.cpp], [main.cpp]); [LookupFacts], [InitFacts],
      [LoadFacts]: symbol resolution, initialisation order, loading;
      [LinkExample]: two small ELF files loaded by a small kernel; [Dlfcn]: the
      interface of [rtld.cpp] behind [dlopen], [dlsym], [dladdr], [dlerror] and
      [__tls_get_addr].
    - Time, process and network services.  [Strftime]: [strftime], [wcsftime],
      [asctime], [ctime] ([ansi/time.cpp], [ansi/wchar.cpp]); [Env]: the
      environment ([ansi/stdlib.cpp], [posix/stdlib.cpp]); [Random]:
      [internal/cha_cha.cpp], [arc4random], [random] and [rand]; [Exit]: the
      handlers of [exit], [quick_exit] and of threads ([ansi/stdlib.cpp],
      [glibc/cxx.cpp]); [Inet]: [posix/inet.cpp], [posix/net_utils.cpp]; [Dns]:
      [internal/dns.cpp] and its use in [posix/netdb.cpp]; [Netdb]: the files of
      hosts, services and name servers, [getaddrinfo] and its relatives
      ([posix/netdb.cpp]).
    - Text and files of the system.  [Literal]: literals of the source;
      [StrToFloat]: [ansi/str_to_float.hpp] behind [strtod] and its relatives,
      [FloatText]: with the output of [%a]; [Getopt]: [getopt]
      ([posix/getopt.cpp]) and [getopt_long] ([glibc/getopt.cpp]); [Fnmatch]:
      [posix/fnmatch.cpp]; [Libgen]: [posix/libgen.cpp]; [Accounts]: the user and
      group databases ([posix/pwd.cpp], [posix/grp.cpp], [bsd/grp.cpp]); [Dirent]:
      [posix/dirent.cpp]; [Tokens]: [strtok] ([internal/string.cpp]) and its
      relatives.

    ** How the code is modelled

    A w-bit integer is a [Z] with its conversions written out ([wrapu], [wraps]
    below).  [char] is signed, [long] and pointers have 64 bits, [long double] is the
    80-bit format of x86 (binary128 in [SoftFloat]), the byte order is little
    endian: the x86_64 build.  Stateful code is a state monad of its component
    ([CM] over a memory, [IO] over a stream and a kernel, the states of [Printf] and
    [Scanf]); undefined accesses, panics and exhausted fuel are results of their
    own, so a theorem about a returned value also excludes them.

    The synchronisation objects are step relations: one step is one atomic access
    by one thread, in one global order (sequentially consistent atomics); a
    futex wait compares and sleeps in one step, a wake-up may be spurious.
    Claims about them are invariants over every reachable configuration of any
    number of threads.  Ghost fields, which no step reads to decide, record
    owners and counts that the words do not show.  [Cond] uses the mutex by its
    interface, which [Mutex] proves.

    Floating point arithmetic is exact arithmetic, rounded to nearest even
    (every rounding mode in [SoftFloat]); there is one quiet NaN and no exception
    flags; the portable C versions are modelled, without fused multiply-add.

    ** Parameters

    Code that is not in the repository is an argument: the kernel behind the
    [sys_] functions (class of [Stdio], with no assumption but that a read returns
    no more than was asked for), [hz::to_integer], [hz::string_view] and
    [hz::bit_width] of the support library, [malloc], the replies of name servers, the
    contents of system files, comparison callbacks, destructors.  For the linker
    the class [LinkSys] holds the kernel, the allocator and the effect of calling
    code of an image; an allocator that hands out an address that is in use is a
    fault.  Its locks are left out (one thread at a time), its vectors are lists,
    its hash maps are finite maps.

    ** Fuel

    Loops that count are structural.  A loop that runs to a terminator takes fuel,
    and each of its theorems says which fuel is enough: the length of the string
    plus one ([CString]), the length of the format ([Printf], [Scanf]), the bits of a
    floating point number ([FloatDigits], for the fixed fuel of [PrintfFloat]), the number of
    years or carries ([Calendar]), the exponent difference ([MathBits], where the
    wrappers supply it), the number of objects (the dynamic linker), the length of
    the message ([Dns]), of pattern and string ([Fnmatch]), the number of options,
    entries or words and one ([Getopt], [Dirent], [Tokens]).  The theorems
    are of the form "with this fuel the result is", never "if there is a result".

    ** What the theorems show

    - functional correctness of string, search, sort, parsing, calendar and
      character functions on every input within their preconditions, with the
      memory outside of the destination unchanged;
    - refinement: a stream is a file with pushed-back bytes; [vsnprintf] is the
      unbounded output, truncated; thread-specific data is a map;
    - locks in every interleaving: mutual exclusion, no lost wake-up (of a mutex,
      and of a condition variable after a waiter gave back the mutex), exactly one
      initialisation, readers and writers excluded, one serial thread in a round
      of a barrier;
    - formatted output and input end on every format, output with the lock
      released; panics and undefined results are confined to arguments that do
      not fit the format (predicates [fits], [scan_fits]) and to digit runs that
      overflow ([overlong]);
    - round trips: calendar, UTF-8, [printf] and [scanf] or [strtol], integers and
      quadruple precision;
    - the floating point functions return the exactly specified number, the
      special values of Annex F, exact argument reductions, table accuracy.
    - the dynamic linker finds a symbol exactly when a hash table has it, takes the
      definition the scopes prescribe over every graph of dependencies, calls every
      entry of the constructor arrays once and the destructors once in the
      opposite order, and, whenever a load succeeds, keeps the object lists and
      the layout of thread-local storage well formed whatever the files contain
      (a load that fails can leave a dangling object, which is a finding).
    - [strftime] writes the reference text exactly when it fits; the environment
      refines a finite map; the key stream behind [arc4random] is never used
      twice; exit handlers run once each in reverse order; IPv4 addresses survive
      printing and parsing; DNS names are expanded within the buffer
      and read no further than the byte behind the message, whatever the message
      holds; [getaddrinfo] returns the addresses of the hosts
      file and of the name server in order.
    - a double printed with [%a] and read by [strtod] is the same number; [getopt] and
      [getopt_long] return the options that a command line spells and find its
      operands; [fnmatch] agrees with a matching relation on patterns with a star
      at most at the end; [basename] is the last component of a path; the lookups
      of users and groups return the entries of the file within the caller's
      buffer, and [initgroups] sets exactly the groups of a user; [scandir] returns
      the entries that the filter keeps, sorted; [strtok] and [strsep] find the
      words and the fields of a text.

    ** Not modelled

    The trigonometric, hyperbolic, error, gamma and Bessel functions (polynomial
    evaluations whose claims are error bounds over the reals), the [long double]
    mathematics, assembly versions; thread creation; the start-up code that
    relocates the linker itself; the wide counterparts of the byte string
    functions; [realpath], the resolver interface of glibc; the wrappers of single
    system calls and the system call layers under [sys]; contexts, the floating
    point environment; locale and message tables; headers, tests and the
    vendored unwinder.

    Findings (places where the code and its documentation or standard differ) are
    theorems about concrete inputs in the file of the component. *)

From stdpp Require Export base list numbers list_numbers option.
From Stdlib Require Export ZArith Lia.

#[global] Open Scope Z_scope.

(** ** Machine integers

    A w-bit unsigned value is a [Z] in [0, 2^w); a w-bit signed value is a [Z]
    in [-2^(w-1), 2^(w-1)).  [wrapu] and [wraps] are the conversions to those
    types: the C++ code reaches them through unsigned arithmetic and through
    [static_cast]. *)
Definition wrapu (w z : Z) : Z := z mod 2 ^ w.

Definition wraps (w z : Z) : Z := (z + 2 ^ (w - 1)) mod 2 ^ w - 2 ^ (w - 1).

Definition umax (w : Z) : Z := 2 ^ w - 1.
Definition smax (w : Z) : Z := 2 ^ (w - 1) - 1.
Definition smin (w : Z) : Z := - 2 ^ (w - 1).

Definition is_u (w z : Z) : Prop := 0 <= z < 2 ^ w.
Definition is_s (w z : Z) : Prop := smin w <= z <= smax w.

Abbreviation u8 := (wrapu 8).
Abbreviation u16 := (wrapu 16).
Abbreviation u32 := (wrapu 32).
Abbreviation u64 := (wrapu 64).
Abbreviation s8 := (wraps 8).
Abbreviation s32 := (wraps 32).
Abbreviation s64 := (wraps 64).

Create HintDb hz.
Create Rewrite HintDb hz.

Lemma wrapu_range w z : 0 <= w -> is_u w (wrapu w z).
Proof. intros Hw. unfold is_u, wrapu. apply Z.mod_pos_bound. lia. Qed.

Lemma wrapu_small w z : is_u w z -> wrapu w z = z.
Proof. apply Z.mod_small. Qed.

Lemma wraps_small w z : 0 < w -> is_s w z -> wraps w z = z.
Proof.
  intros Hw Hz. unfold wraps, is_s, smin, smax in *.
  assert (E : 2 ^ w = 2 * 2 ^ (w - 1)).
  { rewrite <- Z.pow_succ_r by lia. f_equal. lia. }
  rewrite Z.mod_small; lia.
Qed.

Lemma wraps_range w z : 0 < w -> is_s w (wraps w z).
Proof.
  intros Hw. unfold wraps, is_s, smin, smax.
  assert (E : 2 ^ w = 2 * 2 ^ (w - 1)).
  { rewrite <- Z.pow_succ_r by lia. f_equal. lia. }
  pose proof (Z.mod_pos_bound (z + 2 ^ (w - 1)) (2 ^ w)). lia.
Qed.

Lemma wraps_mod w z : 0 < w -> (wraps w z) mod 2 ^ w = z mod 2 ^ w.
Proof.
  intros Hw. unfold wraps.
  rewrite Zminus_mod_idemp_l. f_equal. lia.
Qed.

#[export] Hint Resolve wrapu_range wraps_range : hz.

(** ** Deciding a property of every integer of a range

    The tables of the library (character classes, calendar tables, floating
    point constants) are checked by evaluating a boolean at every index;
    [range_check] turns the evaluation into the universally quantified
    statement. *)
Fixpoint check_from (n : nat) (lo : Z) (P : Z -> bool) : bool :=
  match n with
  | O => true
  | S n => P lo && check_from n (lo + 1) P
  end.

Definition check_range (lo n : Z) (P : Z -> bool) : bool := check_from (Z.to_nat n) lo P.

Lemma check_from_spec P z n : forall lo,
  check_from n lo P = true -> lo <= z < lo + Z.of_nat n -> P z = true.
Proof.
  induction n as [| n IH]; simpl; intros lo H Hz; [lia |].
  apply andb_prop in H as [A B]. destruct (Z.eq_dec lo z) as [<- | N]; [exact A |].
  apply (IH (lo + 1) B). lia.
Qed.

Lemma range_check lo n P :
  check_range lo n P = true -> forall z, lo <= z < lo + n -> P z = true.
Proof. intros H z Hz. apply (check_from_spec P z _ lo H). lia. Qed.

(** ** Disjoint bit fields *)

Lemma lor_fields x a k : 0 <= k -> 0 <= x < 2 ^ k -> Z.lor x (Z.shiftl a k) = x + a * 2 ^ k.
Proof.
  intros Hk Hx. rewrite <- Z.shiftl_mul_pow2 by lia.
  assert (D : Z.land x (Z.shiftl a k) = 0).
  { apply Z.bits_inj'. intros i Hi. rewrite Z.land_spec, Z.bits_0.
    destruct (Z.lt_ge_cases i k) as [L | G].
    - rewrite Z.shiftl_spec_low by lia. apply andb_false_r.
    - rewrite <- (Z.mod_small x (2 ^ k) Hx), Z.mod_pow2_bits_high by lia. reflexivity. }
  rewrite (Z.add_nocarry_lxor _ _ D). symmetry. apply Z.lxor_lor. exact D.
Qed.

(** ** Lists indexed by [Z]

    [znth d l i] is the element of [l] at the machine index [i]; the default is
    returned out of range, where the C++ code has no defined behaviour. *)
Definition znth {A} (d : A) (l : list A) (i : Z) : A :=
  if i <? 0 then d else nth (Z.to_nat i) l d.

Definition zlen {A} (l : list A) : Z := Z.of_nat (length l).

Lemma zlen_nonneg {A} (l : list A) : 0 <= zlen l.
Proof. unfold zlen. lia. Qed.

Lemma zlen_cons {A} (x : A) l : zlen (x :: l) = zlen l + 1.
Proof. unfold zlen. simpl. lia. Qed.

Lemma zlen_app {A} (l k : list A) : zlen (l ++ k) = zlen l + zlen k.
Proof. unfold zlen. rewrite length_app. lia. Qed.

#[export] Hint Resolve zlen_nonneg : hz.
#[export] Hint Rewrite @zlen_cons @zlen_app : hz.

(** ** Tactics *)

(** Case analysis on the boolean integer comparisons of the goal and of the
    hypotheses, with the arithmetic facts they decide. *)
Ltac zbool :=
  repeat match goal with
  | H : context [ Z.eqb ?a ?b ] |- _ => destruct (Z.eqb_spec a b); try discriminate H
  | H : context [ Z.ltb ?a ?b ] |- _ => destruct (Z.ltb_spec a b); try discriminate H
  | H : context [ Z.leb ?a ?b ] |- _ => destruct (Z.leb_spec a b); try discriminate H
  | |- context [ Z.eqb ?a ?b ] => destruct (Z.eqb_spec a b)
  | |- context [ Z.ltb ?a ?b ] => destruct (Z.ltb_spec a b)
  | |- context [ Z.leb ?a ?b ] => destruct (Z.leb_spec a b)
  end.

(** Closing a closed computation. *)
Ltac by_vm := vm_compute; reflexivity.

(** Runs the first bind of the option monad without unfolding the functions it
    calls. *)
Ltac obind := cbn [mbind option_bind].
