(* ===== verification/CtypeTables.v ===== *)
(** * The character classification tables

    [src/src/internal/ctype.cpp] lays out three arrays of 384 entries, indexed
    by a character from -128 to 255: the classification bits and the two case
    conversion tables.  Each array is given here in blocks of 64 entries, in
    the order of the source, and [CTYPE_B_ARRAY], [CTYPE_TOUPPER_ARRAY] and
    [CTYPE_TOLOWER_ARRAY] are their concatenations. *)

From S2P Require Import Prelude.

(** The bits of [include/ctype.h]. *)
Definition _ISupper : Z := Z.shiftl 1 8.
Definition _ISlower : Z := Z.shiftl 1 9.
Definition _ISalpha : Z := Z.shiftl 1 10.
Definition _ISdigit : Z := Z.shiftl 1 11.
Definition _ISxdigit : Z := Z.shiftl 1 12.
Definition _ISspace : Z := Z.shiftl 1 13.
Definition _ISprint : Z := Z.shiftl 1 14.
Definition _ISgraph : Z := Z.shiftl 1 15.
Definition _ISblank : Z := Z.shiftl 1 0.
Definition _IScntrl : Z := Z.shiftl 1 1.
Definition _ISpunct : Z := Z.shiftl 1 2.
Definition _ISalnum : Z := Z.shiftl 1 3.

Declare Scope ctype_scope.
Infix "|||" := Z.lor (at level 50, left associativity) : ctype_scope.
#[local] Open Scope ctype_scope.

(** Characters -128 to -65. *)
Definition CTYPE_B_m128 : list Z := [
  0; 0; 0; 0; 0; 0; 0; 0; 0; 0; 0; 0; 0; 0; 0; 0; 0; 0; 0; 0; 0; 0; 0; 0; 0; 0; 0; 0;
  0; 0; 0; 0; 0; 0; 0; 0; 0; 0; 0; 0; 0; 0; 0; 0; 0; 0; 0; 0; 0; 0; 0; 0; 0; 0; 0; 0;
  0; 0; 0; 0; 0; 0; 0; 0
].

(** Characters -64 to -1. *)
Definition CTYPE_B_m64 : list Z := [
  0; 0; 0; 0; 0; 0; 0; 0; 0; 0; 0; 0; 0; 0; 0; 0; 0; 0; 0; 0; 0; 0; 0; 0; 0; 0; 0; 0;
  0; 0; 0; 0; 0; 0; 0; 0; 0; 0; 0; 0; 0; 0; 0; 0; 0; 0; 0; 0; 0; 0; 0; 0; 0; 0; 0; 0;
  0; 0; 0; 0; 0; 0; 0; 0
].

(** Characters 0 to 63. *)
Definition CTYPE_B_0 : list Z := [
  _IScntrl; _IScntrl; _IScntrl; _IScntrl; _IScntrl; _IScntrl; _IScntrl; _IScntrl;
  _IScntrl; _ISspace ||| _ISblank ||| _IScntrl; _ISspace ||| _IScntrl;
  _ISspace ||| _IScntrl; _ISspace ||| _IScntrl; _ISspace ||| _IScntrl; _IScntrl;
  _IScntrl; _IScntrl; _IScntrl; _IScntrl; _IScntrl; _IScntrl; _IScntrl; _IScntrl;
  _IScntrl; _IScntrl; _IScntrl; _IScntrl; _IScntrl; _IScntrl; _IScntrl; _IScntrl;
  _IScntrl; _ISspace ||| _ISprint ||| _ISblank; _ISprint ||| _ISgraph ||| _ISpunct;
  _ISprint ||| _ISgraph ||| _ISpunct; _ISprint ||| _ISgraph ||| _ISpunct;
  _ISprint ||| _ISgraph ||| _ISpunct; _ISprint ||| _ISgraph ||| _ISpunct;
  _ISprint ||| _ISgraph ||| _ISpunct; _ISprint ||| _ISgraph ||| _ISpunct;
  _ISprint ||| _ISgraph ||| _ISpunct; _ISprint ||| _ISgraph ||| _ISpunct;
  _ISprint ||| _ISgraph ||| _ISpunct; _ISprint ||| _ISgraph ||| _ISpunct;
  _ISprint ||| _ISgraph ||| _ISpunct; _ISprint ||| _ISgraph ||| _ISpunct;
  _ISprint ||| _ISgraph ||| _ISpunct; _ISprint ||| _ISgraph ||| _ISpunct;
  _ISdigit ||| _ISxdigit ||| _ISprint ||| _ISgraph ||| _ISalnum;
  _ISdigit ||| _ISxdigit ||| _ISprint ||| _ISgraph ||| _ISalnum;
  _ISdigit ||| _ISxdigit ||| _ISprint ||| _ISgraph ||| _ISalnum;
  _ISdigit ||| _ISxdigit ||| _ISprint ||| _ISgraph ||| _ISalnum;
  _ISdigit ||| _ISxdigit ||| _ISprint ||| _ISgraph ||| _ISalnum;
  _ISdigit ||| _ISxdigit ||| _ISprint ||| _ISgraph ||| _ISalnum;
  _ISdigit ||| _ISxdigit ||| _ISprint ||| _ISgraph ||| _ISalnum;
  _ISdigit ||| _ISxdigit ||| _ISprint ||| _ISgraph ||| _ISalnum;
  _ISdigit ||| _ISxdigit ||| _ISprint ||| _ISgraph ||| _ISalnum;
  _ISdigit ||| _ISxdigit ||| _ISprint ||| _ISgraph ||| _ISalnum;
  _ISprint ||| _ISgraph ||| _ISpunct; _ISprint ||| _ISgraph ||| _ISpunct;
  _ISprint ||| _ISgraph ||| _ISpunct; _ISprint ||| _ISgraph ||| _ISpunct;
  _ISprint ||| _ISgraph ||| _ISpunct; _ISprint ||| _ISgraph ||| _ISpunct
].

(** Characters 64 to 127. *)
Definition CTYPE_B_64 : list Z := [
  _ISprint ||| _ISgraph ||| _ISpunct;
  _ISupper ||| _ISalpha ||| _ISxdigit ||| _ISprint ||| _ISgraph ||| _ISalnum;
  _ISupper ||| _ISalpha ||| _ISxdigit ||| _ISprint ||| _ISgraph ||| _ISalnum;
  _ISupper ||| _ISalpha ||| _ISxdigit ||| _ISprint ||| _ISgraph ||| _ISalnum;
  _ISupper ||| _ISalpha ||| _ISxdigit ||| _ISprint ||| _ISgraph ||| _ISalnum;
  _ISupper ||| _ISalpha ||| _ISxdigit ||| _ISprint ||| _ISgraph ||| _ISalnum;
  _ISupper ||| _ISalpha ||| _ISxdigit ||| _ISprint ||| _ISgraph ||| _ISalnum;
  _ISupper ||| _ISalpha ||| _ISprint ||| _ISgraph ||| _ISalnum;
  _ISupper ||| _ISalpha ||| _ISprint ||| _ISgraph ||| _ISalnum;
  _ISupper ||| _ISalpha ||| _ISprint ||| _ISgraph ||| _ISalnum;
  _ISupper ||| _ISalpha ||| _ISprint ||| _ISgraph ||| _ISalnum;
  _ISupper ||| _ISalpha ||| _ISprint ||| _ISgraph ||| _ISalnum;
  _ISupper ||| _ISalpha ||| _ISprint ||| _ISgraph ||| _ISalnum;
  _ISupper ||| _ISalpha ||| _ISprint ||| _ISgraph ||| _ISalnum;
  _ISupper ||| _ISalpha ||| _ISprint ||| _ISgraph ||| _ISalnum;
  _ISupper ||| _ISalpha ||| _ISprint ||| _ISgraph ||| _ISalnum;
  _ISupper ||| _ISalpha ||| _ISprint ||| _ISgraph ||| _ISalnum;
  _ISupper ||| _ISalpha ||| _ISprint ||| _ISgraph ||| _ISalnum;
  _ISupper ||| _ISalpha ||| _ISprint ||| _ISgraph ||| _ISalnum;
  _ISupper ||| _ISalpha ||| _ISprint ||| _ISgraph ||| _ISalnum;
  _ISupper ||| _ISalpha ||| _ISprint ||| _ISgraph ||| _ISalnum;
  _ISupper ||| _ISalpha ||| _ISprint ||| _ISgraph ||| _ISalnum;
  _ISupper ||| _ISalpha ||| _ISprint ||| _ISgraph ||| _ISalnum;
  _ISupper ||| _ISalpha ||| _ISprint ||| _ISgraph ||| _ISalnum;
  _ISupper ||| _ISalpha ||| _ISprint ||| _ISgraph ||| _ISalnum;
  _ISupper ||| _ISalpha ||| _ISprint ||| _ISgraph ||| _ISalnum;
  _ISupper ||| _ISalpha ||| _ISprint ||| _ISgraph ||| _ISalnum;
  _ISprint ||| _ISgraph ||| _ISpunct; _ISprint ||| _ISgraph ||| _ISpunct;
  _ISprint ||| _ISgraph ||| _ISpunct; _ISprint ||| _ISgraph ||| _ISpunct;
  _ISprint ||| _ISgraph ||| _ISpunct; _ISprint ||| _ISgraph ||| _ISpunct;
  _ISlower ||| _ISalpha ||| _ISxdigit ||| _ISprint ||| _ISgraph ||| _ISalnum;
  _ISlower ||| _ISalpha ||| _ISxdigit ||| _ISprint ||| _ISgraph ||| _ISalnum;
  _ISlower ||| _ISalpha ||| _ISxdigit ||| _ISprint ||| _ISgraph ||| _ISalnum;
  _ISlower ||| _ISalpha ||| _ISxdigit ||| _ISprint ||| _ISgraph ||| _ISalnum;
  _ISlower ||| _ISalpha ||| _ISxdigit ||| _ISprint ||| _ISgraph ||| _ISalnum;
  _ISlower ||| _ISalpha ||| _ISxdigit ||| _ISprint ||| _ISgraph ||| _ISalnum;
  _ISlower ||| _ISalpha ||| _ISprint ||| _ISgraph ||| _ISalnum;
  _ISlower ||| _ISalpha ||| _ISprint ||| _ISgraph ||| _ISalnum;
  _ISlower ||| _ISalpha ||| _ISprint ||| _ISgraph ||| _ISalnum;
  _ISlower ||| _ISalpha ||| _ISprint ||| _ISgraph ||| _ISalnum;
  _ISlower ||| _ISalpha ||| _ISprint ||| _ISgraph ||| _ISalnum;
  _ISlower ||| _ISalpha ||| _ISprint ||| _ISgraph ||| _ISalnum;
  _ISlower ||| _ISalpha ||| _ISprint ||| _ISgraph ||| _ISalnum;
  _ISlower ||| _ISalpha ||| _ISprint ||| _ISgraph ||| _ISalnum;
  _ISlower ||| _ISalpha ||| _ISprint ||| _ISgraph ||| _ISalnum;
  _ISlower ||| _ISalpha ||| _ISprint ||| _ISgraph ||| _ISalnum;
  _ISlower ||| _ISalpha ||| _ISprint ||| _ISgraph ||| _ISalnum;
  _ISlower ||| _ISalpha ||| _ISprint ||| _ISgraph ||| _ISalnum;
  _ISlower ||| _ISalpha ||| _ISprint ||| _ISgraph ||| _ISalnum;
  _ISlower ||| _ISalpha ||| _ISprint ||| _ISgraph ||| _ISalnum;
  _ISlower ||| _ISalpha ||| _ISprint ||| _ISgraph ||| _ISalnum;
  _ISlower ||| _ISalpha ||| _ISprint ||| _ISgraph ||| _ISalnum;
  _ISlower ||| _ISalpha ||| _ISprint ||| _ISgraph ||| _ISalnum;
  _ISlower ||| _ISalpha ||| _ISprint ||| _ISgraph ||| _ISalnum;
  _ISlower ||| _ISalpha ||| _ISprint ||| _ISgraph ||| _ISalnum;
  _ISlower ||| _ISalpha ||| _ISprint ||| _ISgraph ||| _ISalnum;
  _ISprint ||| _ISgraph ||| _ISpunct; _ISprint ||| _ISgraph ||| _ISpunct;
  _ISprint ||| _ISgraph ||| _ISpunct; _ISprint ||| _ISgraph ||| _ISpunct; _IScntrl
].

(** Characters 128 to 191. *)
Definition CTYPE_B_128 : list Z := [
  0; 0; 0; 0; 0; 0; 0; 0; 0; 0; 0; 0; 0; 0; 0; 0; 0; 0; 0; 0; 0; 0; 0; 0; 0; 0; 0; 0;
  0; 0; 0; 0; 0; 0; 0; 0; 0; 0; 0; 0; 0; 0; 0; 0; 0; 0; 0; 0; 0; 0; 0; 0; 0; 0; 0; 0;
  0; 0; 0; 0; 0; 0; 0; 0
].

(** Characters 192 to 255. *)
Definition CTYPE_B_192 : list Z := [
  0; 0; 0; 0; 0; 0; 0; 0; 0; 0; 0; 0; 0; 0; 0; 0; 0; 0; 0; 0; 0; 0; 0; 0; 0; 0; 0; 0;
  0; 0; 0; 0; 0; 0; 0; 0; 0; 0; 0; 0; 0; 0; 0; 0; 0; 0; 0; 0; 0; 0; 0; 0; 0; 0; 0; 0;
  0; 0; 0; 0; 0; 0; 0; 0
].

Definition CTYPE_B_ARRAY : list Z :=
  CTYPE_B_m128 ++ CTYPE_B_m64 ++ CTYPE_B_0 ++ CTYPE_B_64 ++ CTYPE_B_128 ++ CTYPE_B_192.

(** Characters -128 to -65. *)
Definition CTYPE_TOUPPER_m128 : list Z := [
  128; 129; 130; 131; 132; 133; 134; 135; 136; 137; 138; 139; 140; 141; 142; 143;
  144; 145; 146; 147; 148; 149; 150; 151; 152; 153; 154; 155; 156; 157; 158; 159;
  160; 161; 162; 163; 164; 165; 166; 167; 168; 169; 170; 171; 172; 173; 174; 175;
  176; 177; 178; 179; 180; 181; 182; 183; 184; 185; 186; 187; 188; 189; 190; 191
].

(** Characters -64 to -1. *)
Definition CTYPE_TOUPPER_m64 : list Z := [
  192; 193; 194; 195; 196; 197; 198; 199; 200; 201; 202; 203; 204; 205; 206; 207;
  208; 209; 210; 211; 212; 213; 214; 215; 216; 217; 218; 219; 220; 221; 222; 223;
  224; 225; 226; 227; 228; 229; 230; 231; 232; 233; 234; 235; 236; 237; 238; 239;
  240; 241; 242; 243; 244; 245; 246; 247; 248; 249; 250; 251; 252; 253; 254; (-1)
].

(** Characters 0 to 63. *)
Definition CTYPE_TOUPPER_0 : list Z := [
  0; 1; 2; 3; 4; 5; 6; 7; 8; 9; 10; 11; 12; 13; 14; 15;
  16; 17; 18; 19; 20; 21; 22; 23; 24; 25; 26; 27; 28; 29; 30; 31;
  32; 33; 34; 35; 36; 37; 38; 39; 40; 41; 42; 43; 44; 45; 46; 47;
  48; 49; 50; 51; 52; 53; 54; 55; 56; 57; 58; 59; 60; 61; 62; 63
].

(** Characters 64 to 127. *)
Definition CTYPE_TOUPPER_64 : list Z := [
  64; 65; 66; 67; 68; 69; 70; 71; 72; 73; 74; 75; 76; 77; 78; 79;
  80; 81; 82; 83; 84; 85; 86; 87; 88; 89; 90; 91; 92; 93; 94; 95;
  96; 65; 66; 67; 68; 69; 70; 71; 72; 73; 74; 75; 76; 77; 78; 79;
  80; 81; 82; 83; 84; 85; 86; 87; 88; 89; 90; 123; 124; 125; 126; 127
].

(** Characters 128 to 191. *)
Definition CTYPE_TOUPPER_128 : list Z := [
  128; 129; 130; 131; 132; 133; 134; 135; 136; 137; 138; 139; 140; 141; 142; 143;
  144; 145; 146; 147; 148; 149; 150; 151; 152; 153; 154; 155; 156; 157; 158; 159;
  160; 161; 162; 163; 164; 165; 166; 167; 168; 169; 170; 171; 172; 173; 174; 175;
  176; 177; 178; 179; 180; 181; 182; 183; 184; 185; 186; 187; 188; 189; 190; 191
].

(** Characters 192 to 255. *)
Definition CTYPE_TOUPPER_192 : list Z := [
  192; 193; 194; 195; 196; 197; 198; 199; 200; 201; 202; 203; 204; 205; 206; 207;
  208; 209; 210; 211; 212; 213; 214; 215; 216; 217; 218; 219; 220; 221; 222; 223;
  224; 225; 226; 227; 228; 229; 230; 231; 232; 233; 234; 235; 236; 237; 238; 239;
  240; 241; 242; 243; 244; 245; 246; 247; 248; 249; 250; 251; 252; 253; 254; 255
].

Definition CTYPE_TOUPPER_ARRAY : list Z :=
  CTYPE_TOUPPER_m128 ++ CTYPE_TOUPPER_m64 ++ CTYPE_TOUPPER_0 ++ CTYPE_TOUPPER_64 ++ CTYPE_TOUPPER_128 ++ CTYPE_TOUPPER_192.

(** Characters -128 to -65. *)
Definition CTYPE_TOLOWER_m128 : list Z := [
  128; 129; 130; 131; 132; 133; 134; 135; 136; 137; 138; 139; 140; 141; 142; 143;
  144; 145; 146; 147; 148; 149; 150; 151; 152; 153; 154; 155; 156; 157; 158; 159;
  160; 161; 162; 163; 164; 165; 166; 167; 168; 169; 170; 171; 172; 173; 174; 175;
  176; 177; 178; 179; 180; 181; 182; 183; 184; 185; 186; 187; 188; 189; 190; 191
].

(** Characters -64 to -1. *)
Definition CTYPE_TOLOWER_m64 : list Z := [
  192; 193; 194; 195; 196; 197; 198; 199; 200; 201; 202; 203; 204; 205; 206; 207;
  208; 209; 210; 211; 212; 213; 214; 215; 216; 217; 218; 219; 220; 221; 222; 223;
  224; 225; 226; 227; 228; 229; 230; 231; 232; 233; 234; 235; 236; 237; 238; 239;
  240; 241; 242; 243; 244; 245; 246; 247; 248; 249; 250; 251; 252; 253; 254; (-1)
].

(** Characters 0 to 63. *)
Definition CTYPE_TOLOWER_0 : list Z := [
  0; 1; 2; 3; 4; 5; 6; 7; 8; 9; 10; 11; 12; 13; 14; 15;
  16; 17; 18; 19; 20; 21; 22; 23; 24; 25; 26; 27; 28; 29; 30; 31;
  32; 33; 34; 35; 36; 37; 38; 39; 40; 41; 42; 43; 44; 45; 46; 47;
  48; 49; 50; 51; 52; 53; 54; 55; 56; 57; 58; 59; 60; 61; 62; 63
].

(** Characters 64 to 127. *)
Definition CTYPE_TOLOWER_64 : list Z := [
  64; 97; 98; 99; 100; 101; 102; 103; 104; 105; 106; 107; 108; 109; 110; 111;
  112; 113; 114; 115; 116; 117; 118; 119; 120; 121; 122; 91; 92; 93; 94; 95;
  96; 97; 98; 99; 100; 101; 102; 103; 104; 105; 106; 107; 108; 109; 110; 111;
  112; 113; 114; 115; 116; 117; 118; 119; 120; 121; 122; 123; 124; 125; 126; 127
].

(** Characters 128 to 191. *)
Definition CTYPE_TOLOWER_128 : list Z := [
  128; 129; 130; 131; 132; 133; 134; 135; 136; 137; 138; 139; 140; 141; 142; 143;
  144; 145; 146; 147; 148; 149; 150; 151; 152; 153; 154; 155; 156; 157; 158; 159;
  160; 161; 162; 163; 164; 165; 166; 167; 168; 169; 170; 171; 172; 173; 174; 175;
  176; 177; 178; 179; 180; 181; 182; 183; 184; 185; 186; 187; 188; 189; 190; 191
].

(** Characters 192 to 255. *)
Definition CTYPE_TOLOWER_192 : list Z := [
  192; 193; 194; 195; 196; 197; 198; 199; 200; 201; 202; 203; 204; 205; 206; 207;
  208; 209; 210; 211; 212; 213; 214; 215; 216; 217; 218; 219; 220; 221; 222; 223;
  224; 225; 226; 227; 228; 229; 230; 231; 232; 233; 234; 235; 236; 237; 238; 239;
  240; 241; 242; 243; 244; 245; 246; 247; 248; 249; 250; 251; 252; 253; 254; 255
].

Definition CTYPE_TOLOWER_ARRAY : list Z :=
  CTYPE_TOLOWER_m128 ++ CTYPE_TOLOWER_m64 ++ CTYPE_TOLOWER_0 ++ CTYPE_TOLOWER_64 ++ CTYPE_TOLOWER_128 ++ CTYPE_TOLOWER_192.
