(* ===== verification/Ctype.v ===== *)
(** * Character classification and case conversion

    The functions of [src/src/ansi/ctype.cpp], [src/src/posix/ctype.cpp] and
    [src/src/ansi/wctype.cpp] over the tables of [CtypeTables].  A table
    pointer of [internal/ctype.cpp] points 128 entries into its array, so the
    index of a character [ch] is [ch + 128]; a narrow character is in
    [-128, 255] and a wide one is an unsigned 32-bit value. *)

From stdpp Require Import strings.
From S2P Require Import Prelude CtypeTables.

#[local] Open Scope Z_scope.

(** The entry of [ch] behind [__ctype_b_loc], and the two conversion tables. *)
Definition ctype_b (ch : Z) : Z := znth 0 CTYPE_B_ARRAY (ch + 128).
Definition ctype_toupper (ch : Z) : Z := znth 0 CTYPE_TOUPPER_ARRAY (ch + 128).
Definition ctype_tolower (ch : Z) : Z := znth 0 CTYPE_TOLOWER_ARRAY (ch + 128).

Definition __ctype_get_mb_cur_max : Z := 4.

Definition toupper (ch : Z) : Z := ctype_toupper ch.
Definition tolower (ch : Z) : Z := ctype_tolower ch.
Definition isupper (ch : Z) : Z := Z.land (ctype_b ch) _ISupper.
Definition islower (ch : Z) : Z := Z.land (ctype_b ch) _ISlower.
Definition isalpha (ch : Z) : Z := Z.land (ctype_b ch) _ISalpha.
Definition isdigit (ch : Z) : Z := Z.land (ctype_b ch) _ISdigit.
Definition isxdigit (ch : Z) : Z := Z.land (ctype_b ch) _ISxdigit.
Definition isspace (ch : Z) : Z := Z.land (ctype_b ch) _ISspace.
Definition isprint (ch : Z) : Z := Z.land (ctype_b ch) _ISprint.
Definition isgraph (ch : Z) : Z := Z.land (ctype_b ch) _ISgraph.
Definition isblank (ch : Z) : Z := Z.land (ctype_b ch) _ISblank.
Definition iscntrl (ch : Z) : Z := Z.land (ctype_b ch) _IScntrl.
Definition ispunct (ch : Z) : Z := Z.land (ctype_b ch) _ISpunct.
Definition isalnum (ch : Z) : Z := Z.land (ctype_b ch) _ISalnum.

(** A C condition on the value of an [is...] call. *)
Definition truthy (z : Z) : bool := negb (z =? 0).

(** [posix/ctype.cpp]: the locale argument is ignored. *)
Definition isascii (ch : Z) : bool := (0 <=? ch) && (ch <=? 127).
Definition toupper_l {L : Type} (ch : Z) (_ : L) : Z := toupper ch.
Definition tolower_l {L : Type} (ch : Z) (_ : L) : Z := tolower ch.
Definition isupper_l {L : Type} (ch : Z) (_ : L) : Z := isupper ch.
Definition islower_l {L : Type} (ch : Z) (_ : L) : Z := islower ch.
Definition isalpha_l {L : Type} (ch : Z) (_ : L) : Z := isalpha ch.
Definition isdigit_l {L : Type} (ch : Z) (_ : L) : Z := isdigit ch.
Definition isxdigit_l {L : Type} (ch : Z) (_ : L) : Z := isxdigit ch.
Definition isspace_l {L : Type} (ch : Z) (_ : L) : Z := isspace ch.
Definition isprint_l {L : Type} (ch : Z) (_ : L) : Z := isprint ch.
Definition isgraph_l {L : Type} (ch : Z) (_ : L) : Z := isgraph ch.
Definition isblank_l {L : Type} (ch : Z) (_ : L) : Z := isblank ch.
Definition iscntrl_l {L : Type} (ch : Z) (_ : L) : Z := iscntrl ch.
Definition ispunct_l {L : Type} (ch : Z) (_ : L) : Z := ispunct ch.
Definition isalnum_l {L : Type} (ch : Z) (_ : L) : Z := isalnum ch.

(** [ansi/wctype.cpp]: a wide character above 0x7F is in no class. *)
Definition isw (mask ch : Z) : Z := if 0x7F <? ch then 0 else Z.land (ctype_b ch) mask.
Definition iswupper : Z -> Z := isw _ISupper.
Definition iswlower : Z -> Z := isw _ISlower.
Definition iswalpha : Z -> Z := isw _ISalpha.
Definition iswdigit : Z -> Z := isw _ISdigit.
Definition iswxdigit : Z -> Z := isw _ISxdigit.
Definition iswspace : Z -> Z := isw _ISspace.
Definition iswprint : Z -> Z := isw _ISprint.
Definition iswgraph : Z -> Z := isw _ISgraph.
Definition iswblank : Z -> Z := isw _ISblank.
Definition iswcntrl : Z -> Z := isw _IScntrl.
Definition iswpunct : Z -> Z := isw _ISpunct.
Definition iswalnum : Z -> Z := isw _ISalnum.
Definition towupper (ch : Z) : Z := if 0x7F <? ch then 0 else toupper ch.
Definition towlower (ch : Z) : Z := if 0x7F <? ch then 0 else tolower ch.

Definition wctype (property : string) : Z :=
  if String.eqb property "alnum" then _ISalnum
  else if String.eqb property "alpha" then _ISalpha
  else if String.eqb property "blank" then _ISblank
  else if String.eqb property "cntrl" then _IScntrl
  else if String.eqb property "digit" then _ISdigit
  else if String.eqb property "graph" then _ISgraph
  else if String.eqb property "lower" then _ISlower
  else if String.eqb property "print" then _ISprint
  else if String.eqb property "space" then _ISspace
  else if String.eqb property "upper" then _ISupper
  else if String.eqb property "xdigit" then _ISxdigit
  else 0.

Definition iswctype (wc desc : Z) : Z :=
  if 0x7F <? wc then 0 else if Z.land (ctype_b wc) desc =? 0 then 0 else 1.

(** ** The C-locale classes, by ranges of ASCII codes *)
Module CLocale.
Definition between (lo c hi : Z) : bool := (lo <=? c) && (c <=? hi).
Definition upper (c : Z) : bool := between 65 c 90.
Definition lower (c : Z) : bool := between 97 c 122.
Definition alpha (c : Z) : bool := upper c || lower c.
Definition digit (c : Z) : bool := between 48 c 57.
Definition xdigit (c : Z) : bool := digit c || between 65 c 70 || between 97 c 102.
Definition space (c : Z) : bool := (c =? 32) || between 9 c 13.
Definition print (c : Z) : bool := between 32 c 126.
Definition graph (c : Z) : bool := between 33 c 126.
Definition blank (c : Z) : bool := (c =? 32) || (c =? 9).
Definition cntrl (c : Z) : bool := between 0 c 31 || (c =? 127).
Definition alnum (c : Z) : bool := alpha c || digit c.
Definition punct (c : Z) : bool := graph c && negb (alnum c).
Definition to_lower (c : Z) : Z := if upper c then c + 32 else c.
Definition to_upper (c : Z) : Z := if lower c then c - 32 else c.
(** What a conversion table holds for an index that is not an unsigned byte: a
    negative [signed char] is mapped to the byte it stands for, EOF to itself. *)
Definition byte_of_index (c : Z) : Z := if between (-128) c (-2) then c + 256 else c.
End CLocale.

(** The domain of the tables: every [signed char], every [unsigned char]
    and EOF. *)
Definition ctype_index (ch : Z) : Prop := -128 <= ch <= 255.

(** One evaluation of all twelve classes and both conversions at an index. *)
Definition agrees (ch : Z) : bool :=
  Bool.eqb (truthy (isupper ch)) (CLocale.upper ch) &&
  Bool.eqb (truthy (islower ch)) (CLocale.lower ch) &&
  Bool.eqb (truthy (isalpha ch)) (CLocale.alpha ch) &&
  Bool.eqb (truthy (isdigit ch)) (CLocale.digit ch) &&
  Bool.eqb (truthy (isxdigit ch)) (CLocale.xdigit ch) &&
  Bool.eqb (truthy (isspace ch)) (CLocale.space ch) &&
  Bool.eqb (truthy (isprint ch)) (CLocale.print ch) &&
  Bool.eqb (truthy (isgraph ch)) (CLocale.graph ch) &&
  Bool.eqb (truthy (isblank ch)) (CLocale.blank ch) &&
  Bool.eqb (truthy (iscntrl ch)) (CLocale.cntrl ch) &&
  Bool.eqb (truthy (ispunct ch)) (CLocale.punct ch) &&
  Bool.eqb (truthy (isalnum ch)) (CLocale.alnum ch) &&
  (tolower ch =? CLocale.to_lower (CLocale.byte_of_index ch)) &&
  (toupper ch =? CLocale.to_upper (CLocale.byte_of_index ch)).

Lemma agrees_all ch : ctype_index ch -> agrees ch = true.
Proof.
  intros H. revert ch H.
  assert (C : check_range (-128) 384 agrees = true) by by_vm.
  intros ch [H1 H2]. apply (range_check _ _ _ C). lia.
Qed.

(** Splits [agrees_all] into its conjuncts and keeps the equations. *)
Ltac ctype_agree ch H :=
  let A := fresh "A" in
  pose proof (agrees_all ch H) as A; unfold agrees in A;
  rewrite !andb_true_iff, !Bool.eqb_true_iff, !Z.eqb_eq in A; destruct_and! A.

Lemma isspace_spec ch : ctype_index ch -> truthy (isspace ch) = CLocale.space ch.
Proof. intros H. ctype_agree ch H. assumption. Qed.

Lemma isdigit_spec ch : ctype_index ch -> truthy (isdigit ch) = CLocale.digit ch.
Proof. intros H. ctype_agree ch H. assumption. Qed.

Lemma tolower_spec ch :
  ctype_index ch -> tolower ch = CLocale.to_lower (CLocale.byte_of_index ch).
Proof. intros H. ctype_agree ch H. assumption. Qed.

Lemma toupper_spec ch :
  ctype_index ch -> toupper ch = CLocale.to_upper (CLocale.byte_of_index ch).
Proof. intros H. ctype_agree ch H. assumption. Qed.

(** C40: on every character code the tables are indexed with, each of the twelve
    [is...] functions is nonzero exactly on its C-locale class, so no class
    holds at a negative index or above 127, and the conversions change exactly
    the letters of the other case. *)
Theorem ctype_classes_correct ch :
  ctype_index ch ->
  truthy (isupper ch) = CLocale.upper ch /\ truthy (islower ch) = CLocale.lower ch /\
  truthy (isalpha ch) = CLocale.alpha ch /\ truthy (isdigit ch) = CLocale.digit ch /\
  truthy (isxdigit ch) = CLocale.xdigit ch /\ truthy (isspace ch) = CLocale.space ch /\
  truthy (isprint ch) = CLocale.print ch /\ truthy (isgraph ch) = CLocale.graph ch /\
  truthy (isblank ch) = CLocale.blank ch /\ truthy (iscntrl ch) = CLocale.cntrl ch /\
  truthy (ispunct ch) = CLocale.punct ch /\ truthy (isalnum ch) = CLocale.alnum ch /\
  tolower ch = CLocale.to_lower (CLocale.byte_of_index ch) /\
  toupper ch = CLocale.to_upper (CLocale.byte_of_index ch).
Proof. intros H. ctype_agree ch H. tauto. Qed.

Lemma ctype_classes_correct_witness :
  ctype_index 103 /\ truthy (isxdigit 103) = CLocale.xdigit 103.
Proof.
  assert (H : ctype_index 103) by (unfold ctype_index; lia).
  split; [exact H | apply (ctype_classes_correct 103 H)].
Defined.
