(* ===== verification/CMem.v ===== *)
(** * Byte memory

    The string and memory functions work on pointers into a flat address
    space.  A memory maps the addresses that are allocated to their bytes, in
    [0, 255]; reading or writing any other address is the [Fault] outcome, so
    a theorem that a function returns [Ret] also says that it stays inside the
    allocated bytes.  A C loop without a syntactic bound takes fuel, and
    [OutOfFuel] tells an exhausted bound from a return. *)

From stdpp Require Import gmap.
From S2P Require Import Prelude.

#[local] Open Scope Z_scope.

Abbreviation mem := (gmap Z Z).

Inductive outcome (A : Type) : Type :=
| Ret (a : A) (m : mem)
| Fault (addr : Z)
| OutOfFuel.
Arguments Ret {A} a m.
Arguments Fault {A} addr.
Arguments OutOfFuel {A}.

Definition CM (A : Type) : Type := mem -> outcome A.

Definition cret {A} (a : A) : CM A := fun m => Ret a m.

Definition cbind {A B} (c : CM A) (k : A -> CM B) : CM B := fun m =>
  match c m with
  | Ret a m' => k a m'
  | Fault p => Fault p
  | OutOfFuel => OutOfFuel
  end.

Definition cfuel {A} : CM A := fun _ => OutOfFuel.

(** [*p] as an unsigned byte, and [*p = v]. *)
Definition load8 (p : Z) : CM Z := fun m =>
  match m !! p with Some b => Ret b m | None => Fault p end.

Definition store8 (p v : Z) : CM unit := fun m =>
  match m !! p with Some _ => Ret tt (<[p := u8 v]> m) | None => Fault p end.

Declare Scope cm_scope.
Delimit Scope cm_scope with cm.
Notation "x <- c ;; k" := (cbind c (fun x => k))
  (at level 100, c at next level, right associativity) : cm_scope.
Notation "c ;;; k" := (cbind c (fun _ => k))
  (at level 100, right associativity) : cm_scope.
#[global] Open Scope cm_scope.

(** [*p] as a [char], which is signed on the modelled x86_64 target. *)
Definition loadc (p : Z) : CM Z := b <- load8 p ;; cret (s8 b).

(** A null pointer. *)
Definition nullptr : Z := 0.

(** ** Contents of memory *)

(** The bytes [l] are stored from address [p] on. *)
Fixpoint bytes_at (m : mem) (p : Z) (l : list Z) : Prop :=
  match l with
  | [] => True
  | b :: l' => m !! p = Some b /\ bytes_at m (p + 1) l'
  end.

(** A C string [s] at [p]: its bytes are in [1, 255] and a zero byte follows. *)
Definition cstr (m : mem) (p : Z) (s : list Z) : Prop :=
  Forall (fun b => 1 <= b <= 255) s /\ bytes_at m p s /\ m !! (p + zlen s) = Some 0.

(** [n] bytes from [p] on are allocated. *)
Definition alloc_at (m : mem) (p n : Z) : Prop :=
  forall a, p <= a < p + n -> is_Some (m !! a).

(** Every stored value is a byte. *)
Definition mem_ok (m : mem) : Prop := forall a b, m !! a = Some b -> 0 <= b <= 255.

(** [m'] agrees with [m] outside of [p, p + n). *)
Definition unchanged_outside (m m' : mem) (p n : Z) : Prop :=
  forall a, ~ (p <= a < p + n) -> m' !! a = m !! a.

(** ** Monad and memory lemmas *)

Lemma cbind_ret {A B} (c : CM A) (k : A -> CM B) m a m' :
  c m = Ret a m' -> cbind c k m = k a m'.
Proof. intros E. unfold cbind. rewrite E. reflexivity. Qed.

Lemma load8_ok m p b : m !! p = Some b -> load8 p m = Ret b m.
Proof. intros E. unfold load8. rewrite E. reflexivity. Qed.

Lemma loadc_ok m p b : m !! p = Some b -> loadc p m = Ret (s8 b) m.
Proof. intros E. unfold loadc, cbind. rewrite (load8_ok m p b E). reflexivity. Qed.

Lemma store8_ok m p v : is_Some (m !! p) -> store8 p v m = Ret tt (<[p := u8 v]> m).
Proof. intros [b E]. unfold store8. rewrite E. reflexivity. Qed.

Lemma u8_byte b : 0 <= b <= 255 -> u8 b = b.
Proof. intros H. apply wrapu_small. unfold is_u. change (2 ^ 8) with 256. lia. Qed.

Lemma u8_s8 b : u8 (s8 b) = u8 b.
Proof. unfold wrapu. apply (wraps_mod 8). lia. Qed.

Lemma s8_inj a b : 0 <= a <= 255 -> 0 <= b <= 255 -> s8 a = s8 b -> a = b.
Proof.
  intros Ha Hb E. rewrite <- (u8_byte a Ha), <- (u8_byte b Hb), <- (u8_s8 a), E.
  apply u8_s8.
Qed.

Lemma s8_zero b : 0 <= b <= 255 -> (s8 b =? 0) = (b =? 0).
Proof.
  intros Hb. destruct (Z.eqb_spec b 0) as [-> | Hne]; [reflexivity |].
  apply Z.eqb_neq. intros E. apply Hne. apply (s8_inj b 0 Hb); [lia | exact E].
Qed.

Lemma bytes_at_lookup m l : forall p i b,
  bytes_at m p l -> l !! i = Some b -> m !! (p + Z.of_nat i) = Some b.
Proof.
  induction l as [| c l IH]; intros p i b H Hi; [discriminate |].
  destruct H as [H1 H2]. destruct i as [| i]; simpl in Hi.
  - injection Hi as ->. replace (p + Z.of_nat 0) with p by lia. exact H1.
  - replace (p + Z.of_nat (S i)) with (p + 1 + Z.of_nat i) by lia. eauto.
Qed.

Lemma bytes_at_app m l k : forall p,
  bytes_at m p (l ++ k) <-> bytes_at m p l /\ bytes_at m (p + zlen l) k.
Proof.
  induction l as [| c l IH]; intros p; simpl.
  - unfold zlen; simpl. rewrite Z.add_0_r. tauto.
  - rewrite IH, zlen_cons. replace (p + 1 + zlen l) with (p + (zlen l + 1)) by lia. tauto.
Qed.

(** A block of bytes survives any change outside of it. *)
Lemma bytes_at_frame m m' l : forall p,
  bytes_at m p l ->
  (forall a, p <= a < p + zlen l -> m' !! a = m !! a) ->
  bytes_at m' p l.
Proof.
  induction l as [| c l IH]; intros p H F; simpl; [exact I |].
  rewrite zlen_cons in F. pose proof (zlen_nonneg l).
  destruct H as [H1 H2]. split.
  - rewrite F; [exact H1 | lia].
  - apply IH; [exact H2 | intros a Ha; apply F; lia].
Qed.

Lemma cstr_cons m p c s : cstr m p (c :: s) <->
  1 <= c <= 255 /\ m !! p = Some c /\ cstr m (p + 1) s.
Proof.
  unfold cstr. rewrite Forall_cons_iff, zlen_cons. simpl.
  replace (p + (zlen s + 1)) with (p + 1 + zlen s) by lia. tauto.
Qed.

Lemma cstr_nil m p : cstr m p [] <-> m !! p = Some 0.
Proof.
  unfold cstr, zlen. simpl. rewrite Z.add_0_r.
  split; [tauto | intros H; repeat split; [constructor | exact H]].
Qed.

Lemma cstr_frame m m' p s :
  cstr m p s -> (forall a, p <= a < p + zlen s + 1 -> m' !! a = m !! a) -> cstr m' p s.
Proof.
  intros (HF & HB & HZ) F. pose proof (zlen_nonneg s).
  split; [exact HF | split].
  - apply (bytes_at_frame m); [exact HB | intros a Ha; apply F; lia].
  - rewrite F; [exact HZ | lia].
Qed.

Lemma alloc_at_cons m p n : 0 <= n ->
  alloc_at m p (n + 1) -> is_Some (m !! p) /\ alloc_at m (p + 1) n.
Proof.
  intros Hn H. split; [apply H; lia | intros a Ha; apply H; lia].
Qed.

Lemma alloc_at_insert m p n q v : alloc_at m p n -> alloc_at (<[q := v]> m) p n.
Proof.
  intros H a Ha. destruct (decide (q = a)) as [-> | Hne].
  - rewrite lookup_insert_eq. eauto.
  - rewrite lookup_insert_ne by exact Hne. apply H. exact Ha.
Qed.

Lemma cstr_alloc m p s : cstr m p s -> alloc_at m p (zlen s + 1).
Proof.
  intros (_ & HB & HZ) a Ha.
  destruct (decide (a = p + zlen s)) as [-> | Hne]; [eauto |].
  assert (Hi : (Z.to_nat (a - p) < length s)%nat) by (unfold zlen in *; lia).
  destruct (lookup_lt_is_Some_2 s _ Hi) as [b Hb].
  pose proof (bytes_at_lookup m s p _ b HB Hb) as E.
  replace (p + Z.of_nat (Z.to_nat (a - p))) with a in E by lia. eauto.
Qed.

Lemma unchanged_refl m p n : unchanged_outside m m p n.
Proof. intros a _. reflexivity. Qed.

Lemma unchanged_step m m' p n v : 0 <= n ->
  unchanged_outside (<[p := v]> m) m' (p + 1) n -> unchanged_outside m m' p (n + 1).
Proof.
  intros Hn H a Ha. rewrite H by lia. apply lookup_insert_ne. lia.
Qed.

#[export] Hint Resolve alloc_at_insert unchanged_refl : hz.

(** ** Concrete memories, for evaluating the functions *)

(** The memory that holds the bytes [l] from [p] on and nothing else. *)
Fixpoint mem_of (p : Z) (l : list Z) : mem :=
  match l with
  | [] => ∅
  | b :: l' => <[p := b]> (mem_of (p + 1) l')
  end.

Lemma mem_of_ok p l : forallb (fun b => (0 <=? b) && (b <=? 255)) l = true -> mem_ok (mem_of p l).
Proof.
  revert p. induction l as [| c l IH]; intros p H a b Hb; simpl in *.
  - rewrite lookup_empty in Hb. discriminate.
  - apply andb_true_iff in H as [Hc H]. destruct (decide (p = a)) as [-> | Hne].
    + rewrite lookup_insert_eq in Hb. injection Hb as <-. lia.
    + rewrite lookup_insert_ne in Hb by exact Hne. eapply IH; eauto.
Qed.

Lemma mem_ok_union m1 m2 : mem_ok m1 -> mem_ok m2 -> mem_ok (m1 ∪ m2).
Proof.
  intros H1 H2 a b Hb. apply lookup_union_Some_raw in Hb as [Hb | [_ Hb]]; eauto.
Qed.

Lemma alloc_at_check m p n :
  check_range p n (fun a => match m !! a with Some _ => true | None => false end) = true ->
  alloc_at m p n.
Proof.
  intros C a Ha. pose proof (range_check _ _ _ C a Ha) as H. simpl in H.
  destruct (m !! a); [eauto | discriminate].
Qed.

(** Runs the first load or store of a computation whose memory cell is known. *)
Ltac cm_step :=
  match goal with
  | E : ?m !! ?p = Some ?b |- context [ cbind (load8 ?p) _ ?m ] =>
      rewrite (cbind_ret _ _ _ _ _ (load8_ok m p b E))
  | E : ?m !! ?p = Some ?b |- context [ cbind (loadc ?p) _ ?m ] =>
      rewrite (cbind_ret _ _ _ _ _ (loadc_ok m p b E))
  | E : is_Some (?m !! ?p) |- context [ cbind (store8 ?p ?v) _ ?m ] =>
      rewrite (cbind_ret _ _ _ _ _ (store8_ok m p v E))
  end.
