(* ===== verification/CString.v ===== *)
(** * String and memory functions

    [src/src/ansi/string.cpp], [src/src/posix/string.cpp] and the byte
    functions of [src/src/posix/strings.cpp], on the byte memory of [CMem].
    A pointer is its address, [size_t] counters are integers (an object never
    exceeds the address space), and a [char] is signed.  A loop that runs to a
    terminator takes fuel; a loop that counts down is structural on its count.
    [malloc] is an argument of the functions that call it. *)

From stdpp Require Import gmap.
From S2P Require Import Prelude Ctype CMem.

#[local] Open Scope Z_scope.

(** ** Operations *)

Fixpoint strlen_loop (fuel : nat) (str len : Z) : CM Z :=
  match fuel with
  | O => cfuel
  | S f => c <- load8 str ;;
           if c =? 0 then cret len else strlen_loop f (str + 1) (len + 1)
  end.
Definition strlen (fuel : nat) (str : Z) : CM Z := strlen_loop fuel str 0.

Fixpoint strcmp (fuel : nat) (lhs rhs : Z) : CM Z :=
  match fuel with
  | O => cfuel
  | S f => l <- loadc lhs ;; r <- loadc rhs ;;
           let res := l - r in
           if negb (res =? 0) || (l =? 0) then cret res
           else strcmp f (lhs + 1) (rhs + 1)
  end.

Fixpoint strncmp_loop (count : nat) (lhs rhs : Z) : CM Z :=
  match count with
  | O => cret 0
  | S n => l <- loadc lhs ;; r <- loadc rhs ;;
           let res := l - r in
           if negb (res =? 0) || (l =? 0) then cret res
           else strncmp_loop n (lhs + 1) (rhs + 1)
  end.
Definition strncmp (lhs rhs count : Z) : CM Z := strncmp_loop (Z.to_nat count) lhs rhs.

Fixpoint strchr (fuel : nat) (str ch : Z) : CM Z :=
  match fuel with
  | O => cfuel
  | S f => c <- loadc str ;;
           if c =? 0 then cret (if ch =? 0 then str else nullptr)
           else if c =? ch then cret str
           else strchr f (str + 1) ch
  end.

(** The loop of [strrchr]: [i] runs down from [strlen(str) + 1]. *)
Fixpoint strrchr_loop (i : nat) (str ch : Z) : CM Z :=
  match i with
  | O => cret nullptr
  | S j => c <- loadc (str + Z.of_nat j) ;;
           if c =? ch then cret (str + Z.of_nat j) else strrchr_loop j str ch
  end.
Definition strrchr (fuel : nat) (str ch : Z) : CM Z :=
  len <- strlen fuel str ;; strrchr_loop (Z.to_nat (len + 1)) str ch.

Fixpoint strcpy_loop (fuel : nat) (dest src : Z) : CM Z :=
  match fuel with
  | O => cfuel
  | S f => c <- load8 src ;;
           if c =? 0 then store8 dest 0 ;;; cret dest
           else store8 dest c ;;; strcpy_loop f (dest + 1) (src + 1)
  end.
Definition strcpy (fuel : nat) (dest src : Z) : CM Z :=
  _ <- strcpy_loop fuel dest src ;; cret dest.

(** [posix/string.cpp]: the same loop, returning the end of the copy. *)
Definition stpcpy (fuel : nat) (dest src : Z) : CM Z := strcpy_loop fuel dest src.

(** The second loop of [strncpy], and [memset]: [count] bytes of value [v]. *)
Fixpoint fill_loop (count : nat) (dest v : Z) : CM unit :=
  match count with
  | O => cret tt
  | S n => store8 dest v ;;; fill_loop n (dest + 1) v
  end.

Fixpoint strncpy_loop (count : nat) (dest src : Z) : CM unit :=
  match count with
  | O => cret tt
  | S n => c <- load8 src ;;
           if c =? 0 then fill_loop (S n) dest 0
           else store8 dest c ;;; strncpy_loop n (dest + 1) (src + 1)
  end.
Definition strncpy (dest src count : Z) : CM Z :=
  strncpy_loop (Z.to_nat count) dest src ;;; cret dest.

Definition memset (dest ch size : Z) : CM Z :=
  fill_loop (Z.to_nat size) dest (u8 ch) ;;; cret dest.

Fixpoint memcpy_loop (size : nat) (dest src : Z) : CM unit :=
  match size with
  | O => cret tt
  | S n => b <- load8 src ;; store8 dest b ;;; memcpy_loop n (dest + 1) (src + 1)
  end.
Definition memcpy (dest src size : Z) : CM Z :=
  memcpy_loop (Z.to_nat size) dest src ;;; cret dest.

(** The descending loop of [memmove]: [dest[i - 1] = src[i - 1]]. *)
Fixpoint memmove_back (i : nat) (dest src : Z) : CM unit :=
  match i with
  | O => cret tt
  | S j => b <- load8 (src + Z.of_nat j) ;; store8 (dest + Z.of_nat j) b ;;;
           memmove_back j dest src
  end.
Definition memmove (dest src size : Z) : CM Z :=
  if (dest <? src) || (u64 (src + size) <=? dest) then memcpy dest src size
  else if src <? dest then memmove_back (Z.to_nat size) dest src ;;; cret dest
  else cret dest.

Definition strcat (fuel : nat) (dest src : Z) : CM Z :=
  len <- strlen fuel dest ;; src_len <- strlen fuel src ;;
  memcpy (dest + len) src (src_len + 1) ;;; cret dest.

Fixpoint memccpy_loop (size : nat) (dest src c : Z) : CM Z :=
  match size with
  | O => cret nullptr
  | S n => b <- load8 src ;; store8 dest b ;;; d <- load8 dest ;;
           if d =? c then cret (dest + 1) else memccpy_loop n (dest + 1) (src + 1) c
  end.
Definition memccpy (dest src ch size : Z) : CM Z :=
  memccpy_loop (Z.to_nat size) dest src (u8 ch).

Fixpoint strncat_loop (count : nat) (ptr src : Z) : CM unit :=
  match count with
  | O => store8 ptr 0
  | S n => c <- load8 src ;;
           if c =? 0 then store8 ptr 0
           else store8 ptr c ;;; strncat_loop n (ptr + 1) (src + 1)
  end.
Definition strncat (fuel : nat) (dest src count : Z) : CM Z :=
  len <- strlen fuel dest ;; strncat_loop (Z.to_nat count) (dest + len) src ;;; cret dest.

(** The bounded length loop of [strnlen] and [strndup]. *)
Fixpoint strnlen_loop (max_len : nat) (str len : Z) : CM Z :=
  match max_len with
  | O => cret len
  | S n => c <- load8 str ;;
           if c =? 0 then cret len else strnlen_loop n (str + 1) (len + 1)
  end.
Definition strnlen (str max_len : Z) : CM Z := strnlen_loop (Z.to_nat max_len) str 0.

Section WithMalloc.
Variable malloc : Z -> CM Z.

Definition strdup (fuel : nat) (str : Z) : CM Z :=
  len <- strlen fuel str ;; p <- malloc (len + 1) ;;
  if p =? nullptr then cret nullptr
  else memcpy p str (len + 1) ;;; cret p.

Definition strndup (str size : Z) : CM Z :=
  len <- strnlen str size ;; p <- malloc (len + 1) ;;
  if p =? nullptr then cret nullptr
  else memcpy p str len ;;; store8 (p + len) 0 ;;; cret p.
End WithMalloc.

(** [search[i] == c] for some [i < len]. *)
Fixpoint search_set (len : nat) (search c : Z) : CM bool :=
  match len with
  | O => cret false
  | S n => s <- loadc search ;;
           if c =? s then cret true else search_set n (search + 1) c
  end.

Fixpoint strspn_loop (fuel : nat) (str search len found : Z) : CM Z :=
  match fuel with
  | O => cfuel
  | S f => c <- loadc str ;;
           if c =? 0 then cret found
           else b <- search_set (Z.to_nat len) search c ;;
                if b then strspn_loop f (str + 1) search len (found + 1) else cret found
  end.
Definition strspn (fuel : nat) (str search : Z) : CM Z :=
  len <- strlen fuel search ;; strspn_loop fuel str search len 0.

Fixpoint strcspn_loop (fuel : nat) (str search len found : Z) : CM Z :=
  match fuel with
  | O => cfuel
  | S f => c <- loadc str ;;
           if c =? 0 then cret found
           else b <- search_set (Z.to_nat len) search c ;;
                if b then cret found else strcspn_loop f (str + 1) search len (found + 1)
  end.
Definition strcspn (fuel : nat) (str search : Z) : CM Z :=
  len <- strlen fuel search ;; strcspn_loop fuel str search len 0.

Definition strcoll : nat -> Z -> Z -> CM Z := strcmp.

Definition strxfrm (fuel : nat) (dest src count : Z) : CM Z :=
  len <- strlen fuel src ;;
  if negb (dest =? nullptr) && (len <? count)
  then memcpy dest src (len + 1) ;;; cret len
  else cret len.

Fixpoint memcmp_loop (count : nat) (lhs rhs : Z) : CM Z :=
  match count with
  | O => cret 0
  | S n => l <- load8 lhs ;; r <- load8 rhs ;;
           if negb (l - r =? 0) then cret (l - r) else memcmp_loop n (lhs + 1) (rhs + 1)
  end.
Definition memcmp (lhs rhs count : Z) : CM Z := memcmp_loop (Z.to_nat count) lhs rhs.

Fixpoint memchr_loop (count : nat) (p ch : Z) : CM Z :=
  match count with
  | O => cret nullptr
  | S n => b <- load8 p ;; if b =? u8 ch then cret p else memchr_loop n (p + 1) ch
  end.
Definition memchr (ptr ch count : Z) : CM Z := memchr_loop (Z.to_nat count) ptr ch.

(** [posix/strings.cpp]. *)
Fixpoint strcasecmp (fuel : nat) (s1 s2 : Z) : CM Z :=
  match fuel with
  | O => cfuel
  | S f => a <- loadc s1 ;; b <- loadc s2 ;;
           let res := tolower a - tolower b in
           if negb (res =? 0) || (a =? 0) then cret res
           else strcasecmp f (s1 + 1) (s2 + 1)
  end.

Fixpoint strncasecmp_loop (count : nat) (s1 s2 : Z) : CM Z :=
  match count with
  | O => cret 0
  | S n => a <- loadc s1 ;; b <- loadc s2 ;;
           let res := tolower a - tolower b in
           if negb (res =? 0) || (a =? 0) then cret res
           else strncasecmp_loop n (s1 + 1) (s2 + 1)
  end.
Definition strncasecmp (s1 s2 count : Z) : CM Z := strncasecmp_loop (Z.to_nat count) s1 s2.

Definition bcmp : Z -> Z -> Z -> CM Z := memcmp.
Definition bcopy (src dest size : Z) : CM unit := memmove dest src size ;;; cret tt.
Definition bzero (dest size : Z) : CM unit := memset dest 0 size ;;; cret tt.

(** [ffs]: the loop variable runs over the 32 bits of an [int]. *)
Fixpoint ffs_loop (bits : nat) (i value : Z) : Z :=
  match bits with
  | O => 0
  | S n => if negb (Z.land value (Z.shiftl 1 i) =? 0) then i + 1 else ffs_loop n (i + 1) value
  end.
Definition ffs (value : Z) : Z := ffs_loop 32 0 value.

(** ** Scanning lemmas *)

Lemma strlen_loop_ok m s : forall fuel p len,
  cstr m p s -> (length s < fuel)%nat ->
  strlen_loop fuel p len m = Ret (len + zlen s) m.
Proof.
  induction s as [| c s IH]; intros fuel p len H Hf; destruct fuel as [| f]; simpl in Hf; try lia.
  - apply cstr_nil in H. simpl. cm_step. rewrite Z.eqb_refl.
    unfold cret, zlen. simpl. f_equal. lia.
  - apply cstr_cons in H as (Hc & E & H). simpl. cm_step.
    destruct (Z.eqb_spec c 0) as [-> | _]; [lia |].
    rewrite (IH f (p + 1) (len + 1) H) by lia. rewrite zlen_cons. f_equal. lia.
Qed.

Lemma strlen_ok m s fuel p :
  cstr m p s -> (length s < fuel)%nat -> strlen fuel p m = Ret (zlen s) m.
Proof. intros H Hf. unfold strlen. rewrite (strlen_loop_ok m s) by assumption. f_equal. Qed.

Lemma fill_loop_ok n : forall dest v m,
  alloc_at m dest (Z.of_nat n) ->
  exists m', fill_loop n dest v m = Ret tt m' /\
    (forall a, dest <= a < dest + Z.of_nat n -> m' !! a = Some (u8 v)) /\
    unchanged_outside m m' dest (Z.of_nat n).
Proof.
  induction n as [| n IH]; intros dest v m HA.
  - exists m. simpl. split; [reflexivity | split; [lia | auto with hz]].
  - rewrite Nat2Z.inj_succ, <- Z.add_1_r in *.
    destruct (alloc_at_cons m dest (Z.of_nat n)) as [H1 H2]; [lia | exact HA |].
    simpl. cm_step.
    destruct (IH (dest + 1) v (<[dest := u8 v]> m)) as (m' & E & F & U); [auto with hz |].
    exists m'. split; [exact E | split].
    + intros a Ha. destruct (decide (a = dest)) as [-> | Hne].
      * rewrite U by lia. apply lookup_insert_eq.
      * apply F. lia.
    + apply (unchanged_step _ _ _ _ (u8 v)); [lia | exact U].
Qed.

(** [n] bytes at [dest] in [m'] are the bytes at [src] in [m]. *)
Definition copied (m m' : mem) (dest src n : Z) : Prop :=
  forall i, 0 <= i < n -> m' !! (dest + i) = m !! (src + i).

Lemma copied_step m m' dest src n b :
  m !! src = Some b -> 0 <= n -> 0 <= b <= 255 ->
  (dest <= src \/ src + (n + 1) <= dest) ->
  copied (<[dest := u8 b]> m) m' (dest + 1) (src + 1) n ->
  unchanged_outside (<[dest := u8 b]> m) m' (dest + 1) n ->
  copied m m' dest src (n + 1).
Proof.
  intros E Hn Hb Hov C U i Hi. destruct (decide (i = 0)) as [-> | Hne].
  - rewrite !Z.add_0_r, U by lia. rewrite lookup_insert_eq, E, u8_byte by exact Hb. reflexivity.
  - specialize (C (i - 1)). replace (dest + 1 + (i - 1)) with (dest + i) in C by lia.
    replace (src + 1 + (i - 1)) with (src + i) in C by lia. rewrite C by lia.
    apply lookup_insert_ne. lia.
Qed.

Lemma mem_ok_insert m p b : mem_ok m -> mem_ok (<[p := u8 b]> m).
Proof.
  intros H a c Hc. destruct (decide (p = a)) as [-> | Hne].
  - rewrite lookup_insert_eq in Hc. injection Hc as <-.
    pose proof (wrapu_range 8 b ltac:(lia)) as R. unfold is_u in R.
    change (2 ^ 8) with 256 in R. lia.
  - rewrite lookup_insert_ne in Hc by exact Hne. eauto.
Qed.
#[export] Hint Resolve mem_ok_insert : hz.

(** The ascending copy is right when the destination does not lie inside the
    source ahead of the copied position. *)
Lemma memcpy_loop_ok n : forall dest src m,
  mem_ok m -> alloc_at m dest (Z.of_nat n) -> alloc_at m src (Z.of_nat n) ->
  (dest <= src \/ src + Z.of_nat n <= dest) ->
  exists m', memcpy_loop n dest src m = Ret tt m' /\
    copied m m' dest src (Z.of_nat n) /\ unchanged_outside m m' dest (Z.of_nat n).
Proof.
  induction n as [| n IH]; intros dest src m HM HD HS Hov.
  - exists m. simpl. split; [reflexivity | split; [intros i Hi; lia | auto with hz]].
  - rewrite Nat2Z.inj_succ, <- Z.add_1_r in *.
    destruct (alloc_at_cons m dest (Z.of_nat n)) as [D1 D2]; [lia | exact HD |].
    destruct (alloc_at_cons m src (Z.of_nat n)) as [[b Eb] S2]; [lia | exact HS |].
    simpl. cm_step. cm_step.
    destruct (IH (dest + 1) (src + 1) (<[dest := u8 b]> m)) as (m' & E & C & U);
      auto with hz; [lia |].
    exists m'. split; [exact E | split].
    + apply (copied_step m m' dest src _ b); eauto; lia.
    + apply (unchanged_step _ _ _ _ (u8 b)); [lia | exact U].
Qed.

(** The descending copy is right when the destination lies above the source. *)
Lemma memmove_back_ok n : forall dest src m,
  mem_ok m -> alloc_at m dest (Z.of_nat n) -> alloc_at m src (Z.of_nat n) -> src < dest ->
  exists m', memmove_back n dest src m = Ret tt m' /\
    copied m m' dest src (Z.of_nat n) /\ unchanged_outside m m' dest (Z.of_nat n).
Proof.
  induction n as [| n IH]; intros dest src m HM HD HS Hov.
  - exists m. simpl. split; [reflexivity | split; [intros i Hi; lia | auto with hz]].
  - rewrite Nat2Z.inj_succ, <- Z.add_1_r in *.
    assert (D1 : is_Some (m !! (dest + Z.of_nat n))) by (apply HD; lia).
    assert (S1 : is_Some (m !! (src + Z.of_nat n))) by (apply HS; lia).
    destruct S1 as [b Eb]. simpl. cm_step. cm_step.
    destruct (IH dest src (<[dest + Z.of_nat n := u8 b]> m)) as (m' & E & C & U); auto with hz.
    { apply alloc_at_insert. intros a Ha. apply HD. lia. }
    { apply alloc_at_insert. intros a Ha. apply HS. lia. }
    exists m'. split; [exact E | split].
    + intros i Hi. destruct (decide (i = Z.of_nat n)) as [-> | Hne].
      * rewrite U by lia. rewrite lookup_insert_eq, Eb. f_equal. apply u8_byte. eauto.
      * rewrite C by lia. apply lookup_insert_ne. lia.
    + intros a Ha. rewrite U by lia. apply lookup_insert_ne. lia.
Qed.

Lemma strcpy_loop_ok s : forall fuel dest src m,
  cstr m src s -> alloc_at m dest (zlen s + 1) ->
  (dest + zlen s + 1 <= src \/ src + zlen s + 1 <= dest) -> (length s < fuel)%nat ->
  exists m', strcpy_loop fuel dest src m = Ret (dest + zlen s) m' /\
    copied m m' dest src (zlen s + 1) /\ unchanged_outside m m' dest (zlen s + 1).
Proof.
  induction s as [| c s IH]; intros fuel dest src m H HA Hov Hf;
    destruct fuel as [| f]; simpl in Hf; try lia.
  - apply cstr_nil in H. assert (D : is_Some (m !! dest)) by (apply HA; unfold zlen; simpl; lia).
    simpl. cm_step. rewrite Z.eqb_refl. cm_step. unfold cret, zlen. simpl.
    rewrite Z.add_0_r. exists (<[dest := u8 0]> m).
    split; [reflexivity | split].
    + intros i Hi. replace i with 0 by lia. rewrite !Z.add_0_r, lookup_insert_eq, H. reflexivity.
    + intros a Ha. apply lookup_insert_ne. lia.
  - apply cstr_cons in H as (Hc & E & H). rewrite zlen_cons in *. pose proof (zlen_nonneg s).
    destruct (alloc_at_cons m dest (zlen s + 1)) as [D1 D2]; [lia | exact HA |].
    simpl. cm_step. destruct (Z.eqb_spec c 0) as [-> | _]; [lia |]. cm_step.
    destruct (IH f (dest + 1) (src + 1) (<[dest := u8 c]> m)) as (m' & E' & C & U);
      auto with hz; try lia.
    { apply (cstr_frame m); [exact H |]. intros a Ha. apply lookup_insert_ne. lia. }
    exists m'. split; [rewrite E'; f_equal; lia | split].
    + apply (copied_step m m' dest src _ c); auto; lia.
    + apply (unchanged_step _ _ _ _ (u8 c)); [lia | exact U].
Qed.

(** A copied C string is a C string. *)
Lemma cstr_copied m m' dest src s :
  cstr m src s -> copied m m' dest src (zlen s + 1) -> cstr m' dest s.
Proof.
  intros (HF & HB & HZ) C. pose proof (zlen_nonneg s). split; [exact HF | split].
  - assert (G : forall k l, bytes_at m (src + k) l -> 0 <= k -> k + zlen l <= zlen s ->
                bytes_at m' (dest + k) l).
    { intros k l. revert k. induction l as [| b l IH]; intros k Hb Hk Hl; simpl; [exact I |].
      rewrite zlen_cons in Hl. pose proof (zlen_nonneg l). destruct Hb as [B1 B2]. split.
      - rewrite C by lia. exact B1.
      - rewrite <- Z.add_assoc in *. apply IH; [exact B2 | lia | lia]. }
    specialize (G 0 s). rewrite !Z.add_0_r in G. apply G; [exact HB | lia | lia].
  - rewrite C by lia. exact HZ.
Qed.

(** ** Comparison and search, against definitions on lists *)

(** What [strcmp] computes, on the strings: the difference of the first
    characters that differ, as signed [char]s, the terminator included. *)
Fixpoint strcmp_ref (s t : list Z) : Z :=
  match s, t with
  | [], [] => 0
  | [], d :: _ => - s8 d
  | c :: _, [] => s8 c
  | c :: s', d :: t' => if s8 c - s8 d =? 0 then strcmp_ref s' t' else s8 c - s8 d
  end.

Lemma s8_nonzero b : 1 <= b <= 255 -> s8 b <> 0.
Proof. intros Hb E. pose proof (s8_zero b ltac:(lia)) as H. rewrite E in H. simpl in H. lia. Qed.

Lemma strcmp_ref_eq s : forall t,
  Forall (fun b => 1 <= b <= 255) s -> Forall (fun b => 1 <= b <= 255) t ->
  strcmp_ref s t = 0 <-> s = t.
Proof.
  induction s as [| c s IH]; intros [| d t] Hs Ht; simpl; inversion Hs; inversion Ht; subst;
    cbv beta in *.
  - tauto.
  - split; [intros E; exfalso; apply (s8_nonzero d); [assumption | lia] | discriminate].
  - split; [intros E; exfalso; apply (s8_nonzero c); assumption | discriminate].
  - destruct (Z.eqb_spec (s8 c - s8 d) 0) as [E | E].
    + rewrite IH by assumption. assert (c = d) as <- by (apply s8_inj; lia).
      split; congruence.
    + split; [tauto | intros [= -> _]; lia].
Qed.

Lemma strcmp_ok m s : forall t p q fuel,
  cstr m p s -> cstr m q t -> (length s < fuel)%nat ->
  strcmp fuel p q m = Ret (strcmp_ref s t) m.
Proof.
  induction s as [| c s IH]; intros [| d t] p q fuel Hp Hq Hf;
    destruct fuel as [| f]; simpl in Hf; try lia;
    rewrite ?cstr_cons, ?cstr_nil in *; destruct_and?;
    cbn [strcmp]; cm_step; cm_step; cbn [strcmp_ref].
  - reflexivity.
  - change (s8 0) with 0. rewrite orb_true_r. unfold cret. f_equal.
  - change (s8 0) with 0. rewrite Z.sub_0_r.
    pose proof (s8_nonzero c ltac:(lia)) as N. apply Z.eqb_neq in N. rewrite N. reflexivity.
  - pose proof (s8_nonzero c ltac:(lia)) as N. apply Z.eqb_neq in N. rewrite N, orb_false_r.
    destruct (s8 c - s8 d =? 0); simpl; [apply IH; auto; lia | reflexivity].
Qed.

(** The first position of [s] whose signed character is [ch]. *)
Fixpoint find_char (ch : Z) (s : list Z) : option Z :=
  match s with
  | [] => None
  | c :: s' => if s8 c =? ch then Some 0 else (fun i => i + 1) <$> find_char ch s'
  end.

Definition strchr_ref (p ch : Z) (s : list Z) : Z :=
  match find_char ch s with
  | Some i => p + i
  | None => if ch =? 0 then p + zlen s else nullptr
  end.

Lemma strchr_ok m s : forall p ch fuel,
  cstr m p s -> (length s < fuel)%nat -> strchr fuel p ch m = Ret (strchr_ref p ch s) m.
Proof.
  induction s as [| c s IH]; intros p ch fuel Hp Hf; destruct fuel as [| f]; simpl in Hf; try lia.
  - apply cstr_nil in Hp. cbn [strchr]. cm_step. change (s8 0) with 0. rewrite Z.eqb_refl.
    unfold strchr_ref, zlen, cret. simpl. destruct (ch =? 0); f_equal; lia.
  - apply cstr_cons in Hp as (Hc & E & H). cbn [strchr]. cm_step.
    pose proof (s8_nonzero c Hc) as N. apply Z.eqb_neq in N. rewrite N.
    unfold strchr_ref. simpl. destruct (Z.eqb_spec (s8 c) ch).
    + unfold cret. f_equal. lia.
    + rewrite (IH (p + 1) ch f H) by lia. unfold strchr_ref. rewrite zlen_cons.
      destruct (find_char ch s); simpl; [f_equal; lia |]. destruct (ch =? 0); f_equal; lia.
Qed.

(** Membership in the search set, on signed characters as the code compares. *)
Definition in_set (t : list Z) (c : Z) : bool := existsb (fun d => s8 c =? s8 d) t.

Lemma search_set_ok m t : forall q c,
  cstr m q t -> search_set (length t) q (s8 c) m = Ret (in_set t c) m.
Proof.
  induction t as [| d t IH]; intros q c H; [reflexivity |].
  apply cstr_cons in H as (Hd & E & H). simpl. cm_step.
  unfold in_set. simpl. destruct (s8 c =? s8 d); [reflexivity | apply IH; exact H].
Qed.

(** The length of the longest prefix whose elements satisfy [P]. *)
Fixpoint span_len (P : Z -> bool) (s : list Z) : Z :=
  match s with
  | [] => 0
  | c :: s' => if P c then span_len P s' + 1 else 0
  end.

Lemma strspn_loop_ok m t s : forall q p fuel found,
  cstr m q t -> cstr m p s -> (length s < fuel)%nat ->
  strspn_loop fuel p q (zlen t) found m = Ret (found + span_len (in_set t) s) m.
Proof.
  induction s as [| c s IH]; intros q p fuel found Hq Hp Hf;
    destruct fuel as [| f]; simpl in Hf; try lia.
  - apply cstr_nil in Hp. cbn [strspn_loop]. cm_step. unfold cret. simpl. f_equal. lia.
  - apply cstr_cons in Hp as (Hc & E & H). cbn [strspn_loop]. cm_step.
    pose proof (s8_nonzero c Hc) as N. apply Z.eqb_neq in N. rewrite N.
    unfold zlen at 1. rewrite Nat2Z.id.
    rewrite (cbind_ret _ _ _ _ _ (search_set_ok m t q c Hq)). simpl.
    destruct (in_set t c); [rewrite IH by (auto; lia); f_equal; lia | unfold cret; f_equal; lia].
Qed.

Lemma strcspn_loop_ok m t s : forall q p fuel found,
  cstr m q t -> cstr m p s -> (length s < fuel)%nat ->
  strcspn_loop fuel p q (zlen t) found m =
    Ret (found + span_len (fun c => negb (in_set t c)) s) m.
Proof.
  induction s as [| c s IH]; intros q p fuel found Hq Hp Hf;
    destruct fuel as [| f]; simpl in Hf; try lia.
  - apply cstr_nil in Hp. cbn [strcspn_loop]. cm_step. unfold cret. simpl. f_equal. lia.
  - apply cstr_cons in Hp as (Hc & E & H). cbn [strcspn_loop]. cm_step.
    pose proof (s8_nonzero c Hc) as N. apply Z.eqb_neq in N. rewrite N.
    unfold zlen at 1. rewrite Nat2Z.id.
    rewrite (cbind_ret _ _ _ _ _ (search_set_ok m t q c Hq)). simpl.
    destruct (in_set t c); simpl; [unfold cret; f_equal; lia |].
    rewrite IH by (auto; lia). f_equal. lia.
Qed.

(** [strncpy]: the bytes of the string, cut or padded with zeros to [n]. *)
Lemma strncpy_loop_ok n : forall s dest src m,
  cstr m src s -> alloc_at m dest (Z.of_nat n) ->
  (dest + Z.of_nat n <= src \/ src + zlen s + 1 <= dest) ->
  exists m', strncpy_loop n dest src m = Ret tt m' /\
    (forall i, 0 <= i < Z.of_nat n -> m' !! (dest + i) = Some (znth 0 s i)) /\
    unchanged_outside m m' dest (Z.of_nat n).
Proof.
  induction n as [| n IH]; intros s dest src m Hs HA Hov.
  - exists m. split; [reflexivity | split; [lia | auto with hz]].
  - cbn [strncpy_loop]. destruct s as [| c s].
    + apply cstr_nil in Hs. cm_step. rewrite Z.eqb_refl.
      destruct (fill_loop_ok (S n) dest 0 m HA) as (m' & E & F & U).
      exists m'. split; [exact E | split; [| exact U]].
      intros i Hi. rewrite F by lia. unfold znth. destruct (i <? 0); [reflexivity |].
      destruct (Z.to_nat i); reflexivity.
    + rewrite Nat2Z.inj_succ, <- Z.add_1_r in *. rewrite zlen_cons in Hov.
      apply cstr_cons in Hs as (Hc & E & H). pose proof (zlen_nonneg s).
      destruct (alloc_at_cons m dest (Z.of_nat n)) as [D1 D2]; [lia | exact HA |].
      cm_step. destruct (Z.eqb_spec c 0) as [-> | _]; [lia |]. cm_step.
      destruct (IH s (dest + 1) (src + 1) (<[dest := u8 c]> m)) as (m' & E' & F & U);
        auto with hz; try lia.
      { apply (cstr_frame m); [exact H |]. intros a Ha. apply lookup_insert_ne. lia. }
      exists m'. split; [exact E' | split; [| apply (unchanged_step _ _ _ _ (u8 c)); [lia | exact U]]].
      intros i Hi. destruct (decide (i = 0)) as [-> | Hne].
      * rewrite Z.add_0_r, U by lia. rewrite lookup_insert_eq, u8_byte by lia. reflexivity.
      * specialize (F (i - 1)). replace (dest + 1 + (i - 1)) with (dest + i) in F by lia.
        rewrite F by lia. unfold znth. destruct (Z.ltb_spec (i - 1) 0); [lia |].
        destruct (Z.ltb_spec i 0); [lia |].
        replace (Z.to_nat i) with (S (Z.to_nat (i - 1))) by lia. reflexivity.
Qed.

(** ** Correctness of the operations *)

(** C4: [memmove] copies correctly whatever the overlap.  When both ranges are
    allocated and lie in the 64-bit address space it returns [dest], every
    destination byte is the byte the source held before the call, and no other
    byte changes. *)
Theorem memmove_correct (m : mem) (dest src size : Z) :
  mem_ok m -> 0 <= size -> 0 <= src -> src + size < 2 ^ 64 ->
  alloc_at m dest size -> alloc_at m src size ->
  exists m', memmove dest src size m = Ret dest m' /\
    copied m m' dest src size /\ unchanged_outside m m' dest size.
Proof.
  intros HM Hn Hs Hw HD HS. unfold memmove. rewrite wrapu_small by (unfold is_u; lia).
  rewrite <- (Z2Nat.id size Hn) in HD, HS.
  destruct (Z.ltb_spec dest src), (Z.leb_spec (src + size) dest); simpl.
  1-3: destruct (memcpy_loop_ok (Z.to_nat size) dest src m HM HD HS) as (m' & E & C & U);
       [lia |]; exists m'; unfold memcpy; rewrite (cbind_ret _ _ _ _ _ E);
       rewrite Z2Nat.id in * by lia; auto.
  destruct (Z.ltb_spec src dest).
  - destruct (memmove_back_ok (Z.to_nat size) dest src m HM HD HS) as (m' & E & C & U); [lia |].
    exists m'. rewrite (cbind_ret _ _ _ _ _ E). rewrite Z2Nat.id in * by lia. auto.
  - replace src with dest by lia. exists m. split; [reflexivity |].
    split; [intros i _; reflexivity | auto with hz].
Qed.

Lemma memmove_correct_witness :
  exists m', memmove 102 100 4 (mem_of 100 [1; 2; 3; 4; 5; 6]) = Ret 102 m' /\
    copied (mem_of 100 [1; 2; 3; 4; 5; 6]) m' 102 100 4 /\
    unchanged_outside (mem_of 100 [1; 2; 3; 4; 5; 6]) m' 102 4.
Proof.
  apply (memmove_correct (mem_of 100 [1; 2; 3; 4; 5; 6]) 102 100 4).
  - apply mem_of_ok. reflexivity.
  - lia.
  - lia.
  - lia.
  - apply alloc_at_check. vm_compute. reflexivity.
  - apply alloc_at_check. vm_compute. reflexivity.
Defined.

(** [strcpy] copies the string and its terminator: given a destination of
    [strlen(src) + 1] bytes that does not overlap the source, it returns
    [dest], the destination holds the same C string, and no other byte
    changes. *)
Theorem strcpy_correct (m : mem) (dest src : Z) (s : list Z) (fuel : nat) :
  cstr m src s -> alloc_at m dest (zlen s + 1) ->
  (dest + zlen s + 1 <= src \/ src + zlen s + 1 <= dest) -> (length s < fuel)%nat ->
  exists m', strcpy fuel dest src m = Ret dest m' /\
    cstr m' dest s /\ unchanged_outside m m' dest (zlen s + 1).
Proof.
  intros Hs HA Hov Hf.
  destruct (strcpy_loop_ok s fuel dest src m Hs HA Hov Hf) as (m' & E & C & U).
  exists m'. unfold strcpy. rewrite (cbind_ret _ _ _ _ _ E).
  split; [reflexivity | split; [apply (cstr_copied m m' dest src); assumption | exact U]].
Qed.

Lemma strcpy_correct_witness :
  exists m', strcpy 10 200 100 (mem_of 100 [104; 105; 0] ∪ mem_of 200 [9; 9; 9]) = Ret 200 m' /\
    cstr m' 200 [104; 105] /\
    unchanged_outside (mem_of 100 [104; 105; 0] ∪ mem_of 200 [9; 9; 9]) m' 200 3.
Proof.
  apply (strcpy_correct (mem_of 100 [104; 105; 0] ∪ mem_of 200 [9; 9; 9]) 200 100 [104; 105] 10).
  - split; [repeat constructor; lia | split; [vm_compute; auto | reflexivity]].
  - apply alloc_at_check. vm_compute. reflexivity.
  - right. vm_compute. discriminate.
  - simpl. lia.
Defined.

(** [strcat] appends: with room for both strings and the terminator after
    [dest], and no overlap with the source, the destination becomes the
    concatenation and no byte outside of it changes. *)
Theorem strcat_correct (m : mem) (dest src : Z) (a b : list Z) (fuel : nat) :
  mem_ok m -> cstr m dest a -> cstr m src b -> alloc_at m dest (zlen a + zlen b + 1) ->
  (dest + zlen a + zlen b + 1 <= src \/ src + zlen b + 1 <= dest) ->
  (length a < fuel)%nat -> (length b < fuel)%nat ->
  exists m', strcat fuel dest src m = Ret dest m' /\
    cstr m' dest (a ++ b) /\ unchanged_outside m m' (dest + zlen a) (zlen b + 1).
Proof.
  intros HM Ha Hb HA Hov Hfa Hfb. pose proof (zlen_nonneg a). pose proof (zlen_nonneg b).
  unfold strcat. rewrite (cbind_ret _ _ _ _ _ (strlen_ok m a fuel dest Ha Hfa)).
  rewrite (cbind_ret _ _ _ _ _ (strlen_ok m b fuel src Hb Hfb)).
  destruct (memcpy_loop_ok (Z.to_nat (zlen b + 1)) (dest + zlen a) src m) as (m' & E & C & U);
    auto; try lia.
  { intros x Hx. apply HA. lia. }
  { intros x Hx. apply (cstr_alloc m src b Hb). lia. }
  rewrite Z2Nat.id in * by lia. exists m'.
  unfold memcpy. rewrite (cbind_ret _ _ m (dest + zlen a) m'); [| rewrite (cbind_ret _ _ _ _ _ E); reflexivity].
  split; [reflexivity | split; [| exact U]].
  pose proof (cstr_copied m m' _ src b Hb C) as (F2 & B2 & Z2). destruct Ha as (F1 & B1 & Z1).
  split; [apply Forall_app; auto | split].
  - apply bytes_at_app. split; [| exact B2].
    apply (bytes_at_frame m); [exact B1 | intros x Hx; apply U; lia].
  - rewrite zlen_app. rewrite <- Z2. f_equal. lia.
Qed.

Lemma strcat_correct_witness :
  exists m', strcat 10 100 200 (mem_of 100 [104; 0; 7] ∪ mem_of 200 [105; 0]) = Ret 100 m' /\
    cstr m' 100 ([104] ++ [105]) /\
    unchanged_outside (mem_of 100 [104; 0; 7] ∪ mem_of 200 [105; 0]) m' (100 + 1) (1 + 1).
Proof.
  apply (strcat_correct (mem_of 100 [104; 0; 7] ∪ mem_of 200 [105; 0]) 100 200 [104] [105] 10).
  - apply mem_ok_union; apply mem_of_ok; reflexivity.
  - split; [repeat constructor; lia | split; [vm_compute; auto | reflexivity]].
  - split; [repeat constructor; lia | split; [vm_compute; auto | reflexivity]].
  - apply alloc_at_check. vm_compute. reflexivity.
  - left. vm_compute. discriminate.
  - simpl. lia.
  - simpl. lia.
Defined.

(** [strncpy] writes exactly [count] bytes: the characters of the source, cut
    at [count], then zeros up to [count]; so the result is not terminated when
    the source is at least [count] long. *)
Theorem strncpy_correct (m : mem) (dest src count : Z) (s : list Z) :
  0 <= count -> cstr m src s -> alloc_at m dest count ->
  (dest + count <= src \/ src + zlen s + 1 <= dest) ->
  exists m', strncpy dest src count m = Ret dest m' /\
    (forall i, 0 <= i < count -> m' !! (dest + i) = Some (znth 0 s i)) /\
    unchanged_outside m m' dest count.
Proof.
  intros Hc Hs HA Hov. rewrite <- (Z2Nat.id count Hc) in HA, Hov.
  destruct (strncpy_loop_ok (Z.to_nat count) s dest src m Hs HA Hov) as (m' & E & F & U).
  rewrite Z2Nat.id in * by lia. exists m'. unfold strncpy.
  rewrite (cbind_ret _ _ _ _ _ E). auto.
Qed.

Lemma strncpy_correct_witness :
  exists m', strncpy 200 100 4 (mem_of 100 [104; 105; 0] ∪ mem_of 200 [9; 9; 9; 9]) = Ret 200 m' /\
    (forall i, 0 <= i < 4 -> m' !! (200 + i) = Some (znth 0 [104; 105] i)) /\
    unchanged_outside (mem_of 100 [104; 105; 0] ∪ mem_of 200 [9; 9; 9; 9]) m' 200 4.
Proof.
  apply (strncpy_correct (mem_of 100 [104; 105; 0] ∪ mem_of 200 [9; 9; 9; 9]) 200 100 4 [104; 105]).
  - lia.
  - split; [repeat constructor; lia | split; [vm_compute; auto | reflexivity]].
  - apply alloc_at_check. vm_compute. reflexivity.
  - right. vm_compute. discriminate.
Defined.

(** [strcmp] terminates on every pair of C strings, returns the difference
    of the first differing (signed) characters, and returns 0 exactly when the
    strings are equal. *)
Theorem strcmp_correct (m : mem) (p q : Z) (s t : list Z) (fuel : nat) :
  cstr m p s -> cstr m q t -> (length s < fuel)%nat ->
  strcmp fuel p q m = Ret (strcmp_ref s t) m /\ (strcmp_ref s t = 0 <-> s = t).
Proof.
  intros Hp Hq Hf. split; [apply strcmp_ok; assumption |].
  apply strcmp_ref_eq; [apply Hp | apply Hq].
Qed.

Lemma strcmp_correct_witness :
  strcmp 5 100 200 (mem_of 100 [97; 98; 0] ∪ mem_of 200 [97; 99; 0]) =
    Ret (strcmp_ref [97; 98] [97; 99]) (mem_of 100 [97; 98; 0] ∪ mem_of 200 [97; 99; 0]) /\
  (strcmp_ref [97; 98] [97; 99] = 0 <-> [97; 98] = [97; 99]).
Proof.
  apply (strcmp_correct _ 100 200 [97; 98] [97; 99] 5).
  - split; [repeat constructor; lia | split; [vm_compute; auto | reflexivity]].
  - split; [repeat constructor; lia | split; [vm_compute; auto | reflexivity]].
  - simpl. lia.
Defined.

(** [strspn] and [strcspn] return the length of the longest prefix made
    only of, respectively without, characters of the second string. *)
Theorem strspn_strcspn_correct (m : mem) (p q : Z) (s t : list Z) (fuel : nat) :
  cstr m p s -> cstr m q t -> (length s < fuel)%nat -> (length t < fuel)%nat ->
  strspn fuel p q m = Ret (span_len (in_set t) s) m /\
  strcspn fuel p q m = Ret (span_len (fun c => negb (in_set t c)) s) m.
Proof.
  intros Hp Hq Hs Ht. unfold strspn, strcspn.
  rewrite !(cbind_ret _ _ _ _ _ (strlen_ok m t fuel q Hq Ht)).
  split; [apply (strspn_loop_ok m t s) | apply (strcspn_loop_ok m t s)]; assumption.
Qed.

Lemma strspn_strcspn_correct_witness :
  strspn 5 100 200 (mem_of 100 [97; 98; 99; 0] ∪ mem_of 200 [98; 97; 0]) =
    Ret (span_len (in_set [98; 97]) [97; 98; 99])
        (mem_of 100 [97; 98; 99; 0] ∪ mem_of 200 [98; 97; 0]) /\
  strcspn 5 100 200 (mem_of 100 [97; 98; 99; 0] ∪ mem_of 200 [98; 97; 0]) =
    Ret (span_len (fun c => negb (in_set [98; 97] c)) [97; 98; 99])
        (mem_of 100 [97; 98; 99; 0] ∪ mem_of 200 [98; 97; 0]).
Proof.
  apply (strspn_strcspn_correct _ 100 200 [97; 98; 99] [98; 97] 5).
  - split; [repeat constructor; lia | split; [vm_compute; auto | reflexivity]].
  - split; [repeat constructor; lia | split; [vm_compute; auto | reflexivity]].
  - simpl. lia.
  - simpl. lia.
Defined.

(** [strchr] compares the signed character with the [int] argument without
    converting the argument to [char], so a character code from 128 to 255 is
    never found, even when its byte is in the string. *)
Theorem strchr_high_byte_not_found (m : mem) (p ch : Z) (s : list Z) (fuel : nat) :
  cstr m p s -> (length s < fuel)%nat -> 128 <= ch <= 255 ->
  strchr fuel p ch m = Ret nullptr m.
Proof.
  intros Hp Hf Hch. rewrite (strchr_ok m s p ch fuel Hp Hf). unfold strchr_ref.
  assert (E : find_char ch s = None).
  { clear Hp Hf. induction s as [| c s IH]; [reflexivity |]. simpl.
    pose proof (wraps_range 8 c ltac:(lia)) as R. unfold is_s, smin, smax in R. simpl in R.
    destruct (Z.eqb_spec (s8 c) ch); [lia |]. rewrite IH. reflexivity. }
  rewrite E. destruct (Z.eqb_spec ch 0); [lia | reflexivity].
Qed.
