(* ===== verification/StrToInt.v ===== *)
(** * Integer parsing

    [str_to_int] of [src/src/ansi/str_to_int.hpp], the template behind
    [strtol], [strtoul], [strtoll], [strtoull] ([ansi/stdlib.cpp]) and their
    wide-character forms ([ansi/wchar.cpp]); [atoi], [atol], [atoll]
    ([ansi/stdlib.cpp]); [strtoumax] and [strtoimax] ([ansi/inttypes.cpp]).

    A pointer into the parsed string is the list of the characters from it to
    the terminator, so [*ptr] is the head (0 at the end) and [++ptr] is the
    tail; the end pointer is returned as such a list.  The character type is a
    parameter: signed [char], or [wchar_t]. *)

From S2P Require Import Prelude Ctype.

#[local] Open Scope Z_scope.

(** The character type [C] of the template: its conversion and the two helpers
    [isspace_helper] and [tolower_helper]. *)
Record CharType := {
  castC : Z -> Z;
  isspace_helper : Z -> bool;
  tolower_helper : Z -> Z;
}.

Definition char_type : CharType := {|
  castC := s8;
  isspace_helper c := truthy (isspace c);
  tolower_helper c := s8 (tolower c);
|}.

Definition wchar_type : CharType := {|
  castC := s32;
  isspace_helper c := truthy (iswspace (u32 c));
  tolower_helper c := s32 (towlower (u32 c));
|}.

(** The integer type [T]: its signedness and width; [U] is unsigned with the
    same width. *)
Record IntType := { signedT : bool; widthT : Z }.

Definition T_long : IntType := {| signedT := true; widthT := 64 |}.
Definition T_ulong : IntType := {| signedT := false; widthT := 64 |}.

Definition T_min (T : IntType) : Z := if signedT T then smin (widthT T) else 0.
Definition T_max (T : IntType) : Z := if signedT T then smax (widthT T) else umax (widthT T).
Definition T_cast (T : IntType) (z : Z) : Z :=
  if signedT T then wraps (widthT T) z else wrapu (widthT T) z.

Definition ch_0 : Z := 48.
Definition ch_9 : Z := 57.
Definition ch_a : Z := 97.
Definition ch_b : Z := 98.
Definition ch_x : Z := 120.
Definition ch_minus : Z := 45.
Definition ch_plus : Z := 43.

(** [ptr[i]]. *)
Definition at_ (ptr : list Z) (i : nat) : Z := nth i ptr 0.

Section StrToInt.
Context (C : CharType) (T : IntType).

Fixpoint skip_space (ptr : list Z) : list Z :=
  match ptr with
  | c :: ptr' => if isspace_helper C c then skip_space ptr' else ptr
  | [] => []
  end.

Definition parse_sign (ptr : list Z) : bool * list Z :=
  if at_ ptr 0 =? ch_minus then (true, drop 1 ptr)
  else if at_ ptr 0 =? ch_plus then (false, drop 1 ptr)
  else (false, ptr).

Definition valid_char (c base : Z) : bool :=
  if base <=? 10 then (ch_0 <=? c) && (c <=? castC C (ch_0 + base - 1))
  else ((ch_0 <=? c) && (c <=? ch_9)) ||
       ((ch_a <=? tolower_helper C c) &&
        (tolower_helper C c <=? castC C (ch_a + (base - 10 - 1)))).

(** The base prefix: the base that is used and where the digits start. *)
Definition parse_base (base : Z) (ptr : list Z) : Z * list Z :=
  if base =? 0 then
    if (at_ ptr 0 =? ch_0) && (tolower_helper C (at_ ptr 1) =? ch_x) && valid_char (at_ ptr 2) 16
    then (16, drop 2 ptr)
    else if (at_ ptr 0 =? ch_0) && (tolower_helper C (at_ ptr 1) =? ch_b)
            && valid_char (at_ ptr 2) 2
    then (2, drop 2 ptr)
    else if at_ ptr 0 =? ch_0 then (8, drop 1 ptr)
    else (10, ptr)
  else if base =? 2 then
    if (at_ ptr 0 =? ch_0) && (tolower_helper C (at_ ptr 1) =? ch_b) && negb (at_ ptr 2 =? 0)
    then (2, drop 2 ptr) else (2, ptr)
  else if base =? 8 then
    if at_ ptr 0 =? ch_0 then (8, drop 1 ptr) else (8, ptr)
  else if base =? 16 then
    if (at_ ptr 0 =? ch_0) && (tolower_helper C (at_ ptr 1) =? ch_x) && negb (at_ ptr 2 =? 0)
    then (16, drop 2 ptr) else (16, ptr)
  else (base, ptr).

Definition max_value (sign : bool) : Z :=
  if signedT T then if sign then 2 ^ (widthT T - 1) else smax (widthT T)
  else umax (widthT T).

Definition digit_of (c : Z) : Z :=
  if c <=? ch_9 then c - ch_0 else tolower_helper C c - ch_a + 10.

(** The digit loop, on the accumulator [value] of type [U]. *)
Fixpoint digit_loop (base maxv : Z) (ptr : list Z) (value : Z) (overflow : bool)
  : Z * bool * list Z :=
  match ptr with
  | [] => (value, overflow, [])
  | c :: ptr' =>
      if valid_char c base then
        let w := widthT T in
        let b := wrapu w base in
        let v1 := wrapu w (value * b) in
        let o1 := overflow || negb (v1 / b =? value) || (maxv <? v1) in
        let v2 := wrapu w (v1 + digit_of c) in
        let o2 := o1 || (v2 <? v1) || (maxv <? v2) in
        digit_loop base maxv ptr' v2 o2
      else (value, overflow, ptr)
  end.

(** [-static_cast<T>(value)]; the negation of the most negative value of a signed
    type overflows, which is undefined. *)
Definition T_neg (v : Z) : option Z :=
  if signedT T && (v =? smin (widthT T)) then None else Some (T_cast T (- v)).

(** The returned value, the end pointer, and whether [errno] is set to
    [ERANGE]; [None] is undefined behaviour. *)
Definition str_to_int (start : list Z) (base0 : Z) : option (Z * list Z * bool) :=
  let after_space := skip_space start in
  let '(sign, ptr1) := parse_sign after_space in
  let '(base, ptr2) := parse_base base0 ptr1 in
  let '(value, overflow, ptr3) :=
    if base <=? 36 then digit_loop base (max_value sign) ptr2 0 false
    else (0, false, ptr2) in
  let end_ptr := if Nat.eqb (length after_space) (length ptr3) then start else ptr3 in
  if overflow then Some ((if sign then T_min T else T_max T), end_ptr, true)
  else
    v ← (if sign then T_neg (T_cast T value) else Some (T_cast T value));
    Some (v, end_ptr, false).
End StrToInt.

Definition strtol : list Z -> Z -> option (Z * list Z * bool) := str_to_int char_type T_long.
Definition strtoll : list Z -> Z -> option (Z * list Z * bool) := str_to_int char_type T_long.
Definition strtoul : list Z -> Z -> option (Z * list Z * bool) := str_to_int char_type T_ulong.
Definition strtoull : list Z -> Z -> option (Z * list Z * bool) := str_to_int char_type T_ulong.
Definition wcstol : list Z -> Z -> option (Z * list Z * bool) := str_to_int wchar_type T_long.
Definition wcstoll : list Z -> Z -> option (Z * list Z * bool) := str_to_int wchar_type T_long.
Definition wcstoul : list Z -> Z -> option (Z * list Z * bool) := str_to_int wchar_type T_ulong.
Definition wcstoull : list Z -> Z -> option (Z * list Z * bool) := str_to_int wchar_type T_ulong.

(** [atoi], [atol], [atoll]: the accumulator is signed, so an overflow is
    undefined behaviour, the result [None]. *)
Definition chk_s (w z : Z) : option Z :=
  if (smin w <=? z) && (z <=? smax w) then Some z else None.

Fixpoint ato_loop (w : Z) (str : list Z) (value : Z) : option Z :=
  match str with
  | [] => Some value
  | c :: str' =>
      if truthy (isdigit c) then
        v1 ← chk_s w (value * 10); v2 ← chk_s w (v1 + (c - ch_0)); ato_loop w str' v2
      else Some value
  end.

Definition ato (w : Z) (str : list Z) : option Z :=
  let '(sign, str1) := parse_sign (skip_space char_type str) in
  value ← ato_loop w str1 0;
  if sign then chk_s w (value * -1) else Some value.

Definition atoi : list Z -> option Z := ato 32.
Definition atol : list Z -> option Z := ato 64.
Definition atoll : list Z -> option Z := ato 64.

(** [strtoumax] and [strtoimax]: the common scan, with the two overflow checks
    of the digit loops; [None] is the early return on overflow, which leaves
    the end pointer alone. *)
Definition imax_base (base : Z) (ptr : list Z) : Z * list Z :=
  if base =? 0 then
    if (at_ ptr 0 =? ch_0) && (tolower (at_ ptr 1) =? ch_x) then (16, drop 2 ptr)
    else if (at_ ptr 0 =? ch_0) && (tolower (at_ ptr 1) =? ch_b) then (2, drop 2 ptr)
    else if at_ ptr 0 =? ch_0 then (8, drop 1 ptr)
    else (10, ptr)
  else if base =? 2 then
    if (at_ ptr 0 =? ch_0) && (tolower (at_ ptr 1) =? ch_b) then (2, drop 2 ptr) else (2, ptr)
  else if base =? 8 then
    if at_ ptr 0 =? ch_0 then (8, drop 1 ptr) else (8, ptr)
  else if base =? 16 then
    if (at_ ptr 0 =? ch_0) && (tolower (at_ ptr 1) =? ch_x) then (16, drop 2 ptr) else (16, ptr)
  else (base, ptr).

(** [CHARS[base - 1]] of ["0123456789abcdefghijklmnopqrstuvwxyz"]. *)
Definition chars36 (i : Z) : Z := if i <? 10 then ch_0 + i else ch_a + (i - 10).

Definition imax_valid (c base : Z) : bool :=
  if base <=? 10 then (ch_0 <=? c) && (c <=? ch_0 + (base - 1))
  else truthy (isdigit c) || ((ch_a <=? tolower c) && (tolower c <=? chars36 (base - 1))).

Definition imax_digit (c : Z) : Z := if c <=? ch_9 then c - ch_0 else tolower c - ch_a + 10.

Fixpoint imax_loop (base : Z) (ptr : list Z) (value : Z) : option (Z * list Z) :=
  match ptr with
  | [] => Some (value, [])
  | c :: ptr' =>
      if imax_valid c base then
        let b := u64 base in
        let v1 := u64 (value * b) in
        if negb (v1 / b =? value) then None
        else let v2 := u64 (v1 + imax_digit c) in
             if v2 <? v1 then None else imax_loop base ptr' v2
      else Some (value, ptr)
  end.

Definition imax_scan (start : list Z) (base0 : Z) : bool * list Z * option (Z * list Z) :=
  let after_space := skip_space char_type start in
  let '(sign, ptr1) := parse_sign after_space in
  let '(base, ptr2) := imax_base base0 ptr1 in
  (sign, after_space, if base <=? 36 then imax_loop base ptr2 0 else Some (0, ptr2)).

(** The value, the end pointer ([None]: not written), and [ERANGE]. *)
Definition strtoumax (start : list Z) (base : Z) : Z * option (list Z) * bool :=
  match imax_scan start base with
  | (_, _, None) => (umax 64, None, true)
  | (sign, after_space, Some (value, ptr)) =>
      let e := if Nat.eqb (length after_space) (length ptr) then start else ptr in
      ((if sign then u64 (- value) else value), Some e, false)
  end.

Definition strtoimax (start : list Z) (base : Z) : Z * option (list Z) * bool :=
  match imax_scan start base with
  | (_, _, None) => (s64 (umax 64), None, true)
  | (sign, after_space, Some (value, ptr)) =>
      if smax 64 <? value then (smax 64, None, true)
      else
        let e := if Nat.eqb (length after_space) (length ptr) then start else ptr in
        (s64 (if sign then u64 (- value) else value), Some e, false)
  end.

(** ** The character types, as an interface

    What the parsing theorems need of the character type: on its characters, a
    valid digit has a value below the base, and the terminator is no digit. *)
Class CharTypeOk (C : CharType) (dom : Z -> Prop) : Prop := {
  valid_digit : forall c base, dom c -> 2 <= base <= 36 ->
    valid_char C c base = true -> 0 <= digit_of C c < base;
  valid_nul : forall base, 2 <= base <= 36 -> valid_char C 0 base = false;
}.

Definition char_dom (c : Z) : Prop := -128 <= c <= 127.
Definition wchar_dom (c : Z) : Prop := is_s 32 c.

(** The digit bound at every base, as a test. *)
Definition digit_test (C : CharType) (c : Z) : bool :=
  check_range 2 35 (fun base =>
    negb (valid_char C c base) || ((0 <=? digit_of C c) && (digit_of C c <? base))).

Lemma digit_test_ok C c : digit_test C c = true -> forall base, 2 <= base <= 36 ->
  valid_char C c base = true -> 0 <= digit_of C c < base.
Proof.
  intros H base Hb V. pose proof (range_check _ _ _ H base ltac:(lia)) as R. simpl in R.
  rewrite V in R. simpl in R. lia.
Qed.

Lemma valid_nul_test C :
  check_range 2 35 (fun base => negb (valid_char C 0 base)) = true ->
  forall base, 2 <= base <= 36 -> valid_char C 0 base = false.
Proof.
  intros H base Hb. pose proof (range_check _ _ _ H base ltac:(lia)) as R. simpl in R.
  destruct (valid_char C 0 base); [discriminate | reflexivity].
Qed.

#[export] Instance char_type_ok : CharTypeOk char_type char_dom.
Proof.
  split.
  - intros c base Hc. unfold char_dom in Hc. apply digit_test_ok.
    apply (range_check (-128) 256 (digit_test char_type)); [by_vm | lia].
  - apply valid_nul_test. by_vm.
Qed.

Lemma wchar_far c : wchar_dom c -> ~ (0 <= c <= 127) -> tolower_helper wchar_type c = 0.
Proof.
  intros Hc Hf. unfold wchar_dom, is_s, smin, smax in Hc. simpl in *. unfold towlower.
  assert (H : 127 < u32 c).
  { unfold wrapu. change (2 ^ 32) with 4294967296. change (2 ^ (32 - 1)) with 2147483648 in *.
    destruct (Z.lt_ge_cases c 0).
    - rewrite <- (Z.mod_unique c 4294967296 (-1) (c + 4294967296)); lia.
    - rewrite Z.mod_small; lia. }
  apply Z.ltb_lt in H. rewrite H. reflexivity.
Qed.

#[export] Instance wchar_type_ok : CharTypeOk wchar_type wchar_dom.
Proof.
  split.
  - intros c base Hc Hb V.
    destruct (decide (0 <= c <= 127)) as [Hn | Hf].
    + revert V. apply digit_test_ok; [| exact Hb].
      apply (range_check 0 128 (digit_test wchar_type)); [by_vm | lia].
    + pose proof (wchar_far c Hc Hf) as L. exfalso. revert V. unfold valid_char. rewrite L.
      cbn [castC wchar_type]. change (ch_a <=? 0) with false. simpl.
      unfold ch_0, ch_9. destruct (Z.leb_spec base 10).
      * rewrite wraps_small; [lia | lia |]. unfold is_s, smin, smax. simpl. lia.
      * lia.
  - apply valid_nul_test. by_vm.
Qed.

(** ** The value of a digit string *)

Section Values.
Context (C : CharType) (T : IntType) {dom : Z -> Prop} `{!CharTypeOk C dom}.

Definition digits_value (base : Z) (l : list Z) (acc : Z) : Z :=
  fold_left (fun a c => a * base + digit_of C c) l acc.

(** The digits at the head of the string, and what follows them. *)
Fixpoint span_digits (base : Z) (l : list Z) : list Z * list Z :=
  match l with
  | [] => ([], [])
  | c :: l' => if valid_char C c base
               then let '(d, r) := span_digits base l' in (c :: d, r) else ([], l)
  end.

Lemma digits_value_ge base l : forall acc, 2 <= base <= 36 -> 0 <= acc ->
  Forall (fun c => dom c /\ valid_char C c base = true) l ->
  acc <= digits_value base l acc.
Proof.
  induction l as [| c l IH]; intros acc Hb Ha F; [simpl; lia |].
  inversion F as [| ? ? [Hd Hv] F']; subst. simpl.
  pose proof (valid_digit c base Hd Hb Hv).
  transitivity (acc * base + digit_of C c); [nia | apply IH; [lia | nia | exact F']].
Qed.

Lemma span_digits_valid base l : Forall dom l ->
  Forall (fun c => dom c /\ valid_char C c base = true) (fst (span_digits base l)).
Proof.
  induction 1 as [| c l Hc Hl IH]; simpl; [constructor |].
  destruct (valid_char C c base) eqn:V; [| constructor].
  destruct (span_digits base l) as [d r]. simpl. constructor; auto.
Qed.

(** One step of the accumulator: the overflow flag is raised exactly when the
    exact value leaves the range. *)
Lemma step_overflow w maxv base v d : 6 <= w -> 0 <= maxv < 2 ^ w -> 2 <= base <= 36 ->
  0 <= v <= maxv -> 0 <= d < base ->
  let v1 := wrapu w (v * wrapu w base) in
  let v2 := wrapu w (v1 + d) in
  (negb (v1 / wrapu w base =? v) || (maxv <? v1) || (v2 <? v1) || (maxv <? v2)) =
    (maxv <? v * base + d) /\
  (v * base + d <= maxv -> v2 = v * base + d).
Proof.
  intros Hw Hm Hb Hv Hd.
  assert (P : 2 ^ 6 <= 2 ^ w) by (apply Z.pow_le_mono_r; lia). change (2 ^ 6) with 64 in P.
  rewrite (wrapu_small w base) by (unfold is_u; lia). cbv zeta.
  destruct (Z.lt_ge_cases (v * base) (2 ^ w)) as [Hs | Hg].
  - rewrite (wrapu_small w (v * base)) by (unfold is_u; nia).
    rewrite Z.div_mul by lia. rewrite Z.eqb_refl. simpl.
    destruct (Z.lt_ge_cases (v * base + d) (2 ^ w)) as [Hs2 | Hg2].
    + rewrite wrapu_small by (unfold is_u; nia). split; [| auto].
      zbool; simpl; try reflexivity; lia.
    + unfold wrapu. rewrite <- (Z.mod_unique (v * base + d) (2 ^ w) 1 (v * base + d - 2 ^ w)) by nia.
      split; [zbool; simpl; try reflexivity; lia | lia].
  - set (v1 := wrapu w (v * base)).
    assert (R : 0 <= v1 < 2 ^ w) by (apply wrapu_range; lia).
    assert (L : v1 / base < v) by (apply Z.div_lt_upper_bound; nia).
    destruct (Z.eqb_spec (v1 / base) v); [lia |]. simpl.
    split; [symmetry; apply Z.ltb_lt; lia | lia].
Qed.

(** The digit loop against the exact value. *)
Lemma digit_loop_ok base maxv l : forall v o acc,
  6 <= widthT T -> 0 <= maxv < 2 ^ widthT T -> 2 <= base <= 36 -> Forall dom l ->
  0 <= acc -> o = (maxv <? acc) -> (acc <= maxv -> v = acc) ->
  let '(d, r) := span_digits base l in
  let N := digits_value base d acc in
  exists v', digit_loop C T base maxv l v o = (v', maxv <? N, r) /\ (N <= maxv -> v' = N).
Proof.
  induction l as [| c l IH]; intros v o acc Hw Hm Hb HF Ha -> Hv; simpl; [eauto |].
  inversion HF as [| ? ? Hc HF']; subst.
  destruct (valid_char C c base) eqn:V; [| simpl; eauto].
  pose proof (valid_digit c base Hc Hb V) as Hd.
  destruct (span_digits base l) as [d r] eqn:SP. simpl.
  set (acc' := acc * base + digit_of C c).
  set (v1 := wrapu (widthT T) (v * wrapu (widthT T) base)).
  set (v2 := wrapu (widthT T) (v1 + digit_of C c)).
  assert (Ha' : 0 <= acc') by (unfold acc'; nia).
  match goal with |- context [ digit_loop C T base maxv l v2 ?ov ] => set (o2 := ov) end.
  assert (St : o2 = (maxv <? acc') /\ (acc' <= maxv -> v2 = acc')).
  { destruct (Z.ltb_spec maxv acc) as [Hover | Hfit].
    - assert (maxv < acc') by (unfold acc'; nia). split; [| lia].
      unfold o2. simpl. symmetry. apply Z.ltb_lt. lia.
    - pose proof (Hv Hfit) as ->.
      destruct (step_overflow (widthT T) maxv base acc (digit_of C c)) as [S1 S2];
        [lia | lia | lia | lia | lia |].
      split; [exact S1 | exact S2]. }
  destruct St as [So Sv].
  specialize (IH v2 o2 acc' Hw Hm Hb HF' Ha' So Sv).
  exact IH.
Qed.
End Values.

(** ** Correctness of the parser *)

Lemma skip_space_dom C (dom : Z -> Prop) l : Forall dom l -> Forall dom (skip_space C l).
Proof.
  induction 1 as [| c l Hc Hl IH]; simpl; [constructor |].
  destruct (isspace_helper C c); [exact IH | constructor; assumption].
Qed.

Lemma parse_sign_dom (dom : Z -> Prop) l : Forall dom l -> Forall dom (snd (parse_sign l)).
Proof.
  intros H. unfold parse_sign.
  destruct (at_ l 0 =? ch_minus); [| destruct (at_ l 0 =? ch_plus)]; simpl; auto using Forall_drop.
Qed.

Lemma parse_base_ok C (dom : Z -> Prop) base0 l :
  base0 = 0 \/ 2 <= base0 <= 36 -> Forall dom l ->
  2 <= fst (parse_base C base0 l) <= 36 /\ Forall dom (snd (parse_base C base0 l)).
Proof.
  intros Hb H. unfold parse_base.
  repeat match goal with
  | |- context [ if ?b then _ else _ ] => destruct b eqn:?
  end; cbn [fst snd]; (split; [zbool; lia | auto using Forall_drop]).
Qed.

Section Correct.
Context (C : CharType) {dom : Z -> Prop} `{!CharTypeOk C dom}.

(** What the digits of [l] denote, with the sign. *)
Definition signed_value (sign : bool) (base : Z) (d : list Z) : Z :=
  if sign then - digits_value C base d 0 else digits_value C base d 0.

Lemma T_cast_signed w z : 0 < w ->
  T_cast {| signedT := true; widthT := w |} z = wraps w z.
Proof. reflexivity. Qed.

(** The final value of a signed conversion whose digits fit. *)
Lemma signed_result T (sign : bool) N : signedT T = true -> 1 < widthT T -> 0 <= N -> N <= max_value T sign ->
  (if sign then T_neg T (T_cast T N) else Some (T_cast T N)) =
  let n := if sign then - N else N in if n =? smin (widthT T) then None else Some n.
Proof.
  intros Sg Hw HN Hm. unfold max_value in Hm. unfold T_neg, T_cast, smin. rewrite Sg in *. cbn [andb].
  set (w := widthT T) in *. clearbody w.
  assert (E : 2 ^ w = 2 * 2 ^ (w - 1)) by (rewrite <- Z.pow_succ_r by lia; f_equal; lia).
  pose proof (Z.pow_pos_nonneg 2 (w - 1) ltac:(lia) ltac:(lia)).
  destruct sign; unfold smax in *; cbv zeta;
    [| rewrite wraps_small by (unfold is_s, smin, smax; lia); destruct (Z.eqb_spec N (- 2 ^ (w - 1))); [lia | reflexivity]].
  destruct (decide (N = 2 ^ (w - 1))) as [-> | Hne].
  - assert (Q : wraps w (2 ^ (w - 1)) = - 2 ^ (w - 1)).
    { unfold wraps. rewrite <- (Z.mod_unique _ (2 ^ w) 1 0); lia. }
    rewrite Q, Z.eqb_refl. reflexivity.
  - rewrite !(wraps_small w N) by (unfold is_s, smin, smax; lia).
    rewrite wraps_small by (unfold is_s, smin, smax; lia).
    destruct (Z.eqb_spec N (- 2 ^ (w - 1))), (Z.eqb_spec (- N) (- 2 ^ (w - 1))); reflexivity || lia.
Qed.

Lemma digits_value_span_nonneg base l : 2 <= base <= 36 -> Forall dom l ->
  0 <= digits_value C base (fst (span_digits C base l)) 0.
Proof.
  intros Hb H. apply (digits_value_ge C (dom := dom)); [exact Hb | lia |].
  apply span_digits_valid. exact H.
Qed.
End Correct.

(** C5: [str_to_int] into a signed 64-bit type ([strtol], [strtoll], and the
    wide [wcstol], [wcstoll]) is exact: after the spaces, the sign and the base
    prefix, the longest run of digits valid in the base is read; the result is
    the number it denotes clamped to the range of the type, [ERANGE] is set
    exactly when clamping changed the number, and the end pointer is what
    follows the digits (the start when nothing at all was consumed).  The one
    exception is the most negative number itself: it is in range, and the code
    negates it as a [long], which is undefined. *)
Theorem str_to_int_signed_correct (C : CharType) (dom : Z -> Prop) `{!CharTypeOk C dom}
    (start : list Z) (base0 : Z) :
  base0 = 0 \/ 2 <= base0 <= 36 -> Forall dom start ->
  let '(sign, p1) := parse_sign (skip_space C start) in
  let '(base, p2) := parse_base C base0 p1 in
  let '(d, r) := span_digits C base p2 in
  let N := signed_value C sign base d in
  let V := Z.max (smin 64) (Z.min (smax 64) N) in
  str_to_int C T_long start base0 =
    if N =? smin 64 then None
    else Some (V, if Nat.eqb (length (skip_space C start)) (length r) then start else r, negb (V =? N)).
Proof.
  intros Hb HF. unfold str_to_int.
  pose proof (parse_sign_dom dom _ (skip_space_dom C dom start HF)) as D1.
  destruct (parse_sign (skip_space C start)) as [sign p1]. simpl in D1.
  pose proof (parse_base_ok C dom base0 p1 Hb D1) as [Hbase D2].
  destruct (parse_base C base0 p1) as [base p2]. simpl in Hbase, D2.
  pose proof (digits_value_span_nonneg C base p2 Hbase D2) as HN.
  assert (Hm : 0 <= max_value T_long sign < 2 ^ widthT T_long)
    by (destruct sign; vm_compute; split; congruence).
  assert (H0 : false = (max_value T_long sign <? 0)) by (symmetry; apply Z.ltb_ge; lia).
  pose proof (digit_loop_ok C T_long base (max_value T_long sign) p2 0 false 0
                ltac:(vm_compute; discriminate) Hm Hbase D2 ltac:(lia) H0 (fun _ => eq_refl)) as L.
  destruct (span_digits C base p2) as [d r]. simpl in HN.
  destruct L as (v & E & Ev).
  destruct (Z.leb_spec base 36); [| lia]. rewrite E.
  unfold signed_value. set (N := digits_value C base d 0) in *.
  destruct (Z.ltb_spec (max_value T_long sign) N) as [Hov | Hfit].
  - unfold max_value, T_min, T_max in *. simpl in *. unfold smin, smax in *. simpl in *.
    destruct sign; (match goal with |- _ = if ?b then _ else _ => destruct b eqn:Q end; [zbool; lia |]);
      repeat f_equal; zbool; simpl; try reflexivity; lia.
  - rewrite (Ev Hfit). rewrite (signed_result T_long sign N eq_refl ltac:(simpl; lia) HN Hfit). cbv zeta. cbn [widthT T_long].
    destruct ((if sign then - N else N) =? smin 64); [reflexivity |]. cbn.
    unfold max_value in Hfit. simpl in Hfit. unfold smin, smax in *. simpl in *.
    destruct sign; repeat f_equal; zbool; simpl; try reflexivity; lia.
Qed.

Lemma str_to_int_signed_correct_witness :
  str_to_int char_type T_long [32; 45; 52; 50; 120] 10 = Some (-42, [120], false).
Proof.
  assert (Hb : 10 = 0 \/ 2 <= 10 <= 36) by lia.
  assert (HF : Forall char_dom [32; 45; 52; 50; 120])
    by (unfold char_dom; repeat constructor; lia).
  exact (str_to_int_signed_correct char_type char_dom [32; 45; 52; 50; 120] 10 Hb HF).
Defined.

(** A negative number whose magnitude overflows makes the unsigned conversions
    return 0, not the largest value: [numeric_limits<T>::min()] is 0. *)
Theorem strtoul_negative_overflow_is_zero :
  strtoul (ch_minus :: repeat ch_9 20) 10 = Some (0, [], true).
Proof. by_vm. Qed.

(** A lone sign is taken as a conversion: the end pointer is set past it. *)
Theorem strtol_lone_sign_consumed : strtol [ch_minus; ch_x] 10 = Some (0, [ch_x], false).
Proof. by_vm. Qed.

(** On the text of [LONG_MIN], [strtol] negates [LONG_MIN]. *)
Theorem strtol_long_min_undefined :
  strtol [45; 57; 50; 50; 51; 51; 55; 50; 48; 51; 54; 56; 53; 52; 55; 55; 53; 56; 48; 56] 10 = None.
Proof. by_vm. Qed.

(** The most negative value is rejected by [strtoimax], which compares the
    magnitude with [INTMAX_MAX] whatever the sign. *)
Theorem strtoimax_rejects_min :
  strtoimax [45; 57; 50; 50; 51; 51; 55; 50; 48; 51; 54; 56; 53; 52; 55; 55; 53; 56; 48; 56] 10 =
    (smax 64, None, true).
Proof. by_vm. Qed.

(** [atoi] overflows its [int] accumulator on the text of [INT_MIN]. *)
Theorem atoi_int_min_overflows :
  atoi [45; 50; 49; 52; 55; 52; 56; 51; 54; 52; 56] = None.
Proof. by_vm. Qed.
