(* ===== verification/SortSearch.v ===== *)
(** * [qsort] and [bsearch]

    [src/src/ansi/stdlib.cpp].  An array element is its bytes, a list of length
    [size]; the array is the list of its elements in address order.  The
    comparison callback is a parameter: a function of the two elements. *)

From Stdlib Require Import Sorting.Sorted Sorting.Permutation.
From S2P Require Import Prelude.

#[local] Open Scope Z_scope.

(** The byte loop of [qsort]: [tmp = a[k]; a[k] = b[k]; b[k] = tmp] for [k] below
    [size]; [k] counts the bytes still to be swapped. *)
Fixpoint swap_bytes (k : nat) (a b : list Z) : list Z * list Z :=
  match k, a, b with
  | S k', x :: a', y :: b' => let '(a2, b2) := swap_bytes k' a' b' in (y :: a2, x :: b2)
  | _, _, _ => (a, b)
  end.

Section Sort.
Context (size : nat) (comp : list Z -> list Z -> Z).

(** One run of the inner loop; [cur] is the element at [j] and [rest] the ones
    after it. Returns [changed] and the array from [j] on. *)
Fixpoint pass_from (cur : list Z) (rest : list (list Z)) : bool * list (list Z) :=
  match rest with
  | [] => (false, [cur])
  | b :: rest' =>
      if 0 <? comp cur b then
        let '(cur', b') := swap_bytes size cur b in
        let '(_, l) := pass_from b' rest' in (true, cur' :: l)
      else
        let '(changed, l) := pass_from b rest' in (changed, cur :: l)
  end.

Definition pass (l : list (list Z)) : bool * list (list Z) :=
  match l with
  | [] => (false, [])
  | a :: l' => pass_from a l'
  end.

(** The outer loop: [i] counts the passes still allowed. *)
Fixpoint qsort_loop (i : nat) (l : list (list Z)) : list (list Z) :=
  match i with
  | O => l
  | S i' => let '(changed, l') := pass l in
            if changed then qsort_loop i' l' else l'
  end.

Definition qsort (l : list (list Z)) : list (list Z) := qsort_loop (length l) l.
End Sort.

Section Search.
Context (comp : list Z -> list Z -> Z).

Inductive bsearch_result :=
| Found (index : Z)
| NotFound
| BsearchFuel.

Fixpoint bsearch_loop (fuel : nat) (key : list Z) (arr : list (list Z)) (lower upper : Z)
  : bsearch_result :=
  match fuel with
  | O => BsearchFuel
  | S f =>
      if lower <? upper then
        let middle := (upper - lower) / 2 in
        let elem := znth [] arr (lower + middle) in
        let res := comp key elem in
        if res <? 0 then bsearch_loop f key arr lower (lower + middle)
        else if 0 <? res then bsearch_loop f key arr (lower + middle + 1) upper
        else Found (lower + middle)
      else NotFound
  end.

Definition bsearch (fuel : nat) (key : list Z) (arr : list (list Z)) : bsearch_result :=
  bsearch_loop fuel key arr 0 (zlen arr).
End Search.

(** ** Sorting *)

Lemma swap_bytes_swaps k : forall a b,
  length a = k -> length b = k -> swap_bytes k a b = (b, a).
Proof.
  induction k as [| k IH]; intros [| x a] [| y b] Ha Hb; simpl in *; try discriminate; [reflexivity |].
  rewrite IH by lia. reflexivity.
Qed.

Section SortCorrect.
Context (size : nat) (comp : list Z -> list Z -> Z).
Abbreviation le := (fun a b => comp a b <= 0).

(** What C requires of the comparison callback. *)
Hypothesis le_total : forall a b, comp a b <= 0 \/ comp b a <= 0.
Hypothesis le_trans : forall a b c, comp a b <= 0 -> comp b c <= 0 -> comp a c <= 0.

Definition elements (l : list (list Z)) : Prop := Forall (fun a => length a = size) l.

(** The pass on elements: what the byte loop makes of it. *)
Fixpoint bubble (cur : list Z) (rest : list (list Z)) : bool * list (list Z) :=
  match rest with
  | [] => (false, [cur])
  | b :: rest' =>
      if 0 <? comp cur b
      then (true, b :: snd (bubble cur rest'))
      else (fst (bubble b rest'), cur :: snd (bubble b rest'))
  end.

Lemma pass_from_bubble rest : forall cur, length cur = size -> elements rest ->
  pass_from size comp cur rest = bubble cur rest.
Proof.
  induction rest as [| b rest IH]; intros cur Hc HR; [reflexivity |].
  inversion HR as [| ? ? Hb HR']; subst. simpl. destruct (0 <? comp cur b).
  - rewrite swap_bytes_swaps by congruence. rewrite IH by assumption.
    destruct (bubble cur rest). reflexivity.
  - rewrite IH by assumption. destruct (bubble b rest). reflexivity.
Qed.

Lemma bubble_perm rest : forall cur, Permutation (cur :: rest) (snd (bubble cur rest)).
Proof.
  induction rest as [| b rest IH]; intros cur; simpl; [reflexivity |].
  destruct (0 <? comp cur b); simpl.
  - rewrite perm_swap. constructor. apply IH.
  - constructor. apply IH.
Qed.

(** A pass that changes nothing ran over a sorted array. *)
Lemma bubble_unchanged rest : forall cur,
  fst (bubble cur rest) = false ->
  snd (bubble cur rest) = cur :: rest /\ Sorted le (cur :: rest).
Proof.
  induction rest as [| b rest IH]; intros cur; simpl; [auto |].
  destruct (Z.ltb_spec 0 (comp cur b)); simpl; [discriminate |].
  intros E. destruct (IH b E) as [-> Hs]. split; [reflexivity |]. auto.
Qed.

(** A pass carries a largest element to the end. *)
Lemma bubble_last rest : forall cur,
  exists l x, snd (bubble cur rest) = l ++ [x] /\ Forall (fun a => le a x) (cur :: rest).
Proof.
  induction rest as [| b rest IH]; intros cur; simpl.
  - exists [], cur. split; [reflexivity |]. repeat constructor.
    destruct (le_total cur cur); assumption.
  - destruct (Z.ltb_spec 0 (comp cur b)) as [Hgt | Hle].
    + destruct (IH cur) as (l & x & E & F). simpl. rewrite E.
      inversion F as [| ? ? F1 F2]; subst. exists (b :: l), x. split; [reflexivity |].
      repeat constructor; try assumption.
      assert (comp b cur <= 0) by (destruct (le_total b cur); lia). eauto.
    + destruct (IH b) as (l & x & E & F). simpl. rewrite E.
      inversion F as [| ? ? F1 F2]; subst. exists (cur :: l), x. split; [reflexivity |].
      repeat constructor; eauto.
Qed.

(** The array after [k] passes: its last [k] elements are sorted and above the
    others. *)
Definition tail_sorted (u v : list (list Z)) : Prop :=
  Sorted le v /\ Forall (fun a => Forall (le a) v) u.

Lemma bubble_sorted_tail v : forall cur, Sorted le (cur :: v) -> bubble cur v = (false, cur :: v).
Proof.
  induction v as [| b v IH]; intros cur Hs; [reflexivity |].
  inversion Hs as [| ? ? Hs' Hd]; subst. inversion Hd; subst. simpl.
  destruct (Z.ltb_spec 0 (comp cur b)); [lia |]. rewrite IH by assumption. reflexivity.
Qed.

Lemma sorted_cons_forall a v : Forall (le a) v -> Sorted le v -> Sorted le (a :: v).
Proof. intros F S. constructor; [exact S |]. destruct F; constructor; assumption. Qed.

Lemma bubble_app rest v : forall cur, tail_sorted (cur :: rest) v ->
  snd (bubble cur (rest ++ v)) = snd (bubble cur rest) ++ v.
Proof.
  induction rest as [| b rest IH]; intros cur [Hs HF]; simpl.
  - inversion HF; subst. rewrite bubble_sorted_tail; [reflexivity |].
    apply sorted_cons_forall; assumption.
  - inversion HF as [| ? ? F1 F2]; subst. inversion F2 as [| ? ? F3 F4]; subst.
    destruct (0 <? comp cur b); simpl; f_equal; apply IH; split; auto.
Qed.

Lemma tail_sorted_all u v : Sorted le u -> tail_sorted u v -> Sorted le (u ++ v).
Proof.
  intros Hu [Hv HF]. induction u as [| a u IH]; [exact Hv |].
  inversion Hu as [| ? ? Hu' Hd]; subst. inversion HF as [| ? ? F1 F2]; subst.
  simpl. constructor; [auto |]. destruct u; [destruct F1; constructor; auto |].
  inversion Hd; subst. constructor. assumption.
Qed.

Lemma elements_perm l l' : elements l -> Permutation l l' -> elements l'.
Proof. intros E P. unfold elements in *. rewrite <- P. exact E. Qed.

Lemma qsort_loop_sorts i : forall u v,
  (length u <= i)%nat -> elements (u ++ v) -> tail_sorted u v ->
  Sorted le (qsort_loop size comp i (u ++ v)) /\
  Permutation (u ++ v) (qsort_loop size comp i (u ++ v)).
Proof.
  induction i as [| i IH]; intros u v Hi HE HT.
  - destruct u; [| simpl in Hi; lia]. simpl. split; [apply HT | reflexivity].
  - destruct u as [| a u].
    + simpl. destruct v as [| b v]; [simpl; split; constructor |].
      unfold pass. inversion HE as [| ? ? HE1 HE2]; subst.
      rewrite pass_from_bubble by assumption.
      rewrite bubble_sorted_tail by (apply HT). split; [apply HT | reflexivity].
    + assert (HE' : length a = size /\ elements (u ++ v)) by (inversion HE; auto).
      cbn [qsort_loop app]. unfold pass at 1 2. rewrite pass_from_bubble by apply HE'.
      destruct (bubble a (u ++ v)) as [changed l'] eqn:B.
      pose proof (bubble_perm (u ++ v) a) as P. rewrite B in P. simpl in P.
      destruct changed.
      * pose proof (bubble_app u v a HT) as A. rewrite B in A. simpl in A. subst l'.
        destruct (bubble_last u a) as (l & x & E & F). rewrite E in *.
        rewrite <- app_assoc in *. simpl in P. change ([x] ++ v) with (x :: v) in *.
        pose proof (bubble_perm u a) as Pu. rewrite E in Pu.
        assert (HF : Forall (le x) v).
        { destruct HT as [_ HF]. rewrite Forall_forall in HF. apply HF.
          apply (Permutation_in x (Permutation_sym Pu)), in_or_app. right. left. reflexivity. }
        assert (Fl : Forall (fun y => le y x /\ Forall (le y) v) (l ++ [x])).
        { rewrite <- Pu. apply Forall_and; [exact F | apply HT]. }
        apply Forall_app in Fl as [Fl _].
        destruct (IH l (x :: v)) as [S1 S2].
        -- pose proof (Permutation_length Pu) as PL. rewrite length_app in PL. simpl in *. lia.
        -- apply (elements_perm (a :: u ++ v)); [constructor; apply HE' | exact P].
        -- split; [apply sorted_cons_forall; [exact HF | apply HT] |].
           apply (Forall_impl _ (P := fun y => le y x /\ Forall (le y) v)); [| exact Fl].
           intros y [Y1 Y2]. constructor; assumption.
        -- split; [exact S1 |]. etransitivity; [exact P | exact S2].
      * destruct (bubble_unchanged (u ++ v) a) as [E S]; [rewrite B; reflexivity |].
        rewrite B in E. simpl in E. subst l'. split; [exact S | reflexivity].
Qed.

(** Equivalent to [x] for the callback. *)
Definition equiv (x a : list Z) : bool := (comp x a <=? 0) && (comp a x <=? 0).

Lemma bubble_stable x rest : forall cur,
  List.filter (equiv x) (snd (bubble cur rest)) = List.filter (equiv x) (cur :: rest).
Proof.
  induction rest as [| b rest IH]; intros cur; [reflexivity |].
  cbn [bubble]. destruct (Z.ltb_spec 0 (comp cur b)); cbn [fst snd].
  - cbn [List.filter]. rewrite IH. cbn [List.filter].
    destruct (equiv x cur) eqn:E1, (equiv x b) eqn:E2; try reflexivity.
    unfold equiv in *. exfalso.
    assert (comp cur b <= 0) by (apply (le_trans cur x b); lia). lia.
  - cbn [List.filter]. rewrite IH. reflexivity.
Qed.

Lemma qsort_loop_stable x i : forall l, elements l ->
  List.filter (equiv x) (qsort_loop size comp i l) = List.filter (equiv x) l.
Proof.
  induction i as [| i IH]; intros [| a l] HE; simpl; try reflexivity; try (destruct i; reflexivity).
  inversion HE as [| ? ? Ha HL]; subst. rewrite pass_from_bubble by assumption.
  pose proof (bubble_perm l a) as P. pose proof (bubble_stable x l a) as S.
  destruct (bubble a l) as [[] l']; simpl in *; [| exact S].
  rewrite IH; [exact S |]. apply (elements_perm (a :: l)); [constructor; assumption | exact P].
Qed.
End SortCorrect.

(** C6: [qsort] sorts.  For a callback that is a total preorder, on an array of
    [size]-byte elements of any length, the result is a permutation of the
    array, it is in nondecreasing order, and elements the callback holds equal
    keep their order. *)
Theorem qsort_correct (size : nat) (comp : list Z -> list Z -> Z) (l : list (list Z)) :
  (forall a b, comp a b <= 0 \/ comp b a <= 0) ->
  (forall a b c, comp a b <= 0 -> comp b c <= 0 -> comp a c <= 0) ->
  elements size l ->
  Permutation l (qsort size comp l) /\
  Sorted (fun a b => comp a b <= 0) (qsort size comp l) /\
  (forall x, List.filter (equiv comp x) (qsort size comp l) = List.filter (equiv comp x) l).
Proof.
  intros HT HR HE. unfold qsort.
  assert (T : tail_sorted comp l []) by (split; [constructor | apply Forall_forall; constructor]).
  pose proof (qsort_loop_sorts size comp HT HR (length l) l []) as Q.
  rewrite app_nil_r in Q. destruct (Q ltac:(lia) HE T) as [S P].
  split; [exact P | split; [exact S |]].
  intros x. apply qsort_loop_stable; assumption.
Qed.

(** A callback on one-byte elements. *)
Definition comp_byte (a b : list Z) : Z := hd 0 a - hd 0 b.

Lemma qsort_correct_witness :
  Permutation [[3]; [1]; [2]] (qsort 1 comp_byte [[3]; [1]; [2]]) /\
  Sorted (fun a b => comp_byte a b <= 0) (qsort 1 comp_byte [[3]; [1]; [2]]) /\
  (forall x, List.filter (equiv comp_byte x) (qsort 1 comp_byte [[3]; [1]; [2]]) =
             List.filter (equiv comp_byte x) [[3]; [1]; [2]]).
Proof.
  apply (qsort_correct 1 comp_byte [[3]; [1]; [2]]).
  - unfold comp_byte. intros a b. lia.
  - unfold comp_byte. intros a b c. lia.
  - repeat constructor.
Defined.

(** ** Searching *)

(** The array is ordered with respect to the key: the elements the key is above,
    then the ones it equals, then the ones it is below. *)
Definition key_ordered (comp : list Z -> list Z -> Z) (key : list Z) (arr : list (list Z)) : Prop :=
  forall i j, 0 <= i <= j -> j < zlen arr ->
    (comp key (znth [] arr i) < 0 -> comp key (znth [] arr j) < 0) /\
    (0 < comp key (znth [] arr j) -> 0 < comp key (znth [] arr i)).

Lemma bsearch_loop_ok comp key arr fuel : forall lower upper,
  key_ordered comp key arr -> 0 <= lower <= upper -> upper <= zlen arr ->
  upper - lower < Z.of_nat fuel ->
  (forall i, 0 <= i < lower -> 0 < comp key (znth [] arr i)) ->
  (forall i, upper <= i < zlen arr -> comp key (znth [] arr i) < 0) ->
  match bsearch_loop comp fuel key arr lower upper with
  | Found i => 0 <= i < zlen arr /\ comp key (znth [] arr i) = 0
  | NotFound => forall i, 0 <= i < zlen arr -> comp key (znth [] arr i) <> 0
  | BsearchFuel => False
  end.
Proof.
  induction fuel as [| f IH]; intros lower upper HO Hb Hu Hf Hlo Hhi; [lia |].
  cbn [bsearch_loop]. destruct (Z.ltb_spec lower upper).
  - pose proof (Z.div_lt (upper - lower) 2 ltac:(lia) ltac:(lia)).
    pose proof (Z.div_pos (upper - lower) 2 ltac:(lia) ltac:(lia)).
    set (mid := (upper - lower) / 2) in *.
    destruct (Z.ltb_spec (comp key (znth [] arr (lower + mid))) 0) as [Hlt | Hge];
      [| destruct (Z.ltb_spec 0 (comp key (znth [] arr (lower + mid)))) as [Hgt | Heq]].
    + apply IH; auto; try lia. intros i Hi. apply (HO (lower + mid) i); lia.
    + apply IH; auto; try lia. intros i Hi. apply (HO i (lower + mid)); lia.
    + lia.
  - intros i Hi E. destruct (Z.lt_ge_cases i lower) as [L | G].
    + specialize (Hlo i). lia.
    + specialize (Hhi i). lia.
Qed.

(** [bsearch] terminates within [count + 1] iterations; on an array ordered
    for the key it returns an element the callback holds equal to the key
    when there is one, and null exactly when there is none. *)
Theorem bsearch_correct (comp : list Z -> list Z -> Z) (key : list Z) (arr : list (list Z))
    (fuel : nat) :
  key_ordered comp key arr -> (length arr < fuel)%nat ->
  match bsearch comp fuel key arr with
  | Found i => 0 <= i < zlen arr /\ comp key (znth [] arr i) = 0
  | NotFound => forall i, 0 <= i < zlen arr -> comp key (znth [] arr i) <> 0
  | BsearchFuel => False
  end.
Proof.
  intros HO Hf. pose proof (zlen_nonneg arr).
  apply bsearch_loop_ok; unfold zlen in *; auto; lia.
Qed.

Lemma bsearch_correct_witness :
  match bsearch comp_byte 4 [2] [[1]; [2]; [5]] with
  | Found i => 0 <= i < 3 /\ comp_byte [2] (znth [] [[1]; [2]; [5]] i) = 0
  | NotFound => forall i, 0 <= i < 3 -> comp_byte [2] (znth [] [[1]; [2]; [5]] i) <> 0
  | BsearchFuel => False
  end.
Proof.
  apply (bsearch_correct comp_byte [2] [[1]; [2]; [5]] 4).
  - intros i j Hi Hj. change (zlen [[1]; [2]; [5]]) with 3 in Hj.
    assert (C : forall k, 0 <= k < 3 -> comp_byte [2] (znth [] [[1]; [2]; [5]] k) =
                          if k =? 0 then 1 else if k =? 1 then 0 else -3).
    { intros k Hk. assert (k = 0 \/ k = 1 \/ k = 2) as [-> | [-> | ->]] by lia; reflexivity. }
    rewrite !C by lia. zbool; lia.
  - simpl. lia.
Defined.
