(* ===== verification/Calendar.v ===== *)
(** * Calendar time

    [src/src/internal/time.hpp] and the conversions of [src/src/ansi/time.cpp]:
    [gmtime_r], [localtime_r], [timegm], [mktime] and the time zone lookup.  C
    division is truncated ([Z.quot], [Z.rem]).  A loop that counts years,
    months or carries takes fuel; the wrappers supply a bound computed from the
    argument, and the theorems show that it is enough. *)

From S2P Require Import Prelude.

#[local] Open Scope Z_scope.

(** ** [internal/time.hpp] *)

Definition is_leap (year : Z) : bool :=
  (Z.rem year 400 =? 0) || ((Z.rem year 4 =? 0) && negb (Z.rem year 100 =? 0)).

Definition days_per_year (year : Z) : Z := if is_leap year then 366 else 365.

Definition DAYS_IN_MONTHS_NOLEAP : list Z := [31; 28; 31; 30; 31; 30; 31; 31; 30; 31; 30; 31].
Definition DAYS_IN_MONTHS_LEAP : list Z := [31; 29; 31; 30; 31; 30; 31; 31; 30; 31; 30; 31].

Definition get_days_per_month_table (year : Z) : list Z :=
  if is_leap year then DAYS_IN_MONTHS_LEAP else DAYS_IN_MONTHS_NOLEAP.

Definition EPOCH_YEAR : Z := 1970.

Record TzData := { gmt_offset : Z; tz_is_dst : bool; zone : list Z }.

(** [struct tm] of [include/time.h]; the zone name is its characters. *)
Record tm := mk_tm {
  tm_sec : Z; tm_min : Z; tm_hour : Z; tm_mday : Z; tm_mon : Z; tm_year : Z;
  tm_wday : Z; tm_yday : Z; tm_isdst : Z; tm_gmtoff : Z; tm_zone : list Z;
}.

(** "UTC". *)
Definition UTC : list Z := [85; 84; 67].

(** ** Breaking a time down *)

(** [while (days_since_epoch >= days_per_year(year)) ...]: the days left and the
    year. *)
Fixpoint year_loop (fuel : nat) (days year : Z) : option (Z * Z) :=
  match fuel with
  | O => None
  | S f => if days_per_year year <=? days
           then year_loop f (days - days_per_year year) (year + 1)
           else Some (days, year)
  end.

(** The month loop over the rest of the table; [None] would be an access past
    the table. *)
Fixpoint month_loop (table : list Z) (days month : Z) : option (Z * Z) :=
  match table with
  | [] => None
  | n :: table' => if n <=? days then month_loop table' (days - n) (month + 1)
                   else Some (days, month)
  end.

Definition day_of_week (days_since_epoch : Z) : Z :=
  if -4 <=? days_since_epoch then Z.rem (days_since_epoch + 4) 7
  else Z.rem (days_since_epoch + 5) 7 + 6.

(** A bound on the year loop: every year has at least 365 days. *)
Definition year_fuel (days : Z) : nat := S (Z.to_nat (days / 365)).

Definition TIME_LIMIT : Z := 32500915200.

(** The body that [gmtime_r] and [localtime_r] share: [local] is the time in the
    zone. *)
Definition break_down (local isdst gmtoff : Z) (zn : list Z) : option tm :=
  let days_since_epoch := Z.quot local (60 * 60 * 24) in
  '(year_day, year) ← year_loop (year_fuel days_since_epoch) days_since_epoch EPOCH_YEAR;
  '(mday, month) ← month_loop (get_days_per_month_table year) year_day 0;
  Some {|
    tm_sec := Z.rem local 60;
    tm_min := Z.rem (Z.quot local 60) 60;
    tm_hour := Z.rem (Z.quot (Z.quot local 60) 60) 24;
    tm_mday := mday + 1;
    tm_mon := month;
    tm_year := year - 1900;
    tm_wday := day_of_week days_since_epoch;
    tm_yday := year_day;
    tm_isdst := isdst;
    tm_gmtoff := gmtoff;
    tm_zone := zn;
  |}.

(** [None] is the error return: the time is out of range, [errno] is
    [EOVERFLOW]. *)
Definition gmtime_r (time_value : Z) : option tm :=
  if (time_value <? - TIME_LIMIT) || (TIME_LIMIT <=? time_value) then None
  else break_down time_value 0 0 UTC.

(** The zone data is absent, or gives the offset at a time. *)
Definition localtime_r (tz : option (Z -> TzData)) (time_value : Z) : option tm :=
  if (time_value <? 0) || (TIME_LIMIT <=? time_value) then None
  else match tz with
       | None => break_down time_value 0 0 UTC
       | Some get_tz_data =>
           let info := get_tz_data time_value in
           break_down (time_value + gmt_offset info) (Z.b2z (tz_is_dst info))
             (gmt_offset info) (zone info)
       end.

(** ** Building a time *)

(** [while (v >= limit) { v -= limit; if (hi == INT_MAX) error; ++hi; }]: [None]
    is the [EOVERFLOW] return. *)
Fixpoint carry_loop (fuel : nat) (v limit hi : Z) : option (Z * Z) :=
  match fuel with
  | O => None
  | S f => if limit <=? v then
             if hi =? smax 32 then None else carry_loop f (v - limit) limit (hi + 1)
           else Some (v, hi)
  end.
Definition carry (v limit hi : Z) : option (Z * Z) :=
  carry_loop (S (Z.to_nat (v / limit))) v limit hi.

(** The loop that carries days into months and months into years. *)
Fixpoint day_loop (fuel : nat) (day mon year : Z) : option (Z * Z * Z) :=
  match fuel with
  | O => None
  | S f =>
      let n := znth 0 (get_days_per_month_table year) mon in
      if day <? n then Some (day, mon, year)
      else if mon + 1 =? 12 then day_loop f (day - n) 0 (year + 1)
      else day_loop f (day - n) (mon + 1) year
  end.
Definition day_fuel (day : Z) : nat := S (Z.to_nat (day / 28)).

(** [for (month = 0; month < tm_mon; ++month) days += table[month]]. *)
Fixpoint month_sum (n : nat) (table : list Z) (days : Z) : Z :=
  match n, table with
  | S n', d :: table' => month_sum n' table' (days + d)
  | _, _ => days
  end.

(** [for (year = EPOCH_YEAR; year < y; ++year) days += days_per_year(year)]; [n]
    is the number of iterations. *)
Fixpoint year_sum (n : nat) (year days : Z) : Z :=
  match n with
  | O => days
  | S n' => year_sum n' (year + 1) (days + days_per_year year)
  end.

(** The normalised fields: second, minute, hour, day (from 0), month, year. *)
Definition normalise (t : tm) : option (Z * Z * Z * Z * Z * Z) :=
  '(sec, min) ← carry (tm_sec t) 60 (tm_min t);
  '(min, hour) ← carry min 60 (tm_hour t);
  '(hour, day) ← carry hour 24 (tm_mday t - 1);
  '(mon, year) ← carry (tm_mon t) 12 (tm_year t + 1900);
  '(day, mon, year) ← day_loop (day_fuel day) day mon year;
  Some (sec, min, hour, day, mon, year).

(** The part of [timegm] and [mktime] after the normalisation: the days since
    the epoch, the day of the year, and the time without a zone. *)
Definition build (sec min hour day mon year : Z) : Z * Z * Z :=
  let yday := month_sum (Z.to_nat mon) (get_days_per_month_table year) day in
  let days := year_sum (Z.to_nat (year - EPOCH_YEAR)) EPOCH_YEAR yday in
  (days, yday, days * (60 * 60 * 24) + hour * (60 * 60) + min * 60 + sec).

(** The time and the normalised structure; [None] is the [EOVERFLOW] return. *)
Definition timegm (t : tm) : option (Z * tm) :=
  '(sec, min, hour, day, mon, year) ← normalise t;
  let '(days, yday, time) := build sec min hour day mon year in
  Some (time, mk_tm sec min hour (day + 1) mon (year - 1900) (day_of_week days) yday 0 0 UTC).

Definition mktime (tz : option (Z -> TzData)) (t : tm) : option (Z * tm) :=
  '(sec, min, hour, day, mon, year) ← normalise t;
  let '(days, yday, time) := build sec min hour day mon year in
  let isdst := if 0 <? tm_isdst t then 1 else tm_isdst t in
  match tz with
  | Some get_tz_data =>
      let info := get_tz_data time in
      let isdst' := if isdst <? 0 then Z.b2z (tz_is_dst info) else isdst in
      Some (time - gmt_offset info,
            mk_tm sec min hour (day + 1) mon (year - 1900) (day_of_week days) yday isdst'
              (gmt_offset info) (zone info))
  | None =>
      let isdst' := if isdst <? 0 then -1 else isdst in
      Some (time, mk_tm sec min hour (day + 1) mon (year - 1900) (day_of_week days) yday isdst'
                    (tm_gmtoff t) (tm_zone t))
  end.

(** ** The time zone file

    The header counts and the bytes behind the header; [to_ne_from_be] is the
    byte order conversion of the support library, on 32-bit values read in the
    little-endian order of the machine. *)
Record TzFile := { tzh_timecnt : Z; tzh_typecnt : Z; tz_body : list Z }.

Section Zone.
Variable to_ne_from_be : Z -> Z.

Definition byte_at (f : TzFile) (i : Z) : Z := znth 0 (tz_body f) i.

Definition int32_at (f : TzFile) (i : Z) : Z :=
  s32 (to_ne_from_be (byte_at f i + 2 ^ 8 * byte_at f (i + 1)
                      + 2 ^ 16 * byte_at f (i + 2) + 2 ^ 24 * byte_at f (i + 3))).

(** The transition loop from index [i]; [n] is the number of entries left. *)
Fixpoint transition_loop (f : TzFile) (n : nat) (i time : Z) : Z :=
  match n with
  | O => -1
  | S n' =>
      if negb (i =? 0) && (time <? int32_at f (4 * i)) then i - 1
      else transition_loop f n' (i + 1) time
  end.

Fixpoint cstring_from (l : list Z) : list Z :=
  match l with
  | [] => []
  | c :: l' => if c =? 0 then [] else c :: cstring_from l'
  end.

(** [None] is the failed assertion of a file without zone types. *)
Definition get_tz_data (f : TzFile) (time : Z) : option TzData :=
  if tzh_typecnt f =? 0 then None else
  let transition_index := transition_loop f (Z.to_nat (tzh_timecnt f)) 0 time in
  let info_index := if 0 <=? transition_index
                    then byte_at f (tzh_timecnt f * 4 + transition_index) else 0 in
  let info := tzh_timecnt f * 5 + info_index * 6 in
  let abbrevs := tzh_timecnt f * 5 + tzh_typecnt f * 6 in
  Some {| gmt_offset := int32_at f info;
     tz_is_dst := negb (byte_at f (info + 4) =? 0);
     zone := cstring_from (drop (Z.to_nat (abbrevs + byte_at f (info + 5))) (tz_body f)) |}.
End Zone.

(** ** The calendar loops *)

Lemma days_per_year_bounds y : 365 <= days_per_year y <= 366.
Proof. unfold days_per_year. destruct (is_leap y); lia. Qed.

Lemma year_sum_acc n : forall y a, year_sum n y a = a + year_sum n y 0.
Proof.
  induction n as [| n IH]; intros y a; simpl; [lia |].
  rewrite IH, (IH _ (0 + days_per_year y)). lia.
Qed.

(** The days from the start of year [y] to the start of year [y']. *)
Definition days_between (y y' : Z) : Z := year_sum (Z.to_nat (y' - y)) y 0.

Lemma days_between_refl y : days_between y y = 0.
Proof. unfold days_between. rewrite Z.sub_diag. reflexivity. Qed.

Lemma days_between_step y y' : y < y' ->
  days_between y y' = days_per_year y + days_between (y + 1) y'.
Proof.
  intros H. unfold days_between.
  replace (Z.to_nat (y' - y)) with (S (Z.to_nat (y' - (y + 1)))) by lia.
  simpl. rewrite year_sum_acc. lia.
Qed.

Lemma year_loop_ok fuel : forall days year,
  0 <= days -> days / 365 < Z.of_nat fuel ->
  exists r y', year_loop fuel days year = Some (r, y') /\ year <= y' /\
    0 <= r < days_per_year y' /\ days = days_between year y' + r.
Proof.
  induction fuel as [| f IH]; intros days year Hd Hf.
  - pose proof (Z.div_pos days 365 Hd ltac:(lia)). lia.
  - cbn [year_loop]. pose proof (days_per_year_bounds year).
    destruct (Z.leb_spec (days_per_year year) days).
    + destruct (IH (days - days_per_year year) (year + 1)) as (r & y' & E & H1 & H2 & H3); [lia | |].
      { assert ((days - days_per_year year) / 365 <= (days - 365) / 365)
          by (apply Z.div_le_mono; lia).
        replace ((days - 365) / 365) with (days / 365 - 1) in *; [lia |].
        replace (days - 365) with (days + (-1) * 365) by lia. rewrite Z.div_add by lia. lia. }
      exists r, y'. split; [exact E | split; [lia | split; [lia |]]].
      rewrite (days_between_step year y') by lia. lia.
    + exists days, year. split; [reflexivity | split; [lia | split; [lia |]]].
      rewrite days_between_refl. lia.
Qed.

Lemma year_fuel_ok days : 0 <= days -> days / 365 < Z.of_nat (year_fuel days).
Proof. intros H. unfold year_fuel. pose proof (Z.div_pos days 365 H ltac:(lia)). lia. Qed.

Lemma month_sum_acc n : forall table a, month_sum n table a = a + month_sum n table 0.
Proof.
  induction n as [| n IH]; intros [| d table] a; simpl; try lia.
  rewrite IH, (IH table (0 + d)). lia.
Qed.

Lemma month_loop_ok table : forall days month,
  0 <= days < month_sum (length table) table 0 ->
  exists r k, month_loop table days month = Some (r, month + Z.of_nat k) /\
    (k < length table)%nat /\ 0 <= r < nth k table 0 /\ days = month_sum k table 0 + r.
Proof.
  induction table as [| n table IH]; intros days month Hd; simpl in Hd; [lia |].
  rewrite month_sum_acc in Hd. cbn [month_loop]. destruct (Z.leb_spec n days).
  - destruct (IH (days - n) (month + 1)) as (r & k & E & H1 & H2 & H3); [lia |].
    exists r, (S k). split; [rewrite E; do 2 f_equal; lia |].
    split; [simpl; lia | split; [exact H2 |]]. simpl. rewrite month_sum_acc. lia.
  - exists days, 0%nat. split; [do 2 f_equal; lia | simpl; lia].
Qed.

Lemma month_table_ok y :
  length (get_days_per_month_table y) = 12%nat /\
  month_sum 12 (get_days_per_month_table y) 0 = days_per_year y.
Proof. unfold get_days_per_month_table, days_per_year. destruct (is_leap y); auto. Qed.

(** ** Closed forms *)

Lemma is_leap_mod y : 0 <= y ->
  is_leap y = (y mod 400 =? 0) || ((y mod 4 =? 0) && negb (y mod 100 =? 0)).
Proof. intros H. unfold is_leap. rewrite !Z.rem_mod_nonneg by lia. reflexivity. Qed.

(** The leap days up to and including year [y], by the Gregorian rule. *)
Definition leap_days (y : Z) : Z := y / 4 - y / 100 + y / 400.

Lemma leap_days_step y : 0 <= y ->
  leap_days y - leap_days (y - 1) = if is_leap y then 1 else 0.
Proof.
  intros H. rewrite is_leap_mod by lia. unfold leap_days.
  destruct (Z.eqb_spec (y mod 400) 0), (Z.eqb_spec (y mod 4) 0), (Z.eqb_spec (y mod 100) 0);
    simpl; Z.to_euclidean_division_equations; lia.
Qed.

Lemma days_between_closed n : forall y, 1 <= y ->
  year_sum n y 0 = 365 * Z.of_nat n + leap_days (y + Z.of_nat n - 1) - leap_days (y - 1).
Proof.
  induction n as [| n IH]; intros y Hy; simpl year_sum.
  - replace (y + Z.of_nat 0 - 1) with (y - 1) by lia. lia.
  - rewrite year_sum_acc, IH by lia. replace (y + 1 - 1) with y by lia.
    replace (y + Z.of_nat (S n) - 1) with (y + 1 + Z.of_nat n - 1) by lia.
    pose proof (leap_days_step y ltac:(lia)). unfold days_per_year.
    destruct (is_leap y); lia.
Qed.

Lemma day_of_week_mod d : day_of_week d = (d + 4) mod 7.
Proof.
  unfold day_of_week. destruct (Z.leb_spec (-4) d).
  - apply Z.rem_mod_nonneg; lia.
  - Z.to_euclidean_division_equations; lia.
Qed.

(** ** Normalisation *)

Lemma carry_small v limit hi : v < limit -> carry v limit hi = Some (v, hi).
Proof. intros H. unfold carry. cbn [carry_loop]. destruct (Z.leb_spec limit v); [lia | reflexivity]. Qed.

Lemma carry_loop_ok fuel : forall v limit hi,
  0 <= v -> 0 < limit -> v / limit < Z.of_nat fuel -> hi + v / limit <= smax 32 ->
  carry_loop fuel v limit hi = Some (v mod limit, hi + v / limit).
Proof.
  induction fuel as [| f IH]; intros v limit hi Hv Hl Hf Hm.
  - pose proof (Z.div_pos v limit Hv Hl). lia.
  - cbn [carry_loop]. destruct (Z.leb_spec limit v).
    + assert (E : v / limit = (v - limit) / limit + 1).
      { replace v with (v - limit + 1 * limit) at 1 by lia. rewrite Z.div_add by lia. reflexivity. }
      pose proof (Z.div_pos (v - limit) limit ltac:(lia) Hl).
      destruct (Z.eqb_spec hi (smax 32)); [lia |]. rewrite IH by lia. do 2 f_equal; [| lia].
      replace v with (v - limit + 1 * limit) at 2 by lia. rewrite Z.mod_add by lia. reflexivity.
    + rewrite Z.mod_small, Z.div_small by lia. do 2 f_equal. lia.
Qed.

Lemma carry_ok v limit hi : 0 <= v -> 0 < limit -> hi + v / limit <= smax 32 ->
  carry v limit hi = Some (v mod limit, hi + v / limit).
Proof.
  intros Hv Hl Hm. apply carry_loop_ok; auto. pose proof (Z.div_pos v limit Hv Hl). lia.
Qed.

(** The number of days from the epoch to day [day] (from 0) of a month. *)
Definition civil_days (year mon day : Z) : Z :=
  days_between EPOCH_YEAR year + month_sum (Z.to_nat mon) (get_days_per_month_table year) day.

Lemma month_len y mon : 0 <= mon < 12 -> 28 <= znth 0 (get_days_per_month_table y) mon <= 31.
Proof.
  intros H. unfold get_days_per_month_table.
  assert (mon = 0 \/ mon = 1 \/ mon = 2 \/ mon = 3 \/ mon = 4 \/ mon = 5 \/ mon = 6 \/ mon = 7 \/
          mon = 8 \/ mon = 9 \/ mon = 10 \/ mon = 11) as D by lia.
  destruct (is_leap y); destruct_or! D; subst; vm_compute; split; discriminate.
Qed.

Lemma month_sum_step n : forall table a, (n < length table)%nat ->
  month_sum (S n) table a = month_sum n table a + nth n table 0.
Proof.
  induction n as [| n IH]; intros [| d table] a H; simpl in H; try lia; [reflexivity |].
  cbn [month_sum nth]. rewrite <- IH by lia. reflexivity.
Qed.

Lemma civil_days_day y m d : civil_days y m d = civil_days y m 0 + d.
Proof. unfold civil_days. rewrite month_sum_acc. lia. Qed.

Lemma days_between_last n y : year_sum (S n) y 0 = year_sum n y 0 + days_per_year (y + Z.of_nat n).
Proof.
  revert y. induction n as [| n IH]; intros y.
  - simpl. rewrite Z.add_0_r. lia.
  - cbn [year_sum] in *. rewrite (year_sum_acc n), (year_sum_acc n _ (0 + days_per_year y)).
    specialize (IH (y + 1)). rewrite (year_sum_acc n) in IH.
    replace (y + 1 + Z.of_nat n) with (y + Z.of_nat (S n)) in IH by lia. lia.
Qed.

Lemma civil_days_next_month y m : 0 <= m < 11 ->
  civil_days y (m + 1) 0 = civil_days y m 0 + znth 0 (get_days_per_month_table y) m.
Proof.
  intros H. unfold civil_days, znth. destruct (Z.ltb_spec m 0); [lia |].
  replace (Z.to_nat (m + 1)) with (S (Z.to_nat m)) by lia.
  rewrite month_sum_step by (rewrite (proj1 (month_table_ok y)); lia). lia.
Qed.

Lemma civil_days_next_year y : EPOCH_YEAR <= y ->
  civil_days (y + 1) 0 0 = civil_days y 11 0 + znth 0 (get_days_per_month_table y) 11.
Proof.
  intros H. unfold civil_days, znth, days_between.
  replace (Z.to_nat (y + 1 - EPOCH_YEAR)) with (S (Z.to_nat (y - EPOCH_YEAR))) by lia.
  rewrite days_between_last. replace (EPOCH_YEAR + Z.of_nat (Z.to_nat (y - EPOCH_YEAR))) with y by lia.
  change (month_sum (Z.to_nat 0) (get_days_per_month_table (y + 1)) 0) with 0.
  change (11 <? 0) with false. cbv iota.
  destruct (month_table_ok y) as [L <-].
  change 12%nat with (S (Z.to_nat 11)). rewrite month_sum_step by (rewrite L; simpl; lia). lia.
Qed.

Lemma day_loop_ok fuel : forall day mon year,
  EPOCH_YEAR <= year -> 0 <= mon < 12 -> 0 <= day -> day / 28 < Z.of_nat fuel ->
  exists d m y, day_loop fuel day mon year = Some (d, m, y) /\
    EPOCH_YEAR <= y /\ 0 <= m < 12 /\ 0 <= d < znth 0 (get_days_per_month_table y) m /\
    civil_days y m d = civil_days year mon day.
Proof.
  induction fuel as [| f IH]; intros day mon year Hy Hm Hd Hf.
  - pose proof (Z.div_pos day 28 Hd ltac:(lia)). lia.
  - cbn [day_loop]. pose proof (month_len year mon Hm).
    set (n := znth 0 (get_days_per_month_table year) mon) in *.
    destruct (Z.ltb_spec day n).
    + exists day, mon, year. fold n. repeat split; auto; lia.
    + assert (Hf' : (day - n) / 28 < Z.of_nat f).
      { assert ((day - n) / 28 <= (day - 28) / 28) by (apply Z.div_le_mono; lia).
        replace (day - 28) with (day + (-1) * 28) in * by lia. rewrite Z.div_add in * by lia. lia. }
      assert (CD : civil_days year mon day = civil_days year mon 0 + n + (day - n))
        by (rewrite civil_days_day; lia).
      destruct (Z.eqb_spec (mon + 1) 12).
      * destruct (IH (day - n) 0 (year + 1)) as (d & m & y & E & H1 & H2 & H3 & H4); try lia.
        exists d, m, y. repeat (split; [assumption || lia |]). rewrite H4, civil_days_day, CD.
        rewrite civil_days_next_year by lia. assert (mon = 11) as -> by lia. fold n. lia.
      * destruct (IH (day - n) (mon + 1) year) as (d & m & y & E & H1 & H2 & H3 & H4); try lia.
        exists d, m, y. repeat (split; [assumption || lia |]). rewrite H4, civil_days_day, CD.
        rewrite civil_days_next_month by lia. fold n. lia.
Qed.

Lemma day_loop_small fuel day mon year :
  day < znth 0 (get_days_per_month_table year) mon ->
  day_loop (S fuel) day mon year = Some (day, mon, year).
Proof. intros H. cbn [day_loop]. apply Z.ltb_lt in H. rewrite H. reflexivity. Qed.

Lemma build_ok sec min hour day mon year :
  build sec min hour day mon year =
    (civil_days year mon day,
     month_sum (Z.to_nat mon) (get_days_per_month_table year) day,
     86400 * civil_days year mon day + 3600 * hour + 60 * min + sec).
Proof.
  unfold build. cbv zeta. rewrite (year_sum_acc _ _ (month_sum _ _ _)).
  unfold civil_days, days_between. f_equal; [f_equal |]; lia.
Qed.

(** ** Theorems *)

Lemma div_mod_day t : 0 <= t ->
  t = 86400 * (t / 86400) + 3600 * (t / 60 / 60 mod 24) + 60 * (t / 60 mod 60) + t mod 60.
Proof. intros H. Z.to_euclidean_division_equations; lia. Qed.

Lemma znth_nth (l : list Z) k : znth 0 l (Z.of_nat k) = nth k l 0.
Proof. unfold znth. destruct (Z.ltb_spec (Z.of_nat k) 0); [lia | rewrite Nat2Z.id; reflexivity]. Qed.

(** A broken-down time whose fields are in their ranges, and whose day of the
    week and of the year follow from the date. *)
Definition normal_tm (t : tm) : Prop :=
  0 <= tm_sec t < 60 /\ 0 <= tm_min t < 60 /\ 0 <= tm_hour t < 24 /\ 0 <= tm_mon t < 12 /\
  70 <= tm_year t /\
  1 <= tm_mday t <= znth 0 (get_days_per_month_table (tm_year t + 1900)) (tm_mon t) /\
  tm_wday t = (civil_days (tm_year t + 1900) (tm_mon t) (tm_mday t - 1) + 4) mod 7 /\
  tm_yday t = month_sum (Z.to_nat (tm_mon t)) (get_days_per_month_table (tm_year t + 1900))
                (tm_mday t - 1).

(** The seconds since the epoch of a date and time of day. *)
Definition utc_seconds (t : tm) : Z :=
  86400 * civil_days (tm_year t + 1900) (tm_mon t) (tm_mday t - 1)
  + 3600 * tm_hour t + 60 * tm_min t + tm_sec t.

Lemma break_down_ok local isdst off zn : 0 <= local ->
  exists t, break_down local isdst off zn = Some t /\ normal_tm t /\ utc_seconds t = local /\
    tm_isdst t = isdst /\ tm_gmtoff t = off /\ tm_zone t = zn.
Proof.
  intros H. unfold break_down. rewrite !(Z.quot_div_nonneg local) by lia.
  change (60 * 60 * 24) with 86400. set (days := local / 86400).
  assert (Hd : 0 <= days) by (apply Z.div_pos; lia).
  destruct (year_loop_ok (year_fuel days) days EPOCH_YEAR Hd (year_fuel_ok days Hd))
    as (r & y & E & Hy & Hr & D). rewrite E. simpl.
  destruct (month_table_ok y) as [L S]. rewrite <- S, <- L in Hr.
  destruct (month_loop_ok (get_days_per_month_table y) r 0 Hr) as (md & k & E2 & Hk & Hmd & D2).
  rewrite E2. simpl. rewrite Z.add_0_l. eexists. split; [reflexivity |].
  assert (CD : civil_days y (Z.of_nat k) md = days).
  { rewrite civil_days_day. unfold civil_days. rewrite Nat2Z.id. lia. }
  assert (Hq : 0 <= local / 60) by (apply Z.div_pos; lia).
  rewrite !(Z.rem_mod_nonneg local), !(Z.quot_div_nonneg (local / 60)), !(Z.rem_mod_nonneg (local / 60)),
    !(Z.rem_mod_nonneg (local / 60 / 60)) by (try apply Z.div_pos; lia).
  unfold normal_tm, utc_seconds. simpl. replace (y - 1900 + 1900) with y by lia.
  replace (md + 1 - 1) with md by lia. rewrite CD, znth_nth, L in *.
  unfold EPOCH_YEAR in Hy.
  repeat split; try (apply Z.mod_pos_bound; lia); try lia.
  - apply day_of_week_mod.
  - rewrite Nat2Z.id, month_sum_acc. lia.
  - unfold days. pose proof (div_mod_day local H). lia.
Qed.

(** [timegm] on a normal structure: nothing is carried. *)
Lemma timegm_normal t : normal_tm t ->
  timegm t = Some (utc_seconds t,
    mk_tm (tm_sec t) (tm_min t) (tm_hour t) (tm_mday t) (tm_mon t) (tm_year t)
      (tm_wday t) (tm_yday t) 0 0 UTC).
Proof.
  intros (H1 & H2 & H3 & H4 & H5 & H6 & H7 & H8). unfold timegm, normalise.
  rewrite carry_small by lia. obind. rewrite carry_small by lia. obind.
  rewrite carry_small by lia. obind. rewrite carry_small by lia. obind.
  unfold day_fuel. rewrite day_loop_small by lia. obind. rewrite build_ok.
  unfold utc_seconds. rewrite day_of_week_mod, <- H7, <- H8.
  do 3 f_equal; lia.
Qed.

(** C7: converting back and forth is the identity: for every time from the epoch
    to the year 3000, [gmtime_r] succeeds with every field in its range, and
    [timegm] maps the structure back to the same time and leaves it as it is. *)
Theorem gmtime_timegm_roundtrip (t : Z) :
  0 <= t < TIME_LIMIT ->
  exists d, gmtime_r t = Some d /\ normal_tm d /\ timegm d = Some (t, d).
Proof.
  intros H. unfold gmtime_r, TIME_LIMIT in *.
  destruct (Z.ltb_spec t (Z.opp 32500915200)); [lia |].
  destruct (Z.leb_spec 32500915200 t); [lia |]. simpl.
  destruct (break_down_ok t 0 0 UTC ltac:(lia)) as (d & E & N & U & I & O & Zn).
  exists d. split; [exact E | split; [exact N |]].
  rewrite (timegm_normal d N), U. destruct d; simpl in *. subst. reflexivity.
Qed.

Lemma gmtime_timegm_roundtrip_witness :
  exists d, gmtime_r 1700000000 = Some d /\ normal_tm d /\ timegm d = Some (1700000000, d).
Proof. apply (gmtime_timegm_roundtrip 1700000000). unfold TIME_LIMIT. lia. Defined.

(** [timegm] normalises: fields above their range are carried, and the result
    is the time of the first day of the carried month plus the given days,
    hours, minutes and seconds, as long as no carry exceeds [INT_MAX]. *)
Theorem timegm_linear (t : tm) :
  0 <= tm_sec t -> 0 <= tm_min t -> 0 <= tm_hour t -> 1 <= tm_mday t -> 0 <= tm_mon t ->
  70 <= tm_year t ->
  tm_min t + tm_sec t / 60 <= smax 32 ->
  tm_hour t + (tm_min t + tm_sec t / 60) / 60 <= smax 32 ->
  tm_mday t - 1 + (tm_hour t + (tm_min t + tm_sec t / 60) / 60) / 24 <= smax 32 ->
  tm_year t + 1900 + tm_mon t / 12 <= smax 32 ->
  exists d, timegm t =
    Some (86400 * civil_days (tm_year t + 1900 + tm_mon t / 12) (tm_mon t mod 12) (tm_mday t - 1)
          + 3600 * tm_hour t + 60 * tm_min t + tm_sec t, d).
Proof.
  intros Hs Hmi Hh Hd Hmo Hy C1 C2 C3 C4. unfold timegm, normalise.
  pose proof (Z.div_pos (tm_sec t) 60 Hs ltac:(lia)).
  pose proof (Z.div_pos (tm_min t + tm_sec t / 60) 60 ltac:(lia) ltac:(lia)).
  pose proof (Z.div_pos (tm_hour t + (tm_min t + tm_sec t / 60) / 60) 24 ltac:(lia) ltac:(lia)).
  pose proof (Z.div_pos (tm_mon t) 12 ltac:(lia) ltac:(lia)).
  rewrite carry_ok by lia. obind. rewrite carry_ok by lia. obind.
  rewrite carry_ok by lia. obind. rewrite carry_ok by lia. obind.
  set (day := tm_mday t - 1 + (tm_hour t + (tm_min t + tm_sec t / 60) / 60) / 24).
  set (year := tm_year t + 1900 + tm_mon t / 12).
  pose proof (Z.mod_pos_bound (tm_mon t) 12 ltac:(lia)).
  destruct (day_loop_ok (day_fuel day) day (tm_mon t mod 12) year) as (d & m & y & E & _ & _ & _ & CD).
  - unfold EPOCH_YEAR, year. lia.
  - lia.
  - unfold day. lia.
  - unfold day_fuel. pose proof (Z.div_pos day 28 ltac:(unfold day; lia) ltac:(lia)). lia.
  - rewrite E. obind. rewrite build_ok, CD. eexists. do 2 f_equal.
    rewrite (civil_days_day year (tm_mon t mod 12) day),
            (civil_days_day year (tm_mon t mod 12) (tm_mday t - 1)).
    unfold day. Z.to_euclidean_division_equations. lia.
Qed.

Lemma timegm_linear_witness :
  exists d, timegm (mk_tm 75 59 23 31 11 120 0 0 0 0 []) =
    Some (86400 * civil_days (120 + 1900 + 11 / 12) (11 mod 12) (31 - 1)
          + 3600 * 23 + 60 * 59 + 75, d).
Proof.
  apply (timegm_linear (mk_tm 75 59 23 31 11 120 0 0 0 0 [])); vm_compute; discriminate.
Defined.

(** The year loops count the Gregorian calendar: the days from the epoch to
    the start of a year are 365 per year plus the leap days of the 4/100/400
    rule, and the day of the week cycles from Thursday, 1 January 1970. *)
Theorem epoch_days_gregorian (y d : Z) :
  EPOCH_YEAR <= y ->
  days_between EPOCH_YEAR y = 365 * (y - 1970) + (leap_days (y - 1) - leap_days 1969) /\
  day_of_week d = (d + 4) mod 7.
Proof.
  intros H. split; [| apply day_of_week_mod]. unfold days_between, EPOCH_YEAR in *.
  rewrite days_between_closed by lia. rewrite Z2Nat.id by lia.
  replace (1970 + (y - 1970) - 1) with (y - 1) by lia. change (1970 - 1) with 1969. lia.
Qed.

Lemma epoch_days_gregorian_witness :
  days_between EPOCH_YEAR 2000 = 365 * (2000 - 1970) + (leap_days (2000 - 1) - leap_days 1969) /\
  day_of_week 10957 = (10957 + 4) mod 7.
Proof. apply (epoch_days_gregorian 2000 10957). unfold EPOCH_YEAR. lia. Defined.

(** Times before the epoch are accepted by [gmtime_r] but come out with fields
    outside of their ranges: one second before the epoch has second -1. *)
Theorem gmtime_negative_out_of_range :
  exists d, gmtime_r (-1) = Some d /\ tm_sec d = -1 /\ tm_year d = 70 /\ tm_mday d = 1.
Proof. eexists. split; [reflexivity | auto]. Qed.

(** [timegm] does not count the days of a year before the epoch: 1969 and 1970
    give the same time. *)
Theorem timegm_before_epoch :
  fst <$> timegm (mk_tm 0 0 0 1 0 69 0 0 0 0 []) = fst <$> timegm (mk_tm 0 0 0 1 0 70 0 0 0 0 []).
Proof. reflexivity. Qed.

(** A byte order conversion, for evaluating the zone lookup. *)
Definition bswap32 (z : Z) : Z :=
  2 ^ 24 * (z mod 256) + 2 ^ 16 * (z / 2 ^ 8 mod 256) + 2 ^ 8 * (z / 2 ^ 16 mod 256)
  + z / 2 ^ 24 mod 256.

(** Two transitions, at 100 and 200, into types 1 and 0, with offsets 0 and 3600. *)
Definition tz_two : TzFile := {|
  tzh_timecnt := 2; tzh_typecnt := 2;
  tz_body := [0; 0; 0; 100; 0; 0; 0; 200; 0; 1] ++ [0; 0; 0; 0; 0; 0] ++ [0; 0; 14; 16; 1; 4]
             ++ [85; 84; 67; 0; 68; 83; 84; 0] |}.

(** After its last transition the lookup falls back to the first type: at time
    300 the second transition (to type 1, offset 3600) is in force, but the
    offset found is that of type 0. *)
Theorem tz_last_transition_ignored :
  gmt_offset <$> get_tz_data bswap32 tz_two 300 = Some 0.
Proof. by_vm. Qed.
