(* ===== verification/Utf8.v ===== *)
(** * Multibyte characters

    The UTF-8 conversions: [wcrtomb], [wcsrtombs], [mbrlen], [wctob], [btowc]
    ([src/src/ansi/wchar.cpp]), [mbrtoc32] ([src/src/ansi/uchar.cpp]),
    [mbsnrtowcs] ([src/src/internal/string.cpp]), [mblen], [mbtowc], [wctomb]
    and [wcstombs] ([src/src/ansi/stdlib.cpp]).  A multibyte string is its bytes
    from the pointer on (0 past the end), a wide string its 32-bit characters;
    an output buffer is the list of what is stored in it. *)

From S2P Require Import Prelude.

#[local] Open Scope Z_scope.

(** ** Encoding *)

(** The bytes stored for [wc]; [None] is the [EILSEQ] return.  [wchar_t] is a
    signed 32-bit type. *)
Definition wcrtomb (wc : Z) : option (list Z) :=
  if wc <=? 0x7F then Some [u8 wc]
  else if wc <=? 0x7FF then
    Some [u8 (Z.lor 0xC0 (Z.shiftr wc 6)); u8 (Z.lor 0x80 (Z.land wc 0x3F))]
  else if wc <=? 0xFFFF then
    Some [u8 (Z.lor 0xE0 (Z.shiftr wc 12)); u8 (Z.lor 0x80 (Z.land (Z.shiftr wc 6) 0x3F));
          u8 (Z.lor 0x80 (Z.land wc 0x3F))]
  else if wc <=? 0x10FFFF then
    Some [u8 (Z.lor 0xF0 (Z.shiftr wc 18)); u8 (Z.lor 0x80 (Z.land (Z.shiftr wc 12) 0x3F));
          u8 (Z.lor 0x80 (Z.land (Z.shiftr wc 6) 0x3F)); u8 (Z.lor 0x80 (Z.land wc 0x3F))]
  else None.

Definition wctomb (wc : Z) : Z :=
  match wcrtomb wc with Some bs => zlen bs | None => -1 end.

Definition wctob (ch : Z) : Z := if ch <=? 0x7F then ch else -1.
Definition WEOF : Z := 2 ^ 32 - 1.
Definition btowc (ch : Z) : Z := if ch <? 0 then WEOF else u32 ch.

(** The returned size (or the error), the bytes stored, and where [src] is left
    ([None] is the null pointer of a complete conversion). *)
Inductive wcs_result :=
| WcsOk (size : Z) (out : list Z) (rest : option (list Z))
| WcsErr (out : list Z) (rest : option (list Z)).

Definition wcs_push (bs : list Z) (r : wcs_result) : wcs_result :=
  match r with
  | WcsOk size out rest => WcsOk size (bs ++ out) rest
  | WcsErr out rest => WcsErr (bs ++ out) rest
  end.

(** The loop of [wcsrtombs] and [wcstombs]: [size] bytes are counted and [len]
    are left; the terminator of the wide string is the end of the list, and nothing
    is stored without a destination. *)
Fixpoint wcs_loop (has_dest : bool) (src : list Z) (len size : Z) : wcs_result :=
  match src with
  | [] =>
      if len <? 1 then WcsOk size [] (Some [])
      else WcsOk (size + 1 - 1) (if has_dest then [0] else []) None
  | w :: src' =>
      match wcrtomb w with
      | None => WcsErr [] (Some src)
      | Some bs => if len <? zlen bs then WcsOk size [] (Some src)
                   else wcs_push (if has_dest then bs else []) (wcs_loop has_dest src' (len - zlen bs) (size + zlen bs))
      end
  end.

Definition SIZE_MAX : Z := umax 64.

Definition wcsrtombs (has_dest : bool) (src : list Z) (len : Z) : wcs_result :=
  wcs_loop has_dest src (if has_dest then len else SIZE_MAX) 0.

Definition wcstombs (has_dest : bool) (src : list Z) (len : Z) : wcs_result :=
  wcs_loop has_dest src (if has_dest then len else SIZE_MAX) 0.

(** ** Decoding *)

Inductive mb_result :=
| MbErr
| MbPartial
| MbNull
| MbChar (size c : Z).

(** [(b & 0b11000000) == 0b10000000]. *)
Definition is_cont (b : Z) : bool := Z.land b 0xC0 =? 0x80.

(** The return value -1 (with [EILSEQ]) is [MbErr], -2 is [MbPartial]; [MbNull]
    is the 0 of a null [str]. *)
Definition mbrtoc32 (str : option (list Z)) (n : Z) : mb_result :=
  match str with
  | None => MbNull
  | Some s =>
      let byte i := nth i s 0 in
      if n =? 0 then MbPartial
      else
        let first := byte 0%nat in
        if Z.land first (Z.shiftl 1 7) =? 0 then
          MbChar (if first =? 0 then 0 else 1) first
        else if Z.land first 0xE0 =? 0xC0 then
          if n =? 1 then MbPartial
          else if negb (is_cont (byte 1%nat)) then MbErr
          else MbChar 2 (Z.lor (Z.land (byte 1%nat) 0x3F) (Z.shiftl (Z.land first 0x1F) 6))
        else if Z.land first 0xF0 =? 0xE0 then
          if n =? 1 then MbPartial
          else if negb (is_cont (byte 1%nat)) then MbErr
          else if n =? 2 then MbPartial
          else if negb (is_cont (byte 2%nat)) then MbErr
          else MbChar 3 (Z.lor (Z.lor (Z.land (byte 2%nat) 0x3F)
                                      (Z.shiftl (Z.land (byte 1%nat) 0x3F) 6))
                               (Z.shiftl (Z.land first 0xF) 12))
        else if Z.land first 0xF8 =? 0xF0 then
          if n =? 1 then MbPartial
          else if negb (is_cont (byte 1%nat)) then MbErr
          else if n =? 2 then MbPartial
          else if negb (is_cont (byte 2%nat)) then MbErr
          else if n =? 3 then MbPartial
          else if negb (is_cont (byte 3%nat)) then MbErr
          else MbChar 4 (Z.lor (Z.lor (Z.lor (Z.land (byte 3%nat) 0x3F)
                                             (Z.shiftl (Z.land (byte 2%nat) 0x3F) 6))
                                      (Z.shiftl (Z.land (byte 1%nat) 0x3F) 12))
                               (Z.shiftl (Z.land first 0x7) 18))
        else MbErr
  end.

Definition mbrtowc : option (list Z) -> Z -> mb_result := mbrtoc32.

Definition mblen (str : option (list Z)) (len : Z) : Z :=
  match str with
  | None => 0
  | Some s => match mbrtowc str len with
              | MbErr | MbPartial => -1
              | MbNull => 0
              | MbChar n _ => if nth 0%nat s 0 =? 0 then 0 else n
              end
  end.

(** As [mblen]; the error value is converted to [size_t]. *)
Definition mbrlen (str : option (list Z)) (len : Z) : Z :=
  match str with
  | None => 0
  | Some s => match mbrtowc str len with
              | MbErr | MbPartial => u64 (-1)
              | MbNull => 0
              | MbChar n _ => if nth 0%nat s 0 =? 0 then 0 else n
              end
  end.

Definition mbtowc (str : option (list Z)) (len : Z) : Z :=
  match mbrtowc str len with
  | MbErr | MbPartial => -1
  | MbNull => 0
  | MbChar n _ => n
  end.

(** The characters converted, and where [src] is left ([None]: null). *)
Inductive mbs_result :=
| MbsOk (written : Z) (out : list Z) (src : option (list Z))
| MbsErr (out : list Z)
| MbsFuel.

Definition mbs_push (cs : list Z) (r : mbs_result) : mbs_result :=
  match r with
  | MbsOk w out src => MbsOk w (cs ++ out) src
  | MbsErr out => MbsErr (cs ++ out)
  | MbsFuel => MbsFuel
  end.

(** [internal::mbsnrtowcs]: [i] source bytes are consumed and [written]
    characters are counted; nothing is stored, and the length is not looked at,
    without a destination.  Each iteration consumes a byte. *)
Fixpoint mbsnrtowcs_loop (fuel : nat) (has_dest : bool) (src : list Z)
    (num_chars len i written : Z) : mbs_result :=
  match fuel with
  | O => MbsFuel
  | S f =>
      if i <? num_chars then
        match mbrtowc (Some src) (num_chars - i) with
        | MbErr => MbsErr []
        | MbPartial => MbsOk written [] (Some src)
        | MbNull => MbsOk written [] (Some src)
        | MbChar used c =>
            let stored := if has_dest then [c] else [] in
            if has_dest && (len <? written + 1) then MbsOk written [] (Some src)
            else if c =? 0 then MbsOk written stored None
            else mbs_push stored
                   (mbsnrtowcs_loop f has_dest (drop (Z.to_nat used) src) num_chars len
                      (i + used) (written + 1))
        end
      else MbsOk written [] (Some src)
  end.

Definition mbsnrtowcs (fuel : nat) (has_dest : bool) (src : list Z) (num_chars len : Z)
  : mbs_result := mbsnrtowcs_loop fuel has_dest src num_chars len 0 0.

Definition mbsrtowcs (fuel : nat) (has_dest : bool) (src : list Z) (len : Z) : mbs_result :=
  mbsnrtowcs fuel has_dest src SIZE_MAX len.

Definition mbstowcs : nat -> bool -> list Z -> Z -> mbs_result := mbsrtowcs.

(** ** Bit fields *)

(** A continuation byte carries its six bits. *)
Definition cont_test (x : Z) : bool :=
  (u8 (Z.lor 0x80 x) =? 128 + x) && is_cont (128 + x) && (Z.land (128 + x) 0x3F =? x).

Lemma cont_ok x : 0 <= x < 64 ->
  u8 (Z.lor 0x80 x) = 128 + x /\ is_cont (128 + x) = true /\ Z.land (128 + x) 0x3F = x.
Proof.
  intros H. assert (C : check_range 0 64 cont_test = true) by by_vm.
  pose proof (range_check _ _ _ C x ltac:(lia)) as T. unfold cont_test in T.
  rewrite !andb_true_iff, !Z.eqb_eq in T. tauto.
Qed.

(** A lead byte [lead | x] selects its branch of [mbrtoc32] and carries [x]. *)
Definition lead_test (lead mask field x : Z) : bool :=
  (u8 (Z.lor lead x) =? lead + x) && negb (Z.land (lead + x) (Z.shiftl 1 7) =? 0) &&
  (Z.land (lead + x) mask =? lead) && (Z.land (lead + x) field =? x).

Lemma lead_ok lead mask field n :
  check_range 0 n (lead_test lead mask field) = true -> forall x, 0 <= x < n ->
  u8 (Z.lor lead x) = lead + x /\ (Z.land (lead + x) (Z.shiftl 1 7) =? 0) = false /\
  Z.land (lead + x) mask = lead /\ Z.land (lead + x) field = x.
Proof.
  intros C x Hx. pose proof (range_check _ _ _ C x ltac:(lia)) as T. unfold lead_test in T.
  rewrite !andb_true_iff, !Z.eqb_eq, negb_true_iff in T. tauto.
Qed.

(** The lead bytes of the longer sequences fail the earlier tests. *)
Lemma lead3_not2 x : 0 <= x < 16 -> (Z.land (224 + x) 0xE0 =? 0xC0) = false.
Proof.
  intros H. apply negb_true_iff.
  apply (range_check 0 16 (fun x => negb (Z.land (224 + x) 0xE0 =? 0xC0))); [by_vm | lia].
Qed.

Lemma lead4_not23 x : 0 <= x < 8 ->
  (Z.land (240 + x) 0xE0 =? 0xC0) = false /\ (Z.land (240 + x) 0xF0 =? 0xE0) = false.
Proof.
  intros H.
  pose proof (range_check 0 8 (fun x => negb (Z.land (240 + x) 0xE0 =? 0xC0) &&
                                        negb (Z.land (240 + x) 0xF0 =? 0xE0))) as R.
  rewrite <- !negb_true_iff. apply andb_true_iff. apply R; [by_vm | lia].
Qed.

Lemma shiftr_div z k : 0 <= k -> Z.shiftr z k = z / 2 ^ k.
Proof. apply Z.shiftr_div_pow2. Qed.

Lemma land_3F z : Z.land z 0x3F = z mod 64.
Proof. change 0x3F with (Z.ones 6). apply Z.land_ones. lia. Qed.

(** The encoding as arithmetic. *)
Lemma wcrtomb_2 wc : 0x80 <= wc <= 0x7FF -> wcrtomb wc = Some [192 + wc / 64; 128 + wc mod 64].
Proof.
  intros H. unfold wcrtomb. destruct (Z.leb_spec wc 0x7F); [lia |].
  destruct (Z.leb_spec wc 0x7FF); [| lia].
  rewrite shiftr_div, land_3F by lia. change (2 ^ 6) with 64.
  assert (0 <= wc / 64 < 32) by (split; [apply Z.div_pos | apply Z.div_lt_upper_bound]; lia).
  pose proof (Z.mod_pos_bound wc 64 ltac:(lia)).
  rewrite (proj1 (cont_ok _ ltac:(eassumption))).
  rewrite (proj1 (lead_ok 0xC0 0xE0 0x1F 32 ltac:(by_vm) _ ltac:(eassumption))). reflexivity.
Qed.

Lemma wcrtomb_3 wc : 0x800 <= wc <= 0xFFFF ->
  wcrtomb wc = Some [224 + wc / 4096; 128 + wc / 64 mod 64; 128 + wc mod 64].
Proof.
  intros H. unfold wcrtomb. destruct (Z.leb_spec wc 0x7F); [lia |].
  destruct (Z.leb_spec wc 0x7FF); [lia |]. destruct (Z.leb_spec wc 0xFFFF); [| lia].
  rewrite !shiftr_div, !land_3F by lia. change (2 ^ 6) with 64. change (2 ^ 12) with 4096.
  assert (0 <= wc / 4096 < 16) by (split; [apply Z.div_pos | apply Z.div_lt_upper_bound]; lia).
  rewrite !(fun x => proj1 (cont_ok (x mod 64) (Z.mod_pos_bound x 64 ltac:(lia)))).
  rewrite (proj1 (lead_ok 0xE0 0xF0 0xF 16 ltac:(by_vm) _ ltac:(eassumption))). reflexivity.
Qed.

Lemma wcrtomb_4 wc : 0x10000 <= wc <= 0x10FFFF ->
  wcrtomb wc = Some [240 + wc / 262144; 128 + wc / 4096 mod 64; 128 + wc / 64 mod 64;
                     128 + wc mod 64].
Proof.
  intros H. unfold wcrtomb. destruct (Z.leb_spec wc 0x7F); [lia |].
  destruct (Z.leb_spec wc 0x7FF); [lia |]. destruct (Z.leb_spec wc 0xFFFF); [lia |].
  destruct (Z.leb_spec wc 0x10FFFF); [| lia].
  rewrite !shiftr_div, !land_3F by lia. change (2 ^ 6) with 64. change (2 ^ 12) with 4096.
  change (2 ^ 18) with 262144.
  assert (0 <= wc / 262144 < 8) by (split; [apply Z.div_pos | apply Z.div_lt_upper_bound]; lia).
  rewrite !(fun x => proj1 (cont_ok (x mod 64) (Z.mod_pos_bound x 64 ltac:(lia)))).
  rewrite (proj1 (lead_ok 0xF0 0xF8 0x7 8 ltac:(by_vm) _ ltac:(eassumption))). reflexivity.
Qed.

(** ** Decoding an encoded character *)

Lemma decode_1 wc rest n : 1 <= wc <= 0x7F -> 0 < n ->
  mbrtoc32 (Some ([wc] ++ rest)) n = MbChar 1 wc.
Proof.
  intros H Hn. unfold mbrtoc32. simpl nth. destruct (Z.eqb_spec n 0); [lia |].
  assert (L : (Z.land wc (Z.shiftl 1 7) =? 0) = true).
  { apply (range_check 0 128 (fun w => Z.land w (Z.shiftl 1 7) =? 0)); [by_vm | lia]. }
  rewrite L. destruct (Z.eqb_spec wc 0); [lia | reflexivity].
Qed.

Lemma decode_2 a x1 rest n : 0 <= a < 32 -> 0 <= x1 < 64 -> 2 <= n ->
  mbrtoc32 (Some ([192 + a; 128 + x1] ++ rest)) n = MbChar 2 (x1 + a * 64).
Proof.
  intros Ha H1 Hn. unfold mbrtoc32. cbn [nth app].
  destruct (lead_ok 0xC0 0xE0 0x1F 32 ltac:(by_vm) a Ha) as (_ & L1 & L2 & L3).
  destruct (cont_ok x1 H1) as (_ & C1 & C2).
  rewrite L1, L2, L3, C1, C2. change (192 =? 0xC0) with true.
  destruct (Z.eqb_spec n 0); [lia |]. destruct (Z.eqb_spec n 1); [lia |]. simpl.
  rewrite lor_fields by lia. reflexivity.
Qed.

Lemma decode_3 a x1 x2 rest n : 0 <= a < 16 -> 0 <= x1 < 64 -> 0 <= x2 < 64 -> 3 <= n ->
  mbrtoc32 (Some ([224 + a; 128 + x1; 128 + x2] ++ rest)) n = MbChar 3 (x2 + x1 * 64 + a * 4096).
Proof.
  intros Ha H1 H2 Hn. unfold mbrtoc32. cbn [nth app].
  destruct (lead_ok 0xE0 0xF0 0xF 16 ltac:(by_vm) a Ha) as (_ & L1 & L2 & L3).
  destruct (cont_ok x1 H1) as (_ & C1 & C2). destruct (cont_ok x2 H2) as (_ & D1 & D2).
  rewrite L1, L2, L3, (lead3_not2 a Ha), C1, C2, D1, D2. change (224 =? 0xE0) with true.
  destruct (Z.eqb_spec n 0); [lia |]. destruct (Z.eqb_spec n 1); [lia |].
  destruct (Z.eqb_spec n 2); [lia |]. simpl.
  rewrite (lor_fields x2 x1 6) by lia. change (2 ^ 6) with 64.
  rewrite lor_fields by (change (2 ^ 12) with 4096; lia). reflexivity.
Qed.

Lemma decode_4 a x1 x2 x3 rest n :
  0 <= a < 8 -> 0 <= x1 < 64 -> 0 <= x2 < 64 -> 0 <= x3 < 64 -> 4 <= n ->
  mbrtoc32 (Some ([240 + a; 128 + x1; 128 + x2; 128 + x3] ++ rest)) n =
    MbChar 4 (x3 + x2 * 64 + x1 * 4096 + a * 262144).
Proof.
  intros Ha H1 H2 H3 Hn. unfold mbrtoc32. cbn [nth app].
  destruct (lead_ok 0xF0 0xF8 0x7 8 ltac:(by_vm) a Ha) as (_ & L1 & L2 & L3).
  destruct (lead4_not23 a Ha) as [N1 N2].
  destruct (cont_ok x1 H1) as (_ & C1 & C2). destruct (cont_ok x2 H2) as (_ & D1 & D2).
  destruct (cont_ok x3 H3) as (_ & E1 & E2).
  rewrite L1, L2, L3, N1, N2, C1, C2, D1, D2, E1, E2. change (240 =? 0xF0) with true.
  destruct (Z.eqb_spec n 0); [lia |]. destruct (Z.eqb_spec n 1); [lia |].
  destruct (Z.eqb_spec n 2); [lia |]. destruct (Z.eqb_spec n 3); [lia |]. simpl.
  rewrite (lor_fields x3 x2 6) by lia. change (2 ^ 6) with 64.
  rewrite (lor_fields _ x1 12) by (change (2 ^ 12) with 4096; lia). change (2 ^ 12) with 4096.
  rewrite lor_fields by (change (2 ^ 18) with 262144; lia). reflexivity.
Qed.

(** ** Round trips *)

Definition valid_wc (wc : Z) : Prop := 1 <= wc <= 0x10FFFF.

(** The cases of the encoding, with the fields the decoder reads. *)
Lemma wcrtomb_cases wc : valid_wc wc ->
  (wc <= 0x7F /\ wcrtomb wc = Some [wc]) \/
  (exists a x1, 0 <= a < 32 /\ 0 <= x1 < 64 /\ wc = x1 + a * 64 /\
    wcrtomb wc = Some [192 + a; 128 + x1]) \/
  (exists a x1 x2, 0 <= a < 16 /\ 0 <= x1 < 64 /\ 0 <= x2 < 64 /\
    wc = x2 + x1 * 64 + a * 4096 /\ wcrtomb wc = Some [224 + a; 128 + x1; 128 + x2]) \/
  (exists a x1 x2 x3, 0 <= a < 8 /\ 0 <= x1 < 64 /\ 0 <= x2 < 64 /\ 0 <= x3 < 64 /\
    wc = x3 + x2 * 64 + x1 * 4096 + a * 262144 /\
    wcrtomb wc = Some [240 + a; 128 + x1; 128 + x2; 128 + x3]).
Proof.
  unfold valid_wc. intros H.
  destruct (Z.le_gt_cases wc 0x7F) as [L1 | G1].
  { left. split; [exact L1 |]. unfold wcrtomb. destruct (Z.leb_spec wc 0x7F); [| lia].
    rewrite wrapu_small by (unfold is_u; lia). reflexivity. }
  destruct (Z.le_gt_cases wc 0x7FF) as [L2 | G2].
  { right; left. exists (wc / 64), (wc mod 64). rewrite wcrtomb_2 by lia.
    repeat split; Z.to_euclidean_division_equations; lia. }
  destruct (Z.le_gt_cases wc 0xFFFF) as [L3 | G3].
  { right; right; left. exists (wc / 4096), (wc / 64 mod 64), (wc mod 64).
    rewrite wcrtomb_3 by lia. repeat split; Z.to_euclidean_division_equations; lia. }
  right; right; right.
  exists (wc / 262144), (wc / 4096 mod 64), (wc / 64 mod 64), (wc mod 64).
  rewrite wcrtomb_4 by lia. repeat split; Z.to_euclidean_division_equations; lia.
Qed.

(** Every prefix of an encoding asks for more. *)
Lemma partial_2 a x1 rest n : 0 <= a < 32 -> 0 <= n < 2 ->
  mbrtoc32 (Some ([192 + a; 128 + x1] ++ rest)) n = MbPartial.
Proof.
  intros Ha Hn. unfold mbrtoc32. cbn [nth app].
  destruct (lead_ok 0xC0 0xE0 0x1F 32 ltac:(by_vm) a Ha) as (_ & L1 & L2 & _).
  rewrite L1, L2. change (192 =? 0xC0) with true.
  destruct (Z.eqb_spec n 0); [reflexivity |]. destruct (Z.eqb_spec n 1); [reflexivity | lia].
Qed.

Lemma partial_3 a x1 x2 rest n : 0 <= a < 16 -> 0 <= x1 < 64 -> 0 <= n < 3 ->
  mbrtoc32 (Some ([224 + a; 128 + x1; 128 + x2] ++ rest)) n = MbPartial.
Proof.
  intros Ha H1 Hn. unfold mbrtoc32. cbn [nth app].
  destruct (lead_ok 0xE0 0xF0 0xF 16 ltac:(by_vm) a Ha) as (_ & L1 & L2 & _).
  destruct (cont_ok x1 H1) as (_ & C1 & _).
  rewrite L1, L2, (lead3_not2 a Ha), C1. change (224 =? 0xE0) with true. simpl.
  destruct (Z.eqb_spec n 0); [reflexivity |]. destruct (Z.eqb_spec n 1); [reflexivity |].
  destruct (Z.eqb_spec n 2); [reflexivity | lia].
Qed.

Lemma partial_4 a x1 x2 x3 rest n :
  0 <= a < 8 -> 0 <= x1 < 64 -> 0 <= x2 < 64 -> 0 <= n < 4 ->
  mbrtoc32 (Some ([240 + a; 128 + x1; 128 + x2; 128 + x3] ++ rest)) n = MbPartial.
Proof.
  intros Ha H1 H2 Hn. unfold mbrtoc32. cbn [nth app].
  destruct (lead_ok 0xF0 0xF8 0x7 8 ltac:(by_vm) a Ha) as (_ & L1 & L2 & _).
  destruct (lead4_not23 a Ha) as [N1 N2].
  destruct (cont_ok x1 H1) as (_ & C1 & _). destruct (cont_ok x2 H2) as (_ & D1 & _).
  rewrite L1, L2, N1, N2, C1, D1. change (240 =? 0xF0) with true. simpl.
  destruct (Z.eqb_spec n 0); [reflexivity |]. destruct (Z.eqb_spec n 1); [reflexivity |].
  destruct (Z.eqb_spec n 2); [reflexivity |]. destruct (Z.eqb_spec n 3); [reflexivity | lia].
Qed.

(** Encoding succeeds, the bytes are nonzero octets, decoding them gives the
    character back, and decoding fewer bytes asks for more. *)
Lemma encode_decode wc rest : valid_wc wc -> exists bs, wcrtomb wc = Some bs /\
  1 <= zlen bs <= 4 /\ Forall (fun b => 1 <= b < 256) bs /\
  (forall n, zlen bs <= n -> mbrtoc32 (Some (bs ++ rest)) n = MbChar (zlen bs) wc) /\
  (forall n, 0 <= n < zlen bs -> mbrtoc32 (Some (bs ++ rest)) n = MbPartial).
Proof.
  intros V. pose proof V as V'. unfold valid_wc in V'.
  destruct (wcrtomb_cases wc V) as [[L E] | [(a & x1 & Ha & H1 & -> & E) |
    [(a & x1 & x2 & Ha & H1 & H2 & -> & E) | (a & x1 & x2 & x3 & Ha & H1 & H2 & H3 & -> & E)]]];
    eexists; (split; [exact E |]); unfold zlen; simpl length; simpl Z.of_nat;
    (split; [lia |]); (split; [repeat constructor; lia |]); split; intros n Hn.
  - apply decode_1; lia.
  - assert (n = 0) as -> by lia. reflexivity.
  - apply decode_2; lia.
  - apply partial_2; lia.
  - apply decode_3; lia.
  - apply partial_3; lia.
  - apply decode_4; lia.
  - apply partial_4; lia.
Qed.

Definition utf8_encode (ws : list Z) : list Z := flat_map (fun w => default [] (wcrtomb w)) ws.

Lemma wcs_loop_encodes has_dest ws : forall len size, Forall valid_wc ws -> zlen (utf8_encode ws) < len ->
  wcs_loop has_dest ws len size = WcsOk (size + zlen (utf8_encode ws)) (if has_dest then utf8_encode ws ++ [0] else []) None.
Proof.
  induction ws as [| w ws IH]; intros len size V Hlen.
  - simpl in *. change (zlen []) with 0 in *. destruct (Z.ltb_spec len 1); [lia |]. f_equal. lia.
  - apply Forall_cons_iff in V as [Vw V]. cbn [wcs_loop].
    destruct (encode_decode w [] Vw) as (bs & E & _).
    simpl utf8_encode in *. rewrite E in *. simpl default in *. rewrite zlen_app in *.
    pose proof (zlen_nonneg (utf8_encode ws)).
    destruct (Z.ltb_spec len (zlen bs)); [lia |].
    rewrite IH by (assumption || lia). destruct has_dest; simpl; f_equal; try lia. rewrite app_assoc. reflexivity.
Qed.

Lemma mbs_loop_decodes ws : forall fuel has_dest num len i written rest,
  Forall valid_wc ws -> (length ws < fuel)%nat ->
  i + zlen (utf8_encode ws) < num -> written + zlen ws < len ->
  mbsnrtowcs_loop fuel has_dest (utf8_encode ws ++ 0 :: rest) num len i written =
    MbsOk (written + zlen ws) (if has_dest then ws ++ [0] else []) None.
Proof.
  induction ws as [| w ws IH]; intros fuel has_dest num len i written rest V Hf Hi Hl;
    (destruct fuel as [| f]; [simpl in Hf; lia |]); cbn [mbsnrtowcs_loop].
  - change (zlen (utf8_encode [])) with 0 in *. change (zlen []) with 0 in *.
    destruct (Z.ltb_spec i num); [| lia]. unfold mbrtowc, mbrtoc32. simpl.
    destruct (Z.eqb_spec (num - i) 0); [lia |].
    destruct (Z.ltb_spec len (written + 1)); [lia |]. destruct has_dest; simpl; f_equal; lia.
  - apply Forall_cons_iff in V as [Vw V].
    destruct (encode_decode w (utf8_encode ws ++ 0 :: rest) Vw) as (bs & E & Hb & _ & D & _).
    simpl utf8_encode in *. rewrite E in *. simpl default in *.
    rewrite zlen_app, zlen_cons in *. pose proof (zlen_nonneg (utf8_encode ws)).
    pose proof (zlen_nonneg ws). destruct (Z.ltb_spec i num); [| lia].
    rewrite <- app_assoc. unfold mbrtowc. rewrite D by lia.
    destruct (Z.ltb_spec len (written + 1)); [lia |]. rewrite andb_false_r.
    unfold valid_wc in Vw. destruct (Z.eqb_spec w 0); [lia |].
    unfold zlen at 1. rewrite Nat2Z.id, drop_app_length.
    rewrite IH by (assumption || (simpl in Hf; lia)). destruct has_dest; simpl; f_equal; lia.
Qed.

(** Encoding and decoding one character are inverse.  For every character
    from 1 to 0x10FFFF, [wcrtomb] stores one to four nonzero octets; [mbrtoc32]
    reads exactly those octets back as that character whatever bytes follow
    them, and asks for more when it is given fewer. *)
Theorem wcrtomb_mbrtoc32_roundtrip wc rest (V : valid_wc wc) :
  exists bs, wcrtomb wc = Some bs /\ wctomb wc = zlen bs /\ 1 <= zlen bs <= 4 /\
    Forall (fun b => 1 <= b < 256) bs /\
    (forall n, zlen bs <= n -> mbrtoc32 (Some (bs ++ rest)) n = MbChar (zlen bs) wc) /\
    (forall n, 0 <= n < zlen bs -> mbrtoc32 (Some (bs ++ rest)) n = MbPartial).
Proof.
  destruct (encode_decode wc rest V) as (bs & E & H).
  exists bs. unfold wctomb. rewrite E. split; [reflexivity |]. split; [reflexivity | exact H].
Qed.

Lemma wcrtomb_mbrtoc32_roundtrip_witness :
  wcrtomb 0x20AC = Some [0xE2; 0x82; 0xAC] /\
  exists bs, wcrtomb 0x20AC = Some bs /\ mbrtoc32 (Some (bs ++ [65])) 4 = MbChar (zlen bs) 0x20AC.
Proof.
  split; [reflexivity |].
  destruct (wcrtomb_mbrtoc32_roundtrip 0x20AC [65] ltac:(unfold valid_wc; lia))
    as (bs & E & _ & L & _ & D & _).
  exists bs. split; [exact E |]. apply D. lia.
Defined.

(** C39: converting a wide string to multibyte and back gives the string.  When
    the destination has room for the encoding and its terminator, [wcstombs]
    stores the encoding of every character and a terminator, returns the number
    of bytes before the terminator and completes the conversion; [mbstowcs] of
    the bytes stored then gives the wide string and its terminator, and returns
    its length; without a destination it only counts. *)
Theorem wcstombs_mbstowcs_roundtrip ws len dlen rest
    (V : Forall valid_wc ws) (Hlen : zlen (utf8_encode ws) < len) (Hs : len <= SIZE_MAX)
    (Hd : zlen ws < dlen) :
  exists out, wcstombs true ws len = WcsOk (zlen out) (out ++ [0]) None /\
    mbstowcs (S (length ws)) true (out ++ [0] ++ rest) dlen = MbsOk (zlen ws) (ws ++ [0]) None /\
    mbstowcs (S (length ws)) false (out ++ [0] ++ rest) dlen = MbsOk (zlen ws) [] None.
Proof.
  exists (utf8_encode ws). split.
  - unfold wcstombs. rewrite wcs_loop_encodes by assumption. reflexivity.
  - unfold mbstowcs, mbsrtowcs, mbsnrtowcs. change ([0] ++ rest) with (0 :: rest).
    rewrite !mbs_loop_decodes by (assumption || lia). split; reflexivity.
Qed.

Lemma wcstombs_mbstowcs_roundtrip_witness :
  exists out, wcstombs true [104; 0xE9; 0x20AC; 0x1F600] 11 = WcsOk (zlen out) (out ++ [0]) None /\
    mbstowcs 5 true (out ++ [0] ++ [7]) 5 = MbsOk 4 [104; 0xE9; 0x20AC; 0x1F600; 0] None /\
    mbstowcs 5 false (out ++ [0] ++ [7]) 5 = MbsOk 4 [] None.
Proof.
  apply (wcstombs_mbstowcs_roundtrip [104; 0xE9; 0x20AC; 0x1F600] 11 5 [7]).
  - unfold valid_wc. repeat constructor; lia.
  - vm_compute. reflexivity.
  - vm_compute. discriminate.
  - vm_compute. reflexivity.
Defined.

(** The decoder accepts an overlong sequence, [mbrtoc32] of [C1 81] is the
    letter A. *)
Theorem mbrtoc32_accepts_overlong : mbrtoc32 (Some [0xC1; 0x81]) 2 = MbChar 2 0x41.
Proof. reflexivity. Qed.

(** A negative [wchar_t] is encoded as one byte, the low octet of it. *)
Theorem wcrtomb_negative_accepted wc : wc < 0 -> wcrtomb wc = Some [u8 wc].
Proof. intros H. unfold wcrtomb. destruct (Z.leb_spec wc 0x7F); [reflexivity | lia]. Qed.
