(* ===== verification/Threads.v ===== *)
(** * Threads

    The transition system the synchronisation objects of
    [src/src/internal/mutex.cpp], [src/src/internal/thread.cpp] and
    [src/src/posix/semaphore.cpp] run in.  A configuration is the object (with
    the set of threads that sleep on its futex) and the local state of every
    thread; one step is one access to the object by one thread, so an execution
    is an interleaving of accesses.  The atomics are read and written in one
    global order.

    The futex is the kernel's: waiting compares the word with the expected value
    and falls asleep in one access, or returns at once; a sleeping thread runs
    again when it has been woken, or earlier when a signal interrupts it. *)

From stdpp Require Import gmap relations.
From S2P Require Import Prelude.

#[local] Open Scope Z_scope.

(** Thread identifiers are positive and fit in 31 bits. *)
Definition valid_tid (t : Z) : Prop := 0 < t < 2 ^ 31.
#[global] Instance valid_tid_dec t : Decision (valid_tid t).
Proof. unfold valid_tid. apply _. Defined.

Definition upd {A} (f : Z -> A) (t : Z) (v : A) : Z -> A := fun u => if u =? t then v else f u.

Lemma upd_same {A} (f : Z -> A) t v : upd f t v t = v.
Proof. unfold upd. rewrite Z.eqb_refl. reflexivity. Qed.

Lemma upd_other {A} (f : Z -> A) t u v : u <> t -> upd f t v u = f u.
Proof. unfold upd. intros H. apply Z.eqb_neq in H. rewrite H. reflexivity. Qed.

Record config (S L : Type) := Config { shared : S; locals : Z -> L }.
Arguments Config {_ _}.
Arguments shared {_ _}.
Arguments locals {_ _}.

Section Machine.
Context {S L Act : Type} (tstep : Z -> Act -> S -> L -> option (S * L)).

Inductive step : config S L -> config S L -> Prop :=
| step_thread c t a s' l' :
    valid_tid t -> tstep t a (shared c) (locals c t) = Some (s', l') ->
    step c (Config s' (upd (locals c) t l')).

Definition reachable (init c : config S L) : Prop := rtc step init c.

(** The execution of a schedule. *)
Fixpoint exec (sched : list (Z * Act)) (c : config S L) : option (config S L) :=
  match sched with
  | [] => Some c
  | (t, a) :: sched' =>
      if decide (valid_tid t) then
        match tstep t a (shared c) (locals c t) with
        | Some (s', l') => exec sched' (Config s' (upd (locals c) t l'))
        | None => None
        end
      else None
  end.

Lemma exec_reachable sched : forall c c', exec sched c = Some c' -> reachable c c'.
Proof.
  induction sched as [| [t a] sched IH]; intros c c' E; simpl in E.
  - injection E as <-. apply rtc_refl.
  - destruct (decide (valid_tid t)) as [V |]; [| discriminate].
    destruct (tstep t a (shared c) (locals c t)) as [[s' l'] |] eqn:T; [| discriminate].
    eapply rtc_l; [econstructor; eassumption | apply IH; exact E].
Qed.

Lemma exec_cons t a rest c s' l' : valid_tid t ->
  tstep t a (shared c) (locals c t) = Some (s', l') ->
  exec ((t, a) :: rest) c = exec rest (Config s' (upd (locals c) t l')).
Proof. intros V E. simpl. rewrite decide_True by exact V. rewrite E. reflexivity. Qed.

(** Invariants by induction on the execution. *)
Lemma invariant_reachable (I : config S L -> Prop) init :
  I init -> (forall c c', I c -> step c c' -> I c') -> forall c, reachable init c -> I c.
Proof. intros H0 Hs c R. induction R as [| a b c St R IH]; eauto. Qed.
End Machine.

(** ** A system whose invariant is local

    Most objects are verified against a predicate [good] on the object and a
    predicate [okt] on each thread's view of it.  It is enough that a step
    establishes the stepping thread's predicate and that the change it makes is
    one ([env]) the other threads tolerate. *)
Section Local.
Context {S L Act : Type} (tstep : Z -> Act -> S -> L -> option (S * L)).
Context (good : S -> Prop) (okt : Z -> S -> L -> Prop) (env : Z -> S -> S -> Prop).

Definition local_inv (c : config S L) : Prop :=
  good (shared c) /\ forall t, valid_tid t -> okt t (shared c) (locals c t).

Lemma local_inv_reachable init :
  local_inv init ->
  (forall t a s l s' l', valid_tid t -> good s -> okt t s l -> tstep t a s l = Some (s', l') ->
     good s' /\ okt t s' l' /\ forall u, valid_tid u -> u <> t -> env u s s') ->
  (forall u s s' l, valid_tid u -> env u s s' -> okt u s l -> okt u s' l) ->
  forall c, reachable tstep init c -> local_inv c.
Proof.
  intros I0 Hstep Henv. apply invariant_reachable; [exact I0 |].
  intros c c' [G O] St. destruct St as [c t a s' l' V T].
  destruct (Hstep _ _ _ _ _ _ V G (O t V) T) as (G' & O' & E).
  split; [exact G' |]. intros u Vu. simpl. destruct (Z.eq_dec u t) as [-> | N].
  - rewrite upd_same. exact O'.
  - rewrite upd_other by exact N. eapply Henv; [exact Vu | apply E; assumption | apply O, Vu].
Qed.
End Local.

(** ** The waiting flag

    [1 << 31] as an [int], and the word under it. *)
Definition FLAG_WAITING : Z := - 2 ^ 31.
Definition word_id (w : Z) : Z := Z.land w (Z.lnot FLAG_WAITING).

Lemma word_id_mod w : word_id w = w mod 2 ^ 31.
Proof. unfold word_id. change (Z.lnot FLAG_WAITING) with (Z.ones 31). apply Z.land_ones. lia. Qed.

Lemma word_id_plain t : valid_tid t -> word_id t = t.
Proof. unfold valid_tid. intros H. rewrite word_id_mod. apply Z.mod_small. lia. Qed.

(** Setting the flag of a nonnegative word subtracts 2^31 from it. *)
Lemma set_flag w : 0 <= w < 2 ^ 31 -> Z.lor w FLAG_WAITING = w - 2 ^ 31.
Proof.
  intros H. change FLAG_WAITING with (Z.shiftl (-1) 31).
  assert (D : Z.land w (Z.shiftl (-1) 31) = 0).
  { apply Z.bits_inj'. intros i Hi. rewrite Z.land_spec, Z.bits_0.
    destruct (Z.lt_ge_cases i 31) as [Lt | G].
    - rewrite Z.shiftl_spec_low by lia. apply andb_false_r.
    - rewrite <- (Z.mod_small w (2 ^ 31) H), Z.mod_pow2_bits_high by lia. reflexivity. }
  rewrite <- Z.lxor_lor by exact D. rewrite <- Z.add_nocarry_lxor by exact D.
  rewrite Z.shiftl_mul_pow2 by lia. lia.
Qed.

Lemma word_id_flagged w : 0 <= w < 2 ^ 31 -> word_id (w - 2 ^ 31) = w.
Proof.
  intros H. rewrite word_id_mod. rewrite <- (Z.mod_small w (2 ^ 31)) at 2 by exact H.
  rewrite <- (Z.mod_add (w - 2 ^ 31) 1 (2 ^ 31)) by lia. f_equal. lia.
Qed.

(** [w & FLAG_WAITING] is nonzero for the negative 32-bit words. *)
Lemma test_flag w : - 2 ^ 31 <= w < 2 ^ 31 ->
  negb (Z.land w FLAG_WAITING =? 0) = (w <? 0).
Proof.
  intros H. assert (E : Z.land w FLAG_WAITING = w - word_id w).
  { rewrite word_id_mod, Z.mod_eq by lia.
    change FLAG_WAITING with (Z.lnot (Z.ones 31)). rewrite <- Z.ldiff_land.
    rewrite Z.ldiff_ones_r, Z.shiftl_mul_pow2, Z.shiftr_div_pow2 by lia. lia. }
  rewrite E, word_id_mod. destruct (Z.ltb_spec w 0).
  - apply negb_true_iff, Z.eqb_neq. Z.to_euclidean_division_equations. lia.
  - apply negb_false_iff, Z.eqb_eq. rewrite Z.mod_small; lia.
Qed.
