(* ===== verification/Mutex.v ===== *)
(** * The mutex

    [Mutex::manual_lock], [Mutex::try_manual_lock] and [Mutex::manual_unlock] of
    [src/src/internal/mutex.cpp], and [pthread_mutex_internal] of
    [src/src/glibc/pthread_internal.hpp], as threads over a futex.  The client of
    the mutex is part of each thread: it calls any operation at any time and
    counts in [holds] the locks it has taken and not given back. *)

From stdpp Require Import gmap relations.
From S2P Require Import Prelude Threads.

#[local] Open Scope Z_scope.

Definition PTHREAD_MUTEX_NORMAL : Z := 0.
Definition PTHREAD_MUTEX_RECURSIVE : Z := 1.
Definition PTHREAD_MUTEX_ERRORCHECK : Z := 2.
Definition EPERM : Z := 1.
Definition EBUSY : Z := 16.
Definition EDEADLK : Z := 35.

Record mutex := {
  state : Z;              (* atomic<int>: the owner's id and FLAG_WAITING *)
  recursion : Z;
  kind : Z;
  sleepers : gset Z       (* the threads asleep on the futex [state] *)
}.

Definition set_state (m : mutex) (v : Z) : mutex :=
  {| state := v; recursion := recursion m; kind := kind m; sleepers := sleepers m |}.
Definition set_recursion (m : mutex) (v : Z) : mutex :=
  {| state := state m; recursion := v; kind := kind m; sleepers := sleepers m |}.
Definition set_sleepers (m : mutex) (v : gset Z) : mutex :=
  {| state := state m; recursion := recursion m; kind := kind m; sleepers := v |}.

Inductive op := OpLock | OpTryLock | OpUnlock.

(** Where a thread is; [expected] is the local variable of the source. *)
Inductive pc :=
| Idle
| LockLoop (expected : Z)       (* head of the loop of manual_lock *)
| LockTest (expected : Z)       (* after the first compare-exchange *)
| LockWait (expected : Z)       (* about to call sys_futex_wait *)
| LockAsleep                    (* inside sys_futex_wait *)
| LockMark (expected : Z)       (* about to set FLAG_WAITING *)
| TryCas
| SetRecursion (o : op)         (* state.recursion = 1 *)
| IncRecursion (o : op)         (* ++state.recursion *)
| UnlockLoad
| UnlockDec                     (* --state.recursion *)
| UnlockXchg                    (* state.exchange(0) *)
| UnlockWake                    (* sys_futex_wake_all *)
| Ret (o : op) (r : Z)
| Panic.

Record local := { at_ : pc; holds : Z }.

Definition goto (l : local) (p : pc) : local := {| at_ := p; holds := holds l |}.

(** A thread calls an operation, runs its next access, or suffers the failure
    the platform allows there: a weak compare-exchange that fails although the
    value matches, or a signal during [sys_futex_wait]. *)
Inductive act := Call (o : op) | Run | Fault.

(** What happens when the thread finds its own id in the word. *)
Definition own_again (o : op) (m : mutex) : pc :=
  if kind m =? PTHREAD_MUTEX_RECURSIVE then IncRecursion o
  else if kind m =? PTHREAD_MUTEX_ERRORCHECK then Ret o EDEADLK
  else Panic.

Definition flagged (w : Z) : bool := negb (Z.land w FLAG_WAITING =? 0).

Definition not_owner (m : mutex) : pc :=
  if kind m =? PTHREAD_MUTEX_NORMAL then Panic else Ret OpUnlock EPERM.

Definition tstep (t : Z) (a : act) (m : mutex) (l : local) : option (mutex * local) :=
  let id := t in
  let to m' p := Some (m', goto l p) in
  match a, at_ l with
  (* the client; [recursion] is an int, so fewer than INT_MAX nested locks *)
  | Call OpLock, Idle => if holds l <? smax 32 then to m (LockLoop 0) else None
  | Call OpTryLock, Idle => if holds l <? smax 32 then to m TryCas else None
  | Call OpUnlock, Idle => to m UnlockLoad
  | Run, Ret o r =>
      let d := match o with OpUnlock => -1 | _ => 1 end in
      Some (m, {| at_ := Idle; holds := if r =? 0 then holds l + d else holds l |})
  (* manual_lock *)
  | Run, LockLoop expected =>
      if expected =? 0 then
        if state m =? 0 then to (set_state m id) (SetRecursion OpLock)
        else to m (LockTest (state m))
      else to m (LockTest expected)
  | Run, LockTest expected =>
      if word_id expected =? id then to m (own_again OpLock m)
      else if flagged expected then to m (LockWait expected)
      else to m (LockMark expected)
  | Run, LockWait expected =>
      if state m =? expected then to (set_sleepers m ({[t]} ∪ sleepers m)) LockAsleep
      else to m (LockLoop 0)
  | Run, LockAsleep => if decide (t ∈ sleepers m) then None else to m (LockLoop 0)
  | Fault, LockAsleep => to (set_sleepers m (sleepers m ∖ {[t]})) (LockLoop 0)
  | Run, LockMark expected =>
      if state m =? expected
      then to (set_state m (Z.lor expected FLAG_WAITING)) (LockLoop (Z.lor expected FLAG_WAITING))
      else to m (LockLoop (state m))
  | Fault, LockMark expected => to m (LockLoop (state m))
  | Run, SetRecursion o => to (set_recursion m 1) (Ret o 0)
  | Run, IncRecursion o => to (set_recursion m (recursion m + 1)) (Ret o 0)
  (* try_manual_lock *)
  | Run, TryCas =>
      if state m =? 0 then to (set_state m id) (SetRecursion OpTryLock)
      else if word_id (state m) =? id then to m (own_again OpTryLock m)
      else to m (Ret OpTryLock EBUSY)
  (* manual_unlock *)
  | Run, UnlockLoad =>
      let old_state := state m in
      if negb (word_id old_state =? id) then to m (not_owner m)
      else if old_state =? 0 then to m (not_owner m)
      else to m UnlockDec
  | Run, UnlockDec =>
      if recursion m <? 1 then to m Panic
      else if 0 <? recursion m - 1 then to (set_recursion m (recursion m - 1)) (Ret OpUnlock 0)
      else to (set_recursion m (recursion m - 1)) UnlockXchg
  | Run, UnlockXchg =>
      let old_state := state m in
      to (set_state m 0) (if flagged old_state then UnlockWake else Ret OpUnlock 0)
  | Run, UnlockWake => to (set_sleepers m ∅) (Ret OpUnlock 0)
  | _, _ => None
  end.

(** A fresh mutex ([thread_mutex_init]) and threads that hold nothing. *)
Definition mutex_init (k : Z) : config mutex local :=
  Config {| state := 0; recursion := 0; kind := k; sleepers := ∅ |}
         (fun _ => {| at_ := Idle; holds := 0 |}).

(** ** Ownership

    [depth l] is the number of successful unlocks the thread still has to do at
    this point of its execution; between operations it is [holds]. *)
Definition depth (l : local) : Z :=
  match at_ l with
  | SetRecursion _ => holds l + 1
  | Ret OpUnlock r => if r =? 0 then holds l - 1 else holds l
  | Ret _ r => if r =? 0 then holds l + 1 else holds l
  | UnlockWake => holds l - 1
  | _ => holds l
  end.

Definition owns (m : mutex) (t : Z) : Prop := word_id (state m) = t.

Definition good_word (m : mutex) : Prop :=
  state m = 0 \/ exists u, valid_tid u /\ (state m = u \/ state m = u - 2 ^ 31).

(** The results an operation can return, with the reason. *)
Definition good_ret (m : mutex) (l : local) (o : op) (r : Z) : Prop :=
  match o with
  | OpUnlock => (r = 0 /\ 0 < holds l) \/
                (r = EPERM /\ holds l = 0 /\ kind m <> PTHREAD_MUTEX_NORMAL)
  | _ => (r = 0 /\ holds l < smax 32) \/
         (r = EDEADLK /\ 0 < holds l /\ kind m = PTHREAD_MUTEX_ERRORCHECK) \/
         (r = EBUSY /\ o = OpTryLock /\ holds l = 0)
  end.

(** What is known at each point. *)
Definition at_ok (t : Z) (m : mutex) (l : local) : Prop :=
  match at_ l with
  | Idle | TryCas | UnlockLoad => True
  | LockAsleep => ~ owns m t
  | LockLoop e => e = 0 \/ ((word_id e = t <-> owns m t) /\ - 2 ^ 31 <= e < 2 ^ 31)
  | LockTest e => e <> 0 /\ (word_id e = t <-> owns m t) /\ - 2 ^ 31 <= e < 2 ^ 31
  | LockWait e => e < 0 /\ ~ owns m t
  | LockMark e => 0 < e < 2 ^ 31 /\ ~ owns m t
  | SetRecursion o => holds l = 0 /\ o <> OpUnlock
  | IncRecursion o => 0 < holds l < smax 32 /\ o <> OpUnlock /\ kind m = PTHREAD_MUTEX_RECURSIVE
  | UnlockDec => 0 < holds l
  | UnlockXchg | UnlockWake => holds l = 1
  | Ret o r => good_ret m l o r
  | Panic => (0 < holds l /\ kind m <> PTHREAD_MUTEX_RECURSIVE /\
              kind m <> PTHREAD_MUTEX_ERRORCHECK) \/
             (holds l = 0 /\ kind m = PTHREAD_MUTEX_NORMAL)
  end.

Definition locking (p : pc) : bool :=
  match p with
  | LockLoop _ | LockTest _ | LockWait _ | LockAsleep | LockMark _ | TryCas => true
  | _ => false
  end.

(** The counter agrees with the depth, except while the owner is updating it. *)
Definition rec_ok (m : mutex) (l : local) : Prop :=
  match at_ l with
  | SetRecursion _ => True
  | UnlockXchg => recursion m = 0
  | _ => recursion m = depth l
  end.

Definition thread_ok (t : Z) (m : mutex) (l : local) : Prop :=
  0 <= holds l /\ (locking (at_ l) = true -> holds l < smax 32) /\
  (owns m t <-> 0 < depth l) /\ (0 < depth l -> rec_ok m l) /\ at_ok t m l.

(** What a thread tolerates from the others. *)
Definition tolerates (u : Z) (m m' : mutex) : Prop :=
  kind m' = kind m /\ (owns m' u <-> owns m u) /\ (owns m u -> recursion m' = recursion m).

Lemma owns_state m m' t : state m' = state m -> (owns m' t <-> owns m t).
Proof. unfold owns. intros ->. reflexivity. Qed.

Lemma free_not_owned m t : valid_tid t -> state m = 0 -> ~ owns m t.
Proof. unfold valid_tid, owns. intros V ->. rewrite word_id_mod. change (0 mod 2 ^ 31) with 0. lia. Qed.

Lemma owned_state m t : valid_tid t -> good_word m -> owns m t ->
  state m = t \/ state m = t - 2 ^ 31.
Proof.
  unfold owns. intros V [Z0 | (u & Vu & [E | E])] O.
  - contradiction (free_not_owned m t V Z0 O).
  - rewrite E, word_id_plain in O by exact Vu. subst. tauto.
  - rewrite E, word_id_flagged in O by (unfold valid_tid in Vu; lia). subst. tauto.
Qed.

Lemma good_word_range m : good_word m -> - 2 ^ 31 <= state m < 2 ^ 31.
Proof. unfold good_word, valid_tid. intros [H | (u & Vu & H)]; lia. Qed.

(** The accesses that leave the word and the counter alone. *)
Lemma keep_word m m' : state m' = state m -> recursion m' = recursion m -> kind m' = kind m ->
  good_word m -> good_word m' /\ forall u, tolerates u m m'.
Proof.
  unfold good_word, tolerates. intros Es Er Ek G. rewrite Es, Er, Ek.
  split; [exact G |]. intros u. rewrite owns_state by exact Es. tauto.
Qed.

(** Taking the free word. *)
Lemma take_word m t : valid_tid t -> state m = 0 ->
  good_word (set_state m t) /\ owns (set_state m t) t /\
  forall u, valid_tid u -> u <> t -> tolerates u m (set_state m t).
Proof.
  intros V Z0. assert (O : forall u, owns (set_state m t) u <-> t = u).
  { intros u. unfold owns. simpl. rewrite word_id_plain by exact V. reflexivity. }
  split; [right; exists t; simpl; tauto |]. split; [apply O; reflexivity |].
  intros u Vu N. unfold tolerates. simpl. rewrite O.
  pose proof (free_not_owned m u Vu Z0). repeat split; tauto || congruence.
Qed.

(** Only the owner changes the counter. *)
Lemma own_recursion m t r : owns m t -> good_word m ->
  good_word (set_recursion m r) /\ forall u, u <> t -> tolerates u m (set_recursion m r).
Proof.
  intros O G. split; [exact G |]. intros u N. unfold tolerates, owns in *. simpl. split; [reflexivity |].
  split; [reflexivity |]. intros E. congruence.
Qed.

(** Releasing the word. *)
Lemma release_word m t : valid_tid t -> owns m t ->
  good_word (set_state m 0) /\ ~ owns (set_state m 0) t /\
  forall u, valid_tid u -> u <> t -> tolerates u m (set_state m 0).
Proof.
  intros V O. assert (F : forall u, valid_tid u -> ~ owns (set_state m 0) u).
  { intros u Vu. apply free_not_owned; [exact Vu | reflexivity]. }
  split; [left; reflexivity |]. split; [apply F, V |].
  intros u Vu N. specialize (F u Vu). unfold tolerates, owns in *. simpl in *.
  split; [reflexivity |]. split; [split; [tauto | congruence] | congruence].
Qed.

(** Setting the flag keeps the owner. *)
Lemma mark_word m e : good_word m -> state m = e -> 0 < e < 2 ^ 31 ->
  let m' := set_state m (Z.lor e FLAG_WAITING) in
  good_word m' /\ (forall u, owns m' u <-> owns m u) /\ (forall u, tolerates u m m') /\
  state m' < 0 /\ state m' = e - 2 ^ 31.
Proof.
  intros G E R m'. assert (S' : state m' = e - 2 ^ 31) by (simpl; apply set_flag; lia).
  assert (O : forall u, owns m' u <-> owns m u).
  { intros u. unfold owns. rewrite S', word_id_flagged, E by lia.
    rewrite word_id_mod, Z.mod_small by lia. reflexivity. }
  split. { right. exists e. rewrite S'. unfold valid_tid. split; [lia | tauto]. }
  split; [exact O |]. split; [| rewrite S'; split; [lia | reflexivity]].
  intros u. unfold tolerates. rewrite O. simpl. tauto.
Qed.

Lemma own_again_cases o m :
  (own_again o m = IncRecursion o /\ kind m = PTHREAD_MUTEX_RECURSIVE) \/
  (own_again o m = Ret o EDEADLK /\ kind m = PTHREAD_MUTEX_ERRORCHECK) \/
  (own_again o m = Panic /\ kind m <> PTHREAD_MUTEX_RECURSIVE /\ kind m <> PTHREAD_MUTEX_ERRORCHECK).
Proof. unfold own_again. zbool; tauto. Qed.

(** A thread that steps without changing the word or its own depth. *)
Lemma thread_ok_goto t m l p : thread_ok t m l ->
  (locking p = true -> holds l < smax 32) ->
  depth (goto l p) = depth l ->
  (0 < depth l -> rec_ok m l -> rec_ok m (goto l p)) ->
  at_ok t m (goto l p) -> thread_ok t m (goto l p).
Proof.
  unfold thread_ok. simpl holds. intros (H0 & _ & O & R & _) HL D HR A.
  rewrite D. tauto.
Qed.

Definition step_ok (t : Z) (m m' : mutex) (l' : local) : Prop :=
  good_word m' /\ thread_ok t m' l' /\ forall u, valid_tid u -> u <> t -> tolerates u m m'.

Lemma step_ok_keep t m m' l' : good_word m ->
  state m' = state m -> recursion m' = recursion m -> kind m' = kind m ->
  thread_ok t m' l' -> step_ok t m m' l'.
Proof. intros G Es Er Ek O. destruct (keep_word m m' Es Er Ek G). unfold step_ok. auto. Qed.

(** [thread_ok] ignores the sleepers. *)
Lemma thread_ok_sleepers t m l w : thread_ok t m l -> thread_ok t (set_sleepers m w) l.
Proof. exact id. Qed.

Lemma own_again_ok o t m l : thread_ok t m l -> owns m t -> locking (at_ l) = true ->
  o <> OpUnlock -> depth l = holds l -> rec_ok m l = (recursion m = depth l) ->
  thread_ok t m (goto l (own_again o m)).
Proof.
  intros T Own L No D R. destruct T as (H0 & HL & O & Rc & A). specialize (HL L).
  assert (P : 0 < holds l) by (rewrite <- D; apply O, Own). rewrite R in Rc.
  unfold thread_ok, goto. cbn [at_ holds].
  destruct (own_again_cases o m) as [[-> K] | [[-> K] | [-> [K1 K2]]]];
    destruct o; try contradiction; unfold depth, rec_ok, at_ok, good_ret; cbn [at_ holds locking];
    unfold depth; cbn [at_ holds]; change (EDEADLK =? 0) with false; cbn iota; rewrite ?D in *;
    (split; [lia |]); (split; [lia |]); (split; [lia || tauto |]); (split; [lia || tauto |]);
    try tauto; (split; [lia |]); split; congruence.
Qed.

Ltac mutex_open :=
  unfold thread_ok, goto, depth, rec_ok, at_ok, good_ret in *; cbn [at_ holds locking] in *;
  unfold depth in *; cbn [at_ holds] in *.

Lemma call_ok t o m l m' l' : valid_tid t -> good_word m -> thread_ok t m l ->
  tstep t (Call o) m l = Some (m', l') -> step_ok t m m' l'.
Proof.
  intros V G T E. unfold tstep in E. destruct (at_ l) eqn:A; destruct o; try discriminate;
    try (destruct (Z.ltb_spec (holds l) (smax 32)); [| discriminate]);
    injection E as <- <-; (apply step_ok_keep; [exact G | reflexivity.. |]);
    apply thread_ok_goto; try exact T; unfold depth, rec_ok, at_ok; rewrite ?A;
    cbn [at_ goto holds]; unfold depth; rewrite ?A; cbn [at_ goto holds]; auto; discriminate.
Qed.

Lemma ret_ok t o r m l m' l' : valid_tid t -> good_word m -> thread_ok t m l -> at_ l = Ret o r ->
  tstep t Run m l = Some (m', l') -> step_ok t m m' l'.
Proof.
  intros V G T A E. unfold tstep in E. rewrite A in E. injection E as <- <-.
  apply step_ok_keep; [exact G | reflexivity.. |].
  destruct l as [p h]. cbn [at_ holds] in *. subst p. mutex_open.
  destruct T as (H0 & _ & O & R & Rt).
  destruct o; cbn iota in *; destruct (Z.eqb_spec r 0) as [-> | Nr];
    replace (h + -1) with (h - 1) in * by lia; repeat split; try tauto; try discriminate; try lia.
  all: destruct Rt as [[? ?] | Rt]; [lia |]; unfold EPERM, EBUSY, EDEADLK in *; lia.
Qed.

(** Acquiring the free word, from [manual_lock] or [try_manual_lock]. *)
Lemma acquire_ok t o m l : valid_tid t -> thread_ok t m l -> state m = 0 -> depth l = holds l ->
  o <> OpUnlock -> step_ok t m (set_state m t) (goto l (SetRecursion o)).
Proof.
  intros V T Z0 D No. destruct (take_word m t V Z0) as (G' & O' & E).
  split; [exact G' |]. split; [| exact E].
  destruct T as (H0 & _ & O & _). pose proof (free_not_owned m t V Z0) as F.
  rewrite O, D in F. mutex_open. repeat split; try tauto; try discriminate; lia.
Qed.

Lemma lock_loop_ok t e m l m' l' : valid_tid t -> good_word m -> thread_ok t m l ->
  at_ l = LockLoop e ->
  tstep t Run m l = Some (m', l') -> step_ok t m m' l'.
Proof.
  intros V G T A E. unfold tstep in E. rewrite A in E.
  assert (K : forall x, x <> 0 -> (word_id x = t <-> owns m t) -> - 2 ^ 31 <= x < 2 ^ 31 ->
              step_ok t m m (goto l (LockTest x))).
  { intros x Nx W R. apply step_ok_keep; [exact G | reflexivity.. |].
    destruct l as [p h]. cbn [at_ holds] in *. subst p. mutex_open.
    destruct T as (H0 & HL & O & Rc & _). tauto. }
  destruct (Z.eqb_spec e 0) as [-> | Ne].
  - destruct (Z.eqb_spec (state m) 0) as [Z0 | N0]; injection E as <- <-.
    + apply acquire_ok; try assumption; [| discriminate]. unfold depth. rewrite A. reflexivity.
    + apply K; [exact N0 | reflexivity | apply good_word_range, G].
  - injection E as <- <-. destruct T as (_ & _ & _ & _ & AO).
    unfold at_ok in AO. rewrite A in AO. destruct AO as [-> | [W R]]; [contradiction |].
    apply K; assumption.
Qed.

Lemma lock_test_ok t e m l m' l' : valid_tid t -> good_word m -> thread_ok t m l ->
  at_ l = LockTest e -> tstep t Run m l = Some (m', l') -> step_ok t m m' l'.
Proof.
  intros V G T A E. unfold tstep in E. rewrite A in E.
  assert (AO : at_ok t m l) by apply T. unfold at_ok in AO. rewrite A in AO.
  destruct AO as (Ne & W & R).
  destruct (Z.eqb_spec (word_id e) t) as [Own | NOwn]; [injection E as <- <- |
    unfold flagged in E; rewrite test_flag in E by exact R;
    destruct (Z.ltb_spec e 0); injection E as <- <-];
    (apply step_ok_keep; [exact G | reflexivity.. |]).
  - apply own_again_ok; try assumption; [tauto | | discriminate | |];
      unfold rec_ok, depth; rewrite ?A; reflexivity.
  - destruct l as [p h]. cbn [at_ holds] in *. subst p. mutex_open.
    destruct T as (H0 & HL & O & Rc & _). tauto.
  - destruct l as [p h]. cbn [at_ holds] in *. subst p. mutex_open.
    destruct T as (H0 & HL & O & Rc & _). repeat split; try tauto; lia.
Qed.

Lemma lock_wait_ok t e a m l m' l' : valid_tid t -> good_word m -> thread_ok t m l ->
  at_ l = LockWait e \/ at_ l = LockAsleep ->
  tstep t a m l = Some (m', l') -> step_ok t m m' l'.
Proof.
  intros V G T A E. unfold tstep in E. destruct l as [p h].
  destruct A as [A | A]; cbn [at_ holds] in *; subst p; destruct a as [[] | |]; try discriminate.
  - destruct (Z.eqb_spec (state m) e); injection E as <- <-;
      (apply step_ok_keep; [exact G | reflexivity.. |]); try apply thread_ok_sleepers;
      mutex_open; destruct T as (H0 & HL & O & Rc & AO); tauto.
  - destruct (decide (t ∈ sleepers m)); [discriminate |]. injection E as <- <-.
    apply step_ok_keep; [exact G | reflexivity.. |]. mutex_open.
    destruct T as (H0 & HL & O & Rc & _); tauto.
  - injection E as <- <-. apply step_ok_keep; [exact G | reflexivity.. |].
    apply thread_ok_sleepers. mutex_open. destruct T as (H0 & HL & O & Rc & _); tauto.
Qed.

Lemma lock_mark_ok t e a m l m' l' : valid_tid t -> good_word m -> thread_ok t m l ->
  at_ l = LockMark e -> tstep t a m l = Some (m', l') -> step_ok t m m' l'.
Proof.
  intros V G T A E. unfold tstep in E. destruct l as [p h]. cbn [at_ holds] in *. subst p.
  assert (AO : at_ok t m {| at_ := LockMark e; holds := h |}) by apply T.
  unfold at_ok in AO. cbn [at_] in AO. destruct AO as (R & NO).
  assert (K : step_ok t m m {| at_ := LockLoop (state m); holds := h |}).
  { apply step_ok_keep; [exact G | reflexivity.. |]. mutex_open.
    destruct T as (H0 & HL & O & Rc & _). pose proof (good_word_range m G). unfold owns in *. tauto. }
  destruct a as [[] | |]; try discriminate; [| injection E as <- <-; exact K].
  destruct (Z.eqb_spec (state m) e) as [Es | _]; injection E as <- <-; [| exact K].
  destruct (mark_word m e G Es R) as (G' & O' & E' & _ & S'). cbn [state set_state] in S'.
  split; [exact G' |]. split; [| intros; apply E'].
  mutex_open. destruct T as (H0 & HL & O & Rc & _). rewrite (O' t).
  repeat split; try tauto; try lia. right. rewrite <- (O' t). split; [reflexivity | lia].
Qed.

Lemma recursion_ok t o m l m' l' : valid_tid t -> good_word m -> thread_ok t m l ->
  at_ l = SetRecursion o \/ at_ l = IncRecursion o ->
  tstep t Run m l = Some (m', l') -> step_ok t m m' l'.
Proof.
  intros V G T A E. unfold tstep in E. destruct l as [p h].
  assert (Own : owns m t).
  { destruct T as (H0 & _ & O & _ & AO). apply O. unfold at_ok, depth in *.
    destruct A as [A | A]; cbn [at_ holds] in *; subst p; cbn iota in *; lia. }
  destruct A as [A | A]; cbn [at_ holds] in *; subst p; injection E as <- <-;
    destruct (own_recursion m t 1 Own G) as [G1 E1];
    destruct (own_recursion m t (recursion m + 1) Own G) as [G2 E2];
    (split; [assumption |]); (split; [| intros; auto]);
    mutex_open; destruct T as (H0 & _ & O & Rc & AO); unfold smax in *;
    destruct o; try tauto; change (0 =? 0) with true; cbn iota;
    unfold owns in *; cbn [state recursion set_recursion]; repeat split; try tauto; try lia.
Qed.

Lemma try_ok t m l m' l' : valid_tid t -> good_word m -> thread_ok t m l ->
  at_ l = TryCas -> tstep t Run m l = Some (m', l') -> step_ok t m m' l'.
Proof.
  intros V G T A E. unfold tstep in E. rewrite A in E.
  assert (D : depth l = holds l) by (unfold depth; rewrite A; reflexivity).
  destruct (Z.eqb_spec (state m) 0) as [Z0 | N0].
  { injection E as <- <-. apply acquire_ok; try assumption. discriminate. }
  destruct (Z.eqb_spec (word_id (state m)) t) as [Own | NOwn]; injection E as <- <-;
    (apply step_ok_keep; [exact G | reflexivity.. |]).
  - apply own_again_ok; try assumption; [rewrite A; reflexivity | discriminate |].
    unfold rec_ok, depth; rewrite ?A; reflexivity.
  - destruct l as [p h]. cbn [at_ holds] in *. subst p. mutex_open.
    destruct T as (H0 & HL & O & Rc & _). unfold owns in *. change (EBUSY =? 0) with false. cbn iota.
    repeat split; try tauto; try lia. right; right. repeat split. lia.
Qed.

Lemma unlock_load_ok t m l m' l' : valid_tid t -> good_word m -> thread_ok t m l ->
  at_ l = UnlockLoad -> tstep t Run m l = Some (m', l') -> step_ok t m m' l'.
Proof.
  intros V G T A E. unfold tstep in E. destruct l as [p h]. cbn [at_ holds] in *. subst p.
  destruct (Z.eqb_spec (word_id (state m)) t) as [Own | NOwn]; cbn [negb] in E.
  - destruct (Z.eqb_spec (state m) 0) as [Z0 | _]; [contradiction (free_not_owned m t V Z0 Own) |].
    injection E as <- <-. apply step_ok_keep; [exact G | reflexivity.. |].
    mutex_open. destruct T as (H0 & HL & O & Rc & _). unfold owns in *. repeat split; tauto || discriminate.
  - injection E as <- <-. apply step_ok_keep; [exact G | reflexivity.. |].
    unfold not_owner. destruct (Z.eqb_spec (kind m) PTHREAD_MUTEX_NORMAL) as [K | K];
      mutex_open; destruct T as (H0 & HL & O & Rc & _); unfold owns in *;
      change (EPERM =? 0) with false; cbn iota; repeat split; try tauto; try discriminate; right;
      repeat split; lia || assumption.
Qed.

Lemma unlock_dec_ok t m l m' l' : valid_tid t -> good_word m -> thread_ok t m l ->
  at_ l = UnlockDec -> tstep t Run m l = Some (m', l') -> step_ok t m m' l'.
Proof.
  intros V G T A E. unfold tstep in E. destruct l as [p h]. cbn [at_ holds] in *. subst p.
  assert (Own : owns m t) by (apply T; unfold depth; cbn; apply T).
  assert (Rc : recursion m = h) by (apply T; apply T; exact Own).
  assert (P : 0 < h) by apply T.
  destruct (Z.ltb_spec (recursion m) 1); [lia |].
  destruct (own_recursion m t (recursion m - 1) Own G) as [G1 E1].
  destruct (Z.ltb_spec 0 (recursion m - 1)); injection E as <- <-;
    (split; [exact G1 |]); (split; [| intros; auto]);
    mutex_open; change (0 =? 0) with true; cbn iota; destruct T as (Hh & HL & O & _);
    unfold owns in *; cbn [state recursion set_recursion]; repeat split; try tauto; try lia;
    discriminate.
Qed.

Lemma unlock_xchg_ok t m l m' l' : valid_tid t -> good_word m -> thread_ok t m l ->
  at_ l = UnlockXchg -> tstep t Run m l = Some (m', l') -> step_ok t m m' l'.
Proof.
  intros V G T A E. unfold tstep in E. destruct l as [p h]. cbn [at_ holds] in *. subst p.
  assert (P : h = 1) by apply T. subst h.
  assert (Own : owns m t) by (apply T; unfold depth; cbn; lia).
  destruct (release_word m t V Own) as (G1 & F & E1). injection E as <- <-.
  split; [exact G1 |]. split; [| exact E1]. mutex_open.
  destruct (flagged (state m)); repeat split; try tauto; try discriminate; try lia.
Qed.

Lemma unlock_wake_ok t m l m' l' : valid_tid t -> good_word m -> thread_ok t m l ->
  at_ l = UnlockWake -> tstep t Run m l = Some (m', l') -> step_ok t m m' l'.
Proof.
  intros V G T A E. unfold tstep in E. destruct l as [p h]. cbn [at_ holds] in *. subst p.
  injection E as <- <-. apply step_ok_keep; [exact G | reflexivity.. |].
  apply thread_ok_sleepers. mutex_open. change (0 =? 0) with true. cbn iota.
  destruct T as (H0 & HL & O & Rc & H1). repeat split; try tauto; try lia.
Qed.

Lemma tstep_ok t a m l m' l' : valid_tid t -> good_word m -> thread_ok t m l ->
  tstep t a m l = Some (m', l') -> step_ok t m m' l'.
Proof.
  intros V G T E. destruct a as [o | |]; [eapply call_ok; eassumption | |];
    destruct (at_ l) eqn:A; try (unfold tstep in E; rewrite A in E; discriminate E).
  - eapply lock_loop_ok; eassumption.
  - eapply lock_test_ok; eassumption.
  - eapply lock_wait_ok; eauto.
  - eapply (lock_wait_ok _ 0); eauto.
  - eapply lock_mark_ok; eassumption.
  - eapply try_ok; eassumption.
  - eapply recursion_ok; eauto.
  - eapply recursion_ok; eauto.
  - eapply unlock_load_ok; eassumption.
  - eapply unlock_dec_ok; eassumption.
  - eapply unlock_xchg_ok; eassumption.
  - eapply unlock_wake_ok; eassumption.
  - eapply ret_ok; eassumption.
  - eapply (lock_wait_ok _ 0); eauto.
  - eapply lock_mark_ok; eassumption.
Qed.

Lemma thread_ok_tolerates u m m' l : tolerates u m m' -> thread_ok u m l -> thread_ok u m' l.
Proof.
  unfold tolerates, thread_ok. intros (K & O & R) (H0 & HL & Od & Rc & A).
  split; [exact H0 |]. split; [exact HL |]. split; [rewrite O; exact Od |]. split.
  - intros D. specialize (Rc D). apply Od in D. specialize (R D).
    unfold rec_ok in *. destruct (at_ l); rewrite ?R; exact Rc.
  - unfold at_ok, good_ret in *. rewrite K. destruct (at_ l); rewrite ?O; exact A.
Qed.

Definition mutex_inv : config mutex local -> Prop := local_inv good_word thread_ok.

Lemma mutex_inv_reachable k c : reachable tstep (mutex_init k) c -> mutex_inv c.
Proof.
  apply (local_inv_reachable tstep good_word thread_ok tolerates).
  - split; [left; reflexivity |]. intros t V. unfold thread_ok, owns, depth, at_ok. simpl.
    pose proof (free_not_owned (shared (mutex_init k)) t V eq_refl). unfold owns in *. simpl in *.
    repeat split; try tauto; try lia; discriminate.
  - intros t a m l m' l' V G T E. exact (tstep_ok t a m l m' l' V G T E).
  - intros u m m' l _ E T. eapply thread_ok_tolerates; eassumption.
Qed.

Lemma kind_reachable k c : reachable tstep (mutex_init k) c -> kind (shared c) = k.
Proof.
  apply (invariant_reachable tstep (fun c => kind (shared c) = k)); [reflexivity |].
  intros c1 c2 K St. destruct St as [c1 t a m' l' V E]. simpl. rewrite <- K.
  unfold tstep in E. destruct a as [[] | |], (at_ (locals c1 t)); try discriminate;
    repeat (case_match; try discriminate); injection E as <- <-; reflexivity.
Qed.

(** ** Sleeping threads *)

Definition wake_pending (c : config mutex local) : Prop :=
  exists u, valid_tid u /\ at_ (locals c u) = UnlockWake.

Definition sleep_inv (c : config mutex local) : Prop :=
  (forall t, t ∈ sleepers (shared c) -> valid_tid t /\ at_ (locals c t) = LockAsleep) /\
  (forall t, t ∈ sleepers (shared c) -> state (shared c) < 0 \/ wake_pending c).

(** The other threads' pending wakes stay pending. *)
Lemma wake_pending_upd c t m' l' : wake_pending c -> at_ (locals c t) <> UnlockWake ->
  wake_pending (Config m' (upd (locals c) t l')).
Proof.
  intros (u & V & A) N. exists u. split; [exact V |]. simpl.
  rewrite upd_other; [exact A |]. intros ->. contradiction.
Qed.

(** A step that does not touch the sleepers, does not clear the flag and is not
    the wake keeps the sleeping invariant. *)
Lemma sleep_inv_keep c t m' l' : sleep_inv c ->
  at_ (locals c t) <> UnlockWake -> at_ (locals c t) <> LockAsleep ->
  sleepers m' = sleepers (shared c) ->
  (state (shared c) < 0 -> state m' < 0 \/ at_ l' = UnlockWake) -> valid_tid t ->
  sleep_inv (Config m' (upd (locals c) t l')).
Proof.
  intros [S1 S2] N1 N2 Es F V. split; simpl; rewrite Es; intros u Hu.
  - destruct (S1 u Hu) as [Vu Au]. split; [exact Vu |].
    rewrite upd_other; [exact Au |]. intros ->. contradiction.
  - destruct (S2 u Hu) as [Neg | W]; [| right; apply wake_pending_upd; assumption].
    destruct (F Neg) as [? | W]; [left; assumption | right].
    exists t. simpl. rewrite upd_same. tauto.
Qed.

Lemma sleep_inv_step c t a m' l' : mutex_inv c -> sleep_inv c -> valid_tid t ->
  tstep t a (shared c) (locals c t) = Some (m', l') ->
  sleep_inv (Config m' (upd (locals c) t l')).
Proof.
  intros [G O] I V E. specialize (O t V).
  destruct (at_ (locals c t)) eqn:A.
  5: { (* asleep *)
    unfold tstep in E. rewrite A in E. destruct a as [[] | |]; try discriminate.
    - destruct (decide (t ∈ sleepers (shared c))) as [| N]; [discriminate |]. injection E as <- <-.
      destruct I as [S1 S2]. split; simpl; intros u Hu; (assert (u <> t) by congruence).
      + rewrite upd_other by assumption. auto.
      + destruct (S2 u Hu); [tauto |]. right. apply wake_pending_upd; [assumption | congruence].
    - injection E as <- <-. destruct I as [S1 S2].
      split; simpl; intros u Hu; apply elem_of_difference in Hu as [Hu N];
        rewrite elem_of_singleton in N.
      + rewrite upd_other by assumption. auto.
      + destruct (S2 u Hu); [tauto |]. right. apply wake_pending_upd; [assumption | congruence]. }
  12: { (* the wake *)
    unfold tstep in E. rewrite A in E. destruct a as [[] | |]; try discriminate. injection E as <- <-.
    split; simpl; intros u Hu; apply elem_of_empty in Hu; contradiction. }
  4: { (* the wait *)
    unfold tstep in E. rewrite A in E. destruct a as [[] | |]; try discriminate.
    destruct (Z.eqb_spec (state (shared c)) expected) as [Es |]; injection E as <- <-;
      [| apply sleep_inv_keep; simpl; auto; congruence].
    assert (Neg : expected < 0).
    { destruct O as (_ & _ & _ & _ & AO). unfold at_ok in AO. rewrite A in AO. tauto. }
    destruct I as [S1 S2]. split; simpl; intros u Hu; [| left; lia].
    destruct (Z.eq_dec u t) as [-> | N]; [rewrite upd_same; auto |].
    rewrite upd_other by exact N. apply S1. apply elem_of_union in Hu as [Hu | Hu]; [| exact Hu].
    apply elem_of_singleton in Hu. contradiction. }
  all: apply sleep_inv_keep; try assumption; try congruence; unfold tstep in E; rewrite A in E;
    destruct a as [[] | |]; try discriminate; repeat (case_match; try discriminate);
    injection E as <- <-; try reflexivity; simpl; try tauto; intros Neg; try lia.
  - left. rewrite set_flag; destruct O as (_ & _ & _ & _ & AO); unfold at_ok in AO;
      rewrite A in AO; lia.
  - unfold flagged in H. rewrite test_flag in H by (apply good_word_range, G). apply Z.ltb_ge in H. lia.
Qed.

Lemma sleep_inv_reachable k c : reachable tstep (mutex_init k) c -> mutex_inv c /\ sleep_inv c.
Proof.
  intros R. split; [eapply mutex_inv_reachable; exact R |]. revert c R.
  enough (forall c, reachable tstep (mutex_init k) c -> reachable tstep (mutex_init k) c /\ sleep_inv c)
    as H by (intros c R; apply H, R).
  apply invariant_reachable.
  - split; [apply rtc_refl |]. split; simpl; intros t Ht; apply elem_of_empty in Ht; contradiction.
  - intros c c' [R I] St. split; [eapply rtc_r; eassumption |]. destruct St as [c t a m' l' V E].
    eapply sleep_inv_step; try eassumption. eapply mutex_inv_reachable; eassumption.
Qed.

Lemma owner_of_negative m : good_word m -> state m < 0 -> exists u, valid_tid u /\ owns m u.
Proof.
  unfold owns. intros [Z0 | (u & Vu & [E | E])] N; [lia | unfold valid_tid in Vu; lia |].
  exists u. split; [exact Vu |]. rewrite E. apply word_id_flagged. unfold valid_tid in Vu. lia.
Qed.

(** ** A thread running alone *)

Lemma lock_loop_free t m l : at_ l = LockLoop 0 -> state m = 0 ->
  tstep t Run m l = Some (set_state m t, goto l (SetRecursion OpLock)).
Proof. intros A Z0. unfold tstep. rewrite A, Z0. reflexivity. Qed.

(** From the head of the loop with nothing expected, two accesses. *)
Lemma solo_loop t c : valid_tid t -> at_ (locals c t) = LockLoop 0 -> state (shared c) = 0 ->
  exists c', exec tstep [(t, Run); (t, Run)] c = Some c' /\
    at_ (locals c' t) = Ret OpLock 0 /\ state (shared c') = t.
Proof.
  intros V A Z0. eexists. erewrite exec_cons; [| exact V | apply lock_loop_free; assumption].
  erewrite exec_cons; [| exact V | cbn [locals]; rewrite upd_same; reflexivity].
  split; [reflexivity |]. cbn [locals shared]. rewrite upd_same. split; reflexivity.
Qed.

Lemma solo_then t c m' l' n : valid_tid t ->
  tstep t Run (shared c) (locals c t) = Some (m', l') ->
  (exists c', exec tstep (repeat (t, Run) n) (Config m' (upd (locals c) t l')) = Some c' /\
     at_ (locals c' t) = Ret OpLock 0 /\ state (shared c') = t) ->
  exists c', exec tstep (repeat (t, Run) (S n)) c = Some c' /\
     at_ (locals c' t) = Ret OpLock 0 /\ state (shared c') = t.
Proof.
  intros V E (c' & X & H). exists c'. split; [| exact H]. cbn [repeat].
  erewrite exec_cons; [exact X | exact V | exact E].
Qed.

(** From any point of [manual_lock] where the thread can run. *)
Definition can_lock (m : mutex) (t : Z) (p : pc) : Prop :=
  match p with
  | LockLoop _ | LockTest _ | LockWait _ | LockMark _ => True
  | LockAsleep => t ∉ sleepers m
  | _ => False
  end.

Lemma solo_lock t c : valid_tid t -> mutex_inv c -> state (shared c) = 0 ->
  can_lock (shared c) t (at_ (locals c t)) ->
  exists n c', (n <= 5)%nat /\ exec tstep (repeat (t, Run) n) c = Some c' /\
    at_ (locals c' t) = Ret OpLock 0 /\ state (shared c') = t.
Proof.
  intros V [G O] Z0 L. specialize (O t V).
  assert (W : forall c1, at_ (locals c1 t) = LockLoop 0 -> state (shared c1) = 0 ->
    exists c', exec tstep (repeat (t, Run) 2) c1 = Some c' /\
      at_ (locals c' t) = Ret OpLock 0 /\ state (shared c') = t)
    by (intros; apply solo_loop; assumption).
  assert (X : forall c1 e, at_ (locals c1 t) = LockTest e -> state (shared c1) = 0 -> e <> 0 ->
    word_id e <> t -> - 2 ^ 31 <= e < 2 ^ 31 ->
    exists c', exec tstep (repeat (t, Run) 4) c1 = Some c' /\
      at_ (locals c' t) = Ret OpLock 0 /\ state (shared c') = t).
  { intros c1 e A Z1 Ne Nw Re. apply Z.eqb_neq in Nw.
    destruct (flagged e) eqn:F;
      (eapply solo_then; [exact V | unfold tstep; rewrite A, Nw, F; reflexivity |]);
      (eapply solo_then; [exact V | cbn [locals shared]; rewrite upd_same; unfold tstep;
         cbn [at_ goto]; rewrite Z1; destruct (Z.eqb_spec 0 e); [congruence | reflexivity] |]);
      apply W; cbn [locals shared]; rewrite ?upd_same; [reflexivity | exact Z1 | reflexivity | exact Z1]. }
  pose proof (free_not_owned (shared c) t V Z0) as NO.
  assert (AO : at_ok t (shared c) (locals c t)) by apply O. unfold at_ok in AO.
  destruct (at_ (locals c t)) eqn:A; simpl in L; try contradiction.
  - destruct (Z.eq_dec expected 0) as [-> | Ne].
    + exists 2%nat. destruct (W c A Z0) as (c' & H). exists c'. split; [lia | exact H].
    + destruct AO as [| [Wd Re]]; [contradiction |]. exists 5%nat.
      edestruct (solo_then t c (shared c) (goto (locals c t) (LockTest expected)) 4 V) as (c' & H).
      * unfold tstep. rewrite A. apply Z.eqb_neq in Ne. rewrite Ne. reflexivity.
      * apply (X _ expected); cbn [locals shared]; rewrite ?upd_same; auto. tauto.
      * exists c'. split; [lia | exact H].
  - exists 4%nat. destruct AO as (Ne & Wd & Re).
    destruct (X c expected A Z0 Ne ltac:(tauto) Re) as (c' & H). exists c'. split; [lia | exact H].
  - exists 3%nat. edestruct (solo_then t c) as (c' & H); [exact V | unfold tstep; rewrite A, Z0 | |].
    { destruct (Z.eqb_spec 0 expected); [lia | reflexivity]. }
    { apply W; cbn [locals shared]; rewrite ?upd_same; [reflexivity | exact Z0]. }
    exists c'. split; [lia | exact H].
  - exists 3%nat. edestruct (solo_then t c) as (c' & H); [exact V | unfold tstep; rewrite A | |].
    { rewrite decide_False by exact L. reflexivity. }
    { apply W; cbn [locals shared]; rewrite ?upd_same; [reflexivity | exact Z0]. }
    exists c'. split; [lia | exact H].
  - exists 3%nat. edestruct (solo_then t c) as (c' & H); [exact V | unfold tstep; rewrite A, Z0 | |].
    { destruct (Z.eqb_spec 0 expected); [lia | reflexivity]. }
    { apply W; cbn [locals shared]; rewrite ?upd_same; [reflexivity | exact Z0]. }
    exists c'. split; [lia | exact H].
Qed.

(** ** The contract of the mutex *)

(** C1: mutual exclusion.  In every execution of any number of threads calling
    any operations, at most one thread is inside; the word holds that thread's
    id; and the recursion counter of a thread that holds the mutex between
    operations is the number of locks it has to give back. *)
Theorem mutex_mutual_exclusion k c (R : reachable tstep (mutex_init k) c) :
  (forall t u, valid_tid t -> valid_tid u ->
     0 < depth (locals c t) -> 0 < depth (locals c u) -> t = u) /\
  (forall t, valid_tid t ->
     (word_id (state (shared c)) = t <-> 0 < depth (locals c t)) /\
     (at_ (locals c t) = Idle -> 0 < holds (locals c t) ->
        recursion (shared c) = holds (locals c t))).
Proof.
  destruct (mutex_inv_reachable k c R) as [G O]. split.
  - intros t u Vt Vu Dt Du. destruct (O t Vt) as (_ & _ & Ot & _), (O u Vu) as (_ & _ & Ou & _).
    apply Ot in Dt. apply Ou in Du. unfold owns in *. congruence.
  - intros t V. destruct (O t V) as (_ & _ & Ow & Rc & _). split; [exact Ow |].
    intros A H. unfold rec_ok, depth in *. rewrite A in *. auto.
Qed.

(** Thread 1 holds the mutex and thread 2 sleeps on it. *)
Definition contended_schedule : list (Z * act) :=
  [(1, Call OpLock); (1, Run); (1, Run); (1, Run);
   (2, Call OpLock); (2, Run); (2, Run); (2, Run); (2, Run); (2, Run); (2, Run)].

Definition contended (k : Z) : config mutex local :=
  match exec tstep contended_schedule (mutex_init k) with
  | Some c => c
  | None => mutex_init k
  end.

Lemma contended_reachable k : reachable tstep (mutex_init k) (contended k).
Proof.
  unfold contended. destruct (exec tstep contended_schedule (mutex_init k)) eqn:E.
  - eapply exec_reachable. exact E.
  - apply rtc_refl.
Qed.

Lemma mutex_mutual_exclusion_witness :
  0 < depth (locals (contended 0) 1) /\ at_ (locals (contended 0) 2) = LockAsleep /\
  word_id (state (shared (contended 0))) = 1.
Proof.
  destruct (mutex_mutual_exclusion 0 (contended 0) (contended_reachable 0)) as [_ H].
  split; [vm_compute; reflexivity |]. split; [vm_compute; reflexivity |].
  apply (proj1 (H 1 ltac:(unfold valid_tid; lia))). vm_compute. reflexivity.
Defined.

(** C28: no lost wakeup.  When a thread sleeps on the mutex, another thread either
    is about to wake the sleepers, or is inside with the waiting flag set, so
    that its release will wake them. *)
Theorem mutex_no_lost_wakeup k c t (R : reachable tstep (mutex_init k) c)
    (Hs : t ∈ sleepers (shared c)) :
  exists u, valid_tid u /\ u <> t /\
    (at_ (locals c u) = UnlockWake \/
     (0 < depth (locals c u) /\ flagged (state (shared c)) = true)).
Proof.
  destruct (sleep_inv_reachable k c R) as [[G O] [S1 S2]].
  destruct (S1 t Hs) as [Vt At]. destruct (S2 t Hs) as [Neg | (u & Vu & Au)].
  - destruct (owner_of_negative _ G Neg) as (u & Vu & Ou). exists u. split; [exact Vu |].
    assert (AO : at_ok t (shared c) (locals c t)) by apply (O t Vt).
    unfold at_ok in AO. rewrite At in AO. split; [intros -> ; contradiction |].
    right. split; [apply (O u Vu), Ou |].
    unfold flagged. rewrite test_flag by (apply good_word_range, G). apply Z.ltb_lt, Neg.
  - exists u. split; [exact Vu |]. split; [congruence | tauto].
Qed.

Lemma mutex_no_lost_wakeup_witness :
  exists u, valid_tid u /\ u <> 2 /\
    (at_ (locals (contended 0) u) = UnlockWake \/
     (0 < depth (locals (contended 0) u) /\ flagged (state (shared (contended 0))) = true)).
Proof.
  apply (mutex_no_lost_wakeup 0 (contended 0) 2 (contended_reachable 0)).
  vm_compute. reflexivity.
Defined.

(** A thread in [manual_lock] that is not asleep acquires a free mutex.  Run
    alone it returns 0 as the owner after at most five accesses, from any point
    of the function, whatever stale value it has read. *)
Theorem mutex_lock_acquires k c t (R : reachable tstep (mutex_init k) c) (V : valid_tid t)
    (Hfree : state (shared c) = 0) (Hpc : can_lock (shared c) t (at_ (locals c t))) :
  exists n c', (n <= 5)%nat /\ exec tstep (repeat (t, Run) n) c = Some c' /\
    at_ (locals c' t) = Ret OpLock 0 /\ word_id (state (shared c')) = t.
Proof.
  destruct (solo_lock t c V (mutex_inv_reachable k c R) Hfree Hpc) as (n & c' & N & X & A & Sc).
  exists n, c'. rewrite Sc, word_id_plain by exact V. auto.
Qed.

(** Thread 1 has released the mutex and woken thread 2. *)
Definition released : config mutex local :=
  match exec tstep (contended_schedule ++ [(1, Call OpUnlock); (1, Run); (1, Run); (1, Run); (1, Run)])
          (mutex_init 0) with
  | Some c => c
  | None => mutex_init 0
  end.

Lemma mutex_lock_acquires_witness :
  exists n c', (n <= 5)%nat /\ exec tstep (repeat (2, Run) n) released = Some c' /\
    at_ (locals c' 2) = Ret OpLock 0 /\ word_id (state (shared c')) = 2.
Proof.
  apply (mutex_lock_acquires 0 released 2).
  - apply (exec_reachable tstep (contended_schedule ++
      [(1, Call OpUnlock); (1, Run); (1, Run); (1, Run); (1, Run)])). vm_compute. reflexivity.
  - unfold valid_tid. lia.
  - vm_compute. reflexivity.
  - vm_compute. intros H; discriminate H.
Defined.

(** A step that makes a call return EBUSY is the compare-exchange of a trylock
    that found another thread's id in the word. *)
Lemma ebusy_step t a m l m' l' o : tstep t a m l = Some (m', l') -> at_ l' = Ret o EBUSY ->
  o = OpTryLock /\ state m <> 0 /\ word_id (state m) <> t.
Proof.
  intros E A. destruct l as [p h]. unfold tstep in E. cbn [at_] in E.
  destruct a as [[] | |], p; try discriminate E;
    repeat match type of E with context [if ?b then _ else _] => destruct b eqn:? end;
    try discriminate E; injection E as <- <-; simpl in A;
    try (unfold own_again, not_owner in A; repeat match type of A with context [if ?b then _ else _] => destruct b end);
    try discriminate A.
  injection A as <-. split; [reflexivity |]. split; apply Z.eqb_neq; assumption.
Qed.

(** The word of a reachable mutex names a thread that holds it. *)
Lemma taken_by_holder k c : reachable tstep (mutex_init k) c -> state (shared c) <> 0 ->
  valid_tid (word_id (state (shared c))) /\ 0 < depth (locals c (word_id (state (shared c)))).
Proof.
  intros R N. destruct (mutex_inv_reachable k c R) as [G O].
  assert (V : valid_tid (word_id (state (shared c)))).
  { destruct G as [Z0 | (u & Vu & [E | E])]; [contradiction | |]; rewrite E.
    - rewrite word_id_plain by exact Vu. exact Vu.
    - rewrite word_id_flagged by (unfold valid_tid in Vu; lia). exact Vu. }
  split; [exact V |]. apply (O _ V). reflexivity.
Qed.

(** A trylock of the free mutex takes it. *)
Lemma try_lock_free t c : valid_tid t -> at_ (locals c t) = TryCas -> state (shared c) = 0 ->
  exists c', exec tstep [(t, Run); (t, Run)] c = Some c' /\
    at_ (locals c' t) = Ret OpTryLock 0 /\ word_id (state (shared c')) = t.
Proof.
  intros V A Z0. destruct c as [m f]. cbn [shared locals] in *. cbn [exec]. rewrite decide_True by exact V.
  unfold tstep at 1. cbn [shared locals]. rewrite A, Z0. cbn.
  unfold tstep. cbn [shared locals]. rewrite upd_same. cbn. rewrite decide_True by exact V. eexists. split; [reflexivity |].
  cbn. rewrite upd_same. split; [reflexivity | apply word_id_plain, V].
Qed.

(** C31: the results.  An operation that fails does so for the documented reason:
    a lock of an error-checking mutex the thread holds gives [EDEADLK], an unlock
    of a mutex the thread does not hold gives [EPERM], and the access after which
    a call returns [EBUSY] is that of a trylock while another thread holds the
    mutex; a trylock that finds the mutex free takes it and returns 0; and the
    library panics only on a second lock by the owner of a normal mutex or on an
    unlock of a normal mutex by a thread that does not hold it. *)
Theorem mutex_results k c t o r (R : reachable tstep (mutex_init k) c) (V : valid_tid t) :
  (at_ (locals c t) = Ret o r ->
     match o with
     | OpUnlock => (r = 0 /\ 0 < holds (locals c t)) \/
                   (r = EPERM /\ holds (locals c t) = 0 /\ k <> PTHREAD_MUTEX_NORMAL)
     | _ => (r = 0 /\ word_id (state (shared c)) = t) \/
            (r = EDEADLK /\ 0 < holds (locals c t) /\ k = PTHREAD_MUTEX_ERRORCHECK) \/
            (r = EBUSY /\ o = OpTryLock /\ holds (locals c t) = 0)
     end) /\
  (forall a m' l', tstep t a (shared c) (locals c t) = Some (m', l') -> at_ l' = Ret o EBUSY ->
     o = OpTryLock /\ exists u, valid_tid u /\ u <> t /\ word_id (state (shared c)) = u /\ 0 < depth (locals c u)) /\
  (at_ (locals c t) = TryCas -> state (shared c) = 0 ->
     exists c', exec tstep [(t, Run); (t, Run)] c = Some c' /\
       at_ (locals c' t) = Ret OpTryLock 0 /\ word_id (state (shared c')) = t) /\
  (at_ (locals c t) = Panic ->
     (0 < holds (locals c t) /\ k <> PTHREAD_MUTEX_RECURSIVE /\ k <> PTHREAD_MUTEX_ERRORCHECK) \/
     (holds (locals c t) = 0 /\ k = PTHREAD_MUTEX_NORMAL)).
Proof.
  destruct (mutex_inv_reachable k c R) as [G O]. destruct (O t V) as (H0 & _ & Ow & _ & AO).
  pose proof (kind_reachable k c R) as K. unfold at_ok, good_ret, owns in *.
  split; [| split; [| split]].
  - intros A. unfold depth in Ow. rewrite A in *. rewrite ?K in AO.
    destruct o; [| | exact AO]; destruct AO as [[-> H1] | AO]; try tauto;
      left; (split; [reflexivity |]); apply Ow; cbn; lia.
  - intros a m' l' E A. destruct (ebusy_step _ _ _ _ _ _ _ E A) as (-> & N & Nt). split; [reflexivity |].
    destruct (taken_by_holder k c R N) as [Vu D]. eauto.
  - apply try_lock_free, V.
  - intros A. rewrite A, K in AO. exact AO.
Qed.

(** Thread 2 tries to lock a mutex that thread 1 holds. *)
Definition busy_schedule : list (Z * act) :=
  [(1, Call OpTryLock); (1, Run); (1, Run); (1, Run); (2, Call OpTryLock)].
Definition busy : config mutex local :=
  match exec tstep busy_schedule (mutex_init 2) with Some c => c | None => mutex_init 2 end.

Lemma mutex_results_witness :
  exists u, valid_tid u /\ u <> 2 /\ word_id (state (shared busy)) = u /\ 0 < depth (locals busy u).
Proof.
  assert (R : reachable tstep (mutex_init 2) busy) by (apply (exec_reachable tstep busy_schedule); vm_compute; reflexivity).
  destruct (mutex_results 2 busy 2 OpTryLock EBUSY R) as (_ & B & _); [unfold valid_tid; lia |].
  refine (proj2 (B Run (shared busy) (goto (locals busy 2) (Ret OpTryLock EBUSY)) _ _)); vm_compute; reflexivity.
Defined.
