(* ===== verification/Ieee.v ===== *)
(** * Binary floating point

    The arithmetic the C code of [src/src/ansi/musl-math] is written in.  A
    floating point number is its bits, an unsigned integer, as in the unions
    and in [asuint64]/[asdouble] of [libm.h].  The operators are the ones of IEEE
    754 in the round-to-nearest-even mode: the exact result, rounded.  The
    exception flags are not part of the model ([FORCE_EVAL] only sets them), and
    every operation that produces a NaN produces the same quiet NaN.

    Values are counted in units of the smallest subnormal, so the value of every
    finite number is an integer ([mval], [fval]) and correctness statements are
    statements about integers. *)

From S2P Require Import Prelude.

#[local] Open Scope Z_scope.

Record fmt := { mbits : Z; ebits : Z }.

Definition F32 : fmt := {| mbits := 23; ebits := 8 |}.
Definition F64 : fmt := {| mbits := 52; ebits := 11 |}.

Class FmtOk (F : fmt) : Prop := {
  mbits_pos : 1 < mbits F;
  ebits_pos : 1 < ebits F;
  mbits_small : mbits F + 3 <= 2 ^ (ebits F - 1)
}.

#[export] Instance F32_ok : FmtOk F32.
Proof. split; simpl; lia. Qed.
#[export] Instance F64_ok : FmtOk F64.
Proof. split; simpl; lia. Qed.

Section Format.
Context (F : fmt).

Definition width : Z := mbits F + ebits F + 1.
Definition bias : Z := 2 ^ (ebits F - 1) - 1.
(** The exponent field of infinities and NaNs. *)
Definition emax : Z := 2 ^ ebits F - 1.
(** The exponent of the unit is [- eunit]. *)
Definition eunit : Z := bias + mbits F - 1.

Definition sgnbit : Z := 2 ^ (width - 1).
Definition inf_mag : Z := emax * 2 ^ mbits F.
Definition qnan : Z := inf_mag + 2 ^ (mbits F - 1).

Definition mag (x : Z) : Z := x mod sgnbit.
Definition sgn (x : Z) : bool := sgnbit <=? x.
Definition with_sgn (s : bool) (a : Z) : Z := if s then sgnbit + a else a.

Definition expo (a : Z) : Z := a / 2 ^ mbits F.
Definition frac (a : Z) : Z := a mod 2 ^ mbits F.

Definition isnan (x : Z) : bool := inf_mag <? mag x.
Definition isinf (x : Z) : bool := mag x =? inf_mag.
Definition isfinite (x : Z) : bool := mag x <? inf_mag.

(** Significand and exponent of a magnitude: its value is [m * 2 ^ k] units. *)
Definition decode (a : Z) : Z * Z :=
  if expo a =? 0 then (frac a, 0) else (2 ^ mbits F + frac a, expo a - 1).

Definition mval (a : Z) : Z := let '(m, k) := decode a in m * 2 ^ k.

(** The value; infinities are larger than every finite number. *)
Definition fval (x : Z) : Z := if sgn x then - mval (mag x) else mval (mag x).

(** Division by [2 ^ k] to nearest, ties to even. *)
Definition rne (n k : Z) : Z :=
  let q := Z.shiftr n k in
  let r := n - Z.shiftl q k in
  if (2 ^ k <? 2 * r) || ((2 * r =? 2 ^ k) && Z.odd q) then q + 1 else q.

(** The magnitude nearest to [n * 2 ^ k] units. *)
Definition round_mag (n k : Z) : Z :=
  let j := Z.max 0 (Z.log2 n + k - mbits F) in
  let m := if j <=? k then Z.shiftl n (k - j) else rne n (j - k) in
  Z.min inf_mag (m + j * 2 ^ mbits F).

Definition fneg (x : Z) : Z := if sgn x then x - sgnbit else x + sgnbit.

Definition fadd (x y : Z) : Z :=
  if isnan x || isnan y then qnan
  else if isinf x then if isinf y && negb (Bool.eqb (sgn x) (sgn y)) then qnan else x
  else if isinf y then y
  else
    let v := fval x + fval y in
    if v =? 0 then with_sgn (sgn x && sgn y) 0
    else with_sgn (v <? 0) (round_mag (Z.abs v) 0).

Definition fsub (x y : Z) : Z := fadd x (fneg y).

Definition fmul (x y : Z) : Z :=
  let s := xorb (sgn x) (sgn y) in
  if isnan x || isnan y then qnan
  else if isinf x || isinf y then
    if (mag x =? 0) || (mag y =? 0) then qnan else with_sgn s inf_mag
  else
    let '(m1, k1) := decode (mag x) in
    let '(m2, k2) := decode (mag y) in
    if (m1 =? 0) || (m2 =? 0) then with_sgn s 0
    else with_sgn s (round_mag (m1 * m2) (k1 + k2 - eunit)).

(** The quotient is computed to more than twice the precision, with a last bit
    that says whether it is exact. *)
Definition fdiv (x y : Z) : Z :=
  let s := xorb (sgn x) (sgn y) in
  if isnan x || isnan y then qnan
  else if isinf x then if isinf y then qnan else with_sgn s inf_mag
  else if isinf y then with_sgn s 0
  else if mag y =? 0 then if mag x =? 0 then qnan else with_sgn s inf_mag
  else
    let '(m1, k1) := decode (mag x) in
    let '(m2, k2) := decode (mag y) in
    if m1 =? 0 then with_sgn s 0
    else
      let extra := 2 * mbits F + 4 in
      let n := m1 * 2 ^ extra in
      let q := n / m2 in
      let sticky := if n mod m2 =? 0 then 0 else 1 in
      with_sgn s (round_mag (2 * q + sticky) (k1 - k2 - extra - 1 + eunit)).

Definition flt (x y : Z) : bool := negb (isnan x) && negb (isnan y) && (fval x <? fval y).
Definition fle (x y : Z) : bool := negb (isnan x) && negb (isnan y) && (fval x <=? fval y).
Definition feq (x y : Z) : bool := negb (isnan x) && negb (isnan y) && (fval x =? fval y).

(** Conversion of an integer to the format, and to an integer towards zero. *)
Definition of_int (z : Z) : Z :=
  if z =? 0 then 0 else with_sgn (z <? 0) (round_mag (Z.abs z) eunit).

Definition to_int (x : Z) : Z := Z.quot (fval x) (2 ^ eunit).
End Format.

(** Conversion between formats. *)
Definition fcvt (F G : fmt) (x : Z) : Z :=
  if isnan F x then qnan G
  else if isinf F x then with_sgn G (sgn F x) (inf_mag G)
  else
    let '(m, k) := decode F (mag F x) in
    if m =? 0 then with_sgn G (sgn F x) 0
    else with_sgn G (sgn F x) (round_mag G m (k - eunit F + eunit G)).

(** 0.1 + 0.2, 1/3, 2^63 - 1 and a subnormal product in double precision. *)
Example fadd_tenths : fadd F64 0x3fb999999999999a 0x3fc999999999999a = 0x3fd3333333333334.
Proof. reflexivity. Qed.
Example fdiv_third : fdiv F64 0x3ff0000000000000 0x4008000000000000 = 0x3fd5555555555555.
Proof. reflexivity. Qed.
Example of_int_llong_max : of_int F64 (2 ^ 63 - 1) = 0x43e0000000000000.
Proof. reflexivity. Qed.
Example fmul_subnormal : fmul F64 0x0010000000000000 0x3ff8000000000000 = 0x0018000000000000 /\
  fmul F64 0x0010000000000001 0x3fe0000000000000 = 0x0008000000000000.
Proof. split; reflexivity. Qed.
Example fcvt_third : fcvt F64 F32 0x3fd5555555555555 = 0x3eaaaaab.
Proof. reflexivity. Qed.

(** ** Magnitudes *)

Section Facts.
Context (F : fmt) {HF : FmtOk F}.

Lemma mbits_gt : 1 < mbits F.
Proof using HF. apply HF. Qed.
Lemma ebits_gt : 1 < ebits F.
Proof using HF. apply HF. Qed.

Lemma pow_m_pos : 2 <= 2 ^ mbits F.
Proof using HF. pose proof mbits_gt. apply (Z.pow_le_mono_r 2 1); lia. Qed.

Lemma pow_e_ge : 4 <= 2 ^ ebits F.
Proof using HF. pose proof ebits_gt. apply (Z.pow_le_mono_r 2 2); lia. Qed.

Lemma sgnbit_eq : sgnbit F = 2 ^ ebits F * 2 ^ mbits F.
Proof using HF.
  pose proof mbits_gt. pose proof ebits_gt. unfold sgnbit, width.
  rewrite <- Z.pow_add_r by lia. f_equal. lia.
Qed.

Lemma width_eq : 2 ^ width F = 2 * sgnbit F.
Proof using HF.
  pose proof mbits_gt. pose proof ebits_gt. unfold sgnbit, width.
  rewrite <- Z.pow_succ_r by lia. f_equal. lia.
Qed.

Lemma inf_lt_sgnbit : 0 < inf_mag F /\ inf_mag F + 2 ^ mbits F = sgnbit F.
Proof using HF.
  pose proof pow_m_pos. pose proof pow_e_ge. rewrite sgnbit_eq. unfold inf_mag, emax. nia.
Qed.

Lemma eunit_pos : 0 < eunit F.
Proof using HF.
  pose proof mbits_gt. pose proof ebits_gt. unfold eunit, bias.
  pose proof (Z.pow_pos_nonneg 2 (ebits F - 1)). lia.
Qed.

Lemma mag_range x : 0 <= mag F x < sgnbit F.
Proof using HF. pose proof inf_lt_sgnbit. pose proof pow_m_pos. apply Z.mod_pos_bound. lia. Qed.

Lemma with_sgn_mag_sgn s a : 0 <= a < sgnbit F ->
  mag F (with_sgn F s a) = a /\ sgn F (with_sgn F s a) = s /\ is_u (width F) (with_sgn F s a).
Proof using HF.
  intros H. unfold mag, sgn, with_sgn, is_u. rewrite width_eq. destruct s.
  - split; [| split; [apply Z.leb_le; lia | lia]].
    replace (sgnbit F + a) with (a + 1 * sgnbit F) by lia.
    rewrite Z.mod_add by lia. apply Z.mod_small. lia.
  - split; [apply Z.mod_small; lia | split; [apply Z.leb_gt; lia | lia]].
Qed.

Lemma with_sgn_split x : is_u (width F) x -> with_sgn F (sgn F x) (mag F x) = x.
Proof using HF.
  unfold is_u, with_sgn, sgn, mag. rewrite width_eq. intros H.
  destruct (Z.leb_spec (sgnbit F) x).
  - rewrite <- (Z.mod_add x (-1)) by lia. rewrite Z.mod_small; lia.
  - apply Z.mod_small. lia.
Qed.

Lemma expo_frac a : 0 <= a -> a = expo F a * 2 ^ mbits F + frac F a /\
  0 <= expo F a /\ 0 <= frac F a < 2 ^ mbits F.
Proof using HF.
  intros H. pose proof pow_m_pos. unfold expo, frac.
  pose proof (Z.mod_pos_bound a (2 ^ mbits F)). pose proof (Z.div_pos a (2 ^ mbits F)).
  rewrite (Z.div_mod a (2 ^ mbits F)) at 1 by lia. lia.
Qed.

(** The significand and exponent of a magnitude, and back. *)
Lemma decode_spec a m k : 0 <= a -> decode F a = (m, k) ->
  a = m + k * 2 ^ mbits F /\ 0 <= k /\ 0 <= m < 2 * 2 ^ mbits F /\
  (0 < k -> 2 ^ mbits F <= m) /\ (a < 2 ^ mbits F -> k = 0 /\ m = a).
Proof using HF.
  intros Ha. unfold decode. destruct (expo_frac a Ha) as (E & E0 & Hf).
  pose proof pow_m_pos. destruct (Z.eqb_spec (expo F a) 0) as [Z0 | N]; intros [= <- <-].
  - rewrite Z0 in E. lia.
  - split; [lia |]. split; [lia |]. split; [lia |]. split; [lia | nia].
Qed.

Lemma mval_decode a m k : decode F a = (m, k) -> mval F a = m * 2 ^ k.
Proof using. unfold mval. intros ->. reflexivity. Qed.

Lemma mval_nonneg a : 0 <= a -> 0 <= mval F a.
Proof using HF.
  intros Ha. destruct (decode F a) as [m k] eqn:D. rewrite (mval_decode a m k D).
  destruct (decode_spec a m k Ha D) as (_ & K & M & _). nia.
Qed.

Lemma mval_small a : 0 <= a < 2 ^ mbits F -> mval F a = a.
Proof using HF.
  intros Ha. destruct (decode F a) as [m k] eqn:D. rewrite (mval_decode a m k D).
  destruct (decode_spec a m k ltac:(lia) D) as (_ & _ & _ & _ & Sm).
  destruct Sm as [-> ->]; lia.
Qed.

(** The magnitude written from significand and exponent. *)
Lemma mval_build m k : 0 <= k -> 0 <= m < 2 * 2 ^ mbits F -> (0 < k -> 2 ^ mbits F <= m) ->
  mval F (m + k * 2 ^ mbits F) = m * 2 ^ k.
Proof using HF.
  intros Hk Hm Hn. pose proof pow_m_pos as P. unfold mval, decode, expo, frac.
  rewrite Z.div_add, Z.mod_add by lia.
  destruct (Z.lt_ge_cases m (2 ^ mbits F)) as [L | G].
  - assert (k = 0) as -> by lia. rewrite (Z.div_small m), (Z.mod_small m) by lia. reflexivity.
  - assert (Q : m / 2 ^ mbits F = 1).
    { symmetry. apply (Z.div_unique m (2 ^ mbits F) 1 (m - 2 ^ mbits F)); lia. }
    assert (R : m mod 2 ^ mbits F = m - 2 ^ mbits F) by (rewrite Z.mod_eq, Q; lia).
    rewrite Q, R. destruct (Z.eqb_spec (1 + k) 0); [lia |]. f_equal; [lia | f_equal; lia].
Qed.

(** Consecutive magnitudes differ by one unit in the last place. *)
Lemma mval_succ a m k : 0 <= a -> decode F a = (m, k) -> mval F (a + 1) = mval F a + 2 ^ k.
Proof using HF.
  intros Ha D. rewrite (mval_decode a m k D).
  destruct (decode_spec a m k Ha D) as (E & K & M & Nm & _). pose proof pow_m_pos.
  destruct (Z.eq_dec (m + 1) (2 * 2 ^ mbits F)) as [Top | N].
  - replace (a + 1) with (2 ^ mbits F + (k + 1) * 2 ^ mbits F) by lia.
    rewrite mval_build by lia. rewrite Z.pow_add_r by lia. nia.
  - replace (a + 1) with ((m + 1) + k * 2 ^ mbits F) by lia.
    rewrite mval_build by lia. lia.
Qed.

Lemma mval_step a : 0 <= a -> mval F a < mval F (a + 1).
Proof using HF.
  intros Ha. destruct (decode F a) as [m k] eqn:D. rewrite (mval_succ a m k Ha D).
  destruct (decode_spec a m k Ha D) as (_ & K & _). pose proof (Z.pow_pos_nonneg 2 k). lia.
Qed.

(** The order of magnitudes is the order of their values. *)
Lemma mval_mono a b : 0 <= a < b -> mval F a < mval F b.
Proof using HF.
  intros [Ha Hb]. replace b with (a + 1 + (b - a - 1)) by lia.
  assert (Hd : 0 <= b - a - 1) by lia. revert Hd. generalize (b - a - 1). clear b Hb.
  apply natlike_ind.
  - rewrite Z.add_0_r. apply mval_step, Ha.
  - intros d Hd IH. replace (a + 1 + Z.succ d) with (a + 1 + d + 1) by lia.
    pose proof (mval_step (a + 1 + d)). lia.
Qed.

Lemma mval_lt_iff a b : 0 <= a -> 0 <= b -> (mval F a < mval F b <-> a < b).
Proof using HF.
  intros Ha Hb. split; [| intros; apply mval_mono; lia].
  intros H. destruct (Z.lt_trichotomy a b) as [L | [-> | G]]; [exact L | lia |].
  pose proof (mval_mono b a). lia.
Qed.

Lemma mval_inj a b : 0 <= a -> 0 <= b -> mval F a = mval F b -> a = b.
Proof using HF.
  intros Ha Hb E. destruct (Z.lt_trichotomy a b) as [L | [H | G]]; [| exact H |].
  - pose proof (mval_mono a b). lia.
  - pose proof (mval_mono b a). lia.
Qed.

Lemma mval_0 : mval F 0 = 0.
Proof using HF. apply mval_small. pose proof pow_m_pos. lia. Qed.

(** ** Rounding *)

Lemma rne_eq n k : 0 <= k ->
  rne n k = let q := n / 2 ^ k in let r := n mod 2 ^ k in
            if (2 ^ k <? 2 * r) || ((2 * r =? 2 ^ k) && Z.odd q) then q + 1 else q.
Proof using.
  intros Hk. unfold rne. rewrite Z.shiftr_div_pow2, Z.shiftl_mul_pow2 by exact Hk.
  rewrite (Z.mod_eq n) by (pose proof (Z.pow_pos_nonneg 2 k); lia).
  rewrite (Z.mul_comm (2 ^ k)). reflexivity.
Qed.

Lemma rne_exact m k : 0 <= k -> rne (m * 2 ^ k) k = m.
Proof using.
  intros Hk. pose proof (Z.pow_pos_nonneg 2 k ltac:(lia) Hk) as P. rewrite rne_eq by exact Hk.
  rewrite Z.div_mul, Z.mod_mul by lia. cbv zeta.
  destruct (Z.ltb_spec (2 ^ k) (2 * 0)); [lia |].
  destruct (Z.eqb_spec (2 * 0) (2 ^ k)); [lia | reflexivity].
Qed.

(** Nearest, and even on a tie. *)
Lemma rne_nearest n k : 0 <= k ->
  2 * Z.abs (n - rne n k * 2 ^ k) <= 2 ^ k /\
  (2 * Z.abs (n - rne n k * 2 ^ k) = 2 ^ k -> Z.even (rne n k) = true).
Proof using.
  intros Hk. pose proof (Z.pow_pos_nonneg 2 k ltac:(lia) Hk) as P. rewrite rne_eq by exact Hk.
  cbv zeta. pose proof (Z.div_mod n (2 ^ k) ltac:(lia)) as D.
  pose proof (Z.mod_pos_bound n (2 ^ k) P) as R.
  set (q := n / 2 ^ k) in *. set (r := n mod 2 ^ k) in *.
  destruct (Z.ltb_spec (2 ^ k) (2 * r)) as [G | L]; simpl orb.
  - split; nia.
  - destruct (Z.eqb_spec (2 * r) (2 ^ k)) as [T | NT]; simpl andb.
    + destruct (Z.odd q) eqn:O; (split; [nia |]); intros _.
      * rewrite Z.add_1_r, Z.even_succ. exact O.
      * rewrite <- Z.negb_odd, O. reflexivity.
    + split; nia.
Qed.

(** Rounding half the way up or more is at most one step. *)
Lemma rne_bounds n k : 0 <= k -> n / 2 ^ k <= rne n k <= n / 2 ^ k + 1.
Proof using.
  intros Hk. rewrite rne_eq by exact Hk. cbv zeta.
  destruct ((2 ^ k <? _) || _); lia.
Qed.

(** A representable value is not changed by rounding. *)
Lemma round_mag_exact n k a : 0 < n -> 0 <= a < inf_mag F ->
  n * 2 ^ Z.max 0 k = mval F a * 2 ^ Z.max 0 (- k) -> round_mag F n k = a.
Proof using HF.
  intros Hn Ha E. destruct (decode F a) as [m e] eqn:D.
  destruct (decode_spec a m e ltac:(lia) D) as (Ea & He & Hm & Nm & _).
  rewrite (mval_decode a m e D) in E. pose proof mbits_gt as Mb. pose proof pow_m_pos as Pm.
  assert (Pk : 0 < 2 ^ Z.max 0 k) by (apply Z.pow_pos_nonneg; lia).
  assert (Pk' : 0 < 2 ^ Z.max 0 (- k)) by (apply Z.pow_pos_nonneg; lia).
  assert (Pe : 0 < 2 ^ e) by (apply Z.pow_pos_nonneg; lia).
  assert (M0 : 0 < m) by nia.
  assert (Lg : Z.log2 n + k = Z.log2 m + e).
  { apply (f_equal Z.log2) in E. rewrite <- !Z.mul_assoc in E.
    rewrite <- Z.pow_add_r in E by lia.
    rewrite !Z.log2_mul_pow2 in E by lia. lia. }
  assert (Lm : Z.log2 m <= mbits F).
  { apply Z.lt_succ_r, Z.log2_lt_pow2; [lia |]. rewrite Z.pow_succ_r by lia. lia. }
  assert (J : Z.max 0 (Z.log2 n + k - mbits F) = e).
  { rewrite Lg. destruct (Z.eq_dec e 0) as [-> | Ne]; [lia |].
    assert (mbits F <= Z.log2 m) by (apply Z.log2_le_pow2; lia). lia. }
  unfold round_mag. rewrite J.
  assert (Sig : (if e <=? k then Z.shiftl n (k - e) else rne n (e - k)) = m).
  { destruct (Z.leb_spec e k) as [L | G].
    - rewrite Z.shiftl_mul_pow2 by lia. rewrite Z.max_r, Z.max_l, Z.pow_0_r in E by lia.
      apply (Z.mul_reg_r _ _ (2 ^ e)); [lia |]. rewrite <- Z.mul_assoc, <- Z.pow_add_r by lia.
      replace (k - e + e) with k by lia. lia.
    - assert (N : n = m * 2 ^ (e - k)).
      { apply (Z.mul_reg_r _ _ (2 ^ Z.max 0 k)); [lia |].
        rewrite E, <- !Z.mul_assoc, <- !Z.pow_add_r by lia. f_equal. f_equal. lia. }
      rewrite N. apply rne_exact. lia. }
  rewrite Sig. lia.
Qed.

(** The two ways it is used: an exact sum, and an exact product. *)
Lemma round_mag_exact0 n a : 0 < n -> 0 <= a < inf_mag F -> n = mval F a -> round_mag F n 0 = a.
Proof using HF. intros Hn Ha E. apply round_mag_exact; try assumption. change (n * 1 = mval F a * 1). lia. Qed.
End Facts.
