(* ===== verification/MathBits.v ===== *)
(** * Floating point functions on the bits

    The functions of [src/src/ansi/musl-math] that work on the representation:
    classification, sign, rounding to integers, splitting, scaling, neighbours
    and remainders.  The [double] and [float] versions of most of them are the
    same code with other constants; such a pair is one definition over the
    format, with the constants of the source written as the format's widths, and
    the two functions are its instances. *)

From S2P Require Import Prelude Ieee.

#[local] Open Scope Z_scope.

Definition FP_NAN : Z := 0.
Definition FP_INFINITE : Z := 1.
Definition FP_ZERO : Z := 2.
Definition FP_SUBNORMAL : Z := 3.
Definition FP_NORMAL : Z := 4.
Definition FP_ILOGBNAN : Z := -1 - 0x7FFFFFFF.
Definition FP_ILOGB0 : Z := FP_ILOGBNAN.

Section Gen.
Context (F : fmt).

Abbreviation W := (width F).
Abbreviation MB := (mbits F).

(** [-1ULL >> n], [x << n] and [u.i >> 52 & 0x7ff]. *)
Definition ones_shr (n : Z) : Z := Z.shiftr (umax W) n.
Definition shl (x n : Z) : Z := wrapu W (Z.shiftl x n).
Definition efield (x : Z) : Z := Z.land (Z.shiftr x MB) (emax F).

Definition fpclassify_gen (x : Z) : Z :=
  let e := efield x in
  if e =? 0 then if shl x 1 =? 0 then FP_ZERO else FP_SUBNORMAL
  else if e =? emax F then if shl x (W - MB) =? 0 then FP_INFINITE else FP_NAN
  else FP_NORMAL.

Definition signbit_gen (x : Z) : Z := Z.shiftr x (W - 1).

Definition copysign_gen (x y : Z) : Z :=
  Z.lor (Z.land x (umax W / 2)) (Z.land y (Z.shiftl 1 (W - 1))).

Definition fabs_gen (x : Z) : Z := Z.land x (umax W / 2).

Definition fmax_gen (x y : Z) : Z :=
  if isnan F x then y
  else if isnan F y then x
  else if negb (Bool.eqb (sgn F x) (sgn F y)) then if sgn F x then y else x
  else if flt F x y then y else x.

Definition fmin_gen (x y : Z) : Z :=
  if isnan F x then y
  else if isnan F y then x
  else if negb (Bool.eqb (sgn F x) (sgn F y)) then if sgn F x then x else y
  else if flt F x y then x else y.

Definition fdim_gen (x y : Z) : Z :=
  if isnan F x then x
  else if isnan F y then y
  else if flt F y x then fsub F x y else 0.

Definition trunc_gen (x : Z) : Z :=
  let e := efield x - bias F + (W - MB) in
  if MB + (W - MB) <=? e then x
  else
    let e := if e <? W - MB then 1 else e in
    let m := ones_shr e in
    if Z.land x m =? 0 then x else Z.ldiff x m.

(** [toint] is [1/EPS]. *)
Definition toint : Z := of_int F (2 ^ MB).

Definition rint_gen (x : Z) : Z :=
  let e := efield x in
  let s := Z.shiftr x (W - 1) in
  if bias F + MB <=? e then x
  else
    let y := if negb (s =? 0) then fadd F (fsub F x toint) toint
             else fsub F (fadd F x toint) toint in
    if feq F y 0 then (if negb (s =? 0) then sgnbit F else 0) else y.

Definition round_gen (x0 : Z) : Z :=
  let u := x0 in
  let e := efield u in
  let neg := negb (Z.shiftr u (W - 1) =? 0) in
  let one := of_int F 1 in
  let half := fdiv F one (of_int F 2) in
  if bias F + MB <=? e then x0
  else
    let x := if neg then fneg F x0 else x0 in
    if e <? bias F - 1 then fmul F 0 u
    else
      let y := fsub F (fsub F (fadd F x toint) toint) x in
      let y := if flt F half y then fsub F (fadd F y x) one
               else if fle F y (fneg F half) then fadd F (fadd F y x) one
               else fadd F y x in
      if neg then fneg F y else y.

(** [0x1p64] in the format. *)
Definition two64 : Z := of_int F (2 ^ 64).

(** The recursive call is made once, on a normal number. *)
Fixpoint frexp_gen (depth : nat) (x : Z) : Z * Z :=
  let ee := efield x in
  if ee =? 0 then
    match depth with
    | O => (x, 0)
    | S d => if negb (feq F x 0)
             then let '(r, e) := frexp_gen d (fmul F x two64) in (r, e - 64)
             else (x, 0)
    end
  else if ee =? emax F then (x, 0)
  else
    let i := Z.land x (Z.lor (Z.shiftl 1 (W - 1)) (2 ^ MB - 1)) in
    (Z.lor i (Z.shiftl (bias F - 1) MB), ee - (bias F - 1)).

(** The fractional part and the integral part. *)
Definition modf_gen (x : Z) : Z * Z :=
  let e := efield x - bias F in
  let signed_zero := Z.land x (Z.shiftl 1 (W - 1)) in
  if MB <=? e then
    if (e =? bias F + 1) && negb (shl x (W - MB) =? 0) then (x, x) else (signed_zero, x)
  else if e <? 0 then (x, signed_zero)
  else
    let mask := Z.shiftr (ones_shr (W - MB)) e in
    if Z.land x mask =? 0 then (signed_zero, x)
    else let i := Z.ldiff x mask in (fsub F x i, i).

(** [0x1p1023], and [0x1p-1022 * 0x1p53]. *)
Definition scale_up : Z := Z.shiftl (2 * bias F) MB.
Definition scale_down : Z := Z.shiftl (1 + MB + 1) MB.

Definition scalbn_gen (x n : Z) : Z :=
  let lim := bias F in
  let '(y, n) :=
    if lim <? n then
      let '(y, n) := (fmul F x scale_up, n - lim) in
      if lim <? n then
        let '(y, n) := (fmul F y scale_up, n - lim) in
        (y, if lim <? n then lim else n)
      else (y, n)
    else if n <? - (lim - 1) then
      let '(y, n) := (fmul F x scale_down, n + (lim - 1) - (MB + 1)) in
      if n <? - (lim - 1) then
        let '(y, n) := (fmul F y scale_down, n + (lim - 1) - (MB + 1)) in
        (y, if n <? - (lim - 1) then - (lim - 1) else n)
      else (y, n)
    else (x, n) in
  fmul F y (Z.shiftl (bias F + n) MB).

Definition nextafter_gen (x y : Z) : Z :=
  if isnan F x || isnan F y then fadd F x y
  else if x =? y then y
  else
    let ax := Z.land x (umax W / 2) in
    let ay := Z.land y (umax W / 2) in
    if ax =? 0 then
      if ay =? 0 then y else Z.lor (Z.land y (Z.shiftl 1 (W - 1))) 1
    else if (ay <? ax) || negb (Z.land (Z.lxor x y) (Z.shiftl 1 (W - 1)) =? 0)
    then wrapu W (x - 1)
    else wrapu W (x + 1).

(** [for (e = ..; i>>63 == 0; e--, i<<=1)]. *)
Fixpoint norm_loop (fuel : nat) (i e : Z) : Z :=
  match fuel with
  | O => e
  | S f => if Z.shiftr i (W - 1) =? 0 then norm_loop f (shl i 1) (e - 1) else e
  end.

Definition ilogb_gen (x : Z) : Z :=
  let e := efield x in
  if e =? 0 then
    let i := shl x (W - MB) in
    if i =? 0 then FP_ILOGB0 else norm_loop (Z.to_nat W) i (- bias F)
  else if e =? emax F then
    if negb (shl x (W - MB) =? 0) then FP_ILOGBNAN else smax 32
  else e - bias F.

Definition logb_gen (x : Z) : Z :=
  if negb (isfinite F x) then fmul F x x
  else if feq F x 0 then fdiv F (of_int F (-1)) (fmul F x x)
  else of_int F (ilogb_gen x).

(** The significand shifted up to its normal place, and its exponent. *)
Definition normalize_gen (x ex : Z) : Z * Z :=
  if ex =? 0 then
    let ex := norm_loop (Z.to_nat W) (shl x (W - MB)) ex in (shl x (- ex + 1), ex)
  else (Z.lor (Z.land x (ones_shr (W - MB))) (Z.shiftl 1 MB), ex).

(** [n] is [ex - ey]; [None] is the return of a zero. *)
Fixpoint fmod_loop (n : nat) (uxi uyi : Z) : option Z :=
  let i := wrapu W (uxi - uyi) in
  let next u := match n with O => Some u | S n' => fmod_loop n' (shl u 1) uyi end in
  if Z.shiftr i (W - 1) =? 0 then if i =? 0 then None else next i else next uxi.

(** [for (; uxi>>52 == 0; uxi <<= 1, ex--)]. *)
Fixpoint renorm_loop (fuel : nat) (uxi ex : Z) : Z * Z :=
  match fuel with
  | O => (uxi, ex)
  | S f => if Z.shiftr uxi MB =? 0 then renorm_loop f (shl uxi 1) (ex - 1) else (uxi, ex)
  end.

Definition scale_result (uxi ex : Z) : Z :=
  if 0 <? ex then Z.lor (wrapu W (uxi - Z.shiftl 1 MB)) (Z.shiftl ex MB)
  else Z.shiftr uxi (- ex + 1).

Definition fmod_gen (x y : Z) : Z :=
  let ex := efield x in
  let ey := efield y in
  if (shl y 1 =? 0) || isnan F y || (ex =? emax F)
  then fdiv F (fmul F x y) (fmul F x y)
  else if shl x 1 <=? shl y 1 then
    if shl x 1 =? shl y 1 then fmul F 0 x else x
  else
    let '(uxi, ex) := normalize_gen x ex in
    let '(uyi, ey) := normalize_gen y ey in
    match fmod_loop (Z.to_nat (ex - ey)) uxi uyi with
    | None => fmul F 0 x
    | Some uxi =>
        let '(uxi, ex) := renorm_loop (Z.to_nat W) uxi ey in
        Z.lor (scale_result uxi ex) (Z.shiftl (Z.shiftr x (W - 1)) (W - 1))
    end.

(** [remquo]: the division loop with the quotient bits [q]. *)
Fixpoint remquo_loop (n : nat) (uxi uyi q : Z) : Z * Z :=
  let i := wrapu W (uxi - uyi) in
  let '(u, q) := if Z.shiftr i (W - 1) =? 0 then (i, u32 (q + 1)) else (uxi, q) in
  match n with
  | O => (u, q)
  | S n' => remquo_loop n' (shl u 1) uyi (u32 (Z.shiftl q 1))
  end.

(** From [end:] on: [x] is the scaled remainder. *)
Definition remquo_end (uxi ex ey q : Z) (sx sy : bool) (y : Z) : Z * Z :=
  let x := scale_result uxi ex in
  let y := if sy then fneg F y else y in
  let twice := fmul F (of_int F 2) x in
  let '(x, q) :=
    if (ex =? ey) || ((ex + 1 =? ey) && (flt F y twice || (feq F twice y && Z.odd q)))
    then (fsub F x y, u32 (q + 1)) else (x, q) in
  let q := Z.land q 0x7fffffff in
  ((if sx then fneg F x else x), (if xorb sx sy then - q else q)).

(** The remainder and [*quo]; [tiny] is the exponent given to a zero. *)
Definition remquo_gen (tiny x y : Z) : Z * Z :=
  let ex := efield x in
  let ey := efield y in
  let sx := negb (Z.shiftr x (W - 1) =? 0) in
  let sy := negb (Z.shiftr y (W - 1) =? 0) in
  if (shl y 1 =? 0) || isnan F y || (ex =? emax F)
  then (fdiv F (fmul F x y) (fmul F x y), 0)
  else if shl x 1 =? 0 then (x, 0)
  else
    let '(uxi, ex) := normalize_gen x ex in
    let '(uyi, ey) := normalize_gen y ey in
    if ex <? ey then
      if ex + 1 =? ey then remquo_end uxi ex ey 0 sx sy y else (x, 0)
    else
      let '(uxi, q) := remquo_loop (Z.to_nat (ex - ey)) uxi uyi 0 in
      let '(uxi, ex) := if uxi =? 0 then (uxi, tiny)
                        else renorm_loop (Z.to_nat W) uxi ey in
      remquo_end uxi ex ey q sx sy y.
End Gen.

(** ** The functions *)

Definition __fpclassify : Z -> Z := fpclassify_gen F64.
Definition __fpclassifyf : Z -> Z := fpclassify_gen F32.
Definition __signbit : Z -> Z := signbit_gen F64.
Definition __signbitf : Z -> Z := signbit_gen F32.
Definition finite (x : Z) : bool := FP_INFINITE <? __fpclassify x.
Definition finitef (x : Z) : bool := FP_INFINITE <? __fpclassifyf x.
Definition copysign : Z -> Z -> Z := copysign_gen F64.
Definition copysignf : Z -> Z -> Z := copysign_gen F32.
Definition fabs : Z -> Z := fabs_gen F64.
Definition fabsf : Z -> Z := fabs_gen F32.
Definition fmax : Z -> Z -> Z := fmax_gen F64.
Definition fmaxf : Z -> Z -> Z := fmax_gen F32.
Definition fmin : Z -> Z -> Z := fmin_gen F64.
Definition fminf : Z -> Z -> Z := fmin_gen F32.
Definition fdim : Z -> Z -> Z := fdim_gen F64.
Definition fdimf : Z -> Z -> Z := fdim_gen F32.
Definition trunc : Z -> Z := trunc_gen F64.
Definition truncf : Z -> Z := trunc_gen F32.
Definition rint : Z -> Z := rint_gen F64.
Definition rintf : Z -> Z := rint_gen F32.
(** [nearbyint] only keeps the inexact flag as it was. *)
Definition nearbyint (x : Z) : Z := rint x.
Definition nearbyintf (x : Z) : Z := rintf x.
Definition round : Z -> Z := round_gen F64.
Definition roundf : Z -> Z := round_gen F32.
Definition frexp : Z -> Z * Z := frexp_gen F64 1.
(** The product with [0x1p64] is computed in double precision; it is exact. *)
Definition frexpf : Z -> Z * Z := frexp_gen F32 1.
Definition modf : Z -> Z * Z := modf_gen F64.
Definition modff : Z -> Z * Z := modf_gen F32.
Definition scalbn : Z -> Z -> Z := scalbn_gen F64.
Definition scalbnf : Z -> Z -> Z := scalbn_gen F32.
Definition ldexp (x n : Z) : Z := scalbn x n.
Definition ldexpf (x n : Z) : Z := scalbnf x n.
Definition clamp_int (n : Z) : Z :=
  if smax 32 <? n then smax 32 else if n <? smin 32 then smin 32 else n.
Definition scalbln (x n : Z) : Z := scalbn x (clamp_int n).
Definition scalblnf (x n : Z) : Z := scalbnf x (clamp_int n).
Definition nextafter : Z -> Z -> Z := nextafter_gen F64.
Definition nextafterf : Z -> Z -> Z := nextafter_gen F32.
Definition ilogb : Z -> Z := ilogb_gen F64.
Definition ilogbf : Z -> Z := ilogb_gen F32.
Definition logb : Z -> Z := logb_gen F64.
Definition logbf : Z -> Z := logb_gen F32.
(** [-ilogb(x)] is computed in [int]. *)
Definition significand (x : Z) : Z := scalbn x (s32 (- ilogb x)).
Definition significandf (x : Z) : Z := scalbnf x (s32 (- ilogbf x)).
Definition fmod : Z -> Z -> Z := fmod_gen F64.
Definition fmodf : Z -> Z -> Z := fmod_gen F32.
Definition remquo : Z -> Z -> Z * Z := remquo_gen F64 (-60).
Definition remquof : Z -> Z -> Z * Z := remquo_gen F32 (-30).
Definition remainder (x y : Z) : Z := fst (remquo x y).
Definition remainderf (x y : Z) : Z := fst (remquof x y).

(** The conversion to [long] is defined for results in range. *)
Definition to_long (F : fmt) (x : Z) : option Z :=
  if isfinite F x && (smin 64 <=? to_int F x) && (to_int F x <=? smax 64)
  then Some (to_int F x) else None.
Definition lrint (x : Z) : option Z := to_long F64 (rint x).
Definition lrintf (x : Z) : option Z := to_long F32 (rintf x).
Definition llrint (x : Z) : option Z := to_long F64 (rint x).
Definition llrintf (x : Z) : option Z := to_long F32 (rintf x).
Definition lround (x : Z) : option Z := to_long F64 (round x).
Definition lroundf (x : Z) : option Z := to_long F32 (roundf x).
Definition llround (x : Z) : option Z := to_long F64 (round x).
Definition llroundf (x : Z) : option Z := to_long F32 (roundf x).

(** [floor] and [ceil] of doubles go through [toint]. *)
Definition int_neighbour (x : Z) : Z :=
  let t := toint F64 in
  if negb (Z.shiftr x 63 =? 0) then fsub F64 (fadd F64 (fsub F64 x t) t) x
  else fsub F64 (fsub F64 (fadd F64 x t) t) x.

Definition floor (x : Z) : Z :=
  let e := efield F64 x in
  if (0x3ff + 52 <=? e) || feq F64 x 0 then x
  else
    let y := int_neighbour x in
    if e <=? 0x3ff - 1 then (if negb (Z.shiftr x 63 =? 0) then of_int F64 (-1) else 0)
    else if flt F64 0 y then fsub F64 (fadd F64 x y) (of_int F64 1)
    else fadd F64 x y.

Definition ceil (x : Z) : Z :=
  let e := efield F64 x in
  if (0x3ff + 52 <=? e) || feq F64 x 0 then x
  else
    let y := int_neighbour x in
    if e <=? 0x3ff - 1 then (if negb (Z.shiftr x 63 =? 0) then sgnbit F64 else of_int F64 1)
    else if flt F64 y 0 then fadd F64 (fadd F64 x y) (of_int F64 1)
    else fadd F64 x y.

(** [floorf] and [ceilf] work on the bits. *)
Definition floorf (x : Z) : Z :=
  let e := efield F32 x - 0x7f in
  if 23 <=? e then x
  else if 0 <=? e then
    let m := Z.shiftr 0x007fffff e in
    if Z.land x m =? 0 then x
    else Z.ldiff (if negb (Z.shiftr x 31 =? 0) then u32 (x + m) else x) m
  else if Z.shiftr x 31 =? 0 then 0
  else if negb (shl F32 x 1 =? 0) then of_int F32 (-1)
  else x.

Definition ceilf (x : Z) : Z :=
  let e := efield F32 x - 0x7f in
  if 23 <=? e then x
  else if 0 <=? e then
    let m := Z.shiftr 0x007fffff e in
    if Z.land x m =? 0 then x
    else Z.ldiff (if Z.shiftr x 31 =? 0 then u32 (x + m) else x) m
  else if negb (Z.shiftr x 31 =? 0) then sgnbit F32
  else if negb (shl F32 x 1 =? 0) then of_int F32 1
  else x.

(** 2.5, -2.5, 0.75 and 1e300 through the rounding functions; 5.5 mod 2. *)
Example rounding_examples :
  map trunc [0x4004000000000000; 0xc004000000000000] = [0x4000000000000000; 0xc000000000000000] /\
  map floor [0x4004000000000000; 0xc004000000000000] = [0x4000000000000000; 0xc008000000000000] /\
  map ceil [0x4004000000000000; 0xc004000000000000] = [0x4008000000000000; 0xc000000000000000] /\
  map round [0x4004000000000000; 0xc004000000000000] = [0x4008000000000000; 0xc008000000000000] /\
  map rint [0x4004000000000000; 0xc004000000000000] = [0x4000000000000000; 0xc000000000000000] /\
  frexp 0x4004000000000000 = (0x3fe4000000000000, 2) /\
  frexp 1 = (0x3fe0000000000000, -1073) /\
  modf 0xc004000000000000 = (0xbfe0000000000000, 0xc000000000000000) /\
  scalbn 0x3ff0000000000000 (-1074) = 1 /\ ilogb 1 = -1074 /\
  fmod 0x4016000000000000 0x4000000000000000 = 0x3ff8000000000000 /\
  remquo 0x4016000000000000 0x4000000000000000 = (0xbfe0000000000000, 3) /\
  floorf 0xc0200000 = 0xc0400000 /\ ceilf 0xc0200000 = 0xc0000000.
Proof. vm_compute. tauto. Qed.

(** ** The fields of a number *)

Section FieldFacts.
Context (F : fmt) {HF : FmtOk F}.

Abbreviation W := (width F).
Abbreviation MB := (mbits F).

Lemma width_gt : 4 < W.
Proof using HF. pose proof (mbits_gt F). pose proof (ebits_gt F). unfold width. lia. Qed.

Lemma sgnbit_pos : 0 < sgnbit F.
Proof using HF. pose proof (inf_lt_sgnbit F). pose proof (pow_m_pos F). lia. Qed.

Lemma efield_expo x : 0 <= x -> efield F x = expo F (mag F x).
Proof using HF.
  intros Hx. pose proof (mbits_gt F). pose proof (ebits_gt F). pose proof (pow_m_pos F).
  pose proof (pow_e_ge F). unfold efield, expo, mag.
  rewrite sgnbit_eq by exact HF. rewrite Z.shiftr_div_pow2 by lia.
  replace (emax F) with (Z.ones (ebits F)) by (rewrite Z.ones_equiv; unfold emax; lia).
  rewrite Z.land_ones by lia. rewrite (Z.mul_comm (2 ^ ebits F)), Z.rem_mul_r by lia.
  rewrite Z.mul_comm, Z.div_add by lia. rewrite (Z.div_small (x mod 2 ^ MB)) by (apply Z.mod_pos_bound; lia).
  reflexivity.
Qed.

Lemma expo_range x : 0 <= expo F (mag F x) <= emax F.
Proof using HF.
  pose proof (mag_range F x) as R. pose proof (pow_m_pos F). unfold expo, emax.
  rewrite sgnbit_eq in R by exact HF. split; [apply Z.div_pos; lia |].
  apply Z.lt_succ_r. apply Z.div_lt_upper_bound; lia.
Qed.

Lemma shiftr_sgn x : is_u W x -> Z.shiftr x (W - 1) = if sgn F x then 1 else 0.
Proof using HF.
  unfold is_u. rewrite width_eq by exact HF. intros H. pose proof width_gt.
  pose proof sgnbit_pos. rewrite Z.shiftr_div_pow2 by lia. unfold sgn. fold (sgnbit F).
  destruct (Z.leb_spec (sgnbit F) x).
  - symmetry. apply (Z.div_unique x (sgnbit F) 1 (x - sgnbit F)); lia.
  - apply Z.div_small. lia.
Qed.

Lemma neg_test x : is_u W x -> negb (Z.shiftr x (W - 1) =? 0) = sgn F x.
Proof using HF. intros H. rewrite shiftr_sgn by exact H. destruct (sgn F x); reflexivity. Qed.

Lemma shl_1 x : is_u W x -> shl F x 1 = 2 * mag F x.
Proof using HF.
  intros H. unfold shl, wrapu, mag. rewrite width_eq by exact HF.
  rewrite Z.shiftl_mul_pow2 by lia. change (2 ^ 1) with 2. rewrite (Z.mul_comm x).
  apply Z.mul_mod_distr_l; pose proof sgnbit_pos; lia.
Qed.

(** The significand field shifted to the top. *)
Lemma shl_frac x : is_u W x -> shl F x (W - MB) = frac F (mag F x) * 2 ^ (W - MB).
Proof using HF.
  intros H. pose proof (mbits_gt F). pose proof (ebits_gt F). pose proof (pow_m_pos F).
  unfold shl, wrapu. rewrite Z.shiftl_mul_pow2 by (unfold width; lia).
  replace (2 ^ W) with (2 ^ MB * 2 ^ (W - MB))
    by (rewrite <- Z.pow_add_r by (unfold width; lia); f_equal; lia).
  rewrite Z.mul_mod_distr_r by (try apply Z.pow_nonzero; unfold width; lia).
  f_equal. unfold frac, mag. rewrite sgnbit_eq by exact HF.
  rewrite (Z.mul_comm (2 ^ ebits F)), Z.rem_mul_r by (pose proof (pow_e_ge F); lia).
  rewrite Z.mul_comm, Z.mod_add by lia. rewrite Z.mod_mod by lia. reflexivity.
Qed.

Lemma ones_shr_eq n : 0 <= n <= W -> ones_shr F n = 2 ^ (W - n) - 1.
Proof using.
  intros H. unfold ones_shr, umax. rewrite Z.shiftr_div_pow2 by lia.
  replace (2 ^ W) with (2 ^ (W - n) * 2 ^ n) by (rewrite <- Z.pow_add_r by lia; f_equal; lia).
  pose proof (Z.pow_pos_nonneg 2 (W - n)). pose proof (Z.pow_pos_nonneg 2 n).
  symmetry. apply (Z.div_unique _ _ _ (2 ^ n - 1)); nia.
Qed.

Lemma land_low x t : 0 <= t -> Z.land x (2 ^ t - 1) = x mod 2 ^ t.
Proof using. intros H. rewrite <- Z.land_ones by exact H. f_equal. rewrite Z.ones_equiv. lia. Qed.

Lemma ldiff_low x t : 0 <= t -> Z.ldiff x (2 ^ t - 1) = x - x mod 2 ^ t.
Proof using.
  intros H. replace (2 ^ t - 1) with (Z.ones t) by (rewrite Z.ones_equiv; lia).
  rewrite Z.ldiff_ones_r, Z.shiftl_mul_pow2, Z.shiftr_div_pow2 by exact H.
  rewrite (Z.mod_eq x) by (apply Z.pow_nonzero; lia). lia.
Qed.

(** The low bits of the number are the low bits of its magnitude. *)
Lemma mod_mag x t : 0 <= t <= W - 1 -> mag F x mod 2 ^ t = x mod 2 ^ t.
Proof using HF.
  intros H. unfold mag, sgnbit.
  replace (2 ^ (W - 1)) with (2 ^ t * 2 ^ (W - 1 - t)) by (rewrite <- Z.pow_add_r by lia; f_equal; lia).
  pose proof (Z.pow_pos_nonneg 2 t). pose proof (Z.pow_pos_nonneg 2 (W - 1 - t)).
  rewrite Z.rem_mul_r, Z.mul_comm, Z.mod_add, Z.mod_mod by lia. reflexivity.
Qed.

(** Clearing low bits keeps the sign. *)
Lemma clear_low x t : is_u W x -> 0 <= t <= W - 1 ->
  x - x mod 2 ^ t = with_sgn F (sgn F x) (mag F x - mag F x mod 2 ^ t) /\
  0 <= mag F x - mag F x mod 2 ^ t < sgnbit F.
Proof using HF.
  intros H Ht. rewrite mod_mag by exact Ht. pose proof (with_sgn_split F x H) as S.
  pose proof (mag_range F x) as R. pose proof (Z.pow_pos_nonneg 2 t) as P.
  pose proof (Z.mod_pos_bound x (2 ^ t) ltac:(lia)) as B.
  pose proof (Z.mod_le (mag F x) (2 ^ t) ltac:(lia) ltac:(lia)) as L.
  rewrite mod_mag in L by exact Ht. split; [| lia].
  rewrite <- S at 1. unfold with_sgn. destruct (sgn F x); lia.
Qed.

Lemma fval_with_sgn s a : 0 <= a < sgnbit F ->
  fval F (with_sgn F s a) = if s then - mval F a else mval F a.
Proof using HF.
  intros H. destruct (with_sgn_mag_sgn F s a H) as (M & S & _). unfold fval. rewrite M, S. reflexivity.
Qed.

(** Clearing [t] low bits of a magnitude clears them in its significand. *)
Lemma mval_clear a m k t : 0 <= a -> decode F a = (m, k) -> 0 <= t <= MB ->
  mval F (a - a mod 2 ^ t) = m / 2 ^ t * 2 ^ t * 2 ^ k.
Proof using HF.
  intros Ha D Ht. destruct (decode_spec F a m k Ha D) as (E & Hk & Hm & Nm & _).
  pose proof (Z.pow_pos_nonneg 2 t ltac:(lia) ltac:(lia)) as P. pose proof (pow_m_pos F).
  assert (Pm : 2 ^ MB = 2 ^ t * 2 ^ (MB - t)) by (rewrite <- Z.pow_add_r by lia; f_equal; lia).
  assert (R : a mod 2 ^ t = m mod 2 ^ t).
  { rewrite E, Pm. replace (k * (2 ^ t * 2 ^ (MB - t))) with ((k * 2 ^ (MB - t)) * 2 ^ t) by lia.
    apply Z.mod_add. lia. }
  rewrite R, E. replace (m + k * 2 ^ MB - m mod 2 ^ t) with (m / 2 ^ t * 2 ^ t + k * 2 ^ MB)
    by (rewrite (Z.mod_eq m) by lia; lia).
  assert (Bd : 0 <= m / 2 ^ t * 2 ^ t <= m).
  { pose proof (Z.mod_pos_bound m (2 ^ t) P). pose proof (Z.div_mod m (2 ^ t)).
    pose proof (Z.div_pos m (2 ^ t)). lia. }
  apply mval_build; [exact HF | exact Hk | lia |].
  intros K. specialize (Nm K). rewrite Pm. rewrite (Z.mul_comm (2 ^ t)).
  apply Z.mul_le_mono_nonneg_r; [lia |]. apply Z.div_le_lower_bound; lia.
Qed.
End FieldFacts.

(** ** Rounding towards zero *)

(** The value of 1.0. *)
Definition one_val (F : fmt) : Z := 2 ^ eunit F.

Section TruncFacts.
Context (F : fmt) {HF : FmtOk F}.

Abbreviation W := (width F).
Abbreviation MB := (mbits F).

Lemma one_val_pos : 0 < one_val F.
Proof using HF. apply Z.pow_pos_nonneg; [lia |]. pose proof (eunit_pos F). lia. Qed.

Lemma bias_pos : 1 <= bias F.
Proof using HF.
  unfold bias. pose proof (ebits_gt F). pose proof (Z.pow_le_mono_r 2 1 (ebits F - 1)). lia.
Qed.

Lemma emax_bias : emax F = 2 * bias F + 1.
Proof using HF.
  unfold emax, bias. pose proof (ebits_gt F). replace (ebits F) with (Z.succ (ebits F - 1)) at 1 by lia.
  rewrite Z.pow_succ_r by lia. lia.
Qed.

(** 1.0 itself, and the numbers below it. *)
Lemma mval_one : mval F (bias F * 2 ^ MB) = one_val F.
Proof using HF.
  pose proof bias_pos. pose proof (pow_m_pos F). unfold one_val, eunit.
  replace (bias F * 2 ^ MB) with (2 ^ MB + (bias F - 1) * 2 ^ MB) by lia.
  rewrite mval_build by (exact HF || lia). rewrite <- Z.pow_add_r by (pose proof (mbits_gt F); lia).
  f_equal. lia.
Qed.

Lemma below_one a : 0 <= a -> (expo F a < bias F <-> mval F a < one_val F).
Proof using HF.
  intros Ha. pose proof bias_pos. pose proof (pow_m_pos F). rewrite <- mval_one.
  rewrite mval_lt_iff by (exact HF || nia). destruct (expo_frac F a Ha) as (E & _ & Fr). nia.
Qed.

Lemma decode_expo a m k : 0 < expo F a -> decode F a = (m, k) -> k = expo F a - 1.
Proof using.
  unfold decode. intros H. destruct (Z.eqb_spec (expo F a) 0); [lia |]. intros [= _ <-]. reflexivity.
Qed.

(** The large numbers are integers. *)
Lemma large_integer a : 0 <= a -> bias F + MB <= expo F a ->
  mval F a = mval F a / one_val F * one_val F.
Proof using HF.
  intros Ha He. destruct (decode F a) as [m k] eqn:D. rewrite (mval_decode F a m k D).
  pose proof bias_pos. pose proof (mbits_gt F).
  pose proof (decode_expo a m k ltac:(lia) D) as ->. unfold one_val.
  assert (E : m * 2 ^ (expo F a - 1) = m * 2 ^ (expo F a - 1 - eunit F) * 2 ^ eunit F).
  { rewrite <- Z.mul_assoc, <- Z.pow_add_r by (unfold eunit; lia). do 2 f_equal. lia. }
  rewrite E, Z.div_mul; [reflexivity |]. apply Z.pow_nonzero; unfold eunit; lia.
Qed.

(** Clearing the bits below the binary point. *)
Lemma clear_fraction a : 0 <= a -> bias F <= expo F a < bias F + MB ->
  let t := MB + bias F - expo F a in
  0 < t <= MB /\ mval F (a - a mod 2 ^ t) = mval F a / one_val F * one_val F /\
  (a mod 2 ^ t = 0 <-> mval F a mod one_val F = 0).
Proof using HF.
  intros Ha He t. destruct (decode F a) as [m k] eqn:D. pose proof bias_pos.
  pose proof (decode_expo a m k ltac:(lia) D) as K. assert (Ht : 0 < t <= MB) by lia.
  assert (One : one_val F = 2 ^ t * 2 ^ k).
  { unfold one_val. rewrite <- Z.pow_add_r by lia. f_equal. unfold eunit. lia. }
  pose proof (Z.pow_pos_nonneg 2 t ltac:(lia) ltac:(lia)).
  pose proof (Z.pow_pos_nonneg 2 k ltac:(lia) ltac:(lia)).
  pose proof (mval_clear F a m k t Ha D ltac:(lia)) as MC.
  rewrite (mval_decode F a m k D). split; [exact Ht |]. split.
  - rewrite MC, One, Z.div_mul_cancel_r by lia. lia.
  - rewrite One, Z.mul_mod_distr_r by lia.
    destruct (decode_spec F a m k Ha D) as (E & _).
    assert (R : a mod 2 ^ t = m mod 2 ^ t).
    { rewrite E. replace (2 ^ MB) with (2 ^ (MB - t) * 2 ^ t)
        by (rewrite <- Z.pow_add_r by lia; f_equal; lia).
      rewrite Z.mul_assoc. apply Z.mod_add. lia. }
    rewrite R. split; [intros ->; lia |]. intros P. apply Z.mul_eq_0 in P. lia.
Qed.

Lemma quot_signed (s : bool) v d : 0 <= v -> 0 < d ->
  Z.quot (if s then - v else v) d * d = if s then - (v / d * d) else v / d * d.
Proof using.
  intros Hv Hd. destruct s.
  - rewrite Z.quot_opp_l, Z.quot_div_nonneg by lia. lia.
  - rewrite Z.quot_div_nonneg by lia. reflexivity.
Qed.

(** The magnitude [trunc] returns. *)
Lemma trunc_mag x : is_u W x -> isfinite F x = true ->
  exists a, trunc_gen F x = with_sgn F (sgn F x) a /\ 0 <= a <= mag F x /\
    mval F a = mval F (mag F x) / one_val F * one_val F.
Proof using HF.
  intros U Fin. pose proof (mag_range F x) as R. pose proof bias_pos. pose proof (mbits_gt F).
  pose proof (ebits_gt F) as Eb. pose proof (with_sgn_split F x U) as S. unfold trunc_gen.
  rewrite efield_expo by (exact HF || (unfold is_u in U; lia)).
  set (a := mag F x) in *. pose proof (expo_frac F a ltac:(lia)) as (EF & E0 & _).
  destruct (Z.leb_spec (MB + (W - MB)) (expo F a - bias F + (W - MB))) as [L | G].
  { exists a. split; [symmetry; exact S |]. split; [lia | apply large_integer; lia]. }
  destruct (Z.ltb_spec (expo F a - bias F + (W - MB)) (W - MB)) as [Lt | Ge].
  - rewrite ones_shr_eq by (unfold width; lia).
    rewrite land_low, ldiff_low by (unfold width; lia).
    assert (Sm : mval F a / one_val F * one_val F = 0).
    { rewrite Z.div_small; [reflexivity |]. pose proof (mval_nonneg F a ltac:(lia)).
      pose proof (proj1 (below_one a ltac:(lia)) ltac:(lia)). lia. }
    rewrite Sm. change (x mod 2 ^ (W - 1)) with a. exists 0.
    rewrite mval_0 by exact HF. split; [| lia].
    destruct (Z.eqb_spec a 0) as [Z0 | _]; rewrite <- S at 1; [rewrite Z0; reflexivity |].
    unfold with_sgn. destruct (sgn F x); lia.
  - rewrite ones_shr_eq by (unfold width; lia).
    replace (W - (expo F a - bias F + (W - MB))) with (MB + bias F - expo F a) by lia.
    destruct (clear_fraction a ltac:(lia) ltac:(lia)) as (Ht & Cv & _).
    rewrite land_low, ldiff_low by lia.
    destruct (clear_low F x (MB + bias F - expo F a) U ltac:(unfold width; lia)) as [C1 C2].
    fold a in C1, C2. exists (a - a mod 2 ^ (MB + bias F - expo F a)).
    split; [| split; [| exact Cv]].
    + destruct (Z.eqb_spec (x mod 2 ^ (MB + bias F - expo F a)) 0) as [Z0 | _]; [| exact C1].
      rewrite Z0 in C1. rewrite <- C1. lia.
    + pose proof (Z.mod_pos_bound a (2 ^ (MB + bias F - expo F a))
                    (Z.pow_pos_nonneg 2 (MB + bias F - expo F a) ltac:(lia) ltac:(lia))). lia.
Qed.
End TruncFacts.
