(* ===== verification/MathRound.v ===== *)
(** * Rounding to integers

    [trunc], [floor], [ceil], [round], [rint] and [modf] of
    [src/src/ansi/musl-math] return the integer they are named after.  The
    functions that add and subtract 2^52 are verified through the rounding of the
    addition. *)

From S2P Require Import Prelude Ieee MathBits.

#[local] Open Scope Z_scope.

(** ** Exact additions *)

(** [v] units is the value of a finite number. *)
Definition repr (F : fmt) (v : Z) : Prop :=
  exists a, 0 <= a < inf_mag F /\ mval F a = Z.abs v.

Section ExactFacts.
Context (F : fmt) {HF : FmtOk F}.

Abbreviation W := (width F).
Abbreviation MB := (mbits F).

Lemma mbits_bias : MB + 2 <= bias F.
Proof using HF. pose proof (mbits_small (F := F)). unfold bias. lia. Qed.

(** A significand of at most one bit too many, at any exponent. *)
Lemma mval_build_carry m k : 0 <= k -> 0 <= m <= 2 * 2 ^ MB -> (0 < k -> 2 ^ MB <= m) ->
  mval F (m + k * 2 ^ MB) = m * 2 ^ k.
Proof using HF.
  intros Hk Hm Hn. destruct (Z.eq_dec m (2 * 2 ^ MB)) as [-> | N].
  - replace (2 * 2 ^ MB + k * 2 ^ MB) with (2 ^ MB + (k + 1) * 2 ^ MB) by lia.
    pose proof (pow_m_pos F). rewrite mval_build by (exact HF || lia).
    rewrite Z.pow_add_r by lia. lia.
  - apply mval_build; [exact HF | lia..].
Qed.

Lemma repr_scaled d k : 0 <= d <= 2 * 2 ^ MB -> 0 <= k <= emax F - 3 -> repr F (d * 2 ^ k).
Proof using HF.
  intros Hd Hk. pose proof (pow_m_pos F) as Pm. pose proof (mbits_gt F).
  rewrite <- (Z2Nat.id k) by lia. assert (Hn : (Z.to_nat k <= Z.to_nat (emax F - 3))%nat) by lia.
  clear Hk. revert d Hd. induction (Z.to_nat k) as [| n IH]; intros d Hd.
  - exists d. split; [unfold inf_mag; pose proof (pow_e_ge F); unfold emax in *; nia |].
    replace d with (d + 0 * 2 ^ MB) at 1 by lia. rewrite mval_build_carry by lia.
    change (Z.of_nat 0) with 0. rewrite Z.pow_0_r. lia.
  - destruct (Z.lt_ge_cases d (2 ^ MB)) as [L | G].
    + specialize (IH ltac:(lia) (2 * d) ltac:(lia)).
      replace (d * 2 ^ Z.of_nat (S n)) with (2 * d * 2 ^ Z.of_nat n); [exact IH |].
      rewrite Nat2Z.inj_succ, Z.pow_succ_r by lia. lia.
    + exists (d + Z.of_nat (S n) * 2 ^ MB). split; [unfold inf_mag; nia |].
      rewrite mval_build_carry by lia. pose proof (Z.pow_pos_nonneg 2 (Z.of_nat (S n))). nia.
Qed.

Lemma finite_cases x : isfinite F x = true -> isnan F x = false /\ isinf F x = false /\
  mag F x < inf_mag F.
Proof using. unfold isfinite, isnan, isinf. intros H. zbool; try lia; auto. Qed.

Lemma fval_abs x : Z.abs (fval F x) = mval F (mag F x).
Proof using HF.
  pose proof (mval_nonneg F (mag F x) (proj1 (mag_range F x))). unfold fval.
  destruct (sgn F x); lia.
Qed.

Lemma with_sgn_finite s a : 0 <= a < inf_mag F ->
  isfinite F (with_sgn F s a) = true /\ is_u W (with_sgn F s a) /\
  sgn F (with_sgn F s a) = s /\ mag F (with_sgn F s a) = a /\
  fval F (with_sgn F s a) = if s then - mval F a else mval F a.
Proof using HF.
  intros H. pose proof (inf_lt_sgnbit F). pose proof (pow_m_pos F).
  destruct (with_sgn_mag_sgn F s a ltac:(lia)) as (M & S & U).
  unfold isfinite. rewrite M. rewrite fval_with_sgn by (exact HF || lia).
  repeat split; try assumption; try apply U. apply Z.ltb_lt. lia.
Qed.

(** An addition whose exact result is representable is exact. *)
Lemma fadd_exact x y : isfinite F x = true -> isfinite F y = true ->
  repr F (fval F x + fval F y) ->
  fval F (fadd F x y) = fval F x + fval F y /\ isfinite F (fadd F x y) = true /\
  is_u W (fadd F x y) /\
  sgn F (fadd F x y) = (if fval F x + fval F y =? 0 then sgn F x && sgn F y
                        else fval F x + fval F y <? 0).
Proof using HF.
  intros Hx Hy (a & Ha & Ea). destruct (finite_cases x Hx) as (Nx & Ix & _).
  destruct (finite_cases y Hy) as (Ny & Iy & _). unfold fadd. rewrite Nx, Ny, Ix, Iy. simpl orb. cbv iota.
  set (v := fval F x + fval F y) in *. destruct (Z.eqb_spec v 0) as [Z0 | N0].
  - pose proof (inf_lt_sgnbit F).
    destruct (with_sgn_finite (sgn F x && sgn F y) 0 ltac:(lia)) as (A & B & C & _ & D).
    rewrite mval_0 in D by exact HF. repeat split; try assumption; try apply B.
    rewrite D. destruct (sgn F x && sgn F y); lia.
  - rewrite (round_mag_exact0 F (Z.abs v) a) by (exact HF || lia).
    destruct (with_sgn_finite (v <? 0) a Ha) as (A & B & C & _ & D).
    repeat split; try assumption; try apply B. rewrite D, Ea. destruct (Z.ltb_spec v 0); lia.
Qed.

Lemma fneg_spec x : is_u W x -> fval F (fneg F x) = - fval F x /\ sgn F (fneg F x) = negb (sgn F x) /\
  mag F (fneg F x) = mag F x /\ is_u W (fneg F x).
Proof using HF.
  intros U. pose proof (with_sgn_split F x U) as S. pose proof (mag_range F x) as R.
  assert (E : fneg F x = with_sgn F (negb (sgn F x)) (mag F x)).
  { unfold fneg, with_sgn in *. destruct (sgn F x); simpl; lia. }
  destruct (with_sgn_mag_sgn F (negb (sgn F x)) (mag F x) R) as (M & Sg & Uu).
  rewrite E. split; [| auto]. rewrite fval_with_sgn by (exact HF || exact R).
  unfold fval. destruct (sgn F x); simpl; lia.
Qed.

Lemma fneg_finite x : is_u W x -> isfinite F (fneg F x) = isfinite F x.
Proof using HF. intros U. destruct (fneg_spec x U) as (_ & _ & M & _). unfold isfinite. rewrite M. reflexivity. Qed.

Lemma fsub_exact x y : is_u W y -> isfinite F x = true -> isfinite F y = true ->
  repr F (fval F x - fval F y) ->
  fval F (fsub F x y) = fval F x - fval F y /\ isfinite F (fsub F x y) = true /\
  is_u W (fsub F x y) /\
  sgn F (fsub F x y) = (if fval F x - fval F y =? 0 then sgn F x && negb (sgn F y)
                        else fval F x - fval F y <? 0).
Proof using HF.
  intros U Hx Hy R. destruct (fneg_spec y U) as (E & S & _). unfold fsub.
  rewrite <- S. replace (fval F x - fval F y) with (fval F x + fval F (fneg F y)) in * by lia.
  apply fadd_exact; try assumption. rewrite fneg_finite by exact U. exact Hy.
Qed.
End ExactFacts.

(** ** Adding and subtracting 2^52 *)

Section TointFacts.
Context (F : fmt) {HF : FmtOk F}.

Abbreviation W := (width F).
Abbreviation MB := (mbits F).
Abbreviation One := (one_val F).

Lemma repr_int z : 0 <= z <= 2 * 2 ^ MB -> repr F (z * One).
Proof using HF.
  intros Hz. apply repr_scaled; [exact HF | exact Hz |]. pose proof (mbits_bias F).
  pose proof (emax_bias F). pose proof (eunit_pos F). unfold eunit in *. lia.
Qed.

Lemma of_int_exact z : Z.abs z <= 2 * 2 ^ MB ->
  fval F (of_int F z) = z * One /\ isfinite F (of_int F z) = true /\ is_u W (of_int F z) /\
  sgn F (of_int F z) = (z <? 0).
Proof using HF.
  intros Hz. unfold of_int. pose proof (inf_lt_sgnbit F). pose proof (eunit_pos F).
  destruct (Z.eqb_spec z 0) as [-> | N].
  - destruct (with_sgn_finite F false 0 ltac:(lia)) as (A & B & C & _ & D).
    rewrite mval_0 in D by exact HF. exact (conj D (conj A (conj B C))).
  - destruct (repr_int (Z.abs z) ltac:(lia)) as (a & Ha & Ea).
    pose proof (one_val_pos F) as P. rewrite Z.abs_mul, Z.abs_idemp in Ea.
    rewrite (Z.abs_eq One) in Ea by lia.
    assert (R : round_mag F (Z.abs z) (eunit F) = a).
    { apply round_mag_exact; [exact HF | lia | exact Ha |].
      rewrite Z.max_r, Z.max_l, Z.pow_0_r by lia. fold One. lia. }
    rewrite R. destruct (with_sgn_finite F (z <? 0) a Ha) as (A & B & C & _ & D).
    repeat split; try assumption; try apply B. rewrite D, Ea. destruct (Z.ltb_spec z 0); lia.
Qed.

Lemma toint_val : fval F (toint F) = 2 ^ MB * One /\ isfinite F (toint F) = true /\
  is_u W (toint F) /\ sgn F (toint F) = false.
Proof using HF.
  pose proof (pow_m_pos F). destruct (of_int_exact (2 ^ MB) ltac:(lia)) as (A & B & C & D).
  repeat split; try assumption; try apply C. unfold toint. rewrite D. apply Z.ltb_ge. lia.
Qed.

Lemma rne_add v c k : 0 <= k -> Z.even c = true -> rne (v + c * 2 ^ k) k = rne v k + c.
Proof using.
  intros Hk Ev. pose proof (Z.pow_pos_nonneg 2 k ltac:(lia) Hk). rewrite !rne_eq by exact Hk.
  cbv zeta. rewrite Z.div_add, Z.mod_add by lia. rewrite Z.odd_add.
  rewrite <- (Z.negb_even c), Ev. simpl xorb.
  destruct (Z.odd (v / 2 ^ k)), (2 ^ k <? _), (_ =? 2 ^ k); simpl; lia.
Qed.

(** The rounding of [|x| + 2^52]. *)
Lemma round_toint v : 0 <= v < 2 ^ MB * One ->
  let a := round_mag F (v + 2 ^ MB * One) 0 in
  0 <= a < inf_mag F /\ mval F a = (rne v (eunit F) + 2 ^ MB) * One /\
  0 <= rne v (eunit F) <= 2 ^ MB.
Proof using HF.
  intros Hv. pose proof (eunit_pos F) as Pe. pose proof (one_val_pos F) as P1.
  pose proof (pow_m_pos F) as Pm. pose proof (mbits_gt F) as Hm. unfold one_val in *.
  set (n := v + 2 ^ MB * 2 ^ eunit F).
  assert (B : 0 <= rne v (eunit F) <= 2 ^ MB).
  { pose proof (rne_bounds v (eunit F) ltac:(lia)).
    pose proof (Z.div_pos v (2 ^ eunit F) ltac:(lia) ltac:(lia)).
    pose proof (Z.div_lt_upper_bound v (2 ^ eunit F) (2 ^ MB) ltac:(lia) ltac:(lia)). lia. }
  assert (L : Z.log2 n = MB + eunit F).
  { apply Z.log2_unique; [lia |]. rewrite Z.pow_succ_r, Z.pow_add_r by lia. unfold n. lia. }
  assert (R : rne n (eunit F) = rne v (eunit F) + 2 ^ MB).
  { unfold n. apply rne_add; [lia |]. rewrite <- (Z.succ_pred MB), Z.pow_succ_r by lia.
    rewrite Z.even_mul. reflexivity. }
  unfold round_mag. rewrite L. rewrite Z.max_r by lia.
  replace (MB + eunit F + 0 - MB) with (eunit F) by lia. rewrite Z.sub_0_r.
  destruct (Z.leb_spec (eunit F) 0); [lia |]. rewrite R.
  assert (Fin : rne v (eunit F) + 2 ^ MB + eunit F * 2 ^ MB < inf_mag F).
  { unfold inf_mag. assert (eunit F + 2 < emax F)
      by (rewrite emax_bias by exact HF; pose proof (mbits_bias F); unfold eunit; lia). nia. }
  rewrite Z.min_r by lia. split; [nia |]. split; [| exact B].
  rewrite mval_build_carry by (exact HF || lia). reflexivity.
Qed.

Definition signed (s : bool) (v : Z) : Z := if s then - v else v.

(** [x + 2^52 - 2^52], on the side of the sign of [x]. *)
Definition toint_trip (x : Z) : Z :=
  if sgn F x then fadd F (fsub F x (toint F)) (toint F)
  else fsub F (fadd F x (toint F)) (toint F).

Lemma fval_signed x : fval F x = signed (sgn F x) (mval F (mag F x)).
Proof using. reflexivity. Qed.

(** The first of the two additions. *)
Lemma toint_shift x : is_u W x -> isfinite F x = true -> mval F (mag F x) < 2 ^ MB * One ->
  let y := if sgn F x then fsub F x (toint F) else fadd F x (toint F) in
  isfinite F y = true /\ is_u W y /\
  fval F y = signed (sgn F x) ((rne (mval F (mag F x)) (eunit F) + 2 ^ MB) * One).
Proof using HF.
  intros U Fin Hv y. destruct toint_val as (Tv & Tf & Tu & Ts).
  destruct (finite_cases F x Fin) as (Nx & Ix & _).
  pose proof (mval_nonneg F (mag F x) (proj1 (mag_range F x))) as P.
  destruct (round_toint (mval F (mag F x)) ltac:(lia)) as (Ra & Rv & Rb).
  pose proof (one_val_pos F). pose proof (pow_m_pos F).
  assert (E : y = with_sgn F (sgn F x) (round_mag F (mval F (mag F x) + 2 ^ MB * One) 0)).
  { unfold y. destruct (fneg_spec F (toint F) Tu) as (Fv & Fs & _ & Fu).
    pose proof (fneg_finite F (toint F) Tu) as Ff.
    destruct (finite_cases F _ Tf) as (Nt & It & _).
    rewrite Tf in Ff. destruct (finite_cases F _ Ff) as (Nt' & It' & _).
    unfold fsub. destruct (sgn F x) eqn:S; unfold fadd; rewrite ?Nx, ?Nt, ?Ix, ?It, ?Nt', ?It';
      simpl orb; cbv iota; rewrite ?Fv, ?Tv; rewrite fval_signed, S; unfold signed.
    - destruct (Z.eqb_spec (- mval F (mag F x) + - (2 ^ MB * One)) 0); [nia |].
      destruct (Z.ltb_spec (- mval F (mag F x) + - (2 ^ MB * One)) 0); [| nia].
      do 2 f_equal. lia.
    - destruct (Z.eqb_spec (mval F (mag F x) + 2 ^ MB * One) 0); [nia |].
      destruct (Z.ltb_spec (mval F (mag F x) + 2 ^ MB * One) 0); [nia |].
      do 2 f_equal. nia. }
  rewrite E. destruct (with_sgn_finite F (sgn F x) _ Ra) as (A & B & _ & _ & D).
  split; [exact A |]. split; [exact B |]. rewrite D, Rv. reflexivity.
Qed.

Lemma toint_trip_val x : is_u W x -> isfinite F x = true -> mval F (mag F x) < 2 ^ MB * One ->
  fval F (toint_trip x) = signed (sgn F x) (rne (mval F (mag F x)) (eunit F) * One) /\
  isfinite F (toint_trip x) = true /\ is_u W (toint_trip x) /\
  (fval F (toint_trip x) = 0 -> sgn F (toint_trip x) = false) /\
  (fval F (toint_trip x) <> 0 -> sgn F (toint_trip x) = sgn F x).
Proof using HF.
  intros U Fin Hv. destruct toint_val as (Tv & Tf & Tu & Ts).
  destruct (toint_shift x U Fin Hv) as (Yf & Yu & Yv). unfold toint_trip.
  pose proof (mval_nonneg F (mag F x) (proj1 (mag_range F x))) as P.
  destruct (round_toint (mval F (mag F x)) ltac:(lia)) as (_ & _ & Rb).
  set (r := rne (mval F (mag F x)) (eunit F)) in *. pose proof (one_val_pos F).
  pose proof (pow_m_pos F). assert (Rr : repr F (r * One)) by (apply repr_int; lia).
  destruct (sgn F x) eqn:S; unfold signed in *.
  - destruct (fadd_exact F _ _ Yf Tf) as (V & Vf & Vu & Vs).
    { replace (_ + _) with (- (r * One)) by lia.
      destruct Rr as (a & Ha & Ea). exists a. rewrite Z.abs_opp. tauto. }
    rewrite Yv, Tv in V. repeat split; try assumption; try apply Vu; [lia | |]; rewrite Vs, Yv, Tv;
      destruct (Z.eqb_spec (- ((r + 2 ^ MB) * One) + 2 ^ MB * One) 0); try lia.
    rewrite Ts, andb_false_r. reflexivity.
  - destruct (fsub_exact F _ _ Tu Yf Tf) as (V & Vf & Vu & Vs).
    { replace (_ - _) with (r * One) by lia. exact Rr. }
    rewrite Yv, Tv in V. repeat split; try assumption; try apply Vu; [lia | |]; rewrite Vs, Yv, Tv;
      destruct (Z.eqb_spec ((r + 2 ^ MB) * One - 2 ^ MB * One) 0); try lia.
    destruct (sgn F (fadd F x (toint F))) eqn:S2; [| reflexivity].
    intros _. exfalso. rewrite fval_signed, S2 in Yv. unfold signed in Yv.
    pose proof (mval_nonneg F (mag F (fadd F x (toint F))) (proj1 (mag_range F _))). nia.
Qed.
End TointFacts.

(** ** Rounding to nearest *)

Section RintFacts.
Context (F : fmt) {HF : FmtOk F}.

Abbreviation W := (width F).
Abbreviation MB := (mbits F).
Abbreviation One := (one_val F).
Abbreviation absv x := (mval F (mag F x)).

Lemma is_u_nonneg x : is_u W x -> 0 <= x.
Proof using. unfold is_u. lia. Qed.

Lemma absv_nonneg x : 0 <= absv x.
Proof using HF. apply mval_nonneg; [exact HF |]. apply mag_range, HF. Qed.

(** Below the exponent of 2^52 the value is below 2^52. *)
Lemma small_value x : expo F (mag F x) < bias F + MB -> absv x < 2 ^ MB * One.
Proof using HF.
  intros H. pose proof (mag_range F x) as R. pose proof (bias_pos F). pose proof (mbits_gt F).
  pose proof (pow_m_pos F). destruct (expo_frac F (mag F x) ltac:(lia)) as (E & _ & Fr).
  assert (T : mval F (2 ^ MB + (bias F + MB - 1) * 2 ^ MB) = 2 ^ MB * One).
  { rewrite mval_build by (exact HF || lia). unfold one_val, eunit. do 2 f_equal. }
  rewrite <- T. apply mval_mono; [exact HF | nia].
Qed.

Lemma rint_trip x : is_u W x -> rint_gen F x =
  (if bias F + MB <=? expo F (mag F x) then x
   else if feq F (toint_trip F x) 0 then with_sgn F (sgn F x) 0 else toint_trip F x).
Proof using HF.
  intros U. unfold rint_gen, toint_trip. rewrite efield_expo by (exact HF || apply is_u_nonneg, U).
  rewrite neg_test by (exact HF || exact U). destruct (sgn F x); [| reflexivity].
  unfold with_sgn. rewrite Z.add_0_r. reflexivity.
Qed.

Lemma feq_zero y : isfinite F y = true -> feq F y 0 = (fval F y =? 0).
Proof using HF.
  intros Fy. destruct (finite_cases F y Fy) as (N & _). pose proof (inf_lt_sgnbit F).
  destruct (with_sgn_finite F false 0 ltac:(lia)) as (A & _ & _ & _ & D). simpl in A, D.
  destruct (finite_cases F 0 A) as (N0 & _). unfold feq. rewrite N, N0, D, mval_0 by exact HF.
  reflexivity.
Qed.

Lemma rint_val x : is_u W x -> isfinite F x = true ->
  fval F (rint_gen F x) = signed (sgn F x) (rne (absv x) (eunit F) * One) /\
  sgn F (rint_gen F x) = sgn F x /\ isfinite F (rint_gen F x) = true /\ is_u W (rint_gen F x).
Proof using HF.
  intros U Fin. rewrite rint_trip by exact U. pose proof (one_val_pos F) as P1.
  pose proof (mag_range F x) as R. pose proof (inf_lt_sgnbit F).
  destruct (Z.leb_spec (bias F + MB) (expo F (mag F x))) as [L | G].
  - repeat split; try assumption; try apply U. pose proof (large_integer F (mag F x) ltac:(lia) L) as I.
    rewrite fval_signed. rewrite I at 2. unfold one_val at 2. rewrite rne_exact, <- I; [reflexivity |].
    pose proof (eunit_pos F). lia.
  - destruct (toint_trip_val F x U Fin (small_value x G)) as (V & Vf & Vu & _ & Vs).
    rewrite feq_zero by exact Vf. destruct (Z.eqb_spec (fval F (toint_trip F x)) 0) as [Z0 | N0].
    + destruct (with_sgn_finite F (sgn F x) 0 ltac:(lia)) as (A & B & C & _ & D).
      rewrite mval_0 in D by exact HF. repeat split; try assumption; try apply B.
      rewrite D, <- V, Z0. destruct (sgn F x); reflexivity.
    + repeat split; try assumption; try apply Vu. auto.
Qed.

(** The distance to the nearest integer is representable. *)
Lemma repr_distance x : expo F (mag F x) < bias F + MB ->
  repr F (rne (absv x) (eunit F) * One - absv x).
Proof using HF.
  intros G. pose proof (mag_range F x) as R. pose proof (eunit_pos F) as Pe.
  pose proof (pow_m_pos F) as Pm. pose proof (mbits_gt F) as Hm.
  destruct (rne_nearest (absv x) (eunit F) ltac:(lia)) as [Near _].
  set (r := rne (absv x) (eunit F)) in *. fold One in Near. pose proof (one_val_pos F) as P1.
  destruct (decode F (mag F x)) as [m k] eqn:D. pose proof (mval_decode F _ m k D) as V.
  destruct (decode_spec F (mag F x) m k ltac:(lia) D) as (E & Hk & Hm2 & Nm & _).
  assert (Kle : k <= eunit F).
  { unfold eunit. destruct (Z.lt_ge_cases 0 (expo F (mag F x))) as [P | Z0].
    - rewrite (decode_expo F _ m k P D). lia.
    - pose proof (bias_pos F). assert (k = 0); [| lia].
      destruct (expo_frac F (mag F x) ltac:(lia)) as (_ & E0 & _).
      unfold decode in D. destruct (Z.eqb_spec (expo F (mag F x)) 0); [congruence | lia]. }
  assert (Eu : One = 2 ^ (eunit F - k) * 2 ^ k).
  { unfold one_val. rewrite <- Z.pow_add_r by lia. f_equal. lia. }
  destruct (Z.eq_dec r 0) as [R0 | Rn].
  - exists (mag F x). rewrite R0. pose proof (absv_nonneg x).
    split; [| lia]. split; [lia |]. destruct (Z.lt_ge_cases (mag F x) (inf_mag F)); [lia |].
    exfalso. destruct (expo_frac F (mag F x) ltac:(lia)) as (Ea & _ & Fr).
    pose proof (emax_bias F). pose proof (mbits_bias F). unfold inf_mag in *. nia.
  - assert (Dd : r * One - absv x = (r * 2 ^ (eunit F - k) - m) * 2 ^ k) by (rewrite V, Eu; lia).
    rewrite Dd. set (d := r * 2 ^ (eunit F - k) - m) in *.
    pose proof (Z.pow_pos_nonneg 2 k ltac:(lia) Hk) as Pk.
    assert (Hd : Z.abs d <= 2 * 2 ^ MB).
    { assert (Hh : One <= 2 * absv x).
      { pose proof (rne_bounds (absv x) (eunit F) ltac:(lia)) as Rb.
        pose proof (absv_nonneg x). fold One in Rb. pose proof (Z.div_pos (absv x) One). nia. }
      assert (Dk : 2 * Z.abs d <= 2 ^ (eunit F - k)).
      { replace (absv x - r * One) with (- (d * 2 ^ k)) in Near by lia.
        rewrite Z.abs_opp, Z.abs_mul, (Z.abs_eq (2 ^ k)), Eu in Near by lia. nia. }
      rewrite V, Eu in Hh. assert (2 ^ (eunit F - k) <= 2 * m) by nia. lia. }
    destruct (repr_scaled F (Z.abs d) k ltac:(lia)) as (a & Ha & Ea).
    { pose proof (emax_bias F). pose proof (mbits_bias F). unfold eunit in Kle. lia. }
    exists a. split; [exact Ha |]. rewrite Ea, !Z.abs_mul, Z.abs_idemp. reflexivity.
Qed.
End RintFacts.

(** ** Floor and ceiling of doubles *)

Abbreviation One64 := (one_val F64).

Lemma efield_64 x : is_u 64 x -> efield F64 x = expo F64 (mag F64 x).
Proof. intros U. apply efield_expo; [apply F64_ok | unfold is_u in U; lia]. Qed.

Lemma neg_test_64 x : is_u 64 x -> negb (Z.shiftr x 63 =? 0) = sgn F64 x.
Proof. exact (neg_test F64 x). Qed.

Lemma neighbour_trip x : is_u 64 x -> int_neighbour x = fsub F64 (toint_trip F64 x) x.
Proof.
  intros U. unfold int_neighbour, toint_trip. rewrite neg_test_64 by exact U.
  destruct (sgn F64 x); reflexivity.
Qed.

Lemma flt_finite F `{FmtOk F} x y : isfinite F x = true -> isfinite F y = true ->
  flt F x y = (fval F x <? fval F y).
Proof.
  intros Hx Hy. destruct (finite_cases F x Hx) as (Nx & _), (finite_cases F y Hy) as (Ny & _).
  unfold flt. rewrite Nx, Ny. reflexivity.
Qed.

Lemma zero_finite F `{FmtOk F} : isfinite F 0 = true /\ fval F 0 = 0.
Proof.
  pose proof (inf_lt_sgnbit F). destruct (with_sgn_finite F false 0 ltac:(lia)) as (A & _ & _ & _ & D).
  simpl in A, D. rewrite mval_0 in D by assumption. auto.
Qed.

(** The nearest integer [z], the distance [y] to it, and their sum. *)
Lemma neighbour_val x : is_u 64 x -> isfinite F64 x = true -> expo F64 (mag F64 x) < 1075 ->
  exists z, 2 * Z.abs (z * One64 - fval F64 x) <= One64 /\ Z.abs z <= 2 ^ 52 /\
    fval F64 (int_neighbour x) = z * One64 - fval F64 x /\
    isfinite F64 (int_neighbour x) = true /\
    fval F64 (fadd F64 x (int_neighbour x)) = z * One64 /\
    isfinite F64 (fadd F64 x (int_neighbour x)) = true.
Proof.
  intros U Fin G. pose proof (small_value F64 x G) as Sv. pose proof (absv_nonneg F64 x) as Pv.
  pose proof (one_val_pos F64) as P1.
  destruct (toint_trip_val F64 x U Fin Sv) as (V & Vf & Vu & _).
  destruct (round_toint F64 (mval F64 (mag F64 x)) ltac:(lia)) as (_ & _ & Rb).
  destruct (rne_nearest (mval F64 (mag F64 x)) (eunit F64) ltac:(apply Z.lt_le_incl, eunit_pos, F64_ok))
    as [Near _].
  pose proof (repr_distance F64 x G) as Rd. pose proof (repr_int F64 _ ltac:(split; [apply Rb |
    etransitivity; [apply Rb |]; change (mbits F64) with 52; lia])) as Ri.
  set (r := rne (mval F64 (mag F64 x)) (eunit F64)) in *. fold One64 in Near.
  exists (signed (sgn F64 x) r). rewrite (neighbour_trip x U).
  assert (Vz : fval F64 (toint_trip F64 x) = signed (sgn F64 x) r * One64)
    by (rewrite V; unfold signed; destruct (sgn F64 x); lia).
  assert (Ab : Z.abs (signed (sgn F64 x) r * One64 - fval F64 x)
               = Z.abs (r * One64 - mval F64 (mag F64 x)))
    by (rewrite (fval_signed F64 x); unfold signed; destruct (sgn F64 x); lia).
  assert (R1 : repr F64 (fval F64 (toint_trip F64 x) - fval F64 x)).
  { destruct Rd as (a & Ha & Ea). exists a. rewrite Vz, Ab. auto. }
  destruct (fsub_exact F64 _ x U Vf Fin R1) as (Yv & Yf & Yu & _). rewrite Vz in Yv.
  assert (R2 : repr F64 (fval F64 x + fval F64 (fsub F64 (toint_trip F64 x) x))).
  { destruct Ri as (a & Ha & Ea). exists a. split; [exact Ha |]. rewrite Ea, Yv.
    unfold signed. destruct (sgn F64 x); lia. }
  destruct (fadd_exact F64 x _ Fin Yf R2) as (Sv' & Sf & _).
  rewrite Ab. repeat split; try assumption.
  - lia.
  - change (mbits F64) with 52 in Rb. unfold signed. destruct (sgn F64 x); lia.
  - rewrite Sv', Yv. lia.
Qed.

Lemma of_int_64 z : Z.abs z <= 2 -> fval F64 (of_int F64 z) = z * One64 /\
  isfinite F64 (of_int F64 z) = true /\ is_u 64 (of_int F64 z) /\ sgn F64 (of_int F64 z) = (z <? 0).
Proof. intros H. apply (of_int_exact F64). change (mbits F64) with 52. lia. Qed.

(** Adding one to a small integer value. *)
Lemma step_int x z d : isfinite F64 x = true -> fval F64 x = z * One64 -> Z.abs z <= 2 ^ 52 ->
  Z.abs d <= 1 -> fval F64 (fadd F64 x (of_int F64 d)) = (z + d) * One64 /\
  isfinite F64 (fadd F64 x (of_int F64 d)) = true.
Proof.
  intros Fx V Hz Hd. destruct (of_int_64 d ltac:(lia)) as (Dv & Df & _).
  assert (R : repr F64 (fval F64 x + fval F64 (of_int F64 d))).
  { rewrite V, Dv. replace (z * One64 + d * One64) with ((z + d) * One64) by lia.
    destruct (repr_int F64 (Z.abs (z + d)) ltac:(change (mbits F64) with 52; lia)) as (a & Ha & Ea).
    exists a. split; [exact Ha |]. rewrite Ea, !Z.abs_mul, Z.abs_idemp. reflexivity. }
  destruct (fadd_exact F64 x _ Fx Df R) as (Sv & Sf & _). rewrite Sv, V, Dv. split; [lia | exact Sf].
Qed.

Lemma fsub_one x : fsub F64 x (of_int F64 1) = fadd F64 x (of_int F64 (-1)).
Proof. reflexivity. Qed.

(** A number that [floor] and [ceil] return as it is. *)
Lemma already_integer x : is_u 64 x -> (0x3ff + 52 <=? efield F64 x) || feq F64 x 0 = true ->
  isfinite F64 x = true -> fval F64 x = fval F64 x / One64 * One64.
Proof.
  intros U H Fin. rewrite efield_64 in H by exact U. pose proof (mag_range F64 x) as R.
  apply orb_true_iff in H as [H | H].
  - apply Z.leb_le in H. pose proof (large_integer F64 (mag F64 x) ltac:(lia) H) as I.
    pose proof (one_val_pos F64). rewrite fval_signed. unfold signed. destruct (sgn F64 x); [| exact I].
    rewrite I at 2. replace (- (mval F64 (mag F64 x) / One64 * One64))
      with ((- (mval F64 (mag F64 x) / One64)) * One64) by lia. rewrite Z.div_mul by lia. lia.
  - rewrite feq_zero in H by (apply F64_ok || exact Fin). apply Z.eqb_eq in H. rewrite H. reflexivity.
Qed.

Lemma tiny_value x : is_u 64 x -> isfinite F64 x = true -> efield F64 x <= 0x3ff - 1 ->
  feq F64 x 0 = false -> (sgn F64 x = true /\ - One64 < fval F64 x < 0) \/
                         (sgn F64 x = false /\ 0 < fval F64 x < One64).
Proof.
  intros U Fin H Nz. rewrite efield_64 in H by exact U. pose proof (mag_range F64 x) as R.
  pose proof (proj1 (below_one F64 (mag F64 x) ltac:(lia)) ltac:(change (bias F64) with 1023; lia)).
  pose proof (absv_nonneg F64 x). rewrite feq_zero in Nz by (apply F64_ok || exact Fin).
  apply Z.eqb_neq in Nz. rewrite fval_signed in *. unfold signed in *. destruct (sgn F64 x); lia.
Qed.

Lemma floor_val x : is_u 64 x -> isfinite F64 x = true ->
  fval F64 (floor x) = fval F64 x / One64 * One64 /\ isfinite F64 (floor x) = true.
Proof.
  intros U Fin. unfold floor. destruct ((0x3ff + 52 <=? efield F64 x) || feq F64 x 0) eqn:Big.
  { split; [apply already_integer; assumption | exact Fin]. }
  apply orb_false_iff in Big as [Bg Nz]. apply Z.leb_gt in Bg. pose proof (one_val_pos F64) as P1.
  destruct (Z.leb_spec (efield F64 x) (0x3ff - 1)) as [L | G].
  - rewrite neg_test_64 by exact U. destruct (tiny_value x U Fin L Nz) as [[-> H] | [-> H]].
    + destruct (of_int_64 (-1) ltac:(lia)) as (V & Vf & _). split; [| exact Vf]. rewrite V. f_equal.
      apply (Z.div_unique _ _ _ (fval F64 x + One64)); lia.
    + destruct (zero_finite F64) as [Zf Zv]. split; [| exact Zf]. rewrite Zv, Z.div_small; lia.
  - destruct (neighbour_val x U Fin ltac:(rewrite <- efield_64 by exact U; lia))
      as (z & Near & Hz & Yv & Yf & Sv & Sf).
    destruct (zero_finite F64) as [Zf Zv]. rewrite flt_finite, Zv, Yv by (apply F64_ok || assumption).
    destruct (Z.ltb_spec 0 (z * One64 - fval F64 x)) as [Up | Dn].
    + rewrite fsub_one. destruct (step_int _ z (-1) Sf Sv Hz ltac:(lia)) as [V Vf].
      split; [| exact Vf]. rewrite V. f_equal.
      apply (Z.div_unique _ _ _ (fval F64 x - (z + -1) * One64)); lia.
    + split; [| exact Sf]. rewrite Sv. f_equal.
      apply (Z.div_unique _ _ _ (fval F64 x - z * One64)); lia.
Qed.

Lemma ceil_val x : is_u 64 x -> isfinite F64 x = true ->
  fval F64 (ceil x) = - (- fval F64 x / One64) * One64 /\ isfinite F64 (ceil x) = true.
Proof.
  intros U Fin. unfold ceil. destruct ((0x3ff + 52 <=? efield F64 x) || feq F64 x 0) eqn:Big.
  { split; [| exact Fin]. pose proof (already_integer x U Big Fin) as I. pose proof (one_val_pos F64).
    rewrite I at 2. replace (- (fval F64 x / One64 * One64)) with (- (fval F64 x / One64) * One64) by lia.
    rewrite Z.div_mul by lia. lia. }
  apply orb_false_iff in Big as [Bg Nz]. apply Z.leb_gt in Bg. pose proof (one_val_pos F64) as P1.
  destruct (Z.leb_spec (efield F64 x) (0x3ff - 1)) as [L | G].
  - rewrite neg_test_64 by exact U. destruct (tiny_value x U Fin L Nz) as [[-> H] | [-> H]].
    + split; [| reflexivity]. rewrite Z.div_small by lia. reflexivity.
    + destruct (of_int_64 1 ltac:(lia)) as (V & Vf & _). split; [| exact Vf]. rewrite V. f_equal.
      enough (- fval F64 x / One64 = -1) by lia. symmetry.
      apply (Z.div_unique _ _ _ (- fval F64 x + One64)); lia.
  - destruct (neighbour_val x U Fin ltac:(rewrite <- efield_64 by exact U; lia))
      as (z & Near & Hz & Yv & Yf & Sv & Sf).
    destruct (zero_finite F64) as [Zf Zv]. rewrite flt_finite, Zv, Yv by (apply F64_ok || assumption).
    destruct (Z.ltb_spec (z * One64 - fval F64 x) 0) as [Dn | Up].
    + destruct (step_int _ z 1 Sf Sv Hz ltac:(lia)) as [V Vf]. split; [| exact Vf]. rewrite V. f_equal.
      enough (- fval F64 x / One64 = - (z + 1)) by lia. symmetry.
      apply (Z.div_unique _ _ _ (- fval F64 x + (z + 1) * One64)); lia.
    + split; [| exact Sf]. rewrite Sv. f_equal. enough (- fval F64 x / One64 = - z) by lia. symmetry.
      apply (Z.div_unique _ _ _ (- fval F64 x + z * One64)); lia.
Qed.

(** ** Floor and ceiling of floats *)

(** Rounding the magnitude up to the next integer. *)
Lemma fraction_up F `{FmtOk F} a : 0 <= a -> bias F <= expo F a < bias F + mbits F ->
  let t := mbits F + bias F - expo F a in
  mval F (a - a mod 2 ^ t + 2 ^ t) = (mval F a / one_val F + 1) * one_val F.
Proof.
  intros Ha He t. destruct (clear_fraction F a Ha He) as (Ht & Cv & _). fold t in Ht, Cv.
  destruct (decode F a) as [m k] eqn:D. pose proof (bias_pos F).
  pose proof (decode_expo F a m k ltac:(lia) D) as K.
  destruct (decode_spec F a m k Ha D) as (E & Hk & Hm & Nm & _).
  pose proof (Z.pow_pos_nonneg 2 t ltac:(lia) ltac:(lia)) as P.
  assert (Pm : 2 ^ mbits F = 2 ^ t * 2 ^ (mbits F - t)) by (rewrite <- Z.pow_add_r by lia; f_equal; lia).
  assert (R : a mod 2 ^ t = m mod 2 ^ t).
  { rewrite E, Pm. replace (k * (2 ^ t * 2 ^ (mbits F - t))) with ((k * 2 ^ (mbits F - t)) * 2 ^ t) by lia.
    apply Z.mod_add. lia. }
  assert (One : one_val F = 2 ^ t * 2 ^ k).
  { unfold one_val. rewrite <- Z.pow_add_r by lia. f_equal. unfold eunit. lia. }
  assert (E1 : a - a mod 2 ^ t = m / 2 ^ t * 2 ^ t + k * 2 ^ mbits F)
    by (rewrite R, E, (Z.mod_eq m) by lia; lia).
  assert (Q : 0 <= m / 2 ^ t < 2 * 2 ^ (mbits F - t)).
  { split; [apply Z.div_pos; lia |]. apply Z.div_lt_upper_bound; [lia |]. lia. }
  assert (Low : 0 < k -> 2 ^ mbits F <= m / 2 ^ t * 2 ^ t).
  { intros K0. specialize (Nm K0). rewrite Pm, (Z.mul_comm (2 ^ t)).
    apply Z.mul_le_mono_nonneg_r; [lia |]. apply Z.div_le_lower_bound; lia. }
  rewrite E1 in Cv |- *. replace (m / 2 ^ t * 2 ^ t + k * 2 ^ mbits F + 2 ^ t)
    with ((m / 2 ^ t * 2 ^ t + 2 ^ t) + k * 2 ^ mbits F) by lia.
  rewrite mval_build_carry by (assumption || nia).
  rewrite mval_build in Cv by (assumption || nia). nia.
Qed.

Abbreviation One32 := (one_val F32).

(** The bit pattern [floorf] and [ceilf] build when they move away from zero. *)
Lemma push_up x t : is_u 32 x -> 0 < t <= 23 -> x mod 2 ^ t <> 0 -> mag F32 x < inf_mag F32 ->
  Z.ldiff (u32 (x + (2 ^ t - 1))) (2 ^ t - 1) =
    with_sgn F32 (sgn F32 x) (mag F32 x - mag F32 x mod 2 ^ t + 2 ^ t).
Proof.
  intros U Ht Nz Fin. pose proof (Z.pow_pos_nonneg 2 t ltac:(lia) ltac:(lia)) as P.
  pose proof (Z.pow_le_mono_r 2 t 23 ltac:(lia) ltac:(lia)) as Pt.
  pose proof (Z.mod_pos_bound x (2 ^ t) P) as R. pose proof (with_sgn_split F32 x U) as S.
  assert (X : x + (2 ^ t - 1) < 2 ^ 32).
  { rewrite <- S. unfold with_sgn. change (sgnbit F32) with (2 ^ 31).
    change (inf_mag F32) with (255 * 2 ^ 23) in Fin. destruct (sgn F32 x); lia. }
  rewrite wrapu_small by (unfold is_u in *; lia). rewrite ldiff_low by lia.
  assert (M : (x + (2 ^ t - 1)) mod 2 ^ t = x mod 2 ^ t - 1).
  { replace (x + (2 ^ t - 1)) with ((x mod 2 ^ t - 1) + (x / 2 ^ t + 1) * 2 ^ t)
      by (rewrite (Z.mod_eq x) by lia; lia).
    rewrite Z.mod_add by lia. apply Z.mod_small. lia. }
  rewrite M, (mod_mag F32) by (change (width F32) with 32; lia).
  rewrite <- S at 1. unfold with_sgn. destruct (sgn F32 x); lia.
Qed.

Lemma efield_32 x : is_u 32 x -> efield F32 x = expo F32 (mag F32 x).
Proof. intros U. apply efield_expo; [apply F32_ok | unfold is_u in U; lia]. Qed.

Lemma sgn_test_32 x : is_u 32 x -> (Z.shiftr x 31 =? 0) = negb (sgn F32 x).
Proof. intros U. rewrite <- (neg_test F32 x U). symmetry. apply negb_involutive. Qed.

(** Division of a signed value by 1.0, from the division of its magnitude. *)
Lemma floor_signed s v d : 0 <= v -> 0 < d -> v mod d <> 0 ->
  signed s v / d = if s then - (v / d + 1) else v / d.
Proof.
  intros Hv Hd N. unfold signed. destruct s; [| reflexivity].
  pose proof (Z.mod_pos_bound v d Hd). pose proof (Z.div_mod v d).
  symmetry. apply (Z.div_unique _ _ _ (d - v mod d)); lia.
Qed.

Lemma floor_exact s v d : 0 < d -> v mod d = 0 -> signed s v / d * d = signed s v.
Proof.
  intros Hd M. apply Z.div_exact in M; [| lia]. set (q := v / d) in M.
  replace (signed s v) with (signed s q * d) by (rewrite M; unfold signed; destruct s; lia).
  rewrite Z.div_mul by lia. reflexivity.
Qed.

(** The three ranges of the exponent. *)
Lemma float_cases x : is_u 32 x -> isfinite F32 x = true ->
  let a := mag F32 x in let v := mval F32 a in
  0 <= a /\ 0 <= v /\
  ((150 <= expo F32 a /\ v mod One32 = 0) \/
   (127 <= expo F32 a < 150 /\ exists t, t = 150 - expo F32 a /\ 0 < t <= 23 /\
      Z.shiftr 0x007fffff (expo F32 a - 127) = 2 ^ t - 1 /\ (x mod 2 ^ t = 0 <-> v mod One32 = 0)) \/
   (expo F32 a < 127 /\ v < One32)).
Proof.
  intros U Fin a v. pose proof (mag_range F32 x) as R. pose proof (absv_nonneg F32 x) as Pv.
  split; [lia |]. split; [exact Pv |].
  destruct (Z.lt_ge_cases (expo F32 a) 127) as [L | G].
  { right; right. split; [exact L |]. apply (below_one F32); [apply R | exact L]. }
  destruct (Z.lt_ge_cases (expo F32 a) 150) as [L | G2].
  - right; left. split; [lia |]. exists (150 - expo F32 a).
    destruct (clear_fraction F32 a ltac:(apply R) ltac:(change (bias F32) with 127;
      change (mbits F32) with 23; lia)) as (Ht & _ & Mz).
    change (mbits F32 + bias F32) with 150 in *. change (mbits F32) with 23 in *.
    split; [reflexivity |]. split; [lia |]. split.
    + rewrite Z.shiftr_div_pow2 by lia. change 0x007fffff with (2 ^ 23 - 1).
      assert (E : 2 ^ 23 = 2 ^ (150 - expo F32 a) * 2 ^ (expo F32 a - 127))
        by (rewrite <- Z.pow_add_r by lia; f_equal; lia).
      pose proof (Z.pow_pos_nonneg 2 (expo F32 a - 127)). pose proof (Z.pow_pos_nonneg 2 (150 - expo F32 a)).
      symmetry. apply (Z.div_unique _ _ _ (2 ^ (expo F32 a - 127) - 1)); nia.
    + unfold v. rewrite <- Mz. unfold a in *. rewrite (mod_mag F32) by (change (width F32) with 32; lia). reflexivity.
  - left. split; [exact G2 |]. pose proof (large_integer F32 a ltac:(apply R) G2) as I.
    pose proof (one_val_pos F32). unfold v. rewrite I. apply Z.mod_mul. lia.
Qed.

(** Clearing the fraction, and rounding the magnitude up. *)
Lemma fraction_bits x t : is_u 32 x -> isfinite F32 x = true -> 127 <= expo F32 (mag F32 x) < 150 ->
  t = 150 - expo F32 (mag F32 x) -> x mod 2 ^ t <> 0 ->
  let v := mval F32 (mag F32 x) in
  fval F32 (Z.ldiff x (2 ^ t - 1)) = signed (sgn F32 x) (v / One32 * One32) /\
  fval F32 (Z.ldiff (u32 (x + (2 ^ t - 1))) (2 ^ t - 1)) = signed (sgn F32 x) ((v / One32 + 1) * One32).
Proof.
  intros U Fin H Et Nz v. destruct (finite_cases F32 x Fin) as (_ & _ & Fm).
  pose proof (mag_range F32 x) as R. pose proof (inf_lt_sgnbit F32) as I.
  pose proof (fraction_up F32 (mag F32 x) ltac:(lia) ltac:(change (bias F32) with 127;
    change (mbits F32) with 23; lia)) as Up.
  destruct (clear_fraction F32 (mag F32 x) ltac:(lia) ltac:(change (bias F32) with 127;
    change (mbits F32) with 23; lia)) as (Ht & Dn & _).
  change (mbits F32 + bias F32) with 150 in *. change (mbits F32) with 23 in *.
  rewrite <- Et in Up, Dn, Ht. fold v in Up, Dn.
  destruct (clear_low F32 x t U ltac:(change (width F32) with 32; lia)) as [C1 C2].
  pose proof (Z.pow_le_mono_r 2 t 23 ltac:(lia) ltac:(lia)).
  pose proof (Z.mod_pos_bound (mag F32 x) (2 ^ t) ltac:(apply Z.pow_pos_nonneg; lia)).
  split.
  - rewrite ldiff_low, C1, fval_with_sgn, Dn by (apply F32_ok || lia). reflexivity.
  - rewrite push_up by (assumption || lia). rewrite fval_with_sgn, Up by (apply F32_ok || lia).
    reflexivity.
Qed.

Lemma mval_pos_32 a : 0 < a -> 0 < mval F32 a.
Proof. intros H. rewrite <- (mval_0 F32). apply mval_mono; [apply F32_ok | lia]. Qed.

Lemma floorf_val x : is_u 32 x -> isfinite F32 x = true ->
  fval F32 (floorf x) = fval F32 x / One32 * One32.
Proof.
  intros U Fin. pose proof (mag_range F32 x) as R. pose proof (one_val_pos F32) as P1.
  destruct (float_cases x U Fin) as (Pa & Pv & C). unfold floorf.
  rewrite efield_32, sgn_test_32, negb_involutive by exact U.
  rewrite (fval_signed F32 x). set (v := mval F32 (mag F32 x)) in *.
  destruct C as [[H M] | [[H (t & Et & Ht & Sh & Mz)] | [H L]]];
    destruct (Z.leb_spec 23 (expo F32 (mag F32 x) - 0x7f)); try lia;
    try (destruct (Z.leb_spec 0 (expo F32 (mag F32 x) - 0x7f)); try lia).
  - symmetry. apply floor_exact; assumption.
  - rewrite Sh, land_low by lia. destruct (Z.eqb_spec (x mod 2 ^ t) 0) as [Z0 | Nz].
    + symmetry. apply floor_exact; [exact P1 | apply Mz, Z0].
    + rewrite floor_signed by (try assumption; rewrite <- Mz; exact Nz).
      destruct (fraction_bits x t U Fin H Et Nz) as [Dn Up]. fold v in Dn, Up.
      destruct (sgn F32 x); [rewrite Up | rewrite Dn]; unfold signed; lia.
  - rewrite shl_1 by (apply F32_ok || exact U). unfold signed.
    destruct (sgn F32 x) eqn:S; simpl negb; cbv iota.
    + destruct (Z.eqb_spec (2 * mag F32 x) 0) as [Z0 | N]; simpl negb; cbv iota.
      * assert (V0 : v = 0) by (unfold v; replace (mag F32 x) with 0 by lia; apply mval_0, F32_ok).
        rewrite fval_signed, S. fold v. rewrite V0. reflexivity.
      * destruct (of_int_exact F32 (-1) ltac:(change (mbits F32) with 23; lia)) as (V & _).
        rewrite V. f_equal. pose proof (mval_pos_32 (mag F32 x) ltac:(lia)).
        apply (Z.div_unique _ _ _ (One32 - v)); lia.
    + rewrite (proj2 (zero_finite F32)), Z.div_small by lia. reflexivity.
Qed.

Lemma signed_opp s v : - signed s v = signed (negb s) v.
Proof. destruct s; simpl; lia. Qed.

Lemma ceilf_val x : is_u 32 x -> isfinite F32 x = true ->
  fval F32 (ceilf x) = - (- fval F32 x / One32) * One32.
Proof.
  intros U Fin. pose proof (mag_range F32 x) as R. pose proof (one_val_pos F32) as P1.
  destruct (float_cases x U Fin) as (Pa & Pv & C). unfold ceilf.
  rewrite efield_32, sgn_test_32, negb_involutive by exact U.
  rewrite (fval_signed F32 x), signed_opp. set (v := mval F32 (mag F32 x)) in *.
  assert (Ex : v mod One32 = 0 -> signed (sgn F32 x) v = - (signed (negb (sgn F32 x)) v / One32) * One32).
  { intros M. pose proof (floor_exact (negb (sgn F32 x)) v One32 P1 M) as E.
    rewrite Z.mul_opp_l, E, signed_opp, negb_involutive. reflexivity. }
  destruct C as [[H M] | [[H (t & Et & Ht & Sh & Mz)] | [H L]]];
    destruct (Z.leb_spec 23 (expo F32 (mag F32 x) - 0x7f)); try lia;
    try (destruct (Z.leb_spec 0 (expo F32 (mag F32 x) - 0x7f)); try lia).
  - apply Ex, M.
  - rewrite Sh, land_low by lia. destruct (Z.eqb_spec (x mod 2 ^ t) 0) as [Z0 | Nz].
    + apply Ex, Mz, Z0.
    + rewrite floor_signed by (try assumption; rewrite <- Mz; exact Nz).
      destruct (fraction_bits x t U Fin H Et Nz) as [Dn Up]. fold v in Dn, Up.
      destruct (sgn F32 x); simpl negb; cbv iota; [rewrite Dn | rewrite Up]; unfold signed; lia.
  - rewrite shl_1 by (apply F32_ok || exact U). unfold signed.
    destruct (sgn F32 x) eqn:S; simpl negb; cbv iota.
    + rewrite Z.div_small by lia. reflexivity.
    + destruct (Z.eqb_spec (2 * mag F32 x) 0) as [Z0 | N]; simpl negb; cbv iota.
      * assert (V0 : v = 0) by (unfold v; replace (mag F32 x) with 0 by lia; apply mval_0, F32_ok).
        rewrite fval_signed, S. fold v. rewrite V0. reflexivity.
      * destruct (of_int_exact F32 1 ltac:(change (mbits F32) with 23; lia)) as (V & _).
        rewrite V. f_equal. pose proof (mval_pos_32 (mag F32 x) ltac:(lia)).
        enough (- v / One32 = -1) by lia. symmetry. apply (Z.div_unique _ _ _ (One32 - v)); lia.
Qed.

(** ** Rounding half away from zero *)

Section RoundFacts.
Context (F : fmt) {HF : FmtOk F}.

Abbreviation W := (width F).
Abbreviation MB := (mbits F).
Abbreviation One := (one_val F).
Abbreviation absv x := (mval F (mag F x)).
Abbreviation half := (fdiv F (of_int F 1) (of_int F 2)).

(** 0.5 is what it should be; checked for the two formats. *)
Context (Half : is_u W half /\ isfinite F half = true /\ 2 * fval F half = One).

Lemma below_half a : 0 <= a -> expo F a < bias F - 1 -> 2 * mval F a < One.
Proof using HF.
  intros Ha He. pose proof (mbits_bias F) as Mb. pose proof (mbits_gt F). pose proof (pow_m_pos F).
  assert (T : 2 * mval F (2 ^ MB + (bias F - 2) * 2 ^ MB) = One).
  { rewrite mval_build by (exact HF || lia). unfold one_val, eunit.
    rewrite Z.mul_assoc, (Z.mul_comm 2), <- Z.mul_assoc, <- Z.pow_succ_r, <- Z.pow_add_r by lia. f_equal. lia. }
  rewrite <- T. destruct (expo_frac F a Ha) as (E & _ & Fr).
  enough (mval F a < mval F (2 ^ MB + (bias F - 2) * 2 ^ MB)) by lia. apply mval_mono; [exact HF | nia].
Qed.

Lemma add_int y z d : isfinite F y = true -> fval F y = z * One -> Z.abs z <= 2 ^ MB -> Z.abs d <= 1 ->
  fval F (fadd F y (of_int F d)) = (z + d) * One /\ isfinite F (fadd F y (of_int F d)) = true /\
  is_u W (fadd F y (of_int F d)).
Proof using HF.
  intros Fy V Hz Hd. pose proof (pow_m_pos F).
  destruct (of_int_exact F d ltac:(lia)) as (Dv & Df & _).
  assert (R : repr F (fval F y + fval F (of_int F d))).
  { rewrite V, Dv. replace (z * One + d * One) with ((z + d) * One) by lia.
    destruct (repr_int F (Z.abs (z + d)) ltac:(lia)) as (a & Ha & Ea).
    exists a. split; [exact Ha |]. rewrite Ea, !Z.abs_mul, Z.abs_idemp. reflexivity. }
  destruct (fadd_exact F y _ Fy Df R) as (Sv & Sf & Su & _). rewrite Sv, V, Dv. split; [lia | auto].
Qed.

(** The middle of [round] on a nonnegative number. *)
Definition round_pos (x : Z) : Z :=
  let y := fsub F (fsub F (fadd F x (toint F)) (toint F)) x in
  if flt F half y then fsub F (fadd F y x) (of_int F 1)
  else if fle F y (fneg F half) then fadd F (fadd F y x) (of_int F 1)
  else fadd F y x.

Lemma round_pos_val x : is_u W x -> isfinite F x = true -> sgn F x = false ->
  expo F (mag F x) < bias F + MB ->
  fval F (round_pos x) = (2 * absv x + One) / (2 * One) * One /\ is_u W (round_pos x) /\
  isfinite F (round_pos x) = true.
Proof using HF Half.
  intros U Fin S G. pose proof (small_value F x G) as Sv. pose proof (absv_nonneg F x) as Pv.
  pose proof (one_val_pos F) as P1. pose proof (pow_m_pos F) as Pm. destruct Half as (Hu & Hf & Hv).
  destruct (toint_trip_val F x U Fin Sv) as (V & Vf & Vu & _).
  destruct (round_toint F (absv x) ltac:(lia)) as (_ & _ & Rb).
  destruct (rne_nearest (absv x) (eunit F) ltac:(pose proof (eunit_pos F); lia)) as [Near _].
  pose proof (repr_distance F x G) as Rd. set (r := rne (absv x) (eunit F)) in *. fold One in Near.
  pose proof (repr_int F r ltac:(lia)) as Ri. unfold toint_trip in V, Vf, Vu. rewrite S in V, Vf, Vu.
  simpl signed in V. assert (Xv : fval F x = absv x) by (rewrite fval_signed, S; reflexivity).
  assert (R1 : repr F (fval F (fsub F (fadd F x (toint F)) (toint F)) - fval F x)).
  { rewrite V, Xv. exact Rd. }
  destruct (fsub_exact F _ x U Vf Fin R1) as (Yv & Yf & Yu & _). rewrite V, Xv in Yv.
  unfold round_pos. set (y := fsub F (fsub F (fadd F x (toint F)) (toint F)) x) in *.
  assert (R2 : repr F (fval F y + fval F x)).
  { rewrite Yv, Xv. replace (r * One - absv x + absv x) with (r * One) by lia. exact Ri. }
  destruct (fadd_exact F y x Yf Fin R2) as (Zv & Zf & Zu & _).
  rewrite Yv, Xv in Zv. replace (r * One - absv x + absv x) with (r * One) in Zv by lia.
  destruct (fneg_spec F half Hu) as (Nv & _). pose proof (fneg_finite F half Hu) as Nf. rewrite Hf in Nf.
  rewrite flt_finite, Yv by (exact HF || assumption).
  destruct (Z.ltb_spec (fval F half) (r * One - absv x)); [lia |].
  assert (Le : fle F y (fneg F half) = (r * One - absv x <=? - fval F half)).
  { unfold fle. destruct (finite_cases F y Yf) as (-> & _), (finite_cases F _ Nf) as (-> & _).
    rewrite Yv, Nv. reflexivity. }
  rewrite Le. destruct (Z.leb_spec (r * One - absv x) (- fval F half)) as [T | NT].
  - destruct (add_int _ r 1 Zf Zv ltac:(lia) ltac:(lia)) as (A & B & C). rewrite A.
    split; [| auto]. f_equal. apply (Z.div_unique _ _ _ (2 * absv x + One - (2 * One) * (r + 1))); lia.
  - rewrite Zv. split; [| auto]. f_equal.
    apply (Z.div_unique _ _ _ (2 * absv x + One - (2 * One) * r)); lia.
Qed.

Lemma round_val x : is_u W x -> isfinite F x = true ->
  fval F (round_gen F x) = signed (sgn F x) ((2 * absv x + One) / (2 * One) * One).
Proof using HF Half.
  intros U Fin. pose proof (one_val_pos F) as P1. pose proof (mag_range F x) as R.
  pose proof (absv_nonneg F x) as Pv. unfold round_gen.
  rewrite efield_expo by (exact HF || apply (is_u_nonneg F), U). rewrite neg_test by (exact HF || exact U).
  destruct (Z.leb_spec (bias F + MB) (expo F (mag F x))) as [L | G].
  - rewrite fval_signed. f_equal. pose proof (large_integer F (mag F x) ltac:(lia) L) as I.
    rewrite I at 1. f_equal. apply (Z.div_unique _ _ _ One); [lia |].
    pose proof (Z.div_mod (absv x) One). lia.
  - destruct (Z.ltb_spec (expo F (mag F x)) (bias F - 1)) as [T | NT].
    + pose proof (below_half (mag F x) ltac:(lia) T). rewrite Z.div_small by lia.
      unfold fmul. destruct (finite_cases F x Fin) as (Nx & Ix & _).
      destruct (zero_finite F) as [Zf _]. destruct (finite_cases F 0 Zf) as (N0 & I0 & _).
      rewrite Nx, Ix, N0, I0. simpl orb. cbv iota.
      assert (D0 : decode F (mag F 0) = (0, 0)).
      { unfold mag. rewrite Z.mod_0_l by (pose proof (sgnbit_pos F); lia). reflexivity. }
      rewrite D0. destruct (decode F (mag F x)) as [m2 k2]. simpl orb. cbv iota.
      rewrite fval_with_sgn, mval_0 by (exact HF || (pose proof (sgnbit_pos F); lia)).
      destruct (sgn F x), (sgn F 0); reflexivity.
    + fold (round_pos (if sgn F x then fneg F x else x)).
      destruct (fneg_spec F x U) as (Fv & Fs & Fm & Fu). pose proof (fneg_finite F x U) as Ff.
      destruct (sgn F x) eqn:S; simpl in Fs |- *.
      * destruct (round_pos_val (fneg F x) Fu ltac:(congruence) Fs ltac:(rewrite Fm; lia)) as (V & Vu & _).
        destruct (fneg_spec F _ Vu) as (Rv & _). rewrite Fm in V. etransitivity; [exact Rv |].
        rewrite V. reflexivity.
      * apply (round_pos_val x U Fin S). lia.
Qed.
End RoundFacts.

Lemma half_64 : let h := fdiv F64 (of_int F64 1) (of_int F64 2) in
  is_u 64 h /\ isfinite F64 h = true /\ 2 * fval F64 h = one_val F64.
Proof. vm_compute. repeat split; discriminate. Qed.
Lemma half_32 : let h := fdiv F32 (of_int F32 1) (of_int F32 2) in
  is_u 32 h /\ isfinite F32 h = true /\ 2 * fval F32 h = one_val F32.
Proof. vm_compute. repeat split; discriminate. Qed.

(** ** Splitting *)

Section ModfFacts.
Context (F : fmt) {HF : FmtOk F}.

Abbreviation W := (width F).
Abbreviation MB := (mbits F).
Abbreviation One := (one_val F).
Abbreviation absv x := (mval F (mag F x)).

(** [u.i & 1ULL<<63] is the zero of the sign of [x]. *)
Lemma signed_zero x : is_u W x -> Z.land x (Z.shiftl 1 (W - 1)) = with_sgn F (sgn F x) 0.
Proof using HF.
  intros U. pose proof (width_gt F) as Wg. unfold is_u in U.
  assert (E : Z.land x (Z.shiftl 1 (W - 1)) = Z.ldiff x (Z.ones (W - 1))).
  { apply Z.bits_inj'. intros i Hi. rewrite Z.land_spec, Z.ldiff_spec.
    rewrite Z.shiftl_spec by exact Hi. destruct (Z.lt_trichotomy i (W - 1)) as [L | [-> | G]].
    - rewrite Z.ones_spec_low by lia. rewrite (Z.testbit_neg_r 1) by lia. rewrite !andb_false_r. reflexivity.
    - rewrite Z.ones_spec_high by lia. rewrite Z.sub_diag. reflexivity.
    - rewrite (Z.bits_above_log2 x i); [reflexivity | lia |].
      destruct (Z.eq_dec x 0) as [-> | N]; [simpl; lia |]. apply Z.log2_lt_pow2; [lia |].
      eapply Z.lt_le_trans; [apply U |]. apply Z.pow_le_mono_r; lia. }
  rewrite E. replace (Z.ones (W - 1)) with (2 ^ (W - 1) - 1) by (rewrite Z.ones_equiv; lia).
  rewrite ldiff_low by lia. destruct (clear_low F x (W - 1) U ltac:(lia)) as [C _]. rewrite C.
  fold (sgnbit F). unfold mag at 2. rewrite Z.mod_mod by (pose proof (sgnbit_pos F); lia).
  f_equal. unfold mag. lia.
Qed.

Lemma quot_fval x : Z.quot (fval F x) One * One = signed (sgn F x) (absv x / One * One).
Proof using HF. apply quot_signed; [apply absv_nonneg, HF | apply one_val_pos, HF]. Qed.

Lemma trunc_val x : is_u W x -> isfinite F x = true ->
  fval F (trunc_gen F x) = Z.quot (fval F x) One * One /\ sgn F (trunc_gen F x) = sgn F x /\
  isfinite F (trunc_gen F x) = true.
Proof using HF.
  intros U Fin. destruct (trunc_mag F x U Fin) as (a & E & Ha & V).
  destruct (finite_cases F x Fin) as (_ & _ & Fm).
  destruct (with_sgn_finite F (sgn F x) a ltac:(lia)) as (A & _ & C & _ & D).
  rewrite E, D, V, quot_fval. auto.
Qed.

(** The fraction of a number is representable. *)
Lemma repr_fraction a : 0 <= a -> bias F <= expo F a < bias F + MB -> repr F (mval F a mod One).
Proof using HF.
  intros Ha He. destruct (decode F a) as [m k] eqn:D. pose proof (bias_pos F).
  destruct (decode_spec F a m k Ha D) as (E & Hk & Hm & _).
  pose proof (decode_expo F a m k ltac:(lia) D) as Ke. set (t := MB + bias F - expo F a).
  assert (O2 : One = 2 ^ t * 2 ^ k).
  { unfold one_val. rewrite <- Z.pow_add_r by lia. f_equal. unfold eunit. lia. }
  pose proof (Z.pow_pos_nonneg 2 k ltac:(lia) ltac:(lia)).
  pose proof (Z.pow_pos_nonneg 2 t ltac:(lia) ltac:(lia)).
  rewrite (mval_decode F a m k D), O2, Z.mul_mod_distr_r by lia.
  apply repr_scaled; [exact HF | |].
  - pose proof (Z.mod_pos_bound m (2 ^ t)). pose proof (Z.mod_le m (2 ^ t)). lia.
  - pose proof (emax_bias F). pose proof (mbits_bias F). lia.
Qed.

(** The two parts when there is a fraction: [i] is [x] without it. *)
Lemma modf_split x a : is_u W x -> isfinite F x = true -> 0 <= a < inf_mag F ->
  mval F a = absv x / One * One -> absv x mod One <> 0 -> repr F (absv x mod One) ->
  let ip := with_sgn F (sgn F x) a in
  fval F ip = signed (sgn F x) (absv x / One * One) /\
  fval F (fsub F x ip) = fval F x - fval F ip /\
  sgn F ip = sgn F x /\ sgn F (fsub F x ip) = sgn F x /\
  isfinite F ip = true /\ isfinite F (fsub F x ip) = true.
Proof using HF.
  intros U Fin Ha Va Nz (b & Hb & Eb) ip. pose proof (one_val_pos F) as P1.
  destruct (with_sgn_finite F (sgn F x) a Ha) as (Af & Au & As & _ & Av). fold ip in Af, Au, As, Av.
  rewrite Va in Av. pose proof (Z.mod_pos_bound (absv x) One P1). pose proof (Z.div_mod (absv x) One).
  assert (Rp : repr F (fval F x - fval F ip)).
  { exists b. split; [exact Hb |]. rewrite Eb, Av, fval_signed. unfold signed. destruct (sgn F x); lia. }
  destruct (fsub_exact F x ip Au Fin Af Rp) as (V & Vf & _ & Vs).
  repeat split; try assumption. rewrite Vs, Av, fval_signed. unfold signed.
  destruct (sgn F x); zbool; try reflexivity; lia.
Qed.

Lemma modf_val x : is_u W x -> isfinite F x = true ->
  let '(fp, ip) := modf_gen F x in
  fval F ip = Z.quot (fval F x) One * One /\ fval F fp = fval F x - fval F ip /\
  sgn F ip = sgn F x /\ sgn F fp = sgn F x /\ isfinite F ip = true /\ isfinite F fp = true.
Proof using HF.
  intros U Fin. pose proof (mag_range F x) as R. pose proof (one_val_pos F) as P1.
  pose proof (bias_pos F) as Bp. pose proof (mbits_gt F) as Mg. pose proof (ebits_gt F) as Eg.
  pose proof (inf_lt_sgnbit F) as Inf. destruct (finite_cases F x Fin) as (_ & _ & Fm).
  destruct (with_sgn_finite F (sgn F x) 0 ltac:(lia)) as (Zf & _ & Zs & _ & Zv).
  rewrite mval_0 in Zv by exact HF. pose proof (absv_nonneg F x) as Pv.
  assert (Zv0 : fval F (with_sgn F (sgn F x) 0) = 0) by (rewrite Zv; destruct (sgn F x); lia).
  unfold modf_gen. rewrite efield_expo by (exact HF || apply (is_u_nonneg F), U).
  rewrite signed_zero by exact U. rewrite quot_fval. set (a := mag F x) in *.
  assert (Whole : absv x mod One = 0 -> signed (sgn F x) (absv x / One * One) = fval F x).
  { intros M. apply Z.div_exact in M; [| lia]. rewrite fval_signed. f_equal. fold a in M |- *. lia. }
  destruct (Z.leb_spec MB (expo F a - bias F)) as [L | G].
  { destruct (expo_frac F a ltac:(lia)) as (Ea & _ & Fr). unfold inf_mag in Fm.
    destruct (Z.eqb_spec (expo F a - bias F) (bias F + 1)).
    { pose proof (emax_bias F). nia. }
    simpl andb. cbv iota. rewrite Zv0. repeat split; try assumption; [| lia].
    symmetry. apply Whole. fold a. rewrite (large_integer F a) by (exact HF || lia). apply Z.mod_mul. lia. }
  destruct (Z.ltb_spec (expo F a - bias F) 0) as [Lt | Ge].
  { rewrite Zv0. repeat split; try assumption; [| lia].
    pose proof (proj1 (below_one F a ltac:(lia)) ltac:(lia)). fold a in Pv.
    rewrite Z.div_small by lia. destruct (sgn F x); reflexivity. }
  destruct (clear_fraction F a ltac:(lia) ltac:(lia)) as (Ht & Cv & Mz).
  set (t := MB + bias F - expo F a) in *.
  assert (Mask : Z.shiftr (ones_shr F (W - MB)) (expo F a - bias F) = 2 ^ t - 1).
  { unfold ones_shr. rewrite Z.shiftr_shiftr by lia. fold (ones_shr F (W - MB + (expo F a - bias F))).
    rewrite ones_shr_eq by (unfold width; lia). do 2 f_equal. unfold t. lia. }
  rewrite Mask, land_low, ldiff_low by lia.
  rewrite <- (mod_mag F x t) by (unfold width; lia). fold a.
  destruct (Z.eqb_spec (a mod 2 ^ t) 0) as [Z0 | Nz].
  { rewrite Zv0. repeat split; try assumption; [| lia]. symmetry. apply Whole, Mz, Z0. }
  destruct (clear_low F x t U ltac:(unfold width; lia)) as [C1 C2]. fold a in C1, C2.
  assert (C1' : x - a mod 2 ^ t = with_sgn F (sgn F x) (a - a mod 2 ^ t))
    by (rewrite <- C1; unfold a; rewrite mod_mag by (exact HF || (unfold width; lia)); reflexivity).
  rewrite !C1'.
  pose proof (Z.mod_pos_bound a (2 ^ t) ltac:(apply Z.pow_pos_nonneg; lia)) as Rt.
  apply modf_split; try assumption; [lia | |].
  - fold a. rewrite <- Mz. exact Nz.
  - apply repr_fraction; fold a; lia.
Qed.
End ModfFacts.

(** ** The contracts *)

(** [trunc] and [truncf] round towards zero: the result of a finite number is
    the integer part of its value, with the sign of the argument, and infinities
    and NaNs are returned as they are. *)
Theorem trunc_correct x :
  (is_u 64 x -> if isfinite F64 x
     then fval F64 (trunc x) = Z.quot (fval F64 x) (one_val F64) * one_val F64 /\
          sgn F64 (trunc x) = sgn F64 x
     else trunc x = x) /\
  (is_u 32 x -> if isfinite F32 x
     then fval F32 (truncf x) = Z.quot (fval F32 x) (one_val F32) * one_val F32 /\
          sgn F32 (truncf x) = sgn F32 x
     else truncf x = x).
Proof.
  assert (Big : forall F, FmtOk F -> is_u (width F) x -> isfinite F x = false -> trunc_gen F x = x).
  { intros F HF U Fin. unfold isfinite in Fin. apply Z.ltb_ge in Fin. unfold trunc_gen.
    rewrite efield_expo by (exact HF || apply (is_u_nonneg F), U).
    assert (emax F <= expo F (mag F x)).
    { unfold expo. apply Z.div_le_lower_bound; [pose proof (pow_m_pos F); lia |].
      unfold inf_mag in Fin. lia. }
    pose proof (emax_bias F). pose proof (mbits_bias F).
    destruct (Z.leb_spec (mbits F + (width F - mbits F)) (expo F (mag F x) - bias F + (width F - mbits F)));
      [reflexivity | lia]. }
  split; intros U.
  - destruct (isfinite F64 x) eqn:Fin; [| apply (Big F64); assumption || apply F64_ok].
    destruct (trunc_val F64 x U Fin) as (A & B & _). auto.
  - destruct (isfinite F32 x) eqn:Fin; [| apply (Big F32); assumption || apply F32_ok].
    destruct (trunc_val F32 x U Fin) as (A & B & _). auto.
Qed.

Lemma trunc_correct_witness :
  fval F64 (trunc 0xc004000000000000) = -2 * one_val F64 /\ trunc 0xc004000000000000 = 0xc000000000000000.
Proof.
  split; [| reflexivity].
  destruct (trunc_correct 0xc004000000000000) as [H _]. specialize (H ltac:(unfold is_u; lia)).
  change (isfinite F64 0xc004000000000000) with true in H. cbv iota in H. destruct H as [-> _].
  vm_compute. reflexivity.
Defined.

(** [floor], [ceil], [floorf] and [ceilf] of a finite number are the integers
    below and above its value. *)
Theorem floor_ceil_correct x :
  (is_u 64 x -> isfinite F64 x = true ->
     fval F64 (floor x) = fval F64 x / one_val F64 * one_val F64 /\
     fval F64 (ceil x) = - (- fval F64 x / one_val F64) * one_val F64) /\
  (is_u 32 x -> isfinite F32 x = true ->
     fval F32 (floorf x) = fval F32 x / one_val F32 * one_val F32 /\
     fval F32 (ceilf x) = - (- fval F32 x / one_val F32) * one_val F32).
Proof.
  split; intros U Fin; split.
  - apply floor_val; assumption.
  - apply ceil_val; assumption.
  - apply floorf_val; assumption.
  - apply ceilf_val; assumption.
Qed.

Lemma floor_ceil_correct_witness :
  fval F64 (floor 0xc004000000000000) = -3 * one_val F64 /\
  fval F64 (ceil 0xc004000000000000) = -2 * one_val F64.
Proof.
  destruct (floor_ceil_correct 0xc004000000000000) as [H _].
  destruct (H ltac:(unfold is_u; lia) ltac:(vm_compute; reflexivity)) as [-> ->].
  split; vm_compute; reflexivity.
Defined.

(** [rint] rounds to the nearest integer, to the even one when two are equally
    near, and keeps the sign; [round] rounds to the nearest integer and away from
    zero on a tie.  In double and in single precision. *)
Theorem rint_round_correct F x (HF : F = F64 \/ F = F32) (U : is_u (width F) x)
    (Fin : isfinite F x = true) :
  (exists z, fval F (rint_gen F x) = z * one_val F /\ sgn F (rint_gen F x) = sgn F x /\
     2 * Z.abs (fval F x - z * one_val F) <= one_val F /\
     (2 * Z.abs (fval F x - z * one_val F) = one_val F -> Z.even z = true)) /\
  (exists z, fval F (round_gen F x) = z * one_val F /\
     2 * Z.abs (fval F x - z * one_val F) <= one_val F /\
     (2 * Z.abs (fval F x - z * one_val F) = one_val F -> Z.abs (fval F x) < Z.abs z * one_val F)).
Proof.
  assert (Ok : FmtOk F) by (destruct HF; subst F; apply _).
  assert (Half : let h := fdiv F (of_int F 1) (of_int F 2) in
    is_u (width F) h /\ isfinite F h = true /\ 2 * fval F h = one_val F)
    by (destruct HF; subst F; [exact half_64 | exact half_32]).
  pose proof (one_val_pos F) as P1. pose proof (absv_nonneg F x) as Pv. split.
  - destruct (rint_val F x U Fin) as (V & S & _).
    destruct (rne_nearest (mval F (mag F x)) (eunit F) ltac:(pose proof (eunit_pos F); lia)) as [N E].
    fold (one_val F) in N, E. set (r := rne (mval F (mag F x)) (eunit F)) in *.
    exists (signed (sgn F x) r). rewrite V, (fval_signed F x). unfold signed in *.
    destruct (sgn F x); (split; [lia |]); (split; [exact S |]); (split; [lia |]); intros T.
    + rewrite Z.even_opp. apply E. lia.
    + apply E. lia.
  - pose proof (round_val F Half x U Fin) as V. set (v := mval F (mag F x)) in *.
    set (q := (2 * v + one_val F) / (2 * one_val F)) in *.
    pose proof (Z.div_mod (2 * v + one_val F) (2 * one_val F) ltac:(lia)) as D. fold q in D.
    pose proof (Z.mod_pos_bound (2 * v + one_val F) (2 * one_val F) ltac:(lia)) as B.
    exists (signed (sgn F x) q). rewrite V, (fval_signed F x). fold v. unfold signed.
    destruct (sgn F x); (split; [lia |]); (split; [lia |]); intros T; nia.
Qed.

Lemma rint_round_correct_witness :
  rint 0x4004000000000000 = 0x4000000000000000 /\ round 0x4004000000000000 = 0x4008000000000000 /\
  exists z, fval F64 (rint 0x4004000000000000) = z * one_val F64 /\
    (2 * Z.abs (fval F64 0x4004000000000000 - z * one_val F64) = one_val F64 -> Z.even z = true).
Proof.
  split; [vm_compute; reflexivity |]. split; [vm_compute; reflexivity |].
  destruct (rint_round_correct F64 0x4004000000000000 (or_introl eq_refl)
    ltac:(vm_compute; split; [discriminate | reflexivity])
    ltac:(vm_compute; reflexivity)) as [(z & A & _ & _ & B) _].
  exists z. split; [exact A | exact B].
Defined.

(** [modf] splits a finite number: the integral part is its value rounded
    towards zero, the two parts add up to it exactly, and both have its sign. *)
Theorem modf_correct F x (HF : F = F64 \/ F = F32) (U : is_u (width F) x)
    (Fin : isfinite F x = true) :
  let '(fp, ip) := modf_gen F x in
  fval F ip = Z.quot (fval F x) (one_val F) * one_val F /\
  fval F fp + fval F ip = fval F x /\ sgn F ip = sgn F x /\ sgn F fp = sgn F x.
Proof.
  assert (Ok : FmtOk F) by (destruct HF; subst F; apply _).
  pose proof (modf_val F x U Fin) as H. destruct (modf_gen F x) as [fp ip].
  destruct H as (A & B & C & D & _). repeat split; try assumption. lia.
Qed.

Lemma modf_correct_witness :
  modf 0xc004000000000000 = (0xbfe0000000000000, 0xc000000000000000) /\
  let '(fp, ip) := modf 0xc004000000000000 in
  fval F64 fp + fval F64 ip = fval F64 0xc004000000000000.
Proof.
  split; [vm_compute; reflexivity |].
  pose proof (modf_correct F64 0xc004000000000000 (or_introl eq_refl)
    ltac:(vm_compute; split; [discriminate | reflexivity])
    ltac:(vm_compute; reflexivity)) as H.
  unfold modf. destruct (modf_gen F64 0xc004000000000000) as [fp ip]. apply H.
Defined.
