(* ===== verification/MathRem.v ===== *)
(** * Remainders, exponents and neighbours

    [fmod], [ilogb], [frexp] and [nextafter] of [src/src/ansi/musl-math] against
    integer arithmetic on the values. *)

From S2P Require Import Prelude Ieee MathBits MathRound.

#[local] Open Scope Z_scope.

Section RemFacts.
Context (F : fmt) {HF : FmtOk F}.

Abbreviation W := (width F).
Abbreviation MB := (mbits F).
Abbreviation absv x := (mval F (mag F x)).

Lemma pow_W : 2 ^ W = 2 * 2 ^ (W - 1) /\ 4 * 2 ^ MB <= 2 ^ (W - 1).
Proof using HF.
  pose proof (width_gt F). pose proof (mbits_gt F). pose proof (ebits_gt F). split.
  - rewrite <- Z.pow_succ_r by lia. f_equal. lia.
  - change 4 with (2 ^ 2). rewrite <- Z.pow_add_r by lia. apply Z.pow_le_mono_r; unfold width; lia.
Qed.

Lemma shl_1_small i : 0 <= i < 2 ^ (W - 1) -> shl F i 1 = 2 * i.
Proof using HF.
  intros H. destruct pow_W as [E _]. unfold shl. rewrite Z.shiftl_mul_pow2 by lia. change (2 ^ 1) with 2.
  rewrite wrapu_small by (unfold is_u; lia). lia.
Qed.

Lemma shiftr_top i : 0 <= i < 2 ^ W -> (Z.shiftr i (W - 1) =? 0) = (i <? 2 ^ (W - 1)).
Proof using HF.
  intros H. pose proof (width_gt F). rewrite Z.shiftr_div_pow2 by lia.
  destruct (Z.ltb_spec i (2 ^ (W - 1))).
  - rewrite Z.div_small by lia. reflexivity.
  - apply Z.eqb_neq. pose proof (Z.div_le_lower_bound i (2 ^ (W - 1)) 1). lia.
Qed.

(** ** Normalisation *)

Lemma norm_loop_spec fuel : forall i e, 0 < i < 2 ^ W -> W - 1 - Z.log2 i <= Z.of_nat fuel ->
  norm_loop F fuel i e = e - (W - 1 - Z.log2 i).
Proof using HF.
  pose proof (width_gt F) as Wg. destruct pow_W as [E _].
  induction fuel as [| f IH]; intros i e Hi Hf; cbn [norm_loop].
  - assert (Z.log2 i < W) by (apply Z.log2_lt_pow2; lia). lia.
  - rewrite shiftr_top by lia. destruct (Z.ltb_spec i (2 ^ (W - 1))) as [L | G].
    + rewrite shl_1_small by lia. rewrite IH; rewrite ?Z.log2_double by lia; lia.
    + assert (Z.log2 i = W - 1); [| lia]. apply Z.log2_unique; [lia |].
      rewrite Z.pow_succ_r by lia. lia.
Qed.

Lemma renorm_loop_spec fuel : forall u e, 0 < u < 2 * 2 ^ MB -> MB - Z.log2 u <= Z.of_nat fuel ->
  renorm_loop F fuel u e = (u * 2 ^ (MB - Z.log2 u), e - (MB - Z.log2 u)) /\ 0 <= MB - Z.log2 u.
Proof using HF.
  pose proof (mbits_gt F) as Mg. destruct pow_W as [_ E]. pose proof (pow_m_pos F).
  induction fuel as [| f IH]; intros u e Hu Hf; cbn [renorm_loop];
    (assert (Lg : Z.log2 u <= MB)
      by (apply Z.lt_succ_r, Z.log2_lt_pow2; [lia | rewrite Z.pow_succ_r; lia])).
  - replace (MB - Z.log2 u) with 0 by lia. rewrite Z.pow_0_r, Z.mul_1_r, Z.sub_0_r. split; [reflexivity | lia].
  - rewrite Z.shiftr_div_pow2 by lia. destruct (Z.lt_ge_cases u (2 ^ MB)) as [L | G].
    + rewrite Z.div_small by lia. simpl Z.eqb. cbv iota.
      assert (Z.log2 u < MB) by (apply Z.log2_lt_pow2; lia).
      rewrite shl_1_small by lia. destruct (IH (2 * u) (e - 1)) as [R _];
        rewrite ?Z.log2_double by lia; try lia.
      rewrite R, Z.log2_double by lia. split; [| lia]. f_equal; [| lia].
      replace (MB - Z.log2 u) with (Z.succ (MB - Z.succ (Z.log2 u))) by lia.
      rewrite Z.pow_succ_r by lia. lia.
    + assert (Z.log2 u = MB) by (apply Z.log2_unique; [lia | rewrite Z.pow_succ_r; lia]).
      assert (u / 2 ^ MB <> 0) by (pose proof (Z.div_le_lower_bound u (2 ^ MB) 1); lia).
      destruct (Z.eqb_spec (u / 2 ^ MB) 0); [contradiction |].
      replace (MB - Z.log2 u) with 0 by lia. rewrite Z.pow_0_r, Z.mul_1_r, Z.sub_0_r.
      split; [reflexivity | lia].
Qed.

(** The normalised significand and exponent of a nonzero finite number. *)
Definition normal_form (x m e : Z) : Prop :=
  2 ^ MB <= m < 2 * 2 ^ MB /\
  absv x * 2 ^ Z.max 0 (1 - e) = m * 2 ^ Z.max 0 (e - 1).

Lemma decode_expo0 a : expo F a = 0 -> 0 <= a -> mval F a = a /\ frac F a = a /\ a < 2 ^ MB.
Proof using HF.
  intros E Ha. destruct (expo_frac F a Ha) as (Ea & _ & Fr). rewrite E in Ea.
  assert (a < 2 ^ MB) by lia. split; [apply mval_small; [exact HF | lia] | lia].
Qed.

Lemma normalize_spec x : is_u W x -> mag F x <> 0 ->
  let '(m, e) := normalize_gen F x (efield F x) in
  normal_form x m e /\ (efield F x = 0 -> e <= 0) /\ (efield F x <> 0 -> e = efield F x).
Proof using HF.
  intros U Nz. pose proof (mag_range F x) as R. pose proof (mbits_gt F) as Mg. pose proof (width_gt F) as Wg.
  pose proof (ebits_gt F) as Eg. pose proof (pow_m_pos F) as Pm. destruct pow_W as [PW PM].
  unfold normalize_gen. rewrite efield_expo by (exact HF || apply (is_u_nonneg F), U).
  destruct (Z.eqb_spec (expo F (mag F x)) 0) as [E0 | En].
  - destruct (decode_expo0 (mag F x) E0 ltac:(lia)) as (V & Fr & Lt).
    rewrite shl_frac, Fr by (exact HF || exact U). set (a := mag F x) in *.
    assert (La : Z.log2 a < MB) by (apply Z.log2_lt_pow2; lia). pose proof (Z.log2_nonneg a).
    assert (Pq : 2 ^ W = 2 ^ MB * 2 ^ (W - MB)) by (rewrite <- Z.pow_add_r by (unfold width; lia); f_equal; lia).
    pose proof (Z.pow_pos_nonneg 2 (W - MB)).
    rewrite E0, norm_loop_spec; rewrite ?Z.log2_mul_pow2 by (unfold width; lia); [| unfold width in *; nia | unfold width in *; lia].
    replace (0 - (W - 1 - (W - MB + Z.log2 a))) with (Z.log2 a + 1 - MB) by lia.
    set (s := MB - Z.log2 a). assert (Hs : 0 < s) by lia.
    replace (- (Z.log2 a + 1 - MB) + 1) with s by lia.
    assert (Sh : shl F x s = a * 2 ^ s).
    { unfold shl, wrapu. rewrite Z.shiftl_mul_pow2 by lia. rewrite <- (with_sgn_split F x U). fold a.
      assert (Sm : 0 <= a * 2 ^ s < 2 ^ W).
      { destruct (Z.log2_spec a) as [_ Hi]; [lia |]. split; [nia |].
        apply (Z.lt_le_trans _ (2 ^ Z.succ (Z.log2 a) * 2 ^ s)); [nia |].
        rewrite <- Z.pow_add_r by lia. replace (Z.succ (Z.log2 a) + s) with (Z.succ MB) by lia.
        rewrite Z.pow_succ_r by lia. lia. }
      unfold with_sgn. destruct (sgn F x); [| apply Z.mod_small; exact Sm].
      replace ((sgnbit F + a) * 2 ^ s) with (a * 2 ^ s + 2 ^ (s - 1) * 2 ^ W).
      - rewrite Z.mod_add by lia. apply Z.mod_small. exact Sm.
      - assert (Ps : 2 ^ s = 2 * 2 ^ (s - 1)) by (rewrite <- Z.pow_succ_r by lia; f_equal; lia).
        rewrite Ps, PW. unfold sgnbit. ring. }
    rewrite Sh. split; [| lia]. unfold normal_form. fold a. rewrite V.
    rewrite (Z.max_r 0 (1 - _)), (Z.max_l 0 (_ - 1)) by lia.
    replace (1 - (Z.log2 a + 1 - MB)) with s by lia. rewrite Z.pow_0_r, Z.mul_1_r. split; [| reflexivity].
    destruct (Z.log2_spec a) as [Lo Hi]; [lia |].
    replace (2 ^ MB) with (2 ^ Z.log2 a * 2 ^ s) by (rewrite <- Z.pow_add_r by lia; f_equal; lia).
    rewrite Z.pow_succ_r in Hi by lia. pose proof (Z.pow_pos_nonneg 2 s). nia.
  - split; [| lia]. destruct (expo_frac F (mag F x) ltac:(lia)) as (Ea & E0 & Fr).
    rewrite ones_shr_eq by (unfold width; lia). replace (W - (W - MB)) with MB by lia.
    rewrite land_low by lia. rewrite <- (mod_mag F x MB) by (unfold width; lia).
    fold (frac F (mag F x)). replace (Z.lor (frac F (mag F x)) (Z.shiftl 1 MB))
      with (frac F (mag F x) + 1 * 2 ^ MB) by (rewrite lor_fields by lia; lia).
    unfold normal_form. split; [lia |]. rewrite (Z.max_l 0), Z.pow_0_r, Z.max_r by lia.
    rewrite (mval_decode F _ (2 ^ MB + frac F (mag F x)) (expo F (mag F x) - 1)); [lia |].
    unfold decode. destruct (Z.eqb_spec (expo F (mag F x)) 0); [contradiction | reflexivity].
Qed.

(** ** Long division *)

(** One step of the loop subtracts the divisor when it fits. *)
Lemma sub_test u d : 0 <= u < 2 * d -> 0 < d < 2 * 2 ^ MB ->
  (Z.shiftr (wrapu W (u - d)) (W - 1) =? 0) = (d <=? u) /\
  (d <= u -> wrapu W (u - d) = u - d).
Proof using HF.
  intros Hu Hd. destruct pow_W as [PW PM]. pose proof (width_gt F).
  assert (R : is_u W (wrapu W (u - d))) by (apply wrapu_range; lia).
  rewrite shiftr_top by exact R. destruct (Z.leb_spec d u) as [L | G].
  - rewrite wrapu_small by (unfold is_u; lia). split; [apply Z.ltb_lt; lia | reflexivity].
  - split; [| lia]. unfold wrapu. rewrite <- (Z.mod_add (u - d) 1) by lia.
    rewrite Z.mod_small by lia. apply Z.ltb_ge. lia.
Qed.

Lemma fmod_loop_spec n : forall u d, 0 < u < 2 * d -> 2 ^ MB <= d < 2 * 2 ^ MB ->
  fmod_loop F n u d = let r := (u * 2 ^ Z.of_nat n) mod d in if r =? 0 then None else Some r.
Proof using HF.
  destruct pow_W as [PW PM]. pose proof (pow_m_pos F) as Pm.
  induction n as [| n IH]; intros u d Hu Hd; cbn [fmod_loop];
    destruct (sub_test u d ltac:(lia) ltac:(lia)) as [T Sb]; rewrite T.
  - change (Z.of_nat 0) with 0. rewrite Z.pow_0_r, Z.mul_1_r. cbv zeta.
    destruct (Z.leb_spec d u) as [L | G].
    + rewrite Sb by lia. assert (M : u mod d = u - d).
      { symmetry. apply (Z.mod_unique_pos u d 1); lia. }
      rewrite M. reflexivity.
    + rewrite (Z.mod_small u) by lia. destruct (Z.eqb_spec u 0); [lia | reflexivity].
  - assert (St : forall v, 0 < v < d -> (u - v) mod d = 0 ->
      fmod_loop F n (shl F v 1) d =
        let r := (u * 2 ^ Z.of_nat (S n)) mod d in if r =? 0 then None else Some r).
    { intros v Hv M. rewrite shl_1_small by lia. rewrite IH by lia. cbv zeta.
      replace ((u * 2 ^ Z.of_nat (S n)) mod d) with ((2 * v * 2 ^ Z.of_nat n) mod d); [reflexivity |].
      rewrite Nat2Z.inj_succ, Z.pow_succ_r by lia. apply Z.mod_divide in M as [c M]; [| lia].
      replace (u * (2 * 2 ^ Z.of_nat n)) with (2 * v * 2 ^ Z.of_nat n + (c * 2 * 2 ^ Z.of_nat n) * d)
        by (replace u with (v + c * d) by lia; ring).
      rewrite Z.mod_add by lia. reflexivity. }
    destruct (Z.leb_spec d u) as [L | G].
    + rewrite Sb by lia. destruct (Z.eqb_spec (u - d) 0) as [Z0 | Nz].
      * cbv zeta. replace u with d by lia. rewrite Z.mul_comm, Z.mod_mul by lia. reflexivity.
      * apply St; [lia |]. replace (u - (u - d)) with (1 * d) by lia. apply Z.mod_mul. lia.
    + apply St; [lia |]. rewrite Z.sub_diag. apply Z.mod_0_l. lia.
Qed.

(** The scaled result. *)
Lemma scale_result_spec u e v : 2 ^ MB <= u < 2 * 2 ^ MB -> e < emax F ->
  v * 2 ^ Z.max 0 (1 - e) = u * 2 ^ Z.max 0 (e - 1) ->
  0 <= scale_result F u e < inf_mag F /\ mval F (scale_result F u e) = v.
Proof using HF.
  intros Hu He E. pose proof (pow_m_pos F) as Pm. pose proof (mbits_gt F). destruct pow_W as [PW PM].
  pose proof (inf_lt_sgnbit F) as [Ip _]. unfold scale_result.
  destruct (Z.ltb_spec 0 e) as [P | N].
  - rewrite Z.shiftl_mul_pow2, Z.mul_1_l by lia. rewrite wrapu_small by (unfold is_u; lia).
    rewrite lor_fields by lia.
    replace (u - 2 ^ MB + e * 2 ^ MB) with (u + (e - 1) * 2 ^ MB) by lia.
    rewrite mval_build by (exact HF || lia). rewrite Z.max_l, Z.max_r, Z.pow_0_r in E by lia.
    split; [| lia]. unfold inf_mag. nia.
  - rewrite Z.max_r, Z.max_l, Z.pow_0_r in E by lia. replace (- e + 1) with (1 - e) by lia.
    rewrite Z.shiftr_div_pow2 by lia. replace u with (v * 2 ^ (1 - e)) in * by lia.
    pose proof (Z.pow_pos_nonneg 2 (1 - e)). rewrite Z.div_mul by lia.
    assert (Hv : 0 <= v < 2 ^ MB).
    { replace (1 - e) with (Z.succ (- e)) in Hu by lia. rewrite Z.pow_succ_r in Hu by lia.
      pose proof (Z.pow_pos_nonneg 2 (- e)). nia. }
    split; [| apply mval_small; assumption]. unfold inf_mag, emax. pose proof (pow_e_ge F). nia.
Qed.

Lemma zero_times x : is_u W x -> isfinite F x = true -> fmul F 0 x = with_sgn F (sgn F x) 0.
Proof using HF.
  intros U Fin. unfold fmul. destruct (finite_cases F x Fin) as (Nx & Ix & _).
  destruct (zero_finite F) as [Zf _]. destruct (finite_cases F 0 Zf) as (N0 & I0 & _).
  rewrite Nx, Ix, N0, I0. simpl orb. cbv iota. pose proof (sgnbit_pos F).
  assert (D0 : decode F (mag F 0) = (0, 0)) by (unfold mag; rewrite Z.mod_0_l by lia; reflexivity).
  rewrite D0. destruct (decode F (mag F x)) as [m2 k2]. simpl orb. cbv iota. f_equal.
  unfold sgn at 1. destruct (Z.leb_spec (sgnbit F) 0); [lia |]. destruct (sgn F x); reflexivity.
Qed.

Lemma lor_sign s a : 0 <= a < sgnbit F ->
  Z.lor a (Z.shiftl (if s : bool then 1 else 0) (W - 1)) = with_sgn F s a.
Proof using HF.
  intros H. pose proof (width_gt F). rewrite lor_fields by (unfold sgnbit in H; lia).
  fold (sgnbit F). unfold with_sgn. destruct s; lia.
Qed.

(** The larger number has the larger normalised exponent. *)
Lemma normal_form_order x y mx ex my ey : normal_form x mx ex -> normal_form y my ey ->
  absv y < absv x -> ey <= ex.
Proof using HF.
  intros [Hx Ex] [Hy Ey] L. destruct (Z.le_gt_cases ey ex) as [| G]; [assumption |]. exfalso.
  pose proof (pow_m_pos F). pose proof (absv_nonneg F y) as Pv.
  set (s := Z.max 0 (1 - ex)). assert (Hs : 0 <= s) by lia.
  pose proof (Z.pow_pos_nonneg 2 s ltac:(lia) Hs) as Ps.
  assert (A : absv x * 2 ^ s = mx * 2 ^ (ex - 1 + s)).
  { unfold s in *. destruct (Z.le_gt_cases ex 1).
    - rewrite (Z.max_l 0 (ex - 1)), Z.pow_0_r, Z.mul_1_r in Ex by lia.
      rewrite Ex. rewrite Z.max_r by lia. replace (ex - 1 + (1 - ex)) with 0 by lia.
      rewrite Z.pow_0_r. lia.
    - rewrite Z.max_l in * by lia. rewrite Z.max_r in Ex by lia. rewrite Ex. do 2 f_equal. lia. }
  assert (B : my * 2 ^ (ey - 1 + s) <= absv y * 2 ^ s).
  { unfold s in *. destruct (Z.le_gt_cases ey 1).
    - rewrite (Z.max_l 0 (ey - 1)), Z.pow_0_r, Z.mul_1_r in Ey by lia. rewrite <- Ey.
      rewrite !Z.max_r by lia. rewrite <- Z.mul_assoc, <- Z.pow_add_r by lia.
      replace (1 - ey + (ey - 1 + (1 - ex))) with (1 - ex) by lia. lia.
    - rewrite (Z.max_l 0 (1 - ey)), Z.pow_0_r, Z.mul_1_r in Ey by lia.
      rewrite Ey, (Z.max_r 0 (ey - 1)), <- Z.mul_assoc, <- Z.pow_add_r by lia. lia. }
  assert (C : 2 ^ (ey - 1 + s) = 2 ^ (ey - 1 - ex) * (2 * 2 ^ (ex - 1 + s))).
  { rewrite <- Z.pow_succ_r, <- Z.pow_add_r by lia. f_equal. lia. }
  pose proof (Z.pow_pos_nonneg 2 (ey - 1 - ex) ltac:(lia) ltac:(lia)).
  pose proof (Z.pow_pos_nonneg 2 (ex - 1 + s) ltac:(lia) ltac:(lia)).
  set (D := 2 ^ (ey - 1 - ex)) in *. set (P := 2 ^ (ex - 1 + s)) in *.
  assert (mx * P < 2 * my * P) by (apply Z.mul_lt_mono_pos_r; lia).
  assert (2 * my * P <= my * (D * (2 * P))) 
    by (replace (my * (D * (2 * P))) with (2 * my * P * D) by ring;
        rewrite <- (Z.mul_1_r (2 * my * P)) at 1; apply Z.mul_le_mono_nonneg_l;
        [apply Z.mul_nonneg_nonneg |]; lia).
  rewrite C in B. nia.
Qed.

Lemma expo_finite x : isfinite F x = true -> expo F (mag F x) < emax F.
Proof using HF.
  unfold isfinite, inf_mag. intros H. apply Z.ltb_lt in H. pose proof (pow_m_pos F).
  apply Z.div_lt_upper_bound; lia.
Qed.

Lemma rem_fval x y : absv y <> 0 -> Z.rem (fval F x) (fval F y) = signed (sgn F x) (absv x mod absv y).
Proof using HF.
  intros N. pose proof (absv_nonneg F x). pose proof (absv_nonneg F y).
  rewrite !fval_signed. unfold signed.
  destruct (sgn F x), (sgn F y); rewrite ?Z.rem_opp_opp, ?Z.rem_opp_l, ?Z.rem_opp_r by lia;
    rewrite Z.rem_mod_nonneg by lia; reflexivity.
Qed.

(** The remainder of the significands is the remainder of the values, scaled. *)
Lemma rem_scaled x y mx ex my ey : normal_form x mx ex -> normal_form y my ey -> ey <= ex ->
  (absv x mod absv y) * 2 ^ Z.max 0 (1 - ey) = (mx * 2 ^ (ex - ey)) mod my * 2 ^ Z.max 0 (ey - 1).
Proof using HF.
  intros [Hx Ex] [Hy Ey] L. pose proof (pow_m_pos F).
  set (s := Z.max 0 (1 - ey)) in *. set (t := Z.max 0 (ey - 1)) in *.
  pose proof (Z.pow_pos_nonneg 2 s ltac:(lia) ltac:(lia)).
  pose proof (Z.pow_pos_nonneg 2 t ltac:(lia) ltac:(lia)).
  assert (A : absv x * 2 ^ s = mx * 2 ^ (ex - ey) * 2 ^ t).
  { destruct (Z.le_gt_cases ex 1).
    - rewrite (Z.max_l 0 (ex - 1)), Z.pow_0_r, Z.mul_1_r in Ex by lia. unfold t, s.
      rewrite (Z.max_l 0 (ey - 1)), Z.pow_0_r, Z.mul_1_r, <- Ex, <- Z.mul_assoc, <- Z.pow_add_r by lia.
      do 2 f_equal. lia.
    - rewrite (Z.max_l 0 (1 - ex)), Z.pow_0_r, Z.mul_1_r in Ex by lia.
      rewrite Ex, <- !Z.mul_assoc, <- !Z.pow_add_r by lia. do 2 f_equal. lia. }
  assert (P : 0 < absv y) by nia.
  rewrite <- (Z.mul_mod_distr_r (absv x) (absv y)) by lia. rewrite A, Ey.
  apply Z.mul_mod_distr_r; lia.
Qed.

(** A significand moved up to its normal place. *)
Lemma norm_range r : 0 < r -> Z.log2 r <= MB -> 2 ^ MB <= r * 2 ^ (MB - Z.log2 r) < 2 * 2 ^ MB.
Proof using.
  intros P L. destruct (Z.log2_spec r P) as [Lo Hi]. pose proof (Z.log2_nonneg r) as N.
  rewrite Z.pow_succ_r in Hi by exact N. pose proof (Z.pow_pos_nonneg 2 (MB - Z.log2 r) ltac:(lia) ltac:(lia)).
  assert (E : 2 ^ MB = 2 ^ Z.log2 r * 2 ^ (MB - Z.log2 r)) by (rewrite <- Z.pow_add_r by lia; f_equal; lia).
  rewrite E. nia.
Qed.

Lemma rescale r v e k : 0 <= k -> v * 2 ^ Z.max 0 (1 - e) = r * 2 ^ Z.max 0 (e - 1) ->
  v * 2 ^ Z.max 0 (1 - (e - k)) = r * 2 ^ k * 2 ^ Z.max 0 (e - k - 1).
Proof using.
  intros Hk Rs. destruct (Z.le_gt_cases e 1).
  - rewrite (Z.max_l 0 (e - 1)), Z.pow_0_r, Z.mul_1_r, Z.max_r in Rs by lia.
    rewrite (Z.max_l 0 (e - k - 1)), Z.pow_0_r, Z.mul_1_r, <- Rs, <- Z.mul_assoc, <- Z.pow_add_r by lia.
    do 2 f_equal. lia.
  - rewrite (Z.max_l 0 (1 - e)), Z.pow_0_r, Z.mul_1_r, Z.max_r in Rs by lia.
    rewrite Rs, <- !Z.mul_assoc, <- !Z.pow_add_r by lia. do 2 f_equal. lia.
Qed.

Lemma fmod_val x y : is_u W x -> is_u W y -> isfinite F x = true -> isfinite F y = true ->
  mag F y <> 0 ->
  fval F (fmod_gen F x y) = Z.rem (fval F x) (fval F y) /\ sgn F (fmod_gen F x y) = sgn F x /\
  isfinite F (fmod_gen F x y) = true.
Proof using HF.
  intros Ux Uy Fx Fy Ny. pose proof (mag_range F x) as Rx. pose proof (mag_range F y) as Ry.
  assert (Py : 0 < absv y) by (rewrite <- (mval_0 F); apply mval_mono; [exact HF | lia]).
  destruct (finite_cases F x Fx) as (_ & _ & Ix). destruct (finite_cases F y Fy) as (Nany & _ & Iy).
  pose proof (inf_lt_sgnbit F) as Inf. pose proof (absv_nonneg F x) as Pvx.
  destruct (with_sgn_finite F (sgn F x) 0 ltac:(lia)) as (Zf & _ & Zs & _ & Zv).
  rewrite mval_0 in Zv by exact HF.
  assert (Zv0 : forall r, r = 0 -> fval F (with_sgn F (sgn F x) 0) = signed (sgn F x) r)
    by (intros r ->; rewrite Zv; reflexivity).
  rewrite rem_fval by lia. unfold fmod_gen.
  rewrite !shl_1, Nany, zero_times by assumption. pose proof (expo_finite x Fx) as Ee.
  rewrite <- efield_expo in Ee by (exact HF || apply (is_u_nonneg F), Ux).
  destruct (Z.eqb_spec (2 * mag F y) 0); [lia |].
  destruct (Z.eqb_spec (efield F x) (emax F)); [lia |]. simpl orb. cbv iota.
  destruct (Z.leb_spec (2 * mag F x) (2 * mag F y)) as [Le | Gt].
  { destruct (Z.eqb_spec (2 * mag F x) (2 * mag F y)) as [Eq | Ne].
    - replace (mag F x) with (mag F y) by lia. rewrite Z.mod_same by lia. auto.
    - assert (absv x < absv y) by (apply mval_mono; [exact HF | lia]).
      rewrite Z.mod_small, fval_signed by lia. auto. }
  assert (Lv : absv y < absv x) by (apply mval_mono; [exact HF | lia]).
  pose proof (normalize_spec x Ux ltac:(lia)) as Nx. pose proof (normalize_spec y Uy Ny) as Nyf.
  destruct (normalize_gen F x (efield F x)) as [mx ex], (normalize_gen F y (efield F y)) as [my ey].
  destruct Nx as (NFx & Nx0 & Nx1), Nyf as (NFy & Ny0 & Ny1).
  pose proof (normal_form_order x y mx ex my ey NFx NFy Lv) as Le.
  pose proof (rem_scaled x y mx ex my ey NFx NFy Le) as Rs.
  destruct NFx as [Hx _], NFy as [Hy _]. pose proof (pow_m_pos F) as Pm.
  rewrite fmod_loop_spec by lia. rewrite Z2Nat.id by lia. cbv zeta.
  set (r := (mx * 2 ^ (ex - ey)) mod my) in *.
  pose proof (Z.mod_pos_bound (mx * 2 ^ (ex - ey)) my ltac:(lia)) as Rr. fold r in Rr.
  pose proof (Z.pow_pos_nonneg 2 (Z.max 0 (1 - ey)) ltac:(lia) ltac:(lia)).
  destruct (Z.eqb_spec r 0) as [R0 | Rn].
  { rewrite R0, Z.mul_0_l in Rs. apply Z.mul_eq_0 in Rs. split; [apply Zv0; lia | auto]. }
  destruct (renorm_loop_spec (Z.to_nat W) r ey ltac:(lia)) as [Rl Rp].
  { pose proof (Z.log2_nonneg r). unfold width. pose proof (ebits_gt F). lia. }
  rewrite Rl. set (k := MB - Z.log2 r) in *.
  pose proof (norm_range r ltac:(lia) ltac:(lia)) as Ru. fold k in Ru.
  pose proof (rescale r _ ey k Rp Rs) as Sc.
  destruct (scale_result_spec (r * 2 ^ k) (ey - k) _ Ru ltac:(
    destruct (Z.eq_dec (efield F y) 0); [pose proof (pow_e_ge F); unfold emax; lia |];
    pose proof (expo_finite y Fy); rewrite <- efield_expo in * by (exact HF || apply (is_u_nonneg F), Uy);
    lia) Sc) as [Sr Sv].
  rewrite shiftr_sgn by (exact HF || exact Ux). rewrite lor_sign by lia.
  destruct (with_sgn_finite F (sgn F x) _ Sr) as (A & _ & C & _ & D). rewrite D, Sv. auto.
Qed.
End RemFacts.

(** ** Exponents *)

Section ExpFacts.
Context (F : fmt) {HF : FmtOk F}.

Abbreviation W := (width F).
Abbreviation MB := (mbits F).
Abbreviation absv x := (mval F (mag F x)).

Lemma log2_value a m k : 0 < a -> decode F a = (m, k) -> Z.log2 (mval F a) = Z.log2 m + k.
Proof using HF.
  intros Ha D. destruct (decode_spec F a m k ltac:(lia) D) as (E & Hk & Hm & Nm & Sm).
  pose proof (pow_m_pos F). rewrite (mval_decode F a m k D).
  assert (0 < m) by (destruct (Z.eq_dec k 0) as [-> | N]; [lia | specialize (Nm ltac:(lia)); lia]).
  rewrite Z.log2_mul_pow2 by lia. lia.
Qed.

Lemma log2_normal m : 2 ^ MB <= m < 2 * 2 ^ MB -> Z.log2 m = MB.
Proof using HF.
  intros H. pose proof (mbits_gt F). apply Z.log2_unique; [lia |]. rewrite Z.pow_succ_r; lia.
Qed.

Lemma ilogb_val x : is_u W x -> isfinite F x = true -> mag F x <> 0 ->
  ilogb_gen F x = Z.log2 (absv x) - eunit F.
Proof using HF.
  intros U Fin Nz. pose proof (mag_range F x) as R. pose proof (expo_finite F x Fin) as Ef.
  pose proof (mbits_gt F) as Mg. pose proof (ebits_gt F) as Eg. pose proof (pow_m_pos F) as Pm.
  unfold ilogb_gen. rewrite efield_expo by (exact HF || apply (is_u_nonneg F), U).
  destruct (Z.eqb_spec (expo F (mag F x)) 0) as [E0 | En].
  - destruct (decode_expo0 F (mag F x) E0 ltac:(lia)) as (V & Fr & Lt).
    rewrite shl_frac, Fr, V by (exact HF || exact U). set (a := mag F x) in *.
    pose proof (Z.pow_pos_nonneg 2 (W - MB) ltac:(lia) ltac:(unfold width; lia)) as Pq.
    destruct (Z.eqb_spec (a * 2 ^ (W - MB)) 0) as [Z0 | _]; [nia |].
    assert (PW : 2 ^ W = 2 ^ MB * 2 ^ (W - MB)) by (rewrite <- Z.pow_add_r by (unfold width; lia); f_equal; lia).
    pose proof (Z.log2_nonneg a).
    rewrite norm_loop_spec; rewrite ?Z.log2_mul_pow2 by (unfold width; lia);
      [| exact HF | rewrite PW; nia | unfold width; lia].
    unfold eunit. lia.
  - destruct (Z.eqb_spec (expo F (mag F x)) (emax F)); [lia |].
    destruct (decode F (mag F x)) as [m k] eqn:D. destruct (expo_frac F (mag F x) ltac:(lia)) as (_ & E0 & _).
    pose proof (decode_expo F (mag F x) m k ltac:(lia) D) as ->.
    destruct (decode_spec F (mag F x) m (expo F (mag F x) - 1) ltac:(lia) D) as (E & Hk & Hm & Nm & _).
    rewrite (log2_value (mag F x) m (expo F (mag F x) - 1) ltac:(lia) D), log2_normal; [unfold eunit; lia |].
    split; [| lia]. destruct (Z.eq_dec (expo F (mag F x)) 1) as [E1 | N1]; [| apply Nm; lia].
    unfold decode in D. destruct (Z.eqb_spec (expo F (mag F x)) 0); [lia |].
    injection D as <-. destruct (expo_frac F (mag F x) ltac:(lia)) as (_ & _ & Fr). lia.
Qed.

(** The split of a normal number. *)
Lemma frexp_normal d x : is_u W x -> isfinite F x = true -> expo F (mag F x) <> 0 ->
  let '(r, e) := frexp_gen F d x in
  one_val F <= 2 * absv r /\ absv r < one_val F /\ sgn F r = sgn F x /\
  fval F x * 2 ^ Z.max 0 (- e) = fval F r * 2 ^ Z.max 0 e.
Proof using HF.
  intros U Fin En. pose proof (mag_range F x) as R. pose proof (expo_finite F x Fin) as Ef.
  pose proof (mbits_gt F) as Mg. pose proof (pow_m_pos F) as Pm. pose proof (mbits_bias F) as Bb.
  pose proof (width_gt F) as Wg. pose proof (ebits_gt F) as Eg.
  destruct (expo_frac F (mag F x) ltac:(lia)) as (Ea & E0 & Fr).
  assert (Step : frexp_gen F d x =
    (Z.lor (Z.land x (Z.lor (Z.shiftl 1 (W - 1)) (2 ^ MB - 1))) (Z.shiftl (bias F - 1) MB),
     expo F (mag F x) - (bias F - 1))).
  { destruct d; cbn [frexp_gen]; rewrite efield_expo by (exact HF || apply (is_u_nonneg F), U);
      (destruct (Z.eqb_spec (expo F (mag F x)) 0); [contradiction |]);
      (destruct (Z.eqb_spec (expo F (mag F x)) (emax F)); [lia |]); reflexivity. }
  rewrite Step. clear Step. set (f := frac F (mag F x)) in *.
  assert (Bits : Z.lor (Z.land x (Z.lor (Z.shiftl 1 (W - 1)) (2 ^ MB - 1))) (Z.shiftl (bias F - 1) MB)
                 = with_sgn F (sgn F x) (f + (bias F - 1) * 2 ^ MB)).
  { rewrite Z.land_lor_distr_r, signed_zero, land_low by (exact HF || exact U || lia).
    rewrite <- (mod_mag F x MB) by (exact HF || unfold width; lia). fold (frac F (mag F x)). fold f.
    rewrite <- Z.lor_assoc, lor_fields by lia. rewrite Z.lor_comm.
    assert (Hb : (bias F - 1) * 2 ^ MB + 2 ^ MB <= sgnbit F).
    { rewrite sgnbit_eq by exact HF. pose proof (emax_bias F). unfold emax in *. nia. }
    unfold with_sgn. destruct (sgn F x); [| apply Z.lor_0_r].
    rewrite Z.add_0_r. unfold sgnbit in *. rewrite <- (Z.shiftl_1_l (W - 1)) at 1.
    rewrite lor_fields by nia. lia. }
  rewrite Bits. pose proof (inf_lt_sgnbit F) as Inf. pose proof (bias_pos F).
  destruct (with_sgn_finite F (sgn F x) (f + (bias F - 1) * 2 ^ MB)) as (_ & _ & S & M & V).
  { unfold inf_mag. pose proof (emax_bias F). nia. }
  rewrite M, S, V. assert (Mv : mval F (f + (bias F - 1) * 2 ^ MB) = (2 ^ MB + f) * 2 ^ (bias F - 2)).
  { replace (f + (bias F - 1) * 2 ^ MB) with ((2 ^ MB + f) + (bias F - 2) * 2 ^ MB) by lia.
    apply mval_build; [exact HF | lia..]. }
  rewrite Mv. assert (One : one_val F = 2 * 2 ^ MB * 2 ^ (bias F - 2)).
  { unfold one_val, eunit. rewrite <- Z.pow_succ_r, <- Z.pow_add_r by lia. f_equal. lia. }
  pose proof (Z.pow_pos_nonneg 2 (bias F - 2) ltac:(lia) ltac:(lia)) as Pb.
  split; [nia |]. split; [nia |]. split; [reflexivity |].
  assert (Vx : absv x = (2 ^ MB + f) * 2 ^ (expo F (mag F x) - 1)).
  { apply mval_decode. unfold decode. destruct (Z.eqb_spec (expo F (mag F x)) 0); [contradiction | reflexivity]. }
  assert (Sc : absv x * 2 ^ Z.max 0 (- (expo F (mag F x) - (bias F - 1)))
    = (2 ^ MB + f) * 2 ^ (bias F - 2) * 2 ^ Z.max 0 (expo F (mag F x) - (bias F - 1))).
  { rewrite Vx, <- !Z.mul_assoc, <- !Z.pow_add_r by lia. do 2 f_equal. lia. }
  rewrite fval_signed. unfold signed. destruct (sgn F x); lia.
Qed.
End ExpFacts.

Section FrexpFacts.
Context (F : fmt) {HF : FmtOk F}.

Abbreviation W := (width F).
Abbreviation MB := (mbits F).
Abbreviation absv x := (mval F (mag F x)).

(** [0x1p64] in the format; checked for the two formats. *)
Context (Two64 : isfinite F (two64 F) = true /\ sgn F (two64 F) = false /\
  decode F (mag F (two64 F)) = (2 ^ MB, 64 + eunit F - MB) /\ 64 <= emax F - 3).

(** Scaling a subnormal by 2^64 is exact, and the result is normal. *)
Lemma scale_subnormal x : is_u W x -> isfinite F x = true -> expo F (mag F x) = 0 -> mag F x <> 0 ->
  let y := fmul F x (two64 F) in
  is_u W y /\ isfinite F y = true /\ sgn F y = sgn F x /\ absv y = absv x * 2 ^ 64 /\
  (MB < 64 -> expo F (mag F y) <> 0).
Proof using HF Two64.
  intros U Fin E0 Nz y. pose proof (mag_range F x) as R. destruct Two64 as (Tf & Ts & Td & Te).
  destruct (decode_expo0 F (mag F x) E0 ltac:(lia)) as (V & Fr & Lt). pose proof (pow_m_pos F) as Pm.
  pose proof (mbits_gt F) as Mg. pose proof (eunit_pos F) as Pe. pose proof (bias_pos F).
  destruct (repr_scaled F (mag F x) 64 ltac:(lia) ltac:(lia)) as (a & Ha & Ea).
  rewrite Z.abs_eq in Ea by nia.
  assert (Y : y = with_sgn F (sgn F x) a).
  { unfold y, fmul. destruct (finite_cases F x Fin) as (Nx & Ix & _).
    destruct (finite_cases F _ Tf) as (Nt & It & _). rewrite Nx, Ix, Nt, It, Td. simpl orb. cbv iota.
    assert (D : decode F (mag F x) = (mag F x, 0)) by (unfold decode; rewrite E0, Fr; reflexivity).
    rewrite D. destruct (Z.eqb_spec (mag F x) 0); [contradiction |].
    destruct (Z.eqb_spec (2 ^ MB) 0); [lia |]. simpl orb. cbv iota. rewrite Ts, xorb_false_r. f_equal.
    apply round_mag_exact; [exact HF | nia | exact Ha |]. rewrite Ea.
    replace (0 + (64 + eunit F - MB) - eunit F) with (64 - MB) by lia.
    rewrite <- !Z.mul_assoc. f_equal. rewrite <- !Z.pow_add_r by lia. f_equal. lia. }
  destruct (with_sgn_finite F (sgn F x) a Ha) as (A & B & C & M & _). rewrite Y.
  split; [exact B |]. split; [exact A |]. split; [exact C |]. rewrite M, V. split; [exact Ea |].
  intros Hm Ez. destruct (decode_expo0 F a Ez ltac:(lia)) as (Va & _ & La).
  assert (2 ^ MB < 2 ^ 64) by (apply Z.pow_lt_mono_r; lia). nia.
Qed.

Lemma frexp_val x : MB < 64 -> is_u W x -> isfinite F x = true -> mag F x <> 0 ->
  let '(r, e) := frexp_gen F 1 x in
  one_val F <= 2 * absv r /\ absv r < one_val F /\ sgn F r = sgn F x /\
  fval F x * 2 ^ Z.max 0 (- e) = fval F r * 2 ^ Z.max 0 e.
Proof using HF Two64.
  intros Hm U Fin Nz. destruct (Z.eq_dec (expo F (mag F x)) 0) as [E0 | En].
  2: { apply (frexp_normal F 1 x U Fin En). }
  destruct (scale_subnormal x U Fin E0 Nz) as (Yu & Yf & Ys & Yv & Yn). specialize (Yn Hm).
  pose proof (frexp_normal F 0 _ Yu Yf Yn) as N.
  assert (Step : frexp_gen F 1 x =
    let '(r, e) := frexp_gen F 0 (fmul F x (two64 F)) in (r, e - 64)).
  { unfold frexp_gen at 1. fold (frexp_gen F). pose proof (mag_range F x) as R.
    rewrite efield_expo, E0 by (exact HF || apply (is_u_nonneg F), U). simpl Z.eqb. cbv iota.
    rewrite feq_zero by (exact HF || exact Fin). destruct (Z.eqb_spec (fval F x) 0) as [Z0 | _]; [| reflexivity].
    exfalso. pose proof (mval_mono F 0 (mag F x) ltac:(lia)) as P. rewrite mval_0 in P by exact HF.
    rewrite fval_signed in Z0. unfold signed in Z0. destruct (sgn F x); lia. }
  rewrite Step. destruct (frexp_gen F 0 (fmul F x (two64 F))) as [r e].
  destruct N as (A & B & C & D). rewrite Ys in C. split; [exact A |]. split; [exact B |]. split; [exact C |].
  assert (Vy : fval F (fmul F x (two64 F)) = fval F x * 2 ^ 64).
  { rewrite !fval_signed, Ys, Yv. unfold signed. destruct (sgn F x); lia. }
  rewrite Vy in D. destruct (Z.le_gt_cases e 0) as [Le | Gt].
  - rewrite (Z.max_l 0 e), Z.pow_0_r, Z.mul_1_r in D by lia. rewrite (Z.max_l 0 (e - 64)), Z.pow_0_r, Z.mul_1_r by lia.
    rewrite <- D, <- Z.mul_assoc, <- Z.pow_add_r by lia. do 2 f_equal. lia.
  - rewrite (Z.max_l 0 (- e)), Z.pow_0_r, Z.mul_1_r, (Z.max_r 0 e) in D by lia.
    apply (Z.mul_reg_r _ _ (2 ^ (64 - Z.max 0 (- (e - 64))))); [apply Z.pow_nonzero; lia |].
    rewrite <- !Z.mul_assoc, <- !Z.pow_add_r by lia.
    replace (Z.max 0 (- (e - 64)) + (64 - Z.max 0 (- (e - 64)))) with 64 by lia. rewrite D. do 2 f_equal. lia.
Qed.
End FrexpFacts.

Lemma two64_64 : isfinite F64 (two64 F64) = true /\ sgn F64 (two64 F64) = false /\
  decode F64 (mag F64 (two64 F64)) = (2 ^ 52, 64 + eunit F64 - 52) /\ 64 <= emax F64 - 3.
Proof. vm_compute. repeat split; discriminate. Qed.
Lemma two64_32 : isfinite F32 (two64 F32) = true /\ sgn F32 (two64 F32) = false /\
  decode F32 (mag F32 (two64 F32)) = (2 ^ 23, 64 + eunit F32 - 23) /\ 64 <= emax F32 - 3.
Proof. vm_compute. repeat split; discriminate. Qed.

(** ** Neighbours *)

Section NextFacts.
Context (F : fmt) {HF : FmtOk F}.

Abbreviation W := (width F).

(** The position of a number in the order of the format. *)
Definition rank (x : Z) : Z := signed (sgn F x) (mag F x).

Lemma rank_lt x y : (fval F x < fval F y <-> rank x < rank y) /\ (fval F x = fval F y <-> rank x = rank y).
Proof using HF.
  pose proof (mag_range F x) as Rx. pose proof (mag_range F y) as Ry.
  pose proof (mval_lt_iff F (mag F x) (mag F y) ltac:(lia) ltac:(lia)) as L1.
  pose proof (mval_lt_iff F (mag F y) (mag F x) ltac:(lia) ltac:(lia)) as L2.
  pose proof (mval_lt_iff F 0 (mag F x) ltac:(lia) ltac:(lia)) as L3.
  pose proof (mval_lt_iff F 0 (mag F y) ltac:(lia) ltac:(lia)) as L4.
  pose proof (absv_nonneg F x). pose proof (absv_nonneg F y). rewrite mval_0 in L3, L4 by exact HF.
  unfold rank. rewrite !fval_signed. unfold signed. destruct (sgn F x), (sgn F y); lia.
Qed.

Lemma half_mask x : is_u W x -> Z.land x (umax W / 2) = mag F x.
Proof using HF.
  intros U. unfold umax. rewrite width_eq by exact HF. pose proof (sgnbit_pos F). pose proof (width_gt F).
  replace ((2 * sgnbit F - 1) / 2) with (sgnbit F - 1)
    by (apply (Z.div_unique _ _ _ 1); lia).
  unfold sgnbit. rewrite land_low by lia. reflexivity.
Qed.

Lemma rank_with_sgn s a : 0 <= a < sgnbit F -> rank (with_sgn F s a) = signed s a.
Proof using HF.
  intros H. destruct (with_sgn_mag_sgn F s a H) as (M & S & _). unfold rank. rewrite M, S. reflexivity.
Qed.

(** The sign bits differ. *)
Lemma sign_differ x y : is_u W x -> is_u W y ->
  negb (Z.land (Z.lxor x y) (Z.shiftl 1 (W - 1)) =? 0) = xorb (sgn F x) (sgn F y).
Proof using HF.
  intros Ux Uy. pose proof (width_gt F) as Wg.
  assert (T : forall z, is_u W z -> Z.testbit z (W - 1) = sgn F z).
  { intros z Uz. rewrite Z.testbit_eqb by lia. pose proof (shiftr_sgn F z Uz) as S.
    rewrite Z.shiftr_div_pow2 in S by lia. rewrite S. destruct (sgn F z); reflexivity. }
  rewrite <- (T x Ux), <- (T y Uy), <- Z.lxor_spec.
  rewrite Z.shiftl_1_l. destruct (Z.testbit (Z.lxor x y) (W - 1)) eqn:B.
  - apply negb_true_iff, Z.eqb_neq. intros Z0. apply (f_equal (fun z => Z.testbit z (W - 1))) in Z0.
    rewrite Z.land_spec, B, Z.pow2_bits_true, Z.bits_0 in Z0 by lia. discriminate.
  - apply negb_false_iff, Z.eqb_eq. apply Z.bits_inj'. intros i Hi. rewrite Z.land_spec, Z.bits_0.
    destruct (Z.eq_dec i (W - 1)) as [-> | N]; [rewrite B; reflexivity |].
    rewrite Z.pow2_bits_false by lia. apply andb_false_r.
Qed.

Lemma nextafter_rank x y : is_u W x -> is_u W y -> isnan F x = false -> isnan F y = false ->
  rank x <> rank y ->
  rank (nextafter_gen F x y) = rank x + (if rank x <? rank y then 1 else -1) /\
  is_u W (nextafter_gen F x y) /\ isnan F (nextafter_gen F x y) = false.
Proof using HF.
  intros Ux Uy Nx Ny Nr. pose proof (mag_range F x) as Rx. pose proof (mag_range F y) as Ry.
  pose proof (inf_lt_sgnbit F) as Inf. pose proof (pow_m_pos F) as Pm. pose proof (width_eq F) as WE.
  assert (Ix : mag F x <= inf_mag F) by (unfold isnan in Nx; apply Z.ltb_ge in Nx; exact Nx).
  assert (Iy : mag F y <= inf_mag F) by (unfold isnan in Ny; apply Z.ltb_ge in Ny; exact Ny).
  assert (Res : forall s a, 0 <= a <= inf_mag F ->
    rank (with_sgn F s a) = signed s a /\ is_u W (with_sgn F s a) /\ isnan F (with_sgn F s a) = false).
  { intros s a Ha. destruct (with_sgn_mag_sgn F s a ltac:(lia)) as (M & _ & U).
    split; [apply rank_with_sgn; lia |]. split; [exact U |]. unfold isnan. rewrite M. apply Z.ltb_ge. lia. }
  unfold nextafter_gen. rewrite Nx, Ny. simpl orb. cbv iota.
  destruct (Z.eqb_spec x y) as [-> | Nxy]; [contradiction |].
  rewrite !half_mask by assumption. rewrite sign_differ by assumption.
  pose proof (with_sgn_split F x Ux) as Sx. pose proof (signed_zero F y Uy) as Zy.
  destruct (Z.eqb_spec (mag F x) 0) as [X0 | Xn].
  - destruct (Z.eqb_spec (mag F y) 0) as [Y0 | Yn].
    { exfalso. apply Nr. unfold rank. rewrite X0, Y0. destruct (sgn F x), (sgn F y); reflexivity. }
    rewrite Zy. assert (E : Z.lor (with_sgn F (sgn F y) 0) 1 = with_sgn F (sgn F y) 1).
    { rewrite Z.lor_comm. unfold with_sgn. destruct (sgn F y); [| reflexivity].
      rewrite Z.add_0_r. unfold sgnbit. pose proof (width_gt F). rewrite <- Z.shiftl_1_l.
      rewrite lor_fields by (pose proof (Z.pow_le_mono_r 2 1 (W - 1)); lia). rewrite Z.shiftl_1_l. lia. }
    rewrite E. destruct (Res (sgn F y) 1 ltac:(lia)) as (A & B). split; [| exact B]. rewrite A.
    unfold rank. rewrite X0. unfold signed. destruct (sgn F x), (sgn F y); zbool; lia.
  - destruct ((mag F y <? mag F x) || xorb (sgn F x) (sgn F y)) eqn:Down.
    + assert (E : wrapu W (x - 1) = with_sgn F (sgn F x) (mag F x - 1)).
      { rewrite wrapu_small by (unfold is_u in *; unfold with_sgn in Sx; destruct (sgn F x); lia).
        rewrite <- Sx at 1. unfold with_sgn. destruct (sgn F x); lia. }
      rewrite E. destruct (Res (sgn F x) (mag F x - 1) ltac:(lia)) as (A & B). split; [| exact B].
      rewrite A. unfold rank, signed. apply orb_true_iff in Down.
      destruct (sgn F x), (sgn F y), Down as [D | D]; try discriminate D;
        try apply Z.ltb_lt in D; zbool; lia.
    + apply orb_false_iff in Down as [D1 D2]. apply Z.ltb_ge in D1.
      assert (Ss : sgn F x = sgn F y) by (destruct (sgn F x), (sgn F y); try discriminate D2; reflexivity).
      assert (Lt : mag F x < mag F y).
      { destruct (Z.eq_dec (mag F x) (mag F y)) as [Em | Nm]; [| lia]. exfalso. apply Nr.
        unfold rank. rewrite Ss, Em. reflexivity. }
      assert (E : wrapu W (x + 1) = with_sgn F (sgn F x) (mag F x + 1)).
      { rewrite wrapu_small by (unfold is_u in *; unfold with_sgn in Sx; destruct (sgn F x); lia).
        rewrite <- Sx at 1. unfold with_sgn. destruct (sgn F x); lia. }
      rewrite E. destruct (Res (sgn F x) (mag F x + 1) ltac:(lia)) as (A & B). split; [| exact B].
      rewrite A. unfold rank, signed. rewrite <- Ss. destruct (sgn F x); zbool; lia.
Qed.
End NextFacts.

(** ** The contracts *)

Lemma fmt_cases F : F = F64 \/ F = F32 -> FmtOk F /\ mbits F < 64 /\
  (isfinite F (two64 F) = true /\ sgn F (two64 F) = false /\
   decode F (mag F (two64 F)) = (2 ^ mbits F, 64 + eunit F - mbits F) /\ 64 <= emax F - 3).
Proof.
  intros [-> | ->]; (split; [apply _ |]); (split; [simpl; lia |]); [exact two64_64 | exact two64_32].
Qed.

(** C29: [fmod] is exact: for finite [x] and finite nonzero [y], in double and in
    single precision, the value of [fmod x y] is the remainder of the values with
    the quotient rounded towards zero, and it has the sign of [x]. *)
Theorem fmod_correct F x y (HF : F = F64 \/ F = F32) (Ux : is_u (width F) x) (Uy : is_u (width F) y)
    (Fx : isfinite F x = true) (Fy : isfinite F y = true) (Ny : mag F y <> 0) :
  fval F (fmod_gen F x y) = Z.rem (fval F x) (fval F y) /\
  sgn F (fmod_gen F x y) = sgn F x /\ isfinite F (fmod_gen F x y) = true.
Proof. destruct (fmt_cases F HF) as (Ok & _). apply fmod_val; assumption. Qed.

Lemma fmod_correct_witness :
  fmod 0xc016000000000000 0x4000000000000000 = 0xbff8000000000000 /\
  fval F64 (fmod 0xc016000000000000 0x4000000000000000) =
    Z.rem (fval F64 0xc016000000000000) (fval F64 0x4000000000000000).
Proof.
  split; [vm_compute; reflexivity |].
  refine (proj1 (fmod_correct F64 0xc016000000000000 0x4000000000000000 (or_introl eq_refl) _ _ _ _ _)).
  - vm_compute. split; [discriminate | reflexivity].
  - vm_compute. split; [discriminate | reflexivity].
  - vm_compute. reflexivity.
  - vm_compute. reflexivity.
  - vm_compute. discriminate.
Defined.

(** Exponents.  For a finite nonzero number [ilogb] is the exponent of the
    leading bit of its value; [frexp] returns a number of the same sign in
    [1/2, 1) and an exponent whose product is exactly the argument, for subnormal
    numbers too. *)
Theorem frexp_ilogb_correct F x (HF : F = F64 \/ F = F32) (Ux : is_u (width F) x)
    (Fx : isfinite F x = true) (Nz : mag F x <> 0) :
  ilogb_gen F x = Z.log2 (Z.abs (fval F x)) - eunit F /\
  let '(r, e) := frexp_gen F 1 x in
  one_val F <= 2 * Z.abs (fval F r) /\ Z.abs (fval F r) < one_val F /\ sgn F r = sgn F x /\
  fval F x * 2 ^ Z.max 0 (- e) = fval F r * 2 ^ Z.max 0 e.
Proof.
  destruct (fmt_cases F HF) as (Ok & Mb & T). rewrite fval_abs by exact Ok. split.
  - apply ilogb_val; assumption.
  - pose proof (frexp_val F T x Mb Ux Fx Nz) as H. destruct (frexp_gen F 1 x) as [r e].
    rewrite fval_abs by exact Ok. exact H.
Qed.

Lemma frexp_ilogb_correct_witness :
  frexp 3 = (0x3fe8000000000000, -1072) /\ ilogb 3 = -1073 /\
  ilogb 3 = Z.log2 (Z.abs (fval F64 3)) - eunit F64.
Proof.
  split; [vm_compute; reflexivity |]. split; [vm_compute; reflexivity |].
  refine (proj1 (frexp_ilogb_correct F64 3 (or_introl eq_refl) _ _ _)).
  - vm_compute. split; [discriminate | reflexivity].
  - vm_compute. reflexivity.
  - vm_compute. discriminate.
Defined.

(** [nextafter] returns the next number.  When the values of [x] and [y]
    differ, the result is a number strictly between [x] and beyond it towards
    [y], not past [y], and no number of the format lies strictly between [x] and
    the result; through zero and at the largest finite number too. *)
Theorem nextafter_correct F x y (HF : F = F64 \/ F = F32) (Ux : is_u (width F) x)
    (Uy : is_u (width F) y) (Nx : isnan F x = false) (Ny : isnan F y = false)
    (Nv : fval F x <> fval F y) :
  let r := nextafter_gen F x y in
  isnan F r = false /\
  (fval F x < fval F y -> fval F x < fval F r <= fval F y /\
     forall z, ~ (fval F x < fval F z < fval F r)) /\
  (fval F y < fval F x -> fval F y <= fval F r < fval F x /\
     forall z, ~ (fval F r < fval F z < fval F x)).
Proof.
  destruct (fmt_cases F HF) as (Ok & _). intros r.
  assert (Nr : rank F x <> rank F y) by (rewrite <- (proj2 (rank_lt F x y)); exact Nv).
  destruct (nextafter_rank F x y Ux Uy Nx Ny Nr) as (R & _ & Nn). fold r in R, Nn. split; [exact Nn |].
  assert (L : forall a b, fval F a < fval F b <-> rank F a < rank F b) by (intros; apply rank_lt, Ok).
  assert (Le : forall a b, fval F a <= fval F b <-> rank F a <= rank F b).
  { intros a b. destruct (rank_lt F a b) as [A B]. rewrite !Z.le_lteq. tauto. }
  split; intros H; apply L in H; (destruct (Z.ltb_spec (rank F x) (rank F y)); [| try lia]); try lia;
    (split; [rewrite Le, L; lia |]); intros z; rewrite !L; lia.
Qed.

Lemma nextafter_correct_witness :
  nextafter 0x8000000000000001 0x3ff0000000000000 = 0x8000000000000000 /\
  nextafter 0x7fefffffffffffff 0x7ff0000000000000 = 0x7ff0000000000000 /\
  fval F64 0x8000000000000001 < fval F64 (nextafter 0x8000000000000001 0x3ff0000000000000).
Proof.
  split; [vm_compute; reflexivity |]. split; [vm_compute; reflexivity |].
  refine (proj1 (proj1 (proj1 (proj2 (nextafter_correct F64 0x8000000000000001 0x3ff0000000000000
    (or_introl eq_refl) _ _ _ _ _)) _))).
  - vm_compute. split; [discriminate | reflexivity].
  - vm_compute. split; [discriminate | reflexivity].
  - vm_compute. reflexivity.
  - vm_compute. reflexivity.
  - vm_compute. discriminate.
  - vm_compute. reflexivity.
Defined.
