(* ===== verification/MathTables.v ===== *)
(** * Tables of the elementary functions

    The constants of [exp_data.c], [log_data.c], [log2_data.c], [pow_data.c],
    [exp2f_data.c], [logf_data.c], [log2f_data.c], [powf_data.c] and
    [sqrt_data.c] of [src/src/ansi/musl-math].  Floating point constants are their
    bits; the products and quotients by powers of two of the source are carried
    out. *)

From S2P Require Import Prelude.

#[local] Open Scope Z_scope.

Definition exp_invln2N : Z := 0x40671547652b82fe.

Definition exp_negln2hiN : Z := 0xbf762e42fefa0000.

Definition exp_negln2loN : Z := 0xbd0cf79abc9e3b3a.

Definition exp_shift : Z := 0x4338000000000000.

(** The exp polynomial. *)
Definition exp_poly : list Z := [
  0x3fdffffffffffdbd; 0x3fc555555555543c; 0x3fa55555cf172b91; 0x3f81111167a4d017
].

Definition exp2_shift : Z := 0x42c8000000000000.

(** The exp2 polynomial. *)
Definition exp2_poly : list Z := [
  0x3fe62e42fefa39ef; 0x3fcebfbdff82c424; 0x3fac6b08d70cf4b5; 0x3f83b2abd24650cc;
  0x3f55d7e09b4e3a84
].

(** [tab[2k]] is the tail and [tab[2k+1]] the head of 2^(k/128). *)
Definition exp_tab : list Z := [
  0x0; 0x3ff0000000000000;
  0x3c9b3b4f1a88bf6e; 0x3feff63da9fb3335;
  0xbc7160139cd8dc5d; 0x3fefec9a3e778061;
  0xbc905e7a108766d1; 0x3fefe315e86e7f85;
  0x3c8cd2523567f613; 0x3fefd9b0d3158574;
  0xbc8bce8023f98efa; 0x3fefd06b29ddf6de;
  0x3c60f74e61e6c861; 0x3fefc74518759bc8;
  0x3c90a3e45b33d399; 0x3fefbe3ecac6f383;
  0x3c979aa65d837b6d; 0x3fefb5586cf9890f;
  0x3c8eb51a92fdeffc; 0x3fefac922b7247f7;
  0x3c3ebe3d702f9cd1; 0x3fefa3ec32d3d1a2;
  0xbc6a033489906e0b; 0x3fef9b66affed31b;
  0xbc9556522a2fbd0e; 0x3fef9301d0125b51;
  0xbc5080ef8c4eea55; 0x3fef8abdc06c31cc;
  0xbc91c923b9d5f416; 0x3fef829aaea92de0;
  0x3c80d3e3e95c55af; 0x3fef7a98c8a58e51;
  0xbc801b15eaa59348; 0x3fef72b83c7d517b;
  0xbc8f1ff055de323d; 0x3fef6af9388c8dea;
  0x3c8b898c3f1353bf; 0x3fef635beb6fcb75;
  0xbc96d99c7611eb26; 0x3fef5be084045cd4;
  0x3c9aecf73e3a2f60; 0x3fef54873168b9aa;
  0xbc8fe782cb86389d; 0x3fef4d5022fcd91d;
  0x3c8a6f4144a6c38d; 0x3fef463b88628cd6;
  0x3c807a05b0e4047d; 0x3fef3f49917ddc96;
  0x3c968efde3a8a894; 0x3fef387a6e756238;
  0x3c875e18f274487d; 0x3fef31ce4fb2a63f;
  0x3c80472b981fe7f2; 0x3fef2b4565e27cdd;
  0xbc96b87b3f71085e; 0x3fef24dfe1f56381;
  0x3c82f7e16d09ab31; 0x3fef1e9df51fdee1;
  0xbc3d219b1a6fbffa; 0x3fef187fd0dad990;
  0x3c8b3782720c0ab4; 0x3fef1285a6e4030b;
  0x3c6e149289cecb8f; 0x3fef0cafa93e2f56;
  0x3c834d754db0abb6; 0x3fef06fe0a31b715;
  0x3c864201e2ac744c; 0x3fef0170fc4cd831;
  0x3c8fdd395dd3f84a; 0x3feefc08b26416ff;
  0xbc86a3803b8e5b04; 0x3feef6c55f929ff1;
  0xbc924aedcc4b5068; 0x3feef1a7373aa9cb;
  0xbc9907f81b512d8e; 0x3feeecae6d05d866;
  0xbc71d1e83e9436d2; 0x3feee7db34e59ff7;
  0xbc991919b3ce1b15; 0x3feee32dc313a8e5;
  0x3c859f48a72a4c6d; 0x3feedea64c123422;
  0xbc9312607a28698a; 0x3feeda4504ac801c;
  0xbc58a78f4817895b; 0x3feed60a21f72e2a;
  0xbc7c2c9b67499a1b; 0x3feed1f5d950a897;
  0x3c4363ed60c2ac11; 0x3feece086061892d;
  0x3c9666093b0664ef; 0x3feeca41ed1d0057;
  0x3c6ecce1daa10379; 0x3feec6a2b5c13cd0;
  0x3c93ff8e3f0f1230; 0x3feec32af0d7d3de;
  0x3c7690cebb7aafb0; 0x3feebfdad5362a27;
  0x3c931dbdeb54e077; 0x3feebcb299fddd0d;
  0xbc8f94340071a38e; 0x3feeb9b2769d2ca7;
  0xbc87deccdc93a349; 0x3feeb6daa2cf6642;
  0xbc78dec6bd0f385f; 0x3feeb42b569d4f82;
  0xbc861246ec7b5cf6; 0x3feeb1a4ca5d920f;
  0x3c93350518fdd78e; 0x3feeaf4736b527da;
  0x3c7b98b72f8a9b05; 0x3feead12d497c7fd;
  0x3c9063e1e21c5409; 0x3feeab07dd485429;
  0x3c34c7855019c6ea; 0x3feea9268a5946b7;
  0x3c9432e62b64c035; 0x3feea76f15ad2148;
  0xbc8ce44a6199769f; 0x3feea5e1b976dc09;
  0xbc8c33c53bef4da8; 0x3feea47eb03a5585;
  0xbc845378892be9ae; 0x3feea34634ccc320;
  0xbc93cedd78565858; 0x3feea23882552225;
  0x3c5710aa807e1964; 0x3feea155d44ca973;
  0xbc93b3efbf5e2228; 0x3feea09e667f3bcd;
  0xbc6a12ad8734b982; 0x3feea012750bdabf;
  0xbc6367efb86da9ee; 0x3fee9fb23c651a2f;
  0xbc80dc3d54e08851; 0x3fee9f7df9519484;
  0xbc781f647e5a3ecf; 0x3fee9f75e8ec5f74;
  0xbc86ee4ac08b7db0; 0x3fee9f9a48a58174;
  0xbc8619321e55e68a; 0x3fee9feb564267c9;
  0x3c909ccb5e09d4d3; 0x3feea0694fde5d3f;
  0xbc7b32dcb94da51d; 0x3feea11473eb0187;
  0x3c94ecfd5467c06b; 0x3feea1ed0130c132;
  0x3c65ebe1abd66c55; 0x3feea2f336cf4e62;
  0xbc88a1c52fb3cf42; 0x3feea427543e1a12;
  0xbc9369b6f13b3734; 0x3feea589994cce13;
  0xbc805e843a19ff1e; 0x3feea71a4623c7ad;
  0xbc94d450d872576e; 0x3feea8d99b4492ed;
  0x3c90ad675b0e8a00; 0x3feeaac7d98a6699;
  0x3c8db72fc1f0eab4; 0x3feeace5422aa0db;
  0xbc65b6609cc5e7ff; 0x3feeaf3216b5448c;
  0x3c7bf68359f35f44; 0x3feeb1ae99157736;
  0xbc93091fa71e3d83; 0x3feeb45b0b91ffc6;
  0xbc5da9b88b6c1e29; 0x3feeb737b0cdc5e5;
  0xbc6c23f97c90b959; 0x3feeba44cbc8520f;
  0xbc92434322f4f9aa; 0x3feebd829fde4e50;
  0xbc85ca6cd7668e4b; 0x3feec0f170ca07ba;
  0x3c71affc2b91ce27; 0x3feec49182a3f090;
  0x3c6dd235e10a73bb; 0x3feec86319e32323;
  0xbc87c50422622263; 0x3feecc667b5de565;
  0x3c8b1c86e3e231d5; 0x3feed09bec4a2d33;
  0xbc91bbd1d3bcbb15; 0x3feed503b23e255d;
  0x3c90cc319cee31d2; 0x3feed99e1330b358;
  0x3c8469846e735ab3; 0x3feede6b5579fdbf;
  0xbc82dfcd978e9db4; 0x3feee36bbfd3f37a;
  0x3c8c1a7792cb3387; 0x3feee89f995ad3ad;
  0xbc907b8f4ad1d9fa; 0x3feeee07298db666;
  0xbc55c3d956dcaeba; 0x3feef3a2b84f15fb;
  0xbc90a40e3da6f640; 0x3feef9728de5593a;
  0xbc68d6f438ad9334; 0x3feeff76f2fb5e47;
  0xbc91eee26b588a35; 0x3fef05b030a1064a;
  0x3c74ffd70a5fddcd; 0x3fef0c1e904bc1d2;
  0xbc91bdfbfa9298ac; 0x3fef12c25bd71e09;
  0x3c736eae30af0cb3; 0x3fef199bdd85529c;
  0x3c8ee3325c9ffd94; 0x3fef20ab5fffd07a;
  0x3c84e08fd10959ac; 0x3fef27f12e57d14b;
  0x3c63cdaf384e1a67; 0x3fef2f6d9406e7b5;
  0x3c676b2c6c921968; 0x3fef3720dcef9069;
  0xbc808a1883ccb5d2; 0x3fef3f0b555dc3fa;
  0xbc8fad5d3ffffa6f; 0x3fef472d4a07897c;
  0xbc900dae3875a949; 0x3fef4f87080d89f2;
  0x3c74a385a63d07a7; 0x3fef5818dcfba487;
  0xbc82919e2040220f; 0x3fef60e316c98398;
  0x3c8e5a50d5c192ac; 0x3fef69e603db3285;
  0x3c843a59ac016b4b; 0x3fef7321f301b460;
  0xbc82d52107b43e1f; 0x3fef7c97337b9b5f;
  0xbc892ab93b470dc9; 0x3fef864614f5a129;
  0x3c74b604603a88d3; 0x3fef902ee78b3ff6;
  0x3c83c5ec519d7271; 0x3fef9a51fbc74c83;
  0xbc8ff7128fd391f0; 0x3fefa4afa2a490da;
  0xbc8dae98e223747d; 0x3fefaf482d8e67f1;
  0x3c8ec3bc41aa2008; 0x3fefba1bee615a27;
  0x3c842b94c3a9eb32; 0x3fefc52b376bba97;
  0x3c8a64a931d185ee; 0x3fefd0765b6e4540;
  0xbc8e37bae43be3ed; 0x3fefdbfdad9cbe14;
  0x3c77893b4d91cd9d; 0x3fefe7c1819e90d8;
  0x3c5305c14160cc89; 0x3feff3c22b8f71f1
].

Definition log_ln2hi : Z := 0x3fe62e42fefa3800.

Definition log_ln2lo : Z := 0x3d2ef35793c76730.

Definition log_poly1 : list Z := [
  0xbfe0000000000000; 0x3fd5555555555577; 0xbfcffffffffffdcb; 0x3fc999999995dd0c;
  0xbfc55555556745a7; 0x3fc24924a344de30; 0xbfbfffffa4423d65; 0x3fbc7184282ad6ca;
  0xbfb999eb43b068ff; 0x3fb78182f7afd085; 0xbfb5521375d145cd
].

Definition log_poly : list Z := [
  0xbfe0000000000001; 0x3fd555555551305b; 0xbfcfffffffeb4590; 0x3fc999b324f10111;
  0xbfc55575e506c89f
].

(** Pairs [invc], [logc]. *)
Definition log_tab : list Z := [
  0x3ff734f0c3e0de9f; 0xbfd7cc7f79e69000;
  0x3ff713786a2ce91f; 0xbfd76feec20d0000;
  0x3ff6f26008fab5a0; 0xbfd713e31351e000;
  0x3ff6d1a61f138c7d; 0xbfd6b85b38287800;
  0x3ff6b1490bc5b4d1; 0xbfd65d5590807800;
  0x3ff69147332f0cba; 0xbfd602d076180000;
  0x3ff6719f18224223; 0xbfd5a8ca86909000;
  0x3ff6524f99a51ed9; 0xbfd54f4356035000;
  0x3ff63356aa8f24c4; 0xbfd4f637c36b4000;
  0x3ff614b36b9ddc14; 0xbfd49da7fda85000;
  0x3ff5f66452c65c4c; 0xbfd445923989a800;
  0x3ff5d867b5912c4f; 0xbfd3edf439b0b800;
  0x3ff5babccb5b90de; 0xbfd396ce448f7000;
  0x3ff59d61f2d91a78; 0xbfd3401e17bda000;
  0x3ff5805612465687; 0xbfd2e9e2ef468000;
  0x3ff56397cee76bd3; 0xbfd2941b3830e000;
  0x3ff54725e2a77f93; 0xbfd23ec58cda8800;
  0x3ff52aff42064583; 0xbfd1e9e129279000;
  0x3ff50f22dbb2bddf; 0xbfd1956d2b48f800;
  0x3ff4f38f4734ded7; 0xbfd141679ab9f800;
  0x3ff4d843cfde2840; 0xbfd0edd094ef9800;
  0x3ff4bd3ec078a3c8; 0xbfd09aa518db1000;
  0x3ff4a27fc3e0258a; 0xbfd047e65263b800;
  0x3ff4880524d48434; 0xbfcfeb224586f000;
  0x3ff46dce1b192d0b; 0xbfcf474a7517b000;
  0x3ff453d9d3391854; 0xbfcea4443d103000;
  0x3ff43a2744b4845a; 0xbfce020d44e9b000;
  0x3ff420b54115f8fb; 0xbfcd60a22977f000;
  0x3ff40782da3ef4b1; 0xbfccc00104959000;
  0x3ff3ee8f5d57fe8f; 0xbfcc202956891000;
  0x3ff3d5d9a00b4ce9; 0xbfcb81178d811000;
  0x3ff3bd60c010c12b; 0xbfcae2c9ccd3d000;
  0x3ff3a5242b75dab8; 0xbfca45402e129000;
  0x3ff38d22cd9fd002; 0xbfc9a877681df000;
  0x3ff3755bc5847a1c; 0xbfc90c6d69483000;
  0x3ff35dce49ad36e2; 0xbfc87120a645c000;
  0x3ff34679984dd440; 0xbfc7d68fb4143000;
  0x3ff32f5cceffcb24; 0xbfc73cb83c627000;
  0x3ff3187775a10d49; 0xbfc6a39a9b376000;
  0x3ff301c8373e3990; 0xbfc60b3154b7a000;
  0x3ff2eb4ebb95f841; 0xbfc5737d76243000;
  0x3ff2d50a0219a9d1; 0xbfc4dc7b8fc23000;
  0x3ff2bef9a8b7fd2a; 0xbfc4462c51d20000;
  0x3ff2a91c7a0c1bab; 0xbfc3b08abc830000;
  0x3ff293726014b530; 0xbfc31b996b490000;
  0x3ff27dfa5757a1f5; 0xbfc2875490a44000;
  0x3ff268b39b1d3bbf; 0xbfc1f3b9f879a000;
  0x3ff2539d838ff5bd; 0xbfc160c8252ca000;
  0x3ff23eb7aac9083b; 0xbfc0ce7f57f72000;
  0x3ff22a012ba940b6; 0xbfc03cdc49fea000;
  0x3ff2157996cc4132; 0xbfbf57bdbc4b8000;
  0x3ff201201dd2fc9b; 0xbfbe370896404000;
  0x3ff1ecf4494d480b; 0xbfbd17983ef94000;
  0x3ff1d8f5528f6569; 0xbfbbf9674ed8a000;
  0x3ff1c52311577e7c; 0xbfbadc79202f6000;
  0x3ff1b17c74cb26e9; 0xbfb9c0c3e7288000;
  0x3ff19e010c2c1ab6; 0xbfb8a646b372c000;
  0x3ff18ab07bb670bd; 0xbfb78d01b3ac0000;
  0x3ff1778a25efbcb6; 0xbfb674f145380000;
  0x3ff1648d354c31da; 0xbfb55e0e6d878000;
  0x3ff151b990275fdd; 0xbfb4485cdea1e000;
  0x3ff13f0ea432d24c; 0xbfb333d94d6aa000;
  0x3ff12c8b7210f9da; 0xbfb22079f8c56000;
  0x3ff11a3028ecb531; 0xbfb10e4698622000;
  0x3ff107fbda8434af; 0xbfaffa6c6ad20000;
  0x3ff0f5ee0f4e6bb3; 0xbfadda8d4a774000;
  0x3ff0e4065d2a9fce; 0xbfabbcece4850000;
  0x3ff0d244632ca521; 0xbfa9a1894012c000;
  0x3ff0c0a77ce2981a; 0xbfa788583302c000;
  0x3ff0af2f83c636d1; 0xbfa5715e67d68000;
  0x3ff09ddb98a01339; 0xbfa35c8a49658000;
  0x3ff08cabaf52e7df; 0xbfa149e364154000;
  0x3ff07b9f2f4e28fb; 0xbf9e72c082eb8000;
  0x3ff06ab58c358f19; 0xbf9a55f152528000;
  0x3ff059eea5ecf92c; 0xbf963d62cf818000;
  0x3ff04949cdd12c90; 0xbf9228fb8caa0000;
  0x3ff038c6c6f0ada9; 0xbf8c317b20f90000;
  0x3ff02865137932a9; 0xbf8419355daa0000;
  0x3ff0182427ea7348; 0xbf781203c2ec0000;
  0x3ff008040614b195; 0xbf60040979240000;
  0x3fefe01ff726fa1a; 0x3f6feff384900000;
  0x3fefa11cc261ea74; 0x3f87dc41353d0000;
  0x3fef6310b081992e; 0x3f93cea3c4c28000;
  0x3fef25f63ceeadcd; 0x3f9b9fc114890000;
  0x3feee9c8039113e7; 0x3fa1b0d8ce110000;
  0x3feeae8078cbb1ab; 0x3fa58a5bd001c000;
  0x3fee741aa29d0c9b; 0x3fa95c8340d88000;
  0x3fee3a91830a99b5; 0x3fad276aef578000;
  0x3fee01e009609a56; 0x3fb07598e598c000;
  0x3fedca01e577bb98; 0x3fb253f5e30d2000;
  0x3fed92f20b7c9103; 0x3fb42edd8b380000;
  0x3fed5cac66fb5cce; 0x3fb606598757c000;
  0x3fed272caa5ede9d; 0x3fb7da76356a0000;
  0x3fecf26e3e6b2ccd; 0x3fb9ab434e1c6000;
  0x3fecbe6da2a77902; 0x3fbb78c7bb0d6000;
  0x3fec8b266d37086d; 0x3fbd431332e72000;
  0x3fec5894bd5d5804; 0x3fbf0a3171de6000;
  0x3fec26b533bb9f8c; 0x3fc067152b914000;
  0x3febf583eeece73f; 0x3fc147858292b000;
  0x3febc4fd75db96c1; 0x3fc2266ecdca3000;
  0x3feb951e0c864a28; 0x3fc303d7a6c55000;
  0x3feb65e2c5ef3e2c; 0x3fc3dfc33c331000;
  0x3feb374867c9888b; 0x3fc4ba366b7a8000;
  0x3feb094b211d304a; 0x3fc5933928d1f000;
  0x3feadbe885f2ef7e; 0x3fc66acd2418f000;
  0x3feaaf1d31603da2; 0x3fc740f8ec669000;
  0x3fea82e63fd358a7; 0x3fc815c0f51af000;
  0x3fea5740ef09738b; 0x3fc8e92954f68000;
  0x3fea2c2a90ab4b27; 0x3fc9bb3602f84000;
  0x3fea01a01393f2d1; 0x3fca8bed1c2c0000;
  0x3fe9d79f24db3c1b; 0x3fcb5b515c01d000;
  0x3fe9ae2505c7b190; 0x3fcc2967ccbcc000;
  0x3fe9852ef297ce2f; 0x3fccf635d5486000;
  0x3fe95cbaeea44b75; 0x3fcdc1bd3446c000;
  0x3fe934c69de74838; 0x3fce8c01b8cfe000;
  0x3fe90d4f2f6752e6; 0x3fcf5509c0179000;
  0x3fe8e6528effd79d; 0x3fd00e6c121fb800;
  0x3fe8bfce9fcc007c; 0x3fd071b80e93d000;
  0x3fe899c0dabec30e; 0x3fd0d46b9e867000;
  0x3fe87427aa2317fb; 0x3fd13687334bd000;
  0x3fe84f00acb39a08; 0x3fd1980d67234800;
  0x3fe82a49e8653e55; 0x3fd1f8ffe0cc8000;
  0x3fe8060195f40260; 0x3fd2595fd7636800;
  0x3fe7e22563e0a329; 0x3fd2b9300914a800;
  0x3fe7beb377dcb5ad; 0x3fd3187210436000;
  0x3fe79baa679725c2; 0x3fd377266dec1800;
  0x3fe77907f2170657; 0x3fd3d54ffbaf3000;
  0x3fe756cadbd6130c; 0x3fd432eee32fe000
].

(** Pairs [chi], [clo]. *)
Definition log_tab2 : list Z := [
  0x3fe61000014fb66b; 0x3c7e026c91425b3c;
  0x3fe63000034db495; 0x3c8dbfea48005d41;
  0x3fe650000d94d478; 0x3c8e7fa786d6a5b7;
  0x3fe67000074e6fad; 0x3c61fcea6b54254c;
  0x3fe68ffffedf0fae; 0xbc7c7e274c590efd;
  0x3fe6b0000763c5bc; 0xbc8ac16848dcda01;
  0x3fe6d0001e5cc1f6; 0x3c833f1c9d499311;
  0x3fe6efffeb05f63e; 0xbc7e80041ae22d53;
  0x3fe710000e869780; 0x3c7bff6671097952;
  0x3fe72ffffc67e912; 0x3c8c00e226bd8724;
  0x3fe74fffdf81116a; 0xbc6e02916ef101d2;
  0x3fe770000f679c90; 0xbc67fc71cd549c74;
  0x3fe78ffffa7ec835; 0x3c81bec19ef50483;
  0x3fe7affffe20c2e6; 0xbc707e1729cc6465;
  0x3fe7cfffed3fc900; 0xbc808072087b8b1c;
  0x3fe7efffe9261a76; 0x3c8dc0286d9df9ae;
  0x3fe81000049ca3e8; 0x3c897fd251e54c33;
  0x3fe8300017932c8f; 0xbc8afee9b630f381;
  0x3fe850000633739c; 0x3c89bfbf6b6535bc;
  0x3fe87000204289c6; 0xbc8bbf65f3117b75;
  0x3fe88fffebf57904; 0xbc89006ea23dcb57;
  0x3fe8b00022bc04df; 0xbc7d00df38e04b0a;
  0x3fe8cfffe50c1b8a; 0xbc88007146ff9f05;
  0x3fe8effffc918e43; 0x3c83817bd07a7038;
  0x3fe910001efa5fc7; 0x3c893e9176dfb403;
  0x3fe9300013467bb9; 0x3c7f804e4b980276;
  0x3fe94fffe6ee076f; 0xbc8f7ef0d9ff622e;
  0x3fe96fffde3c12d1; 0xbc7082aa962638ba;
  0x3fe98ffff4458a0d; 0xbc87801b9164a8ef;
  0x3fe9afffdd982e3e; 0xbc8740e08a5a9337;
  0x3fe9cfffed49fb66; 0x3c3fce08c19be000;
  0x3fe9f00020f19c51; 0xbc8a3faa27885b0a;
  0x3fea10001145b006; 0x3c74ff489958da56;
  0x3fea300007bbf6fa; 0x3c8cbeab8a2b6d18;
  0x3fea500010971d79; 0x3c88fecadd787930;
  0x3fea70001df52e48; 0xbc8f41763dd8abdb;
  0x3fea90001c593352; 0xbc8ebf0284c27612;
  0x3feab0002a4f3e4b; 0xbc69fd043cff3f5f;
  0x3feacfffd7ae1ed1; 0xbc823ee7129070b4;
  0x3feaefffee510478; 0x3c6a063ee00edea3;
  0x3feb0fffdb650d5b; 0x3c5a06c8381f0ab9;
  0x3feb2ffffeaaca57; 0xbc79011e74233c1d;
  0x3feb4fffd995badc; 0xbc79ff1068862a9f;
  0x3feb7000249e659c; 0x3c8aff45d0864f3e;
  0x3feb8ffff9871640; 0x3c7cfe7796c2c3f9;
  0x3febafffd204cb4f; 0xbc63ff27eef22bc4;
  0x3febcfffd2415c45; 0xbc6cffb7ee3bea21;
  0x3febeffff86309df; 0xbc814103972e0b5c;
  0x3fec0fffe1b57653; 0x3c8bc16494b76a19;
  0x3fec2ffff1fa57e3; 0xbc64feef8d30c6ed;
  0x3fec4fffdcbfe424; 0xbc843f68bcec4775;
  0x3fec6fffed54b9f7; 0x3c847ea3f053e0ec;
  0x3fec8fffeb998fd5; 0x3c7383068df992f1;
  0x3fecb0002125219a; 0xbc68fd8e64180e04;
  0x3feccfffdd94469c; 0x3c8e7ebe1cc7ea72;
  0x3fecefffeafdc476; 0x3c8ebe39ad9f88fe;
  0x3fed1000169af82b; 0x3c757d91a8b95a71;
  0x3fed30000d0ff71d; 0x3c89c1906970c7da;
  0x3fed4fffea790fc4; 0xbc580e37c558fe0c;
  0x3fed70002edc87e5; 0xbc7f80d64dc10f44;
  0x3fed900021dc82aa; 0xbc747c8f94fd5c5c;
  0x3fedafffd86b0283; 0x3c8c7f1dc521617e;
  0x3fedd000296c4739; 0x3c88019eb2ffb153;
  0x3fedefffe54490f5; 0x3c6e00d2c652cc89;
  0x3fee0fffcdabf694; 0xbc7f8340202d69d2;
  0x3fee2fffdb52c8dd; 0x3c7b00c1ca1b0864;
  0x3fee4ffff24216ef; 0x3c72ffa8b094ab51;
  0x3fee6fffe88a5e11; 0xbc57f673b1efbe59;
  0x3fee9000119eff0d; 0xbc84808d5e0bc801;
  0x3feeafffdfa51744; 0x3c780006d54320b5;
  0x3feed0001a127fa1; 0xbc5002f860565c92;
  0x3feef00007babcc4; 0xbc8540445d35e611;
  0x3fef0ffff57a8d02; 0xbc4ffb3139ef9105;
  0x3fef30001ee58ac7; 0x3c8a81acf2731155;
  0x3fef4ffff5823494; 0x3c8a3f41d4d7c743;
  0x3fef6ffffca94c6b; 0xbc6202f41c987875;
  0x3fef8fffe1f9c441; 0x3c777dd1f477e74b;
  0x3fefafffd2e0e37e; 0xbc6f01199a7ca331;
  0x3fefd0001c77e49e; 0x3c7181ee4bceacb1;
  0x3fefeffff7e0c331; 0xbc6e05370170875a;
  0x3ff00ffff465606e; 0xbc8a7ead491c0ada;
  0x3ff02ffff3867a58; 0xbc977f69c3fcb2e0;
  0x3ff04ffffdfc0d17; 0x3c97bffe34cb945b;
  0x3ff0700003cd4d82; 0x3c820083c0e456cb;
  0x3ff08ffff9f2cbe8; 0xbc6dffdfbe37751a;
  0x3ff0b000010cda65; 0xbc913f7faee626eb;
  0x3ff0d00001a4d338; 0x3c807dfa79489ff7;
  0x3ff0effffadafdfd; 0xbc77040570d66bc0;
  0x3ff110000bbafd96; 0x3c8e80d4846d0b62;
  0x3ff12ffffae5f45d; 0x3c9dbffa64fd36ef;
  0x3ff150000dd59ad9; 0x3c9a0077701250ae;
  0x3ff170000f21559a; 0x3c8dfdf9e2e3deee;
  0x3ff18ffffc275426; 0x3c910030dc3b7273;
  0x3ff1b000123d3c59; 0x3c997f7980030188;
  0x3ff1cffff8299eb7; 0xbc65f932ab9f8c67;
  0x3ff1effff48ad400; 0x3c937fbf9da75beb;
  0x3ff210000c8b86a4; 0x3c9f806b91fd5b22;
  0x3ff2300003854303; 0x3c93ffc2eb9fbf33;
  0x3ff24fffffbcf684; 0x3c7601e77e2e2e72;
  0x3ff26ffff52921d9; 0x3c7ffcbb767f0c61;
  0x3ff2900014933a3c; 0xbc7202ca3c02412b;
  0x3ff2b00014556313; 0xbc92808233f21f02;
  0x3ff2cfffebfe523b; 0xbc88ff7e384fdcf2;
  0x3ff2f0000bb8ad96; 0xbc85ff51503041c5;
  0x3ff30ffffb7ae2af; 0xbc810071885e289d;
  0x3ff32ffffeac5f7f; 0xbc91ff5d3fb7b715;
  0x3ff350000ca66756; 0x3c957f82228b82bd;
  0x3ff3700011fbf721; 0x3c8000bac40dd5cc;
  0x3ff38ffff9592fb9; 0xbc943f9d2db2a751;
  0x3ff3b00004ddd242; 0x3c857f6b707638e1;
  0x3ff3cffff5b2c957; 0x3c7a023a10bf1231;
  0x3ff3efffeab0b418; 0x3c987f6d66b152b0;
  0x3ff410001532aff4; 0x3c67f8375f198524;
  0x3ff4300017478b29; 0x3c8301e672dc5143;
  0x3ff44fffe795b463; 0x3c89ff69b8b2895a;
  0x3ff46fffe80475e0; 0xbc95c0b19bc2f254;
  0x3ff48fffef6fc1e7; 0x3c9b4009f23a2a72;
  0x3ff4afffe5bea704; 0xbc94ffb7bf0d7d45;
  0x3ff4d000171027de; 0xbc99c06471dc6a3d;
  0x3ff4f0000ff03ee2; 0x3c977f890b85531c;
  0x3ff5100012dc4bd1; 0x3c6004657166a436;
  0x3ff530001605277a; 0xbc96bfcece233209;
  0x3ff54fffecdb704c; 0xbc8902720505a1d7;
  0x3ff56fffef5f54a9; 0x3c9bbfe60ec96412;
  0x3ff5900017e61012; 0x3c887ec581afef90;
  0x3ff5b00003c93e92; 0xbc9f41080abf0cc0;
  0x3ff5d0001d4919bc; 0xbc98812afb254729;
  0x3ff5efffe7b87a89; 0xbc947eb780ed6904
].

Definition log2_invln2hi : Z := 0x3ff7154765200000.

Definition log2_invln2lo : Z := 0x3de705fc2eefa200.

Definition log2_poly1 : list Z := [
  0xbfe71547652b82fe; 0x3fdec709dc3a03f7; 0xbfd71547652b7c3f; 0x3fd2776c50f05be4;
  0xbfcec709dd768fe5; 0x3fca61761ec4e736; 0xbfc7153fbc64a79b; 0x3fc484d154f01b4a;
  0xbfc289e4a72c383c; 0x3fc0b32f285aee66
].

Definition log2_poly : list Z := [
  0xbfe71547652b8339; 0x3fdec709dc3a04be; 0xbfd7154764702ffb; 0x3fd2776c50034c48;
  0xbfcec7b328ea92bc; 0x3fca6225e117f92e
].

(** Pairs [invc], [logc]. *)
Definition log2_tab : list Z := [
  0x3ff724286bb1acf8; 0xbfe1095feecdb000;
  0x3ff6e1f766d2cca1; 0xbfe08494bd76d000;
  0x3ff6a13d0e30d48a; 0xbfe00143aee8f800;
  0x3ff661ec32d06c85; 0xbfdefec5360b4000;
  0x3ff623fa951198f8; 0xbfddfdd91ab7e000;
  0x3ff5e75ba4cf026c; 0xbfdcffae0cc79000;
  0x3ff5ac055a214fb8; 0xbfdc043811fda000;
  0x3ff571ed0f166e1e; 0xbfdb0b67323ae000;
  0x3ff53909590bf835; 0xbfda152f5a2db000;
  0x3ff5014fed61addd; 0xbfd9217f5af86000;
  0x3ff4cab88e487bd0; 0xbfd8304db0719000;
  0x3ff49539b4334fee; 0xbfd74189f9a9e000;
  0x3ff460cbdfafd569; 0xbfd6552bb5199000;
  0x3ff42d664ee4b953; 0xbfd56b23a29b1000;
  0x3ff3fb01111dd8a6; 0xbfd483650f5fa000;
  0x3ff3c995b70c5836; 0xbfd39de937f6a000;
  0x3ff3991c4ab6fd4a; 0xbfd2baa1538d6000;
  0x3ff3698e0ce099b5; 0xbfd1d98340ca4000;
  0x3ff33ae48213e7b2; 0xbfd0fa853a40e000;
  0x3ff30d191985bdb1; 0xbfd01d9c32e73000;
  0x3ff2e025cab271d7; 0xbfce857da2fa6000;
  0x3ff2b404cf13cd82; 0xbfccd3c8633d8000;
  0x3ff288b02c7ccb50; 0xbfcb26034c14a000;
  0x3ff25e2263944de5; 0xbfc97c1c2f4fe000;
  0x3ff234563d8615b1; 0xbfc7d6023f800000;
  0x3ff20b46e33eaf38; 0xbfc633a71a05e000;
  0x3ff1e2eefdcda3dd; 0xbfc494f5e9570000;
  0x3ff1bb4a580b3930; 0xbfc2f9e424e0a000;
  0x3ff19453847f2200; 0xbfc162595afdc000;
  0x3ff16e06c0d5d73c; 0xbfbf9c9a75bd8000;
  0x3ff1485f47b7e4c2; 0xbfbc7b575bf9c000;
  0x3ff12358ad0085d1; 0xbfb960c60ff48000;
  0x3ff0fef00f532227; 0xbfb64ce247b60000;
  0x3ff0db2077d03a8f; 0xbfb33f78b2014000;
  0x3ff0b7e6d65980d9; 0xbfb0387d1a42c000;
  0x3ff0953efe7b408d; 0xbfaa6f9208b50000;
  0x3ff07325cac53b83; 0xbfa47a954f770000;
  0x3ff05197e40d1b5c; 0xbf9d23a8c50c0000;
  0x3ff03091c1208ea2; 0xbf916a2629780000;
  0x3ff0101025b37e21; 0xbf7720f8d8e80000;
  0x3fefc07ef9caa76b; 0x3f86fe53b1500000;
  0x3fef4465d3f6f184; 0x3fa11ccce10f8000;
  0x3feecc079f84107f; 0x3fac4dfc8c8b8000;
  0x3fee573a99975ae8; 0x3fb3aa321e574000;
  0x3fede5d6f0bd3de6; 0x3fb918a0d08b8000;
  0x3fed77b681ff38b3; 0x3fbe72e9da044000;
  0x3fed0cb5724de943; 0x3fc1dcd2507f6000;
  0x3feca4b2dc0e7563; 0x3fc476ab03dea000;
  0x3fec3f8ee8d6cb51; 0x3fc7074377e22000;
  0x3febdd2b4f020c4c; 0x3fc98ede8ba94000;
  0x3feb7d6c006015ca; 0x3fcc0db86ad2e000;
  0x3feb20366e2e338f; 0x3fce840aafcee000;
  0x3feac57026295039; 0x3fd0790ab4678000;
  0x3fea6d01bc2731dd; 0x3fd1ac056801c000;
  0x3fea16d3bc3ff18b; 0x3fd2db11d4fee000;
  0x3fe9c2d14967fead; 0x3fd406464ec58000;
  0x3fe970e4f47c9902; 0x3fd52dbe093af000;
  0x3fe920fb3982bcf2; 0x3fd651902050d000;
  0x3fe8d30187f759f1; 0x3fd771d2cdeaf000;
  0x3fe886e5ebb9f66d; 0x3fd88e9c857d9000;
  0x3fe83c97b658b994; 0x3fd9a80155e16000;
  0x3fe7f405ffc61022; 0x3fdabe186ed3d000;
  0x3fe7ad22181415ca; 0x3fdbd0f2aea0e000;
  0x3fe767dcf99eff8c; 0x3fdce0a43dbf4000
].

(** Pairs [chi], [clo]. *)
Definition log2_tab2 : list Z := [
  0x3fe6200012b90a8e; 0x3c8904ab0644b605;
  0x3fe66000045734a6; 0x3c61ff9bea62f7a9;
  0x3fe69fffc325f2c5; 0x3c827ecfcb3c90ba;
  0x3fe6e00038b95a04; 0x3c88ff8856739326;
  0x3fe71fffe09994e3; 0x3c8afd40275f82b1;
  0x3fe7600015590e10; 0xbc72fd75b4238341;
  0x3fe7a00012655bd5; 0x3c7808e67c242b76;
  0x3fe7e0003259e9a6; 0xbc6208e426f622b7;
  0x3fe81fffedb4b2d2; 0xbc8402461ea5c92f;
  0x3fe860002dfafcc3; 0x3c6df7f4a2f29a1f;
  0x3fe89ffff78c6b50; 0xbc8e0453094995fd;
  0x3fe8e00039671566; 0xbc8a04f3bec77b45;
  0x3fe91fffe2bf1745; 0xbc77fa34400e203c;
  0x3fe95fffcc5c9fd1; 0xbc76ff8005a0695d;
  0x3fe9a0003bba4767; 0x3c70f8c4c4ec7e03;
  0x3fe9dfffe7b92da5; 0x3c8e7fd9478c4602;
  0x3fea1fffd72efdaf; 0xbc6a0c554dcdae7e;
  0x3fea5fffde04ff95; 0x3c867da98ce9b26b;
  0x3fea9fffca5e8d2b; 0xbc8284c9b54c13de;
  0x3feadfffddad03ea; 0x3c5812c8ea602e3c;
  0x3feb1ffff10d3d4d; 0xbc8efaddad27789c;
  0x3feb5fffce21165a; 0x3c53cb1719c61237;
  0x3feb9fffd950e674; 0x3c73f7d94194ce00;
  0x3febe000139ca8af; 0x3c750ac4215d9bc0;
  0x3fec20005b46df99; 0x3c6beea653e9c1c9;
  0x3fec600040b9f7ae; 0xbc7c079f274a70d6;
  0x3feca0006255fd8a; 0xbc7a0b4076e84c1f;
  0x3fecdfffd94c095d; 0x3c88f933f99ab5d7;
  0x3fed1ffff975d6cf; 0xbc582c08665fe1be;
  0x3fed5fffa2561c93; 0xbc7b04289bd295f3;
  0x3fed9fff9d228b0c; 0x3c870251340fa236;
  0x3fede00065bc7e16; 0xbc75011e16a4d80c;
  0x3fee200002f64791; 0x3c89802f09ef62e0;
  0x3fee600057d7a6d8; 0xbc7e0b75580cf7fa;
  0x3feea00027edc00c; 0xbc8c848309459811;
  0x3feee0006cf5cb7c; 0xbc8f8027951576f4;
  0x3fef2000782b7dcc; 0xbc8f81d97274538f;
  0x3fef6000260c450a; 0xbc4071002727ffdc;
  0x3fef9fffe88cd533; 0xbc581bdce1fda8b0;
  0x3fefdfffd50f8689; 0x3c87f91acb918e6e;
  0x3ff0200004292367; 0x3c9b7ff365324681;
  0x3ff05fffe3e3d668; 0x3c86fa08ddae957b;
  0x3ff0a0000a85a757; 0xbc57e2de80d3fb91;
  0x3ff0e0001a5f3fcc; 0xbc91823305c5f014;
  0x3ff11ffff8afbaf5; 0xbc8bfabb6680bac2;
  0x3ff15fffe54d91ad; 0xbc9d7f121737e7ef;
  0x3ff1a00011ac36e1; 0x3c9c000a0516f5ff;
  0x3ff1e00019c84248; 0xbc9082fbe4da5da0;
  0x3ff220000ffe5e6e; 0xbc88fdd04c9cfb43;
  0x3ff26000269fd891; 0x3c8cfe2a7994d182;
  0x3ff2a00029a6e6da; 0xbc700273715e8bc5;
  0x3ff2dfffe0293e39; 0x3c9b7c39dab2a6f9;
  0x3ff31ffff7dcf082; 0x3c7df1336edc5254;
  0x3ff35ffff05a8b60; 0xbc9e03564ccd31eb;
  0x3ff3a0002e0eaecc; 0x3c75f0e74bd3a477;
  0x3ff3e000043bb236; 0x3c9c7dcb149d8833;
  0x3ff4200002d187ff; 0x3c7e08afcf2d3d28;
  0x3ff460000d387cb1; 0x3c820837856599a6;
  0x3ff4a00004569f89; 0xbc89fa5c904fbcd2;
  0x3ff4e000043543f3; 0xbc781125ed175329;
  0x3ff51fffcc027f0f; 0x3c9883d8847754dc;
  0x3ff55ffffd87b36f; 0xbc8709e731d02807;
  0x3ff59ffff21df7ba; 0x3c87f79f68727b02;
  0x3ff5dfffebfc3481; 0xbc9180902e30e93e
].

Definition pow_ln2hi : Z := 0x3fe62e42fefa3800.

Definition pow_ln2lo : Z := 0x3d2ef35793c76730.

Definition pow_poly : list Z := [
  0xbfe0000000000000; 0xbfe5555555555560; 0x3fe0000000000006; 0x3fe999999959554e;
  0xbfe555555529a47a; 0xbff2495b9b4845e9; 0x3ff0002b8b263fc3
].

(** Triples [invc], [logc], [logctail]; the padding is left out. *)
Definition pow_log_tab : list Z := [
  0x3ff6a00000000000; 0xbfd62c82f2b9c800; 0x3cfab42428375680;
  0x3ff6800000000000; 0xbfd5d1bdbf580800; 0xbd1ca508d8e0f720;
  0x3ff6600000000000; 0xbfd5767717455800; 0xbd2362a4d5b6506d;
  0x3ff6400000000000; 0xbfd51aad872df800; 0xbce684e49eb067d5;
  0x3ff6200000000000; 0xbfd4be5f95777800; 0xbd041b6993293ee0;
  0x3ff6000000000000; 0xbfd4618bc21c6000; 0x3d13d82f484c84cc;
  0x3ff5e00000000000; 0xbfd404308686a800; 0x3cdc42f3ed820b3a;
  0x3ff5c00000000000; 0xbfd3a64c55694800; 0x3d20b1c686519460;
  0x3ff5a00000000000; 0xbfd347dd9a988000; 0x3d25594dd4c58092;
  0x3ff5800000000000; 0xbfd2e8e2bae12000; 0x3d267b1e99b72bd8;
  0x3ff5600000000000; 0xbfd2895a13de8800; 0x3d15ca14b6cfb03f;
  0x3ff5600000000000; 0xbfd2895a13de8800; 0x3d15ca14b6cfb03f;
  0x3ff5400000000000; 0xbfd22941fbcf7800; 0xbd165a242853da76;
  0x3ff5200000000000; 0xbfd1c898c1699800; 0xbd1fafbc68e75404;
  0x3ff5000000000000; 0xbfd1675cababa800; 0x3d1f1fc63382a8f0;
  0x3ff4e00000000000; 0xbfd1058bf9ae4800; 0xbd26a8c4fd055a66;
  0x3ff4c00000000000; 0xbfd0a324e2739000; 0xbd0c6bee7ef4030e;
  0x3ff4a00000000000; 0xbfd0402594b4d000; 0xbcf036b89ef42d7f;
  0x3ff4a00000000000; 0xbfd0402594b4d000; 0xbcf036b89ef42d7f;
  0x3ff4800000000000; 0xbfcfb9186d5e4000; 0x3d0d572aab993c87;
  0x3ff4600000000000; 0xbfcef0adcbdc6000; 0x3d2b26b79c86af24;
  0x3ff4400000000000; 0xbfce27076e2af000; 0xbd172f4f543fff10;
  0x3ff4200000000000; 0xbfcd5c216b4fc000; 0x3d21ba91bbca681b;
  0x3ff4000000000000; 0xbfcc8ff7c79aa000; 0x3d27794f689f8434;
  0x3ff4000000000000; 0xbfcc8ff7c79aa000; 0x3d27794f689f8434;
  0x3ff3e00000000000; 0xbfcbc286742d9000; 0x3d194eb0318bb78f;
  0x3ff3c00000000000; 0xbfcaf3c94e80c000; 0x3cba4e633fcd9066;
  0x3ff3a00000000000; 0xbfca23bc1fe2b000; 0xbd258c64dc46c1ea;
  0x3ff3a00000000000; 0xbfca23bc1fe2b000; 0xbd258c64dc46c1ea;
  0x3ff3800000000000; 0xbfc9525a9cf45000; 0xbd2ad1d904c1d4e3;
  0x3ff3600000000000; 0xbfc87fa06520d000; 0x3d2bbdbf7fdbfa09;
  0x3ff3400000000000; 0xbfc7ab890210e000; 0x3d2bdb9072534a58;
  0x3ff3400000000000; 0xbfc7ab890210e000; 0x3d2bdb9072534a58;
  0x3ff3200000000000; 0xbfc6d60fe719d000; 0xbd10e46aa3b2e266;
  0x3ff3000000000000; 0xbfc5ff3070a79000; 0xbd1e9e439f105039;
  0x3ff3000000000000; 0xbfc5ff3070a79000; 0xbd1e9e439f105039;
  0x3ff2e00000000000; 0xbfc526e5e3a1b000; 0xbd20de8b90075b8f;
  0x3ff2c00000000000; 0xbfc44d2b6ccb8000; 0x3d170cc16135783c;
  0x3ff2c00000000000; 0xbfc44d2b6ccb8000; 0x3d170cc16135783c;
  0x3ff2a00000000000; 0xbfc371fc201e9000; 0x3cf178864d27543a;
  0x3ff2800000000000; 0xbfc29552f81ff000; 0xbd248d301771c408;
  0x3ff2600000000000; 0xbfc1b72ad52f6000; 0xbd2e80a41811a396;
  0x3ff2600000000000; 0xbfc1b72ad52f6000; 0xbd2e80a41811a396;
  0x3ff2400000000000; 0xbfc0d77e7cd09000; 0x3d0a699688e85bf4;
  0x3ff2400000000000; 0xbfc0d77e7cd09000; 0x3d0a699688e85bf4;
  0x3ff2200000000000; 0xbfbfec9131dbe000; 0xbd2575545ca333f2;
  0x3ff2000000000000; 0xbfbe27076e2b0000; 0x3d2a342c2af0003c;
  0x3ff2000000000000; 0xbfbe27076e2b0000; 0x3d2a342c2af0003c;
  0x3ff1e00000000000; 0xbfbc5e548f5bc000; 0xbd1d0c57585fbe06;
  0x3ff1c00000000000; 0xbfba926d3a4ae000; 0x3d253935e85baac8;
  0x3ff1c00000000000; 0xbfba926d3a4ae000; 0x3d253935e85baac8;
  0x3ff1a00000000000; 0xbfb8c345d631a000; 0x3d137c294d2f5668;
  0x3ff1a00000000000; 0xbfb8c345d631a000; 0x3d137c294d2f5668;
  0x3ff1800000000000; 0xbfb6f0d28ae56000; 0xbd269737c93373da;
  0x3ff1600000000000; 0xbfb51b073f062000; 0x3d1f025b61c65e57;
  0x3ff1600000000000; 0xbfb51b073f062000; 0x3d1f025b61c65e57;
  0x3ff1400000000000; 0xbfb341d7961be000; 0x3d2c5edaccf913df;
  0x3ff1400000000000; 0xbfb341d7961be000; 0x3d2c5edaccf913df;
  0x3ff1200000000000; 0xbfb16536eea38000; 0x3d147c5e768fa309;
  0x3ff1000000000000; 0xbfaf0a30c0118000; 0x3d2d599e83368e91;
  0x3ff1000000000000; 0xbfaf0a30c0118000; 0x3d2d599e83368e91;
  0x3ff0e00000000000; 0xbfab42dd71198000; 0x3d1c827ae5d6704c;
  0x3ff0e00000000000; 0xbfab42dd71198000; 0x3d1c827ae5d6704c;
  0x3ff0c00000000000; 0xbfa77458f632c000; 0xbd2cfc4634f2a1ee;
  0x3ff0c00000000000; 0xbfa77458f632c000; 0xbd2cfc4634f2a1ee;
  0x3ff0a00000000000; 0xbfa39e87b9fec000; 0x3cf502b7f526feaa;
  0x3ff0a00000000000; 0xbfa39e87b9fec000; 0x3cf502b7f526feaa;
  0x3ff0800000000000; 0xbf9f829b0e780000; 0xbd2980267c7e09e4;
  0x3ff0800000000000; 0xbf9f829b0e780000; 0xbd2980267c7e09e4;
  0x3ff0600000000000; 0xbf97b91b07d58000; 0xbd288d5493faa639;
  0x3ff0400000000000; 0xbf8fc0a8b0fc0000; 0xbcdf1e7cf6d3a69c;
  0x3ff0400000000000; 0xbf8fc0a8b0fc0000; 0xbcdf1e7cf6d3a69c;
  0x3ff0200000000000; 0xbf7fe02a6b100000; 0xbd19e23f0dda40e4;
  0x3ff0200000000000; 0xbf7fe02a6b100000; 0xbd19e23f0dda40e4;
  0x3ff0000000000000; 0x0; 0x0;
  0x3ff0000000000000; 0x0; 0x0;
  0x3fefc00000000000; 0x3f80101575890000; 0xbd10c76b999d2be8;
  0x3fef800000000000; 0x3f90205658938000; 0xbd23dc5b06e2f7d2;
  0x3fef400000000000; 0x3f98492528c90000; 0xbd2aa0ba325a0c34;
  0x3fef000000000000; 0x3fa0415d89e74000; 0x3d0111c05cf1d753;
  0x3feec00000000000; 0x3fa466aed42e0000; 0xbd2c167375bdfd28;
  0x3fee800000000000; 0x3fa894aa149fc000; 0xbd197995d05a267d;
  0x3fee400000000000; 0x3faccb73cdddc000; 0xbd1a68f247d82807;
  0x3fee200000000000; 0x3faeea31c006c000; 0xbd0e113e4fc93b7b;
  0x3fede00000000000; 0x3fb1973bd1466000; 0xbd25325d560d9e9b;
  0x3feda00000000000; 0x3fb3bdf5a7d1e000; 0x3d2cc85ea5db4ed7;
  0x3fed600000000000; 0x3fb5e95a4d97a000; 0xbd2c69063c5d1d1e;
  0x3fed400000000000; 0x3fb700d30aeac000; 0x3cec1e8da99ded32;
  0x3fed000000000000; 0x3fb9335e5d594000; 0x3d23115c3abd47da;
  0x3fecc00000000000; 0x3fbb6ac88dad6000; 0xbd1390802bf768e5;
  0x3feca00000000000; 0x3fbc885801bc4000; 0x3d2646d1c65aacd3;
  0x3fec600000000000; 0x3fbec739830a2000; 0xbd2dc068afe645e0;
  0x3fec400000000000; 0x3fbfe89139dbe000; 0xbd2534d64fa10afd;
  0x3fec000000000000; 0x3fc1178e8227e000; 0x3d21ef78ce2d07f2;
  0x3febe00000000000; 0x3fc1aa2b7e23f000; 0x3d2ca78e44389934;
  0x3feba00000000000; 0x3fc2d1610c868000; 0x3d039d6ccb81b4a1;
  0x3feb800000000000; 0x3fc365fcb0159000; 0x3cc62fa8234b7289;
  0x3feb400000000000; 0x3fc4913d8333b000; 0x3d25837954fdb678;
  0x3feb200000000000; 0x3fc527e5e4a1b000; 0x3d2633e8e5697dc7;
  0x3feae00000000000; 0x3fc6574ebe8c1000; 0x3d19cf8b2c3c2e78;
  0x3feac00000000000; 0x3fc6f0128b757000; 0xbd25118de59c21e1;
  0x3feaa00000000000; 0x3fc7898d85445000; 0xbd1c661070914305;
  0x3fea600000000000; 0x3fc8beafeb390000; 0xbd073d54aae92cd1;
  0x3fea400000000000; 0x3fc95a5adcf70000; 0x3d07f22858a0ff6f;
  0x3fea000000000000; 0x3fca93ed3c8ae000; 0xbd28724350562169;
  0x3fe9e00000000000; 0x3fcb31d8575bd000; 0xbd0c358d4eace1aa;
  0x3fe9c00000000000; 0x3fcbd087383be000; 0xbd2d4bc4595412b6;
  0x3fe9a00000000000; 0x3fcc6ffbc6f01000; 0xbcf1ec72c5962bd2;
  0x3fe9600000000000; 0x3fcdb13db0d49000; 0xbd2aff2af715b035;
  0x3fe9400000000000; 0x3fce530effe71000; 0x3cc212276041f430;
  0x3fe9200000000000; 0x3fcef5ade4dd0000; 0xbcca211565bb8e11;
  0x3fe9000000000000; 0x3fcf991c6cb3b000; 0x3d1bcbecca0cdf30;
  0x3fe8c00000000000; 0x3fd07138604d5800; 0x3cf89cdb16ed4e91;
  0x3fe8a00000000000; 0x3fd0c42d67616000; 0x3d27188b163ceae9;
  0x3fe8800000000000; 0x3fd1178e8227e800; 0xbd2c210e63a5f01c;
  0x3fe8600000000000; 0x3fd16b5ccbacf800; 0x3d2b9acdf7a51681;
  0x3fe8400000000000; 0x3fd1bf99635a6800; 0x3d2ca6ed5147bdb7;
  0x3fe8200000000000; 0x3fd214456d0eb800; 0x3d0a87deba46baea;
  0x3fe7e00000000000; 0x3fd2bef07cdc9000; 0x3d2a9cfa4a5004f4;
  0x3fe7c00000000000; 0x3fd314f1e1d36000; 0xbd28e27ad3213cb8;
  0x3fe7a00000000000; 0x3fd36b6776be1000; 0x3d116ecdb0f177c8;
  0x3fe7800000000000; 0x3fd3c25277333000; 0x3d183b54b606bd5c;
  0x3fe7600000000000; 0x3fd419b423d5e800; 0x3d08e436ec90e09d;
  0x3fe7400000000000; 0x3fd4718dc271c800; 0xbd2f27ce0967d675;
  0x3fe7200000000000; 0x3fd4c9e09e173000; 0xbd2e20891b0ad8a4;
  0x3fe7000000000000; 0x3fd522ae0738a000; 0x3d2ebe708164c759;
  0x3fe6e00000000000; 0x3fd57bf753c8d000; 0x3d1fadedee5d40ef;
  0x3fe6c00000000000; 0x3fd5d5bddf596000; 0xbd0a0b2a08a465dc
].

Definition exp2f_tab : list Z := [
  0x3ff0000000000000; 0x3fefd9b0d3158574; 0x3fefb5586cf9890f; 0x3fef9301d0125b51;
  0x3fef72b83c7d517b; 0x3fef54873168b9aa; 0x3fef387a6e756238; 0x3fef1e9df51fdee1;
  0x3fef06fe0a31b715; 0x3feef1a7373aa9cb; 0x3feedea64c123422; 0x3feece086061892d;
  0x3feebfdad5362a27; 0x3feeb42b569d4f82; 0x3feeab07dd485429; 0x3feea47eb03a5585;
  0x3feea09e667f3bcd; 0x3fee9f75e8ec5f74; 0x3feea11473eb0187; 0x3feea589994cce13;
  0x3feeace5422aa0db; 0x3feeb737b0cdc5e5; 0x3feec49182a3f090; 0x3feed503b23e255d;
  0x3feee89f995ad3ad; 0x3feeff76f2fb5e47; 0x3fef199bdd85529c; 0x3fef3720dcef9069;
  0x3fef5818dcfba487; 0x3fef7c97337b9b5f; 0x3fefa4afa2a490da; 0x3fefd0765b6e4540
].

Definition exp2f_shift_scaled : Z := 0x42e8000000000000.

Definition exp2f_poly : list Z := [
  0x3fac6af84b912394; 0x3fcebfce50fac4f3; 0x3fe62e42ff0c52d6
].

Definition exp2f_shift : Z := 0x4338000000000000.

Definition exp2f_invln2_scaled : Z := 0x40471547652b82fe.

Definition exp2f_poly_scaled : list Z := [
  0x3ebc6af84b912394; 0x3f2ebfce50fac4f3; 0x3f962e42ff0c52d6
].

Definition logf_tab : list Z := [
  0x3ff661ec79f8f3be; 0xbfd57bf7808caade;
  0x3ff571ed4aaf883d; 0xbfd2bef0a7c06ddb;
  0x3ff49539f0f010b0; 0xbfd01eae7f513a67;
  0x3ff3c995b0b80385; 0xbfcb31d8a68224e9;
  0x3ff30d190c8864a5; 0xbfc6574f0ac07758;
  0x3ff25e227b0b8ea0; 0xbfc1aa2bc79c8100;
  0x3ff1bb4a4a1a343f; 0xbfba4e76ce8c0e5e;
  0x3ff12358f08ae5ba; 0xbfb1973c5a611ccc;
  0x3ff0953f419900a7; 0xbfa252f438e10c1e;
  0x3ff0000000000000; 0x0;
  0x3fee608cfd9a47ac; 0x3faaa5aa5df25984;
  0x3feca4b31f026aa0; 0x3fbc5e53aa362eb4;
  0x3feb2036576afce6; 0x3fc526e57720db08;
  0x3fe9c2d163a1aa2d; 0x3fcbc2860d224770;
  0x3fe886e6037841ed; 0x3fd1058bc8a07ee1;
  0x3fe767dcf5534862; 0x3fd4043057b6ee09
].

Definition logf_ln2 : Z := 0x3fe62e42fefa39ef.

Definition logf_poly : list Z := [
  0xbfd00ea348b88334; 0x3fd5575b0be00b6a; 0xbfdffffef20a4123
].

Definition log2f_tab : list Z := [
  0x3ff661ec79f8f3be; 0xbfdefec65b963019;
  0x3ff571ed4aaf883d; 0xbfdb0b6832d4fca4;
  0x3ff49539f0f010b0; 0xbfd7418b0a1fb77b;
  0x3ff3c995b0b80385; 0xbfd39de91a6dcf7b;
  0x3ff30d190c8864a5; 0xbfd01d9bf3f2b631;
  0x3ff25e227b0b8ea0; 0xbfc97c1d1b3b7af0;
  0x3ff1bb4a4a1a343f; 0xbfc2f9e393af3c9f;
  0x3ff12358f08ae5ba; 0xbfb960cbbf788d5c;
  0x3ff0953f419900a7; 0xbfaa6f9db6475fce;
  0x3ff0000000000000; 0x0;
  0x3fee608cfd9a47ac; 0x3fb338ca9f24f53d;
  0x3feca4b31f026aa0; 0x3fc476a9543891ba;
  0x3feb2036576afce6; 0x3fce840b4ac4e4d2;
  0x3fe9c2d163a1aa2d; 0x3fd40645f0c6651c;
  0x3fe886e6037841ed; 0x3fd88e9c2c1b9ff8;
  0x3fe767dcf5534862; 0x3fdce0a44eb17bcc
].

Definition log2f_poly : list Z := [
  0xbfd712b6f70a7e4d; 0x3fdecabf496832e0; 0xbfe715479ffae3de; 0x3ff715475f35c8b8
].

(** The scale [POWF_SCALE] is 1. *)
Definition powf_log2_tab : list Z := [
  0x3ff661ec79f8f3be; 0xbfdefec65b963019;
  0x3ff571ed4aaf883d; 0xbfdb0b6832d4fca4;
  0x3ff49539f0f010b0; 0xbfd7418b0a1fb77b;
  0x3ff3c995b0b80385; 0xbfd39de91a6dcf7b;
  0x3ff30d190c8864a5; 0xbfd01d9bf3f2b631;
  0x3ff25e227b0b8ea0; 0xbfc97c1d1b3b7af0;
  0x3ff1bb4a4a1a343f; 0xbfc2f9e393af3c9f;
  0x3ff12358f08ae5ba; 0xbfb960cbbf788d5c;
  0x3ff0953f419900a7; 0xbfaa6f9db6475fce;
  0x3ff0000000000000; 0x0;
  0x3fee608cfd9a47ac; 0x3fb338ca9f24f53d;
  0x3feca4b31f026aa0; 0x3fc476a9543891ba;
  0x3feb2036576afce6; 0x3fce840b4ac4e4d2;
  0x3fe9c2d163a1aa2d; 0x3fd40645f0c6651c;
  0x3fe886e6037841ed; 0x3fd88e9c2c1b9ff8;
  0x3fe767dcf5534862; 0x3fdce0a44eb17bcc
].

Definition powf_log2_poly : list Z := [
  0x3fd27616c9496e0b; 0xbfd71969a075c67a; 0x3fdec70a6ca7badd; 0xbfe7154748bef6c8;
  0x3ff71547652ab82b
].

(** The reciprocal square root estimates. *)
Definition __rsqrt_tab : list Z := [
  0xb451; 0xb2f0; 0xb196; 0xb044; 0xaef9; 0xadb6; 0xac79; 0xab43;
  0xaa14; 0xa8eb; 0xa7c8; 0xa6aa; 0xa592; 0xa480; 0xa373; 0xa26b;
  0xa168; 0xa06a; 0x9f70; 0x9e7b; 0x9d8a; 0x9c9d; 0x9bb5; 0x9ad1;
  0x99f0; 0x9913; 0x983a; 0x9765; 0x9693; 0x95c4; 0x94f8; 0x9430;
  0x936b; 0x92a9; 0x91ea; 0x912e; 0x9075; 0x8fbe; 0x8f0a; 0x8e59;
  0x8daa; 0x8cfe; 0x8c54; 0x8bac; 0x8b07; 0x8a64; 0x89c4; 0x8925;
  0x8889; 0x87ee; 0x8756; 0x86c0; 0x862b; 0x8599; 0x8508; 0x8479;
  0x83ec; 0x8361; 0x82d8; 0x8250; 0x81c9; 0x8145; 0x80c2; 0x8040;
  0xff02; 0xfd0e; 0xfb25; 0xf947; 0xf773; 0xf5aa; 0xf3ea; 0xf234;
  0xf087; 0xeee3; 0xed47; 0xebb3; 0xea27; 0xe8a3; 0xe727; 0xe5b2;
  0xe443; 0xe2dc; 0xe17a; 0xe020; 0xdecb; 0xdd7d; 0xdc34; 0xdaf1;
  0xd9b3; 0xd87b; 0xd748; 0xd61a; 0xd4f1; 0xd3cd; 0xd2ad; 0xd192;
  0xd07b; 0xcf69; 0xce5b; 0xcd51; 0xcc4a; 0xcb48; 0xca4a; 0xc94f;
  0xc858; 0xc764; 0xc674; 0xc587; 0xc49d; 0xc3b7; 0xc2d4; 0xc1f4;
  0xc116; 0xc03c; 0xbf65; 0xbe90; 0xbdbe; 0xbcef; 0xbc23; 0xbb59;
  0xba91; 0xb9cc; 0xb90a; 0xb84a; 0xb78c; 0xb6d0; 0xb617; 0xb560
].
