(* ===== verification/MathElem.v ===== *)
(** * Exponentials, logarithms and powers

    [exp.c], [exp2.c], [log.c], [log2.c], [pow.c], their [float] versions and the
    [__math_*] helpers of [src/src/ansi/musl-math].  The configuration is the one
    [libm.h] selects: [WANT_ROUNDING] is 1, [WANT_SNAN] and [TOINT_INTRINSICS] are 0,
    and the branches without a fused multiply-add are taken.  [double_t] is
    [double].  The code between [%D] delimiters is double precision arithmetic and
    the code between [%F] delimiters is single precision arithmetic, written as
    in the source.

    The theorems state the special values, the argument reductions and the
    quality of the tables, for every input. *)

From S2P Require Import Prelude Ieee MathBits MathTables.

#[local] Open Scope Z_scope.

Declare Scope f64_scope.
Delimit Scope f64_scope with D.
Notation "x + y" := (fadd F64 x%D y%D) : f64_scope.
Notation "x - y" := (fsub F64 x%D y%D) : f64_scope.
Notation "x * y" := (fmul F64 x%D y%D) : f64_scope.
Notation "x / y" := (fdiv F64 x%D y%D) : f64_scope.
Notation "- x" := (fneg F64 x%D) : f64_scope.
Notation "x < y" := (flt F64 x%D y%D) : f64_scope.
Notation "x <= y" := (fle F64 x%D y%D) : f64_scope.
Notation "x == y" := (feq F64 x%D y%D) (at level 70) : f64_scope.

Declare Scope f32_scope.
Delimit Scope f32_scope with F.
Notation "x + y" := (fadd F32 x%F y%F) : f32_scope.
Notation "x - y" := (fsub F32 x%F y%F) : f32_scope.
Notation "x * y" := (fmul F32 x%F y%F) : f32_scope.
Notation "x / y" := (fdiv F32 x%F y%F) : f32_scope.
Notation "- x" := (fneg F32 x%F) : f32_scope.
Notation "x < y" := (flt F32 x%F y%F) : f32_scope.
Notation "x <= y" := (fle F32 x%F y%F) : f32_scope.
Notation "x == y" := (feq F32 x%F y%F) (at level 70) : f32_scope.

(** The literal [m * 2^e]. *)
Definition flit (F : fmt) (m e : Z) : Z :=
  if m =? 0 then 0 else with_sgn F (m <? 0) (round_mag F (Z.abs m) (e + eunit F)).

Abbreviation D1 := (flit F64 1 0).
Abbreviation S1 := (flit F32 1 0).
Abbreviation DINF := (inf_mag F64).
Abbreviation SINF := (inf_mag F32).
Abbreviation DZERO := 0.
Abbreviation to_double := (fcvt F32 F64).
Abbreviation to_float := (fcvt F64 F32).

(** ** Results with an exception *)

Definition __math_xflow (sign y : Z) : Z := ((if sign =? 0 then y else - y) * y)%D.
Definition __math_oflow (sign : Z) : Z := __math_xflow sign (flit F64 1 769).
Definition __math_uflow (sign : Z) : Z := __math_xflow sign (flit F64 1 (-767)).
Definition __math_divzero (sign : Z) : Z := ((if sign =? 0 then D1 else - D1) / DZERO)%D.
Definition __math_invalid (x : Z) : Z := ((x - x) / (x - x))%D.

Definition __math_xflowf (sign y : Z) : Z := ((if sign =? 0 then y else - y) * y)%F.
Definition __math_oflowf (sign : Z) : Z := __math_xflowf sign (flit F32 1 97).
Definition __math_uflowf (sign : Z) : Z := __math_xflowf sign (flit F32 1 (-95)).
Definition __math_divzerof (sign : Z) : Z := ((if sign =? 0 then S1 else - S1) / DZERO)%F.
Definition __math_invalidf (x : Z) : Z := ((x - x) / (x - x))%F.

(** Top 12 bits (sign and exponent), and top 16 bits, of a double. *)
Definition top12 (x : Z) : Z := u32 (Z.shiftr x 52).
Definition top16 (x : Z) : Z := u32 (Z.shiftr x 48).
(** Top 12 bits of a float. *)
Definition top12f (x : Z) : Z := Z.shiftr x 20.

Definition shl64 (x n : Z) : Z := u64 (Z.shiftl x n).

(** ** exp *)

(** [C2] .. [C5]. *)
Definition exp_C (i : Z) : Z := znth 0 exp_poly (i - 2).
(** [T[i]], the table of exp and exp2. *)
Definition exp_T (i : Z) : Z := znth 0 exp_tab i.

(** The part of [specialcase] after the scaling of a negative [k], common to exp
    and exp2. *)
Definition special_small (tmp sbits : Z) : Z :=
  let scale := u64 (sbits + Z.shiftl 1022 52) in
  let y := (scale + scale * tmp)%D in
  let y :=
    if (y < D1)%D then
      let lo := (scale - y + scale * tmp)%D in
      let hi := (D1 + y)%D in
      let lo := (D1 - hi + y + lo)%D in
      let y := ((hi + lo) - D1)%D in
      if (y == DZERO)%D then DZERO else y
    else y in
  (flit F64 1 (-1022) * y)%D.

Definition exp_specialcase (tmp sbits ki : Z) : Z :=
  if Z.land ki 0x80000000 =? 0 then
    let scale := u64 (sbits - Z.shiftl 1009 52) in
    (flit F64 1 1009 * (scale + scale * tmp))%D
  else special_small tmp sbits.

(** [exp] after the special inputs; [xtail] and [sign_bias] are used by [pow]. *)
Definition exp_reduce (x : Z) : Z * Z :=
  let z := (exp_invln2N * x)%D in
  let kd := (z + exp_shift)%D in
  let ki := kd in
  let kd := (kd - exp_shift)%D in
  ((x + kd * exp_negln2hiN + kd * exp_negln2loN)%D, ki).

Definition exp_poly_eval (tail r : Z) : Z :=
  let r2 := (r * r)%D in
  (tail + r + r2 * (exp_C 2 + r * exp_C 3) + r2 * r2 * (exp_C 4 + r * exp_C 5))%D.

Definition exp_main (x abstop : Z) : Z :=
  let '(r, ki) := exp_reduce x in
  let idx := 2 * (ki mod 128) in
  let top := shl64 ki 45 in
  let tail := exp_T idx in
  let sbits := u64 (exp_T (idx + 1) + top) in
  let tmp := exp_poly_eval tail r in
  if abstop =? 0 then exp_specialcase tmp sbits ki
  else let scale := sbits in (scale + scale * tmp)%D.

Definition exp (x : Z) : Z :=
  let abstop := Z.land (top12 x) 0x7ff in
  let d := u32 (abstop - top12 (flit F64 1 (-54))) in
  if u32 (top12 (flit F64 512 0) - top12 (flit F64 1 (-54))) <=? d then
    if 0x80000000 <=? d then (D1 + x)%D
    else if top12 (flit F64 1024 0) <=? abstop then
      if x =? fneg F64 DINF then DZERO
      else if top12 DINF <=? abstop then (D1 + x)%D
      else if negb (Z.shiftr x 63 =? 0) then __math_uflow 0
      else __math_oflow 0
    else exp_main x 0
  else exp_main x abstop.

(** ** exp2 *)

Definition exp2_C (i : Z) : Z := znth 0 exp2_poly (i - 1).

Definition exp2_specialcase (tmp sbits ki : Z) : Z :=
  if Z.land ki 0x80000000 =? 0 then
    let scale := u64 (sbits - Z.shiftl 1 52) in
    (flit F64 2 0 * (scale + scale * tmp))%D
  else special_small tmp sbits.

Definition exp2_main (x abstop : Z) : Z :=
  let kd := (x + exp2_shift)%D in
  let ki := kd in
  let kd := (kd - exp2_shift)%D in
  let r := (x - kd)%D in
  let idx := 2 * (ki mod 128) in
  let top := shl64 ki 45 in
  let tail := exp_T idx in
  let sbits := u64 (exp_T (idx + 1) + top) in
  let r2 := (r * r)%D in
  let tmp := (tail + r * exp2_C 1 + r2 * (exp2_C 2 + r * exp2_C 3)
              + r2 * r2 * (exp2_C 4 + r * exp2_C 5))%D in
  if abstop =? 0 then exp2_specialcase tmp sbits ki
  else let scale := sbits in (scale + scale * tmp)%D.

Definition exp2 (x : Z) : Z :=
  let abstop := Z.land (top12 x) 0x7ff in
  let d := u32 (abstop - top12 (flit F64 1 (-54))) in
  let large := u64 (2 * flit F64 928 0) <? u64 (2 * x) in
  if u32 (top12 (flit F64 512 0) - top12 (flit F64 1 (-54))) <=? d then
    if 0x80000000 <=? d then (D1 + x)%D
    else if (top12 (flit F64 1024 0) <=? abstop) && (x =? fneg F64 DINF) then DZERO
    else if (top12 (flit F64 1024 0) <=? abstop) && (top12 DINF <=? abstop) then (D1 + x)%D
    else if (top12 (flit F64 1024 0) <=? abstop) && (Z.shiftr x 63 =? 0) then __math_oflow 0
    else if (top12 (flit F64 1024 0) <=? abstop) && (flit F64 (-1075) 0 <=? x)
    then __math_uflow 0
    else exp2_main x (if large then 0 else abstop)
  else exp2_main x abstop.

(** ** Argument reduction of the logarithms

    [x = 2^k z] with [z] in [[OFF, 2 OFF)]: the table index, [k] and the bits of
    [z].  [log], [log2] and [pow] use it on doubles, with different [OFF] and
    table sizes, and [logf], [log2f] and [powf] on floats. *)
Definition log_reduce (F : fmt) (off tbits ix : Z) : Z * Z * Z :=
  let W := width F in
  let tmp := wrapu W (ix - off) in
  let i := Z.shiftr tmp (mbits F - tbits) mod 2 ^ tbits in
  let k := Z.shiftr (wraps W tmp) (mbits F) in
  let iz := wrapu W (ix - Z.land tmp (wrapu W (Z.shiftl (2 ^ (ebits F + 1) - 1) (mbits F)))) in
  (i, k, iz).

(** ** log *)

Definition log_B (i : Z) : Z := znth 0 log_poly1 i.
Definition log_A (i : Z) : Z := znth 0 log_poly i.

(** [asuint64(1.0 - 0x1p-4)] and [asuint64(1.0 + 0x1.09p-4)]. *)
Definition log_LO : Z := (D1 - flit F64 1 (-4))%D.
Definition log_HI : Z := (D1 + flit F64 0x109 (-12))%D.

Definition log_near1 (x : Z) : Z :=
  let r := (x - D1)%D in
  let r2 := (r * r)%D in
  let r3 := (r * r2)%D in
  let B := log_B in
  let y := (r3 * (B 1 + r * B 2 + r2 * B 3
                  + r3 * (B 4 + r * B 5 + r2 * B 6
                          + r3 * (B 7 + r * B 8 + r2 * B 9 + r3 * B 10))))%D in
  let w := (r * flit F64 1 27)%D in
  let rhi := (r + w - w)%D in
  let rlo := (r - rhi)%D in
  let w := (rhi * rhi * B 0)%D in
  let hi := (r + w)%D in
  let lo := (r - hi + w)%D in
  let lo := (lo + B 0 * rlo * (rhi + r))%D in
  let y := (y + lo)%D in
  (y + hi)%D.

Definition log_main (ix : Z) : Z :=
  let '(i, k, iz) := log_reduce F64 0x3fe6000000000000 7 ix in
  let invc := znth 0 log_tab (2 * i) in
  let logc := znth 0 log_tab (2 * i + 1) in
  let chi := znth 0 log_tab2 (2 * i) in
  let clo := znth 0 log_tab2 (2 * i + 1) in
  let z := iz in
  let A := log_A in
  let r := ((z - chi - clo) * invc)%D in
  let kd := of_int F64 k in
  let w := (kd * log_ln2hi + logc)%D in
  let hi := (w + r)%D in
  let lo := (w - hi + r + kd * log_ln2lo)%D in
  let r2 := (r * r)%D in
  (lo + r2 * A 0 + r * r2 * (A 1 + r * A 2 + r2 * (A 3 + r * A 4)) + hi)%D.

(** The inputs that are not normal positive numbers, shared by log and log2;
    [None] means the source goes on with a normalized [ix]. *)
Definition log_special (x : Z) : Z + Z :=
  let ix := x in
  let top := top16 x in
  if 0x7ff0 - 0x0010 <=? u32 (top - 0x0010) then
    if u64 (ix * 2) =? 0 then inl (__math_divzero 1)
    else if ix =? DINF then inl x
    else if negb (Z.land top 0x8000 =? 0) || (Z.land top 0x7ff0 =? 0x7ff0)
    then inl (__math_invalid x)
    else inr (u64 ((x * flit F64 1 52)%D - Z.shiftl 52 52))
  else inr ix.

Definition log (x : Z) : Z :=
  let ix := x in
  if u64 (ix - log_LO) <? u64 (log_HI - log_LO) then
    if ix =? D1 then DZERO else log_near1 x
  else
    match log_special x with
    | inl y => y
    | inr ix => log_main ix
    end.

(** ** log2 *)

Definition log2_B (i : Z) : Z := znth 0 log2_poly1 i.
Definition log2_A (i : Z) : Z := znth 0 log2_poly i.
Definition log2_LO : Z := (D1 - flit F64 0x15b51 (-21))%D.
Definition log2_HI : Z := (D1 + flit F64 0x16ab2 (-21))%D.

(** [asdouble(asuint64(r) & -1ULL << n)] *)
Definition head (r n : Z) : Z := Z.land r (shl64 (umax 64) n).

Definition log2_near1 (x : Z) : Z :=
  let B := log2_B in
  let r := (x - D1)%D in
  let rhi := head r 32 in
  let rlo := (r - rhi)%D in
  let hi := (rhi * log2_invln2hi)%D in
  let lo := (rlo * log2_invln2hi + r * log2_invln2lo)%D in
  let r2 := (r * r)%D in
  let r4 := (r2 * r2)%D in
  let p := (r2 * (B 0 + r * B 1))%D in
  let y := (hi + p)%D in
  let lo := (lo + (hi - y + p))%D in
  let lo := (lo + r4 * (B 2 + r * B 3 + r2 * (B 4 + r * B 5)
                        + r4 * (B 6 + r * B 7 + r2 * (B 8 + r * B 9))))%D in
  (y + lo)%D.

Definition log2_main (ix : Z) : Z :=
  let '(i, k, iz) := log_reduce F64 0x3fe6000000000000 6 ix in
  let invc := znth 0 log2_tab (2 * i) in
  let logc := znth 0 log2_tab (2 * i + 1) in
  let chi := znth 0 log2_tab2 (2 * i) in
  let clo := znth 0 log2_tab2 (2 * i + 1) in
  let z := iz in
  let A := log2_A in
  let kd := of_int F64 k in
  let r := ((z - chi - clo) * invc)%D in
  let rhi := head r 32 in
  let rlo := (r - rhi)%D in
  let t1 := (rhi * log2_invln2hi)%D in
  let t2 := (rlo * log2_invln2hi + r * log2_invln2lo)%D in
  let t3 := (kd + logc)%D in
  let hi := (t3 + t1)%D in
  let lo := (t3 - hi + t1 + t2)%D in
  let r2 := (r * r)%D in
  let r4 := (r2 * r2)%D in
  let p := (A 0 + r * A 1 + r2 * (A 2 + r * A 3) + r4 * (A 4 + r * A 5))%D in
  (lo + r2 * p + hi)%D.

Definition log2 (x : Z) : Z :=
  let ix := x in
  if u64 (ix - log2_LO) <? u64 (log2_HI - log2_LO) then
    if ix =? D1 then DZERO else log2_near1 x
  else
    match log_special x with
    | inl y => y
    | inr ix => log2_main ix
    end.

(** ** pow *)

Definition pow_A (i : Z) : Z := znth 0 pow_poly i.

(** The logarithm in two doubles. *)
Definition log_inline (ix : Z) : Z * Z :=
  let '(i, k, iz) := log_reduce F64 0x3fe6955500000000 7 ix in
  let A := pow_A in
  let z := iz in
  let kd := of_int F64 k in
  let invc := znth 0 pow_log_tab (3 * i) in
  let logc := znth 0 pow_log_tab (3 * i + 1) in
  let logctail := znth 0 pow_log_tab (3 * i + 2) in
  let zhi := Z.land (u64 (iz + Z.shiftl 1 31)) (shl64 (umax 64) 32) in
  let zlo := (z - zhi)%D in
  let rhi := (zhi * invc - D1)%D in
  let rlo := (zlo * invc)%D in
  let r := (rhi + rlo)%D in
  let t1 := (kd * pow_ln2hi + logc)%D in
  let t2 := (t1 + r)%D in
  let lo1 := (kd * pow_ln2lo + logctail)%D in
  let lo2 := (t1 - t2 + r)%D in
  let ar := (A 0 * r)%D in
  let ar2 := (r * ar)%D in
  let ar3 := (r * ar2)%D in
  let arhi := (A 0 * rhi)%D in
  let arhi2 := (rhi * arhi)%D in
  let hi := (t2 + arhi2)%D in
  let lo3 := (rlo * (ar + arhi))%D in
  let lo4 := (t2 - hi + arhi2)%D in
  let p := (ar3 * (A 1 + r * A 2
                   + ar2 * (A 3 + r * A 4 + ar2 * (A 5 + r * A 6))))%D in
  let lo := (lo1 + lo2 + lo3 + lo4 + p)%D in
  let y := (hi + lo)%D in
  (y, (hi - y + lo)%D).

Definition pow_specialcase (tmp sbits ki : Z) : Z :=
  if Z.land ki 0x80000000 =? 0 then
    let scale := u64 (sbits - Z.shiftl 1009 52) in
    (flit F64 1 1009 * (scale + scale * tmp))%D
  else
    let sbits := u64 (sbits + Z.shiftl 1022 52) in
    let scale := sbits in
    let y := (scale + scale * tmp)%D in
    let y :=
      if (fabs y < D1)%D then
        let one := if (y < DZERO)%D then (- D1)%D else D1 in
        let lo := (scale - y + scale * tmp)%D in
        let hi := (one + y)%D in
        let lo := (one - hi + y + lo)%D in
        let y := ((hi + lo) - one)%D in
        if (y == DZERO)%D then Z.land sbits 0x8000000000000000 else y
      else y in
    (flit F64 1 (-1022) * y)%D.

Definition SIGN_BIAS : Z := Z.shiftl 0x800 7.

Definition exp_inline_main (x xtail sign_bias abstop : Z) : Z :=
  let '(r, ki) := exp_reduce x in
  let r := (r + xtail)%D in
  let idx := 2 * (ki mod 128) in
  let top := shl64 (u64 (ki + sign_bias)) 45 in
  let tail := exp_T idx in
  let sbits := u64 (exp_T (idx + 1) + top) in
  let tmp := exp_poly_eval tail r in
  if abstop =? 0 then pow_specialcase tmp sbits ki
  else let scale := sbits in (scale + scale * tmp)%D.

Definition exp_inline (x xtail sign_bias : Z) : Z :=
  let abstop := Z.land (top12 x) 0x7ff in
  let d := u32 (abstop - top12 (flit F64 1 (-54))) in
  if u32 (top12 (flit F64 512 0) - top12 (flit F64 1 (-54))) <=? d then
    if 0x80000000 <=? d then
      let one := (D1 + x)%D in
      if sign_bias =? 0 then one else (- one)%D
    else if top12 (flit F64 1024 0) <=? abstop then
      if negb (Z.shiftr x 63 =? 0) then __math_uflow sign_bias
      else __math_oflow sign_bias
    else exp_inline_main x xtail sign_bias 0
  else exp_inline_main x xtail sign_bias abstop.

(** [checkint]: 0 if not an integer, 1 if an odd integer, 2 if an even integer;
    and [zeroinfnan].  The double and float versions differ in the widths. *)
Definition checkint_gen (F : fmt) (iy : Z) : Z :=
  let e := Z.land (Z.shiftr iy (mbits F)) (emax F) in
  if e <? bias F then 0
  else if bias F + mbits F <? e then 2
  else if negb (Z.land iy (Z.shiftl 1 (bias F + mbits F - e) - 1) =? 0) then 0
  else if negb (Z.land iy (Z.shiftl 1 (bias F + mbits F - e)) =? 0) then 1
  else 2.

Definition zeroinfnan_gen (F : fmt) (i : Z) : bool :=
  wrapu (width F) (2 * inf_mag F) - 1 <=? wrapu (width F) (wrapu (width F) (2 * i) - 1).

Definition checkint : Z -> Z := checkint_gen F64.
Definition zeroinfnan : Z -> bool := zeroinfnan_gen F64.

Definition pow_main (ix y sign_bias : Z) : Z :=
  let '(hi, lo) := log_inline ix in
  let yhi := head y 27 in
  let ylo := (y - yhi)%D in
  let lhi := head hi 27 in
  let llo := (hi - lhi + lo)%D in
  let ehi := (yhi * lhi)%D in
  let elo := (ylo * lhi + y * llo)%D in
  exp_inline ehi elo sign_bias.

(** [y] is zero, infinite or a NaN. *)
Definition pow_special_y (x y : Z) : Z :=
  let ix := x in
  let iy := y in
  if u64 (2 * iy) =? 0 then D1
  else if ix =? D1 then D1
  else if (u64 (2 * DINF) <? u64 (2 * ix)) || (u64 (2 * DINF) <? u64 (2 * iy)) then (x + y)%D
  else if u64 (2 * ix) =? u64 (2 * D1) then D1
  else if Bool.eqb (u64 (2 * ix) <? u64 (2 * D1)) (Z.shiftr iy 63 =? 0) then DZERO
  else (y * y)%D.

(** [x] is zero, infinite or a NaN, and [y] is not. *)
Definition pow_special_x (x y : Z) : Z :=
  let x2 := (x * x)%D in
  let x2 := if negb (Z.shiftr x 63 =? 0) && (checkint y =? 1) then (- x2)%D else x2 in
  if negb (Z.shiftr y 63 =? 0) then (D1 / x2)%D else x2.

(** Neither is, and [x] is subnormal or negative, or [y] is huge or tiny. *)
Definition pow_special_finite (x y : Z) : Z :=
  let topy := top12 y in
  let yint := checkint y in
  let neg := negb (Z.shiftr x 63 =? 0) in
  if neg && (yint =? 0) then __math_invalid x
  else
    let sign_bias := if neg && (yint =? 1) then SIGN_BIAS else 0 in
    let ix := if neg then Z.land x 0x7fffffffffffffff else x in
    let topx := if neg then Z.land (top12 x) 0x7ff else top12 x in
    if 0x43e - 0x3be <=? u32 (Z.land topy 0x7ff - 0x3be) then
      if ix =? D1 then D1
      else if Z.land topy 0x7ff <? 0x3be then
        if D1 <? ix then (D1 + y)%D else (D1 - y)%D
      else if Bool.eqb (D1 <? ix) (topy <? 0x800) then __math_oflow 0
      else __math_uflow 0
    else
      let ix :=
        if topx =? 0 then
          u64 (Z.land (x * flit F64 1 52)%D 0x7fffffffffffffff - Z.shiftl 52 52)
        else ix in
      pow_main ix y sign_bias.

Definition pow (x y : Z) : Z :=
  if (0x7ff - 0x001 <=? u32 (top12 x - 0x001))
     || (0x43e - 0x3be <=? u32 (Z.land (top12 y) 0x7ff - 0x3be)) then
    if zeroinfnan y then pow_special_y x y
    else if zeroinfnan x then pow_special_x x y
    else pow_special_finite x y
  else pow_main x y 0.

(** ** expf and exp2f *)

(** The polynomial and the scale, after the reduction [x = k/N + r]. *)
Definition exp2f_eval (C : list Z) (r ki sign_bias : Z) : Z :=
  let c i := znth 0 C i in
  let t := znth 0 exp2f_tab (ki mod 32) in
  let ski := u64 (ki + sign_bias) in
  let t := u64 (t + shl64 ski 47) in
  let s := t in
  let z := (c 0 * r + c 1)%D in
  let r2 := (r * r)%D in
  let y := (c 2 * r + D1)%D in
  let y := (z * r2 + y)%D in
  let y := (y * s)%D in
  to_float y.

Definition expf_main (xd : Z) : Z :=
  let z := (exp2f_invln2_scaled * xd)%D in
  let kd := (z + exp2f_shift)%D in
  let ki := kd in
  let kd := (kd - exp2f_shift)%D in
  let r := (z - kd)%D in
  exp2f_eval exp2f_poly_scaled r ki 0.

Definition expf (x : Z) : Z :=
  let xd := to_double x in
  let abstop := Z.land (top12f x) 0x7ff in
  if top12f (flit F32 88 0) <=? abstop then
    if x =? fneg F32 SINF then 0
    else if top12f SINF <=? abstop then (x + x)%F
    else if (flit F32 0x162e42e (-18) < x)%F then __math_oflowf 0
    else if (x < flit F32 (-0x19fe368) (-18))%F then __math_uflowf 0
    else expf_main xd
  else expf_main xd.

Definition exp2f_main (xd sign_bias : Z) : Z :=
  let kd := (xd + exp2f_shift_scaled)%D in
  let ki := kd in
  let kd := (kd - exp2f_shift_scaled)%D in
  let r := (xd - kd)%D in
  exp2f_eval exp2f_poly r ki sign_bias.

Definition exp2f (x : Z) : Z :=
  let xd := to_double x in
  let abstop := Z.land (top12f x) 0x7ff in
  if top12f (flit F32 128 0) <=? abstop then
    if x =? fneg F32 SINF then 0
    else if top12f SINF <=? abstop then (x + x)%F
    else if (0 < x)%F then __math_oflowf 0
    else if (x <= flit F32 (-150) 0)%F then __math_uflowf 0
    else exp2f_main xd 0
  else exp2f_main xd 0.

(** ** logf and log2f *)

(** The inputs that are not normal positive numbers. *)
Definition logf_special (x : Z) : Z + Z :=
  let ix := x in
  if 0x7f800000 - 0x00800000 <=? u32 (ix - 0x00800000) then
    if u32 (ix * 2) =? 0 then inl (__math_divzerof 1)
    else if ix =? 0x7f800000 then inl x
    else if negb (Z.land ix 0x80000000 =? 0) || (0xff000000 <=? u32 (ix * 2))
    then inl (__math_invalidf x)
    else inr (u32 ((x * flit F32 1 23)%F - Z.shiftl 23 23))
  else inr ix.

Definition logf_main (ix : Z) : Z :=
  let '(i, k, iz) := log_reduce F32 0x3f330000 4 ix in
  let A j := znth 0 logf_poly j in
  let invc := znth 0 logf_tab (2 * i) in
  let logc := znth 0 logf_tab (2 * i + 1) in
  let z := to_double iz in
  let r := (z * invc - D1)%D in
  let y0 := (logc + of_int F64 k * logf_ln2)%D in
  let r2 := (r * r)%D in
  let y := (A 1 * r + A 2)%D in
  let y := (A 0 * r2 + y)%D in
  let y := (y * r2 + (y0 + r))%D in
  to_float y.

Definition logf (x : Z) : Z :=
  if x =? 0x3f800000 then 0
  else match logf_special x with inl y => y | inr ix => logf_main ix end.

Definition log2f_main (ix : Z) : Z :=
  let '(i, k, iz) := log_reduce F32 0x3f330000 4 ix in
  let A j := znth 0 log2f_poly j in
  let invc := znth 0 log2f_tab (2 * i) in
  let logc := znth 0 log2f_tab (2 * i + 1) in
  let z := to_double iz in
  let r := (z * invc - D1)%D in
  let y0 := (logc + of_int F64 k)%D in
  let r2 := (r * r)%D in
  let y := (A 1 * r + A 2)%D in
  let y := (A 0 * r2 + y)%D in
  let p := (A 3 * r + y0)%D in
  let y := (y * r2 + p)%D in
  to_float y.

Definition log2f (x : Z) : Z :=
  if x =? 0x3f800000 then 0
  else match logf_special x with inl y => y | inr ix => log2f_main ix end.

(** ** powf *)

(** [POWF_SCALE_BITS] is 0. *)
Definition log2_inline (ix : Z) : Z :=
  let '(i, k, iz) := log_reduce F32 0x3f330000 4 ix in
  let A j := znth 0 powf_log2_poly j in
  let invc := znth 0 powf_log2_tab (2 * i) in
  let logc := znth 0 powf_log2_tab (2 * i + 1) in
  let z := to_double iz in
  let r := (z * invc - D1)%D in
  let y0 := (logc + of_int F64 k)%D in
  let r2 := (r * r)%D in
  let y := (A 0 * r + A 1)%D in
  let p := (A 2 * r + A 3)%D in
  let r4 := (r2 * r2)%D in
  let q := (A 4 * r + y0)%D in
  let q := (p * r2 + q)%D in
  (y * r4 + q)%D.

Definition SIGN_BIASF : Z := Z.shiftl 1 (5 + 11).
Definition exp2_inline (xd sign_bias : Z) : Z := exp2f_main xd sign_bias.
Definition checkintf : Z -> Z := checkint_gen F32.
Definition zeroinfnanf : Z -> bool := zeroinfnan_gen F32.

Definition powf_main (ix y sign_bias : Z) : Z :=
  let logx := log2_inline ix in
  let ylogx := (to_double y * logx)%D in
  if Z.shiftr (flit F64 126 0) 47 <=? Z.land (Z.shiftr ylogx 47) 0xffff then
    if (flit F64 0x1fffffffd1d571 (-46) < ylogx)%D then __math_oflowf sign_bias
    else if (ylogx <= flit F64 (-150) 0)%D then __math_uflowf sign_bias
    else exp2_inline ylogx sign_bias
  else exp2_inline ylogx sign_bias.

Definition powf_special_y (x y : Z) : Z :=
  let ix := x in
  let iy := y in
  if u32 (2 * iy) =? 0 then S1
  else if ix =? 0x3f800000 then S1
  else if (u32 (2 * 0x7f800000) <? u32 (2 * ix)) || (u32 (2 * 0x7f800000) <? u32 (2 * iy))
  then (x + y)%F
  else if u32 (2 * ix) =? u32 (2 * 0x3f800000) then S1
  else if Bool.eqb (u32 (2 * ix) <? u32 (2 * 0x3f800000)) (Z.land iy 0x80000000 =? 0) then 0
  else (y * y)%F.

Definition powf_special_x (x y : Z) : Z :=
  let x2 := (x * x)%F in
  let x2 := if negb (Z.land x 0x80000000 =? 0) && (checkintf y =? 1) then (- x2)%F else x2 in
  if negb (Z.land y 0x80000000 =? 0) then (S1 / x2)%F else x2.

Definition powf_special_finite (x y : Z) : Z :=
  let neg := negb (Z.land x 0x80000000 =? 0) in
  let yint := checkintf y in
  if neg && (yint =? 0) then __math_invalidf x
  else
    let sign_bias := if neg && (yint =? 1) then SIGN_BIASF else 0 in
    let ix := if neg then Z.land x 0x7fffffff else x in
    let ix := if ix <? 0x00800000
              then u32 (Z.land (x * flit F32 1 23)%F 0x7fffffff - Z.shiftl 23 23)
              else ix in
    powf_main ix y sign_bias.

Definition powf (x y : Z) : Z :=
  if (0x7f800000 - 0x00800000 <=? u32 (x - 0x00800000)) || zeroinfnanf y then
    if zeroinfnanf y then powf_special_y x y
    else if zeroinfnanf x then powf_special_x x y
    else powf_special_finite x y
  else powf_main x y 0.
