(* ===== verification/MathElemFacts.v ===== *)
(** * What the exponentials, logarithms and powers do

    Theorems about [MathElem]: the argument reduction of the logarithms is exact,
    the tables are as accurate as the comments of the data files say, [checkint]
    classifies the integers, and the special values are the ones of Annex F of the
    C standard. *)

From S2P Require Import Prelude Ieee MathBits MathRound MathRem MathTables MathElem.

#[local] Open Scope Z_scope.

(** ** Integers among the floating point numbers *)

(** [y] is an integer, and [y] is an odd integer. *)
Definition is_int (F : fmt) (y : Z) : bool := fval F y mod one_val F =? 0.
Definition is_odd_int (F : fmt) (y : Z) : bool := is_int F y && Z.odd (fval F y / one_val F).

Section CheckInt.
Context (F : fmt) {HF : FmtOk F}.

Abbreviation W := (width F).
Abbreviation MB := (mbits F).
Abbreviation One := (one_val F).

Lemma signed_div s v d : 0 < d -> v mod d = 0 -> signed s v / d = signed s (v / d).
Proof using.
  intros Hd Hv. destruct s; [| reflexivity]. unfold signed.
  apply Z_div_zero_opp_full. exact Hv.
Qed.

Lemma signed_mod s v d : 0 < d -> (signed s v mod d =? 0) = (v mod d =? 0).
Proof using.
  intros Hd. destruct s; [| reflexivity]. unfold signed.
  destruct (Z.eqb_spec (v mod d) 0) as [E | N].
  - rewrite Z_mod_zero_opp_full by exact E. reflexivity.
  - rewrite Z_mod_nz_opp_full by exact N. pose proof (Z.mod_pos_bound v d Hd).
    destruct (Z.eqb_spec (d - v mod d) 0); [lia | reflexivity].
Qed.

Lemma odd_signed s v : Z.odd (signed s v) = Z.odd v.
Proof using. destruct s; [apply Z.odd_opp | reflexivity]. Qed.

(** The two predicates do not depend on the sign. *)
Lemma is_int_abs y : is_int F y = (mval F (mag F y) mod One =? 0).
Proof using HF.
  unfold is_int. rewrite fval_signed. apply signed_mod, (one_val_pos F).
Qed.

Lemma is_odd_abs y : is_odd_int F y = is_int F y && Z.odd (mval F (mag F y) / One).
Proof using HF.
  unfold is_odd_int. destruct (is_int F y) eqn:E; [| reflexivity].
  rewrite is_int_abs in E. apply Z.eqb_eq in E.
  rewrite fval_signed, signed_div, odd_signed by (exact (one_val_pos F) || exact E). reflexivity.
Qed.

Lemma land_pow2 x t : 0 <= t -> (Z.land x (2 ^ t) =? 0) = negb (Z.testbit x t).
Proof using.
  intros Ht. destruct (Z.testbit x t) eqn:B.
  - apply Z.eqb_neq. intros E. apply (f_equal (fun z => Z.testbit z t)) in E.
    rewrite Z.land_spec, B, Z.pow2_bits_true, Z.bits_0 in E by lia. discriminate.
  - apply Z.eqb_eq. apply Z.bits_inj'. intros i Hi. rewrite Z.land_spec, Z.bits_0.
    destruct (Z.eq_dec i t) as [-> | N]; [rewrite B; reflexivity |].
    rewrite Z.pow2_bits_false by lia. apply andb_false_r.
Qed.

(** A number of magnitude one or more, with [t] fraction bits. *)
Lemma fraction_split a : 0 <= a -> bias F <= expo F a <= bias F + MB ->
  let t := bias F + MB - expo F a in
  mval F a mod One = 0 <-> a mod 2 ^ t = 0.
Proof using HF.
  intros Ha He t. destruct (Z.eq_dec t 0) as [Z0 | N].
  - rewrite Z0, Z.mod_1_r. split; [reflexivity |]. intros _.
    rewrite (large_integer F a Ha) by lia. apply Z.mod_mul. pose proof (one_val_pos F). lia.
  - destruct (clear_fraction F a Ha ltac:(lia)) as (_ & _ & E).
    replace (MB + bias F - expo F a) with t in E by lia. tauto.
Qed.

Lemma bias_odd : exists c, bias F - 1 = 2 * c.
Proof using HF.
  unfold bias. pose proof (ebits_gt F). exists (2 ^ (ebits F - 2) - 1).
  replace (ebits F - 1) with (Z.succ (ebits F - 2)) by lia. rewrite Z.pow_succ_r by lia. lia.
Qed.

Lemma unit_bit a : 0 <= a -> bias F <= expo F a <= bias F + MB ->
  Z.testbit a (bias F + MB - expo F a) = Z.odd (mval F a / One).
Proof using HF.
  intros Ha He. set (t := bias F + MB - expo F a). destruct (decode F a) as [m k] eqn:D.
  pose proof (bias_pos F) as Bp. pose proof (decode_expo F a m k ltac:(lia) D) as K.
  destruct (decode_spec F a m k Ha D) as (E & _).
  assert (Ot : one_val F = 2 ^ t * 2 ^ k).
  { unfold one_val. rewrite <- Z.pow_add_r by lia. f_equal. unfold eunit. lia. }
  pose proof (Z.pow_pos_nonneg 2 k ltac:(lia) ltac:(lia)).
  pose proof (Z.pow_pos_nonneg 2 t ltac:(lia) ltac:(lia)).
  rewrite (mval_decode F a m k D), Ot, Z.div_mul_cancel_r by lia.
  rewrite <- Z.bit0_odd, Z.testbit_odd, Z.bit0_odd, Z.shiftr_div_pow2 by lia.
  rewrite E at 1. replace (2 ^ MB) with (2 ^ (MB - t) * 2 ^ t)
    by (rewrite <- Z.pow_add_r by lia; f_equal; lia).
  rewrite Z.mul_assoc, Z.div_add by lia. rewrite Z.odd_add.
  assert (Ev : Z.odd (k * 2 ^ (MB - t)) = false).
  { rewrite Z.odd_mul. destruct (Z.eq_dec t MB) as [T | N].
    - destruct bias_odd as [c C]. replace k with (2 * c) by lia. rewrite Z.odd_mul. reflexivity.
    - replace (MB - t) with (Z.succ (MB - t - 1)) by lia. rewrite Z.pow_succ_r by lia.
      rewrite (Z.odd_mul 2). apply andb_false_r. }
  rewrite Ev. apply xorb_false_r.
Qed.

(** The numbers above [2^(MB + 1)] are even integers. *)
Lemma large_even a : 0 <= a -> bias F + MB < expo F a ->
  mval F a mod One = 0 /\ Z.odd (mval F a / One) = false.
Proof using HF.
  intros Ha He. destruct (decode F a) as [m k] eqn:D. pose proof (bias_pos F). pose proof (mbits_gt F).
  pose proof (decode_expo F a m k ltac:(lia) D) as K.
  assert (Ek : m * 2 ^ k = m * 2 ^ (k - eunit F - 1) * 2 * One).
  { unfold one_val. replace k with (k - eunit F - 1 + 1 + eunit F) at 1 by lia.
    rewrite !Z.pow_add_r by (unfold eunit; lia). change (2 ^ 1) with 2. lia. }
  pose proof (one_val_pos F). rewrite (mval_decode F a m k D), Ek, Z.mod_mul, Z.div_mul by lia.
  split; [reflexivity |]. rewrite Z.odd_mul. apply andb_false_r.
Qed.

Lemma checkint_val y : is_u W y -> mag F y <> 0 ->
  checkint_gen F y = if is_int F y then if is_odd_int F y then 1 else 2 else 0.
Proof using HF.
  intros U Nz. rewrite is_odd_abs, is_int_abs. unfold checkint_gen. fold (efield F y).
  rewrite efield_expo by (exact HF || apply (is_u_nonneg F), U).
  pose proof (mag_range F y) as R. set (a := mag F y) in *. pose proof (mbits_gt F) as Mg.
  pose proof (ebits_gt F). pose proof (bias_pos F). pose proof (one_val_pos F).
  destruct (Z.ltb_spec (expo F a) (bias F)) as [L | G].
  { pose proof (proj1 (below_one F a ltac:(lia)) L). pose proof (mval_mono F 0 a ltac:(lia)) as P.
    rewrite mval_0 in P by exact HF. rewrite Z.mod_small by lia.
    destruct (Z.eqb_spec (mval F a) 0); [lia | reflexivity]. }
  destruct (Z.ltb_spec (bias F + MB) (expo F a)) as [Hi | Lo].
  { destruct (large_even a ltac:(lia) Hi) as [M O]. rewrite M, O. reflexivity. }
  set (t := bias F + MB - expo F a). rewrite !Z.shiftl_mul_pow2, !Z.mul_1_l by lia.
  rewrite land_low, land_pow2 by lia.
  assert (Wt : 0 <= t < W - 1) by (unfold width; lia).
  rewrite <- (mod_mag F y t) by lia. fold a.
  assert (Tb : Z.testbit y t = Z.testbit a t).
  { unfold a, mag, sgnbit. rewrite Z.mod_pow2_bits_low by lia. reflexivity. }
  rewrite Tb. unfold t. rewrite unit_bit by lia. fold t.
  pose proof (fraction_split a ltac:(lia) ltac:(lia)) as FS. cbv zeta in FS. fold t in FS.
  destruct (Z.eqb_spec (a mod 2 ^ t) 0) as [Z0 | N].
  - apply FS in Z0. rewrite Z0. simpl. destruct (Z.odd (mval F a / One)); reflexivity.
  - destruct (Z.eqb_spec (mval F a mod One) 0) as [E | _]; [tauto | reflexivity].
Qed.
End CheckInt.

(** ** The argument reduction of the logarithms *)

Section Reduce.
Context (F : fmt) {HF : FmtOk F}.

Abbreviation W := (width F).
Abbreviation MB := (mbits F).
Abbreviation absv x := (mval F (mag F x)).

Lemma exponent_mask : wrapu W (Z.shiftl (2 ^ (ebits F + 1) - 1) MB) = 2 ^ W - 2 ^ MB.
Proof using HF.
  pose proof (mbits_gt F). pose proof (ebits_gt F). rewrite Z.shiftl_mul_pow2 by lia.
  assert (E : 2 ^ W = 2 ^ (ebits F + 1) * 2 ^ MB)
    by (rewrite <- Z.pow_add_r by lia; f_equal; unfold width; lia).
  pose proof (Z.pow_pos_nonneg 2 (ebits F + 1)). pose proof (pow_m_pos F).
  rewrite wrapu_small; [lia |]. unfold is_u. rewrite E. nia.
Qed.

Lemma land_high z : 0 <= z < 2 ^ W -> Z.land z (2 ^ W - 2 ^ MB) = z - z mod 2 ^ MB.
Proof using HF.
  intros Hz. pose proof (mbits_gt F). pose proof (ebits_gt F). rewrite <- ldiff_low by lia.
  replace (2 ^ MB - 1) with (Z.ones MB) by (rewrite Z.ones_equiv; lia).
  assert (M : 2 ^ W - 2 ^ MB = Z.ldiff (Z.ones W) (Z.ones MB)).
  { rewrite Z.ldiff_ones_r, Z.shiftr_div_pow2, Z.shiftl_mul_pow2, Z.ones_equiv by lia.
    replace (2 ^ W) with (2 ^ (W - MB) * 2 ^ MB)
      by (rewrite <- Z.pow_add_r by (unfold width; lia); f_equal; lia).
    pose proof (pow_m_pos F). pose proof (Z.pow_pos_nonneg 2 (W - MB)).
    rewrite <- (Z.div_unique_pos (Z.pred (2 ^ (W - MB) * 2 ^ MB)) (2 ^ MB)
                  (2 ^ (W - MB) - 1) (2 ^ MB - 1)) by lia. lia. }
  rewrite M. apply Z.bits_inj'. intros i Hi. rewrite Z.land_spec, !Z.ldiff_spec.
  destruct (Z.lt_ge_cases i W) as [L | G].
  - rewrite (Z.ones_spec_low W) by lia. reflexivity.
  - rewrite <- (Z.mod_small z (2 ^ W)) by lia.
    rewrite Z.mod_pow2_bits_high by (unfold width in *; lia). reflexivity.
Qed.

(** The reduction of the bits [v], which may be negative: a subnormal number is
    normalized to a negative exponent field. *)
Lemma log_reduce_ext v off tb : 0 <= tb <= MB -> 0 <= off -> off + 2 ^ MB <= 2 ^ (W - 1) ->
  - 2 ^ (W - 1) <= v - off < 2 ^ (W - 1) ->
  log_reduce F off tb (wrapu W v) =
    ((v - off) mod 2 ^ MB / 2 ^ (MB - tb), (v - off) / 2 ^ MB, off + (v - off) mod 2 ^ MB).
Proof using HF.
  intros Ht Ho Ho2 Hv. pose proof (mbits_gt F). pose proof (ebits_gt F). pose proof (pow_m_pos F) as Pm.
  assert (Wp : 2 ^ W = 2 * 2 ^ (W - 1)).
  { rewrite <- Z.pow_succ_r by (unfold width; lia). f_equal. lia. }
  unfold log_reduce. rewrite exponent_mask.
  assert (T : wrapu W (wrapu W v - off) = wrapu W (v - off)) by apply Zminus_mod_idemp_l.
  rewrite T, land_high by (apply wrapu_range; unfold width; lia).
  assert (DivW : 2 ^ W = 2 ^ MB * 2 ^ (W - MB))
    by (rewrite <- Z.pow_add_r by (unfold width; lia); f_equal; lia).
  assert (Pw : 0 < 2 ^ (W - MB)) by (apply Z.pow_pos_nonneg; unfold width; lia).
  assert (ModM : wrapu W (v - off) mod 2 ^ MB = (v - off) mod 2 ^ MB).
  { unfold wrapu. rewrite DivW, Z.rem_mul_r, Z.mul_comm, Z.mod_add, Z.mod_mod by lia. reflexivity. }
  assert (K : wraps W (wrapu W (v - off)) = v - off).
  { unfold wraps, wrapu. rewrite Zplus_mod_idemp_l, Z.mod_small by lia. lia. }
  pose proof (Z.mod_pos_bound (v - off) (2 ^ MB) ltac:(lia)) as Mb.
  f_equal; [f_equal |].
  - rewrite Z.shiftr_div_pow2 by lia.
    assert (Pt : 0 < 2 ^ (MB - tb)) by (apply Z.pow_pos_nonneg; lia).
    assert (Pt2 : 0 < 2 ^ tb) by (apply Z.pow_pos_nonneg; lia).
    rewrite <- ModM. replace (2 ^ MB) with (2 ^ (MB - tb) * 2 ^ tb)
      by (rewrite <- Z.pow_add_r by lia; f_equal; lia).
    rewrite Z.rem_mul_r by lia. rewrite Z.mul_comm, Z.div_add by lia.
    rewrite (Z.div_small (_ mod 2 ^ (MB - tb))) by (apply Z.mod_pos_bound; lia). reflexivity.
  - rewrite K. apply Z.shiftr_div_pow2. lia.
  - rewrite ModM. set (q := wrapu W (v - off)).
    assert (Q : wrapu W (wrapu W v - (q - (v - off) mod 2 ^ MB)) = wrapu W (off + (v - off) mod 2 ^ MB)).
    { unfold wrapu. rewrite Zminus_mod_idemp_l. unfold q, wrapu.
      replace (v - ((v - off) mod 2 ^ W - (v - off) mod 2 ^ MB))
        with ((v + (v - off) mod 2 ^ MB) - (v - off) mod 2 ^ W) by lia.
      rewrite Zminus_mod_idemp_r. f_equal. lia. }
    rewrite Q. apply wrapu_small. unfold is_u. lia.
Qed.

Lemma mval_shift a k : 2 ^ MB <= a -> 0 <= k -> mval F (a + k * 2 ^ MB) = mval F a * 2 ^ k.
Proof using HF.
  intros Ha Hk. pose proof (pow_m_pos F). destruct (decode F a) as [m e] eqn:D.
  destruct (decode_spec F a m e ltac:(lia) D) as (E & He & Hm & Nm & _).
  assert (Hn : 2 ^ MB <= m) by (destruct (Z.eq_dec e 0) as [-> | N]; [lia | apply Nm; lia]).
  replace (a + k * 2 ^ MB) with (m + (e + k) * 2 ^ MB) by lia.
  rewrite mval_build by (exact HF || lia). rewrite (mval_decode F a m e D), Z.pow_add_r by lia. lia.
Qed.

(** The same, when the exponent may go down. *)
Lemma mval_shift_any a b k : 2 ^ MB <= a -> 2 ^ MB <= b -> b = a + k * 2 ^ MB ->
  mval F b * 2 ^ Z.max 0 (- k) = mval F a * 2 ^ Z.max 0 k.
Proof using HF.
  intros Ha Hb ->. destruct (Z.le_ge_cases 0 k) as [P | N].
  - rewrite (Z.max_l 0 (- k)), (Z.max_r 0 k), Z.pow_0_r by lia. rewrite mval_shift by lia. lia.
  - rewrite (Z.max_r 0 (- k)), (Z.max_l 0 k), Z.pow_0_r by lia. rewrite <- mval_shift by lia.
    rewrite Z.mul_1_r. f_equal. lia.
Qed.

(** What the reduction promises for the number [x] whose normalized bits are
    [ix]: [z] lies in the interval of [OFF], in the subinterval the index names,
    and [x] is [2^k z] exactly. *)
Definition reduction_ok (off tb x ix : Z) : Prop :=
  let '(i, k, iz) := log_reduce F off tb ix in
  0 <= i < 2 ^ tb /\ off <= iz < off + 2 ^ MB /\
  off + i * 2 ^ (MB - tb) <= iz < off + (i + 1) * 2 ^ (MB - tb) /\
  fval F x * 2 ^ Z.max 0 (- k) = fval F iz * 2 ^ Z.max 0 k.

(** [0x1p52], or [0x1p23], scales a subnormal exactly. *)
Context (Scale : isfinite F (flit F 1 MB) = true /\ sgn F (flit F 1 MB) = false /\
  decode F (mag F (flit F 1 MB)) = (2 ^ MB, eunit F) /\ MB <= emax F - 3).

Lemma scale_up_subnormal x : 0 < x < 2 ^ MB ->
  let y := fmul F x (flit F 1 MB) in
  2 ^ MB <= y < inf_mag F /\ mval F y = x * 2 ^ MB.
Proof using HF Scale.
  intros Hx y. destruct Scale as (Tf & Ts & Td & Te). pose proof (pow_m_pos F) as Pm.
  pose proof (mbits_gt F). pose proof (eunit_pos F). pose proof (inf_lt_sgnbit F) as [I1 I2].
  assert (E0 : expo F x = 0) by (apply Z.div_small; lia).
  assert (Fr : frac F x = x) by (apply Z.mod_small; lia).
  assert (Im : 2 ^ MB <= inf_mag F) by (unfold inf_mag, emax; pose proof (pow_e_ge F); nia).
  assert (Mx : mag F x = x) by (apply Z.mod_small; lia).
  assert (Sx : sgn F x = false) by (unfold sgn; apply Z.leb_gt; lia).
  assert (Fin : isfinite F x = true) by (unfold isfinite; rewrite Mx; apply Z.ltb_lt; lia).
  destruct (repr_scaled F x MB ltac:(lia) ltac:(lia)) as (a & Ha & Ea).
  rewrite Z.abs_eq in Ea by nia.
  assert (Y : y = a).
  { unfold y, fmul. destruct (finite_cases F x Fin) as (Nx & Ix & _).
    destruct (finite_cases F _ Tf) as (Nt & It & _). rewrite Nx, Ix, Nt, It, Td, Mx. simpl orb. cbv iota.
    assert (D : decode F x = (x, 0)) by (unfold decode; rewrite E0, Fr; reflexivity).
    rewrite D. destruct (Z.eqb_spec x 0); [lia |].
    destruct (Z.eqb_spec (2 ^ MB) 0); [lia |]. simpl orb. cbv iota. rewrite Ts, Sx.
    apply round_mag_exact; [exact HF | nia | exact Ha |]. rewrite Ea.
    replace (0 + eunit F - eunit F) with 0 by lia. change (Z.max 0 0) with 0.
    change (Z.max 0 (- 0)) with 0. rewrite Z.pow_0_r. lia. }
  rewrite Y. split; [| exact Ea]. split; [| lia].
  destruct (Z.lt_ge_cases a (2 ^ MB)) as [L | G]; [| exact G].
  rewrite mval_small in Ea by (exact HF || lia). nia.
Qed.

(** The normalization of the logarithms. *)
Definition log_normalise (x : Z) : Z :=
  if expo F x =? 0 then wrapu W (fmul F x (flit F 1 MB) - MB * 2 ^ MB) else x.

Lemma reduction_correct off tb x : 0 <= tb <= MB -> 2 ^ MB <= off -> off + MB * 2 ^ MB <= inf_mag F ->
  0 < x < inf_mag F -> reduction_ok off tb x (log_normalise x).
Proof using HF Scale.
  intros Ht Ho Ho2 Hx. pose proof (mbits_gt F) as Mg. pose proof (pow_m_pos F) as Pm.
  assert (2 ^ MB <= MB * 2 ^ MB) by nia.
  pose proof (inf_lt_sgnbit F) as [I1 I2]. pose proof I2 as I3. unfold sgnbit in I3.
  assert (Fv : forall a, 0 <= a < inf_mag F -> fval F a = mval F a).
  { intros a Ha. unfold fval, sgn, mag. rewrite Z.mod_small by lia.
    destruct (Z.leb_spec (sgnbit F) a); [lia | reflexivity]. }
  assert (Pt : 0 < 2 ^ (MB - tb)) by (apply Z.pow_pos_nonneg; lia).
  assert (Pt2 : 0 < 2 ^ tb) by (apply Z.pow_pos_nonneg; lia).
  assert (Sp : 2 ^ MB = 2 ^ (MB - tb) * 2 ^ tb) by (rewrite <- Z.pow_add_r by lia; f_equal; lia).
  assert (Main : forall v, wrapu W v = log_normalise x -> - (MB * 2 ^ MB) <= v < inf_mag F ->
    (forall iz k, 2 ^ MB <= iz -> v = iz + k * 2 ^ MB ->
       mval F x * 2 ^ Z.max 0 (- k) = mval F iz * 2 ^ Z.max 0 k) ->
    reduction_ok off tb x (log_normalise x)).
  { intros v <- Hv Val. unfold reduction_ok. rewrite log_reduce_ext by lia.
    pose proof (Z.mod_pos_bound (v - off) (2 ^ MB) ltac:(lia)) as B.
    pose proof (Z.div_mod (v - off) (2 ^ MB) ltac:(lia)) as Dm.
    set (q := (v - off) mod 2 ^ MB) in *. set (k := (v - off) / 2 ^ MB) in *.
    pose proof (Z.div_mod q (2 ^ (MB - tb)) ltac:(lia)) as Dq.
    pose proof (Z.mod_pos_bound q (2 ^ (MB - tb)) Pt). 
    split; [split; [apply Z.div_pos; lia | apply Z.div_lt_upper_bound; lia] |].
    split; [lia |]. split; [lia |]. rewrite !Fv by lia. apply Val; lia. }
  destruct (Z.eq_dec (expo F x) 0) as [E0 | En].
  - destruct (decode_expo0 F x E0 ltac:(lia)) as (Vx & _ & Lx).
    destruct (scale_up_subnormal x ltac:(lia)) as (Ry & Vy).
    set (y := fmul F x (flit F 1 MB)) in *.
    apply (Main (y - MB * 2 ^ MB)).
    + unfold log_normalise. rewrite E0. reflexivity.
    + lia.
    + intros iz k Hz Ek. pose proof (mval_shift_any iz y (k + MB) Hz ltac:(lia) ltac:(lia)) as S.
      rewrite Vy in S. rewrite Vx.
      apply (Z.mul_reg_r _ _ (2 ^ MB * 2 ^ Z.max 0 (- (k + MB)))); [pose proof (Z.pow_pos_nonneg 2 (Z.max 0 (- (k + MB)))); nia |].
      replace (x * 2 ^ Z.max 0 (- k) * (2 ^ MB * 2 ^ Z.max 0 (- (k + MB))))
        with (x * 2 ^ MB * 2 ^ Z.max 0 (- (k + MB)) * 2 ^ Z.max 0 (- k)) by lia.
      rewrite S, <- !Z.mul_assoc, <- !Z.pow_add_r by lia. do 2 f_equal. lia.
  - destruct (expo_frac F x ltac:(lia)) as (Ex & E1 & Fr).
    assert (2 ^ MB <= x) by nia.
    apply (Main x).
    + unfold log_normalise. destruct (Z.eqb_spec (expo F x) 0); [contradiction |].
      apply wrapu_small. unfold is_u. rewrite width_eq by exact HF. unfold sgnbit. lia.
    + nia.
    + intros iz k Hz Ek. apply mval_shift_any; lia.
Qed.
End Reduce.

(** ** Classifying the bits of a double *)

Lemma mag_64 x : 0 <= x < 2 ^ 63 -> mag F64 x = x /\ sgn F64 x = false.
Proof.
  intros H. unfold mag, sgn. change (sgnbit F64) with (2 ^ 63). rewrite Z.mod_small by lia.
  split; [reflexivity | apply Z.leb_gt; lia].
Qed.

Lemma mag_32 x : 0 <= x < 2 ^ 31 -> mag F32 x = x /\ sgn F32 x = false.
Proof.
  intros H. unfold mag, sgn. change (sgnbit F32) with (2 ^ 31). rewrite Z.mod_small by lia.
  split; [reflexivity | apply Z.leb_gt; lia].
Qed.

(** The three tests of the top bits that [log] makes. *)
Definition top16_ok (t : Z) : bool :=
  Bool.eqb (0x7ff0 - 0x0010 <=? u32 (t - 0x0010)) ((t <? 0x10) || (0x7ff0 <=? t)) &&
  Bool.eqb (negb (Z.land t 0x8000 =? 0) || (Z.land t 0x7ff0 =? 0x7ff0)) (0x7ff0 <=? t).

Lemma top16_check : check_range 0 65536 top16_ok = true.
Proof. by_vm. Qed.

Lemma top16_tests t : 0 <= t < 65536 ->
  (0x7ff0 - 0x0010 <=? u32 (t - 0x0010)) = (t <? 0x10) || (0x7ff0 <=? t) /\
  negb (Z.land t 0x8000 =? 0) || (Z.land t 0x7ff0 =? 0x7ff0) = (0x7ff0 <=? t).
Proof.
  intros H. pose proof (range_check 0 65536 top16_ok top16_check t ltac:(lia)) as E.
  apply andb_prop in E as [A B]. apply Bool.eqb_prop in A, B. split; assumption.
Qed.

Lemma fsub_self F `{FmtOk F} x : is_u (width F) x -> fsub F x x = 0 \/ fsub F x x = qnan F.
Proof.
  intros U. unfold fsub, fadd. destruct (fneg_spec F x U) as (V & S & M & _).
  assert (N : isnan F (fneg F x) = isnan F x) by (unfold isnan; rewrite M; reflexivity).
  assert (I : isinf F (fneg F x) = isinf F x) by (unfold isinf; rewrite M; reflexivity).
  rewrite N, I, S, V. destruct (isnan F x); [right; reflexivity |]. simpl orb. cbv iota.
  destruct (isinf F x).
  - destruct (sgn F x); simpl; right; reflexivity.
  - rewrite Z.add_opp_diag_r. destruct (sgn F x); left; reflexivity.
Qed.

Lemma math_invalid_64 x : is_u 64 x -> __math_invalid x = qnan F64.
Proof.
  intros U. unfold __math_invalid. destruct (fsub_self F64 x U) as [-> | ->]; reflexivity.
Qed.

Lemma math_invalid_32 x : is_u 32 x -> __math_invalidf x = qnan F32.
Proof.
  intros U. unfold __math_invalidf. destruct (fsub_self F32 x U) as [-> | ->]; reflexivity.
Qed.

Lemma double_zero F `{FmtOk F} x : is_u (width F) x -> wrapu (width F) (2 * x) = 2 * mag F x.
Proof.
  intros U. rewrite <- (shl_1 F x) by exact U. unfold shl. rewrite Z.shiftl_mul_pow2 by lia. f_equal. lia.
Qed.

Lemma double_zero_test F `{FmtOk F} x : is_u (width F) x ->
  (wrapu (width F) (x * 2) =? 0) = (mag F x =? 0).
Proof.
  intros U. rewrite Z.mul_comm, double_zero by assumption.
  destruct (Z.eqb_spec (mag F x) 0), (Z.eqb_spec (2 * mag F x) 0); lia || reflexivity.
Qed.

(** The numbers the logarithms do not reduce: zero, negative numbers, NaN and
    infinity, in one test each. *)
Definition log_spec_special (F : fmt) (x : Z) : option Z :=
  if mag F x =? 0 then Some (with_sgn F true (inf_mag F))
  else if isnan F x || sgn F x then Some (qnan F)
  else if isinf F x then Some x
  else None.

Lemma positive_not_special F `{FmtOk F} x : is_u (width F) x -> log_spec_special F x = None ->
  0 < x < inf_mag F.
Proof.
  unfold log_spec_special. intros U. pose proof (mag_range F x) as R.
  pose proof (with_sgn_split F x U) as S. unfold isnan, isinf.
  destruct (Z.eqb_spec (mag F x) 0); [discriminate |].
  destruct (Z.ltb_spec (inf_mag F) (mag F x)); [discriminate |].
  destruct (sgn F x); [discriminate |]. destruct (Z.eqb_spec (mag F x) (inf_mag F)); [discriminate |].
  intros _. unfold with_sgn in S. lia.
Qed.

Lemma spec_special_order F `{FmtOk F} x : is_u (width F) x -> x <> 0 -> x <> inf_mag F ->
  log_spec_special F x =
    if x <? inf_mag F then None else if mag F x =? 0 then Some (with_sgn F true (inf_mag F))
    else Some (qnan F).
Proof.
  intros U N0 Ni. unfold log_spec_special, isnan, isinf. pose proof (mag_range F x) as R.
  pose proof (with_sgn_split F x U) as S. pose proof (inf_lt_sgnbit F) as [I1 I2].
  unfold with_sgn in S. destruct (sgn F x) eqn:E.
  - rewrite orb_true_r. destruct (Z.ltb_spec x (inf_mag F)); [lia |]. reflexivity.
  - rewrite orb_false_r. zbool; try lia; reflexivity.
Qed.

Lemma log_special_eq x : is_u 64 x ->
  log_special x = match log_spec_special F64 x with
                  | Some y => inl y
                  | None => inr (log_normalise F64 x)
                  end.
Proof.
  intros U. unfold log_special. unfold is_u in U.
  assert (T : top16 x = x / 2 ^ 48).
  { unfold top16. rewrite Z.shiftr_div_pow2 by lia. apply wrapu_small. unfold is_u.
    split; [apply Z.div_pos; lia | apply Z.div_lt_upper_bound; lia]. }
  assert (Rt : 0 <= x / 2 ^ 48 < 65536)
    by (split; [apply Z.div_pos; lia | apply Z.div_lt_upper_bound; lia]).
  rewrite T. destruct (top16_tests (x / 2 ^ 48) Rt) as [-> ->].
  assert (Lo : (x / 2 ^ 48 <? 0x10) = (x <? 2 ^ 52)).
  { apply Bool.eq_iff_eq_true. rewrite !Z.ltb_lt. Z.to_euclidean_division_equations. lia. }
  assert (Hi : (0x7ff0 <=? x / 2 ^ 48) = (inf_mag F64 <=? x)).
  { apply Bool.eq_iff_eq_true. rewrite !Z.leb_le. change (inf_mag F64) with (0x7ff0 * 2 ^ 48).
    Z.to_euclidean_division_equations. lia. }
  rewrite Lo, Hi. change (u64 (x * 2)) with (wrapu (width F64) (x * 2)). rewrite (double_zero_test F64 x U). clear T Rt Lo Hi.
  change DINF with (inf_mag F64).
  destruct (Z.eq_dec x 0) as [-> | N0]; [reflexivity |].
  destruct (Z.eq_dec x (inf_mag F64)) as [-> | Ni]; [reflexivity |].
  rewrite spec_special_order by (apply F64_ok || assumption).
  destruct (Z.leb_spec (inf_mag F64) x) as [G | L].
  - rewrite orb_true_r. destruct (Z.ltb_spec x (inf_mag F64)); [lia |].
    destruct (Z.eqb_spec (mag F64 x) 0); [reflexivity |].
    destruct (Z.eqb_spec x (inf_mag F64)); [contradiction |]. rewrite math_invalid_64 by exact U. reflexivity.
  - rewrite orb_false_r. destruct (Z.ltb_spec x (inf_mag F64)); [| lia].
    change (inf_mag F64) with (2047 * 2 ^ 52) in L.
    unfold log_normalise, expo. change (mbits F64) with 52.
    destruct (mag_64 x ltac:(lia)) as [Mx _]. rewrite Mx.
    destruct (Z.ltb_spec x (2 ^ 52)) as [S | B].
    + rewrite (Z.div_small x) by lia. destruct (Z.eqb_spec x 0); [contradiction |].
      destruct (Z.eqb_spec x (inf_mag F64)); [contradiction |]. reflexivity.
    + pose proof (Z.div_le_lower_bound x (2 ^ 52) 1 ltac:(lia) ltac:(lia)).
      destruct (Z.eqb_spec (x / 2 ^ 52) 0); [lia | reflexivity].
Qed.

Lemma window_32 x lo hi : is_u 32 x -> 0 <= lo <= hi -> hi < 2 ^ 32 ->
  (hi - lo <=? u32 (x - lo)) = (x <? lo) || (hi <=? x).
Proof.
  unfold is_u, wrapu. intros U L H. destruct (Z.ltb_spec x lo) as [A | A].
  - replace (x - lo) with (x - lo + 2 ^ 32 + (-1) * 2 ^ 32) by lia.
    rewrite Z.mod_add, Z.mod_small by lia. apply Z.leb_le. lia.
  - rewrite Z.mod_small by lia. simpl orb. apply Bool.eq_iff_eq_true. rewrite !Z.leb_le. lia.
Qed.

Lemma window_64 x lo hi : is_u 64 x -> 0 <= lo <= hi -> hi < 2 ^ 64 ->
  (u64 (x - lo) <? u64 (hi - lo)) = (lo <=? x) && (x <? hi).
Proof.
  unfold is_u, wrapu. intros U L H. rewrite (Z.mod_small (hi - lo)) by lia.
  destruct (Z.leb_spec lo x) as [A | A].
  - rewrite Z.mod_small by lia. simpl andb. apply Bool.eq_iff_eq_true. rewrite !Z.ltb_lt. lia.
  - replace (x - lo) with (x - lo + 2 ^ 64 + (-1) * 2 ^ 64) by lia.
    rewrite Z.mod_add, Z.mod_small by lia. apply Z.ltb_ge. lia.
Qed.

Lemma sign_land_32 x : is_u 32 x -> negb (Z.land x 0x80000000 =? 0) = sgn F32 x.
Proof.
  unfold is_u. intros U. change 0x80000000 with (2 ^ 31). rewrite land_pow2, negb_involutive by lia.
  rewrite <- Z.bit0_odd || idtac. rewrite Z.testbit_odd, Z.shiftr_div_pow2 by lia.
  unfold sgn. change (sgnbit F32) with (2 ^ 31). destruct (Z.leb_spec (2 ^ 31) x).
  - replace (x / 2 ^ 31) with 1 by (apply (Z.div_unique x (2 ^ 31) 1 (x - 2 ^ 31)); lia). reflexivity.
  - rewrite Z.div_small by lia. reflexivity.
Qed.

Lemma logf_special_eq x : is_u 32 x ->
  logf_special x = match log_spec_special F32 x with
                   | Some y => inl y
                   | None => inr (log_normalise F32 x)
                   end.
Proof.
  intros U. unfold logf_special. rewrite window_32 by (assumption || lia).
  rewrite sign_land_32 by exact U. rewrite (Z.mul_comm x).
  change (u32 (2 * x)) with (wrapu (width F32) (2 * x)). rewrite (double_zero F32 x U).
  pose proof (with_sgn_split F32 x U) as S. unfold with_sgn in S. change (sgnbit F32) with (2 ^ 31) in S.
  pose proof (mag_range F32 x) as R. change (sgnbit F32) with (2 ^ 31) in R.
  replace (2 * mag F32 x =? 0) with (mag F32 x =? 0) by (apply Bool.eq_iff_eq_true; rewrite !Z.eqb_eq; lia).
  destruct (Z.eq_dec x 0) as [-> | N0]; [reflexivity |].
  destruct (Z.eq_dec x (inf_mag F32)) as [-> | Ni]; [reflexivity |].
  rewrite spec_special_order by (apply F32_ok || assumption). change (inf_mag F32) with 0x7f800000 in *.
  destruct (Z.leb_spec 0x7f800000 x) as [G | L].
  - rewrite orb_true_r. destruct (Z.ltb_spec x 0x7f800000); [lia |].
    destruct (Z.eqb_spec (mag F32 x) 0); [reflexivity |].
    destruct (Z.eqb_spec x 0x7f800000); [contradiction |]. rewrite math_invalid_32 by exact U.
    destruct (sgn F32 x); [reflexivity |]. destruct (Z.leb_spec 0xff000000 (2 * mag F32 x)); [reflexivity | lia].
  - rewrite orb_false_r. destruct (Z.ltb_spec x 0x7f800000); [| lia].
    unfold log_normalise, expo. change (mbits F32) with 23. unfold is_u in U.
    destruct (mag_32 x ltac:(lia)) as [Mx Sx]. rewrite Mx, Sx.
    destruct (Z.ltb_spec x 0x00800000) as [Sm | B].
    + rewrite (Z.div_small x) by lia. destruct (Z.eqb_spec x 0); [contradiction |].
      destruct (Z.eqb_spec x 0x7f800000); [contradiction |].
      destruct (Z.leb_spec 0xff000000 (2 * x)); [lia | reflexivity].
    + pose proof (Z.div_le_lower_bound x (2 ^ 23) 1 ltac:(lia) ltac:(lia)).
      destruct (Z.eqb_spec (x / 2 ^ 23) 0); [lia | reflexivity].
Qed.

Lemma reduction_64 x ix : is_u 64 x -> log_special x = inr ix ->
  reduction_ok F64 0x3fe6000000000000 7 x ix /\
  reduction_ok F64 0x3fe6000000000000 6 x ix /\
  reduction_ok F64 0x3fe6955500000000 7 x ix.
Proof.
  intros U E.
  assert (S64 : isfinite F64 (flit F64 1 52) = true /\ sgn F64 (flit F64 1 52) = false /\
    decode F64 (mag F64 (flit F64 1 52)) = (2 ^ 52, eunit F64) /\ 52 <= emax F64 - 3)
    by (vm_compute; repeat split; discriminate).
  rewrite log_special_eq in E by exact U. destruct (log_spec_special F64 x) eqn:Sp; [discriminate |].
  injection E as <-. pose proof (positive_not_special F64 x U Sp) as P.
  split; [| split]; apply (reduction_correct F64 S64); cbn [mbits F64]; try exact P;
    change (inf_mag F64) with (2047 * 2 ^ 52); lia.
Qed.

Lemma reduction_32 x ix : is_u 32 x -> logf_special x = inr ix -> reduction_ok F32 0x3f330000 4 x ix.
Proof.
  intros U E.
  assert (S32 : isfinite F32 (flit F32 1 23) = true /\ sgn F32 (flit F32 1 23) = false /\
    decode F32 (mag F32 (flit F32 1 23)) = (2 ^ 23, eunit F32) /\ 23 <= emax F32 - 3)
    by (vm_compute; repeat split; discriminate).
  rewrite logf_special_eq in E by exact U. destruct (log_spec_special F32 x) eqn:Sp; [discriminate |].
  injection E as <-. pose proof (positive_not_special F32 x U Sp) as P.
  apply (reduction_correct F32 S32); cbn [mbits F32]; try exact P;
    change (inf_mag F32) with (255 * 2 ^ 23); lia.
Qed.

(** The argument reduction of the logarithms is exact.  Whenever [log], [log2]
    or [pow] (with their own [OFF] and table sizes), or [logf], [log2f] or [powf],
    reduce their argument [x], subnormal numbers included, the reduced [z] lies in
    [[OFF, 2 OFF)], in the subinterval its table index names, the index is inside
    the table, and [x] equals [2^k z] exactly. *)
Theorem log_reduction_exact :
  (forall x ix, is_u 64 x -> log_special x = inr ix ->
     reduction_ok F64 0x3fe6000000000000 7 x ix /\
     reduction_ok F64 0x3fe6000000000000 6 x ix /\
     reduction_ok F64 0x3fe6955500000000 7 x ix) /\
  (forall x ix, is_u 32 x -> logf_special x = inr ix -> reduction_ok F32 0x3f330000 4 x ix).
Proof.
  split; intros x ix U E; [apply reduction_64 | apply reduction_32]; assumption.
Qed.

(** The smallest subnormal double and 1.5f. *)
Lemma log_reduction_exact_witness :
  reduction_ok F64 0x3fe6000000000000 7 1 (u64 (-51 * 2 ^ 52)) /\
  reduction_ok F32 0x3f330000 4 0x3fc00000 0x3fc00000.
Proof.
  split.
  - refine (proj1 (proj1 log_reduction_exact 1 (u64 (-51 * 2 ^ 52)) _ _)).
    + unfold is_u. lia.
    + vm_compute. reflexivity.
  - refine (proj2 log_reduction_exact 0x3fc00000 0x3fc00000 _ _).
    + unfold is_u. lia.
    + vm_compute. reflexivity.
Defined.

(** ** Special values of the logarithms *)

Lemma not_near_one (x lo hi : Z) : is_u 64 x -> 0 < lo <= hi -> hi < inf_mag F64 ->
  log_spec_special F64 x <> None -> (u64 (x - lo) <? u64 (hi - lo)) = false.
Proof.
  intros U L H Sp. pose proof (inf_lt_sgnbit F64) as [_ I].
  change (sgnbit F64) with (2 ^ 63) in I. change (2 ^ mbits F64) with (2 ^ 52) in I.
  rewrite window_64 by (exact U || lia).
  destruct (Z.leb_spec lo x) as [A | A]; [| reflexivity]. apply Z.ltb_ge.
  destruct (Z.le_gt_cases hi x) as [B | B]; [exact B |]. exfalso. apply Sp.
  unfold log_spec_special, isnan, isinf. destruct (mag_64 x ltac:(lia)) as [-> ->].
  zbool; lia || reflexivity.
Qed.

(** the logarithms on the arguments Annex F of the C standard singles out:
    minus infinity at both zeros, NaN at every negative number and at NaN,
    infinity at infinity, and plus zero at one, for the four functions. *)
Theorem log_special_values :
  (forall x r, is_u 64 x -> log_spec_special F64 x = Some r -> log x = r /\ log2 x = r) /\
  (forall x r, is_u 32 x -> log_spec_special F32 x = Some r -> logf x = r /\ log2f x = r) /\
  log D1 = 0 /\ log2 D1 = 0 /\ logf S1 = 0 /\ log2f S1 = 0.
Proof.
  split; [| split; [| vm_compute; repeat split]]; intros x r U E.
  - assert (Nn : log_spec_special F64 x <> None) by (rewrite E; discriminate).
    unfold log, log2. rewrite !not_near_one by (exact U || exact Nn || (vm_compute; split; discriminate || reflexivity)).
    rewrite log_special_eq, E by exact U. split; reflexivity.
  - unfold logf, log2f. rewrite logf_special_eq, E by exact U.
    destruct (Z.eqb_spec x 0x3f800000) as [-> | N]; [vm_compute in E; discriminate | split; reflexivity].
Qed.

Lemma log_special_values_witness :
  log (with_sgn F64 true 0) = with_sgn F64 true (inf_mag F64) /\ logf 0xbf800000 = qnan F32.
Proof.
  split.
  - refine (proj1 (proj1 log_special_values (with_sgn F64 true 0) _ _ _)).
    + vm_compute. split; [discriminate | reflexivity].
    + vm_compute. reflexivity.
  - refine (proj1 (proj1 (proj2 log_special_values) 0xbf800000 _ _ _)).
    + unfold is_u. lia.
    + vm_compute. reflexivity.
Defined.

(** ** Special values of the exponentials *)

(** [hi] and [lo] are the values from which the result overflows or
    underflows. *)
Definition exp_spec_special (F : fmt) (hi lo x : Z) : option Z :=
  if isnan F x then Some (qnan F)
  else if isinf F x then Some (if sgn F x then 0 else inf_mag F)
  else if hi <=? fval F x then Some (inf_mag F)
  else if fval F x <=? lo then Some 0
  else None.

Lemma abstop_64 x : is_u 64 x -> Z.land (top12 x) 0x7ff = expo F64 (mag F64 x).
Proof.
  intros U. rewrite <- efield_64 by exact U. unfold top12, efield. simpl mbits.
  rewrite wrapu_small; [reflexivity |]. unfold is_u in *. rewrite Z.shiftr_div_pow2 by lia.
  split; [apply Z.div_pos; lia | apply Z.div_lt_upper_bound; lia].
Qed.

Lemma exp_guard e : 0 <= e <= 2047 ->
  (1032 - 969 <=? u32 (e - 969)) = (e <? 969) || (1032 <=? e) /\
  (0x80000000 <=? u32 (e - 969)) = (e <? 969).
Proof.
  intros H. split; [apply window_32; unfold is_u; lia |].
  unfold wrapu. destruct (Z.ltb_spec e 969).
  - replace (e - 969) with (e - 969 + 2 ^ 32 + (-1) * 2 ^ 32) by lia.
    rewrite Z.mod_add, Z.mod_small by lia. apply Z.leb_le. lia.
  - rewrite Z.mod_small by lia. apply Z.leb_gt. lia.
Qed.

Lemma exp_cases x : is_u 64 x ->
  exp x = let e := expo F64 (mag F64 x) in
          if e <? 969 then fadd F64 D1 x
          else if e <? 1032 then exp_main x e
          else if e <? 1033 then exp_main x 0
          else if x =? with_sgn F64 true DINF then 0
          else if 2047 <=? e then fadd F64 D1 x
          else if sgn F64 x then 0 else DINF.
Proof.
  intros U. unfold exp. rewrite abstop_64 by exact U.
  pose proof (expo_range F64 x) as R. change (emax F64) with 2047 in R.
  set (e := expo F64 (mag F64 x)) in *. destruct (exp_guard e R) as [G1 G2].
  change (u32 (top12 (flit F64 512 0) - top12 (flit F64 1 (-54)))) with (1032 - 969).
  change (top12 (flit F64 1 (-54))) with 969. change (top12 (flit F64 1024 0)) with 1033.
  change (top12 DINF) with 2047. rewrite G1, G2. cbv zeta.
  rewrite neg_test_64 by exact U.
  change (fneg F64 DINF) with (with_sgn F64 true DINF).
  change (__math_uflow 0) with 0. change (__math_oflow 0) with DINF.
  destruct (Z.ltb_spec e 969); simpl orb; [reflexivity |].
  destruct (Z.leb_spec 1032 e), (Z.ltb_spec e 1032); try lia.
  destruct (Z.leb_spec 1033 e), (Z.ltb_spec e 1033); try lia.
Qed.

Lemma window_guard_exp2 x : is_u 64 x ->
  exp2 x = let e := expo F64 (mag F64 x) in
           if e <? 969 then fadd F64 D1 x
           else if e <? 1032 then exp2_main x e
           else if (e <? 1033) || sgn F64 x && (x <? flit F64 (-1075) 0) then
             exp2_main x (if u64 (2 * flit F64 928 0) <? u64 (2 * x) then 0 else e)
           else if x =? with_sgn F64 true DINF then 0
           else if 2047 <=? e then fadd F64 D1 x
           else if sgn F64 x then 0 else DINF.
Proof.
  intros U. unfold exp2. rewrite abstop_64 by exact U.
  pose proof (expo_range F64 x) as R. change (emax F64) with 2047 in R.
  pose proof (with_sgn_split F64 x U) as S. pose proof (mag_range F64 x) as Rm.
  destruct (expo_frac F64 (mag F64 x) ltac:(lia)) as (Ef & _ & Fr).
  set (e := expo F64 (mag F64 x)) in *. destruct (exp_guard e R) as [G1 G2].
  change (u32 (top12 (flit F64 512 0) - top12 (flit F64 1 (-54)))) with (1032 - 969).
  change (top12 (flit F64 1 (-54))) with 969. change (top12 (flit F64 1024 0)) with 1033.
  change (top12 DINF) with 2047. rewrite G1, G2. cbv zeta.
  assert (Sg : (Z.shiftr x 63 =? 0) = negb (sgn F64 x))
    by (rewrite <- (neg_test_64 x U), negb_involutive; reflexivity).
  rewrite Sg. change (fneg F64 DINF) with (with_sgn F64 true DINF).
  change (__math_uflow 0) with 0. change (__math_oflow 0) with DINF.
  set (large := u64 (2 * flit F64 928 0) <? u64 (2 * x)). unfold with_sgn in S.
  change (sgnbit F64) with (2 ^ 63) in *. change (2 ^ mbits F64) with (2 ^ 52) in *.
  change (flit F64 (-1075) 0) with 0xc090cc0000000000 in *.
  change (with_sgn F64 true DINF) with 0xfff0000000000000. change DINF with (2047 * 2 ^ 52).
  destruct (Z.ltb_spec e 969); simpl orb; [reflexivity |].
  destruct (Z.leb_spec 1032 e), (Z.ltb_spec e 1032); try lia.
  destruct (Z.leb_spec 1033 e), (Z.ltb_spec e 1033); try lia; simpl andb; simpl orb; [| reflexivity].
  destruct (sgn F64 x); simpl andb; simpl negb; zbool; try lia; reflexivity.
Qed.

Lemma fadd_one_nan x : isnan F64 x = true -> fadd F64 D1 x = qnan F64.
Proof. intros N. unfold fadd. rewrite N, orb_true_r. reflexivity. Qed.

Lemma finite_cases' F `{FmtOk F} x : isnan F x = false -> isinf F x = false -> isfinite F x = true.
Proof. unfold isnan, isinf, isfinite. zbool; try discriminate; intros; lia || reflexivity. Qed.

(** Comparisons of values with a bound are comparisons of magnitudes. *)
Lemma above_bound F `{FmtOk F} b x : 0 < b < sgnbit F ->
  mval F b <= fval F x -> sgn F x = false /\ b <= mag F x.
Proof.
  intros Hb H1. pose proof (mag_range F x). pose proof (mval_mono F 0 b ltac:(lia)) as P.
  rewrite mval_0 in P by assumption. pose proof (mval_nonneg F (mag F x) ltac:(lia)).
  unfold fval in H1. destruct (sgn F x); [lia |]. split; [reflexivity |].
  destruct (Z.le_gt_cases b (mag F x)) as [L | G]; [exact L |].
  pose proof (mval_mono F (mag F x) b ltac:(lia)). lia.
Qed.

Lemma below_bound F `{FmtOk F} b x : 0 < b < sgnbit F ->
  fval F x <= - mval F b -> sgn F x = true /\ b <= mag F x.
Proof.
  intros Hb H1. pose proof (mag_range F x). pose proof (mval_mono F 0 b ltac:(lia)) as P.
  rewrite mval_0 in P by assumption. pose proof (mval_nonneg F (mag F x) ltac:(lia)).
  unfold fval in H1. destruct (sgn F x); [| lia]. split; [reflexivity |].
  destruct (Z.le_gt_cases b (mag F x)) as [L | G]; [exact L |].
  pose proof (mval_mono F (mag F x) b ltac:(lia)). lia.
Qed.

Lemma expo_ge F `{FmtOk F} a c : c * 2 ^ mbits F <= a -> c <= expo F a.
Proof.
  intros Ha. pose proof (pow_m_pos F). unfold expo. apply Z.div_le_lower_bound; lia.
Qed.

Lemma expo_lt F `{FmtOk F} a c : 0 <= a < c * 2 ^ mbits F -> expo F a < c.
Proof.
  intros Ha. pose proof (pow_m_pos F). unfold expo. apply Z.div_lt_upper_bound; lia.
Qed.

Lemma fadd_one_inf : fadd F64 D1 DINF = DINF.
Proof. reflexivity. Qed.

(** The sign and magnitude of an infinity, and the exponent of the others. *)
Lemma exp_kinds x : is_u 64 x ->
  (isnan F64 x = true -> expo F64 (mag F64 x) = 2047 /\ x <> with_sgn F64 true DINF) /\
  (isinf F64 x = true -> x = with_sgn F64 (sgn F64 x) DINF) /\
  (isfinite F64 x = true -> expo F64 (mag F64 x) < 2047 /\ x <> with_sgn F64 true DINF).
Proof.
  intros U. pose proof (expo_range F64 x) as R. change (emax F64) with 2047 in R.
  unfold isnan, isinf, isfinite. split; [| split]; intros H.
  - apply Z.ltb_lt in H. split.
    + pose proof (expo_ge F64 (mag F64 x) 2047 ltac:(change (inf_mag F64) with (2047 * 2 ^ 52) in H; simpl mbits; lia)). lia.
    + intros ->. vm_compute in H. discriminate.
  - apply Z.eqb_eq in H. rewrite <- (with_sgn_split F64 x U) at 1. rewrite H. reflexivity.
  - apply Z.ltb_lt in H. split.
    + apply (expo_lt F64). pose proof (mag_range F64 x). change (inf_mag F64) with (2047 * 2 ^ 52) in H. simpl mbits. lia.
    + intros ->. vm_compute in H. discriminate.
Qed.

Lemma exp_special x r : is_u 64 x ->
  exp_spec_special F64 (1024 * one_val F64) (-1024 * one_val F64) x = Some r -> exp x = r.
Proof.
  intros U. destruct (exp_kinds x U) as (Kn & Ki & Kf). unfold exp_spec_special.
  rewrite exp_cases by exact U. cbv zeta.
  destruct (isnan F64 x) eqn:Nn.
  { destruct (Kn eq_refl) as [-> Ne]. intros [= <-]. simpl Z.ltb. cbv iota.
    destruct (Z.eqb_spec x (with_sgn F64 true DINF)); [contradiction |]. apply fadd_one_nan, Nn. }
  destruct (isinf F64 x) eqn:Ni.
  { intros [= <-]. rewrite (Ki eq_refl). destruct (sgn F64 x); reflexivity. }
  destruct (Kf (finite_cases' F64 x Nn Ni)) as [Le Ne].
  assert (E1033 : mval F64 (1033 * 2 ^ 52) = 1024 * one_val F64) by (vm_compute; reflexivity).
  assert (Fin : 1033 * 2 ^ 52 <= mag F64 x -> forall (s : bool) c, sgn F64 x = s -> (if s then 0 else DINF) = c ->
    (if expo F64 (mag F64 x) <? 969 then fadd F64 D1 x
     else if expo F64 (mag F64 x) <? 1032 then exp_main x (expo F64 (mag F64 x))
     else if expo F64 (mag F64 x) <? 1033 then exp_main x 0
     else if x =? with_sgn F64 true DINF then 0
     else if 2047 <=? expo F64 (mag F64 x) then fadd F64 D1 x
     else if sgn F64 x then 0 else DINF) = c).
  { intros Hm s c -> <-. pose proof (expo_ge F64 (mag F64 x) 1033 Hm).
    destruct (Z.eqb_spec x (with_sgn F64 true DINF)); [contradiction |]. zbool; lia || reflexivity. }
  destruct (Z.leb_spec (1024 * one_val F64) (fval F64 x)) as [Hi | _].
  { intros [= <-]. destruct (above_bound F64 (1033 * 2 ^ 52) x ltac:(vm_compute; split; reflexivity)
      ltac:(rewrite E1033; exact Hi)) as [Sx Mx]. apply (Fin Mx false); [exact Sx | reflexivity]. }
  destruct (Z.leb_spec (fval F64 x) (-1024 * one_val F64)) as [Lo | _]; [| discriminate].
  intros [= <-]. destruct (below_bound F64 (1033 * 2 ^ 52) x ltac:(vm_compute; split; reflexivity)
      ltac:(rewrite E1033; lia)) as [Sx Mx]. apply (Fin Mx true); [exact Sx | reflexivity].
Qed.

Lemma exp2_special x r : is_u 64 x ->
  exp_spec_special F64 (1024 * one_val F64) (-1075 * one_val F64) x = Some r -> exp2 x = r.
Proof.
  intros U. destruct (exp_kinds x U) as (Kn & Ki & Kf). unfold exp_spec_special.
  rewrite window_guard_exp2 by exact U. cbv zeta.
  pose proof (with_sgn_split F64 x U) as Sp. unfold with_sgn in Sp. pose proof (mag_range F64 x) as Rm.
  change (flit F64 (-1075) 0) with (2 ^ 63 + 0x4090cc0000000000).
  change (sgnbit F64) with (2 ^ 63) in Sp, Rm.
  destruct (isnan F64 x) eqn:Nn.
  { destruct (Kn eq_refl) as [Ee Ne]. unfold isnan in Nn. apply Z.ltb_lt in Nn.
    change (inf_mag F64) with (2047 * 2 ^ 52) in Nn. rewrite Ee. intros [= <-]. simpl Z.ltb at 1 2 3. cbv iota.
    simpl orb. destruct (sgn F64 x) eqn:Sx; [destruct (Z.ltb_spec x (2 ^ 63 + 0x4090cc0000000000)); [lia |] |];
      (destruct (Z.eqb_spec x (with_sgn F64 true DINF)); [contradiction |]; apply fadd_one_nan;
       unfold isnan; apply Z.ltb_lt; exact Nn). }
  destruct (isinf F64 x) eqn:Ni.
  { intros [= <-]. rewrite (Ki eq_refl). destruct (sgn F64 x); reflexivity. }
  destruct (Kf (finite_cases' F64 x Nn Ni)) as [Le Ne].
  assert (E1033 : mval F64 (1033 * 2 ^ 52) = 1024 * one_val F64) by (vm_compute; reflexivity).
  assert (E1075 : mval F64 0x4090cc0000000000 = 1075 * one_val F64) by (vm_compute; reflexivity).
  destruct (Z.leb_spec (1024 * one_val F64) (fval F64 x)) as [Hi | _].
  { intros [= <-]. destruct (above_bound F64 (1033 * 2 ^ 52) x ltac:(vm_compute; split; reflexivity)
      ltac:(rewrite E1033; exact Hi)) as [Sx Mx]. rewrite Sx. pose proof (expo_ge F64 (mag F64 x) 1033 Mx).
    simpl andb. rewrite orb_false_r.
    destruct (Z.eqb_spec x (with_sgn F64 true DINF)); [contradiction |]. zbool; lia || reflexivity. }
  destruct (Z.leb_spec (fval F64 x) (-1075 * one_val F64)) as [Lo | _]; [| discriminate].
  intros [= <-]. destruct (below_bound F64 0x4090cc0000000000 x ltac:(vm_compute; split; reflexivity)
      ltac:(rewrite E1075; lia)) as [Sx Mx]. rewrite Sx in *.
  pose proof (expo_ge F64 (mag F64 x) 1033 ltac:(simpl mbits; lia)). simpl andb.
  destruct (Z.eqb_spec x (with_sgn F64 true DINF)); [contradiction |]. zbool; lia || reflexivity.
Qed.

Lemma abstop_32 x : is_u 32 x -> Z.land (top12f x) 0x7ff = mag F32 x / 2 ^ 20.
Proof.
  unfold is_u. intros U. unfold top12f. change 0x7ff with (Z.ones 11). rewrite Z.land_ones, Z.shiftr_div_pow2 by lia.
  unfold mag. change (sgnbit F32) with (2 ^ 31). Z.to_euclidean_division_equations. lia.
Qed.

Lemma flt_finite_32 x y : isfinite F32 x = true -> isfinite F32 y = true ->
  flt F32 x y = (fval F32 x <? fval F32 y).
Proof. apply flt_finite. exact _. Qed.

Lemma float_double_nan x : isnan F32 x = true -> fadd F32 x x = qnan F32.
Proof. intros N. unfold fadd. rewrite N. reflexivity. Qed.

#[local] Ltac closed_range := vm_compute; split; reflexivity.
#[local] Ltac closed_le := vm_compute; discriminate.

(** Both functions test the top bits, minus infinity, the other non-finite
    numbers, and then two bounds. *)
Lemma expf_special_gen (main : Z -> Z) (t hi_mag lo_mag : Z) (hi_test lo_test : Z -> bool) x r :
  is_u 32 x -> 0 < hi_mag < inf_mag F32 -> 0 < lo_mag < inf_mag F32 ->
  t * 2 ^ 20 <= hi_mag -> t * 2 ^ 20 <= lo_mag -> t <= 0x7f8 ->
  (isfinite F32 x = true -> mval F32 hi_mag <= fval F32 x -> hi_test x = true) ->
  (isfinite F32 x = true -> fval F32 x <= - mval F32 lo_mag -> hi_test x = false /\ lo_test x = true) ->
  exp_spec_special F32 (mval F32 hi_mag) (- mval F32 lo_mag) x = Some r ->
  (if t <=? Z.land (top12f x) 0x7ff then
     if x =? fneg F32 SINF then 0
     else if top12f SINF <=? Z.land (top12f x) 0x7ff then fadd F32 x x
     else if hi_test x then SINF
     else if lo_test x then 0
     else main x
   else main x) = r.
Proof.
  intros U Hh Hl Th Tl T8 HT LT. rewrite abstop_32 by exact U. change (top12f SINF) with 0x7f8.
  change (fneg F32 SINF) with (with_sgn F32 true (inf_mag F32)).
  pose proof (mag_range F32 x) as R. pose proof (with_sgn_split F32 x U) as S.
  pose proof (inf_lt_sgnbit F32) as [_ I].
  assert (Ge : forall c, c * 2 ^ 20 <= mag F32 x -> c <= mag F32 x / 2 ^ 20)
    by (intros c Hc; apply Z.div_le_lower_bound; lia).
  unfold exp_spec_special. destruct (isnan F32 x) eqn:Nn.
  { pose proof Nn as N2. unfold isnan in N2. apply Z.ltb_lt in N2. change (inf_mag F32) with (0x7f8 * 2 ^ 20) in N2.
    pose proof (Ge 0x7f8 ltac:(lia)). intros [= <-].
    destruct (Z.eqb_spec x (with_sgn F32 true (inf_mag F32))) as [-> | _]; [vm_compute in Nn; discriminate |].
    rewrite float_double_nan by exact Nn. zbool; lia || reflexivity. }
  destruct (isinf F32 x) eqn:Ni.
  { intros [= <-]. unfold isinf in Ni. apply Z.eqb_eq in Ni. rewrite Ni in S.
    rewrite Ni. change (inf_mag F32 / 2 ^ 20) with 0x7f8. destruct (Z.leb_spec t 0x7f8); [| lia].
    rewrite <- S. destruct (sgn F32 x); reflexivity. }
  pose proof (finite_cases' F32 x Nn Ni) as Fin. destruct (finite_cases F32 x Fin) as (_ & _ & Lm).
  assert (Lx : mag F32 x / 2 ^ 20 < 0x7f8).
  { apply Z.div_lt_upper_bound; [lia |]. change (inf_mag F32) with (0x7f8 * 2 ^ 20) in Lm. lia. }
  assert (Ne : (x =? with_sgn F32 true (inf_mag F32)) = false).
  { apply Z.eqb_neq. intros ->. vm_compute in Ni. discriminate. }
  rewrite Ne. destruct (Z.leb_spec 0x7f8 (mag F32 x / 2 ^ 20)); [lia |].
  destruct (Z.leb_spec (mval F32 hi_mag) (fval F32 x)) as [Hi | _].
  { intros [= <-]. destruct (above_bound F32 hi_mag x ltac:(lia) Hi) as [_ Mx].
    pose proof (Ge t ltac:(lia)). rewrite (HT Fin Hi). zbool; lia || reflexivity. }
  destruct (Z.leb_spec (fval F32 x) (- mval F32 lo_mag)) as [Lo | _]; [| discriminate].
  intros [= <-]. destruct (below_bound F32 lo_mag x ltac:(lia) Lo) as [_ Mx].
  pose proof (Ge t ltac:(lia)). destruct (LT Fin Lo) as [-> ->]. zbool; lia || reflexivity.
Qed.

(** The bounds of [expf], 88.72 and -103.97: the next number after the ones the
    code compares with. *)
Definition expf_hi : Z := 0x42b17217 + 1.
Definition expf_lo : Z := 0x42cff1b4 + 1.

Lemma expf_special x r : is_u 32 x ->
  exp_spec_special F32 (mval F32 expf_hi) (- mval F32 expf_lo) x = Some r -> expf x = r.
Proof.
  intros U E. unfold expf. change (top12f (flit F32 88 0)) with 0x42b.
  change (flit F32 0x162e42e (-18)) with 0x42b17217. change (flit F32 (-0x19fe368) (-18)) with 0xc2cff1b4.
  change (__math_oflowf 0) with SINF. change (__math_uflowf 0) with 0.
  assert (H1 : fval F32 0x42b17217 < mval F32 expf_hi) by (vm_compute; reflexivity).
  assert (H2 : - mval F32 expf_lo < fval F32 0xc2cff1b4) by (vm_compute; reflexivity).
  assert (H3 : - mval F32 expf_lo < fval F32 0x42b17217) by (vm_compute; reflexivity).
  apply (expf_special_gen (fun x => expf_main (to_double x)) 0x42b expf_hi expf_lo
           (fun x => flt F32 0x42b17217 x) (fun x => flt F32 x 0xc2cff1b4));
    [exact U | closed_range | closed_range | closed_le | closed_le | closed_le | | | exact E].
  - intros Fin Hx. rewrite flt_finite_32 by (exact Fin || reflexivity). apply Z.ltb_lt. lia.
  - intros Fin Hx. rewrite !flt_finite_32 by (exact Fin || reflexivity).
    split; [apply Z.ltb_ge | apply Z.ltb_lt]; lia.
Qed.

Lemma exp2f_special x r : is_u 32 x ->
  exp_spec_special F32 (128 * one_val F32) (-150 * one_val F32) x = Some r -> exp2f x = r.
Proof.
  intros U E. unfold exp2f. change (top12f (flit F32 128 0)) with 0x430.
  change (flit F32 (-150) 0) with 0xc3160000.
  change (__math_oflowf 0) with SINF. change (__math_uflowf 0) with 0.
  assert (H1 : mval F32 0x43000000 = 128 * one_val F32) by (vm_compute; reflexivity).
  assert (H2 : mval F32 0x43160000 = 150 * one_val F32) by (vm_compute; reflexivity).
  assert (H3 : fval F32 0xc3160000 = -150 * one_val F32) by (vm_compute; reflexivity).
  pose proof (one_val_pos F32) as Op. pose proof (zero_finite F32) as [Z0 Zv].
  apply (expf_special_gen (fun x => exp2f_main (to_double x) 0) 0x430 0x43000000 0x43160000
           (fun x => flt F32 0 x) (fun x => fle F32 x 0xc3160000));
    [exact U | closed_range | closed_range | closed_le | closed_le | closed_le | | |].
  - intros Fin Hx. rewrite flt_finite_32 by (exact Fin || exact Z0). apply Z.ltb_lt. lia.
  - intros Fin Hx. rewrite !flt_finite_32 by (exact Fin || exact Z0).
    split; [apply Z.ltb_ge; lia |]. unfold fle. destruct (finite_cases F32 x Fin) as (-> & _).
    change (isnan F32 0xc3160000) with false. simpl andb. apply Z.leb_le. lia.
  - rewrite H1, H2. exact E.
Qed.

Lemma rne_near n q k : 0 <= k -> 2 * Z.abs (n - q * 2 ^ k) < 2 ^ k -> rne n k = q.
Proof.
  intros Hk H. destruct (rne_nearest n k Hk) as [A _]. pose proof (Z.pow_pos_nonneg 2 k ltac:(lia) Hk).
  nia.
Qed.

(** Adding a number below 2^-54 to one does nothing. *)
Lemma fadd_one_tiny x : isfinite F64 x = true -> expo F64 (mag F64 x) < 969 -> fadd F64 D1 x = D1.
Proof.
  intros Fin He. destruct (finite_cases F64 x Fin) as (Nn & Ni & _). pose proof (mag_range F64 x) as R.
  assert (V : Z.abs (fval F64 x) < 2 ^ 1020).
  { rewrite fval_abs by exact F64_ok. apply Z.lt_le_trans with (mval F64 (969 * 2 ^ 52)).
    - destruct (expo_frac F64 (mag F64 x) ltac:(lia)) as (Ef & _ & Fr).
      apply mval_mono; [exact F64_ok |]. simpl mbits in *. lia.
    - vm_compute. discriminate. }
  unfold fadd. rewrite Nn, Ni. change (isnan F64 D1) with false. change (isinf F64 D1) with false.
  change (fval F64 D1) with (2 ^ 1074). change (sgn F64 D1) with false. simpl orb. cbv iota zeta.
  set (v := fval F64 x) in *. clearbody v.
  assert (P : 2 ^ 1020 < 2 ^ 1073) by (apply Z.pow_lt_mono_r; lia).
  assert (P2 : 2 ^ 1074 = 2 * 2 ^ 1073) by (rewrite <- Z.pow_succ_r by lia; reflexivity).
  destruct (Z.eqb_spec (2 ^ 1074 + v) 0) as [? | _]; [lia |].
  destruct (Z.ltb_spec (2 ^ 1074 + v) 0) as [? | _]; [lia |].
  rewrite Z.abs_eq by lia. change (with_sgn F64 false) with (fun a : Z => a). cbv beta.
  set (n := 2 ^ 1074 + v). unfold round_mag. simpl mbits.
  destruct (Z.lt_ge_cases v 0) as [Neg | Pos].
  - assert (L : Z.log2 n = 1073) by (apply Z.log2_unique; [lia |]; change (Z.succ 1073) with 1074; lia).
    rewrite L. change (Z.max 0 (1073 + 0 - 52)) with 1021. change (1021 <=? 0) with false. cbv iota.
    rewrite (rne_near n (2 ^ 53)); [reflexivity | lia |].
    replace (2 ^ 53 * 2 ^ (1021 - 0)) with (2 ^ 1074) by (rewrite <- Z.pow_add_r by lia; reflexivity).
    change (1021 - 0) with (Z.succ 1020). rewrite Z.pow_succ_r by lia. lia.
  - assert (L : Z.log2 n = 1074).
    { apply Z.log2_unique; [lia |]. change (Z.succ 1074) with 1075.
      assert (2 ^ 1075 = 2 * 2 ^ 1074) by (rewrite <- Z.pow_succ_r by lia; reflexivity). lia. }
    rewrite L. change (Z.max 0 (1074 + 0 - 52)) with 1022. change (1022 <=? 0) with false. cbv iota.
    rewrite (rne_near n (2 ^ 52)); [reflexivity | lia |].
    replace (2 ^ 52 * 2 ^ (1022 - 0)) with (2 ^ 1074) by (rewrite <- Z.pow_add_r by lia; reflexivity).
    assert (2 ^ (1022 - 0) = 4 * 2 ^ 1020) by (change 4 with (2 ^ 2); rewrite <- Z.pow_add_r by lia; reflexivity).
    lia.
Qed.

Lemma tiny_expo x : isfinite F64 x = true -> Z.abs (fval F64 x) * 2 ^ 54 < one_val F64 ->
  expo F64 (mag F64 x) < 969.
Proof.
  intros Fin H. rewrite fval_abs in H by exact F64_ok. pose proof (mag_range F64 x) as R.
  destruct (Z.lt_ge_cases (expo F64 (mag F64 x)) 969) as [L | G]; [exact L |]. exfalso.
  destruct (expo_frac F64 (mag F64 x) ltac:(lia)) as (Ef & _ & Fr).
  assert (M : mval F64 (969 * 2 ^ 52) <= mval F64 (mag F64 x)).
  { destruct (Z.eq_dec (969 * 2 ^ 52) (mag F64 x)) as [<- | N]; [lia |].
    apply Z.lt_le_incl, mval_mono; [exact F64_ok |]. simpl mbits in *. lia. }
  assert (C : mval F64 (969 * 2 ^ 52) * 2 ^ 54 = one_val F64) by (vm_compute; reflexivity). lia.
Qed.

(** the exponentials on the arguments that are not reduced: NaN at NaN, plus
    zero at minus infinity, infinity at infinity; infinity from 1024 on and plus
    zero from -1024 ([exp]) or -1075 ([exp2]) down; the same with the bounds of the
    code for [expf] and with 128 and -150 for [exp2f]; and exactly one for every
    argument below 2^-54 in magnitude, zero included, for [exp] and [exp2]. *)
Theorem exp_special_values :
  (forall x r, is_u 64 x ->
     exp_spec_special F64 (1024 * one_val F64) (-1024 * one_val F64) x = Some r -> exp x = r) /\
  (forall x r, is_u 64 x ->
     exp_spec_special F64 (1024 * one_val F64) (-1075 * one_val F64) x = Some r -> exp2 x = r) /\
  (forall x r, is_u 32 x ->
     exp_spec_special F32 (mval F32 expf_hi) (- mval F32 expf_lo) x = Some r -> expf x = r) /\
  (forall x r, is_u 32 x ->
     exp_spec_special F32 (128 * one_val F32) (-150 * one_val F32) x = Some r -> exp2f x = r) /\
  (forall x, is_u 64 x -> isfinite F64 x = true -> Z.abs (fval F64 x) * 2 ^ 54 < one_val F64 ->
     exp x = D1 /\ exp2 x = D1).
Proof.
  split; [exact exp_special |]. split; [exact exp2_special |]. split; [exact expf_special |].
  split; [exact exp2f_special |]. intros x U Fin H. pose proof (tiny_expo x Fin H) as L.
  rewrite exp_cases, window_guard_exp2 by exact U. cbv zeta.
  destruct (Z.ltb_spec (expo F64 (mag F64 x)) 969); [| lia]. split; apply fadd_one_tiny; assumption.
Qed.

Lemma exp_special_values_witness :
  exp 0x4090000000000000 = DINF /\ exp2 0xc090cc0000000000 = 0 /\ exp 0x3c80000000000000 = D1.
Proof.
  split; [| split].
  - refine (proj1 exp_special_values 0x4090000000000000 _ _ _); [unfold is_u; lia | vm_compute; reflexivity].
  - refine (proj1 (proj2 exp_special_values) 0xc090cc0000000000 _ _ _);
      [unfold is_u; lia | vm_compute; reflexivity].
  - refine (proj1 (proj2 (proj2 (proj2 (proj2 exp_special_values))) 0x3c80000000000000 _ _ _));
      [unfold is_u; lia | vm_compute; reflexivity | vm_compute; reflexivity].
Defined.

(** ** The tables *)

(** [z * invc] is within [1/b] of one, [z] in format [F]. *)
Definition centred (F : fmt) (b z invc : Z) : bool :=
  let one := one_val F * one_val F64 in
  Z.abs (mval F z * mval F64 invc - one) * b <? one.

(** At both ends of the [i]th subinterval. *)
Definition ends_centred (F : fmt) (off tb b : Z) (inv : Z -> Z) (i : Z) : bool :=
  centred F b (off + i * 2 ^ (mbits F - tb)) (inv i) &&
  centred F b (off + (i + 1) * 2 ^ (mbits F - tb)) (inv i).

Lemma centred_between F `{FmtOk F} b lo hi z c : 0 < b -> 0 <= c -> 0 <= lo <= z -> z <= hi ->
  centred F b lo c = true -> centred F b hi c = true -> centred F b z c = true.
Proof.
  unfold centred. intros Hb Hc Hl Hh A B. apply Z.ltb_lt in A, B. apply Z.ltb_lt.
  assert (M : forall p q, 0 <= p <= q -> mval F p <= mval F q).
  { intros p q Hq. destruct (Z.eq_dec p q) as [-> | N]; [lia |].
    apply Z.lt_le_incl, mval_mono; [assumption | lia]. }
  pose proof (M lo z ltac:(lia)) as M1. pose proof (M z hi ltac:(lia)) as M2.
  pose proof (mval_nonneg F64 c Hc) as Pc. set (one := one_val F * one_val F64) in *.
  pose proof (Z.mul_le_mono_nonneg_r _ _ _ Pc M1). pose proof (Z.mul_le_mono_nonneg_r _ _ _ Pc M2).
  clearbody one. generalize dependent (mval F z * mval F64 c).
  generalize dependent (mval F lo * mval F64 c). generalize dependent (mval F hi * mval F64 c).
  clear -Hb. intros. nia.
Qed.

Lemma table_centred F `{FmtOk F} off tb b inv x ix : 0 < b -> 0 <= off -> 0 <= tb <= mbits F ->
  check_range 0 (2 ^ tb) (ends_centred F off tb b inv) = true ->
  check_range 0 (2 ^ tb) (fun i => 0 <=? inv i) = true ->
  reduction_ok F off tb x ix ->
  let '(i, _, iz) := log_reduce F off tb ix in centred F b iz (inv i) = true.
Proof.
  intros Hb Ho Ht C C0. unfold reduction_ok. destruct (log_reduce F off tb ix) as [[i k] iz].
  intros (Hi & _ & Hz & _). pose proof (range_check 0 _ _ C i ltac:(lia)) as E.
  pose proof (range_check 0 _ _ C0 i ltac:(lia)) as E0. apply Z.leb_le in E0.
  apply andb_prop in E as [A B]. pose proof (Z.pow_pos_nonneg 2 (mbits F - tb) ltac:(lia) ltac:(lia)).
  apply (centred_between F b (off + i * 2 ^ (mbits F - tb)) (off + (i + 1) * 2 ^ (mbits F - tb))); try assumption.
  - split; [nia | lia].
  - lia.
Qed.

Definition log_invc (i : Z) : Z := znth 0 log_tab (2 * i).
Definition log2_invc (i : Z) : Z := znth 0 log2_tab (2 * i).
Definition pow_invc (i : Z) : Z := znth 0 pow_log_tab (3 * i).
Definition logf_invc (i : Z) : Z := znth 0 logf_tab (2 * i).
Definition log2f_invc (i : Z) : Z := znth 0 log2f_tab (2 * i).
Definition powf_invc (i : Z) : Z := znth 0 powf_log2_tab (2 * i).

(** The two-word [c] of [tab2] is the inverse of [invc] to 107 bits. *)
Definition inverse_ok (tab tab2 : list Z) (i : Z) : bool :=
  let one := one_val F64 * one_val F64 in
  Z.abs ((fval F64 (znth 0 tab2 (2 * i)) + fval F64 (znth 0 tab2 (2 * i + 1)))
         * fval F64 (znth 0 tab (2 * i)) - one) * 2 ^ 107 <? one.

(** [H] and [T] of [exp_data.c], as values: 2^(k/128) is [H (1 + T)]. *)
Definition exp_head (k : Z) : Z := fval F64 (exp_T (2 * k + 1) + Z.shiftl k 45).
Definition exp_tail (k : Z) : Z := fval F64 (exp_T (2 * k)).

(** Bounds of the [2^n]th power of a number known between [lo] and [hi], in
    units of 2^-128. *)
Fixpoint pow_bounds (n : nat) (lo hi : Z) : Z * Z :=
  match n with
  | O => (lo, hi)
  | S n => pow_bounds n (Z.shiftr (lo * lo) 128) (Z.shiftr (hi * hi) 128 + 1)
  end.

Lemma pow_bounds_sound n : forall h s lo hi, 0 <= lo -> 0 < s -> 0 <= h ->
  lo * s <= h * 2 ^ 128 <= hi * s ->
  let '(l, u) := pow_bounds n lo hi in
  let e := 2 ^ Z.of_nat n in
  l * s ^ e <= h ^ e * 2 ^ 128 <= u * s ^ e.
Proof.
  induction n as [| n IH]; intros h s lo hi Hl Hs Hh B; simpl pow_bounds.
  { cbv iota beta zeta. change (2 ^ Z.of_nat 0) with 1. rewrite !Z.pow_1_r. exact B. }
  rewrite !Z.shiftr_div_pow2 by lia.
  assert (Q : 0 < 2 ^ 128) by lia. set (q := 2 ^ 128) in *. clearbody q.
  pose proof (Z.div_mod (lo * lo) q ltac:(lia)) as D1. pose proof (Z.mod_pos_bound (lo * lo) q Q).
  pose proof (Z.div_mod (hi * hi) q ltac:(lia)) as D2. pose proof (Z.mod_pos_bound (hi * hi) q Q).
  assert (Sq : lo * lo * (s * s) <= h * h * q * q <= hi * hi * (s * s)).
  { assert (0 <= lo * s) by nia. split.
    - replace (lo * lo * (s * s)) with ((lo * s) * (lo * s)) by ring.
      replace (h * h * q * q) with ((h * q) * (h * q)) by ring. apply Z.mul_le_mono_nonneg; lia.
    - replace (hi * hi * (s * s)) with ((hi * s) * (hi * s)) by ring.
      replace (h * h * q * q) with ((h * q) * (h * q)) by ring. apply Z.mul_le_mono_nonneg; lia. }
  assert (0 < s * s) by nia.
  specialize (IH (h * h) (s * s) (lo * lo / q) (hi * hi / q + 1)).
  assert (L : q * (lo * lo / q) * (s * s) <= h * h * q * q).
  { apply Z.le_trans with (lo * lo * (s * s)); [| lia]. apply Z.mul_le_mono_nonneg_r; lia. }
  assert (R : h * h * q * q <= q * (hi * hi / q + 1) * (s * s)).
  { apply Z.le_trans with (hi * hi * (s * s)); [lia |]. apply Z.mul_le_mono_nonneg_r; lia. }
  assert (0 <= lo * lo / q) by (apply Z.div_pos; nia).
  specialize (IH ltac:(assumption) ltac:(assumption) ltac:(nia)).
  assert (B2 : lo * lo / q * (s * s) <= h * h * q <= (hi * hi / q + 1) * (s * s)).
  { split; apply (Zmult_le_reg_r _ _ q); lia. }
  specialize (IH B2). destruct (pow_bounds n (lo * lo / q) (hi * hi / q + 1)) as [l u]. cbv zeta in IH |- *.
  rewrite Nat2Z.inj_succ, Z.pow_succ_r by lia. rewrite !Z.pow_mul_r by lia.
  rewrite !Z.pow_2_r. exact IH.
Qed.

(** [H (1 + T)] in units of 2^-2148, and the check of its 128th power. *)
Definition exp_entry (k : Z) : Z := exp_head k * (one_val F64 + exp_tail k).

Definition exp_entry_ok (k : Z) : bool :=
  let lo := Z.shiftr (exp_entry k) 2020 in
  let '(l, u) := pow_bounds 7 lo (lo + 1) in
  let w := 2 ^ k * 2 ^ 128 in
  (0 <=? lo) && (0 <=? exp_entry k) && (Z.abs (l - w) * 2 ^ 100 <? w) && (Z.abs (u - w) * 2 ^ 100 <? w).

Lemma near_scaled l u w v s c : 0 < s -> 0 < c -> l * s <= v <= u * s ->
  Z.abs (l - w) * c < w -> Z.abs (u - w) * c < w -> Z.abs (v - w * s) * c < w * s.
Proof.
  intros Hs Hc Hv Hl Hu.
  assert (A : (w * s - v) * c < w * s).
  { apply Z.le_lt_trans with ((w - l) * c * s); [nia |]. apply Z.mul_lt_mono_pos_r; nia. }
  assert (B : (v - w * s) * c < w * s).
  { apply Z.le_lt_trans with ((u - w) * c * s); [nia |]. apply Z.mul_lt_mono_pos_r; nia. }
  destruct (Z.abs_spec (v - w * s)) as [[_ ->] | [_ ->]]; lia.
Qed.

Lemma exp_entry_accurate k : exp_entry_ok k = true ->
  let s := one_val F64 * one_val F64 in
  Z.abs (exp_entry k ^ 128 - 2 ^ k * s ^ 128) * 2 ^ 100 < 2 ^ k * s ^ 128.
Proof.
  intros E s. unfold exp_entry_ok in E. rewrite Z.shiftr_div_pow2 in E by lia. set (h := exp_entry k) in *. set (lo := h / 2 ^ 2020) in *.
  assert (S : s = 2 ^ 2020 * 2 ^ 128) by (unfold s, one_val; rewrite <- !Z.pow_add_r by (vm_compute; discriminate); reflexivity).
  pose proof (Z.pow_pos_nonneg 2 2020 ltac:(lia) ltac:(lia)) as P.
  pose proof (pow_bounds_sound 7 h s lo (lo + 1)) as B.
  destruct (pow_bounds 7 lo (lo + 1)) as [l u]. apply andb_prop in E as [E U4].
  apply andb_prop in E as [E L3]. apply andb_prop in E as [E1 E2]. apply Z.leb_le in E1, E2.
  apply Z.ltb_lt in L3, U4. pose proof (Z.div_mod h (2 ^ 2020) ltac:(lia)) as D.
  pose proof (Z.mod_pos_bound h (2 ^ 2020) P) as M. fold lo in D.
  assert (Q : 0 < 2 ^ 128) by lia. assert (0 < s) by nia.
  assert (Hb : lo * s <= h * 2 ^ 128 <= (lo + 1) * s).
  { rewrite S. set (p := 2 ^ 2020) in *. set (q := 2 ^ 128) in *. clearbody p q. nia. }
  specialize (B E1 ltac:(assumption) E2 Hb). change (2 ^ Z.of_nat 7) with 128 in B. cbv zeta in B.
  pose proof (Z.pow_pos_nonneg s 128 ltac:(assumption) ltac:(lia)) as Ps.
  pose proof (near_scaled l u (2 ^ k * 2 ^ 128) (h ^ 128 * 2 ^ 128) (s ^ 128) (2 ^ 100) Ps ltac:(lia) B L3 U4) as N.
  replace (2 ^ k * 2 ^ 128 * s ^ 128) with (2 ^ k * s ^ 128 * 2 ^ 128) in N by ring.
  rewrite <- Z.mul_sub_distr_r, Z.abs_mul, (Z.abs_eq (2 ^ 128)) in N by discriminate.
  apply (Z.mul_lt_mono_pos_r (2 ^ 128) _ _ Q).
  rewrite <- Z.mul_assoc, (Z.mul_comm (2 ^ 100)), Z.mul_assoc. exact N.
Qed.

(** The table of [exp], [exp2] and [pow].  For every index [k] the head and tail
    entries give 2^(k/128): the 128th power of [H (1 + T)] equals [2^k] to a
    relative error below 2^-100, so each entry is right to about 107 bits. *)
Theorem exp_table_accurate k (Hk : 0 <= k < 128) :
  let s := one_val F64 * one_val F64 in
  Z.abs (exp_entry k ^ 128 - 2 ^ k * s ^ 128) * 2 ^ 100 < 2 ^ k * s ^ 128.
Proof.
  assert (C : check_range 0 128 exp_entry_ok = true) by by_vm.
  apply exp_entry_accurate, (range_check 0 128 exp_entry_ok C k Hk).
Qed.

Lemma exp_table_accurate_witness :
  let s := one_val F64 * one_val F64 in
  Z.abs (exp_entry 37 ^ 128 - 2 ^ 37 * s ^ 128) * 2 ^ 100 < 2 ^ 37 * s ^ 128.
Proof. apply (exp_table_accurate 37). lia. Defined.

(** The tables of the logarithms fit the argument reduction.  For every reduced
    argument, [z * invc] is within [1/(2N)] of one for [log], [log2] (and within
    [1/N] for [pow]), and for [logf], [log2f] and [powf], so the polynomials are used
    inside their intervals; and the two-word centre of [tab2] is the inverse of
    [invc] to 107 bits at every index. *)
Theorem log_tables_fit :
  (forall x ix, is_u 64 x -> log_special x = inr ix ->
     (let '(i, _, z) := log_reduce F64 0x3fe6000000000000 7 ix in centred F64 256 z (log_invc i) = true) /\
     (let '(i, _, z) := log_reduce F64 0x3fe6000000000000 6 ix in centred F64 128 z (log2_invc i) = true) /\
     (let '(i, _, z) := log_reduce F64 0x3fe6955500000000 7 ix in centred F64 128 z (pow_invc i) = true)) /\
  (forall x ix, is_u 32 x -> logf_special x = inr ix ->
     let '(i, _, z) := log_reduce F32 0x3f330000 4 ix in
     centred F32 32 z (logf_invc i) = true /\ centred F32 32 z (log2f_invc i) = true /\
     centred F32 32 z (powf_invc i) = true) /\
  (forall i, 0 <= i < 128 -> inverse_ok log_tab log_tab2 i = true) /\
  (forall i, 0 <= i < 64 -> inverse_ok log2_tab log2_tab2 i = true).
Proof.
  split; [| split; [| split]].
  - intros x ix U E. destruct (reduction_64 x ix U E) as (A & B & C).
    split; [| split].
    + apply (table_centred F64 _ 7 256 log_invc x ix); [lia | lia | cbn [mbits F64 F32]; lia | by_vm | by_vm | exact A].
    + apply (table_centred F64 _ 6 128 log2_invc x ix); [lia | lia | cbn [mbits F64 F32]; lia | by_vm | by_vm | exact B].
    + apply (table_centred F64 _ 7 128 pow_invc x ix); [lia | lia | cbn [mbits F64 F32]; lia | by_vm | by_vm | exact C].
  - intros x ix U E. pose proof (reduction_32 x ix U E) as A.
    pose proof (table_centred F32 0x3f330000 4 32 logf_invc x ix ltac:(lia) ltac:(lia) ltac:(cbn [mbits F64 F32]; lia) ltac:(by_vm) ltac:(by_vm) A) as T1.
    pose proof (table_centred F32 0x3f330000 4 32 log2f_invc x ix ltac:(lia) ltac:(lia) ltac:(cbn [mbits F64 F32]; lia) ltac:(by_vm) ltac:(by_vm) A) as T2.
    pose proof (table_centred F32 0x3f330000 4 32 powf_invc x ix ltac:(lia) ltac:(lia) ltac:(cbn [mbits F64 F32]; lia) ltac:(by_vm) ltac:(by_vm) A) as T3.
    destruct (log_reduce F32 0x3f330000 4 ix) as [[i k] z]. auto.
  - apply (range_check 0 128). by_vm.
  - apply (range_check 0 64). by_vm.
Qed.

(** The argument 10, and the float 0.1. *)
Lemma log_tables_fit_witness :
  (let '(i, _, z) := log_reduce F64 0x3fe6000000000000 7 0x4024000000000000 in
   centred F64 256 z (log_invc i) = true) /\
  (let '(i, _, z) := log_reduce F32 0x3f330000 4 0x3dcccccd in
   centred F32 32 z (logf_invc i) = true /\ centred F32 32 z (log2f_invc i) = true /\
   centred F32 32 z (powf_invc i) = true) /\
  inverse_ok log_tab log_tab2 5 = true.
Proof.
  split; [| split].
  - refine (proj1 (proj1 log_tables_fit 0x4024000000000000 0x4024000000000000 _ _));
      [unfold is_u; lia | vm_compute; reflexivity].
  - refine (proj1 (proj2 log_tables_fit) 0x3dcccccd 0x3dcccccd _ _);
      [unfold is_u; lia | vm_compute; reflexivity].
  - refine (proj1 (proj2 (proj2 log_tables_fit)) 5 _). lia.
Defined.

(** ** Special values of the powers *)

(** [checkint] tells the integers apart: for every nonzero number of either
    format it returns 0 exactly when the number is not an integer, 1 exactly for
    an odd and 2 for an even integer. *)
Theorem checkint_correct F y (HF : F = F64 \/ F = F32) (U : is_u (width F) y) (Nz : mag F y <> 0) :
  checkint_gen F y = if is_int F y then if is_odd_int F y then 1 else 2 else 0.
Proof. destruct HF as [-> | ->]; apply checkint_val; assumption || exact _. Qed.

(** -7.0, and 2.5f. *)
Lemma checkint_correct_witness : checkint_gen F64 0xc01c000000000000 = 1 /\ checkint_gen F32 0x40200000 = 0.
Proof.
  split.
  - rewrite (checkint_correct F64 0xc01c000000000000); [vm_compute; reflexivity | left; reflexivity | |].
    + vm_compute. split; [discriminate | reflexivity].
    + vm_compute. discriminate.
  - rewrite (checkint_correct F32 0x40200000); [vm_compute; reflexivity | right; reflexivity | |].
    + vm_compute. split; [discriminate | reflexivity].
    + vm_compute. discriminate.
Defined.

(** Annex F.10.4.4 of the C standard, except the finite arguments whose power is
    computed. *)
Definition pow_spec_special (F : fmt) (x y : Z) : option Z :=
  let one := flit F 1 0 in
  if mag F y =? 0 then Some one
  else if x =? one then Some one
  else if isnan F x || isnan F y then Some (qnan F)
  else if isinf F y then
    Some (if mag F x =? one then one
          else if Bool.eqb (mag F x <? one) (sgn F y) then inf_mag F else 0)
  else if (mag F x =? 0) || isinf F x then
    Some (with_sgn F (sgn F x && is_odd_int F y)
            (if Bool.eqb (mag F x =? 0) (sgn F y) then inf_mag F else 0))
  else if sgn F x && negb (is_int F y) then Some (qnan F)
  else None.

(** Equal, or both NaN. *)
Definition same_result (F : fmt) (r s : Z) : bool := (r =? s) || isnan F r && isnan F s.

(** Zero, infinite or NaN. *)
Definition nonregular (F : fmt) (x : Z) : bool := (mag F x =? 0) || (inf_mag F <=? mag F x).

Section PowSpecial.
Context (F : fmt) {HF : FmtOk F} (HC : F = F64 \/ F = F32).

Abbreviation W := (width F).
Abbreviation one := (flit F 1 0).

Definition special_y (x y : Z) : Z :=
  if mag F y =? 0 then one
  else if x =? one then one
  else if isnan F x || isnan F y then fadd F x y
  else if mag F x =? one then one
  else if Bool.eqb (mag F x <? one) (negb (sgn F y)) then 0
  else fmul F y y.

Definition special_x (x y : Z) : Z :=
  let x2 := fmul F x x in
  let x2 := if sgn F x && (checkint_gen F y =? 1) then fneg F x2 else x2 in
  if sgn F y then fdiv F one x2 else x2.

Lemma zeroinfnan_eq x : is_u W x -> zeroinfnan_gen F x = nonregular F x.
Proof using HF.
  intros U. unfold zeroinfnan_gen, nonregular. pose proof (mag_range F x) as R.
  pose proof (inf_lt_sgnbit F) as [I1 I2]. pose proof (pow_m_pos F). pose proof (width_eq F) as Wq.
  rewrite (double_zero F x) by exact U. rewrite (wrapu_small W (2 * inf_mag F)) by (unfold is_u; lia).
  destruct (Z.eqb_spec (mag F x) 0) as [-> | N].
  - simpl orb. unfold wrapu. replace (2 * 0 - 1) with (2 ^ W - 1 + (-1) * 2 ^ W) by lia.
    rewrite Z.mod_add, Z.mod_small by lia. apply Z.leb_le. lia.
  - rewrite wrapu_small by (unfold is_u; lia). simpl orb. apply Bool.eq_iff_eq_true. rewrite !Z.leb_le. lia.
Qed.

Lemma same_refl r : same_result F r r = true.
Proof using. unfold same_result. rewrite Z.eqb_refl. reflexivity. Qed.

Lemma qnan_nan : isnan F (qnan F) = true.
Proof using HC HF. destruct HC as [-> | ->]; reflexivity. Qed.

Lemma inf_square y : isnan F y = false -> isinf F y = true -> fmul F y y = inf_mag F.
Proof using HC HF.
  intros N I. unfold fmul. rewrite N, I, xorb_nilpotent. simpl orb. cbv iota. unfold isinf in I.
  apply Z.eqb_eq in I. rewrite I. destruct HC as [-> | ->]; reflexivity.
Qed.

Lemma zero_square x : mag F x = 0 -> fmul F x x = 0.
Proof using HC HF.
  intros M. unfold fmul, isnan, isinf. rewrite M, xorb_nilpotent. destruct HC as [-> | ->]; reflexivity.
Qed.

Lemma special_y_spec x y r : nonregular F y = true -> pow_spec_special F x y = Some r ->
  same_result F (special_y x y) r = true.
Proof using HC HF.
  intros Ny. unfold pow_spec_special, special_y. cbv zeta.
  destruct (mag F y =? 0) eqn:Zy; [intros [= <-]; apply same_refl |].
  destruct (x =? one); [intros [= <-]; apply same_refl |].
  destruct (isnan F x || isnan F y) eqn:Nn.
  { intros [= <-]. unfold fadd. rewrite Nn. apply same_refl. }
  apply orb_false_elim in Nn as [Nx Nny]. assert (Iy : isinf F y = true).
  { unfold nonregular in Ny. rewrite Zy in Ny. unfold isnan in Nny. unfold isinf. simpl in Ny.
    zbool; lia || discriminate || reflexivity. }
  rewrite Iy. intros [= <-]. destruct (mag F x =? one); [apply same_refl |].
  rewrite inf_square by assumption.
  destruct (mag F x <? one), (sgn F y); apply same_refl.
Qed.

Lemma special_x_spec x y r : is_u W y -> nonregular F y = false -> nonregular F x = true ->
  pow_spec_special F x y = Some r -> x <> one -> same_result F (special_x x y) r = true.
Proof using HC HF.
  intros Uy Ny Nx. unfold pow_spec_special, special_x. cbv zeta.
  unfold nonregular in Ny. apply orb_false_elim in Ny as [Zy Gy]. rewrite Zy. apply Z.leb_gt in Gy.
  assert (Nny : isnan F y = false) by (unfold isnan; apply Z.ltb_ge; lia).
  assert (Niy : isinf F y = false) by (unfold isinf; apply Z.eqb_neq; lia).
  rewrite Nny, Niy, orb_false_r. intros E N1. destruct (Z.eqb_spec x one); [contradiction |].
  destruct (isnan F x) eqn:Nnx.
  { injection E as <-. unfold fmul. rewrite Nnx. simpl orb. cbv iota. unfold same_result.
    rewrite qnan_nan. destruct HC as [-> | ->]; destruct (sgn _ x && _), (sgn _ y); reflexivity. }
  assert (K : (mag F x =? 0) || isinf F x = true).
  { unfold nonregular in Nx. unfold isnan in Nnx. unfold isinf. zbool; try lia; assumption || reflexivity. }
  rewrite K in E. injection E as <-.
  assert (C1 : (checkint_gen F y =? 1) = is_odd_int F y).
  { rewrite checkint_val by (exact HF || exact Uy || (intros E0; rewrite E0 in Zy; discriminate)).
    unfold is_odd_int. destruct (is_int F y); [| reflexivity]. simpl.
    destruct (Z.odd (fval F y / one_val F)); reflexivity. }
  rewrite C1. destruct (Z.eqb_spec (mag F x) 0) as [M | M].
  - rewrite zero_square by exact M. destruct HC as [-> | ->];
      destruct (sgn _ x && is_odd_int _ y), (sgn _ y); reflexivity.
  - simpl in K. rewrite inf_square by assumption.
    destruct HC as [-> | ->]; destruct (sgn _ x && is_odd_int _ y), (sgn _ y); reflexivity.
Qed.
End PowSpecial.

Lemma twice_64 x : is_u 64 x -> u64 (2 * x) = 2 * mag F64 x.
Proof. exact (double_zero F64 x). Qed.
Lemma twice_32 x : is_u 32 x -> u32 (2 * x) = 2 * mag F32 x.
Proof. exact (double_zero F32 x). Qed.

Lemma twice_eqb a b : (2 * a =? 2 * b) = (a =? b).
Proof. apply Bool.eq_iff_eq_true. rewrite !Z.eqb_eq. lia. Qed.
Lemma twice_ltb a b : (2 * a <? 2 * b) = (a <? b).
Proof. apply Bool.eq_iff_eq_true. rewrite !Z.ltb_lt. lia. Qed.
Lemma twice_zero a : (2 * a =? 0) = (a =? 0).
Proof. exact (twice_eqb a 0). Qed.

Lemma pos_test_64 x : is_u 64 x -> (Z.shiftr x 63 =? 0) = negb (sgn F64 x).
Proof. intros U. rewrite <- (neg_test_64 x U), negb_involutive. reflexivity. Qed.

Lemma pow_special_y_eq x y : is_u 64 x -> is_u 64 y -> pow_special_y x y = special_y F64 x y.
Proof.
  intros Ux Uy. unfold pow_special_y, special_y. cbv zeta. rewrite (twice_64 x Ux), (twice_64 y Uy).
  rewrite pos_test_64 by exact Uy. rewrite twice_zero.
  change (u64 (2 * DINF)) with (2 * inf_mag F64). change (u64 (2 * D1)) with (2 * D1).
  rewrite !twice_ltb, twice_eqb. reflexivity.
Qed.

Lemma powf_special_y_eq x y : is_u 32 x -> is_u 32 y -> powf_special_y x y = special_y F32 x y.
Proof.
  intros Ux Uy. unfold powf_special_y, special_y. cbv zeta. rewrite (twice_32 x Ux), (twice_32 y Uy).
  rewrite twice_zero. change (u32 (2 * 0x7f800000)) with (2 * inf_mag F32).
  change 0x3f800000 with S1. change (u32 (2 * S1)) with (2 * S1). rewrite !twice_ltb, twice_eqb.
  rewrite <- (sign_land_32 y Uy), negb_involutive. reflexivity.
Qed.

Lemma pow_special_x_eq x y : is_u 64 x -> is_u 64 y -> pow_special_x x y = special_x F64 x y.
Proof.
  intros Ux Uy. unfold pow_special_x, special_x. rewrite (neg_test_64 x Ux), (neg_test_64 y Uy). reflexivity.
Qed.

Lemma powf_special_x_eq x y : is_u 32 x -> is_u 32 y -> powf_special_x x y = special_x F32 x y.
Proof.
  intros Ux Uy. unfold powf_special_x, special_x. rewrite (sign_land_32 x Ux), (sign_land_32 y Uy). reflexivity.
Qed.

(** The power of one, when it is computed. *)
Lemma pow_main_one y : is_u 64 y -> isfinite F64 y = true -> pow_main D1 y 0 = D1.
Proof.
  intros U Fin. unfold pow_main.
  assert (L : log_inline D1 = (0, 0)) by (vm_compute; reflexivity). rewrite L.
  change (head 0 27) with 0.
  assert (E : exists s, fmul F64 (head y 27) 0 = with_sgn F64 s 0).
  { destruct (clear_low F64 y 27 U ltac:(unfold width; simpl; lia)) as [C1 C2].
    assert (H : head y 27 = y - y mod 2 ^ 27).
    { unfold head. change (shl64 (umax 64) 27) with (2 ^ 64 - 2 ^ 27).
      unfold is_u in U. rewrite <- ldiff_low by lia.
      replace (2 ^ 27 - 1) with (Z.ones 27) by reflexivity.
      change (2 ^ 64 - 2 ^ 27) with (Z.ldiff (Z.ones 64) (Z.ones 27)).
      apply Z.bits_inj'. intros i Hi. rewrite Z.land_spec, !Z.ldiff_spec.
      destruct (Z.lt_ge_cases i 64) as [Lt | G]; [rewrite (Z.ones_spec_low 64) by lia; reflexivity |].
      rewrite <- (Z.mod_small y (2 ^ 64)) by lia. rewrite Z.mod_pow2_bits_high by lia. reflexivity. }
    rewrite H, C1. set (a := mag F64 y - mag F64 y mod 2 ^ 27) in *.
    destruct (with_sgn_mag_sgn F64 (sgn F64 y) a C2) as (Ma & Sa & _).
    destruct (finite_cases F64 y Fin) as (_ & _ & Lt).
    pose proof (Z.mod_pos_bound (mag F64 y) (2 ^ 27) ltac:(lia)).
    unfold fmul, isnan, isinf. rewrite Ma, Sa. change (mag F64 0) with 0. change (sgn F64 0) with false.
    change (decode F64 0) with (0, 0). exists (xorb (sgn F64 y) false).
    destruct (Z.ltb_spec (inf_mag F64) a); [lia |]. change (inf_mag F64 <? 0) with false.
    destruct (Z.eqb_spec a (inf_mag F64)); [lia |]. change (0 =? inf_mag F64) with false. simpl orb. cbv iota.
    destruct (decode F64 a) as [m1 k1]. rewrite orb_true_r. reflexivity. }
  destruct E as [s ->]. set (t := fadd F64 _ _). clearbody t. destruct s; vm_compute; reflexivity.
Qed.

Lemma nonregular_expo F `{FmtOk F} x : nonregular F x = true ->
  expo F (mag F x) = 0 \/ emax F <= expo F (mag F x).
Proof.
  unfold nonregular. intros E. apply orb_prop in E as [E | E].
  - apply Z.eqb_eq in E. rewrite E. left. apply Z.div_0_l. pose proof (pow_m_pos F). lia.
  - apply Z.leb_le in E. right. apply expo_ge; assumption.
Qed.

Lemma regular_finite F `{FmtOk F} x : nonregular F x = false ->
  isfinite F x = true /\ mag F x <> 0.
Proof.
  unfold nonregular, isfinite. intros E. apply orb_false_elim in E as [A B].
  apply Z.eqb_neq in A. apply Z.leb_gt in B. split; [apply Z.ltb_lt; exact B | exact A].
Qed.

Lemma top12_split x : is_u 64 x ->
  top12 x = expo F64 (mag F64 x) + (if sgn F64 x then 2048 else 0).
Proof.
  intros U. pose proof (with_sgn_split F64 x U) as S. pose proof (mag_range F64 x) as R.
  unfold top12, expo. unfold is_u in U. rewrite Z.shiftr_div_pow2 by lia.
  rewrite wrapu_small by (unfold is_u; split; [apply Z.div_pos; lia | apply Z.div_lt_upper_bound; lia]).
  rewrite <- S at 1. unfold with_sgn. change (sgnbit F64) with (2048 * 2 ^ 52). cbn [mbits F64].
  destruct (sgn F64 x); [rewrite Z.add_comm, Z.div_add by lia |]; lia.
Qed.

Lemma pow_guards x y : is_u 64 x -> is_u 64 y ->
  (nonregular F64 x = true \/ sgn F64 x = true -> (0x7ff - 0x001 <=? u32 (top12 x - 0x001)) = true) /\
  (nonregular F64 y = true -> (0x43e - 0x3be <=? u32 (Z.land (top12 y) 0x7ff - 0x3be)) = true).
Proof.
  intros Ux Uy. pose proof (top12_split x Ux) as T.
  pose proof (expo_range F64 x) as Rx. pose proof (expo_range F64 y) as Ry. change (emax F64) with 2047 in Rx, Ry.
  split.
  - intros H. rewrite window_32 by (unfold is_u; destruct (sgn F64 x); lia).
    apply orb_true_intro. destruct (sgn F64 x); [right; apply Z.leb_le; lia |].
    destruct H as [H | H]; [| discriminate]. destruct (nonregular_expo F64 x H) as [E | E]; change (emax F64) with 2047 in *.
    + left. apply Z.ltb_lt. lia.
    + right. apply Z.leb_le. lia.
  - intros H. rewrite abstop_64 by exact Uy. rewrite window_32 by (unfold is_u; lia).
    apply orb_true_intro. destruct (nonregular_expo F64 y H) as [E | E]; change (emax F64) with 2047 in *.
    + left. apply Z.ltb_lt. lia.
    + right. apply Z.leb_le. lia.
Qed.

(** In the remaining case the base is negative and the exponent is not an
    integer. *)
Lemma pow_spec_rest F `{FmtOk F} x y r : nonregular F y = false -> nonregular F x = false ->
  x <> flit F 1 0 -> pow_spec_special F x y = Some r ->
  r = qnan F /\ sgn F x = true /\ is_int F y = false.
Proof.
  intros Ny Nx N1. destruct (regular_finite F y Ny) as [Fy Zy]. destruct (regular_finite F x Nx) as [Fx Zx].
  destruct (finite_cases F x Fx) as (A1 & A2 & _). destruct (finite_cases F y Fy) as (B1 & B2 & _).
  unfold pow_spec_special. cbv zeta. rewrite A1, A2, B1, B2.
  destruct (Z.eqb_spec (mag F y) 0); [contradiction |]. destruct (Z.eqb_spec x (flit F 1 0)); [contradiction |].
  destruct (Z.eqb_spec (mag F x) 0); [contradiction |]. simpl orb. cbv iota.
  destruct (sgn F x), (is_int F y); simpl; intros [=]; auto.
Qed.

Lemma checkint_zero F `{FmtOk F} y : is_u (width F) y -> mag F y <> 0 -> is_int F y = false ->
  checkint_gen F y = 0.
Proof. intros U N I. rewrite checkint_val, I by assumption. reflexivity. Qed.

Lemma pow_special_64 x y r : is_u 64 x -> is_u 64 y -> pow_spec_special F64 x y = Some r ->
  same_result F64 (pow x y) r = true.
Proof.
  intros Ux Uy E. destruct (pow_guards x y Ux Uy) as [Gx Gy]. unfold pow, zeroinfnan.
  rewrite !zeroinfnan_eq by (exact F64_ok || assumption).
  destruct (nonregular F64 y) eqn:Ny.
  { rewrite (Gy eq_refl), orb_true_r, pow_special_y_eq by assumption.
    apply special_y_spec; [exact F64_ok | left; reflexivity | assumption..]. }
  destruct (regular_finite F64 y Ny) as [Fy Zy]. destruct (Z.eq_dec x D1) as [-> | N1].
  { assert (R : r = D1).
    { unfold pow_spec_special in E. cbv zeta in E. destruct (Z.eqb_spec (mag F64 y) 0); [contradiction |].
      rewrite Z.eqb_refl in E. congruence. }
    rewrite R. change (nonregular F64 D1) with false. rewrite (pow_main_one y Uy Fy).
    assert (Sf : pow_special_finite D1 y = D1).
    { unfold pow_special_finite. change (Z.shiftr D1 63 =? 0) with true. simpl andb. cbv iota zeta.
      rewrite Z.eqb_refl. simpl negb. cbv iota. change (top12 D1 =? 0) with false. cbv iota.
      rewrite (pow_main_one y Uy Fy). destruct (1086 - 958 <=? _); reflexivity. }
    rewrite Sf. destruct (_ || _); apply same_refl. }
  destruct (nonregular F64 x) eqn:Nx.
  { rewrite (Gx (or_introl eq_refl)). simpl orb. cbv iota. rewrite pow_special_x_eq by assumption.
    apply special_x_spec; try assumption; exact F64_ok || (left; reflexivity). }
  destruct (pow_spec_rest F64 x y r Ny Nx N1 E) as (-> & Sx & Iy).
  rewrite (Gx (or_intror Sx)). simpl orb. cbv iota. unfold pow_special_finite, checkint.
  rewrite neg_test_64, Sx, (checkint_zero F64 y) by assumption. simpl andb. cbv iota zeta.
  rewrite math_invalid_64 by exact Ux. apply same_refl.
Qed.

Lemma powf_main_one y : is_u 32 y -> isfinite F32 y = true -> powf_main S1 y 0 = S1.
Proof.
  intros U Fin. unfold powf_main.
  assert (L : log2_inline S1 = 0) by (vm_compute; reflexivity). rewrite L.
  assert (E : exists s, fmul F64 (to_double y) 0 = with_sgn F64 s 0).
  { assert (Fd : isfinite F64 (to_double y) = true).
    { destruct (finite_cases F32 y Fin) as (Nn & Ni & Lt). unfold fcvt. rewrite Nn, Ni.
      destruct (decode F32 (mag F32 y)) as [m k] eqn:D.
      pose proof (mag_range F32 y) as R.
      destruct (decode_spec F32 (mag F32 y) m k ltac:(lia) D) as (Ea & Hk & Hm & Nm & _).
      destruct (Z.eqb_spec m 0) as [-> | Nz]; [destruct (sgn F32 y); reflexivity |].
      assert (Hk2 : k <= 253).
      { change (inf_mag F32) with (255 * 2 ^ 23) in Lt. change (2 ^ mbits F32) with (2 ^ 23) in *. nia. }
      change (2 ^ mbits F32) with (2 ^ 23) in Hm.
      destruct (repr_scaled F64 m (k - eunit F32 + eunit F64)) as (a & Ha & Va);
        [change (2 ^ mbits F64) with (2 ^ 52); lia
        | change (eunit F32) with 149; change (eunit F64) with 1074; change (emax F64) with 2047; lia |].
      rewrite (round_mag_exact F64 m (k - eunit F32 + eunit F64) a); [| lia | exact Ha |].
      - destruct (with_sgn_finite F64 (sgn F32 y) a Ha) as (A & _). exact A.
      - rewrite Va. change (eunit F32) with 149. change (eunit F64) with 1074.
        rewrite Z.max_r, Z.max_l by lia. rewrite Z.pow_0_r, Z.mul_1_r, Z.abs_eq; [reflexivity |].
        pose proof (Z.pow_pos_nonneg 2 (k - 149 + 1074) ltac:(lia) ltac:(lia)). nia. }
    destruct (finite_cases F64 _ Fd) as (Nn & Ni & _). unfold fmul. rewrite Nn, Ni.
    change (isnan F64 0) with false. change (isinf F64 0) with false. change (mag F64 0) with 0.
    change (decode F64 0) with (0, 0). simpl orb. cbv iota.
    destruct (decode F64 (mag F64 (to_double y))) as [m1 k1].
    eexists. rewrite orb_true_r. reflexivity. }
  destruct E as [s ->]. destruct s; vm_compute; reflexivity.
Qed.

Lemma pow_special_32 x y r : is_u 32 x -> is_u 32 y -> pow_spec_special F32 x y = Some r ->
  same_result F32 (powf x y) r = true.
Proof.
  intros Ux Uy E. unfold powf, zeroinfnanf.
  rewrite !zeroinfnan_eq by (exact F32_ok || assumption).
  rewrite window_32 by (assumption || lia).
  destruct (nonregular F32 y) eqn:Ny.
  { rewrite orb_true_r, powf_special_y_eq by assumption.
    apply special_y_spec; [exact F32_ok | right; reflexivity | assumption..]. }
  rewrite orb_false_r.
  destruct (regular_finite F32 y Ny) as [Fy Zy]. destruct (Z.eq_dec x S1) as [-> | N1].
  { assert (R : r = S1).
    { unfold pow_spec_special in E. cbv zeta in E. destruct (Z.eqb_spec (mag F32 y) 0); [contradiction |].
      rewrite Z.eqb_refl in E. congruence. }
    rewrite R. change ((S1 <? 0x00800000) || (0x7f800000 <=? S1)) with false. cbv iota.
    rewrite (powf_main_one y Uy Fy). apply same_refl. }
  pose proof (with_sgn_split F32 x Ux) as S. unfold with_sgn in S. change (sgnbit F32) with (2 ^ 31) in S.
  pose proof (mag_range F32 x) as R.
  assert (G : nonregular F32 x = true \/ sgn F32 x = true -> (x <? 0x00800000) || (0x7f800000 <=? x) = true).
  { intros H. apply orb_true_intro. destruct (sgn F32 x); [right; apply Z.leb_le; lia |].
    destruct H as [H | H]; [| discriminate]. unfold nonregular in H. change (inf_mag F32) with 0x7f800000 in H.
    apply orb_prop in H as [H | H]; [apply Z.eqb_eq in H | apply Z.leb_le in H].
    - left. apply Z.ltb_lt. lia.
    - right. apply Z.leb_le. lia. }
  destruct (nonregular F32 x) eqn:Nx.
  { rewrite (G (or_introl eq_refl)). rewrite powf_special_x_eq by assumption.
    apply special_x_spec; try assumption; exact F32_ok || (right; reflexivity). }
  destruct (pow_spec_rest F32 x y r Ny Nx N1 E) as (-> & Sx & Iy).
  rewrite (G (or_intror Sx)). unfold powf_special_finite, checkintf.
  rewrite sign_land_32, Sx, (checkint_zero F32 y) by assumption. simpl andb. cbv iota zeta.
  rewrite math_invalid_32 by exact Ux. apply same_refl.
Qed.

(** C30: [pow] and [powf] return the values Annex F of the C standard prescribes for
    every pair of arguments it singles out: one for a zero exponent and for the
    base one whatever the other argument is, NaN for the other NaN arguments and
    for a negative base with an exponent that is not an integer, and the signed
    zeros and infinities for zero and infinite bases and infinite exponents, where
    the sign follows whether the exponent is an odd integer. *)
Theorem pow_special_correct :
  (forall x y r, is_u 64 x -> is_u 64 y -> pow_spec_special F64 x y = Some r ->
     same_result F64 (pow x y) r = true) /\
  (forall x y r, is_u 32 x -> is_u 32 y -> pow_spec_special F32 x y = Some r ->
     same_result F32 (powf x y) r = true).
Proof. split; [exact pow_special_64 | exact pow_special_32]. Qed.

(** (-0.0)^-3.0 and (-2.0f)^0.5f. *)
Lemma pow_special_correct_witness :
  same_result F64 (pow 0x8000000000000000 0xc008000000000000) 0xfff0000000000000 = true /\
  same_result F32 (powf 0xc0000000 0x3f000000) (qnan F32) = true.
Proof.
  split.
  - refine (proj1 pow_special_correct 0x8000000000000000 0xc008000000000000 0xfff0000000000000 _ _ _);
      [unfold is_u; lia | unfold is_u; lia | vm_compute; reflexivity].
  - refine (proj2 pow_special_correct 0xc0000000 0x3f000000 (qnan F32) _ _ _);
      [unfold is_u; lia | unfold is_u; lia | vm_compute; reflexivity].
Defined.
