(* ===== verification/MathSqrt.v ===== *)
(** * Square roots, cube roots, hypot and the fused multiply-add

    [sqrt.c], [sqrtf.c], [hypot.c], [hypotf.c], [cbrt.c], [cbrtf.c], [fma.c] and
    [fmaf.c] of [src/src/ansi/musl-math]. *)

From S2P Require Import Prelude Ieee MathBits MathTables MathElem.

#[local] Open Scope Z_scope.

(** ** Square roots by integer arithmetic *)

Definition mul32 (a b : Z) : Z := u32 (Z.shiftr (u64 (a * b)) 32).

Definition mul64 (a b : Z) : Z :=
  let ahi := Z.shiftr a 32 in
  let alo := Z.land a 0xffffffff in
  let bhi := Z.shiftr b 32 in
  let blo := Z.land b 0xffffffff in
  u64 (u64 (ahi * bhi) + Z.shiftr (u64 (ahi * blo)) 32 + Z.shiftr (u64 (alo * bhi)) 32).

Definition three32 : Z := 0xc0000000.

(** The estimate of the root of [m], a fixed point number with 62 fractional
    bits: the Goldschmidt iterations of [sqrt] on the table entry [i].  The
    result has 52 fractional bits. *)
Definition sqrt_estimate (i m : Z) : Z :=
  let r := u32 (Z.shiftl (znth 0 __rsqrt_tab i) 16) in
  let s := mul32 (Z.shiftr m 32) r in
  let d := mul32 s r in
  let u := u64 (three32 - d) in
  let r := u64 (Z.shiftl (mul32 r u) 1) in
  let s := u64 (Z.shiftl (mul32 s u) 1) in
  let d := mul32 s r in
  let u := u64 (three32 - d) in
  let r := u64 (Z.shiftl (mul32 r u) 1) in
  let r := shl64 r 32 in
  let s := mul64 m r in
  let d := mul64 s r in
  let u := u64 (shl64 three32 32 - d) in
  let s := mul64 s u in
  Z.shiftr (u64 (s - 2)) 9.

(** The rounding of the estimate. *)
Definition sqrt_finish (top m s : Z) : Z :=
  let d0 := u64 (shl64 m 42 - u64 (s * s)) in
  let d1 := u64 (s - d0) in
  let d2 := u64 (d1 + s + 1) in
  let s := u64 (s + Z.shiftr d1 63) in
  let s := Z.land s 0x000fffffffffffff in
  let s := Z.lor s (shl64 top 52) in
  let y := s in
  let tiny := if d2 =? 0 then 0 else 0x0010000000000000 in
  let tiny := Z.lor tiny (Z.land (Z.lxor d1 d2) 0x8000000000000000) in
  let t := tiny in
  (y + t)%D.

Definition sqrt_main (ix top : Z) : Z :=
  let even := Z.land top 1 in
  let m := Z.lor (shl64 ix 11) 0x8000000000000000 in
  let m := if negb (even =? 0) then Z.shiftr m 1 else m in
  let top := Z.shiftr (u64 (top + 0x3ff)) 1 in
  let i := Z.shiftr ix 46 mod 128 in
  sqrt_finish top m (sqrt_estimate i m).

Definition sqrt (x : Z) : Z :=
  let ix := x in
  let top := Z.shiftr ix 52 in
  if 0x7ff - 0x001 <=? u64 (top - 0x001) then
    if u64 (ix * 2) =? 0 then x
    else if ix =? 0x7ff0000000000000 then x
    else if 0x7ff0000000000000 <? ix then __math_invalid x
    else
      let ix := (x * flit F64 1 52)%D in
      let top := Z.shiftr ix 52 in
      let top := u64 (top - 52) in
      sqrt_main ix top
  else sqrt_main ix top.

Definition sqrtf_estimate (i m : Z) : Z :=
  let r := u32 (Z.shiftl (znth 0 __rsqrt_tab i) 16) in
  let s := mul32 m r in
  let d := mul32 s r in
  let u := u32 (three32 - d) in
  let r := u32 (Z.shiftl (mul32 r u) 1) in
  let s := u32 (Z.shiftl (mul32 s u) 1) in
  let d := mul32 s r in
  let u := u32 (three32 - d) in
  let s := mul32 s u in
  Z.shiftr (u32 (s - 1)) 6.

Definition sqrtf_finish (ey m s : Z) : Z :=
  let d0 := u32 (u32 (Z.shiftl m 16) - u32 (s * s)) in
  let d1 := u32 (s - d0) in
  let d2 := u32 (d1 + s + 1) in
  let s := u32 (s + Z.shiftr d1 31) in
  let s := Z.land s 0x007fffff in
  let s := Z.lor s ey in
  let y := s in
  let tiny := if d2 =? 0 then 0 else 0x01000000 in
  let tiny := Z.lor tiny (Z.land (Z.lxor d1 d2) 0x80000000) in
  let t := tiny in
  (y + t)%F.

Definition sqrtf_main (ix : Z) : Z :=
  let even := Z.land ix 0x00800000 in
  let m1 := Z.lor (u32 (Z.shiftl ix 8)) 0x80000000 in
  let m0 := Z.land (u32 (Z.shiftl ix 7)) 0x7fffffff in
  let m := if negb (even =? 0) then m0 else m1 in
  let ey := Z.shiftr ix 1 in
  let ey := u32 (ey + Z.shiftr 0x3f800000 1) in
  let ey := Z.land ey 0x7f800000 in
  let i := Z.shiftr ix 17 mod 128 in
  sqrtf_finish ey m (sqrtf_estimate i m).

Definition sqrtf (x : Z) : Z :=
  let ix := x in
  if 0x7f800000 - 0x00800000 <=? u32 (ix - 0x00800000) then
    if u32 (ix * 2) =? 0 then x
    else if ix =? 0x7f800000 then x
    else if 0x7f800000 <? ix then __math_invalidf x
    else
      let ix := (x * flit F32 1 23)%F in
      let ix := u32 (ix - Z.shiftl 23 23) in
      sqrtf_main ix
  else sqrtf_main ix.

(** ** hypot *)

(** [0x1p27 + 1] *)
Definition SPLIT : Z := (flit F64 1 27 + D1)%D.

(** The square in two doubles. *)
Definition sq (x : Z) : Z * Z :=
  let xc := (x * SPLIT)%D in
  let xh := (x - xc + xc)%D in
  let xl := (x - xh)%D in
  let hi := (x * x)%D in
  let lo := (xh * xh - hi + flit F64 2 0 * xh * xl + xl * xl)%D in
  (hi, lo).

Definition hypot (x y : Z) : Z :=
  let ux := Z.land x (umax 64 / 2) in
  let uy := Z.land y (umax 64 / 2) in
  let '(ux, uy) := if ux <? uy then (uy, ux) else (ux, uy) in
  let ex := Z.shiftr ux 52 in
  let ey := Z.shiftr uy 52 in
  let x := ux in
  let y := uy in
  if ey =? 0x7ff then y
  else if (ex =? 0x7ff) || (uy =? 0) then x
  else if 64 <? ex - ey then (x + y)%D
  else
    let '(z, x, y) :=
      if 0x3ff + 510 <? ex then
        (flit F64 1 700, (x * flit F64 1 (-700))%D, (y * flit F64 1 (-700))%D)
      else if ey <? 0x3ff - 450 then
        (flit F64 1 (-700), (x * flit F64 1 700)%D, (y * flit F64 1 700)%D)
      else (D1, x, y) in
    let '(hx, lx) := sq x in
    let '(hy, ly) := sq y in
    (z * sqrt (ly + lx + hy + hx)%D)%D.

Definition hypotf (x y : Z) : Z :=
  let ux := Z.land x (umax 32 / 2) in
  let uy := Z.land y (umax 32 / 2) in
  let '(ux, uy) := if ux <? uy then (uy, ux) else (ux, uy) in
  let x := ux in
  let y := uy in
  if uy =? Z.shiftl 0xff 23 then y
  else if (Z.shiftl 0xff 23 <=? ux) || (uy =? 0) || (Z.shiftl 25 23 <=? ux - uy) then (x + y)%F
  else
    let '(z, x, y) :=
      if Z.shiftl (0x7f + 60) 23 <=? ux then
        (flit F32 1 90, (x * flit F32 1 (-90))%F, (y * flit F32 1 (-90))%F)
      else if uy <? Z.shiftl (0x7f - 60) 23 then
        (flit F32 1 (-90), (x * flit F32 1 90)%F, (y * flit F32 1 90)%F)
      else (S1, x, y) in
    let xd := to_double x in
    let yd := to_double y in
    (z * sqrtf (to_float (xd * xd + yd * yd)%D))%F.

(** ** Cube roots *)

Definition cbrt_B1 : Z := 715094163.
Definition cbrt_B2 : Z := 696219795.
(** [P0] .. [P4] *)
Definition cbrt_P : list Z := [
  0x3ffe03e60f61e692; 0xbffe28e092f02420; 0x3ff9f1604a49d6c2; 0xbfe844cbbee751d9;
  0x3fc2b000d4e4edd7
].

Definition cbrt_main (x u hx : Z) : Z :=
  let P i := znth 0 cbrt_P i in
  let u := Z.land u (Z.shiftl 1 63) in
  let u := Z.lor u (shl64 hx 32) in
  let t := u in
  let r := ((t * t) * (t / x))%D in
  let t := (t * ((P 0 + r * (P 1 + r * P 2)) + ((r * r) * r) * (P 3 + r * P 4)))%D in
  let u := Z.land (u64 (t + 0x80000000)) 0xffffffffc0000000 in
  let t := u in
  let s := (t * t)%D in
  let r := (x / s)%D in
  let w := (t + t)%D in
  let r := ((r - t) / (w + r))%D in
  (t + t * r)%D.

Definition cbrt (x : Z) : Z :=
  let hx := Z.land (Z.shiftr x 32) 0x7fffffff in
  if 0x7ff00000 <=? hx then (x + x)%D
  else if hx <? 0x00100000 then
    let u := (x * flit F64 1 54)%D in
    let hx := Z.land (Z.shiftr u 32) 0x7fffffff in
    if hx =? 0 then x
    else cbrt_main x u (u32 (hx / 3 + cbrt_B2))
  else cbrt_main x x (u32 (hx / 3 + cbrt_B1)).

Definition cbrtf_B1 : Z := 709958130.
Definition cbrtf_B2 : Z := 642849266.

(** A Newton step in double precision. *)
Definition cbrtf_step (x T : Z) : Z :=
  let r := (T * T * T)%D in
  (T * (x + x + r) / (x + r + r))%D.

Definition cbrtf_main (x u hx : Z) : Z :=
  let u := Z.land u 0x80000000 in
  let u := Z.lor u hx in
  let xd := to_double x in
  let T := to_double u in
  let T := cbrtf_step xd T in
  let T := cbrtf_step xd T in
  to_float T.

Definition cbrtf (x : Z) : Z :=
  let hx := Z.land x 0x7fffffff in
  if 0x7f800000 <=? hx then (x + x)%F
  else if hx <? 0x00800000 then
    if hx =? 0 then x
    else
      let u := (x * flit F32 1 24)%F in
      let hx := Z.land u 0x7fffffff in
      cbrtf_main x u (u32 (hx / 3 + cbrtf_B2))
  else cbrtf_main x x (u32 (hx / 3 + cbrtf_B1)).

(** ** Fused multiply-add *)

(** Leading zeros, the portable version of [atomic.h]. *)
Definition a_clz_64 (x : Z) : Z :=
  let '(y, r) := if negb (Z.shiftr x 32 =? 0) then (Z.shiftr x 32, 0) else (x, 32) in
  let '(y, r) := if negb (Z.shiftr y 16 =? 0) then (Z.shiftr y 16, r) else (y, Z.lor r 16) in
  let '(y, r) := if negb (Z.shiftr y 8 =? 0) then (Z.shiftr y 8, r) else (y, Z.lor r 8) in
  let '(y, r) := if negb (Z.shiftr y 4 =? 0) then (Z.shiftr y 4, r) else (y, Z.lor r 4) in
  let '(y, r) := if negb (Z.shiftr y 2 =? 0) then (Z.shiftr y 2, r) else (y, Z.lor r 2) in
  Z.lor r (if Z.shiftr y 1 =? 0 then 1 else 0).

Definition ZEROINFNAN : Z := 0x7ff - 0x3ff - 52 - 1.

Record num := Num { num_m : Z; num_e : Z; num_sign : bool }.

Definition normalize (x : Z) : num :=
  let ix := x in
  let e := Z.shiftr ix 52 in
  let sign := negb (Z.land e 0x800 =? 0) in
  let e := Z.land e 0x7ff in
  let '(ix, e) :=
    if e =? 0 then
      let ix := (x * flit F64 1 63)%D in
      let e := Z.land (Z.shiftr ix 52) 0x7ff in
      (ix, if negb (e =? 0) then e - 63 else 0x800)
    else (ix, e) in
  let ix := Z.land ix (Z.shiftl 1 52 - 1) in
  let ix := Z.lor ix (Z.shiftl 1 52) in
  let ix := shl64 ix 1 in
  Num ix (e - (0x3ff + 52 + 1)) sign.

(** The 128-bit product: the high and the low word. *)
Definition mul (x y : Z) : Z * Z :=
  let xlo := u32 x in
  let xhi := Z.shiftr x 32 in
  let ylo := u32 y in
  let yhi := Z.shiftr y 32 in
  let t1 := u64 (xlo * ylo) in
  let t2 := u64 (u64 (xlo * yhi) + u64 (xhi * ylo)) in
  let t3 := u64 (xhi * yhi) in
  let lo := u64 (t1 + shl64 t2 32) in
  let hi := u64 (t3 + Z.shiftr t2 32 + (if lo <? t1 then 1 else 0)) in
  (hi, lo).

(** [!!x] *)
Definition nz (x : Z) : Z := if x =? 0 then 0 else 1.

(** The alignment of the product and the addend: the words of both and the
    common exponent. *)
Definition fma_align (rhi rlo zm ze e0 : Z) : Z * Z * Z * Z * Z :=
  let e := e0 in
  let d := ze - e in
  if 0 <? d then
    if d <? 64 then (rhi, rlo, Z.shiftr zm (64 - d), shl64 zm d, e)
    else
      let zlo := 0 in
      let zhi := zm in
      let e := ze - 64 in
      let d := d - 64 in
      if d =? 0 then (rhi, rlo, zhi, zlo, e)
      else if d <? 64 then
        (Z.shiftr rhi d,
         Z.lor (Z.lor (shl64 rhi (64 - d)) (Z.shiftr rlo d)) (nz (shl64 rlo (64 - d))),
         zhi, zlo, e)
      else (0, 1, zhi, zlo, e)
  else
    let zhi := 0 in
    let d := - d in
    if d =? 0 then (rhi, rlo, zhi, zm, e)
    else if d <? 64 then
      (rhi, rlo, zhi, Z.lor (Z.shiftr zm d) (nz (shl64 zm (64 - d))), e)
    else (rhi, rlo, zhi, 1, e).

(** The sum or difference: the words, the sign, and whether the high word is
    used. *)
Definition fma_add (rhi rlo zhi zlo : Z) (sign zsign : bool) : Z * Z * bool * bool :=
  if Bool.eqb sign zsign then
    let rlo := u64 (rlo + zlo) in
    let rhi := u64 (rhi + zhi + (if rlo <? zlo then 1 else 0)) in
    (rhi, rlo, sign, true)
  else
    let t := rlo in
    let rlo := u64 (rlo - zlo) in
    let rhi := u64 (rhi - zhi - (if t <? rlo then 1 else 0)) in
    let '(rhi, rlo, sign) :=
      if negb (Z.shiftr rhi 63 =? 0) then
        let rlo := u64 (- rlo) in
        let rhi := u64 (- rhi - nz rlo) in
        (rhi, rlo, negb sign)
      else (rhi, rlo, sign) in
    (rhi, rlo, sign, negb (rhi =? 0)).

(** The top 63 bits of the result, the last one sticky, and the exponent;
    [None] for an exact zero. *)
Definition fma_top (rhi rlo e : Z) (nonzero : bool) : option (Z * Z) :=
  if nonzero then
    let e := e + 64 in
    let d := a_clz_64 rhi - 1 in
    Some (Z.lor (Z.lor (shl64 rhi d) (Z.shiftr rlo (64 - d))) (nz (shl64 rlo d)), e - d)
  else if negb (rlo =? 0) then
    let d := a_clz_64 rlo - 1 in
    Some (if d <? 0 then Z.lor (Z.shiftr rlo 1) (Z.land rlo 1) else shl64 rlo d, e - d)
  else None.

Definition fma_signed (sign : bool) (i : Z) : Z := if sign then - i else i.

Definition FLT_MIN : Z := flit F64 1 (-126).
Definition DBL_MIN : Z := flit F64 1 (-1022).

(** The conversion to double, rounding once. *)
Definition fma_round (rhi e : Z) (sign : bool) : Z :=
  let i := fma_signed sign rhi in
  let r := of_int F64 i in
  if e <? -1022 - 62 then
    if e =? -1022 - 63 then
      let c := if sign then fneg F64 (flit F64 1 63) else flit F64 1 63 in
      if (r == c)%D then
        let fltmin := to_float (flit F64 0xffffff8 (-91) * FLT_MIN * r)%D in
        (DBL_MIN / FLT_MIN * to_double fltmin)%D
      else if negb (shl64 rhi 53 =? 0) then
        let i := Z.lor (Z.lor (Z.shiftr rhi 1) (Z.land rhi 1)) (Z.shiftl 1 62) in
        let i := fma_signed sign i in
        let r := of_int F64 i in
        let r := (flit F64 2 0 * r - c)%D in
        let tiny := (DBL_MIN / FLT_MIN * r)%D in
        let r := (r + (tiny * tiny) * (r - r))%D in
        scalbn r e
      else scalbn r e
    else
      let d := 10 in
      let i := shl64 (Z.lor (Z.shiftr rhi d) (nz (shl64 rhi (64 - d)))) d in
      let i := fma_signed sign i in
      let r := of_int F64 i in
      scalbn r e
  else scalbn r e.

Definition fma (x y z : Z) : Z :=
  let nx := normalize x in
  let ny := normalize y in
  let nz := normalize z in
  if (ZEROINFNAN <=? num_e nx) || (ZEROINFNAN <=? num_e ny) then (x * y + z)%D
  else if ZEROINFNAN <=? num_e nz then
    if ZEROINFNAN <? num_e nz then (x * y)%D else z
  else
    let '(rhi, rlo) := mul (num_m nx) (num_m ny) in
    let '(rhi, rlo, zhi, zlo, e) :=
      fma_align rhi rlo (num_m nz) (num_e nz) (num_e nx + num_e ny) in
    let '(rhi, rlo, sign, nonzero) :=
      fma_add rhi rlo zhi zlo (xorb (num_sign nx) (num_sign ny)) (num_sign nz) in
    match fma_top rhi rlo e nonzero with
    | Some (rhi, e) => fma_round rhi e sign
    | None => (x * y + z)%D
    end.

Definition fmaf (x y z : Z) : Z :=
  let zd := to_double z in
  let xy := (to_double x * to_double y)%D in
  let result := (xy + zd)%D in
  let u := result in
  let e := Z.land (Z.shiftr u 52) 0x7ff in
  if negb (Z.land u 0x1fffffff =? 0x10000000) || (e =? 0x7ff)
     || ((result - xy == zd)%D && (result - zd == xy)%D)
  then to_float result
  else
    let neg := negb (Z.shiftr u 63 =? 0) in
    let err := if Bool.eqb neg (xy < zd)%D then (xy - result + zd)%D
               else (zd - result + xy)%D in
    let u := if Bool.eqb neg (err < 0)%D then u64 (u + 1) else u64 (u - 1) in
    to_float u.
