(* ===== verification/Stdio.v ===== *)
(** * Streams

    [FILE] of [src/src/ansi/stdio_internal.hpp] and the operations on it:
    [src/src/ansi/stdio.cpp] from [fopen] on, the two [read] and the [write] functions
    of that file, [src/src/internal/stdio_unlocked.cpp] and the [off_t] operations
    and [getdelim] of [src/src/posix/stdio.cpp].

    The state of an operation is the stream, [errno] and the kernel behind the
    [sys_] functions, a parameter.  A stream has no buffer of its own: an
    operation is a system call, except for the characters pushed back by
    [ungetc], which are kept in [ungetc_buffer] and read first.  The pushed-back
    characters are addressed through [ungetc_ptr], an index into the buffer here;
    an access outside of the buffer is the outcome [Bad].

    The file locks are taken and released by the operations of [Mutex] and are
    left out.  Data read is returned as the bytes stored from the destination
    pointer on. *)

From S2P Require Import Prelude.

#[local] Open Scope Z_scope.

Definition FILE_EOF_FLAG : Z := 0x10.
Definition FILE_ERR_FLAG : Z := 0x20.
Definition EOF : Z := -1.
Definition EIO : Z := 5.
Definition EINVAL : Z := 22.
Definition EOVERFLOW : Z := 75.
Definition SEEK_SET : Z := 0.
Definition SEEK_CUR : Z := 1.
Definition UNGETC_CAP : Z := 0x1000.

(** What [read] and [write] point to. *)
Inductive backend := FdFile | StrFile.

Record FILE := {
  kind : backend;
  flags : Z;
  read_data : list Z;           (* from read_ptr to read_end *)
  ungetc_buffer : list Z;
  ungetc_ptr : Z;               (* an index into ungetc_buffer *)
  ungetc_size : Z;
  error : Z;
  fd : Z;
  last_was_read : bool;
  no_destroy : bool
}.

Definition set_flags (f : FILE) (v : Z) : FILE :=
  {| kind := kind f; flags := v; read_data := read_data f; ungetc_buffer := ungetc_buffer f;
     ungetc_ptr := ungetc_ptr f; ungetc_size := ungetc_size f; error := error f; fd := fd f;
     last_was_read := last_was_read f; no_destroy := no_destroy f |}.
Definition set_unget (f : FILE) (b : list Z) (p n : Z) : FILE :=
  {| kind := kind f; flags := flags f; read_data := read_data f; ungetc_buffer := b;
     ungetc_ptr := p; ungetc_size := n; error := error f; fd := fd f;
     last_was_read := last_was_read f; no_destroy := no_destroy f |}.
Definition set_error (f : FILE) (v : Z) : FILE :=
  {| kind := kind f; flags := flags f; read_data := read_data f; ungetc_buffer := ungetc_buffer f;
     ungetc_ptr := ungetc_ptr f; ungetc_size := ungetc_size f; error := v; fd := fd f;
     last_was_read := last_was_read f; no_destroy := no_destroy f |}.
Definition set_last_was_read (f : FILE) (v : bool) : FILE :=
  {| kind := kind f; flags := flags f; read_data := read_data f; ungetc_buffer := ungetc_buffer f;
     ungetc_ptr := ungetc_ptr f; ungetc_size := ungetc_size f; error := error f; fd := fd f;
     last_was_read := v; no_destroy := no_destroy f |}.
Definition set_read_data (f : FILE) (v : list Z) : FILE :=
  {| kind := kind f; flags := flags f; read_data := v; ungetc_buffer := ungetc_buffer f;
     ungetc_ptr := ungetc_ptr f; ungetc_size := ungetc_size f; error := error f; fd := fd f;
     last_was_read := last_was_read f; no_destroy := no_destroy f |}.
Definition set_fd (f : FILE) (v : Z) : FILE :=
  {| kind := kind f; flags := flags f; read_data := read_data f; ungetc_buffer := ungetc_buffer f;
     ungetc_ptr := ungetc_ptr f; ungetc_size := ungetc_size f; error := error f; fd := v;
     last_was_read := last_was_read f; no_destroy := no_destroy f |}.

Definition new_file (k : backend) (d : list Z) (n : Z) : FILE :=
  {| kind := k; flags := 0; read_data := d; ungetc_buffer := repeat 0 (Z.to_nat UNGETC_CAP);
     ungetc_ptr := 0; ungetc_size := 0; error := 0; fd := n; last_was_read := false;
     no_destroy := false |}.

Definition create_fd_file (n : Z) : FILE := new_file FdFile [] n.

(** The system calls: an error number, or the result. *)
Class Kernel (K : Type) := {
  sys_read : Z -> Z -> K -> (Z + list Z) * K;
  sys_write : Z -> list Z -> K -> (Z + Z) * K;
  sys_lseek : Z -> Z -> Z -> K -> (Z + Z) * K;
  sys_openat : list Z -> Z -> K -> (Z + Z) * K;
  sys_close : Z -> K -> option Z * K
}.

Record world (K : Type) := World { file : FILE; errno : Z; kernel : K }.
Arguments World {K} _ _ _.
Arguments file {K} _.
Arguments errno {K} _.
Arguments kernel {K} _.

(** [Bad] is an access outside of [ungetc_buffer], or of the buffer of
    [getdelim]. *)
Inductive res (K A : Type) :=
| Done (a : A) (w : world K)
| Bad
| NoFuel.
Arguments Done {K A} a w.
Arguments Bad {K A}.
Arguments NoFuel {K A}.

Definition IO (K A : Type) : Type := world K -> res K A.

Definition ret {K A} (a : A) : IO K A := fun w => Done a w.
Definition bind {K A B} (c : IO K A) (k : A -> IO K B) : IO K B := fun w =>
  match c w with
  | Done a w' => k a w'
  | Bad => Bad
  | NoFuel => NoFuel
  end.

Declare Scope io_scope.
Delimit Scope io_scope with io.
Notation "x <~ c ;; k" := (bind c (fun x => k))
  (at level 100, c at next level, right associativity) : io_scope.
Notation "c ;~ k" := (bind c (fun _ => k))
  (at level 100, right associativity) : io_scope.
#[local] Open Scope io_scope.

Section Stream.
Context {K : Type} {HK : Kernel K}.

Definition get_file : IO K FILE := fun w => Done (file w) w.
Definition upd_file (g : FILE -> FILE) : IO K unit := fun w =>
  Done tt (World (g (file w)) (errno w) (kernel w)).
Definition set_errno (e : Z) : IO K unit := fun w => Done tt (World (file w) e (kernel w)).
Definition syscall {A} (c : K -> A * K) : IO K A := fun w =>
  let '(a, k) := c (kernel w) in Done a (World (file w) (errno w) k).

(** ** The [read] and [write] functions *)

Definition fd_file_write (data : list Z) : IO K Z :=
  f <~ get_file ;; r <~ syscall (sys_write (fd f) data) ;;
  match r with
  | inl err =>
      upd_file (fun f => set_flags (set_error f err) (Z.lor (flags f) FILE_ERR_FLAG)) ;~ ret (-1)
  | inr written => upd_file (fun f => set_last_was_read f false) ;~ ret written
  end.

(** The loop over the pushed-back characters: at most [size] of them. *)
Fixpoint pop_unget (size : nat) : IO K (list Z) :=
  match size with
  | O => ret []
  | S n => fun w =>
      let f := file w in
      if ungetc_size f =? 0 then Done [] w
      else
        let p := ungetc_ptr f - 1 in
        if (p <? 0) || (UNGETC_CAP <=? p) then Bad
        else
          let c := znth 0 (ungetc_buffer f) p in
          bind (pop_unget n) (fun rest => ret (c :: rest))
            (World (set_unget f (ungetc_buffer f) p (ungetc_size f - 1)) (errno w) (kernel w))
  end.

Definition fd_file_read (size : Z) : IO K (Z * list Z) :=
  front <~ pop_unget (Z.to_nat size) ;;
  let size := size - zlen front in
  f <~ get_file ;; r <~ syscall (sys_read (fd f) size) ;;
  match r with
  | inl err =>
      upd_file (fun f => set_flags (set_error f err) (Z.lor (flags f) FILE_ERR_FLAG)) ;~
      ret (-1, front)
  | inr data =>
      (if zlen data <? size then upd_file (fun f => set_flags f (Z.lor (flags f) FILE_EOF_FLAG))
       else ret tt) ;~
      upd_file (fun f => set_last_was_read f true) ;~
      ret (zlen data + zlen front, front ++ data)
  end.

Definition str_file_read (size : Z) : IO K (Z * list Z) :=
  front <~ pop_unget (Z.to_nat size) ;;
  f <~ get_file ;;
  let can_copy := Z.min (zlen (read_data f)) (size - zlen front) in
  let data := take (Z.to_nat can_copy) (read_data f) in
  upd_file (fun f => set_read_data f (drop (Z.to_nat can_copy) (read_data f))) ;~
  ret (can_copy + zlen front, front ++ data).

(** [file->read], and [file->write] of the files that are written to. *)
Definition read (size : Z) : IO K (Z * list Z) :=
  f <~ get_file ;;
  match kind f with FdFile => fd_file_read size | StrFile => str_file_read size end.

Definition write (data : list Z) : IO K Z := fd_file_write data.

(** ** Characters, strings and blocks *)

Definition fputc (ch : Z) : IO K Z :=
  r <~ write [u8 ch] ;; ret (if r <? 0 then EOF else ch).

Definition fputs (str : list Z) : IO K Z :=
  r <~ write str ;; ret (if r <? 0 then EOF else 0).

Definition puts (str : list Z) : IO K Z :=
  err <~ fputs str ;;
  if err <? 0 then ret err
  else err <~ fputc 10 ;; if err <? 0 then ret err else ret 0.

Definition fgetc_unlocked : IO K Z :=
  r <~ read 1 ;;
  let '(count_read, data) := r in
  if negb (count_read =? 1) then ret EOF else ret (u8 (nth 0 data 0)).

Definition fgetc : IO K Z := fgetc_unlocked.

(** [None] is the null pointer; the bytes are the string without its
    terminator.  [i] counts up to [count - 1]. *)
Fixpoint fgets_loop (fuel : nat) (i count : Z) : IO K (option (list Z)) :=
  match fuel with
  | O => fun _ => NoFuel
  | S n =>
      if i =? count - 1 then ret (Some [])
      else
        c <~ fgetc_unlocked ;;
        if c =? EOF then if i =? 0 then ret None else ret (Some [])
        else if c =? 10 then ret (Some [c])
        else
          rest <~ fgets_loop n (i + 1) count ;;
          ret (match rest with Some s => Some (c :: s) | None => None end)
  end.

Definition fgets_unlocked (fuel : nat) (count : Z) : IO K (option (list Z)) :=
  if count =? 0 then set_errno EINVAL ;~ ret None else fgets_loop fuel 0 count.

Definition fgets : nat -> Z -> IO K (option (list Z)) := fgets_unlocked.

Fixpoint fread_loop (count : nat) (size progress : Z) : IO K (Z * list Z) :=
  match count with
  | O => ret (progress, [])
  | S n =>
      r <~ read size ;;
      let '(got, data) := r in
      if (got <? 0) || (got <? size) then ret (progress, data)
      else
        rest <~ fread_loop n size (progress + 1) ;;
        let '(p, more) := rest in ret (p, data ++ more)
  end.

Definition fread_unlocked (size count : Z) : IO K (Z * list Z) :=
  if (size =? 0) || (count =? 0) then ret (0, []) else fread_loop (Z.to_nat count) size 0.

Definition fread : Z -> Z -> IO K (Z * list Z) := fread_unlocked.

Definition fwrite_unlocked (buffer : list Z) (size count : Z) : IO K Z :=
  if (size =? 0) || (count =? 0) then ret 0
  else
    r <~ write (take (Z.to_nat (u64 (size * count))) buffer) ;;
    if r <? 0 then ret 0 else ret (u64 r / size).

Definition fwrite : list Z -> Z -> Z -> IO K Z := fwrite_unlocked.

(** [*file->ungetc_ptr++ = ch]. *)
Definition ungetc (ch : Z) : IO K Z := fun w =>
  let f := file w in
  if ungetc_size f =? UNGETC_CAP then Done EOF w
  else
    let p := ungetc_ptr f in
    if (p <? 0) || (UNGETC_CAP <=? p) then Bad
    else Done ch (World (set_unget f (<[Z.to_nat p := u8 ch]> (ungetc_buffer f)) (p + 1)
                           (ungetc_size f + 1)) (errno w) (kernel w)).

(** ** State and position *)

Definition ferror : IO K Z := f <~ get_file ;; ret (Z.land (flags f) FILE_ERR_FLAG).
Definition feof : IO K Z := f <~ get_file ;; ret (Z.land (flags f) FILE_EOF_FLAG).
Definition clearerr : IO K unit :=
  upd_file (fun f => set_flags f (Z.ldiff (flags f) FILE_ERR_FLAG)).

Definition lseek_failed (err : Z) : IO K Z :=
  set_errno err ;~ upd_file (fun f => set_flags f (Z.lor (flags f) FILE_ERR_FLAG)) ;~ ret (-1).

Definition fseek (offset origin : Z) : IO K Z :=
  f <~ get_file ;; r <~ syscall (sys_lseek (fd f) offset origin) ;;
  match r with
  | inl err => lseek_failed err
  | inr _ => upd_file (fun f => set_unget f (ungetc_buffer f) 0 (ungetc_size f)) ;~ ret 0
  end.

Definition ftell : IO K Z :=
  f <~ get_file ;; r <~ syscall (sys_lseek (fd f) 0 SEEK_CUR) ;;
  match r with
  | inl err => lseek_failed err
  | inr tmp => if smax 64 <? tmp then set_errno EOVERFLOW ;~ ret (-1) else ret tmp
  end.

Definition rewind : IO K unit :=
  f <~ get_file ;; r <~ syscall (sys_lseek (fd f) 0 SEEK_SET) ;;
  (match r with inl err => set_errno err | inr _ => ret tt end) ;~
  upd_file (fun f => set_unget
    (set_flags f (Z.ldiff (flags f) (Z.lor FILE_ERR_FLAG FILE_EOF_FLAG))) (ungetc_buffer f) 0 0).

Definition fsetpos (pos : Z) : IO K Z :=
  f <~ get_file ;; r <~ syscall (sys_lseek (fd f) pos SEEK_SET) ;;
  match r with
  | inl err => lseek_failed err
  | inr _ => upd_file (fun f => set_unget f (ungetc_buffer f) 0 0) ;~ ret 0
  end.

(** The returned status and the position. *)
Definition fgetpos : IO K (Z * option Z) :=
  f <~ get_file ;; r <~ syscall (sys_lseek (fd f) 0 SEEK_CUR) ;;
  match r with
  | inl err => e <~ lseek_failed err ;; ret (e, None)
  | inr tmp =>
      if smax 64 <? tmp then
        set_errno EOVERFLOW ;~ upd_file (fun f => set_flags f (Z.lor (flags f) FILE_ERR_FLAG)) ;~
        ret (-1, None)
      else ret (0, Some tmp)
  end.

Definition fseeko (offset whence : Z) : IO K Z :=
  f <~ get_file ;; r <~ syscall (sys_lseek (fd f) offset whence) ;;
  match r with
  | inl err => set_errno err ;~ ret (-1)
  | inr _ => ret 0
  end.

Definition ftello : IO K Z :=
  f <~ get_file ;; r <~ syscall (sys_lseek (fd f) 0 SEEK_CUR) ;;
  match r with
  | inl err => set_errno err ;~ ret (-1)
  | inr tmp => if smax 64 <? tmp then set_errno EOVERFLOW ;~ ret (-1) else ret tmp
  end.

Definition fflush : IO K Z := ret 0.

(** ** Lines of any length

    [alloc_ok n] says whether [malloc] or [realloc] finds [n] bytes.  The buffer
    is its capacity and the characters stored so far; the result is the returned
    value and the buffer left in [*line] and [*size]. *)
Context (alloc_ok : Z -> bool).

Fixpoint getdelim_loop (fuel : nat) (delim cap : Z) (line : list Z)
  : IO K (Z * Z * list Z) :=
  match fuel with
  | O => fun _ => NoFuel
  | S n =>
      c <~ fgetc_unlocked ;;
      if c =? EOF then set_errno EIO ;~ ret (-1, cap, line)
      else
        let count := zlen line in
        let new_size := if cap <? 512 then 512 else u64 (cap + cap / 2) in
        if (cap <=? count + 1) && negb (alloc_ok new_size) then ret (-1, cap, line)
        else
          let cap := if cap <=? count + 1 then new_size else cap in
          if cap <=? count then (fun _ => Bad)
          else
            let line := line ++ [c] in
            if c =? delim then
              if cap <=? zlen line then (fun _ => Bad) else ret (zlen line, cap, line)
            else getdelim_loop n delim cap line
  end.

(** [buf] is the buffer the caller passes, if any, as its size. *)
Definition getdelim (fuel : nat) (delim : Z) (buf : option Z) (has_size : bool)
  : IO K (Z * Z * list Z) :=
  match buf with
  | None => if alloc_ok 8 then getdelim_loop fuel delim 8 [] else ret (-1, 0, [])
  | Some size =>
      if has_size then getdelim_loop fuel delim size []
      else set_errno EINVAL ;~ ret (-1, size, [])
  end.

Definition getline (fuel : nat) (buf : option Z) (has_size : bool) : IO K (Z * Z * list Z) :=
  getdelim fuel 10 buf has_size.
End Stream.

(** ** Opening and closing *)

Definition O_RDONLY : Z := 0.
Definition O_WRONLY : Z := 1.
Definition O_RDWR : Z := 2.
Definition O_CREAT : Z := 0x40.
Definition O_TRUNC : Z := 0x200.
Definition O_APPEND : Z := 0x400.
Definition O_CLOEXEC : Z := 0x80000.

Fixpoint mode_rest (mode : list Z) (flags : Z) : Z :=
  match mode with
  | [] => flags
  | c :: mode' =>
      if c =? 101 then mode_rest mode' (Z.lor flags O_CLOEXEC)
      else if negb (c =? 43) && negb (c =? 98) && negb (c =? 116) then - EINVAL
      else mode_rest mode' flags
  end.

(** [r], [w] or [a], then [+], [b], [t] and [e] in any order. *)
Definition parse_file_mode (mode : list Z) : Z :=
  let plus := existsb (Z.eqb 43) mode in
  let c := nth 0 mode 0 in
  if c =? 114 then mode_rest (drop 1 mode) (if plus then O_RDWR else O_RDONLY)
  else if c =? 119 then
    mode_rest (drop 1 mode) (Z.lor (Z.lor (if plus then O_RDWR else O_WRONLY) O_CREAT) O_TRUNC)
  else if c =? 97 then
    mode_rest (drop 1 mode) (Z.lor (Z.lor (if plus then O_RDWR else O_WRONLY) O_CREAT) O_APPEND)
  else - EINVAL.

(** The stream, or the error number left in [errno]. *)
Definition fopen {K} `{Kernel K} (filename mode : list Z) (k : K) : (Z + FILE) * K :=
  let flags := parse_file_mode mode in
  if flags <? 0 then (inl (- flags), k)
  else
    let '(r, k) := sys_openat filename flags k in
    match r with inl err => (inl err, k) | inr n => (inr (create_fd_file n), k) end.

(** The returned value, [errno] if it is set, and the stream unless it is
    deleted. *)
Definition fclose {K} `{Kernel K} (f : option FILE) (k : K) : Z * option Z * option FILE * K :=
  match f with
  | None => (EOF, Some EINVAL, None, k)
  | Some f =>
      if no_destroy f then (0, None, Some f, k)
      else if 0 <=? fd f then
        let '(r, k) := sys_close (fd f) k in
        match r with Some err => (EOF, Some err, None, k) | None => (0, None, None, k) end
      else (0, None, None, k)
  end.

(** The old descriptor is closed first; the push-back state is kept. *)
Definition freopen {K} `{Kernel K} (filename mode : list Z) (f : FILE) (k : K)
  : (Z + FILE) * K :=
  let '(r, k) := if 0 <=? fd f then sys_close (fd f) k else (None, k) in
  match r with
  | Some err => (inl err, k)
  | None =>
      let flags := parse_file_mode mode in
      if flags <? 0 then (inl (- flags), k)
      else
        let '(r, k) := sys_openat filename flags k in
        match r with inl err => (inl err, k) | inr n => (inr (set_fd f n), k) end
  end.

(** ** The pushed-back characters *)

(** [ungetc_ptr] and [ungetc_size] agree, and the buffer holds bytes. *)
Definition unget_ok (f : FILE) : Prop :=
  ungetc_ptr f = ungetc_size f /\ 0 <= ungetc_size f <= UNGETC_CAP /\
  zlen (ungetc_buffer f) = UNGETC_CAP /\ Forall (is_u 8) (ungetc_buffer f).

(** The next characters, the last pushed first. *)
Definition pushed (f : FILE) : list Z := rev (take (Z.to_nat (ungetc_size f)) (ungetc_buffer f)).

Lemma new_file_ok k d n : unget_ok (new_file k d n).
Proof.
  split; [reflexivity |]. split; [vm_compute; split; discriminate |]. split; [reflexivity |].
  unfold new_file. cbn [ungetc_buffer]. induction (Z.to_nat UNGETC_CAP) as [| m IH]; constructor; [| exact IH].
  split; vm_compute; [discriminate | reflexivity].
Qed.

Lemma pushed_pop f : unget_ok f -> ungetc_size f <> 0 ->
  let f' := set_unget f (ungetc_buffer f) (ungetc_ptr f - 1) (ungetc_size f - 1) in
  unget_ok f' /\ pushed f = znth 0 (ungetc_buffer f) (ungetc_ptr f - 1) :: pushed f'.
Proof.
  intros (E & R & L & B) N f'. unfold UNGETC_CAP in *. split.
  { unfold unget_ok, UNGETC_CAP. repeat split; simpl; try assumption; lia. }
  unfold pushed, f'. simpl. rewrite E. unfold znth, zlen in *.
  destruct (Z.ltb_spec (ungetc_size f - 1) 0); [lia |].
  replace (Z.to_nat (ungetc_size f)) with (S (Z.to_nat (ungetc_size f - 1))) by lia.
  rewrite (take_S_r _ _ (nth (Z.to_nat (ungetc_size f - 1)) (ungetc_buffer f) 0)).
  - rewrite rev_app_distr. reflexivity.
  - rewrite nth_lookup. destruct (lookup_lt_is_Some_2 (ungetc_buffer f) (Z.to_nat (ungetc_size f - 1))) as [x Hx]; [lia |].
    rewrite Hx. reflexivity.
Qed.

Lemma pushed_push f c : unget_ok f -> ungetc_size f < UNGETC_CAP ->
  let f' := set_unget f (<[Z.to_nat (ungetc_ptr f) := u8 c]> (ungetc_buffer f))
              (ungetc_ptr f + 1) (ungetc_size f + 1) in
  unget_ok f' /\ pushed f' = u8 c :: pushed f.
Proof.
  intros (E & R & L & B) N f'. unfold UNGETC_CAP in *. split.
  { split; [simpl; lia |]. split; [simpl; unfold UNGETC_CAP; lia |]. split.
    - unfold zlen in *. simpl. rewrite length_insert. exact L.
    - simpl. apply Forall_insert; [exact B | apply wrapu_range; lia]. }
  unfold pushed, f'. simpl. rewrite E. unfold zlen in L.
  replace (Z.to_nat (ungetc_size f + 1)) with (S (Z.to_nat (ungetc_size f))) by lia.
  rewrite (take_S_r _ _ (u8 c)) by (apply list_lookup_insert_eq; lia).
  rewrite take_insert_ge by lia. rewrite rev_app_distr. reflexivity.
Qed.

Create HintDb stream.

Section Safety.
Context {K : Type} {HK : Kernel K}.

(** Run from a state with an intact push-back buffer, the operation stays inside
    the buffer and leaves it intact. *)
Definition safe {A} (c : IO K A) : Prop := forall w, unget_ok (file w) ->
  match c w with Done _ w' => unget_ok (file w') | Bad => False | NoFuel => True end.

Lemma safe_ret {A} (a : A) : safe (ret a).
Proof using. intros w H. exact H. Qed.

Lemma safe_bind {A B} (c : IO K A) (k : A -> IO K B) : safe c -> (forall a, safe (k a)) -> safe (bind c k).
Proof using.
  intros Hc Hk w H. unfold bind. specialize (Hc w H). destruct (c w); [apply Hk | |]; assumption.
Qed.

Lemma safe_get : safe get_file.
Proof using. intros w H. exact H. Qed.

Lemma safe_upd (g : FILE -> FILE) : (forall f, unget_ok f -> unget_ok (g f)) -> safe (upd_file g).
Proof using. intros Hg w H. apply Hg, H. Qed.

Lemma safe_errno e : safe (set_errno e).
Proof using. intros w H. exact H. Qed.

Lemma safe_syscall {A} (c : K -> A * K) : safe (syscall c).
Proof using. intros w H. unfold syscall. destruct (c (kernel w)). exact H. Qed.

Lemma safe_nofuel {A} : safe (fun _ => NoFuel : res K A).
Proof using. intros w H. exact I. Qed.

Lemma set_flags_ok f v : unget_ok f -> unget_ok (set_flags f v).
Proof using. intros H. exact H. Qed.
Lemma set_last_ok f v : unget_ok f -> unget_ok (set_last_was_read f v).
Proof using. intros H. exact H. Qed.
Lemma set_read_ok f v : unget_ok f -> unget_ok (set_read_data f v).
Proof using. intros H. exact H. Qed.
Lemma set_error_ok f v w : unget_ok f -> unget_ok (set_flags (set_error f v) w).
Proof using. intros H. exact H. Qed.
Lemma unget_reset_ok f b : unget_ok f -> b = ungetc_buffer f -> unget_ok (set_unget f b 0 0).
Proof using. intros (_ & _ & L & B) ->. repeat split; simpl; assumption || (vm_compute; discriminate). Qed.
Lemma unget_rewind_ok f v : unget_ok f -> unget_ok (set_unget (set_flags f v) (ungetc_buffer f) 0 0).
Proof using. intros H. apply unget_reset_ok; [exact H | reflexivity]. Qed.

Hint Resolve safe_ret safe_get safe_errno safe_syscall safe_nofuel set_flags_ok set_last_ok
  set_read_ok set_error_ok unget_rewind_ok : stream.
Hint Extern 1 (safe (upd_file _)) => apply safe_upd; intros : stream.
Hint Extern 1 (unget_ok (set_unget _ _ 0 0)) => apply unget_reset_ok; [| reflexivity] : stream.

Ltac safe_step :=
  match goal with
  | |- safe (bind _ _) => apply safe_bind; [| intros ?]
  | |- safe (if ?b then _ else _) => destruct b
  | |- safe (match ?x with inl _ => _ | inr _ => _ end) => destruct x
  | |- safe (match ?x with (_, _) => _ end) => destruct x
  | |- safe (match ?x with FdFile => _ | StrFile => _ end) => destruct x
  | |- safe (match ?x with Some _ => _ | None => _ end) => destruct x
  | |- safe (let _ := _ in _) => cbv zeta
  | |- _ => solve [eauto with stream]
  end.
Ltac safe_tac := repeat safe_step.

Lemma safe_pop n : safe (pop_unget n).
Proof using.
  induction n as [| n IH]; simpl; [apply safe_ret |]. intros w H.
  destruct (Z.eqb_spec (ungetc_size (file w)) 0); [exact H |].
  pose proof (pushed_pop (file w) H n0) as [Ok _]. destruct H as (E & R & _). unfold UNGETC_CAP in *.
  destruct (Z.ltb_spec (ungetc_ptr (file w) - 1) 0); [lia |].
  destruct (Z.leb_spec 4096 (ungetc_ptr (file w) - 1)); [lia |]. simpl orb. cbv iota.
  apply (safe_bind _ _ IH (fun _ => safe_ret _)). exact Ok.
Qed.
Hint Resolve safe_pop : stream.

Lemma safe_read n : safe (read n).
Proof using. unfold read, fd_file_read, str_file_read. safe_tac. Qed.
Lemma safe_write d : safe (write d).
Proof using. unfold write, fd_file_write. safe_tac. Qed.
Hint Resolve safe_read safe_write : stream.

Lemma safe_fgetc : safe fgetc_unlocked.
Proof using. unfold fgetc_unlocked. safe_tac. Qed.
Hint Resolve safe_fgetc : stream.

Lemma safe_fgets n : forall i c, safe (fgets_loop n i c).
Proof using. induction n as [| n IH]; intros i c; simpl; safe_tac. Qed.

Lemma safe_fread n : forall size p, safe (fread_loop n size p).
Proof using. induction n as [| n IH]; intros size p; simpl; safe_tac. Qed.
Hint Resolve safe_fgets safe_fread : stream.

Lemma safe_ungetc c : safe (ungetc c).
Proof using.
  intros w H. unfold ungetc. destruct (Z.eqb_spec (ungetc_size (file w)) UNGETC_CAP); [exact H |].
  pose proof H as (E & R & _).
  destruct (Z.ltb_spec (ungetc_ptr (file w)) 0); [lia |].
  destruct (Z.leb_spec UNGETC_CAP (ungetc_ptr (file w))); [lia |].
  apply (pushed_push (file w) c H). lia.
Qed.

Context (alloc_ok : Z -> bool) (alloc_limit : forall n, alloc_ok n = true -> n < 2 ^ 63).

Lemma safe_getdelim fuel : forall delim cap line, 0 <= cap < 2 ^ 63 -> line = [] \/ zlen line < cap ->
  safe (getdelim_loop alloc_ok fuel delim cap line).
Proof using alloc_limit.
  induction fuel as [| n IH]; intros delim cap line Hc Hl; simpl; [apply safe_nofuel |].
  apply safe_bind; [apply safe_fgetc |]. intros c.
  destruct (c =? EOF); [safe_tac |].
  set (ns := if cap <? 512 then 512 else u64 (cap + cap / 2)).
  assert (Hn : cap < 512 /\ ns = 512 \/ 512 <= cap /\ ns = cap + cap / 2).
  { unfold ns. destruct (Z.ltb_spec cap 512); [left; lia |]. right. split; [lia |].
    apply wrapu_small. unfold is_u. Z.to_euclidean_division_equations. lia. }
  pose proof (zlen_nonneg line). assert (zlen (A := Z) [] = 0) by reflexivity.
  assert (Hz : line = [] \/ 0 < zlen line) by (destruct line; [left | right; rewrite zlen_cons; pose proof (zlen_nonneg line)]; auto; lia).
  assert (G : cap <= zlen line + 1 -> zlen line + 1 < ns).
  { intros C. destruct Hn as [[? ->] | [? ->]]; destruct Hl as [-> | ?]; Z.to_euclidean_division_equations; lia. }
  destruct (Z.leb_spec cap (zlen line + 1)) as [C | C]; simpl andb.
  - destruct (alloc_ok ns) eqn:A; simpl negb; [| apply safe_ret]. cbv iota.
    specialize (G C). pose proof (alloc_limit ns A).
    destruct (Z.leb_spec ns (zlen line)); [lia |].
    assert (zlen (line ++ [c]) = zlen line + 1) by (rewrite zlen_app; reflexivity).
    destruct (c =? delim).
    + destruct (Z.leb_spec ns (zlen (line ++ [c]))); [lia | apply safe_ret].
    + apply IH; [lia | right; lia].
  - cbv iota. destruct (Z.leb_spec cap (zlen line)); [lia |].
    assert (zlen (line ++ [c]) = zlen line + 1) by (rewrite zlen_app; reflexivity).
    destruct (c =? delim).
    + destruct (Z.leb_spec cap (zlen (line ++ [c]))); [lia | apply safe_ret].
    + apply IH; [lia | right; lia].
Qed.

(** The push-back invariant.  With an intact push-back buffer ([ungetc_ptr]
    at [ungetc_size], at most [UNGETC_CAP] characters), every operation but [fseek]
    and with any kernel behind it, errors included, accesses only the buffer and
    leaves it intact; [getdelim] also stays inside the line buffer it grows. *)
Theorem stream_pushback_invariant :
  (forall k d n, unget_ok (new_file k d n)) /\
  (forall ch, safe (fputc ch)) /\ (forall s, safe (fputs s)) /\ safe fgetc /\
  (forall fuel count, safe (fgets fuel count)) /\ (forall size count, safe (fread size count)) /\
  (forall b size count, safe (fwrite b size count)) /\ (forall ch, safe (ungetc ch)) /\
  safe ferror /\ safe feof /\ safe clearerr /\ safe ftell /\ safe rewind /\
  (forall pos, safe (fsetpos pos)) /\ safe fgetpos /\ (forall o wh, safe (fseeko o wh)) /\
  safe ftello /\
  (forall fuel delim buf has_size, (forall n, buf = Some n -> 0 <= n < 2 ^ 63) ->
     safe (getdelim alloc_ok fuel delim buf has_size)).
Proof using alloc_limit.
  split; [exact new_file_ok |].
  unfold fputc, fputs, fgetc, fgets, fgets_unlocked, fread, fread_unlocked, fwrite, fwrite_unlocked, ferror, feof,
    clearerr, ftell, rewind, fsetpos, fgetpos, fseeko, ftello, lseek_failed.
  repeat match goal with |- _ /\ _ => split end; intros; try exact (safe_ungetc _); try solve [safe_tac].
  unfold getdelim. destruct buf as [n |]; [destruct has_size; [| safe_tac] |].
  - apply safe_getdelim; [apply H; reflexivity | left; reflexivity].
  - destruct (alloc_ok 8); [| apply safe_ret]. apply safe_getdelim; [lia | left; reflexivity].
Qed.
End Safety.

(** ** A regular file

    What [read], [write] and [lseek] promise of a regular file on a device with
    room: [read] returns the bytes at the offset, as many as asked for unless the
    file ends, [write] replaces the bytes at the offset and extends the file,
    with zeros up to the offset where it lies past the end, and [lseek] to an absolute position moves the offset. *)
Definition splice (content : list Z) (off : Z) (data : list Z) : list Z :=
  take (Z.to_nat off) content ++ repeat 0 (Z.to_nat (off - zlen content)) ++ data ++
  drop (Z.to_nat (off + zlen data)) content.

Class RegularFile (K : Type) `{Kernel K} := {
  content : Z -> K -> list Z;
  offset : Z -> K -> Z;
  regular_bytes d k : Forall (is_u 8) (content d k);
  regular_read d n k : 0 <= n ->
    let data := take (Z.to_nat n) (drop (Z.to_nat (offset d k)) (content d k)) in
    exists k', sys_read d n k = (inr data, k') /\ content d k' = content d k /\
      offset d k' = offset d k + zlen data;
  regular_write d s k : Forall (is_u 8) s ->
    exists k', sys_write d s k = (inr (zlen s), k') /\
      content d k' = splice (content d k) (offset d k) s /\ offset d k' = offset d k + zlen s;
  regular_seek d pos k : 0 <= pos ->
    exists k', sys_lseek d pos SEEK_SET k = (inr pos, k') /\ content d k' = content d k /\
      offset d k' = pos;
  regular_offset d k : 0 <= offset d k
}.

(** ** The stream as a file with characters pushed in front of it *)
Record stream := Stream { front : list Z; bytes : list Z; position : Z }.

Definition upcoming (s : stream) : list Z := front s ++ drop (Z.to_nat (position s)) (bytes s).

(** Consumes [n] characters, the pushed-back ones first. *)
Definition consume (n : Z) (s : stream) : list Z * stream :=
  let data := take (Z.to_nat n) (upcoming s) in
  (data, Stream (drop (Z.to_nat n) (front s)) (bytes s)
           (position s + Z.max 0 (zlen data - zlen (front s)))).

(** The characters up to and with the first line end, at most [n]. *)
Fixpoint line_of (n : nat) (s : list Z) : list Z :=
  match n, s with
  | S n, c :: s => if c =? 10 then [c] else c :: line_of n s
  | _, _ => []
  end.

Inductive op :=
| Getc
| Ungetc (ch : Z)
| Read (size count : Z)
| Gets (count : Z)
| Puts (str : list Z)
| Setpos (pos : Z)
| Rewind.

Inductive out :=
| OChar (c : Z)
| OBlock (n : Z) (data : list Z)
| OLine (line : option (list Z))
| OUnit.

(** The arguments for which the operation is specified. *)
Definition op_ok (o : op) : Prop :=
  match o with
  | Read size count => 0 < size /\ 0 < count
  | Gets count => 1 < count
  | Puts str => Forall (is_u 8) str
  | Setpos pos => 0 <= pos
  | Getc | Ungetc _ | Rewind => True
  end.

(** The specification: what each operation does to the stream seen as bytes. *)
Definition spec_step (o : op) (s : stream) : out * stream :=
  match o with
  | Getc =>
      let '(data, s') := consume 1 s in
      (OChar (match data with c :: _ => c | [] => EOF end), s')
  | Ungetc ch =>
      if zlen (front s) =? UNGETC_CAP then (OChar EOF, s)
      else (OChar ch, Stream (u8 ch :: front s) (bytes s) (position s))
  | Read size count =>
      let '(data, s') := consume (size * count) s in (OBlock (zlen data / size) data, s')
  | Gets count =>
      let line := line_of (Z.to_nat (count - 1)) (upcoming s) in
      (OLine (match line with [] => None | _ :: _ => Some line end), snd (consume (zlen line) s))
  | Puts str =>
      (OChar 0, Stream (front s) (splice (bytes s) (position s) str) (position s + zlen str))
  | Setpos pos => (OChar 0, Stream [] (bytes s) pos)
  | Rewind => (OUnit, Stream [] (bytes s) 0)
  end.

Fixpoint spec_run (l : list op) (s : stream) : list out * stream :=
  match l with
  | [] => ([], s)
  | o :: l => let '(r, s) := spec_step o s in let '(rs, s) := spec_run l s in (r :: rs, s)
  end.

(** The same operations on the stream of the library. *)
Definition lib_step {K} `{Kernel K} (o : op) : IO K out :=
  match o with
  | Getc => c <~ fgetc ;; ret (OChar c)
  | Ungetc ch => c <~ ungetc ch ;; ret (OChar c)
  | Read size count => r <~ fread size count ;; ret (OBlock (fst r) (snd r))
  | Gets count => r <~ fgets (Z.to_nat count) count ;; ret (OLine r)
  | Puts str => r <~ fputs str ;; ret (OChar r)
  | Setpos pos => r <~ fsetpos pos ;; ret (OChar r)
  | Rewind => rewind ;~ ret OUnit
  end.

Fixpoint lib_run {K} `{Kernel K} (l : list op) : IO K (list out) :=
  match l with
  | [] => ret []
  | o :: l => r <~ lib_step o ;; rs <~ lib_run l ;; ret (r :: rs)
  end.

Lemma upcoming_consume n s : 0 <= n -> 0 <= position s ->
  upcoming (snd (consume n s)) = drop (Z.to_nat n) (upcoming s).
Proof.
  intros Hn Hp. unfold upcoming, consume, zlen. simpl. rewrite drop_app, drop_drop. f_equal.
  rewrite length_take. unfold upcoming. rewrite length_app, length_drop.
  destruct (decide (Z.to_nat n <= length (front s))%nat).
  - f_equal. lia.
  - destruct (decide (length (bytes s) <= Z.to_nat (position s) + (Z.to_nat n - length (front s)))%nat).
    + rewrite !drop_ge by lia. reflexivity.
    + f_equal. lia.
Qed.

Lemma fst_consume n s : fst (consume n s) = take (Z.to_nat n) (upcoming s).
Proof. reflexivity. Qed.

(** Consuming in two steps. *)
Lemma consume_add n m s : 0 <= n -> 0 <= m -> 0 <= position s ->
  consume (n + m) s =
  (fst (consume n s) ++ fst (consume m (snd (consume n s))), snd (consume m (snd (consume n s)))).
Proof.
  intros Hn Hm Hp. pose proof (upcoming_consume n s Hn Hp) as U.
  assert (N : Z.to_nat (n + m) = (Z.to_nat n + Z.to_nat m)%nat) by lia.
  rewrite (surjective_pairing (consume (n + m) s)). f_equal.
  - rewrite !fst_consume, U, N. symmetry. apply take_take_drop.
  - unfold consume in *. cbn [fst snd front bytes position] in *. rewrite U, N, drop_drop. f_equal.
    unfold zlen. rewrite !length_take, !length_drop. unfold upcoming. rewrite length_app. lia.
Qed.

(** Consuming more than there is. *)
Lemma consume_short n m s : zlen (upcoming s) <= n <= m -> consume m s = consume n s.
Proof.
  intros [H1 H2]. unfold consume, zlen in *.
  rewrite !(take_ge (upcoming s)) by lia. unfold upcoming in H1. rewrite length_app in H1.
  rewrite !(drop_ge (front s)) by lia. reflexivity.
Qed.

Lemma consume_0 s : snd (consume 0 s) = s.
Proof.
  unfold consume. simpl. rewrite drop_0. destruct s as [f b p]. simpl. f_equal.
  unfold zlen. change (Z.to_nat 0) with 0%nat. simpl. lia.
Qed.

Section Refinement.
Context {K : Type} {HK : Kernel K} {RF : RegularFile K}.

(** The abstraction: the stream a state of the library stands for. *)
Definition view (w : world K) : stream :=
  Stream (pushed (file w)) (content (fd (file w)) (kernel w)) (offset (fd (file w)) (kernel w)).

Definition sim (w : world K) (s : stream) : Prop :=
  unget_ok (file w) /\ kind (file w) = FdFile /\ view w = s.

Lemma pop_unget_spec n : forall w : world K, unget_ok (file w) -> exists f',
  pop_unget n w = Done (take n (pushed (file w))) (World f' (errno w) (kernel w)) /\
  unget_ok f' /\ pushed f' = drop n (pushed (file w)) /\ kind f' = kind (file w) /\
  fd f' = fd (file w) /\ read_data f' = read_data (file w).
Proof using.
  induction n as [| n IH]; intros w H; simpl.
  { exists (file w). destruct w. auto 10. }
  destruct (Z.eqb_spec (ungetc_size (file w)) 0) as [E | N].
  { exists (file w). unfold pushed. rewrite E. simpl. destruct w. auto 10. }
  destruct (pushed_pop _ H N) as [Ok Ep]. pose proof H as (E & R & _). unfold UNGETC_CAP in *.
  destruct (Z.ltb_spec (ungetc_ptr (file w) - 1) 0); [lia |].
  destruct (Z.leb_spec 4096 (ungetc_ptr (file w) - 1)); [lia |]. cbn [orb].
  destruct (IH (World _ (errno w) (kernel w)) Ok) as (f' & Er & Ok' & Ep' & Ek & Ed & Er').
  exists f'. unfold bind. rewrite Er, Ep. cbn [file errno kernel] in *. auto 10.
Qed.

Lemma sim_bytes w s : sim w s -> Forall (is_u 8) (upcoming s) /\ 0 <= position s.
Proof using.
  intros ((_ & _ & _ & B) & _ & <-). split; [| apply regular_offset].
  apply Forall_app_2; [apply Forall_rev, Forall_take, B | apply Forall_drop, regular_bytes].
Qed.

Lemma read_spec n w s : 0 <= n -> sim w s -> exists w',
  read n w = Done (zlen (fst (consume n s)), fst (consume n s)) w' /\ sim w' (snd (consume n s)).
Proof using RF.
  intros Hn (Ok & Hk & <-). unfold read, bind, get_file. rewrite Hk. unfold fd_file_read, bind at 1.
  destruct (pop_unget_spec (Z.to_nat n) w Ok) as (f' & -> & Ok' & Ep & Ek & Ed & _).
  unfold bind, get_file, syscall. cbn [file kernel errno].
  set (l := take (Z.to_nat n) (pushed (file w))) in *.
  assert (Hl : zlen l = Z.min n (zlen (pushed (file w)))) by (unfold l, zlen; rewrite length_take; lia).
  pose proof (zlen_nonneg (pushed (file w))).
  destruct (regular_read (fd f') (n - zlen l) (kernel w) ltac:(lia)) as (k' & -> & Ec & Eo).
  rewrite Ed in *. set (d := take (Z.to_nat (n - zlen l)) _) in *.
  assert (Ef : fst (consume n (view w)) = l ++ d).
  { rewrite fst_consume. unfold upcoming. simpl front. rewrite take_app. fold l. f_equal. unfold d, view. simpl.
    f_equal. unfold zlen in *. lia. }
  assert (Es : snd (consume n (view w)) = Stream (pushed f') (content (fd (file w)) k') (offset (fd (file w)) k')).
  { unfold consume. cbn [snd]. rewrite fst_consume in Ef. rewrite Ef, Ep, Ec, Eo, zlen_app. unfold view. cbn [front bytes position].
    f_equal. destruct (Z.le_gt_cases n (zlen (pushed (file w)))).
    - assert (d = []) as -> by (unfold d; replace (Z.to_nat (n - zlen l)) with 0%nat by lia; reflexivity).
      change (zlen (A := Z) []) with 0. lia.
    - pose proof (zlen_nonneg d). lia. }
  rewrite Ef, Es, zlen_app, (Z.add_comm (zlen l)).
  destruct (zlen d <? n - zlen l); eexists; (split; [reflexivity |]);
    (split; [exact Ok' | split; [cbn; congruence | unfold view; cbn; rewrite Ed; reflexivity]]).
Qed.

Lemma fgetc_spec w s : sim w s -> exists w',
  fgetc w = Done (match upcoming s with c :: _ => c | [] => EOF end) w' /\ sim w' (snd (consume 1 s)).
Proof using RF.
  intros H. destruct (sim_bytes w s H) as [B _].
  destruct (read_spec 1 w s ltac:(lia) H) as (w' & E & S). exists w'. split; [| exact S].
  unfold fgetc, fgetc_unlocked, bind. rewrite E, fst_consume. change (Z.to_nat 1) with 1%nat.
  destruct (upcoming s) as [| c u]; [reflexivity |]. apply Forall_cons_1 in B as [B _].
  unfold ret. simpl. rewrite (wrapu_small 8 c B). reflexivity.
Qed.

Lemma fgets_spec n : forall i count w s, sim w s -> 0 <= i < count -> count - i <= Z.of_nat n ->
  let line := line_of (Z.to_nat (count - 1 - i)) (upcoming s) in exists w',
  fgets_loop n i count w =
    Done (if (i =? 0) && negb (count =? 1) && (zlen line =? 0) then None else Some line) w' /\
  sim w' (snd (consume (zlen line) s)).
Proof using RF.
  induction n as [| n IH]; intros i count w s H Hi Hn; [lia |]. cbn [fgets_loop].
  destruct (Z.eqb_spec i (count - 1)) as [E | N].
  { exists w. replace (Z.to_nat (count - 1 - i)) with 0%nat by lia. simpl.
    destruct (Z.eqb_spec i 0), (Z.eqb_spec count 1); try lia; split; auto;
      change (sim w (snd (consume 0 s))); rewrite consume_0; exact H. }
  replace (Z.to_nat (count - 1 - i)) with (S (Z.to_nat (count - 1 - (i + 1)))) by lia.
  destruct (sim_bytes w s H) as [B Hp]. destruct (fgetc_spec w s H) as (w1 & E1 & S1).
  unfold bind. change (fgetc_unlocked w) with (fgetc w). rewrite E1. cbn [line_of].
  destruct (upcoming s) as [| c u] eqn:U.
  { exists w1. rewrite (consume_short 0 1) in S1 by (rewrite U; unfold zlen; simpl; lia). simpl.
    destruct (Z.eqb_spec i 0), (Z.eqb_spec count 1); try lia; split; auto. }
  apply Forall_cons_1 in B as [Bc _]. unfold is_u in Bc.
  destruct (Z.eqb_spec c EOF) as [-> | _]; [unfold EOF in Bc; lia |].
  pose proof (upcoming_consume 1 s ltac:(lia) Hp) as U1. rewrite U in U1. change (drop (Z.to_nat 1) (c :: u)) with u in U1.
  destruct (Z.eqb_spec c 10) as [-> | _].
  { exists w1. rewrite andb_false_r. split; [reflexivity | exact S1]. }
  destruct (IH (i + 1) count w1 _ S1 ltac:(lia) ltac:(lia)) as (w2 & E2 & S2).
  rewrite U1 in E2, S2. exists w2. destruct (Z.eqb_spec (i + 1) 0); [lia |]. cbn [andb] in E2. rewrite E2.
  rewrite zlen_cons. set (r := line_of _ u) in *. pose proof (zlen_nonneg r).
  split; [destruct (Z.eqb_spec (zlen r + 1) 0); [lia | rewrite andb_false_r; reflexivity] |].
  rewrite Z.add_comm, consume_add by lia. exact S2.
Qed.

Lemma fread_spec n size : 0 < size -> forall p w s, sim w s ->
  let data := fst (consume (size * Z.of_nat n) s) in exists w',
  fread_loop n size p w = Done (p + zlen data / size, data) w' /\
  sim w' (snd (consume (size * Z.of_nat n) s)).
Proof using RF.
  intros Hs. induction n as [| n IH]; intros p w s H.
  { exists w. rewrite Z.mul_0_r. split; [simpl; rewrite Z.add_0_r; reflexivity |].
    rewrite consume_0. exact H. }
  destruct (sim_bytes w s H) as [_ Hp]. cbn [fread_loop].
  destruct (read_spec size w s ltac:(lia) H) as (w1 & E1 & S1). unfold bind. rewrite E1.
  pose proof (zlen_nonneg (fst (consume size s))).
  destruct (Z.ltb_spec (zlen (fst (consume size s))) 0); [lia |]. cbn [orb].
  assert (L : zlen (fst (consume size s)) = Z.min size (zlen (upcoming s))).
  { rewrite fst_consume. unfold zlen. rewrite length_take. lia. }
  destruct (Z.ltb_spec (zlen (fst (consume size s))) size) as [Lt | Ge].
  { exists w1. rewrite (consume_short size (size * Z.of_nat (S n))) by nia.
    cbv zeta. rewrite (Z.div_small _ size) by lia. rewrite Z.add_0_r. split; [reflexivity | exact S1]. }
  destruct (IH (p + 1) w1 _ S1) as (w2 & E2 & S2). rewrite E2. exists w2.
  replace (size * Z.of_nat (S n)) with (size + size * Z.of_nat n) by lia.
  rewrite consume_add by nia. cbv zeta. split; [| exact S2]. unfold ret. cbn [fst snd]. f_equal. f_equal.
  rewrite zlen_app. replace (zlen (fst (consume size s))) with (1 * size) by lia.
  rewrite Z.div_add_l by lia. lia.
Qed.

Lemma ungetc_spec ch w s : sim w s -> exists w',
  lib_step (Ungetc ch) w = Done (fst (spec_step (Ungetc ch) s)) w' /\ sim w' (snd (spec_step (Ungetc ch) s)).
Proof using RF.
  intros (Ok & Hk & <-). pose proof Ok as (E & R & L & _).
  assert (Z1 : zlen (pushed (file w)) = ungetc_size (file w)).
  { unfold pushed, zlen, UNGETC_CAP in *. rewrite length_rev, length_take. lia. }
  simpl. unfold ungetc, bind. rewrite Z1.
  destruct (Z.eqb_spec (ungetc_size (file w)) UNGETC_CAP) as [F | F].
  { exists w. split; [reflexivity |]. repeat split; assumption || apply Ok. }
  destruct (Z.ltb_spec (ungetc_ptr (file w)) 0); [lia |].
  destruct (Z.leb_spec UNGETC_CAP (ungetc_ptr (file w))); [lia |].
  destruct (pushed_push (file w) ch Ok ltac:(lia)) as [Ok' P']. eexists. split; [reflexivity |].
  split; [exact Ok' |]. split; [exact Hk |]. unfold view. cbn [file kernel]. rewrite P'. reflexivity.
Qed.

(** Moving the offset drops the pushed-back characters. *)
Lemma reset_sim w f k' p e : unget_ok (file w) -> kind (file w) = FdFile -> kind f = kind (file w) ->
  ungetc_buffer f = ungetc_buffer (file w) -> fd f = fd (file w) ->
  content (fd f) k' = content (fd f) (kernel w) -> offset (fd f) k' = p ->
  sim (World (set_unget f (ungetc_buffer f) 0 0) e k') (Stream [] (bytes (view w)) p).
Proof using.
  intros Ok Hk Ek Eb Ed Ec Eo. split; [| split].
  - destruct Ok as (_ & _ & L & B). repeat split; simpl; rewrite ?Eb; assumption || (vm_compute; discriminate).
  - simpl. congruence.
  - unfold view. simpl. rewrite Ec, Eo, Ed. reflexivity.
Qed.

Lemma step_refines o w s : op_ok o -> sim w s -> exists w',
  lib_step o w = Done (fst (spec_step o s)) w' /\ sim w' (snd (spec_step o s)).
Proof using RF.
  intros Ho H. destruct o as [| ch | size count | count | str | pos |]; cbn [op_ok] in Ho.
  - destruct (fgetc_spec w s H) as (w' & E & S). exists w'. cbn [lib_step spec_step]. unfold bind. rewrite E.
    split; [| exact S]. unfold consume. change (Z.to_nat 1) with 1%nat. destruct (upcoming s); reflexivity.
  - exact (ungetc_spec ch w s H).
  - destruct (fread_spec (Z.to_nat count) size (proj1 Ho) 0 w s H) as (w' & E & S). exists w'.
    rewrite Z2Nat.id in E, S by lia. cbn [lib_step spec_step]. unfold fread, fread_unlocked, bind.
    destruct (Z.eqb_spec size 0), (Z.eqb_spec count 0); try lia. cbn [orb]. rewrite E. split; [reflexivity | exact S].
  - destruct (fgets_spec (Z.to_nat count) 0 count w s H) as (w' & E & S); [lia | lia |]. exists w'.
    rewrite Z.sub_0_r in E, S. cbn [lib_step spec_step]. unfold fgets, fgets_unlocked, bind.
    destruct (Z.eqb_spec count 0); [lia |]. rewrite E. split; [| exact S]. unfold ret. cbn [fst]. do 2 f_equal.
    destruct (Z.eqb_spec count 1); [lia |]. destruct (line_of _ _) as [| c l]; [reflexivity |].
    rewrite zlen_cons. pose proof (zlen_nonneg l). destruct (Z.eqb_spec (zlen l + 1) 0); [lia | reflexivity].
  - destruct H as (Ok & Hk & <-). cbn [lib_step spec_step]. unfold fputs, write, fd_file_write, bind, get_file, syscall.
    destruct (regular_write (fd (file w)) str (kernel w) Ho) as (k' & -> & Ec & Eo). simpl.
    pose proof (zlen_nonneg str). destruct (Z.ltb_spec (zlen str) 0); [lia |]. eexists. split; [reflexivity |].
    split; [exact Ok |]. split; [exact Hk |]. unfold view. simpl. rewrite <- Ec, <- Eo. reflexivity.
  - destruct H as (Ok & Hk & <-). cbn [lib_step spec_step]. unfold fsetpos, bind, get_file, syscall.
    destruct (regular_seek (fd (file w)) pos (kernel w) Ho) as (k' & -> & Ec & Eo). eexists. split; [reflexivity |].
    apply reset_sim; auto.
  - destruct H as (Ok & Hk & <-). cbn [lib_step spec_step]. unfold rewind, bind, get_file, syscall.
    destruct (regular_seek (fd (file w)) 0 (kernel w) ltac:(lia)) as (k' & -> & Ec & Eo). eexists. split; [reflexivity |].
    apply (reset_sim w (set_flags (file w) _)); auto.
Qed.

(** C2: streams on a regular file.  Any sequence of [fgetc], [ungetc], [fread],
    [fgets], [fputs], [fsetpos] and [rewind] on a stream behaves as the
    specification says on the bytes of the file with the pushed-back characters in
    front of the offset: it never leaves the buffer or runs out of fuel, returns the
    values of the specification, and ends in a state that stands for its state. *)
Theorem stream_refines_file l w : unget_ok (file w) -> kind (file w) = FdFile -> Forall op_ok l ->
  exists w', lib_run l w = Done (fst (spec_run l (view w))) w' /\
    unget_ok (file w') /\ view w' = snd (spec_run l (view w)).
Proof using RF.
  intros Ok Hk Hl. assert (H : sim w (view w)) by (repeat split; assumption || apply Ok).
  enough (G : forall s w, sim w s -> exists w', lib_run l w = Done (fst (spec_run l s)) w' /\ sim w' (snd (spec_run l s))).
  { destruct (G _ _ H) as (w' & E & O & _ & V). eauto. }
  clear w Ok Hk H. induction Hl as [| o l Ho Hl IH]; intros s w H; [exists w; auto |].
  destruct (step_refines o w s Ho H) as (w1 & E1 & S1). destruct (IH _ _ S1) as (w2 & E2 & S2).
  exists w2. cbn [lib_run spec_run]. unfold bind. rewrite E1, E2.
  destruct (spec_step o s) as [r s1]. cbn [fst snd] in *. destruct (spec_run l s1). split; [reflexivity | exact S2].
Qed.
End Refinement.

(** ** A file in memory *)
Definition disk : Type := list Z * nat.

#[export] Instance disk_kernel : Kernel disk := {
  sys_read _ n k :=
    let data := take (Z.to_nat n) (drop (snd k) (map u8 (fst k))) in
    (inr data, (fst k, (snd k + length data)%nat));
  sys_write _ s k := (inr (zlen s), (splice (map u8 (fst k)) (Z.of_nat (snd k)) s, (snd k + length s)%nat));
  sys_lseek _ pos whence k :=
    let p := if whence =? SEEK_SET then pos else Z.of_nat (snd k) + pos in
    if p <? 0 then (inl EINVAL, k) else (inr p, (fst k, Z.to_nat p));
  sys_openat _ _ k := (inr 3, k);
  sys_close _ k := (None, k)
}.

Lemma map_u8_bytes l : Forall (is_u 8) l -> map u8 l = l.
Proof. induction 1 as [| x l H _ IH]; simpl; [reflexivity |]. rewrite IH, wrapu_small by exact H. reflexivity. Qed.

Lemma bytes_map l : Forall (is_u 8) (map u8 l).
Proof. induction l; constructor; [apply wrapu_range; lia | assumption]. Qed.

Lemma bytes_splice l o s : Forall (is_u 8) l -> Forall (is_u 8) s -> Forall (is_u 8) (splice l o s).
Proof.
  intros Hl Hs. unfold splice. repeat apply Forall_app_2; auto using Forall_take, Forall_drop.
  induction (Z.to_nat (o - zlen l)); constructor; [split; vm_compute; [discriminate | reflexivity] | assumption].
Qed.

#[export] Instance disk_regular : RegularFile disk.
Proof.
  refine {| content := fun _ k => map u8 (fst k); offset := fun _ k => Z.of_nat (snd k) |}.
  - intros d k. apply bytes_map.
  - intros d n [c o] Hn. cbn [fst snd]. rewrite Nat2Z.id. eexists. split; [reflexivity |].
    split; [reflexivity |]. cbn [fst snd]. unfold zlen. lia.
  - intros d s [c o] Hs. eexists. split; [reflexivity |]. cbn [fst snd]. split; [| unfold zlen; lia].
    apply map_u8_bytes, bytes_splice; [apply bytes_map | exact Hs].
  - intros d pos [c o] Hp. cbn. destruct (Z.ltb_spec pos 0); [lia |]. eexists. split; [reflexivity |].
    cbn [fst snd]. split; [reflexivity | lia].
  - intros d k. simpl. lia.
Defined.

Definition sample_world : world disk := World (create_fd_file 3) 0 ([104; 105; 10; 120; 121], 0%nat).

Lemma stream_refines_file_witness :
  exists w', lib_run [Getc; Ungetc 72; Gets 80; Read 1 1; Puts [122; 122]; Rewind; Gets 2; Read 2 9] sample_world
    = Done [OChar 104; OChar 72; OLine (Some [72; 105; 10]); OBlock 1 [120]; OChar 0; OUnit;
            OLine (Some [104]); OBlock 2 [105; 10; 120; 122; 122]] w'.
Proof.
  destruct (stream_refines_file
    [Getc; Ungetc 72; Gets 80; Read 1 1; Puts [122; 122]; Rewind; Gets 2; Read 2 9] sample_world) as (w' & E & _).
  - apply new_file_ok.
  - reflexivity.
  - repeat constructor; vm_compute; (reflexivity || discriminate).
  - exists w'. rewrite E. reflexivity.
Defined.

Lemma stream_pushback_invariant_witness : safe (K := disk) (getdelim (fun n => n <? 1000) 10 10 None true).
Proof.
  refine (proj2 (proj2 (proj2 (proj2 (proj2 (proj2 (proj2 (proj2 (proj2 (proj2 (proj2 (proj2 (proj2 (proj2 (proj2 (proj2 (proj2
    (stream_pushback_invariant (K := disk) (fun n => n <? 1000) _))))))))))))))))) 10%nat 10 None true _).
  - intros n H. apply Z.ltb_lt in H. lia.
  - discriminate.
Defined.

(** [fseek] breaks the push-back state.  A character pushed back, a successful
    [fseek] and a read: [fseek] resets [ungetc_ptr] but not [ungetc_size], and the
    read takes a character from before the buffer; with [fsetpos] instead the read
    returns the character at the new position. *)
Theorem fseek_after_ungetc_out_of_bounds ch pos (w : world disk) :
  unget_ok (file w) -> kind (file w) = FdFile -> pushed (file w) = [] -> 0 <= pos ->
  (ungetc ch ;~ fseek pos SEEK_SET ;~ fgetc) w = Bad /\
  exists w', (ungetc ch ;~ fsetpos pos ;~ fgetc) w
    = Done (nth (Z.to_nat pos) (map u8 (fst (kernel w))) EOF) w'.
Proof.
  intros Ok Hk Hp Hpos. pose proof Ok as (E & R & L & B). unfold zlen, UNGETC_CAP in *.
  assert (Z0 : ungetc_size (file w) = 0).
  { assert (N : length (pushed (file w)) = 0%nat) by (rewrite Hp; reflexivity).
    unfold pushed in N. rewrite length_rev, length_take in N. lia. }
  split.
  - unfold bind, ungetc. rewrite E, Z0. cbn [orb Z.eqb Z.ltb Z.leb Z.compare UNGETC_CAP].
    unfold fseek, bind, get_file, syscall. cbn. destruct (Z.ltb_spec pos 0); [lia |].
    unfold fgetc, fgetc_unlocked, read, bind, get_file. cbn. rewrite Hk. reflexivity.
  - destruct (step_refines (Ungetc ch) w (view w) I) as (w1 & E1 & S1); [repeat split; assumption || apply Ok |].
    destruct (step_refines (Setpos pos) w1 _ Hpos S1) as (w2 & E2 & S2).
    destruct (fgetc_spec w2 _ S2) as (w3 & E3 & _). exists w3.
    cbn [lib_step] in E1, E2. unfold bind in *.
    destruct (ungetc ch w) as [? w1' | |]; try discriminate. injection E1 as _ ->.
    destruct (fsetpos pos w1) as [? w2' | |]; try discriminate. injection E2 as _ ->. rewrite E3.
    f_equal. change (upcoming _) with (drop (Z.to_nat pos) (bytes (snd (spec_step (Ungetc ch) (view w))))).
    assert (Eb : bytes (snd (spec_step (Ungetc ch) (view w))) = map u8 (fst (kernel w))).
    { simpl. destruct (zlen _ =? _); reflexivity. }
    rewrite Eb. generalize (map u8 (fst (kernel w))). induction (Z.to_nat pos); intros [|]; simpl; auto.
Qed.

Lemma fseek_after_ungetc_witness : (ungetc 65 ;~ fseek 2 SEEK_SET ;~ fgetc) sample_world = Bad.
Proof.
  refine (proj1 (fseek_after_ungetc_out_of_bounds 65 2 sample_world _ _ _ _)).
  - apply new_file_ok.
  - reflexivity.
  - reflexivity.
  - lia.
Defined.
