(* ===== verification/PrintfFloat.v ===== *)
(** * Floating point conversions of printf

    The [%f], [%e], [%g] and [%a] conversions of [vfprintf]
    ([src/src/ansi/stdio.cpp]), for the 80-bit [long double] of x86 (64-bit
    significand, [LDBL_MAX_EXP] 16384).  The output of a conversion does not
    depend on what the writes return, so a conversion is the sequence of the
    blocks it writes; the caller stops at the first failed write.

    The digits are kept in the array [big], base 10^9, through the pointers
    [a], [d], [r] and [z] (indices here); the array is a finite map, and a read
    of a cell that was never written, a cell outside of the array or a digit
    string too long for [buf] is the undefined result [None]. *)

From stdpp Require Import gmap.
From S2P Require Import Prelude Ieee.

#[local] Open Scope Z_scope.

(** ** Long doubles

    A finite magnitude is a pair [(m, e)], worth [m * 2^e]; the operations round
    to 64 bits, to nearest. *)
Definition dyad : Type := Z * Z.

Definition bits (m : Z) : Z := if m =? 0 then 0 else Z.log2 (Z.abs m) + 1.

Definition ld_round (d : dyad) : dyad :=
  let '(m, e) := d in
  let k := bits m - 64 in
  if k <=? 0 then d else (Z.sgn m * rne (Z.abs m) k, e + k).

Definition ld_add (x y : dyad) : dyad :=
  let '(m1, e1) := x in
  let '(m2, e2) := y in
  let e := Z.min e1 e2 in
  ld_round (m1 * 2 ^ (e1 - e) + m2 * 2 ^ (e2 - e), e).

Definition ld_neg (x : dyad) : dyad := (- fst x, snd x).
Definition ld_sub (x y : dyad) : dyad := ld_add x (ld_neg y).
Definition ld_mul (x y : dyad) : dyad := ld_round (fst x * fst y, snd x + snd y).

Definition ld_eqb (x y : dyad) : bool :=
  let e := Z.min (snd x) (snd y) in
  fst x * 2 ^ (snd x - e) =? fst y * 2 ^ (snd y - e).

Definition ld_nonzero (x : dyad) : bool := negb (fst x =? 0).

(** Conversion to an integer, towards zero. *)
Definition ld_trunc (x : dyad) : Z :=
  let '(m, e) := x in if 0 <=? e then m * 2 ^ e else Z.quot m (2 ^ (- e)).

Inductive ldbl :=
| LFin (neg : bool) (d : dyad)
| LInf (neg : bool)
| LNan.

Definition ldbl_of_double (x : Z) : ldbl :=
  if isnan F64 x then LNan
  else if isinf F64 x then LInf (sgn F64 x)
  else let '(m, k) := decode F64 (mag F64 x) in LFin (sgn F64 x) (m, k - eunit F64).

(** The fraction in [1/2, 1) and the exponent. *)
Definition frexpl (x : dyad) : dyad * Z :=
  let '(m, e) := x in if m =? 0 then (x, 0) else ((m, - bits m), bits m + e).

Definition LDBL_MANT_DIG : Z := 64.
Definition LDBL_MAX_EXP : Z := 16384.

(** ** The digit array *)
Definition mem : Type := gmap Z Z.

Definition BIG_SIZE : Z :=
  (LDBL_MANT_DIG + 28) / 29 + 1 + (LDBL_MAX_EXP + LDBL_MANT_DIG + 28 + 8) / 9.

Definition store (m : mem) (i v : Z) : option mem :=
  if (0 <=? i) && (i <? BIG_SIZE) then Some (<[i := u32 v]> m) else None.

(** [write_int_to_buf]: the decimal digits, nothing for 0; [room] characters fit
    in front of the pointer. *)
Fixpoint write_int_to_buf (room : nat) (value : Z) : option (list Z) :=
  if value =? 0 then Some []
  else
    match room with
    | O => None
    | S n => s ← write_int_to_buf n (value / 10); Some (s ++ [48 + value mod 10])
    end.

Definition zeros (n : Z) : list Z := repeat 48 (Z.to_nat n).

(** [pad]: one write per character. *)
Definition pad_chunks (min_width written c : Z) : list (list Z) :=
  if written <? min_width then repeat [c] (Z.to_nat (min_width - written)) else [].

(** An [int] that the source computes, undefined when it overflows. *)
Definition as_int (v : Z) : option Z := if (smin 32 <=? v) && (v <=? smax 32) then Some v else None.

(** The exponent: [e_buf0] has 12 characters. *)
Definition e_digits (exponent : Z) : option (list Z) := write_int_to_buf 12 (Z.abs exponent).

(** ** %a *)

(** The loop over the hexadecimal digits; [buf] has 25 characters. *)
Fixpoint hex_loop (fuel : nat) (value : dyad) (lower : Z) (point : bool) (str : list Z)
  : option (list Z) :=
  match fuel with
  | O => None
  | S n =>
      let x := ld_trunc value in
      c ← (if (0 <=? x) && (x <? 16) then Some (if x <? 10 then 48 + x else 55 + x) else None);
      let str := str ++ [Z.lor c lower] in
      let value := ld_mul (16, 0) (ld_sub value (x, 0)) in
      let str := if (zlen str =? 1) && (ld_nonzero value || point) then str ++ [46] else str in
      if 25 <? zlen str then None
      else if ld_nonzero value then hex_loop n value lower point str
      else Some str
  end.

Section Conversion.
Context (specific : Z) (LJUST SIGN ALT : bool) (width precision : Z) (has_precision : bool).

Definition upper : bool := negb (Z.testbit specific 5).
Definition lower_bit : Z := Z.land specific 32.

Definition a_round (negative : bool) (value : dyad) : dyad :=
  if has_precision && (0 <=? precision) && (precision <? (LDBL_MANT_DIG - 1 + 3) / 4) then
    let round := (1, LDBL_MANT_DIG - 1 - precision * 4) in
    if negative then ld_neg (ld_add (ld_sub (ld_neg value) round) round)
    else ld_sub (ld_add value round) round
  else value.

Definition a_chunks (negative : bool) (value : dyad) (exponent : Z) : option (list (list Z)) :=
  let value := a_round negative value in
  e ← e_digits exponent;
  let e_str := (if upper then 80 else 112) :: (if exponent <? 0 then 45 else 43) ::
               (match e with [] => [48] | _ :: _ => e end) in
  str ← hex_loop 26 value lower_bit ((0 <? precision) || ALT) [];
  tmp_len ← (if has_precision && negb (precision =? 0) && (zlen str - 2 <? precision)
             then p ← as_int (precision + 2); Some (s32 (p + zlen e_str))
             else Some (zlen str + zlen e_str));
  Some ((if negative then [[45]] else []) ++ [if upper then [48; 88] else [48; 120]; str] ++
        pad_chunks (s32 (tmp_len - zlen e_str - zlen str)) 0 48 ++ [e_str]).

(** ** The digits of %f, %e and %g *)

(** [do { z[0] = value; value = 1000000000 * (value - z[0]); z++ } while (value)]. *)
Fixpoint fill (fuel : nat) (m : mem) (value : dyad) (z : Z) : option (mem * Z) :=
  match fuel with
  | O => None
  | S n =>
      let w := u32 (ld_trunc value) in
      m ← store m z w;
      let value := ld_mul (1000000000, 0) (ld_sub value (w, 0)) in
      if ld_nonzero value then fill n m value (z + 1) else Some (m, z + 1)
  end.

(** Multiplication by [2^shift] of the cells from [d] down to [a]. *)
Fixpoint shl_cells (n : nat) (m : mem) (d shift carry : Z) : option (mem * Z) :=
  match n with
  | O => Some (m, carry)
  | S n =>
      v ← m !! d;
      let x := u64 (Z.shiftl v shift + carry) in
      m ← store m d (x mod 1000000000);
      shl_cells n m (d - 1) shift (u32 (x / 1000000000))
  end.

(** Division by [2^shift] of the cells from [d] up. *)
Fixpoint shr_cells (n : nat) (m : mem) (d shift carry : Z) : option (mem * Z) :=
  match n with
  | O => Some (m, carry)
  | S n =>
      v ← m !! d;
      let rm := Z.land v (2 ^ shift - 1) in
      m ← store m d (u32 (Z.shiftr v shift) + carry);
      shr_cells n m (d + 1) shift (u32 (Z.shiftr 1000000000 shift * rm))
  end.

(** [while (z > a && !z[-1]) --z]. *)
Fixpoint trim (n : nat) (m : mem) (a z : Z) : option Z :=
  if a <? z then
    match n with
    | O => None
    | S n => v ← m !! (z - 1); if v =? 0 then trim n m a (z - 1) else Some z
    end
  else Some z.

Definition cells (a z : Z) : nat := Z.to_nat (z - a).

(** Once, for a positive exponent: the cells, [a], [z] and the exponent. *)
Definition shift_left (m : mem) (a z exponent : Z) : option (mem * Z * Z * Z) :=
  if 0 <? exponent then
    let shift := Z.min exponent 29 in
    '(m, carry) ← shl_cells (cells a z) m (z - 1) shift 0;
    '(m, a) ← (if carry =? 0 then Some (m, a) else m ← store m (a - 1) carry; Some (m, a - 1));
    z ← trim (cells a z) m a z;
    Some (m, a, z, exponent - shift)
  else Some (m, a, z, exponent).

(** [while (exponent < 0)]; [f] says whether the conversion is [%f]. *)
Fixpoint shift_right (fuel : nat) (f : bool) (precision : Z) (m : mem) (a r z exponent : Z)
  : option (mem * Z * Z) :=
  if exponent <? 0 then
    match fuel with
    | O => None
    | S n =>
        let shift := Z.min (- exponent) 9 in
        digits ← as_int (precision + LDBL_MANT_DIG / 3 + 8);
        let need := 1 + Z.quot digits 9 in
        '(m, carry) ← shr_cells (cells a z) m a shift 0;
        v ← m !! a;
        let a := if v =? 0 then a + 1 else a in
        '(m, z) ← (if carry =? 0 then Some (m, z) else m ← store m z carry; Some (m, z + 1));
        let b := if f then r else a in
        let z := if need <? z - b then b + need else z in
        shift_right n f precision m a r z (exponent + shift)
    end
  else Some (m, a, z).

(** [for (i = 10; a[0] >= i; i *= 10, ++exponent)]. *)
Fixpoint count_digits (fuel : nat) (v i exponent : Z) : option Z :=
  match fuel with
  | O => None
  | S n => if i <=? v then count_digits n v (i * 10) (exponent + 1) else Some exponent
  end.

Definition lead_exponent (m : mem) (a r : Z) : option Z :=
  v ← m !! a; count_digits 11 v 10 (9 * (r - a)).

(** [for (i = 10, ++j; j < 9; i *= 10, ++j)]. *)
Definition power_for (j : Z) : Z := 10 * 10 ^ Z.max 0 (9 - (j + 1)).

(** [while d[0] > 999999999]: the cell becomes 0 and the one before it, new if
    [d] was [a], is incremented. *)
Fixpoint carry_up (fuel : nat) (m : mem) (a d : Z) : option (mem * Z * Z) :=
  v ← m !! d;
  if 999999999 <? v then
    match fuel with
    | O => None
    | S n =>
        m ← store m d 0;
        let d := d - 1 in
        '(m, a) ← (if d <? a then m ← store m (a - 1) 0; Some (m, a - 1) else Some (m, a));
        v ← m !! d;
        m ← store m d (v + 1);
        carry_up n m a d
    end
  else Some (m, a, d).

(** Rounding at the last digit: whether [round + small != round]. *)
Definition rounds_up (negative odd : bool) (half : comparison) : bool :=
  let round := ld_add (2, 63) (if odd then (2, 0) else (0, 0)) in
  let small := match half with Lt => (1, -1) | Eq => (2, -1) | Gt => (3, -1) end in
  let round := if negative then ld_neg round else round in
  let small := if negative then ld_neg small else small in
  negb (ld_eqb (ld_add round small) round).

(** The block [if (j < 9 * (z - r - 1))]. *)
Definition round_digits (negative : bool) (m : mem) (a r z j exponent : Z)
  : option (mem * Z * Z * Z) :=
  if j <? 9 * (z - r - 1) then
    let d := r + 1 + (Z.quot (j + 9 * LDBL_MAX_EXP) 9 - LDBL_MAX_EXP) in
    let i := power_for (Z.rem (j + 9 * LDBL_MAX_EXP) 9) in
    v ← m !! d;
    let x := v mod i in
    '(m, a, d, exponent) ← (
      if negb (x =? 0) || negb (d + 1 =? z) then
        prev ← (if (i =? 1000000000) && (a <? d) then m !! (d - 1) else Some 0);
        let odd := Z.odd (v / i) || Z.odd prev in
        let half := if x <? i / 2 then Lt else if (x =? i / 2) && (d + 1 =? z) then Eq else Gt in
        m ← store m d (v - x);
        if rounds_up negative odd half then
          m ← store m d (v - x + i);
          '(m, a, d) ← carry_up (S (cells a d + 1)) m a d;
          exponent ← lead_exponent m a r;
          Some (m, a, d, exponent)
        else Some (m, a, d, exponent)
      else Some (m, a, d, exponent));
    Some (m, a, (if d + 1 <? z then d + 1 else z), exponent)
  else Some (m, a, z, exponent).

(** [for (i = 10, j = 0; z[-1] % i == 0; i *= 10, ++j)]. *)
Fixpoint trailing_zeros (fuel : nat) (v i j : Z) : option Z :=
  match fuel with
  | O => None
  | S n => if v mod i =? 0 then trailing_zeros n v (i * 10) (j + 1) else Some j
  end.

(** The style a [%g] becomes, and its precision. *)
Definition g_style (m : mem) (a r z exponent precision : Z) : option (Z * Z) :=
  let precision := if precision =? 0 then 1 else precision in
  let f := (exponent <? precision) && (-4 <=? exponent) in
  let style := if f then specific - 1 else specific - 2 in
  precision ← (if f then as_int (precision - (exponent + 1)) else Some (precision - 1));
  if ALT then Some (style, precision)
  else
    last ← (if a <? z then m !! (z - 1) else Some 0);
    j ← (if negb (last =? 0) then trailing_zeros 11 last 10 0 else Some 9);
    Some (style, Z.min precision (Z.max 0 (9 * (z - r - 1) + (if f then 0 else exponent) - j))).

(** A cell padded to nine digits. *)
Definition nine (s : list Z) : list Z := zeros (9 - zlen s) ++ s.

(** The cells of the integer part. *)
Fixpoint f_int (n : nat) (m : mem) (a d : Z) : option (list (list Z)) :=
  match n with
  | O => Some []
  | S n =>
      v ← m !! d; s ← write_int_to_buf 9 v;
      let s := if negb (d =? a) then nine s else match s with [] => [48] | _ :: _ => s end in
      rest ← f_int n m a (d + 1); Some (s :: rest)
  end.

(** The cells of the fraction, and the precision left. *)
Fixpoint f_frac (n : nat) (m : mem) (d precision : Z) : option (list (list Z) * Z) :=
  match n with
  | O => Some ([], precision)
  | S n =>
      if 0 <? precision then
        v ← m !! d; s ← write_int_to_buf 9 v;
        '(rest, p) ← f_frac n m (d + 1) (precision - 9);
        Some (take (Z.to_nat (Z.min precision 9)) (nine s) :: rest, p)
      else Some ([], precision)
  end.

Definition f_chunks (m : mem) (a r z precision : Z) : option (list (list Z)) :=
  let a := if r <? a then r else a in
  ints ← f_int (cells a (r + 1)) m a a;
  '(fracs, p) ← f_frac (cells (r + 1) z) m (r + 1) precision;
  w ← as_int (p + 9);
  Some (ints ++ (if negb (precision =? 0) || ALT then [[46]] else []) ++ fracs ++ pad_chunks w 9 48).

Fixpoint e_cells (n : nat) (m : mem) (a d precision : Z) : option (list (list Z) * Z) :=
  match n with
  | O => Some ([], precision)
  | S n =>
      if 0 <=? precision then
        v ← m !! d; s ← write_int_to_buf 9 v;
        let s := match s with [] => [48] | _ :: _ => s end in
        let first := if d =? a then [take 1 s] ++ (if (0 <? precision) || ALT then [[46]] else []) else [] in
        let s := if d =? a then drop 1 s else nine s in
        '(rest, p) ← e_cells n m a (d + 1) (precision - zlen s);
        Some (first ++ take (Z.to_nat (Z.min (zlen s) precision)) s :: rest, p)
      else Some ([], precision)
  end.

Definition e_chunks (style : Z) (m : mem) (a z exponent precision : Z) : option (list (list Z)) :=
  e ← e_digits exponent;
  let e_str := style :: (if exponent <? 0 then 45 else 43) :: zeros (2 - zlen e) ++ e in
  let z := if z <=? a then a + 1 else z in
  '(ds, p) ← e_cells (cells a z) m a a precision;
  w ← as_int (p + 18);
  Some (ds ++ pad_chunks w 18 48 ++ [e_str]).

(** [tmp_len], computed and not used. *)
Definition tmp_len (f : bool) (exponent precision : Z) : option Z :=
  l ← as_int (1 + precision);
  l ← as_int (l + (if negb (precision =? 0) || ALT then 1 else 0));
  if f && (0 <? exponent) then as_int (l + exponent) else Some l.

Definition fin_chunks (negative : bool) (value : dyad) : option (list (list Z)) :=
  let specific_lower := Z.lor specific 32 in
  let '(value, exponent) := frexpl value in
  let value := ld_mul value (2, 0) in
  let exponent := if ld_nonzero value then exponent - 1 else exponent in
  if specific_lower =? 97 then a_chunks negative value exponent
  else
    let exponent := if ld_nonzero value then exponent - 28 else exponent in
    let value := if ld_nonzero value then ld_mul value (1, 28) else value in
    let r := if exponent <? 0 then 0 else BIG_SIZE - LDBL_MANT_DIG - 1 in
    '(m, z) ← fill 64 ∅ value r;
    '(m, a, z, exponent) ← shift_left m r z exponent;
    let precision := if has_precision then precision else 6 in
    let f := specific_lower =? 102 in
    '(m, a, z) ← shift_right (Z.to_nat (- exponent)) f precision m a r z exponent;
    exponent ← (if a <? z then lead_exponent m a r else Some 0);
    j ← as_int (precision - (if f then 0 else exponent));
    let j := j - (if (specific_lower =? 103) && negb (precision =? 0) then 1 else 0) in
    '(m, a, z, exponent) ← round_digits negative m a r z j exponent;
    z ← trim (cells a z) m a z;
    '(style, precision) ←
      (if specific_lower =? 103 then g_style m a r z exponent precision else Some (specific, precision));
    _ ← tmp_len (Z.lor style 32 =? 102) exponent precision;
    body ← (if Z.lor style 32 =? 102 then f_chunks m a r z precision
            else e_chunks style m a z exponent precision);
    Some ((if negative then [[45]] else if SIGN then [[43]] else []) ++ body).

Definition float_chunks (value : ldbl) : option (list (list Z)) :=
  match value with
  | LFin neg d => fin_chunks (neg && ld_nonzero d) d
  | _ =>
      let str := match value with
                 | LInf _ => if upper then [73; 78; 70] else [105; 110; 102]
                 | _ => if upper then [78; 65; 78] else [110; 97; 110]
                 end in
      Some (if LJUST then str :: pad_chunks width 3 32 else pad_chunks width 3 32 ++ [str])
  end.
End Conversion.
