(* ===== verification/FloatDigits.v ===== *)
(** * The floating point conversions of printf are defined

    [PrintfFloat] makes every access outside of the digit array or the character
    buffers, every read of a cell that was not written and every overflow of an [int]
    the result [None], and gives its loops a fuel.  For the numbers of the 80-bit
    format and a precision that is not next to [INT_MAX] none of this happens. *)

From stdpp Require Import gmap.
From S2P Require Import Prelude Ieee PrintfFloat.

#[local] Open Scope Z_scope.

(** ** Long doubles as integers

    Every number here is a multiple of [2 ^ - N]; in these units the operations are
    integer operations, rounded to 64 bits. *)
Definition round64 (u : Z) : Z :=
  let k := bits u - 64 in if k <=? 0 then u else Z.sgn u * rne (Z.abs u) k * 2 ^ k.

Lemma bits_spec m : 0 < m -> 2 ^ (bits m - 1) <= m < 2 ^ bits m /\ 0 < bits m.
Proof.
  intros Hm. unfold bits. destruct (Z.eqb_spec m 0); [lia |]. rewrite Z.abs_eq by lia.
  pose proof (Z.log2_spec m Hm) as L. pose proof (Z.log2_nonneg m). unfold Z.succ in L. replace (Z.log2 m + 1 - 1) with (Z.log2 m) by lia. lia.
Qed.

Lemma bits_unique m b : 0 <= b -> 2 ^ b <= m < 2 ^ (b + 1) -> bits m = b + 1.
Proof.
  intros Hb Hm. pose proof (Z.pow_pos_nonneg 2 b ltac:(lia) Hb). unfold bits. destruct (Z.eqb_spec m 0); [lia |].
  rewrite Z.abs_eq by lia. rewrite (Z.log2_unique m b) by (unfold Z.succ; lia). reflexivity.
Qed.

Lemma bits_opp m : bits (- m) = bits m.
Proof. unfold bits. rewrite Z.abs_opp. destruct (Z.eqb_spec (- m) 0), (Z.eqb_spec m 0); lia. Qed.

Lemma bits_small m n : 0 <= m < 2 ^ n -> 0 <= n -> bits m <= n.
Proof.
  intros Hm Hn. unfold bits. destruct (Z.eqb_spec m 0); [lia |]. rewrite Z.abs_eq by lia.
  assert (Z.log2 m < n) by (apply Z.log2_lt_pow2; lia). lia.
Qed.

Lemma bits_scale m s : m <> 0 -> 0 <= s -> bits (m * 2 ^ s) = bits m + s.
Proof.
  intros Hm Hs. pose proof (Z.pow_pos_nonneg 2 s ltac:(lia) Hs) as P. unfold bits.
  destruct (Z.eqb_spec (m * 2 ^ s) 0); [nia |]. destruct (Z.eqb_spec m 0); [lia |].
  rewrite Z.abs_mul, (Z.abs_eq (2 ^ s)), Z.log2_mul_pow2 by lia. lia.
Qed.

Lemma rne_scale a k s : 0 <= k -> 0 <= s -> rne (a * 2 ^ s) (k + s) = rne a k.
Proof.
  intros Hk Hs. pose proof (Z.pow_pos_nonneg 2 s ltac:(lia) Hs) as Ps. pose proof (Z.pow_pos_nonneg 2 k ltac:(lia) Hk) as Pk.
  rewrite !rne_eq by lia. rewrite Z.pow_add_r by lia. cbv zeta. rewrite Z.div_mul_cancel_r, Z.mul_mod_distr_r by lia.
  replace (2 ^ k * 2 ^ s <? 2 * (a mod 2 ^ k * 2 ^ s)) with (2 ^ k <? 2 * (a mod 2 ^ k)) by (apply eq_bool_prop_intro; rewrite !Is_true_true, !Z.ltb_lt; nia).
  replace (2 * (a mod 2 ^ k * 2 ^ s) =? 2 ^ k * 2 ^ s) with (2 * (a mod 2 ^ k) =? 2 ^ k) by (apply eq_bool_prop_intro; rewrite !Is_true_true, !Z.eqb_eq; nia).
  reflexivity.
Qed.

Lemma round64_scale m s : 0 <= s -> round64 (m * 2 ^ s) = round64 m * 2 ^ s.
Proof.
  intros Hs. pose proof (Z.pow_pos_nonneg 2 s ltac:(lia) Hs) as P. destruct (Z.eq_dec m 0) as [-> | N]; [reflexivity |].
  unfold round64. rewrite bits_scale by assumption. cbv zeta. rewrite Z.sgn_mul, (Z.sgn_pos (2 ^ s)), Z.mul_1_r, Z.abs_mul, (Z.abs_eq (2 ^ s)) by lia.
  destruct (Z.leb_spec (bits m + s - 64) 0), (Z.leb_spec (bits m - 64) 0); [reflexivity | lia | |].
  - set (k := bits m + s - 64) in *. assert (E : Z.abs m * 2 ^ s = Z.abs m * 2 ^ (s - k) * 2 ^ k) by (rewrite <- Z.mul_assoc, <- Z.pow_add_r by lia; do 2 f_equal; lia).
    rewrite E, rne_exact by lia. assert (Sg : Z.sgn m * Z.abs m = m) by (destruct (Z.sgn_spec m) as [[? ->] | [[<- ->] | [? ->]]]; lia).
    rewrite <- (Z.mul_assoc (Z.sgn m)), <- E, Z.mul_assoc, Sg. reflexivity.
  - replace (bits m + s - 64) with (bits m - 64 + s) by lia. rewrite rne_scale, Z.pow_add_r by lia. ring.
Qed.

Lemma round64_id q t : 0 <= t -> 0 <= q < 2 ^ 64 -> round64 (q * 2 ^ t) = q * 2 ^ t.
Proof.
  intros Ht Hq. rewrite round64_scale by exact Ht. f_equal. unfold round64. pose proof (bits_small q 64 Hq ltac:(lia)).
  by destruct (Z.leb_spec (bits q - 64) 0); [| lia].
Qed.

(** A multiple of a power of two that is small enough is not rounded. *)
Lemma round64_divide u t : 0 <= t -> (2 ^ t | u) -> 0 <= u < 2 ^ (t + 64) -> round64 u = u.
Proof.
  intros Ht [q ->] H. pose proof (Z.pow_pos_nonneg 2 t ltac:(lia) Ht). rewrite Z.pow_add_r in H by lia. apply round64_id; [exact Ht | nia].
Qed.

Lemma round64_opp u : round64 (- u) = - round64 u.
Proof. unfold round64. rewrite bits_opp, Z.sgn_opp, Z.abs_opp. cbv zeta. destruct (_ <=? 0); [reflexivity | ring]. Qed.

Section Units.
Context (N : Z) (HN : 100 <= N).

Definition inside (x : dyad) : Prop := - N <= snd x.
Definition units (x : dyad) : Z := fst x * 2 ^ (snd x + N).

Lemma units_round d : inside d -> units (ld_round d) = round64 (units d) /\ inside (ld_round d).
Proof using HN.
  destruct d as [m e]. unfold inside, units. cbn [fst snd]. intros I. rewrite round64_scale by lia. unfold ld_round, round64. cbv zeta.
  destruct (Z.leb_spec (bits m - 64) 0); cbn [fst snd]; [auto |]. split; [| lia].
  replace (e + (bits m - 64) + N) with (bits m - 64 + (e + N)) by lia. rewrite Z.pow_add_r by lia. ring.
Qed.

Lemma units_add x y : inside x -> inside y -> units (ld_add x y) = round64 (units x + units y) /\ inside (ld_add x y).
Proof using HN.
  destruct x as [m1 e1], y as [m2 e2]. unfold inside. cbn [snd]. intros I1 I2. unfold ld_add.
  set (e := Z.min e1 e2). destruct (units_round (m1 * 2 ^ (e1 - e) + m2 * 2 ^ (e2 - e), e)) as [E J]; [unfold inside; cbn [snd]; lia |].
  split; [| exact J]. rewrite E. f_equal. unfold units. cbn [fst snd].
  replace (e1 + N) with (e1 - e + (e + N)) by lia. replace (e2 + N) with (e2 - e + (e + N)) by lia.
  rewrite (Z.pow_add_r 2 (e1 - e)), (Z.pow_add_r 2 (e2 - e)) by lia. ring.
Qed.

Lemma units_neg x : units (ld_neg x) = - units x /\ (inside x -> inside (ld_neg x)).
Proof using. destruct x as [m e]. unfold units, inside, ld_neg. cbn [fst snd]. split; [ring | auto]. Qed.

Lemma units_sub x y : inside x -> inside y -> units (ld_sub x y) = round64 (units x - units y) /\ inside (ld_sub x y).
Proof using HN.
  intros I1 I2. unfold ld_sub. destruct (units_neg y) as [E J]. destruct (units_add x (ld_neg y) I1 (J I2)) as [-> K]. rewrite E. auto.
Qed.

Lemma units_mul x c t : inside x -> 0 <= t -> units (ld_mul x (c, t)) = round64 (units x * c * 2 ^ t) /\ inside (ld_mul x (c, t)).
Proof using HN.
  destruct x as [m e]. unfold inside at 1. cbn [snd]. intros I Ht. unfold ld_mul. cbn [fst snd].
  destruct (units_round (m * c, e + t)) as [E J]; [unfold inside; cbn [snd]; lia |]. split; [| exact J]. rewrite E. f_equal.
  unfold units. cbn [fst snd]. replace (e + t + N) with (e + N + t) by lia. rewrite (Z.pow_add_r 2 (e + N)) by lia. ring.
Qed.

Lemma units_int w : units (w, 0) = w * 2 ^ N /\ inside (w, 0).
Proof using HN. unfold units, inside. cbn [fst snd]. split; [f_equal; f_equal; lia | lia]. Qed.

Lemma units_trunc x : inside x -> 0 <= units x -> ld_trunc x = units x / 2 ^ N.
Proof using HN.
  destruct x as [m e]. unfold units, inside, ld_trunc. cbn [fst snd]. intros I H. pose proof (Z.pow_pos_nonneg 2 (e + N) ltac:(lia) ltac:(lia)) as P.
  destruct (Z.leb_spec 0 e).
  - rewrite Z.pow_add_r by lia. rewrite Z.mul_assoc, Z.div_mul; [reflexivity | apply Z.pow_nonzero; lia].
  - pose proof (Z.pow_pos_nonneg 2 (- e) ltac:(lia) ltac:(lia)). assert (0 <= m) by nia. rewrite Z.quot_div_nonneg by lia.
    replace N with (- e + (e + N)) at 2 by lia. rewrite (Z.pow_add_r 2 (- e)) by lia. rewrite Z.div_mul_cancel_r by lia. reflexivity.
Qed.

Lemma units_nonzero x : inside x -> ld_nonzero x = negb (units x =? 0).
Proof using HN.
  destruct x as [m e]. unfold units, inside, ld_nonzero. cbn [fst snd]. intros I. pose proof (Z.pow_pos_nonneg 2 (e + N) ltac:(lia) ltac:(lia)) as P.
  destruct (Z.eqb_spec m 0), (Z.eqb_spec (m * 2 ^ (e + N)) 0); [reflexivity | nia | nia | reflexivity].
Qed.

(** What is left behind a digit, scaled by [c * 2 ^ g]: [f] fractional bits become [f - g]. *)
Lemma digit_step x c g f : inside x -> 0 <= units x -> 0 <= f <= 63 -> 0 <= g -> 0 < c -> c * 2 ^ f <= 2 ^ 64 -> (2 ^ (N - f) | units x) ->
  let w := units x / 2 ^ N in let y := ld_mul (c * 2 ^ g, 0) (ld_sub x (w, 0)) in
  inside y /\ units y = c * 2 ^ g * (units x mod 2 ^ N) /\ 0 <= units y < c * 2 ^ g * 2 ^ N /\ (2 ^ (N - Z.max 0 (f - g)) | units y).
Proof using HN.
  intros I Hu Hf Hg Hc Hcf D. cbv zeta. pose proof (Z.pow_pos_nonneg 2 N ltac:(lia) ltac:(lia)) as PN. pose proof (Z.pow_pos_nonneg 2 g ltac:(lia) Hg) as Pg.
  pose proof (Z.pow_pos_nonneg 2 (N - f) ltac:(lia) ltac:(lia)) as Pf. pose proof (Z.mod_pos_bound (units x) (2 ^ N) PN) as B. set (w := units x / 2 ^ N).
  assert (EN : 2 ^ N = 2 ^ f * 2 ^ (N - f)) by (rewrite <- Z.pow_add_r by lia; f_equal; lia).
  assert (DN : (2 ^ (N - f) | units x mod 2 ^ N)).
  { rewrite Z.mod_eq by lia. apply Z.divide_sub_r; [exact D |]. apply Z.divide_mul_l. exists (2 ^ f). exact EN. }
  destruct (units_int w) as [Ew Iw]. destruct (units_sub x (w, 0) I Iw) as [Es Is]. rewrite Ew in Es.
  replace (units x - w * 2 ^ N) with (units x mod 2 ^ N) in Es by (rewrite Z.mod_eq by lia; unfold w; ring).
  rewrite (round64_divide _ (N - f)) in Es; [| lia | exact DN | split; [lia |]; apply (Z.lt_le_trans _ (2 ^ N)); [lia | apply Z.pow_le_mono_r; lia]].
  set (s := ld_sub x (w, 0)) in *. assert (EM : ld_mul (c * 2 ^ g, 0) s = ld_mul s (c * 2 ^ g, 0)) by (unfold ld_mul; f_equal; f_equal; lia).
  rewrite EM. destruct (units_mul s (c * 2 ^ g) 0 Is ltac:(lia)) as [Em Im]. rewrite Es, Z.pow_0_r, Z.mul_1_r in Em.
  destruct DN as [q Eq].
  assert (R : round64 (units x mod 2 ^ N * (c * 2 ^ g)) = units x mod 2 ^ N * (c * 2 ^ g)).
  { apply (round64_divide _ (N - f + g)); [lia | exists (q * c); rewrite Eq, Z.pow_add_r by lia; ring |]. split; [nia |].
    rewrite !Z.pow_add_r by lia. apply (Z.lt_le_trans _ (2 ^ N * (c * 2 ^ g))); [apply Z.mul_lt_mono_pos_r; nia |]. rewrite EN. nia. }
  rewrite R in Em. split; [exact Im |]. split; [rewrite Em; ring |]. split; [nia |]. rewrite Em, Eq.
  destruct (Z.max_spec 0 (f - g)) as [[? ->] | [? ->]].
  - exists (q * c). replace (N - (f - g)) with (N - f + g) by lia. rewrite Z.pow_add_r by lia. ring.
  - exists (q * c * 2 ^ (g - f)). rewrite Z.sub_0_r, EN. replace g with (g - f + f) at 1 by lia. rewrite (Z.pow_add_r 2 (g - f)) by lia. ring.
Qed.

(** ** %a: the loop over the hexadecimal digits *)
Lemma hex_loop_some n : forall fuel f x lower point str, (n < fuel)%nat -> inside x -> 0 <= units x < 16 * 2 ^ N -> 0 <= f <= 63 ->
  (2 ^ (N - f) | units x) -> f <= 4 * Z.of_nat n -> zlen str + Z.of_nat n <= (if zlen str =? 0 then 16 else 17) ->
  exists s, hex_loop fuel x lower point str = Some s /\ zlen s <= 25.
Proof using HN.
  induction n as [| n IH]; intros fuel f x lower point str Hfuel I Hu Hf D Hn Hs; (destruct fuel as [| fuel]; [lia |]); cbn [hex_loop];
    rewrite (units_trunc x I) by lia; pose proof (Z.pow_pos_nonneg 2 N ltac:(lia) ltac:(lia)) as PN;
    (assert (W : 0 <= units x / 2 ^ N < 16) by (split; [apply Z.div_pos; lia | apply Z.div_lt_upper_bound; lia]));
    destruct (digit_step x 1 4 f I ltac:(lia) Hf ltac:(lia) ltac:(lia) ltac:(rewrite Z.mul_1_l; apply Z.pow_le_mono_r; lia) D) as (I' & E' & B' & D');
    change (1 * 2 ^ 4) with 16 in *; set (y := ld_mul (16, 0) _) in *; set (w := units x / 2 ^ N) in *;
    rewrite (proj2 (Z.leb_le 0 w)) by lia; rewrite (proj2 (Z.ltb_lt w 16)) by lia; cbn [andb mbind option_bind];
    set (c := Z.lor _ lower); pose proof (zlen_nonneg str) as Ls;
    assert (L1 : zlen (str ++ [c]) = zlen str + 1) by (rewrite zlen_app; reflexivity); rewrite L1;
    set (str2 := if _ && _ then _ else _);
    (assert (L2 : zlen str + 1 <= zlen str2 <= zlen str + (if zlen str =? 0 then 2 else 1))
      by (unfold str2; destruct (Z.eqb_spec (zlen str + 1) 1), (Z.eqb_spec (zlen str) 0); try lia; cbn [andb]; try (destruct (_ || _)); rewrite ?zlen_app; try change (zlen [46]) with 1; change (zlen [c]) with 1; lia));
    (destruct (Z.ltb_spec 25 (zlen str2)); [destruct (zlen str =? 0); lia |]); rewrite (units_nonzero y I').
  - assert (f = 0) as -> by lia. change (Z.max 0 (0 - 4)) with 0 in D'. rewrite Z.sub_0_r in D.
    destruct D as [q Eq]. rewrite Eq, Z.mod_mul in E' by lia. rewrite E'. exists str2. split; [reflexivity | lia].
  - destruct (Z.eqb_spec (units y) 0) as [Z0 | N0]; cbn [negb]; [exists str2; split; [reflexivity | lia] |].
    apply (IH fuel (Z.max 0 (f - 4))); [lia | exact I' | lia | lia | exact D' | lia |].
    destruct (Z.eqb_spec (zlen str2) 0); [lia |]. destruct (zlen str =? 0) eqn:E0; lia.
Qed.

(** The normalised significand that every conversion starts from. *)
Lemma normalised m e : 0 <= m < 2 ^ 64 -> - N <= e ->
  let v := ld_mul (fst (frexpl (m, e))) (2, 0) in
  inside v /\ (m = 0 -> units v = 0) /\ (0 < m -> 2 ^ N <= units v < 2 * 2 ^ N /\ (2 ^ (N - (bits m - 1)) | units v)).
Proof using HN.
  intros Hm He. cbv zeta. unfold frexpl. destruct (Z.eqb_spec m 0) as [-> | M]; cbn [fst].
  - destruct (units_mul (0, e) 2 0 He ltac:(lia)) as [E I]. split; [exact I |]. split; [intros _; rewrite E; reflexivity | lia].
  - destruct (bits_spec m ltac:(lia)) as [B P]. pose proof (bits_small m 64 Hm ltac:(lia)) as L. set (b := bits m) in *.
    destruct (units_mul (m, - b) 2 0 ltac:(unfold inside; cbn [snd]; lia) ltac:(lia)) as [E I]. split; [exact I |]. split; [lia |]. intros _.
    assert (U : units (m, - b) * 2 * 2 ^ 0 = m * 2 ^ (N - (b - 1))).
    { unfold units. cbn [fst snd]. replace (N - (b - 1)) with (- b + N + 1) by lia. rewrite (Z.pow_add_r 2 (- b + N)) by lia. ring. }
    rewrite U, round64_id in E by lia. rewrite E. assert (Q : 2 ^ N = 2 ^ (b - 1) * 2 ^ (N - (b - 1))) by (rewrite <- Z.pow_add_r by lia; f_equal; lia).
    pose proof (Z.pow_pos_nonneg 2 (N - (b - 1)) ltac:(lia) ltac:(lia)). replace b with (b - 1 + 1) in B at 2 by lia.
    rewrite (Z.pow_add_r 2 (b - 1)) in B by lia. split; [rewrite Q; nia | exists m; reflexivity].
Qed.

(** Rounding to a hexadecimal digit by adding and subtracting a power of two. *)
Lemma add_round v p : inside v -> 0 <= units v < 2 * 2 ^ N -> 0 <= p <= 15 ->
  let y := ld_sub (ld_add v (1, 63 - p * 4)) (1, 63 - p * 4) in inside y /\ 0 <= units y < 16 * 2 ^ N /\ (2 ^ (N - 63) | units y).
Proof using HN.
  intros I H Hp. cbv zeta. set (q := 63 - p * 4). assert (Iq : inside (1, q)) by (unfold inside; cbn [snd]; lia).
  assert (Uq : units (1, q) = 2 ^ (q + N)) by (unfold units; cbn [fst snd]; ring).
  destruct (units_add v (1, q) I Iq) as [Ea Ia]. set (a := ld_add v (1, q)) in *. destruct (units_sub a (1, q) Ia Iq) as [Es Is]. split; [exact Is |].
  rewrite Uq in *. set (u := units v) in *. set (k := q + N - 63).
  assert (P : 2 ^ (q + N) = 2 ^ 63 * 2 ^ k) by (rewrite <- Z.pow_add_r by lia; f_equal; lia).
  assert (PN : 2 ^ N = 2 ^ (4 * p) * 2 ^ k) by (rewrite <- Z.pow_add_r by lia; f_equal; lia).
  pose proof (Z.pow_pos_nonneg 2 k ltac:(lia) ltac:(lia)) as Pk. pose proof (Z.pow_le_mono_r 2 (4 * p) 60 ltac:(lia) ltac:(lia)) as P4.
  pose proof (Z.pow_pos_nonneg 2 (4 * p) ltac:(lia) ltac:(lia)) as P40.
  assert (Bs : bits (u + 2 ^ (q + N)) = k + 64).
  { replace (k + 64) with (q + N + 1) by lia. apply bits_unique; [lia |]. rewrite (Z.pow_add_r 2 (q + N)), Z.pow_1_r by lia. rewrite P in *. nia. }
  unfold round64 in Ea. rewrite Bs in Ea. cbv zeta in Ea. replace (k + 64 - 64) with k in Ea by lia. rewrite (proj2 (Z.leb_gt k 0)) in Ea by lia.
  rewrite Z.sgn_pos, Z.mul_1_l, Z.abs_eq in Ea by lia. pose proof (rne_bounds (u + 2 ^ (q + N)) k ltac:(lia)) as R. set (s := rne (u + 2 ^ (q + N)) k) in *.
  rewrite P, Z.div_add in R by lia. pose proof (Z.div_pos u (2 ^ k) ltac:(lia) Pk). pose proof (Z.mul_div_le u (2 ^ k) Pk).
  assert (D : units a - 2 ^ (q + N) = (s - 2 ^ 63) * 2 ^ k) by (rewrite Ea, P; ring).
  assert (B : 0 <= (s - 2 ^ 63) * 2 ^ k <= u + 2 ^ k) by nia.
  rewrite D, round64_id in Es by nia. rewrite Es. split; [nia |]. exists ((s - 2 ^ 63) * 2 ^ (k - (N - 63))).
  rewrite <- Z.mul_assoc, <- Z.pow_add_r by lia. do 2 f_equal; lia.
Qed.

Lemma a_round_ok precision hp neg v : inside v -> 0 <= units v < 2 * 2 ^ N -> (2 ^ (N - 63) | units v) ->
  let y := a_round precision hp neg v in inside y /\ 0 <= units y < 16 * 2 ^ N /\ (2 ^ (N - 63) | units y).
Proof using HN.
  intros I H D. cbv zeta. unfold a_round. change ((LDBL_MANT_DIG - 1 + 3) / 4) with 16. change (LDBL_MANT_DIG - 1) with 63.
  destruct hp; cbn [andb]; [| split; [exact I |]; split; [lia | exact D]].
  destruct (Z.leb_spec 0 precision); cbn [andb]; [| split; [exact I |]; split; [lia | exact D]].
  destruct (Z.ltb_spec precision 16); [| split; [exact I |]; split; [lia | exact D]].
  pose proof (add_round v precision I H ltac:(lia)) as K. cbv zeta in K. destruct neg; [| exact K].
  set (r := (1, 63 - precision * 4)) in *. assert (Ir : inside r) by (unfold inside, r; cbn [snd]; lia).
  destruct (units_neg v) as [En In]. destruct (units_sub (ld_neg v) r (In I) Ir) as [E1 I1]. destruct (units_add _ r I1 Ir) as [E2 I2].
  destruct (units_add v r I Ir) as [F1 J1]. destruct (units_sub _ r J1 Ir) as [F2 J2]. destruct (units_neg (ld_add (ld_sub (ld_neg v) r) r)) as [E3 I3].
  split; [exact (I3 I2) |]. replace (units (ld_neg (ld_add (ld_sub (ld_neg v) r) r))) with (units (ld_sub (ld_add v r) r)); [exact (proj2 K) |].
  rewrite E3, E2, E1, F2, F1, En. replace (- units v - units r) with (- (units v + units r)) by ring. rewrite round64_opp.
  set (t := round64 (units v + units r)). replace (- t + units r) with (- (t - units r)) by ring. rewrite round64_opp. ring.
Qed.
End Units.

Lemma write_int_some room : forall v, 0 <= v < 10 ^ Z.of_nat room -> exists s, write_int_to_buf room v = Some s /\ zlen s <= Z.of_nat room.
Proof.
  induction room as [| n IH]; intros v Hv; cbn [write_int_to_buf].
  - change (10 ^ Z.of_nat 0) with 1 in Hv. destruct (Z.eqb_spec v 0); [exists []; split; [reflexivity | unfold zlen; simpl; lia] | lia].
  - destruct (Z.eqb_spec v 0); [exists []; split; [reflexivity | unfold zlen; simpl; lia] |].
    rewrite Nat2Z.inj_succ, Z.pow_succ_r in Hv by lia. destruct (IH (v / 10)) as (s & -> & L); [split; [apply Z.div_pos; lia | apply Z.div_lt_upper_bound; lia] |].
    eexists. split; [reflexivity |]. rewrite zlen_app. change (zlen [_]) with 1. lia.
Qed.

Lemma as_int_some v : smin 32 <= v <= smax 32 -> as_int v = Some v.
Proof. intros H. unfold as_int. by rewrite (proj2 (Z.leb_le _ _) (proj1 H)), (proj2 (Z.leb_le _ _) (proj2 H)). Qed.

Lemma e_digits_some E : Z.abs E < 100000 -> exists s, e_digits E = Some s.
Proof. intros H. destruct (write_int_some 12 (Z.abs E)) as (s & Es & _); [change (10 ^ Z.of_nat 12) with 1000000000000; lia |]. exists s. exact Es. Qed.

(** ** The digit array *)
Definition cell_ok (m : mem) (i : Z) : Prop := exists v, m !! i = Some v /\ 0 <= v < 1000000000.
Definition cells_ok (m : mem) (lo hi : Z) : Prop := forall i, lo <= i < hi -> cell_ok m i.
Definition same_outside (m m' : mem) (lo hi : Z) : Prop := forall i, i < lo \/ hi <= i -> m' !! i = m !! i.

Lemma set_same (m : mem) (i v : Z) : <[i := v]> m !! i = Some v.
Proof. exact (lookup_insert_eq (M := gmap Z) m i v). Qed.

Lemma set_other (m : mem) (i j v : Z) : i <> j -> <[i := v]> m !! j = m !! j.
Proof. exact (lookup_insert_ne (M := gmap Z) m i j v). Qed.

Lemma cells_sub m lo hi lo' hi' : cells_ok m lo hi -> lo <= lo' -> hi' <= hi -> cells_ok m lo' hi'.
Proof. intros H ? ? i Hi. apply H. lia. Qed.

Lemma cell_insert m i v : 0 <= v < 1000000000 -> cell_ok (<[i := v]> m) i.
Proof. intros H. exists v. rewrite set_same. auto. Qed.

Lemma cells_insert m i v lo hi : 0 <= v < 1000000000 -> (forall j, lo <= j < hi -> j <> i -> cell_ok m j) -> cells_ok (<[i := v]> m) lo hi.
Proof.
  intros Hv H j Hj. destruct (Z.eq_dec j i) as [-> | Nj]; [by apply cell_insert |]. destruct (H j Hj Nj) as (w & E & W).
  exists w. rewrite set_other by congruence. auto.
Qed.

Lemma cells_outside m m' lo hi lo' hi' : same_outside m m' lo hi -> cells_ok m' lo hi -> cells_ok m lo' hi' -> cells_ok m' lo' hi'.
Proof.
  intros S H' H i Hi. destruct (Z.lt_ge_cases i lo) as [Hl | Hl]; [| destruct (Z.lt_ge_cases i hi)]; [| apply H'; lia |];
    (destruct (H i Hi) as (v & E & V); exists v; rewrite S by lia; auto).
Qed.

Lemma same_step m i v m' lo hi lo' hi' : same_outside (<[i := v]> m) m' lo hi -> lo' <= i < hi' -> lo' <= lo -> hi <= hi' -> same_outside m m' lo' hi'.
Proof. intros S Hi Hl Hh j Hj. rewrite S by lia. apply set_other. lia. Qed.

Lemma store_some m i v : 0 <= i < BIG_SIZE -> 0 <= v < 2 ^ 32 -> store m i v = Some (<[i := v]> m).
Proof.
  intros Hi Hv. unfold store. rewrite (proj2 (Z.leb_le 0 i)), (proj2 (Z.ltb_lt i BIG_SIZE)) by lia. cbn [andb]. do 2 f_equal.
  apply wrapu_small. exact Hv.
Qed.

Lemma big_size : BIG_SIZE = 1835.
Proof. reflexivity. Qed.

(** The cells that the significand fills: one, and one for nine fractional bits each. *)
Lemma fill_some N n : 100 <= N -> forall fuel f x m z, (n < fuel)%nat -> inside N x -> 0 <= units N x < 1000000000 * 2 ^ N -> 0 <= f <= 35 ->
  (2 ^ (N - f) | units N x) -> f <= 9 * Z.of_nat n -> 0 <= z -> z + Z.of_nat n < BIG_SIZE ->
  exists m' z', fill fuel m x z = Some (m', z') /\ z < z' <= z + Z.of_nat n + 1 /\ cells_ok m' z z' /\ m' !! z = Some (units N x / 2 ^ N) /\ same_outside m m' z z'.
Proof.
  intros HN. induction n as [| n IH]; intros fuel f x m z Hfuel I Hu Hf D Hn Hz HB; (destruct fuel as [| fuel]; [lia |]); cbn [fill];
    rewrite (units_trunc N HN x I) by lia; pose proof (Z.pow_pos_nonneg 2 N ltac:(lia) ltac:(lia)) as PN;
    (assert (W : 0 <= units N x / 2 ^ N < 1000000000) by (split; [apply Z.div_pos; lia | apply Z.div_lt_upper_bound; lia]));
    pose proof (Z.pow_le_mono_r 2 f 35 ltac:(lia) ltac:(lia)) as P35;
    destruct (digit_step N HN x (5 ^ 9) 9 f I ltac:(lia) ltac:(lia) ltac:(lia) ltac:(lia) ltac:(lia) D) as (I' & E' & B' & D');
    change (5 ^ 9 * 2 ^ 9) with 1000000000 in *; rewrite (wrapu_small 32) by (unfold is_u; lia); set (w := units N x / 2 ^ N) in *;
    set (y := ld_mul (1000000000, 0) _) in *; rewrite store_some by lia; cbn [mbind option_bind]; rewrite (units_nonzero N HN y I').
  - assert (f = 0) as -> by lia. rewrite Z.sub_0_r in D. destruct D as [q Eq]. rewrite Eq, Z.mod_mul in E' by lia. rewrite E'.
    exists (<[z := w]> m), (z + 1). split; [reflexivity |]. split; [lia |]. split; [apply cells_insert; [lia | intros; lia] |].
    split; [apply set_same | intros i Hi; apply set_other; lia].
  - destruct (Z.eqb_spec (units N y) 0) as [Z0 | N0]; cbn [negb].
    + exists (<[z := w]> m), (z + 1). split; [reflexivity |]. split; [lia |]. split; [apply cells_insert; [lia | intros; lia] |].
      split; [apply set_same | intros i Hi; apply set_other; lia].
    + destruct (IH fuel (Z.max 0 (f - 9)) y (<[z := w]> m) (z + 1) ltac:(lia) I' ltac:(lia) ltac:(lia) D' ltac:(lia) ltac:(lia) ltac:(lia)) as (m' & z' & E & Z' & C & L & S).
      exists m', z'. split; [exact E |]. split; [lia |]. assert (Lz : m' !! z = Some w) by (rewrite S by lia; apply set_same).
      split; [| split; [exact Lz | eapply same_step; [exact S | lia | lia | lia]]].
      intros i Hi. destruct (Z.eq_dec i z) as [-> | Ni]; [exists w; auto | apply C; lia].
Qed.

Lemma shl_some n : forall m d shift carry, cells_ok m (d - Z.of_nat n + 1) (d + 1) -> 0 <= d - Z.of_nat n + 1 -> d < BIG_SIZE -> 1 <= shift <= 29 -> 0 <= carry <= 2 ^ 29 ->
  exists m' c, shl_cells n m d shift carry = Some (m', c) /\ cells_ok m' (d - Z.of_nat n + 1) (d + 1) /\
    same_outside m m' (d - Z.of_nat n + 1) (d + 1) /\ 0 <= c <= 2 ^ 29.
Proof.
  induction n as [| n IH]; intros m d shift carry C Hl Hd Hs Hc; cbn [shl_cells].
  { exists m, carry. split; [reflexivity |]. split; [intros i Hi; lia |]. split; [intros i Hi; reflexivity | lia]. }
  rewrite Nat2Z.inj_succ in *. destruct (C d ltac:(lia)) as (v & E & V). rewrite E. cbn [mbind option_bind].
  rewrite Z.shiftl_mul_pow2 by lia. pose proof (Z.pow_le_mono_r 2 shift 29 ltac:(lia) ltac:(lia)) as P. pose proof (Z.pow_pos_nonneg 2 shift ltac:(lia) ltac:(lia)) as P0.
  assert (X : 0 <= v * 2 ^ shift + carry <= 1000000000 * 2 ^ 29) by nia. rewrite (wrapu_small 64) by (unfold is_u; lia).
  set (x := v * 2 ^ shift + carry) in *. pose proof (Z.mod_pos_bound x 1000000000 ltac:(lia)) as M.
  assert (Q : 0 <= x / 1000000000 <= 2 ^ 29) by (split; [apply Z.div_pos; lia | apply Z.div_le_upper_bound; lia]).
  rewrite store_some, (wrapu_small 32) by (unfold is_u; lia). cbn [mbind option_bind].
  destruct (IH (<[d := x mod 1000000000]> m) (d - 1) shift (x / 1000000000)) as (m' & c & E' & C' & S' & Hc'); [| lia | lia | lia | lia |].
  { intros i Hi. destruct (C i ltac:(lia)) as (u & Eu & U). exists u. rewrite set_other by lia. auto. }
  exists m', c. split; [exact E' |]. split; [| split; [eapply same_step; [exact S' | lia | lia | lia] | exact Hc']].
  intros i Hi. destruct (Z.eq_dec i d) as [-> | Ni]; [| apply C'; lia]. exists (x mod 1000000000). rewrite S' by lia. rewrite set_same. auto.
Qed.

(** Division: with [q = 10^9 / 2^shift], a carry stays below [10^9 - q]. *)
Lemma shr_some n : forall m d shift carry, let q := 1000000000 / 2 ^ shift in
  cells_ok m d (d + Z.of_nat n) -> 0 <= d -> d + Z.of_nat n <= BIG_SIZE -> 1 <= shift <= 9 -> 0 <= carry <= 1000000000 - q ->
  exists m' c, shr_cells n m d shift carry = Some (m', c) /\ cells_ok m' d (d + Z.of_nat n) /\ same_outside m m' d (d + Z.of_nat n) /\ 0 <= c <= 1000000000 - q /\
    (n = 0%nat -> m' = m /\ c = carry) /\
    ((0 < n)%nat -> exists v, m !! d = Some v /\ m' !! d = Some (v / 2 ^ shift + carry) /\ (n = 1%nat -> c = q * (v mod 2 ^ shift)) /\
      ((1 < n)%nat -> exists w, m' !! (d + 1) = Some w /\ q * (v mod 2 ^ shift) <= w)).
Proof.
  induction n as [| n IH]; intros m d shift carry q C Hl Hd Hs Hc; cbn [shr_cells].
  { exists m, carry. split; [reflexivity |]. split; [intros i Hi; lia |]. split; [intros i Hi; reflexivity |]. split; [lia |]. split; [auto | lia]. }
  rewrite Nat2Z.inj_succ in *. destruct (C d ltac:(lia)) as (v & E & V). rewrite E. cbn [mbind option_bind].
  rewrite !Z.shiftr_div_pow2 by lia. fold q.
  assert (T : q * 2 ^ shift = 1000000000 /\ 0 < q /\ 2 <= 2 ^ shift)
    by (unfold q; assert (shift = 1 \/ shift = 2 \/ shift = 3 \/ shift = 4 \/ shift = 5 \/ shift = 6 \/ shift = 7 \/ shift = 8 \/ shift = 9) as O by lia;
        repeat (destruct O as [-> | O]; [vm_compute; auto with zarith; split; [reflexivity | split; [reflexivity | discriminate]] |]); subst shift; vm_compute; split; [reflexivity | split; [reflexivity | discriminate]]).
  destruct T as (T & Q0 & T2). assert (Lm : Z.land v (2 ^ shift - 1) = v mod 2 ^ shift) by (rewrite <- Z.land_ones by lia; f_equal; rewrite Z.ones_equiv; lia).
  rewrite Lm. set (t := 2 ^ shift) in *. pose proof (Z.mod_pos_bound v t ltac:(lia)) as M. assert (D : 0 <= v / t < q) by (split; [apply Z.div_pos; lia | apply Z.div_lt_upper_bound; lia]).
  assert (K : 0 <= q * (v mod t) <= 1000000000 - q) by nia. rewrite (wrapu_small 32 (v / t)), (wrapu_small 32 (q * (v mod t))) by (unfold is_u; lia).
  rewrite store_some by lia. cbn [mbind option_bind].
  destruct (IH (<[d := v / t + carry]> m) (d + 1) shift (q * (v mod t))) as (m' & c & E' & C' & S' & Hc' & Z0 & Z1); [| lia | lia | lia | exact K |].
  { intros i Hi. destruct (C i ltac:(lia)) as (u & Eu & U). exists u. rewrite set_other by lia. auto. }
  exists m', c. split; [exact E' |]. assert (Ld : m' !! d = Some (v / t + carry)) by (rewrite S' by lia; apply set_same).
  split; [intros i Hi; destruct (Z.eq_dec i d) as [-> | Ni]; [exists (v / t + carry); split; [exact Ld | lia] | apply C'; lia] |].
  split; [eapply same_step; [exact S' | lia | lia | lia] |]. split; [exact Hc' |]. split; [discriminate |]. intros _.
  exists v. split; [reflexivity |]. split; [exact Ld |]. split; [intros [= ->]; apply Z0; reflexivity |]. intros Hn.
  destruct Z1 as (v1 & E1 & L1 & _); [lia |]. exists (v1 / t + q * (v mod t)). split; [exact L1 |].
  rewrite set_other in E1 by lia. destruct (C (d + 1) ltac:(lia)) as (v2 & E2 & V2). rewrite E2 in E1. injection E1 as <-. pose proof (Z.div_pos v2 t ltac:(lia) ltac:(lia)). lia.
Qed.

Lemma trim_some n : forall m a z, z - a <= Z.of_nat n -> cells_ok m a z -> exists z', trim n m a z = Some z' /\ z' <= z /\ (a <= z -> a <= z') /\ (z <= a -> z' = z).
Proof.
  induction n as [| n IH]; intros m a z Hn C; cbn [trim]; (destruct (Z.ltb_spec a z) as [L | L]; [| exists z; split; [reflexivity | lia]]); [lia |].
  destruct (C (z - 1) ltac:(lia)) as (v & -> & V). cbn [mbind option_bind]. destruct (v =? 0); [| exists z; split; [reflexivity | lia]].
  destruct (IH m a (z - 1) ltac:(lia) (cells_sub m a z a (z - 1) C ltac:(lia) ltac:(lia))) as (z' & E & ? & ? & ?). exists z'. split; [exact E | lia].
Qed.

(** ** The digits between the phases

    The cells from [a] (or [r]) up to [z] are written; the ones from [r] to [a] are
    zero; there is room for a carry in front of [a]. *)
Record digits (m : mem) (a r z : Z) : Prop := {
  dg_a : 0 <= a < BIG_SIZE;
  dg_r : 0 <= r < BIG_SIZE;
  dg_z : z <= BIG_SIZE;
  dg_cells : cells_ok m (Z.min a r) (Z.max z (Z.max (a + 1) (r + 1)));
  dg_zero : forall i, r <= i < a -> m !! i = Some 0;
  dg_room : a = 0 -> r = 0 /\ (forall v, m !! 0 = Some v -> v < 2 ^ 29) }.

Definition lead (m : mem) (a : Z) : Prop := exists v, m !! a = Some v /\ v <> 0.

(** One round of the division: a nonzero leading cell, moved if it becomes zero. *)
Lemma shr_round m a r z shift : digits m a r z -> r <= a <= z -> z < BIG_SIZE -> 1 <= shift <= 9 -> lead m a ->
  exists m1 c v m2 z2, shr_cells (cells a z) m a shift 0 = Some (m1, c) /\ m1 !! a = Some v /\
    (if c =? 0 then Some (m1, z) else m3 ← store m1 z c; Some (m3, z + 1)) = Some (m2, z2) /\
    let a' := if v =? 0 then a + 1 else a in
    digits m2 a' r z2 /\ r <= a' <= z2 /\ z <= z2 <= z + 1 /\ a' <= a + 1 /\ (a = z -> a' = a) /\ lead m2 a'.
Proof.
  intros [Ha Hr Hz C Z0 Rm] Hra HB Hs (v0 & E0 & N0). destruct (Z.eq_dec a z) as [<- | Naz].
  { unfold cells. rewrite Z.sub_diag. exists m, 0, v0, m, a. split; [reflexivity |]. split; [exact E0 |]. split; [reflexivity |]. cbv zeta.
    rewrite (proj2 (Z.eqb_neq v0 0) N0). split; [by constructor |]. split; [lia |]. split; [lia |]. split; [lia |]. split; [auto | by exists v0]. }
  assert (En : Z.of_nat (cells a z) = z - a) by (unfold cells; lia). rewrite Z.min_r, Z.max_l in C by lia.
  destruct (shr_some (cells a z) m a shift 0) as (m1 & c & E & C1 & S1 & Hc & _ & F);
    [intros i Hi; apply C; lia | lia | lia | lia | split; [lia |]; assert (1000000000 / 2 ^ shift <= 1000000000) by (apply Z.div_le_upper_bound; [apply Z.pow_pos_nonneg; lia |]; pose proof (Z.pow_pos_nonneg 2 shift ltac:(lia) ltac:(lia)); lia); lia |].
  destruct F as (v & Ev & L1 & F1 & F2); [lia |]. rewrite E0 in Ev. injection Ev as <-. rewrite Z.add_0_r in L1. rewrite En in *. replace (a + (z - a)) with z in * by lia.
  pose proof (Z.pow_pos_nonneg 2 shift ltac:(lia) ltac:(lia)) as Pt. set (t := 2 ^ shift) in *. set (q := 1000000000 / t) in *.
  assert (Q0 : 0 < q) by (apply Z.div_str_pos; split; [lia |]; apply (Z.le_trans _ (2 ^ 9)); [apply Z.pow_le_mono_r; lia | lia]).
  destruct (C a ltac:(lia)) as (v1 & E1 & V0). rewrite E0 in E1. injection E1 as <-.
  assert (Cr : cells_ok m1 r z) by (eapply cells_outside; [exact S1 | exact C1 | exact C]).
  assert (Lead : v0 / t = 0 -> 0 < q * (v0 mod t)) by (intros Dz; pose proof (Z.div_mod v0 t ltac:(lia)) as Dm; rewrite Dz in Dm; nia).
  set (m2 := if c =? 0 then m1 else <[z := c]> m1). set (z2 := if c =? 0 then z else z + 1).
  assert (K : forall i, i <> z -> m2 !! i = m1 !! i) by (intros i Hi; unfold m2; destruct (c =? 0); [reflexivity | apply set_other; lia]).
  assert (C2 : cells_ok m2 r z2) by (unfold m2, z2; destruct (Z.eqb_spec c 0); [exact Cr | apply cells_insert; [lia | intros; apply Cr; lia]]).
  assert (Hz2 : z <= z2 <= z + 1) by (unfold z2; destruct (c =? 0); lia).
  exists m1, c, (v0 / t), m2, z2. split; [exact E |]. split; [exact L1 |].
  split; [unfold m2, z2; destruct (Z.eqb_spec c 0); [reflexivity | rewrite store_some by lia; reflexivity] |]. cbv zeta.
  destruct (Z.eqb_spec (v0 / t) 0) as [Dz | Dn].
  - specialize (Lead Dz). assert (Ld : lead m2 (a + 1) /\ a + 1 <= z2 /\ cell_ok m2 (a + 1)).
    { destruct (Z.eq_dec (a + 1) z) as [Ez | Nz].
      - assert (Ec : c = q * (v0 mod t)) by (apply F1; unfold cells; lia). unfold m2, z2. rewrite (proj2 (Z.eqb_neq c 0)) by lia. rewrite <- Ez.
        split; [exists c; split; [apply set_same | lia] |]. split; [lia | apply cell_insert; lia].
      - destruct F2 as (w & Ew & Hw); [unfold cells; lia |]. split; [exists w; rewrite K by lia; split; [exact Ew | lia] |]. split; [lia |]. apply C2. lia. }
    destruct Ld as (Ld & Hle & Ck). split; [| split; [lia |]; split; [exact Hz2 |]; split; [lia |]; split; [lia | exact Ld]]. constructor; try lia.
    + rewrite Z.min_r by lia. intros i Hi. destruct (Z.eq_dec i (a + 1)) as [-> | Ni]; [exact Ck | apply C2; lia].
    + intros i Hi. rewrite K by lia. destruct (Z.eq_dec i a) as [-> | Ni]; [rewrite L1, Dz; reflexivity | rewrite S1 by lia; apply Z0; lia].
  - split; [| split; [lia |]; split; [exact Hz2 |]; split; [lia |]; split; [auto | exists (v0 / t); rewrite K by lia; auto]]. constructor; try lia.
    + rewrite Z.min_r by lia. intros i Hi. apply C2. lia.
    + intros i Hi. rewrite K, S1 by lia. apply Z0. lia.
    + intros A0. subst a. destruct (Rm eq_refl) as [R0 V]. split; [exact R0 |]. intros u. rewrite K by lia. rewrite L1. intros [= <-]. specialize (V _ E0).
      apply (Z.le_lt_trans _ v0); [apply Z.div_le_upper_bound; nia | exact V].
Qed.

Lemma digits_cut m a r z z' : digits m a r z -> z' <= z -> digits m a r z'.
Proof. intros [Ha Hr Hz C Z0 Rm] H. constructor; try assumption; [lia |]. eapply cells_sub; [exact C | lia | lia]. Qed.

Lemma shift_right_some f p r : 0 <= p <= smax 32 - 40000 -> forall fuel m a z e, - e <= Z.of_nat fuel -> digits m a r z -> r <= a <= z -> lead m a ->
  (a = r \/ f = false \/ z <= r + (1 + (p + 29) / 9)) -> z + (- e + 8) / 9 <= BIG_SIZE -> e <= 0 ->
  exists m' a' z', shift_right fuel f p m a r z e = Some (m', a', z') /\ digits m' a' r z' /\ a' <= z'.
Proof.
  intros Hp. set (need := 1 + (p + 29) / 9). assert (Nd : 4 <= need) by (unfold need; assert (3 <= (p + 29) / 9) by (apply Z.div_le_lower_bound; lia); lia).
  induction fuel as [| n IH]; intros m a z e Hf D Hra L Hb HB He; cbn [shift_right];
    (destruct (Z.ltb_spec e 0) as [Le | Ge]; [| exists m, a, z; split; [reflexivity |]; split; [exact D | lia]]); [lia |].
  change (LDBL_MANT_DIG / 3) with 21. rewrite as_int_some by (unfold smin, smax in *; lia). cbn [mbind option_bind].
  rewrite Z.quot_div_nonneg by lia. replace (p + 21 + 8) with (p + 29) by lia. fold need. set (shift := Z.min (- e) 9).
  assert (Hz : z < BIG_SIZE) by (assert (1 <= (- e + 8) / 9) by (apply Z.div_le_lower_bound; lia); lia).
  destruct (shr_round m a r z shift D Hra Hz ltac:(lia) L) as (m1 & c & v & m2 & z2 & E1 & Ev & E2 & D2 & Ra2 & Rz2 & Ha2 & Az & L2).
  rewrite E1. cbn [mbind option_bind]. rewrite Ev. cbn [mbind option_bind]. rewrite E2. cbn [mbind option_bind]. set (a' := if v =? 0 then a + 1 else a) in *.
  set (b := if f then r else a'). set (z3 := if need <? z2 - b then b + need else z2).
  assert (Z3 : a' <= z3 <= z2 /\ (f = false \/ z3 <= r + need)).
  { unfold z3, b. destruct f; [| destruct (Z.ltb_spec need (z2 - a')); lia].
    assert (a' <= r + need) by (destruct Hb as [-> | [? | Hb]]; [lia | discriminate |]; destruct (Z.eq_dec a z) as [A | A]; [rewrite (Az A); lia | lia]).
    destruct (Z.ltb_spec need (z2 - r)); lia. }
  apply IH; [lia | exact (digits_cut m2 a' r z2 z3 D2 ltac:(lia)) | lia | exact L2 | right; tauto | | lia].
  assert (Dv : (- (e + shift) + 8) / 9 <= (- e + 8) / 9 - 1); [| lia].
  destruct (Z.min_spec (- e) 9) as [[? Es] | [? Es]]; fold shift in Es; rewrite Es.
  - replace (- (e + - e) + 8) with 8 by lia. change (8 / 9) with 0. assert (1 <= (- e + 8) / 9) by (apply Z.div_le_lower_bound; lia). lia.
  - replace (- e + 8) with (- (e + 9) + 8 + 1 * 9) by lia. rewrite Z.div_add by lia. lia.
Qed.

Lemma count_some n : forall fuel v i e, (n < fuel)%nat -> 0 < i -> v < i * 10 ^ Z.of_nat n -> exists e', count_digits fuel v i e = Some e' /\ e <= e' <= e + Z.of_nat n.
Proof.
  induction n as [| n IH]; intros fuel v i e Hf Hi Hv; (destruct fuel as [| fuel]; [lia |]); cbn [count_digits]; destruct (Z.leb_spec i v).
  - change (10 ^ Z.of_nat 0) with 1 in Hv. lia.
  - exists e. split; [reflexivity | lia].
  - rewrite Nat2Z.inj_succ, Z.pow_succ_r in Hv by lia. destruct (IH fuel v (i * 10) (e + 1)) as (e' & E & B); [lia | lia | lia |]. exists e'. split; [exact E | lia].
  - exists e. split; [reflexivity | lia].
Qed.

Lemma lead_exponent_some m a r : cell_ok m a -> exists e, lead_exponent m a r = Some e /\ 9 * (r - a) <= e <= 9 * (r - a) + 8.
Proof.
  intros (v & E & V). unfold lead_exponent. rewrite E. cbn [mbind option_bind].
  exact (count_some 8 11 v 10 (9 * (r - a)) ltac:(lia) ltac:(lia) ltac:(change (10 * 10 ^ Z.of_nat 8) with 1000000000; lia)).
Qed.

(** The carries of an increment. *)
Lemma carry_some n : forall fuel m a d, (n < fuel)%nat -> 0 <= a <= d -> d - a <= Z.of_nat n -> d < BIG_SIZE -> cells_ok m a d ->
  (exists v, m !! d = Some v /\ 0 <= v <= 1000000000) -> (a = 0 -> forall w, m !! 0 = Some w -> w <= 999999999 - (if d =? 0 then 0 else 1)) ->
  exists m' a' d', carry_up fuel m a d = Some (m', a', d') /\ 0 <= a' /\ a - 1 <= a' <= a /\ a' <= d' <= d /\ cells_ok m' a' (d + 1) /\ same_outside m m' a' (d + 1).
Proof.
  induction n as [| n IH]; intros fuel m a d Hf Ha Hn HB C (v & E & V) Rm; (destruct fuel as [| fuel]; [lia |]); cbn [carry_up]; rewrite E; cbn [mbind option_bind];
    (destruct (Z.ltb_spec 999999999 v) as [Hv | Hv];
     [| exists m, a, d; split; [reflexivity |]; split; [lia |]; split; [lia |]; split; [lia |]; split; [| intros i Hi; reflexivity];
        intros i Hi; destruct (Z.eq_dec i d) as [-> | Ni]; [exists v; split; [exact E | lia] | apply C; lia]]);
    rewrite store_some by lia; cbn [mbind option_bind]; (destruct (Z.ltb_spec (d - 1) a) as [Hd | Hd]; [| try lia]).
  1, 2: assert (d = a) as -> by lia; (assert (A1 : 1 <= a) by (destruct (Z.eq_dec a 0) as [-> | ?]; [specialize (Rm eq_refl _ E); simpl in Rm; lia | lia]));
    rewrite store_some by lia; cbn [mbind option_bind]; rewrite set_same; cbn [mbind option_bind]; rewrite store_some by lia; cbn [mbind option_bind];
    exists (<[a - 1 := 0 + 1]> (<[a - 1 := 0]> (<[a := 0]> m))), (a - 1), (a - 1);
    (split; [destruct fuel; cbn [carry_up]; rewrite set_same; reflexivity |]); (split; [lia |]); (split; [lia |]); (split; [lia |]);
    (split; [| intros i Hi; rewrite !set_other by lia; reflexivity]); (apply cells_insert; [lia |]; intros i Hi Ni);
    assert (i = a) as -> by lia; exists 0; rewrite set_other, set_same by lia; split; [reflexivity | lia].
  cbn [mbind option_bind]. destruct (C (d - 1) ltac:(lia)) as (v1 & E1 & V1). rewrite set_other, E1 by lia. cbn [mbind option_bind]. rewrite store_some by lia. cbn [mbind option_bind].
  destruct (IH fuel (<[d - 1 := v1 + 1]> (<[d := 0]> m)) a (d - 1)) as (m' & a' & d' & E' & A0 & A' & D' & C' & S'); [lia | lia | lia | lia | | | |].
  - intros i Hi. destruct (C i ltac:(lia)) as (w & Ew & W). exists w. rewrite !set_other by lia. auto.
  - exists (v1 + 1). split; [apply set_same | lia].
  - intros -> w. destruct (Z.eqb_spec (d - 1) 0) as [D0 | D0].
    + assert (d = 1) as -> by lia. change (1 - 1) with 0 in *. rewrite set_same. intros [= <-]. specialize (Rm eq_refl _ E1). simpl in Rm. lia.
    + rewrite !set_other by lia. intros Ew. specialize (Rm eq_refl _ Ew). destruct (Z.eqb_spec d 0); lia.
  - exists m', a', d'. split; [exact E' |]. split; [exact A0 |]. split; [exact A' |]. split; [lia |]. split; [| intros i Hi; rewrite S' by lia; rewrite !set_other by lia; reflexivity].
    intros i Hi. destruct (Z.eq_dec i d) as [-> | Ni]; [| apply C'; lia]. exists 0. rewrite S', set_other, set_same by lia. split; [reflexivity | lia].
Qed.

(** What the output needs: the cells from the first digit or the point to the last digit. *)
Record printable (m : mem) (a r z : Z) : Prop := {
  pr_a : 0 <= a < BIG_SIZE;
  pr_r : 0 <= r < BIG_SIZE;
  pr_z : z <= BIG_SIZE;
  pr_cells : cells_ok m (Z.min a r) (Z.max z (Z.max (a + 1) (r + 1))) }.

Lemma power_for_ok k : 0 <= k <= 8 -> exists c, 10 <= power_for k /\ power_for k * c = 1000000000 /\ (1 <= k -> power_for k <= 100000000).
Proof.
  intros Hk. assert (k = 0 \/ k = 1 \/ k = 2 \/ k = 3 \/ k = 4 \/ k = 5 \/ k = 6 \/ k = 7 \/ k = 8) as O by lia.
  exists (10 ^ k). repeat (destruct O as [-> | O]; [vm_compute; intuition discriminate |]). subst k. vm_compute. intuition discriminate.
Qed.

Lemma no_round_zero neg : rounds_up neg false Lt = false.
Proof. destruct neg; reflexivity. Qed.

Lemma round_some neg m a r z j e : digits m a r z -> - 100000 <= j -> (a <= r + 1 + j / 9 \/ 0 <= j) -> (a = 0 -> - 8 <= j) -> Z.abs e <= 20000 ->
  exists m' a' z' e', round_digits neg m a r z j e = Some (m', a', z', e') /\ printable m' a' r z' /\ Z.abs e' <= 20000.
Proof.
  intros [Ha Hr Hz C Z0 Rm] Hj Hd Hj0 He. pose proof big_size as BS. unfold round_digits. destruct (Z.ltb_spec j (9 * (z - r - 1))) as [Lt9 | ?];
    [| exists m, a, z, e; split; [reflexivity |]; split; [by constructor | lia]].
  change LDBL_MAX_EXP with 16384. rewrite Z.quot_div_nonneg, Z.rem_mod_nonneg by lia. replace (j + 9 * 16384) with (j + 16384 * 9) by lia.
  rewrite Z.div_add, Z.mod_add by lia. replace (r + 1 + (j / 9 + 16384 - 16384)) with (r + 1 + j / 9) by lia. cbv zeta.
  pose proof (Z.div_mod j 9 ltac:(lia)) as Dm. pose proof (Z.mod_pos_bound j 9 ltac:(lia)) as Mb. set (d := r + 1 + j / 9) in *.
  destruct (power_for_ok (j mod 9) ltac:(lia)) as (c & I1 & Ic & I2). set (i := power_for (j mod 9)) in *.
  assert (Dz : d < z) by lia. assert (Dl : a <= d \/ r + 1 <= d) by (destruct Hd; [lia | right; assert (0 <= j / 9) by (apply Z.div_pos; lia); lia]).
  destruct (C d ltac:(lia)) as (v & Ev & V). rewrite Ev. cbn [mbind option_bind]. pose proof (Z.mod_pos_bound v i ltac:(lia)) as Mv. pose proof (Z.div_mod v i ltac:(lia)) as Dv.
  set (x := v mod i) in *. assert (Kv : 0 <= v - x /\ v - x + i <= 1000000000) by (assert (0 <= v / i < c) by (split; [apply Z.div_pos; lia | apply Z.div_lt_upper_bound; lia]); nia).
  assert (Keep : forall m', cells_ok m' (Z.min a r) (Z.max z (Z.max (a + 1) (r + 1))) -> forall d', printable m' a r (if d' + 1 <? z then d' + 1 else z)).
  { intros m' C' d'. assert ((if d' + 1 <? z then d' + 1 else z) <= z) by (destruct (Z.ltb_spec (d' + 1) z); lia). constructor; [lia | lia | lia |]. eapply cells_sub; [exact C' | lia | lia]. }
  destruct (negb (x =? 0) || negb (d + 1 =? z)); cbn [mbind option_bind]; [| exists m, a, (if d + 1 <? z then d + 1 else z), e; split; [reflexivity |]; split; [apply Keep; exact C | lia]].
  assert (C1 : cells_ok (<[d := v - x]> m) (Z.min a r) (Z.max z (Z.max (a + 1) (r + 1)))) by (apply cells_insert; [lia | intros k Hk _; apply C; exact Hk]).
  destruct (Z.lt_ge_cases d a) as [Da | Da].
  - rewrite (Z0 d ltac:(lia)) in Ev. injection Ev as <-. assert (x = 0) as X0 by (unfold x; apply Z.mod_0_l; lia). rewrite (proj2 (Z.ltb_ge a d)) by lia. rewrite andb_false_r. cbn [mbind option_bind].
    rewrite X0, Z.div_0_l by lia. cbn [Z.odd orb]. rewrite (proj2 (Z.ltb_lt 0 (i / 2))) by (apply Z.div_str_pos; lia). rewrite no_round_zero. change (0 - 0) with 0.
    rewrite store_some by lia. cbn [mbind option_bind]. rewrite X0 in C1. change (0 - 0) with 0 in C1.
    eexists _, a, _, e. split; [reflexivity |]. split; [apply Keep; exact C1 | lia].
  - assert (exists pv, (if (i =? 1000000000) && (a <? d) then m !! (d - 1) else Some 0) = Some pv) as (pv & ->).
    { destruct ((i =? 1000000000) && _) eqn:B; [| by exists 0]. apply andb_prop in B as [_ B]. destruct (C (d - 1) ltac:(lia)) as (w & Ew & _). by exists w. }
    cbn [mbind option_bind]. rewrite store_some by lia. cbn [mbind option_bind]. set (up := rounds_up _ _ _). destruct up; [| eexists _, a, _, e; split; [reflexivity |]; split; [apply Keep; exact C1 | lia]].
    rewrite store_some by lia. cbn [mbind option_bind]. set (m1 := <[d := v - x + i]> (<[d := v - x]> m)).
    assert (O1 : forall k, k <> d -> m1 !! k = m !! k) by (intros k Hk; unfold m1; rewrite !set_other by lia; reflexivity).
    destruct (carry_some (Z.to_nat (d - a)) (S (cells a d + 1)) m1 a d) as (m2 & a2 & d2 & E2 & A0 & A2 & D2 & C2 & S2); [unfold cells; lia | lia | lia | lia | | | |].
    + intros k Hk. destruct (C k ltac:(lia)) as (w & Ew & W). exists w. rewrite O1 by lia. auto.
    + exists (v - x + i). split; [apply set_same | lia].
    + intros A w. destruct (Rm A) as [R0 V0]. destruct (Z.eqb_spec d 0) as [D0 | D0].
      * assert (Em : m1 !! d = Some (v - x + i)) by apply set_same. rewrite D0 in Em, Ev. rewrite Em. intros [= <-]. specialize (V0 _ Ev). specialize (Hj0 A). assert (1 <= j mod 9) by lia. specialize (I2 ltac:(lia)). lia.
      * rewrite O1 by lia. intros Ew. specialize (V0 _ Ew). lia.
    + rewrite E2. cbn [mbind option_bind]. destruct (lead_exponent_some m2 a2 r (C2 a2 ltac:(lia))) as (e2 & Ee & Be). rewrite Ee. cbn [mbind option_bind].
      eexists m2, a2, _, e2. split; [reflexivity |]. assert ((if d2 + 1 <? z then d2 + 1 else z) <= z) by (destruct (Z.ltb_spec (d2 + 1) z); lia). split; [| lia]. constructor; [lia | lia | lia |].
      intros k Hk. destruct (Z.lt_ge_cases k a2) as [? | ?]; [| destruct (Z.lt_ge_cases k (d + 1))]; [| apply C2; lia |];
        (destruct (C k ltac:(lia)) as (w & Ew & W); exists w; rewrite S2, O1 by lia; auto).
Qed.

Lemma printable_cut m a r z z' : printable m a r z -> z' <= z -> printable m a r z'.
Proof. intros [Ha Hr Hz C] H. constructor; try assumption; [lia |]. eapply cells_sub; [exact C | lia | lia]. Qed.

(** ** The output *)
Lemma cell_digits m d : cell_ok m d -> exists v s, m !! d = Some v /\ write_int_to_buf 9 v = Some s /\ zlen s <= 9.
Proof.
  intros (v & E & V). destruct (write_int_some 9 v) as (s & Es & L); [change (10 ^ Z.of_nat 9) with 1000000000; lia |]. exists v, s. auto.
Qed.

Lemma f_int_some n : forall m a d, cells_ok m d (d + Z.of_nat n) -> exists l, f_int n m a d = Some l.
Proof.
  induction n as [| n IH]; intros m a d C; cbn [f_int]; [by exists [] |]. rewrite Nat2Z.inj_succ in C.
  destruct (cell_digits m d (C d ltac:(lia))) as (v & s & -> & Es & _). cbn [mbind option_bind]. rewrite Es. cbn [mbind option_bind].
  destruct (IH m a (d + 1)) as (l & ->); [eapply cells_sub; [exact C | lia | lia] |]. cbn [mbind option_bind]. eexists. reflexivity.
Qed.

Lemma f_frac_some n : forall m d p, 0 <= p -> cells_ok m d (d + Z.of_nat n) -> exists l p', f_frac n m d p = Some (l, p') /\ -9 <= p' <= p.
Proof.
  assert (G : forall n m d p, -9 <= p -> cells_ok m d (d + Z.of_nat n) -> exists l p', f_frac n m d p = Some (l, p') /\ -9 <= p' <= p).
  { clear n. induction n as [| n IH]; intros m d p Hp C; cbn [f_frac]; [exists [], p; split; [reflexivity | lia] |]. rewrite Nat2Z.inj_succ in C.
    destruct (Z.ltb_spec 0 p); [| exists [], p; split; [reflexivity | lia]].
    destruct (cell_digits m d (C d ltac:(lia))) as (v & s & -> & Es & _). cbn [mbind option_bind]. rewrite Es. cbn [mbind option_bind].
    destruct (IH m (d + 1) (p - 9)) as (l & p' & -> & B); [lia | eapply cells_sub; [exact C | lia | lia] |]. cbn [mbind option_bind]. eexists _, p'. split; [reflexivity | lia]. }
  intros m d p Hp. apply G. lia.
Qed.

Lemma nine_length s : zlen s <= 9 -> zlen (nine s) = 9.
Proof. intros H. unfold nine, zeros. rewrite zlen_app. unfold zlen in *. rewrite repeat_length. lia. Qed.

Lemma e_cells_some ALT n : forall m a d p, -9 <= p -> cells_ok m d (d + Z.of_nat n) -> exists l p', e_cells ALT n m a d p = Some (l, p') /\ -9 <= p' <= p.
Proof.
  induction n as [| n IH]; intros m a d p Hp C; cbn [e_cells]; [exists [], p; split; [reflexivity | lia] |]. rewrite Nat2Z.inj_succ in C.
  destruct (Z.leb_spec 0 p); [| exists [], p; split; [reflexivity | lia]].
  destruct (cell_digits m d (C d ltac:(lia))) as (v & s & -> & Es & L). cbn [mbind option_bind]. rewrite Es. cbn [mbind option_bind].
  set (s1 := match s with [] => [48] | _ :: _ => s end). assert (L1 : zlen s1 <= 9) by (unfold s1; destruct s; [vm_compute; discriminate | exact L]).
  set (s2 := if d =? a then drop 1 s1 else nine s1).
  assert (L2 : 0 <= zlen s2 <= 9) by (split; [apply zlen_nonneg |]; unfold s2; destruct (d =? a); [unfold zlen in *; rewrite length_drop; lia | rewrite nine_length by exact L1; lia]).
  destruct (IH m a (d + 1) (p - zlen s2)) as (l & p' & -> & B); [lia | eapply cells_sub; [exact C | lia | lia] |]. cbn [mbind option_bind]. eexists _, p'. split; [reflexivity | lia].
Qed.

Lemma f_chunks_some ALT m a r z p : printable m a r z -> 0 <= p <= smax 32 - 20000 -> exists l, f_chunks ALT m a r z p = Some l.
Proof.
  intros [Ha Hr Hz C] Hp. unfold f_chunks. set (b := if r <? a then r else a). assert (B : b = Z.min a r) by (unfold b; destruct (Z.ltb_spec r a); lia).
  destruct (f_int_some (cells b (r + 1)) m b b) as (l & ->); [eapply cells_sub; [exact C | lia | unfold cells; lia] |]. cbn [mbind option_bind].
  destruct (f_frac_some (cells (r + 1) z) m (r + 1) p) as (l' & p' & -> & P); [lia | intros i Hi; apply C; unfold cells in Hi; lia |]. cbn [mbind option_bind].
  rewrite as_int_some by (unfold smin, smax in *; lia). cbn [mbind option_bind]. eexists. reflexivity.
Qed.

Lemma e_chunks_some ALT style m a r z e p : printable m a r z -> 0 <= p <= smax 32 - 20000 -> Z.abs e <= 20000 -> exists l, e_chunks ALT style m a z e p = Some l.
Proof.
  intros [Ha Hr Hz C] Hp He. unfold e_chunks. destruct (e_digits_some e ltac:(lia)) as (s & ->). cbn [mbind option_bind].
  set (z' := if z <=? a then a + 1 else z). assert (Z' : z' <= Z.max z (a + 1)) by (unfold z'; destruct (z <=? a); lia).
  destruct (e_cells_some ALT (cells a z') m a a p) as (l & p' & -> & P); [lia | intros i Hi; apply C; unfold cells in Hi; lia |]. cbn [mbind option_bind].
  rewrite as_int_some by (unfold smin, smax in *; lia). cbn [mbind option_bind]. eexists. reflexivity.
Qed.

Lemma trailing_some n : forall fuel v i j, (n < fuel)%nat -> 0 < v < i * 10 ^ Z.of_nat n -> 0 < i -> exists j', trailing_zeros fuel v i j = Some j' /\ j <= j' <= j + Z.of_nat n.
Proof.
  induction n as [| n IH]; intros fuel v i j Hf Hv Hi; (destruct fuel as [| fuel]; [lia |]); cbn [trailing_zeros]; destruct (Z.eqb_spec (v mod i) 0) as [Z0 | N0];
    try (exists j; split; [reflexivity | lia]).
  - change (10 ^ Z.of_nat 0) with 1 in Hv. rewrite Z.mod_small in Z0 by lia. lia.
  - rewrite Nat2Z.inj_succ, Z.pow_succ_r in Hv by lia. destruct (IH fuel v (i * 10) (j + 1)) as (j' & E & B); [lia | lia | lia |]. exists j'. split; [exact E | lia].
Qed.

Lemma g_style_some specific ALT m a r z e p : printable m a r z -> 0 <= p <= smax 32 - 40000 -> Z.abs e <= 20000 ->
  exists style p', g_style specific ALT m a r z e p = Some (style, p') /\ 0 <= p' <= smax 32 - 20010.
Proof.
  intros [Ha Hr Hz C] Hp He. unfold g_style. set (q := if p =? 0 then 1 else p). assert (Q : 1 <= q <= p + 1) by (unfold q; destruct (Z.eqb_spec p 0); lia). cbv zeta.
  set (f := (e <? q) && (-4 <=? e)). assert (exists q', (if f then as_int (q - (e + 1)) else Some (q - 1)) = Some q' /\ 0 <= q' <= q + 3) as (q' & -> & Q').
  { destruct f eqn:F; [| exists (q - 1); split; [reflexivity | lia]]. apply andb_prop in F as [F1 F2]. exists (q - (e + 1)). split; [apply as_int_some; unfold smin, smax in *; lia | lia]. }
  cbn [mbind option_bind]. destruct ALT; [eexists _, q'; split; [reflexivity | lia] |].
  assert (exists v, (if a <? z then m !! (z - 1) else Some 0) = Some v /\ 0 <= v < 1000000000) as (v & -> & V).
  { destruct (Z.ltb_spec a z); [| exists 0; split; [reflexivity | lia]]. exact (C (z - 1) ltac:(lia)). }
  cbn [mbind option_bind]. assert (exists j, (if negb (v =? 0) then trailing_zeros 11 v 10 0 else Some 9) = Some j) as (j & ->).
  { destruct (Z.eqb_spec v 0); cbn [negb]; [by exists 9 |].
    destruct (trailing_some 8 11 v 10 0 ltac:(lia) ltac:(change (10 * 10 ^ Z.of_nat 8) with 1000000000; lia) ltac:(lia)) as (j & E & _). by exists j. }
  cbn [mbind option_bind]. eexists _, _. split; [reflexivity | lia].
Qed.

Lemma tmp_len_some ALT f e p : 0 <= p <= smax 32 - 20010 -> Z.abs e <= 20000 -> exists l, tmp_len ALT f e p = Some l.
Proof.
  intros Hp He. unfold tmp_len. unfold smax in Hp. rewrite as_int_some by (unfold smin, smax; lia). cbn [mbind option_bind]. set (b := if _ || ALT then 1 else 0).
  assert (0 <= b <= 1) by (unfold b; destruct (_ || _); lia). rewrite as_int_some by (unfold smin, smax; lia). cbn [mbind option_bind].
  destruct (f && _) eqn:F; [| by eexists]. apply andb_prop in F as [_ F]. eexists. apply as_int_some. unfold smin, smax. lia.
Qed.

(** ** The conversions *)

(** The numbers of the 80-bit format, with a significand of up to 64 bits. *)
Definition ldbl_ok (x : ldbl) : bool :=
  match x with
  | LFin _ (m, e) => (0 <=? m) && (m <? 2 ^ 64) && (-16445 <=? e) && (bits m + e <=? LDBL_MAX_EXP)
  | _ => true
  end.

Lemma a_chunks_total N specific ALT precision hp neg v e : 100 <= N -> inside N v -> 0 <= units N v < 2 * 2 ^ N -> (2 ^ (N - 63) | units N v) ->
  Z.abs e <= 20000 -> precision <= smax 32 - 40000 -> exists l, a_chunks specific ALT precision hp neg v e = Some l.
Proof.
  intros HN I H D He Hp. destruct (a_round_ok N HN precision hp neg v I H D) as (I' & H' & D'). destruct (e_digits_some e ltac:(lia)) as (s & Es).
  destruct (hex_loop_some N HN 16 26 63 _ (lower_bit specific) ((0 <? precision) || ALT) [] ltac:(lia) I' H' ltac:(lia) D' ltac:(lia) ltac:(vm_compute; discriminate)) as (str & Eh & _).
  unfold a_chunks. cbv zeta. revert Es Eh. generalize (e_digits e) as x, (hex_loop 26 (a_round precision hp neg v) (lower_bit specific) ((0 <? precision) || ALT) []) as y.
  intros x y -> ->. cbn [mbind option_bind]. destruct (hp && negb (precision =? 0) && (zlen str - 2 <? precision)) eqn:B; [| eexists; reflexivity].
  apply andb_prop in B as [_ B]. pose proof (zlen_nonneg str). rewrite as_int_some by (unfold smin, smax in *; lia). eexists. reflexivity.
Qed.

Lemma shift_left_some m r z e : cells_ok m r z -> 2 <= r < z -> z <= BIG_SIZE -> 0 <= e ->
  exists m' a' z' e', shift_left m r z e = Some (m', a', z', e') /\ digits m' a' r z' /\ a' <= z' /\ 0 <= e'.
Proof.
  intros C Hr Hz He. unfold shift_left. destruct (Z.ltb_spec 0 e) as [Pe | Pe].
  - cbv zeta. assert (En : Z.of_nat (cells r z) = z - r) by (unfold cells; lia).
    destruct (shl_some (cells r z) m (z - 1) (Z.min e 29) 0) as (m1 & c & -> & C1 & S1 & Hc); rewrite ?En; [intros i Hi; apply C; lia | lia | lia | lia | lia |].
    rewrite En in *. cbn [mbind option_bind]. replace (z - 1 - (z - r) + 1) with r in * by lia. replace (z - 1 + 1) with z in * by lia.
    set (a := if c =? 0 then r else r - 1). set (m2 := if c =? 0 then m1 else <[r - 1 := c]> m1).
    assert (E2 : (if c =? 0 then Some (m1, r) else m3 ← store m1 (r - 1) c; Some (m3, r - 1)) = Some (m2, a))
      by (unfold m2, a; destruct (c =? 0); [reflexivity | rewrite store_some by lia; reflexivity]).
    assert (A : r - 1 <= a <= r) by (unfold a; destruct (c =? 0); lia).
    assert (C2 : cells_ok m2 a z) by (unfold m2, a; destruct (c =? 0); [exact C1 | apply cells_insert; [lia | intros; apply C1; lia]]).
    rewrite E2. cbn [mbind option_bind]. destruct (trim_some (cells a z) m2 a z ltac:(unfold cells; lia) C2) as (z' & E' & Z1 & Z2 & _). rewrite E'. cbn [mbind option_bind].
    exists m2, a, z', (e - Z.min e 29). split; [reflexivity |]. split; [| lia].
    constructor; [lia | lia | lia | eapply cells_sub; [exact C2 | lia | lia] | lia | lia].
  - exists m, r, z, e. split; [reflexivity |]. split; [| lia]. constructor; [lia | lia | lia | eapply cells_sub; [exact C | lia | lia] | lia | lia].
Qed.

(** From the cells of the whole number to the text. *)
Lemma tail_some specific ALT neg f g m a r z p (pre : list (list Z)) : f && g = false -> digits m a r z -> 0 <= p <= smax 32 - 40000 ->
  exists body, (e ← (if a <? z then lead_exponent m a r else Some 0);
    j ← as_int (p - (if f then 0 else e));
    let j := j - (if (g : bool) && negb (p =? 0) then 1 else 0) in
    '(m, a, z, e) ← round_digits neg m a r z j e;
    z ← trim (cells a z) m a z;
    '(style, p) ← (if g then g_style specific ALT m a r z e p else Some (specific, p));
    _ ← tmp_len ALT (Z.lor style 32 =? 102) e p;
    chunks ← (if Z.lor style 32 =? 102 then f_chunks ALT m a r z p else e_chunks ALT style m a z e p);
    Some (pre ++ chunks)) = Some body.
Proof.
  intros Fg D Hp. pose proof big_size as BS. pose proof (dg_a _ _ _ _ D) as Ha. pose proof (dg_r _ _ _ _ D) as Hr.
  assert (exists e, (if a <? z then lead_exponent m a r else Some 0) = Some e /\ (9 * (r - a) <= e <= 9 * (r - a) + 8 \/ e = 0)) as (e & -> & He).
  { destruct (Z.ltb_spec a z); [| exists 0; split; [reflexivity | lia]]. destruct (lead_exponent_some m a r) as (e & E & B); [apply (dg_cells _ _ _ _ D); lia |]. exists e. auto. }
  cbn [mbind option_bind]. rewrite as_int_some by (unfold smin, smax in *; destruct f; lia). cbn [mbind option_bind]. cbv zeta. set (j := p - (if f then 0 else e) - _).
  assert (J : (f = true /\ j = p) \/ - e <= j) by (unfold j; destruct f; [destruct g; [discriminate | left; split; [reflexivity | simpl; lia]] | right; destruct g, (Z.eqb_spec p 0); simpl; lia]).
  destruct (round_some neg m a r z j e D) as (m1 & a1 & z1 & e1 & -> & P1 & He1); [lia | | | lia |].
  { destruct J as [[_ ->] | J]; [right; lia |]. destruct He as [He | ->]; [| right; lia]. left. assert (- (r - a) - 1 <= j / 9) by (apply Z.div_le_lower_bound; lia). lia. }
  { intros A0. destruct (dg_room _ _ _ _ D A0) as [R0 _]. lia. }
  cbn [mbind option_bind]. destruct (trim_some (cells a1 z1) m1 a1 z1) as (z2 & -> & Z2 & _); [unfold cells; lia | intros i Hi; apply (pr_cells _ _ _ _ P1); lia |]. cbn [mbind option_bind].
  pose proof (printable_cut m1 a1 r z1 z2 P1 Z2) as P2.
  assert (exists style q, (if g then g_style specific ALT m1 a1 r z2 e1 p else Some (specific, p)) = Some (style, q) /\ 0 <= q <= smax 32 - 20010) as (style & q & -> & Q).
  { destruct g; [exact (g_style_some specific ALT m1 a1 r z2 e1 p P2 Hp He1) | exists specific, p; split; [reflexivity | lia]]. }
  cbn [mbind option_bind]. destruct (tmp_len_some ALT (Z.lor style 32 =? 102) e1 q Q He1) as (l & ->). cbn [mbind option_bind].
  assert (exists c, (if Z.lor style 32 =? 102 then f_chunks ALT m1 a1 r z2 q else e_chunks ALT style m1 a1 z2 e1 q) = Some c) as (c & ->);
    [| eexists; reflexivity]. destruct (Z.lor style 32 =? 102); [apply f_chunks_some | apply (e_chunks_some _ _ _ _ r)]; (exact P2 || exact He1 || lia).
Qed.

(** The cells of a number, before rounding. *)
Lemma phases_some N m e f p : 20000 <= N -> 0 <= m < 2 ^ 64 -> -16445 <= e -> bits m + e <= 16384 -> 0 <= p <= smax 32 - 40000 ->
  let v := ld_mul (fst (frexpl (m, e))) (2, 0) in
  let exponent := snd (frexpl (m, e)) - (if ld_nonzero v then 1 else 0) - (if ld_nonzero v then 28 else 0) in
  let v := if ld_nonzero v then ld_mul v (1, 28) else v in
  let r := if exponent <? 0 then 0 else BIG_SIZE - LDBL_MANT_DIG - 1 in
  exists m1 z1 m2 a2 z2 e2 m3 a3 z3, fill 64 ∅ v r = Some (m1, z1) /\ shift_left m1 r z1 exponent = Some (m2, a2, z2, e2) /\
    shift_right (Z.to_nat (- e2)) f p m2 a2 r z2 e2 = Some (m3, a3, z3) /\ digits m3 a3 r z3.
Proof.
  intros HN Hm He Hb Hp. cbv zeta. pose proof big_size as BS. change (BIG_SIZE - LDBL_MANT_DIG - 1) with 1770.
  destruct (normalised N ltac:(lia) m e Hm ltac:(lia)) as (I & U0 & U1). set (v := ld_mul _ (2, 0)) in *. rewrite (units_nonzero N ltac:(lia) v I).
  pose proof (Z.pow_pos_nonneg 2 N ltac:(lia) ltac:(lia)) as PN. destruct (Z.eq_dec m 0) as [-> | M].
  - specialize (U0 eq_refl). rewrite U0. change (negb (0 =? 0)) with false. change (snd (frexpl (0, e))) with 0. change (0 - 0 - 0) with 0. change (0 <? 0) with false. cbv iota.
    destruct (fill_some N 0 ltac:(lia) 64 0 v ∅ 1770 ltac:(lia) I ltac:(lia) ltac:(lia) ltac:(rewrite U0; apply Z.divide_0_r) ltac:(lia) ltac:(lia) ltac:(lia)) as (m1 & z1 & E1 & Z1 & C1 & _).
    destruct (shift_left_some m1 1770 z1 0 C1 ltac:(lia) ltac:(lia) ltac:(lia)) as (m2 & a2 & z2 & e2 & E2 & D2 & _ & P2).
    exists m1, z1, m2, a2, z2, e2, m2, a2, z2. split; [exact E1 |]. split; [exact E2 |]. split; [| exact D2].
    replace (Z.to_nat (- e2)) with 0%nat by lia. cbn [shift_right]. rewrite (proj2 (Z.ltb_ge e2 0)) by lia. reflexivity.
  - destruct (U1 ltac:(lia)) as [U D]. clear U0 U1. rewrite (proj2 (Z.eqb_neq (units N v) 0)) by lia. cbn [negb].
    destruct (bits_spec m ltac:(lia)) as [_ B0]. pose proof (bits_small m 64 Hm ltac:(lia)) as B64.
    assert (EE : snd (frexpl (m, e)) - 1 - 28 = bits m + e - 29) by (unfold frexpl; rewrite (proj2 (Z.eqb_neq m 0) M); cbn [snd]; lia). rewrite EE. clear EE.
    set (b := bits m) in *. set (E := b + e - 29). destruct (units_mul N ltac:(lia) v 1 28 I ltac:(lia)) as [Ev2 I2]. set (v2 := ld_mul v (1, 28)) in *. rewrite Z.mul_1_r in Ev2.
    assert (D2 : (2 ^ (N - (b - 1) + 28) | units N v * 2 ^ 28)) by (rewrite Z.pow_add_r by lia; apply Z.mul_divide_mono_r; exact D).
    assert (P1 : 2 ^ (N - (b - 1) + 28 + 64) = 2 ^ (64 - (b - 1)) * (2 ^ N * 2 ^ 28)) by (rewrite <- !Z.pow_add_r by lia; f_equal; lia).
    pose proof (Z.pow_le_mono_r 2 1 (64 - (b - 1)) ltac:(lia) ltac:(lia)) as P2.
    rewrite (round64_divide _ (N - (b - 1) + 28)) in Ev2; [| lia | exact D2 | split; [lia | rewrite P1; nia]].
    set (f0 := Z.max 0 (b - 29)). assert (D3 : (2 ^ (N - f0) | units N v2)).
    { rewrite Ev2. apply (Z.divide_trans _ (2 ^ (N - (b - 1) + 28))); [| exact D2]. exists (2 ^ (28 + f0 - (b - 1))). rewrite <- Z.pow_add_r by lia. f_equal. lia. }
    set (n := Z.to_nat ((f0 + 8) / 9)). assert (Hn : Z.of_nat n = (f0 + 8) / 9) by (unfold n; rewrite Z2Nat.id; [reflexivity | apply Z.div_pos; lia]).
    assert (N9 : f0 <= 9 * Z.of_nat n <= f0 + 8) by (rewrite Hn; pose proof (Z.div_mod (f0 + 8) 9 ltac:(lia)); pose proof (Z.mod_pos_bound (f0 + 8) 9 ltac:(lia)); lia).
    destruct (fill_some N n ltac:(lia) 64 f0 v2 ∅ (if E <? 0 then 0 else 1770) ltac:(lia) I2 ltac:(rewrite Ev2; lia) ltac:(lia) D3 ltac:(lia) ltac:(destruct (E <? 0); lia) ltac:(destruct (E <? 0); lia))
      as (m1 & z1 & E1 & Z1 & C1 & L1 & _).
    destruct (Z.ltb_spec E 0) as [Neg | Pos].
    + exists m1, z1, m1, 0, z1, E. assert (V0 : 2 ^ 28 <= units N v2 / 2 ^ N < 2 ^ 29) by (rewrite Ev2; split; [apply Z.div_le_lower_bound; lia | apply Z.div_lt_upper_bound; lia]).
      destruct (shift_right_some f p 0 Hp (Z.to_nat (- E)) m1 0 z1 E) as (m3 & a3 & z3 & E3 & D4 & _); [lia | | lia | eexists; split; [exact L1 | lia] | left; reflexivity | | lia |].
      * constructor; [lia | lia | lia | eapply cells_sub; [exact C1 | lia | lia] | lia |]. intros _. split; [reflexivity |]. intros w. rewrite L1. intros [= <-]. lia.
      * pose proof (Z.div_mod (- E + 8) 9 ltac:(lia)). pose proof (Z.mod_pos_bound (- E + 8) 9 ltac:(lia)). lia.
      * exists m3, a3, z3. split; [exact E1 |]. split; [unfold shift_left; rewrite (proj2 (Z.ltb_ge 0 E)) by lia; reflexivity |]. split; [exact E3 | exact D4].
    + destruct (shift_left_some m1 1770 z1 E C1 ltac:(lia) ltac:(lia) ltac:(lia)) as (m2 & a2 & z2 & e2 & E2 & D4 & _ & P4).
      exists m1, z1, m2, a2, z2, e2, m2, a2, z2. split; [exact E1 |]. split; [exact E2 |]. split; [| exact D4].
      replace (Z.to_nat (- e2)) with 0%nat by lia. cbn [shift_right]. rewrite (proj2 (Z.ltb_ge e2 0)) by lia. reflexivity.
Qed.

Lemma fin_chunks_some N specific SIGN ALT precision hp neg m e : 20000 <= N -> 0 <= m < 2 ^ 64 -> -16445 <= e -> bits m + e <= 16384 ->
  precision <= smax 32 - 40000 -> (hp = true -> 0 <= precision) -> exists l, fin_chunks specific SIGN ALT precision hp neg (m, e) = Some l.
Proof.
  intros HN Hm He Hb Hp Hhp. unfold fin_chunks. rewrite (surjective_pairing (frexpl (m, e))).
  assert (EE : Z.abs (snd (frexpl (m, e)) - 1) <= 20000 /\ Z.abs (snd (frexpl (m, e))) <= 20000).
  { unfold frexpl. destruct (Z.eqb_spec m 0); cbn [snd]; [lia |]. destruct (bits_spec m ltac:(lia)) as [_ ?]. pose proof (bits_small m 64 Hm ltac:(lia)). lia. }
  cbv zeta. destruct (Z.lor specific 32 =? 97).
  - destruct (normalised N ltac:(lia) m e Hm ltac:(lia)) as (I & U0 & U1). destruct (Z.eq_dec m 0) as [M | M].
    + apply (a_chunks_total N); [lia | exact I | rewrite (U0 M); split; [lia |]; apply Z.mul_pos_pos; [lia | apply Z.pow_pos_nonneg; lia] | rewrite (U0 M); apply Z.divide_0_r | destruct (ld_nonzero _); lia | lia].
    + destruct (U1 ltac:(lia)) as [U D]. apply (a_chunks_total N); [lia | exact I | | | destruct (ld_nonzero _); lia | lia].
      * split; [apply (Z.le_trans _ (2 ^ N)); [apply Z.pow_nonneg; lia | apply U] | apply U].
      * refine (Z.divide_trans _ _ _ _ D). pose proof (bits_small m 64 Hm ltac:(lia)). destruct (bits_spec m ltac:(lia)) as [_ ?].
        exists (2 ^ (63 - (bits m - 1))). rewrite <- Z.pow_add_r by lia. f_equal. lia.
  - set (p := if hp then precision else 6). assert (P : 0 <= p <= smax 32 - 40000) by (unfold p; destruct hp; [auto | unfold smax; lia]).
    pose proof (phases_some N m e (Z.lor specific 32 =? 102) p ltac:(lia) Hm He Hb P) as K. cbv zeta in K.
    set (v := ld_mul _ (2, 0)) in *.
    replace (if ld_nonzero v then (if ld_nonzero v then snd (frexpl (m, e)) - 1 else snd (frexpl (m, e))) - 28 else if ld_nonzero v then snd (frexpl (m, e)) - 1 else snd (frexpl (m, e)))
      with (snd (frexpl (m, e)) - (if ld_nonzero v then 1 else 0) - (if ld_nonzero v then 28 else 0)) by (destruct (ld_nonzero v); lia).
    set (E := snd _ - _ - _) in *. set (v2 := if ld_nonzero v then ld_mul v (1, 28) else v) in *. set (r := if E <? 0 then 0 else _) in *.
    destruct K as (m1 & z1 & m2 & a2 & z2 & e2 & m3 & a3 & z3 & E1 & E2 & E3 & D).
    rewrite E1. cbn [mbind option_bind]. rewrite E2. cbn [mbind option_bind]. rewrite E3. cbn [mbind option_bind].
    apply (tail_some specific ALT neg (Z.lor specific 32 =? 102) (Z.lor specific 32 =? 103)); [| exact D | exact P].
    destruct (Z.eqb_spec (Z.lor specific 32) 102) as [-> |]; reflexivity.
Qed.

(** Every conversion of a number of the format is defined. *)
Lemma float_chunks_some specific LJUST SIGN ALT width precision hp x : ldbl_ok x = true -> precision <= smax 32 - 40000 -> (hp = true -> 0 <= precision) ->
  exists l, float_chunks specific LJUST SIGN ALT width precision hp x = Some l.
Proof.
  intros Hx Hp Hhp. destruct x as [neg [m e] | |]; [| eexists; reflexivity ..]. unfold ldbl_ok in Hx. change LDBL_MAX_EXP with 16384 in Hx.
  apply andb_prop in Hx as [Hx H4]. apply andb_prop in Hx as [Hx H3]. apply andb_prop in Hx as [H1 H2]. apply (fin_chunks_some 20000); [lia | lia | lia | lia | exact Hp | exact Hhp].
Qed.

Lemma ldbl_of_double_ok x : ldbl_ok (ldbl_of_double x) = true.
Proof.
  unfold ldbl_of_double. destruct (isnan F64 x) eqn:Nan; [reflexivity |]. destruct (isinf F64 x) eqn:Inf; [reflexivity |].
  unfold isnan in Nan. unfold isinf in Inf. pose proof (mag_range F64 x) as R. set (a := mag F64 x) in *.
  assert (A : 0 <= a < inf_mag F64) by lia. change (inf_mag F64) with 9218868437227405312 in A. clearbody a. clear Nan Inf R.
  unfold decode, expo, frac. change (2 ^ mbits F64) with 4503599627370496. change (eunit F64) with 1074.
  pose proof (Z.mod_pos_bound a 4503599627370496 ltac:(lia)) as M. pose proof (Z.div_mod a 4503599627370496 ltac:(lia)) as Dm.
  destruct (Z.eqb_spec (a / 4503599627370496) 0); unfold ldbl_ok; change LDBL_MAX_EXP with 16384;
    match goal with |- context [bits ?m] => pose proof (bits_small m 53 ltac:(lia) ltac:(lia)) end; rewrite !andb_true_iff; lia.
Qed.
