(* ===== verification/Printf.v ===== *)
(** * printf

    [vfprintf] of [src/src/ansi/stdio.cpp] and the functions on top of it.  The
    file is any object with a [write] operation (a class), or the null pointer; the
    state of a call is the file, the count of characters written, [errno], how
    often the lock of the file is held, the values stored by [%n] and the
    arguments left.  The format is its bytes without the terminator, so the
    character at the pointer is the head of the list or 0.

    The floating point conversions are in [PrintfFloat].  [hz::to_integer], which
    reads a width or a precision, is third-party code: a parameter. *)

From S2P Require Import Prelude Ctype Utf8 PrintfFloat FloatDigits.

#[local] Open Scope Z_scope.

(** [hz::to_integer<int>] on a string: the number and the characters used. *)
Class ToInteger := to_integer : list Z -> Z * Z.

(** [file->write]: a negative result is a failure. *)
Class Sink (S : Type) := sink_write : list Z -> S -> Z * S.

(** A variable argument: the bits of an [int] or [unsigned], of a 64-bit integer,
    a string, a wide string, a pointer, the destination of a [%n], a [double] or a
    [long double]. *)
Inductive arg :=
| AInt (z : Z)
| ALong (z : Z)
| AStr (s : list Z)
| AWStr (s : list Z)
| APtr (p : Z)
| ADest (id : Z)
| ADouble (x : Z)
| ALongDouble (x : ldbl).

Record pstate (S : Type) := PState {
  sink : option S;
  written : Z;
  perrno : Z;
  held : Z;
  stores : list (Z * Z);
  args : list arg
}.
Arguments PState {S} _ _ _ _ _ _.
Arguments sink {S} _.
Arguments written {S} _.
Arguments perrno {S} _.
Arguments held {S} _.
Arguments stores {S} _.
Arguments args {S} _.

(** [PFail] is a return of -1; [PPanic] a call of [panic] or a failed
    [__ensure]; [PUndef] behaviour that C++ does not define: an argument that
    is missing or of another type, an overflow of [int] or [intmax_t]. *)
Inductive pres (S A : Type) :=
| POk (a : A) (st : pstate S)
| PFail (st : pstate S)
| PPanic
| PUndef
| PNoFuel.
Arguments POk {S A} _ _.
Arguments PFail {S A} _.
Arguments PPanic {S A}.
Arguments PUndef {S A}.
Arguments PNoFuel {S A}.

Definition PM (S A : Type) : Type := pstate S -> pres S A.

Definition pret {S A} (a : A) : PM S A := fun st => POk a st.
Definition pbind {S A B} (c : PM S A) (k : A -> PM S B) : PM S B := fun st =>
  match c st with
  | POk a st => k a st
  | PFail st => PFail st
  | PPanic => PPanic
  | PUndef => PUndef
  | PNoFuel => PNoFuel
  end.

Declare Scope printf_scope.
Delimit Scope printf_scope with printf.
Notation "x <~ c ;; k" := (pbind c (fun x => k))
  (at level 100, c at next level, right associativity) : printf_scope.
Notation "c ;~ k" := (pbind c (fun _ => k))
  (at level 100, right associativity) : printf_scope.
#[local] Open Scope printf_scope.

Inductive State := SNone | Shh | Sh | Sl | Sll | Sj | Sz | St | SL.

Record Flags := { LJUST : bool; SIGN : bool; SPACE : bool; ALT : bool; ZERO : bool }.

Definition no_flags : Flags :=
  {| LJUST := false; SIGN := false; SPACE := false; ALT := false; ZERO := false |}.
Definition flags_zero (f : Flags) : bool :=
  negb (LJUST f || SIGN f || SPACE f || ALT f || ZERO f).

Record IntOpts := {
  min_width : Z;
  precision : Z;
  negative : bool;
  always_write_sign : bool;
  plus_as_space : bool;
  pad_with_zero : bool;
  right_pad : bool;
  upper : bool;
  write_prefix : bool
}.

Definition EINVAL : Z := 22.
Definition EOVERFLOW : Z := 75.
Definition INT_MAX : Z := smax 32.

(** The character at the pointer and the one after it. *)
Definition cur (fmt : list Z) : Z := nth 0 fmt 0.
Definition cur1 (fmt : list Z) : Z := nth 1 fmt 0.
Definition digit_at (fmt : list Z) : bool := truthy (isdigit (s8 (cur fmt))).

(** The digits in front of the end of [buf], [room] characters before it. *)
Definition digit_char (up : bool) (d : Z) : Z :=
  if d <? 10 then 48 + d else if up then 55 + d else 87 + d.

Fixpoint int_digits (room : nat) (up : bool) (base value : Z) : option (list Z) :=
  match room with
  | O => None
  | S n =>
      let c := digit_char up (value mod base) in
      let value := value / base in
      if value =? 0 then Some [c]
      else match int_digits n up base value with Some s => Some (s ++ [c]) | None => None end
  end.

Section Engine.
Context {S : Type} {HS : Sink S} {TI : ToInteger}.

Definition get_state : PM S (pstate S) := fun st => POk st st.
Definition undef {A} : PM S A := fun _ => PUndef.
Definition panic {A} : PM S A := fun _ => PPanic.
Definition ensure (b : bool) : PM S unit := if b then pret tt else panic.

(** [manual_lock] and [manual_unlock] of a file that is not null. *)
Definition lock_by (n : Z) : PM S unit := fun st =>
  POk tt (match sink st with
          | Some _ => PState (sink st) (written st) (perrno st) (held st + n) (stores st) (args st)
          | None => st
          end).

Definition fail {A} (e : option Z) : PM S A := fun st =>
  PFail (PState (sink st) (written st) (default (perrno st) e) (held st) (stores st) (args st)).

(** The two ends of a write: the check of the count, and the write itself.
    [null_len] is what the null file counts. *)
Definition check_written : PM S unit := fun st =>
  if INT_MAX <? written st then (lock_by (-1) ;~ fail (Some EOVERFLOW)) st else POk tt st.

Definition write_counting (s : list Z) (null_len : Z) : PM S unit := fun st =>
  match sink st with
  | Some k =>
      let '(tmp, k) := sink_write s k in
      if tmp <? 0 then
        (lock_by (-1) ;~ fail None)
          (PState (Some k) (written st) (perrno st) (held st) (stores st) (args st))
      else check_written
        (PState (Some k) (u64 (written st + tmp)) (perrno st) (held st) (stores st) (args st))
  | None =>
      check_written
        (PState None (u64 (written st + null_len)) (perrno st) (held st) (stores st) (args st))
  end.

Definition write (s : list Z) : PM S unit := write_counting s (zlen s).

Fixpoint write_chunks (l : list (list Z)) : PM S unit :=
  match l with
  | [] => pret tt
  | s :: l => write s ;~ write_chunks l
  end.

Definition write_repeat (n c : Z) : PM S unit := write_chunks (repeat [c] (Z.to_nat n)).

(** The prefix of a number that is not empty. *)
Definition prefix_of (base : Z) (up : bool) : list Z :=
  if base =? 2 then [48; if up then 66 else 98]
  else if base =? 8 then [48]
  else if base =? 16 then [48; if up then 88 else 120]
  else [].

Definition when {A} (b : bool) (c : PM S A) (d : A) : PM S A := if b then c else pret d.

Definition write_int (value base : Z) (opts : IntOpts) : PM S unit :=
  match (if (value =? 0) && (precision opts =? 0) then Some []
         else int_digits 64 (upper opts) base value) with
  | None => undef
  | Some ds =>
      let len := zlen ds in
      let has_prefix := write_prefix opts && negb (len =? 0) in
      let actual_width :=
        Z.max len (precision opts) +
        (if negative opts || always_write_sign opts then 1 else 0) +
        (if has_prefix then zlen (prefix_of base (upper opts)) else 0) in
      if INT_MAX <? actual_width then undef
      else
        let pad_c := if pad_with_zero opts then 48 else 32 in
        when (negb (right_pad opts) && (actual_width <? min_width opts))
          (write_repeat (min_width opts - actual_width) pad_c) tt ;~
        (if negative opts then write [45]
         else if always_write_sign opts then write [43]
         else if plus_as_space opts then write [32]
         else pret tt) ;~
        when (has_prefix && ((base =? 2) || (base =? 8) || (base =? 16)))
          (write (prefix_of base (upper opts))) tt ;~
        when (len <? precision opts) (write_repeat (precision opts - len) 48) tt ;~
        write ds ;~
        when (right_pad opts && (actual_width <? min_width opts))
          (write_repeat (min_width opts - actual_width) pad_c) tt
  end.

(** ** Arguments *)
Definition va_arg : PM S arg := fun st =>
  match args st with
  | [] => PUndef
  | a :: rest => POk a (PState (sink st) (written st) (perrno st) (held st) (stores st) rest)
  end.

Definition va_int : PM S Z := a <~ va_arg ;; match a with AInt z => pret (s32 z) | _ => undef end.
Definition va_long : PM S Z := a <~ va_arg ;; match a with ALong z => pret (s64 z) | _ => undef end.

Definition pop_signed_int (state : State) : PM S Z :=
  match state with
  | SNone | Shh | Sh => va_int
  | Sl | Sll | Sj | Sz | St => va_long
  | SL => panic
  end.

Definition pop_unsigned_int (state : State) : PM S Z :=
  match state with
  | SNone | Shh | Sh => z <~ va_int ;; pret (u32 z)
  | Sl | Sll | Sj | Sz | St => z <~ va_long ;; pret (u64 z)
  | SL => panic
  end.

(** ** The parts of a conversion specification *)
Fixpoint parse_flags (fmt : list Z) (f : Flags) : option (Flags * list Z) :=
  match fmt with
  | [] => Some (f, [])
  | c :: fmt' =>
      if c =? 45 then parse_flags fmt'
        {| LJUST := true; SIGN := SIGN f; SPACE := SPACE f; ALT := ALT f; ZERO := ZERO f |}
      else if c =? 43 then parse_flags fmt'
        {| LJUST := LJUST f; SIGN := true; SPACE := SPACE f; ALT := ALT f; ZERO := ZERO f |}
      else if c =? 32 then parse_flags fmt'
        {| LJUST := LJUST f; SIGN := SIGN f; SPACE := SPACE f || negb (SIGN f); ALT := ALT f;
           ZERO := ZERO f |}
      else if c =? 35 then parse_flags fmt'
        {| LJUST := LJUST f; SIGN := SIGN f; SPACE := SPACE f; ALT := true; ZERO := ZERO f |}
      else if c =? 48 then parse_flags fmt'
        {| LJUST := LJUST f; SIGN := SIGN f; SPACE := SPACE f; ALT := ALT f;
           ZERO := ZERO f || negb (LJUST f) |}
      else if c =? 39 then None
      else Some (f, fmt)
  end.

Definition set_ljust (f : Flags) : Flags :=
  {| LJUST := true; SIGN := SIGN f; SPACE := SPACE f; ALT := ALT f; ZERO := ZERO f |}.
Definition clear_zero (f : Flags) : Flags :=
  {| LJUST := LJUST f; SIGN := SIGN f; SPACE := SPACE f; ALT := ALT f; ZERO := false |}.

(** [width], [has_width], the flags and the rest of the format. *)
Definition parse_width (fmt : list Z) (f : Flags) : PM S (Z * bool * Flags * list Z) :=
  if digit_at fmt then
    let '(w, count) := to_integer fmt in pret (w, true, f, drop (Z.to_nat count) fmt)
  else if cur fmt =? 42 then
    let fmt := drop 1 fmt in
    if digit_at fmt && (cur1 fmt =? 36) then panic
    else
      w <~ va_int ;;
      if w <? 0 then if w =? smin 32 then undef else pret (- w, true, set_ljust f, fmt)
      else pret (w, true, f, fmt)
  else pret (0, false, f, fmt).

Definition parse_precision (fmt : list Z) (f : Flags) : PM S (Z * bool * Flags * list Z) :=
  if cur fmt =? 46 then
    let fmt := drop 1 fmt in
    if digit_at fmt then
      let '(p, count) := to_integer fmt in
      pret (p, true, clear_zero f, drop (Z.to_nat count) fmt)
    else if cur fmt =? 42 then
      let fmt := drop 1 fmt in
      if digit_at fmt && (cur1 fmt =? 36) then panic
      else
        p <~ va_int ;;
        if 0 <=? p then pret (p, true, clear_zero f, fmt) else pret (p, false, f, fmt)
    else pret (0, true, clear_zero f, fmt)
  else pret (0, false, f, fmt).

Definition parse_length (fmt : list Z) : State * list Z :=
  let c := cur fmt in
  let rest := drop 1 fmt in
  if c =? 104 then if cur rest =? 104 then (Shh, drop 1 rest) else (Sh, rest)
  else if c =? 108 then if cur rest =? 108 then (Sll, drop 1 rest) else (Sl, rest)
  else if c =? 106 then (Sj, rest)
  else if c =? 122 then (Sz, rest)
  else if c =? 116 then (St, rest)
  else if c =? 76 then (SL, rest)
  else (SNone, fmt).

Definition int_opts (f : Flags) (width : Z) (has_width : bool) (prec : Z) (has_precision : bool)
  (neg up prefix : bool) : IntOpts :=
  {| min_width := if has_width then width else 0;
     precision := if has_precision then prec else 1;
     negative := neg; always_write_sign := SIGN f; plus_as_space := SPACE f;
     pad_with_zero := ZERO f; right_pad := LJUST f; upper := up; write_prefix := prefix |}.

Definition pointer_opts : IntOpts :=
  {| min_width := 0; precision := 1; negative := false; always_write_sign := false;
     plus_as_space := false; pad_with_zero := false; right_pad := false; upper := false;
     write_prefix := true |}.

(** ** The conversions *)

(** The encoding of a wide character, [?] if it has none. *)
Definition wide_bytes (c : Z) : list Z := default [63] (wcrtomb c).

Definition conv_signed (f : Flags) width hw prec hp state : PM S unit :=
  value <~ pop_signed_int state ;;
  if value =? smin 64 then undef
  else write_int (Z.abs value) 10 (int_opts f width hw prec hp (value <? 0) false false).

Definition conv_unsigned (f : Flags) width hw prec hp state (base : Z) (up prefix : bool) : PM S unit :=
  value <~ pop_unsigned_int state ;;
  write_int value base (int_opts f width hw prec hp false up prefix).

Definition conv_float (f : Flags) (spec width prec : Z) (hp : bool) (state : State) : PM S unit :=
  value <~ match state with
           | SL => a <~ va_arg ;; match a with ALongDouble x => pret x | _ => undef end
           | SNone | Sl => a <~ va_arg ;; match a with ADouble x => pret (ldbl_of_double x) | _ => undef end
           | _ => panic
           end ;;
  match float_chunks spec (LJUST f) (SIGN f) (ALT f) width prec hp value with
  | Some l => write_chunks l
  | None => undef
  end.

Definition conv_char (f : Flags) (state : State) : PM S unit :=
  ensure (flags_zero f) ;~
  match state with
  | Sl => c <~ va_int ;; write (wide_bytes c)
  | SNone => c <~ va_int ;; write [u8 c]
  | _ => panic
  end.

(** At most [precision] characters of the string. *)
Definition clip (s : list Z) (prec : Z) (hp : bool) : list Z :=
  if hp then take (Z.to_nat (u64 prec)) s else s.

Definition conv_string (prec : Z) (hp : bool) (state : State) : PM S unit :=
  match state with
  | Sl =>
      a <~ va_arg ;;
      match a with
      | AWStr s => write_chunks (map wide_bytes (clip s prec hp))
      | _ => undef
      end
  | SNone =>
      a <~ va_arg ;;
      match a with
      | AStr s => match clip s prec hp with [] => pret tt | s => write s end
      | _ => undef
      end
  | _ => panic
  end.

(** The width of the object a [%n] stores to. *)
Definition store_bits (state : State) : option Z :=
  match state with
  | SNone => Some 32
  | Shh => Some 8
  | Sh => Some 16
  | Sl | Sll | Sj | Sz | St => Some 64
  | SL => None
  end.

Definition conv_count (state : State) : PM S unit :=
  match store_bits state with
  | None => pret tt
  | Some w =>
      a <~ va_arg ;;
      match a with
      | ADest id => fun st =>
          POk tt (PState (sink st) (written st) (perrno st) (held st)
                    (stores st ++ [(id, wraps w (written st))]) (args st))
      | _ => undef
      end
  end.

Definition convert (c : Z) (f : Flags) (width : Z) (hw : bool) (prec : Z) (hp : bool)
  (state : State) : PM S unit :=
  if (c =? 100) || (c =? 105) then conv_signed f width hw prec hp state
  else if existsb (Z.eqb c) [102; 70; 101; 69; 103; 71; 97; 65] then
    conv_float f c width prec hp state
  else if c =? 117 then conv_unsigned f width hw prec hp state 10 false false
  else if (c =? 120) || (c =? 88) then conv_unsigned f width hw prec hp state 16 (c =? 88) (ALT f)
  else if c =? 111 then conv_unsigned f width hw prec hp state 8 false (ALT f)
  else if (c =? 98) || (c =? 66) then conv_unsigned f width hw prec hp state 2 (c =? 66) (ALT f)
  else if c =? 112 then
    a <~ va_arg ;; match a with APtr p => write_int (u64 p) 16 pointer_opts | _ => undef end
  else if c =? 99 then conv_char f state
  else if c =? 115 then conv_string prec hp state
  else if c =? 110 then conv_count state
  else write_counting [c] 0.

(** ** The loop over the format *)

(** The literal text at the pointer: what is written, and the format after it. *)
Fixpoint literal (fmt : list Z) : list Z * list Z :=
  match fmt with
  | c :: fmt' => if c =? 37 then ([], fmt) else let '(s, r) := literal fmt' in (c :: s, r)
  | [] => ([], [])
  end.

(** The [%%] that follow it: each counts for one character, and the [len]
    characters from [start] on are written. *)
Fixpoint percents (fmt : list Z) : nat * list Z :=
  match fmt with
  | 37 :: 37 :: fmt' => let '(n, r) := percents fmt' in (n + 1, r)%nat
  | _ => (0%nat, fmt)
  end.

Definition specification (fmt : list Z) : PM S (list Z) :=
  if digit_at fmt && (cur1 fmt =? 36) then panic
  else
    match parse_flags fmt no_flags with
    | None => panic
    | Some (f, fmt) =>
        w <~ parse_width fmt f ;;
        let '(width, hw, f, fmt) := w in
        p <~ parse_precision fmt f ;;
        let '(prec, hp, f, fmt) := p in
        let '(state, fmt) := parse_length fmt in
        match fmt with
        | [] => lock_by (-1) ;~ fail (Some EINVAL)
        | c :: fmt => convert c f width hw prec hp state ;~ pret fmt
        end
    end.

Fixpoint format_loop (fuel : nat) (fmt : list Z) : PM S Z :=
  match fuel with
  | O => fun _ => PNoFuel
  | Datatypes.S n =>
      let '(text, after) := literal fmt in
      let '(k, rest) := percents after in
      let len := (length text + k)%nat in
      if (len =? 0)%nat then
        match fmt with
        | [] => lock_by (-1) ;~ st <~ get_state ;; pret (s32 (written st))
        | _ :: fmt => fmt <~ specification fmt ;; format_loop n fmt
        end
      else write (take len fmt) ;~ format_loop n rest
  end.

Definition vfprintf (fuel : nat) (fmt : list Z) : PM S Z := lock_by 1 ;~ format_loop fuel fmt.
End Engine.

(** ** Printing into memory *)

(** The [write] of the string file: [end_room] bytes in all. *)
Record str_file := { room : Z; out : list Z }.

#[export] Instance str_sink : Sink str_file := fun s f =>
  let can_copy := Z.min (room f - zlen (out f)) (zlen s) in
  (zlen s, {| room := room f; out := out f ++ take (Z.to_nat can_copy) s |}).

(** What the caller of [vsnprintf] sees: the returned value, [errno] and the
    stored counts, and the bytes of the buffer that are set. *)
Inductive sn_result :=
| SnRet (ret errno : Z) (stores : list (Z * Z)) (buffer : list Z)
| SnPanic
| SnUndef
| SnNoFuel.

Definition terminate (size : Z) (s : list Z) : list Z :=
  if negb (zlen s =? size) then s ++ [0]
  else if negb (size =? 0) then take (Z.to_nat (size - 1)) s ++ [0]
  else s.

Definition initial {S} (k : option S) (e : Z) (l : list arg) : pstate S :=
  PState k 0 e 0 [] l.

Definition vsnprintf `{ToInteger} (fuel : nat) (size : Z) (fmt : list Z) (e : Z) (ap : list arg)
  : sn_result :=
  let buffer st := match sink st with Some f => terminate size (out f) | None => [] end in
  match vfprintf fuel fmt (initial (Some {| room := size; out := [] |}) e ap) with
  | POk ret st => SnRet ret (perrno st) (stores st) (buffer st)
  | PFail st => SnRet (-1) (perrno st) (stores st) (buffer st)
  | PPanic => SnPanic
  | PUndef => SnUndef
  | PNoFuel => SnNoFuel
  end.

Definition snprintf `{ToInteger} : nat -> Z -> list Z -> Z -> list arg -> sn_result := vsnprintf.

Definition SIZE_MAX : Z := umax 64.
Definition vsprintf `{ToInteger} (fuel : nat) (fmt : list Z) (e : Z) (ap : list arg) : sn_result :=
  vsnprintf fuel SIZE_MAX fmt e ap.
Definition sprintf `{ToInteger} : nat -> list Z -> Z -> list arg -> sn_result := vsprintf.

(** [vasprintf]: a first run counts, a second one prints into the allocated
    buffer; [alloc_ok] says whether [malloc] finds the bytes.  The counts of both
    runs are stored. *)
Inductive as_result :=
| AsRet (ret errno : Z) (stores : list (Z * Z)) (buffer : option (list Z))
| AsPanic
| AsUndef
| AsNoFuel.

Definition ENOMEM : Z := 12.

Definition vasprintf `{ToInteger} (alloc_ok : Z -> bool) (fuel : nat) (fmt : list Z) (e : Z)
  (ap : list arg) : as_result :=
  match vsnprintf fuel 0 fmt e ap with
  | SnRet len e1 st1 _ =>
      if len <? 0 then AsRet len e1 st1 None
      else if len =? INT_MAX then AsUndef
      else if negb (alloc_ok (len + 1)) then AsRet (-1) ENOMEM st1 None
      else
        match vsnprintf fuel (len + 1) fmt e1 ap with
        | SnRet ret e2 st2 buffer => AsRet ret e2 (st1 ++ st2) (Some buffer)
        | SnPanic => AsPanic
        | SnUndef => AsUndef
        | SnNoFuel => AsNoFuel
        end
  | SnPanic => AsPanic
  | SnUndef => AsUndef
  | SnNoFuel => AsNoFuel
  end.

Definition asprintf `{ToInteger} : (Z -> bool) -> nat -> list Z -> Z -> list arg -> as_result := vasprintf.

(** ** Two files that cannot be told apart

    If the writes to two files return the same values, the two runs of
    [vfprintf] do the same. *)
Create HintDb printf.

Section Simulation.
Context {S1 S2 : Type} {HS1 : Sink S1} {HS2 : Sink S2} {TI : ToInteger}.
Context (R : S1 -> S2 -> Prop).
Context (R_write : forall s k1 k2, R k1 k2 ->
  fst (sink_write s k1) = fst (sink_write s k2) /\ R (snd (sink_write s k1)) (snd (sink_write s k2))).

Definition st_rel (st1 : pstate S1) (st2 : pstate S2) : Prop :=
  match sink st1, sink st2 with Some k1, Some k2 => R k1 k2 | None, None => True | _, _ => False end /\
  written st1 = written st2 /\ perrno st1 = perrno st2 /\ held st1 = held st2 /\
  stores st1 = stores st2 /\ args st1 = args st2.

Definition res_rel {A} (r1 : pres S1 A) (r2 : pres S2 A) : Prop :=
  match r1, r2 with
  | POk a st1, POk b st2 => a = b /\ st_rel st1 st2
  | PFail st1, PFail st2 => st_rel st1 st2
  | PPanic, PPanic | PUndef, PUndef | PNoFuel, PNoFuel => True
  | _, _ => False
  end.

Definition rel {A} (c1 : PM S1 A) (c2 : PM S2 A) : Prop :=
  forall st1 st2, st_rel st1 st2 -> res_rel (c1 st1) (c2 st2).

Lemma rel_ret {A} (a : A) : rel (pret a) (pret a).
Proof using. intros st1 st2 H. split; [reflexivity | exact H]. Qed.

Lemma rel_bind {A B} (c1 : PM S1 A) c2 (k1 : A -> PM S1 B) k2 :
  rel c1 c2 -> (forall a, rel (k1 a) (k2 a)) -> rel (pbind c1 k1) (pbind c2 k2).
Proof using.
  intros Hc Hk st1 st2 H. specialize (Hc st1 st2 H). unfold pbind.
  destruct (c1 st1), (c2 st2); simpl in *; try tauto. destruct Hc as [<- Hs]. apply Hk, Hs.
Qed.

Lemma rel_undef {A} : rel (A := A) undef undef.
Proof using. intros st1 st2 H. exact I. Qed.
Lemma rel_panic {A} : rel (A := A) panic panic.
Proof using. intros st1 st2 H. exact I. Qed.
Lemma rel_nofuel {A} : rel (A := A) (fun _ => PNoFuel) (fun _ => PNoFuel).
Proof using. intros st1 st2 H. exact I. Qed.

Ltac st_tac :=
  intros st1 st2 (Hk & Hw & He & Hh & Hs & Ha);
  destruct st1 as [s1 w1 e1 h1 t1 a1], st2 as [s2 w2 e2 h2 t2 a2]; simpl in *; subst.

Lemma rel_lock n : rel (lock_by n) (lock_by n).
Proof using. st_tac. unfold lock_by. simpl. destruct s1, s2; try tauto; repeat split; assumption. Qed.
Lemma rel_fail {A} e : rel (A := A) (fail e) (fail e).
Proof using. st_tac. repeat split; assumption. Qed.
Lemma rel_va_arg : rel va_arg va_arg.
Proof using. st_tac. unfold va_arg. simpl. destruct a2; [exact I | repeat split; assumption]. Qed.
Lemma rel_count : rel (fun st => POk (written st) st) (fun st => POk (written st) st).
Proof using. st_tac. repeat split; assumption. Qed.
Lemma rel_store id w :
  rel (fun st => POk tt (PState (sink st) (written st) (perrno st) (held st) (stores st ++ [(id, wraps w (written st))]) (args st)))
      (fun st => POk tt (PState (sink st) (written st) (perrno st) (held st) (stores st ++ [(id, wraps w (written st))]) (args st))).
Proof using. st_tac. repeat split; assumption. Qed.
Hint Resolve rel_ret rel_undef rel_panic rel_nofuel rel_lock rel_fail rel_va_arg rel_store : printf.

Lemma rel_check : rel check_written check_written.
Proof using.
  intros st1 st2 H. pose proof H as (_ & Hw & _). unfold check_written. rewrite Hw.
  destruct (INT_MAX <? written st2); [| split; [reflexivity | exact H]].
  revert st1 st2 H Hw. intros st1 st2 H _. revert st1 st2 H.
  change (rel (A := unit) (lock_by (-1) ;~ fail (Some EOVERFLOW)) (lock_by (-1) ;~ fail (Some EOVERFLOW))).
  apply rel_bind; auto with printf.
Qed.

Lemma rel_write_counting s n : rel (write_counting s n) (write_counting s n).
Proof using R_write.
  st_tac. unfold write_counting. simpl. destruct s1 as [k1 |], s2 as [k2 |]; try tauto.
  - pose proof (R_write s k1 k2 Hk) as [E Hr]. destruct (sink_write s k1) as [n1 k1'], (sink_write s k2) as [n2 k2'].
    simpl in *. subst n2. destruct (n1 <? 0).
    + apply (rel_bind _ _ (fun _ => fail None) (fun _ => fail None) (rel_lock (-1))); auto with printf.
      repeat split; assumption.
    + apply rel_check. repeat split; assumption.
  - apply rel_check. repeat split; assumption.
Qed.

Lemma rel_write s : rel (write s) (write s).
Proof using R_write. apply rel_write_counting. Qed.
Hint Resolve rel_write rel_write_counting : printf.

Lemma rel_chunks l : rel (write_chunks l) (write_chunks l).
Proof using R_write. induction l; simpl; [apply rel_ret | apply rel_bind; auto with printf]. Qed.
Hint Resolve rel_chunks : printf.

(** Both sides take the same branch. *)
Ltac rel_step :=
  match goal with
  | |- rel (pbind _ _) (pbind _ _) => apply rel_bind; [| intros ?]
  | |- rel (if ?b then _ else _) _ => destruct b
  | |- rel (match ?x with _ => _ end) _ => destruct x
  | |- rel (write_repeat _ _) _ => unfold write_repeat
  | |- rel (when _ _ _) _ => unfold when
  | |- _ => solve [auto with printf]
  end.
Ltac rel_tac := cbv zeta; repeat (rel_step; cbv zeta).

Lemma rel_write_int v b o : rel (write_int v b o) (write_int v b o).
Proof using R_write. unfold write_int. rel_tac. Qed.
Lemma rel_va_int : rel va_int va_int.
Proof using. unfold va_int. rel_tac. Qed.
Lemma rel_va_long : rel va_long va_long.
Proof using. unfold va_long. rel_tac. Qed.
Hint Resolve rel_write_int rel_va_int rel_va_long : printf.

Lemma rel_convert c f w hw p hp s : rel (convert c f w hw p hp s) (convert c f w hw p hp s).
Proof using R_write.
  unfold convert, conv_signed, conv_unsigned, conv_float, conv_char, conv_string, conv_count,
    pop_signed_int, pop_unsigned_int, ensure. rel_tac.
Qed.
Hint Resolve rel_convert : printf.

Lemma rel_specification fmt : rel (specification fmt) (specification fmt).
Proof using R_write. unfold specification, parse_width, parse_precision. rel_tac. Qed.
Hint Resolve rel_specification : printf.

Lemma rel_format n : forall fmt, rel (format_loop n fmt) (format_loop n fmt).
Proof using R_write.
  induction n as [| n IH]; intros fmt; cbn [format_loop]; [auto with printf |].
  destruct (literal fmt) as [t a], (percents a) as [k r]. destruct (length t + k =? 0)%nat.
  - destruct fmt as [| c fmt]; [| rel_tac].
    apply rel_bind; [auto with printf | intros _]. st_tac. repeat split; assumption.
  - rel_tac.
Qed.

Lemma rel_vfprintf n fmt : rel (vfprintf n fmt) (vfprintf n fmt).
Proof using R_write. apply rel_bind; [auto with printf | intros _; apply rel_format]. Qed.
End Simulation.

(** ** An invariant of the run

    [C] relates the file and the count of characters; it is kept by a write that
    the count of characters survives. *)
Section Invariant.
Context {S : Type} {HS : Sink S} {TI : ToInteger}.
Context (C : S -> Z -> Prop) (h : Z).
Context (C_write : forall s k w, C k w -> 0 <= fst (sink_write s k) ->
  C (snd (sink_write s k)) (u64 (w + fst (sink_write s k)))).

Definition inv (st : pstate S) : Prop :=
  exists k, sink st = Some k /\ C k (written st) /\ held st = h /\ 0 <= written st <= INT_MAX.

(** After a failure the lock is released. *)
Definition released (st : pstate S) : Prop := sink st <> None /\ held st = h - 1.

Definition ok {A} (Q : A -> Prop) (c : PM S A) : Prop := forall st, inv st ->
  match c st with
  | POk a st' => Q a /\ inv st'
  | PFail st' => released st'
  | PPanic | PUndef => True
  | PNoFuel => False
  end.

Abbreviation keeps := (ok (fun _ => True)).

Lemma ok_ret {A} (Q : A -> Prop) a : Q a -> ok Q (pret a).
Proof using. intros Ha st H. split; assumption. Qed.
Lemma keeps_ret {A} (a : A) : keeps (pret a).
Proof using. apply ok_ret. exact I. Qed.
Lemma ok_undef {A} (Q : A -> Prop) : ok Q undef.
Proof using. intros st H. exact I. Qed.
Lemma ok_panic {A} (Q : A -> Prop) : ok Q panic.
Proof using. intros st H. exact I. Qed.

Lemma ok_bind {A B} (Q : A -> Prop) (Q' : B -> Prop) c k :
  ok Q c -> (forall a, Q a -> ok Q' (k a)) -> ok Q' (pbind c k).
Proof using.
  intros Hc Hk st H. specialize (Hc st H). unfold pbind. destruct (c st); try exact Hc.
  apply Hk; apply Hc.
Qed.

Lemma unlock_fail {A} (Q : A -> Prop) e : ok Q (lock_by (-1) ;~ fail e).
Proof using.
  intros st (k & Ek & _ & Eh & _). unfold pbind, lock_by, fail. rewrite Ek. simpl.
  split; simpl; [discriminate | lia].
Qed.

Lemma ok_va_arg : keeps va_arg.
Proof using. intros st H. unfold va_arg. destruct (args st); [exact I | split; [exact I | exact H]]. Qed.

Lemma ok_store id w : keeps (fun st =>
  POk tt (PState (sink st) (written st) (perrno st) (held st) (stores st ++ [(id, wraps w (written st))]) (args st))).
Proof using. intros st H. split; [exact I | exact H]. Qed.

Lemma ok_write_counting s n : keeps (write_counting s n).
Proof using C_write.
  intros st (k & Ek & Hc & Eh & Hw). unfold write_counting. rewrite Ek.
  pose proof (C_write s k (written st) Hc) as Hc'. destruct (sink_write s k) as [tmp k']. simpl in Hc'.
  destruct (Z.ltb_spec tmp 0).
  - unfold pbind, lock_by, fail. simpl. split; simpl; [discriminate | lia].
  - unfold check_written. cbn [written]. destruct (Z.ltb_spec INT_MAX (u64 (written st + tmp))).
    + unfold pbind, lock_by, fail. simpl. split; simpl; [discriminate | lia].
    + split; [exact I |]. exists k'. simpl. repeat split; auto.
      apply wrapu_range. lia.
Qed.

Lemma ok_chunks l : keeps (write_chunks l).
Proof using C_write.
  induction l as [| s l IH]; simpl; [apply keeps_ret |]. eapply ok_bind; [apply ok_write_counting | intros; exact IH].
Qed.

Lemma ok_write s : keeps (write s).
Proof using C_write. apply ok_write_counting. Qed.

Hint Resolve keeps_ret ok_undef ok_panic unlock_fail ok_va_arg ok_store ok_write ok_write_counting ok_chunks : printf.

Ltac ok_step :=
  match goal with
  | |- ok _ (pbind (lock_by _) (fun _ => fail _)) => apply unlock_fail
  | |- ok _ (pbind _ _) => eapply (ok_bind (fun _ => True)); [| intros ? _]
  | |- ok _ (if ?b then _ else _) => destruct b
  | |- ok _ (match ?x with _ => _ end) => destruct x
  | |- ok _ (write_repeat _ _) => unfold write_repeat
  | |- ok _ (when _ _ _) => unfold when
  | |- _ => solve [auto with printf]
  end.
Ltac ok_tac := cbv zeta; repeat (ok_step; cbv zeta).

Lemma ok_write_int v b o : keeps (write_int v b o).
Proof using C_write. unfold write_int. ok_tac. Qed.
Lemma ok_va_int : keeps va_int.
Proof using. unfold va_int. ok_tac. Qed.
Lemma ok_va_long : keeps va_long.
Proof using. unfold va_long. ok_tac. Qed.
Hint Resolve ok_write_int ok_va_int ok_va_long : printf.

Lemma ok_convert c f w hw p hp s : keeps (convert c f w hw p hp s).
Proof using C_write.
  unfold convert, conv_signed, conv_unsigned, conv_float, conv_char, conv_string, conv_count,
    pop_signed_int, pop_unsigned_int, ensure. ok_tac.
Qed.

(** Every part of a specification leaves a format that is not longer. *)
Definition shorter {A B C : Type} (fmt : list Z) (r : A * B * C * list Z) : Prop :=
  (length (snd r) <= length fmt)%nat.

Lemma parse_flags_length fmt : forall f f' fmt', parse_flags fmt f = Some (f', fmt') ->
  (length fmt' <= length fmt)%nat.
Proof using.
  induction fmt as [| c fmt IH]; intros f f' fmt' E; simpl in E; [injection E as _ <-; auto |].
  repeat match type of E with context [if ?b then _ else _] => destruct b end;
    try discriminate; try (apply IH in E; simpl; lia). injection E as _ <-. auto.
Qed.

Lemma ok_width fmt f : ok (shorter fmt) (parse_width fmt f).
Proof using.
  unfold parse_width, shorter. cbv zeta. destruct (digit_at fmt).
  { destruct (to_integer fmt). apply ok_ret. simpl. rewrite length_drop. lia. }
  destruct (cur fmt =? 42); [| apply ok_ret; simpl; lia].
  destruct (digit_at _ && _); [apply ok_panic |]. eapply ok_bind; [apply ok_va_int | intros w _].
  destruct (w <? 0); [destruct (w =? smin 32); [apply ok_undef |] |]; apply ok_ret; simpl; rewrite length_drop; lia.
Qed.

Lemma ok_precision fmt f : ok (shorter fmt) (parse_precision fmt f).
Proof using.
  unfold parse_precision, shorter. cbv zeta. destruct (cur fmt =? 46); [| apply ok_ret; simpl; lia].
  destruct (digit_at (drop 1 fmt)).
  { destruct (to_integer _). apply ok_ret. simpl. rewrite !length_drop. lia. }
  destruct (cur (drop 1 fmt) =? 42); [| apply ok_ret; simpl; rewrite length_drop; lia].
  destruct (digit_at _ && _); [apply ok_panic |]. eapply ok_bind; [apply ok_va_int | intros w _].
  destruct (0 <=? w); apply ok_ret; simpl; rewrite !length_drop; lia.
Qed.

Lemma parse_length_length fmt : (length (snd (parse_length fmt)) <= length fmt)%nat.
Proof using.
  unfold parse_length. cbv zeta.
  repeat match goal with |- context [if ?b then _ else _] => destruct b end; simpl; rewrite ?length_drop; lia.
Qed.

Lemma ok_specification fmt : ok (fun r => (length r <= length fmt)%nat) (specification fmt).
Proof using C_write.
  unfold specification. destruct (digit_at fmt && _); [apply ok_panic |].
  destruct (parse_flags fmt no_flags) as [[f fmt1] |] eqn:E; [| apply ok_panic].
  apply parse_flags_length in E. eapply ok_bind; [apply ok_width | intros [[[w hw] f1] fmt2] H2].
  eapply ok_bind; [apply ok_precision | intros [[[p hp] f2] fmt3] H3].
  pose proof (parse_length_length fmt3) as H4. destruct (parse_length fmt3) as [s fmt4].
  unfold shorter in *. simpl in H2, H3, H4.
  destruct fmt4 as [| c fmt5]; [apply unlock_fail |].
  eapply ok_bind; [apply ok_convert | intros _ _]. apply ok_ret. simpl in H4. lia.
Qed.

Lemma literal_length fmt : (length (snd (literal fmt)) + length (fst (literal fmt)) = length fmt)%nat.
Proof using.
  induction fmt as [| c fmt IH]; simpl; [reflexivity |]. destruct (c =? 37); [simpl; lia |].
  destruct (literal fmt). simpl in *. lia.
Qed.

Lemma percents_length n : forall fmt, (length fmt <= n)%nat ->
  (length (snd (percents fmt)) + 2 * fst (percents fmt) = length fmt)%nat.
Proof using.
  induction n as [| n IH]; intros fmt Hn; [destruct fmt; simpl in *; [reflexivity | lia] |].
  destruct fmt as [| c [| d fmt]]; [reflexivity | |].
  - destruct c as [| c |]; try reflexivity. repeat (destruct c as [c | c |]; try reflexivity).
  - assert (P : percents (c :: d :: fmt) = if (c =? 37) && (d =? 37) then (fst (percents fmt) + 1, snd (percents fmt))%nat
                else (0%nat, c :: d :: fmt)).
    { destruct (Z.eqb_spec c 37) as [-> | Nc]; [destruct (Z.eqb_spec d 37) as [-> | Nd] |]; simpl.
      - destruct (percents fmt). reflexivity.
      - destruct d as [| d |]; try reflexivity. repeat (destruct d as [d | d |]; try reflexivity). lia.
      - destruct c as [| c |]; try reflexivity. repeat (destruct c as [c | c |]; try reflexivity). lia. }
    rewrite P. destruct ((c =? 37) && (d =? 37)); [| simpl; lia]. simpl in *. specialize (IH fmt). lia.
Qed.

(** The run of the loop: it returns the count modulo 2^32 as an [int]. *)
Lemma format_loop_runs fuel : forall fmt, (length fmt < fuel)%nat -> forall st, inv st ->
  match format_loop fuel fmt st with
  | POk ret st' => released st' /\ 0 <= ret <= INT_MAX /\ exists k, sink st' = Some k /\ C k ret
  | PFail st' => released st'
  | PPanic | PUndef => True
  | PNoFuel => False
  end.
Proof using C_write.
  induction fuel as [| n IH]; intros fmt Hn st Hs; [lia |]. cbn [format_loop].
  pose proof (literal_length fmt) as HL. destruct (literal fmt) as [t a]. simpl in HL.
  pose proof (percents_length (length a) a (le_n _)) as HP. destruct (percents a) as [k r]. simpl in HP.
  destruct (Nat.eqb_spec (length t + k) 0) as [E0 | N0].
  - destruct fmt as [| c fmt].
    + destruct Hs as (k0 & Ek & Hc & Eh & Hw). unfold pbind, lock_by, get_state, pret. rewrite Ek. simpl.
      unfold released. simpl. split; [split; [discriminate | lia] |].
      rewrite wraps_small; [split; [exact Hw | exists k0; split; [reflexivity | exact Hc]] | lia |].
      unfold INT_MAX in Hw. unfold is_s, smin in *. lia.
    + unfold pbind. pose proof (ok_specification fmt st Hs) as H. destruct (specification fmt st) as [fmt' st' | | | |]; try exact H.
      apply IH; [simpl in Hn; lia | apply H].
  - unfold pbind. pose proof (ok_write (take (length t + k) fmt) st Hs) as H.
    destruct (write (take (length t + k) fmt) st) as [u st' | | | |]; try exact H.
    apply IH; [lia | apply H].
Qed.
End Invariant.

(** ** Formats and the arguments that fit them

    [fits fmt ap] says that every conversion specification of [fmt] is one that
    the library handles (no positional arguments, no ['] flag), and finds in [ap]
    the arguments of its type: also no [INT_MIN] as a width, no [LONG_MIN] for a
    signed conversion, no precision of an integer within 3 of [INT_MAX] or of a
    floating point number within 40000, and a [long double] of the 80-bit format. *)
Section Fits.
Context {TI : ToInteger}.

Definition fits_int (ap : list arg) : option (Z * list arg) :=
  match ap with AInt z :: r => Some (s32 z, r) | _ => None end.

Definition fits_width (fmt : list Z) (f : Flags) (ap : list arg) : option (Z * bool * Flags * list Z * list arg) :=
  if digit_at fmt then let '(w, count) := to_integer fmt in Some (w, true, f, drop (Z.to_nat count) fmt, ap)
  else if cur fmt =? 42 then
    let fmt := drop 1 fmt in
    if digit_at fmt && (cur1 fmt =? 36) then None
    else
      '(w, ap) ← fits_int ap;
      if w =? smin 32 then None
      else Some (if w <? 0 then (- w, true, set_ljust f, fmt, ap) else (w, true, f, fmt, ap))
  else Some (0, false, f, fmt, ap).

Definition fits_precision (fmt : list Z) (f : Flags) (ap : list arg) : option (Z * bool * Flags * list Z * list arg) :=
  if cur fmt =? 46 then
    let fmt := drop 1 fmt in
    if digit_at fmt then
      let '(p, count) := to_integer fmt in Some (p, true, clear_zero f, drop (Z.to_nat count) fmt, ap)
    else if cur fmt =? 42 then
      let fmt := drop 1 fmt in
      if digit_at fmt && (cur1 fmt =? 36) then None
      else
        '(p, ap) ← fits_int ap;
        Some (if 0 <=? p then (p, true, clear_zero f, fmt, ap) else (p, false, f, fmt, ap))
    else Some (0, true, clear_zero f, fmt, ap)
  else Some (0, false, f, fmt, ap).

Definition short_int (state : State) : bool := match state with SNone | Shh | Sh => true | _ => false end.

(** An integer conversion: an [int], or a 64-bit integer. *)
Definition fits_number (state : State) (signed : bool) (prec : Z) (hp : bool) (ap : list arg) : option (list arg) :=
  if hp && (INT_MAX - 3 <? prec) then None
  else
    match state, ap with
    | SL, _ => None
    | _, AInt _ :: r => if short_int state then Some r else None
    | _, ALong z :: r => if short_int state || (signed && (s64 z =? smin 64)) then None else Some r
    | _, _ => None
    end.

(** A floating point conversion: a [double], or a number of the 80-bit format, and
    not a precision within 40000 of [INT_MAX]. *)
Definition fits_float (prec : Z) (hp : bool) (state : State) (ap : list arg) : option (list arg) :=
  if (hp && (prec <? 0)) || (INT_MAX - 40000 <? prec) then None
  else
    match state, ap with
    | SL, ALongDouble x :: r => if ldbl_ok x then Some r else None
    | (SNone | Sl), ADouble _ :: r => Some r
    | _, _ => None
    end.

Definition fits_convert (c : Z) (f : Flags) (width prec : Z) (hp : bool) (state : State) (ap : list arg) : option (list arg) :=
  if (c =? 100) || (c =? 105) then fits_number state true prec hp ap
  else if existsb (Z.eqb c) [102; 70; 101; 69; 103; 71; 97; 65] then fits_float prec hp state ap
  else if existsb (Z.eqb c) [117; 120; 88; 111; 98; 66] then fits_number state false prec hp ap
  else if c =? 112 then match ap with APtr _ :: r => Some r | _ => None end
  else if c =? 99 then
    match state, ap with (SNone | Sl), AInt _ :: r => if flags_zero f then Some r else None | _, _ => None end
  else if c =? 115 then
    match state, ap with SNone, AStr _ :: r | Sl, AWStr _ :: r => Some r | _, _ => None end
  else if c =? 110 then
    match state, ap with SL, _ => Some ap | _, ADest _ :: r => Some r | _, _ => None end
  else Some ap.

(** The format behind a specification, and the arguments left; at the end of the
    format the call fails with [EINVAL]. *)
Definition fits_specification (fmt : list Z) (ap : list arg) : option (list Z * list arg) :=
  if digit_at fmt && (cur1 fmt =? 36) then None
  else
    '(f, fmt) ← parse_flags fmt no_flags;
    '(width, _, f, fmt, ap) ← fits_width fmt f ap;
    '(prec, hp, f, fmt, ap) ← fits_precision fmt f ap;
    let '(state, fmt) := parse_length fmt in
    match fmt with
    | [] => Some ([], ap)
    | c :: fmt => ap ← fits_convert c f width prec hp state ap; Some (fmt, ap)
    end.

Fixpoint fits_loop (fuel : nat) (fmt : list Z) (ap : list arg) : bool :=
  match fuel with
  | O => false
  | Datatypes.S n =>
      let '(text, after) := literal fmt in
      let '(k, rest) := percents after in
      if (length text + k =? 0)%nat then
        match fmt with
        | [] => true
        | _ :: fmt => match fits_specification fmt ap with Some (fmt, ap) => fits_loop n fmt ap | None => false end
        end
      else fits_loop n rest ap
  end.

Definition fits (fmt : list Z) (ap : list arg) : bool := fits_loop (Datatypes.S (length fmt)) fmt ap.
End Fits.

(** *** Conversions with fitting arguments are defined *)
Section Defined.
Context {S : Type} {HS : Sink S} {TI : ToInteger}.

(** With the arguments [ap], [c] is defined and leaves the result and the arguments
    [Q] asks for, if it does not fail. *)
Definition defined {A} (ap : list arg) (c : PM S A) (Q : A -> list arg -> Prop) : Prop := forall st, args st = ap ->
  match c st with
  | POk a st' => Q a (args st')
  | PFail _ | PNoFuel => True
  | PPanic | PUndef => False
  end.

Lemma def_ret {A} ap (a : A) (Q : A -> list arg -> Prop) : Q a ap -> defined ap (pret a) Q.
Proof using. intros H st <-. exact H. Qed.

Lemma def_bind {A B} ap c (k : A -> PM S B) (Q : A -> list arg -> Prop) Q' :
  defined ap c Q -> (forall a ap', Q a ap' -> defined ap' (k a) Q') -> defined ap (pbind c k) Q'.
Proof using.
  intros Hc Hk st E. specialize (Hc st E). unfold pbind. destruct (c st); try exact Hc. exact (Hk _ _ Hc _ eq_refl).
Qed.

Lemma def_seq {A B} ap c (k : PM S B) Q' : defined ap c (fun (_ : A) ap' => ap' = ap) -> defined ap k Q' -> defined ap (c ;~ k) Q'.
Proof using. intros Hc Hk. eapply def_bind; [exact Hc | intros a ap' ->; exact Hk]. Qed.

Lemma def_unlock {A} ap e Q : defined ap (lock_by (-1) ;~ fail (A := A) e) Q.
Proof using. intros st _. exact I. Qed.

Lemma def_write_counting ap s n : defined ap (write_counting s n) (fun _ ap' => ap' = ap).
Proof using.
  intros st <-. unfold write_counting, check_written. destruct (sink st) as [k |].
  - destruct (sink_write s k) as [tmp k']. destruct (tmp <? 0); [exact I |]. cbn [written]. destruct (_ <? _); [exact I | reflexivity].
  - cbn [written]. destruct (_ <? _); [exact I | reflexivity].
Qed.

Lemma def_write ap s : defined ap (write s) (fun _ ap' => ap' = ap).
Proof using. apply def_write_counting. Qed.

Lemma def_chunks ap l : defined ap (write_chunks l) (fun _ ap' => ap' = ap).
Proof using.
  induction l as [| s l IH]; cbn [write_chunks]; [apply def_ret; reflexivity |]. apply def_seq; [apply def_write | exact IH].
Qed.

Lemma def_when ap b (c : PM S unit) d : defined ap c (fun _ ap' => ap' = ap) -> defined ap (when b c d) (fun _ ap' => ap' = ap).
Proof using. intros H. unfold when. destruct b; [exact H | apply def_ret; reflexivity]. Qed.

(** The digits of a 64-bit number fit into the buffer. *)
Lemma int_digits_fit up base : 2 <= base -> forall n v, 0 <= v < 2 ^ Z.of_nat n -> (0 < n)%nat ->
  exists ds, int_digits n up base v = Some ds /\ zlen ds <= Z.of_nat n.
Proof using.
  intros Hb. induction n as [| n IH]; intros v Hv Hn; [lia |]. cbn [int_digits].
  destruct (Z.eqb_spec (v / base) 0) as [| N]; [eexists; split; [reflexivity |]; unfold zlen; simpl; lia |].
  assert (Q : 0 <= v / base < 2 ^ Z.of_nat n).
  { split; [apply Z.div_pos; lia |]. apply Z.div_lt_upper_bound; [lia |].
    rewrite Nat2Z.inj_succ, Z.pow_succ_r in Hv by lia. nia. }
  destruct n as [| n]; [simpl in Q; lia |]. destruct (IH _ Q ltac:(lia)) as (ds & -> & L).
  eexists. split; [reflexivity |]. rewrite zlen_app. change (zlen [_]) with 1. lia.
Qed.

Lemma def_write_int ap v base o : 2 <= base -> 0 <= v < 2 ^ 64 -> precision o <= INT_MAX - 3 -> defined ap (write_int v base o) (fun _ ap' => ap' = ap).
Proof using.
  intros Hb Hv Hp. unfold write_int.
  assert (D : exists ds, (if (v =? 0) && (precision o =? 0) then Some [] else int_digits 64 (upper o) base v) = Some ds /\ zlen ds <= 64).
  { destruct ((v =? 0) && _); [eexists; split; [reflexivity |]; unfold zlen; simpl; lia |]. exact (int_digits_fit _ _ Hb 64 v Hv ltac:(lia)). }
  destruct D as (ds & -> & L). cbv zeta.
  assert (P : zlen (prefix_of base (upper o)) <= 2)
    by (unfold prefix_of; repeat match goal with |- context [if ?b then _ else _] => destruct b end; unfold zlen; simpl; lia).
  match goal with |- context [INT_MAX <? ?w] => destruct (Z.ltb_spec INT_MAX w) as [Ov | _] end.
  { exfalso. unfold INT_MAX, smax in *. repeat match type of Ov with context [if ?b then _ else _] => destruct b end; lia. }
  repeat (apply def_seq; [first [apply def_when, def_chunks | apply def_when, def_write | apply def_write
    | destruct (negative o); [apply def_write |]; destruct (always_write_sign o); [apply def_write |];
      destruct (plus_as_space o); [apply def_write | apply def_ret; reflexivity]] |]).
  apply def_when, def_chunks.
Qed.

Lemma def_va_int ap w ap' : fits_int ap = Some (w, ap') -> defined ap va_int (fun a r => a = w /\ r = ap').
Proof using.
  intros E st Es. destruct ap as [| [z | | | | | | |] ap]; try discriminate. injection E as <- <-.
  unfold va_int, va_arg, pbind. rewrite Es. split; reflexivity.
Qed.

Lemma def_va_arg a ap : defined (a :: ap) va_arg (fun a' r => a' = a /\ r = ap).
Proof using. intros st Es. unfold va_arg. rewrite Es. split; reflexivity. Qed.

Lemma def_width fmt f ap w hw f' fmt' ap' : fits_width fmt f ap = Some (w, hw, f', fmt', ap') ->
  defined ap (parse_width fmt f) (fun a r => a = (w, hw, f', fmt') /\ r = ap').
Proof using.
  unfold fits_width, parse_width. cbv zeta. destruct (digit_at fmt).
  { destruct (to_integer fmt). intros [= <- <- <- <- <-]. apply def_ret. auto. }
  destruct (cur fmt =? 42); [| intros [= <- <- <- <- <-]; apply def_ret; auto].
  destruct (digit_at _ && _); [discriminate |]. destruct (fits_int ap) as [[x ap1] |] eqn:Ex; [| discriminate]. simpl.
  destruct (Z.eqb_spec x (smin 32)) as [| N]; [discriminate |]. intros E.
  eapply def_bind; [exact (def_va_int _ _ _ Ex) |]. intros a r [-> ->]. rewrite (proj2 (Z.eqb_neq _ _) N).
  destruct (x <? 0); injection E as <- <- <- <- <-; apply def_ret; auto.
Qed.

Lemma def_precision fmt f ap p hp f' fmt' ap' : fits_precision fmt f ap = Some (p, hp, f', fmt', ap') ->
  defined ap (parse_precision fmt f) (fun a r => a = (p, hp, f', fmt') /\ r = ap').
Proof using.
  unfold fits_precision, parse_precision. cbv zeta.
  destruct (cur fmt =? 46); [| intros [= <- <- <- <- <-]; apply def_ret; auto]. destruct (digit_at (drop 1 fmt)).
  { destruct (to_integer _). intros [= <- <- <- <- <-]. apply def_ret. auto. }
  destruct (cur (drop 1 fmt) =? 42); [| intros [= <- <- <- <- <-]; apply def_ret; auto].
  destruct (digit_at _ && _); [discriminate |]. destruct (fits_int ap) as [[x ap1] |] eqn:Ex; [| discriminate]. simpl. intros E.
  eapply def_bind; [exact (def_va_int _ _ _ Ex) |]. intros a r [-> ->].
  destruct (0 <=? x); injection E as <- <- <- <- <-; apply def_ret; auto.
Qed.

Lemma wrapu_fits w z : 0 <= w <= 64 -> 0 <= wrapu w z < 2 ^ 64.
Proof using.
  intros Hw. pose proof (wrapu_range w z ltac:(lia)) as R. unfold is_u in R.
  assert (2 ^ w <= 2 ^ 64) by (apply Z.pow_le_mono_r; lia). lia.
Qed.

Lemma precision_fits f width hw prec hp neg up px : hp && (INT_MAX - 3 <? prec) = false ->
  precision (int_opts f width hw prec hp neg up px) <= INT_MAX - 3.
Proof using. destruct hp; simpl; [lia | intros _; vm_compute; discriminate]. Qed.

(** The popped value is in the range of its type. *)
Lemma def_pop_signed state prec hp ap ap' : fits_number state true prec hp ap = Some ap' ->
  defined ap (pop_signed_int state) (fun v r => r = ap' /\ smin 64 < v <= smax 64).
Proof using.
  unfold fits_number. destruct (hp && _); [discriminate |]. unfold pop_signed_int.
  destruct ap as [| [z | z | | | | | |] ap]; [destruct state; discriminate | | | destruct state; discriminate ..].
  - intros E st Es. unfold va_int, va_arg, pbind. pose proof (wraps_range 32 z ltac:(lia)) as R. unfold is_s, smin, smax in *.
    destruct state; try discriminate E; injection E as <-; rewrite Es; cbn [pret args]; (split; [reflexivity | lia]).
  - intros E st Es. unfold va_long, va_arg, pbind. pose proof (wraps_range 64 z ltac:(lia)) as R. unfold is_s in R.
    destruct state; try discriminate E; simpl in E; (destruct (Z.eqb_spec (s64 z) (smin 64)); [discriminate E |]);
      injection E as <-; rewrite Es; cbn [pret args]; (split; [reflexivity | lia]).
Qed.

Lemma def_pop_unsigned state prec hp ap ap' : fits_number state false prec hp ap = Some ap' ->
  defined ap (pop_unsigned_int state) (fun v r => r = ap' /\ 0 <= v < 2 ^ 64).
Proof using.
  unfold fits_number. destruct (hp && _); [discriminate |]. unfold pop_unsigned_int.
  destruct ap as [| [z | z | | | | | |] ap]; [destruct state; discriminate | | | destruct state; discriminate ..];
    intros E st Es; unfold va_int, va_long, va_arg, pbind, pret;
    destruct state; try discriminate E; injection E as <-; rewrite Es; (split; [reflexivity | apply wrapu_fits; lia]).
Qed.

Lemma fits_number_precision state sg prec hp ap ap' : fits_number state sg prec hp ap = Some ap' -> hp && (INT_MAX - 3 <? prec) = false.
Proof using. unfold fits_number. destruct (hp && _); [discriminate | reflexivity]. Qed.

Lemma def_signed f width hw prec hp state ap ap' : fits_number state true prec hp ap = Some ap' ->
  defined ap (conv_signed f width hw prec hp state) (fun _ r => r = ap').
Proof using.
  intros E. eapply def_bind; [exact (def_pop_signed _ _ _ _ _ E) |]. intros v r [-> R].
  destruct (Z.eqb_spec v (smin 64)); [lia |].
  apply def_write_int; [lia | unfold smin, smax in R; lia | exact (precision_fits _ _ _ _ _ _ _ _ (fits_number_precision _ _ _ _ _ _ E))].
Qed.

Lemma def_unsigned f width hw prec hp state base up px ap ap' : 2 <= base -> fits_number state false prec hp ap = Some ap' ->
  defined ap (conv_unsigned f width hw prec hp state base up px) (fun _ r => r = ap').
Proof using.
  intros Hb E. eapply def_bind; [exact (def_pop_unsigned _ _ _ _ _ E) |]. intros v r [-> R].
  apply def_write_int; [exact Hb | exact R | exact (precision_fits _ _ _ _ _ _ _ _ (fits_number_precision _ _ _ _ _ _ E))].
Qed.

(** An argument of the right kind, and what is done with it. *)
Lemma def_arg {A} a ap (k : arg -> PM S A) Q : defined ap (k a) Q -> defined (a :: ap) (x <~ va_arg ;; k x) Q.
Proof using. intros H. eapply def_bind; [apply def_va_arg |]. intros x r [-> ->]. exact H. Qed.

Lemma def_popped {A B} a ap (v : A) (g : arg -> PM S A) (k : A -> PM S B) Q : g a = pret v -> defined ap (k v) Q ->
  defined (a :: ap) (x <~ (y <~ va_arg ;; g y) ;; k x) Q.
Proof using.
  intros E H. apply def_bind with (Q := fun x r => x = v /\ r = ap); [| intros x r [-> ->]; exact H].
  apply def_arg. rewrite E. apply def_ret. auto.
Qed.

Lemma def_float f spec width prec hp state ap ap' : fits_float prec hp state ap = Some ap' ->
  defined ap (conv_float f spec width prec hp state) (fun _ r => r = ap').
Proof using.
  unfold fits_float, conv_float. destruct ((hp && (prec <? 0)) || (INT_MAX - 40000 <? prec)) eqn:B; [discriminate |]. apply orb_false_elim in B as [B1 B2]. unfold INT_MAX in B2.
  assert (K : forall x r, ldbl_ok x = true -> defined r (match float_chunks spec (LJUST f) (SIGN f) (ALT f) width prec hp x with Some l => write_chunks l | None => undef end)
      (fun _ r' => r' = r)).
  { intros x r Hx. destruct (float_chunks_some spec (LJUST f) (SIGN f) (ALT f) width prec hp x Hx) as (l & ->); [lia | intros ->; simpl in B1; lia |]. apply def_chunks. }
  destruct state, ap as [| [] ap]; try discriminate; intros E;
    try match type of E with (if ldbl_ok ?x then _ else _) = _ => destruct (ldbl_ok x) eqn:Hx; [| discriminate] end; injection E as <-;
    (eapply def_popped; [reflexivity | apply K; first [exact Hx | apply ldbl_of_double_ok]]).
Qed.

Lemma def_convert c f width hw prec hp state ap ap' : fits_convert c f width prec hp state ap = Some ap' ->
  defined ap (convert c f width hw prec hp state) (fun _ r => r = ap').
Proof using.
  unfold fits_convert, convert. destruct ((c =? 100) || (c =? 105)); [apply def_signed |].
  destruct (existsb _ [102; 70; 101; 69; 103; 71; 97; 65]); [apply def_float |].
  cbn [existsb]. destruct (c =? 117); [cbn [orb]; apply def_unsigned; lia |].
  destruct (c =? 120); [cbn [orb]; apply def_unsigned; lia |]. destruct (c =? 88); [cbn [orb]; apply def_unsigned; lia |].
  cbn [orb]. destruct (c =? 111); [cbn [orb]; apply def_unsigned; lia |].
  destruct (c =? 98); [cbn [orb]; apply def_unsigned; lia |]. destruct (c =? 66); [cbn [orb]; apply def_unsigned; lia |].
  cbn [orb]. destruct (c =? 112).
  { destruct ap as [| [| | | | p | | |] ap]; try discriminate. intros [= <-]. apply def_arg, def_write_int; [lia | apply wrapu_fits; lia | vm_compute; discriminate]. }
  destruct (c =? 99).
  { unfold conv_char, ensure. destruct (flags_zero f); [| destruct state, ap as [| [] ap]; discriminate]. intros E.
    apply def_seq; [apply def_ret; reflexivity |]. destruct state, ap as [| [] ap]; try discriminate; injection E as <-;
      (apply def_bind with (Q := fun _ r => r = ap); [| intros ? ? ->; apply def_write]); apply def_arg, def_ret; reflexivity. }
  destruct (c =? 115).
  { unfold conv_string. destruct state, ap as [| [] ap]; try discriminate; intros [= <-]; apply def_arg;
      [destruct (clip _ _ _); [apply def_ret; reflexivity | apply def_write] | apply def_chunks]. }
  destruct (c =? 110).
  { unfold conv_count. destruct state; cbn [store_bits]; [..| intros [= <-]; apply def_ret; reflexivity];
      (destruct ap as [| [] ap]; try discriminate; intros [= <-]; apply def_arg; intros st <-; reflexivity). }
  intros [= <-]. apply def_write_counting.
Qed.

Lemma def_specification fmt ap fmt' ap' : fits_specification fmt ap = Some (fmt', ap') ->
  defined ap (specification fmt) (fun r ap2 => r = fmt' /\ ap2 = ap').
Proof using.
  unfold fits_specification, specification. destruct (digit_at fmt && _); [discriminate |].
  destruct (parse_flags fmt no_flags) as [[f fmt1] |]; [| discriminate]. simpl.
  destruct (fits_width fmt1 f ap) as [[[[[w hw] f1] fmt2] ap1] |] eqn:Ew; [| discriminate]. simpl.
  destruct (fits_precision fmt2 f1 ap1) as [[[[[p hp] f2] fmt3] ap2] |] eqn:Ep; [| discriminate]. simpl. intros E.
  eapply def_bind; [exact (def_width _ _ _ _ _ _ _ _ Ew) |]. intros a r [-> ->].
  eapply def_bind; [exact (def_precision _ _ _ _ _ _ _ _ Ep) |]. intros a r [-> ->].
  destruct (parse_length fmt3) as [state [| c fmt4]]; [apply def_unlock |].
  destruct (fits_convert c f2 w p hp state ap2) as [ap3 |] eqn:Ec; [| discriminate]. injection E as <- <-.
  eapply def_bind; [exact (def_convert _ _ _ _ _ _ _ _ _ Ec) |]. intros u r ->. apply def_ret. auto.
Qed.

Lemma def_loop n : forall fmt ap, fits_loop n fmt ap = true -> defined ap (format_loop n fmt) (fun _ _ => True).
Proof using.
  induction n as [| n IH]; intros fmt ap F; [discriminate |]. cbn [fits_loop format_loop] in *.
  destruct (literal fmt) as [t a], (percents a) as [k r]. destruct (length t + k =? 0)%nat.
  - destruct fmt as [| c fmt]; [intros st _; exact I |].
    destruct (fits_specification fmt ap) as [[fmt1 ap1] |] eqn:E; [| discriminate].
    eapply def_bind; [exact (def_specification _ _ _ _ E) |]. intros x y [-> ->]. apply IH, F.
  - apply def_seq; [apply def_write | apply IH, F].
Qed.
End Defined.


(** ** The whole text *)
Definition text : Type := list Z.
#[export] Instance text_sink : Sink text := fun s t => (zlen s, t ++ s).

(** The first [size - 1] characters and a terminator. *)
Definition truncated (size : Z) (t : text) : list Z :=
  if size =? 0 then [] else take (Z.to_nat (size - 1)) t ++ [0].

Definition holds_prefix (size : Z) (f : str_file) (t : text) : Prop :=
  room f = size /\ out f = take (Z.to_nat size) t.

Lemma str_sink_prefix size : 0 <= size -> forall s f t, holds_prefix size f t ->
  fst (sink_write s f) = fst (sink_write s t) /\
  holds_prefix size (snd (sink_write s f)) (snd (sink_write s t)).
Proof.
  intros Hs s f t [Er Eo]. split; [reflexivity |]. split; [exact Er |]. simpl. rewrite Er, Eo, take_app. f_equal.
  unfold zlen. rewrite length_take.
  destruct (decide (length s <= Z.to_nat size - length t)%nat); [rewrite !take_ge by lia; reflexivity |].
  f_equal. lia.
Qed.

Lemma terminate_take size t : 0 <= size -> terminate size (take (Z.to_nat size) t) = truncated size t.
Proof.
  intros Hs. unfold terminate, truncated, zlen. rewrite length_take.
  destruct (Z.eqb_spec (Z.of_nat (Z.to_nat size `min` length t)%nat) size) as [E | N]; simpl.
  - destruct (Z.eqb_spec size 0) as [-> | N0]; [reflexivity |]. simpl. rewrite take_take. do 2 f_equal. lia.
  - destruct (Z.eqb_spec size 0); [lia |]. rewrite !take_ge by lia. reflexivity.
Qed.

(** A call of [vsnprintf] as a run that keeps the whole text. *)
Lemma vsnprintf_text `{ToInteger} fuel size fmt e ap : 0 <= size ->
  vsnprintf fuel size fmt e ap =
  match vfprintf fuel fmt (initial (Some ([] : text)) e ap) with
  | POk ret st => SnRet ret (perrno st) (stores st) (truncated size (default [] (sink st)))
  | PFail st => SnRet (-1) (perrno st) (stores st) (truncated size (default [] (sink st)))
  | PPanic => SnPanic
  | PUndef => SnUndef
  | PNoFuel => SnNoFuel
  end \/
  exists st, (vfprintf fuel fmt (initial (Some ([] : text)) e ap) = PFail st \/
    exists n, vfprintf fuel fmt (initial (Some ([] : text)) e ap) = POk n st) /\ sink st = None.
Proof.
  intros Hs. unfold vsnprintf.
  assert (St : st_rel (holds_prefix size) (initial (Some {| room := size; out := [] |}) e ap) (initial (Some ([] : text)) e ap)).
  { repeat split. simpl. rewrite take_nil. reflexivity. }
  pose proof (rel_vfprintf (holds_prefix size) (str_sink_prefix size Hs) fuel fmt _ _ St) as Rel.
  destruct (vfprintf _ fmt (initial (Some ([] : text)) e ap)) as [n st | st | | |];
    destruct (vfprintf _ fmt (initial (Some {| room := size; out := [] |}) e ap)) as [n' st' | st' | | |];
    unfold res_rel in Rel; try contradiction; try (left; reflexivity).
  - destruct Rel as [-> (Hk & _ & -> & _ & -> & _)]. destruct (sink st) as [t |] eqn:E; [| right; eauto].
    destruct (sink st') as [f |]; [| contradiction]. destruct Hk as [_ Ho]. left. simpl.
    rewrite Ho, terminate_take by assumption. reflexivity.
  - destruct Rel as (Hk & _ & -> & _ & -> & _). destruct (sink st) as [t |] eqn:E; [| right; eauto].
    destruct (sink st') as [f |]; [| contradiction]. destruct Hk as [_ Ho]. left. simpl.
    rewrite Ho, terminate_take by assumption. reflexivity.
Qed.

(** C3: [vsnprintf] and truncation.  A call with any size behaves as a run of
    [vfprintf] that keeps the whole text: it returns the same value, sets the same
    [errno] and counts and panics or fails in the same cases; the returned value
    is the length of the whole text (counted modulo 2^64), however small the
    buffer is; and the buffer holds its first [size - 1] characters and a
    terminator, or nothing if [size] is 0. *)
Theorem vsnprintf_truncates `{ToInteger} size fmt e ap : 0 <= size ->
  match vsnprintf (S (length fmt)) size fmt e ap, vfprintf (S (length fmt)) fmt (initial (Some ([] : text)) e ap) with
  | SnRet ret errno counts buffer, POk n st =>
      exists t, sink st = Some t /\ ret = n /\ ret = u64 (zlen t) /\ errno = perrno st /\
        counts = stores st /\ buffer = truncated size t
  | SnRet ret errno counts buffer, PFail st =>
      exists t, sink st = Some t /\ ret = -1 /\ errno = perrno st /\ counts = stores st /\
        buffer = truncated size t
  | SnPanic, PPanic | SnUndef, PUndef => True
  | _, _ => False
  end.
Proof.
  intros Hs.
  pose proof (format_loop_runs (S := text) (fun t w => w = u64 (zlen t)) 1) as Runs.
  specialize (Runs ltac:(intros s k w -> _; simpl; rewrite zlen_app; apply Zplus_mod_idemp_l)
    (S (length fmt)) fmt (Nat.lt_succ_diag_r _) (PState (Some ([] : text)) 0 e 1 [] ap)).
  specialize (Runs ltac:(exists []; repeat split; simpl; try lia; vm_compute; discriminate)).
  assert (E : vfprintf (S (length fmt)) fmt (initial (Some ([] : text)) e ap) =
    format_loop (S (length fmt)) fmt (PState (Some ([] : text)) 0 e 1 [] ap)) by reflexivity.
  rewrite <- E in Runs. clear E.
  destruct (vsnprintf_text (S (length fmt)) size fmt e ap Hs) as [-> | (st & [Ef | [n Ef]] & Es)].
  - destruct (vfprintf _ fmt _) as [n st | st | | |]; try exact Runs.
    + destruct Runs as (_ & _ & t & Et & En). exists t. rewrite Et. auto 10.
    + destruct Runs as [N _]. destruct (sink st) as [t |] eqn:E; [| tauto]. exists t. auto 10.
  - rewrite Ef in Runs. destruct Runs. contradiction.
  - rewrite Ef in Runs. destruct Runs as [[N _] _]. contradiction.
Qed.

(** "%d %.*s%lu%f" with fitting arguments; the format has no decimal width to read. *)
Definition mixed_format : list Z := [37; 100; 32; 37; 46; 42; 115; 37; 108; 117; 37; 102].
Definition mixed_args : list arg := [AInt (-5); AInt 2; AStr [97; 98; 99]; ALong 7; ADouble 0x3FF8000000000000].
#[local] Instance no_integer : ToInteger := fun _ => (0, 0).

