(* ===== verification/PrintfFacts.v ===== *)
(** * What printf writes

    The layout of an integer conversion, and the round trip of a number through
    [sprintf] and [strtol]. *)

From S2P Require Import Prelude Ctype StrToInt PrintfFloat Printf.

#[local] Open Scope Z_scope.

(** ** Digits *)

Lemma digit_char_test :
  check_range 2 15 (fun base => check_range 0 base (fun d => forallb (fun up =>
    valid_char char_type (digit_char up d) base &&
    (digit_of char_type (digit_char up d) =? d) &&
    (45 <? digit_char up d) && (digit_char up d <=? 127) &&
    negb (isspace_helper char_type (digit_char up d)) &&
    Bool.eqb (digit_char up d =? 48) (d =? 0)) [true; false])) = true.
Proof. by_vm. Qed.

Record good_digit (base c d : Z) : Prop := {
  good_valid : valid_char char_type c base = true;
  good_value : digit_of char_type c = d;
  good_range : 45 < c <= 127;
  good_nonspace : isspace_helper char_type c = false;
  good_zero : c = 48 -> d = 0
}.

Lemma digit_char_ok up base d : 2 <= base <= 16 -> 0 <= d < base ->
  good_digit base (digit_char up d) d.
Proof.
  intros Hb Hd. pose proof (range_check _ _ _ digit_char_test base ltac:(lia)) as H. simpl in H.
  pose proof (range_check _ _ _ H d ltac:(lia)) as G. simpl in G.
  assert (F : forall b : bool, forallb (fun u : bool => u) [b] = b) by (intros []; reflexivity).
  apply andb_prop in G as [G1 G2]. apply andb_prop in G2 as [G2 _].
  assert (E : (valid_char char_type (digit_char up d) base &&
    (digit_of char_type (digit_char up d) =? d) &&
    (45 <? digit_char up d) && (digit_char up d <=? 127) &&
    negb (isspace_helper char_type (digit_char up d)) &&
    Bool.eqb (digit_char up d =? 48) (d =? 0)) = true) by (destruct up; assumption).
  clear - E. repeat (apply andb_prop in E as [E ?]). split; try assumption; try lia.
  - destruct (isspace_helper char_type _); [discriminate | reflexivity].
Qed.

(** The digits of [value]: they denote it, and start with a zero only for 0. *)
Record digits_of (base value : Z) (ds : list Z) : Prop := {
  digits_good : Forall (fun c => exists d, 0 <= d < base /\ good_digit base c d) ds;
  digits_sum : digits_value char_type base ds 0 = value;
  digits_lead : forall c rest, ds = c :: rest -> c = 48 -> value = 0;
  digits_nonempty : ds <> []
}.

Lemma int_digits_ok up base room : 2 <= base <= 16 -> forall value,
  0 <= value < base ^ Z.of_nat room -> (0 < room)%nat ->
  exists ds, int_digits room up base value = Some ds /\ digits_of base value ds.
Proof.
  intros Hb. induction room as [| n IH]; intros value Hv Hr; [lia |]. cbn [int_digits].
  pose proof (Z.mod_pos_bound value base ltac:(lia)) as Hm.
  pose proof (digit_char_ok up base (value mod base) Hb Hm) as G.
  destruct (Z.eqb_spec (value / base) 0) as [E | N].
  - exists [digit_char up (value mod base)]. split; [reflexivity |]. split.
    + repeat constructor. eauto.
    + simpl. unfold digits_value. simpl. rewrite (good_value _ _ _ G).
      pose proof (Z.div_mod value base ltac:(lia)). lia.
    + intros c rest Eq Ec. injection Eq as <- _. pose proof (good_zero _ _ _ G Ec).
      pose proof (Z.div_mod value base ltac:(lia)). lia.
    + discriminate.
  - assert (Hn : (0 < n)%nat).
    { destruct n; [| lia]. change (Z.of_nat 1) with 1 in Hv. rewrite Z.pow_1_r in Hv. rewrite Z.div_small in N; lia. }
    assert (Hq : 0 <= value / base < base ^ Z.of_nat n).
    { rewrite Nat2Z.inj_succ, Z.pow_succ_r in Hv by lia.
      split; [apply Z.div_pos; lia | apply Z.div_lt_upper_bound; lia]. }
    destruct (IH _ Hq Hn) as (ds & -> & D). eexists. split; [reflexivity |]. split.
    + apply Forall_app_2; [apply D | repeat constructor; eauto].
    + unfold digits_value. rewrite fold_left_app. simpl. fold (digits_value char_type base ds 0).
      rewrite (digits_sum _ _ _ D), (good_value _ _ _ G).
      pose proof (Z.div_mod value base ltac:(lia)). lia.
    + intros c rest Eq Ec. destruct ds as [| c0 ds]; [destruct (digits_nonempty _ _ _ D); reflexivity |].
      injection Eq as -> _. pose proof (digits_lead _ _ _ D c ds eq_refl Ec). lia.
    + intros Eq. apply app_eq_nil in Eq as [_ Eq]. discriminate.
Qed.

(** ** Writing the whole text *)

(** The state after [s] was written. *)
Definition emit (s : list Z) (st : pstate text) : pstate text :=
  PState (option_map (fun t => t ++ s) (sink st)) (written st + zlen s) (perrno st) (held st)
    (stores st) (args st).

(** [s] fits: the count stays an [int]. *)
Definition fits (s : list Z) (st : pstate text) : Prop :=
  sink st <> None /\ 0 <= written st /\ written st + zlen s <= INT_MAX.

Lemma emit_nil st : emit [] st = st.
Proof.
  destruct st as [[t |] w e h l a]; unfold emit; simpl; rewrite ?app_nil_r, Z.add_0_r; reflexivity.
Qed.

Lemma emit_app a b st : emit b (emit a st) = emit (a ++ b) st.
Proof.
  destruct st as [[t |] w e h l ar]; unfold emit; simpl; rewrite zlen_app, ?app_assoc, Z.add_assoc; reflexivity.
Qed.

Lemma fits_app a b st : fits (a ++ b) st -> fits a st /\ fits b (emit a st).
Proof.
  unfold fits, emit. rewrite zlen_app. simpl. pose proof (zlen_nonneg a). pose proof (zlen_nonneg b).
  intros (N & H1 & H2). repeat split; try lia; [exact N |]. destruct (sink st); [discriminate | tauto].
Qed.

(** [c] writes [s] where it fits. *)
Definition writes (c : PM text unit) (s : list Z) : Prop :=
  forall st, fits s st -> c st = POk tt (emit s st).

Lemma writes_ret : writes (pret tt) [].
Proof. intros st H. rewrite emit_nil. reflexivity. Qed.

Lemma writes_write s : writes (write s) s.
Proof.
  intros st (N & H1 & H2). destruct st as [[t |] w e h l a]; [| simpl in N; tauto]. simpl in *.
  unfold write, write_counting. simpl. pose proof (zlen_nonneg s).
  destruct (Z.ltb_spec (zlen s) 0); [lia |]. unfold check_written, emit. simpl.
  rewrite wrapu_small by (unfold is_u; unfold INT_MAX in H2; assert (smax 32 < 2 ^ 64) by reflexivity; lia).
  destruct (Z.ltb_spec INT_MAX (w + zlen s)); [lia | reflexivity].
Qed.

Lemma writes_bind c k a b : writes c a -> writes k b -> writes (pbind c (fun _ => k)) (a ++ b).
Proof.
  intros Hc Hk st H. apply fits_app in H as [Ha Hb]. unfold pbind. rewrite Hc by exact Ha.
  rewrite Hk by exact Hb. rewrite emit_app. reflexivity.
Qed.

Lemma writes_chunks l : writes (write_chunks l) (concat l).
Proof.
  induction l as [| s l IH]; [exact writes_ret |]. simpl. apply writes_bind; [apply writes_write | exact IH].
Qed.

Lemma concat_repeat (c : Z) n : concat (repeat [c] n) = repeat c n.
Proof. induction n; simpl; congruence. Qed.

Lemma writes_repeat n c : writes (write_repeat n c) (repeat c (Z.to_nat n)).
Proof. unfold write_repeat. rewrite <- concat_repeat. apply writes_chunks. Qed.

Lemma writes_when b c s : writes c s -> writes (when b c tt) (if b then s else []).
Proof. intros H. destruct b; [exact H | exact writes_ret]. Qed.

(** ** The layout of an integer *)
Definition sign_text (opts : IntOpts) : list Z :=
  if negative opts then [45]
  else if always_write_sign opts then [43]
  else if plus_as_space opts then [32] else [].

Definition prefix_text (base : Z) (opts : IntOpts) (ds : list Z) : list Z :=
  if write_prefix opts && negb (zlen ds =? 0) then prefix_of base (upper opts) else [].

(** What the padding is computed from: the space of [plus_as_space] is not counted. *)
Definition counted_width (base : Z) (opts : IntOpts) (ds : list Z) : Z :=
  Z.max (zlen ds) (precision opts) +
  (if negative opts || always_write_sign opts then 1 else 0) + zlen (prefix_text base opts ds).

Definition fill_text (base : Z) (opts : IntOpts) (ds : list Z) : list Z :=
  repeat (if pad_with_zero opts then 48 else 32)
    (Z.to_nat (min_width opts - counted_width base opts ds)).

Definition int_text (base : Z) (opts : IntOpts) (ds : list Z) : list Z :=
  (if right_pad opts then [] else fill_text base opts ds) ++ sign_text opts ++
  prefix_text base opts ds ++ repeat 48 (Z.to_nat (precision opts - zlen ds)) ++ ds ++
  (if right_pad opts then fill_text base opts ds else []).

Lemma repeat_none {A} (x : A) n : n <= 0 -> repeat x (Z.to_nat n) = [].
Proof. intros H. replace (Z.to_nat n) with 0%nat by lia. reflexivity. Qed.

Lemma write_int_text value base opts ds :
  (base = 2 \/ base = 8 \/ base = 10 \/ base = 16) ->
  (if (value =? 0) && (precision opts =? 0) then Some [] else int_digits 64 (upper opts) base value) = Some ds ->
  counted_width base opts ds <= INT_MAX ->
  writes (write_int value base opts) (int_text base opts ds).
Proof.
  intros Hb Ed Hw. unfold write_int. rewrite Ed. cbv zeta.
  assert (Ep : (if write_prefix opts && negb (zlen ds =? 0) then zlen (prefix_of base (upper opts)) else 0) =
    zlen (prefix_text base opts ds)) by (unfold prefix_text; destruct (write_prefix opts && negb (zlen ds =? 0)); reflexivity).
  rewrite Ep. fold (counted_width base opts ds).
  destruct (Z.ltb_spec INT_MAX (counted_width base opts ds)); [lia |].
  unfold int_text, fill_text. set (cw := counted_width base opts ds).
  assert (W : forall (b : bool) n c, writes (when (b && (cw <? n)) (write_repeat (n - cw) c) tt)
    (if b then repeat c (Z.to_nat (n - cw)) else [])).
  { intros [] n c; simpl; [| exact writes_ret]. destruct (Z.ltb_spec cw n); [apply writes_repeat |].
    rewrite repeat_none by lia. exact writes_ret. }
  apply writes_bind; [pose proof (W (negb (right_pad opts))) as W'; destruct (right_pad opts); apply W' |].
  apply writes_bind.
  { unfold sign_text. destruct (negative opts), (always_write_sign opts), (plus_as_space opts);
      (apply writes_write || exact writes_ret). }
  apply writes_bind.
  { assert (Eq : (base =? 2) || (base =? 8) || (base =? 16) = negb (base =? 10)) by lia. rewrite Eq.
    assert (Et : prefix_text base opts ds = if (write_prefix opts && negb (zlen ds =? 0)) && negb (base =? 10)
      then prefix_of base (upper opts) else []).
    { unfold prefix_text. destruct (write_prefix opts && _); [| reflexivity].
      destruct (Z.eqb_spec base 10) as [-> | _]; reflexivity. }
    rewrite Et. apply writes_when, writes_write. }
  apply writes_bind.
  { destruct (Z.ltb_spec (zlen ds) (precision opts)); [apply writes_repeat |].
    rewrite repeat_none by lia. exact writes_ret. }
  apply writes_bind; [apply writes_write | apply W].
Qed.

Lemma int_digits_length up base room : forall value ds,
  int_digits room up base value = Some ds -> (length ds <= room)%nat.
Proof.
  induction room as [| n IH]; intros value ds E; cbn [int_digits] in E; [discriminate |].
  destruct (value / base =? 0); [injection E as <-; simpl; lia |].
  destruct (int_digits n up base (value / base)) as [s |] eqn:D; [| discriminate]. injection E as <-.
  rewrite length_app. apply IH in D. simpl. lia.
Qed.

Lemma zlen_repeat {A} (x : A) n : zlen (repeat x (Z.to_nat n)) = Z.max 0 n.
Proof. unfold zlen. rewrite repeat_length. lia. Qed.

(** The characters of an integer conversion, when its digits do not overflow. *)
Lemma write_int_digits value base opts :
  (base = 2 \/ base = 8 \/ base = 10 \/ base = 16) -> 0 <= value < 2 ^ 64 ->
  0 <= precision opts <= INT_MAX - 3 ->
  exists ds, (if (value =? 0) && (precision opts =? 0) then ds = [] else digits_of base value ds) /\
    writes (write_int value base opts) (int_text base opts ds) /\ zlen ds <= 64.
Proof.
  intros Hb Hv Hp.
  assert (Hb' : 2 <= base <= 16) by lia.
  assert (E : exists ds, (if (value =? 0) && (precision opts =? 0) then Some [] else int_digits 64 (upper opts) base value) = Some ds /\
    (if (value =? 0) && (precision opts =? 0) then ds = [] else digits_of base value ds) /\ zlen ds <= 64).
  { destruct ((value =? 0) && (precision opts =? 0)); [exists []; repeat split; vm_compute; discriminate |].
    assert (Hr : 0 <= value < base ^ Z.of_nat 64).
    { split; [lia |]. apply Z.lt_le_trans with (2 ^ 64); [lia | apply Z.pow_le_mono_l; lia]. }
    destruct (int_digits_ok (upper opts) base 64 Hb' value Hr ltac:(lia)) as (ds & E & D).
    exists ds. repeat split; try assumption; try apply D. apply int_digits_length in E. unfold zlen. lia. }
  destruct E as (ds & E & D & L). exists ds. split; [exact D |]. split; [| exact L]. apply write_int_text; [exact Hb | exact E |].
  unfold counted_width, prefix_text. assert (zlen (prefix_of base (upper opts)) <= 2).
  { unfold prefix_of. repeat match goal with |- context [if ?b then _ else _] => destruct b end; vm_compute; discriminate. }
  change (zlen (A := Z) []) with 0. unfold INT_MAX in *. assert (smax 32 = 2147483647) by reflexivity.
  destruct (negative opts || always_write_sign opts), (write_prefix opts && negb (zlen ds =? 0)); change (zlen (A := Z) []) with 0; lia.
Qed.

(** The layout of an integer.  A 64-bit value is written as the padding, the
    sign, the prefix, the zeros up to the precision and its digits in the base (no
    digits for 0 with precision 0), the padding last for the left-justified; the
    text is as wide as the field asks, or as wide as the number.  The buffer of 64
    characters is never left.  A space in place of the sign is not counted: it
    makes the text one wider. *)
Theorem write_int_layout value base opts :
  (base = 2 \/ base = 8 \/ base = 10 \/ base = 16) -> 0 <= value < 2 ^ 64 ->
  0 <= precision opts <= INT_MAX - 3 ->
  exists ds, (if (value =? 0) && (precision opts =? 0) then ds = [] else digits_of base value ds) /\
    writes (write_int value base opts) (int_text base opts ds) /\
    zlen (int_text base opts ds) = Z.max (min_width opts) (counted_width base opts ds) +
      (if negb (negative opts || always_write_sign opts) && plus_as_space opts then 1 else 0).
Proof.
  intros Hb Hv Hp. destruct (write_int_digits value base opts Hb Hv Hp) as (ds & D & W & _).
  exists ds. split; [exact D |]. split; [exact W |].
  unfold int_text, fill_text. rewrite !zlen_app, zlen_repeat.
  assert (F : zlen (if right_pad opts then [] else repeat (if pad_with_zero opts then 48 else 32) (Z.to_nat (min_width opts - counted_width base opts ds))) +
    zlen (if right_pad opts then repeat (if pad_with_zero opts then 48 else 32) (Z.to_nat (min_width opts - counted_width base opts ds)) else []) =
    Z.max 0 (min_width opts - counted_width base opts ds)).
  { destruct (right_pad opts); rewrite zlen_repeat; change (zlen (A := Z) []) with 0; lia. }
  assert (G : zlen (sign_text opts) = (if negative opts || always_write_sign opts then 1 else 0) +
    (if negb (negative opts || always_write_sign opts) && plus_as_space opts then 1 else 0)).
  { unfold sign_text. destruct (negative opts), (always_write_sign opts), (plus_as_space opts); reflexivity. }
  rewrite G. unfold counted_width in *. pose proof (zlen_nonneg ds). lia.
Qed.

(** ** A number through sprintf and strtol *)
Definition plain (neg : bool) : IntOpts := int_opts no_flags 0 false 0 false neg false false.

Lemma plain_text neg ds : ds <> [] -> int_text 10 (plain neg) ds = (if neg then [45] else []) ++ ds.
Proof.
  intros N. assert (L : 0 < zlen ds) by (destruct ds; [contradiction | rewrite zlen_cons; pose proof (zlen_nonneg ds); lia]).
  unfold int_text, fill_text, counted_width, prefix_text, sign_text, plain. simpl.
  rewrite !repeat_none; [| lia | destruct neg; simpl; change (zlen (A := Z) []) with 0; lia].
  rewrite app_nil_r. destruct neg; reflexivity.
Qed.

(** [strtol] reads the digits back. *)
Lemma strtol_digits (neg : bool) value ds : digits_of 10 value ds -> 0 <= value <= smax 64 ->
  strtol ((if neg then [45] else []) ++ ds) 10 = Some ((if neg then - value else value), [], false).
Proof.
  intros D Hv. unfold strtol, str_to_int.
  destruct ds as [| c ds]; [destruct (digits_nonempty _ _ _ D); reflexivity |].
  pose proof (digits_good _ _ _ D) as G. pose proof (Forall_inv G) as (d & _ & Gc).
  assert (Sk : skip_space char_type ((if neg then [45] else []) ++ c :: ds) = (if neg then [45] else []) ++ c :: ds).
  { destruct neg; simpl; [reflexivity |]. pose proof (good_nonspace _ _ _ Gc) as Ns. simpl in Ns. rewrite Ns. reflexivity. }
  rewrite Sk. assert (Pa : parse_sign ((if neg then [45] else []) ++ c :: ds) = (neg, c :: ds)).
  { destruct neg; [reflexivity |]. unfold parse_sign, at_, ch_minus, ch_plus. simpl.
    pose proof (good_range _ _ _ Gc). destruct (Z.eqb_spec c 45); [lia |]. destruct (Z.eqb_spec c 43); [lia | reflexivity]. }
  rewrite Pa. cbn [parse_base Z.eqb Pos.eqb Z.leb Z.compare Pos.compare Pos.compare_cont].
  assert (Dom : Forall char_dom (c :: ds)).
  { eapply Forall_impl; [| exact G]. intros x (dx & _ & Gx). pose proof (good_range _ _ _ Gx). unfold char_dom. lia. }
  assert (Sp : span_digits char_type 10 (c :: ds) = (c :: ds, [])).
  { clear - G. induction G as [| x l (dx & _ & Gx) _ IH]; [reflexivity |]. cbn [span_digits].
    rewrite (good_valid _ _ _ Gx), IH. reflexivity. }
  assert (Hm : smax 64 <= max_value T_long neg < 2 ^ widthT T_long) by (destruct neg; vm_compute; split; congruence).
  pose proof (digit_loop_ok char_type T_long 10 (max_value T_long neg) (c :: ds) 0 false 0
    ltac:(vm_compute; discriminate) ltac:(lia) ltac:(lia) Dom ltac:(lia)
    ltac:(symmetry; apply Z.ltb_ge; lia) (fun _ => eq_refl)) as L.
  rewrite Sp in L. destruct L as (v & -> & Ev). rewrite (digits_sum _ _ _ D) in *.
  destruct (Z.ltb_spec (max_value T_long neg) value) as [| Hle]; [lia |]. rewrite Ev by lia.
  assert (Len : (length ((if neg then [45%Z] else []) ++ c :: ds) =? length (A := Z) [])%nat = false)
    by (destruct neg; reflexivity).
  rewrite Len. rewrite (signed_result T_long neg value eq_refl ltac:(simpl; lia) ltac:(lia) Hle). cbv zeta. cbn [widthT T_long].
  unfold smin, smax in *. destruct (Z.eqb_spec (if neg then - value else value) (- 2 ^ (64 - 1))); [destruct neg; lia | reflexivity].
Qed.

Definition fmt_d : list Z := [37; 100].
Definition fmt_ld : list Z := [37; 108; 100].

(** Both runs are the conversion between taking and releasing the lock. *)
Definition signed_run (value : Z) : pres text Z :=
  (write_int (S := text) (Z.abs value) 10 (plain (value <? 0)) ;~
   lock_by (-1) ;~ st <~ get_state ;; pret (s32 (written st)))%printf
    (PState (Some ([] : text)) 0 0 1 [] []).

Lemma specification_d `{ToInteger} c state rest st : parse_length (c :: rest) = (state, [100]) ->
  digit_at (c :: rest) = false -> parse_flags (c :: rest) no_flags = Some (no_flags, c :: rest) ->
  (c =? 42) = false -> (c =? 46) = false ->
  specification (S := text) (c :: rest) st = (conv_signed no_flags 0 false 0 false state ;~ pret [])%printf st.
Proof.
  intros El Ed Ef Es Ep. unfold specification. rewrite Ed. cbn [andb]. rewrite Ef.
  unfold parse_width, parse_precision, pbind at 1 2. rewrite Ed. unfold cur. cbn [nth]. rewrite Es. unfold pret at 1.
  cbn [nth]. rewrite Ep. unfold pbind at 1. unfold pret at 1. rewrite El. reflexivity.
Qed.

(** The run of a format that is one signed conversion. *)
Lemma signed_run_ok `{ToInteger} c rest state a n :
  (c :: rest = [100] \/ c :: rest = [108; 100]) -> n <> smin 64 ->
  (forall st, pop_signed_int (S := text) state (PState st 0 0 1 [] [a]) = POk n (PState st 0 0 1 [] [])) ->
  (forall st, specification (S := text) (c :: rest) st = (conv_signed no_flags 0 false 0 false state ;~ pret [])%printf st) ->
  vfprintf (S (length (37 :: c :: rest))) (37 :: c :: rest) (initial (Some ([] : text)) 0 [a]) = signed_run n.
Proof.
  intros Hc Hn Hp Hs. unfold vfprintf, pbind at 1, lock_by, initial. cbn [sink written perrno held stores args].
  assert (L : percents (37 :: c :: rest) = (0%nat, 37 :: c :: rest)) by (destruct Hc as [Hc | Hc]; injection Hc as -> _; reflexivity).
  cbn [format_loop literal Z.eqb Pos.eqb]. rewrite L. cbn [length Nat.add Nat.eqb]. unfold pbind at 1.
  rewrite Hs. unfold conv_signed, pbind at 1 2. change (0 + 1) with 1. rewrite Hp.
  destruct (Z.eqb_spec n (smin 64)); [contradiction |]. unfold signed_run. unfold pbind.
  change (int_opts no_flags 0 false 0 false (n <? 0) false false) with (plain (n <? 0)).
  destruct (write_int (Z.abs n) 10 (plain (n <? 0)) _); reflexivity.
Qed.

(** The text of a signed number. *)
Definition signed_text (n : Z) (ds : list Z) : list Z := (if n <? 0 then [45] else []) ++ ds.

Lemma signed_run_text n : 0 <= Z.abs n <= smax 64 -> exists ds,
  digits_of 10 (Z.abs n) ds /\ zlen ds <= 64 /\
  signed_run n = POk (zlen (signed_text n ds)) (PState (Some (signed_text n ds)) (zlen (signed_text n ds)) 0 0 [] []).
Proof.
  intros Hv.
  destruct (write_int_digits (Z.abs n) 10 (plain (n <? 0))) as (ds & D & W & L);
    [auto | unfold smax in *; lia | vm_compute; split; discriminate |].
  rewrite andb_false_r in D. rewrite plain_text in W by apply D. fold (signed_text n ds) in W.
  exists ds. split; [exact D |]. split; [exact L |]. set (s := signed_text n ds) in *.
  assert (Ls : 0 <= zlen s <= 65).
  { split; [apply zlen_nonneg |]. unfold s, signed_text. rewrite zlen_app. destruct (n <? 0); unfold zlen in *; simpl; lia. }
  unfold signed_run, pbind. rewrite W.
  - unfold lock_by, get_state, pret, emit. cbn [sink option_map written perrno held stores args app].
    rewrite Z.add_0_l, wraps_small; [reflexivity | lia | unfold is_s, smin, smax; lia].
  - unfold fits. cbn [sink written]. split; [discriminate |]. unfold INT_MAX, smax. lia.
Qed.

Lemma sprintf_signed `{ToInteger} c rest state a n :
  (c :: rest = [100] \/ c :: rest = [108; 100]) -> 0 <= Z.abs n <= smax 64 ->
  (forall st, pop_signed_int (S := text) state (PState st 0 0 1 [] [a]) = POk n (PState st 0 0 1 [] [])) ->
  (forall st, specification (S := text) (c :: rest) st = (conv_signed no_flags 0 false 0 false state ;~ pret [])%printf st) ->
  exists ds, digits_of 10 (Z.abs n) ds /\ zlen ds <= 64 /\
    sprintf (S (length (37 :: c :: rest))) (37 :: c :: rest) 0 [a] =
      SnRet (zlen (signed_text n ds)) 0 [] (signed_text n ds ++ [0]).
Proof.
  intros Hc Hv Hp Hs. destruct (signed_run_text n Hv) as (ds & D & L & E). exists ds. split; [exact D |]. split; [exact L |].
  pose proof (signed_run_ok c rest state a n Hc ltac:(unfold smin, smax in *; lia) Hp Hs) as Run. rewrite E in Run.
  unfold sprintf, vsprintf. set (s := signed_text n ds) in *.
  assert (Ls : zlen s <= 65) by (unfold s, signed_text; rewrite zlen_app; destruct (n <? 0); unfold zlen in *; simpl; lia).
  destruct (vsnprintf_text (S (length (37 :: c :: rest))) SIZE_MAX (37 :: c :: rest) 0 [a] ltac:(vm_compute; discriminate))
    as [-> | (st & [Ef | [m Ef]] & N)]; rewrite Run in *; try discriminate.
  - cbn [perrno stores sink]. change (default [] (Some s)) with s. f_equal. unfold truncated. change (SIZE_MAX =? 0) with false. cbv iota.
    rewrite take_ge; [reflexivity |]. unfold zlen in Ls. assert (65 <= SIZE_MAX - 1) by (vm_compute; discriminate). lia.
  - injection Ef as _ <-. discriminate.
Qed.

Lemma sprintf_d `{ToInteger} n : is_s 32 n -> exists ds, digits_of 10 (Z.abs n) ds /\ zlen ds <= 64 /\
  sprintf 3 fmt_d 0 [AInt n] = SnRet (zlen (signed_text n ds)) 0 [] (signed_text n ds ++ [0]).
Proof.
  intros Hn. apply (sprintf_signed 100 [] SNone (AInt n)); [auto | unfold is_s, smin, smax in *; lia | |].
  - intros st. unfold pop_signed_int, va_int, va_arg, pbind. cbn [args]. rewrite wraps_small by (lia || exact Hn). reflexivity.
  - intros st. apply specification_d; reflexivity.
Qed.

Lemma sprintf_ld `{ToInteger} n : is_s 64 n -> n <> smin 64 -> exists ds, digits_of 10 (Z.abs n) ds /\ zlen ds <= 64 /\
  sprintf 4 fmt_ld 0 [ALong n] = SnRet (zlen (signed_text n ds)) 0 [] (signed_text n ds ++ [0]).
Proof.
  intros Hn Hm. apply (sprintf_signed 108 [100] Sl (ALong n)); [auto | unfold is_s, smin, smax in *; lia | |].
  - intros st. unfold pop_signed_int, va_long, va_arg, pbind. cbn [args]. rewrite wraps_small by (lia || exact Hn). reflexivity.
  - intros st. apply specification_d; reflexivity.
Qed.

Lemma strtol_signed_text n ds : digits_of 10 (Z.abs n) ds -> Z.abs n <= smax 64 ->
  strtol (signed_text n ds) 10 = Some (n, [], false).
Proof.
  intros D H. unfold signed_text. rewrite (strtol_digits _ (Z.abs n)) by (exact D || lia). repeat f_equal. zbool; lia.
Qed.

(** A number through [sprintf] and [strtol].  The text that [sprintf]
    writes for an [int] with [%d], or for a [long] with [%ld] ([LONG_MIN], whose
    negation overflows, excepted), is terminated, its length is returned, and
    [strtol] reads the number back from it, with no error and all of it used. *)
Theorem sprintf_strtol_roundtrip `{ToInteger} n :
  (is_s 32 n -> exists s, sprintf 3 fmt_d 0 [AInt n] = SnRet (zlen s) 0 [] (s ++ [0]) /\ strtol s 10 = Some (n, [], false)) /\
  (is_s 64 n -> n <> smin 64 ->
    exists s, sprintf 4 fmt_ld 0 [ALong n] = SnRet (zlen s) 0 [] (s ++ [0]) /\ strtol s 10 = Some (n, [], false)).
Proof.
  split.
  - intros Hn. destruct (sprintf_d n Hn) as (ds & D & _ & E). exists (signed_text n ds). split; [exact E |].
    apply strtol_signed_text; [exact D | unfold is_s, smin, smax in *; lia].
  - intros Hn Hm. destruct (sprintf_ld n Hn Hm) as (ds & D & _ & E). exists (signed_text n ds). split; [exact E |].
    apply strtol_signed_text; [exact D | unfold is_s, smin, smax in *; lia].
Qed.

(** ** The theorems at work *)

(** A reading of a decimal prefix. *)
Fixpoint read_decimal (l : list Z) (v n : Z) : Z * Z :=
  match l with
  | c :: l => if (48 <=? c) && (c <=? 57) then read_decimal l (10 * v + (c - 48)) (n + 1) else (v, n)
  | [] => (v, n)
  end.

#[local] Instance decimal : ToInteger := fun l => read_decimal l 0 0.

(** [snprintf(buffer, 8, "%05d|%s", 42, "hello")]. *)
Lemma vsnprintf_truncates_witness : exists t : text,
  vsnprintf 8 8 [37; 48; 53; 100; 124; 37; 115] 0 [AInt 42; AStr [104; 101; 108; 108; 111]] =
    SnRet (u64 (zlen t)) 0 [] (truncated 8 t).
Proof.
  pose proof (vsnprintf_truncates 8 [37; 48; 53; 100; 124; 37; 115] 0 [AInt 42; AStr [104; 101; 108; 108; 111]] ltac:(lia)) as H.
  assert (E : vfprintf (S (length [37; 48; 53; 100; 124; 37; 115])) [37; 48; 53; 100; 124; 37; 115]
    (initial (Some ([] : text)) 0 [AInt 42; AStr [104; 101; 108; 108; 111]]) =
    POk 11 (PState (Some [48; 48; 48; 52; 50; 124; 104; 101; 108; 108; 111]) 11 0 0 [] [])) by by_vm.
  rewrite E in H.
  destruct (vsnprintf _ _ _ _ _) as [ret e st buffer | | |] eqn:F; try contradiction.
  destruct H as (t & Et & _ & Er & Ee & Es & Eb). exists t.
  rewrite Er, Ee, Es, Eb. reflexivity.
Defined.

Lemma write_int_layout_witness :
  exists ds, digits_of 16 255 ds /\
    writes (write_int 255 16 (int_opts no_flags 6 true 0 false false true true))
      (int_text 16 (int_opts no_flags 6 true 0 false false true true) ds).
Proof.
  destruct (write_int_layout 255 16 (int_opts no_flags 6 true 0 false false true true)) as (ds & D & W & _);
    [auto | lia | vm_compute; split; discriminate |].
  exists ds. split; [exact D | exact W].
Defined.

Lemma sprintf_strtol_roundtrip_witness :
  exists s, sprintf 3 fmt_d 0 [AInt (-42)] = SnRet (zlen s) 0 [] (s ++ [0]) /\ strtol s 10 = Some (-42, [], false).
Proof. refine (proj1 (sprintf_strtol_roundtrip (-42)) _). split; vm_compute; discriminate. Defined.

(** ** Where the text is not the one of the standard *)

(** The zeros of [%05d] are written before the sign. *)
Theorem printf_zero_padding_before_sign :
  writes (write_int 42 10 {| min_width := 5; precision := 1; negative := true; always_write_sign := false;
    plus_as_space := false; pad_with_zero := true; right_pad := false; upper := false; write_prefix := false |})
    [48; 48; 45; 52; 50].
Proof.
  pose proof (write_int_text 42 10 {| min_width := 5; precision := 1; negative := true; always_write_sign := false;
    plus_as_space := false; pad_with_zero := true; right_pad := false; upper := false; write_prefix := false |} [52; 50]) as W.
  apply W; [auto | by_vm | vm_compute; discriminate].
Qed.

(** [%.0f] of 10^20 is a text of 195312500000000000: a number of 2^58 or more is
    multiplied by a power of two only once. *)
Theorem printf_large_number_wrong :
  option_map (@concat Z) (float_chunks 102 false false false 0 0 true (ldbl_of_double 0x4415AF1D78B58C40)) =
    Some [49; 57; 53; 51; 49; 50; 53; 48; 48; 48; 48; 48; 48; 48; 48; 48; 48; 48].
Proof. by_vm. Qed.

(** [%f] of minus infinity and of minus zero have no sign. *)
Theorem printf_infinity_without_sign :
  float_chunks 102 false false false 0 6 true (LInf true) = Some [[105; 110; 102]] /\
  option_map (@concat Z) (float_chunks 102 false false false 0 1 true (ldbl_of_double (2 ^ 63))) = Some [48; 46; 48].
Proof. split; by_vm. Qed.
