(* ===== verification/Scanf.v ===== *)
(** * scanf

    [vfscanf] of [src/src/ansi/stdio.cpp] and [vsscanf].  The file is any object
    with the two operations the function uses, reading one character and
    pushing one back (a class); [Stdio] provides it for the streams of the
    library.  The state of a call is the file, the counts [consumed] and
    [consumed_chars], the arguments left and what was stored through them.  A
    destination is an address, 0 the null pointer.  [hz::to_integer], which reads
    the width, is the parameter of [Printf].  [long double] is the format [F80]. *)

From S2P Require Import Prelude Ctype Ieee Stdio Printf.

#[local] Open Scope Z_scope.

(** [file->read] of one character, [None] for its failure, and [ungetc] with
    whether it succeeded; the outer [None] is an access outside of the push-back
    buffer. *)
Class Source (S : Type) := {
  src_read : S -> option (option Z * S);
  src_unget : Z -> S -> option (bool * S)
}.

(** A store through a destination: the character [i] of a string, a wide
    character, an integer of [w] bits, a floating point number of a format. *)
Inductive store :=
| StChar (dest i c : Z)
| StWChar (dest i c : Z)
| StInt (dest w v : Z)
| StFloat (dest : Z) (F : fmt) (v : Z).

Record sstate (S : Type) := SState {
  source : S;
  consumed : Z;
  consumed_chars : Z;
  dests : list Z;
  log : list store
}.
Arguments SState {S} _ _ _ _ _.
Arguments source {S} _.
Arguments consumed {S} _.
Arguments consumed_chars {S} _.
Arguments dests {S} _.
Arguments log {S} _.

(** [SRet] is a [return] of [vfscanf]; [SUndef] is behaviour that C++ does not
    define: a missing argument or an overflow of [int]; [SBad] is an access outside
    of the push-back buffer. *)
Inductive sres (S A : Type) :=
| SOk (a : A) (st : sstate S)
| SRet (v : Z) (st : sstate S)
| SPanic
| SUndef
| SBad
| SNoFuel.
Arguments SOk {S A} _ _.
Arguments SRet {S A} _ _.
Arguments SPanic {S A}.
Arguments SUndef {S A}.
Arguments SBad {S A}.
Arguments SNoFuel {S A}.

Definition SM (S A : Type) : Type := sstate S -> sres S A.
Definition sret {S A} (a : A) : SM S A := fun st => SOk a st.
Definition sbind {S A B} (c : SM S A) (k : A -> SM S B) : SM S B := fun st =>
  match c st with
  | SOk a st => k a st
  | SRet v st => SRet v st
  | SPanic => SPanic
  | SUndef => SUndef
  | SBad => SBad
  | SNoFuel => SNoFuel
  end.

Declare Scope scanf_scope.
Delimit Scope scanf_scope with scanf.
Notation "x <~ c ;; k" := (sbind c (fun x => k))
  (at level 100, c at next level, right associativity) : scanf_scope.
Notation "c ;~ k" := (sbind c (fun _ => k))
  (at level 100, right associativity) : scanf_scope.
#[local] Open Scope scanf_scope.

Definition F80 : fmt := {| mbits := 63; ebits := 15 |}.

(** The character [i] of a set and the ranges of it. *)
Fixpoint in_set (first : bool) (set : list Z) (c : Z) : bool :=
  match set with
  | [] => false
  | set_c :: set' =>
      match set' with
      | last :: set'' =>
          if (set_c =? 45) && negb first then
            if (set_c <=? c) && (c <=? s8 last) then true else in_set false set'' c
          else if c =? s8 set_c then true else in_set false set' c
      | [] => c =? s8 set_c
      end
  end.

Definition set_matches (invert : bool) (set : list Z) (c : Z) : bool :=
  xorb invert (in_set true set c).

(** The set after a [[] and the format after its end; [None] if it has none. *)
Fixpoint find_close (l : list Z) : option (list Z * list Z) :=
  match l with
  | [] => None
  | c :: l' =>
      if c =? 93 then Some ([], l')
      else match find_close l' with Some (s, r) => Some (c :: s, r) | None => None end
  end.

Definition parse_set (l : list Z) : option (bool * list Z * list Z) :=
  let invert := cur l =? 94 in
  match (if invert then drop 1 l else l) with
  | [] => None
  | c :: l' =>
      match find_close l' with Some (s, r) => Some (invert, c :: s, r) | None => None end
  end.

(** The length modifier. *)
Definition scan_length (fmt : list Z) : State * list Z :=
  let c := cur fmt in
  if c =? 104 then if cur1 fmt =? 104 then (Shh, drop 2 fmt) else (Sh, drop 1 fmt)
  else if c =? 108 then if cur1 fmt =? 108 then (Sll, drop 2 fmt) else (Sl, drop 1 fmt)
  else if c =? 106 then (Sj, drop 1 fmt)
  else if c =? 122 then (Sz, drop 1 fmt)
  else if c =? 116 then (St, drop 1 fmt)
  else if c =? 76 then (SL, drop 1 fmt)
  else (SNone, fmt).

(** [LOWER_CHARS[base - 1]]. *)
Definition last_digit (base : Z) : Z := digit_char false (base - 1).

Definition is_proper_digit (base c : Z) : bool :=
  if negb (base =? 8) then ((48 <=? c) && (c <=? 57)) || ((97 <=? c) && (c <=? last_digit base))
  else (48 <=? c) && (c <=? 55).

Definition digit_value (c : Z) : Z := if c <=? 57 then c - 48 else c - 97 + 10.

(** [value *= base; value += digit], in [uintmax_t]. *)
Definition fold_digits (base : Z) (cs : list Z) (value : Z) : Z :=
  fold_left (fun v c => u64 (u64 (v * base) + digit_value c)) cs value.

Section Scan.
Context {S : Type} {HS : Source S} {TI : ToInteger}.
Context (fuel : nat).

Definition sundef {A} : SM S A := fun _ => SUndef.
Definition spanic {A} : SM S A := fun _ => SPanic.
Definition sreturn {A} (v : Z) : SM S A := fun st => SRet v st.
Definition sensure (b : bool) : SM S unit := if b then sret tt else spanic.
Definition get_consumed : SM S Z := fun st => SOk (consumed st) st.
Definition get_consumed_chars : SM S Z := fun st => SOk (consumed_chars st) st.
Definition add_consumed_chars (n : Z) : SM S unit := fun st =>
  SOk tt (SState (source st) (consumed st) (u64 (consumed_chars st + n)) (dests st) (log st)).
Definition inc_consumed : SM S unit := fun st =>
  SOk tt (SState (source st) (consumed st + 1) (consumed_chars st) (dests st) (log st)).
Definition record (s : store) : SM S unit := fun st =>
  SOk tt (SState (source st) (consumed st) (consumed_chars st) (dests st) (log st ++ [s])).

(** [file->read(file, &c, 1)] and [ungetc(c, file)]. *)
Definition read1 : SM S (option Z) := fun st =>
  match src_read (source st) with
  | Some (c, k) => SOk c (SState k (consumed st) (consumed_chars st) (dests st) (log st))
  | None => SBad
  end.
Definition unget1 (c : Z) : SM S bool := fun st =>
  match src_unget c (source st) with
  | Some (ok, k) => SOk ok (SState k (consumed st) (consumed_chars st) (dests st) (log st))
  | None => SBad
  end.

(** The next character, 0 at the end; it is read and pushed back. *)
Definition look_ahead : SM S Z :=
  c <~ read1 ;;
  match c with
  | None => sret 0
  | Some b => unget1 (s8 b) ;~ sret (s8 b)
  end.

Definition consume : SM S unit := read1 ;~ add_consumed_chars 1.

(** [RETURN]. *)
Definition return_count {A} : SM S A := n <~ get_consumed ;; sreturn (if n =? 0 then EOF else n).

(** The characters pushed back when the text does not match, the last first. *)
Fixpoint unget_all (cs : list Z) : SM S unit :=
  match cs with
  | [] => sret tt
  | c :: cs => ok <~ unget1 c ;; sensure ok ;~ unget_all cs
  end.

(** [buf] holds the characters taken so far, the last first. *)
Fixpoint consume_if_str_equal (str buf : list Z) : SM S bool :=
  match str with
  | [] => sret true
  | c :: str =>
      actual <~ look_ahead ;;
      if tolower actual =? c then consume ;~ consume_if_str_equal str (actual :: buf)
      else unget_all buf ;~ add_consumed_chars (- zlen buf) ;~ sret false
  end.

Fixpoint skip_spaces (fuel : nat) : SM S unit :=
  match fuel with
  | O => fun _ => SNoFuel
  | Datatypes.S n =>
      c <~ look_ahead ;; if truthy (isspace c) then consume ;~ skip_spaces n else sret tt
  end.

(** At most [max_width] characters up to one that [stop]s, each given to [act]
    with its number; the characters. *)
Fixpoint char_loop (fuel : nat) (i max_width : Z) (stop : Z -> bool) (act : Z -> Z -> SM S unit)
  : SM S (list Z) :=
  match fuel with
  | O => fun _ => SNoFuel
  | Datatypes.S n =>
      if i <? max_width then
        c <~ look_ahead ;;
        if stop c then sret []
        else
          consume ;~ act i c ;~
          rest <~ char_loop n (i + 1) max_width stop act ;; sret (c :: rest)
      else sret []
  end.

(** ** Destinations *)
Definition pop_dest (assign : bool) : SM S Z := fun st =>
  if assign then
    match dests st with
    | [] => SUndef
    | d :: rest => SOk d (SState (source st) (consumed st) (consumed_chars st) rest (log st))
    end
  else SOk 0 st.

Definition when_dest (dest : Z) (c : SM S unit) : SM S unit := if dest =? 0 then sret tt else c.

Definition write_to_dest (wide : bool) (dest i c : Z) : SM S unit :=
  when_dest dest (record (if wide then StWChar dest i c else StChar dest i c)).

Definition write_int_to_dest (dest : Z) (state : State) (value : Z) : SM S unit :=
  when_dest dest
    match state with
    | SNone => record (StInt dest 32 (u32 value))
    | Shh => record (StInt dest 8 (u8 value))
    | Sh => record (StInt dest 16 (u16 value))
    | Sl | Sll | Sj | Sz | St => record (StInt dest 64 (u64 value))
    | SL => spanic
    end.

Definition write_float_to_dest (dest : Z) (state : State) (value : Z) : SM S unit :=
  match state with
  | SNone => record (StFloat dest F32 (fcvt F80 F32 value))
  | Sl => record (StFloat dest F64 (fcvt F80 F64 value))
  | SL => record (StFloat dest F80 value)
  | _ => spanic
  end.

(** ** The conversions *)

(** Whether the state is [None] (narrow) or [l] (wide). *)
Definition wide_of (state : State) : SM S bool :=
  match state with SNone => sret false | Sl => sret true | _ => spanic end.

Fixpoint scan_chars (n : nat) (i : Z) (wide : bool) (dest : Z) : SM S unit :=
  match n with
  | O => sret tt
  | Datatypes.S n =>
      c <~ look_ahead ;;
      if c =? 0 then return_count
      else consume ;~ write_to_dest wide dest i c ;~ scan_chars n (i + 1) wide dest
  end.

Definition conv_c (state : State) (max_width : Z) (has_width : bool) (dest : Z) : SM S unit :=
  wide <~ wide_of state ;;
  scan_chars (Z.to_nat (if has_width then max_width else 1)) 0 wide dest ;~
  when_dest dest inc_consumed.

(** [%s] and [%[]: the characters that do not [stop], and a terminator. *)
Definition scan_string (state : State) (max_width dest : Z) (stop : Z -> bool) : SM S unit :=
  wide <~ wide_of state ;;
  cs <~ char_loop fuel 0 max_width (fun c => (c =? 0) || stop c) (write_to_dest wide dest) ;;
  write_to_dest wide dest (zlen cs) 0 ;~
  let used_chars := zlen cs in
  if negb (dest =? 0) && negb (used_chars =? 0) then inc_consumed
  else if used_chars =? 0 then
    n <~ get_consumed ;;
    if n =? 0 then c <~ look_ahead ;; if c =? 0 then sreturn EOF else sret tt
    else sret tt
  else sret tt.

(** The sign: whether it is a minus, the width left and the characters used. *)
Definition scan_sign (max_width : Z) : SM S (bool * Z * Z) :=
  if max_width =? 0 then sret (false, max_width, 0)
  else
    c <~ look_ahead ;;
    if c =? 45 then consume ;~ sret (true, max_width - 1, 1)
    else
      c <~ look_ahead ;;
      if c =? 43 then consume ;~ sret (false, max_width - 1, 1)
      else sret (false, max_width, 0).

(** The end of a numeric conversion. *)
Definition finish (dest used_chars used_extra : Z) (store_it : SM S unit) : SM S unit :=
  if negb (dest =? 0) && negb (used_chars =? 0) then store_it ;~ inc_consumed
  else if used_chars =? 0 then
    if used_extra =? 0 then
      c <~ look_ahead ;;
      if c =? 0 then sreturn EOF else n <~ get_consumed ;; sreturn n
    else n <~ get_consumed ;; sreturn n
  else sret tt.

Definition no_act (i c : Z) : SM S unit := sret tt.

Definition signed_bits (sign : bool) (value : Z) : Z := if sign then u64 (value * -1) else value.

(** [%d] and [%u]. *)
Definition conv_d (state : State) (max_width dest : Z) : SM S unit :=
  s <~ scan_sign max_width ;;
  let '(sign, max_width, extra) := s in
  cs <~ char_loop fuel 0 max_width (fun c => negb (truthy (isdigit c))) no_act ;;
  finish dest (zlen cs) extra
    (write_int_to_dest dest state (signed_bits sign (fold_digits 10 cs 0))).

(** The prefix of [%i]: the base, the width left, the characters used as digits and
    the others. *)
Definition scan_prefix_i (max_width : Z) : SM S (Z * Z * Z * Z) :=
  if max_width =? 0 then sret (10, max_width, 0, 0)
  else
    c <~ look_ahead ;;
    if c =? 48 then
      consume ;~
      c <~ look_ahead ;;
      if (c =? 120) || (c =? 88) then consume ;~ sret (16, max_width - 2, 0, 2)
      else if (c =? 98) || (c =? 66) then consume ;~ sret (2, max_width - 2, 0, 2)
      else sret (8, max_width - 1, 1, 0)
    else sret (10, max_width, 0, 0).

Definition conv_i (state : State) (max_width dest : Z) : SM S unit :=
  s <~ scan_sign max_width ;;
  let '(sign, max_width, extra) := s in
  p <~ scan_prefix_i max_width ;;
  let '(base, max_width, used, extra2) := p in
  cs <~ char_loop fuel 0 max_width (fun c => negb (is_proper_digit base (tolower c))) no_act ;;
  finish dest (used + zlen cs) (extra + extra2)
    (write_int_to_dest dest state (signed_bits sign (fold_digits base (map tolower cs) 0))).

(** The leading 0 of [%o], [%x] and of a floating point number: the width left,
    the characters used as digits, the others; [hex] says whether [0x] is a
    prefix. *)
Definition scan_zero (hex : bool) (max_width : Z) : SM S (bool * Z * Z * Z) :=
  if max_width =? 0 then sret (false, max_width, 0, 0)
  else
    c <~ look_ahead ;;
    if c =? 48 then
      consume ;~
      if hex then
        c <~ look_ahead ;;
        if (c =? 120) || (c =? 88) then consume ;~ sret (true, max_width - 2, 0, 2)
        else sret (false, max_width - 1, 1, 0)
      else sret (false, max_width - 1, 1, 0)
    else sret (false, max_width, 0, 0).

Definition conv_o (state : State) (max_width dest : Z) : SM S unit :=
  s <~ scan_sign max_width ;;
  let '(sign, max_width, extra) := s in
  p <~ scan_zero false max_width ;;
  let '(_, max_width, used, extra2) := p in
  cs <~ char_loop fuel 0 max_width (fun c => (c <? 48) || (55 <? c)) no_act ;;
  finish dest (used + zlen cs) (extra + extra2)
    (write_int_to_dest dest state (signed_bits sign (fold_digits 8 cs 0))).

Definition conv_x (state : State) (max_width dest : Z) : SM S unit :=
  s <~ scan_sign max_width ;;
  let '(sign, max_width, extra) := s in
  p <~ scan_zero true max_width ;;
  let '(_, max_width, used, extra2) := p in
  cs <~ char_loop fuel 0 max_width (fun c => negb (truthy (isxdigit c))) no_act ;;
  finish dest (used + zlen cs) (extra + extra2)
    (write_int_to_dest dest state
       (signed_bits sign (fold_digits 16 (map (fun c => s8 (tolower c)) cs) 0))).

(** ** Floating point *)
Definition ld_int (z : Z) : Z := of_int F80 z.

Definition int_part (base : Z) (cs : list Z) : Z :=
  fold_left (fun v c => fadd F80 (fmul F80 v (ld_int base)) (ld_int (digit_value (tolower c)))) cs 0.

(** [decimal /= base; value += decimal * digit]. *)
Definition frac_part (base : Z) (cs : list Z) (value : Z) : Z :=
  fst (fold_left (fun '(v, decimal) c =>
    let decimal := fdiv F80 decimal (ld_int base) in
    (fadd F80 v (fmul F80 decimal (ld_int (digit_value (tolower c)))), decimal)) cs (value, ld_int 1)).

(** [exponent *= 10; exponent += digit], an [int]. *)
Fixpoint exponent_of (cs : list Z) (v : Z) : option Z :=
  match cs with
  | [] => Some v
  | c :: cs =>
      let v := v * 10 + (c - 48) in if INT_MAX <? v then None else exponent_of cs v
  end.

Definition scale (base : Z) (neg : bool) (exponent value : Z) : Z :=
  let e := ld_int (if base =? 10 then 10 else 2) in
  Nat.iter (Z.to_nat exponent) (fun v => if neg then fdiv F80 v e else fmul F80 v e) value.

(** The fraction after a point: the value, the width left, the digits. *)
Definition scan_fraction (base max_width value : Z) : SM S (Z * Z * Z) :=
  if max_width =? 0 then sret (value, max_width, 0)
  else
    c <~ look_ahead ;;
    if c =? 46 then
      consume ;~
      cs <~ char_loop fuel 0 (max_width - 1) (fun c => negb (is_proper_digit base (tolower c))) no_act ;;
      sret (frac_part base cs value, max_width - 1 - zlen cs, zlen cs)
    else sret (value, max_width, 0).

Definition scan_exponent (base max_width value : Z) : SM S Z :=
  if max_width =? 0 then sret value
  else
    c <~ look_ahead ;;
    if tolower c =? (if base =? 10 then 101 else 112) then
      consume ;~
      s <~ scan_sign (max_width - 1) ;;
      let '(neg, max_width, _) := s in
      cs <~ char_loop fuel 0 max_width (fun c => negb (truthy (isdigit c))) no_act ;;
      match exponent_of cs 0 with
      | Some e => sret (scale base neg e value)
      | None => sundef
      end
    else sret value.

Definition str_infinity : list Z := [105; 110; 102; 105; 110; 105; 116; 121].
Definition str_inf : list Z := [105; 110; 102].
Definition str_nan : list Z := [110; 97; 110].

Definition store_special (dest : Z) (state : State) (v : Z) : SM S unit :=
  when_dest dest (write_float_to_dest dest state v ;~ inc_consumed).

Definition conv_float (state : State) (max_width dest : Z) : SM S unit :=
  s <~ scan_sign max_width ;;
  let '(sign, max_width, extra) := s in
  i1 <~ consume_if_str_equal str_infinity [] ;;
  i2 <~ (if i1 then sret true else consume_if_str_equal str_inf []) ;;
  if i2 then store_special dest state (inf_mag F80)
  else
    n <~ consume_if_str_equal str_nan [] ;;
    if n then store_special dest state (qnan F80)
    else
      p <~ scan_zero true max_width ;;
      let '(hex, max_width, used, extra2) := p in
      let base := if hex then 16 else 10 in
      cs <~ char_loop fuel 0 max_width (fun c => negb (is_proper_digit base (tolower c))) no_act ;;
      f <~ scan_fraction base (max_width - zlen cs) (int_part base cs) ;;
      let '(value, max_width, used2) := f in
      value <~ scan_exponent base max_width value ;;
      let value := if sign then fmul F80 value (ld_int (-1)) else value in
      finish dest (used + zlen cs + used2) (extra + extra2) (write_float_to_dest dest state value).

(** ** The loop over the format *)

(** A conversion: the specification after the [%] and the format after it. *)
Definition conversion (fmt : list Z) : SM S (list Z) :=
  let assign := negb (cur fmt =? 42) in
  let fmt := if assign then fmt else drop 1 fmt in
  let '(w, has_width, fmt) :=
    if digit_at fmt then
      let '(w, count) := to_integer fmt in (w, true, drop (Z.to_nat count) fmt)
    else (0, false, fmt) in
  let '(state, fmt) := scan_length fmt in
  match fmt with
  | [] => sreturn EOF
  | c :: fmt =>
      (if (c =? 91) || (c =? 99) || (c =? 110) then sret tt else skip_spaces fuel) ;~
      dest <~ pop_dest assign ;;
      let max_width := if has_width then w else INT_MAX in
      if c =? 99 then conv_c state w has_width dest ;~ sret fmt
      else if c =? 115 then
        scan_string state max_width dest (fun c => truthy (isspace c)) ;~ sret fmt
      else if c =? 91 then
        match parse_set fmt with
        | None => sreturn (-1)
        | Some (invert, set, fmt) =>
            scan_string state max_width dest (fun c => negb (set_matches invert set c)) ;~ sret fmt
        end
      else if (c =? 117) || (c =? 100) then conv_d state max_width dest ;~ sret fmt
      else if c =? 105 then conv_i state max_width dest ;~ sret fmt
      else if c =? 111 then conv_o state max_width dest ;~ sret fmt
      else if (c =? 120) || (c =? 88) || (c =? 112) then
        conv_x (if c =? 112 then Sl else state) max_width dest ;~ sret fmt
      else if c =? 110 then
        n <~ get_consumed_chars ;; write_int_to_dest dest state n ;~ sret fmt
      else if existsb (Z.eqb c) [97; 65; 101; 69; 102; 70; 103; 71] then
        conv_float state max_width dest ;~ sret fmt
      else sret fmt
  end.

Fixpoint drop_spaces (fmt : list Z) : list Z :=
  match fmt with
  | c :: fmt' => if truthy (isspace (s8 c)) then drop_spaces fmt' else fmt
  | [] => []
  end.

Fixpoint scan_loop (n : nat) (fmt : list Z) : SM S Z :=
  match n with
  | O => fun _ => SNoFuel
  | Datatypes.S n =>
      match fmt with
      | [] => get_consumed
      | c :: fmt' =>
          if truthy (isspace (s8 c)) then skip_spaces fuel ;~ scan_loop n (drop_spaces fmt')
          else if negb (c =? 37) then
            l <~ look_ahead ;;
            if l =? s8 c then consume ;~ scan_loop n fmt'
            else
              l <~ look_ahead ;;
              if l =? 0 then return_count else m <~ get_consumed ;; sreturn m
          else if cur fmt' =? 37 then
            l <~ look_ahead ;;
            if l =? 37 then consume ;~ scan_loop n (drop 1 fmt') else return_count
          else fmt <~ conversion fmt' ;; scan_loop n fmt
      end
  end.
End Scan.

(** The value returned; [fuel] bounds the characters a loop reads. *)
Definition vfscanf {S} `{Source S} `{ToInteger} (fuel : nat) (fmt : list Z) : SM S Z :=
  fun st =>
    match scan_loop fuel (Datatypes.S (length fmt)) fmt st with
    | SRet v st => SOk v st
    | r => r
    end.

(** ** Streams of the library as sources *)
#[export] Instance stream_source {K} `{Kernel K} : Source (world K) := {
  src_read w :=
    match read 1 w with
    | Done (n, data) w' => Some (if n =? 1 then Some (nth 0 data 0) else None, w')
    | _ => None
    end;
  src_unget c w := match ungetc c w with Done r w' => Some (r =? c, w') | _ => None end
}.

(** A string has no descriptor: no system call is made. *)
#[export] Instance no_kernel : Kernel unit := {
  sys_read _ _ k := (inl EINVAL, k);
  sys_write _ _ k := (inl EINVAL, k);
  sys_lseek _ _ _ k := (inl EINVAL, k);
  sys_openat _ _ k := (inl EINVAL, k);
  sys_close _ k := (Some EINVAL, k)
}.

Definition str_world (str : list Z) : world unit := World (new_file StrFile str 0) 0 tt.

Definition vsscanf `{ToInteger} (fuel : nat) (str fmt : list Z) (ap : list Z) : sres (world unit) Z :=
  vfscanf fuel fmt (SState (str_world str) 0 0 ap []).

Definition sscanf `{ToInteger} : nat -> list Z -> list Z -> list Z -> sres (world unit) Z := vsscanf.

(** ** What a source promises

    [ahead] is what the reads still return; [pending] of it was pushed back, and
    there is always room for [UNGET_ROOM] characters. *)
Definition UNGET_ROOM : Z := 64.

Class SourceOk (S : Type) `{Source S} := {
  ahead : S -> list Z;
  pending : S -> Z;
  good : S -> Prop;
  ahead_bytes s : good s -> Forall (is_u 8) (ahead s);
  read_law s : good s -> exists s', src_read s = Some (head (ahead s), s') /\ good s' /\
    ahead s' = tail (ahead s) /\ pending s' = Z.max 0 (pending s - 1);
  unget_law c s : good s -> 0 <= pending s < UNGET_ROOM -> exists s', src_unget c s = Some (true, s') /\ good s' /\
    ahead s' = u8 c :: ahead s /\ pending s' = pending s + 1;
  pending_nonneg s : good s -> 0 <= pending s
}.

Create HintDb scanf.

Section Facts.
Context {S : Type} {HS : Source S} {HO : SourceOk S} {TI : ToInteger}.

(** The next character as [look_ahead] gives it. *)
Definition next (st : sstate S) : Z := match ahead (source st) with b :: _ => s8 b | [] => 0 end.

(** The state with another source. *)
Definition with_source (st : sstate S) (k : S) (n : Z) : sstate S :=
  SState k (consumed st) (u64 (consumed_chars st + n)) (dests st) (log st).
Definition set_source (st : sstate S) (k : S) : sstate S :=
  SState k (consumed st) (consumed_chars st) (dests st) (log st).

Lemma u8_of_s8 b : is_u 8 b -> u8 (s8 b) = b.
Proof using. intros H. unfold wrapu. rewrite wraps_mod by lia. apply Z.mod_small, H. Qed.

Lemma look_ahead_spec st : good (source st) -> pending (source st) < UNGET_ROOM -> exists k,
  look_ahead st = SOk (next st) (set_source st k) /\ good k /\ ahead k = ahead (source st) /\
  pending k <= Z.max 1 (pending (source st)).
Proof using HO.
  intros G P. unfold look_ahead, sbind, read1. pose proof (pending_nonneg _ G) as Pn.
  destruct (read_law _ G) as (k1 & -> & G1 & A1 & P1).
  pose proof (ahead_bytes _ G) as B. unfold next. destruct (ahead (source st)) as [| b l] eqn:E.
  - exists k1. simpl in *. rewrite A1. repeat split; auto. lia.
  - simpl in *. apply Forall_cons_1 in B as [B _].
    destruct (unget_law (s8 b) k1 G1 ltac:(lia)) as (k2 & E2 & G2 & A2 & P2).
    unfold unget1. cbn [source]. rewrite E2. exists k2. rewrite A2, A1, u8_of_s8 by exact B.
    repeat split; auto. lia.
Qed.

Lemma consume_spec st : good (source st) -> exists k,
  consume st = SOk tt (with_source st k 1) /\ good k /\ ahead k = tail (ahead (source st)) /\
  pending k = Z.max 0 (pending (source st) - 1).
Proof using HO.
  intros G. unfold consume, sbind, read1, add_consumed_chars.
  destruct (read_law _ G) as (k & -> & Hk). exists k. split; [reflexivity | exact Hk].
Qed.

(** ** Every run ends

    Nothing the function does is blocked: with more fuel than characters, a run
    returns, and the push-back buffer is never left. *)
Context (fuel : nat).

Definition left (st : sstate S) : nat := length (ahead (source st)).
Definition sinv (st : sstate S) : Prop :=
  good (source st) /\ pending (source st) <= 55 /\ (left st < fuel)%nat.

Definition ends {A} (c : SM S A) (st : sstate S) : Prop :=
  match c st with
  | SOk _ st' => sinv st' /\ (left st' <= left st)%nat
  | SRet _ _ | SPanic | SUndef => True
  | SBad | SNoFuel => False
  end.
Definition runs {A} (c : SM S A) : Prop := forall st, sinv st -> ends c st.

(** Only the counts, the arguments and the log change. *)
Definition quiet {A} (c : SM S A) : Prop := forall st,
  match c st with
  | SOk _ st' => source st' = source st
  | SRet _ _ | SPanic | SUndef => True
  | SBad | SNoFuel => False
  end.

Lemma quiet_runs {A} (c : SM S A) : quiet c -> runs c.
Proof using.
  intros H st Hs. specialize (H st). unfold ends. destruct (c st); try exact H.
  unfold sinv, left in *. rewrite H. auto.
Qed.

Lemma quiet_bind {A B} (c : SM S A) (k : A -> SM S B) : quiet c -> (forall a, quiet (k a)) -> quiet (sbind c k).
Proof using.
  intros Hc Hk st. specialize (Hc st). unfold sbind. destruct (c st) as [a st1 | | | | |]; try exact Hc.
  specialize (Hk a st1). destruct (k a st1); try exact Hk. congruence.
Qed.

Lemma runs_bind {A B} (c : SM S A) (k : A -> SM S B) : runs c -> (forall a, runs (k a)) -> runs (sbind c k).
Proof using.
  intros Hc Hk st Hs. specialize (Hc st Hs). unfold ends, sbind in *. destruct (c st) as [a st1 | | | | |]; try exact Hc.
  destruct Hc as [H1 L1]. specialize (Hk a st1 H1). unfold ends in Hk. destruct (k a st1); try exact Hk.
  destruct Hk as [H2 L2]. split; [exact H2 | lia].
Qed.

Lemma quiet_ret {A} (a : A) : quiet (sret a).
Proof using. intros st. reflexivity. Qed.
Lemma quiet_return {A} v : quiet (A := A) (sreturn v).
Proof using. intros st. exact I. Qed.
Lemma quiet_panic {A} : quiet (A := A) spanic.
Proof using. intros st. exact I. Qed.
Lemma quiet_undef {A} : quiet (A := A) sundef.
Proof using. intros st. exact I. Qed.
Lemma quiet_record s : quiet (record s).
Proof using. intros st. reflexivity. Qed.
Lemma quiet_inc : quiet inc_consumed.
Proof using. intros st. reflexivity. Qed.
Lemma quiet_count : quiet get_consumed.
Proof using. intros st. reflexivity. Qed.
Lemma quiet_chars : quiet get_consumed_chars.
Proof using. intros st. reflexivity. Qed.
Lemma quiet_pop b : quiet (pop_dest b).
Proof using. intros st. unfold pop_dest. destruct b; [destruct (dests st) | ]; simpl; auto. Qed.
Hint Resolve quiet_ret quiet_return quiet_panic quiet_undef quiet_record quiet_inc quiet_count quiet_chars quiet_pop : scanf.

Ltac quiet_step :=
  match goal with
  | |- quiet (sbind _ _) => apply quiet_bind; [| intros ?]
  | |- quiet (if ?b then _ else _) => destruct b
  | |- quiet (match ?x with _ => _ end) => destruct x
  | |- _ => solve [auto with scanf]
  end.
Ltac quiet_tac := repeat quiet_step.

Lemma quiet_dest w d i c : quiet (write_to_dest w d i c).
Proof using. unfold write_to_dest, when_dest. quiet_tac. Qed.
Lemma quiet_write_int d s v : quiet (write_int_to_dest d s v).
Proof using. unfold write_int_to_dest, when_dest. quiet_tac. Qed.
Lemma quiet_write_float d s v : quiet (write_float_to_dest d s v).
Proof using. unfold write_float_to_dest. quiet_tac. Qed.
Lemma quiet_return_count {A} : quiet (A := A) return_count.
Proof using. unfold return_count. quiet_tac. Qed.
Lemma quiet_wide s : quiet (wide_of s).
Proof using. unfold wide_of. quiet_tac. Qed.
Lemma quiet_when d c : quiet c -> quiet (when_dest d c).
Proof using. intros H. unfold when_dest. quiet_tac. Qed.
Lemma quiet_no_act i c : quiet (no_act i c).
Proof using. unfold no_act. quiet_tac. Qed.
Hint Resolve quiet_dest quiet_write_int quiet_write_float quiet_return_count quiet_wide quiet_when quiet_no_act : scanf.

Lemma runs_look : runs look_ahead.
Proof using HO.
  intros st (G & P & L). destruct (look_ahead_spec st G ltac:(unfold UNGET_ROOM; lia)) as (k & E & Gk & Ak & Pk).
  unfold ends, sinv, left in *. rewrite E. simpl. rewrite Ak. repeat split; auto; lia.
Qed.

Lemma runs_consume : runs consume.
Proof using HO.
  intros st (G & P & L). destruct (consume_spec st G) as (k & E & Gk & Ak & Pk).
  unfold ends, sinv, left in *. rewrite E. simpl. rewrite Ak.
  assert (length (tail (ahead (source st))) <= length (ahead (source st)))%nat by (destruct (ahead (source st)); simpl; lia).
  repeat split; auto; lia.
Qed.
Hint Resolve runs_look runs_consume quiet_runs : scanf.

(** One step of a loop: the next character, and the state after it is consumed. *)
Lemma advance st : sinv st -> exists st1,
  look_ahead st = SOk (next st) st1 /\ sinv st1 /\ left st1 = left st /\
  (next st <> 0 -> exists st2, consume st1 = SOk tt st2 /\ sinv st2 /\ left st = Datatypes.S (left st2)).
Proof using HO.
  intros (G & P & L). destruct (look_ahead_spec st G ltac:(unfold UNGET_ROOM; lia)) as (k & E & Gk & Ak & Pk).
  exists (set_source st k). split; [exact E |].
  split; [unfold sinv, left in *; simpl; rewrite Ak; repeat split; auto; lia |].
  split; [unfold left; simpl; rewrite Ak; reflexivity |]. intros N.
  destruct (consume_spec (set_source st k) Gk) as (k' & Ec & Gk' & Ak' & Pk').
  eexists. split; [exact Ec |]. unfold sinv, left, next in *. simpl in *. rewrite Ak', Ak.
  destruct (ahead (source st)); [congruence |]. simpl in *. repeat split; auto; lia.
Qed.

(** A loop that stops at the end of the input. *)
Lemma runs_char_loop n : forall i w stop act st, stop 0 = true -> (forall i c, quiet (act i c)) ->
  sinv st -> (left st < n)%nat -> ends (char_loop n i w stop act) st.
Proof using HO.
  induction n as [| n IH]; intros i w stop act st H0 Ha Hs Hn; [lia |]. cbn [char_loop].
  destruct (i <? w); [| apply (quiet_runs _ (quiet_ret _)); exact Hs].
  unfold ends, sbind at 1. destruct (advance st Hs) as (st1 & -> & H1 & L1 & Adv).
  destruct (stop (next st)) eqn:Es; [split; [exact H1 | lia] |].
  destruct Adv as (st2 & Ec & H2 & L2); [congruence |]. unfold sbind at 1. rewrite Ec.
  specialize (Ha i (next st) st2) as Hq. unfold sbind at 1. destruct (act i (next st) st2) as [u st3 | | | | |]; try exact Hq.
  assert (H3 : sinv st3 /\ left st3 = left st2) by (unfold sinv, left in *; rewrite Hq; auto).
  destruct H3 as [H3 L3]. specialize (IH (i + 1) w stop act st3 H0 Ha H3 ltac:(lia)). unfold ends in IH. unfold sbind.
  destruct (char_loop n (i + 1) w stop act st3); try exact IH. unfold sret. split; [apply IH | lia].
Qed.

Lemma runs_skip n : forall st, sinv st -> (left st < n)%nat -> ends (skip_spaces n) st.
Proof using HO.
  induction n as [| n IH]; intros st Hs Hn; [lia |]. cbn [skip_spaces].
  unfold ends, sbind at 1. destruct (advance st Hs) as (st1 & -> & H1 & L1 & Adv).
  destruct (truthy (isspace (next st))) eqn:Es; [| split; [exact H1 | lia]].
  destruct Adv as (st2 & Ec & H2 & L2); [intros E; rewrite E in Es; discriminate |]. unfold sbind. rewrite Ec.
  specialize (IH st2 H2 ltac:(lia)). unfold ends in IH. destruct (skip_spaces n st2); try exact IH. split; [apply IH | lia].
Qed.

Lemma runs_skip_spaces : runs (skip_spaces fuel).
Proof using HO. intros st Hs. apply runs_skip; [exact Hs | apply Hs]. Qed.

Lemma runs_loop i w stop act : stop 0 = true -> (forall i c, quiet (act i c)) -> runs (char_loop fuel i w stop act).
Proof using HO. intros H0 Ha st Hs. apply runs_char_loop; auto. apply Hs. Qed.
Hint Resolve runs_skip_spaces : scanf.
Hint Extern 1 (runs (char_loop _ _ _ _ _)) => apply runs_loop; [reflexivity | auto with scanf] : scanf.

Ltac runs_step :=
  match goal with
  | |- runs (sbind _ _) => apply runs_bind; [| intros ?]
  | |- runs (if ?b then _ else _) => destruct b
  | |- runs (match ?x with _ => _ end) => destruct x
  | |- runs (let _ := _ in _) => cbv zeta
  | |- _ => solve [auto 6 with scanf]
  end.
Ltac runs_tac := cbv zeta; repeat (runs_step; cbv zeta).

Lemma runs_scan_chars n : forall i w d, runs (scan_chars n i w d).
Proof using HO. induction n as [| n IH]; intros i w d; cbn [scan_chars]; runs_tac. Qed.
Hint Resolve runs_scan_chars : scanf.
Lemma runs_conv_c s m h d : runs (conv_c s m h d).
Proof using HO. unfold conv_c. runs_tac. Qed.
Lemma runs_sign m : runs (scan_sign m).
Proof using HO. unfold scan_sign. runs_tac. Qed.
Lemma runs_zero h m : runs (scan_zero h m).
Proof using HO. unfold scan_zero. runs_tac. Qed.
Lemma runs_prefix m : runs (scan_prefix_i m).
Proof using HO. unfold scan_prefix_i. runs_tac. Qed.
Lemma runs_finish d u e c : quiet c -> runs (finish d u e c).
Proof using HO. intros H. unfold finish. runs_tac. Qed.
Hint Resolve runs_conv_c runs_sign runs_zero runs_prefix runs_finish : scanf.
Lemma runs_scan_string s m d stop : runs (scan_string fuel s m d stop).
Proof using HO. unfold scan_string. runs_tac. Qed.

Lemma proper_stop base : negb (is_proper_digit base (tolower 0)) = true.
Proof using. unfold is_proper_digit. destruct (base =? 8); reflexivity. Qed.
Hint Extern 1 (runs (char_loop _ _ _ _ _)) => apply runs_loop; [apply proper_stop | auto with scanf] : scanf.
Hint Resolve runs_scan_string : scanf.

Lemma runs_conv_d s m d : runs (conv_d fuel s m d).
Proof using HO. unfold conv_d. runs_tac. Qed.
Lemma runs_conv_i s m d : runs (conv_i fuel s m d).
Proof using HO. unfold conv_i. runs_tac. Qed.
Lemma runs_conv_o s m d : runs (conv_o fuel s m d).
Proof using HO. unfold conv_o. runs_tac. Qed.
Lemma runs_conv_x s m d : runs (conv_x fuel s m d).
Proof using HO. unfold conv_x. runs_tac. Qed.
Lemma runs_fraction b m v : runs (scan_fraction fuel b m v).
Proof using HO. unfold scan_fraction. runs_tac. Qed.
Lemma runs_exponent b m v : runs (scan_exponent fuel b m v).
Proof using HO. unfold scan_exponent. runs_tac. Qed.
Hint Resolve runs_conv_d runs_conv_i runs_conv_o runs_conv_x runs_fraction runs_exponent : scanf.

(** Characters pushed back: the room is enough for the longest word. *)
Lemma unget_all_spec cs : forall st, good (source st) -> pending (source st) + zlen cs <= 55 -> exists st',
  unget_all cs st = SOk tt st' /\ good (source st') /\ pending (source st') = pending (source st) + zlen cs /\
  ahead (source st') = rev (map u8 cs) ++ ahead (source st) /\ dests st' = dests st.
Proof using HO.
  induction cs as [| c cs IH]; intros st G P; cbn [unget_all].
  { exists st. change (zlen (A := Z) []) with 0. simpl. repeat split; auto; lia. }
  rewrite zlen_cons in *. pose proof (zlen_nonneg cs). pose proof (pending_nonneg _ G).
  destruct (unget_law c (source st) G ltac:(unfold UNGET_ROOM; lia)) as (k & E & Gk & Ak & Pk).
  unfold sbind, unget1. rewrite E. cbn [sensure sret]. unfold sensure, sret. fold (set_source st k).
  destruct (IH (set_source st k) Gk ltac:(simpl; lia)) as (st' & -> & G' & P' & A' & D').
  exists st'. split; [reflexivity |]. split; [exact G' |]. simpl in *. split; [lia |].
  split; [rewrite A', Ak, <- app_assoc; reflexivity | exact D'].
Qed.

(** What is ahead after a word was tried: a rest of what was ahead before, where [buf]
    are the characters of it taken so far. *)
Lemma consume_if_spec str : Forall (fun c => c <> 0) str -> forall buf st,
  (length str + length buf <= 8)%nat -> good (source st) ->
  pending (source st) <= Z.max 1 (55 - zlen buf) -> (left st + length buf < fuel)%nat ->
  match consume_if_str_equal str buf st with
  | SOk _ st' => sinv st' /\ ahead (source st') `suffix_of` rev (map u8 buf) ++ ahead (source st) /\ dests st' = dests st
  | _ => False
  end.
Proof using HO.
  induction 1 as [| c str Hc _ IH]; intros buf st Hl G P L; cbn [consume_if_str_equal].
  { unfold sret, sinv, zlen in *. split; [repeat split; auto; lia |]. split; [apply suffix_app_r; reflexivity | reflexivity]. }
  unfold sbind at 1. destruct (look_ahead_spec st G ltac:(unfold UNGET_ROOM, zlen in *; lia)) as (k & -> & Gk & Ak & Pk).
  simpl in Hl. destruct (Z.eqb_spec (tolower (next st)) c) as [Ec | Nc].
  - destruct (consume_spec (set_source st k) Gk) as (k' & E & Gk' & Ak' & Pk'). unfold sbind. rewrite E.
    cbn [source set_source] in *. set (st' := with_source (set_source st k) k' 1).
    assert (At : ahead (source st) = u8 (next st) :: ahead (source st')).
    { unfold st', next in *. simpl. rewrite Ak', Ak. pose proof (ahead_bytes _ G) as B. destruct (ahead (source st)) as [| b l].
      - change (tolower 0) with 0 in Ec. congruence.
      - apply Forall_cons_1 in B as [B _]. rewrite u8_of_s8 by exact B. reflexivity. }
    assert (Lk : left st = Datatypes.S (left st')) by (unfold left; rewrite At; reflexivity).
    specialize (IH (next st :: buf) st' ltac:(simpl; lia) Gk').
    rewrite zlen_cons in IH. specialize (IH ltac:(simpl; lia) ltac:(simpl; lia)).
    destruct (consume_if_str_equal str (next st :: buf) st'); try exact IH. rewrite At.
    cbn [map rev] in IH. rewrite <- app_assoc in IH. exact IH.
  - destruct (unget_all_spec buf (set_source st k) Gk) as (st' & E & G' & P' & A' & D').
    { simpl. unfold zlen in *. lia. }
    unfold sbind. rewrite E. unfold add_consumed_chars, sret. cbn [source dests set_source] in *. rewrite A', Ak.
    split; [| split; [reflexivity | exact D']].
    unfold sinv, left in *. cbn [source]. rewrite A', Ak, length_app, length_rev, length_map.
    unfold zlen in *. repeat split; auto; lia.
Qed.

Lemma runs_word str : Forall (fun c => c <> 0) str -> (length str <= 8)%nat -> runs (consume_if_str_equal str []).
Proof using HO.
  intros H L st (G & P & Lf). pose proof (consume_if_spec str H [] st) as C. unfold ends. simpl in C.
  rewrite !Nat.add_0_r in C. specialize (C L G ltac:(change (zlen []) with 0; lia) Lf).
  destruct (consume_if_str_equal str [] st); try contradiction. destruct C as (C1 & C2 & _). split; [exact C1 | exact (suffix_length _ _ C2)].
Qed.
Hint Extern 1 (runs (consume_if_str_equal _ _)) => apply runs_word; [repeat constructor; discriminate | simpl; lia] : scanf.

Lemma runs_conv_float s m d : runs (conv_float fuel s m d).
Proof using HO. unfold conv_float, store_special, when_dest. runs_tac. Qed.
Hint Resolve runs_conv_float : scanf.

Lemma runs_conversion fmt : runs (conversion fuel fmt).
Proof using HO. unfold conversion. runs_tac. Qed.

(** The format left after a conversion is not longer. *)
Definition yields {A} (Q : A -> Prop) (c : SM S A) : Prop :=
  forall st, match c st with SOk a _ => Q a | _ => True end.

Lemma yields_bind {A B} (Q : B -> Prop) (c : SM S A) k : (forall a, yields Q (k a)) -> yields Q (sbind c k).
Proof using. intros H st. unfold sbind. destruct (c st); auto. apply H. Qed.
Lemma yields_ret {A} (Q : A -> Prop) a : Q a -> yields Q (sret a).
Proof using. intros H st. exact H. Qed.
Lemma yields_return {A} (Q : A -> Prop) v : yields Q (sreturn v).
Proof using. intros st. exact I. Qed.

Lemma find_close_length l : forall s r, find_close l = Some (s, r) -> (length r <= length l)%nat.
Proof using.
  induction l as [| c l IH]; intros s r E; simpl in E; [discriminate |].
  destruct (c =? 93); [injection E as _ <-; simpl; lia |].
  destruct (find_close l) as [[s' r'] |] eqn:F; [| discriminate]. injection E as _ <-. specialize (IH _ _ eq_refl). simpl. lia.
Qed.

Lemma parse_set_length l i s r : parse_set l = Some (i, s, r) -> (length r <= length l)%nat.
Proof using.
  unfold parse_set. intros E. destruct (cur l =? 94).
  - destruct (drop 1 l) as [| c l'] eqn:D; [discriminate |].
    destruct (find_close l') as [[s' r'] |] eqn:F; [| discriminate]. injection E as _ _ <-.
    apply find_close_length in F. pose proof (length_drop l 1) as L. rewrite D in L. simpl in L. lia.
  - destruct l as [| c l']; [discriminate |].
    destruct (find_close l') as [[s' r'] |] eqn:F; [| discriminate]. injection E as _ _ <-.
    apply find_close_length in F. simpl. lia.
Qed.

Lemma scan_length_length fmt : (length (snd (scan_length fmt)) <= length fmt)%nat.
Proof using.
  unfold scan_length. cbv zeta.
  repeat match goal with |- context [if ?b then _ else _] => destruct b end; simpl; rewrite ?length_drop; lia.
Qed.

Lemma conversion_length fmt : yields (fun r => (length r <= length fmt)%nat) (conversion fuel fmt).
Proof using.
  unfold conversion. cbv zeta. set (f1 := if negb (cur fmt =? 42) then fmt else drop 1 fmt).
  assert (L1 : (length f1 <= length fmt)%nat) by (unfold f1; destruct (negb _); rewrite ?length_drop; lia).
  destruct (if digit_at f1 then _ else _) as [[w hw] f2] eqn:E2.
  assert (L2 : (length f2 <= length f1)%nat).
  { destruct (digit_at f1); [destruct (to_integer f1) |]; injection E2 as _ _ <-; rewrite ?length_drop; lia. }
  pose proof (scan_length_length f2) as L3. destruct (scan_length f2) as [st f3]. simpl in L3.
  destruct f3 as [| c f4]; [apply yields_return |]. simpl in L3.
  apply yields_bind. intros _. apply yields_bind. intros d.
  destruct (c =? 91) eqn:Eb.
  2: { repeat match goal with |- yields _ (if ?b then _ else _) => destruct b end;
       repeat match goal with |- yields _ (sbind _ _) => apply yields_bind; intros ? end; apply yields_ret; lia. }
  assert (c = 91) as -> by lia. cbn [Z.eqb Pos.eqb].
  destruct (parse_set f4) as [[[i s] r] |] eqn:F; [| apply yields_return].
  apply parse_set_length in F. apply yields_bind. intros _. apply yields_ret. lia.
Qed.

Lemma drop_spaces_length fmt : (length (drop_spaces fmt) <= length fmt)%nat.
Proof using. induction fmt as [| c fmt IH]; simpl; [lia |]. destruct (truthy _); simpl; lia. Qed.

(** A step that runs, followed by a step that ends. *)
Lemma ends_bind {A B} (c : SM S A) (k : A -> SM S B) st : ends c st ->
  (forall a st', c st = SOk a st' -> sinv st' -> (left st' <= left st)%nat -> ends (k a) st') -> ends (sbind c k) st.
Proof using.
  intros Hc Hk. unfold ends in Hc. unfold ends, sbind. destruct (c st) as [a st' | | | | |]; try exact Hc.
  destruct Hc as [Hs L]. specialize (Hk a st' eq_refl Hs L). unfold ends in Hk.
  destruct (k a st'); try exact Hk. split; [apply Hk | lia].
Qed.

Lemma runs_scan_loop n : forall fmt st, (length fmt < n)%nat -> sinv st -> ends (scan_loop fuel n fmt) st.
Proof using HO.
  induction n as [| n IH]; intros fmt st Hn Hs; [lia |]. cbn [scan_loop].
  destruct fmt as [| c fmt]; [apply (quiet_runs _ quiet_count); exact Hs |]. simpl in Hn.
  destruct (truthy (isspace (s8 c))).
  { apply ends_bind; [apply runs_skip_spaces, Hs | intros _ st1 _ H1 _].
    apply IH; [pose proof (drop_spaces_length fmt); lia | exact H1]. }
  destruct (negb (c =? 37)).
  { apply ends_bind; [apply runs_look, Hs | intros l st1 _ H1 _]. destruct (l =? s8 c).
    - apply ends_bind; [apply runs_consume, H1 | intros _ st2 _ H2 _]. apply IH; [lia | exact H2].
    - apply (fun H : runs _ => H st1 H1). runs_tac. }
  destruct (cur fmt =? 37).
  { apply ends_bind; [apply runs_look, Hs | intros l st1 _ H1 _]. destruct (l =? 37).
    - apply ends_bind; [apply runs_consume, H1 | intros _ st2 _ H2 _]. apply IH; [rewrite length_drop; lia | exact H2].
    - apply (fun H : runs _ => H st1 H1). runs_tac. }
  apply ends_bind; [apply runs_conversion, Hs | intros f st1 E H1 _].
  pose proof (conversion_length fmt st) as L. rewrite E in L. apply IH; [lia | exact H1].
Qed.

(** *** Runs without a panic

    With fitting arguments a run does not panic, and nothing in it is undefined but
    an exponent that overflows [int]. *)
Definition decimal_value (ds : list Z) : Z := fold_left (fun v c => v * 10 + (c - 48)) ds 0.
Definition overlong (l : list Z) : Prop :=
  exists pre ds post, l = pre ++ ds ++ post /\ Forall (fun c => 48 <= c <= 57) ds /\ INT_MAX < decimal_value ds.

Lemma overlong_suffix l l' : l `suffix_of` l' -> overlong l -> overlong l'.
Proof using. intros [k ->] (pre & ds & post & -> & H). exists (k ++ pre), ds, post. rewrite <- app_assoc. auto. Qed.

Lemma decimal_grows ds : forall v, 0 <= v -> Forall (fun c => 48 <= c <= 57) ds ->
  v <= fold_left (fun v c => v * 10 + (c - 48)) ds v.
Proof using.
  induction ds as [| c ds IH]; intros v Hv F; simpl; [lia |]. apply Forall_cons_1 in F as [Hc F].
  specialize (IH (v * 10 + (c - 48)) ltac:(lia) F). lia.
Qed.

Lemma exponent_none ds : forall v, 0 <= v -> Forall (fun c => 48 <= c <= 57) ds -> exponent_of ds v = None ->
  INT_MAX < fold_left (fun v c => v * 10 + (c - 48)) ds v.
Proof using.
  induction ds as [| c ds IH]; intros v Hv F E; cbn [exponent_of fold_left] in *; [discriminate |]. apply Forall_cons_1 in F as [Hc F].
  destruct (Z.ltb_spec INT_MAX (v * 10 + (c - 48))) as [Ov | _]; [| apply IH; [lia | exact F | exact E]].
  pose proof (decimal_grows ds (v * 10 + (c - 48)) ltac:(lia) F). lia.
Qed.

(** Starting with [n] arguments. *)
Definition fine {A} (n : nat) (c : SM S A) (Q : A -> nat -> Prop) : Prop := forall st, sinv st -> length (dests st) = n ->
  match c st with
  | SOk a st' => Q a (length (dests st')) /\ sinv st' /\ ahead (source st') `suffix_of` ahead (source st)
  | SRet _ _ => True
  | SUndef => overlong (ahead (source st))
  | SPanic | SBad | SNoFuel => False
  end.
Definition tame {A} (c : SM S A) : Prop := forall n, fine n c (fun _ m => m = n).

Lemma fine_bind {A B} n (c : SM S A) (k : A -> SM S B) Q Q' : fine n c Q -> (forall a m, Q a m -> fine m (k a) Q') -> fine n (sbind c k) Q'.
Proof using.
  intros Hc Hk st Hs Hd. specialize (Hc st Hs Hd). unfold sbind. destruct (c st) as [a st1 | | | | |]; try exact Hc.
  destruct Hc as (Ha & H1 & S1). specialize (Hk a _ Ha st1 H1 eq_refl). destruct (k a st1); try exact Hk.
  - destruct Hk as (H2 & H3 & S2). split; [exact H2 |]. split; [exact H3 | exact (transitivity S2 S1)].
  - exact (overlong_suffix _ _ S1 Hk).
Qed.

Lemma tame_bind {A B} (c : SM S A) (k : A -> SM S B) : tame c -> (forall a, tame (k a)) -> tame (sbind c k).
Proof using. intros Hc Hk n. eapply fine_bind; [apply Hc | intros a m ->; apply Hk]. Qed.

Lemma fine_ret {A} n (a : A) (Q : A -> nat -> Prop) : Q a n -> fine n (sret a) Q.
Proof using. intros H st Hs <-. split; [exact H |]. split; [exact Hs | reflexivity]. Qed.
Lemma tame_ret {A} (a : A) : tame (sret a).
Proof using. intros n. apply fine_ret. reflexivity. Qed.
Lemma fine_return {A} n v (Q : A -> nat -> Prop) : fine n (sreturn v) Q.
Proof using. intros st _ _. exact I. Qed.
Lemma tame_return {A} v : tame (A := A) (sreturn v).
Proof using. intros n. apply fine_return. Qed.
Lemma tame_record x : tame (record x).
Proof using. intros n st Hs <-. split; [reflexivity |]. split; [exact Hs | reflexivity]. Qed.
Lemma tame_inc : tame inc_consumed.
Proof using. intros n st Hs <-. split; [reflexivity |]. split; [exact Hs | reflexivity]. Qed.
Lemma tame_count : tame get_consumed.
Proof using. intros n st Hs <-. split; [reflexivity |]. split; [exact Hs | reflexivity]. Qed.
Lemma tame_chars : tame get_consumed_chars.
Proof using. intros n st Hs <-. split; [reflexivity |]. split; [exact Hs | reflexivity]. Qed.

(** The next character, and the state after it is consumed. *)
Lemma step_ahead st : sinv st -> exists st1,
  look_ahead st = SOk (next st) st1 /\ sinv st1 /\ ahead (source st1) = ahead (source st) /\ dests st1 = dests st.
Proof using HO.
  intros (G & P & L). destruct (look_ahead_spec st G ltac:(unfold UNGET_ROOM; lia)) as (k & E & Gk & Ak & Pk).
  exists (set_source st k). split; [exact E |]. unfold sinv, left in *. simpl. rewrite Ak. repeat split; auto; lia.
Qed.

Lemma step_consume st : sinv st -> exists st2,
  consume st = SOk tt st2 /\ sinv st2 /\ ahead (source st2) = tail (ahead (source st)) /\ dests st2 = dests st.
Proof using HO.
  intros (G & P & L). destruct (consume_spec st G) as (k & E & Gk & Ak & Pk).
  eexists. split; [exact E |]. unfold sinv, left in *. simpl. rewrite Ak.
  assert (length (tail (ahead (source st))) <= length (ahead (source st)))%nat by (destruct (ahead (source st)); simpl; lia).
  repeat split; auto; lia.
Qed.

Lemma tail_suffix (l : list Z) : tail l `suffix_of` l.
Proof using. destruct l as [| x l]; [reflexivity | exists [x]; reflexivity]. Qed.

Lemma tame_look : tame look_ahead.
Proof using HO.
  intros n st Hs Hd. destruct (step_ahead st Hs) as (st1 & -> & H1 & A1 & D1). rewrite A1, D1.
  split; [exact Hd |]. split; [exact H1 | reflexivity].
Qed.
Lemma tame_consume : tame consume.
Proof using HO.
  intros n st Hs Hd. destruct (step_consume st Hs) as (st1 & -> & H1 & A1 & D1). rewrite A1, D1.
  split; [exact Hd |]. split; [exact H1 | apply tail_suffix].
Qed.
Hint Resolve tame_ret tame_return tame_record tame_inc tame_count tame_chars tame_look tame_consume : scanf.

(** A loop whose body is tame and which stops at the end of the input: the characters
    it gives are those in front of what is left. *)
Lemma tame_char_loop k : forall i w stop act st n, stop 0 = true -> (forall i c, tame (act i c)) ->
  sinv st -> length (dests st) = n -> (left st < k)%nat ->
  match char_loop k i w stop act st with
  | SOk _ st' => length (dests st') = n /\ sinv st' /\ ahead (source st') `suffix_of` ahead (source st)
  | SRet _ _ => True
  | SUndef => overlong (ahead (source st))
  | SPanic | SBad | SNoFuel => False
  end.
Proof using HO.
  induction k as [| k IH]; intros i w stop act st n H0 Ha Hs Hd Hn; [lia |]. cbn [char_loop].
  destruct (i <? w); [| exact (tame_ret ([] : list Z) n st Hs Hd)].
  unfold sbind at 1. destruct (step_ahead st Hs) as (st1 & -> & H1 & A1 & D1).
  destruct (stop (next st)) eqn:Es; [split; [congruence |]; split; [exact H1 | rewrite A1; reflexivity] |].
  unfold sbind at 1. destruct (step_consume st1 H1) as (st2 & -> & H2 & A2 & D2). rewrite A1 in A2.
  assert (L2 : left st = Datatypes.S (left st2)).
  { unfold left, next in *. rewrite A2. destruct (ahead (source st)); [congruence | reflexivity]. }
  assert (T2 : ahead (source st2) `suffix_of` ahead (source st)) by (rewrite A2; apply tail_suffix).
  unfold sbind at 1. pose proof (Ha i (next st) n st2 H2 ltac:(congruence)) as Hq.
  destruct (act i (next st) st2) as [u st3 | | | | |]; try exact Hq; [| exact (overlong_suffix _ _ T2 Hq)].
  destruct Hq as (D3 & H3 & T3). pose proof (transitivity T3 T2) as T.
  specialize (IH (i + 1) w stop act st3 n H0 Ha H3 D3). specialize (IH ltac:(apply suffix_length in T3; unfold left in *; lia)).
  unfold sbind. destruct (char_loop k (i + 1) w stop act st3); try exact IH.
  - destruct IH as (D4 & H4 & T4). split; [exact D4 |]. split; [exact H4 | exact (transitivity T4 T)].
  - exact (overlong_suffix _ _ T IH).
Qed.

Lemma tame_loop i w stop act : stop 0 = true -> (forall i c, tame (act i c)) -> tame (char_loop fuel i w stop act).
Proof using HO. intros H0 Ha n st Hs Hd. apply tame_char_loop; auto. apply Hs. Qed.

Lemma tame_skip k : forall st n, sinv st -> length (dests st) = n -> (left st < k)%nat ->
  match skip_spaces k st with
  | SOk _ st' => length (dests st') = n /\ sinv st' /\ ahead (source st') `suffix_of` ahead (source st)
  | _ => False
  end.
Proof using HO.
  induction k as [| k IH]; intros st n Hs Hd Hn; [lia |]. cbn [skip_spaces].
  unfold sbind at 1. destruct (step_ahead st Hs) as (st1 & -> & H1 & A1 & D1).
  destruct (truthy (isspace (next st))) eqn:Es; [| split; [congruence |]; split; [exact H1 | rewrite A1; reflexivity]].
  unfold sbind. destruct (step_consume st1 H1) as (st2 & -> & H2 & A2 & D2). rewrite A1 in A2.
  assert (L2 : left st = Datatypes.S (left st2)).
  { unfold left, next in *. rewrite A2. destruct (ahead (source st)); [discriminate Es | reflexivity]. }
  specialize (IH st2 n H2 ltac:(congruence) ltac:(lia)). destruct (skip_spaces k st2); try exact IH.
  destruct IH as (D3 & H3 & T3). split; [exact D3 |]. split; [exact H3 |]. rewrite A2 in T3. exact (transitivity T3 (tail_suffix _)).
Qed.

Lemma tame_skip_spaces : tame (skip_spaces fuel).
Proof using HO.
  intros n st Hs Hd. pose proof (tame_skip fuel st n Hs Hd (proj2 (proj2 Hs))) as T. destruct (skip_spaces fuel st); auto; contradiction.
Qed.

Lemma tame_word str : Forall (fun c => c <> 0) str -> (length str <= 8)%nat -> tame (consume_if_str_equal str []).
Proof using HO.
  intros H L n st (G & P & Lf) Hd. pose proof (consume_if_spec str H [] st) as C. simpl in C.
  rewrite !Nat.add_0_r in C. specialize (C L G ltac:(change (zlen []) with 0; lia) Lf).
  destruct (consume_if_str_equal str [] st); try contradiction. destruct C as (C1 & C2 & C3). rewrite C3. auto.
Qed.
Hint Resolve tame_skip_spaces : scanf.
Hint Extern 1 (tame (consume_if_str_equal _ _)) => apply tame_word; [repeat constructor; discriminate | simpl; lia] : scanf.

Lemma tame_no_act i c : tame (no_act i c).
Proof using. apply tame_ret. Qed.
Lemma tame_return_count {A} : tame (A := A) return_count.
Proof using. apply tame_bind; [apply tame_count | intros a; apply tame_return]. Qed.
Lemma tame_dest w d i c : tame (write_to_dest w d i c).
Proof using. unfold write_to_dest, when_dest. destruct (d =? 0); [apply tame_ret | apply tame_record]. Qed.
Hint Resolve tame_no_act tame_return_count tame_dest : scanf.
Hint Extern 1 (tame (char_loop _ _ _ _ _)) => apply tame_loop; [reflexivity || apply proper_stop | auto with scanf] : scanf.

Ltac tame_step :=
  match goal with
  | |- tame (sbind _ _) => apply tame_bind; [| intros ?]
  | |- tame (if ?b then _ else _) => destruct b
  | |- tame (match ?x with _ => _ end) => destruct x
  | |- tame (let _ := _ in _) => cbv zeta
  | |- _ => solve [auto 6 with scanf]
  end.
Ltac tame_tac := cbv zeta; repeat (tame_step; cbv zeta).

(** The states a conversion takes. *)
Definition char_state (state : State) : bool := match state with SNone | Sl => true | _ => false end.
Definition int_state (state : State) : bool := match state with SL => false | _ => true end.
Definition float_state (state : State) : bool := match state with SNone | Sl | SL => true | _ => false end.

Lemma tame_wide state : char_state state = true -> tame (wide_of state).
Proof using. destruct state; try discriminate; intros _; apply tame_ret. Qed.
Lemma tame_write_int d state v : int_state state = true -> tame (write_int_to_dest d state v).
Proof using. intros H. unfold write_int_to_dest, when_dest. destruct state; try discriminate; tame_tac. Qed.
Lemma tame_write_float d state v : float_state state = true -> tame (write_float_to_dest d state v).
Proof using. destruct state; try discriminate; intros _; apply tame_record. Qed.
Hint Resolve tame_wide tame_write_int tame_write_float : scanf.

Lemma tame_scan_chars n : forall i w d, tame (scan_chars n i w d).
Proof using HO. induction n as [| n IH]; intros i w d; cbn [scan_chars]; tame_tac. Qed.
Hint Resolve tame_scan_chars : scanf.
Lemma tame_conv_c state m h d : char_state state = true -> tame (conv_c state m h d).
Proof using HO. intros H. unfold conv_c, when_dest. tame_tac. Qed.
Lemma tame_scan_string state m d stop : char_state state = true -> tame (scan_string fuel state m d stop).
Proof using HO. intros H. unfold scan_string. tame_tac. Qed.
Lemma tame_sign m : tame (scan_sign m).
Proof using HO. unfold scan_sign. tame_tac. Qed.
Lemma tame_zero h m : tame (scan_zero h m).
Proof using HO. unfold scan_zero. tame_tac. Qed.
Lemma tame_prefix m : tame (scan_prefix_i m).
Proof using HO. unfold scan_prefix_i. tame_tac. Qed.
Lemma tame_finish d u e c : tame c -> tame (finish d u e c).
Proof using HO. intros H. unfold finish. tame_tac. Qed.
Hint Resolve tame_conv_c tame_scan_string tame_sign tame_zero tame_prefix tame_finish : scanf.
Lemma tame_conv_d state m d : int_state state = true -> tame (conv_d fuel state m d).
Proof using HO. intros H. unfold conv_d. tame_tac. Qed.
Lemma tame_conv_i state m d : int_state state = true -> tame (conv_i fuel state m d).
Proof using HO. intros H. unfold conv_i. tame_tac. Qed.
Lemma tame_conv_o state m d : int_state state = true -> tame (conv_o fuel state m d).
Proof using HO. intros H. unfold conv_o. tame_tac. Qed.
Lemma tame_conv_x state m d : int_state state = true -> tame (conv_x fuel state m d).
Proof using HO. intros H. unfold conv_x. tame_tac. Qed.
Lemma tame_fraction b m v : tame (scan_fraction fuel b m v).
Proof using HO. unfold scan_fraction. tame_tac. Qed.
Hint Resolve tame_conv_d tame_conv_i tame_conv_o tame_conv_x tame_fraction : scanf.

(** The digits a loop gives stand at the start of what was ahead. *)
Lemma char_loop_taken k : forall i w stop st cs st', stop 0 = true -> sinv st ->
  char_loop k i w stop no_act st = SOk cs st' ->
  exists bs rest, ahead (source st) = bs ++ rest /\ cs = map s8 bs /\ Forall (fun c => stop c = false) cs.
Proof using HO.
  induction k as [| k IH]; intros i w stop st cs st' H0 Hs E; [discriminate |]. cbn [char_loop] in E.
  destruct (i <? w); [| injection E as <- <-; exists [], (ahead (source st)); repeat split; constructor].
  unfold sbind at 1 in E. destruct (step_ahead st Hs) as (st1 & E1 & H1 & A1 & D1). rewrite E1 in E.
  destruct (stop (next st)) eqn:Es; [injection E as <- <-; exists [], (ahead (source st)); repeat split; constructor |].
  unfold sbind at 1 in E. destruct (step_consume st1 H1) as (st2 & E2 & H2 & A2 & D2). rewrite E2 in E.
  unfold sbind at 1, no_act at 1, sret at 1 in E. unfold sbind in E. rewrite A1 in A2.
  destruct (char_loop k (i + 1) w stop no_act st2) as [cs2 st3 | | | | |] eqn:E3; try discriminate. injection E as <- <-.
  destruct (IH _ _ _ _ _ _ H0 H2 E3) as (bs & rest & A3 & -> & F). unfold next in *.
  destruct (ahead (source st)) as [| b l] eqn:A; [congruence |]. exists (b :: bs), rest. cbn [tail] in A2.
  split; [rewrite <- A2, A3; reflexivity |]. split; [reflexivity | constructor; assumption].
Qed.

(** A byte that is a digit. *)
Lemma digit_byte b : is_u 8 b -> truthy (isdigit (s8 b)) = true -> s8 b = b /\ 48 <= b <= 57.
Proof using.
  intros H. assert (K : check_range 0 256 (fun b => negb (truthy (isdigit (s8 b))) || ((s8 b =? b) && (48 <=? b) && (b <=? 57))) = true) by by_vm.
  unfold is_u in H. pose proof (range_check _ _ _ K b ltac:(lia)) as R. simpl in R. intros D. rewrite D in R. simpl in R. lia.
Qed.

Lemma tame_digits {A} w (g : Z -> A) : tame (cs <~ char_loop fuel 0 w (fun c => negb (truthy (isdigit c))) no_act ;;
  match exponent_of cs 0 with Some e => sret (g e) | None => sundef end).
Proof using HO.
  intros n st Hs Hd. pose proof (tame_loop 0 w (fun c => negb (truthy (isdigit c))) no_act eq_refl tame_no_act n st Hs Hd) as T.
  unfold sbind. destruct (char_loop fuel 0 w _ no_act st) as [cs st' | | | | |] eqn:E; try exact T.
  destruct (exponent_of cs 0) as [e |] eqn:Ex; [exact T |].
  destruct (char_loop_taken fuel 0 w (fun c => negb (truthy (isdigit c))) st cs st' eq_refl Hs E) as (bs & rest & A1 & -> & F). destruct Hs as (G & _).
  pose proof (ahead_bytes _ G) as B. rewrite A1 in B. apply Forall_app in B as [B _]. apply Forall_map in F.
  assert (R : Forall (fun b => s8 b = b /\ 48 <= b <= 57) bs).
  { apply Forall_forall. intros b Hb. rewrite Forall_forall in F, B. apply digit_byte; [exact (B b Hb) |].
    apply negb_false_iff. exact (F b Hb). }
  assert (Eq : map s8 bs = bs) by (clear -R; induction R as [| b bs [Hb _] _ IH]; simpl; congruence).
  rewrite Eq in Ex. exists [], bs, rest. split; [exact A1 |].
  assert (R' : Forall (fun c => 48 <= c <= 57) bs) by (eapply Forall_impl; [| exact R]; simpl; tauto).
  split; [exact R' | exact (exponent_none bs 0 ltac:(lia) R' Ex)].
Qed.

Lemma tame_exponent b m v : tame (scan_exponent fuel b m v).
Proof using HO.
  unfold scan_exponent. destruct (m =? 0); [apply tame_ret |]. apply tame_bind; [apply tame_look | intros c].
  destruct (_ =? _); [| apply tame_ret]. apply tame_bind; [apply tame_consume | intros _].
  apply tame_bind; [apply tame_sign | intros [[neg w] u]]. apply (tame_digits w (fun e => scale b neg e v)).
Qed.
Hint Resolve tame_exponent : scanf.

Lemma tame_conv_float state m d : float_state state = true -> tame (conv_float fuel state m d).
Proof using HO. intros H. unfold conv_float, store_special, when_dest. tame_tac. Qed.
Hint Resolve tame_conv_float : scanf.

(** [scan_fits n fmt args]: every conversion takes its length modifier, and finds a
    destination among the [args] of the call unless it is suppressed. *)
Definition takes_state (c : Z) (state : State) : bool :=
  if existsb (Z.eqb c) [99; 115; 91] then char_state state
  else if existsb (Z.eqb c) [117; 100; 105; 111; 120; 88; 110] then int_state state
  else if existsb (Z.eqb c) [97; 65; 101; 69; 102; 70; 103; 71] then float_state state
  else true.

Definition fits_conversion (fmt : list Z) (args : nat) : option (list Z * nat) :=
  let assign := negb (cur fmt =? 42) in
  let fmt := if assign then fmt else drop 1 fmt in
  let fmt := if digit_at fmt then drop (Z.to_nat (snd (to_integer fmt))) fmt else fmt in
  let '(state, fmt) := scan_length fmt in
  match fmt with
  | [] => Some ([], args)
  | c :: fmt =>
      if (assign && (args =? 0)%nat) || negb (takes_state c state) then None
      else
        let args := if assign then pred args else args in
        if c =? 91 then match parse_set fmt with None => Some ([], args) | Some (_, _, fmt) => Some (fmt, args) end
        else Some (fmt, args)
  end.

Fixpoint scan_fits (n : nat) (fmt : list Z) (args : nat) : bool :=
  match n with
  | O => false
  | Datatypes.S n =>
      match fmt with
      | [] => true
      | c :: fmt =>
          if truthy (isspace (s8 c)) then scan_fits n (drop_spaces fmt) args
          else if negb (c =? 37) then scan_fits n fmt args
          else if cur fmt =? 37 then scan_fits n (drop 1 fmt) args
          else match fits_conversion fmt args with Some (fmt, args) => scan_fits n fmt args | None => false end
      end
  end.

Lemma fine_pop (assign : bool) n : (assign = true -> n <> 0%nat) ->
  fine n (pop_dest assign) (fun _ m => m = if assign then pred n else n).
Proof using.
  intros H st Hs Hd. unfold pop_dest. destruct assign; [| split; [exact Hd | split; [exact Hs | reflexivity]]].
  destruct (dests st) as [| d ds]; [simpl in Hd; specialize (H eq_refl); lia |]. simpl in *. subst n.
  split; [reflexivity |]. split; [exact Hs | reflexivity].
Qed.

(** A conversion, and the format behind it. *)
Lemma fine_then n (c : SM S unit) (fmt : list Z) : tame c -> fine n (c ;~ sret fmt) (fun r m => r = fmt /\ m = n).
Proof using. intros H. eapply fine_bind; [apply H | intros a m ->; apply fine_ret; auto]. Qed.

(** Where [takes_state] tests the letter. *)
Ltac letter H := unfold takes_state in H; cbn [existsb Z.eqb Pos.eqb orb] in H.

Lemma fine_letter c state w (hw : bool) d fmt n r m : takes_state c state = true ->
  (if c =? 91 then match parse_set fmt with None => Some ([], n) | Some (_, _, fmt) => Some (fmt, n) end
   else Some (fmt, n)) = Some (r, m) ->
  let max_width := if hw then w else INT_MAX in
  fine n
    (if c =? 99 then conv_c state w hw d ;~ sret fmt
     else if c =? 115 then scan_string fuel state max_width d (fun c => truthy (isspace c)) ;~ sret fmt
     else if c =? 91 then
       match parse_set fmt with
       | None => sreturn (-1)
       | Some (invert, set, fmt) => scan_string fuel state max_width d (fun c => negb (set_matches invert set c)) ;~ sret fmt
       end
     else if (c =? 117) || (c =? 100) then conv_d fuel state max_width d ;~ sret fmt
     else if c =? 105 then conv_i fuel state max_width d ;~ sret fmt
     else if c =? 111 then conv_o fuel state max_width d ;~ sret fmt
     else if (c =? 120) || (c =? 88) || (c =? 112) then
       conv_x fuel (if c =? 112 then Sl else state) max_width d ;~ sret fmt
     else if c =? 110 then n <~ get_consumed_chars ;; write_int_to_dest d state n ;~ sret fmt
     else if existsb (Z.eqb c) [97; 65; 101; 69; 102; 70; 103; 71] then conv_float fuel state max_width d ;~ sret fmt
     else sret fmt) (fun a k => a = r /\ k = m).
Proof using HO.
  intros T E max_width. destruct (Z.eqb_spec c 91) as [-> | N91].
  { letter T. cbn [Z.eqb Pos.eqb]. destruct (parse_set fmt) as [[[iv st] f] |]; [| apply fine_return]. injection E as <- <-.
    apply fine_then. auto with scanf. }
  injection E as <- <-.
  destruct (Z.eqb_spec c 99) as [-> |]; [letter T; apply fine_then; auto with scanf |].
  destruct (Z.eqb_spec c 115) as [-> |]; [letter T; apply fine_then; auto with scanf |].
  destruct (Z.eqb_spec c 117) as [-> |]; [letter T; cbn [orb]; apply fine_then; auto with scanf |].
  destruct (Z.eqb_spec c 100) as [-> |]; [letter T; cbn [orb]; apply fine_then; auto with scanf |]. cbn [orb].
  destruct (Z.eqb_spec c 105) as [-> |]; [letter T; apply fine_then; auto with scanf |].
  destruct (Z.eqb_spec c 111) as [-> |]; [letter T; apply fine_then; auto with scanf |].
  destruct (Z.eqb_spec c 120) as [-> |]; [letter T; cbn [orb Z.eqb Pos.eqb]; apply fine_then; auto with scanf |].
  destruct (Z.eqb_spec c 88) as [-> |]; [letter T; cbn [orb Z.eqb Pos.eqb]; apply fine_then; auto with scanf |]. cbn [orb].
  destruct (Z.eqb_spec c 112) as [-> |]; [apply fine_then; apply tame_conv_x; reflexivity |].
  destruct (Z.eqb_spec c 110) as [-> |].
  { letter T. eapply fine_bind; [apply tame_chars | intros a k ->]. apply fine_then. auto with scanf. }
  destruct (existsb (Z.eqb c) [97; 65; 101; 69; 102; 70; 103; 71]) eqn:Ef; [| apply fine_ret; auto].
  apply fine_then, tame_conv_float. revert T. unfold takes_state. rewrite Ef. cbn [existsb].
  rewrite (proj2 (Z.eqb_neq c 99)), (proj2 (Z.eqb_neq c 115)), (proj2 (Z.eqb_neq c 91)), (proj2 (Z.eqb_neq c 117)),
    (proj2 (Z.eqb_neq c 100)), (proj2 (Z.eqb_neq c 105)), (proj2 (Z.eqb_neq c 111)), (proj2 (Z.eqb_neq c 120)),
    (proj2 (Z.eqb_neq c 88)), (proj2 (Z.eqb_neq c 110)) by assumption. cbn [orb]. auto.
Qed.

Lemma fine_conversion fmt n r m : fits_conversion fmt n = Some (r, m) -> fine n (conversion fuel fmt) (fun a k => a = r /\ k = m).
Proof using HO.
  unfold fits_conversion, conversion. cbv zeta. set (assign := negb (cur fmt =? 42)).
  set (f1 := if assign then fmt else drop 1 fmt).
  assert (W : exists w hw f2, (if digit_at f1 then let '(w, count) := to_integer f1 in (w, true, drop (Z.to_nat count) f1)
      else (0, false, f1)) = (w, hw, f2) /\ (if digit_at f1 then drop (Z.to_nat (snd (to_integer f1))) f1 else f1) = f2).
  { destruct (digit_at f1); [destruct (to_integer f1) |]; do 3 eexists; split; reflexivity. }
  destruct W as (w & hw & f2 & -> & ->). destruct (scan_length f2) as [state [| c f3]]; [intros _; apply fine_return |].
  destruct (assign && (n =? 0)%nat) eqn:En; [discriminate |]. cbn [orb].
  destruct (takes_state c state) eqn:T; [| discriminate]. cbn [negb]. intros E.
  eapply fine_bind with (Q := fun _ k => k = n);
    [destruct ((c =? 91) || (c =? 99) || (c =? 110)); [apply tame_ret | apply tame_skip_spaces] |]. intros _ k ->.
  eapply fine_bind; [apply fine_pop; intros ->; simpl in En; apply Nat.eqb_neq in En; exact En |]. intros d k ->.
  exact (fine_letter c state w hw d f3 _ r m T E).
Qed.

Lemma fine_loop k : forall fmt n, scan_fits k fmt n = true -> fine n (scan_loop fuel k fmt) (fun _ _ => True).
Proof using HO.
  induction k as [| k IH]; intros fmt n F; [discriminate |]. cbn [scan_fits scan_loop] in *.
  destruct fmt as [| c fmt]; [intros st Hs _; split; [exact I | split; [exact Hs | reflexivity]] |].
  destruct (truthy (isspace (s8 c))).
  { eapply fine_bind; [apply tame_skip_spaces | intros a m ->]. apply IH, F. }
  destruct (negb (c =? 37)).
  { eapply fine_bind; [apply tame_look | intros l m ->]. destruct (l =? s8 c).
    - eapply fine_bind; [apply tame_consume | intros a m ->]. apply IH, F.
    - eapply fine_bind; [apply tame_look | intros l' m ->]. destruct (l' =? 0); [intros st Hs Hd; exact I |].
      intros st Hs Hd. exact I. }
  destruct (cur fmt =? 37).
  { eapply fine_bind; [apply tame_look | intros l m ->]. destruct (l =? 37); [| intros st Hs Hd; exact I].
    eapply fine_bind; [apply tame_consume | intros a m ->]. apply IH, F. }
  destruct (fits_conversion fmt n) as [[r m] |] eqn:E; [| discriminate].
  eapply fine_bind; [exact (fine_conversion _ _ _ _ E) | intros a m' [-> ->]]. apply IH, F.
Qed.
End Facts.

(** C34: [vfscanf] returns and stays inside the push-back buffer.  On any source with at
    most [UNGET_ROOM - 9] characters pushed back and with more fuel than there are
    characters, whatever the format, the input and the arguments: the loops stop at the
    end of the input, and the characters pushed back while a word is matched fit.  The
    call panics only when a conversion does not take its length modifier or misses its
    argument, and besides that something undefined happens only when the input has a
    run of digits, an exponent, whose value exceeds [INT_MAX]; in all other cases it
    returns. *)
Theorem vfscanf_returns {S} `{SourceOk S} `{ToInteger} fuel fmt (st : sstate S) :
  good (source st) -> pending (source st) <= UNGET_ROOM - 9 -> (length (ahead (source st)) < fuel)%nat ->
  match vfscanf fuel fmt st with
  | SOk _ st' => True
  | SPanic => scan_fits (Datatypes.S (length fmt)) fmt (length (dests st)) = false
  | SUndef => scan_fits (Datatypes.S (length fmt)) fmt (length (dests st)) = false \/ overlong (ahead (source st))
  | SRet _ _ | SBad | SNoFuel => False
  end.
Proof.
  intros G P L. unfold vfscanf. assert (I : sinv fuel st) by (repeat split; [exact G | exact P | exact L]).
  pose proof (runs_scan_loop fuel (Datatypes.S (length fmt)) fmt st (Nat.lt_succ_diag_r _) I) as E. unfold ends in E.
  pose proof (fun F => fine_loop fuel (Datatypes.S (length fmt)) fmt (length (dests st)) F st I eq_refl) as D.
  destruct (scan_loop fuel _ fmt st); try exact E; try exact Logic.I.
  - destruct (scan_fits _ fmt _); [contradiction D; reflexivity | reflexivity].
  - destruct (scan_fits _ fmt _); [right; apply D; reflexivity | left; reflexivity].
Qed.
