(* ===== verification/ScanfFacts.v ===== *)
(** * What scanf reads

    The streams of [Stdio] keep the promise of a source of [Scanf], and a number
    that [sprintf] writes is read back by [sscanf]. *)

From S2P Require Import Prelude Ctype StrToInt Ieee Stdio PrintfFloat Printf PrintfFacts Scanf.

#[local] Open Scope Z_scope.

(** ** The sources *)

Lemma pushed_length (f : FILE) : unget_ok f -> zlen (pushed f) = ungetc_size f.
Proof.
  intros (E & R & L & _). unfold pushed, zlen, UNGETC_CAP in *. rewrite length_rev, length_take. lia.
Qed.

Lemma pushed_bytes f : unget_ok f -> Forall (is_u 8) (pushed f).
Proof. intros (_ & _ & _ & B). apply Forall_rev, Forall_take, B. Qed.

(** A successful [ungetc]. *)
Lemma ungetc_pushes {K} `{Kernel K} c (w : world K) : unget_ok (file w) -> 0 <= ungetc_size (file w) < UNGET_ROOM ->
  exists f', ungetc c w = Done c (World f' (errno w) (kernel w)) /\ unget_ok f' /\ pushed f' = u8 c :: pushed (file w) /\
    ungetc_size f' = ungetc_size (file w) + 1 /\ kind f' = kind (file w) /\ fd f' = fd (file w) /\
    read_data f' = read_data (file w).
Proof.
  intros Ok R. pose proof Ok as (E & _). unfold UNGET_ROOM in R.
  destruct (pushed_push (file w) c Ok ltac:(unfold UNGETC_CAP; lia)) as [Ok' P'].
  unfold ungetc. destruct (Z.eqb_spec (ungetc_size (file w)) UNGETC_CAP); [unfold UNGETC_CAP in *; lia |].
  destruct (Z.ltb_spec (ungetc_ptr (file w)) 0); [lia |].
  destruct (Z.leb_spec UNGETC_CAP (ungetc_ptr (file w))); [unfold UNGETC_CAP in *; lia |].
  eexists. split; [reflexivity |]. repeat split; try assumption; try apply Ok'.
Qed.

Section StringSource.
Context {K : Type} {HK : Kernel K}.

Definition str_good (w : world K) : Prop :=
  unget_ok (file w) /\ kind (file w) = StrFile /\ Forall (is_u 8) (read_data (file w)).
Definition str_ahead (w : world K) : list Z := pushed (file w) ++ read_data (file w).

Lemma str_read_spec n w : 0 <= n -> str_good w -> exists w',
  read n w = Done (zlen (take (Z.to_nat n) (str_ahead w)), take (Z.to_nat n) (str_ahead w)) w' /\ str_good w' /\
  str_ahead w' = drop (Z.to_nat n) (str_ahead w) /\ pushed (file w') = drop (Z.to_nat n) (pushed (file w)).
Proof using.
  intros Hn (Ok & Hk & B). unfold read, bind, get_file. rewrite Hk. unfold str_file_read, bind at 1.
  destruct (pop_unget_spec (Z.to_nat n) w Ok) as (f' & -> & Ok' & Ep & Ek & Ed & Er).
  unfold bind, get_file, upd_file, ret. cbn [file]. rewrite Er. unfold str_ahead.
  rewrite take_app, drop_app. set (l := take (Z.to_nat n) (pushed (file w))).
  assert (L : zlen l = Z.min n (zlen (pushed (file w)))) by (unfold l, zlen; rewrite length_take; lia).
  set (d := read_data (file w)) in *. set (p := zlen (pushed (file w))) in *.
  assert (Et : take (Z.to_nat (Z.min (zlen d) (n - zlen l))) d = take (Z.to_nat n - length (pushed (file w))) d).
  { unfold p, zlen in *. destruct (decide (length d <= Z.to_nat n - length (pushed (file w)))%nat);
      [rewrite !take_ge by lia; reflexivity | f_equal; lia]. }
  assert (Edr : drop (Z.to_nat (Z.min (zlen d) (n - zlen l))) d = drop (Z.to_nat n - length (pushed (file w))) d).
  { unfold p, zlen in *. destruct (decide (length d <= Z.to_nat n - length (pushed (file w)))%nat);
      [rewrite !drop_ge by lia; reflexivity | f_equal; lia]. }
  assert (Ez : Z.min (zlen d) (n - zlen l) + zlen l = zlen (l ++ take (Z.to_nat n - length (pushed (file w))) d)).
  { rewrite <- Et, zlen_app. pose proof (zlen_nonneg d). pose proof (zlen_nonneg (pushed (file w))).
    assert (Hk' : 0 <= Z.min (zlen d) (n - zlen l) <= zlen d) by lia.
    assert (T : zlen (take (Z.to_nat (Z.min (zlen d) (n - zlen l))) d) = Z.min (zlen d) (n - zlen l)).
    { unfold zlen at 1. rewrite length_take. unfold zlen in *. lia. }
    lia. }
  rewrite Ez, Et. eexists. split; [reflexivity |]. cbn [file]. rewrite ?Er.
  split; [split; [exact Ok' |]; split; [cbn; congruence |]; cbn; rewrite ?Er; apply Forall_drop, B |].
  split; [| exact Ep]. cbn [set_read_data read_data]. rewrite ?Er. fold d. rewrite Edr. f_equal. exact Ep.
Qed.

Lemma str_read_law w : str_good w -> exists w', src_read w = Some (head (str_ahead w), w') /\ str_good w' /\
  str_ahead w' = tail (str_ahead w) /\ ungetc_size (file w') = Z.max 0 (ungetc_size (file w) - 1).
Proof using.
  intros G. destruct (str_read_spec 1 w ltac:(lia) G) as (w' & E & G' & A & P). exists w'.
  unfold src_read, stream_source. rewrite E. change (Z.to_nat 1) with 1%nat in *.
  split; [destruct (str_ahead w); reflexivity |]. split; [exact G' |].
  split; [rewrite A; destruct (str_ahead w); reflexivity |].
  rewrite <- !pushed_length by (apply G || apply G'). rewrite P. unfold zlen. rewrite length_drop. lia.
Qed.

#[export] Instance str_source_ok : SourceOk (world K).
Proof using.
  refine {| ahead := str_ahead; pending w := ungetc_size (file w); good := str_good |}.
  - intros w (Ok & _ & B). apply Forall_app_2; [apply pushed_bytes, Ok | exact B].
  - exact str_read_law.
  - intros c w (Ok & Hk & B) R. destruct (ungetc_pushes c w Ok R) as (f' & E & Ok' & P & Sz & Ek & _ & Er).
    unfold src_unget, stream_source. rewrite E. rewrite Z.eqb_refl. eexists. split; [reflexivity |].
    unfold str_good, str_ahead. cbn [file]. rewrite Er, P, Ek. auto 10.
  - intros w (Ok & _). destruct Ok as (_ & R & _). lia.
Defined.
End StringSource.

(** A regular file is a source, too. *)
Section FileSource.
Context {K : Type} {HK : Kernel K} {RF : RegularFile K}.

Definition regular_source_ok : SourceOk (world K).
Proof using RF.
  refine {| ahead w := upcoming (view w); pending w := ungetc_size (file w);
            good w := unget_ok (file w) /\ kind (file w) = FdFile |}.
  - intros w (Ok & Hk). apply (sim_bytes w). repeat split; assumption || apply Ok.
  - intros w (Ok & Hk).
    destruct (read_spec 1 w (view w) ltac:(lia)) as (w' & E & Ok' & Hk' & V); [repeat split; assumption || apply Ok |].
    exists w'. unfold src_read, stream_source. rewrite E, fst_consume. change (Z.to_nat 1) with 1%nat.
    split; [destruct (upcoming (view w)); reflexivity |]. split; [auto |].
    split; [rewrite V, upcoming_consume by (lia || apply regular_offset); destruct (upcoming (view w)); reflexivity |].
    rewrite <- !pushed_length by assumption. assert (P : pushed (file w') = drop 1 (pushed (file w))) by (apply (f_equal front) in V; exact V).
    rewrite P. unfold zlen. rewrite length_drop. lia.
  - intros c w (Ok & Hk) R. destruct (ungetc_pushes c w Ok R) as (f' & E & Ok' & P & Sz & Ek & Ed & _).
    unfold src_unget, stream_source. rewrite E. rewrite Z.eqb_refl. eexists. split; [reflexivity |].
    unfold view, upcoming. cbn [file kernel front bytes position]. rewrite P, Ek, Ed. auto.
  - intros w (Ok & _). destruct Ok as (_ & R & _). lia.
Defined.
End FileSource.

(** ** Digits *)

(** A decimal digit. *)
Definition decimal_digit (c : Z) : Prop :=
  s8 c = c /\ 48 <= c <= 57 /\ truthy (isdigit c) = true /\ digit_value c = digit_of char_type c.

Lemma decimal_digit_test :
  check_range 48 10 (fun c => (s8 c =? c) && truthy (isdigit c) && (digit_value c =? digit_of char_type c)) = true.
Proof. by_vm. Qed.

Lemma decimal_digits value ds : digits_of 10 value ds -> Forall decimal_digit ds.
Proof.
  intros D. eapply Forall_impl; [| apply D]. intros c (d & Hd & G). pose proof (good_valid _ _ _ G) as V.
  unfold valid_char in V. cbn [castC char_type] in V. change (s8 (ch_0 + 10 - 1)) with 57 in V.
  change (10 <=? 10) with true in V. cbv iota in V. unfold ch_0 in V.
  assert (H : 48 <= c < 48 + 10) by lia. pose proof (range_check _ _ _ decimal_digit_test c H) as T. simpl in T.
  unfold decimal_digit. repeat split; try lia. destruct (truthy (isdigit c)); [reflexivity |].
  rewrite andb_false_r in T. discriminate.
Qed.

Lemma map_s8_digits ds : Forall decimal_digit ds -> map s8 ds = ds.
Proof. induction 1 as [| c ds (E & _) _ IH]; simpl; [reflexivity |]. rewrite E, IH. reflexivity. Qed.

Lemma wrapu_wrapu b x : 0 <= b <= 64 -> wrapu b (u64 x) = wrapu b x.
Proof.
  intros H. unfold wrapu. apply Z.mod_mod_divide.
  exists (2 ^ (64 - b)). rewrite <- Z.pow_add_r by lia. f_equal. lia.
Qed.

Lemma fold_digits_value ds : Forall decimal_digit ds -> forall v a, v = u64 a ->
  fold_digits 10 ds v = u64 (digits_value char_type 10 ds a).
Proof.
  induction 1 as [| c ds (_ & _ & _ & E) _ IH]; intros v a ->; [reflexivity |].
  unfold fold_digits, digits_value in *. cbn [fold_left]. apply IH. rewrite E. unfold wrapu.
  rewrite Zplus_mod_idemp_l, <- Zplus_mod_idemp_l, Zmult_mod_idemp_l, Zplus_mod_idemp_l. reflexivity.
Qed.

Lemma signed_digits (neg : bool) value ds b : digits_of 10 value ds -> Forall decimal_digit ds -> 0 <= b <= 64 ->
  wrapu b (signed_bits neg (fold_digits 10 ds 0)) = wrapu b (if neg then - value else value).
Proof.
  intros D DD Hb. rewrite (fold_digits_value ds DD 0 0) by reflexivity. rewrite (digits_sum _ _ _ D).
  unfold signed_bits. destruct neg; [| apply wrapu_wrapu, Hb]. rewrite wrapu_wrapu by exact Hb.
  rewrite Z.mul_comm. change (-1) with (- (1)). rewrite Z.mul_opp_l, Z.mul_1_l.
  rewrite <- (wrapu_wrapu b (- value)) by exact Hb. rewrite <- (wrapu_wrapu b (- u64 value)) by exact Hb. f_equal.
  unfold wrapu. rewrite <- !(Z.sub_0_l), Zminus_mod_idemp_r. reflexivity.
Qed.

(** ** Reading a number *)
Section Number.
Context {S : Type} {HS : Source S} {HO : SourceOk S} {TI : ToInteger}.

(** Ready to read the characters [l]; the counts, arguments and stores are those of
    [st]. *)
Definition ready (l : list Z) (st st' : sstate S) : Prop :=
  good (source st') /\ pending (source st') <= 9 /\ ahead (source st') = l /\
  consumed st' = consumed st /\ dests st' = dests st /\ log st' = log st.

Lemma ready_look l st st' : ready l st st' -> exists st'',
  look_ahead st' = SOk (match l with b :: _ => s8 b | [] => 0 end) st'' /\ ready l st st''.
Proof using HO.
  intros (G & P & A & E1 & E2 & E3). destruct (look_ahead_spec st' G ltac:(unfold UNGET_ROOM; lia)) as (k & E & Gk & Ak & Pk).
  exists (set_source st' k). unfold next in E. rewrite A in E. split; [exact E |].
  unfold ready. cbn [source consumed dests log set_source]. rewrite Ak. repeat split; auto; lia.
Qed.

Lemma ready_consume b l st st' : ready (b :: l) st st' -> exists st'', consume st' = SOk tt st'' /\ ready l st st''.
Proof using HO.
  intros (G & P & A & E1 & E2 & E3). destruct (consume_spec st' G) as (k & E & Gk & Ak & Pk).
  exists (with_source st' k 1). split; [exact E |]. unfold ready. cbn [source consumed dests log with_source].
  rewrite Ak, A, Pk. repeat split; auto; lia.
Qed.

Lemma char_loop_all stop n : stop 0 = true -> forall ds i w st st', ready ds st st' ->
  Forall (fun c => stop (s8 c) = false) ds -> i + zlen ds <= w -> (length ds < n)%nat -> exists st'',
  char_loop n i w stop no_act st' = SOk (map s8 ds) st'' /\ ready [] st st''.
Proof using HO.
  intros H0. induction n as [| n IH]; intros ds i w st st' R F W L; [lia |]. cbn [char_loop].
  destruct ds as [| b ds].
  { destruct (i <? w); [| exists st'; split; [reflexivity | exact R]].
    destruct (ready_look _ _ _ R) as (st1 & E1 & R1). unfold sbind. rewrite E1, H0. exists st1. split; [reflexivity | exact R1]. }
  rewrite zlen_cons in W. pose proof (zlen_nonneg ds). destruct (Z.ltb_spec i w); [| lia]. apply Forall_cons_1 in F as [Fb F].
  destruct (ready_look _ _ _ R) as (st1 & E1 & R1). destruct (ready_consume _ _ _ _ R1) as (st2 & E2 & R2).
  unfold sbind. rewrite E1, Fb, E2. unfold no_act at 1. unfold sret at 1.
  destruct (IH ds (i + 1) w st st2 R2 F ltac:(lia) ltac:(simpl in L; lia)) as (st3 & -> & R3). exists st3. split; [reflexivity | exact R3].
Qed.

Lemma scan_sign_text (neg : bool) l st st' w : ready ((if neg then [45] else []) ++ l) st st' -> w <> 0 ->
  (forall b rest, l = b :: rest -> s8 b <> 45 /\ s8 b <> 43) -> exists w' ex st1,
  scan_sign w st' = SOk (neg, w', ex) st1 /\ ready l st st1 /\ w - 1 <= w'.
Proof using HO.
  intros R Hw Hl. unfold scan_sign. destruct (Z.eqb_spec w 0); [contradiction |].
  destruct (ready_look _ _ _ R) as (st1 & E1 & R1). unfold sbind at 1. rewrite E1. destruct neg; simpl app in *.
  - destruct (ready_consume _ _ _ _ R1) as (st2 & E2 & R2). cbn [app]. change (s8 45 =? 45) with true. cbv iota.
    unfold sbind. rewrite E2. do 3 eexists. split; [reflexivity |]. split; [exact R2 | lia].
  - assert (H : match l with b :: _ => s8 b | [] => 0 end <> 45 /\ match l with b :: _ => s8 b | [] => 0 end <> 43).
    { destruct l as [| b rest]; [split; discriminate | apply (Hl b rest eq_refl)]. }
    destruct H as [H45 H43]. apply Z.eqb_neq in H45, H43. cbn [app] in *. rewrite H45.
    destruct (ready_look _ _ _ R1) as (st2 & E2 & R2). unfold sbind. rewrite E2, H43.
    do 3 eexists. split; [reflexivity |]. split; [exact R2 | lia].
Qed.

(** [%d] of a sign and digits: the number modulo the width of the destination. *)
Lemma conv_d_text fuel (neg : bool) value ds st st' dest state bits : digits_of 10 value ds ->
  ready ((if neg then [45] else []) ++ ds) st st' -> (length ds < fuel)%nat -> zlen ds < INT_MAX -> dest <> 0 ->
  store_bits state = Some bits ->
  exists st'', conv_d fuel state INT_MAX dest st' = SOk tt st'' /\ consumed st'' = consumed st + 1 /\ dests st'' = dests st /\
    log st'' = log st ++ [StInt dest bits (wrapu bits (if neg then - value else value))].
Proof using HO.
  intros D R L Li Nd Hb. unfold conv_d. pose proof (decimal_digits _ _ D) as DD.
  destruct (scan_sign_text neg ds st st' INT_MAX R) as (w & ex & st1 & E1 & R1 & W); [discriminate | |].
  { intros b rest ->. apply Forall_inv in DD. destruct DD as (-> & Hr & _). lia. }
  unfold sbind at 1. rewrite E1.
  destruct (char_loop_all (fun c => negb (truthy (isdigit c))) fuel eq_refl ds 0 w st st1 R1) as (st2 & E2 & R2);
    [| lia | exact L |].
  { eapply Forall_impl; [| exact DD]. intros c (-> & _ & Hd & _). rewrite Hd. reflexivity. }
  unfold sbind at 1. rewrite E2. rewrite (map_s8_digits _ DD).
  assert (Nz : zlen ds <> 0).
  { pose proof (digits_nonempty _ _ _ D) as N. destruct ds; [contradiction | rewrite zlen_cons; pose proof (zlen_nonneg ds); lia]. }
  unfold finish. apply Z.eqb_neq in Nz. rewrite Nz. assert (Nd' := Nd). apply Z.eqb_neq in Nd'. rewrite Nd'. cbn [negb andb].
  unfold write_int_to_dest, when_dest. rewrite Nd'.
  destruct R2 as (_ & _ & _ & Ec & Ed & El).
  assert (V : forall b, 0 <= b <= 64 -> wrapu b (signed_bits neg (fold_digits 10 ds 0)) = wrapu b (if neg then - value else value)).
  { intros b Hbb. apply signed_digits; assumption. }
  destruct state; try discriminate Hb; injection Hb as <-; (eexists; split; [reflexivity |]); cbn [consumed dests log];
    rewrite Ec, Ed, El, V by lia; auto.
Qed.
End Number.

Section RoundTrip.
Context {TI : ToInteger}.

Lemma conversion_d {S} {HS : Source S} fuel : conversion (S := S) fuel [100] =
  (skip_spaces fuel ;~ dest <~ pop_dest true ;; conv_d fuel SNone INT_MAX dest ;~ sret [])%scanf.
Proof using. reflexivity. Qed.

(** The whole of [sscanf(s, "%d", dest)] on such a text. *)
Lemma sscanf_d fuel (neg : bool) value ds dest : digits_of 10 value ds -> (length ds + 1 < fuel)%nat ->
  zlen ds < INT_MAX -> dest <> 0 ->
  exists st, sscanf fuel ((if neg then [45] else []) ++ ds) fmt_d [dest] = SOk 1 st /\
    log st = [StInt dest 32 (u32 (if neg then - value else value))].
Proof using.
  intros D L Li Nd. set (s := (if neg then [45] else []) ++ ds). pose proof (decimal_digits _ _ D) as DD.
  assert (R0 : ready s (SState (str_world s) 0 0 [dest] []) (SState (str_world s) 0 0 [dest] [])).
  { split; [| split; [vm_compute; discriminate | auto]]. split; [apply new_file_ok |]. split; [reflexivity |].
    cbn [source file str_world new_file read_data].
    assert (Fd : Forall (is_u 8) ds) by (eapply Forall_impl; [| exact DD]; intros c (_ & Hc & _); unfold is_u; lia).
    unfold s. destruct neg; simpl; [constructor; [unfold is_u; lia | exact Fd] | exact Fd]. }
  unfold sscanf, vsscanf, vfscanf. cbn [length fmt_d scan_loop].
  change (truthy (isspace (s8 37))) with false. change (negb (37 =? 37)) with false. change (cur [100] =? 37) with false. cbv iota.
  rewrite conversion_d.
  destruct fuel as [| fuel]; [lia |]. set (fl := S fuel) in *.
  assert (Sk : exists st1, skip_spaces fl (SState (str_world s) 0 0 [dest] []) = SOk tt st1 /\ ready s (SState (str_world s) 0 0 [dest] []) st1).
  { unfold fl. cbn [skip_spaces]. destruct (ready_look _ _ _ R0) as (st1 & E1 & R1). exists st1. unfold sbind. rewrite E1.
    assert (Ns : truthy (isspace (match s with b :: _ => s8 b | [] => 0 end)) = false).
    { unfold s. destruct neg; [reflexivity |]. destruct DD as [| c ds' (Ec & Hc & _) _]; [reflexivity |]. simpl app. cbv iota. rewrite Ec.
      pose proof (range_check 48 10 (fun c => negb (truthy (isspace c))) ltac:(by_vm) c ltac:(lia)) as T. simpl in T.
      destruct (truthy (isspace c)); [discriminate | reflexivity]. }
    rewrite Ns. split; [reflexivity | exact R1]. }
  destruct Sk as (st1 & E1 & R1). pose proof R1 as (G1 & P1 & A1 & C1 & D1 & L1). cbn [consumed dests log] in C1, D1, L1.
  set (st2 := SState (source st1) 0 (consumed_chars st1) [] [] : sstate (world unit)).
  assert (R2 : ready s st2 st2) by (split; [exact G1 | split; [exact P1 | split; [exact A1 | auto]]]).
  destruct (conv_d_text fl neg value ds st2 st2 dest SNone 32 D R2 ltac:(unfold fl in *; lia) Li Nd eq_refl) as (st3 & E3 & C3 & D3 & L3).
  unfold sbind at 1. unfold sbind at 1. rewrite E1. unfold sbind at 1, pop_dest at 1. rewrite C1, D1, L1.
  fold st2. unfold sbind at 1. rewrite E3. exists st3. unfold sret. unfold get_consumed. rewrite C3, L3. split; reflexivity.
Qed.

(** C32: a number through [sprintf] and [sscanf].  The text [sprintf] writes for an
    [int] with [%d] is read back by [sscanf] with [%d]: one conversion is counted
    and the 32 bits of the number are stored in the destination. *)
Theorem sprintf_sscanf_roundtrip n dest : is_s 32 n -> dest <> 0 ->
  exists s st, sprintf 3 fmt_d 0 [AInt n] = SnRet (zlen s) 0 [] (s ++ [0]) /\
    sscanf 100 s fmt_d [dest] = SOk 1 st /\ log st = [StInt dest 32 (u32 n)].
Proof using.
  intros Hn Nd. destruct (sprintf_d n Hn) as (ds & D & L & E). unfold zlen in L.
  destruct (sscanf_d 100 (n <? 0) (Z.abs n) ds dest D ltac:(lia) ltac:(unfold zlen, INT_MAX, smax; lia) Nd) as (st & E2 & E3).
  exists (signed_text n ds), st. split; [exact E |]. split; [exact E2 |]. rewrite E3. do 3 f_equal. zbool; lia.
Qed.
End RoundTrip.

(** ** The theorems at work *)
#[local] Instance decimal_width : ToInteger := fun l => read_decimal l 0 0.

Lemma sprintf_sscanf_roundtrip_witness : exists s st,
  sprintf 3 fmt_d 0 [AInt (-7)] = SnRet (zlen s) 0 [] (s ++ [0]) /\
  sscanf 100 s fmt_d [1] = SOk 1 st /\ log st = [StInt 1 32 (u32 (-7))].
Proof. refine (sprintf_sscanf_roundtrip (-7) 1 _ _); [split; vm_compute; discriminate | discriminate]. Defined.

(** [sscanf("12 ab", "%d%s", 1, 2)]. *)
Lemma vfscanf_returns_witness :
  let st := SState (str_world [49; 50; 32; 97; 98]) 0 0 [1; 2] [] in
  let r := vfscanf 6 [37; 100; 37; 115] st in
  scan_fits 5 [37; 100; 37; 115] 2 = true /\
  match r with
  | SOk _ _ => True
  | SPanic => scan_fits 5 [37; 100; 37; 115] 2 = false
  | SUndef => scan_fits 5 [37; 100; 37; 115] 2 = false \/ overlong (ahead (source st))
  | SRet _ _ | SBad | SNoFuel => False
  end /\
  match r with SOk v _ => v = 2 | _ => False end.
Proof.
  intros st r. split; [vm_compute; reflexivity |]. split; [| vm_compute; reflexivity].
  apply (vfscanf_returns 6 [37; 100; 37; 115] st); [| vm_compute; discriminate | vm_compute; lia].
  split; [apply new_file_ok |]. split; [reflexivity |]. repeat constructor; vm_compute; (reflexivity || discriminate).
Defined.

(** [sscanf("1e9999999999", "%f", 1)]: the exponent overflows its [int]. *)
Theorem scanf_exponent_overflows :
  sscanf 13 [49; 101; 57; 57; 57; 57; 57; 57; 57; 57; 57; 57] [37; 102] [1] = SUndef.
Proof. by_vm. Qed.

(** The range [a-c] of a set starts at the character [-], not at [a]: [%[a-c]]
    takes a digit, and a [b] that follows it. *)
Theorem scanf_set_range_starts_at_dash :
  set_matches false [97; 45; 99] 53 = true /\ set_matches false [98; 45; 99] 97 = true.
Proof. split; reflexivity. Qed.

(** After the prefix [0b] every decimal digit is taken as a binary one, and a
    sign in front of [inf] is dropped. *)
Theorem scanf_binary_takes_decimal_digits :
  is_proper_digit 2 57 = true /\
  match sscanf 20 [45; 105; 110; 102] [37; 102] [1] with
  | SOk 1 st => log st = [StFloat 1 F32 (inf_mag F32)]
  | _ => False
  end.
Proof. split; vm_compute; reflexivity. Qed.
