(* ===== verification/Once.v ===== *)
(** * One-time initialisation

    [thread_once] of [src/src/internal/thread.cpp] ([pthread_once],
    [call_once]) as threads over a futex.  Two ghost fields record what the word
    does not show: how often [init_fn] has returned, and which thread is between
    its compare-exchange and its return. *)

From stdpp Require Import gmap relations.
From S2P Require Import Prelude Threads.

#[local] Open Scope Z_scope.

Definition ONCE_INCOMPLETE : Z := 0.
Definition ONCE_QUEUED : Z := 1.
Definition ONCE_RUNNING : Z := 2.
Definition ONCE_COMPLETE : Z := 3.

Record once := {
  once_word : Z;
  once_sleepers : gset Z;
  runs : Z;                  (* ghost: completed calls of init_fn *)
  runner : option Z          (* ghost: the thread that calls it *)
}.

Inductive once_pc :=
| OnceIdle
| OnceLoad
| OnceLoop (st : Z)
| OnceInit                   (* inside init_fn *)
| OnceXchg
| OnceWake
| OnceWait
| OnceAsleep
| OnceReload
| OnceRet.

(** [OFault]: the weak compare-exchange fails, or a signal ends the wait. *)
Inductive once_act := OCall | ORun | OFault.

Definition once_tstep (t : Z) (a : once_act) (s : once) (l : once_pc) : option (once * once_pc) :=
  match a, l with
  | OCall, OnceIdle => Some (s, OnceLoad)
  | ORun, OnceLoad | ORun, OnceReload => Some (s, OnceLoop (once_word s))
  | ORun, OnceLoop st =>
      if st =? ONCE_INCOMPLETE then
        if once_word s =? ONCE_INCOMPLETE then
          Some ({| once_word := ONCE_RUNNING; once_sleepers := once_sleepers s; runs := runs s;
                   runner := Some t |}, OnceInit)
        else Some (s, OnceLoop (once_word s))
      else if st =? ONCE_RUNNING then
        if once_word s =? ONCE_RUNNING then
          Some ({| once_word := ONCE_QUEUED; once_sleepers := once_sleepers s; runs := runs s;
                   runner := runner s |}, OnceWait)
        else Some (s, OnceLoop (once_word s))
      else if st =? ONCE_QUEUED then Some (s, OnceWait)
      else Some (s, OnceRet)
  | OFault, OnceLoop st =>
      if (st =? ONCE_INCOMPLETE) || (st =? ONCE_RUNNING) then Some (s, OnceLoop (once_word s)) else None
  | ORun, OnceInit =>
      Some ({| once_word := once_word s; once_sleepers := once_sleepers s; runs := runs s + 1;
               runner := runner s |}, OnceXchg)
  | ORun, OnceXchg =>
      if once_word s =? ONCE_QUEUED then
        Some ({| once_word := ONCE_COMPLETE; once_sleepers := once_sleepers s; runs := runs s;
                 runner := runner s |}, OnceWake)
      else
        Some ({| once_word := ONCE_COMPLETE; once_sleepers := once_sleepers s; runs := runs s;
                 runner := None |}, OnceRet)
  | ORun, OnceWake =>
      Some ({| once_word := once_word s; once_sleepers := ∅; runs := runs s; runner := None |}, OnceRet)
  | ORun, OnceWait =>
      if once_word s =? ONCE_QUEUED then
        Some ({| once_word := once_word s; once_sleepers := {[t]} ∪ once_sleepers s; runs := runs s;
                 runner := runner s |}, OnceAsleep)
      else Some (s, OnceReload)
  | ORun, OnceAsleep => if decide (t ∈ once_sleepers s) then None else Some (s, OnceReload)
  | OFault, OnceAsleep =>
      Some ({| once_word := once_word s; once_sleepers := once_sleepers s ∖ {[t]}; runs := runs s;
               runner := runner s |}, OnceReload)
  | ORun, OnceRet => Some (s, OnceIdle)
  | _, _ => None
  end.

Definition once_init : config once once_pc :=
  Config {| once_word := ONCE_INCOMPLETE; once_sleepers := ∅; runs := 0; runner := None |} (fun _ => OnceIdle).

(** ** The invariant *)
Definition busy (s : once) : Prop := once_word s = ONCE_QUEUED \/ once_word s = ONCE_RUNNING.
Definition complete (s : once) : Prop := once_word s = ONCE_COMPLETE /\ runs s = 1.

Definition once_good (s : once) : Prop :=
  (once_word s = ONCE_INCOMPLETE /\ runner s = None /\ runs s = 0 /\ once_sleepers s = ∅) \/
  (busy s /\ (exists r, runner s = Some r /\ valid_tid r) /\ (once_word s = ONCE_RUNNING -> once_sleepers s = ∅)) \/
  (complete s /\ (runner s = None -> once_sleepers s = ∅) /\ (forall r, runner s = Some r -> valid_tid r)).

Definition once_ok (t : Z) (s : once) (l : once_pc) : Prop :=
  match l with
  | OnceInit => runner s = Some t /\ busy s /\ runs s = 0
  | OnceXchg => runner s = Some t /\ busy s /\ runs s = 1
  | OnceWake => runner s = Some t /\ complete s
  | OnceRet => runner s <> Some t /\ complete s
  | OnceLoop st => runner s <> Some t /\ (st = ONCE_INCOMPLETE \/ st = ONCE_RUNNING \/ st = ONCE_QUEUED \/ complete s)
  | _ => runner s <> Some t
  end.

(** What a thread tolerates from the others. *)
Definition once_env (u : Z) (s s' : once) : Prop :=
  (runner s = Some u <-> runner s' = Some u) /\
  (runner s = Some u -> runs s' = runs s /\ (busy s -> busy s')) /\
  (complete s -> complete s').

Ltac once_crush :=
  unfold once_good, once_ok, once_env, busy, complete, ONCE_INCOMPLETE, ONCE_RUNNING, ONCE_QUEUED, ONCE_COMPLETE in *;
  simpl in *; zbool; simplify_eq; simpl in *.

Lemma once_step_ok t a s l s' l' : valid_tid t -> once_good s -> once_ok t s l ->
  once_tstep t a s l = Some (s', l') ->
  once_good s' /\ once_ok t s' l' /\ forall u, valid_tid u -> u <> t -> once_env u s s'.
Proof.
  intros V G O E. destruct s as [w sl n r].
  destruct a, l; simpl in E; try discriminate; once_crush; try (destruct (decide _)); simplify_eq; simpl in *.
  all: split; [| split; [| intros u Vu N]].
  all: try (naive_solver lia).
  assert (H : sl = ∅ -> sl ∖ {[t]} = ∅) by set_solver. naive_solver.
Qed.

Lemma once_env_ok u s s' l : valid_tid u -> once_env u s s' -> once_ok u s l -> once_ok u s' l.
Proof. unfold once_env, once_ok. intros _ (R & B & C) O. destruct l; intuition congruence. Qed.

Lemma once_inv c : reachable once_tstep once_init c -> local_inv once_good once_ok c.
Proof.
  apply (local_inv_reachable once_tstep once_good once_ok once_env).
  - split; [left; auto |]. intros t _. simpl. discriminate.
  - exact once_step_ok.
  - exact once_env_ok.
Qed.

(** C27: [thread_once] runs its function exactly once.  In every interleaving of any
    number of callers, with spurious failures and wake-ups: the function is
    started by at most one thread and never again after it returned; every call
    that returns does so after it returned; and as long as a thread sleeps on the
    futex, another thread is in the function or about to wake the sleepers. *)
Theorem once_exactly_once c : reachable once_tstep once_init c ->
  0 <= runs (shared c) <= 1 /\
  (forall t u, valid_tid t -> valid_tid u -> locals c t = OnceInit -> locals c u = OnceInit -> t = u) /\
  (forall t, valid_tid t -> locals c t = OnceInit -> runs (shared c) = 0) /\
  (forall t, valid_tid t -> locals c t = OnceRet -> runs (shared c) = 1) /\
  (once_sleepers (shared c) <> ∅ -> exists r, valid_tid r /\
     (locals c r = OnceWake \/
      (once_word (shared c) = ONCE_QUEUED /\ (locals c r = OnceInit \/ locals c r = OnceXchg)))).
Proof.
  intros R. destruct (once_inv c R) as [G O].
  assert (Run : forall r, runner (shared c) = Some r -> valid_tid r ->
    (locals c r = OnceInit /\ busy (shared c) /\ runs (shared c) = 0) \/
    (locals c r = OnceXchg /\ busy (shared c) /\ runs (shared c) = 1) \/ (locals c r = OnceWake /\ complete (shared c))).
  { intros r Er V. specialize (O r V). unfold once_ok in O. destruct (locals c r); naive_solver. }
  split; [| split; [| split; [| split]]].
  - destruct G as [G | [(_ & (r & Er & V) & _) | ([_ E] & _)]]; [lia | | lia].
    destruct (Run r Er V) as [(_ & _ & E) | [(_ & _ & E) | (_ & _ & E)]]; lia.
  - intros t u Vt Vu Et Eu. pose proof (O t Vt) as Ot. pose proof (O u Vu) as Ou. rewrite Et in Ot. rewrite Eu in Ou.
    destruct Ot, Ou. congruence.
  - intros t Vt Et. specialize (O t Vt). rewrite Et in O. apply O.
  - intros t Vt Et. specialize (O t Vt). rewrite Et in O. apply O.
  - intros Ns. destruct G as [(_ & _ & _ & E) | [(B & (r & Er & V) & Q) | (C & Q & Vr)]]; [contradiction | |].
    + exists r. split; [exact V |]. right. destruct (Run r Er V) as [(E & _) | [(E & _) | (E & C & _)]];
        [| | destruct B as [B | B]; rewrite B in C; discriminate].
      all: split; [destruct B as [B | B]; [exact B | contradiction (Ns (Q B))] | auto].
    + destruct (runner (shared c)) as [r |] eqn:Er; [| contradiction (Ns (Q eq_refl))].
      exists r. split; [apply Vr; reflexivity |]. left.
      destruct (Run r eq_refl (Vr r eq_refl)) as [(_ & [B | B] & _) | [(_ & [B | B] & _) | (E & _)]]; [| | | | exact E];
        destruct C as [C _]; rewrite B in C; discriminate.
Qed.

(** Two callers: the second sleeps while the first is in the function. *)
Definition once_schedule : list (Z * once_act) :=
  [(1, OCall); (1, ORun); (1, ORun); (2, OCall); (2, ORun); (2, ORun); (2, ORun)].

Definition once_witness_config : config once once_pc :=
  match exec once_tstep once_schedule once_init with Some c => c | None => once_init end.

Lemma once_exactly_once_witness : exists r, valid_tid r /\
  (locals once_witness_config r = OnceWake \/
   (once_word (shared once_witness_config) = ONCE_QUEUED /\
    (locals once_witness_config r = OnceInit \/ locals once_witness_config r = OnceXchg))).
Proof.
  refine (proj2 (proj2 (proj2 (proj2 (once_exactly_once once_witness_config _)))) _).
  - apply (exec_reachable once_tstep once_schedule). reflexivity.
  - vm_compute. discriminate.
Defined.
