(* ===== verification/Semaphore.v ===== *)
(** * Semaphores

    [sem_post], [sem_wait], [sem_timedwait], [sem_trywait] and [sem_getvalue] of
    [src/src/posix/semaphore.cpp] as threads over a futex.  The word is the count,
    or [SEMAPHORE_WAITERS] alone. *)

From stdpp Require Import gmap relations.
From S2P Require Import Prelude Threads.

#[local] Open Scope Z_scope.

Definition SEM_VALUE_MAX : Z := 0x7FFFFFFF.
Definition SEMAPHORE_COUNT_MASK : Z := SEM_VALUE_MAX.
Definition SEMAPHORE_WAITERS : Z := - 2 ^ 31.
Definition EINTR : Z := 4.
Definition EAGAIN : Z := 11.
Definition EINVAL : Z := 22.
Definition EOVERFLOW : Z := 75.
Definition ETIMEDOUT : Z := 110.

Record semaphore := {
  sem_word : Z;
  sem_sleepers : gset Z       (* the threads asleep on the futex *)
}.

Inductive sem_op := SemPost | SemWait (timed : bool) | SemTryWait.

Inductive sem_pc :=
| SemIdle
| PostLoad
| PostXchg (count : Z)
| PostWake
| WaitLoop (timed : bool) (st : Z)
| WaitFutex (timed : bool) (st : Z)
| SemAsleep (timed : bool) (st : Z)
| TryLoad
| TryCas (st : Z)
| SemRet (errno : Z)          (* 0: the call returns 0; otherwise -1 with errno set *)
| SemPanic.                   (* the assertion on the result of sys_futex_wait *)

(** A call, the next access, a spurious failure or a signal, the end of the
    timeout, an error of [clock_gettime], or an error with which the kernel refuses
    to wait. *)
Inductive sem_act := SCall (o : sem_op) | SRun | SFault | SExpire | SClock (err : Z) | SRefuse (err : Z).

Definition count_of (w : Z) : Z := Z.land w SEMAPHORE_COUNT_MASK.
Definition has_waiters (w : Z) : bool := negb (Z.land w SEMAPHORE_WAITERS =? 0).

Definition set_word (s : semaphore) (w : Z) : semaphore :=
  {| sem_word := w; sem_sleepers := sem_sleepers s |}.

Definition sem_tstep (t : Z) (a : sem_act) (s : semaphore) (l : sem_pc) : option (semaphore * sem_pc) :=
  match a, l with
  | SCall SemPost, SemIdle => Some (s, PostLoad)
  | SCall (SemWait timed), SemIdle => Some (s, WaitLoop timed 0)
  | SCall SemTryWait, SemIdle => Some (s, TryLoad)
  | SRun, SemRet _ => Some (s, SemIdle)
  (* sem_post *)
  | SRun, PostLoad =>
      let count := count_of (sem_word s) in
      if count =? SEM_VALUE_MAX then Some (s, SemRet EOVERFLOW) else Some (s, PostXchg count)
  | SRun, PostXchg count =>
      let state := sem_word s in
      if has_waiters state then
        Some (set_word s (count + 1), PostWake)
      else Some (set_word s (count + 1), SemRet 0)
  | SRun, PostWake =>
      Some ({| sem_word := sem_word s; sem_sleepers := ∅ |}, SemRet 0)
  (* sem_wait, sem_timedwait *)
  | SRun, WaitLoop timed st =>
      if count_of st =? 0 then
        if sem_word s =? st then Some (set_word s SEMAPHORE_WAITERS, WaitFutex timed st)
        else Some (s, WaitLoop timed (sem_word s))
      else
        if sem_word s =? st then Some (set_word s (st - 1), SemRet 0)
        else Some (s, WaitLoop timed (sem_word s))
  | SFault, WaitLoop timed st =>
      if count_of st =? 0 then Some (s, WaitLoop timed (sem_word s)) else None
  | SRun, WaitFutex timed st =>
      if sem_word s =? st then
        Some ({| sem_word := sem_word s; sem_sleepers := {[t]} ∪ sem_sleepers s |},
              SemAsleep timed st)
      else Some (s, WaitLoop timed st)
  | SExpire, WaitFutex timed st => if timed then Some (s, SemRet ETIMEDOUT) else None
  | SClock err, WaitFutex timed st => if timed && negb (err =? 0) then Some (s, SemRet err) else None
  | SRefuse err, WaitFutex timed st =>
      if (err =? ETIMEDOUT) || (err =? EINTR) then Some (s, SemRet err)
      else if (err =? 0) || (err =? EAGAIN) then Some (s, WaitLoop timed st)
      else Some (s, SemPanic)
  | SRun, SemAsleep timed st => if decide (t ∈ sem_sleepers s) then None else Some (s, WaitLoop timed st)
  | SFault, SemAsleep timed st =>
      Some ({| sem_word := sem_word s; sem_sleepers := sem_sleepers s ∖ {[t]} |}, SemRet EINTR)
  | SExpire, SemAsleep timed st =>
      if timed then
        Some ({| sem_word := sem_word s; sem_sleepers := sem_sleepers s ∖ {[t]} |}, SemRet ETIMEDOUT)
      else None
  (* sem_trywait *)
  | SRun, TryLoad =>
      let state := sem_word s in
      if has_waiters state || (state =? 0) then Some (s, SemRet EAGAIN) else Some (s, TryCas state)
  | SRun, TryCas st => if sem_word s =? st then Some (set_word s (st - 1), SemRet 0) else Some (s, TryLoad)
  | SFault, TryCas st => Some (s, TryLoad)
  | _, _ => None
  end.

(** [sem_init] with a value in range, and threads outside of the operations. *)
Definition sem_init (value : Z) : option (config semaphore sem_pc) :=
  if SEM_VALUE_MAX <? value then None
  else Some (Config {| sem_word := value; sem_sleepers := ∅ |} (fun _ => SemIdle)).

Definition sem_getvalue (s : semaphore) : Z := Z.land (sem_word s) (Z.lnot SEMAPHORE_WAITERS).

(** The relative timeout of [sem_timedwait], [thread_cond_timedwait] and
    [pthread_cond_clockwait]: the differences of the seconds and of the
    nanoseconds; [None] is the immediate [ETIMEDOUT]. *)
Definition rel_timeout (abs_sec abs_nsec sec nsec : Z) : option (Z * Z) :=
  let s := abs_sec - sec in
  let n := abs_nsec - nsec in
  if (s <? 0) || ((s =? 0) && (n <? 0)) then None else Some (s, n).

(** ** The word and the sleepers *)
Definition word_ok (w : Z) : Prop := 0 <= w <= SEM_VALUE_MAX \/ w = SEMAPHORE_WAITERS.

Definition sem_good (s : semaphore) : Prop := word_ok (sem_word s).

(** What the local variables hold. *)
Definition sem_ok (t : Z) (s : semaphore) (l : sem_pc) : Prop :=
  match l with
  | PostXchg count => 0 <= count < SEM_VALUE_MAX
  | WaitLoop _ st => word_ok st
  | WaitFutex _ st | SemAsleep _ st => st = 0 \/ st = SEMAPHORE_WAITERS
  | TryCas st => 0 < st <= SEM_VALUE_MAX
  | _ => True
  end.

Definition sem_env (u : Z) (s s' : semaphore) : Prop := True.

Lemma count_of_ok w : word_ok w -> count_of w = if w =? SEMAPHORE_WAITERS then 0 else w.
Proof.
  unfold word_ok, count_of, SEMAPHORE_COUNT_MASK. intros [H | ->]; [| reflexivity].
  change SEM_VALUE_MAX with (Z.ones 31). rewrite Z.land_ones by lia. unfold SEM_VALUE_MAX, SEMAPHORE_WAITERS in *.
  rewrite Z.mod_small by lia. destruct (Z.eqb_spec w (- 2 ^ 31)); [lia | reflexivity].
Qed.

Lemma has_waiters_ok w : word_ok w -> has_waiters w = (w =? SEMAPHORE_WAITERS).
Proof.
  intros H. unfold has_waiters. change SEMAPHORE_WAITERS with FLAG_WAITING.
  rewrite test_flag by (unfold word_ok, SEM_VALUE_MAX, SEMAPHORE_WAITERS in H; lia).
  unfold word_ok, SEM_VALUE_MAX, SEMAPHORE_WAITERS, FLAG_WAITING in *. lia.
Qed.

Lemma sem_step_ok t a s l s' l' : valid_tid t -> sem_good s -> sem_ok t s l ->
  sem_tstep t a s l = Some (s', l') ->
  sem_good s' /\ sem_ok t s' l' /\ forall u, valid_tid u -> u <> t -> sem_env u s s'.
Proof.
  intros V W O E. unfold sem_env, sem_good in *.
  pose proof (count_of_ok _ W) as Cw. pose proof (has_waiters_ok _ W) as Hw.
  destruct a as [o | | | | err | err], l as [| | count | | timed st | timed st | timed st | | st | e |]; try destruct o; simpl in E; try discriminate E.
  all: simpl in O; try (pose proof (count_of_ok st O) as Cs); rewrite ?Cw, ?Hw, ?Cs in E.
  all: repeat match type of E with context [if ?b then _ else _] => destruct b eqn:? end; try discriminate E;
    injection E as <- <-; simpl.
  all: unfold word_ok, SEM_VALUE_MAX, SEMAPHORE_WAITERS in *; zbool; repeat split; auto; try discriminate; lia.
Qed.

(** C35: the word of a semaphore is well formed.  In every interleaving the word is
    a count up to [SEM_VALUE_MAX] or [SEMAPHORE_WAITERS] alone, so [sem_getvalue]
    returns a count; a thread asleep expects 0 or [SEMAPHORE_WAITERS]; and the
    value [sem_post] stores and those the waiting operations decrement to never
    leave the range. *)
Theorem sem_word_well_formed value c0 c : 0 <= value -> sem_init value = Some c0 ->
  reachable sem_tstep c0 c ->
  word_ok (sem_word (shared c)) /\ 0 <= sem_getvalue (shared c) <= SEM_VALUE_MAX /\
  forall t, valid_tid t -> sem_ok t (shared c) (locals c t).
Proof.
  unfold sem_init. intros Hv E R. destruct (Z.ltb_spec SEM_VALUE_MAX value); [discriminate |]. injection E as <-.
  assert (I : local_inv sem_good sem_ok c).
  { revert c R. apply (local_inv_reachable sem_tstep sem_good sem_ok sem_env).
    - split; [left; simpl; lia | intros t _; exact I].
    - exact sem_step_ok.
    - intros u s s' l _ _ O. exact O. }
  destruct I as [W O]. split; [exact W |]. split; [| exact O]. unfold sem_getvalue.
  change (Z.land (sem_word (shared c)) (Z.lnot SEMAPHORE_WAITERS)) with (count_of (sem_word (shared c))).
  rewrite (count_of_ok _ W). unfold sem_good, word_ok, SEM_VALUE_MAX, SEMAPHORE_WAITERS in *. zbool; lia.
Qed.

Definition sem0 : config semaphore sem_pc := Config {| sem_word := 0; sem_sleepers := ∅ |} (fun _ => SemIdle).

Lemma sem_word_well_formed_witness : exists c, reachable sem_tstep sem0 c /\ sem_word (shared c) = 1 /\
  0 <= sem_getvalue (shared c) <= SEM_VALUE_MAX.
Proof.
  eexists. split; [apply (exec_reachable sem_tstep [(1, SCall SemPost); (1, SRun); (1, SRun)]); reflexivity |].
  split; [reflexivity |].
  refine (proj1 (proj2 (sem_word_well_formed 0 sem0 _ _ _ _))); [lia | reflexivity |].
  apply (exec_reachable sem_tstep [(1, SCall SemPost); (1, SRun); (1, SRun)]). reflexivity.
Defined.

(** ** Races *)

(** Two [sem_post] that both load the count before either stores it: both return
    0 and the count is 1. *)
Theorem sem_post_loses_permit :
  option_map (fun c => (sem_word (shared c), locals c 1, locals c 2))
    (exec sem_tstep [(1, SCall SemPost); (2, SCall SemPost); (1, SRun); (2, SRun); (1, SRun); (2, SRun)] sem0)
  = Some (1, SemRet 0, SemRet 0).
Proof. by_vm. Qed.

(** A [sem_post] that loads the count before a [sem_wait] takes the permit and
    stores it after: two permits are taken although one was given. *)
Theorem sem_post_duplicates_permit :
  option_map (fun c => (locals c 2, locals c 3, sem_word (shared c)))
    (exec sem_tstep [(1, SCall SemPost); (1, SRun); (1, SRun); (1, SRun); (* one permit *)
       (1, SCall SemPost); (1, SRun);                                      (* loads 1 *)
       (2, SCall (SemWait false)); (2, SRun); (2, SRun);                   (* takes it *)
       (1, SRun);                                                          (* stores 2 *)
       (3, SCall (SemWait false)); (3, SRun); (3, SRun)] sem0)
  = Some (SemRet 0, SemRet 0, 1).
Proof. by_vm. Qed.

(** A lost wake-up: thread 1 marks the word and is about to wait for the value 0
    it replaced; a post and a wait of others bring the word back to 0, thread 1
    falls asleep with no mark, and the next post wakes nobody although the count
    is then 1. *)
Theorem sem_wait_lost_wakeup :
  option_map (fun c => (sem_word (shared c), bool_decide (1 ∈ sem_sleepers (shared c)), locals c 1, locals c 2))
    (exec sem_tstep [(1, SCall (SemWait false)); (1, SRun);
       (2, SCall SemPost); (2, SRun); (2, SRun); (2, SRun); (2, SRun);
       (3, SCall (SemWait false)); (3, SRun); (3, SRun);
       (1, SRun);
       (2, SCall SemPost); (2, SRun); (2, SRun)] sem0)
  = Some (1, true, SemAsleep false 0, SemRet 0).
Proof. by_vm. Qed.

(** The relative timeout can have negative nanoseconds, which the kernel rejects
    with [EINVAL]: from 3.9 s to 5.1 s are 2 s and -0.8 s. *)
Theorem rel_timeout_negative_nanoseconds :
  rel_timeout 5 100000000 3 900000000 = Some (2, -800000000).
Proof. reflexivity. Qed.

(** The assertion of [sem_timedwait] does not expect that error. *)
Theorem sem_timedwait_panics :
  option_map (fun c => locals c 1) (exec sem_tstep [(1, SCall (SemWait true)); (1, SRun); (1, SRefuse EINVAL)] sem0) = Some SemPanic.
Proof. by_vm. Qed.
