(* ===== verification/RwLock.v ===== *)
(** * Readers-writer locks

    [pthread_rwlock_rdlock], [pthread_rwlock_wrlock] and [pthread_rwlock_unlock]
    of [src/src/posix/pthread.cpp] with the internal lock of [state], as threads
    over two futexes.  The client of a thread holds one lock at a time and unlocks
    only what it holds.  Two ghost fields record what the words do not show: the
    thread that holds the internal lock, and the threads counted in
    [writer_notify]. *)

From stdpp Require Import gmap relations.
From S2P Require Import Prelude Threads.

#[local] Open Scope Z_scope.

Definition MUTEX_OWNER_MASK : Z := 2 ^ 30 - 1.
Definition MUTEX_WAITERS_BIT : Z := - 2 ^ 31.
Definition MUTEX_EXCLUSIVE_BIT : Z := 2 ^ 30.
Definition RC_COUNT_MASK : Z := 2 ^ 30 - 1.
Definition RC_WAITERS_BIT : Z := - 2 ^ 31.

Record rwlock := {
  rw_state : Z;
  writer_notify : Z;
  state_sleepers : gset Z;
  notify_sleepers : gset Z;
  owner : option Z;           (* ghost: holds the internal lock *)
  readers : gset Z            (* ghost: counted in writer_notify *)
}.

(** Where a thread goes after it released the internal lock. *)
Inductive rw_next := ToReader | ToIdle.

Inductive rw_pc :=
| RwIdle
| HeldRead
| HeldWrite
| MutexLoad (exclusive : bool)
| MutexLoop (exclusive : bool) (expected : Z)
| MutexWait (exclusive : bool) (expected : Z)
| MutexAsleep (exclusive : bool)
| ReadAdd
| MutexXchg (k : rw_next)
| MutexWake (k : rw_next)
| WriteLoad
| WriteLoop (rc_expected : Z)
| WriteWait (rc_expected : Z)
| WriteAsleep
| UnlockLoad (writer : bool)    (* which lock the client holds; the code does not know *)
| UnlockLoop (rc_expected : Z)
| UnlockWake
| RwPanic.

Inductive rw_op := RdLock | WrLock | Unlock.
Inductive rw_act := RwCall (o : rw_op) | RwRun | RwFault.

(** The readers fit in the counter, which the code does not check. *)
Definition MAX_READERS : Z := 2 ^ 30 - 2.

Definition upd_state (s : rwlock) (v : Z) (o : option Z) : rwlock :=
  {| rw_state := v; writer_notify := writer_notify s; state_sleepers := state_sleepers s;
     notify_sleepers := notify_sleepers s; owner := o; readers := readers s |}.
Definition upd_notify (s : rwlock) (v : Z) (r : gset Z) : rwlock :=
  {| rw_state := rw_state s; writer_notify := v; state_sleepers := state_sleepers s;
     notify_sleepers := notify_sleepers s; owner := owner s; readers := r |}.
Definition upd_sleepers (s : rwlock) (a b : gset Z) : rwlock :=
  {| rw_state := rw_state s; writer_notify := writer_notify s; state_sleepers := a;
     notify_sleepers := b; owner := owner s; readers := readers s |}.

Definition rw_after (k : rw_next) : rw_pc := match k with ToReader => HeldRead | ToIdle => RwIdle end.

Definition rw_tstep (t : Z) (a : rw_act) (s : rwlock) (l : rw_pc) : option (rwlock * rw_pc) :=
  match a, l with
  | RwCall RdLock, RwIdle => Some (s, MutexLoad false)
  | RwCall WrLock, RwIdle => Some (s, MutexLoad true)
  | RwCall Unlock, HeldRead => Some (s, UnlockLoad false)
  | RwCall Unlock, HeldWrite => Some (s, UnlockLoad true)
  (* rwlock_mutex_lock *)
  | RwRun, MutexLoad ex => Some (s, MutexLoop ex (rw_state s))
  | RwRun, MutexLoop ex expected =>
      if negb (expected =? 0) then
        if Z.land expected MUTEX_OWNER_MASK =? 0 then Some (s, RwPanic)
        else if Z.land expected MUTEX_WAITERS_BIT =? 0 then
          if rw_state s =? expected
          then Some (upd_state s (Z.lor expected MUTEX_WAITERS_BIT) (owner s), MutexWait ex expected)
          else Some (s, MutexLoop ex (rw_state s))
        else Some (s, MutexWait ex expected)
      else
        let desired := if ex then Z.lor 1 MUTEX_EXCLUSIVE_BIT else 1 in
        if rw_state s =? expected
        then Some (upd_state s desired (Some t), if ex then WriteLoad else ReadAdd)
        else Some (s, MutexLoop ex (rw_state s))
  | RwFault, MutexLoop ex expected =>
      if negb (expected =? 0) && (Z.land expected MUTEX_OWNER_MASK =? 0) then None
      else Some (s, MutexLoop ex (rw_state s))
  | RwRun, MutexWait ex expected =>
      if rw_state s =? Z.lor expected MUTEX_WAITERS_BIT
      then Some (upd_sleepers s ({[t]} ∪ state_sleepers s) (notify_sleepers s), MutexAsleep ex)
      else Some (s, MutexLoop ex 0)
  | RwRun, MutexAsleep ex => if decide (t ∈ state_sleepers s) then None else Some (s, MutexLoop ex 0)
  | RwFault, MutexAsleep ex =>
      Some (upd_sleepers s (state_sleepers s ∖ {[t]}) (notify_sleepers s), MutexLoop ex 0)
  (* rwlock_mutex_unlock *)
  | RwRun, MutexXchg k =>
      let state := rw_state s in
      Some (upd_state s 0 None, if Z.land state MUTEX_WAITERS_BIT =? 0 then rw_after k else MutexWake k)
  | RwRun, MutexWake k => Some (upd_sleepers s ∅ (notify_sleepers s), rw_after k)
  (* pthread_rwlock_rdlock *)
  | RwRun, ReadAdd =>
      if Z.of_nat (size (readers s)) <? MAX_READERS
      then Some (upd_notify s (writer_notify s + 1) ({[t]} ∪ readers s), MutexXchg ToReader) else None
  (* pthread_rwlock_wrlock *)
  | RwRun, WriteLoad => Some (s, WriteLoop (writer_notify s))
  | RwRun, WriteLoop rc =>
      if rc =? 0 then Some (s, HeldWrite)
      else if Z.land rc RC_COUNT_MASK =? 0 then Some (s, RwPanic)
      else if Z.land rc RC_WAITERS_BIT =? 0 then
        if writer_notify s =? rc
        then Some (upd_notify s (Z.lor rc RC_COUNT_MASK) (readers s), WriteWait rc)
        else Some (s, WriteLoop (writer_notify s))
      else Some (s, WriteWait rc)
  | RwFault, WriteLoop rc =>
      if (rc =? 0) || (Z.land rc RC_COUNT_MASK =? 0) then None else Some (s, WriteLoop (writer_notify s))
  | RwRun, WriteWait rc =>
      if writer_notify s =? Z.lor rc RC_WAITERS_BIT
      then Some (upd_sleepers s (state_sleepers s) ({[t]} ∪ notify_sleepers s), WriteAsleep)
      else Some (s, WriteLoad)
  | RwRun, WriteAsleep => if decide (t ∈ notify_sleepers s) then None else Some (s, WriteLoad)
  | RwFault, WriteAsleep =>
      Some (upd_sleepers s (state_sleepers s) (notify_sleepers s ∖ {[t]}), WriteLoad)
  (* pthread_rwlock_unlock *)
  | RwRun, UnlockLoad _ =>
      let rc := writer_notify s in
      if rc =? 0 then Some (s, MutexXchg ToIdle) else Some (s, UnlockLoop rc)
  | RwRun, UnlockLoop rc =>
      let count := Z.land rc RC_COUNT_MASK in
      if count =? 0 then Some (s, RwPanic)
      else if (count =? 1) && negb (Z.land rc RC_WAITERS_BIT =? 0) then
        if writer_notify s =? rc then Some (upd_notify s 0 (readers s ∖ {[t]}), UnlockWake)
        else Some (s, UnlockLoop (writer_notify s))
      else
        if writer_notify s =? rc
        then Some (upd_notify s (Z.lor (Z.land rc (Z.lnot RC_COUNT_MASK)) (count - 1)) (readers s ∖ {[t]}), RwIdle)
        else Some (s, UnlockLoop (writer_notify s))
  | RwFault, UnlockLoop rc =>
      if Z.land rc RC_COUNT_MASK =? 0 then None else Some (s, UnlockLoop (writer_notify s))
  | RwRun, UnlockWake => Some (upd_sleepers s (state_sleepers s) ∅, RwIdle)
  | _, _ => None
  end.

Definition rw_init : config rwlock rw_pc :=
  Config {| rw_state := 0; writer_notify := 0; state_sleepers := ∅; notify_sleepers := ∅; owner := None;
            readers := ∅ |} (fun _ => RwIdle).

(** ** The invariant *)
Definition n_readers (s : rwlock) : Z := Z.of_nat (size (readers s)).
Definition agree (s : rwlock) : Prop := writer_notify s = n_readers s.

(** The words of the internal lock: free, held, held exclusively, with or without
    waiters. *)
Definition state_word (w : Z) : Prop :=
  w = 1 \/ w = 1 + 2 ^ 30 \/ w = 1 - 2 ^ 31 \/ w = 1 + 2 ^ 30 - 2 ^ 31.

Definition rw_good (s : rwlock) : Prop :=
  0 <= writer_notify s < 2 ^ 30 /\ n_readers s <= writer_notify s /\
  (owner s = None -> agree s) /\
  ((rw_state s = 0 /\ owner s = None) \/ (state_word (rw_state s) /\ owner s <> None)).

Definition owner_pc (l : rw_pc) : bool :=
  match l with
  | ReadAdd | MutexXchg _ | WriteLoad | WriteLoop _ | WriteWait _ | WriteAsleep | HeldWrite | UnlockLoad true => true
  | _ => false
  end.

Definition reader_pc (l : rw_pc) : bool :=
  match l with
  | HeldRead | MutexXchg ToReader | MutexWake ToReader | UnlockLoad false | UnlockLoop _ => true
  | _ => false
  end.

Definition rw_at (s : rwlock) (l : rw_pc) : Prop :=
  match l with
  | MutexLoop _ e => e = 0 \/ state_word e
  | MutexWait _ e => state_word e
  | ReadAdd | MutexXchg ToReader => agree s
  | MutexXchg ToIdle | HeldWrite | UnlockLoad true => writer_notify s = 0
  | WriteLoop rc => 0 <= rc < 2 ^ 30 /\ (rc = 0 -> writer_notify s = 0)
  | WriteWait rc => 0 < rc < 2 ^ 30
  | UnlockLoop rc => 0 < rc < 2 ^ 30
  | RwPanic => False
  | UnlockWake => False
  | _ => True
  end.

Definition rw_ok (t : Z) (s : rwlock) (l : rw_pc) : Prop :=
  (owner s = Some t <-> owner_pc l = true) /\ (t ∈ readers s <-> reader_pc l = true) /\ rw_at s l.

Definition rw_env (u : Z) (s s' : rwlock) : Prop :=
  (owner s = Some u <-> owner s' = Some u) /\ (u ∈ readers s <-> u ∈ readers s') /\
  (owner s = Some u -> (agree s -> agree s') /\ (writer_notify s = 0 -> writer_notify s' = 0)).

Lemma rw_env_refl u s : rw_env u s s.
Proof. unfold rw_env. tauto. Qed.

Lemma rw_env_ok u s s' l : valid_tid u -> rw_env u s s' -> rw_ok u s l -> rw_ok u s' l.
Proof.
  intros _ (Eo & Er & Ek) (Ho & Hr & Ha). split; [rewrite <- Eo; exact Ho |]. split; [rewrite <- Er; exact Hr |].
  assert (K : owner_pc l = true -> (agree s -> agree s') /\ (writer_notify s = 0 -> writer_notify s' = 0)) by tauto.
  destruct l as [| | | | | | | | [|] | [|] | | | | | [|] | | |]; simpl in *; intuition.
Qed.

(** ** The words *)
Lemma rc_bits rc : 0 <= rc < 2 ^ 30 ->
  Z.land rc RC_COUNT_MASK = rc /\ Z.land rc RC_WAITERS_BIT = 0 /\ Z.lor rc RC_COUNT_MASK = 2 ^ 30 - 1 /\
  Z.land rc (Z.lnot RC_COUNT_MASK) = 0 /\ Z.lor rc RC_WAITERS_BIT < 0.
Proof.
  intros H. change RC_COUNT_MASK with (Z.ones 30).
  assert (L : Z.land rc (Z.ones 30) = rc) by (rewrite Z.land_ones by lia; apply Z.mod_small; lia).
  split; [exact L |]. split.
  { pose proof (test_flag rc ltac:(lia)) as T. change RC_WAITERS_BIT with FLAG_WAITING.
    destruct (Z.ltb_spec rc 0); [lia |]. destruct (Z.eqb_spec (Z.land rc FLAG_WAITING) 0); [assumption | discriminate]. }
  split.
  { transitivity (Z.ones 30); [apply Z.lor_ones_low; [lia |] | reflexivity].
    destruct (Z.eq_dec rc 0) as [-> |]; [reflexivity | apply Z.log2_lt_pow2; lia]. }
  split; [rewrite <- Z.ldiff_land, Z.ldiff_ones_r, Z.shiftr_div_pow2, Z.div_small by lia; reflexivity |].
  change RC_WAITERS_BIT with FLAG_WAITING. rewrite set_flag by lia. lia.
Qed.

Lemma state_word_bits w : state_word w -> w <> 0 /\ Z.land w MUTEX_OWNER_MASK <> 0 /\
  state_word (Z.lor w MUTEX_WAITERS_BIT).
Proof.
  intros [-> | [-> | [-> | ->]]]; (split; [discriminate |]); (split; [discriminate |]); vm_compute; auto.
Qed.

Lemma desired_word (ex : bool) : state_word (if ex then Z.lor 1 MUTEX_EXCLUSIVE_BIT else 1).
Proof. destruct ex; vm_compute; auto. Qed.

Lemma size_pos (X : gset Z) t : t ∈ X -> 0 < Z.of_nat (size X).
Proof.
  intros H. destruct (decide (size X = 0%nat)) as [E |]; [| lia].
  apply size_empty_inv in E. set_solver.
Qed.

Lemma size_remove (X : gset Z) t : t ∈ X -> Z.of_nat (size (X ∖ {[t]})) = Z.of_nat (size X) - 1.
Proof.
  intros H. pose proof (size_pos X t H). rewrite size_difference by set_solver. rewrite size_singleton. lia.
Qed.

Lemma size_add (X : gset Z) t : t ∉ X -> Z.of_nat (size ({[t]} ∪ X)) = Z.of_nat (size X) + 1.
Proof. intros H. rewrite size_union by set_solver. rewrite size_singleton. lia. Qed.

(** ** The changes to the lock, one by one *)

(** Marking the internal lock, or changing who sleeps. *)
Lemma rw_good_state s w : rw_good s -> state_word w -> rw_state s <> 0 -> rw_good (upd_state s w (owner s)).
Proof. unfold rw_good, agree, n_readers. simpl. intros (A & B & C & [[D _] | [_ D]]) W N; [contradiction | auto 10]. Qed.

Lemma rw_good_sleepers s a b : rw_good s -> rw_good (upd_sleepers s a b).
Proof. intros H. exact H. Qed.

Lemma rw_good_acquire s w t : rw_good s -> rw_state s = 0 -> state_word w ->
  rw_good (upd_state s w (Some t)) /\ agree (upd_state s w (Some t)) /\ owner s = None.
Proof.
  unfold rw_good, agree, n_readers. simpl. intros (A & B & C & [[D E] | [D _]]) Z0 W.
  - split; [| split; [exact (C E) | exact E]]. split; [exact A |]. split; [exact B |]. split; [discriminate |].
    right. split; [exact W | discriminate].
  - rewrite Z0 in D. destruct (state_word_bits _ D) as [N _]. contradiction.
Qed.

Lemma rw_good_release s : rw_good s -> agree s -> rw_good (upd_state s 0 None).
Proof. unfold rw_good, agree, n_readers. simpl. intros (A & B & C & D) G. auto 10. Qed.

Lemma rw_good_leave s t : rw_good s -> t ∈ readers s ->
  rw_good (upd_notify s (writer_notify s - 1) (readers s ∖ {[t]})) /\
  (agree s -> agree (upd_notify s (writer_notify s - 1) (readers s ∖ {[t]}))) /\ writer_notify s <> 0.
Proof.
  unfold rw_good, agree, n_readers. simpl. intros (A & B & C & D) H. rewrite size_remove by exact H.
  pose proof (size_pos _ _ H). split; [| split; lia]. split; [lia |]. split; [lia |]. split; [intros E; specialize (C E); lia | exact D].
Qed.

Lemma rw_good_enter s t : rw_good s -> agree s -> t ∉ readers s -> n_readers s < MAX_READERS -> owner s = Some t ->
  rw_good (upd_notify s (writer_notify s + 1) ({[t]} ∪ readers s)) /\
  agree (upd_notify s (writer_notify s + 1) ({[t]} ∪ readers s)).
Proof.
  unfold rw_good, agree, n_readers, MAX_READERS. simpl. intros (A & B & C & D) G H M O. rewrite size_add by exact H.
  split; [| lia]. split; [lia |]. split; [lia |]. split; [lia | exact D].
Qed.

Lemma rw_good_corrupt s : rw_good s -> owner s <> None -> rw_good (upd_notify s (2 ^ 30 - 1) (readers s)).
Proof. unfold rw_good, agree, n_readers. simpl. intros (A & B & C & D) N. split; [lia |]. split; [lia |]. split; [contradiction | exact D]. Qed.

Lemma env_owner u t s s' : u <> t -> owner s = Some t -> owner s' = Some t \/ owner s' = None -> readers s' = readers s ->
  rw_env u s s'.
Proof.
  intros N E E' Er. unfold rw_env. rewrite Er. split; [destruct E'; split; intros; congruence |].
  split; [reflexivity |]. intros; congruence.
Qed.

Definition rw_stepped (t : Z) (s s' : rwlock) (l' : rw_pc) : Prop :=
  rw_good s' /\ rw_ok t s' l' /\ forall u, valid_tid u -> u <> t -> rw_env u s s'.

Lemma rw_step_sleepers t s a b l : rw_good s -> rw_ok t s l -> rw_stepped t s (upd_sleepers s a b) l.
Proof.
  intros G (Ho & Hr & Ha). split; [exact G |]. split; [| intros u _ _; unfold rw_env; simpl; tauto].
  split; [exact Ho |]. split; [exact Hr |]. destruct l as [| | | | | | | | [|] | [|] | | | | | [|] | | |]; exact Ha.
Qed.

Lemma rw_step_same t s l : rw_good s -> rw_ok t s l -> rw_stepped t s s l.
Proof. intros G K. split; [exact G |]. split; [exact K |]. intros. apply rw_env_refl. Qed.

Lemma rw_step_mark t s ex : rw_good s -> state_word (rw_state s) -> rw_ok t s (MutexLoop ex (rw_state s)) ->
  rw_stepped t s (upd_state s (Z.lor (rw_state s) MUTEX_WAITERS_BIT) (owner s)) (MutexWait ex (rw_state s)).
Proof.
  intros G W (Ho & Hr & _). destruct (state_word_bits _ W) as (N & _ & W').
  split; [apply rw_good_state; assumption |]. split; [| intros u _ _; unfold rw_env; simpl; tauto].
  split; [exact Ho |]. split; [exact Hr | exact W].
Qed.

Lemma rw_step_acquire t s (ex : bool) : rw_good s -> rw_state s = 0 -> t ∉ readers s ->
  rw_stepped t s (upd_state s (if ex then Z.lor 1 MUTEX_EXCLUSIVE_BIT else 1) (Some t)) (if ex then WriteLoad else ReadAdd).
Proof.
  intros G Z0 N. destruct (rw_good_acquire s _ t G Z0 (desired_word ex)) as (G' & A & O).
  split; [exact G' |]. split.
  - unfold rw_ok. destruct ex; simpl; (split; [tauto |]); (split; [| exact A || exact I]); intuition discriminate.
  - intros u _ Hu. unfold rw_env. simpl. split; [split; congruence |]. split; [reflexivity | congruence].
Qed.

Lemma rw_step_enter t s : rw_good s -> rw_ok t s ReadAdd -> n_readers s < MAX_READERS ->
  rw_stepped t s (upd_notify s (writer_notify s + 1) ({[t]} ∪ readers s)) (MutexXchg ToReader).
Proof.
  intros G (Ho & Hr & Ha) M. simpl in *. assert (N : t ∉ readers s) by (intros K; apply Hr in K; discriminate).
  destruct (rw_good_enter s t G Ha N M (proj2 Ho eq_refl)) as [G' A]. split; [exact G' |]. split.
  - split; [exact Ho |]. split; [simpl; set_solver | exact A].
  - intros u _ Hu. unfold rw_env. simpl. split; [reflexivity |]. split; [set_solver |].
    intros K. rewrite (proj2 Ho eq_refl) in K. congruence.
Qed.

Lemma rw_step_release t s k l' : rw_good s -> rw_ok t s (MutexXchg k) -> l' = rw_after k \/ l' = MutexWake k ->
  rw_stepped t s (upd_state s 0 None) l'.
Proof.
  intros G (Ho & Hr & Ha) L. simpl in *. pose proof G as (B & C & _).
  assert (A : agree s) by (destruct k; [exact Ha |]; unfold agree, n_readers in *; lia).
  split; [apply rw_good_release; assumption |]. split.
  - destruct k, L as [-> | ->]; (split; [simpl; intuition discriminate |]); (split; [exact Hr | exact I]).
  - intros u _ Hu. apply (env_owner _ t); [exact Hu | apply Ho; reflexivity | right; reflexivity | reflexivity].
Qed.

Lemma rw_step_corrupt t s rc : rw_good s -> rw_ok t s (WriteLoop rc) -> rc <> 0 ->
  rw_stepped t s (upd_notify s (2 ^ 30 - 1) (readers s)) (WriteWait rc).
Proof.
  intros G (Ho & Hr & Ha) N. simpl in *. assert (O : owner s = Some t) by (apply Ho; reflexivity).
  split; [apply rw_good_corrupt; [exact G | congruence] |]. split.
  - split; [exact Ho |]. split; [exact Hr | simpl; lia].
  - intros u _ Hu. apply (env_owner _ t); [exact Hu | exact O | left; exact O | reflexivity].
Qed.

Lemma rw_step_leave t s : rw_good s -> rw_ok t s (UnlockLoop (writer_notify s)) ->
  rw_stepped t s (upd_notify s (writer_notify s - 1) (readers s ∖ {[t]})) RwIdle.
Proof.
  intros G (Ho & Hr & Ha). simpl in *. destruct (rw_good_leave s t G (proj2 Hr eq_refl)) as (G' & A & N).
  split; [exact G' |]. split.
  - split; [exact Ho |]. split; [simpl; set_solver | exact I].
  - intros u _ Hu. unfold rw_env. simpl. split; [reflexivity |]. split; [set_solver |].
    intros _. split; [exact A | lia].
Qed.

Lemma rw_step_ok t a s l s' l' : valid_tid t -> rw_good s -> rw_ok t s l -> rw_tstep t a s l = Some (s', l') ->
  rw_stepped t s s' l'.
Proof.
  intros V G (Ho & Hr & Ha) E. pose proof G as (B0 & B1 & B2 & B3).
  assert (Nz : state_word (rw_state s) \/ rw_state s = 0) by tauto.
  destruct a as [[] | |], l as [| | | ex | ex e | ex e | ex | | k | k | | rc | rc | | [] | rc | |]; simpl in E; try discriminate E.
  all: try (pose proof (rc_bits rc) as Rc; simpl in Ha).
  all: repeat match type of E with context [if ?b then _ else _] => destruct b eqn:? end; try discriminate E; injection E as <- <-.
  all: try solve [apply rw_step_same; [exact G |]; split; [exact Ho |]; split; [exact Hr |]; simpl in *; tauto || lia].

  all: rewrite ?negb_true_iff, ?negb_false_iff, ?Z.eqb_eq, ?Z.eqb_neq in *; simpl in Ho, Hr.
  all: try match goal with K : _ -> _ /\ Z.land ?rc RC_WAITERS_BIT = 0 /\ _ |- _ =>
    destruct (K ltac:(lia)) as (Rl & Rw & Rm & Rn & Ri); clear K; rewrite ?Rl, ?Rw, ?Rm, ?Rn in * end.
  all: try match goal with |- context [upd_sleepers] =>
    solve [apply rw_step_sleepers; [exact G |]; unfold rw_ok; simpl in *; try destruct k; simpl in *; tauto] end.
  all: try solve [exfalso; simpl in Ha; destruct Ha as [? | Ha]; [lia |];
    destruct (state_word_bits _ Ha) as (? & ? & ?); contradiction].
  all: try solve [exfalso; simpl in Ha; lia || tauto].
  all: try solve [eapply rw_step_release; [exact G | split; [exact Ho | split; [exact Hr | exact Ha]] | auto]].
  all: try solve [apply rw_step_corrupt; [exact G | split; [exact Ho | split; [exact Hr | exact Ha]] | assumption]].
  all: try (assert (Pos : 0 < n_readers s) by (apply (size_pos _ t), Hr; reflexivity)).
  - subst e. apply rw_step_mark; [exact G | | split; [exact Ho | split; [exact Hr | exact Ha]]].
    destruct Ha as [? | Ha]; [contradiction | exact Ha].
  - apply rw_step_same; [exact G |]. split; [exact Ho |]. split; [exact Hr |].
    destruct Ha as [? | Ha]; [contradiction | exact Ha].
  - apply (rw_step_acquire t s true); [exact G | congruence |]. intros K. apply Hr in K. discriminate.
  - apply (rw_step_acquire t s false); [exact G | congruence |]. intros K. apply Hr in K. discriminate.
  - apply rw_step_enter; [exact G | split; [exact Ho | split; [exact Hr | exact Ha]] | apply Z.ltb_lt; assumption].
  - exfalso. lia.
  - rewrite Z.lor_0_l. subst rc. apply rw_step_leave; [exact G | split; [exact Ho | split; [exact Hr | exact Ha]]].
  - apply rw_step_same; [exact G |]. split; [exact Ho |]. split; [exact Hr | simpl; lia].
  - apply rw_step_same; [exact G |]. split; [exact Ho |]. split; [exact Hr | simpl; lia].
Qed.

Lemma rw_inv c : reachable rw_tstep rw_init c -> local_inv rw_good rw_ok c.
Proof.
  apply (local_inv_reachable rw_tstep rw_good rw_ok rw_env).
  - split; [vm_compute; intuition discriminate |].
    intros t _. unfold rw_ok. simpl. repeat split; set_solver.
  - exact rw_step_ok.
  - exact rw_env_ok.
Qed.

(** ** Exclusion *)

(** C26: A readers-writer lock excludes.  In every interleaving of any number of
    threads that lock and unlock in turn, with spurious failures and wake-ups, as
    long as there are fewer than 2^30 - 1 readers: while a thread holds the lock
    for writing no other thread holds it in either way, the reader count is not
    below the number of readers, and no assertion of the code fails. *)
Theorem rwlock_exclusion c : reachable rw_tstep rw_init c ->
  (forall t u, valid_tid t -> valid_tid u -> t <> u -> locals c t = HeldWrite ->
     locals c u <> HeldWrite /\ locals c u <> HeldRead) /\
  (forall t, valid_tid t -> locals c t = HeldRead -> 0 < writer_notify (shared c)) /\
  n_readers (shared c) <= writer_notify (shared c) < 2 ^ 30 /\
  (forall t, valid_tid t -> locals c t <> RwPanic).
Proof.
  intros R. destruct (rw_inv c R) as [(B0 & B1 & _) O].
  assert (Rd : forall t, valid_tid t -> locals c t = HeldRead -> 0 < writer_notify (shared c)).
  { intros t V E. destruct (O t V) as (_ & Hr & _). rewrite E in Hr.
    pose proof (size_pos _ t (proj2 Hr eq_refl)). unfold n_readers in B1. lia. }
  split; [| split; [exact Rd | split; [lia |]]].
  - intros t u Vt Vu N E. destruct (O t Vt) as (Ht & _ & At). rewrite E in Ht, At. simpl in At. split.
    + intros Eu. destruct (O u Vu) as (Hu & _ & _). rewrite Eu in Hu. simpl in Hu, Ht.
      pose proof (proj2 Ht eq_refl). pose proof (proj2 Hu eq_refl). congruence.
    + intros Eu. specialize (Rd u Vu Eu). lia.
  - intros t V E. destruct (O t V) as (_ & _ & A). rewrite E in A. exact A.
Qed.

Definition run_of (t : Z) (n : nat) : list (Z * rw_act) := repeat (t, RwRun) n.

(** Thread 1 takes the lock for reading while thread 2 waits for it. *)
Definition read_schedule : list (Z * rw_act) := (1, RwCall RdLock) :: run_of 1 4.
Definition write_schedule : list (Z * rw_act) := (2, RwCall WrLock) :: run_of 2 4.

Definition rw_config (sched : list (Z * rw_act)) : config rwlock rw_pc :=
  match exec rw_tstep sched rw_init with Some c => c | None => rw_init end.

Lemma rwlock_exclusion_witness : locals (rw_config write_schedule) 2 = HeldWrite /\
  locals (rw_config write_schedule) 1 <> HeldWrite /\ locals (rw_config write_schedule) 1 <> HeldRead.
Proof.
  assert (E : locals (rw_config write_schedule) 2 = HeldWrite) by reflexivity.
  split; [exact E |].
  refine (proj1 (rwlock_exclusion (rw_config write_schedule) _) 2 1 _ _ _ E).
  - apply (exec_reachable rw_tstep write_schedule). reflexivity.
  - unfold valid_tid. lia.
  - unfold valid_tid. lia.
  - lia.
Defined.

(** ** A writer that met a reader never gets the lock *)

Definition spinning (l : rw_pc) : Prop :=
  match l with WriteLoad | WriteWait _ | WriteAsleep => True | WriteLoop rc => rc <> 0 | _ => False end.

Definition stuck (w : Z) (c : config rwlock rw_pc) : Prop :=
  readers (shared c) = ∅ /\ 0 < writer_notify (shared c) /\ owner (shared c) = Some w /\ spinning (locals c w).

Lemma stuck_self w a s l s' l' : readers s = ∅ -> 0 < writer_notify s -> owner s = Some w -> spinning l ->
  rw_ok w s l -> rw_tstep w a s l = Some (s', l') ->
  readers s' = ∅ /\ 0 < writer_notify s' /\ owner s' = Some w /\ spinning l'.
Proof.
  intros R N O Sp (_ & _ & Ha) E. destruct l as [| | | | | | | | | | | rc | | | | | |]; simpl in Sp; try (exfalso; exact Sp).
  all: destruct a as [[] | |]; simpl in E; try discriminate E.
  all: repeat match type of E with context [if ?b then _ else _] => destruct b eqn:? end; try discriminate E; injection E as <- <-.
  all: rewrite ?Z.eqb_eq in *; simpl in *; try (split; [exact R |]; split; [lia | split; [exact O | exact I || lia]]).
  - exfalso. destruct (rc_bits rc ltac:(lia)) as (L & _). lia.
  - destruct (rc_bits rc ltac:(lia)) as (_ & _ & M & _). rewrite M. split; [exact R |]. split; [lia | split; [exact O | exact I]].
Qed.

Lemma stuck_other w t a s l s' l' : t <> w -> readers s = ∅ -> owner s = Some w -> rw_ok t s l ->
  rw_tstep t a s l = Some (s', l') -> rw_good s ->
  readers s' = ∅ /\ writer_notify s' = writer_notify s /\ owner s' = Some w.
Proof.
  intros Nt R O (Ho & Hr & Ha) E G. rewrite R in Hr. rewrite O in Ho.
  assert (Np : owner_pc l <> true) by (intros K; apply Ho in K; congruence).
  assert (Nr : reader_pc l <> true) by (intros K; apply Hr in K; set_solver).
  assert (Nz : rw_state s <> 0) by (destruct G as (_ & _ & _ & [[_ K] | [K _]]); [congruence |]; apply (state_word_bits _ K)).
  destruct l as [| | | ex | ex e | ex e | ex | | k | k | | rc | rc | | [] | rc | |]; simpl in Np, Nr; try congruence.
  all: destruct a as [[] | |]; simpl in E; try discriminate E.
  all: repeat match type of E with context [if ?b then _ else _] => destruct b eqn:? end; try discriminate E; injection E as <- <-.
  all: try solve [split; [exact R | split; [reflexivity | exact O]]].
  all: rewrite ?negb_false_iff, ?Z.eqb_eq in *; congruence.
Qed.

Lemma stuck_forever w c c' : valid_tid w -> local_inv rw_good rw_ok c -> stuck w c -> reachable rw_tstep c c' -> stuck w c'.
Proof.
  intros Vw I0 S0 R. apply (invariant_reachable rw_tstep (fun d => local_inv rw_good rw_ok d /\ stuck w d) c) in R;
    [apply R | split; assumption |].
  intros d d' [[G O] (Er & N & Ow & Sp)] St. split.
  { pose proof (local_inv_reachable rw_tstep rw_good rw_ok rw_env d (conj G O) rw_step_ok rw_env_ok) as K.
    apply K. eapply rtc_l; [exact St | apply rtc_refl]. }
  destruct St as [d t a s' l' V T]. unfold stuck. simpl. destruct (Z.eq_dec t w) as [-> | Nt].
  - rewrite upd_same. eapply stuck_self; eauto.
  - rewrite upd_other by lia. destruct (stuck_other w t a _ _ _ _ Nt Er Ow (O t V) T G) as (A & B & C).
    rewrite B. auto.
Qed.

Definition starving_schedule : list (Z * rw_act) :=
  read_schedule ++ (2, RwCall WrLock) :: run_of 2 4 ++ (1, RwCall Unlock) :: run_of 1 2.

(** A writer that finds a reader stores [rc_expected | RC_COUNT_MASK] where
    [RC_WAITERS_BIT] is meant: the count becomes 2^30 - 1.  After the only reader
    unlocked, no schedule lets the writer finish, and as it keeps the internal
    lock no other thread gets the lock for reading or writing either. *)
Theorem rwlock_writer_starves : exists c, reachable rw_tstep rw_init c /\ readers (shared c) = ∅ /\
  locals c 1 = RwIdle /\
  forall c', reachable rw_tstep c c' -> locals c' 2 <> HeldWrite /\
    forall t, valid_tid t -> locals c' t <> HeldRead /\ locals c' t <> HeldWrite.
Proof.
  exists (rw_config starving_schedule).
  assert (R : reachable rw_tstep rw_init (rw_config starving_schedule))
    by (apply (exec_reachable rw_tstep starving_schedule); reflexivity).
  split; [exact R |]. split; [reflexivity |]. split; [reflexivity |]. intros c' R'.
  assert (S : stuck 2 c').
  { apply (stuck_forever 2 (rw_config starving_schedule)); [unfold valid_tid; lia | apply rw_inv, R | | exact R'].
    vm_compute. repeat split. }
  destruct S as (Er & _ & Ow & Sp). split; [intros E; rewrite E in Sp; exact Sp |].
  intros t V. destruct (rw_inv c' (rtc_trans _ _ _ R R')) as [_ O].
  destruct (O t V) as (Ho & Hr & _). split; intros E; rewrite E in Ho, Hr; simpl in Ho, Hr.
  - rewrite Er in Hr. pose proof (proj2 Hr eq_refl). set_solver.
  - pose proof (proj2 Ho eq_refl) as K. rewrite Ow in K. injection K as <-. rewrite E in Sp. exact Sp.
Qed.
