(* ===== verification/ThreadKeys.v ===== *)
(** * Thread-specific data

    The key table [KEYS] and the per-thread slots [Tcb::keys] of
    [src/src/internal/thread.cpp]: [thread_key_create], [thread_key_delete],
    [thread_getspecific], [thread_setspecific] and [thread_call_destructors],
    with the wrappers of [src/src/ansi/threads.cpp].  Every operation but the last
    runs under [KEYS_MUTEX] from its first access to its last, so a history is a
    sequence of whole operations of any threads.  Pointers are [Z], [0] the null
    pointer; [destructor] bodies are a parameter, the operations they call. *)

From S2P Require Import Prelude Threads.

#[local] Open Scope Z_scope.

Definition PTHREAD_KEYS_MAX : Z := 1024.
Definition PTHREAD_DESTRUCTOR_ITERATIONS : nat := 4.
Definition EAGAIN : Z := 11.
Definition EINVAL : Z := 22.

Record Key := { destructor : Z; generation : Z; used : bool }.
Record LocalKey := { lgeneration : Z; lvalue : Z }.

(** The table, and the slots of every thread. *)
Record keys := { KEYS : Z -> Key; tcb_keys : Z -> Z -> LocalKey }.

Definition keys_init : keys :=
  {| KEYS := fun _ => {| destructor := 0; generation := 0; used := false |};
     tcb_keys := fun _ _ => {| lgeneration := 0; lvalue := 0 |} |}.

Inductive key_op :=
| KeyCreate (d : Z)
| KeyDelete (key : Z)
| GetSpecific (key : Z)
| SetSpecific (key value : Z).

Inductive key_result :=
| Created (key : Z)
| Value (v : Z)
| Done
| Failed (err : Z)
| Panicked.

Definition set_key (s : keys) (k : Z) (x : Key) : keys := {| KEYS := upd (KEYS s) k x; tcb_keys := tcb_keys s |}.
Definition set_local (s : keys) (t k : Z) (x : LocalKey) : keys :=
  {| KEYS := KEYS s; tcb_keys := upd (tcb_keys s) t (upd (tcb_keys s t) k x) |}.

(** The loop of [thread_key_create], from index [i] with [n] entries left. *)
Fixpoint create_loop (s : keys) (d : Z) (i : Z) (n : nat) : keys * key_result :=
  match n with
  | O => (s, Failed EAGAIN)
  | S n =>
    if negb (used (KEYS s i)) then
      (set_key s i {| destructor := d; generation := s32 (generation (KEYS s i) + 1); used := true |}, Created i)
    else create_loop s d (i + 1) n
  end.

Definition thread_key_create (s : keys) (d : Z) : keys * key_result :=
  create_loop s d 0 (Z.to_nat PTHREAD_KEYS_MAX).

Definition thread_key_delete (s : keys) (key : Z) : keys * key_result :=
  if PTHREAD_KEYS_MAX <=? key then (s, Failed EINVAL)
  else if negb (used (KEYS s key)) then (s, Failed EINVAL)
  else (set_key s key {| destructor := 0; generation := generation (KEYS s key); used := false |}, Done).

Definition thread_getspecific (t : Z) (s : keys) (key : Z) : keys * key_result :=
  if (PTHREAD_KEYS_MAX <=? key) || negb (used (KEYS s key)) then (s, Panicked)
  else
    let global := KEYS s key in
    let local := tcb_keys s t key in
    if negb (lgeneration local =? generation global)
    then (set_local s t key {| lgeneration := generation global; lvalue := 0 |}, Value 0)
    else (s, Value (lvalue local)).

Definition thread_setspecific (t : Z) (s : keys) (key value : Z) : keys * key_result :=
  if (PTHREAD_KEYS_MAX <=? key) || negb (used (KEYS s key)) then (s, Failed EINVAL)
  else (set_local s t key {| lgeneration := generation (KEYS s key); lvalue := value |}, Done).

Definition key_step (t : Z) (s : keys) (o : key_op) : keys * key_result :=
  match o with
  | KeyCreate d => thread_key_create s d
  | KeyDelete k => thread_key_delete s k
  | GetSpecific k => thread_getspecific t s k
  | SetSpecific k v => thread_setspecific t s k v
  end.

Fixpoint key_run (t : Z) (s : keys) (l : list key_op) : keys * list key_result :=
  match l with
  | [] => (s, [])
  | o :: l => let '(s, r) := key_step t s o in let '(s, rs) := key_run t s l in (s, r :: rs)
  end.

(** What one thread does, and what can be seen of it: the results of its calls and
    the destructors that run when it ends, each with its argument and the results
    of the calls it makes.  [ThreadExit] is an exit during which no other thread runs;
    [ExitTurn] is one turn of the loop over the keys up to the call of the
    destructor, so that an exit can also be written as its turns, with the calls of
    the destructors and the calls of other threads in between: KEYS_MUTEX is held
    only while one key is looked at. *)
Inductive thread_op := ThreadCall (o : key_op) | ExitTurn (key : Z) | ThreadExit.
Inductive event := Returned (r : key_result) | Destroyed (d v : Z) (rs : list key_result).

(** One turn of the inner loop of [thread_call_destructors]: the destructor to call and
    its argument, whose slot is cleared. *)
Definition take_value (t : Z) (s : keys) (i : Z) : option (Z * Z * keys) :=
  let global := KEYS s i in
  let local := tcb_keys s t i in
  if negb (used global) || negb (generation global =? lgeneration local) || (lvalue local =? 0) then None
  else if destructor global =? 0 then None
  else Some (destructor global, lvalue local, set_local s t i {| lgeneration := lgeneration local; lvalue := 0 |}).

Definition exit_turn (t : Z) (s : keys) (i : Z) : keys * list event :=
  match take_value t s i with None => (s, []) | Some (d, v, s) => (s, [Destroyed d v []]) end.

Section Destructors.
Context (body : Z -> Z -> list key_op).

(** The turn with the destructor. *)
Definition destroy_key (t : Z) (s : keys) (i : Z) : keys * list event :=
  match take_value t s i with
  | None => (s, [])
  | Some (d, v, s) => let '(s, rs) := key_run t s (body d v) in (s, [Destroyed d v rs])
  end.

Fixpoint destroy_keys (t : Z) (s : keys) (i : Z) (n : nat) : keys * list event :=
  match n with
  | O => (s, [])
  | S n => let '(s, e) := destroy_key t s i in let '(s, es) := destroy_keys t s (i + 1) n in (s, e ++ es)
  end.

Fixpoint destroy_iterations (t : Z) (s : keys) (iterations : nat) : keys * list event :=
  match iterations with
  | O => (s, [])
  | S m =>
    let '(s, e) := destroy_keys t s 0 (Z.to_nat PTHREAD_KEYS_MAX) in
    let '(s, es) := destroy_iterations t s m in (s, e ++ es)
  end.

Definition thread_call_destructors (t : Z) (s : keys) : keys * list event :=
  destroy_iterations t s PTHREAD_DESTRUCTOR_ITERATIONS.

Definition thread_step (t : Z) (s : keys) (o : thread_op) : keys * list event :=
  match o with
  | ThreadCall o => let '(s, r) := key_step t s o in (s, [Returned r])
  | ExitTurn k => exit_turn t s k
  | ThreadExit => thread_call_destructors t s
  end.

Fixpoint history (s : keys) (l : list (Z * thread_op)) : keys * list event :=
  match l with
  | [] => (s, [])
  | (t, o) :: l => let '(s, e) := thread_step t s o in let '(s, es) := history s l in (s, e ++ es)
  end.

(** ** The specification

    A key is live or not, with a destructor; every thread has one value per live
    key, null when the key is created.  There are no generations, and a value of a
    deleted key is gone. *)
Record skeys := { live : Z -> option Z; value : Z -> Z -> Z; created : Z }.

Definition skeys_init : skeys := {| live := fun _ => None; value := fun _ _ => 0; created := 0 |}.

Fixpoint first_free (a : skeys) (i : Z) (n : nat) : option Z :=
  match n with
  | O => None
  | S n => match live a i with None => Some i | Some _ => first_free a (i + 1) n end
  end.

Definition spec_step (t : Z) (a : skeys) (o : key_op) : skeys * key_result :=
  match o with
  | KeyCreate d =>
    match first_free a 0 (Z.to_nat PTHREAD_KEYS_MAX) with
    | None => (a, Failed EAGAIN)
    | Some k => ({| live := upd (live a) k (Some d); value := fun u => upd (value a u) k 0; created := created a + 1 |},
                 Created k)
    end
  | KeyDelete k =>
    match live a k with
    | None => (a, Failed EINVAL)
    | Some _ => ({| live := upd (live a) k None; value := value a; created := created a |}, Done)
    end
  | GetSpecific k => match live a k with None => (a, Panicked) | Some _ => (a, Value (value a t k)) end
  | SetSpecific k v =>
    match live a k with
    | None => (a, Failed EINVAL)
    | Some _ => ({| live := live a; value := upd (value a) t (upd (value a t) k v); created := created a |}, Done)
    end
  end.

Fixpoint spec_run (t : Z) (a : skeys) (l : list key_op) : skeys * list key_result :=
  match l with
  | [] => (a, [])
  | o :: l => let '(a, r) := spec_step t a o in let '(a, rs) := spec_run t a l in (a, r :: rs)
  end.

(** A live key with a destructor and a value that is not null: the value is set to
    null and the destructor called. *)
Definition spec_take (t : Z) (a : skeys) (k : Z) : option (Z * Z * skeys) :=
  match live a k with
  | Some d =>
    if (d =? 0) || (value a t k =? 0) then None
    else Some (d, value a t k, {| live := live a; value := upd (value a) t (upd (value a t) k 0); created := created a |})
  | None => None
  end.

Definition spec_turn (t : Z) (a : skeys) (k : Z) : skeys * list event :=
  match spec_take t a k with None => (a, []) | Some (d, v, a) => (a, [Destroyed d v []]) end.

Definition spec_destroy (t : Z) (a : skeys) (k : Z) : skeys * list event :=
  match spec_take t a k with
  | None => (a, [])
  | Some (d, v, a) => let '(a, rs) := spec_run t a (body d v) in (a, [Destroyed d v rs])
  end.

Fixpoint spec_destroys (t : Z) (a : skeys) (i : Z) (n : nat) : skeys * list event :=
  match n with
  | O => (a, [])
  | S n => let '(a, e) := spec_destroy t a i in let '(a, es) := spec_destroys t a (i + 1) n in (a, e ++ es)
  end.

Fixpoint spec_exit (t : Z) (a : skeys) (iterations : nat) : skeys * list event :=
  match iterations with
  | O => (a, [])
  | S m =>
    let '(a, e) := spec_destroys t a 0 (Z.to_nat PTHREAD_KEYS_MAX) in
    let '(a, es) := spec_exit t a m in (a, e ++ es)
  end.

Definition spec_thread (t : Z) (a : skeys) (o : thread_op) : skeys * list event :=
  match o with
  | ThreadCall o => let '(a, r) := spec_step t a o in (a, [Returned r])
  | ExitTurn k => spec_turn t a k
  | ThreadExit => spec_exit t a PTHREAD_DESTRUCTOR_ITERATIONS
  end.

Fixpoint spec_history (a : skeys) (l : list (Z * thread_op)) : skeys * list event :=
  match l with
  | [] => (a, [])
  | (t, o) :: l => let '(a, e) := spec_thread t a o in let '(a, es) := spec_history a l in (a, e ++ es)
  end.

(** ** The simulation *)
Record sim (s : keys) (a : skeys) : Prop := {
  sim_live : forall k, live a k = if used (KEYS s k) then Some (destructor (KEYS s k)) else None;
  sim_range : forall k, PTHREAD_KEYS_MAX <= k -> live a k = None;
  sim_gen : forall k, 0 <= generation (KEYS s k) <= created a;
  sim_old : forall t k, lgeneration (tcb_keys s t k) <= generation (KEYS s k);
  sim_value : forall t k, used (KEYS s k) = true ->
    value a t k = if lgeneration (tcb_keys s t k) =? generation (KEYS s k) then lvalue (tcb_keys s t k) else 0
}.

Lemma sim_init : sim keys_init skeys_init.
Proof. split; simpl; intros; try reflexivity; try lia; discriminate. Qed.

(** A step of both sides with equal observations; the bound on the number of keys
    created keeps the [int] generations from overflowing. *)
Definition matched {O} (p : keys * O) (q : skeys * O) : Prop :=
  created (fst q) < 2 ^ 31 -> sim (fst p) (fst q) /\ snd p = snd q.

Lemma create_first_free d s a n i : sim s a ->
  create_loop s d i n = match first_free a i n with
    | None => (s, Failed EAGAIN)
    | Some k => (set_key s k {| destructor := d; generation := s32 (generation (KEYS s k) + 1); used := true |}, Created k)
    end.
Proof.
  intros R. revert i. induction n as [| n IH]; intros i; simpl; [reflexivity |].
  rewrite (sim_live s a R i). destruct (used (KEYS s i)); simpl; [apply IH | reflexivity].
Qed.

Lemma first_free_range a n : forall i k, first_free a i n = Some k -> live a k = None /\ i <= k < i + Z.of_nat n.
Proof.
  induction n as [| n IH]; intros i k E; simpl in E; [discriminate |].
  destruct (live a i) eqn:L; [apply IH in E; destruct E as [? ?]; split; [assumption | lia] |].
  injection E as <-. split; [exact L | lia].
Qed.

Lemma sim_create s a k d : sim s a -> live a k = None -> 0 <= k < PTHREAD_KEYS_MAX -> created a + 1 < 2 ^ 31 ->
  sim (set_key s k {| destructor := d; generation := s32 (generation (KEYS s k) + 1); used := true |})
      {| live := upd (live a) k (Some d); value := fun u => upd (value a u) k 0; created := created a + 1 |}.
Proof.
  intros R L Hk B. pose proof (sim_gen s a R) as G. pose proof (sim_old s a R) as O.
  rewrite wraps_small by (unfold is_s, smin, smax; specialize (G k); lia).
  split; simpl; unfold upd.
  - intros j. destruct (Z.eqb_spec j k); [reflexivity | apply (sim_live s a R)].
  - intros j Hj. destruct (Z.eqb_spec j k); [lia | apply (sim_range s a R), Hj].
  - intros j. destruct (Z.eqb_spec j k); subst; simpl; specialize (G j) || specialize (G k); lia.
  - intros t j. specialize (O t j). destruct (Z.eqb_spec j k); subst; simpl; lia.
  - intros t j. specialize (O t j). destruct (Z.eqb_spec j k) as [E |]; [subst j; simpl; intros _ | apply (sim_value s a R)].
    destruct (Z.eqb_spec (lgeneration (tcb_keys s t k)) (generation (KEYS s k) + 1)); [lia | reflexivity].
Qed.

Lemma sim_delete s a k : sim s a ->
  sim (set_key s k {| destructor := 0; generation := generation (KEYS s k); used := false |})
      {| live := upd (live a) k None; value := value a; created := created a |}.
Proof.
  intros R. split; simpl; unfold upd.
  - intros j. destruct (Z.eqb_spec j k); [reflexivity | apply (sim_live s a R)].
  - intros j Hj. destruct (Z.eqb_spec j k); [reflexivity | apply (sim_range s a R), Hj].
  - intros j. destruct (Z.eqb_spec j k); subst; simpl; apply (sim_gen s a R).
  - intros t j. destruct (Z.eqb_spec j k); subst; simpl; apply (sim_old s a R).
  - intros t j U. destruct (Z.eqb_spec j k); [discriminate | apply (sim_value s a R), U].
Qed.

(** Writing the slot of a thread under the current generation. *)
Lemma sim_set s a t k v : sim s a -> used (KEYS s k) = true ->
  sim (set_local s t k {| lgeneration := generation (KEYS s k); lvalue := v |})
      {| live := live a; value := upd (value a) t (upd (value a t) k v); created := created a |}.
Proof.
  intros R U. split; simpl; try apply R; unfold upd.
  - intros t' j. destruct (Z.eqb_spec t' t); subst; [destruct (Z.eqb_spec j k); subst; simpl |]; try apply (sim_old s a R); lia.
  - intros t' j U'. destruct (Z.eqb_spec t' t); subst; [destruct (Z.eqb_spec j k); subst; simpl |];
      try apply (sim_value s a R); try assumption. rewrite Z.eqb_refl. reflexivity.
Qed.

(** Reading through a stale slot resets it; the value was null already. *)
Lemma sim_stale s a t k : sim s a -> used (KEYS s k) = true -> lgeneration (tcb_keys s t k) <> generation (KEYS s k) ->
  sim (set_local s t k {| lgeneration := generation (KEYS s k); lvalue := 0 |}) a.
Proof.
  intros R U N. pose proof (sim_set s a t k 0 R U) as Q. split; try apply Q; try apply R.
  intros t' j U'. rewrite <- (sim_value _ _ Q t' j U'). simpl. unfold upd.
  destruct (Z.eqb_spec t' t); subst; [destruct (Z.eqb_spec j k); subst |]; try reflexivity.
  rewrite (sim_value s a R t k U). apply Z.eqb_neq in N. rewrite N. reflexivity.
Qed.

Lemma live_test s a key : sim s a ->
  (PTHREAD_KEYS_MAX <=? key) || negb (used (KEYS s key)) = match live a key with None => true | Some _ => false end.
Proof.
  intros R. destruct (Z.leb_spec PTHREAD_KEYS_MAX key); [rewrite (sim_range s a R) by assumption; reflexivity |].
  rewrite (sim_live s a R). destruct (used (KEYS s key)); reflexivity.
Qed.

Lemma live_used s a key d : sim s a -> live a key = Some d -> used (KEYS s key) = true /\ destructor (KEYS s key) = d.
Proof. intros R L. rewrite (sim_live s a R) in L. destruct (used (KEYS s key)); [injection L; auto | discriminate]. Qed.

Lemma key_step_sim t s a o : sim s a -> matched (key_step t s o) (spec_step t a o).
Proof.
  intros R. unfold matched. destruct o as [d | k | k | k v]; cbn [key_step spec_step].
  - unfold thread_key_create. rewrite (create_first_free d s a _ _ R).
    destruct (first_free a 0 _) as [k |] eqn:F; cbn [fst snd created]; [| tauto].
    destruct (first_free_range _ _ _ _ F) as [L Hk]. intros B. split; [| reflexivity].
    apply sim_create; [exact R | exact L | unfold PTHREAD_KEYS_MAX in *; lia | exact B].
  - pose proof (live_test s a k R) as T. unfold thread_key_delete. destruct (live a k) as [d |] eqn:L.
    + apply orb_false_iff in T as [-> ->]. simpl. intros _. split; [apply sim_delete, R | reflexivity].
    + intros _. destruct (PTHREAD_KEYS_MAX <=? k); simpl in T; [auto |]. rewrite T. auto.
  - unfold thread_getspecific. rewrite (live_test s a k R). destruct (live a k) as [d |] eqn:L; simpl; [| tauto].
    intros _. destruct (live_used _ _ _ _ R L) as [U _]. rewrite (sim_value s a R t k U).
    destruct (Z.eqb_spec (lgeneration (tcb_keys s t k)) (generation (KEYS s k))); simpl; [auto |].
    split; [apply sim_stale; assumption | reflexivity].
  - unfold thread_setspecific. rewrite (live_test s a k R). destruct (live a k) as [d |] eqn:L; simpl; [| tauto].
    intros _. destruct (live_used _ _ _ _ R L) as [U _]. split; [apply sim_set; assumption | reflexivity].
Qed.

(** The number of keys created never decreases, so a bound at the end holds
    throughout. *)
Lemma spec_step_created t a o : created a <= created (fst (spec_step t a o)).
Proof.
  destruct o as [d | k | k | k v]; cbn [spec_step]; [destruct (first_free _ _ _) | destruct (live a k) ..]; simpl; lia.
Qed.
Lemma spec_run_created t l : forall a, created a <= created (fst (spec_run t a l)).
Proof.
  induction l as [| o l IH]; intros a; simpl; [lia |]. pose proof (spec_step_created t a o) as H.
  destruct (spec_step t a o) as [a1 r]. specialize (IH a1). destruct (spec_run t a1 l). simpl in *. lia.
Qed.

Lemma spec_take_created t a k d v a' : spec_take t a k = Some (d, v, a') -> created a' = created a.
Proof.
  unfold spec_take. destruct (live a k); [| discriminate]. destruct (_ || _); [discriminate |]. intros [= _ _ <-]. reflexivity.
Qed.

Lemma spec_destroy_created t a k : created a <= created (fst (spec_destroy t a k)).
Proof.
  unfold spec_destroy. destruct (spec_take t a k) as [[[d v] a'] |] eqn:E; [| simpl; lia].
  rewrite <- (spec_take_created _ _ _ _ _ _ E).
  pose proof (spec_run_created t (body d v) a'). destruct (spec_run t a' _). assumption.
Qed.

Lemma spec_turn_created t a k : created a <= created (fst (spec_turn t a k)).
Proof.
  unfold spec_turn. destruct (spec_take t a k) as [[[d v] a'] |] eqn:E; simpl; [| lia].
  rewrite (spec_take_created _ _ _ _ _ _ E). lia.
Qed.

Lemma spec_destroys_created t n : forall a i, created a <= created (fst (spec_destroys t a i n)).
Proof.
  induction n as [| n IH]; intros a i; simpl; [lia |]. pose proof (spec_destroy_created t a i) as H.
  destruct (spec_destroy t a i) as [a1 e]. specialize (IH a1 (i + 1)). destruct (spec_destroys t a1 (i + 1) n). simpl in *. lia.
Qed.

Lemma spec_exit_created t n : forall a, created a <= created (fst (spec_exit t a n)).
Proof.
  induction n as [| n IH]; intros a; cbn [spec_exit]; [simpl; lia |].
  pose proof (spec_destroys_created t (Z.to_nat PTHREAD_KEYS_MAX) a 0) as H.
  destruct (spec_destroys t a 0 _) as [a1 e]. specialize (IH a1). destruct (spec_exit t a1 n). simpl in *. lia.
Qed.

Lemma spec_thread_created t a o : created a <= created (fst (spec_thread t a o)).
Proof.
  destruct o as [o | k |]; cbn [spec_thread]; [| apply spec_turn_created | apply spec_exit_created].
  pose proof (spec_step_created t a o). destruct (spec_step t a o). assumption.
Qed.

Lemma spec_history_created l : forall a, created a <= created (fst (spec_history a l)).
Proof.
  induction l as [| [t o] l IH]; intros a; cbn [spec_history]; [simpl; lia |]. pose proof (spec_thread_created t a o) as H.
  destruct (spec_thread t a o) as [a1 e]. specialize (IH a1). destruct (spec_history a1 l). simpl in *. lia.
Qed.

(** Sequences of matched steps are matched. *)
Lemma matched_seq {O Q P} (p : keys * O) (q : skeys * O) (f : keys -> keys * Q) (g : skeys -> skeys * Q) (h : O -> Q -> P) :
  matched p q -> (forall a, created a <= created (fst (g a))) ->
  (forall s a, sim s a -> matched (f s) (g a)) ->
  matched (let '(s, o) := p in let '(s', o') := f s in (s', h o o'))
          (let '(a, o) := q in let '(a', o') := g a in (a', h o o')).
Proof.
  intros M Mono K. unfold matched in *. destruct p as [s o], q as [a o2]. specialize (Mono a). specialize (K s a).
  destruct (f s) as [s' e], (g a) as [a' e']. simpl in *. intros B.
  destruct (M ltac:(lia)) as [R ->]. destruct (K R B) as [R' ->]. auto.
Qed.

Lemma key_run_sim t l : forall s a, sim s a -> matched (key_run t s l) (spec_run t a l).
Proof.
  induction l as [| o l IH]; intros s a R; [intros _; auto |].
  apply (matched_seq _ _ (fun s => key_run t s l) (fun a => spec_run t a l) cons (key_step_sim t s a o R));
    [apply spec_run_created | exact IH].
Qed.

(** Both sides find the same destructor and argument, or nothing to do. *)
Lemma take_sim t s a k : sim s a ->
  match take_value t s k, spec_take t a k with
  | Some (d, v, s'), Some (d', v', a') => d = d' /\ v = v' /\ sim s' a'
  | None, None => True
  | _, _ => False
  end.
Proof.
  intros R. unfold take_value, spec_take. destruct (live a k) as [d |] eqn:L.
  2: { rewrite (sim_live s a R) in L. destruct (used (KEYS s k)); [discriminate | exact I]. }
  destruct (live_used _ _ _ _ R L) as [U D]. rewrite U, D, (sim_value s a R t k U), (Z.eqb_sym (generation _)). simpl.
  destruct (Z.eqb_spec (lgeneration (tcb_keys s t k)) (generation (KEYS s k))) as [E |]; simpl; [| rewrite orb_true_r; exact I].
  destruct (lvalue (tcb_keys s t k) =? 0); [rewrite orb_true_r; exact I |].
  destruct (d =? 0); [exact I |]. simpl. rewrite E. split; [reflexivity |]. split; [reflexivity | exact (sim_set s a t k 0 R U)].
Qed.

Lemma exit_turn_sim t s a k : sim s a -> matched (exit_turn t s k) (spec_turn t a k).
Proof.
  intros R. pose proof (take_sim t s a k R) as T. unfold exit_turn, spec_turn, matched.
  destruct (take_value t s k) as [[[d v] s'] |], (spec_take t a k) as [[[d' v'] a'] |]; try contradiction; [| intros _; auto].
  destruct T as (-> & -> & T). intros _. auto.
Qed.

Lemma destroy_key_sim t s a k : sim s a -> matched (destroy_key t s k) (spec_destroy t a k).
Proof.
  intros R. pose proof (take_sim t s a k R) as T. unfold destroy_key, spec_destroy.
  destruct (take_value t s k) as [[[d v] s'] |], (spec_take t a k) as [[[d' v'] a'] |]; try contradiction; [| intros _; auto].
  destruct T as (-> & -> & T). pose proof (key_run_sim t (body d' v') _ _ T) as M. unfold matched in *.
  destruct (key_run t s' _), (spec_run t a' _). simpl in *. intros B. destruct (M B) as [? ->]. auto.
Qed.

Lemma destroy_keys_sim t n : forall i s a, sim s a -> matched (destroy_keys t s i n) (spec_destroys t a i n).
Proof.
  induction n as [| n IH]; intros i s a R; [intros _; auto |].
  apply (matched_seq _ _ (fun s => destroy_keys t s (i + 1) n) (fun a => spec_destroys t a (i + 1) n) app
    (destroy_key_sim t s a i R)); [intros b; apply spec_destroys_created | apply IH].
Qed.

Lemma exit_sim t n : forall s a, sim s a -> matched (destroy_iterations t s n) (spec_exit t a n).
Proof.
  induction n as [| n IH]; intros s a R; [intros _; auto |].
  apply (matched_seq _ _ (fun s => destroy_iterations t s n) (fun a => spec_exit t a n) app
    (destroy_keys_sim t (Z.to_nat PTHREAD_KEYS_MAX) 0 s a R)); [apply spec_exit_created | exact IH].
Qed.

Lemma thread_step_sim t s a o : sim s a -> matched (thread_step t s o) (spec_thread t a o).
Proof.
  intros R. destruct o as [o | k |]; cbn [thread_step spec_thread]; [| apply exit_turn_sim, R | apply exit_sim, R].
  pose proof (key_step_sim t s a o R) as M. unfold matched in *.
  destruct (key_step t s o), (spec_step t a o). simpl in *. intros B. destruct (M B) as [? ->]. auto.
Qed.

Lemma history_sim l : forall s a, sim s a -> matched (history s l) (spec_history a l).
Proof.
  induction l as [| [t o] l IH]; intros s a R; [intros _; auto |].
  apply (matched_seq _ _ (fun s => history s l) (fun a => spec_history a l) app (thread_step_sim t s a o R));
    [apply spec_history_created | exact IH].
Qed.

(** C36: Thread-specific data refines its specification.  For any history of calls
    and exits of any threads, with any destructors, in which fewer than 2^31 keys
    are created, and in which an exit is one operation or one turn per key with other
    operations in between: every result, every destructor run and the results of the calls it
    makes are those of the specification, where a key is live or not and every
    thread has one value per live key, null from the creation of the key on.  So
    no value of a deleted key is seen through a later key in the same slot. *)
Theorem thread_keys_refine l :
  created (fst (spec_history skeys_init l)) < 2 ^ 31 ->
  snd (history keys_init l) = snd (spec_history skeys_init l).
Proof. intros B. apply (history_sim l _ _ sim_init B). Qed.

End Destructors.

(** Thread 1 sets a value under a key; the key is deleted and created again in the
    same slot; thread 1 reads null, sets another value and exits. *)
Definition reuse_history : list (Z * thread_op) :=
  [(1, ThreadCall (KeyCreate 7)); (1, ThreadCall (SetSpecific 0 5)); (2, ThreadCall (KeyDelete 0));
   (2, ThreadCall (KeyCreate 8)); (1, ThreadCall (GetSpecific 0)); (1, ThreadCall (SetSpecific 0 6)); (1, ThreadExit)].

(** The destructor sets the key again while the value is positive. *)
Definition again (d v : Z) : list key_op := if 5 <? v then [SetSpecific 0 (v - 1)] else [].

Lemma thread_keys_refine_witness :
  snd (history again keys_init reuse_history) =
  [Returned (Created 0); Returned Done; Returned Done; Returned (Created 0); Returned (Value 0); Returned Done;
   Destroyed 8 6 [Done]; Destroyed 8 5 []].
Proof. rewrite (thread_keys_refine again reuse_history); vm_compute; reflexivity. Defined.

(** ** The wrappers of [threads.h] *)
Definition thrd_success : Z := 0.
Definition thrd_error : Z := 2.

Definition tss_status (r : key_result) : option Z :=
  match r with Created _ | Done | Value _ => Some thrd_success | Failed _ => Some thrd_error | Panicked => None end.

Definition tss_create (s : keys) (d : Z) : keys * option Z :=
  let '(s, r) := thread_key_create s d in (s, tss_status r).
Definition tss_set (t : Z) (s : keys) (key v : Z) : keys * option Z :=
  let '(s, r) := thread_setspecific t s key v in (s, tss_status r).
Definition tss_get (t : Z) (s : keys) (key : Z) : keys * key_result := thread_getspecific t s key.
Definition tss_delete (s : keys) (key : Z) : keys := fst (thread_key_delete s key).
