(* ===== verification/Cond.v ===== *)
(** * Condition variables

    [thread_cond_wait], [thread_cond_timedwait], [thread_cond_signal] and
    [thread_cond_broadcast] of [src/src/internal/thread.cpp] (and
    [pthread_cond_clockwait] of [src/src/posix/pthread.cpp], the same loop with
    another clock), as threads over the futex of the condition and a mutex.  The
    mutex is its interface: one atomic step takes it when it is free and one
    gives it back, what the mutex component guarantees of [manual_lock] and
    [manual_unlock].  Ghost fields count the increments of the futex, hold the
    number of the last wake-up that left the wait queue empty, and record for each
    thread how many increments there were when it last gave back the mutex, by
    whatever call ([give_back]). *)

From stdpp Require Import gmap relations.
From S2P Require Import Prelude Threads.

#[local] Open Scope Z_scope.

Definition EINTR : Z := 4.
Definition EAGAIN : Z := 11.
Definition ETIMEDOUT : Z := 110.

Record cond := {
  futex : Z;
  cond_sleepers : gset Z;
  holder : option Z;       (* the mutex *)
  adds : Z;                (* ghost: increments of [futex] *)
  last_clear : Z;          (* ghost: number of the last broadcast, or signal that woke no one *)
  gave_back : gmap Z Z     (* ghost: [adds] when a thread last gave back the mutex *)
}.

Inductive cond_pc :=
| CIdle
| CHeld
| CRet (err : Z)                             (* a wait returned [err], mutex held *)
| CClock                                     (* timedwait: compare the clock *)
| CLoad (timed : bool)
| CUnlock (timed : bool) (value at_ : Z)
| CSleep (timed : bool) (value at_ : Z)
| CAsleep (timed : bool) (at_ : Z)
| CRelock (timed : bool) (err : Z)
| CAdd (all held : bool)
| CWake (all held : bool) (number : Z).

Inductive cond_op := CLock | CUnlockOp | CWait | CTimedWait | CSignal | CBroadcast.
Inductive cond_act :=
| CCall (o : cond_op)
| CRun
| CExpire                 (* the clock is past the timeout *)
| CErr (err : Z)          (* the clock or the futex call ends with an error *)
| CPick (u : Z).          (* whom the kernel wakes *)

Definition set_holder (s : cond) (h : option Z) : cond :=
  {| futex := futex s; cond_sleepers := cond_sleepers s; holder := h; adds := adds s; last_clear := last_clear s; gave_back := gave_back s |}.
Definition set_sleepers (s : cond) (x : gset Z) : cond :=
  {| futex := futex s; cond_sleepers := x; holder := holder s; adds := adds s; last_clear := last_clear s; gave_back := gave_back s |}.
(** [thread_mutex_unlock]. *)
Definition give_back (t : Z) (s : cond) : cond :=
  {| futex := futex s; cond_sleepers := cond_sleepers s; holder := None; adds := adds s; last_clear := last_clear s;
     gave_back := <[t := adds s]> (gave_back s) |}.

Definition rest (held : bool) : cond_pc := if held then CHeld else CIdle.

Definition cond_tstep (t : Z) (a : cond_act) (s : cond) (l : cond_pc) : option (cond * cond_pc) :=
  match a, l with
  | CCall CLock, CIdle => if decide (holder s = None) then Some (set_holder s (Some t), CHeld) else None
  | CCall CUnlockOp, CHeld => Some (give_back t s, CIdle)
  | CCall CWait, CHeld => Some (s, CLoad false)
  | CCall CTimedWait, CHeld => Some (s, CClock)
  | CCall CSignal, CIdle => Some (s, CAdd false false)
  | CCall CSignal, CHeld => Some (s, CAdd false true)
  | CCall CBroadcast, CIdle => Some (s, CAdd true false)
  | CCall CBroadcast, CHeld => Some (s, CAdd true true)
  | CRun, CRet _ => Some (s, CHeld)
  (* thread_cond_wait, thread_cond_timedwait *)
  | CErr err, CClock => if err =? 0 then None else Some (s, CRet err)
  | CExpire, CClock => Some (s, CRet ETIMEDOUT)
  | CRun, CClock => Some (s, CLoad true)
  | CRun, CLoad timed => Some (s, CUnlock timed (futex s) (adds s))
  | CRun, CUnlock timed v e => Some (give_back t s, CSleep timed v e)
  | CRun, CSleep timed v e =>
      if futex s =? v then Some (set_sleepers s ({[t]} ∪ cond_sleepers s), CAsleep timed e)
      else Some (s, CRelock timed EAGAIN)
  | CRun, CAsleep timed e => if decide (t ∈ cond_sleepers s) then None else Some (s, CRelock timed 0)
  | CErr err, CSleep timed v e =>
      if (err =? ETIMEDOUT) && negb timed then None else Some (s, CRelock timed err)
  | CErr err, CAsleep timed e =>
      if (err =? ETIMEDOUT) && negb timed then None
      else Some (set_sleepers s (cond_sleepers s ∖ {[t]}), CRelock timed err)
  | CRun, CRelock timed err =>
      if decide (holder s = None) then
        let s := set_holder s (Some t) in
        if negb timed then Some (s, CRet 0)
        else if err =? ETIMEDOUT then Some (s, CRet ETIMEDOUT)
        else if err =? EINTR then Some (s, CClock)
        else Some (s, CRet 0)
      else None
  (* thread_cond_signal, thread_cond_broadcast *)
  | CRun, CAdd all held =>
      Some ({| futex := s32 (futex s + 1); cond_sleepers := cond_sleepers s; holder := holder s; adds := adds s + 1;
               last_clear := last_clear s; gave_back := gave_back s |}, CWake all held (adds s + 1))
  | CRun, CWake true held n =>
      Some ({| futex := futex s; cond_sleepers := ∅; holder := holder s; adds := adds s;
               last_clear := Z.max n (last_clear s); gave_back := gave_back s |}, rest held)
  | CRun, CWake false held n =>
      if decide (cond_sleepers s = ∅)
      then Some ({| futex := futex s; cond_sleepers := cond_sleepers s; holder := holder s; adds := adds s;
                    last_clear := Z.max n (last_clear s); gave_back := gave_back s |}, rest held)
      else None
  | CPick u, CWake false held n =>
      if decide (u ∈ cond_sleepers s) then Some (set_sleepers s (cond_sleepers s ∖ {[u]}), rest held) else None
  | _, _ => None
  end.

Definition cond_init : config cond cond_pc :=
  Config {| futex := 0; cond_sleepers := ∅; holder := None; adds := 0; last_clear := 0; gave_back := ∅ |} (fun _ => CIdle).

(** ** The invariant *)
Definition holds_mutex (l : cond_pc) : bool :=
  match l with
  | CHeld | CRet _ | CClock | CLoad _ | CUnlock _ _ _ | CAdd _ true | CWake _ true _ => true
  | _ => false
  end.

Definition cond_good (s : cond) : Prop := futex s = s32 (adds s) /\ 0 <= last_clear s <= adds s.

(** While fewer than 2^32 increments happened, a thread in the wait queue started
    to wait after the last wake-up that left the queue empty. *)
Definition cond_at (t : Z) (s : cond) (l : cond_pc) : Prop :=
  match l with
  | CUnlock _ v e => v = s32 e /\ 0 <= e <= adds s
  | CSleep _ v e => v = s32 e /\ 0 <= e <= adds s /\ exists n, gave_back s !! t = Some n /\ e <= n
  | CAsleep _ e => (exists n, gave_back s !! t = Some n /\ e <= n) /\ (adds s < 2 ^ 32 -> t ∈ cond_sleepers s -> last_clear s <= e)
  | CWake _ _ n => 0 <= n <= adds s
  | _ => True
  end.

Definition cond_ok (t : Z) (s : cond) (l : cond_pc) : Prop :=
  (holder s = Some t <-> holds_mutex l = true) /\ cond_at t s l.

Definition cond_env (u : Z) (s s' : cond) : Prop :=
  (holder s = Some u <-> holder s' = Some u) /\ adds s <= adds s' /\ gave_back s' !! u = gave_back s !! u /\
  (u ∈ cond_sleepers s' -> u ∈ cond_sleepers s /\ last_clear s' = last_clear s).

Lemma cond_env_ok u s s' l : valid_tid u -> cond_env u s s' -> cond_ok u s l -> cond_ok u s' l.
Proof.
  intros _ (H & A & G & Q) [Ho Ha]. split; [rewrite <- H; exact Ho |].
  destruct l; simpl in *; rewrite ?G; try exact Ha; try lia.
  - destruct Ha as (Hv & He & Hn). repeat split; try lia; assumption.
  - destruct Ha as [Hn Ha]. split; [exact Hn |].
    intros B K. destruct (Q K) as [K' ->]. apply Ha; [lia | exact K'].
Qed.

Lemma s32_inj a b : s32 a = s32 b -> 0 <= a <= b -> b < 2 ^ 32 -> a = b.
Proof.
  intros E Hab B. pose proof (wraps_mod 32 a ltac:(lia)) as Ma. pose proof (wraps_mod 32 b ltac:(lia)) as Mb.
  rewrite E, Mb, !Z.mod_small in Ma by lia. lia.
Qed.

Lemma s32_succ a : s32 (s32 a + 1) = s32 (a + 1).
Proof.
  unfold wraps. replace ((a + 2 ^ (32 - 1)) mod 2 ^ 32 - 2 ^ (32 - 1) + 1 + 2 ^ (32 - 1)) with ((a + 2 ^ (32 - 1)) mod 2 ^ 32 + 1) by lia.
  rewrite Zplus_mod_idemp_l. do 2 f_equal. lia.
Qed.

Definition cond_stepped (t : Z) (s s' : cond) (l' : cond_pc) : Prop :=
  cond_good s' /\ cond_ok t s' l' /\ forall u, valid_tid u -> u <> t -> cond_env u s s'.

(** What the stepping thread, and what every other thread, keeps. *)
Ltac cond_here :=
  solve [assumption | tauto | lia | rewrite lookup_insert_eq; repeat split; try tauto; eexists; (split; [reflexivity | lia])].
Ltac cond_elsewhere :=
  intros; split; [intuition congruence |]; split; [lia |];
  split; [rewrite ?lookup_insert_ne by congruence; reflexivity | tauto || set_solver].

Lemma cond_step_ok t a s l s' l' : valid_tid t -> cond_good s -> cond_ok t s l -> cond_tstep t a s l = Some (s', l') ->
  cond_stepped t s s' l'.
Proof.
  intros V [F B] [Ho Ha] E.
  destruct a as [[] | | | err | u], l as [| | | | tm | tm v e | tm v e | tm e | tm err' | al he | [] he n]; simpl in E; try discriminate E.
  all: repeat match type of E with context [if ?b then _ else _] => destruct b eqn:? end; try discriminate E; injection E as <- <-.
  all: rewrite ?Z.eqb_eq in *; unfold cond_stepped, cond_good, cond_ok, cond_env; simpl in *.
  all: try destruct he; simpl in *.
  all: try solve [split; [auto |]; split; [split; [intuition congruence | cond_here] | cond_elsewhere]].
  { split; [auto |]. split; [split; [exact Ho |] | cond_elsewhere]. destruct Ha as (-> & He & Hn). split; [exact Hn |].
    intros L _. rewrite F in *. rewrite (s32_inj e (adds s)) by (congruence || lia). lia. }
  all: rewrite ?F, ?s32_succ; (split; [split; [reflexivity || exact F | lia] |]); (split; [split; [exact Ho | lia || tauto] |]);
    intros u _ N; (split; [reflexivity |]); (split; [lia |]); (split; [reflexivity | intros K]);
    solve [auto | repeat match goal with H : decide _ = _ |- _ => clear H end; exfalso; set_solver].
Qed.

Lemma cond_inv c : reachable cond_tstep cond_init c -> local_inv cond_good cond_ok c.
Proof.
  apply (local_inv_reachable cond_tstep cond_good cond_ok cond_env).
  - split; [split; [reflexivity | simpl; lia] |]. intros t _. split; [simpl; split; discriminate | exact I].
  - exact cond_step_ok.
  - exact cond_env_ok.
Qed.

(** ** Waiting and waking *)

(** C37: condition variables do not lose wake-ups.  In every interleaving of any
    number of threads that wait, signal and broadcast, with interrupted, failed and
    timed out waits: a wait returns with the mutex held, which at most one thread
    holds; and while the futex was incremented fewer than 2^32 times, a thread in
    the wait queue gave back the mutex, for this wait, only after the increment of
    every broadcast that returned and of every signal that found nobody to wake.
    So a waiter that had given back the mutex when a broadcast began is out of the
    queue when the broadcast returns. *)
Theorem cond_no_lost_wakeup c : reachable cond_tstep cond_init c ->
  (forall t u, valid_tid t -> valid_tid u -> holds_mutex (locals c t) = true -> holds_mutex (locals c u) = true -> t = u) /\
  (forall t err, valid_tid t -> locals c t = CRet err -> holder (shared c) = Some t) /\
  (adds (shared c) < 2 ^ 32 ->
   forall t timed e, valid_tid t -> locals c t = CAsleep timed e -> t ∈ cond_sleepers (shared c) ->
   last_clear (shared c) <= e /\ exists n, gave_back (shared c) !! t = Some n /\ last_clear (shared c) <= n).
Proof.
  intros R. destruct (cond_inv c R) as [_ O]. split; [| split].
  - intros t u Vt Vu Ht Hu. apply (O t Vt) in Ht. apply (O u Vu) in Hu. congruence.
  - intros t err V E. apply (O t V). rewrite E. reflexivity.
  - intros B t timed e V E Q. destruct (O t V) as [_ A]. rewrite E in A. destruct A as [(n & G & L) A].
    specialize (A B Q). split; [exact A | exists n; split; [exact G | lia]].
Qed.

(** Thread 1 waits; thread 2 takes the mutex and broadcasts; thread 3 waits after
    that. *)
Definition cond_schedule : list (Z * cond_act) :=
  [(1, CCall CLock); (1, CCall CWait); (1, CRun); (1, CRun); (1, CRun);
   (2, CCall CLock); (2, CCall CBroadcast); (2, CRun); (2, CRun); (2, CCall CUnlockOp);
   (3, CCall CLock); (3, CCall CTimedWait); (3, CRun); (3, CRun); (3, CRun); (3, CRun); (1, CRun); (1, CRun)].

Definition cond_config : config cond cond_pc :=
  match exec cond_tstep cond_schedule cond_init with Some c => c | None => cond_init end.

Lemma cond_no_lost_wakeup_witness :
  locals cond_config 1 = CRet 0 /\ locals cond_config 3 = CAsleep true 1 /\ holder (shared cond_config) = Some 1 /\
  last_clear (shared cond_config) <= 1 /\
  exists n, gave_back (shared cond_config) !! 3 = Some n /\ last_clear (shared cond_config) <= n.
Proof.
  assert (R : reachable cond_tstep cond_init cond_config) by (apply (exec_reachable cond_tstep cond_schedule); reflexivity).
  destruct (cond_no_lost_wakeup cond_config R) as (_ & H & K).
  split; [reflexivity |]. split; [reflexivity |]. split.
  - apply (H 1 0); [unfold valid_tid; lia | reflexivity].
  - apply (K ltac:(vm_compute; reflexivity) 3 true 1); [unfold valid_tid; lia | reflexivity |].
    vm_compute. reflexivity.
Defined.
