(* ===== verification/Barrier.v ===== *)
(** * Barriers

    [pthread_barrier_wait] of [src/src/posix/pthread.cpp] as threads over the
    atomics [waiting], [inside] and [sequence].  The client is a switch: with
    [again = false] at most [count] threads call, each once; with [again = true]
    threads come back for further rounds. *)

From stdpp Require Import gmap relations.
From S2P Require Import Prelude Threads.

#[local] Open Scope Z_scope.

Definition PTHREAD_BARRIER_SERIAL_THREAD : Z := -1.

Record barrier := {
  waiting : Z;
  inside : Z;
  sequence : Z;
  count : Z;
  seq_sleepers : gset Z;
  inside_wakes : Z;         (* ghost: wake-ups of [inside], for pthread_barrier_destroy *)
  entered : gset Z;         (* ghost: threads that called *)
  arrived : gset Z;         (* ghost: threads counted in [waiting] *)
  releaser : option Z       (* ghost: the thread that completed the round *)
}.

Inductive bar_pc :=
| BarIdle
| BarEnter
| BarSeq
| BarLoad (seq : Z)
| BarCas (seq expected : Z)
| BarRelease                 (* sequence.fetch_add *)
| BarReset                   (* waiting.store(0) *)
| BarWakeAll
| BarWait (seq : Z)
| BarAsleep (seq : Z)
| BarReload (seq : Z)
| BarLeave (r : Z)
| BarLeaveWake (r : Z)
| BarRet (r : Z).

Inductive bar_act := BarCall | BarRun | BarFault.

Definition set_bar (s : barrier) (w i q : Z) (sl : gset Z) : barrier :=
  {| waiting := w; inside := i; sequence := q; count := count s; seq_sleepers := sl; inside_wakes := inside_wakes s;
     entered := entered s; arrived := arrived s; releaser := releaser s |}.

Definition arrive (s : barrier) (t : Z) (last : bool) : barrier :=
  {| waiting := waiting s + 1; inside := inside s; sequence := sequence s; count := count s;
     seq_sleepers := seq_sleepers s; inside_wakes := inside_wakes s; entered := entered s;
     arrived := {[t]} ∪ arrived s; releaser := if last then Some t else releaser s |}.

Definition enter (s : barrier) (t : Z) : barrier :=
  {| waiting := waiting s; inside := inside s; sequence := sequence s; count := count s;
     seq_sleepers := seq_sleepers s; inside_wakes := inside_wakes s; entered := {[t]} ∪ entered s;
     arrived := arrived s; releaser := releaser s |}.

Definition wake_inside (s : barrier) : barrier :=
  {| waiting := waiting s; inside := inside s; sequence := sequence s; count := count s;
     seq_sleepers := seq_sleepers s; inside_wakes := inside_wakes s + 1; entered := entered s;
     arrived := arrived s; releaser := releaser s |}.

Definition bar_tstep (again : bool) (t : Z) (a : bar_act) (s : barrier) (l : bar_pc) : option (barrier * bar_pc) :=
  match a, l with
  | BarCall, BarIdle =>
      if again || (Z.of_nat (size (entered s)) <? count s) then Some (enter s t, BarEnter) else None
  | BarCall, BarRet _ => if again then Some (s, BarIdle) else None
  | BarRun, BarEnter => Some (set_bar s (waiting s) (inside s + 1) (sequence s) (seq_sleepers s), BarSeq)
  | BarRun, BarSeq => Some (s, BarLoad (sequence s))
  | BarRun, BarLoad seq => Some (s, BarCas seq (waiting s))
  | BarRun, BarCas seq expected =>
      if waiting s =? expected
      then Some (arrive s t (expected + 1 =? count s), if expected + 1 =? count s then BarRelease else BarWait seq)
      else Some (s, BarLoad seq)
  | BarFault, BarCas seq expected => Some (s, BarLoad seq)
  | BarRun, BarRelease => Some (set_bar s (waiting s) (inside s) (sequence s + 1) (seq_sleepers s), BarReset)
  | BarRun, BarReset => Some (set_bar s 0 (inside s) (sequence s) (seq_sleepers s), BarWakeAll)
  | BarRun, BarWakeAll => Some (set_bar s (waiting s) (inside s) (sequence s) ∅, BarLeave PTHREAD_BARRIER_SERIAL_THREAD)
  | BarRun, BarWait seq =>
      if sequence s =? seq
      then Some (set_bar s (waiting s) (inside s) (sequence s) ({[t]} ∪ seq_sleepers s), BarAsleep seq)
      else Some (s, BarReload seq)
  | BarRun, BarAsleep seq => if decide (t ∈ seq_sleepers s) then None else Some (s, BarReload seq)
  | BarFault, BarAsleep seq =>
      Some (set_bar s (waiting s) (inside s) (sequence s) (seq_sleepers s ∖ {[t]}), BarReload seq)
  | BarRun, BarReload seq => if seq <? sequence s then Some (s, BarLeave 0) else Some (s, BarWait seq)
  | BarRun, BarLeave r =>
      Some (set_bar s (waiting s) (inside s - 1) (sequence s) (seq_sleepers s),
            if inside s - 1 =? 0 then BarLeaveWake r else BarRet r)
  | BarRun, BarLeaveWake r => Some (wake_inside s, BarRet r)
  | _, _ => None
  end.

(** [pthread_barrier_init]. *)
Definition bar_init (n : Z) : config barrier bar_pc :=
  Config {| waiting := 0; inside := 0; sequence := 0; count := n; seq_sleepers := ∅; inside_wakes := 0;
            entered := ∅; arrived := ∅; releaser := None |} (fun _ => BarIdle).

(** ** One round *)
Definition n_arrived (s : barrier) : Z := Z.of_nat (size (arrived s)).

Definition bar_good (s : barrier) : Prop :=
  arrived s ⊆ entered s /\ Z.of_nat (size (entered s)) <= count s /\ 0 <= sequence s <= 1 /\
  match releaser s with
  | None => n_arrived s < count s /\ waiting s = n_arrived s /\ sequence s = 0
  | Some r => valid_tid r /\ n_arrived s = count s
  end.

Definition before (l : bar_pc) : bool :=
  match l with BarEnter | BarSeq | BarLoad _ | BarCas _ _ => true | _ => false end.

Definition bar_at (t : Z) (s : barrier) (l : bar_pc) : Prop :=
  match l with
  | BarIdle => t ∉ entered s
  | BarRelease => releaser s = Some t /\ sequence s = 0
  | BarReset | BarWakeAll => releaser s = Some t /\ sequence s = 1
  | BarLoad seq | BarCas seq _ | BarWait seq | BarAsleep seq | BarReload seq => seq = 0
  | BarLeave r | BarLeaveWake r | BarRet r => sequence s = 1 /\ (r = 0 \/ (r = PTHREAD_BARRIER_SERIAL_THREAD /\ releaser s = Some t))
  | _ => True
  end.

Definition leaves_serial (l : bar_pc) : bool :=
  match l with BarLeave r | BarLeaveWake r | BarRet r => r =? PTHREAD_BARRIER_SERIAL_THREAD | _ => false end.

(** Nobody sleeps on an old sequence number once the releaser is past its wake-up,
    and from there it is on its way out as the serial thread. *)
Definition bar_wakes (t : Z) (s : barrier) (l : bar_pc) : Prop :=
  releaser s = Some t ->
  (l = BarRelease \/ l = BarReset \/ l = BarWakeAll) \/ (leaves_serial l = true /\ sequence s = 1 /\ seq_sleepers s = ∅).

Definition bar_ok (t : Z) (s : barrier) (l : bar_pc) : Prop :=
  (before l = true -> t ∈ entered s /\ t ∉ arrived s) /\ bar_at t s l /\ bar_wakes t s l.

Definition bar_env (u : Z) (s s' : barrier) : Prop :=
  (u ∈ entered s' <-> u ∈ entered s) /\ (u ∈ arrived s' <-> u ∈ arrived s) /\
  (releaser s' = Some u <-> releaser s = Some u) /\ (releaser s = Some u -> sequence s' = sequence s) /\
  (sequence s = 1 -> sequence s' = 1) /\ (sequence s = 1 -> seq_sleepers s = ∅ -> seq_sleepers s' = ∅).

Lemma bar_env_ok u s s' l : valid_tid u -> bar_env u s s' -> bar_ok u s l -> bar_ok u s' l.
Proof.
  intros _ (E & A & R & Q & S1 & Sl) (Hb & Ha & Hw). split; [intros B; rewrite E, A; exact (Hb B) |]. split.
  - destruct l; simpl in *; rewrite ?E, ?R; intuition (auto; congruence).
  - intros K. apply R in K. destruct (Hw K) as [D | (D & D1 & D2)]; [left; exact D | right; auto].
Qed.

Lemma arrived_less s t : bar_good s -> t ∈ entered s -> t ∉ arrived s -> n_arrived s < count s.
Proof.
  intros (Sub & L & _) E A. unfold n_arrived.
  assert (size (arrived s) < size (entered s))%nat by (apply subset_size; set_solver). lia.
Qed.

Lemma arrive_good s t : bar_good s -> valid_tid t -> t ∈ entered s -> t ∉ arrived s ->
  bar_good (arrive s t (waiting s + 1 =? count s)) /\ waiting s = n_arrived s /\ releaser s = None /\ sequence s = 0.
Proof.
  intros G V E A. pose proof (arrived_less s t G E A) as L. destruct G as (Sub & Le & Sq & Rel).
  destruct (releaser s) as [r |] eqn:R; [lia |]. destruct Rel as (_ & W & S0). split; [| auto].
  assert (Sz : Z.of_nat (size ({[t]} ∪ arrived s)) = n_arrived s + 1)
    by (unfold n_arrived; rewrite size_union by set_solver; rewrite size_singleton; lia).
  unfold bar_good, n_arrived. simpl. rewrite Sz. split; [set_solver |]. split; [exact Le |]. split; [exact Sq |].
  destruct (Z.eqb_spec (waiting s + 1) (count s)); [split; [exact V | lia] | rewrite R; lia].
Qed.

(** A thread before its arrival: the round is not complete. *)
Lemma before_open s t : bar_good s -> t ∈ entered s -> t ∉ arrived s -> releaser s = None /\ sequence s = 0.
Proof.
  intros G E A. pose proof (arrived_less s t G E A). destruct G as (_ & _ & _ & Rel).
  destruct (releaser s); [lia | tauto].
Qed.

(** The steps that change neither the sequence number nor the round. *)
Lemma bar_step_quiet t s w i sl l l' : bar_good s -> bar_ok t s l -> (w = waiting s \/ releaser s <> None) ->
  (sequence s = 1 -> seq_sleepers s = ∅ -> sl = ∅) ->
  (before l' = true -> before l = true) -> bar_at t (set_bar s w i (sequence s) sl) l' ->
  bar_wakes t (set_bar s w i (sequence s) sl) l' ->
  bar_good (set_bar s w i (sequence s) sl) /\ bar_ok t (set_bar s w i (sequence s) sl) l' /\
  forall u, valid_tid u -> u <> t -> bar_env u s (set_bar s w i (sequence s) sl).
Proof.
  intros (Sub & Le & Sq & Rel) (Hb & Ha & Hw) W Sl B A K. split; [| split; [split; [auto | auto] |]].
  - unfold bar_good, n_arrived in *. simpl. destruct (releaser s); [auto |]. destruct W; [| congruence]. intuition congruence.
  - intros u _ N. unfold bar_env. simpl. intuition.
Qed.

Lemma bar_env_refl u s : bar_env u s s.
Proof. unfold bar_env. tauto. Qed.

Lemma bar_step_same t s l l' : bar_good s -> bar_ok t s l -> (before l' = true -> before l = true) -> bar_at t s l' ->
  bar_wakes t s l' -> bar_good s /\ bar_ok t s l' /\ forall u, valid_tid u -> u <> t -> bar_env u s s.
Proof. intros G (Hb & _) B A K. split; [exact G |]. split; [split; [auto | auto] | intros; apply bar_env_refl]. Qed.

Lemma bar_step_enter t s : valid_tid t -> bar_good s -> t ∉ entered s -> releaser s <> Some t ->
  Z.of_nat (size (entered s)) < count s ->
  bar_good (enter s t) /\ bar_ok t (enter s t) BarEnter /\ forall u, valid_tid u -> u <> t -> bar_env u s (enter s t).
Proof.
  intros V (Sub & Le & Sq & Rel) N Nr L. split; [| split].
  - unfold bar_good, n_arrived in *. simpl. rewrite size_union by set_solver. rewrite size_singleton.
    split; [set_solver |]. split; [lia | auto].
  - split; [intros _; simpl; set_solver |]. split; [exact I | intros K; contradiction (Nr K)].
  - intros u _ Hu. unfold bar_env. simpl. split; [set_solver | tauto].
Qed.

Lemma bar_step_arrive t s q : valid_tid t -> bar_good s -> t ∈ entered s -> t ∉ arrived s -> q = 0 ->
  bar_good (arrive s t (waiting s + 1 =? count s)) /\
  bar_ok t (arrive s t (waiting s + 1 =? count s)) (if waiting s + 1 =? count s then BarRelease else BarWait q) /\
  forall u, valid_tid u -> u <> t -> bar_env u s (arrive s t (waiting s + 1 =? count s)).
Proof.
  intros V G E A ->. destruct (arrive_good s t G V E A) as (G' & W & R & S0). split; [exact G' |]. split.
  - unfold bar_ok, bar_wakes. destruct (waiting s + 1 =? count s); simpl; rewrite ?R; intuition discriminate.
  - intros u _ N. unfold bar_env. simpl. split; [tauto |]. split; [set_solver |].
    destruct (waiting s + 1 =? count s); rewrite ?R; intuition congruence.
Qed.

Lemma bar_step_release t s : bar_good s -> bar_ok t s BarRelease ->
  let s' := set_bar s (waiting s) (inside s) (sequence s + 1) (seq_sleepers s) in
  bar_good s' /\ bar_ok t s' BarReset /\ forall u, valid_tid u -> u <> t -> bar_env u s s'.
Proof.
  intros (Sub & Le & Sq & Rel) (_ & [R S0] & _) s'. unfold s', bar_good, bar_ok, bar_env, bar_wakes, n_arrived in *. simpl.
  rewrite R, S0 in *. split; [auto with lia |]. split; [intuition discriminate |]. intros u _ N. intuition congruence.
Qed.

(** The serial thread stays it on its way out. *)
Ltac leaves_on Hw :=
  let K := fresh in let D := fresh in
  intros K; destruct (Hw K) as [[D | [D | D]] | D]; [discriminate D .. | right; exact D].

Lemma bar_step_ok t a s l s' l' : valid_tid t -> bar_good s -> bar_ok t s l -> bar_tstep false t a s l = Some (s', l') ->
  bar_good s' /\ bar_ok t s' l' /\ forall u, valid_tid u -> u <> t -> bar_env u s s'.
Proof.
  intros V G O E. pose proof O as (Hb & Ha & Hw). pose proof G as (Sub & Le & Sq & Rel).
  destruct a, l as [| | | q | q e | | | | q | q | q | r | r | r]; simpl in E; try discriminate E.
  all: repeat match type of E with context [if ?b then _ else _] => destruct b eqn:? end; try discriminate E; injection E as <- <-.
  all: rewrite ?Z.eqb_eq, ?Z.ltb_lt in *; cbn [bar_at before] in *.
  all: try (assert (Nr : releaser s <> Some t) by (intros K; destruct (Hw K) as [[D | [D | D]] | [D _]]; discriminate D)).
  all: try (assert (Hs : forall l', bar_wakes t s l') by (intros l' K; contradiction (Nr K))).
  all: try (assert (Hq : forall w i q sl l', bar_wakes t (set_bar s w i q sl) l') by (intros w i q' sl l' K; contradiction (Nr K))).
  - apply bar_step_enter; assumption.
  - eapply bar_step_quiet; eauto.
  - eapply bar_step_same; eauto. simpl. apply (before_open s t G); apply Hb; reflexivity.
  - eapply bar_step_same; eauto.
  - destruct (Hb eq_refl) as [B1 B2]. pose proof (bar_step_arrive t s q V G B1 B2 Ha) as K.
    replace (waiting s) with e in K. rewrite (proj2 (Z.eqb_eq _ _) Heqb0) in K. exact K.
  - destruct (Hb eq_refl) as [B1 B2]. pose proof (bar_step_arrive t s q V G B1 B2 Ha) as K.
    replace (waiting s) with e in K. rewrite Heqb0 in K. exact K.
  - eapply bar_step_same; eauto.
  - apply bar_step_release; assumption.
  - eapply bar_step_quiet; eauto; [right; destruct Ha as [-> _]; discriminate |]. intros _. left. auto.
  - eapply bar_step_quiet; eauto; [simpl; tauto |]. intros _. right. simpl. tauto.
  - eapply bar_step_quiet; eauto. intros S1 _. lia.
  - eapply bar_step_same; eauto.
  - eapply bar_step_same; eauto.
  - eapply bar_step_same; eauto. simpl. split; [lia | auto].
  - eapply bar_step_same; eauto.
  - eapply bar_step_quiet; eauto. leaves_on Hw.
  - eapply bar_step_quiet; eauto. leaves_on Hw.
  - split; [exact G |]. split; [| intros u _ N; unfold bar_env; simpl; tauto].
    split; [discriminate | split; [exact Ha | leaves_on Hw]].
  - eapply bar_step_same; eauto.
  - eapply bar_step_quiet; eauto. intros _ ->. set_solver.
Qed.

Lemma bar_inv n c : 0 < n -> reachable (bar_tstep false) (bar_init n) c -> local_inv bar_good bar_ok c.
Proof.
  intros Hn. apply (local_inv_reachable (bar_tstep false) bar_good bar_ok bar_env).
  - split; [unfold bar_good, n_arrived; simpl; split; [set_solver |]; change (set_size _) with 0%nat; lia |].
    intros t _. split; [discriminate |]. split; [simpl; set_solver | discriminate].
  - exact bar_step_ok.
  - exact bar_env_ok.
Qed.

Lemma bar_count n c : reachable (bar_tstep false) (bar_init n) c -> count (shared c) = n.
Proof.
  apply (invariant_reachable (bar_tstep false) (fun d => count (shared d) = n) (bar_init n)); [reflexivity |].
  intros d d' E St. destruct St as [d t a s' l' V T]. simpl. rewrite <- E. clear - T.
  destruct a, (locals d t); simpl in T; try discriminate T.
  all: repeat match type of T with context [if ?b then _ else _] => destruct b end; try discriminate T; injection T as <- <-; reflexivity.
Qed.

(** C38: one round of a barrier.  When at most [count] threads call
    [pthread_barrier_wait] on a fresh barrier, each once, then in every interleaving:
    a thread returns only after [count] threads arrived, with 0 or
    PTHREAD_BARRIER_SERIAL_THREAD; when a thread has returned and no call is under
    way any more, exactly one thread has returned PTHREAD_BARRIER_SERIAL_THREAD,
    and at no time have two; and a thread sleeps on the barrier only while the
    round is incomplete or the thread that completed it has not yet woken the
    sleepers. *)
Theorem barrier_round n c : 0 < n -> reachable (bar_tstep false) (bar_init n) c ->
  (forall t r, valid_tid t -> locals c t = BarRet r -> n_arrived (shared c) = n /\ (r = 0 \/ r = PTHREAD_BARRIER_SERIAL_THREAD)) /\
  (forall t u, valid_tid t -> valid_tid u -> locals c t = BarRet PTHREAD_BARRIER_SERIAL_THREAD ->
     locals c u = BarRet PTHREAD_BARRIER_SERIAL_THREAD -> t = u) /\
  ((exists t r, valid_tid t /\ locals c t = BarRet r) ->
   (forall t, valid_tid t -> locals c t = BarIdle \/ exists r, locals c t = BarRet r) ->
   exists t, valid_tid t /\ locals c t = BarRet PTHREAD_BARRIER_SERIAL_THREAD) /\
  (seq_sleepers (shared c) <> ∅ -> n_arrived (shared c) < n \/
     exists r, valid_tid r /\ (locals c r = BarRelease \/ locals c r = BarReset \/ locals c r = BarWakeAll)).
Proof.
  intros Hn R. pose proof (bar_count n c R) as Cn. destruct (bar_inv n c Hn R) as [(_ & _ & _ & Rel) O].
  assert (S1 : forall t r, valid_tid t -> locals c t = BarRet r -> sequence (shared c) = 1 /\
    (r = 0 \/ r = PTHREAD_BARRIER_SERIAL_THREAD /\ releaser (shared c) = Some t)).
  { intros t r V E. destruct (O t V) as (_ & A & _). rewrite E in A. exact A. }
  split; [| split; [| split]].
  - intros t r V E. destruct (S1 t r V E) as [S K]. split; [| tauto].
    destruct (releaser (shared c)); [lia | destruct Rel as (_ & _ & Z0); lia].
  - intros t u Vt Vu Et Eu. destruct (S1 _ _ Vt Et) as [_ [? | [_ A]]], (S1 _ _ Vu Eu) as [_ [? | [_ B]]]; try discriminate. congruence.
  - intros (t & r & V & E) Q. destruct (S1 t r V E) as [S _].
    destruct (releaser (shared c)) as [u |] eqn:Er; [| lia]. destruct Rel as [Vu _].
    exists u. split; [exact Vu |]. destruct (O u Vu) as (_ & _ & W).
    destruct (Q u Vu) as [L | [r' L]]; rewrite L in W; destruct (W Er) as [[D | [D | D]] | [D _]]; try discriminate D.
    rewrite L. simpl in D. apply Z.eqb_eq in D. rewrite D. reflexivity.
  - intros Q. destruct (releaser (shared c)) as [r |] eqn:Er; [| left; lia]. destruct Rel as [Vr _].
    destruct (O r Vr) as (_ & _ & W). destruct (W Er) as [D | (_ & _ & D)]; [right; eauto | contradiction].
Qed.

Definition bar_runs (again : bool) (n : Z) (sched : list (Z * bar_act)) : config barrier bar_pc :=
  match exec (bar_tstep again) sched (bar_init n) with Some c => c | None => bar_init n end.

(** Thread 1 arrives and sleeps, thread 2 arrives and returns, then thread 1. *)
Definition round_schedule : list (Z * bar_act) :=
  [(1, BarCall); (1, BarRun); (1, BarRun); (1, BarRun); (1, BarRun); (1, BarRun);
   (2, BarCall); (2, BarRun); (2, BarRun); (2, BarRun); (2, BarRun); (2, BarRun); (2, BarRun); (2, BarRun); (2, BarRun);
   (1, BarRun); (1, BarRun); (1, BarRun); (1, BarRun)].

Lemma barrier_round_witness : locals (bar_runs false 2 round_schedule) 1 = BarRet 0 /\
  n_arrived (shared (bar_runs false 2 round_schedule)) = 2 /\
  exists t, valid_tid t /\ locals (bar_runs false 2 round_schedule) t = BarRet PTHREAD_BARRIER_SERIAL_THREAD.
Proof.
  assert (E : locals (bar_runs false 2 round_schedule) 1 = BarRet 0) by reflexivity.
  assert (R : reachable (bar_tstep false) (bar_init 2) (bar_runs false 2 round_schedule))
    by (apply (exec_reachable (bar_tstep false) round_schedule); vm_compute; reflexivity).
  assert (V : valid_tid 1) by (unfold valid_tid; lia).
  destruct (barrier_round 2 (bar_runs false 2 round_schedule) ltac:(lia) R) as (A & _ & B & _).
  split; [exact E |]. split; [exact (proj1 (A 1 0 V E)) |].
  apply B; [exists 1, 0; split; [exact V | exact E] |].
  intros t _. destruct (decide (t = 1)) as [-> |]; [right; exists 0; exact E |].
  destruct (decide (t = 2)) as [-> |]; [right; exists PTHREAD_BARRIER_SERIAL_THREAD; reflexivity |].
  left. vm_compute. repeat (case_match; subst; try congruence).
Defined.

(** ** Reuse

    Thread 2 completes a round and increments the sequence number; thread 1 leaves,
    comes back and arrives for the next round before thread 2 stores 0 to
    [waiting], which erases that arrival; thread 2 comes back as well. *)
Definition reuse_schedule : list (Z * bar_act) :=
  [(1, BarCall); (1, BarRun); (1, BarRun); (1, BarRun); (1, BarRun); (1, BarRun);
   (2, BarCall); (2, BarRun); (2, BarRun); (2, BarRun); (2, BarRun); (2, BarRun);
   (1, BarFault); (1, BarRun); (1, BarRun);
   (1, BarCall); (1, BarCall); (1, BarRun); (1, BarRun); (1, BarRun); (1, BarRun);
   (2, BarRun); (2, BarRun); (2, BarRun);
   (2, BarCall); (2, BarCall); (2, BarRun); (2, BarRun); (2, BarRun); (2, BarRun); (2, BarRun); (1, BarRun)].

(** Both threads of a barrier of two wait for the second round, and neither can
    take a step: the barrier is stuck although everybody arrived. *)
Theorem barrier_reuse_deadlocks : exists c, reachable (bar_tstep true) (bar_init 2) c /\
  waiting (shared c) = 1 /\ locals c 1 = BarAsleep 1 /\ locals c 2 = BarAsleep 1 /\
  bar_tstep true 1 BarRun (shared c) (locals c 1) = None /\ bar_tstep true 2 BarRun (shared c) (locals c 2) = None.
Proof.
  exists (bar_runs true 2 reuse_schedule).
  split; [apply (exec_reachable (bar_tstep true) reuse_schedule); vm_compute; reflexivity |]. vm_compute. repeat split.
Qed.
