(* ===== verification/SoftFloat.v ===== *)
(** * Quadruple precision in software

    The compiler support routines of [src/src/internal/float_gcc.cpp] for
    [tf_float], the IEEE 754 binary128 format, which the compiler calls where the
    processor has no such arithmetic.  The constants of the namespace [flt128] are
    those of a format [F] of {!Ieee}; the functions the compiler calls are the
    instances at [F128].  A number is its representation, an unsigned integer of
    [typeWidth] bits. *)

From S2P Require Import Prelude Ieee.

#[local] Open Scope Z_scope.

Definition F128 : fmt := {| mbits := 112; ebits := 15 |}.

#[export] Instance F128_ok : FmtOk F128.
Proof. split; simpl; lia. Qed.

(** [__builtin_clzll], [__builtin_clz] and [__builtin_ctz] of a number that is not 0. *)
Definition clz (w x : Z) : Z := w - 1 - Z.log2 x.

Fixpoint ctz_pos (p : positive) : Z := match p with xO p => 1 + ctz_pos p | _ => 0 end.
Definition ctz (x : Z) : Z := match x with Zpos p => ctz_pos p | _ => 0 end.

Inductive rounding := FE_TONEAREST | FE_DOWNWARD | FE_UPWARD | FE_TOWARDZERO.

Section Flt.
Context (F : fmt).

Definition typeWidth : Z := width F.
Definition significandBits : Z := mbits F.
Definition exponentBits : Z := typeWidth - significandBits - 1.
Definition maxExponent : Z := Z.shiftl 1 exponentBits - 1.
Definition exponentBias : Z := Z.shiftr maxExponent 1.
Definition implicitBit : Z := Z.shiftl 1 significandBits.
Definition significandMask : Z := implicitBit - 1.
Definition signBit : Z := Z.shiftl 1 (significandBits + exponentBits).
Definition absMask : Z := signBit - 1.
Definition exponentMask : Z := Z.lxor absMask significandMask.
Definition infRep : Z := exponentMask.
Definition quietBit : Z := Z.shiftr implicitBit 1.
Definition qnanRep : Z := Z.lor exponentMask quietBit.

(** [rep_t] arithmetic. *)
Definition rep (x : Z) : Z := wrapu typeWidth x.
Definition rshl (x n : Z) : Z := rep (Z.shiftl x n).

Definition rep_clz (a : Z) : Z :=
  let half := typeWidth / 2 in
  let low := wrapu half a in
  let high := Z.shiftr a half in
  if negb (high =? 0) then clz half high + 0 else clz half low + half.

(** The shifted significand and the exponent. *)
Definition normalize (significand : Z) : Z * Z :=
  let shift := rep_clz significand - rep_clz implicitBit in
  (rshl significand shift, 1 - shift).

(** [sticky] of a right shift. *)
Definition sticky_shift (x n : Z) : Z :=
  Z.lor (Z.shiftr x n) (if rshl x (typeWidth - n) =? 0 then 0 else 1).

(** ** Comparison *)
Definition srep (x : Z) : Z := wraps typeWidth x.

Definition cmp_gen (unordered : Z) (a b : Z) : Z :=
  let aInt := srep a in
  let bInt := srep b in
  let aAbs := Z.land (rep aInt) absMask in
  let bAbs := Z.land (rep bInt) absMask in
  if (infRep <? aAbs) || (infRep <? bAbs) then unordered
  else if Z.lor aAbs bAbs =? 0 then 0
  else if 0 <=? Z.land aInt bInt then
    if aInt <? bInt then -1 else if aInt =? bInt then 0 else 1
  else
    if bInt <? aInt then -1 else if aInt =? bInt then 0 else 1.

Definition leXf2 (a b : Z) : Z := cmp_gen 1 a b.
Definition geXf2 (a b : Z) : Z := cmp_gen (-1) a b.

(** ** Conversion to integers *)
Definition fixint (x : Z) : Z :=
  let fixint_max := 2 ^ 63 - 1 in
  let fixint_min := - fixint_max - 1 in
  let aAbs := Z.land x absMask in
  let sign := if Z.land x signBit =? 0 then 1 else -1 in
  let exponent := s32 (rep (Z.shiftr aAbs significandBits - exponentBias)) in
  let significand := Z.lor (Z.land aAbs significandMask) implicitBit in
  if exponent <? 0 then 0
  else if 64 <=? exponent then if sign =? 1 then fixint_max else fixint_min
  else if exponent <? significandBits
  then s64 (rep (sign * Z.shiftr significand (significandBits - exponent)))
  else s64 (sign * u64 (Z.shiftl (u64 significand) (exponent - significandBits))).

Definition fixuint (x : Z) : Z :=
  let aAbs := Z.land x absMask in
  let sign := if Z.land x signBit =? 0 then 1 else -1 in
  let exponent := s32 (rep (Z.shiftr aAbs significandBits - exponentBias)) in
  let significand := Z.lor (Z.land aAbs significandMask) implicitBit in
  if (sign =? -1) || (exponent <? 0) then 0
  else if 64 <=? exponent then 2 ^ 64 - 1
  else if exponent <? significandBits then u64 (Z.shiftr significand (significandBits - exponent))
  else u64 (Z.shiftl (u64 significand) (exponent - significandBits)).

(** ** Conversion from integers: [__floatditf], [__floatsitf] and [__floatunsitf]
    at the widths 64 and 32. *)
Definition float_of (w : Z) (sign xAbs : Z) : Z :=
  let exponent := (w - 1) - clz w xAbs in
  let shift := significandBits - exponent in
  let result := Z.lxor (rshl xAbs shift) implicitBit in
  let result := rep (result + rshl (exponent + exponentBias) significandBits) in
  Z.lor result sign.

Definition float_signed (w x : Z) : Z :=
  if x =? 0 then 0
  else if x <? 0 then float_of w signBit (wrapu w (- wrapu w x)) else float_of w 0 (wrapu w x).

Definition float_unsigned (w x : Z) : Z := if x =? 0 then 0 else float_of w 0 x.

(** ** Addition

    The result, and whether [FE_INEXACT] is raised. *)

(** The operands that are zero, infinite or NaN. *)
Definition add_special (a b : Z) : option Z :=
  let aAbs := Z.land a absMask in
  let bAbs := Z.land b absMask in
  if (infRep - 1 <=? rep (aAbs - 1)) || (infRep - 1 <=? rep (bAbs - 1)) then
    if infRep <? aAbs then Some (Z.lor a quietBit)
    else if infRep <? bAbs then Some (Z.lor b quietBit)
    else if aAbs =? infRep then if Z.lxor a b =? signBit then Some qnanRep else Some a
    else if bAbs =? infRep then Some b
    else if aAbs =? 0 then if bAbs =? 0 then Some (Z.land a b) else Some b
    else if bAbs =? 0 then Some a
    else None
  else None.

(** Exponent and significand, subnormals normalised. *)
Definition unpack (r : Z) : Z * Z :=
  let exponent := Z.land (Z.shiftr r significandBits) maxExponent in
  let significand := Z.land r significandMask in
  if exponent =? 0 then let '(s, e) := normalize significand in (e, s) else (exponent, significand).

(** The final rounding, on the sign, the exponent and the significand with its
    round, guard and sticky bits. *)
Definition add_round (rm : rounding) (resultSign aExponent aSignificand : Z) : Z * bool :=
  if maxExponent <=? aExponent then (Z.lor infRep resultSign, false)
  else
    let '(aExponent, aSignificand) :=
      if aExponent <=? 0 then (0, sticky_shift aSignificand (1 - aExponent)) else (aExponent, aSignificand) in
    let roundGuardSticky := Z.land aSignificand 7 in
    let result := Z.land (Z.shiftr aSignificand 3) significandMask in
    let result := Z.lor result (rshl aExponent significandBits) in
    let result := Z.lor result resultSign in
    let result :=
      match rm with
      | FE_TONEAREST =>
          let result := if 4 <? roundGuardSticky then rep (result + 1) else result in
          if roundGuardSticky =? 4 then rep (result + Z.land result 1) else result
      | FE_DOWNWARD => if negb (resultSign =? 0) && negb (roundGuardSticky =? 0) then rep (result + 1) else result
      | FE_UPWARD => if (resultSign =? 0) && negb (roundGuardSticky =? 0) then rep (result + 1) else result
      | FE_TOWARDZERO => result
      end in
    (result, negb (roundGuardSticky =? 0)).

(** The significands aligned, added or subtracted, and normalised. *)
Definition add_align (aExponent bExponent bSignificand : Z) : Z :=
  let align := u32 (aExponent - bExponent) in
  if align =? 0 then bSignificand
  else if align <? typeWidth then sticky_shift bSignificand align else 1.

Definition add_normalize (subtraction : bool) (aExponent aSignificand bSignificand : Z) : option (Z * Z) :=
  if subtraction then
    let aSignificand := rep (aSignificand - bSignificand) in
    if aSignificand =? 0 then None
    else if aSignificand <? rshl implicitBit 3 then
      let shift := rep_clz aSignificand - rep_clz (rshl implicitBit 3) in
      Some (aExponent - shift, rshl aSignificand shift)
    else Some (aExponent, aSignificand)
  else
    let aSignificand := rep (aSignificand + bSignificand) in
    if negb (Z.land aSignificand (rshl implicitBit 4) =? 0) then
      Some (aExponent + 1, Z.lor (Z.shiftr aSignificand 1) (if Z.land aSignificand 1 =? 0 then 0 else 1))
    else Some (aExponent, aSignificand).

Definition addXf3 (rm : rounding) (a b : Z) : Z * bool :=
  match add_special a b with
  | Some r => (r, false)
  | None =>
    let '(aRep, bRep) := if Z.land a absMask <? Z.land b absMask then (b, a) else (a, b) in
    let '(aExponent, aSignificand) := unpack aRep in
    let '(bExponent, bSignificand) := unpack bRep in
    let resultSign := Z.land aRep signBit in
    let subtraction := negb (Z.land (Z.lxor aRep bRep) signBit =? 0) in
    let aSignificand := rshl (Z.lor aSignificand implicitBit) 3 in
    let bSignificand := rshl (Z.lor bSignificand implicitBit) 3 in
    let bSignificand := add_align aExponent bExponent bSignificand in
    match add_normalize subtraction aExponent aSignificand bSignificand with
    | None => (0, false)
    | Some (aExponent, aSignificand) => add_round rm resultSign aExponent aSignificand
    end
  end.

Definition subXf3 (rm : rounding) (a b : Z) : Z * bool := addXf3 rm a (Z.lxor b signBit).

(** ** Multiplication *)

(** As written: 64-bit arithmetic, a leftover of the 32-bit version. *)
Definition wideMultiply (a b : Z) : Z * Z :=
  let product := u64 (rep (u64 a * b)) in (Z.shiftr product 32, product).

Definition wideLeftShift (hi lo count : Z) : Z * Z :=
  (Z.lor (rshl hi count) (Z.shiftr lo (typeWidth - count)), rshl lo count).

Definition wideRightShiftWithSticky (hi lo count : Z) : Z * Z :=
  if count <? typeWidth then
    let sticky := if rshl lo (typeWidth - count) =? 0 then 0 else 1 in
    (Z.shiftr hi count, Z.lor (Z.lor (rshl hi (typeWidth - count)) (Z.shiftr lo count)) sticky)
  else if count <? 2 * typeWidth then
    let sticky := if Z.lor (rshl hi (2 * typeWidth - count)) lo =? 0 then 0 else 1 in
    (0, Z.lor (Z.shiftr hi (count - typeWidth)) sticky)
  else (0, if Z.lor hi lo =? 0 then 0 else 1).

(** What multiplication and division do with zeros, infinities and NaNs: a result,
    or the significands with the adjustment of the exponent. *)
Definition mul_special (a b productSign : Z) : Z + (Z * Z * Z) :=
  let aExponent := Z.land (Z.shiftr a significandBits) maxExponent in
  let bExponent := Z.land (Z.shiftr b significandBits) maxExponent in
  let aSignificand := Z.land a significandMask in
  let bSignificand := Z.land b significandMask in
  if (maxExponent - 1 <=? u32 (aExponent - 1)) || (maxExponent - 1 <=? u32 (bExponent - 1)) then
    let aAbs := Z.land a absMask in
    let bAbs := Z.land b absMask in
    if infRep <? aAbs then inl (Z.lor a quietBit)
    else if infRep <? bAbs then inl (Z.lor b quietBit)
    else if aAbs =? infRep then if negb (bAbs =? 0) then inl (Z.lor aAbs productSign) else inl qnanRep
    else if bAbs =? infRep then if negb (aAbs =? 0) then inl (Z.lor bAbs productSign) else inl qnanRep
    else if aAbs =? 0 then inl productSign
    else if bAbs =? 0 then inl productSign
    else
      let '(aSignificand, sa) := if aAbs <? implicitBit then normalize aSignificand else (aSignificand, 0) in
      let '(bSignificand, sb) := if bAbs <? implicitBit then normalize bSignificand else (bSignificand, 0) in
      inr (aSignificand, bSignificand, sa + sb)
  else inr (aSignificand, bSignificand, 0).

Definition mul_round (productSign productExponent productHi productLo : Z) : Z :=
  if maxExponent <=? productExponent then Z.lor infRep productSign
  else
    let shifted :=
      if productExponent <=? 0 then
        let shift := u32 (rep (1 - u32 productExponent)) in
        if typeWidth <=? shift then None else Some (wideRightShiftWithSticky productHi productLo shift)
      else Some (Z.lor (Z.land productHi significandMask) (rshl productExponent significandBits), productLo) in
    match shifted with
    | None => productSign
    | Some (productHi, productLo) =>
      let productHi := Z.lor productHi productSign in
      let productHi := if signBit <? productLo then rep (productHi + 1) else productHi in
      if productLo =? signBit then rep (productHi + Z.land productHi 1) else productHi
    end.

Definition mulXf3 (a b : Z) : Z :=
  let aExponent := Z.land (Z.shiftr a significandBits) maxExponent in
  let bExponent := Z.land (Z.shiftr b significandBits) maxExponent in
  let productSign := Z.land (Z.lxor a b) signBit in
  match mul_special a b productSign with
  | inl r => r
  | inr (aSignificand, bSignificand, scale) =>
    let aSignificand := Z.lor aSignificand implicitBit in
    let bSignificand := Z.lor bSignificand implicitBit in
    let '(productHi, productLo) := wideMultiply aSignificand (rshl bSignificand exponentBits) in
    let productExponent := s32 (aExponent + bExponent - exponentBias + scale) in
    let '(productExponent, (productHi, productLo)) :=
      if negb (Z.land productHi implicitBit =? 0) then (productExponent + 1, (productHi, productLo))
      else (productExponent, wideLeftShift productHi productLo 1) in
    mul_round productSign productExponent productHi productLo
  end.

(** ** Division *)

Definition HW : Z := typeWidth / 2.
Definition loMask : Z := Z.shiftr (umax typeWidth) HW.
Definition RECIPROCAL_PRECISION : Z := 13922.

(** One half-width Newton iteration. *)
Definition half_iteration (b_UQ1_hw x_UQ0_hw : Z) : Z :=
  let corr_UQ1_hw := wrapu HW (0 - Z.shiftr (rep (x_UQ0_hw * b_UQ1_hw)) HW) in
  wrapu HW (Z.shiftr (rep (x_UQ0_hw * corr_UQ1_hw)) (HW - 1)).

(** The approximate reciprocal of the significand. *)
Definition reciprocal (bSignificand : Z) : Z :=
  let b_UQ1 := rshl bSignificand (typeWidth - significandBits - 1) in
  let b_UQ1_hw := wrapu HW (Z.shiftr bSignificand (significandBits + 1 - HW)) in
  let C_hw := wrapu HW (Z.shiftl 0x7504F333 (HW - 32)) in
  let x_UQ0_hw := wrapu HW (C_hw - b_UQ1_hw) in
  let x_UQ0_hw := half_iteration b_UQ1_hw x_UQ0_hw in
  let x_UQ0_hw := half_iteration b_UQ1_hw x_UQ0_hw in
  let x_UQ0_hw := half_iteration b_UQ1_hw x_UQ0_hw in
  let x_UQ0_hw := half_iteration b_UQ1_hw x_UQ0_hw in
  let x_UQ0_hw := wrapu HW (x_UQ0_hw - 1) in
  let blo := Z.land b_UQ1 loMask in
  let corr_UQ1 := rep (0 - rep (rep (rep (x_UQ0_hw * b_UQ1_hw) + Z.shiftr (rep (x_UQ0_hw * blo)) HW) - 1)) in
  let lo_corr := Z.land corr_UQ1 loMask in
  let hi_corr := Z.shiftr corr_UQ1 HW in
  let x_UQ0 := rep (rshl (rep (x_UQ0_hw * hi_corr)) 1 + Z.shiftr (rep (x_UQ0_hw * lo_corr)) (HW - 1) - 2) in
  let x_UQ0 := rep (x_UQ0 - 1) in
  let x_UQ0 := rep (x_UQ0 - 2) in
  rep (x_UQ0 - RECIPROCAL_PRECISION).

Definition div_special (a b quotientSign : Z) : Z + (Z * Z * Z) :=
  let aExponent := Z.land (Z.shiftr a significandBits) maxExponent in
  let bExponent := Z.land (Z.shiftr b significandBits) maxExponent in
  let aSignificand := Z.land a significandMask in
  let bSignificand := Z.land b significandMask in
  if (maxExponent - 1 <=? u32 (aExponent - 1)) || (maxExponent - 1 <=? u32 (bExponent - 1)) then
    let aAbs := Z.land a absMask in
    let bAbs := Z.land b absMask in
    if infRep <? aAbs then inl (Z.lor a quietBit)
    else if infRep <? bAbs then inl (Z.lor b quietBit)
    else if aAbs =? infRep then if bAbs =? infRep then inl qnanRep else inl (Z.lor aAbs quotientSign)
    else if bAbs =? infRep then inl quotientSign
    else if aAbs =? 0 then if bAbs =? 0 then inl qnanRep else inl quotientSign
    else if bAbs =? 0 then inl (Z.lor infRep quotientSign)
    else
      let '(aSignificand, sa) := if aAbs <? implicitBit then normalize aSignificand else (aSignificand, 0) in
      let '(bSignificand, sb) := if bAbs <? implicitBit then normalize bSignificand else (bSignificand, 0) in
      inr (aSignificand, bSignificand, sa - sb)
  else inr (aSignificand, bSignificand, 0).

Definition div_round (quotientSign writtenExponent aSignificand bSignificand quotient_UQ1 residualLo : Z) : Z :=
  if maxExponent <=? writtenExponent then Z.lor infRep quotientSign
  else
    let placed :=
      if 0 <? writtenExponent then
        Some (Z.lor (Z.land quotient_UQ1 significandMask) (rshl writtenExponent significandBits), rshl residualLo 1)
      else if significandBits + writtenExponent <? 0 then None
      else
        let absResult := Z.shiftr quotient_UQ1 (- writtenExponent + 1) in
        Some (absResult, rep (rshl aSignificand (significandBits + writtenExponent) - rshl (rep (absResult * bSignificand)) 1)) in
    match placed with
    | None => quotientSign
    | Some (absResult, residualLo) =>
      let residualLo := rep (residualLo + Z.land absResult 1) in
      let absResult := rep (absResult + (if bSignificand <? residualLo then 1 else 0)) in
      let absResult := rep (absResult + (if (absResult <? infRep) && (rep (3 * bSignificand) <? residualLo) then 1 else 0)) in
      let absResult := rep (absResult + (if (absResult <? infRep) && (rep (5 * bSignificand) <? residualLo) then 1 else 0)) in
      Z.lor absResult quotientSign
    end.

Definition divXf3 (a b : Z) : Z :=
  let aExponent := Z.land (Z.shiftr a significandBits) maxExponent in
  let bExponent := Z.land (Z.shiftr b significandBits) maxExponent in
  let quotientSign := Z.land (Z.lxor a b) signBit in
  match div_special a b quotientSign with
  | inl r => r
  | inr (aSignificand, bSignificand, scale) =>
    let aSignificand := Z.lor aSignificand implicitBit in
    let bSignificand := Z.lor bSignificand implicitBit in
    let writtenExponent := s32 (u32 (aExponent - bExponent + scale) + exponentBias) in
    let '(quotient_UQ1, _) := wideMultiply (reciprocal bSignificand) (rshl aSignificand 1) in
    if quotient_UQ1 <? rshl implicitBit 1 then
      div_round quotientSign (writtenExponent - 1) (rshl aSignificand 1) bSignificand quotient_UQ1
        (rep (rshl aSignificand (significandBits + 1) - rep (quotient_UQ1 * bSignificand)))
    else
      let quotient_UQ1 := Z.shiftr quotient_UQ1 1 in
      div_round quotientSign writtenExponent aSignificand bSignificand quotient_UQ1
        (rep (rshl aSignificand significandBits - rep (quotient_UQ1 * bSignificand)))
  end.
End Flt.

(** ** Conversion between formats *)

Definition extract_sign (F : fmt) (x : Z) : Z := Z.shiftr (Z.land x (Z.shiftl 1 (width F - 1))) (width F - 1).
Definition extract_exp (F : fmt) (x : Z) : Z :=
  let sigBits := width F - 1 - ebits F in
  Z.shiftr (Z.land x (Z.shiftl (Z.shiftl 1 (ebits F) - 1) sigBits)) sigBits.
Definition extract_sig_frac (F : fmt) (x : Z) : Z := Z.land x (Z.shiftl 1 (mbits F) - 1).
Definition construct_rep (F : fmt) (sign exp sigFrac : Z) : Z :=
  Z.lor (Z.lor (wrapu (width F) (Z.shiftl sign (width F - 1))) (wrapu (width F) (Z.shiftl exp (width F - 1 - ebits F)))) sigFrac.

(** [__extendXfYf2__]; [count] is the bit count it uses for the subnormals of the
    source: leading zeros for [double], trailing zeros for [float]. *)
Definition extendXfYf2 (Src Dst : fmt) (count : Z -> Z) (x : Z) : Z :=
  let srcInfExp := Z.shiftl 1 (ebits Src) - 1 in
  let srcExpBias := Z.shiftr srcInfExp 1 in
  let dstInfExp := Z.shiftl 1 (ebits Dst) - 1 in
  let dstExpBias := Z.shiftr dstInfExp 1 in
  let srcSign := extract_sign Src x in
  let srcExp := extract_exp Src x in
  let srcSigFrac := extract_sig_frac Src x in
  let widen (n : Z) := wrapu (width Dst) (Z.shiftl srcSigFrac n) in
  let '(dstExp, dstSigFrac) :=
    if (1 <=? srcExp) && (srcExp <? srcInfExp) then (srcExp + (dstExpBias - srcExpBias), widen (mbits Dst - mbits Src))
    else if srcExp =? srcInfExp then (dstInfExp, widen (mbits Dst - mbits Src))
    else if negb (srcSigFrac =? 0) then
      if ebits Src =? ebits Dst then (0, widen (mbits Dst - mbits Src))
      else
        let scale := (count srcSigFrac - (1 + ebits Src)) + 1 in
        (wrapu (width Dst) (dstExpBias - srcExpBias - scale + 1),
         Z.lxor (widen (mbits Dst - mbits Src + scale)) (Z.shiftl 1 (width Dst - 1 - ebits Dst)))
    else (0, 0) in
  construct_rep Dst srcSign dstExp dstSigFrac.

(** Rounding the tail away, with a carry into the exponent. *)
Definition trunc_round (Src Dst : fmt) (dstExp dstSigFrac roundBits : Z) : Z * Z :=
  let halfway := Z.shiftl 1 (mbits Src - mbits Dst - 1) in
  let dstSigFrac :=
    if halfway <? roundBits then dstSigFrac + 1
    else if roundBits =? halfway then dstSigFrac + Z.land dstSigFrac 1 else dstSigFrac in
  if Z.shiftl 1 (mbits Dst) <=? dstSigFrac then (dstExp + 1, Z.lxor dstSigFrac (Z.shiftl 1 (mbits Dst)))
  else (dstExp, dstSigFrac).

Definition truncXfYf2 (Src Dst : fmt) (a : Z) : Z :=
  let srcInfExp := Z.shiftl 1 (ebits Src) - 1 in
  let srcExpBias := Z.shiftr srcInfExp 1 in
  let srcMinNormal := Z.shiftl 1 (mbits Src) in
  let roundMask := Z.shiftl 1 (mbits Src - mbits Dst) - 1 in
  let srcQNaN := Z.shiftl 1 (mbits Src - 1) in
  let srcNaNCode := srcQNaN - 1 in
  let dstInfExp := Z.shiftl 1 (ebits Dst) - 1 in
  let dstExpBias := Z.shiftr dstInfExp 1 in
  let overflowExponent := srcExpBias + dstInfExp - dstExpBias in
  let dstQNaN := Z.shiftl 1 (mbits Dst - 1) in
  let dstNaNCode := dstQNaN - 1 in
  let srcSign := extract_sign Src a in
  let srcExp := extract_exp Src a in
  let srcSigFrac := extract_sig_frac Src a in
  let sigFracTailBits := mbits Src - mbits Dst in
  if (ebits Src =? ebits Dst) && (wrapu (width Src) (Z.shiftl (Z.shiftr a sigFracTailBits) sigFracTailBits) =? a)
  then construct_rep Dst srcSign srcExp (Z.shiftr srcSigFrac sigFracTailBits)
  else
    let dstExpCandidate := srcExp - srcExpBias + dstExpBias in
    let '(dstExp, dstSigFrac) :=
      if (1 <=? dstExpCandidate) && (dstExpCandidate <? dstInfExp) then
        trunc_round Src Dst dstExpCandidate (Z.shiftr srcSigFrac sigFracTailBits) (Z.land srcSigFrac roundMask)
      else if (srcExp =? srcInfExp) && negb (srcSigFrac =? 0) then
        (dstInfExp, Z.lor dstQNaN (Z.land (Z.shiftr (Z.land srcSigFrac srcNaNCode) sigFracTailBits) dstNaNCode))
      else if overflowExponent <=? srcExp then (dstInfExp, 0)
      else
        let shift := s32 (wrapu (width Src) (srcExpBias - dstExpBias - srcExp)) in
        let '(significand, shift) :=
          if negb (srcExp =? 0) then (Z.lor srcSigFrac srcMinNormal, shift + 1) else (srcSigFrac, shift) in
        if mbits Src <? shift then (0, 0)
        else
          let sticky := if negb (shift =? 0) && negb (wrapu (width Src) (Z.shiftl significand (width Src - shift)) =? 0) then 1 else 0 in
          let denormalizedSignificand := Z.lor (Z.shiftr significand shift) sticky in
          trunc_round Src Dst 0 (Z.shiftr denormalizedSignificand sigFracTailBits) (Z.land denormalizedSignificand roundMask) in
    construct_rep Dst srcSign dstExp dstSigFrac.

(** ** The functions the compiler calls *)
Definition __letf2 : Z -> Z -> Z := leXf2 F128.
Definition __getf2 : Z -> Z -> Z := geXf2 F128.
Definition __fixtfdi : Z -> Z := fixint F128.
Definition __fixtfsi (x : Z) : Z := s32 (fixint F128 x).
Definition __fixunstfsi (x : Z) : Z := u32 (fixuint F128 x).
Definition __floatditf : Z -> Z := float_signed F128 64.
Definition __floatsitf : Z -> Z := float_signed F128 32.
Definition __floatunsitf : Z -> Z := float_unsigned F128 32.
Definition __addtf3 (rm : rounding) (a b : Z) : Z * bool := addXf3 F128 rm a b.
Definition __subtf3 (rm : rounding) (a b : Z) : Z * bool := subXf3 F128 rm a b.
Definition __multf3 : Z -> Z -> Z := mulXf3 F128.
Definition __divtf3 : Z -> Z -> Z := divXf3 F128.
Definition __extenddftf2 : Z -> Z := extendXfYf2 F64 F128 (clz 64).
Definition __extendsftf2 : Z -> Z := extendXfYf2 F32 F128 ctz.
Definition __trunctfdf2 : Z -> Z := truncXfYf2 F128 F64.
Definition __trunctfsf2 : Z -> Z := truncXfYf2 F128 F32.

(** 0.1 + 0.2 in quadruple precision, and the same numbers from double precision. *)
Definition quad (x : Z) : Z := fcvt F64 F128 x.
