(* ===== verification/SoftFloatFacts.v ===== *)
(** * Quadruple precision in software: correctness

    The bit-level addition, comparison and conversions of {!SoftFloat} against the
    arithmetic of {!Ieee}, where every operation is the exact result, rounded. *)

From S2P Require Import Prelude Ieee MathBits MathRound MathRem SoftFloat.

#[local] Open Scope Z_scope.

(** ** Rounding in the four modes

    Division by [2 ^ k], the sign of the number deciding the directed modes. *)
Definition rounds_up (rm : rounding) (neg : bool) (c : comparison) (inexact odd : bool) : bool :=
  match rm with
  | FE_TONEAREST => match c with Gt => true | Eq => odd | Lt => false end
  | FE_DOWNWARD => neg && inexact
  | FE_UPWARD => negb neg && inexact
  | FE_TOWARDZERO => false
  end.

Definition rnd (rm : rounding) (neg : bool) (n k : Z) : Z :=
  let q := n / 2 ^ k in
  let r := n mod 2 ^ k in
  if rounds_up rm neg (2 * r ?= 2 ^ k) (negb (r =? 0)) (Z.odd q) then q + 1 else q.

Lemma rnd_nearest neg n k : 0 <= k -> rnd FE_TONEAREST neg n k = rne n k.
Proof.
  intros Hk. rewrite rne_eq by exact Hk. unfold rnd, rounds_up. cbv zeta.
  destruct (Z.compare_spec (2 * (n mod 2 ^ k)) (2 ^ k)) as [E | L | G];
    destruct (Z.ltb_spec (2 ^ k) (2 * (n mod 2 ^ k))), (Z.eqb_spec (2 * (n mod 2 ^ k)) (2 ^ k)); try lia; reflexivity.
Qed.

Lemma rnd_bounds rm neg n k : n / 2 ^ k <= rnd rm neg n k <= n / 2 ^ k + 1.
Proof. unfold rnd. cbv zeta. destruct (rounds_up _ _ _ _ _); lia. Qed.

(** Rounding sees a common power of two neither in the number nor in the unit. *)
Lemma rnd_scale rm neg n k c : 0 <= k -> 0 <= c -> rnd rm neg (n * 2 ^ c) (k + c) = rnd rm neg n k.
Proof.
  intros Hk Hc. pose proof (Z.pow_pos_nonneg 2 c ltac:(lia) Hc) as Pc.
  pose proof (Z.pow_pos_nonneg 2 k ltac:(lia) Hk) as Pk. unfold rnd. cbv zeta.
  rewrite Z.pow_add_r, Z.div_mul_cancel_r, Z.mul_mod_distr_r by lia.
  replace (2 * (n mod 2 ^ k * 2 ^ c)) with (2 * (n mod 2 ^ k) * 2 ^ c) by lia.
  replace (n mod 2 ^ k * 2 ^ c =? 0) with (n mod 2 ^ k =? 0)
    by (destruct (Z.eqb_spec (n mod 2 ^ k) 0), (Z.eqb_spec (n mod 2 ^ k * 2 ^ c) 0); nia || reflexivity).
  rewrite <- (Zmult_compare_compat_r _ _ (2 ^ c)) by lia. reflexivity.
Qed.

Lemma rnd_exact rm neg m k : 0 <= k -> rnd rm neg (m * 2 ^ k) k = m.
Proof.
  intros Hk. replace k with (0 + k) at 2 by lia. rewrite rnd_scale by lia. unfold rnd. cbv zeta.
  rewrite Z.div_1_r, Z.mod_1_r. simpl. destruct rm, neg; reflexivity.
Qed.

(** With a negative [k] the number is a multiple of the unit. *)
Definition rndz (rm : rounding) (neg : bool) (n k : Z) : Z := if 0 <=? k then rnd rm neg n k else n * 2 ^ (- k).

Lemma rndz_rnd rm neg n k : 0 <= k -> rndz rm neg n k = rnd rm neg n k.
Proof. intros H. unfold rndz. destruct (Z.leb_spec 0 k); [reflexivity | lia]. Qed.

Lemma rndz_scale rm neg n k c : 0 <= c -> rndz rm neg (n * 2 ^ c) (k + c) = rndz rm neg n k.
Proof.
  intros Hc. unfold rndz. destruct (Z.leb_spec 0 (k + c)) as [Hk |], (Z.leb_spec 0 k).
  - apply rnd_scale; lia.
  - replace (n * 2 ^ c) with (n * 2 ^ (- k) * 2 ^ (k + c)) by (rewrite <- Z.mul_assoc, <- Z.pow_add_r by lia; do 2 f_equal; lia).
    apply rnd_exact. lia.
  - lia.
  - rewrite <- Z.mul_assoc, <- Z.pow_add_r by lia. do 2 f_equal. lia.
Qed.

(** ** The sticky bit *)
Definition stk (n d : Z) : Z := if n mod 2 ^ d =? 0 then n / 2 ^ d else 2 * (n / 2 ^ d / 2) + 1.

Lemma stk_0 n : stk n 0 = n.
Proof. unfold stk. rewrite Z.mod_1_r, Z.div_1_r. reflexivity. Qed.

Lemma stk_exact m d : 0 <= d -> stk (m * 2 ^ d) d = m.
Proof.
  intros Hd. pose proof (Z.pow_pos_nonneg 2 d ltac:(lia) Hd). unfold stk. rewrite Z.mod_mul, Z.div_mul by lia. reflexivity.
Qed.

Lemma lor_one q : Z.lor q 1 = 2 * (q / 2) + 1.
Proof.
  replace (2 * (q / 2) + 1) with (Z.lor 1 (Z.shiftl (q / 2) 1)) by (rewrite lor_fields by lia; lia).
  apply Z.bits_inj'. intros i Hi. rewrite !Z.lor_spec. destruct (Z.eq_dec i 0) as [-> | Ni].
  - rewrite orb_comm. reflexivity.
  - replace (Z.testbit 1 i) with false by (change 1 with (Z.ones 1); rewrite Z.ones_spec_high by lia; reflexivity).
    rewrite orb_false_r. simpl orb. rewrite Z.shiftl_spec by lia.
    replace (q / 2) with (Z.shiftr q 1) by (rewrite Z.shiftr_div_pow2 by lia; reflexivity).
    rewrite Z.shiftr_spec by lia. f_equal. lia.
Qed.

Lemma bit_test x n : 0 <= n -> 0 <= x < 2 * 2 ^ n -> (Z.land x (2 ^ n) =? 0) = (x <? 2 ^ n).
Proof.
  intros Hn Hx. assert (L0 : forall y, 0 <= y < 2 ^ n -> Z.land y (2 ^ n) = 0).
  { intros y Hy. apply Z.bits_inj'. intros i Hi. rewrite Z.land_spec, Z.bits_0, Z.pow2_bits_eqb by lia.
    destruct (Z.eqb_spec n i) as [<- |]; [| apply andb_false_r].
    rewrite <- (Z.mod_small _ _ Hy), Z.mod_pow2_bits_high by lia. reflexivity. }
  destruct (Z.ltb_spec x (2 ^ n)) as [L | G]; [rewrite L0 by lia; reflexivity |].
  replace x with (Z.lor (x - 2 ^ n) (Z.shiftl 1 n)) by (rewrite lor_fields by lia; lia).
  rewrite Z.land_lor_distr_l, L0, Z.shiftl_1_l, Z.land_diag by lia. simpl. apply Z.eqb_neq.
  pose proof (Z.pow_pos_nonneg 2 n ltac:(lia) Hn). rewrite Z.lor_0_l. lia.
Qed.

(** Clearing the leading bit. *)
Lemma lxor_top x n : 0 <= n -> 2 ^ n <= x < 2 * 2 ^ n -> Z.lxor x (Z.shiftl 1 n) = x - 2 ^ n.
Proof.
  intros Hn Hx. replace x with (Z.lor (x - 2 ^ n) (Z.shiftl 1 n)) at 1 by (rewrite lor_fields by lia; lia).
  assert (D0 : Z.land (x - 2 ^ n) (Z.shiftl 1 n) = 0).
  { rewrite Z.shiftl_1_l. pose proof (bit_test (x - 2 ^ n) n ltac:(lia) ltac:(lia)) as B.
    destruct (Z.ltb_spec (x - 2 ^ n) (2 ^ n)); [| lia]. apply Z.eqb_eq, B. }
  rewrite <- Z.lxor_lor by exact D0. rewrite Z.lxor_assoc, Z.lxor_nilpotent. apply Z.lxor_0_r.
Qed.

Lemma stk_parts n d p : 0 <= n -> 0 <= d -> 2 <= p ->
  stk n d / 2 ^ p = n / 2 ^ (p + d) /\
  (2 * (stk n d mod 2 ^ p) ?= 2 ^ p) = (2 * (n mod 2 ^ (p + d)) ?= 2 ^ (p + d)) /\
  (stk n d mod 2 ^ p =? 0) = (n mod 2 ^ (p + d) =? 0).
Proof.
  intros Hn Hd Hp. pose proof (Z.pow_pos_nonneg 2 d ltac:(lia) Hd) as Pd.
  pose proof (Z.pow_pos_nonneg 2 (p - 2) ltac:(lia) ltac:(lia)) as Ph. set (h := 2 ^ (p - 2)) in *.
  assert (Ep : 2 ^ p = 4 * h) by (unfold h; change 4 with (2 ^ 2); rewrite <- Z.pow_add_r by lia; f_equal; lia).
  rewrite Z.pow_add_r, (Z.mul_comm (2 ^ p)), <- Z.div_div, Z.rem_mul_r by lia. rewrite Ep.
  pose proof (Z.mod_pos_bound n (2 ^ d) Pd) as Hr. unfold stk.
  set (q := n / 2 ^ d) in *. set (r := n mod 2 ^ d) in *.
  pose proof (Z.mod_pos_bound q (4 * h) ltac:(lia)) as Hc. pose proof (Z.div_mod q (4 * h) ltac:(lia)) as Dq.
  set (c := q mod (4 * h)) in *. set (Q := q / (4 * h)) in *.
  destruct (Z.eqb_spec r 0) as [-> | Nr].
  - rewrite Z.add_0_l. fold c Q. split; [reflexivity |]. split.
    + replace (2 * (2 ^ d * c)) with (2 * c * 2 ^ d) by lia. rewrite (Z.mul_comm (2 ^ d)).
      rewrite <- (Zmult_compare_compat_r _ _ (2 ^ d)) by lia. reflexivity.
    + destruct (Z.eqb_spec c 0), (Z.eqb_spec (2 ^ d * c) 0); nia || reflexivity.
  - pose proof (Z.div_mod q 2 ltac:(lia)) as D2. pose proof (Z.mod_pos_bound q 2 ltac:(lia)) as B2.
    pose proof (Z.div_mod c 2 ltac:(lia)) as Dc. pose proof (Z.mod_pos_bound c 2 ltac:(lia)) as Bc.
    assert (E2 : 2 * (q / 2) + 1 = (4 * h) * Q + (2 * (c / 2) + 1)).
    { assert (q / 2 = 2 * h * Q + c / 2); [| lia].
      rewrite Dq. replace (4 * h * Q + c) with (c + (2 * h * Q) * 2) by lia. rewrite Z.div_add by lia. lia. }
    rewrite E2. assert (Bm : 0 <= 2 * (c / 2) + 1 < 4 * h) by lia.
    rewrite <- (Z.div_unique _ (4 * h) Q _ (or_introl Bm) eq_refl), <- (Z.mod_unique _ (4 * h) Q _ (or_introl Bm) eq_refl).
    split; [reflexivity |]. split.
    + destruct (Z.lt_ge_cases c (2 * h)) as [L | G].
      * rewrite (proj2 (Z.compare_lt_iff _ _)) by lia. symmetry. apply Z.compare_lt_iff. nia.
      * rewrite (proj2 (Z.compare_gt_iff _ _)) by lia. symmetry. apply Z.compare_gt_iff. nia.
    + rewrite (proj2 (Z.eqb_neq _ 0)) by lia. symmetry. apply Z.eqb_neq. nia.
Qed.

(** Rounding two or more bits above the sticky bit is rounding the number. *)
Lemma rnd_stk rm neg n d p : 0 <= n -> 0 <= d -> 2 <= p -> rnd rm neg (stk n d) p = rnd rm neg n (p + d).
Proof.
  intros Hn Hd Hp. destruct (stk_parts n d p Hn Hd Hp) as (E1 & E2 & E3). unfold rnd. cbv zeta. rewrite E1, E2, E3. reflexivity.
Qed.

Lemma stk_bounds n d : 0 <= d -> n / 2 ^ d <= stk n d <= n / 2 ^ d + 1.
Proof.
  intros Hd. unfold stk. pose proof (Z.div_mod (n / 2 ^ d) 2 ltac:(lia)). pose proof (Z.mod_pos_bound (n / 2 ^ d) 2 ltac:(lia)).
  destruct (n mod 2 ^ d =? 0); lia.
Qed.

Lemma stk_lt n d h : n / 2 ^ d < 2 * h -> stk n d < 2 * h.
Proof.
  intros H. unfold stk. destruct (n mod 2 ^ d =? 0); [exact H |].
  assert (n / 2 ^ d / 2 < h) by (apply Z.div_lt_upper_bound; lia). lia.
Qed.

Lemma stk_nonneg n d : 0 <= n -> 0 <= d -> 0 <= stk n d.
Proof.
  intros Hn Hd. pose proof (stk_bounds n d Hd). pose proof (Z.pow_pos_nonneg 2 d ltac:(lia) Hd).
  pose proof (Z.div_pos n (2 ^ d)). lia.
Qed.

Lemma stk_zero n d : 0 <= n -> 0 <= d -> stk n d = 0 -> n = 0.
Proof.
  intros Hn Hd E. unfold stk in E. pose proof (Z.pow_pos_nonneg 2 d ltac:(lia) Hd).
  pose proof (Z.div_pos n (2 ^ d) Hn ltac:(lia)). pose proof (Z.div_mod n (2 ^ d) ltac:(lia)).
  destruct (Z.eqb_spec (n mod 2 ^ d) 0) as [E0 |]; [nia |]. lia.
Qed.

(** The sticky bit passes through additions of even numbers. *)
Lemma stk_add a n d : 0 <= d -> Z.even a = true -> a + stk n d = stk (a * 2 ^ d + n) d.
Proof.
  intros Hd Ev. pose proof (Z.pow_pos_nonneg 2 d ltac:(lia) Hd). unfold stk.
  replace (a * 2 ^ d + n) with (n + a * 2 ^ d) by lia. rewrite Z.mod_add, Z.div_add by lia.
  destruct (n mod 2 ^ d =? 0); [lia |]. apply Z.even_spec in Ev as [b ->].
  replace (n / 2 ^ d + 2 * b) with (n / 2 ^ d + b * 2) by lia. rewrite Z.div_add by lia. lia.
Qed.

Lemma stk_sub a n d : 0 <= d -> Z.even a = true -> a - stk n d = stk (a * 2 ^ d - n) d.
Proof.
  intros Hd Ev. pose proof (Z.pow_pos_nonneg 2 d ltac:(lia) Hd) as Pd. apply Z.even_spec in Ev as [b ->]. unfold stk.
  pose proof (Z.div_mod n (2 ^ d) ltac:(lia)) as D. pose proof (Z.mod_pos_bound n (2 ^ d) Pd) as B.
  set (q := n / 2 ^ d) in *. set (r := n mod 2 ^ d) in *.
  destruct (Z.eqb_spec r 0) as [Er | Nr].
  - assert (E : 2 * b * 2 ^ d - n = (2 * b - q) * 2 ^ d) by nia. rewrite E, Z.mod_mul, Z.div_mul by lia. reflexivity.
  - assert (E : 2 * b * 2 ^ d - n = 2 ^ d * (2 * b - q - 1) + (2 ^ d - r)) by nia.
    assert (Bm : 0 <= 2 ^ d - r < 2 ^ d) by lia.
    rewrite <- (Z.mod_unique _ _ _ _ (or_introl Bm) E), <- (Z.div_unique _ _ _ _ (or_introl Bm) E).
    destruct (Z.eqb_spec (2 ^ d - r) 0); [lia |].
    pose proof (Z.div_mod q 2 ltac:(lia)). pose proof (Z.mod_pos_bound q 2 ltac:(lia)).
    assert (Ed : (2 * b - q - 1) / 2 = b - q / 2 - 1); [| lia].
    symmetry. apply (Z.div_unique _ 2 _ (1 - q mod 2)); lia.
Qed.

(** The leading bit of a number is that of its shifted form. *)
Lemma stk_log2 n d t : 0 <= d -> 1 <= t -> 2 ^ t <= stk n d < 2 ^ (t + 1) -> Z.log2 n = t + d /\ 0 < n.
Proof.
  intros Hd Ht B. pose proof (Z.pow_pos_nonneg 2 d ltac:(lia) Hd) as Pd.
  pose proof (stk_bounds n d Hd) as Sb.
  assert (Q : 2 ^ t <= n / 2 ^ d < 2 ^ (t + 1)).
  { split; [| lia]. unfold stk in B. destruct (n mod 2 ^ d =? 0); [lia |].
    pose proof (Z.div_mod (n / 2 ^ d) 2 ltac:(lia)). pose proof (Z.mod_pos_bound (n / 2 ^ d) 2 ltac:(lia)).
    replace t with (t - 1 + 1) in B |- * by lia. rewrite Z.pow_add_r in B |- * by lia. lia. }
  pose proof (Z.div_mod n (2 ^ d) ltac:(lia)) as D. pose proof (Z.mod_pos_bound n (2 ^ d) Pd) as R.
  pose proof (Z.pow_pos_nonneg 2 t ltac:(lia) ltac:(lia)) as Pt.
  assert (N : 2 ^ (t + d) <= n < 2 ^ (t + d + 1)).
  { rewrite !Z.pow_add_r in * by lia. nia. }
  split; [apply Z.log2_unique; [lia |]; replace (Z.succ (t + d)) with (t + d + 1) by lia; exact N |].
  pose proof (Z.pow_pos_nonneg 2 (t + d)). lia.
Qed.

(** ** The constants *)

(** What the routines need of the format besides: room for the round, guard and
    sticky bits and a carry, and two words of half the width. *)
Class WideFmt (F : fmt) : Prop := {
  wide_ebits : 5 <= ebits F <= 24;
  wide_mbits : mbits F <= 2 ^ 24;
  wide_even : 2 * (width F / 2) = width F;
  wide_words : 64 < width F
}.

#[export] Instance F128_wide : WideFmt F128.
Proof. split; simpl; lia || reflexivity. Qed.

Section Quad.
Context (F : fmt) {HF : FmtOk F} {HW : WideFmt F}.

Abbreviation W := (width F).
Abbreviation MB := (mbits F).

Lemma exponentBits_eq : exponentBits F = ebits F.
Proof using. unfold exponentBits, typeWidth, significandBits, width. lia. Qed.

Lemma maxExponent_eq : maxExponent F = emax F.
Proof using HF. unfold maxExponent. rewrite exponentBits_eq, Z.shiftl_1_l. reflexivity. Qed.

Lemma exponentBias_eq : exponentBias F = bias F.
Proof using HF.
  unfold exponentBias. rewrite maxExponent_eq. pose proof (ebits_gt F). unfold emax, bias.
  rewrite Z.shiftr_div_pow2 by lia. change (2 ^ 1) with 2.
  symmetry. apply (Z.div_unique _ 2 _ 1); [lia |].
  replace (2 ^ ebits F) with (2 * 2 ^ (ebits F - 1)) by (rewrite <- Z.pow_succ_r by lia; f_equal; lia). lia.
Qed.

Lemma implicitBit_eq : implicitBit F = 2 ^ MB.
Proof using. unfold implicitBit. apply Z.shiftl_1_l. Qed.

Lemma signBit_eq : signBit F = sgnbit F.
Proof using. unfold signBit. rewrite Z.shiftl_1_l, exponentBits_eq. unfold sgnbit, significandBits, width. f_equal. lia. Qed.

Lemma infRep_eq : infRep F = inf_mag F.
Proof using HF.
  unfold infRep, exponentMask, absMask, significandMask. rewrite signBit_eq, implicitBit_eq.
  pose proof (inf_lt_sgnbit F) as [_ I]. pose proof (pow_m_pos F). pose proof (mbits_gt F). pose proof (ebits_gt F).
  replace (sgnbit F - 1) with (Z.lor (2 ^ MB - 1) (Z.shiftl (emax F) MB)).
  2: { rewrite lor_fields by lia. unfold inf_mag in I. lia. }
  replace (inf_mag F) with (Z.shiftl (emax F) MB) by (unfold inf_mag; rewrite Z.shiftl_mul_pow2 by lia; reflexivity).
  apply Z.bits_inj'. intros i Hi. rewrite Z.lxor_spec, Z.lor_spec.
  replace (2 ^ MB - 1) with (Z.ones MB) by (rewrite Z.ones_equiv; lia).
  destruct (Z.lt_ge_cases i MB).
  - rewrite Z.ones_spec_low, Z.shiftl_spec_low by lia. reflexivity.
  - rewrite Z.ones_spec_high by lia. simpl. apply xorb_false_r.
Qed.

Lemma quietBit_eq : quietBit F = 2 ^ (MB - 1).
Proof using HF.
  pose proof (mbits_gt F). unfold quietBit. rewrite implicitBit_eq, Z.shiftr_div_pow2 by lia.
  rewrite <- Z.pow_sub_r by lia. reflexivity.
Qed.

Lemma qnanRep_eq : qnanRep F = qnan F.
Proof using HF.
  pose proof (mbits_gt F). unfold qnanRep. fold (infRep F). rewrite infRep_eq, quietBit_eq, Z.lor_comm. unfold qnan.
  assert (E : inf_mag F = Z.shiftl (emax F) MB) by (rewrite Z.shiftl_mul_pow2 by lia; reflexivity).
  rewrite E, lor_fields, Z.shiftl_mul_pow2; [lia | lia | lia |].
  split; [apply Z.pow_nonneg; lia | apply Z.pow_lt_mono_r; lia].
Qed.

Lemma abs_eq x : Z.land x (absMask F) = mag F x.
Proof using HF.
  unfold absMask, mag. rewrite signBit_eq. unfold sgnbit. apply land_low. pose proof (width_gt F). lia.
Qed.

Lemma frac_eq x : Z.land x (significandMask F) = x mod 2 ^ MB.
Proof using HF. unfold significandMask. rewrite implicitBit_eq. pose proof (mbits_gt F). apply land_low. lia. Qed.

Lemma frac_mag x : x mod 2 ^ MB = frac F (mag F x).
Proof using HF. pose proof (mbits_gt F). pose proof (ebits_gt F). unfold frac. symmetry. apply (mod_mag F). unfold width. lia. Qed.

Lemma expo_eq x : 0 <= x -> Z.land (Z.shiftr x (significandBits F)) (maxExponent F) = expo F (mag F x).
Proof using HF. intros H. rewrite maxExponent_eq. apply (efield_expo F x H). Qed.

Lemma signbit_land x : is_u W x -> Z.land x (signBit F) = if sgn F x then sgnbit F else 0.
Proof using HF.
  intros H. rewrite signBit_eq. pose proof (width_gt F). rewrite <- (with_sgn_split F x H) at 1.
  pose proof (mag_range F x) as R. unfold with_sgn.
  assert (L0 : Z.land (mag F x) (sgnbit F) = 0).
  { unfold sgnbit in *. apply Z.bits_inj'. intros i Hi. rewrite Z.land_spec, Z.bits_0, Z.pow2_bits_eqb by lia.
    destruct (Z.eqb_spec (W - 1) i) as [<- |]; [| apply andb_false_r].
    rewrite <- (Z.mod_small _ _ R), Z.mod_pow2_bits_high by lia. reflexivity. }
  destruct (sgn F x); [| exact L0].
  replace (sgnbit F + mag F x) with (Z.lor (mag F x) (Z.shiftl 1 (W - 1)))
    by (rewrite lor_fields by (unfold sgnbit in R; lia); unfold sgnbit; lia).
  rewrite Z.land_lor_distr_l, L0, Z.shiftl_1_l. fold (sgnbit F). rewrite Z.land_diag. reflexivity.
Qed.

Lemma signbit_test x : is_u W x -> (Z.land x (signBit F) =? 0) = negb (sgn F x).
Proof using HF.
  intros H. rewrite signbit_land by exact H. pose proof (sgnbit_pos F).
  destruct (sgn F x); [apply Z.eqb_neq; lia | reflexivity].
Qed.

(** ** Shifts in [rep_t] *)
Lemma rep_small x : 0 <= x < 2 ^ W -> rep F x = x.
Proof using. intros H. apply wrapu_small. exact H. Qed.

Lemma rshl_small x n : 0 <= n -> 0 <= x -> x * 2 ^ n < 2 ^ W -> rshl F x n = x * 2 ^ n.
Proof using. intros Hn Hx B. unfold rshl. rewrite Z.shiftl_mul_pow2 by lia. apply rep_small. pose proof (Z.pow_nonneg 2 n). nia. Qed.

Lemma sticky_shift_eq x n : 0 <= x < 2 ^ W -> 0 <= n <= W -> sticky_shift F x n = stk x n.
Proof using HF.
  intros Hx Hn. unfold sticky_shift, stk, rshl, rep, wrapu, typeWidth.
  pose proof (Z.pow_pos_nonneg 2 n ltac:(lia) ltac:(lia)) as Pn. pose proof (Z.pow_pos_nonneg 2 (W - n) ltac:(lia) ltac:(lia)) as Pw.
  rewrite Z.shiftl_mul_pow2, Z.shiftr_div_pow2 by lia.
  replace (2 ^ W) with (2 ^ n * 2 ^ (W - n)) by (rewrite <- Z.pow_add_r by lia; f_equal; lia).
  rewrite Z.mul_mod_distr_r by lia.
  destruct (Z.eqb_spec (x mod 2 ^ n) 0) as [E | N].
  - rewrite E. simpl. apply Z.lor_0_r.
  - destruct (Z.eqb_spec (x mod 2 ^ n * 2 ^ (W - n)) 0); [nia |]. apply lor_one.
Qed.

Lemma rep_clz_eq x : 0 < x < 2 ^ W -> rep_clz F x = W - 1 - Z.log2 x.
Proof using HF HW.
  intros Hx. pose proof (wide_even (F := F)) as Ev. pose proof (width_gt F). unfold rep_clz, clz, typeWidth, wrapu.
  set (h := W / 2) in *. assert (Hh : 0 < h) by lia. pose proof (Z.pow_pos_nonneg 2 h ltac:(lia) ltac:(lia)) as Ph.
  destruct (Z.eqb_spec (Z.shiftr x h) 0) as [E | N]; simpl negb; cbv iota.
  - rewrite Z.shiftr_div_pow2 in E by lia. apply Z.div_small_iff in E; [| lia]. rewrite Z.mod_small by lia. lia.
  - rewrite Z.log2_shiftr by lia.
    assert (2 ^ h <= x).
    { rewrite Z.shiftr_div_pow2 in N by lia. destruct (Z.lt_ge_cases x (2 ^ h)) as [L |]; [| assumption].
      rewrite Z.div_small in N by lia. contradiction. }
    apply Z.log2_le_pow2 in H0; [| lia]. lia.
Qed.

(** ** Significand and exponent *)

(** [A] and [e] are the normalised significand and exponent of [v] units. *)
Definition normal_pair (v A e : Z) : Prop :=
  2 ^ MB <= A < 2 * 2 ^ MB /\ 1 - MB <= e <= emax F - 1 /\ A * 2 ^ (e - 1 + MB) = v * 2 ^ MB.

Lemma lor_implicit s : 0 <= s < 2 * 2 ^ MB -> Z.lor s (implicitBit F) = if s <? 2 ^ MB then s + 2 ^ MB else s.
Proof using HF.
  intros Hs. pose proof (mbits_gt F). unfold implicitBit, significandBits. destruct (Z.ltb_spec s (2 ^ MB)).
  - rewrite lor_fields by lia. lia.
  - replace s with (Z.lor (s - 2 ^ MB) (Z.shiftl 1 MB)) at 1 by (rewrite lor_fields by lia; lia).
    rewrite <- Z.lor_assoc, Z.lor_diag, lor_fields by lia. lia.
Qed.

Lemma width_room : MB + 6 <= W.
Proof using HW. pose proof (wide_ebits (F := F)). unfold width. lia. Qed.

Lemma pow_room n : 0 <= n -> n <= W -> 2 ^ n <= 2 ^ W.
Proof using. intros H K. apply Z.pow_le_mono_r; lia. Qed.

Lemma unpack_normal x e s : is_u W x -> 0 < mag F x < inf_mag F -> unpack F x = (e, s) ->
  normal_pair (mval F (mag F x)) (Z.lor s (implicitBit F)) e.
Proof using HF HW.
  intros U Hm E. pose proof (mbits_gt F) as Mb. pose proof (pow_m_pos F) as Pm. pose proof width_room as Wr.
  pose proof (pow_room (MB + 1) ltac:(lia) ltac:(lia)) as Pw. rewrite Z.pow_add_r in Pw by lia. change (2 ^ 1) with 2 in Pw.
  unfold unpack in E. rewrite expo_eq, frac_eq, frac_mag in E by (unfold is_u in U; lia).
  destruct (expo_frac F (mag F x) ltac:(lia)) as (Ex & E0 & Hf). set (a := mag F x) in *.
  assert (Em : expo F a <= emax F - 1) by (unfold inf_mag in Hm; nia).
  unfold normal_pair, mval, decode. destruct (Z.eqb_spec (expo F a) 0) as [Z0 | N].
  - unfold normalize in E. injection E as <- <-. assert (F0 : 0 < frac F a) by lia.
    assert (Lg : Z.log2 (frac F a) < MB) by (apply Z.log2_lt_pow2; lia). pose proof (Z.log2_nonneg (frac F a)) as Ln.
    destruct (Z.log2_spec (frac F a) F0) as [L1 L2]. rewrite Z.pow_succ_r in L2 by lia.
    rewrite implicitBit_eq. rewrite !rep_clz_eq by lia. rewrite Z.log2_pow2 by lia.
    set (g := Z.log2 (frac F a)) in *. replace (W - 1 - g - (W - 1 - MB)) with (MB - g) by lia.
    assert (P : 2 ^ MB = 2 ^ g * 2 ^ (MB - g)) by (rewrite <- Z.pow_add_r by lia; f_equal; lia).
    pose proof (Z.pow_pos_nonneg 2 (MB - g) ltac:(lia) ltac:(lia)) as Pg.
    assert (R : 2 ^ MB <= frac F a * 2 ^ (MB - g) < 2 * 2 ^ MB) by nia.
    rewrite rshl_small by lia. pose proof (lor_implicit (frac F a * 2 ^ (MB - g)) ltac:(lia)) as Li.
    rewrite implicitBit_eq in Li. rewrite Li. clear Li.
    destruct (Z.ltb_spec (frac F a * 2 ^ (MB - g)) (2 ^ MB)); [lia |]. split; [exact R |]. split.
    + split; [lia |]. pose proof (pow_e_ge F). unfold emax. lia.
    + rewrite <- Z.mul_assoc, <- Z.pow_add_r by lia. change (2 ^ 0) with 1. rewrite Z.mul_1_r. f_equal. f_equal. lia.
  - injection E as <- <-. rewrite lor_implicit by lia. destruct (Z.ltb_spec (frac F a) (2 ^ MB)); [| lia].
    split; [lia |]. split; [lia |]. rewrite Z.pow_add_r by lia. nia.
Qed.

Lemma normal_pair_order v A e v' A' e' : normal_pair v A e -> normal_pair v' A' e' -> v' <= v -> e' <= e.
Proof using HF.
  intros (HA & He & Ev) (HA' & He' & Ev') L. destruct (Z.le_gt_cases e' e) as [| G]; [assumption |]. exfalso.
  pose proof (pow_m_pos F).
  assert (P : 2 ^ (e' - 1 + MB) = 2 ^ (e' - e - 1) * 2 * 2 ^ (e - 1 + MB)).
  { rewrite <- Z.mul_assoc, <- Z.pow_succ_r, <- Z.pow_add_r by lia. f_equal. lia. }
  pose proof (Z.pow_pos_nonneg 2 (e' - e - 1) ltac:(lia) ltac:(lia)) as Pk.
  pose proof (Z.pow_pos_nonneg 2 (e - 1 + MB) ltac:(lia) ltac:(lia)) as Pp. rewrite P in Ev'.
  set (k := 2 ^ (e' - e - 1)) in *. set (p := 2 ^ (e - 1 + MB)) in *. set (c := 2 ^ MB) in *.
  assert (A' * (k * 2 * p) <= A * p) by nia. assert (c * 2 * p <= A' * (k * 2 * p)) by nia. nia.
Qed.

(** ** Alignment *)
Lemma align_eq eA eB B8 : - 2 ^ 24 <= eB <= eA -> eA <= 2 ^ 24 -> 0 < B8 < 2 ^ W -> add_align F eA eB B8 = stk B8 (eA - eB).
Proof using HF.
  intros He Hm HB. pose proof (width_gt F). unfold add_align, typeWidth. rewrite wrapu_small by (unfold is_u; lia).
  destruct (Z.eqb_spec (eA - eB) 0) as [-> |]; [symmetry; apply stk_0 |].
  destruct (Z.ltb_spec (eA - eB) W) as [L | G]; [apply sticky_shift_eq; lia |].
  pose proof (pow_room W ltac:(lia) ltac:(lia)). assert (2 ^ W <= 2 ^ (eA - eB)) by (apply Z.pow_le_mono_r; lia).
  unfold stk. rewrite Z.mod_small, Z.div_small by lia. destruct (Z.eqb_spec B8 0); [lia | reflexivity].
Qed.

(** ** The sum, normalised *)

(** [S] and [e] stand for [M * 2 ^ k] units: the leading bit is in place, and every
    rounding at the guard bits or above is that of the exact sum. *)
Definition normed (M k e S : Z) : Prop :=
  0 < M /\ 2 ^ (MB + 3) <= S < 2 ^ (MB + 4) /\ e = Z.log2 M + k - MB + 1 /\
  forall rm neg p, 3 <= p -> rnd rm neg S p = rndz rm neg M (p + Z.log2 M - MB - 3).

Lemma normed_plain M k d : 0 <= M -> 0 <= d -> 2 ^ (MB + 3) <= stk M d < 2 ^ (MB + 4) -> normed M k (d + k + 4) (stk M d).
Proof using HF.
  intros HM Hd B. pose proof (mbits_gt F). replace (MB + 4) with (MB + 3 + 1) in B by lia.
  destruct (stk_log2 M d (MB + 3) Hd ltac:(lia) B) as [L P]. replace (MB + 3 + 1) with (MB + 4) in B by lia.
  split; [exact P |]. split; [exact B |]. split; [lia |]. intros rm neg p Hp. rewrite rnd_stk by lia.
  rewrite rndz_rnd by lia. f_equal. lia.
Qed.

(** The significand with three more bits and a carry. *)
Lemma pow_grs : let c := 2 ^ (MB + 3) in
  c = 8 * 2 ^ MB /\ c = 2 * 2 ^ (MB + 2) /\ 2 ^ (MB + 4) = 2 * c /\ 2 ^ (MB + 5) = 4 * c /\ 8 * c <= 2 ^ W.
Proof using HF HW.
  pose proof (mbits_gt F). pose proof width_room. intros c. unfold c.
  pose proof (pow_room (MB + 3 + 3) ltac:(lia) ltac:(lia)) as R. rewrite (Z.pow_add_r 2 (MB + 3) 3) in R by lia. change (2 ^ 3) with 8 in R.
  split; [rewrite Z.pow_add_r by lia; lia |]. split; [rewrite <- Z.pow_succ_r by lia; f_equal; lia |].
  split; [rewrite <- Z.pow_succ_r by lia; f_equal; lia |].
  split; [change 4 with (2 ^ 2); rewrite <- Z.pow_add_r by lia; f_equal; lia | lia].
Qed.

Lemma normed_carry M k d : 0 <= M -> 0 <= d -> 2 ^ (MB + 4) <= stk M d < 2 ^ (MB + 5) ->
  normed M k (d + k + 5) (stk (stk M d) 1).
Proof using HF HW.
  intros HM Hd B. pose proof (mbits_gt F). destruct pow_grs as (_ & C2 & C4 & C5 & _).
  replace (MB + 5) with (MB + 4 + 1) in B by lia. destruct (stk_log2 M d (MB + 4) Hd ltac:(lia) B) as [L P].
  replace (MB + 4 + 1) with (MB + 5) in B by lia. unfold normed. rewrite C4, C5 in *.
  set (c := 2 ^ (MB + 3)) in *. set (c2 := 2 ^ (MB + 2)) in *. split; [exact P |]. split.
  - replace (stk (stk M d) 1) with (if stk M d mod 2 =? 0 then stk M d / 2 else 2 * (stk M d / 2 / 2) + 1) by reflexivity.
    pose proof (Z.div_mod (stk M d) 2 ltac:(lia)). pose proof (Z.mod_pos_bound (stk M d) 2 ltac:(lia)).
    pose proof (Z.div_mod (stk M d / 2) 2 ltac:(lia)). pose proof (Z.mod_pos_bound (stk M d / 2) 2 ltac:(lia)).
    destruct (stk M d mod 2 =? 0); lia.
  - split; [lia |]. intros rm neg p Hp. pose proof (stk_bounds M d Hd). pose proof (Z.pow_pos_nonneg 2 (MB + 2)).
    rewrite !rnd_stk by lia. rewrite rndz_rnd by lia. f_equal. lia.
Qed.

(** Partial cancellation: one bit, or an exact difference. *)
Lemma normed_cancel M k d g : 0 <= M -> 0 <= d -> g = Z.log2 (stk M d) -> 0 < stk M d < 2 ^ (MB + 3) ->
  (g = MB + 2 \/ M = stk M d * 2 ^ d) ->
  normed M k (d + k + 4 - (MB + 3 - g)) (stk M d * 2 ^ (MB + 3 - g)).
Proof using HF HW.
  intros HM Hd Eg B Cs. pose proof (mbits_gt F). destruct pow_grs as (_ & C2 & C4 & C5 & _).
  destruct (Z.log2_spec (stk M d) ltac:(lia)) as [G1 G2]. rewrite <- Eg in G1, G2.
  assert (Hg : 0 <= g < MB + 3) by (rewrite Eg; split; [apply Z.log2_nonneg | apply Z.log2_lt_pow2; lia]).
  assert (Lg : Z.log2 M = g + d /\ 0 < M).
  { destruct Cs as [-> | E]; [apply stk_log2; [lia | lia | split; [exact G1 | rewrite Z.add_1_r; exact G2]] |].
    split; [| nia]. rewrite E, Z.log2_mul_pow2 by lia. lia. }
  destruct Lg as [Lg Mp]. pose proof (Z.pow_pos_nonneg 2 (MB + 3 - g) ltac:(lia) ltac:(lia)) as Ps.
  split; [exact Mp |]. split; [| split; [lia |]].
  - assert (E : 2 ^ (MB + 3) = 2 ^ g * 2 ^ (MB + 3 - g)) by (rewrite <- Z.pow_add_r by lia; f_equal; lia).
    rewrite Z.pow_succ_r in G2 by lia. rewrite C4. nia.
  - intros rm neg p Hp. rewrite <- (rndz_rnd rm neg (stk M d * _) p) by lia.
    replace p with (p - (MB + 3 - g) + (MB + 3 - g)) at 1 by lia. rewrite rndz_scale by lia.
    replace (p + Z.log2 M - MB - 3) with (p - (MB + 3 - g) + d) by lia.
    destruct Cs as [Eg2 | E].
    + rewrite !rndz_rnd by lia. apply rnd_stk; lia.
    + rewrite E at 2. rewrite rndz_scale by lia. reflexivity.
Qed.

(** [add_normalize] of the aligned significands [8 A] and [8 B]. *)
Lemma add_normalize_ok (sub : bool) A B eA eB :
  2 ^ MB <= A < 2 * 2 ^ MB -> 2 ^ MB <= B < 2 * 2 ^ MB -> eB <= eA -> (sub = true -> B <= A * 2 ^ (eA - eB)) ->
  let M := 8 * A * 2 ^ (eA - eB) + (if sub then - (8 * B) else 8 * B) in
  match add_normalize F sub eA (8 * A) (stk (8 * B) (eA - eB)) with
  | None => sub = true /\ M = 0
  | Some (e, Sg) => normed M (eB - 4) e Sg
  end.
Proof using HF HW.
  intros HA HB He HM M. pose proof (mbits_gt F) as Mb. destruct pow_grs as (C8 & C2 & C4 & C5 & Cw).
  set (d := eA - eB) in *. assert (Hd : 0 <= d) by lia. set (c := 2 ^ (MB + 3)) in *.
  pose proof (pow_m_pos F) as Pm. pose proof (Z.pow_pos_nonneg 2 d ltac:(lia) Hd) as Pd.
  assert (Ev : Z.even (8 * A) = true) by (apply Z.even_spec; exists (4 * A); lia).
  pose proof (stk_nonneg (8 * B) d ltac:(lia) Hd) as Sn.
  assert (Sl : stk (8 * B) d < 2 * c).
  { apply stk_lt. apply Z.div_lt_upper_bound; [exact Pd |]. nia. }
  assert (I3 : rshl F (implicitBit F) 3 = c).
  { rewrite implicitBit_eq, rshl_small by (change (2 ^ 3) with 8; lia). change (2 ^ 3) with 8. lia. }
  assert (I4 : rshl F (implicitBit F) 4 = 2 ^ (MB + 4)).
  { rewrite implicitBit_eq, rshl_small by (change (2 ^ 4) with 16; lia). change (2 ^ 4) with 16. lia. }
  unfold add_normalize. rewrite I3, I4. destruct sub.
  - assert (M0 : 0 <= M) by (unfold M; specialize (HM eq_refl); lia).
    assert (ES : 8 * A - stk (8 * B) d = stk M d) by (apply stk_sub; [exact Hd | exact Ev]).
    pose proof (stk_nonneg M d M0 Hd) as S0. rewrite rep_small by lia. rewrite ES in *.
    destruct (Z.eqb_spec (stk M d) 0) as [E0 | N0]; [split; [reflexivity | apply (stk_zero M d M0 Hd E0)] |].
    destruct (Z.ltb_spec (stk M d) c) as [L | G].
    + rewrite !rep_clz_eq by lia. assert (Lc : Z.log2 c = MB + 3) by (apply Z.log2_pow2; lia). rewrite !Lc.
      set (g := Z.log2 (stk M d)). replace (W - 1 - g - (W - 1 - (MB + 3))) with (MB + 3 - g) by lia.
      assert (Nm : normed M (eB - 4) (d + (eB - 4) + 4 - (MB + 3 - g)) (stk M d * 2 ^ (MB + 3 - g))).
      { apply normed_cancel; try assumption; [reflexivity | lia |]. destruct (Z.le_gt_cases 2 d) as [D2 | D1].
        - left. apply Z.log2_unique; [lia |]. rewrite <- Z.add_1_r. replace (MB + 2 + 1) with (MB + 3) by lia. fold c.
          split; [| exact L]. rewrite <- ES. assert (stk (8 * B) d < 2 * (2 * 2 ^ MB)); [| lia].
          apply stk_lt. apply Z.div_lt_upper_bound; [exact Pd |].
          assert (2 ^ 2 <= 2 ^ d) by (apply Z.pow_le_mono_r; lia). change (2 ^ 2) with 4 in *. nia.
        - right. rewrite <- ES. unfold M. assert (E8 : 8 * B = (4 * B * 2 ^ (1 - d)) * 2 ^ d).
          { rewrite <- Z.mul_assoc, <- Z.pow_add_r by lia. replace (1 - d + d) with 1 by lia. lia. }
          rewrite E8, stk_exact by lia. lia. }
      destruct Nm as (N1 & N2 & N3). replace (eA - (MB + 3 - g)) with (d + (eB - 4) + 4 - (MB + 3 - g)) by lia.
      rewrite rshl_small; [split; [exact N1 | split; [exact N2 | exact N3]] | | lia | lia].
      assert (g < MB + 3) by (apply Z.log2_lt_pow2; lia). lia.
    + replace eA with (d + (eB - 4) + 4) by lia. apply normed_plain; [exact M0 | exact Hd | fold c; lia].
  - assert (M0 : 0 <= M) by (unfold M; nia).
    assert (ES : 8 * A + stk (8 * B) d = stk M d) by (apply stk_add; [exact Hd | exact Ev]).
    rewrite rep_small by lia. rewrite ES in *. rewrite C4.
    rewrite <- C4, bit_test by lia. destruct (Z.ltb_spec (stk M d) (2 ^ (MB + 4))) as [L | G]; simpl negb; cbv iota.
    + replace eA with (d + (eB - 4) + 4) by lia. apply normed_plain; [exact M0 | exact Hd | fold c; lia].
    + replace (eA + 1) with (d + (eB - 4) + 5) by lia.
      replace (Z.lor (Z.shiftr (stk M d) 1) (if Z.land (stk M d) 1 =? 0 then 0 else 1)) with (stk (stk M d) 1).
      * apply normed_carry; [exact M0 | exact Hd | lia].
      * unfold stk at 1. change (2 ^ 1) with 2. rewrite Z.shiftr_div_pow2 by lia. change (2 ^ 1) with 2.
        change 1 with (2 ^ 1 - 1) at 2. rewrite land_low by lia. change (2 ^ 1) with 2.
        destruct (stk M d mod 2 =? 0); [symmetry; apply Z.lor_0_r | symmetry; apply lor_one].
Qed.

(** ** Rounding and packing *)

(** The magnitude nearest to [n * 2 ^ k] units in a mode; it overflows to infinity
    in every mode. *)
Definition round_to (rm : rounding) (neg : bool) (n k : Z) : Z :=
  let j := Z.max 0 (Z.log2 n + k - MB) in
  Z.min (inf_mag F) (rndz rm neg n (j - k) + j * 2 ^ MB).

Lemma round_to_nearest neg n k : round_to FE_TONEAREST neg n k = round_mag F n k.
Proof using.
  unfold round_to, round_mag. cbv zeta. set (j := Z.max 0 (Z.log2 n + k - MB)). do 2 f_equal. unfold rndz.
  destruct (Z.leb_spec 0 (j - k)), (Z.leb_spec j k); try lia.
  - replace (j - k) with 0 by lia. replace (k - j) with 0 by lia. rewrite Z.shiftl_0_r, rnd_nearest by lia.
    replace n with (n * 2 ^ 0) at 1 by (rewrite Z.pow_0_r; lia). apply rne_exact. lia.
  - apply rnd_nearest. lia.
  - rewrite Z.shiftl_mul_pow2 by lia. do 2 f_equal. lia.
Qed.

Lemma round_to_scale rm neg n k c : 0 < n -> 0 <= c -> round_to rm neg (n * 2 ^ c) k = round_to rm neg n (k + c).
Proof using.
  intros Hn Hc. unfold round_to. cbv zeta. rewrite Z.log2_mul_pow2 by lia.
  replace (Z.log2 n + (k + c) - MB) with (c + Z.log2 n + k - MB) by lia.
  set (j := Z.max 0 (c + Z.log2 n + k - MB)). do 2 f_equal.
  replace (j - k) with (j - (k + c) + c) by lia. apply rndz_scale. exact Hc.
Qed.

Lemma round_to_exact rm neg a : 0 < a < inf_mag F -> round_to rm neg (mval F a) 0 = a.
Proof using HF.
  intros Ha. destruct (decode F a) as [m k] eqn:D. destruct (decode_spec F a m k ltac:(lia) D) as (Ea & Hk & Hm & Nm & _).
  rewrite (mval_decode F a m k D). pose proof (mbits_gt F) as Mb. pose proof (pow_m_pos F) as Pm.
  assert (M0 : 0 < m) by (destruct (Z.eq_dec k 0) as [-> |]; lia).
  assert (Lm : Z.log2 m <= MB).
  { apply Z.lt_succ_r, Z.log2_lt_pow2; [lia |]. rewrite Z.pow_succ_r by lia. lia. }
  rewrite round_to_scale by lia. unfold round_to. cbv zeta.
  assert (J : Z.max 0 (Z.log2 m + (0 + k) - MB) = k).
  { destruct (Z.eq_dec k 0) as [-> | Ne]; [lia |]. assert (MB <= Z.log2 m) by (apply Z.log2_le_pow2; lia). lia. }
  rewrite J. replace (k - (0 + k)) with 0 by lia. rewrite rndz_rnd by lia.
  replace m with (m * 2 ^ 0) at 1 by (rewrite Z.pow_0_r; lia). rewrite rnd_exact by lia. lia.
Qed.

(** The low three bits and the rounding of the rest, the exponent field [E] in place. *)
Lemma pack_ok rm neg E Sg : 0 <= E < emax F -> 0 <= Sg ->
  (if E =? 0 then Sg < 2 ^ (MB + 3) else 2 ^ (MB + 3) <= Sg < 2 ^ (MB + 4)) ->
  let m := rnd rm neg Sg 3 + Z.max 0 (E - 1) * 2 ^ MB in
  let rs := if neg : bool then sgnbit F else 0 in
  let rgs := Z.land Sg 7 in
  let result := Z.lor (Z.lor (Z.land (Z.shiftr Sg 3) (significandMask F)) (rshl F E (significandBits F))) rs in
  m <= inf_mag F /\
  match rm with
  | FE_TONEAREST =>
      let r := if 4 <? rgs then rep F (result + 1) else result in
      if rgs =? 4 then rep F (r + Z.land r 1) else r
  | FE_DOWNWARD => if negb (rs =? 0) && negb (rgs =? 0) then rep F (result + 1) else result
  | FE_UPWARD => if (rs =? 0) && negb (rgs =? 0) then rep F (result + 1) else result
  | FE_TOWARDZERO => result
  end = with_sgn F neg m.
Proof using HF HW.
  intros HE HS Rg m rs rgs result. destruct pow_grs as (C8 & C2 & C4 & _). pose proof (mbits_gt F) as Mb.
  pose proof (pow_m_pos F) as Pm. pose proof (inf_lt_sgnbit F) as [Ip Is]. pose proof (sgnbit_pos F) as Sp.
  set (b := Sg / 8 + Z.max 0 (E - 1) * 2 ^ MB).
  pose proof (Z.div_mod Sg 8 ltac:(lia)) as D8. pose proof (Z.mod_pos_bound Sg 8 ltac:(lia)) as B8.
  assert (Hb : 0 <= b < inf_mag F).
  { unfold b, inf_mag. destruct (Z.eqb_spec E 0) as [-> | N]; [rewrite Z.max_l by lia | rewrite Z.max_r by lia]; nia. }
  assert (Er : result = with_sgn F neg b).
  { unfold result. rewrite frac_eq, Z.shiftr_div_pow2 by lia. change (2 ^ 3) with 8.
    unfold rshl, significandBits. rewrite rep_small.
    2: { rewrite Z.shiftl_mul_pow2 by lia. unfold inf_mag in *. rewrite width_eq by exact HF. nia. }
    rewrite lor_fields by (try apply Z.mod_pos_bound; lia).
    replace (Sg / 8 mod 2 ^ MB + E * 2 ^ MB) with b.
    - unfold rs. pose proof (lor_sign F neg b ltac:(lia)) as L. rewrite <- L. f_equal. unfold sgnbit.
      pose proof (width_gt F). destruct neg; [rewrite Z.shiftl_1_l; reflexivity | symmetry; apply Z.shiftl_0_l].
    - unfold b. destruct (Z.eqb_spec E 0) as [-> | N].
      + rewrite Z.mod_small by lia. lia.
      + rewrite Z.max_r by lia. assert (Eq : Sg / 8 mod 2 ^ MB = Sg / 8 - 2 ^ MB); [| rewrite Eq; nia].
        symmetry. apply (Z.mod_unique _ _ 1); lia. }
  assert (Eg : rgs = Sg mod 8) by (unfold rgs; change 7 with (2 ^ 3 - 1); apply land_low; lia).
  assert (Up : rep F (with_sgn F neg b + 1) = with_sgn F neg (b + 1)).
  { rewrite rep_small; unfold with_sgn; [destruct neg; lia |]. rewrite width_eq by exact HF. destruct neg; lia. }
  assert (Ez : (rs =? 0) = negb neg) by (unfold rs; destruct neg; [apply Z.eqb_neq; lia | reflexivity]).
  assert (Od : Z.land (with_sgn F neg b) 1 = if Z.odd (Sg / 8) then 1 else 0).
  { change 1 with (2 ^ 1 - 1) at 1. rewrite land_low by lia. change (2 ^ 1) with 2. rewrite Zmod_odd. f_equal.
    assert (Em : Z.even (2 ^ MB) = true) by (rewrite Z.even_pow by lia; reflexivity).
    assert (Es : Z.even (sgnbit F) = true) by (unfold sgnbit; pose proof (width_gt F); rewrite Z.even_pow by lia; reflexivity).
    unfold with_sgn, b. rewrite <- !Z.negb_even. destruct neg; rewrite ?Z.even_add, ?Z.even_mul, Em, ?Es, orb_true_r;
      destruct (Z.even (Sg / 8)); reflexivity. }
  assert (Em : m = b + (if rounds_up rm neg (2 * rgs ?= 8) (negb (rgs =? 0)) (Z.odd (Sg / 8)) then 1 else 0)).
  { unfold m, b, rnd. cbv zeta. change (2 ^ 3) with 8. rewrite Eg. destruct (rounds_up _ _ _ _ _); lia. }
  split; [rewrite Em; destruct (rounds_up _ _ _ _ _); lia |]. rewrite Em, Er, Ez. cbv zeta.
  destruct rm; simpl rounds_up; rewrite ?negb_involutive.
  - destruct (Z.compare_spec (2 * rgs) 8) as [C | C | C]; destruct (Z.ltb_spec 4 rgs), (Z.eqb_spec rgs 4); try lia.
    + rewrite Od. destruct (Z.odd (Sg / 8)); [exact Up |]. rewrite Z.add_0_r, rep_small; [f_equal; lia |].
      unfold with_sgn. rewrite width_eq by exact HF. destruct neg; lia.
    + f_equal. lia.
  - destruct (neg && negb (rgs =? 0)); [exact Up | f_equal; lia].
  - destruct (negb neg && negb (rgs =? 0)); [exact Up | f_equal; lia].
  - f_equal. lia.
Qed.

Lemma add_round_ok rm neg M k e Sg : normed M k e Sg -> 1 - W <= e ->
  fst (add_round F rm (if neg : bool then sgnbit F else 0) e Sg) = with_sgn F neg (round_to rm neg M k).
Proof using HF HW.
  intros (M0 & HS & Ee & Hr) He. destruct pow_grs as (C8 & C2 & C4 & _ & Cw). pose proof (mbits_gt F) as Mb.
  pose proof (pow_m_pos F) as Pm. pose proof (inf_lt_sgnbit F) as [Ip Is]. unfold add_round. rewrite maxExponent_eq.
  unfold round_to. cbv zeta. replace (Z.log2 M + k - MB) with (e - 1) by lia.
  destruct (Z.leb_spec (emax F) e) as [Ov | No].
  - cbn [fst]. rewrite infRep_eq. rewrite Z.max_r by (pose proof (pow_e_ge F); unfold emax in Ov; lia).
    replace (e - 1 - k) with (3 + Z.log2 M - MB - 3) by lia. rewrite <- Hr by lia.
    pose proof (rnd_bounds rm neg Sg 3) as Rb. change (2 ^ 3) with 8 in Rb.
    assert (2 ^ MB <= Sg / 8) by (apply Z.div_le_lower_bound; lia).
    rewrite Z.min_l by (unfold inf_mag; nia).
    pose proof (lor_sign F neg (inf_mag F) ltac:(lia)) as L. rewrite <- L. f_equal. unfold sgnbit.
    pose proof (width_gt F). destruct neg; [rewrite Z.shiftl_1_l; reflexivity | symmetry; apply Z.shiftl_0_l].
  - destruct (Z.leb_spec e 0) as [Sub | Nrm].
    + rewrite sticky_shift_eq by lia.
      assert (S2 : 0 <= stk Sg (1 - e) < 2 ^ (MB + 3)).
      { split; [apply stk_nonneg; lia |]. rewrite C2. apply stk_lt. apply Z.div_lt_upper_bound; [apply Z.pow_pos_nonneg; lia |].
        assert (2 ^ 1 <= 2 ^ (1 - e)) by (apply Z.pow_le_mono_r; lia). change (2 ^ 1) with 2 in *. nia. }
      destruct (pack_ok rm neg 0 (stk Sg (1 - e)) ltac:(pose proof (pow_e_ge F); unfold emax; lia) ltac:(lia) ltac:(simpl; lia)) as [Lm Ep].
      cbv zeta in *. rewrite Ep in *. cbn [fst]. rewrite rnd_stk, Hr in * by lia.
      rewrite (Z.max_l 0 (e - 1)) by lia. replace (0 - k) with (3 + (1 - e) + Z.log2 M - MB - 3) by lia.
      simpl Z.max in *. rewrite Z.min_r by lia. reflexivity.
    + assert (Rg : if e =? 0 then Sg < 2 ^ (MB + 3) else 2 ^ (MB + 3) <= Sg < 2 ^ (MB + 4))
        by (destruct (Z.eqb_spec e 0); lia).
      destruct (pack_ok rm neg e Sg ltac:(lia) ltac:(lia) Rg) as [Lm Ep]. cbv zeta in *. rewrite Ep in *. cbn [fst].
      rewrite Hr in * by lia. rewrite !(Z.max_r 0 (e - 1)) in * by lia.
      replace (e - 1 - k) with (3 + Z.log2 M - MB - 3) by lia. rewrite Z.min_r by lia. reflexivity.
Qed.

(** ** Addition *)

(** The sum in a mode: the exact sum, rounded; [+0] when operands of different
    signs cancel. *)
Definition add_spec (rm : rounding) (x y : Z) : Z :=
  if isinf F x then if isinf F y && negb (Bool.eqb (sgn F x) (sgn F y)) then qnan F else x
  else if isinf F y then y
  else
    let v := fval F x + fval F y in
    if v =? 0 then with_sgn F (sgn F x && sgn F y) 0
    else with_sgn F (v <? 0) (round_to rm (v <? 0) (Z.abs v) 0).

Lemma add_spec_nearest x y : isnan F x = false -> isnan F y = false -> add_spec FE_TONEAREST x y = fadd F x y.
Proof using. intros Nx Ny. unfold add_spec, fadd. rewrite Nx, Ny. cbv zeta. rewrite round_to_nearest. reflexivity. Qed.

(** The larger number first: the sign of the sum is its sign. *)
Lemma add_ordered rm x y : is_u W x -> is_u W y -> 0 < mag F x < inf_mag F -> 0 < mag F y < inf_mag F ->
  mag F y <= mag F x ->
  (let '(aExponent, aSignificand) := unpack F x in
   let '(bExponent, bSignificand) := unpack F y in
   match add_normalize F (xorb (sgn F x) (sgn F y)) aExponent (rshl F (Z.lor aSignificand (implicitBit F)) 3)
           (add_align F aExponent bExponent (rshl F (Z.lor bSignificand (implicitBit F)) 3)) with
   | None => (0, false)
   | Some (aExponent, aSignificand) => add_round F rm (if sgn F x then sgnbit F else 0) aExponent aSignificand
   end).1 =
  let v := fval F x + fval F y in
  if v =? 0 then 0 else with_sgn F (v <? 0) (round_to rm (v <? 0) (Z.abs v) 0).
Proof using HF HW.
  intros Ux Uy Hx Hy L. destruct (unpack F x) as [eA sA] eqn:EA, (unpack F y) as [eB sB] eqn:EB.
  pose proof (unpack_normal x eA sA Ux Hx EA) as PA. pose proof (unpack_normal y eB sB Uy Hy EB) as PB.
  set (A := Z.lor sA (implicitBit F)) in *. set (B := Z.lor sB (implicitBit F)) in *.
  set (va := mval F (mag F x)) in *. set (vb := mval F (mag F y)) in *.
  assert (Lv : vb <= va).
  { destruct (Z.eq_dec (mag F y) (mag F x)) as [E | N]; [unfold va, vb; rewrite E; lia |].
    pose proof (mval_mono F (mag F y) (mag F x) ltac:(lia)). unfold va, vb. lia. }
  assert (Vb : 0 < vb) by (pose proof (mval_mono F 0 (mag F y) ltac:(lia)) as K; rewrite mval_0 in K by exact HF; exact K).
  pose proof (normal_pair_order _ _ _ _ _ _ PA PB Lv) as He.
  destruct PA as (RA & REA & QA), PB as (RB & REB & QB). destruct pow_grs as (C8 & _ & _ & _ & Cw).
  pose proof (mbits_gt F) as Mb. pose proof (pow_m_pos F) as Pm. pose proof (wide_ebits (F := F)) as We. pose proof (wide_mbits (F := F)) as Wm.
  assert (Emax : emax F <= 2 ^ 24) by (unfold emax; pose proof (Z.pow_le_mono_r 2 (ebits F) 24 ltac:(lia) ltac:(lia)); lia).
  rewrite !rshl_small by (change (2 ^ 3) with 8; lia). change (2 ^ 3) with 8. rewrite (Z.mul_comm A), (Z.mul_comm B).
  rewrite align_eq by lia.
  assert (Sc : A * 2 ^ (eA - eB) * 2 ^ (eB - 1 + MB) = va * 2 ^ MB).
  { rewrite <- Z.mul_assoc, <- Z.pow_add_r, <- QA by lia. do 2 f_equal. lia. }
  pose proof (Z.pow_pos_nonneg 2 (eB - 1 + MB) ltac:(lia) ltac:(lia)) as Pb.
  assert (Ord : B <= A * 2 ^ (eA - eB)) by nia.
  pose proof (add_normalize_ok (xorb (sgn F x) (sgn F y)) A B eA eB RA RB He (fun _ => Ord)) as Nrm. cbv zeta in Nrm.
  set (M := 8 * A * 2 ^ (eA - eB) + _) in Nrm.
  set (n := if xorb (sgn F x) (sgn F y) then va - vb else va + vb).
  assert (Mn : M * 2 ^ (eB - 1 + MB) = n * 2 ^ (MB + 3)).
  { rewrite C8. unfold M, n. destruct (xorb (sgn F x) (sgn F y)); nia. }
  assert (Vn : fval F x + fval F y = signed (sgn F x) n).
  { unfold fval, n, signed. fold va vb. destruct (sgn F x), (sgn F y); simpl; lia. }
  assert (n0 : 0 <= n) by (unfold n; destruct (xorb (sgn F x) (sgn F y)); lia). cbv zeta. rewrite Vn.
  destruct (add_normalize F _ eA (8 * A) _) as [[e Sg] |].
  - pose proof Nrm as (Mp & _ & Ee & _).
    assert (np : 0 < n) by (destruct (Z.eq_dec n 0) as [E0 |]; [rewrite E0 in Mn; nia | lia]).
    assert (Lg : Z.log2 M + (eB - 1 + MB) = Z.log2 n + (MB + 3)).
    { pose proof (f_equal Z.log2 Mn) as K. rewrite !Z.log2_mul_pow2 in K by lia. lia. }
    pose proof (Z.log2_nonneg n). pose proof width_room.
    rewrite (add_round_ok rm (sgn F x) M (eB - 4) e Sg Nrm) by lia.
    assert (Rt : forall neg, round_to rm neg M (eB - 4) = round_to rm neg n 0).
    { intros neg. replace (eB - 4) with ((- 3 - MB) + (eB - 1 + MB)) by lia. rewrite <- round_to_scale, Mn by lia.
      rewrite round_to_scale by lia. f_equal. lia. }
    rewrite Rt. unfold signed. destruct (sgn F x).
    + destruct (Z.eqb_spec (- n) 0); [lia |]. destruct (Z.ltb_spec (- n) 0); [| lia]. rewrite Z.abs_opp, Z.abs_eq by lia. reflexivity.
    + destruct (Z.eqb_spec n 0); [lia |]. destruct (Z.ltb_spec n 0); [lia |]. rewrite Z.abs_eq by lia. reflexivity.
  - destruct Nrm as [_ M0]. rewrite M0 in Mn. assert (n = 0) as -> by nia. unfold signed. destruct (sgn F x); reflexivity.
Qed.

Lemma quiet_nan x : is_u W x -> isnan F x = true -> isnan F (Z.lor x (quietBit F)) = true /\ is_u W (Z.lor x (quietBit F)).
Proof using HF.
  intros U N. pose proof (mbits_gt F) as Mb. pose proof (ebits_gt F) as Eb. pose proof (mag_range F x) as R.
  unfold isnan in *. apply Z.ltb_lt in N. rewrite quietBit_eq.
  assert (Lq : Z.land (2 ^ (MB - 1)) (absMask F) = 2 ^ (MB - 1)).
  { rewrite abs_eq. unfold mag, sgnbit, width. apply Z.mod_small. split; [apply Z.pow_nonneg; lia | apply Z.pow_lt_mono_r; lia]. }
  assert (B : 0 <= Z.land (mag F x) (2 ^ (MB - 1)) <= 2 ^ (MB - 1)).
  { assert (K : Z.land (mag F x) (2 ^ (MB - 1)) = 0 \/ Z.land (mag F x) (2 ^ (MB - 1)) = 2 ^ (MB - 1)).
    { destruct (Z.testbit (mag F x) (MB - 1)) eqn:T; [right | left]; apply Z.bits_inj'; intros i Hi;
        rewrite Z.land_spec, Z.pow2_bits_eqb, ?Z.bits_0 by lia; destruct (Z.eqb_spec (MB - 1) i) as [<- |];
        rewrite ?T, ?andb_false_r; reflexivity. }
    pose proof (Z.pow_nonneg 2 (MB - 1)). destruct K as [-> | ->]; lia. }
  split.
  - apply Z.ltb_lt. rewrite <- abs_eq, Z.land_lor_distr_l, Lq, abs_eq.
    pose proof (Z.add_lor_land (mag F x) (2 ^ (MB - 1))). lia.
  - unfold is_u in *. split; [apply Z.lor_nonneg; split; [lia | apply Z.pow_nonneg; lia] |].
    destruct (Z.eq_dec x 0) as [-> |]; [rewrite Z.lor_0_l; apply Z.pow_lt_mono_r; unfold width; lia |].
    apply Z.log2_lt_cancel. rewrite Z.log2_lor, !Z.log2_pow2 by (try apply Z.pow_nonneg; unfold width; lia).
    assert (Z.log2 x < W) by (apply Z.log2_lt_pow2; lia). unfold width in *. lia.
Qed.

Lemma lxor_sign x y : is_u W x -> is_u W y -> mag F x = mag F y ->
  (Z.lxor x y =? signBit F) = negb (Bool.eqb (sgn F x) (sgn F y)).
Proof using HF.
  intros Ux Uy E. rewrite signBit_eq. pose proof (sgnbit_pos F) as Sp. pose proof (mag_range F y) as R.
  rewrite <- (with_sgn_split F x Ux), <- (with_sgn_split F y Uy), E.
  destruct (with_sgn_mag_sgn F (sgn F x) (mag F y) R) as (_ & Sx & _), (with_sgn_mag_sgn F (sgn F y) (mag F y) R) as (_ & Sy & _).
  rewrite Sx, Sy. set (m := mag F y) in *.
  assert (A : sgnbit F + m = Z.lxor (sgnbit F) m).
  { apply Z.add_nocarry_lxor. pose proof (width_gt F). unfold sgnbit in *. rewrite Z.land_comm.
    pose proof (bit_test m (W - 1) ltac:(lia) ltac:(lia)) as K. destruct (Z.ltb_spec m (2 ^ (W - 1))); [| lia]. apply Z.eqb_eq, K. }
  unfold with_sgn. destruct (sgn F x), (sgn F y); simpl.
  - rewrite Z.lxor_nilpotent. apply Z.eqb_neq. lia.
  - rewrite A, Z.lxor_assoc, Z.lxor_nilpotent, Z.lxor_0_r. apply Z.eqb_refl.
  - rewrite A, (Z.lxor_comm (sgnbit F)), <- Z.lxor_assoc, Z.lxor_nilpotent, Z.lxor_0_l. apply Z.eqb_refl.
  - rewrite Z.lxor_nilpotent. apply Z.eqb_neq. lia.
Qed.

(** Adding a zero returns the other operand. *)
Lemma add_zero_spec rm x y : is_u W y -> mag F x = 0 -> 0 < mag F y < inf_mag F ->
  (let v := fval F x + fval F y in
   if v =? 0 then with_sgn F (sgn F x && sgn F y) 0 else with_sgn F (v <? 0) (round_to rm (v <? 0) (Z.abs v) 0)) = y.
Proof using HF.
  intros Uy Zx Hy. cbv zeta. assert (Fx : fval F x = 0) by (unfold fval; rewrite Zx, mval_0 by exact HF; destruct (sgn F x); reflexivity).
  rewrite Fx, Z.add_0_l. pose proof (mval_mono F 0 (mag F y) ltac:(lia)) as K. rewrite mval_0 in K by exact HF.
  pose proof (with_sgn_split F y Uy) as Sy. unfold fval. destruct (sgn F y).
  - destruct (Z.eqb_spec (- mval F (mag F y)) 0); [lia |]. destruct (Z.ltb_spec (- mval F (mag F y)) 0); [| lia].
    rewrite Z.abs_opp, Z.abs_eq, round_to_exact by lia. exact Sy.
  - destruct (Z.eqb_spec (mval F (mag F y)) 0); [lia |]. destruct (Z.ltb_spec (mval F (mag F y)) 0); [lia |].
    rewrite Z.abs_eq, round_to_exact by lia. exact Sy.
Qed.

Lemma add_both_zero x y : is_u W x -> is_u W y -> mag F x = 0 -> mag F y = 0 ->
  Z.land x y = with_sgn F (sgn F x && sgn F y) 0.
Proof using HF.
  intros Ux Uy Zx Zy. rewrite <- (with_sgn_split F x Ux) at 1. rewrite <- (with_sgn_split F y Uy) at 1. rewrite Zx, Zy.
  unfold with_sgn. destruct (sgn F x), (sgn F y); simpl; rewrite ?Z.add_0_r, ?Z.land_0_r, ?Z.land_0_l; try reflexivity.
  apply Z.land_diag.
Qed.

Lemma add_xf3_ok rm x y : is_u W x -> is_u W y ->
  if isnan F x || isnan F y then isnan F (addXf3 F rm x y).1 = true else (addXf3 F rm x y).1 = add_spec rm x y.
Proof using HF HW.
  intros Ux Uy. pose proof (mag_range F x) as Rx. pose proof (mag_range F y) as Ry.
  pose proof (inf_lt_sgnbit F) as [Ip Is]. pose proof (pow_m_pos F) as Pm. pose proof (width_eq F) as We.
  unfold addXf3, add_special. rewrite !abs_eq, infRep_eq, qnanRep_eq. unfold rep, wrapu.
  assert (Sp : forall m, 0 <= m < sgnbit F -> (inf_mag F - 1 <=? (m - 1) mod (2 * sgnbit F)) = (m =? 0) || (inf_mag F <=? m)).
  { intros m Hm. destruct (Z.eqb_spec m 0) as [-> | N].
    - rewrite <- (Z.mod_unique (0 - 1) (2 * sgnbit F) (-1) (2 * sgnbit F - 1)) by lia. apply Z.leb_le. lia.
    - rewrite Z.mod_small by lia. simpl. destruct (Z.leb_spec (inf_mag F - 1) (m - 1)), (Z.leb_spec (inf_mag F) m); lia || reflexivity. }
  unfold typeWidth. rewrite !We. rewrite !Sp by assumption.
  destruct (isnan F x) eqn:Nx; [pose proof Nx as Nx'; unfold isnan in Nx'; rewrite Nx' |].
  { apply Z.ltb_lt in Nx'. destruct (Z.leb_spec (inf_mag F) (mag F x)); [| lia]. rewrite orb_true_r. simpl. apply quiet_nan; assumption. }
  unfold isnan in Nx. rewrite Nx. apply Z.ltb_ge in Nx.
  destruct (isnan F y) eqn:Ny; [pose proof Ny as Ny'; unfold isnan in Ny'; rewrite Ny' |].
  { apply Z.ltb_lt in Ny'. destruct (Z.leb_spec (inf_mag F) (mag F y)); [| lia]. rewrite !orb_true_r. simpl. apply quiet_nan; assumption. }
  unfold isnan in Ny. rewrite Ny. apply Z.ltb_ge in Ny. simpl orb. cbv iota. unfold add_spec, isinf.
  destruct (Z.eqb_spec (mag F x) (inf_mag F)) as [Ix | Ix'].
  { destruct (Z.leb_spec (inf_mag F) (mag F x)); [| lia]. rewrite orb_true_r. simpl orb. cbv iota.
    destruct (Z.eqb_spec (mag F y) (inf_mag F)) as [Iy | Iy'].
    - rewrite lxor_sign by (assumption || congruence). simpl. destruct (negb _); reflexivity.
    - simpl. destruct (Z.eqb_spec (Z.lxor x y) (signBit F)) as [E |]; [| reflexivity]. exfalso. apply Iy'. rewrite <- Ix.
      apply (f_equal (fun z => Z.land z (absMask F))) in E. rewrite signBit_eq, !abs_eq in E.
      assert (mag F (sgnbit F) = 0) as K by (unfold mag; apply Z.mod_same; lia). rewrite K in E.
      assert (LX : Z.lxor (mag F x) (mag F y) = 0); [| apply Z.lxor_eq in LX; congruence].
      rewrite <- E, <- !abs_eq. apply Z.bits_inj'. intros i Hi. rewrite Z.lxor_spec, !Z.land_spec, Z.lxor_spec.
      destruct (Z.testbit x i), (Z.testbit y i), (Z.testbit (absMask F) i); reflexivity. }
  destruct (Z.eqb_spec (mag F y) (inf_mag F)) as [Iy | Iy'].
  { destruct (Z.leb_spec (inf_mag F) (mag F y)); [| lia]. rewrite !orb_true_r. reflexivity. }
  destruct (Z.leb_spec (inf_mag F) (mag F x)), (Z.leb_spec (inf_mag F) (mag F y)); try lia. rewrite !orb_false_r.
  destruct (Z.eqb_spec (mag F x) 0) as [Zx | Zx'].
  { simpl. destruct (Z.eqb_spec (mag F y) 0) as [Zy | Zy'].
    - simpl. rewrite add_both_zero by assumption. unfold fval. rewrite Zx, Zy, !mval_0 by exact HF.
      destruct (sgn F x), (sgn F y); reflexivity.
    - symmetry. apply (add_zero_spec rm x y Uy Zx). lia. }
  destruct (Z.eqb_spec (mag F y) 0) as [Zy | Zy'].
  { simpl. rewrite (Z.add_comm (fval F x)), andb_comm. symmetry. apply (add_zero_spec rm y x Ux Zy). lia. }
  simpl orb. cbv iota.
  assert (Rs : forall z, is_u W z -> Z.land z (signBit F) = if sgn F z then sgnbit F else 0) by exact signbit_land.
  assert (Sd : forall z w, is_u W z -> is_u W w -> negb (Z.land (Z.lxor z w) (signBit F) =? 0) = xorb (sgn F z) (sgn F w)).
  { intros z w Uz Uw. rewrite signBit_eq. unfold sgnbit. rewrite <- Z.shiftl_1_l. apply sign_differ; assumption. }
  destruct (Z.ltb_spec (mag F x) (mag F y)) as [L | G].
  - rewrite Sd, Rs by assumption. pose proof (add_ordered rm y x Uy Ux ltac:(lia) ltac:(lia) ltac:(lia)) as K.
    destruct (unpack F y), (unpack F x). rewrite K. cbv zeta. rewrite (Z.add_comm (fval F y)).
    destruct (Z.eqb_spec (fval F x + fval F y) 0) as [E0 |]; [| reflexivity]. exfalso.
    pose proof (mval_mono F (mag F x) (mag F y) ltac:(lia)). pose proof (mval_nonneg F (mag F x) ltac:(lia)).
    unfold fval in E0. destruct (sgn F x), (sgn F y); lia.
  - rewrite Sd, Rs by assumption. pose proof (add_ordered rm x y Ux Uy ltac:(lia) ltac:(lia) ltac:(lia)) as K.
    destruct (unpack F x), (unpack F y). rewrite K. cbv zeta.
    destruct (Z.eqb_spec (fval F x + fval F y) 0) as [E0 |]; [| reflexivity].
    pose proof (mval_mono F 0 (mag F y) ltac:(lia)) as My. pose proof (mval_mono F 0 (mag F x) ltac:(lia)) as Mx.
    rewrite mval_0 in My, Mx by exact HF. unfold fval in E0. destruct (sgn F x), (sgn F y); lia || reflexivity.
Qed.
End Quad.
