(* ===== verification/SoftConvFacts.v ===== *)
(** * Quadruple precision in software: comparison, conversion and the results *)

From S2P Require Import Prelude Ieee MathBits MathRound MathRem SoftFloat SoftFloatFacts.

#[local] Open Scope Z_scope.

(** A narrower signed type reads the low bits. *)
Lemma wraps_wrapu w W z : 0 < w <= W -> wraps w (wrapu W z) = wraps w z.
Proof.
  intros H. unfold wraps, wrapu. f_equal. rewrite <- Zplus_mod_idemp_l. rewrite <- (Zplus_mod_idemp_l z). do 2 f_equal.
  replace (2 ^ W) with (2 ^ w * 2 ^ (W - w)) by (rewrite <- Z.pow_add_r by lia; f_equal; lia).
  pose proof (Z.pow_pos_nonneg 2 w). pose proof (Z.pow_pos_nonneg 2 (W - w)).
  rewrite Z.rem_mul_r, Z.mul_comm, Z.mod_add, Z.mod_mod by lia. reflexivity.
Qed.

(** ** Comparison *)
Section Compare.
Context (F : fmt) {HF : FmtOk F} {HW : WideFmt F}.

Abbreviation W := (width F).
Abbreviation MB := (mbits F).

Definition sign_of (c : comparison) : Z := match c with Lt => -1 | Eq => 0 | Gt => 1 end.

Lemma srep_eq x : is_u W x -> srep F x = if sgn F x then mag F x - sgnbit F else mag F x.
Proof using HF.
  intros U. unfold is_u in U. pose proof (with_sgn_split F x U) as Sx. pose proof (mag_range F x) as R.
  pose proof (width_eq F) as We. pose proof (width_gt F). unfold srep, wraps, typeWidth. fold (sgnbit F).
  rewrite We in *. rewrite <- Sx at 1. unfold with_sgn. destruct (sgn F x).
  - replace (sgnbit F + mag F x + sgnbit F) with (mag F x + 1 * (2 * sgnbit F)) by lia. rewrite Z.mod_add, Z.mod_small by lia. lia.
  - rewrite Z.mod_small by lia. lia.
Qed.

Lemma rep_srep x : is_u W x -> rep F (srep F x) = x.
Proof using HF.
  intros U. pose proof (width_gt F). unfold rep, srep, typeWidth, wrapu. rewrite wraps_mod by lia. apply Z.mod_small. exact U.
Qed.

Lemma rank_compare x y : (fval F x ?= fval F y) = (rank F x ?= rank F y).
Proof using HF.
  pose proof (rank_lt F x y) as [L E]. pose proof (rank_lt F y x) as [G _].
  destruct (Z.compare_spec (rank F x) (rank F y)) as [C | C | C].
  - apply Z.compare_eq_iff. tauto.
  - apply Z.compare_lt_iff. tauto.
  - apply Z.compare_gt_iff. tauto.
Qed.

Lemma cmp_gen_ok u x y : is_u W x -> is_u W y ->
  cmp_gen F u x y = if isnan F x || isnan F y then u else sign_of (fval F x ?= fval F y).
Proof using HF HW.
  intros Ux Uy. pose proof (mag_range F x) as Rx. pose proof (mag_range F y) as Ry. unfold cmp_gen.
  rewrite !rep_srep by assumption. rewrite !abs_eq, infRep_eq by exact HF. fold (isnan F x) (isnan F y).
  destruct (isnan F x || isnan F y); [reflexivity |]. rewrite rank_compare. unfold rank, signed.
  destruct (Z.eqb_spec (Z.lor (mag F x) (mag F y)) 0) as [E | N].
  { apply Z.lor_eq_0_iff in E as [-> ->]. destruct (sgn F x), (sgn F y); reflexivity. }
  assert (Nz : mag F x <> 0 \/ mag F y <> 0).
  { destruct (Z.eq_dec (mag F x) 0) as [E1 |], (Z.eq_dec (mag F y) 0) as [E2 |]; auto. rewrite E1, E2 in N. contradiction. }
  rewrite !srep_eq by assumption. pose proof (Z.land_nonneg (if sgn F x then mag F x - sgnbit F else mag F x)
    (if sgn F y then mag F y - sgnbit F else mag F y)) as Ln.
  destruct (Z.leb_spec 0 (Z.land (if sgn F x then mag F x - sgnbit F else mag F x) (if sgn F y then mag F y - sgnbit F else mag F y))) as [P | P].
  - apply Ln in P. destruct (sgn F x), (sgn F y); zbool; try lia; symmetry; unfold sign_of;
      match goal with |- match ?a ?= ?b with _ => _ end = _ => destruct (Z.compare_spec a b); lia || reflexivity end.
  - assert (Sx : sgn F x = true) by (destruct (sgn F x); [reflexivity |]; exfalso; apply (Z.lt_irrefl 0); apply (Z.le_lt_trans _ _ _ (proj2 Ln (or_introl (proj1 Rx))) P)).
    assert (Sy : sgn F y = true) by (destruct (sgn F y); [reflexivity |]; exfalso; apply (Z.lt_irrefl 0); apply (Z.le_lt_trans _ _ _ (proj2 Ln (or_intror (proj1 Ry))) P)).
    rewrite Sx, Sy. zbool; try lia; symmetry; unfold sign_of;
      match goal with |- match ?a ?= ?b with _ => _ end = _ => destruct (Z.compare_spec a b); lia || reflexivity end.
Qed.

(** ** Integers *)

Lemma float_of_ok w neg x : 0 < w <= MB + 1 -> 0 < x < 2 ^ w ->
  float_of F w (if neg : bool then signBit F else 0) x = with_sgn F neg (round_mag F x (eunit F)).
Proof using HF HW.
  intros Hw Hx. pose proof (mbits_gt F) as Mb. pose proof (pow_m_pos F) as Pm. pose proof (width_room F) as Wr.
  pose proof (Z.log2_nonneg x) as L0. destruct (Z.log2_spec x ltac:(lia)) as [L1 L2]. rewrite Z.pow_succ_r in L2 by lia.
  assert (Lw : Z.log2 x < w) by (apply Z.log2_lt_pow2; lia). set (e := Z.log2 x) in *.
  assert (Pe : 2 ^ MB = 2 ^ e * 2 ^ (MB - e)) by (rewrite <- Z.pow_add_r by lia; f_equal; lia).
  pose proof (Z.pow_pos_nonneg 2 (MB - e) ltac:(lia) ltac:(lia)) as Ps.
  set (X := x * 2 ^ (MB - e)). assert (HX : 2 ^ MB <= X < 2 * 2 ^ MB) by (unfold X; nia).
  pose proof (inf_lt_sgnbit F) as [Ip Is]. pose proof (width_eq F) as We. pose proof (eunit_pos F) as Eu.
  assert (Bw : mbits F + 3 <= bias F + 1) by (unfold bias; pose proof (mbits_small (F := F)); lia).
  assert (Eb : 2 * bias F = emax F - 1).
  { pose proof (ebits_gt F). unfold bias, emax. replace (2 ^ ebits F) with (2 * 2 ^ (ebits F - 1)) by (rewrite <- Z.pow_succ_r by lia; f_equal; lia). lia. }
  assert (Ra : 0 <= X + (e + bias F - 1) * 2 ^ MB < inf_mag F) by (unfold inf_mag; nia).
  unfold float_of, clz, significandBits. replace (w - 1 - (w - 1 - Z.log2 x)) with e by (fold e; lia). rewrite exponentBias_eq by exact HF.
  assert (Sh : rshl F x (MB - e) = X) by (apply rshl_small; [lia | lia | fold X; lia]). rewrite Sh.
  assert (Xr : Z.lxor X (implicitBit F) = X - 2 ^ MB) by (apply lxor_top; unfold significandBits; lia).
  rewrite Xr, rshl_small, rep_small by (try rewrite We; nia || lia).
  replace (X - 2 ^ MB + (e + bias F) * 2 ^ MB) with (X + (e + bias F - 1) * 2 ^ MB) by lia.
  assert (Rm : round_mag F x (eunit F) = X + (e + bias F - 1) * 2 ^ MB).
  { apply round_mag_exact; [exact HF | lia | exact Ra |]. rewrite Z.max_r, (Z.max_l 0 (- eunit F)), Z.pow_0_r, Z.mul_1_r by lia.
    rewrite mval_build by (exact HF || lia). unfold X. rewrite <- Z.mul_assoc, <- Z.pow_add_r by lia.
    unfold eunit. do 2 f_equal. lia. }
  rewrite Rm, signBit_eq. rewrite <- (lor_sign F neg) by lia. f_equal. unfold sgnbit.
  destruct neg; [rewrite Z.shiftl_1_l; reflexivity | symmetry; apply Z.shiftl_0_l].
Qed.

Lemma float_signed_ok w x : 0 < w <= MB + 1 -> is_s w x -> float_signed F w x = of_int F x.
Proof using HF HW.
  intros Hw Hx. unfold is_s, smin, smax in Hx. assert (Pw : 2 ^ w = 2 * 2 ^ (w - 1)) by (rewrite <- Z.pow_succ_r by lia; f_equal; lia).
  unfold float_signed, of_int. destruct (Z.eqb_spec x 0); [reflexivity |]. pose proof (Z.pow_pos_nonneg 2 (w - 1)).
  destruct (Z.ltb_spec x 0).
  - assert (E : wrapu w (- wrapu w x) = - x).
    { unfold wrapu. rewrite <- (Z.mod_unique x (2 ^ w) (-1) (x + 2 ^ w)) by lia.
      rewrite <- (Z.mod_unique _ (2 ^ w) (-1) (- x)) by lia. reflexivity. }
    rewrite E, Z.abs_neq by lia. apply (float_of_ok w true); [exact Hw | lia].
  - rewrite wrapu_small by (unfold is_u; lia). rewrite Z.abs_eq by lia. apply (float_of_ok w false); [exact Hw | lia].
Qed.

Lemma float_unsigned_ok w x : 0 < w <= MB + 1 -> is_u w x -> float_unsigned F w x = of_int F x.
Proof using HF HW.
  intros Hw Hx. unfold is_u in Hx. unfold float_unsigned, of_int. destruct (Z.eqb_spec x 0); [reflexivity |].
  destruct (Z.ltb_spec x 0); [lia |]. rewrite Z.abs_eq by lia. apply (float_of_ok w false); [exact Hw | lia].
Qed.

(** The integer part of the magnitude, and the exponent that bounds it. *)
Lemma fix_parts x : is_u W x -> mag F x <= inf_mag F -> bias F < 2 ^ 30 ->
  let e := expo F (mag F x) - bias F in
  let significand := Z.lor (Z.land (mag F x) (significandMask F)) (implicitBit F) in
  s32 (rep F (Z.shiftr (mag F x) (significandBits F) - exponentBias F)) = e /\
  (e < 0 -> mval F (mag F x) / 2 ^ eunit F = 0) /\
  (0 <= e < MB -> mval F (mag F x) / 2 ^ eunit F = Z.shiftr significand (MB - e) /\
                  2 ^ e <= Z.shiftr significand (MB - e) < 2 * 2 ^ e).
Proof using HF HW.
  intros U Hm Hb e significand. pose proof (mbits_gt F) as Mb. pose proof (pow_m_pos F) as Pm. pose proof (mag_range F x) as R.
  destruct (expo_frac F (mag F x) ltac:(lia)) as (Ex & E0 & Hf). set (a := mag F x) in *. pose proof (ebits_gt F) as Eb.
  assert (Eb2 : 2 * bias F = emax F - 1).
  { unfold bias, emax. replace (2 ^ ebits F) with (2 * 2 ^ (ebits F - 1)) by (rewrite <- Z.pow_succ_r by lia; f_equal; lia). lia. }
  assert (Em : expo F a <= emax F) by (unfold inf_mag in Hm; nia).
  assert (B1 : 0 < bias F) by (unfold bias; pose proof (Z.pow_gt_1 2 (ebits F - 1)); lia).
  pose proof (eunit_pos F) as Eu. assert (Pu : 0 < 2 ^ eunit F) by (apply Z.pow_pos_nonneg; lia).
  assert (Sg : significand = frac F a + 2 ^ MB).
  { unfold significand. rewrite frac_eq by exact HF. fold (frac F a). rewrite lor_implicit by (exact HF || lia).
    destruct (Z.ltb_spec (frac F a) (2 ^ MB)); [reflexivity | lia]. }
  split; [| split].
  - rewrite exponentBias_eq by exact HF. unfold significandBits. rewrite Z.shiftr_div_pow2 by lia. fold (expo F a). fold e.
    pose proof (wide_words (F := F)). unfold rep, typeWidth. rewrite wraps_wrapu, wraps_small by (unfold is_s, smin, smax; lia). reflexivity.
  - intros L. apply Z.div_small. split; [apply mval_nonneg; [exact HF | lia] |].
    unfold mval, decode, eunit. destruct (Z.eqb_spec (expo F a) 0) as [Z0 | N].
    + rewrite Z.pow_0_r, Z.mul_1_r. apply (Z.lt_le_trans _ (2 ^ MB)); [lia | apply Z.pow_le_mono_r; lia].
    + replace (bias F + MB - 1) with ((MB + 1) + (bias F - 2)) by lia. rewrite Z.pow_add_r by lia.
      assert (2 ^ (expo F a - 1) <= 2 ^ (bias F - 2)) by (apply Z.pow_le_mono_r; lia).
      pose proof (Z.pow_pos_nonneg 2 (expo F a - 1) ltac:(lia) ltac:(lia)). rewrite Z.pow_add_r by lia. change (2 ^ 1) with 2. nia.
  - intros He. assert (V : mval F a / 2 ^ eunit F = significand / 2 ^ (MB - e)).
    { unfold mval, decode. destruct (Z.eqb_spec (expo F a) 0); [lia |]. rewrite Sg, (Z.add_comm (frac F a)).
      unfold eunit. replace (bias F + MB - 1) with ((MB - e) + (expo F a - 1)) by lia.
      rewrite (Z.pow_add_r 2 (MB - e)) by lia. apply Z.div_mul_cancel_r; apply Z.pow_nonzero; lia. }
    rewrite V, Z.shiftr_div_pow2 by lia. split; [reflexivity |].
    assert (Pe : 2 ^ MB = 2 ^ e * 2 ^ (MB - e)) by (rewrite <- Z.pow_add_r by lia; f_equal; lia).
    pose proof (Z.pow_pos_nonneg 2 (MB - e) ltac:(lia) ltac:(lia)).
    split; [apply Z.div_le_lower_bound; nia | apply Z.div_lt_upper_bound; nia].
Qed.

Lemma to_int_signed x : is_u W x -> to_int F x = signed (sgn F x) (mval F (mag F x) / 2 ^ eunit F).
Proof using HF.
  intros U. pose proof (mag_range F x). pose proof (mval_nonneg F (mag F x) ltac:(lia)). pose proof (eunit_pos F).
  pose proof (Z.pow_pos_nonneg 2 (eunit F) ltac:(lia) ltac:(lia)).
  unfold to_int, fval, signed. destruct (sgn F x); [rewrite Z.quot_opp_l by lia |]; rewrite Z.quot_div_nonneg by lia; reflexivity.
Qed.

(** Truncation towards zero, where the integer is in range. *)
Lemma fixint_ok x : is_u W x -> mag F x < inf_mag F -> bias F < 2 ^ 30 -> 64 <= MB -> is_s 64 (to_int F x) ->
  fixint F x = to_int F x.
Proof using HF HW.
  intros U Hm Hb Mb Rg. destruct (fix_parts x U ltac:(lia) Hb) as (Ee & Small & Big). pose proof (wide_words (F := F)) as Ww.
  rewrite to_int_signed in * by exact U. unfold fixint. rewrite abs_eq by exact HF. rewrite Ee.
  set (e := expo F (mag F x) - bias F) in *.
  assert (Sg : (if Z.land x (signBit F) =? 0 then 1 else -1) = if sgn F x then -1 else 1)
    by (rewrite signbit_test by (exact HF || exact U); destruct (sgn F x); reflexivity).
  rewrite Sg. destruct (Z.ltb_spec e 0) as [L | G].
  { rewrite Small by exact L. unfold signed. destruct (sgn F x); reflexivity. }
  unfold is_s, smin, smax in Rg. change (64 - 1) with 63 in Rg.
  destruct (Z.leb_spec 64 e) as [L64 | G64].
  { exfalso. assert (Pe : 2 ^ 64 * 2 ^ (eunit F) <= mval F (mag F x)).
    { pose proof (mag_range F x) as R. destruct (expo_frac F (mag F x) ltac:(lia)) as (Ex & E0 & Hf).
      assert (B1 : 0 < bias F) by (pose proof (ebits_gt F); unfold bias; pose proof (Z.pow_gt_1 2 (ebits F - 1)); lia).
      unfold mval, decode. destruct (Z.eqb_spec (expo F (mag F x)) 0); [lia |]. unfold eunit.
      rewrite <- Z.pow_add_r by lia. apply (Z.le_trans _ (2 ^ MB * 2 ^ (expo F (mag F x) - 1))); [| pose proof (Z.pow_nonneg 2 (expo F (mag F x) - 1)); nia].
      rewrite <- Z.pow_add_r by lia. apply Z.pow_le_mono_r; lia. }
    pose proof (eunit_pos F). pose proof (Z.pow_pos_nonneg 2 (eunit F) ltac:(lia) ltac:(lia)) as Pu.
    assert (2 ^ 64 <= mval F (mag F x) / 2 ^ eunit F) by (apply Z.div_le_lower_bound; lia).
    unfold signed in Rg. destruct (sgn F x); lia. }
  unfold significandBits in *. destruct (Z.ltb_spec e MB); [| lia]. destruct (Big ltac:(lia)) as [V Bv]. rewrite <- V in *.
  unfold rep, typeWidth. rewrite wraps_wrapu by lia. unfold signed in Rg |- *.
  destruct (sgn F x); rewrite wraps_small; unfold is_s, smin, smax; lia.
Qed.
End Compare.

(** ** Between formats *)

Section Fields.
Context (F : fmt) {HF : FmtOk F}.

Lemma extract_sign_ok x : is_u (width F) x -> extract_sign F x = if sgn F x then 1 else 0.
Proof using HF.
  intros U. pose proof (width_gt F). unfold extract_sign.
  pose proof (signbit_land F x U) as K. rewrite signBit_eq in K. unfold sgnbit in K at 1. rewrite <- Z.shiftl_1_l in K. rewrite K.
  unfold sgnbit. destruct (sgn F x); [| apply Z.shiftr_0_l].
  rewrite Z.shiftr_div_pow2 by lia. apply Z.div_same. apply Z.pow_nonzero; lia.
Qed.

Lemma extract_exp_ok x : 0 <= x -> extract_exp F x = expo F (mag F x).
Proof using HF.
  intros Hx. pose proof (mbits_gt F). pose proof (ebits_gt F). unfold extract_exp.
  replace (width F - 1 - ebits F) with (mbits F) by (unfold width; lia).
  rewrite <- (efield_expo F x Hx). unfold efield. rewrite Z.shiftr_land, Z.shiftr_shiftl_l, Z.sub_diag, Z.shiftl_0_r by lia.
  f_equal. rewrite Z.shiftl_1_l. reflexivity.
Qed.

Lemma extract_frac_ok x : extract_sig_frac F x = frac F (mag F x).
Proof using HF. rewrite <- frac_mag by exact HF. pose proof (mbits_gt F). unfold extract_sig_frac. rewrite Z.shiftl_1_l. apply land_low. lia. Qed.

Lemma construct_ok (neg : bool) e f : 0 <= e <= emax F -> 0 <= f < 2 ^ mbits F ->
  construct_rep F (if neg then 1 else 0) e f = with_sgn F neg (f + e * 2 ^ mbits F).
Proof using HF.
  intros He Hf. pose proof (mbits_gt F). pose proof (ebits_gt F). pose proof (width_eq F) as We. pose proof (pow_m_pos F) as Pm.
  pose proof (inf_lt_sgnbit F) as [Ip Is]. pose proof (width_gt F).
  assert (R : 0 <= f + e * 2 ^ mbits F < sgnbit F) by (unfold inf_mag in *; nia).
  unfold construct_rep. replace (width F - 1 - ebits F) with (mbits F) by (unfold width; lia).
  rewrite !wrapu_small.
  - rewrite <- Z.lor_assoc, (Z.lor_comm (Z.shiftl e _)), Z.lor_comm, (lor_fields f e) by lia. apply lor_sign; [exact HF | exact R].
  - unfold is_u. rewrite Z.shiftl_mul_pow2, We by lia. nia.
  - unfold is_u. rewrite Z.shiftl_mul_pow2, We by lia. fold (sgnbit F). destruct neg; lia.
Qed.
End Fields.

Section Convert.
Context (Nf Wf : fmt) {HN : FmtOk Nf} {HWf : FmtOk Wf} {HWd : WideFmt Wf}.
(** The narrow and the wide format. *)
Context (He : ebits Nf < ebits Wf) (Hm : mbits Nf + 2 <= mbits Wf) (Hb : bias Nf + mbits Wf < bias Wf).

Abbreviation mN := (mbits Nf).
Abbreviation mW := (mbits Wf).

Lemma bias_shift F : FmtOk F -> Z.shiftr (Z.shiftl 1 (ebits F) - 1) 1 = bias F.
Proof using.
  intros H. pose proof (ebits_gt F). rewrite Z.shiftl_1_l, Z.shiftr_div_pow2 by lia. unfold bias.
  symmetry. apply (Z.div_unique _ (2 ^ 1) _ 1); [change (2 ^ 1) with 2; lia |].
  replace (2 ^ ebits F) with (2 * 2 ^ (ebits F - 1)) by (rewrite <- Z.pow_succ_r by lia; f_equal; lia). change (2 ^ 1) with 2. lia.
Qed.

Lemma twice_bias F : FmtOk F -> 2 * bias F = emax F - 1 /\ 0 < bias F.
Proof using.
  intros H. pose proof (ebits_gt F). unfold bias, emax. pose proof (Z.pow_gt_1 2 (ebits F - 1)).
  replace (2 ^ ebits F) with (2 * 2 ^ (ebits F - 1)) by (rewrite <- Z.pow_succ_r by lia; f_equal; lia). lia.
Qed.

(** Widening is exact: normal numbers keep their significand, subnormal ones are
    normalised with the count of leading zeros. *)
Lemma extend_ok count x : is_u (width Nf) x -> isnan Nf x = false ->
  (0 < mag Nf x < 2 ^ mN -> count (mag Nf x) = width Nf - 1 - Z.log2 (mag Nf x)) ->
  extendXfYf2 Nf Wf count x = fcvt Nf Wf x.
Proof using HN HWf HWd He Hm Hb.
  intros U Nn Cnt. pose proof (mbits_gt Nf) as Mn. pose proof (pow_m_pos Nf) as Pn. pose proof (pow_m_pos Wf) as Pw.
  pose proof (mag_range Nf x) as R. destruct (twice_bias Nf HN) as [Bn Bn0], (twice_bias Wf HWf) as [Bw Bw0].
  destruct (expo_frac Nf (mag Nf x) ltac:(lia)) as (Ex & E0 & Hf). pose proof (width_room Wf) as Wr.
  assert (Sc : 2 ^ mW = 2 ^ mN * 2 ^ (mW - mN)) by (rewrite <- Z.pow_add_r by lia; f_equal; lia).
  pose proof (Z.pow_pos_nonneg 2 (mW - mN) ltac:(lia) ltac:(lia)) as Pd.
  pose proof (Z.pow_le_mono_r 2 (mW + 1) (width Wf) ltac:(lia) ltac:(lia)) as Pr. rewrite Z.pow_add_r in Pr by lia. change (2 ^ 1) with 2 in Pr.
  unfold extendXfYf2. rewrite !bias_shift by assumption. rewrite extract_sign_ok, extract_exp_ok, extract_frac_ok by (assumption || (unfold is_u in U; lia)).
  rewrite !Z.shiftl_1_l. fold (emax Nf) (emax Wf). unfold isnan in Nn. apply Z.ltb_ge in Nn.
  set (a := mag Nf x) in *. assert (Em : expo Nf a <= emax Nf) by (unfold inf_mag in Nn; nia).
  assert (Wide : forall n, 0 <= n -> frac Nf a * 2 ^ n < 2 * 2 ^ mW -> wrapu (width Wf) (Z.shiftl (frac Nf a) n) = frac Nf a * 2 ^ n).
  { intros n Hn B. rewrite Z.shiftl_mul_pow2 by lia. apply wrapu_small. unfold is_u. pose proof (Z.pow_nonneg 2 n). nia. }
  unfold fcvt, isnan, isinf. fold a. destruct (Z.ltb_spec (inf_mag Nf) a); [lia |].
  destruct (Z.leb_spec 1 (expo Nf a)), (Z.ltb_spec (expo Nf a) (emax Nf)); simpl andb; cbv iota.
  - (* normal *)
    rewrite Wide by nia. rewrite construct_ok by (assumption || nia).
    destruct (Z.eqb_spec a (inf_mag Nf)) as [Ei |]; [unfold inf_mag in Ei; nia |].
    unfold decode. destruct (Z.eqb_spec (expo Nf a) 0); [lia |].
    destruct (Z.eqb_spec (2 ^ mN + frac Nf a) 0); [lia |]. f_equal. symmetry.
    set (E' := expo Nf a + (bias Wf - bias Nf)) in *.
    replace (frac Nf a * 2 ^ (mW - mN) + E' * 2 ^ mW) with ((2 ^ mN + frac Nf a) * 2 ^ (mW - mN) + (E' - 1) * 2 ^ mW) by nia.
    apply round_mag_exact; [exact HWf | lia | unfold inf_mag; nia |].
    rewrite mval_build by (assumption || nia). unfold eunit. rewrite Z.max_r, Z.max_l, Z.pow_0_r, Z.mul_1_r by lia.
    rewrite <- Z.mul_assoc, <- Z.pow_add_r by lia. do 2 f_equal. lia.
  - (* infinite *)
    assert (Ee : expo Nf a = emax Nf) by lia. rewrite Ee, Z.eqb_refl. assert (Fz : frac Nf a = 0) by (unfold inf_mag in Nn; nia).
    rewrite Wide by nia. rewrite Fz. rewrite construct_ok by (assumption || nia).
    destruct (Z.eqb_spec a (inf_mag Nf)) as [_ | N]; [| exfalso; apply N; rewrite Ex, Ee, Fz; unfold inf_mag; lia].
    reflexivity.
  - (* subnormal or zero *)
    assert (Ee : expo Nf a = 0) by lia. assert (Ef : frac Nf a = a) by lia. rewrite Ee in *.
    destruct (Z.eqb_spec 0 (emax Nf)) as [| _]; [lia |].
    destruct (Z.eqb_spec a (inf_mag Nf)) as [Ei |]; [unfold inf_mag in Ei; nia |].
    unfold decode. rewrite Ee. simpl (0 =? 0). cbv iota. rewrite Ef in *.
    destruct (Z.eqb_spec a 0) as [-> | Na]; simpl negb; cbv iota.
    { rewrite construct_ok by (assumption || lia). f_equal. }
    destruct (Z.eqb_spec (ebits Nf) (ebits Wf)); [lia |]. rewrite Cnt by lia.
    pose proof (Z.log2_nonneg a) as L0. destruct (Z.log2_spec a ltac:(lia)) as [L1 L2]. rewrite Z.pow_succ_r in L2 by lia.
    assert (Lm : Z.log2 a < mN) by (apply Z.log2_lt_pow2; lia). set (g := Z.log2 a) in *.
    replace (width Nf - 1 - g - (1 + ebits Nf) + 1) with (mN - g) by (unfold width; lia).
    replace (mW - mN + (mN - g)) with (mW - g) by lia.
    assert (Pg : 2 ^ mW = 2 ^ g * 2 ^ (mW - g)) by (rewrite <- Z.pow_add_r by lia; f_equal; lia).
    pose proof (Z.pow_pos_nonneg 2 (mW - g) ltac:(lia) ltac:(lia)). rewrite Wide by nia.
    replace (width Wf - 1 - ebits Wf) with mW by (unfold width; lia).
    set (X := a * 2 ^ (mW - g)). assert (HX : 2 ^ mW <= X < 2 * 2 ^ mW) by (unfold X; nia).
    pose proof (lxor_top X mW ltac:(lia) HX) as Lx. rewrite Z.shiftl_1_l in Lx. rewrite Lx. set (E' := bias Wf - bias Nf - (mN - g) + 1) in *.
    assert (Ew : wrapu (width Wf) E' = E').
    { apply wrapu_small. unfold is_u. pose proof (inf_lt_sgnbit Wf) as [Ip Is]. pose proof (width_eq Wf). unfold inf_mag in *. unfold E'. nia. }
    rewrite Ew, construct_ok by (assumption || (unfold E'; lia)). f_equal. symmetry.
    replace (X - 2 ^ mW + E' * 2 ^ mW) with (X + (E' - 1) * 2 ^ mW) by lia.
    apply round_mag_exact; [exact HWf | lia | unfold inf_mag, E' in *; nia |].
    rewrite mval_build by (assumption || (unfold E'; lia)). unfold eunit. rewrite Z.max_r, Z.max_l, Z.pow_0_r, Z.mul_1_r by lia.
    unfold X, E'. rewrite <- Z.mul_assoc, <- Z.pow_add_r by lia. do 2 f_equal. lia.
  - lia.
Qed.

(** [trunc_round] of a significand [q * 2 ^ t + r]: the exponent field and the
    fraction of the rounded number, whatever was carried. *)
Lemma trunc_round_ok neg e n : 0 <= e < emax Nf -> 0 <= n ->
  n / 2 ^ (mW - mN) < 2 ^ mN + (if e =? 0 then 0 else 2 ^ mN) -> (e <> 0 -> 2 ^ mN <= n / 2 ^ (mW - mN)) ->
  let b := if e =? 0 then 0 else 2 ^ mN in
  (let '(dstExp, dstSigFrac) := trunc_round Wf Nf e (n / 2 ^ (mW - mN) - b) (n mod 2 ^ (mW - mN)) in
   construct_rep Nf (if neg : bool then 1 else 0) dstExp dstSigFrac) =
  with_sgn Nf neg (rne n (mW - mN) + Z.max 0 (e - 1) * 2 ^ mN) /\
  rne n (mW - mN) + Z.max 0 (e - 1) * 2 ^ mN <= inf_mag Nf.
Proof using HN HWf Hm.
  intros Be Hn Hq Hq2 b. pose proof (mbits_gt Nf) as Mn. pose proof (pow_m_pos Nf) as Pn. set (t := mW - mN) in *.
  assert (Ht : 2 <= t) by lia. pose proof (Z.pow_pos_nonneg 2 (t - 1) ltac:(lia) ltac:(lia)) as Ph.
  assert (Et : 2 ^ t = 2 * 2 ^ (t - 1)) by (rewrite <- Z.pow_succ_r by lia; f_equal; lia).
  pose proof (Z.mod_pos_bound n (2 ^ t) ltac:(lia)) as Br. pose proof (Z.div_pos n (2 ^ t) Hn ltac:(lia)) as Q0.
  set (q := n / 2 ^ t) in *. set (r := n mod 2 ^ t) in *.
  assert (Od : Z.land (q - b) 1 = if Z.odd q then 1 else 0).
  { change 1 with (2 ^ 1 - 1) at 1. rewrite land_low by lia. change (2 ^ 1) with 2. rewrite Zmod_odd. f_equal.
    unfold b. destruct (e =? 0); [rewrite Z.sub_0_r; reflexivity |].
    rewrite <- !Z.negb_even, Z.even_sub, Z.even_pow by lia. destruct (Z.even q); reflexivity. }
  assert (Er : rne n t = q + (if 2 ^ (t - 1) <? r then 1 else if r =? 2 ^ (t - 1) then Z.land (q - b) 1 else 0)).
  { rewrite rne_eq by lia. fold q r. cbv zeta. rewrite Od.
    destruct (Z.ltb_spec (2 ^ t) (2 * r)), (Z.ltb_spec (2 ^ (t - 1)) r), (Z.eqb_spec (2 * r) (2 ^ t)), (Z.eqb_spec r (2 ^ (t - 1)));
      try lia; simpl; destruct (Z.odd q); lia. }
  unfold trunc_round. rewrite !Z.shiftl_1_l. fold t.
  set (u := if 2 ^ (t - 1) <? r then 1 else if r =? 2 ^ (t - 1) then Z.land (q - b) 1 else 0) in Er.
  assert (Hu : 0 <= u <= 1) by (unfold u; rewrite Od; zbool; destruct (Z.odd q); lia).
  assert (Ef : (if 2 ^ (t - 1) <? r then q - b + 1 else if r =? 2 ^ (t - 1) then q - b + Z.land (q - b) 1 else q - b) = q - b + u)
    by (unfold u; zbool; lia).
  cbv zeta. rewrite Ef, Er. assert (Mx : Z.max 0 (e - 1) * 2 ^ mN = e * 2 ^ mN - b).
  { unfold b. destruct (Z.eqb_spec e 0) as [-> |]; [reflexivity |]. rewrite Z.max_r by lia. lia. }
  rewrite Mx. assert (Hqb : 0 <= q - b < 2 ^ mN) by (unfold b; destruct (Z.eqb_spec e 0); lia).
  split; [| unfold inf_mag; nia].
  destruct (Z.leb_spec (2 ^ mN) (q - b + u)) as [C | C].
  - assert (Eq : q - b + u = 2 ^ mN) by lia. rewrite Eq, Z.lxor_nilpotent. rewrite construct_ok by (assumption || lia). f_equal. lia.
  - rewrite construct_ok by (assumption || lia). f_equal. lia.
Qed.

(** The branch for numbers below the normal range. *)
Lemma trunc_denormal neg m sh : 0 <= m < 2 * 2 ^ mW -> 1 <= sh ->
  let denormalized := Z.lor (Z.shiftr m sh)
    (if negb (sh =? 0) && negb (wrapu (width Wf) (Z.shiftl m (width Wf - sh)) =? 0) then 1 else 0) in
  (let '(dstExp, dstSigFrac) :=
     if mW <? sh then (0, 0)
     else trunc_round Wf Nf 0 (Z.shiftr denormalized (mW - mN)) (Z.land denormalized (2 ^ (mW - mN) - 1)) in
   construct_rep Nf (if neg : bool then 1 else 0) dstExp dstSigFrac) =
  with_sgn Nf neg (rne m (sh + (mW - mN))) /\ rne m (sh + (mW - mN)) <= inf_mag Nf.
Proof using HN HWf HWd Hm.
  intros Bm Bs d. pose proof (mbits_gt Nf) as Mn. pose proof (pow_m_pos Nf) as Pn. pose proof (pow_m_pos Wf) as Pw.
  set (t := mW - mN) in *. assert (Ht : 2 <= t) by lia. pose proof (Z.pow_pos_nonneg 2 t ltac:(lia) ltac:(lia)) as Pt.
  assert (Sc : 2 ^ mW = 2 ^ mN * 2 ^ t) by (unfold t; rewrite <- Z.pow_add_r by lia; f_equal; lia).
  pose proof (width_room Wf) as Wr. pose proof (Z.pow_pos_nonneg 2 sh ltac:(lia) ltac:(lia)) as Psh.
  destruct (twice_bias Nf HN) as [Bn Bn0]. destruct (inf_lt_sgnbit Nf) as [Ip _]. destruct (Z.ltb_spec mW sh) as [L | G].
  - assert (Z0 : rne m (sh + t) = 0).
    { assert (P4 : 4 * m < 2 ^ (sh + t)).
      { apply (Z.lt_le_trans _ (2 ^ (mW + 3))); [rewrite Z.pow_add_r by lia; lia | apply Z.pow_le_mono_r; lia]. }
      rewrite rne_eq by lia. rewrite Z.div_small, Z.mod_small by lia. cbv zeta.
      destruct (Z.ltb_spec (2 ^ (sh + t)) (2 * m)), (Z.eqb_spec (2 * m) (2 ^ (sh + t))); reflexivity || lia. }
    rewrite Z0. rewrite construct_ok by (assumption || lia). split; [reflexivity | lia].
  - pose proof (Z.pow_le_mono_r 2 (mW + 1) (width Wf) ltac:(lia) ltac:(lia)) as Pr. rewrite Z.pow_add_r in Pr by lia. change (2 ^ 1) with 2 in Pr.
    assert (Ed : d = stk m sh).
    { rewrite <- (sticky_shift_eq Wf m sh) by lia. unfold d, sticky_shift, rshl, rep, typeWidth.
      destruct (Z.eqb_spec sh 0); [lia |]. simpl. destruct (_ =? 0); reflexivity. }
    assert (Sn : 0 <= d) by (rewrite Ed; apply stk_nonneg; lia).
    assert (Sl : d < 2 ^ mW).
    { rewrite Ed. replace (2 ^ mW) with (2 * 2 ^ (mW - 1)) by (rewrite <- Z.pow_succ_r by lia; f_equal; lia). apply stk_lt.
      apply Z.div_lt_upper_bound; [exact Psh |]. rewrite <- Z.pow_succ_r, Z.sub_1_r, Z.succ_pred by lia.
      assert (2 ^ 1 <= 2 ^ sh) by (apply Z.pow_le_mono_r; lia). change (2 ^ 1) with 2 in *. nia. }
    rewrite land_low, Z.shiftr_div_pow2 by lia.
    destruct (trunc_round_ok neg 0 d ltac:(lia) Sn) as [E L]; [simpl; fold t; apply Z.div_lt_upper_bound; lia | lia |].
    simpl in E, L. fold t in E, L. rewrite Z.sub_0_r in E. rewrite E.
    assert (Er : rne d t = rne m (sh + t)).
    { rewrite Ed, <- (rnd_nearest neg), <- (rnd_nearest neg m), Z.add_comm by lia. apply rnd_stk; lia. }
    rewrite Er, Z.add_0_r in *. split; [reflexivity | exact L].
Qed.

Lemma trunc_ok x : is_u (width Wf) x -> isnan Wf x = false -> truncXfYf2 Wf Nf x = fcvt Wf Nf x.
Proof using HN HWf HWd He Hm Hb.
  intros U Nn. pose proof (mbits_gt Nf) as Mn. pose proof (pow_m_pos Nf) as Pn. pose proof (pow_m_pos Wf) as Pw.
  pose proof (mag_range Wf x) as R. destruct (twice_bias Nf HN) as [Bn Bn0], (twice_bias Wf HWf) as [Bw Bw0].
  destruct (expo_frac Wf (mag Wf x) ltac:(lia)) as (Ex & E0 & Hf). pose proof (width_room Wf) as Wr. pose proof (wide_words (F := Wf)) as Ww.
  pose proof (wide_ebits (F := Wf)) as Web. pose proof (wide_mbits (F := Wf)) as Wmb.
  assert (Emax : emax Wf <= 2 ^ 24) by (unfold emax; pose proof (Z.pow_le_mono_r 2 (ebits Wf) 24 ltac:(lia) ltac:(lia)); lia).
  set (t := mW - mN) in *. assert (Ht : 2 <= t) by lia. pose proof (Z.pow_pos_nonneg 2 t ltac:(lia) ltac:(lia)) as Pt.
  assert (Sc : 2 ^ mW = 2 ^ mN * 2 ^ t) by (unfold t; rewrite <- Z.pow_add_r by lia; f_equal; lia).
  unfold truncXfYf2. rewrite !bias_shift by assumption.
  rewrite extract_sign_ok, extract_exp_ok, extract_frac_ok by (assumption || (unfold is_u in U; lia)).
  rewrite !Z.shiftl_1_l. fold (emax Nf) (emax Wf). unfold isnan in Nn. apply Z.ltb_ge in Nn. fold t.
  set (a := mag Wf x) in *. assert (Em : expo Wf a <= emax Wf) by (unfold inf_mag in Nn; nia).
  destruct (Z.eqb_spec (ebits Wf) (ebits Nf)) as [| _]; [lia |]. simpl andb. cbv iota.
  unfold fcvt, isnan, isinf. fold a. destruct (Z.ltb_spec (inf_mag Wf) a); [lia |].
  set (C := expo Wf a - bias Wf + bias Nf) in *.
  rewrite !land_low, !Z.shiftr_div_pow2 by lia.
  destruct (Z.leb_spec 1 C), (Z.ltb_spec C (emax Nf)); simpl andb; cbv iota.
  - (* a normal number *)
    destruct (Z.eqb_spec a (inf_mag Wf)) as [Ei | Ni]; [unfold inf_mag in Ei; nia |]. unfold decode.
    destruct (Z.eqb_spec (expo Wf a) 0) as [| _]; [lia |]. destruct (Z.eqb_spec (2 ^ mW + frac Wf a) 0) as [| _]; [lia |].
    set (n := 2 ^ mW + frac Wf a). assert (Dv : n / 2 ^ t = 2 ^ mN + frac Wf a / 2 ^ t /\ n mod 2 ^ t = frac Wf a mod 2 ^ t).
    { unfold n. rewrite Sc, Z.add_comm, Z.div_add, Z.mod_add by lia. split; [lia | reflexivity]. }
    destruct Dv as [Dv Dm]. pose proof (Z.div_pos (frac Wf a) (2 ^ t) ltac:(lia) Pt) as Q0.
    assert (Ql : frac Wf a / 2 ^ t < 2 ^ mN) by (apply Z.div_lt_upper_bound; nia).
    destruct (trunc_round_ok (sgn Wf x) C n) as [E L]; [lia | lia | | | ]; fold t; destruct (Z.eqb_spec C 0); try lia.
    fold t in E, L. rewrite Dv, Dm in E. replace (2 ^ mN + frac Wf a / 2 ^ t - 2 ^ mN) with (frac Wf a / 2 ^ t) in E by lia. rewrite E.
    f_equal. unfold round_mag. assert (Ln : Z.log2 n = mW) by (apply Z.log2_unique; [lia |]; rewrite Z.pow_succ_r by lia; unfold n; lia).
    rewrite Ln. unfold eunit. replace (mW + (expo Wf a - 1 - (bias Wf + mW - 1) + (bias Nf + mN - 1)) - mN) with (C - 1) by lia.
    rewrite Z.max_r in * by lia. cbv zeta. destruct (Z.leb_spec (C - 1) (expo Wf a - 1 - (bias Wf + mW - 1) + (bias Nf + mN - 1))); [lia |].
    replace (C - 1 - (expo Wf a - 1 - (bias Wf + mW - 1) + (bias Nf + mN - 1))) with t by lia. rewrite Z.min_r by lia. reflexivity.
  - (* overflow *)
    assert (Nan : (expo Wf a =? emax Wf) && negb (frac Wf a =? 0) = false).
    { destruct (Z.eqb_spec (expo Wf a) (emax Wf)) as [Ee |]; [| reflexivity]. destruct (Z.eqb_spec (frac Wf a) 0); [reflexivity |]. unfold inf_mag in Nn. nia. }
    rewrite Nan. destruct (Z.leb_spec (bias Wf + emax Nf - bias Nf) (expo Wf a)); [| lia].
    rewrite construct_ok by (assumption || lia). destruct (Z.eqb_spec a (inf_mag Wf)) as [_ | Ni]; [f_equal; unfold inf_mag; lia |].
    unfold decode. destruct (Z.eqb_spec (expo Wf a) 0) as [| _]; [lia |]. destruct (Z.eqb_spec (2 ^ mW + frac Wf a) 0) as [| _]; [lia |]. f_equal.
    set (n := 2 ^ mW + frac Wf a). unfold round_mag.
    assert (Ln : Z.log2 n = mW) by (apply Z.log2_unique; [lia |]; rewrite Z.pow_succ_r by lia; unfold n; lia).
    rewrite Ln. unfold eunit. replace (mW + (expo Wf a - 1 - (bias Wf + mW - 1) + (bias Nf + mN - 1)) - mN) with (C - 1) by lia.
    rewrite Z.max_r by lia. cbv zeta. destruct (Z.leb_spec (C - 1) (expo Wf a - 1 - (bias Wf + mW - 1) + (bias Nf + mN - 1))); [lia |].
    replace (C - 1 - (expo Wf a - 1 - (bias Wf + mW - 1) + (bias Nf + mN - 1))) with t by lia.
    pose proof (rne_bounds n t ltac:(lia)). assert (2 ^ mN <= n / 2 ^ t) by (apply Z.div_le_lower_bound; unfold n; lia).
    rewrite Z.min_l by (unfold inf_mag; nia). unfold inf_mag. lia.
  - (* subnormal *)
    destruct (Z.eqb_spec (expo Wf a) (emax Wf)) as [Ee | Ne]; [lia |]. simpl andb. cbv iota.
    destruct (Z.leb_spec (bias Wf + emax Nf - bias Nf) (expo Wf a)); [lia |].
    destruct (Z.eqb_spec a (inf_mag Wf)) as [Ei | Ni]; [unfold inf_mag in Ei; nia |].
    assert (Esh : s32 (wrapu (width Wf) (bias Wf - bias Nf - expo Wf a)) = - C)
      by (rewrite wraps_wrapu, wraps_small by (unfold is_s, smin, smax; lia); lia).
    rewrite Esh. unfold decode. set (E := expo Wf a) in *.
    assert (Fin : forall m sh, 0 <= m < 2 * 2 ^ mW -> 1 <= sh -> m <> 0 ->
      rne m (sh + t) <= inf_mag Nf -> with_sgn Nf (sgn Wf x) (rne m (sh + t)) = with_sgn Nf (sgn Wf x) (round_mag Nf m (- (sh + t)))).
    { intros m sh Bm Bs Nm Li. f_equal. unfold round_mag.
      assert (Z.log2 m <= mW) by (apply Z.lt_succ_r, Z.log2_lt_pow2; [lia |]; rewrite Z.pow_succ_r by lia; lia).
      rewrite Z.max_l by lia. cbv zeta. destruct (Z.leb_spec 0 (- (sh + t))); [lia |].
      replace (0 - - (sh + t)) with (sh + t) by lia. rewrite Z.mul_0_l, Z.add_0_r, Z.min_r by lia. reflexivity. }
    destruct (Z.eqb_spec E 0) as [E0' | En]; simpl negb; cbv iota beta.
    + destruct (trunc_denormal (sgn Wf x) (frac Wf a) (- C)) as [K L]; [lia | lia |]. cbv zeta in K. fold t in K, L. rewrite K.
      destruct (Z.eqb_spec (frac Wf a) 0) as [F0 | Fn]; [rewrite F0; f_equal; apply (rne_exact 0); lia |].
      rewrite Fin by (assumption || lia). f_equal. f_equal. unfold eunit. lia.
    + assert (Lo : Z.lor (frac Wf a) (2 ^ mW) = 2 ^ mW + frac Wf a) by (rewrite <- Z.shiftl_1_l, lor_fields, Z.shiftl_1_l by lia; lia).
      rewrite Lo. destruct (trunc_denormal (sgn Wf x) (2 ^ mW + frac Wf a) (- C + 1)) as [K L]; [lia | lia |]. cbv zeta in K. fold t in K, L. rewrite K.
      destruct (Z.eqb_spec (2 ^ mW + frac Wf a) 0); [lia |]. rewrite Fin by (assumption || lia). f_equal. f_equal. unfold eunit. lia.
  - lia.
Qed.

(** Widening and narrowing again is the identity. *)
Lemma fcvt_roundtrip x : is_u (width Nf) x -> isnan Nf x = false -> fcvt Wf Nf (fcvt Nf Wf x) = x.
Proof using HN HWf He Hm Hb.
  intros U Nn. pose proof (mag_range Nf x) as R. pose proof (with_sgn_split Nf x U) as Sx. pose proof (inf_lt_sgnbit Wf) as [Iw Is].
  pose proof (inf_lt_sgnbit Nf) as [In _]. pose proof (pow_m_pos Wf) as Pw. pose proof (pow_m_pos Nf) as Pn. pose proof (mbits_gt Nf) as Mn.
  destruct (twice_bias Nf HN) as [Bn Bn0], (twice_bias Wf HWf) as [Bw Bw0].
  unfold isnan in Nn. apply Z.ltb_ge in Nn. set (a := mag Nf x) in *. set (s := sgn Nf x) in *.
  assert (Back : forall b, 0 <= b <= inf_mag Wf -> mag Wf (with_sgn Wf s b) = b /\ sgn Wf (with_sgn Wf s b) = s)
    by (intros b Bb; destruct (with_sgn_mag_sgn Wf s b ltac:(lia)) as (A1 & A2 & _); auto).
  unfold fcvt at 2. unfold isnan, isinf. fold a s. destruct (Z.ltb_spec (inf_mag Nf) a); [lia |].
  destruct (Z.eqb_spec a (inf_mag Nf)) as [Ei | Ni].
  { destruct (Back (inf_mag Wf) ltac:(lia)) as [B1 B2]. unfold fcvt, isnan, isinf. rewrite B1, B2, Z.ltb_irrefl, Z.eqb_refl, <- Ei. exact Sx. }
  destruct (decode Nf a) as [m k] eqn:D. destruct (decode_spec Nf a m k ltac:(lia) D) as (Ea & Hk & Hmm & Nm & _).
  destruct (Z.eqb_spec m 0) as [-> | M0].
  { destruct (Back 0 ltac:(lia)) as [B1 B2]. unfold fcvt, isnan, isinf. rewrite B1, B2.
    destruct (Z.ltb_spec (inf_mag Wf) 0); [lia |]. destruct (Z.eqb_spec 0 (inf_mag Wf)); [lia |].
    unfold decode, expo, frac. rewrite Z.div_0_l, Z.mod_0_l by lia. simpl. rewrite <- Sx. f_equal. destruct (Z.eq_dec k 0); nia. }
  set (g := eunit Wf - eunit Nf). assert (Hg : 0 <= g) by (unfold g, eunit; lia).
  assert (Kb : k <= emax Nf - 2) by (unfold inf_mag in *; destruct (Z.eq_dec k 0); [pose proof (pow_e_ge Nf); unfold emax; lia | specialize (Nm ltac:(lia)); nia]).
  assert (Rp : repr Wf (m * 2 ^ (k + g))).
  { apply repr_scaled; [exact HWf | |].
    - pose proof (Z.pow_le_mono_r 2 mN mW ltac:(lia) ltac:(lia)). lia.
    - unfold g, eunit. lia. }
  destruct Rp as (b & Bb & Vb). rewrite Z.abs_eq in Vb by (pose proof (Z.pow_nonneg 2 (k + g)); nia).
  replace (k - eunit Nf + eunit Wf) with (k + g) by (unfold g; lia).
  assert (Rm : round_mag Wf m (k + g) = b).
  { apply round_mag_exact; [exact HWf | lia | exact Bb |]. rewrite Z.max_r, Z.max_l, Z.pow_0_r, Z.mul_1_r by lia. symmetry. exact Vb. }
  rewrite Rm. destruct (Back b ltac:(lia)) as [B1 B2]. unfold fcvt, isnan, isinf. rewrite B1, B2.
  destruct (Z.ltb_spec (inf_mag Wf) b); [lia |]. destruct (Z.eqb_spec b (inf_mag Wf)); [lia |].
  destruct (decode Wf b) as [m2 k2] eqn:D2. destruct (decode_spec Wf b m2 k2 ltac:(lia) D2) as (_ & Hk2 & Hm2 & _).
  rewrite (mval_decode Wf b m2 k2 D2) in Vb. pose proof (Z.pow_pos_nonneg 2 (k + g) ltac:(lia) ltac:(lia)) as Pg.
  pose proof (Z.pow_pos_nonneg 2 k2 ltac:(lia) Hk2) as P2.
  assert (M2 : 0 < m2) by nia. destruct (Z.eqb_spec m2 0); [lia |]. rewrite <- Sx. f_equal.
  apply round_mag_exact; [exact HN | exact M2 | lia |]. rewrite (mval_decode Nf a m k D). replace (k2 - eunit Wf + eunit Nf) with (k2 - g) by (unfold g; lia).
  apply (Z.mul_reg_r _ _ (2 ^ Z.min k2 g)); [apply Z.pow_nonzero; lia |]. rewrite <- !Z.mul_assoc, <- !Z.pow_add_r by lia.
  replace (Z.max 0 (k2 - g) + Z.min k2 g) with k2 by lia. rewrite Vb. f_equal. f_equal. lia.
Qed.
End Convert.

Lemma fcvt_finite F G {HF : FmtOk F} {HG : FmtOk G} x : isnan F x = false -> is_u (width G) (fcvt F G x) /\ isnan G (fcvt F G x) = false.
Proof.
  intros N. pose proof (inf_lt_sgnbit G) as [Ip Is]. pose proof (pow_m_pos G) as Pm.
  assert (K : forall s a, 0 <= a <= inf_mag G -> is_u (width G) (with_sgn G s a) /\ isnan G (with_sgn G s a) = false).
  { intros s a Ha. destruct (with_sgn_mag_sgn G s a ltac:(lia)) as (M & _ & U). split; [exact U |].
    unfold isnan. rewrite M. apply Z.ltb_ge. lia. }
  unfold fcvt. rewrite N. destruct (isinf F x); [apply K; lia |]. destruct (decode F (mag F x)) as [m k] eqn:D.
  pose proof (mag_range F x) as R. destruct (decode_spec F (mag F x) m k ltac:(lia) D) as (_ & _ & Hm & _).
  destruct (Z.eqb_spec m 0); [apply K; lia |]. apply K. unfold round_mag. set (j := Z.max 0 _). set (k' := k - eunit F + eunit G). split; [| lia].
  assert (0 <= (if j <=? k' then Z.shiftl m (k' - j) else rne m (j - k'))); [| nia].
  destruct (Z.leb_spec j k'); [apply Z.shiftl_nonneg; lia |]. pose proof (rne_bounds m (j - k') ltac:(lia)).
  assert (0 <= m / 2 ^ (j - k')) by (apply Z.div_pos; [lia | apply Z.pow_pos_nonneg; lia]). lia.
Qed.

(** ** The functions the compiler calls *)

Lemma sub_neg y : is_u 128 y -> Z.lxor y (signBit F128) = fneg F128 y.
Proof.
  intros U. change 128 with (width F128) in U. rewrite signBit_eq. pose proof (mag_range F128 y) as R.
  pose proof (with_sgn_split F128 y U) as Sy. destruct (with_sgn_mag_sgn F128 (sgn F128 y) (mag F128 y) R) as (_ & S1 & _).
  assert (A : sgnbit F128 + mag F128 y = Z.lxor (sgnbit F128) (mag F128 y)).
  { apply Z.add_nocarry_lxor. rewrite Z.land_comm. unfold sgnbit in *. pose proof (bit_test (mag F128 y) (width F128 - 1) ltac:(discriminate) ltac:(lia)) as K.
    destruct (Z.ltb_spec (mag F128 y) (2 ^ (width F128 - 1))); [apply Z.eqb_eq, K | lia]. }
  unfold fneg. rewrite <- Sy at 1. unfold with_sgn in *. destruct (sgn F128 y).
  - rewrite A, (Z.lxor_comm (sgnbit F128)), Z.lxor_assoc, Z.lxor_nilpotent, Z.lxor_0_r. lia.
  - rewrite Z.lxor_comm, <- A. lia.
Qed.

(** C8: quadruple precision addition.  [__addtf3] and [__subtf3], which align, add
    and round the bits with guard and sticky bits, return in the default rounding
    mode the exact sum and difference rounded to nearest even, for every pair of
    operands: subnormal, cancelling, overflowing and infinite ones included; a NaN
    operand gives a NaN in every mode.  In the other modes they return [add_spec]:
    the exact sum or difference rounded to the precision of the format as the mode
    says, except that an overflow always gives infinity, also where the mode asks
    for the largest number, and a cancellation always [+0]. *)
Theorem addtf3_correctly_rounded x y : is_u 128 x -> is_u 128 y ->
  if isnan F128 x || isnan F128 y
  then forall rm, isnan F128 (__addtf3 rm x y).1 = true /\ isnan F128 (__subtf3 rm x y).1 = true
  else (__addtf3 FE_TONEAREST x y).1 = fadd F128 x y /\ (__subtf3 FE_TONEAREST x y).1 = fsub F128 x y /\
       forall rm, (__addtf3 rm x y).1 = add_spec F128 rm x y /\ (__subtf3 rm x y).1 = add_spec F128 rm x (fneg F128 y).
Proof.
  intros Ux Uy. pose proof (add_xf3_ok F128) as Ok. destruct (fneg_spec F128 y Uy) as (_ & _ & Mn & Un).
  assert (Nn : isnan F128 (fneg F128 y) = isnan F128 y) by (unfold isnan; rewrite Mn; reflexivity).
  assert (Sub : forall rm, __subtf3 rm x y = __addtf3 rm x (fneg F128 y))
    by (intros rm; unfold __subtf3, subXf3; rewrite sub_neg by exact Uy; reflexivity).
  destruct (isnan F128 x || isnan F128 y) eqn:N.
  - intros rm. rewrite Sub. pose proof (Ok rm x y Ux Uy) as O1. pose proof (Ok rm x (fneg F128 y) Ux Un) as O2.
    rewrite Nn, N in O2. rewrite N in O1. split; assumption.
  - assert (Add : forall rm z, is_u 128 z -> isnan F128 z = isnan F128 y -> (__addtf3 rm x z).1 = add_spec F128 rm x z).
    { intros rm z Uz Nz. specialize (Ok rm x z Ux Uz). rewrite Nz, N in Ok. exact Ok. }
    apply orb_false_iff in N as [Nx Ny].
    split; [rewrite Add by (assumption || reflexivity); apply add_spec_nearest; assumption |].
    split; [rewrite Sub, Add by assumption; apply add_spec_nearest; congruence |].
    intros rm. rewrite Sub. split; apply Add; assumption || reflexivity.
Qed.

(** One plus the smallest subnormal number, and the largest number doubled. *)
Lemma addtf3_correctly_rounded_witness :
  (__addtf3 FE_TONEAREST (of_int F128 1) 1).1 = fadd F128 (of_int F128 1) 1 /\
  (__addtf3 FE_TONEAREST (inf_mag F128 - 1) (inf_mag F128 - 1)).1 = fadd F128 (inf_mag F128 - 1) (inf_mag F128 - 1).
Proof.
  assert (U1 : is_u 128 (of_int F128 1)) by (split; vm_compute; (reflexivity || discriminate)).
  assert (U2 : is_u 128 1) by (split; vm_compute; (reflexivity || discriminate)).
  assert (U3 : is_u 128 (inf_mag F128 - 1)) by (split; vm_compute; (reflexivity || discriminate)).
  assert (N1 : isnan F128 (of_int F128 1) || isnan F128 1 = false) by (vm_compute; reflexivity).
  assert (N2 : isnan F128 (inf_mag F128 - 1) || isnan F128 (inf_mag F128 - 1) = false) by (vm_compute; reflexivity).
  pose proof (addtf3_correctly_rounded (of_int F128 1) 1 U1 U2) as H1. rewrite N1 in H1.
  pose proof (addtf3_correctly_rounded (inf_mag F128 - 1) (inf_mag F128 - 1) U3 U3) as H2. rewrite N2 in H2.
  split; [exact (proj1 H1) | exact (proj1 H2)].
Defined.

(** The comparisons of quadruple precision.  [__letf2] (with its aliases for
    equality and less-than) and [__getf2], which compare the representations as
    signed integers, order the values of any two numbers, the two zeros equal; a
    NaN is 1 for the former and -1 for the latter, so every ordered comparison
    with it is false. *)
Theorem comparetf2_correct x y : is_u 128 x -> is_u 128 y ->
  __letf2 x y = (if isnan F128 x || isnan F128 y then 1 else sign_of (fval F128 x ?= fval F128 y)) /\
  __getf2 x y = (if isnan F128 x || isnan F128 y then -1 else sign_of (fval F128 x ?= fval F128 y)).
Proof. intros Ux Uy. split; apply (cmp_gen_ok F128); assumption. Qed.

Lemma comparetf2_correct_witness : __letf2 (2 ^ 127) 0 = 0 /\ __getf2 (inf_mag F128 + 1) 0 = -1.
Proof.
  split.
  - rewrite (proj1 (comparetf2_correct (2 ^ 127) 0 ltac:(split; vm_compute; (reflexivity || discriminate)) ltac:(split; vm_compute; (reflexivity || discriminate)))).
    vm_compute. reflexivity.
  - rewrite (proj2 (comparetf2_correct (inf_mag F128 + 1) 0 ltac:(split; vm_compute; (reflexivity || discriminate)) ltac:(split; vm_compute; (reflexivity || discriminate)))).
    vm_compute. reflexivity.
Defined.

(** Conversions between quadruple precision and the narrower formats.  For
    every number that is not a NaN, [__extenddftf2] gives the same value,
    [__trunctfdf2] and [__trunctfsf2] the value rounded to nearest even in the
    narrower format, with its subnormal range and overflow, and widening and
    narrowing again gives the number back; [__extendsftf2] gives the same value
    for the floats that are not subnormal. *)
Theorem formattf2_correct x : is_u 128 x -> isnan F128 x = false ->
  __trunctfdf2 x = fcvt F128 F64 x /\ __trunctfsf2 x = fcvt F128 F32 x /\
  (forall d, is_u 64 d -> isnan F64 d = false -> __extenddftf2 d = fcvt F64 F128 d /\ __trunctfdf2 (__extenddftf2 d) = d) /\
  (forall f, is_u 32 f -> isnan F32 f = false -> mag F32 f = 0 \/ 2 ^ 23 <= mag F32 f -> __extendsftf2 f = fcvt F32 F128 f).
Proof.
  intros U N. assert (B64 : bias F64 + mbits F128 < bias F128) by reflexivity. assert (B32 : bias F32 + mbits F128 < bias F128) by reflexivity.
  assert (T64 : forall z, is_u 128 z -> isnan F128 z = false -> __trunctfdf2 z = fcvt F128 F64 z)
    by (intros z Uz Nz; apply (trunc_ok F64 F128); simpl; try lia; assumption).
  split; [apply T64; assumption |]. split; [apply (trunc_ok F32 F128); simpl; try lia; assumption |].
  split.
  - intros d Ud Nd. assert (E : __extenddftf2 d = fcvt F64 F128 d).
    { apply (extend_ok F64 F128); simpl; try lia; try assumption. intros _. reflexivity. }
    split; [exact E |]. rewrite E, T64.
    + apply (fcvt_roundtrip F64 F128); simpl; try lia; assumption.
    + apply (fcvt_finite F64 F128 d Nd).
    + apply (fcvt_finite F64 F128 d Nd).
  - intros f Uf Nf Sf. apply (extend_ok F32 F128); simpl; try lia; try assumption.
Qed.

(** A third of one in double precision, widened and narrowed. *)
Lemma formattf2_correct_witness :
  __trunctfsf2 (quad 0x3fd5555555555555) = fcvt F128 F32 (quad 0x3fd5555555555555) /\
  __trunctfdf2 (__extenddftf2 0x3fd5555555555555) = 0x3fd5555555555555.
Proof.
  assert (U : is_u 128 (quad 0x3fd5555555555555)) by (split; vm_compute; (reflexivity || discriminate)).
  assert (N : isnan F128 (quad 0x3fd5555555555555) = false) by (vm_compute; reflexivity).
  destruct (formattf2_correct (quad 0x3fd5555555555555) U N) as (_ & S & D & _).
  split; [exact S |]. destruct (D 0x3fd5555555555555) as [_ R]; [split; vm_compute; (reflexivity || discriminate) | vm_compute; reflexivity | exact R].
Defined.

(** Conversions between quadruple precision and integers.  [__floatditf],
    [__floatsitf] and [__floatunsitf] give the number with exactly the value of the
    integer; [__fixtfdi] truncates a number towards zero when the result fits in
    64 bits; so converting a 64-bit integer and back is the identity. *)
Theorem inttf_correct x n : is_u 128 x -> isfinite F128 x = true -> is_s 64 (to_int F128 x) -> is_s 64 n ->
  __fixtfdi x = to_int F128 x /\ __floatditf n = of_int F128 n /\ __fixtfdi (__floatditf n) = n /\
  (forall i, is_s 32 i -> __floatsitf i = of_int F128 i) /\ (forall u, is_u 32 u -> __floatunsitf u = of_int F128 u).
Proof.
  intros U Fx R Rn. assert (Fix : forall z, is_u 128 z -> isfinite F128 z = true -> is_s 64 (to_int F128 z) -> __fixtfdi z = to_int F128 z).
  { intros z Uz Fz Rz. destruct (finite_cases F128 z Fz) as (_ & _ & Lz). apply (fixint_ok F128); try assumption; [reflexivity | simpl; lia]. }
  split; [apply Fix; assumption |]. assert (Fl : __floatditf n = of_int F128 n) by (apply (float_signed_ok F128 64); [simpl; lia | exact Rn]).
  split; [exact Fl |]. split; [| split; intros i Hi; [apply (float_signed_ok F128 32) | apply (float_unsigned_ok F128 32)]; (simpl; lia) || exact Hi].
  assert (Bn : Z.abs n <= 2 * 2 ^ mbits F128) by (unfold is_s, smin, smax in Rn; simpl; lia).
  destruct (of_int_exact F128 n Bn) as (V & Fi & Ui & _).
  assert (Ti : to_int F128 (of_int F128 n) = n) by (unfold to_int; rewrite V; apply Z.quot_mul, Z.pow_nonzero; discriminate).
  rewrite Fl, Fix; [exact Ti | exact Ui | exact Fi |]. rewrite Ti. exact Rn.
Qed.

(** Minus seven and a half, and the smallest 64-bit integer. *)
Lemma inttf_correct_witness :
  __fixtfdi (fdiv F128 (of_int F128 (-15)) (of_int F128 2)) = -7 /\ __fixtfdi (__floatditf (- 2 ^ 63)) = - 2 ^ 63.
Proof.
  assert (U : is_u 128 (fdiv F128 (of_int F128 (-15)) (of_int F128 2))) by (split; vm_compute; (reflexivity || discriminate)).
  assert (Fi : isfinite F128 (fdiv F128 (of_int F128 (-15)) (of_int F128 2)) = true) by (vm_compute; reflexivity).
  assert (T : to_int F128 (fdiv F128 (of_int F128 (-15)) (of_int F128 2)) = -7) by (vm_compute; reflexivity).
  assert (R : is_s 64 (to_int F128 (fdiv F128 (of_int F128 (-15)) (of_int F128 2)))) by (rewrite T; split; vm_compute; discriminate).
  assert (Rn : is_s 64 (- 2 ^ 63)) by (split; vm_compute; discriminate).
  destruct (inttf_correct _ (- 2 ^ 63) U Fi R Rn) as (A & _ & B & _). split; [rewrite A; exact T | exact B].
Defined.

(** ** What is wrong *)

Definition three_halves : Z := fdiv F128 (of_int F128 3) (of_int F128 2).

(** [wideMultiply] multiplies the low 64 bits only: the square of 1.5 is 1, and
    1 divided by 1 is not 1. *)
Theorem multf3_wrong : __multf3 three_halves three_halves = of_int F128 1 /\
  __multf3 three_halves three_halves <> fmul F128 three_halves three_halves /\
  __divtf3 (of_int F128 1) (of_int F128 1) <> of_int F128 1.
Proof. vm_compute. repeat split; discriminate. Qed.

(** [__extendsftf2] counts trailing zeros where leading zeros are meant: the
    smallest float, 2^-149, becomes a number larger than 2^-126. *)
Theorem extendsftf2_subnormal_wrong : __extendsftf2 1 <> fcvt F32 F128 1 /\
  flt F128 (__extendsftf2 0x00800000) (__extendsftf2 1) = true.
Proof. vm_compute. repeat split; discriminate. Qed.

(** [__fixtfdi] saturates from 2^64 only: 2^63 becomes the smallest integer and
    -(2^63 + 2^62) a positive one. *)
Theorem fixtfdi_wraps : __fixtfdi (of_int F128 (2 ^ 63)) = - 2 ^ 63 /\
  __fixtfdi (of_int F128 (- (2 ^ 63 + 2 ^ 62))) = 2 ^ 62.
Proof. vm_compute. split; reflexivity. Qed.

(** Rounding towards zero, the sum of the two largest numbers is infinity. *)
Theorem addtf3_overflow_towards_zero :
  (__addtf3 FE_TOWARDZERO (inf_mag F128 - 1) (inf_mag F128 - 1)).1 = inf_mag F128.
Proof. vm_compute. reflexivity. Qed.
