(* ===== verification/IntDiv.v ===== *)
(** * 64-bit division in software

    [__udivdi3], [__umoddi3], [__divdi3] and [__moddi3] of
    [src/src/internal/gcc.cpp], which the compiler calls on processors without
    64-bit division.  [hz::bit_width] belongs to the support library. *)

From S2P Require Import Prelude.

#[local] Open Scope Z_scope.

(** The number of bits up to the leading one. *)
Class BitWidth := {
  bit_width : Z -> Z;
  bit_width_ok : forall x, is_u 64 x -> 0 <= bit_width x <= 64 /\ x < 2 ^ bit_width x
}.

Section Division.
Context {BW : BitWidth}.

(** The loop from bit [i] down. *)
Fixpoint div_loop (i : nat) (numerator denominator quot rem : Z) : Z * Z :=
  match i with
  | O => (quot, rem)
  | S i' =>
    let rem := u64 (Z.shiftl rem 1) in
    let rem := Z.lor rem (Z.land (Z.shiftr numerator (Z.of_nat i')) 1) in
    if denominator <=? rem
    then div_loop i' numerator denominator (Z.lor quot (u64 (Z.shiftl 1 (Z.of_nat i')))) (rem - denominator)
    else div_loop i' numerator denominator quot rem
  end.

(** Quotient and remainder; the processor faults on a zero denominator. *)
Definition udivdi3 (numerator denominator : Z) : option (Z * Z) :=
  if denominator =? 0 then None
  else Some (div_loop (Z.to_nat (bit_width numerator)) numerator denominator 0 0).

Definition __udivdi3 (n d : Z) : option Z := fst <$> udivdi3 n d.
Definition __umoddi3 (n d : Z) : option Z := snd <$> udivdi3 n d.

Definition abs64 (x : Z) : Z := u64 (if x <? 0 then x * -1 else x).
Definition negate64 (x : Z) : Z := s64 (s64 (Z.lxor x (u64 (-1))) + 1).

Definition __divdi3 (n d : Z) : option Z :=
  '(quot, _) ← udivdi3 (abs64 n) (abs64 d);
  Some (if Z.lxor n d <? 0 then negate64 quot else s64 quot).

Definition __moddi3 (n d : Z) : option Z :=
  '(_, rem) ← udivdi3 (abs64 n) (abs64 d);
  Some (if n <? 0 then negate64 rem else s64 rem).

(** ** Correctness *)

(** After the bits above [i], the remainder is that of the number they make. *)
Lemma div_loop_ok d n : 0 < d < 2 ^ 64 -> is_u 64 n -> forall i q r,
  (i <= 64)%nat -> n / 2 ^ Z.of_nat i = q * d + r -> 0 <= q -> 0 <= r < d -> q * 2 ^ Z.of_nat i < 2 ^ 64 ->
  div_loop i n d (q * 2 ^ Z.of_nat i) r = (n / d, n mod d).
Proof using.
  intros Hd Hn. unfold is_u in Hn. induction i as [| i IH]; intros q r Hi E Hq Hr Bq.
  - change (2 ^ Z.of_nat 0) with 1 in *. rewrite Z.div_1_r in E. rewrite Z.mul_1_r. simpl.
    rewrite (Z.div_unique n d q r), (Z.mod_unique n d q r) by lia. reflexivity.
  - set (p := 2 ^ Z.of_nat i) in *. assert (Pp : 0 < p) by (apply Z.pow_pos_nonneg; lia).
    assert (P2 : 2 ^ Z.of_nat (S i) = 2 * p) by (rewrite Nat2Z.inj_succ, Z.pow_succ_r by lia; reflexivity).
    rewrite P2 in *. set (b := (n / p) mod 2). assert (Hb : 0 <= b < 2) by (apply Z.mod_pos_bound; lia).
    assert (Ep : n / p = 2 * (n / (2 * p)) + b) by (rewrite (Z.mul_comm 2 p), <- Z.div_div by lia; apply Z.div_mod; lia).
    assert (R64 : 2 * r + b < 2 ^ 64).
    { assert (n / (2 * p) < 2 ^ 64 / 2) by (apply Z.div_lt_upper_bound; [lia |]; change (2 ^ 64 / 2) with (2 ^ 63); nia).
      change (2 ^ 64 / 2) with (2 ^ 63) in *. nia. }
    assert (Lb : Z.land (Z.shiftr n (Z.of_nat i)) 1 = b).
    { unfold b, p. rewrite <- Z.shiftr_div_pow2 by lia. exact (Z.land_ones (Z.shiftr n (Z.of_nat i)) 1 ltac:(lia)). }
    assert (Er : Z.lor (u64 (Z.shiftl r 1)) b = 2 * r + b).
    { rewrite wrapu_small by (unfold is_u; rewrite Z.shiftl_mul_pow2 by lia; lia). rewrite Z.lor_comm, lor_fields by lia. lia. }
    pose proof (Z.mul_div_le n p Pp) as Np.
    cbn [div_loop]. rewrite Lb, Er. destruct (Z.leb_spec d (2 * r + b)) as [G | L].
    + assert (Bn : (2 * q + 1) * p < 2 ^ 64) by nia.
      assert (Eq : Z.lor (q * (2 * p)) (u64 (Z.shiftl 1 (Z.of_nat i))) = (2 * q + 1) * p).
      { rewrite wrapu_small.
        - rewrite Z.shiftl_1_l, Z.lor_comm. fold p. replace (q * (2 * p)) with (Z.shiftl q (Z.of_nat i + 1))
            by (rewrite Z.shiftl_mul_pow2, Z.pow_add_r by lia; fold p; lia).
          rewrite lor_fields; [rewrite Z.pow_add_r by lia; fold p; lia | lia |]. rewrite Z.pow_add_r by lia. fold p. lia.
        - unfold is_u. rewrite Z.shiftl_1_l. split; [apply Z.pow_nonneg; lia | apply Z.pow_lt_mono_r; lia]. }
      rewrite Eq. apply IH; lia.
    + replace (q * (2 * p)) with (2 * q * p) by lia. apply IH; lia.
Qed.

Lemma udivdi3_ok n d : is_u 64 n -> 0 < d < 2 ^ 64 -> udivdi3 n d = Some (n / d, n mod d).
Proof using.
  intros Hn Hd. unfold udivdi3. destruct (Z.eqb_spec d 0); [lia |]. f_equal.
  destruct (bit_width_ok n Hn) as [Hw Lw].
  apply (div_loop_ok d n Hd Hn _ 0 0); rewrite ?Z2Nat.id by lia; try lia. apply Z.div_small. unfold is_u in Hn. lia.
Qed.

Lemma lxor_ones x : is_u 64 x -> Z.lxor x (u64 (-1)) = 2 ^ 64 - 1 - x.
Proof using.
  intros H. change (u64 (-1)) with (Z.ones 64). unfold is_u in H.
  assert (E : Z.lxor x (Z.ones 64) = Z.ldiff (Z.ones 64) x).
  { apply Z.bits_inj'. intros i Hi. rewrite Z.lxor_spec, Z.ldiff_spec. destruct (Z.lt_ge_cases i 64).
    - rewrite Z.ones_spec_low by lia. destruct (Z.testbit x i); reflexivity.
    - rewrite Z.ones_spec_high by lia. rewrite <- (Z.mod_small x (2 ^ 64) H), Z.mod_pow2_bits_high by lia. reflexivity. }
  rewrite E. rewrite <- Z.sub_nocarry_ldiff.
  - rewrite Z.ones_equiv. lia.
  - apply Z.bits_inj'. intros i Hi. rewrite Z.ldiff_spec, Z.bits_0. destruct (Z.lt_ge_cases i 64).
    + rewrite Z.ones_spec_low by lia. apply andb_false_r.
    + rewrite <- (Z.mod_small x (2 ^ 64) H), Z.mod_pow2_bits_high by lia. reflexivity.
Qed.

Lemma negate_ok x : is_u 64 x -> negate64 x = s64 (- x).
Proof using.
  intros H. unfold negate64. rewrite lxor_ones by exact H. unfold is_u in H. unfold wraps. f_equal.
  replace ((2 ^ 64 - 1 - x + 2 ^ (64 - 1)) mod 2 ^ 64 - 2 ^ (64 - 1) + 1 + 2 ^ (64 - 1)) with ((2 ^ 64 - 1 - x + 2 ^ (64 - 1)) mod 2 ^ 64 + 1) by lia.
  rewrite Zplus_mod_idemp_l. replace (2 ^ 64 - 1 - x + 2 ^ (64 - 1) + 1) with (- x + 2 ^ (64 - 1) + 1 * 2 ^ 64) by lia. apply Z.mod_add. lia.
Qed.

Lemma abs_ok x : is_s 64 x -> abs64 x = Z.abs x /\ is_u 64 (Z.abs x).
Proof using.
  unfold is_s, smin, smax, abs64, is_u. change (64 - 1) with 63. intros H. split; [| lia].
  destruct (Z.ltb_spec x 0); rewrite wrapu_small by (unfold is_u; lia); lia.
Qed.

(** The four functions are the divisions of C: towards zero, the remainder with
    the sign of the numerator; the quotient of the smallest number by -1 wraps. *)
Theorem division_correct n d : is_s 64 n -> is_s 64 d -> d <> 0 ->
  __divdi3 n d = Some (s64 (Z.quot n d)) /\ __moddi3 n d = Some (Z.rem n d) /\
  forall m k, is_u 64 m -> 0 < k < 2 ^ 64 -> __udivdi3 m k = Some (m / k) /\ __umoddi3 m k = Some (m mod k).
Proof using.
  intros Hn Hd Nd. destruct (abs_ok n Hn) as [An Un], (abs_ok d Hd) as [Ad Ud].
  assert (Dp : 0 < Z.abs d < 2 ^ 64) by (unfold is_u in Ud; lia).
  unfold __divdi3, __moddi3. rewrite An, Ad, udivdi3_ok by assumption. cbn [mbind option_bind].
  pose proof (Z.div_pos (Z.abs n) (Z.abs d) ltac:(lia) ltac:(lia)) as Q0.
  assert (Ql : Z.abs n / Z.abs d <= Z.abs n) by (apply Z.div_le_upper_bound; nia).
  pose proof (Z.mod_pos_bound (Z.abs n) (Z.abs d) ltac:(lia)) as Rb.
  assert (Uq : is_u 64 (Z.abs n / Z.abs d)) by (unfold is_u in *; lia).
  assert (Ur : is_u 64 (Z.abs n mod Z.abs d)) by (unfold is_u in *; lia).
  rewrite !negate_ok by assumption. rewrite Z.quot_div, Z.rem_mod by assumption.
  pose proof (Z.lxor_nonneg n d) as X. unfold is_s, smin, smax in *. change (64 - 1) with 63 in *.
  set (q := Z.abs n / Z.abs d) in *. set (r := Z.abs n mod Z.abs d) in *.
  split; [| split].
  - f_equal. destruct (Z.eq_dec n 0) as [-> | Nn].
    { unfold q. change (Z.abs 0) with 0. rewrite Z.div_0_l by lia. destruct (_ <? _); reflexivity. }
    destruct (Z.ltb_spec (Z.lxor n d) 0); f_equal; lia.
  - f_equal. assert (r <= Z.abs n) by (apply Z.mod_le; lia).
    destruct (Z.ltb_spec n 0); rewrite wraps_small; unfold is_s, smin, smax; change (64 - 1) with 63; try lia.
  - intros m k Hm Hk. unfold __udivdi3, __umoddi3. rewrite udivdi3_ok by assumption. split; reflexivity.
Qed.

(** A zero denominator is a fault in all four. *)
Lemma division_by_zero n : __udivdi3 n 0 = None /\ __umoddi3 n 0 = None /\ __divdi3 n 0 = None /\ __moddi3 n 0 = None.
Proof using. repeat split. Qed.
End Division.

(** An implementation of the interface: the logarithm. *)
#[export] Instance log2_bit_width : BitWidth.
Proof.
  refine {| bit_width x := if x =? 0 then 0 else Z.log2 x + 1 |}.
  intros x H. unfold is_u in H. destruct (Z.eqb_spec x 0) as [-> | N]; [lia |].
  pose proof (Z.log2_spec x ltac:(lia)). pose proof (Z.log2_nonneg x).
  assert (Z.log2 x < 64) by (apply Z.log2_lt_pow2; lia). replace (Z.succ (Z.log2 x)) with (Z.log2 x + 1) in * by lia. lia.
Defined.

(** -7 / 2 is -3 with remainder -1. *)
Example division_example : __divdi3 (-7) 2 = Some (-3) /\ __moddi3 (-7) 2 = Some (-1) /\
  __udivdi3 (2 ^ 64 - 1) 10 = Some 1844674407370955161.
Proof. repeat split; vm_compute; reflexivity. Qed.
