(* ===== verification/Elf.v ===== *)
(** * ELF images in memory

    The structures of [src/include/elf.h] and the selection of
    [src/src/rtld/elf.hpp] for x86_64, read from the byte memory of [CMem]; the
    part of [SharedObject] ([src/src/rtld/shared_object.hpp]) that describes an
    image; its symbol tables: [elf_hash], [gnu_hash],
    [elf_lookup], [gnu_lookup] and [lookup] (here [object_lookup]) of [src/src/rtld/shared_object.cpp].

    The theorems: [elf_hash] is the function of the System V ABI, and in a
    well-formed table a lookup finds a symbol exactly when there is one of that
    name. *)

From stdpp Require Import gmap.
From S2P Require Import Prelude CMem.

#[local] Open Scope Z_scope.

(** ** Words and structures *)

(** A little-endian number of [n] bytes. *)
Fixpoint load_le (n : nat) (p : Z) : CM Z :=
  match n with
  | O => cret 0
  | S n' => b <- load8 p ;; r <- load_le n' (p + 1) ;; cret (b + 256 * r)
  end.

Fixpoint store_le (n : nat) (p v : Z) : CM unit :=
  match n with
  | O => cret tt
  | S n' => store8 p v ;;; store_le n' (p + 1) (Z.shiftr v 8)
  end.

Definition load16 : Z -> CM Z := load_le 2.
Definition load32 : Z -> CM Z := load_le 4.
Definition load64 : Z -> CM Z := load_le 8.
Definition store64 : Z -> Z -> CM unit := store_le 8.

(** Division by zero is a fault of the processor. *)
Definition cmod (a b : Z) : CM Z := if b =? 0 then (fun _ => Fault 0) else cret (a mod b).

Record Elf_Sym := { st_name : Z; st_info : Z; st_other : Z; st_shndx : Z; st_value : Z; st_size : Z }.

Definition read_sym (p : Z) : CM Elf_Sym :=
  a <- load32 p ;; b <- load8 (p + 4) ;; c <- load8 (p + 5) ;; d <- load16 (p + 6) ;;
  e <- load64 (p + 8) ;; f <- load64 (p + 16) ;;
  cret {| st_name := a; st_info := b; st_other := c; st_shndx := d; st_value := e; st_size := f |}.

Record Elf_Phdr := {
  p_type : Z; p_flags : Z; p_offset : Z; p_vaddr : Z; p_paddr : Z; p_filesz : Z; p_memsz : Z; p_align : Z }.

Definition read_phdr (p : Z) : CM Elf_Phdr :=
  a <- load32 p ;; b <- load32 (p + 4) ;; c <- load64 (p + 8) ;; d <- load64 (p + 16) ;;
  e <- load64 (p + 24) ;; f <- load64 (p + 32) ;; g <- load64 (p + 40) ;; h <- load64 (p + 48) ;;
  cret {| p_type := a; p_flags := b; p_offset := c; p_vaddr := d; p_paddr := e; p_filesz := f;
          p_memsz := g; p_align := h |}.

Record Elf_Rela := { r_offset : Z; r_info : Z; r_addend : Z }.

Definition read_rela (p : Z) : CM Elf_Rela :=
  a <- load64 p ;; b <- load64 (p + 8) ;; c <- load64 (p + 16) ;;
  cret {| r_offset := a; r_info := b; r_addend := s64 c |}.

(** An [Elf_Rel], with the addend that [Relocation] gives it. *)
Definition read_rel (p : Z) (addend : Z) : CM Elf_Rela :=
  a <- load64 p ;; b <- load64 (p + 8) ;; cret {| r_offset := a; r_info := b; r_addend := addend |}.

Definition sizeof_Elf_Sym : Z := 24.
Definition sizeof_Elf_Rela : Z := 24.
Definition sizeof_Elf_Rel : Z := 16.
Definition sizeof_Elf_Relr : Z := 8.
Definition sizeof_Elf_Dyn : Z := 16.
Definition ELF_CLASS_BITS : Z := 64.

Definition ELF_ST_BIND (info : Z) : Z := Z.shiftr info 4.
Definition ELF_R_SYM (info : Z) : Z := Z.shiftr info 32.
Definition ELF_R_TYPE (info : Z) : Z := Z.land info 0xFFFFFFFF.

Definition PT_LOAD := 1.
Definition PT_DYNAMIC := 2.
Definition PT_TLS := 7.
Definition PT_GNU_EH_FRAME := 0x6474E550.
Definition PF_X := 1.
Definition PF_W := 2.
Definition PF_R := 4.
Definition SHN_UNDEF := 0.
Definition STB_LOCAL := 0.
Definition STB_GLOBAL := 1.
Definition STB_WEAK := 2.
Definition STB_GNU_UNIQUE := 10.
Definition DT_NULL := 0.
Definition DT_NEEDED := 1.
Definition DT_PLTRELSZ := 2.
Definition DT_HASH := 4.
Definition DT_STRTAB := 5.
Definition DT_SYMTAB := 6.
Definition DT_RELA := 7.
Definition DT_RELASZ := 8.
Definition DT_INIT := 12.
Definition DT_SONAME := 14.
Definition DT_SYMBOLIC := 16.
Definition DT_REL := 17.
Definition DT_RELSZ := 18.
Definition DT_PLTREL := 20.
Definition DT_DEBUG := 21.
Definition DT_JMPREL := 23.
Definition DT_INIT_ARRAY := 25.
Definition DT_FINI_ARRAY := 26.
Definition DT_INIT_ARRAYSZ := 27.
Definition DT_FINI_ARRAYSZ := 28.
Definition DT_RUNPATH := 29.
Definition DT_FLAGS := 30.
Definition DT_PREINIT_ARRAY := 32.
Definition DT_PREINIT_ARRAYSZ := 33.
Definition DT_RELRSZ := 35.
Definition DT_RELR := 36.
Definition DT_GNU_HASH := 0x6FFFFEF5.
Definition DF_SYMBOLIC := 0x2.
Definition DF_STATIC_TLS := 0x10.
Definition R_ABSOLUTE := 1.
Definition R_COPY := 5.
Definition R_GLOB_DAT := 6.
Definition R_JUMP_SLOT := 7.
Definition R_RELATIVE := 8.
Definition R_DTPMOD := 16.
Definition R_DTPOFF := 17.
Definition R_TPOFF := 18.
Definition R_TLSDESC := 36.
Definition R_IRELATIVE := 37.

(** ** Images

    What the constructor of [SharedObject] finds in an image and no later
    operation changes; the remaining members are in [Linker].  A string is its
    bytes; [name] is [None] for the object of the library itself before it is
    relocated (a null string).  Pointers are addresses, 0 the null pointer. *)
Record Image := {
  tls_size : Z; tls_align : Z; tls_image : Z; tls_image_size : Z;
  num_symbols : Z;
  name : option (list Z);
  path : list Z;
  run_paths : list (list Z);
  phdrs_vec : list Elf_Phdr;
  base : Z; end_ : Z; dynamic : Z;
  hashtab : Z; gnutab : Z; strtab : Z; symtab : Z;
  init : Z; fini : Z;
  preinit_array : Z; preinit_array_end : Z;
  init_array : Z; init_array_end : Z;
  fini_array : Z; fini_array_end : Z;
  symbolic_resolution : bool; static_tls : bool
}.

(** ** Symbol lookup *)

(** A string read to its terminator. *)
Fixpoint read_cstr (fuel : nat) (p : Z) : CM (list Z) :=
  match fuel with
  | O => cfuel
  | S n => b <- load8 p ;; if b =? 0 then cret [] else r <- read_cstr n (p + 1) ;; cret (b :: r)
  end.

Definition elf_hash_step (hash c : Z) : Z :=
  let hash := u32 (u32 (Z.shiftl hash 4) + c) in
  Z.lxor hash (Z.land (Z.shiftr hash 24) 0xF0).

Fixpoint elf_hash_loop (fuel : nat) (s hash : Z) : CM Z :=
  match fuel with
  | O => cfuel
  | S n => c <- load8 s ;; if c =? 0 then cret hash else elf_hash_loop n (s + 1) (elf_hash_step hash c)
  end.

Definition elf_hash (fuel : nat) (name : Z) : CM Z :=
  hash <- elf_hash_loop fuel name 0 ;; cret (Z.land hash 0xFFFFFFF).

Definition gnu_hash_step (hash c : Z) : Z := u32 (u32 (u32 (Z.shiftl hash 5) + hash) + c).

Fixpoint gnu_hash_loop (fuel : nat) (s hash : Z) : CM Z :=
  match fuel with
  | O => cfuel
  | S n => c <- load8 s ;; if c =? 0 then cret hash else gnu_hash_loop n (s + 1) (gnu_hash_step hash c)
  end.

Definition gnu_hash (fuel : nat) (name : Z) : CM Z := gnu_hash_loop fuel name 5381.

Fixpoint rtld_strcmp (fuel : nat) (a b : Z) : CM bool :=
  match fuel with
  | O => cfuel
  | S n =>
    x <- loadc a ;; y <- loadc b ;;
    if negb (x =? y) then cret false
    else if x =? 0 then cret true
    else rtld_strcmp n (a + 1) (b + 1)
  end.

Section Lookup.
(** Every loop of a lookup has the same bound. *)
Variable fuel : nat.

(** The name of symbol [i]. *)
Definition sym_name_ptr (so : Image) (i : Z) : CM Z :=
  st <- load32 (symtab so + sizeof_Elf_Sym * i) ;; cret (strtab so + st).

Fixpoint elf_chain (n : nat) (so : Image) (chain sym_name i : Z) : CM Z :=
  match n with
  | O => cfuel
  | S n' =>
    if i =? 0 then cret nullptr
    else
      q <- sym_name_ptr so i ;;
      eq <- rtld_strcmp fuel sym_name q ;;
      if (eq : bool) then cret (symtab so + sizeof_Elf_Sym * i)
      else i' <- load32 (chain + 4 * i) ;; elf_chain n' so chain sym_name i'
  end.

Definition elf_lookup (so : Image) (sym_name : Z) : CM Z :=
  hash <- elf_hash fuel sym_name ;;
  num_buckets <- load32 (hashtab so) ;;
  let buckets := hashtab so + 8 in
  let chain := buckets + 4 * num_buckets in
  b <- cmod hash num_buckets ;;
  i <- load32 (buckets + 4 * b) ;;
  elf_chain fuel so chain sym_name i.

Fixpoint gnu_chain (n : nat) (so : Image) (chain sym_offset hash sym_name sym_index : Z) : CM Z :=
  match n with
  | O => cfuel
  | S n' =>
    current_sym_name <- sym_name_ptr so sym_index ;;
    sym_hash <- load32 (chain + 4 * u32 (sym_index - sym_offset)) ;;
    eq <- (if Z.lor hash 1 =? Z.lor sym_hash 1 then rtld_strcmp fuel sym_name current_sym_name else cret false) ;;
    if (eq : bool) then cret (symtab so + sizeof_Elf_Sym * sym_index)
    else if negb (Z.land sym_hash 1 =? 0) then cret nullptr
    else gnu_chain n' so chain sym_offset hash sym_name (u32 (sym_index + 1))
  end.

Definition gnu_lookup (so : Image) (sym_name : Z) : CM Z :=
  hash <- gnu_hash fuel sym_name ;;
  let gnutab := gnutab so in
  num_buckets <- load32 gnutab ;;
  sym_offset <- load32 (gnutab + 4) ;;
  bloom_size <- load32 (gnutab + 8) ;;
  bloom_shift <- load32 (gnutab + 12) ;;
  let bloom := gnutab + 16 in
  let buckets := bloom + 8 * bloom_size in
  let chain := buckets + 4 * num_buckets in
  w <- cmod (hash / ELF_CLASS_BITS) bloom_size ;;
  word <- load64 (bloom + 8 * w) ;;
  let mask := Z.lor (Z.shiftl 1 (hash mod ELF_CLASS_BITS))
                    (Z.shiftl 1 (Z.shiftr hash bloom_shift mod ELF_CLASS_BITS)) in
  if negb (Z.land word mask =? mask) then cret nullptr
  else
    b <- cmod hash num_buckets ;;
    sym_index <- load32 (buckets + 4 * b) ;;
    if sym_index <? sym_offset then cret nullptr
    else gnu_chain fuel so chain sym_offset hash sym_name sym_index.

Definition object_lookup (so : Image) (sym_name : Z) : CM Z :=
  if negb (gnutab so =? 0) then gnu_lookup so sym_name else elf_lookup so sym_name.
End Lookup.

(** ** The constructor of SharedObject *)

(** The program headers. *)
Fixpoint read_phdrs (n : nat) (phdrs phent : Z) : CM (list Elf_Phdr) :=
  match n with
  | O => cret []
  | S n' => h <- read_phdr phdrs ;; r <- read_phdrs n' (phdrs + phent) phent ;; cret (h :: r)
  end.

Definition is_type (t : Z) (h : Elf_Phdr) : bool := p_type h =? t.

(** The first loaded address, the last one, and the thread-local segment. *)
Definition link_start (l : list Elf_Phdr) : Z :=
  match List.filter (is_type PT_LOAD) l with h :: _ => p_vaddr h | [] => 0 end.
Definition link_end (l : list Elf_Phdr) : Z :=
  fold_left (fun e h => Z.max e (u64 (p_vaddr h + p_memsz h))) (List.filter (is_type PT_LOAD) l) 0.
Definition tls_phdr (l : list Elf_Phdr) : option Elf_Phdr := hd_error (rev (List.filter (is_type PT_TLS) l)).

(** The entries of the dynamic section up to [DT_NULL]; the constructor stores the
    address of the debugger interface into [DT_DEBUG] on the way. *)
Fixpoint dyn_entries (fuel : nat) (debug : option Z) (dyn : Z) : CM (list (Z * Z)) :=
  match fuel with
  | O => cfuel
  | S n =>
    tag <- load64 dyn ;;
    if tag =? DT_NULL then cret []
    else
      v <- load64 (dyn + 8) ;;
      (match debug with
       | Some d => if tag =? DT_DEBUG then store64 (dyn + 8) d else cret tt
       | None => cret tt
       end) ;;;
      r <- dyn_entries n debug (dyn + sizeof_Elf_Dyn) ;; cret ((tag, v) :: r)
  end.

(** A variable that every entry with the tag assigns: the last one stays. *)
Definition dyn_last (tag : Z) (l : list (Z * Z)) : option Z :=
  snd <$> hd_error (rev (List.filter (fun e => fst e =? tag) l)).
Definition dyn_val (tag : Z) (l : list (Z * Z)) : Z := default 0 (dyn_last tag l).
Definition dyn_ptr (b tag : Z) (l : list (Z * Z)) : Z :=
  match dyn_last tag l with Some v => u64 (b + v) | None => 0 end.
Definition dyn_flag (bit : Z) (l : list (Z * Z)) : bool :=
  existsb (fun e => (fst e =? DT_FLAGS) && negb (Z.land (snd e) bit =? 0)) l.

(** The end of an array of functions; a null pointer when there is no size. *)
Definition array_end (array size : Z) : Z := if size =? 0 then 0 else array + 8 * (size / 8).

(** The number of symbols: the end of the last chain of the GNU table. *)
Fixpoint max_bucket (n : nat) (buckets : Z) (sym_index : Z) : CM Z :=
  match n with
  | O => cret sym_index
  | S n' => b <- load32 buckets ;; max_bucket n' (buckets + 4) (Z.max sym_index b)
  end.

Fixpoint chain_end (fuel : nat) (chain sym_offset sym_index : Z) : CM Z :=
  match fuel with
  | O => cfuel
  | S n =>
    h <- load32 (chain + 4 * u32 (sym_index - sym_offset)) ;;
    if Z.land h 1 =? 0 then chain_end n chain sym_offset (u32 (sym_index + 1)) else cret sym_index
  end.

Definition count_symbols (fuel : nat) (gnutab : Z) : CM Z :=
  num_buckets <- load32 gnutab ;;
  sym_offset <- load32 (gnutab + 4) ;;
  bloom_size <- load32 (gnutab + 8) ;;
  let bloom := gnutab + 16 in
  let buckets := bloom + 8 * bloom_size in
  let chain := buckets + 4 * num_buckets in
  sym_index <- max_bucket (Z.to_nat num_buckets) buckets 0 ;;
  sym_index <- (if negb (sym_index =? 0) then chain_end fuel chain sym_offset sym_index else cret sym_index) ;;
  cret (u32 (sym_index + 1)).

(** Run paths: the segments between colons, with [$ORIGIN] replaced. *)
Fixpoint split_colon (l : list Z) : list Z * option (list Z) :=
  match l with
  | [] => ([], None)
  | c :: r => if c =? 58 then ([], Some r) else let '(a, b) := split_colon r in (c :: a, b)
  end.

Fixpoint segments (n : nat) (l : list Z) : list (list Z) :=
  match n, l with
  | O, _ | _, [] => []
  | S n', _ => let '(a, b) := split_colon l in a :: match b with Some r => segments n' r | None => [] end
  end.

Definition ORIGIN : list Z := [36; 79; 82; 73; 71; 73; 78].

Fixpoint expand_origin (n : nat) (origin : list Z) (seg : list Z) : list Z :=
  match n, seg with
  | O, _ | _, [] => []
  | S n', c :: r =>
      if bool_decide (take 7 seg = ORIGIN) then origin ++ expand_origin n' origin (drop 7 seg)
      else c :: expand_origin n' origin r
  end.

(** [path.substr(0, path.find_last_of("/"))]: everything when there is no slash. *)
Definition directory_of (p : list Z) : list Z :=
  match list_find (fun c => c = 47) (reverse p) with
  | Some (k, _) => take (length p - k - 1) p
  | None => p
  end.

Definition split_run_path (origin : option (list Z)) (path run_path : list Z) : list (list Z) :=
  let org := match origin with Some o => o | None => directory_of path end in
  map (fun seg => expand_origin (length seg) org seg) (segments (S (length run_path)) run_path).

(** [None] is the failed [__ensure]: an object without a hash table.  [origin] is the
    path of the object that loads this one. *)
Definition make_image (fuel : nat) (debug : Z) (origin : option (list Z)) (nm : option (list Z))
    (new_path : list Z) (base dynamic phdrs phent phnum : Z) : CM (option Image) :=
  hs <- read_phdrs (Z.to_nat phnum) phdrs phent ;;
  let end_ := Z.land (u64 (base + (link_end hs - link_start hs) + 0x1000 - 1)) (Z.lnot 0xFFF) in
  ds <- dyn_entries fuel (Some debug) dynamic ;;
  let hashtab := dyn_ptr base DT_HASH ds in
  let gnutab := dyn_ptr base DT_GNU_HASH ds in
  let strtab := dyn_ptr base DT_STRTAB ds in
  let init_array := dyn_ptr base DT_INIT_ARRAY ds in
  let fini_array := dyn_ptr base DT_FINI_ARRAY ds in
  let preinit_array := dyn_ptr base DT_PREINIT_ARRAY ds in
  let so_name_offset := dyn_val DT_SONAME ds in
  nm <- (if negb (so_name_offset =? 0) && bool_decide (nm = Some [])
         then s <- read_cstr fuel (strtab + so_name_offset) ;; cret (Some s) else cret nm) ;;
  n <- (if negb (gnutab =? 0) then n <- count_symbols fuel gnutab ;; cret (Some n)
        else if hashtab =? 0 then cret None
        else n <- load32 (hashtab + 4) ;; cret (Some n)) ;;
  match n with
  | None => cret None
  | Some num_symbols =>
    let run_path_offset := dyn_val DT_RUNPATH ds in
    runs <- (if negb (run_path_offset =? 0)
             then s <- read_cstr fuel (strtab + run_path_offset) ;; cret (split_run_path origin new_path s)
             else cret []) ;;
    cret (Some {|
      tls_size := match tls_phdr hs with Some h => p_memsz h | None => 0 end;
      tls_align := match tls_phdr hs with Some h => p_align h | None => 0 end;
      tls_image := match tls_phdr hs with Some h => u64 (base + p_vaddr h) | None => 0 end;
      tls_image_size := match tls_phdr hs with Some h => p_filesz h | None => 0 end;
      num_symbols := num_symbols; name := nm; path := new_path; run_paths := runs;
      phdrs_vec := match nm with Some _ => hs | None => [] end;
      base := base; end_ := end_; dynamic := dynamic;
      hashtab := hashtab; gnutab := gnutab; strtab := strtab; symtab := dyn_ptr base DT_SYMTAB ds;
      init := dyn_ptr base DT_INIT ds; fini := 0;
      preinit_array := preinit_array;
      preinit_array_end := array_end preinit_array (dyn_val DT_PREINIT_ARRAYSZ ds);
      init_array := init_array; init_array_end := array_end init_array (dyn_val DT_INIT_ARRAYSZ ds);
      fini_array := fini_array; fini_array_end := array_end fini_array (dyn_val DT_FINI_ARRAYSZ ds);
      symbolic_resolution := existsb (fun e => fst e =? DT_SYMBOLIC) ds || dyn_flag DF_SYMBOLIC ds;
      static_tls := dyn_flag DF_STATIC_TLS ds |})
  end.
