(* ===== verification/ElfFacts.v ===== *)
(** * Symbol tables of ELF images: correctness

    Theorems about the lookups of [Elf]. *)

From stdpp Require Import gmap.
From S2P Require Import Prelude CMem Elf.

#[local] Open Scope Z_scope.

(** The [n] bytes at [p] are the number [v]. *)
Definition holds (m : mem) (n : nat) (p v : Z) : Prop := load_le n p m = Ret v m.

(** ** Hash functions *)

(** The hash functions of the System V ABI and of the GNU table, as their
    documents give them. *)
Definition sysv_step (h c : Z) : Z :=
  let h := (16 * h + c) mod 2 ^ 32 in
  let g := Z.land h 0xF0000000 in
  Z.land (Z.lxor h (Z.shiftr g 24)) (Z.lnot g).

Definition elf_hash_of (s : list Z) : Z := fold_left sysv_step s 0.
Definition gnu_hash_of (s : list Z) : Z := fold_left (fun h c => (33 * h + c) mod 2 ^ 32) s 5381.

(** The code leaves the high bits in place and drops them at the end. *)
Lemma elf_hash_step_ok h c : Z.land (elf_hash_step h c) 0xFFFFFFF = sysv_step (Z.land h 0xFFFFFFF) c.
Proof.
  unfold elf_hash_step, sysv_step. change 0xFFFFFFF with (Z.ones 28). rewrite (Z.land_ones h) by lia.
  assert (E : u32 (u32 (Z.shiftl h 4) + c) = (16 * (h mod 2 ^ 28) + c) mod 2 ^ 32).
  { unfold wrapu. rewrite Zplus_mod_idemp_l, Z.shiftl_mul_pow2 by lia.
    rewrite (Z.div_mod h (2 ^ 28)) at 1 by lia.
    replace ((2 ^ 28 * (h / 2 ^ 28) + h mod 2 ^ 28) * 2 ^ 4 + c) with (16 * (h mod 2 ^ 28) + c + (h / 2 ^ 28) * 2 ^ 32) by ring.
    apply Z.mod_add. lia. }
  rewrite E. set (x := (16 * (h mod 2 ^ 28) + c) mod 2 ^ 32).
  assert (X : forall i, 32 <= i -> Z.testbit x i = false) by (intros i Hi; unfold x; apply Z.mod_pow2_bits_high; lia).
  rewrite Z.shiftr_land. change (Z.shiftr 0xF0000000 24) with 0xF0. change 0xF0000000 with (Z.shiftl (Z.ones 4) 28).
  apply Z.bits_inj'. intros i Hi.
  rewrite !Z.land_spec, !Z.lxor_spec, Z.lnot_spec, !Z.land_spec, Z.shiftr_spec, Z.shiftl_spec by lia.
  destruct (Z.lt_ge_cases i 28) as [L | G].
  - rewrite (Z.ones_spec_low 28), (Z.testbit_neg_r _ (i - 28)), andb_false_r by lia. reflexivity.
  - rewrite (Z.ones_spec_high 28), (X (i + 24)) by lia. rewrite andb_false_r, xorb_false_r.
    destruct (Z.lt_ge_cases i 32); [rewrite (Z.ones_spec_low 4) by lia | rewrite (X i) by lia; reflexivity].
    destruct (Z.testbit x i); reflexivity.
Qed.

Lemma elf_hash_fold s : forall h, Z.land (fold_left elf_hash_step s h) 0xFFFFFFF = fold_left sysv_step s (Z.land h 0xFFFFFFF).
Proof. induction s as [| c s IH]; intros h; simpl fold_left; [reflexivity |]. rewrite IH, elf_hash_step_ok. reflexivity. Qed.

Lemma gnu_hash_step_ok h c : gnu_hash_step h c = (33 * h + c) mod 2 ^ 32.
Proof.
  unfold gnu_hash_step, wrapu. rewrite Zplus_mod_idemp_l. rewrite <- Z.add_assoc, Zplus_mod_idemp_l, Z.shiftl_mul_pow2 by lia.
  f_equal. ring.
Qed.

Lemma elf_hash_loop_ok m s : forall fuel p h, cstr m p s -> (length s < fuel)%nat ->
  elf_hash_loop fuel p h m = Ret (fold_left elf_hash_step s h) m.
Proof.
  induction s as [| c s IH]; intros fuel p h H F; (destruct fuel as [| fuel]; [simpl in F; lia |]); cbn [elf_hash_loop].
  - apply cstr_nil in H. cm_step. reflexivity.
  - apply cstr_cons in H as (R & E & H). cm_step. destruct (Z.eqb_spec c 0); [lia |].
    apply IH; [exact H | simpl in F; lia].
Qed.

Lemma elf_hash_ok fuel m p s : cstr m p s -> (length s < fuel)%nat -> elf_hash fuel p m = Ret (elf_hash_of s) m.
Proof.
  intros H F. unfold elf_hash. rewrite (cbind_ret _ _ _ _ _ (elf_hash_loop_ok m s fuel p 0 H F)).
  unfold cret. f_equal. apply elf_hash_fold.
Qed.

Lemma gnu_hash_ok m s : forall fuel p h, cstr m p s -> (length s < fuel)%nat ->
  gnu_hash_loop fuel p h m = Ret (fold_left (fun h c => (33 * h + c) mod 2 ^ 32) s h) m.
Proof.
  induction s as [| c s IH]; intros fuel p h H F; (destruct fuel as [| fuel]; [simpl in F; lia |]); cbn [gnu_hash_loop].
  - apply cstr_nil in H. cm_step. reflexivity.
  - apply cstr_cons in H as (R & E & H). cm_step. destruct (Z.eqb_spec c 0); [lia |].
    rewrite gnu_hash_step_ok. apply IH; [exact H | simpl in F; lia].
Qed.

(** ** Names *)

Lemma rtld_strcmp_ok m : forall fuel p q s t, cstr m p s -> cstr m q t -> (length s < fuel)%nat ->
  rtld_strcmp fuel p q m = Ret (bool_decide (s = t)) m.
Proof.
  induction fuel as [| fuel IH]; intros p q s t Hs Ht F; [lia |]. cbn [rtld_strcmp].
  destruct s as [| c s], t as [| d t];
    (first [apply cstr_nil in Hs | apply cstr_cons in Hs]); (first [apply cstr_nil in Ht | apply cstr_cons in Ht]).
  - repeat cm_step. reflexivity.
  - destruct Ht as (R & E & Ht). repeat cm_step.
    destruct (Z.eqb_spec (s8 0) (s8 d)) as [X | _]; [exfalso; apply s8_inj in X; lia |]. reflexivity.
  - destruct Hs as (R & E & Hs). repeat cm_step.
    destruct (Z.eqb_spec (s8 c) (s8 0)) as [X | _]; [exfalso; apply s8_inj in X; lia |]. reflexivity.
  - destruct Hs as (R & E & Hs), Ht as (R' & E' & Ht). repeat cm_step.
    destruct (Z.eqb_spec (s8 c) (s8 d)) as [X | X]; cbn [negb].
    + apply s8_inj in X; [subst d | lia ..]. rewrite s8_zero by lia. destruct (Z.eqb_spec c 0); [lia |]. cbn [negb].
      rewrite (IH _ _ s t) by (assumption || simpl in F; lia). do 2 f_equal. apply bool_decide_ext. split; [intros ->; reflexivity | intros [=]; assumption].
    + rewrite bool_decide_eq_false_2; [reflexivity |]. intros [= -> _]. contradiction.
Qed.

Lemma holds_bind {B} m n p v (k : Z -> CM B) : holds m n p v -> cbind (load_le n p) k m = k v m.
Proof. intros H. apply cbind_ret. exact H. Qed.

(** Symbol [i] of [so] is called [s]. *)
Definition sym_named (m : mem) (so : Image) (i : Z) (s : list Z) : Prop :=
  exists st, holds m 4 (symtab so + sizeof_Elf_Sym * i) st /\ cstr m (strtab so + st) s.

Lemma sym_name_ok m so i s : sym_named m so i s -> exists p, cstr m p s /\ sym_name_ptr so i m = Ret p m.
Proof.
  intros (st & L & C). exists (strtab so + st). split; [exact C |].
  unfold sym_name_ptr, load32. rewrite (holds_bind m 4 _ st _ L). reflexivity.
Qed.

(** ** The GNU hash table

    The table lists the symbols from [sym_offset] on, sorted by bucket; [names]
    are their names.  A bucket holds the index of its first symbol, the chain the
    hashes with the lowest bit telling the last symbol of a bucket, and the Bloom
    filter two bits for every symbol. *)
Section GnuTable.
Variables (num_buckets : Z) (names : list (list Z)).

Definition bucket_of (s : list Z) : Z := gnu_hash_of s mod num_buckets.

Definition last_of_bucket (j : nat) (s : list Z) : Prop :=
  match names !! S j with Some s' => bucket_of s' <> bucket_of s | None => True end.

Record gnu_table (m : mem) (so : Image) (sym_offset bloom_size bloom_shift : Z) : Prop := {
  gt_buckets_pos : 0 < num_buckets;
  gt_offset : 0 < sym_offset /\ sym_offset + zlen names < 2 ^ 32;
  gt_bloom_size : 0 < bloom_size;
  gt_h0 : holds m 4 (gnutab so) num_buckets;
  gt_h1 : holds m 4 (gnutab so + 4) sym_offset;
  gt_h2 : holds m 4 (gnutab so + 8) bloom_size;
  gt_h3 : holds m 4 (gnutab so + 12) bloom_shift;
  gt_bloom : forall w, 0 <= w < bloom_size -> exists word, holds m 8 (gnutab so + 16 + 8 * w) word /\
    forall s, s ∈ names -> (gnu_hash_of s / 64) mod bloom_size = w ->
      Z.testbit word (gnu_hash_of s mod 64) = true /\
      Z.testbit word (Z.shiftr (gnu_hash_of s) bloom_shift mod 64) = true;
  gt_bucket : forall b, 0 <= b < num_buckets -> holds m 4 (gnutab so + 16 + 8 * bloom_size + 4 * b)
    (match list_find (fun s => bucket_of s = b) names with Some (j, _) => sym_offset + Z.of_nat j | None => 0 end);
  gt_sorted : forall i j s t, (i <= j)%nat -> names !! i = Some s -> names !! j = Some t -> bucket_of s <= bucket_of t;
  gt_name : forall j s, names !! j = Some s -> sym_named m so (sym_offset + Z.of_nat j) s;
  gt_chain : forall j s, names !! j = Some s -> exists c,
    holds m 4 (gnutab so + 16 + 8 * bloom_size + 4 * num_buckets + 4 * Z.of_nat j) c /\
    Z.lor c 1 = Z.lor (gnu_hash_of s) 1 /\ (Z.land c 1 <> 0 <-> last_of_bucket j s)
}.

Variables (m : mem) (so : Image) (sym_offset bloom_size bloom_shift : Z).
Variable s : list Z.

(** The address of the first symbol called [s] at or after position [j]. *)
Definition first_named (j : nat) : Z :=
  match list_find (fun t => s = t) (drop j names) with
  | Some (k, _) => symtab so + sizeof_Elf_Sym * (sym_offset + Z.of_nat (j + k))
  | None => nullptr
  end.

Lemma first_named_step j t : names !! j = Some t ->
  first_named j = if bool_decide (s = t) then symtab so + sizeof_Elf_Sym * (sym_offset + Z.of_nat j) else first_named (S j).
Proof using.
  intros E. unfold first_named. rewrite (drop_S names t j E). cbn [list_find].
  destruct (decide (s = t)) as [-> | N].
  - rewrite bool_decide_eq_true_2 by reflexivity. rewrite Nat.add_0_r. reflexivity.
  - rewrite bool_decide_eq_false_2 by exact N. destruct (list_find _ _) as [[k x] |]; [| reflexivity].
    cbn [fmap option_fmap option_map prod_map fst snd]. do 3 f_equal. lia.
Qed.

Lemma land_two_bits w a b : 0 <= a -> 0 <= b -> Z.testbit w a = true -> Z.testbit w b = true ->
  Z.land w (Z.lor (Z.shiftl 1 a) (Z.shiftl 1 b)) = Z.lor (Z.shiftl 1 a) (Z.shiftl 1 b).
Proof using.
  intros Ha Hb Ta Tb. apply Z.bits_inj'. intros i Hi. rewrite Z.land_spec, Z.lor_spec, !Z.shiftl_1_l, !Z.pow2_bits_eqb by assumption.
  destruct (Z.eqb_spec a i) as [<- |]; [rewrite Ta; reflexivity |].
  destruct (Z.eqb_spec b i) as [<- |]; [rewrite Tb; reflexivity |]. apply andb_false_r.
Qed.

Lemma first_named_none : s ∉ names -> first_named 0 = nullptr.
Proof using.
  intros N. unfold first_named. rewrite drop_0. destruct (list_find _ _) as [[k x] |] eqn:F; [| reflexivity].
  apply list_find_Some in F as (E & <- & _). contradict N. apply (list_elem_of_lookup_2 _ _ _ E).
Qed.

(** Symbols before the first one of the bucket are not called [s]. *)
Lemma first_named_skip j : (forall i t, (i < j)%nat -> names !! i = Some t -> s <> t) -> first_named 0 = first_named j.
Proof using.
  induction j as [| j IH]; intros H; [reflexivity |]. rewrite IH by (intros i t Hi; apply H; lia).
  destruct (names !! j) as [t |] eqn:E.
  - rewrite (first_named_step j t E), bool_decide_eq_false_2; [reflexivity | apply (H j); [lia | exact E]].
  - unfold first_named. apply lookup_ge_None in E. rewrite !drop_ge by lia. reflexivity.
Qed.

Hypothesis T : gnu_table m so sym_offset bloom_size bloom_shift.

(** Past the last symbol of its bucket there is no symbol of that name. *)
Lemma no_more j t : names !! j = Some t -> bucket_of t = bucket_of s -> last_of_bucket j t -> first_named (S j) = nullptr.
Proof using T.
  intros E B L. unfold first_named. destruct (list_find _ _) as [[k x] |] eqn:F; [| reflexivity]. exfalso.
  apply list_find_Some in F as (E' & <- & _). rewrite lookup_drop in E'. unfold last_of_bucket in L.
  destruct (names !! S j) as [t' |] eqn:E2.
  - apply L. pose proof (gt_sorted _ _ _ _ _ T j (S j) t t' ltac:(lia) E E2).
    pose proof (gt_sorted _ _ _ _ _ T (S j) (S j + k) t' s ltac:(lia) E2 E'). lia.
  - apply lookup_ge_None in E2. apply lookup_lt_Some in E'. lia.
Qed.

Variables (fuel : nat) (p : Z).
Hypothesis Hs : cstr m p s.
Hypothesis Fs : (length s < fuel)%nat.

Lemma gnu_chain_ok : forall n j t, (length names - j <= n)%nat -> names !! j = Some t -> bucket_of t = bucket_of s ->
  gnu_chain fuel n so (gnutab so + 16 + 8 * bloom_size + 4 * num_buckets) sym_offset (gnu_hash_of s) p
    (sym_offset + Z.of_nat j) m = Ret (first_named j) m.
Proof using T Hs Fs.
  destruct (gt_offset _ _ _ _ _ T) as [O1 O2]. unfold zlen in O2.
  induction n as [| n IH]; intros j t Hn E B; pose proof (lookup_lt_Some _ _ _ E) as Lj; [lia |]. cbn [gnu_chain].
  destruct (sym_name_ok m so _ t (gt_name _ _ _ _ _ T j t E)) as (q & Hq & Eq).
  rewrite (cbind_ret _ _ _ _ _ Eq). clear Eq.
  destruct (gt_chain _ _ _ _ _ T j t E) as (c & Hc & Ec & Lc).
  replace (u32 (sym_offset + Z.of_nat j - sym_offset)) with (Z.of_nat j) by (rewrite wrapu_small; unfold is_u; lia).
  unfold load32. rewrite (holds_bind m 4 _ c _ Hc). rewrite Ec. rewrite (first_named_step j t E).
  set (cmp := if Z.lor (gnu_hash_of s) 1 =? Z.lor (gnu_hash_of t) 1 then rtld_strcmp fuel p q else cret false).
  assert (Hcmp : cmp m = Ret (bool_decide (s = t)) m).
  { unfold cmp. destruct (Z.eqb_spec (Z.lor (gnu_hash_of s) 1) (Z.lor (gnu_hash_of t) 1)) as [_ | N].
    - apply rtld_strcmp_ok; assumption.
    - rewrite bool_decide_eq_false_2; [reflexivity | intros ->; contradiction]. }
  rewrite (cbind_ret cmp _ m _ m Hcmp). destruct (bool_decide (s = t)); [reflexivity |].
  destruct (Z.eqb_spec (Z.land c 1) 0) as [Z0 | N0]; cbn [negb].
  - assert (N : ~ last_of_bucket j t) by (intros L; apply Lc in L; contradiction).
    unfold last_of_bucket in N. destruct (names !! S j) as [t' |] eqn:E2; [| exfalso; apply N; exact I].
    replace (u32 (sym_offset + Z.of_nat j + 1)) with (sym_offset + Z.of_nat (S j)) by (rewrite wrapu_small; unfold is_u; lia).
    apply (IH (S j) t'); [lia | exact E2 |]. destruct (Z.eq_dec (bucket_of t') (bucket_of t)); [congruence | contradiction].
  - rewrite (no_more j t E B) by (apply Lc; exact N0). reflexivity.
Qed.

Lemma gnu_lookup_ok : (length names <= fuel)%nat -> gnu_lookup fuel so p m = Ret (first_named 0) m.
Proof using T Hs Fs.
  intros F. unfold gnu_lookup, gnu_hash. rewrite (cbind_ret _ _ _ _ _ (gnu_hash_ok m s fuel p 5381 Hs Fs)). fold (gnu_hash_of s). unfold load32.
  rewrite (holds_bind _ _ _ _ _ (gt_h0 _ _ _ _ _ T)), (holds_bind _ _ _ _ _ (gt_h1 _ _ _ _ _ T)),
    (holds_bind _ _ _ _ _ (gt_h2 _ _ _ _ _ T)), (holds_bind _ _ _ _ _ (gt_h3 _ _ _ _ _ T)).
  pose proof (gt_bloom_size _ _ _ _ _ T) as Pb. pose proof (gt_buckets_pos _ _ _ _ _ T) as Pn.
  unfold cmod at 1. destruct (Z.eqb_spec bloom_size 0) as [? | _]; [lia |]. unfold cbind at 1, cret at 1.
  change ELF_CLASS_BITS with 64. set (h := gnu_hash_of s).
  destruct (gt_bloom _ _ _ _ _ T ((h / 64) mod bloom_size)) as (word & Hw & Bw); [apply Z.mod_pos_bound; lia |].
  unfold load64. rewrite (holds_bind _ _ _ _ _ Hw).
  destruct (Z.eqb_spec (Z.land word (Z.lor (Z.shiftl 1 (h mod 64)) (Z.shiftl 1 (Z.shiftr h bloom_shift mod 64))))
    (Z.lor (Z.shiftl 1 (h mod 64)) (Z.shiftl 1 (Z.shiftr h bloom_shift mod 64)))) as [_ | N]; cbn [negb].
  2: { rewrite first_named_none; [reflexivity |]. intros I. apply N.
       destruct (Bw s I eq_refl). apply land_two_bits; try assumption; apply Z.mod_pos_bound; lia. }
  unfold cmod. destruct (Z.eqb_spec num_buckets 0) as [? | _]; [lia |]. unfold cbind at 1, cret at 1.
  rewrite (holds_bind _ _ _ _ _ (gt_bucket _ _ _ _ _ T (h mod num_buckets) ltac:(apply Z.mod_pos_bound; lia))).
  destruct (gt_offset _ _ _ _ _ T) as [O1 O2].
  destruct (list_find _ names) as [[j t] |] eqn:E.
  - apply list_find_Some in E as (E & B & L). destruct (Z.ltb_spec (sym_offset + Z.of_nat j) sym_offset); [lia |].
    unfold h. rewrite (gnu_chain_ok fuel j t) by (assumption || lia). rewrite (first_named_skip j); [reflexivity |].
    intros i u Hi Ei <-. exact (L i s Ei Hi eq_refl).
  - apply list_find_None in E. destruct (Z.ltb_spec 0 sym_offset); [| lia].
    rewrite first_named_none; [reflexivity |]. intros I. exact (proj1 (list.Forall_forall _ _) E s I eq_refl).
Qed.
End GnuTable.

(** ** The System V hash table

    A bucket and the chain are a list of symbol indices that ends with 0. *)
Fixpoint is_chain (m : mem) (chain i : Z) (l : list Z) : Prop :=
  match l with
  | [] => i = 0
  | j :: l' => i = j /\ j <> 0 /\ exists i', holds m 4 (chain + 4 * j) i' /\ is_chain m chain i' l'
  end.

(** [names] are the symbols from index 1 on; the chain of a bucket holds the
    indices of the symbols of that hash, and no others. *)
Record elf_table (num_buckets : Z) (names : list (list Z)) (m : mem) (so : Image) : Prop := {
  et_buckets_pos : 0 < num_buckets;
  et_h0 : holds m 4 (hashtab so) num_buckets;
  et_name : forall j s, names !! j = Some s -> sym_named m so (Z.of_nat j + 1) s;
  et_chain : forall b, 0 <= b < num_buckets -> exists i l, holds m 4 (hashtab so + 8 + 4 * b) i /\
    is_chain m (hashtab so + 8 + 4 * num_buckets) i l /\ (length l <= length names)%nat /\
    (forall k, k ∈ l -> exists j s, k = Z.of_nat j + 1 /\ names !! j = Some s) /\
    (forall j s, names !! j = Some s -> elf_hash_of s mod num_buckets = b -> (Z.of_nat j + 1) ∈ l)
}.

Section ElfTable.
Variables (num_buckets : Z) (names : list (list Z)) (m : mem) (so : Image) (s : list Z).
Hypothesis T : elf_table num_buckets names m so.
Variables (fuel : nat) (p : Z).
Hypothesis Hs : cstr m p s.
Hypothesis Fs : (length s < fuel)%nat.

(** A chain is searched from its front. *)
Lemma elf_chain_ok : forall l n i, (length l < n)%nat -> is_chain m (hashtab so + 8 + 4 * num_buckets) i l ->
  (forall k, k ∈ l -> exists j t, k = Z.of_nat j + 1 /\ names !! j = Some t) ->
  exists r, elf_chain fuel n so (hashtab so + 8 + 4 * num_buckets) p i m = Ret r m /\
    ((exists j, names !! j = Some s /\ r = symtab so + sizeof_Elf_Sym * (Z.of_nat j + 1)) \/
     (r = nullptr /\ forall j, names !! j = Some s -> (Z.of_nat j + 1) ∉ l)).
Proof using T Hs Fs.
  induction l as [| k l IH]; intros n i Hn C A; (destruct n as [| n]; [lia |]); cbn [elf_chain].
  - simpl in C. subst i. exists nullptr. split; [reflexivity |]. right. split; [reflexivity |]. intros. apply not_elem_of_nil.
  - destruct C as (-> & Nk & i' & Hi & C). destruct (Z.eqb_spec k 0); [contradiction |].
    destruct (A k ltac:(left)) as (j & t & -> & E).
    destruct (sym_name_ok m so _ t (et_name _ _ _ _ T j t E)) as (q & Hq & Eq).
    rewrite (cbind_ret _ _ _ _ _ Eq), (cbind_ret _ _ _ _ _ (rtld_strcmp_ok m fuel p q s t Hs Hq Fs)).
    destruct (decide (s = t)) as [<- | N].
    + rewrite bool_decide_eq_true_2 by reflexivity. eexists. split; [reflexivity |]. left. eauto.
    + rewrite bool_decide_eq_false_2 by exact N. unfold load32. rewrite (holds_bind _ _ _ _ _ Hi).
      destruct (IH n i') as (r & Er & D); [simpl in Hn; lia | exact C | intros k Hk; apply A; right; exact Hk |].
      exists r. split; [exact Er |]. destruct D as [D | (-> & D)]; [left; exact D | right; split; [reflexivity |]].
      intros j' E' X. apply elem_of_cons in X as [X | X]; [| exact (D j' E' X)].
      assert (j' = j) by lia. subst j'. congruence.
Qed.

Lemma elf_lookup_ok : (length names < fuel)%nat -> exists r, elf_lookup fuel so p m = Ret r m /\
  ((exists j, names !! j = Some s /\ r = symtab so + sizeof_Elf_Sym * (Z.of_nat j + 1)) \/ (r = nullptr /\ s ∉ names)).
Proof using T Hs Fs.
  intros F. unfold elf_lookup. rewrite (cbind_ret _ _ _ _ _ (elf_hash_ok fuel m p s Hs Fs)). unfold load32.
  rewrite (holds_bind _ _ _ _ _ (et_h0 _ _ _ _ T)). pose proof (et_buckets_pos _ _ _ _ T) as P.
  unfold cmod. destruct (Z.eqb_spec num_buckets 0); [lia |]. unfold cbind at 1, cret at 1.
  destruct (et_chain _ _ _ _ T (elf_hash_of s mod num_buckets)) as (i & l & Hi & C & L & A & X); [apply Z.mod_pos_bound; lia |].
  rewrite (holds_bind _ _ _ _ _ Hi). destruct (elf_chain_ok l fuel i ltac:(lia) C A) as (r & Er & D).
  exists r. split; [exact Er |]. destruct D as [D | (-> & D)]; [left; exact D | right; split; [reflexivity |]].
  intros I. apply list_elem_of_lookup in I as (j & E). exact (D j E (X j s E eq_refl)).
Qed.
End ElfTable.

(** ** Lookup in an object *)

(** The symbols from index [first] on are called [names], and the table that
    [lookup] uses is the one the format prescribes for them. *)
Definition symbol_table (m : mem) (so : Image) (first : Z) (names : list (list Z)) : Prop :=
  (gnutab so <> 0 /\ exists num_buckets bloom_size bloom_shift,
     gnu_table num_buckets names m so first bloom_size bloom_shift) \/
  (gnutab so = 0 /\ first = 1 /\ exists num_buckets, elf_table num_buckets names m so).

Lemma object_lookup_ok m so first names fuel p s :
  symbol_table m so first names -> cstr m p s -> (length s < fuel)%nat -> (length names < fuel)%nat ->
  (exists j, names !! j = Some s /\
     object_lookup fuel so p m = Ret (symtab so + sizeof_Elf_Sym * (first + Z.of_nat j)) m) \/
  (s ∉ names /\ object_lookup fuel so p m = Ret nullptr m).
Proof.
  intros [(G & nb & bs & sh & T) | (G & -> & nb & T)] Hs Fs Fn; unfold object_lookup.
  - destruct (Z.eqb_spec (gnutab so) 0); [contradiction |]. cbn [negb].
    rewrite (gnu_lookup_ok nb names m so first bs sh s T fuel p Hs Fs) by lia.
    unfold first_named. rewrite drop_0. destruct (list_find _ _) as [[j t] |] eqn:E.
    + apply list_find_Some in E as (E & <- & _). left. exists j. split; [exact E | reflexivity].
    + right. split; [| reflexivity]. apply list_find_None in E. intros I. exact (proj1 (list.Forall_forall _ _) E s I eq_refl).
  - destruct (Z.eqb_spec (gnutab so) 0); [| contradiction]. cbn [negb].
    destruct (elf_lookup_ok nb names m so s T fuel p Hs Fs Fn) as (r & E & [(j & Ej & ->) | (-> & N)]).
    + left. exists j. split; [exact Ej |]. rewrite E. do 2 f_equal. lia.
    + right. split; [exact N | exact E].
Qed.

(** C11: a lookup in a shared object with a well-formed GNU or System V hash table
    returns the address of a symbol of that name exactly when the object has one,
    the null pointer otherwise, and reads only the tables and the names. *)
Theorem object_lookup_correct m so first names fuel p s :
  symbol_table m so first names -> cstr m p s -> (length s < fuel)%nat -> (length names < fuel)%nat ->
  (exists j, names !! j = Some s /\
     object_lookup fuel so p m = Ret (symtab so + sizeof_Elf_Sym * (first + Z.of_nat j)) m) \/
  (s ∉ names /\ object_lookup fuel so p m = Ret nullptr m).
Proof. apply object_lookup_ok. Qed.

(** An object with the two symbols "ab" and "cd" in a GNU table. *)
Definition small_object (hash gnu : Z) : Image :=
  {| tls_size := 0; tls_align := 0; tls_image := 0; tls_image_size := 0; num_symbols := 3; name := Some [];
     path := []; run_paths := []; phdrs_vec := []; base := 0; end_ := 0; dynamic := 0; hashtab := hash; gnutab := gnu;
     strtab := 0x3000; symtab := 0x2000; init := 0; fini := 0; preinit_array := 0; preinit_array_end := 0;
     init_array := 0; init_array_end := 0; fini_array := 0; fini_array_end := 0;
     symbolic_resolution := false; static_tls := false |}.

Definition le_bytes (n : nat) (v : Z) : list Z := map (fun i => u8 (Z.shiftr v (8 * Z.of_nat i))) (seq 0 n).

Definition small_names : list (list Z) := [[97; 98]; [99; 100]].

Definition small_mem : mem :=
  mem_of 0x1000 (concat (map (le_bytes 4) [1; 1; 1; 5]) ++ le_bytes 8 (2 ^ 64 - 1) ++ le_bytes 4 1 ++
                 le_bytes 4 (Z.ldiff (gnu_hash_of [97; 98]) 1) ++ le_bytes 4 (Z.lor (gnu_hash_of [99; 100]) 1)) ∪
  mem_of 0x2000 (concat (map (fun n => le_bytes 24 n) [0; 1; 4])) ∪
  mem_of 0x3000 [0; 97; 98; 0; 99; 100; 0].

Lemma small_cstr p s : (p, s) ∈ [(0x3001, [97; 98]); (0x3004, [99; 100])] -> cstr small_mem p s.
Proof.
  rewrite !elem_of_cons, elem_of_nil. intros [[= -> ->] | [[= -> ->] | []]];
    (split; [repeat constructor; lia |]; repeat split; vm_compute; reflexivity).
Qed.

Lemma small_named j s : small_names !! j = Some s -> sym_named small_mem (small_object 0 0x1000) (1 + Z.of_nat j) s.
Proof.
  destruct j as [| [| j]]; [intros [= <-]; exists 1 | intros [= <-]; exists 4 | discriminate];
    (split; [vm_compute; reflexivity | apply small_cstr; rewrite !elem_of_cons; auto]).
Qed.

Lemma small_table : gnu_table 1 small_names small_mem (small_object 0 0x1000) 1 1 5.
Proof.
  constructor; [lia | unfold zlen; simpl; lia | lia | vm_compute; reflexivity .. | | | | |].
  - intros w Hw. assert (w = 0) by lia. subst w. exists (2 ^ 64 - 1). split; [vm_compute; reflexivity |].
    intros s I _. unfold small_names in I. rewrite !elem_of_cons, elem_of_nil in I. destruct I as [-> | [-> | []]]; split; vm_compute; reflexivity.
  - intros b Hb. assert (b = 0) by lia. subst b. vm_compute. reflexivity.
  - intros i j s t _ _ _. unfold bucket_of. rewrite !Z.mod_1_r. lia.
  - exact small_named.
  - intros [| [| j]] s; [intros [= <-]; exists (Z.ldiff (gnu_hash_of [97; 98]) 1) | intros [= <-]; exists (Z.lor (gnu_hash_of [99; 100]) 1) | discriminate];
      (split; [vm_compute; reflexivity |]; split; [vm_compute; reflexivity |]; unfold last_of_bucket; simpl; vm_compute).
    + split; [intros []; reflexivity | intros N; contradict N; reflexivity].
    + split; [intros _; exact I | discriminate].
Qed.

(** "cd" is found, at index 2. *)
Lemma object_lookup_correct_witness :
  (exists j, small_names !! j = Some [99; 100] /\
     object_lookup 5 (small_object 0 0x1000) 0x3004 small_mem = Ret (0x2000 + 24 * (1 + Z.of_nat j)) small_mem) \/
  ([99; 100] ∉ small_names /\ object_lookup 5 (small_object 0 0x1000) 0x3004 small_mem = Ret nullptr small_mem).
Proof.
  apply (object_lookup_correct small_mem (small_object 0 0x1000) 1 small_names 5 0x3004 [99; 100]).
  - left. split; [discriminate |]. exists 1, 1, 5. exact small_table.
  - apply small_cstr. rewrite !elem_of_cons; auto.
  - simpl; lia.
  - simpl; lia.
Defined.
