(* ===== verification/Linker.v ===== *)
(** * The dynamic linker

    [src/src/rtld/shared_object.cpp] (relocation, initialisation),
    [src/src/rtld/object_storage.cpp] (loading, dependencies, symbol resolution, thread-local
    storage) and the debugger list of [src/src/rtld/main.cpp], over the images of [Elf].

    The state holds the memory, the objects alive by their address (using an
    object that was destroyed is a fault), the members of [ObjectStorage], the
    thread's vector of thread-local blocks and the debugger's list.  The kernel, the
    allocator and the code of the loaded images are a parameter.  Vectors are
    lists, maps finite maps; the locks are left out, every operation runs alone.
    [calls] is the trace of the functions of loaded images that the linker has called,
    in order, and of the registration of the handler that runs at exit. *)

From stdpp Require Import gmap.
From S2P Require Import Prelude CMem Elf.

#[local] Open Scope Z_scope.

(** ** State *)

Record SharedObject := Object {
  image : Image; local_scope : list Z; dependencies : list Z; tls_descs : list Z; tls_offset : Z;
  tls_module_index : Z; link_prev : Z; link_next : Z; initial_tls_model : bool; tls_initialized : bool;
  rtld_loaded : bool; initialized : bool; destructed : bool; executable : bool
}.
Coercion image : SharedObject >-> Image.

Definition with_local_scope (v : list Z) (so : SharedObject) : SharedObject :=
  Object (image so) v (dependencies so) (tls_descs so) (tls_offset so) (tls_module_index so) (link_prev so)
     (link_next so) (initial_tls_model so) (tls_initialized so) (rtld_loaded so) (initialized so)
     (destructed so) (executable so).
Definition with_dependencies (v : list Z) (so : SharedObject) : SharedObject :=
  Object (image so) (local_scope so) v (tls_descs so) (tls_offset so) (tls_module_index so) (link_prev so)
     (link_next so) (initial_tls_model so) (tls_initialized so) (rtld_loaded so) (initialized so)
     (destructed so) (executable so).
Definition with_tls_descs (v : list Z) (so : SharedObject) : SharedObject :=
  Object (image so) (local_scope so) (dependencies so) v (tls_offset so) (tls_module_index so) (link_prev so)
     (link_next so) (initial_tls_model so) (tls_initialized so) (rtld_loaded so) (initialized so)
     (destructed so) (executable so).
Definition with_tls_offset (v : Z) (so : SharedObject) : SharedObject :=
  Object (image so) (local_scope so) (dependencies so) (tls_descs so) v (tls_module_index so) (link_prev so)
     (link_next so) (initial_tls_model so) (tls_initialized so) (rtld_loaded so) (initialized so)
     (destructed so) (executable so).
Definition with_tls_module_index (v : Z) (so : SharedObject) : SharedObject :=
  Object (image so) (local_scope so) (dependencies so) (tls_descs so) (tls_offset so) v (link_prev so)
     (link_next so) (initial_tls_model so) (tls_initialized so) (rtld_loaded so) (initialized so)
     (destructed so) (executable so).
Definition with_link_prev (v : Z) (so : SharedObject) : SharedObject :=
  Object (image so) (local_scope so) (dependencies so) (tls_descs so) (tls_offset so) (tls_module_index so) v
     (link_next so) (initial_tls_model so) (tls_initialized so) (rtld_loaded so) (initialized so)
     (destructed so) (executable so).
Definition with_link_next (v : Z) (so : SharedObject) : SharedObject :=
  Object (image so) (local_scope so) (dependencies so) (tls_descs so) (tls_offset so) (tls_module_index so)
     (link_prev so) v (initial_tls_model so) (tls_initialized so) (rtld_loaded so) (initialized so)
     (destructed so) (executable so).
Definition with_initial_tls_model (v : bool) (so : SharedObject) : SharedObject :=
  Object (image so) (local_scope so) (dependencies so) (tls_descs so) (tls_offset so) (tls_module_index so)
     (link_prev so) (link_next so) v (tls_initialized so) (rtld_loaded so) (initialized so) (destructed so)
     (executable so).
Definition with_tls_initialized (v : bool) (so : SharedObject) : SharedObject :=
  Object (image so) (local_scope so) (dependencies so) (tls_descs so) (tls_offset so) (tls_module_index so)
     (link_prev so) (link_next so) (initial_tls_model so) v (rtld_loaded so) (initialized so) (destructed so)
     (executable so).
Definition with_initialized (v : bool) (so : SharedObject) : SharedObject :=
  Object (image so) (local_scope so) (dependencies so) (tls_descs so) (tls_offset so) (tls_module_index so)
     (link_prev so) (link_next so) (initial_tls_model so) (tls_initialized so) (rtld_loaded so) v
     (destructed so) (executable so).
Definition with_destructed (v : bool) (so : SharedObject) : SharedObject :=
  Object (image so) (local_scope so) (dependencies so) (tls_descs so) (tls_offset so) (tls_module_index so)
     (link_prev so) (link_next so) (initial_tls_model so) (tls_initialized so) (rtld_loaded so)
     (initialized so) v (executable so).

Inductive RtState := Consistent | Add | Delete.
Inductive LoadError := Success | NotFound | InvalidElf | InvalidArch | NoMemory.
Inductive LookupPolicy := PolicyNone | Symbolic | IgnoreLocal | LocalAndDeps.
Inductive dl_error := OBJECT_NOT_FOUND | SYMBOL_NOT_FOUND | LoadFailed (e : LoadError).
Inductive event := Called (fn : Z) | AtExit.

#[export] Instance load_error_eq_dec : EqDecision LoadError.
Proof. solve_decision. Defined.
#[export] Instance policy_eq_dec : EqDecision LookupPolicy.
Proof. solve_decision. Defined.

Record ObjectStorage := Storage {
  objects : list Z; global_scope : list Z; unique_map : gmap (list Z) (Z * Z); init_list : list Z;
  destruct_list : list Z; initial_tls_size : Z; total_initial_tls_size : Z; runtime_tls_map : list Z
}.

Definition with_objects (v : list Z) (st : ObjectStorage) : ObjectStorage :=
  Storage v (global_scope st) (unique_map st) (init_list st) (destruct_list st) (initial_tls_size st)
     (total_initial_tls_size st) (runtime_tls_map st).
Definition with_global_scope (v : list Z) (st : ObjectStorage) : ObjectStorage :=
  Storage (objects st) v (unique_map st) (init_list st) (destruct_list st) (initial_tls_size st)
     (total_initial_tls_size st) (runtime_tls_map st).
Definition with_unique_map (v : gmap (list Z) (Z * Z)) (st : ObjectStorage) : ObjectStorage :=
  Storage (objects st) (global_scope st) v (init_list st) (destruct_list st) (initial_tls_size st)
     (total_initial_tls_size st) (runtime_tls_map st).
Definition with_init_list (v : list Z) (st : ObjectStorage) : ObjectStorage :=
  Storage (objects st) (global_scope st) (unique_map st) v (destruct_list st) (initial_tls_size st)
     (total_initial_tls_size st) (runtime_tls_map st).
Definition with_destruct_list (v : list Z) (st : ObjectStorage) : ObjectStorage :=
  Storage (objects st) (global_scope st) (unique_map st) (init_list st) v (initial_tls_size st)
     (total_initial_tls_size st) (runtime_tls_map st).
Definition with_initial_tls_size (v : Z) (st : ObjectStorage) : ObjectStorage :=
  Storage (objects st) (global_scope st) (unique_map st) (init_list st) (destruct_list st) v
     (total_initial_tls_size st) (runtime_tls_map st).
Definition with_total_initial_tls_size (v : Z) (st : ObjectStorage) : ObjectStorage :=
  Storage (objects st) (global_scope st) (unique_map st) (init_list st) (destruct_list st)
     (initial_tls_size st) v (runtime_tls_map st).
Definition with_runtime_tls_map (v : list Z) (st : ObjectStorage) : ObjectStorage :=
  Storage (objects st) (global_scope st) (unique_map st) (init_list st) (destruct_list st)
     (initial_tls_size st) (total_initial_tls_size st) v.

Record rtld (K : Type) := Rtld {
  memory : mem; heap : gmap Z SharedObject; storage : ObjectStorage; dtv : list Z; debug_head : Z;
  debug_end : Z; debug_state : RtState; saved_addends : option (list Z); libc_addends : list Z; last_error : option dl_error;
  calls : list event; kernel : K
}.
Arguments Rtld {K}.
Arguments memory {K} _.
Arguments heap {K} _.
Arguments storage {K} _.
Arguments dtv {K} _.
Arguments debug_head {K} _.
Arguments debug_end {K} _.
Arguments debug_state {K} _.
Arguments saved_addends {K} _.
Arguments libc_addends {K} _.
Arguments last_error {K} _.
Arguments calls {K} _.
Arguments kernel {K} _.

Definition set_memory {K} (v : mem) (s : rtld K) : rtld K :=
  Rtld v (heap s) (storage s) (dtv s) (debug_head s) (debug_end s) (debug_state s) (saved_addends s) (libc_addends s)
     (last_error s) (calls s) (kernel s).
Definition set_heap {K} (v : gmap Z SharedObject) (s : rtld K) : rtld K :=
  Rtld (memory s) v (storage s) (dtv s) (debug_head s) (debug_end s) (debug_state s) (saved_addends s) (libc_addends s)
     (last_error s) (calls s) (kernel s).
Definition set_storage {K} (v : ObjectStorage) (s : rtld K) : rtld K :=
  Rtld (memory s) (heap s) v (dtv s) (debug_head s) (debug_end s) (debug_state s) (saved_addends s) (libc_addends s)
     (last_error s) (calls s) (kernel s).
Definition set_dtv {K} (v : list Z) (s : rtld K) : rtld K :=
  Rtld (memory s) (heap s) (storage s) v (debug_head s) (debug_end s) (debug_state s) (saved_addends s) (libc_addends s)
     (last_error s) (calls s) (kernel s).
Definition set_debug_head {K} (v : Z) (s : rtld K) : rtld K :=
  Rtld (memory s) (heap s) (storage s) (dtv s) v (debug_end s) (debug_state s) (saved_addends s) (libc_addends s)
     (last_error s) (calls s) (kernel s).
Definition set_debug_end {K} (v : Z) (s : rtld K) : rtld K :=
  Rtld (memory s) (heap s) (storage s) (dtv s) (debug_head s) v (debug_state s) (saved_addends s) (libc_addends s)
     (last_error s) (calls s) (kernel s).
Definition set_saved_addends {K} (v : option (list Z)) (s : rtld K) : rtld K :=
  Rtld (memory s) (heap s) (storage s) (dtv s) (debug_head s) (debug_end s) (debug_state s) v (libc_addends s) (last_error s)
     (calls s) (kernel s).
Definition set_last_error {K} (v : option dl_error) (s : rtld K) : rtld K :=
  Rtld (memory s) (heap s) (storage s) (dtv s) (debug_head s) (debug_end s) (debug_state s) (saved_addends s) (libc_addends s)
     v (calls s) (kernel s).
Definition set_calls {K} (v : list event) (s : rtld K) : rtld K :=
  Rtld (memory s) (heap s) (storage s) (dtv s) (debug_head s) (debug_end s) (debug_state s) (saved_addends s) (libc_addends s)
     (last_error s) v (kernel s).
Definition set_kernel {K} (v : K) (s : rtld K) : rtld K :=
  Rtld (memory s) (heap s) (storage s) (dtv s) (debug_head s) (debug_end s) (debug_state s) (saved_addends s) (libc_addends s)
     (last_error s) (calls s) v.
Definition set_debug_state {K} (v : RtState) (s : rtld K) : rtld K :=
  Rtld (memory s) (heap s) (storage s) (dtv s) (debug_head s) (debug_end s) v (saved_addends s) (libc_addends s) (last_error s)
     (calls s) (kernel s).
Definition set_libc_addends {K} (v : list Z) (s : rtld K) : rtld K :=
  Rtld (memory s) (heap s) (storage s) (dtv s) (debug_head s) (debug_end s) (debug_state s) (saved_addends s) v
    (last_error s) (calls s) (kernel s).

(** ** Effects *)

(** The system calls, the allocator and foreign code: functions of the loaded
    images take and return the memory.  An error number is not 0. *)
Class LinkSys (K : Type) := {
  sys_openat : Z -> list Z -> Z -> K -> (Z + Z) * K;
  sys_read : Z -> Z -> K -> (Z + list Z) * K;
  sys_lseek : Z -> Z -> K -> Z * K;
  sys_close : Z -> K -> Z * K;
  sys_mmap : Z -> Z -> Z -> Z -> K -> (Z + Z) * K;
  sys_munmap : Z -> Z -> K -> Z * K;
  sys_mprotect : Z -> Z -> Z -> K -> Z * K;
  allocate : Z -> K -> Z * K;
  deallocate : Z -> K -> K;
  call_fn : Z -> mem -> K -> Z * mem * K
}.

Inductive rres (K A : Type) :=
| ROk (a : A) (s : rtld K)
| RPanic
| RFault
| RNoFuel.
Arguments ROk {K A} a s.
Arguments RPanic {K A}.
Arguments RFault {K A}.
Arguments RNoFuel {K A}.

Definition RT (K A : Type) : Type := rtld K -> rres K A.

Definition rret {K A} (a : A) : RT K A := fun s => ROk a s.
Definition rbind {K A B} (c : RT K A) (f : A -> RT K B) : RT K B := fun s =>
  match c s with ROk a s' => f a s' | RPanic => RPanic | RFault => RFault | RNoFuel => RNoFuel end.

Declare Scope rt_scope.
Delimit Scope rt_scope with rt.
Notation "x <~ c ;; k" := (rbind c (fun x => k)) (at level 100, c at next level, right associativity) : rt_scope.
Notation "c ;~ k" := (rbind c (fun _ => k)) (at level 100, right associativity) : rt_scope.
#[local] Open Scope rt_scope.

Definition get {K A} (f : rtld K -> A) : RT K A := fun s => ROk (f s) s.
Definition put {K} (f : rtld K -> rtld K) : RT K unit := fun s => ROk tt (f s).
Definition upd_storage {K} (f : ObjectStorage -> ObjectStorage) : RT K unit := put (fun s => set_storage (f (storage s)) s).
(** [__ensure] and [panic]. *)
Definition ensure {K} (b : bool) : RT K unit := fun s => if b then ROk tt s else RPanic.
Definition cm {K A} (c : CM A) : RT K A := fun s =>
  match c (memory s) with Ret a m => ROk a (set_memory m s) | Fault _ => RFault | OutOfFuel => RNoFuel end.
Definition out_of_fuel {K A} : RT K A := fun _ => RNoFuel.

(** [*p] for a pointer to an object. *)
Definition obj {K} (p : Z) : RT K SharedObject := fun s =>
  match heap s !! p with Some o => ROk o s | None => RFault end.
Definition upd_obj {K} (p : Z) (f : SharedObject -> SharedObject) : RT K unit := fun s =>
  match heap s !! p with Some o => ROk tt (set_heap (<[p := f o]> (heap s)) s) | None => RFault end.

(** Runs [f] on every element. *)
Fixpoint for_each {K} (f : Z -> RT K unit) (l : list Z) : RT K unit :=
  match l with [] => rret tt | x :: r => f x ;~ for_each f r end.

(** [n] bytes of [v] at [p], in memory that may not have been there before. *)
Fixpoint fill (n : nat) (p v : Z) (m : mem) : mem :=
  match n with O => m | S n' => <[p := v]> (fill n' (p + 1) v m) end.
Fixpoint unmap (n : nat) (p : Z) (m : mem) : mem :=
  match n with O => m | S n' => delete p (unmap n' (p + 1) m) end.

Fixpoint rtld_memset (size : nat) (dest ch : Z) : CM unit :=
  match size with O => cret tt | S n => store8 dest ch ;;; rtld_memset n (dest + 1) ch end.
Fixpoint rtld_memcpy (size : nat) (dest src : Z) : CM unit :=
  match size with O => cret tt | S n => (b <- load8 src ;; store8 dest b) ;;; rtld_memcpy n (dest + 1) (src + 1) end.
Fixpoint store_bytes (dest : Z) (l : list Z) : CM unit :=
  match l with [] => cret tt | b :: r => store8 dest b ;;; store_bytes (dest + 1) r end.

Section Linker.
Context {K : Type} {LS : LinkSys K}.
(** The bound of every loop that has no count of its own. *)
Variable fuel : nat.
(** Addresses of the debugger interface and of the two TLS descriptor functions. *)
Variables DEBUG_INTERFACE tlsdesc_static tlsdesc_dynamic : Z.
(** [LIBRARY_PATHS]. *)
Variable library_paths : list (list Z).

Abbreviation RTK := (RT K).

Definition sys {A} (f : K -> A * K) : RTK A := fun s => let '(a, k) := f (kernel s) in ROk a (set_kernel k s).

(** [Allocator::allocate]: memory of unspecified contents, zero here. *)
Definition rt_allocate (size : Z) : RTK Z :=
  p <~ sys (allocate size) ;; ensure (negb (p =? 0)) ;~
  put (fun s => set_memory (fill (Z.to_nat size) p 0 (memory s)) s) ;~ rret p.

(** [f()] for a function of a loaded image. *)
Definition rt_call (f : Z) : RTK Z := fun s =>
  let '(r, m, k) := call_fn f (memory s) (kernel s) in
  ROk r (set_calls (calls s ++ [Called f]) (set_kernel k (set_memory m s))).

(** ** Symbol resolution *)

(** The symbol of that name, unless it is undefined or local. *)
Definition defined_sym (o : Z) (nm : Z) : RTK (option (Z * Elf_Sym)) :=
  so <~ obj o ;;
  p <~ cm (object_lookup fuel so nm) ;;
  if p =? 0 then rret None
  else
    sym <~ cm (read_sym p) ;;
    if negb (st_shndx sym =? SHN_UNDEF) && negb (ELF_ST_BIND (st_info sym) =? STB_LOCAL)
    then rret (Some (p, sym)) else rret None.

(** One object: [inl] returns from [lookup], [inr] is [res] for the next object. *)
Definition try_object (o nm : Z) (res : option (Z * Z)) : RTK ((Z * Z) + option (Z * Z)) :=
  d <~ defined_sym o nm ;;
  match d with
  | None => rret (inr res)
  | Some (p, sym) =>
    if ELF_ST_BIND (st_info sym) =? STB_WEAK then
      rret (inr (match res with None => Some (o, p) | Some _ => res end))
    else if ELF_ST_BIND (st_info sym) =? STB_GNU_UNIQUE then
      key <~ cm (read_cstr fuel nm) ;;
      map <~ get (fun s => unique_map (storage s)) ;;
      match map !! key with
      | Some existing => rret (inl existing)
      | None => upd_storage (with_unique_map (<[key := (o, p)]> map)) ;~ rret (inl (o, p))
      end
    else rret (inl (o, p))
  end.

(** The objects of a scope, in order, without [local]. *)
Fixpoint scan (l : list Z) (local nm : Z) (res : option (Z * Z)) : RTK ((Z * Z) + option (Z * Z)) :=
  match l with
  | [] => rret (inr res)
  | o :: l' =>
    if o =? local then scan l' local nm res
    else
      r <~ try_object o nm res ;;
      match r with inl x => rret (inl x) | inr res => scan l' local nm res end
  end.

(** The dependencies that have not been visited are appended to the queue. *)
Fixpoint enqueue (deps stack : list Z) (visited : gset Z) : list Z * gset Z :=
  match deps with
  | [] => (stack, visited)
  | d :: r => if decide (d ∈ visited) then enqueue r stack visited else enqueue r (stack ++ [d]) ({[d]} ∪ visited)
  end.

(** The object and everything it depends on, breadth first; [stack] is the queue from
    index [i] on. *)
Fixpoint search_deps (n : nat) (stack : list Z) (visited : gset Z) (nm : Z) (res : option (Z * Z))
  : RTK ((Z * Z) + option (Z * Z)) :=
  match n, stack with
  | _, [] => rret (inr res)
  | O, _ => out_of_fuel
  | S n', o :: rest =>
    r <~ try_object o nm res ;;
    match r with
    | inl x => rret (inl x)
    | inr res =>
      so <~ obj o ;;
      let '(rest, visited) := enqueue (dependencies so) rest visited in
      search_deps n' rest visited nm res
    end
  end.

Definition or_continue (r : (Z * Z) + option (Z * Z)) (k : option (Z * Z) -> RTK (option (Z * Z))) : RTK (option (Z * Z)) :=
  match r with inl x => rret (Some x) | inr res => k res end.

(** [local] is 0 for a null pointer. *)
Definition storage_lookup (local nm : Z) (policy : LookupPolicy) : RTK (option (Z * Z)) :=
  let local_and_deps (res : option (Z * Z)) :=
    if local =? 0 then rret res
    else
      r <~ search_deps fuel [local] {[local]} nm res ;;
      or_continue r (fun res =>
        if decide (policy = LocalAndDeps) then rret res
        else
          so <~ obj local ;;
          r <~ scan (local_scope so) 0 nm res ;;
          or_continue r rret) in
  if decide (policy = LocalAndDeps) then local_and_deps None
  else
    r <~ (if negb (local =? 0) && bool_decide (policy = Symbolic) then try_object local nm None else rret (inr None)) ;;
    or_continue r (fun res =>
      scope <~ get (fun s => global_scope (storage s)) ;;
      r <~ scan scope local nm res ;;
      or_continue r local_and_deps).

(** ** Thread-local blocks *)

Definition access_tls_for_object (o : Z) : RTK Z :=
  so <~ obj o ;;
  d <~ get dtv ;;
  (if tls_module_index so <? zlen d then rret tt
   else
     n <~ get (fun s => length (runtime_tls_map (storage s))) ;;
     put (set_dtv (take n (d ++ repeat 0 n)))) ;~
  d <~ get dtv ;;
  match d !! Z.to_nat (tls_module_index so) with
  | None => fun _ => RFault
  | Some entry =>
    if negb (entry =? 0) then rret entry
    else
      p <~ rt_allocate (tls_size so) ;;
      cm (rtld_memset (Z.to_nat (tls_size so - tls_image_size so)) (p + tls_image_size so) 0) ;~
      cm (rtld_memcpy (Z.to_nat (tls_image_size so)) p (tls_image so)) ;~
      put (fun s => set_dtv (<[Z.to_nat (tls_module_index so) := p]> (dtv s)) s) ;~
      rret p
  end.

Definition try_access_tls_for_object (o : Z) : RTK Z :=
  so <~ obj o ;;
  d <~ get dtv ;;
  if zlen d <=? tls_module_index so then rret nullptr else rret (znth 0 d (tls_module_index so)).

(** ** Relocation *)

(** [this], as an address and as an object, and what [lookup] returned for the symbol of
    the entry: the defining object and the symbol. *)
Definition rel_addend (so : SharedObject) (r : Elf_Rela) : Z := u64 (base so + r_addend r).
Definition apply (so : SharedObject) (r : Elf_Rela) (value : Z) : RTK unit :=
  cm (store64 (u64 (base so + r_offset r)) (u64 value)).

Definition is_weak (so : SharedObject) (sym_index : Z) : RTK bool :=
  info <~ cm (load8 (symtab so + sizeof_Elf_Sym * sym_index + 4)) ;; rret (ELF_ST_BIND info =? STB_WEAK).

(** [R_ABSOLUTE], [R_GLOB_DAT] and [R_JUMP_SLOT]. *)
Definition apply_symbol (so : SharedObject) (r : Elf_Rela) (addend : Z) (resolved_sym : option (Z * Elf_Sym)) : RTK bool :=
  weak <~ is_weak so (ELF_R_SYM (r_info r)) ;;
  match resolved_sym with
  | Some (o, sym) => t <~ obj o ;; apply so r (base t + st_value sym + addend) ;~ rret true
  | None => if (weak : bool) then apply so r 0 ;~ rret true else rret false
  end.

Definition process_relocation (self : Z) (r : Elf_Rela) (resolved_sym : option (Z * Elf_Sym)) : RTK bool :=
  so <~ obj self ;;
  let type := ELF_R_TYPE (r_info r) in
  let sym_index := ELF_R_SYM (r_info r) in
  if type =? R_RELATIVE then apply so r (rel_addend so r) ;~ rret true
  else if type =? R_ABSOLUTE then apply_symbol so r (r_addend r) resolved_sym
  else if (type =? R_GLOB_DAT) || (type =? R_JUMP_SLOT) then apply_symbol so r 0 resolved_sym
  else if type =? R_TPOFF then
    if negb (sym_index =? 0) then
      match resolved_sym with
      | None => ensure false ;~ rret true
      | Some (o, sym) =>
        t <~ obj o ;; ensure (initial_tls_model t) ;~
        apply so r (- tls_offset t + (st_value sym + r_addend r)) ;~ rret true
      end
    else ensure (initial_tls_model so) ;~ apply so r (- tls_offset so + r_addend r) ;~ rret true
  else if type =? R_DTPMOD then
    if negb (sym_index =? 0) then
      match resolved_sym with
      | None => ensure false ;~ rret true
      | Some (o, _) => apply so r o ;~ rret true
      end
    else apply so r self ;~ rret true
  else if type =? R_DTPOFF then
    match resolved_sym with
    | None => ensure false ;~ rret true
    | Some (_, sym) => apply so r (st_value sym + r_addend r) ;~ rret true
    end
  else if type =? R_TLSDESC then
    let target := if negb (sym_index =? 0) then match resolved_sym with Some (o, sym) => Some (o, st_value sym) | None => None end
                  else Some (self, 0) in
    match target with
    | None => rret false
    | Some (o, symbol_value) =>
      t <~ obj o ;;
      let ptr := u64 (base so + r_offset r) in
      (if initial_tls_model t then
         cm (store64 ptr tlsdesc_static) ;~
         cm (store64 (ptr + 8) (u64 (- tls_offset t + symbol_value + r_addend r)))
       else
         data <~ rt_allocate 16 ;;
         cm (store64 data (tls_module_index t)) ;~
         cm (store64 (data + 8) (u64 (symbol_value + r_addend r))) ;~
         access_tls_for_object o ;~
         cm (store64 ptr tlsdesc_dynamic) ;~
         cm (store64 (ptr + 8) data) ;~
         upd_obj self (fun so => with_tls_descs (tls_descs so ++ [data]) so)) ;~
      rret true
    end
  else ensure false ;~ rret true.

Definition process_late_relocation (self : Z) (r : Elf_Rela) (resolved_sym : option (Z * Elf_Sym)) : RTK unit :=
  so <~ obj self ;;
  let type := ELF_R_TYPE (r_info r) in
  if type =? R_COPY then
    match resolved_sym with
    | None => ensure false
    | Some (o, sym) =>
      t <~ obj o ;;
      cm (rtld_memcpy (Z.to_nat (st_size sym)) (u64 (base so + r_offset r)) (u64 (base t + st_value sym)))
    end
  else if type =? R_IRELATIVE then
    v <~ rt_call (rel_addend so r) ;; apply so r v
  else ensure false.

Definition is_late (info : Z) : bool := (ELF_R_TYPE info =? R_COPY) || (ELF_R_TYPE info =? R_IRELATIVE).

(** How the symbol of an entry is found: in the scopes, or (while the library relocates
    itself) in the object itself. *)
Inductive resolver := InScopes (policy : LookupPolicy) | InItself.

Definition resolve (self : Z) (how : resolver) (info : Z) : RTK (option (Z * Elf_Sym)) :=
  if ELF_R_SYM info =? 0 then rret None
  else
    so <~ obj self ;;
    st <~ cm (load32 (symtab so + sizeof_Elf_Sym * ELF_R_SYM info)) ;;
    let sym_name := strtab so + st in
    match how with
    | InScopes policy =>
      r <~ storage_lookup self sym_name policy ;;
      match r with
      | None => rret None
      | Some (o, p) => sym <~ cm (read_sym p) ;; rret (Some (o, sym))
      end
    | InItself =>
      p <~ cm (object_lookup fuel so sym_name) ;;
      if p =? 0 then rret None else sym <~ cm (read_sym p) ;; rret (Some (self, sym))
    end.

(** The entries of a table with addends; the result tells unresolved symbols. *)
Fixpoint rela_loop (n : nat) (self : Z) (how : resolver) (rela : Z) : RTK bool :=
  match n with
  | O => rret false
  | S n' =>
    entry <~ cm (read_rela rela) ;;
    bad <~ (if is_late (r_info entry) then rret false
            else s <~ resolve self how (r_info entry) ;; ok <~ process_relocation self entry s ;; rret (negb ok)) ;;
    rest <~ rela_loop n' self how (rela + sizeof_Elf_Rela) ;;
    rret (bad || rest)
  end.

Definition entries (size each : Z) : nat := Z.to_nat ((size + each - 1) / each).

Definition MAX_SAVED_LIBC_REL_ADDENDS : nat := 1024.

(** The addend of an entry without one is the word it is applied to; while the library
    relocates itself those words are saved, and used when it is relocated again. *)
Fixpoint rel_loop (n : nat) (self : Z) (how : resolver) (rel : Z) (index : nat) : RTK (bool * nat) :=
  match n with
  | O => rret (false, index)
  | S n' =>
    entry <~ cm (read_rel rel 0) ;;
    r <~ (if is_late (r_info entry) then rret (false, index)
          else
            so <~ obj self ;;
            let in_place := a <~ cm (load64 (u64 (base so + r_offset entry))) ;; rret (s64 a) in
            s <~ resolve self how (r_info entry) ;;
            saved <~ get saved_addends ;;
            let named := negb (ELF_R_SYM (r_info entry) =? 0) in
            match how, saved with
            | InScopes _, Some l =>
                if named then
                  match l !! index with
                  | None => fun _ => RFault
                  | Some a =>
                    ok <~ process_relocation self {| r_offset := r_offset entry; r_info := r_info entry; r_addend := a |} s ;;
                    rret (negb ok, S index)
                  end
                else rret (false, index)
            | InScopes _, None =>
                a <~ in_place ;;
                ok <~ process_relocation self {| r_offset := r_offset entry; r_info := r_info entry; r_addend := a |} s ;;
                rret (negb ok, index)
            | InItself, _ =>
                a <~ in_place ;;
                (if named then
                   l <~ get libc_addends ;;
                   ensure (Nat.ltb (length l) MAX_SAVED_LIBC_REL_ADDENDS) ;~ put (set_libc_addends (l ++ [a]))
                 else rret tt) ;~
                ok <~ process_relocation self {| r_offset := r_offset entry; r_info := r_info entry; r_addend := a |} s ;;
                rret (negb ok, index)
            end) ;;
    let '(bad, index) := r in
    rest <~ rel_loop n' self how (rel + sizeof_Elf_Rel) index ;;
    rret (bad || fst rest, snd rest)
  end.

(** The bits of a bitmap entry above the lowest, from the word at [addr] on. *)
Fixpoint relr_bitmap (n : nat) (b addr entry : Z) : CM unit :=
  match n with
  | O => cret tt
  | S n' =>
    let entry := Z.shiftr entry 1 in
    if entry =? 0 then cret tt
    else
      (if negb (Z.land entry 1 =? 0) then v <- load64 addr ;; store64 addr (u64 (v + b)) else cret tt) ;;;
      relr_bitmap n' b (addr + 8) entry
  end.

Fixpoint relr_loop (n : nat) (b relr relr_addr : Z) : RTK unit :=
  match n with
  | O => rret tt
  | S n' =>
    entry <~ cm (load64 relr) ;;
    if Z.land entry 1 =? 0 then
      let a := u64 (b + entry) in
      cm (v <- load64 a ;; store64 a (u64 (v + b))) ;~
      relr_loop n' b (relr + sizeof_Elf_Relr) (a + 8)
    else
      ensure (negb (relr_addr =? 0)) ;~
      cm (relr_bitmap 64 b relr_addr entry) ;~
      relr_loop n' b (relr + sizeof_Elf_Relr) (relr_addr + 8 * 63)
  end.

(** [relocate], and [relocate_libc] with [InItself]: the tables in the order of the code. *)
Definition relocate_with (self : Z) (how : resolver) : RTK unit :=
  so <~ obj self ;;
  ds <~ cm (dyn_entries fuel None (dynamic so)) ;;
  bad1 <~ rela_loop (entries (dyn_val DT_RELASZ ds) sizeof_Elf_Rela) self how (dyn_ptr (base so) DT_RELA ds) ;;
  saved <~ get saved_addends ;;
  (if match how, saved with InScopes _, Some _ => true | _, _ => false end then rret tt
   else relr_loop (entries (dyn_val DT_RELRSZ ds) sizeof_Elf_Relr) (base so) (dyn_ptr (base so) DT_RELR ds) 0) ;~
  r <~ rel_loop (entries (dyn_val DT_RELSZ ds) sizeof_Elf_Rel) self how (dyn_ptr (base so) DT_REL ds) 0 ;;
  let '(bad2, index) := r in
  let plt := dyn_ptr (base so) DT_JMPREL ds in
  let size := dyn_val DT_PLTRELSZ ds in
  bad3 <~ (if size =? 0 then rret false
           else if dyn_val DT_PLTREL ds =? DT_RELA then rela_loop (entries size sizeof_Elf_Rela) self how plt
           else ensure (dyn_val DT_PLTREL ds =? DT_REL) ;~
                r <~ rel_loop (entries size sizeof_Elf_Rel) self how plt index ;; rret (fst r)) ;;
  ensure (negb (bad1 || bad2 || bad3)).

Definition relocate (self : Z) : RTK unit :=
  so <~ obj self ;;
  relocate_with self (InScopes (if symbolic_resolution so then Symbolic else PolicyNone)).

Definition relocate_libc (self : Z) : RTK unit := relocate_with self InItself.

Fixpoint late_loop (n : nat) (self : Z) (with_addend : bool) (table : Z) : RTK unit :=
  match n with
  | O => rret tt
  | S n' =>
    entry <~ (if with_addend then cm (read_rela table) else cm (read_rel table 0)) ;;
    (if negb (is_late (r_info entry)) then rret tt
     else
       s <~ resolve self (InScopes IgnoreLocal) (r_info entry) ;;
       so <~ obj self ;;
       a <~ (if with_addend then rret (r_addend entry)
             else a <~ cm (load64 (u64 (base so + r_offset entry))) ;; rret (s64 a)) ;;
       process_late_relocation self {| r_offset := r_offset entry; r_info := r_info entry; r_addend := a |} s) ;~
    late_loop n' self with_addend (table + if with_addend then sizeof_Elf_Rela else sizeof_Elf_Rel)
  end.

Definition late_relocate (self : Z) : RTK unit :=
  so <~ obj self ;;
  ds <~ cm (dyn_entries fuel None (dynamic so)) ;;
  late_loop (entries (dyn_val DT_RELASZ ds) sizeof_Elf_Rela) self true (dyn_ptr (base so) DT_RELA ds) ;~
  late_loop (entries (dyn_val DT_RELSZ ds) sizeof_Elf_Rel) self false (dyn_ptr (base so) DT_REL ds) ;~
  let plt := dyn_ptr (base so) DT_JMPREL ds in
  let size := dyn_val DT_PLTRELSZ ds in
  if size =? 0 then rret tt
  else if dyn_val DT_PLTREL ds =? DT_RELA then late_loop (entries size sizeof_Elf_Rela) self true plt
  else ensure (dyn_val DT_PLTREL ds =? DT_REL) ;~ late_loop (entries size sizeof_Elf_Rel) self false plt.

(** ** Loading *)

Definition AT_FDCWD : Z := -100.
Definition O_RDONLY : Z := 0.
Definition O_DIRECTORY : Z := 0x10000.
Definition PROT_NONE : Z := 0.
Definition PROT_READ : Z := 1.
Definition PROT_WRITE : Z := 2.
Definition PROT_EXEC : Z := 4.
Definition MAP_PRIVATE : Z := 2.
Definition MAP_FIXED : Z := 0x10.
Definition MAP_ANON : Z := 0x20.

Definition try_read (fd count : Z) : RTK (option (list Z)) :=
  r <~ sys (sys_read fd count) ;;
  rret (match r with inr d => if zlen d =? count then Some d else None | inl _ => None end).

Definition try_seek (fd offset : Z) : RTK bool := e <~ sys (sys_lseek fd offset) ;; rret (e =? 0).

(** [n] bytes of a file header from [i] on, as a number. *)
Fixpoint le_of (l : list Z) : Z := match l with [] => 0 | b :: r => b + 256 * le_of r end.
Definition field (n i : nat) (l : list Z) : Z := le_of (take n (drop i l)).

Definition page_down (a : Z) : Z := Z.land a (Z.lnot 0xFFF).
Definition page_up (a : Z) : Z := Z.land (u64 (a + 0x1000 - 1)) (Z.lnot 0xFFF).

Definition valid_ident (ehdr : list Z) : bool :=
  bool_decide (take 4 ehdr = [0x7F; 69; 76; 70]) && (field 1 5 ehdr =? 1) && (field 1 6 ehdr =? 1).
Definition valid_arch (ehdr : list Z) : bool := (field 1 4 ehdr =? 2) && (field 2 18 ehdr =? 0x3E).

(** The segments, one after the other; [false] when one cannot be read. *)
Fixpoint map_segments (l : list Elf_Phdr) (fd load_base : Z) : RTK bool :=
  match l with
  | [] => rret true
  | h :: r =>
    if negb (is_type PT_LOAD h) then map_segments r fd load_base
    else
      let addr := u64 (load_base + page_down (p_vaddr h)) in
      let size := page_up (p_memsz h + p_vaddr h mod 0x1000) in
      e <~ sys (sys_mmap addr size (Z.lor PROT_READ PROT_WRITE) (Z.lor (Z.lor MAP_PRIVATE MAP_ANON) MAP_FIXED)) ;;
      ensure (match e with inr _ => true | inl _ => false end) ;~
      put (fun s => set_memory (fill (Z.to_nat size) addr 0 (memory s)) s) ;~
      ok <~ try_seek fd (p_offset h) ;;
      d <~ (if (ok : bool) then try_read fd (p_filesz h) else rret None) ;;
      match d with
      | None => rret false
      | Some d =>
        cm (store_bytes (u64 (load_base + p_vaddr h)) d) ;~
        cm (rtld_memset (Z.to_nat (u64 (p_memsz h - p_filesz h))) (u64 (load_base + p_vaddr h + p_filesz h)) 0) ;~
        (if Z.land (p_flags h) PF_X =? 0 then rret tt
         else
           e <~ sys (sys_mprotect addr size
                (Z.lor (Z.lor PROT_READ PROT_EXEC) (if Z.land (p_flags h) PF_W =? 0 then 0 else PROT_WRITE))) ;;
           ensure (e =? 0)) ;~
        map_segments r fd load_base
      end
  end.

Variable sizeof_SharedObject : Z.

Definition new_object (img : Image) : SharedObject :=
  {| image := img; local_scope := []; dependencies := []; tls_descs := []; tls_offset := 0; tls_module_index := 0;
     link_prev := 0; link_next := 0; initial_tls_model := static_tls img; tls_initialized := false; rtld_loaded := true;
     initialized := false; destructed := false; executable := false |}.

Definition rt_munmap (p size : Z) : RTK unit :=
  e <~ sys (sys_munmap p size) ;; ensure (e =? 0) ;~
  put (fun s => set_memory (unmap (Z.to_nat size) p (memory s)) s).

(** The part of [load_object] that has the buffer of the program headers.  An allocator
    that returns the address of an object alive breaks its contract: a fault. *)
Definition load_image (origin : Z) (path : list Z) (fd phdrs e_phentsize e_phnum : Z) : RTK (LoadError + Z) :=
  d <~ try_read fd (e_phnum * e_phentsize) ;;
  match d with
  | None => rret (inl InvalidElf)
  | Some d =>
    cm (store_bytes phdrs d) ;~
    hs <~ cm (read_phdrs (Z.to_nat e_phnum) phdrs e_phentsize) ;;
    ensure (link_start hs =? 0) ;~
    let total_size := page_up (link_end hs) in
    b <~ sys (sys_mmap 0 total_size PROT_NONE (Z.lor MAP_PRIVATE MAP_ANON)) ;;
    match b with
    | inl _ => rret (inl NoMemory)
    | inr load_base =>
      ok <~ map_segments hs fd load_base ;;
      if negb ok then rt_munmap load_base total_size ;~ rret (inl InvalidElf)
      else
        o <~ sys (allocate sizeof_SharedObject) ;; ensure (negb (o =? 0)) ;~
        org <~ obj origin ;;
        let dynamic_offset := match rev (List.filter (is_type PT_DYNAMIC) hs) with h :: _ => p_vaddr h | [] => 0 end in
        i <~ cm (make_image fuel DEBUG_INTERFACE (Some (Elf.path org)) (Some []) path load_base
                  (u64 (load_base + dynamic_offset)) phdrs e_phentsize e_phnum) ;;
        match i with
        | None => ensure false ;~ rret (inl InvalidElf)
        | Some img => fun s =>
            match heap s !! o with
            | Some _ => RFault
            | None => ROk (inr o) (set_heap (<[o := new_object img]> (heap s)) s)
            end
        end
    end
  end.

(** The size of the program headers is a product of two [int]; that it overflows is
    undefined, a fault. *)
Definition load_object (origin : Z) (path : list Z) (fd : Z) : RTK (LoadError + Z) :=
  e <~ try_read fd 64 ;;
  match e with
  | None => rret (inl InvalidElf)
  | Some ehdr =>
    if negb (valid_ident ehdr) then rret (inl InvalidElf)
    else if negb (valid_arch ehdr) then rret (inl InvalidArch)
    else
      let e_phentsize := field 2 54 ehdr in
      let e_phnum := field 2 56 ehdr in
      ok <~ try_seek fd (field 8 32 ehdr) ;;
      if negb ok then rret (inl InvalidElf)
      else
        let size := e_phnum * e_phentsize in
        (if smax 32 <? size then (fun _ => RFault) else rret tt) ;~
        phdrs <~ rt_allocate size ;;
        r <~ load_image origin path fd phdrs e_phentsize e_phnum ;;
        sys (fun k => (tt, deallocate phdrs k)) ;~ rret r
  end.

Definition close_fd (fd : Z) : RTK unit := e <~ sys (sys_close fd) ;; ensure (e =? 0).

Definition load_object_at_path (origin : Z) (path : list Z) : RTK (LoadError + Z) :=
  r <~ sys (sys_openat AT_FDCWD path O_RDONLY) ;;
  match r with
  | inl _ => rret (inl NotFound)
  | inr fd => r <~ load_object origin path fd ;; close_fd fd ;~ rret r
  end.

Definition join_path (dir nm : list Z) : list Z :=
  dir ++ (if bool_decide (hd_error (rev dir) = Some 47) then [] else [47]) ++ nm.

Fixpoint load_from (dirs : list (list Z)) (origin : Z) (nm : list Z) : RTK (LoadError + Z) :=
  match dirs with
  | [] => rret (inl NotFound)
  | dir :: r =>
    d <~ sys (sys_openat AT_FDCWD dir O_DIRECTORY) ;;
    match d with
    | inl _ => load_from r origin nm
    | inr dir_fd =>
      f <~ sys (sys_openat dir_fd nm O_RDONLY) ;;
      match f with
      | inl _ => sys (sys_close dir_fd) ;~ load_from r origin nm
      | inr fd =>
        close_fd dir_fd ;~
        x <~ load_object origin (join_path dir nm) fd ;;
        close_fd fd ;~
        match x with inr o => rret (inr o) | inl _ => load_from r origin nm end
      end
    end
  end.

(** The run paths of the loading object, then the paths of the system. *)
Definition load_object_with_name (origin : Z) (nm : list Z) : RTK (LoadError + Z) :=
  so <~ obj origin ;; load_from (run_paths so ++ library_paths) origin nm.

Definition protect_object (o : Z) : RTK unit :=
  so <~ obj o ;;
  (fix go (l : list Elf_Phdr) : RTK unit :=
     match l with
     | [] => rret tt
     | h :: r =>
       (if negb (is_type PT_LOAD h) then rret tt
        else
          let has f := negb (Z.land (p_flags h) f =? 0) in
          let prot := Z.lor (Z.lor (if has PF_R then PROT_READ else 0)
            (if has PF_W then Z.lor PROT_READ PROT_WRITE else 0)) (if has PF_X then Z.lor PROT_READ PROT_EXEC else 0) in
          e <~ sys (sys_mprotect (u64 (base so + page_down (p_vaddr h))) (page_up (p_memsz h + p_vaddr h mod 0x1000)) prot) ;;
          ensure (e =? 0)) ;~ go r
     end) (phdrs_vec so).

(** ** The debugger's list of objects *)

Definition add_object_to_debug_list (o : Z) : RTK unit :=
  e <~ get debug_end ;;
  (if negb (e =? 0) then upd_obj o (with_link_prev e) ;~ upd_obj e (with_link_next o)
   else put (set_debug_head o)) ;~
  put (set_debug_end o).

Definition remove_object_from_debug_list (o : Z) : RTK unit :=
  so <~ obj o ;;
  (if negb (link_prev so =? 0) then upd_obj (link_prev so) (with_link_next (link_next so))
   else put (set_debug_head (link_next so))) ;~
  (if negb (link_next so =? 0) then upd_obj (link_next so) (with_link_prev (link_prev so)) else rret tt).

Definition add_object (o : Z) : RTK unit :=
  upd_storage (fun st => with_objects (objects st ++ [o]) st) ;~ add_object_to_debug_list o.

(** ** Dependencies *)

(** The destructor: descriptors are freed and the object is gone. *)
Definition destroy (o : Z) : RTK unit :=
  so <~ obj o ;;
  for_each (fun d => sys (fun k => (tt, deallocate d k))) (tls_descs so) ;~
  put (fun s => set_heap (delete o (heap s)) s).

(** [l] without everything from the last [start] on, [[]] when there is none. *)
Fixpoint pop_until (start : Z) (rl : list Z) : list Z :=
  match rl with [] => [] | x :: r => if x =? start then r else pop_until start r end.

(** What [load_dependencies] does before it returns an error. *)
Definition undo_load (global : bool) (start tls_size_at_start : Z) (objects_at_start : nat) : RTK unit :=
  l <~ get (fun s => init_list (storage s)) ;;
  for_each (fun o =>
    so <~ obj o ;;
    remove_object_from_debug_list o ;~
    destroy o ;~
    if rtld_loaded so then rt_munmap (base so) (end_ so - base so) ;~ sys (fun k => (tt, deallocate o k)) else rret tt) l ;~
  (if global then upd_storage (fun st => with_global_scope (rev (pop_until start (rev (global_scope st)))) st) else rret tt) ;~
  upd_storage (fun st => with_objects (take objects_at_start (objects st)) st) ;~
  upd_storage (with_initial_tls_size tls_size_at_start).

Fixpoint find_object (p : SharedObject -> bool) (l : list Z) : RTK (option Z) :=
  match l with
  | [] => rret None
  | o :: r => so <~ obj o ;; if p so then rret (Some o) else find_object p r
  end.

Definition has_slash (nm : list Z) : bool := existsb (Z.eqb 47) nm.

(** Libraries that are part of this one. *)
Definition builtin_names : list (list Z) :=
  [ [108; 100; 45; 108; 105; 110; 117; 120; 46; 115; 111; 46; 50]
  ; [108; 100; 45; 108; 105; 110; 117; 120; 45; 120; 56; 54; 45; 54; 52; 46; 115; 111; 46; 50]
  ; [108; 105; 98; 99; 46; 115; 111]
  ; [108; 105; 98; 99; 46; 115; 111; 46; 54] ].

Definition add_dependency (o d : Z) : RTK unit := upd_obj o (fun so => with_dependencies (dependencies so ++ [d]) so).

(** One [DT_NEEDED] entry of [o]: an error, or the object that was loaded for it. *)
Definition load_needed (o : Z) (nm : list Z) : RTK (LoadError + option Z) :=
  if bool_decide (nm ∈ builtin_names) then rret (inr None)
  else
    l <~ get (fun s => objects (storage s)) ;;
    known <~ find_object (fun so => if has_slash nm then bool_decide (Elf.path so = nm) else bool_decide (Elf.name so = Some nm)) l ;;
    match known with
    | Some d => add_dependency o d ;~ rret (inr None)
    | None =>
      r <~ (if has_slash nm then load_object_at_path o nm else load_object_with_name o nm) ;;
      match r with
      | inl e => rret (inl e)
      | inr d => add_object d ;~ add_dependency o d ;~ rret (inr (Some d))
      end
    end.

(** The entries of the dynamic section; [stack] is [load_list], its back first. *)
Fixpoint needed_loop (ds : list (Z * Z)) (o : Z) (global : bool) (stack : list Z) : RTK (LoadError + list Z) :=
  match ds with
  | [] => rret (inr stack)
  | (tag, v) :: r =>
    if negb (tag =? DT_NEEDED) then needed_loop r o global stack
    else
      so <~ obj o ;;
      nm <~ cm (read_cstr fuel (strtab so + v)) ;;
      x <~ load_needed o nm ;;
      match x with
      | inl e => rret (inl e)
      | inr None => needed_loop r o global stack
      | inr (Some d) =>
        (if global then upd_storage (fun st => with_global_scope (global_scope st ++ [d]) st) else rret tt) ;~
        needed_loop r o global (d :: stack)
      end
  end.

(** The offset of a block of the initial TLS model below the thread pointer. *)
Definition tls_end (size so_size align : Z) : Z := Z.land (u64 (size + so_size + align - 1)) (Z.lnot (align - 1)).

(** The TLS block of an object; [false]: no space left. *)
Definition place_tls (o : Z) : RTK bool :=
  so <~ obj o ;;
  if tls_size so =? 0 then rret true
  else
    st <~ get storage ;;
    let offset := tls_end (initial_tls_size st) (tls_size so) (tls_align so) in
    let static := initial_tls_model so && rtld_loaded so in
    if static && negb (total_initial_tls_size st =? 0) && (total_initial_tls_size st <? offset) then rret false
    else
      (if static then upd_obj o (with_tls_offset offset) ;~ upd_storage (with_initial_tls_size offset) else rret tt) ;~
      upd_obj o (with_tls_module_index (zlen (runtime_tls_map st))) ;~
      upd_storage (fun st => with_runtime_tls_map (runtime_tls_map st ++ [o]) st) ;~
      rret true.

Fixpoint load_loop (n : nat) (stack : list Z) (global initial : bool) : RTK LoadError :=
  match n, stack with
  | _, [] => rret Success
  | O, _ => out_of_fuel
  | S n', o :: rest =>
    upd_storage (fun st => with_init_list (init_list st ++ [o]) st) ;~
    (if initial then upd_obj o (with_initial_tls_model true) else rret tt) ;~
    ok <~ place_tls o ;;
    if negb ok then rret NoMemory
    else
      so <~ obj o ;;
      ds <~ cm (dyn_entries fuel None (dynamic so)) ;;
      x <~ needed_loop ds o global rest ;;
      match x with
      | inl e => rret e
      | inr stack => load_loop n' stack global initial
      end
  end.

Definition load_dependencies (object : Z) (global initial : bool) : RTK LoadError :=
  (if global then upd_storage (fun st => with_global_scope (global_scope st ++ [object]) st) else rret tt) ;~
  st <~ get storage ;;
  e <~ load_loop fuel [object] global initial ;;
  if bool_decide (e = Success) then
    l <~ get (fun s => init_list (storage s)) ;;
    for_each relocate l ;~
    for_each (fun o =>
      late_relocate o ;~ so <~ obj o ;; if executable so then rret tt else protect_object o) l ;~
    rret Success
  else undo_load global object (initial_tls_size st) (length (objects st)) ;~ rret e.

(** ** Initialisation and destruction *)

Fixpoint run_array (n : nat) (fn stop : Z) : RTK unit :=
  match n with
  | O => out_of_fuel
  | S n' => if fn =? stop then rret tt else f <~ cm (load64 fn) ;; rt_call f ;~ run_array n' (fn + 8) stop
  end.

Definition run_init (o : Z) : RTK unit :=
  so <~ obj o ;;
  (if negb (init so =? 0) then rt_call (init so) ;~ rret tt else rret tt) ;~
  run_array fuel (init_array so) (init_array_end so).

Fixpoint run_array_down (n : nat) (array : Z) : RTK unit :=
  match n with
  | O => rret tt
  | S n' => f <~ cm (load64 (array + 8 * Z.of_nat n')) ;; rt_call f ;~ run_array_down n' array
  end.

Definition run_fini (o : Z) : RTK unit :=
  so <~ obj o ;;
  if destructed so then rret tt
  else
    run_array_down (Z.to_nat (u64 (Z.quot (fini_array_end so - fini_array so) 8))) (fini_array so) ;~
    (if negb (fini so =? 0) then rt_call (fini so) ;~ rret tt else rret tt) ;~
    upd_obj o (with_destructed true).

Definition init_one (o : Z) : RTK unit :=
  so <~ obj o ;;
  if initialized so then rret tt
  else
    (if executable so then put (fun s => set_calls (calls s ++ [AtExit]) s) else rret tt) ;~
    upd_storage (fun st => with_destruct_list (destruct_list st ++ [o]) st) ;~
    run_init o ;~
    upd_obj o (with_initialized true).

(** From the back of [init_list] to its front. *)
Definition init_objects : RTK unit :=
  l <~ get (fun s => init_list (storage s)) ;;
  for_each init_one (rev l) ;~
  upd_storage (with_init_list []).

Definition destruct_objects : RTK unit :=
  st <~ get storage ;;
  ensure (Nat.eqb (length (destruct_list st)) (length (objects st))) ;~
  for_each (fun o =>
    so <~ obj o ;; ensure (negb (destructed so)) ;~ run_fini o ;~ upd_obj o (with_destructed true)) (rev (destruct_list st)).

Definition init_tls_one (tcb : Z) (check_initialized : bool) (o : Z) : RTK unit :=
  so <~ obj o ;;
  if negb (initial_tls_model so) || (check_initialized && tls_initialized so) || (tls_size so =? 0) then rret tt
  else
    let ptr := tcb - tls_offset so in
    cm (rtld_memcpy (Z.to_nat (tls_image_size so)) ptr (tls_image so)) ;~
    cm (rtld_memset (Z.to_nat (tls_size so - tls_image_size so)) (ptr + tls_image_size so) 0) ;~
    upd_obj o (with_tls_initialized true).

Definition init_tls (tcb : Z) (check_initialized : bool) : RTK unit :=
  l <~ get (fun s => objects (storage s)) ;; for_each (init_tls_one tcb check_initialized) l.

Definition unload_objects : RTK unit :=
  l <~ get (fun s => objects (storage s)) ;;
  for_each (fun o =>
    so <~ obj o ;; destroy o ;~
    if rtld_loaded so then rt_munmap (base so) (end_ so - base so) ;~ sys (fun k => (tt, deallocate o k)) else rret tt) l.
End Linker.
