(* ===== verification/LookupFacts.v ===== *)
(** * Symbol resolution: correctness

    [ObjectStorage::lookup] against its order: the objects a lookup considers are a
    list, the answer is the first definition in it that is not weak, or else the
    first weak one; the dependencies of an object are exactly the objects
    reachable from it, each considered once. *)

From stdpp Require Import gmap relations.
From S2P Require Import Prelude CMem Elf ElfFacts Linker.

#[local] Open Scope Z_scope.

(** ** Breadth first *)

(** What [enqueue] appends: the new dependencies, each once. *)
Lemma enqueue_spec ds : forall stack visited stack' visited', enqueue ds stack visited = (stack', visited') ->
  exists new, stack' = stack ++ new /\ NoDup new /\ visited' = visited ∪ list_to_set new /\
    (forall x, x ∈ new -> x ∈ ds /\ x ∉ visited) /\ (forall x, x ∈ ds -> x ∈ visited').
Proof.
  induction ds as [| d ds IH]; intros stack visited stack' visited' E; cbn [enqueue] in E.
  - injection E as <- <-. exists []. rewrite app_nil_r. split_and!; [reflexivity | constructor | set_solver | set_solver | set_solver].
  - destruct (decide (d ∈ visited)) as [I | N].
    + destruct (IH _ _ _ _ E) as (new & -> & ND & -> & A & B). exists new. split_and!; set_solver.
    + destruct (IH _ _ _ _ E) as (new & -> & ND & -> & A & B). exists (d :: new). rewrite <- app_assoc.
      split_and!; [reflexivity | constructor; [set_solver | exact ND] | set_solver | set_solver | set_solver].
Qed.

Section Bfs.
Variable deps : Z -> list Z.

Fixpoint bfs (n : nat) (stack : list Z) (visited : gset Z) : list Z :=
  match n, stack with
  | S n', o :: rest => let '(rest, visited) := enqueue (deps o) rest visited in o :: bfs n' rest visited
  | _, _ => []
  end.

Definition depends (a b : Z) : Prop := b ∈ deps a.

(** The queue is within a finite set closed under dependencies. *)
Variable U : gset Z.
Hypothesis closed : forall o x, o ∈ U -> x ∈ deps o -> x ∈ U.

Record bfs_inv (done stack : list Z) (visited : gset Z) : Prop := {
  bi_nodup : NoDup (done ++ stack);
  bi_visited : visited = list_to_set (done ++ stack);
  bi_within : visited ⊆ U;
  bi_deps : forall o x, o ∈ done -> x ∈ deps o -> x ∈ visited
}.

Lemma bfs_inv_step done o rest visited rest' visited' :
  bfs_inv done (o :: rest) visited -> enqueue (deps o) rest visited = (rest', visited') ->
  bfs_inv (done ++ [o]) rest' visited'.
Proof using closed.
  intros [ND V W D] E. destruct (enqueue_spec _ _ _ _ _ E) as (new & -> & NDn & -> & A & B).
  assert (Ov : o ∈ visited) by (rewrite V; set_solver).
  split.
  - rewrite <- !app_assoc. simpl. rewrite app_comm_cons, app_assoc. apply list.NoDup_app. split_and!; [exact ND | | exact NDn].
    intros x Hx Hn. destruct (A x Hn) as [_ Nv]. apply Nv. rewrite V. set_solver.
  - rewrite V. rewrite <- !app_assoc. simpl. rewrite !list_to_set_app_L. set_solver.
  - intros x Hx. apply elem_of_union in Hx as [Hx | Hx]; [exact (W x Hx) |].
    apply (closed o); [exact (W o Ov) |]. apply A. set_solver.
  - intros p x Hp Hx. apply elem_of_app in Hp as [Hp | Hp].
    + apply elem_of_union_l. exact (D p x Hp Hx).
    + apply list_elem_of_singleton in Hp as ->. exact (B x Hx).
Qed.

Lemma bfs_inv_bound done stack visited : bfs_inv done stack visited -> (length done + length stack <= size U)%nat.
Proof using.
  intros [ND V W _]. rewrite <- length_app, <- (size_list_to_set (C := gset Z)) by exact ND.
  rewrite <- V. apply subseteq_size. exact W.
Qed.

(** With fuel for every object the search ends with the queue empty, having
    considered every object once and all their dependencies. *)
Lemma bfs_ok : forall n done stack visited, bfs_inv done stack visited -> (size U <= n + length done)%nat ->
  exists visited', bfs_inv (done ++ bfs n stack visited) [] visited' /\
    (forall o, o ∈ stack -> o ∈ bfs n stack visited) /\
    (forall o, o ∈ bfs n stack visited -> exists r, r ∈ stack /\ rtc depends r o).
Proof using closed.
  induction n as [| n IH]; intros done stack visited I F; pose proof (bfs_inv_bound _ _ _ I) as B.
  - destruct stack as [| o rest]; [| simpl in B; lia]. exists visited. simpl. rewrite app_nil_r.
    split_and!; [exact I | set_solver | set_solver].
  - destruct stack as [| o rest]; cbn [bfs].
    + exists visited. rewrite app_nil_r. split_and!; [exact I | set_solver | set_solver].
    + destruct (enqueue (deps o) rest visited) as [rest' v'] eqn:E.
      pose proof (bfs_inv_step _ _ _ _ _ _ I E) as I'.
      destruct (enqueue_spec _ _ _ _ _ E) as (new & -> & _ & _ & A & _).
      destruct (IH _ _ _ I') as (v2 & I2 & S2 & R2); [rewrite length_app; simpl; lia |].
      rewrite <- app_assoc in I2. exists v2. split_and!; [exact I2 | |].
      * intros x [-> | Hx]%elem_of_cons; [left | right; apply S2; set_solver].
      * intros x [-> | Hx]%elem_of_cons; [exists o; split; [left | apply rtc_refl] |].
        destruct (R2 x Hx) as (r & Hr & P). apply elem_of_app in Hr as [Hr | Hr]; [exists r; split; [right; exact Hr | exact P] |].
        exists o. split; [left |]. apply rtc_l with r; [exact (proj1 (A r Hr)) | exact P].
Qed.

Lemma bfs_reachable n o : o ∈ U -> (size U <= n)%nat ->
  NoDup (bfs n [o] {[o]}) /\ forall x, x ∈ bfs n [o] {[o]} <-> rtc depends o x.
Proof using closed.
  intros Ho F. destruct (bfs_ok n [] [o] {[o]}) as (v & [ND V W D] & S & R).
  - split; [constructor; [set_solver | constructor] | set_solver | set_solver | set_solver].
  - simpl; lia.
  - simpl in ND, V, D. rewrite app_nil_r in ND, V. split; [exact ND |]. intros x. split.
    + intros Hx. destruct (R x Hx) as (r & Hr & P). apply list_elem_of_singleton in Hr as ->. exact P.
    + intros P. assert (Hs : o ∈ bfs n [o] {[o]}) by (apply S; left). clear -P Hs V D. revert Hs V D. generalize (bfs n [o] {[o]}) as l. intros l Hs V D.
      induction P as [| o y x Py P IH]; [exact Hs |]. apply IH. pose proof (D o y Hs Py) as Hy. rewrite V in Hy. set_solver.
Qed.
End Bfs.

(** ** Lookup *)

Lemma set_memory_same {K} (s : rtld K) : set_memory (memory s) s = s.
Proof. destruct s; reflexivity. Qed.

Lemma find_app {A} (f : A -> bool) l l' :
  List.find f (l ++ l') = match List.find f l with Some x => Some x | None => List.find f l' end.
Proof. induction l as [| x l IH]; simpl; [reflexivity | destruct (f x); [reflexivity | exact IH]]. Qed.

Section Lookup.
Context {K : Type}.
Variables (fuel : nat) (s : rtld K) (nm : Z) (key : list Z).
(** What a lookup in one object finds. *)
Variable d : Z -> option (Z * Elf_Sym).
Hypothesis Hd : forall o, is_Some (heap s !! o) -> defined_sym fuel o nm s = ROk (d o) s.
Hypothesis Hkey : read_cstr fuel nm (memory s) = Ret key (memory s).

Definition bind_of (x : Z * Elf_Sym) : Z := ELF_ST_BIND (st_info (snd x)).
Definition strong (o : Z) : bool := match d o with Some x => negb (bind_of x =? STB_WEAK) | None => false end.
Definition weak_def (o : Z) : option (Z * Z) := match d o with Some x => Some (o, fst x) | None => None end.

(** The first weak definition, unless there is one already. *)
Definition or_weak (res : option (Z * Z)) (order : list Z) : option (Z * Z) :=
  fold_left (fun r o => match r with Some _ => r | None => weak_def o end) order res.

(** A unique symbol is the one that was bound first under its name. *)
Definition bind_strong (o : Z) : rres K ((Z * Z) + option (Z * Z)) :=
  match d o with
  | None => ROk (inr None) s
  | Some x =>
    if bind_of x =? STB_GNU_UNIQUE then
      match unique_map (storage s) !! key with
      | Some e => ROk (inl e) s
      | None => ROk (inl (o, fst x)) (set_storage (with_unique_map (<[key := (o, fst x)]> (unique_map (storage s))) (storage s)) s)
      end
    else ROk (inl (o, fst x)) s
  end.

(** The objects [order], one after the other. *)
Definition consider (res : option (Z * Z)) (order : list Z) : rres K ((Z * Z) + option (Z * Z)) :=
  match List.find strong order with Some o => bind_strong o | None => ROk (inr (or_weak res order)) s end.

Lemma try_object_ok o res : is_Some (heap s !! o) -> try_object fuel o nm res s = consider res [o].
Proof using Hd Hkey.
  intros Ho. unfold try_object, rbind at 1. rewrite (Hd o Ho). unfold consider, or_weak, bind_strong, strong, weak_def, bind_of.
  cbn [List.find fold_left]. destruct (d o) as [[p sym] |] eqn:E; [| destruct res; reflexivity]. cbn [fst snd].
  destruct (Z.eqb_spec (ELF_ST_BIND (st_info sym)) STB_WEAK) as [W | W]; cbn [negb].
  - destruct res; reflexivity.
  - rewrite E. cbn [fst snd]. destruct (_ =? STB_GNU_UNIQUE); [| reflexivity].
    unfold rbind, cm, get. rewrite Hkey, set_memory_same. destruct (_ !! key); reflexivity.
Qed.

(** Considering a list is considering its parts in turn. *)
Lemma consider_app l l' res :
  consider res (l ++ l') = match consider res l with ROk (inr r) _ => consider r l' | x => x end.
Proof using.
  unfold consider. rewrite find_app. destruct (List.find strong l) as [o |] eqn:F.
  - apply find_some in F as [_ F]. unfold strong in F. unfold bind_strong. destruct (d o) as [x |]; [| discriminate].
    destruct (_ =? STB_GNU_UNIQUE); [destruct (_ !! key) |]; reflexivity.
  - unfold or_weak. rewrite fold_left_app. reflexivity.
Qed.

(** Only an answer changes the state. *)
Lemma consider_inr res l r s' : consider res l = ROk (inr r) s' -> s' = s.
Proof using.
  unfold consider. destruct (List.find strong l) as [o |] eqn:F; [| congruence].
  apply find_some in F as [_ F]. unfold strong in F. unfold bind_strong. destruct (d o) as [x |]; [| discriminate].
  destruct (_ =? STB_GNU_UNIQUE); [destruct (_ !! key) |]; discriminate.
Qed.

Lemma scan_ok l local : forall res, (forall o, o ∈ l -> o <> local -> is_Some (heap s !! o)) ->
  scan fuel l local nm res s = consider res (List.filter (fun o => negb (o =? local)) l).
Proof using Hd Hkey.
  induction l as [| o l IH]; intros res H; cbn [scan List.filter]; [reflexivity |].
  destruct (Z.eqb_spec o local) as [E | N]; cbn [negb]; [apply IH; intros; apply H; [right |]; assumption |].
  change (o :: List.filter (fun o => negb (o =? local)) l) with ([o] ++ List.filter (fun o => negb (o =? local)) l).
  rewrite consider_app. unfold rbind. rewrite try_object_ok by (apply H; [left | exact N]).
  destruct (consider res [o]) as [[x | r] s' | | |] eqn:C; try reflexivity.
  apply consider_inr in C as ->. apply IH. intros; apply H; [right |]; assumption.
Qed.

(** The dependencies of a live object. *)
Definition deps_in (o : Z) : list Z := match heap s !! o with Some so => dependencies so | None => [] end.

Lemma search_deps_ok U : (forall o x, o ∈ U -> x ∈ deps_in o -> x ∈ U) -> (forall o, o ∈ U -> is_Some (heap s !! o)) ->
  forall n done stack visited res, bfs_inv deps_in U done stack visited -> (size U <= n + length done)%nat ->
  search_deps fuel n stack visited nm res s = consider res (bfs deps_in n stack visited).
Proof using Hd Hkey.
  intros closed alive. induction n as [| n IH]; intros done stack visited res I F; pose proof (bfs_inv_bound _ _ _ _ _ I) as B.
  - destruct stack; [reflexivity | simpl in B; lia].
  - destruct stack as [| o rest]; [reflexivity |]. cbn [search_deps bfs].
    assert (Ho : o ∈ U) by (apply (bi_within _ _ _ _ _ I); rewrite (bi_visited _ _ _ _ _ I); set_solver).
    destruct (enqueue (deps_in o) rest visited) as [rest' v'] eqn:E.
    pose proof (bfs_inv_step _ _ closed _ _ _ _ _ _ I E) as I'.
    change (o :: bfs deps_in n rest' v') with ([o] ++ bfs deps_in n rest' v'). rewrite consider_app.
    unfold rbind at 1. rewrite try_object_ok by (apply alive; exact Ho).
    destruct (consider res [o]) as [[x | r] s' | | |] eqn:C; try reflexivity. apply consider_inr in C as ->.
    destruct (alive o Ho) as [so Eo]. unfold rbind, obj. rewrite Eo. unfold deps_in in E. rewrite Eo in E. rewrite E.
    apply (IH (done ++ [o])); [exact I' | rewrite length_app; simpl; lia].
Qed.

(** ** The order of a lookup *)

(** [tree] are the object and its dependencies. *)
Definition search_order (local : Z) (policy : LookupPolicy) (tree : list Z) : list Z :=
  let scope := match heap s !! local with Some so => local_scope so | None => [] end in
  if decide (policy = LocalAndDeps) then tree
  else (if negb (local =? 0) && bool_decide (policy = Symbolic) then [local] else []) ++
       List.filter (fun o => negb (o =? local)) (global_scope (storage s)) ++ tree ++ scope.

(** The first definition that is not weak, or else the first weak one. *)
Definition answer (order : list Z) : rres K (option (Z * Z)) :=
  match consider None order with
  | ROk (inl x) s' => ROk (Some x) s'
  | ROk (inr r) s' => ROk r s'
  | RPanic => RPanic | RFault => RFault | RNoFuel => RNoFuel
  end.

(** Every object that a scope or a dependency names is alive. *)
Record scopes_alive (local : Z) : Prop := {
  sa_null : heap s !! 0 = None;
  sa_local : local <> 0 -> is_Some (heap s !! local);
  sa_global : forall o, o ∈ global_scope (storage s) -> is_Some (heap s !! o);
  sa_deps : forall o so x, heap s !! o = Some so -> x ∈ dependencies so -> is_Some (heap s !! x);
  sa_scope : forall o so x, heap s !! o = Some so -> x ∈ local_scope so -> is_Some (heap s !! x)
}.

Lemma deps_closed local : scopes_alive local -> forall o x, o ∈ dom (heap s) -> x ∈ deps_in o -> x ∈ dom (heap s).
Proof using.
  intros A o x Ho Hx. apply elem_of_dom. unfold deps_in in Hx. destruct (heap s !! o) as [so |] eqn:E; [| contradict Hx; apply not_elem_of_nil].
  exact (sa_deps _ A o so x E Hx).
Qed.

Lemma filter_all l : (forall o : Z, o ∈ l -> o <> 0) -> List.filter (fun o => negb (o =? 0)) l = l.
Proof using.
  induction l as [| o l IH]; intros H; simpl; [reflexivity |]. destruct (Z.eqb_spec o 0) as [E | _]; [exfalso; apply (H o); [left | exact E] |].
  simpl. f_equal. apply IH. intros x Hx. apply H. right. exact Hx.
Qed.

(** The search through the dependencies, and what follows when it ends without an answer. *)
Lemma search_then local res k : scopes_alive local -> is_Some (heap s !! local) -> (size (dom (heap s)) <= fuel)%nat ->
  (r <~ search_deps fuel fuel [local] {[local]} nm res ;; or_continue r k)%rt s =
  match consider res (bfs deps_in fuel [local] {[local]}) with
  | ROk (inl x) s' => ROk (Some x) s'
  | ROk (inr r) _ => k r s
  | RPanic => RPanic | RFault => RFault | RNoFuel => RNoFuel
  end.
Proof using Hd Hkey.
  intros A E F. unfold rbind at 1.
  rewrite (search_deps_ok (dom (heap s)) (deps_closed local A)) with (done := []);
    [| intros o; apply elem_of_dom | | simpl; lia].
  2: { split; [constructor; [set_solver | constructor] | set_solver | | set_solver].
       intros x Hx. apply elem_of_singleton in Hx as ->. apply elem_of_dom. eauto. }
  destruct (consider res _) as [[x | r] s' | | |] eqn:C; try reflexivity. apply consider_inr in C as ->. reflexivity.
Qed.

Lemma scan_then l local res k : (forall o, o ∈ l -> o <> local -> is_Some (heap s !! o)) ->
  (r <~ scan fuel l local nm res ;; or_continue r k)%rt s =
  match consider res (List.filter (fun o => negb (o =? local)) l) with
  | ROk (inl x) s' => ROk (Some x) s'
  | ROk (inr r) _ => k r s
  | RPanic => RPanic | RFault => RFault | RNoFuel => RNoFuel
  end.
Proof using Hd Hkey.
  intros A. unfold rbind. rewrite scan_ok by exact A.
  destruct (consider res _) as [[x | r] s' | | |] eqn:C; try reflexivity. apply consider_inr in C as ->. reflexivity.
Qed.

Lemma storage_lookup_ok local policy : scopes_alive local -> (size (dom (heap s)) <= fuel)%nat ->
  storage_lookup fuel local nm policy s =
  answer (search_order local policy (if local =? 0 then [] else bfs deps_in fuel [local] {[local]})).
Proof using Hd Hkey.
  intros A F. unfold storage_lookup, answer, search_order.
  destruct (Z.eqb_spec local 0) as [-> | N].
  - rewrite (sa_null _ A). cbn [negb andb].
    destruct (decide (policy = LocalAndDeps)); [reflexivity |]. unfold rbind at 1, rret at 1. cbn [or_continue app].
    unfold rbind at 1, get. rewrite scan_then by (intros o Ho _; exact (sa_global _ A o Ho)). rewrite app_nil_r.
    destruct (consider None _) as [[x | r] s' | | |] eqn:C; try reflexivity. apply consider_inr in C as ->. reflexivity.
  - pose proof (sa_local _ A N) as Hl. destruct Hl as [so E]. rewrite E. cbn [negb andb].
    destruct (decide (policy = LocalAndDeps)) as [P | P].
    + rewrite search_then by eauto. destruct (consider None _) as [[x | r] s' | | |] eqn:C; try reflexivity.
      apply consider_inr in C as ->. reflexivity.
    + rewrite consider_app.
      set (first := if bool_decide (policy = Symbolic) then try_object fuel local nm None else rret (inr None)).
      assert (H1 : first s = consider None (if bool_decide (policy = Symbolic) then [local] else [])).
      { unfold first. destruct (bool_decide _); [apply try_object_ok; eauto | reflexivity]. }
      unfold rbind at 1. rewrite H1. destruct (consider None (if bool_decide (policy = Symbolic) then [local] else [])) as [[x | r] s' | | |] eqn:C; try reflexivity.
      apply consider_inr in C as ->. cbn [or_continue]. unfold rbind at 1, get at 1.
      rewrite scan_then by (intros o Ho _; exact (sa_global _ A o Ho)). rewrite consider_app.
      destruct (consider r _) as [[x | r'] s' | | |] eqn:C; try reflexivity. apply consider_inr in C as ->.
      rewrite search_then by eauto. rewrite consider_app.
      destruct (consider r' _) as [[x | r2] s' | | |] eqn:C; try reflexivity. apply consider_inr in C as ->.
      unfold rbind at 1, obj. rewrite E. rewrite scan_then by (intros o Ho _; exact (sa_scope _ A local so o E Ho)).
      rewrite filter_all.
      * destruct (consider r2 _) as [[x | r3] s' | | |] eqn:C; try reflexivity. apply consider_inr in C as ->. reflexivity.
      * intros o Ho ->. pose proof (sa_scope _ A local so 0 E Ho) as X. rewrite (sa_null _ A) in X. destruct X; discriminate.
Qed.
End Lookup.

Section SymbolResolution.
Context {K : Type}.

Lemma rbind_ok {A B} (c : RT K A) (f : A -> RT K B) s a s' : c s = ROk a s' -> rbind c f s = f a s'.
Proof using. intros E. unfold rbind. rewrite E. reflexivity. Qed.

Lemma cm_read {A} (c : CM A) (s : rtld K) a : c (memory s) = Ret a (memory s) -> cm c s = ROk a s.
Proof using. intros E. unfold cm. rewrite E. f_equal. apply set_memory_same. Qed.

(** A well-formed table gives what the lookup in one object finds: a symbol of that
    name, if it is defined and not local. *)
Lemma defined_sym_ok fuel (s : rtld K) o (so : SharedObject) first names syms nm key :
  heap s !! o = Some so -> symbol_table (memory s) so first names -> cstr (memory s) nm key ->
  (length key < fuel)%nat -> (length names < fuel)%nat -> 0 < symtab so -> 0 <= first ->
  (forall j n, names !! j = Some n -> read_sym (symtab so + sizeof_Elf_Sym * (first + Z.of_nat j)) (memory s) = Ret (syms j) (memory s)) ->
  (key ∉ names /\ defined_sym fuel o nm s = ROk None s) \/
  exists j, names !! j = Some key /\
    defined_sym fuel o nm s = ROk (if negb (st_shndx (syms j) =? SHN_UNDEF) && negb (ELF_ST_BIND (st_info (syms j)) =? STB_LOCAL)
      then Some (symtab so + sizeof_Elf_Sym * (first + Z.of_nat j), syms j) else None) s.
Proof using.
  intros E T C F1 F2 P1 P2 R. unfold defined_sym.
  assert (Eo : obj o s = ROk so s) by (unfold obj; rewrite E; reflexivity). rewrite (rbind_ok _ _ _ _ _ Eo).
  destruct (object_lookup_ok (memory s) so first names fuel nm key T C F1 F2) as [(j & Ej & L) | (N & L)];
    rewrite (rbind_ok _ _ _ _ _ (cm_read _ s _ L)).
  - right. exists j. split; [exact Ej |].
    destruct (Z.eqb_spec (symtab so + sizeof_Elf_Sym * (first + Z.of_nat j)) 0) as [X | _]; [unfold sizeof_Elf_Sym in X; lia |].
    rewrite (rbind_ok _ _ _ _ _ (cm_read _ s _ (R j key Ej))). destruct (_ && _); reflexivity.
  - left. split; [exact N | reflexivity].
Qed.

(** C9: [ObjectStorage::lookup] considers the object itself first under [Symbolic], then
    the global scope without it, then the object with everything reachable from it
    through dependencies (each once), then its local scope ([LocalAndDeps]: only
    the dependencies); it returns the first definition in that order that is not
    weak, the first weak one if all are weak, and nothing if there is none; a
    unique symbol is bound to the first definition ever found under its name. *)
Theorem symbol_resolution_correct fuel (s : rtld K) nm key d local policy :
  (forall o, is_Some (heap s !! o) -> defined_sym fuel o nm s = ROk (d o) s) ->
  read_cstr fuel nm (memory s) = Ret key (memory s) ->
  scopes_alive s local -> (size (dom (heap s)) <= fuel)%nat ->
  exists tree, NoDup tree /\ (local = 0 -> tree = []) /\
    (local <> 0 -> forall o, o ∈ tree <-> rtc (depends (deps_in s)) local o) /\
    storage_lookup fuel local nm policy s = answer s key d (search_order s local policy tree).
Proof using.
  intros Hd Hk A F. exists (if local =? 0 then [] else bfs (deps_in s) fuel [local] {[local]}).
  destruct (Z.eqb_spec local 0) as [-> | N].
  - split_and!; [constructor | reflexivity | contradiction | exact (storage_lookup_ok fuel s nm key d Hd Hk 0 policy A F)].
  - destruct (bfs_reachable (deps_in s) (dom (heap s)) (deps_closed s local A) fuel local) as [ND R]; [apply elem_of_dom, A, N | exact F |].
    split_and!; [exact ND | contradiction | intros _; exact R |].
    rewrite (storage_lookup_ok fuel s nm key d Hd Hk local policy A F). destruct (Z.eqb_spec local 0); [contradiction | reflexivity].
Qed.
End SymbolResolution.

(** Two objects: "ab" is weak in the first and global in the second, which the first
    depends on. *)
Definition with_symtab (p : Z) (i : Image) : Image :=
  {| tls_size := tls_size i; tls_align := tls_align i; tls_image := tls_image i; tls_image_size := tls_image_size i;
     num_symbols := num_symbols i; name := name i; path := path i; run_paths := run_paths i; phdrs_vec := phdrs_vec i;
     base := base i; end_ := end_ i; dynamic := dynamic i; hashtab := hashtab i; gnutab := gnutab i; strtab := strtab i;
     symtab := p; init := init i; fini := fini i; preinit_array := preinit_array i; preinit_array_end := preinit_array_end i;
     init_array := init_array i; init_array_end := init_array_end i; fini_array := fini_array i;
     fini_array_end := fini_array_end i; symbolic_resolution := symbolic_resolution i; static_tls := static_tls i |}.

Definition two_mem : mem :=
  mem_of 0x2100 (concat (map (fun p => le_bytes 24 (fst p + snd p * 2 ^ 32 + 2 ^ 48)) [(0, 0); (1, 0x20); (4, 0x10)])) ∪
  mem_of 0x2200 (concat (map (fun p => le_bytes 24 (fst p + snd p * 2 ^ 32 + 2 ^ 48)) [(0, 0); (1, 0x10); (4, 0x10)])) ∪ small_mem.

Definition two_objects : rtld unit :=
  Rtld two_mem
    (<[100 := with_dependencies [200] (new_object (with_symtab 0x2100 (small_object 0 0x1000)))]>
      (<[200 := with_dependencies [100] (new_object (with_symtab 0x2200 (small_object 0 0x1000)))]> ∅))
    (Storage [100; 200] [] ∅ [] [] 0 0 []) [] 0 0 Consistent None [] None [] tt.

Definition two_defs (o : Z) : option (Z * Elf_Sym) :=
  Some (if o =? 100
        then (0x2118, {| st_name := 1; st_info := 0x20; st_other := 0; st_shndx := 1; st_value := 0; st_size := 0 |})
        else (0x2218, {| st_name := 1; st_info := 0x10; st_other := 0; st_shndx := 1; st_value := 0; st_size := 0 |})).

Lemma two_alive o : is_Some (heap two_objects !! o) -> o = 100 \/ o = 200.
Proof.
  intros [so E]. unfold two_objects, heap in E. destruct (decide (o = 100)) as [-> | N]; [auto |].
  rewrite lookup_insert_ne in E by congruence. destruct (decide (o = 200)) as [-> | N']; [auto |].
  rewrite lookup_insert_ne in E by congruence. rewrite lookup_empty in E. discriminate.
Qed.

(** The strong definition of the dependency wins over the weak one of the object. *)
Lemma symbol_resolution_correct_witness :
  (exists tree, NoDup tree /\ (100 = 0 -> tree = []) /\
    (100 <> 0 -> forall o, o ∈ tree <-> rtc (depends (deps_in two_objects)) 100 o) /\
    storage_lookup 5 100 0x3001 LocalAndDeps two_objects =
      answer two_objects [97; 98] two_defs (search_order two_objects 100 LocalAndDeps tree)) /\
  storage_lookup 5 100 0x3001 LocalAndDeps two_objects = ROk (Some (200, 0x2218)) two_objects.
Proof.
  split; [| vm_compute; reflexivity].
  apply (symbol_resolution_correct 5 two_objects 0x3001 [97; 98] two_defs 100 LocalAndDeps).
  - intros o Ho. apply two_alive in Ho as [-> | ->]; vm_compute; reflexivity.
  - vm_compute. reflexivity.
  - constructor.
    + reflexivity.
    + intros _. vm_compute. eauto.
    + intros o Ho. contradict Ho. apply not_elem_of_nil.
    + intros o so x E Hx. destruct (two_alive o ltac:(eauto)) as [-> | ->];
        vm_compute in E; injection E as <-; vm_compute in Hx; apply list_elem_of_singleton in Hx as ->; vm_compute; eauto.
    + intros o so x E Hx. destruct (two_alive o ltac:(eauto)) as [-> | ->];
        vm_compute in E; injection E as <-; contradict Hx; apply not_elem_of_nil.
  - vm_compute. lia.
Defined.
