(* ===== verification/InitFacts.v ===== *)
(** * Constructors and destructors of objects

    The calls that [ObjectStorage::init_objects] makes for every object of the list,
    from the back to the front, and that [destruct_objects] makes in the opposite
    order. *)

From stdpp Require Import gmap.
From S2P Require Import Prelude CMem Elf ElfFacts Linker LookupFacts.

#[local] Open Scope Z_scope.
#[local] Open Scope rt_scope.

Lemma load_le_same m m' n : forall p v, (forall a, p <= a < p + Z.of_nat n -> m' !! a = m !! a) ->
  load_le n p m = Ret v m -> load_le n p m' = Ret v m'.
Proof.
  induction n as [| n IH]; intros p v S E; cbn [load_le] in *; [injection E as ->; reflexivity |].
  destruct (m !! p) as [b |] eqn:Eb; [| unfold cbind, load8 in E; rewrite Eb in E; discriminate].
  rewrite (cbind_ret _ _ _ _ _ (load8_ok m p b Eb)) in E. rewrite (cbind_ret _ _ _ _ _ (load8_ok m' p b ltac:(rewrite S by lia; exact Eb))).
  unfold cbind in *. destruct (load_le n (p + 1) m) as [w m1 | |] eqn:Ew; try discriminate.
  injection E as <- ->. rewrite (IH (p + 1) w); [reflexivity | intros a Ha; apply S; lia | exact Ew].
Qed.

Lemma rbind_seq {K A B C} (c : RT K A) (c' : RT K B) (f : B -> RT K C) s b s' :
  (c ;~ c') s = ROk b s' -> (c ;~ x <~ c' ;; f x) s = f b s'.
Proof. unfold rbind. destruct (c s) as [a s1 | | |]; try discriminate. intros ->. reflexivity. Qed.

Lemma rbind_assoc {K A B C} (c : RT K A) (f : A -> RT K B) (g : B -> RT K C) s :
  (y <~ (x <~ c ;; f x) ;; g y) s = (x <~ c ;; y <~ f x ;; g y) s.
Proof. unfold rbind. destruct (c s); reflexivity. Qed.

Section Init.
Context {K : Type} {LS : LinkSys K}.
Variable fuel : nat.
(** The bytes that the code of the images leaves alone: those of the arrays. *)
Variable fixed : Z -> Prop.
Hypothesis foreign : forall f m k a, fixed a -> (call_fn f m k).1.2 !! a = m !! a.

(** Exactly the functions [fs] were called; nothing else but memory and kernel changed,
    and of the memory no fixed byte. *)
Definition ran (fs : list Z) (s s' : rtld K) : Prop :=
  exists m k, s' = set_calls (calls s ++ map Called fs) (set_kernel k (set_memory m s)) /\
    forall a, fixed a -> m !! a = memory s !! a.

Lemma ran_refl s : ran [] s s.
Proof using. exists (memory s), (kernel s). split; [destruct s; simpl; rewrite app_nil_r; reflexivity | auto]. Qed.

Lemma ran_trans fs1 fs2 s1 s2 s3 : ran fs1 s1 s2 -> ran fs2 s2 s3 -> ran (fs1 ++ fs2) s1 s3.
Proof using.
  intros (m & k & -> & A) (m' & k' & -> & B). exists m', k'.
  split; [destruct s1; simpl; rewrite map_app, app_assoc; reflexivity |].
  intros a Ha. rewrite (B a Ha). destruct s1; exact (A a Ha).
Qed.

(** The functions whose addresses stand at [p]. *)
Definition array_at (m : mem) (p : Z) (fs : list Z) : Prop :=
  (forall i f, fs !! i = Some f -> load64 (p + 8 * Z.of_nat i) m = Ret f m) /\
    (forall a, p <= a < p + 8 * Z.of_nat (length fs) -> fixed a).

Lemma array_same m m' p fs : (forall a, fixed a -> m' !! a = m !! a) -> array_at m p fs -> array_at m' p fs.
Proof using.
  intros S [L Fx]. split; [| exact Fx]. intros i f E. pose proof (lookup_lt_Some _ _ _ E).
  apply (load_le_same m m' 8); [| exact (L i f E)]. intros a Ha. apply S, Fx. lia.
Qed.

Lemma ran_array gs s s' p fs : ran gs s s' -> array_at (memory s) p fs -> array_at (memory s') p fs.
Proof using. intros (m & k & -> & A). destruct s. exact (array_same _ _ p fs A). Qed.

Lemma array_tail m p f fs : array_at m p (f :: fs) -> array_at m (p + 8) fs.
Proof using.
  intros [L Fx]. split.
  - intros i g E. specialize (L (S i) g E). replace (p + 8 + 8 * Z.of_nat i) with (p + 8 * Z.of_nat (S i)) by lia. exact L.
  - intros a Ha. apply Fx. simpl length. lia.
Qed.

Lemma array_front m p fs f : array_at m p (fs ++ [f]) -> array_at m p fs /\ load64 (p + 8 * Z.of_nat (length fs)) m = Ret f m.
Proof using.
  intros [L Fx]. rewrite length_app in Fx. split; [split |].
  - intros i g E. apply L. apply lookup_app_l_Some. exact E.
  - intros a Ha. apply Fx. simpl length. lia.
  - apply L. apply list_lookup_middle. reflexivity.
Qed.

Lemma rt_call_ran f s : exists r s', rt_call f s = ROk r s' /\ ran [f] s s'.
Proof using foreign.
  unfold rt_call. pose proof (foreign f (memory s) (kernel s)) as H.
  destruct (call_fn f (memory s) (kernel s)) as [[r m] k]. exists r. eexists. split; [reflexivity |]. exists m, k. auto.
Qed.

(** The loop over [init_array] calls its entries in order. *)
Lemma run_array_ran fs : forall fu fn s, (length fs < fu)%nat -> array_at (memory s) fn fs ->
  exists s', run_array fu fn (fn + 8 * Z.of_nat (length fs)) s = ROk tt s' /\ ran fs s s'.
Proof using foreign.
  induction fs as [| f fs IH]; intros fu fn s F A; (destruct fu as [| fu]; [simpl in F; lia |]); cbn [run_array length].
  - rewrite Z.add_0_r, Z.eqb_refl. exists s. split; [reflexivity | apply ran_refl].
  - destruct (Z.eqb_spec fn (fn + 8 * Z.of_nat (S (length fs)))); [lia |].
    pose proof (proj1 A 0%nat f eq_refl) as E. rewrite Z.mul_0_r, Z.add_0_r in E.
    rewrite (rbind_ok _ _ _ _ _ (cm_read _ s _ E)). destruct (rt_call_ran f s) as (r & s1 & Er & R1).
    rewrite (rbind_ok _ _ _ _ _ Er). replace (fn + 8 * Z.of_nat (S (length fs))) with (fn + 8 + 8 * Z.of_nat (length fs)) by lia.
    destruct (IH fu (fn + 8) s1) as (s2 & E2 & R2); [simpl in F; lia | exact (ran_array _ s s1 _ _ R1 (array_tail _ _ _ _ A)) |].
    exists s2. split; [exact E2 | exact (ran_trans [f] fs _ _ _ R1 R2)].
Qed.

(** The loop over [fini_array] calls its entries from the last to the first. *)
Lemma run_array_down_ran fs : forall array s, array_at (memory s) array fs ->
  exists s', run_array_down (length fs) array s = ROk tt s' /\ ran (rev fs) s s'.
Proof using foreign.
  induction fs as [| f fs IH] using rev_ind; intros array s A.
  - exists s. split; [reflexivity | apply ran_refl].
  - rewrite length_app, Nat.add_comm. cbn [length Nat.add run_array_down]. destruct (array_front _ _ _ _ A) as [A' E].
    rewrite (rbind_ok _ _ _ _ _ (cm_read _ s _ E)). destruct (rt_call_ran f s) as (r & s1 & Er & R1).
    rewrite (rbind_ok _ _ _ _ _ Er). destruct (IH array s1) as (s2 & E2 & R2); [exact (ran_array _ s s1 _ _ R1 A') |].
    exists s2. split; [exact E2 |]. rewrite rev_app_distr. exact (ran_trans [f] _ _ _ _ R1 R2).
Qed.

(** The functions of an object, [inits] its constructors and [finis] its destructors as
    the two arrays hold them. *)
Record arrays_ok (m : mem) (so : Image) (inits finis : list Z) : Prop := {
  ao_init : init_array_end so = init_array so + 8 * Z.of_nat (length inits) /\ (length inits < fuel)%nat /\ array_at m (init_array so) inits;
  ao_fini : fini_array_end so = fini_array so + 8 * Z.of_nat (length finis) /\ Z.of_nat (length finis) < 2 ^ 64 /\
    array_at m (fini_array so) finis
}.

Lemma arrays_same m m' so ls fs : (forall a, fixed a -> m' !! a = m !! a) -> arrays_ok m so ls fs -> arrays_ok m' so ls fs.
Proof using. intros S [(E & F & A) (E' & F' & A')]. split; split_and!; eauto using array_same. Qed.

(** A function pointer that may be null. *)
Definition optional (f : Z) : list Z := if f =? 0 then [] else [f].

Lemma run_optional f s : exists s', (if negb (f =? 0) then rt_call f ;~ rret tt else rret tt) s = ROk tt s' /\ ran (optional f) s s'.
Proof using foreign.
  unfold optional. destruct (f =? 0); cbn [negb]; [exists s; split; [reflexivity | apply ran_refl] |].
  destruct (rt_call_ran f s) as (r & s' & Er & R). rewrite (rbind_ok _ _ _ _ _ Er). exists s'. split; [reflexivity | exact R].
Qed.

Lemma obj_ok (o : Z) (s : rtld K) (so : SharedObject) : heap s !! o = Some so -> obj o s = ROk so s.
Proof using. intros E. unfold obj. rewrite E. reflexivity. Qed.

Lemma run_init_ok o (so : SharedObject) ls fs s : heap s !! o = Some so -> arrays_ok (memory s) so ls fs ->
  exists s', run_init fuel o s = ROk tt s' /\ ran (optional (init so) ++ ls) s s'.
Proof using foreign.
  intros E [(En & F & A) _]. unfold run_init. rewrite (rbind_ok _ _ _ _ _ (obj_ok o s so E)).
  destruct (run_optional (init so) s) as (s2 & E2 & R2). rewrite (rbind_ok _ _ _ _ _ E2), En.
  destruct (run_array_ran ls fuel (init_array so) s2 F (ran_array _ s s2 _ _ R2 A)) as (s3 & E3 & R3).
  exists s3. split; [exact E3 | exact (ran_trans _ _ _ _ _ R2 R3)].
Qed.

Lemma run_fini_ok o (so : SharedObject) ls fs s : heap s !! o = Some so -> destructed so = false -> arrays_ok (memory s) so ls fs ->
  exists s', run_fini o s = ROk tt (set_heap (<[o := with_destructed true so]> (heap s)) s') /\
    ran (rev fs ++ optional (fini so)) s s'.
Proof using foreign.
  intros E D [_ (En & F & A)]. unfold run_fini. rewrite (rbind_ok _ _ _ _ _ (obj_ok o s so E)), D.
  replace (Z.to_nat (u64 (Z.quot (fini_array_end so - fini_array so) 8))) with (length fs).
  2: { rewrite En. replace (fini_array so + 8 * Z.of_nat (length fs) - fini_array so) with (Z.of_nat (length fs) * 8) by lia.
       rewrite Z.quot_mul by lia. rewrite wrapu_small by (unfold is_u; lia). lia. }
  destruct (run_array_down_ran fs (fini_array so) s A) as (s2 & E2 & R2).
  rewrite (rbind_ok _ _ _ _ _ E2). destruct (run_optional (fini so) s2) as (s3 & E3 & R3).
  rewrite (rbind_ok _ _ _ _ _ E3). pose proof (ran_trans _ _ _ _ _ R2 R3) as R. exists s3. split; [| exact R].
  assert (H3 : heap s3 = heap s) by (destruct R as (m & k & -> & _), s; reflexivity).
  unfold upd_obj. rewrite H3, E. reflexivity.
Qed.

(** ** Lists of objects *)

Variable objs : Z -> SharedObject.
(** What the arrays of each object hold. *)
Variables inits finis : Z -> list Z.

(** The objects of [l] are alive and as [f] describes. *)
Definition alive_as (s : rtld K) (f : Z -> SharedObject) (l : list Z) : Prop :=
  forall o, o ∈ l -> heap s !! o = Some (f o) /\ arrays_ok (memory s) (f o) (inits o) (finis o).

(** The calls for one object: the constructors, behind the registration of the exit
    handler for the executable, and the destructors. *)
Definition init_events (o : Z) : list event :=
  (if executable (objs o) then [AtExit] else []) ++ map Called (optional (init (objs o)) ++ inits o).
Definition fini_events (o : Z) : list event := map Called (rev (finis o) ++ optional (fini (objs o))).

(** What the constructors of [l] leave behind: the state [s'] after [s]. *)
Record inited (l : list Z) (s s' : rtld K) : Prop := {
  in_heap : forall o, heap s' !! o = if decide (o ∈ l) then Some (with_initialized true (objs o)) else heap s !! o;
  in_storage : storage s' = with_destruct_list (destruct_list (storage s) ++ l) (storage s);
  in_calls : calls s' = calls s ++ concat (map init_events l);
  in_memory : forall a, fixed a -> memory s' !! a = memory s !! a
}.

Lemma init_one_ok o s : heap s !! o = Some (objs o) -> initialized (objs o) = false ->
  arrays_ok (memory s) (objs o) (inits o) (finis o) ->
  exists s', init_one fuel o s = ROk tt s' /\ inited [o] s s'.
Proof using foreign.
  intros E I A. unfold init_one. rewrite (rbind_ok _ _ _ _ _ (obj_ok o s _ E)), I.
  set (s1 := set_storage (with_destruct_list (destruct_list (storage s) ++ [o]) (storage s))
    (set_calls (calls s ++ (if executable (objs o) then [AtExit] else [])) s)).
  assert (E1 : ((if executable (objs o) then put (fun s => set_calls (calls s ++ [AtExit]) s) else rret tt) ;~
    upd_storage (fun st => with_destruct_list (destruct_list st ++ [o]) st)) s = ROk tt s1).
  { unfold s1. destruct (executable (objs o)); unfold rbind, put, upd_storage, rret; destruct s; simpl; rewrite ?app_nil_r; reflexivity. }
  destruct (run_init_ok o (objs o) (inits o) (finis o) s1) as (s2 & E2 & m & k & R & A2);
    [unfold s1; destruct s; exact E | unfold s1; destruct s; exact A |].
  exists (set_heap (<[o := with_initialized true (objs o)]> (heap s2)) s2). split.
  - rewrite (rbind_seq _ _ _ _ _ _ E1), (rbind_ok _ _ _ _ _ E2). unfold upd_obj.
    assert (heap s2 !! o = Some (objs o)) as -> by (rewrite R; unfold s1; destruct s; exact E). reflexivity.
  - assert (H2 : heap s2 = heap s) by (rewrite R; unfold s1; destruct s; reflexivity). split.
    + intros x. change (heap (set_heap ?h _)) with h. rewrite H2. destruct (decide (x ∈ [o])) as [Hx | Hx].
      * apply list_elem_of_singleton in Hx as ->. apply lookup_insert_eq.
      * apply lookup_insert_ne. set_solver.
    + rewrite R. unfold s1. destruct s; reflexivity.
    + rewrite R. unfold s1, init_events. destruct s; simpl. rewrite app_nil_r, <- app_assoc. reflexivity.
    + intros a Ha. rewrite R. unfold s1 in A2 |- *. destruct s; exact (A2 a Ha).
Qed.

Lemma init_all_ok l : forall s, NoDup l -> alive_as s objs l -> (forall o, o ∈ l -> initialized (objs o) = false) ->
  exists s', for_each (init_one fuel) l s = ROk tt s' /\ inited l s s'.
Proof using foreign.
  induction l as [| o l IH]; intros s ND A I; cbn [for_each].
  - exists s. split; [reflexivity |]. split; [reflexivity | destruct s as [? ? []]; simpl; rewrite app_nil_r; reflexivity | simpl; rewrite app_nil_r; reflexivity | auto].
  - apply list.NoDup_cons in ND as [No ND]. destruct (A o ltac:(left)) as [Eo Ao].
    destruct (init_one_ok o s Eo (I o ltac:(left)) Ao) as (s1 & E1 & [H1 S1 C1 M1]). rewrite (rbind_ok _ _ _ _ _ E1).
    destruct (IH s1 ND) as (s2 & E2 & [H2 S2 C2 M2]).
    + intros x Hx. destruct (A x ltac:(right; exact Hx)) as [Ex Ax]. split.
      * rewrite H1. rewrite decide_False; [exact Ex |]. set_solver.
      * exact (arrays_same _ _ _ _ _ M1 Ax).
    + intros x Hx. apply I. right. exact Hx.
    + exists s2. split; [exact E2 |]. split.
      * intros x. rewrite H2, H1. destruct (decide (x ∈ l)) as [L | L], (decide (x ∈ [o])) as [L' | L'], (decide (x ∈ o :: l)) as [L2 | L2]; try reflexivity; clear -L L' L2; set_solver.
      * rewrite S2, S1. destruct (storage s); simpl. rewrite <- app_assoc. reflexivity.
      * rewrite C2, C1. simpl. rewrite app_nil_r, <- app_assoc. reflexivity.
      * intros a Ha. rewrite (M2 a Ha). exact (M1 a Ha).
Qed.

Definition destruct_one (o : Z) : RT K unit :=
  so <~ obj o ;; ensure (negb (destructed so)) ;~ run_fini o ;~ upd_obj o (with_destructed true).

(** The destructors of [l]. *)
Record finished (f : Z -> SharedObject) (l : list Z) (s s' : rtld K) : Prop := {
  fi_heap : forall o, heap s' !! o = if decide (o ∈ l) then Some (with_destructed true (f o)) else heap s !! o;
  fi_storage : storage s' = storage s;
  fi_calls : calls s' = calls s ++ concat (map fini_events l);
  fi_memory : forall a, fixed a -> memory s' !! a = memory s !! a
}.

Lemma destruct_one_ok f o s : heap s !! o = Some (f o) -> image (f o) = image (objs o) -> destructed (f o) = false ->
  arrays_ok (memory s) (f o) (inits o) (finis o) ->
  exists s', destruct_one o s = ROk tt s' /\ finished f [o] s s'.
Proof using foreign.
  intros E Im D A. unfold destruct_one. rewrite (rbind_ok _ _ _ _ _ (obj_ok o s _ E)), D. unfold rbind at 1, ensure. cbn [negb].
  destruct (run_fini_ok o (f o) (inits o) (finis o) s E D A) as (s1 & E1 & m & k & R & A1). rewrite (rbind_ok _ _ _ _ _ E1).
  unfold upd_obj. change (heap (set_heap ?h _)) with h. rewrite lookup_insert_eq. eexists. split; [reflexivity |]. split.
  - intros x. change (heap (set_heap ?h _)) with h. rewrite insert_insert_eq. destruct (decide (x ∈ [o])) as [Hx | Hx].
    + apply list_elem_of_singleton in Hx as ->. rewrite lookup_insert_eq. destruct (f o); reflexivity.
    + apply lookup_insert_ne. intros <-. apply Hx. left.
  - rewrite R. destruct s; reflexivity.
  - rewrite R. unfold fini_events. rewrite Im. destruct s; simpl. rewrite app_nil_r. reflexivity.
  - intros a Ha. rewrite R. destruct s; exact (A1 a Ha).
Qed.

Lemma destruct_all_ok f l : (forall o, image (f o) = image (objs o)) ->
  forall s, NoDup l -> alive_as s f l -> (forall o, o ∈ l -> destructed (f o) = false) ->
  exists s', for_each destruct_one l s = ROk tt s' /\ finished f l s s'.
Proof using foreign.
  intros Im. induction l as [| o l IH]; intros s ND A I; cbn [for_each].
  - exists s. split; [reflexivity |]. split; [reflexivity | reflexivity | simpl; rewrite app_nil_r; reflexivity | auto].
  - apply list.NoDup_cons in ND as [No ND]. destruct (A o ltac:(left)) as [Eo Ao].
    destruct (destruct_one_ok f o s Eo (Im o) (I o ltac:(left)) Ao) as (s1 & E1 & [H1 S1 C1 M1]). rewrite (rbind_ok _ _ _ _ _ E1).
    destruct (IH s1 ND) as (s2 & E2 & [H2 S2 C2 M2]).
    + intros x Hx. destruct (A x ltac:(right; exact Hx)) as [Ex Ax]. split.
      * rewrite H1. rewrite decide_False; [exact Ex |]. clear -No Hx. set_solver.
      * exact (arrays_same _ _ _ _ _ M1 Ax).
    + intros x Hx. apply I. right. exact Hx.
    + exists s2. split; [exact E2 |]. split.
      * intros x. rewrite H2, H1. destruct (decide (x ∈ l)) as [L | L], (decide (x ∈ [o])) as [L' | L'], (decide (x ∈ o :: l)) as [L2 | L2]; try reflexivity; clear -L L' L2; set_solver.
      * congruence.
      * rewrite C2, C1. simpl. rewrite app_nil_r, <- app_assoc. reflexivity.
      * intros a Ha. rewrite (M2 a Ha). exact (M1 a Ha).
Qed.

(** The objects after [init_objects]. *)
Definition after_init (l : list Z) (o : Z) : SharedObject :=
  if decide (o ∈ l) then with_initialized true (objs o) else objs o.

Lemma init_fini_ok (s : rtld K) :
  let l := init_list (storage s) in let D := destruct_list (storage s) in
  NoDup (l ++ D) -> alive_as s objs (l ++ D) -> (forall o, o ∈ l -> initialized (objs o) = false) ->
  (forall o, o ∈ l ++ D -> destructed (objs o) = false) -> length (objects (storage s)) = length (l ++ D) ->
  exists s', (init_objects fuel ;~ destruct_objects) s = ROk tt s' /\
    calls s' = calls s ++ concat (map init_events (rev l)) ++ concat (map fini_events (l ++ rev D)) /\
    init_list (storage s') = [] /\ forall o, o ∈ l ++ D -> heap s' !! o = Some (with_destructed true (after_init l o)).
Proof using foreign.
  intros l D ND A I De Ln. unfold init_objects. rewrite rbind_assoc. unfold rbind at 1, get.
  assert (Rl : forall o, o ∈ rev l <-> o ∈ l) by (intros o; rewrite !list_elem_of_In; symmetry; apply in_rev).
  destruct (init_all_ok (rev l) s) as (s1 & E1 & [H1 S1 C1 M1]).
  - apply list.NoDup_app in ND as [ND _]. rewrite NoDup_ListNoDup in *. apply NoDup_rev. exact ND.
  - intros o Ho. apply A. apply elem_of_app. left. apply Rl. exact Ho.
  - intros o Ho. apply I, Rl, Ho.
  - rewrite rbind_assoc. fold l. rewrite (rbind_ok _ _ _ _ _ E1). unfold rbind at 1, upd_storage, put.
    set (s2 := set_storage (with_init_list [] (storage s1)) s1).
    unfold destruct_objects. unfold rbind at 1, get. unfold rbind at 1, ensure.
    assert (Ed : destruct_list (storage s2) = D ++ rev l) by (unfold s2; simpl; rewrite S1; reflexivity).
    assert (Eb : objects (storage s2) = objects (storage s)) by (unfold s2; simpl; rewrite S1; reflexivity).
    rewrite Ed, Eb, Ln, !length_app, length_rev, Nat.add_comm, Nat.eqb_refl.
    replace (rev (D ++ rev l)) with (l ++ rev D) by (rewrite rev_app_distr, rev_involutive; reflexivity).
    assert (Im : forall o, image (after_init l o) = image (objs o)) by (intros o; unfold after_init; destruct (decide _); reflexivity).
    destruct (destruct_all_ok (after_init l) (l ++ rev D) Im s2) as (s3 & E3 & [H3 S3 C3 M3]).
    + rewrite NoDup_ListNoDup in *. apply (Permutation_NoDup (l := l ++ D)); [| exact ND]. apply Permutation_app_head, Permutation_rev.
    + assert (Rd : forall o, o ∈ l ++ rev D -> o ∈ l ++ D) by (intros o; rewrite !elem_of_app, !list_elem_of_In, <- (in_rev D); tauto).
      intros o Ho. destruct (A o (Rd o Ho)) as [Eo Ao]. split.
      * change (heap s2) with (heap s1). rewrite H1. unfold after_init.
        destruct (decide (o ∈ rev l)) as [X | X], (decide (o ∈ l)) as [Y | Y]; try reflexivity; try exact Eo; exfalso; apply Rl in X || apply Rl in Y; contradiction.
      * rewrite Im. exact (arrays_same _ _ _ _ _ M1 Ao).
    + intros o Ho. assert (o ∈ l ++ D) by (revert Ho; rewrite !elem_of_app, !list_elem_of_In, <- (in_rev D); tauto).
      unfold after_init. destruct (decide _); apply De; assumption.
    + exists s3. split; [exact E3 |]. split_and!.
      * rewrite C3. change (calls s2) with (calls s1). rewrite C1, <- app_assoc. reflexivity.
      * rewrite S3. reflexivity.
      * intros o Ho. rewrite H3. rewrite decide_True; [reflexivity |]. revert Ho. rewrite !elem_of_app, !list_elem_of_In, <- (in_rev D). tauto.
Qed.
End Init.

(** The bytes of the two arrays of the objects of [l]. *)
Definition array_bytes (objs : Z -> SharedObject) (l : list Z) (a : Z) : Prop :=
  exists o, o ∈ l /\ (init_array (objs o) <= a < init_array_end (objs o) \/ fini_array (objs o) <= a < fini_array_end (objs o)).

(** C12: what is called when the objects of [init_list] are initialised and everything is
    destroyed at exit.  Where the code of the images does not write to the arrays of
    functions, both return, and the trace of the calls is: for the objects from the
    back of the list to its front, the [init] function and then the entries of
    [init_array] in order (after the exit handler is registered, for the
    executable); then for the objects in the opposite order, objects initialised
    earlier last, the entries of [fini_array] from the last to the first and then the
    [fini] function.  So every constructor and every destructor runs exactly once. *)
Theorem init_fini_order {K} {LS : LinkSys K} fuel (objs : Z -> SharedObject) (inits finis : Z -> list Z) (s : rtld K) :
  let l := init_list (storage s) in let D := destruct_list (storage s) in
  (forall f m k a, array_bytes objs (l ++ D) a -> (call_fn f m k).1.2 !! a = m !! a) ->
  NoDup (l ++ D) -> alive_as fuel (array_bytes objs (l ++ D)) inits finis s objs (l ++ D) ->
  (forall o, o ∈ l -> initialized (objs o) = false) ->
  (forall o, o ∈ l ++ D -> destructed (objs o) = false) -> length (objects (storage s)) = length (l ++ D) ->
  exists s', (init_objects fuel ;~ destruct_objects) s = ROk tt s' /\
    calls s' = calls s ++ concat (map (init_events objs inits) (rev l)) ++ concat (map (fini_events objs finis) (l ++ rev D)) /\
    init_list (storage s') = [] /\ forall o, o ∈ l ++ D -> heap s' !! o = Some (with_destructed true (after_init objs l o)).
Proof. intros l D foreign. exact (init_fini_ok fuel _ foreign objs inits finis s). Qed.

(** A kernel that fails every call, and code that writes to the address 0. *)
Definition inert_sys : LinkSys unit :=
  {| sys_openat _ _ _ k := (inl 2, k); sys_read _ _ k := (inl 5, k); sys_lseek _ _ k := (0, k); sys_close _ k := (0, k);
     sys_mmap _ _ _ _ k := (inl 12, k); sys_munmap _ _ k := (0, k); sys_mprotect _ _ _ k := (0, k);
     allocate _ k := (0, k); deallocate _ k := k; call_fn f m k := (0, <[0 := f]> m, k) |}.

(** Two objects with two constructors and two destructors each in their arrays, which
    stand one behind the other at [p]. *)
Definition with_arrays (o p : Z) : SharedObject :=
  new_object
    {| tls_size := 0; tls_align := 0; tls_image := 0; tls_image_size := 0; num_symbols := 0; name := Some [];
       path := []; run_paths := []; phdrs_vec := []; base := 0; end_ := 0; dynamic := 0; hashtab := 0; gnutab := 0;
       strtab := 0; symtab := 0; init := 1000 + o; fini := 2000 + o; preinit_array := 0; preinit_array_end := 0;
       init_array := p; init_array_end := p + 16; fini_array := p + 16; fini_array_end := p + 32;
       symbolic_resolution := false; static_tls := false |}.
Definition ready_defs (o : Z) : SharedObject := with_arrays o (if o =? 100 then 0x5000 else 0x6000).
Definition ready_inits (o : Z) : list Z := [o + 1; o + 2].
Definition ready_finis (o : Z) : list Z := [o + 3; o + 4].
Definition ready_mem : mem :=
  mem_of 0x5000 (concat (map (le_bytes 8) [101; 102; 103; 104])) ∪ mem_of 0x6000 (concat (map (le_bytes 8) [201; 202; 203; 204])).
Definition ready_objects : rtld unit :=
  Rtld ready_mem (<[100 := ready_defs 100]> (<[200 := ready_defs 200]> ∅))
    (Storage [100; 200] [] ∅ [100; 200] [] 0 0 []) [] 0 0 Consistent None [] None [] tt.

Lemma ready_in o : o ∈ [100; 200] -> o = 100 \/ o = 200.
Proof. rewrite elem_of_cons, list_elem_of_singleton. tauto. Qed.

(** Two words of the memory. *)
Lemma ready_array P p a b : load64 p ready_mem = Ret a ready_mem -> load64 (p + 8) ready_mem = Ret b ready_mem ->
  (forall x, p <= x < p + 16 -> P x) -> array_at P ready_mem p [a; b].
Proof.
  intros A B F. split; [| exact F]. intros [| [| i]] f E; [injection E as <- .. | discriminate].
  - replace (p + 8 * Z.of_nat 0) with p by lia. exact A.
  - exact B.
Qed.

Lemma init_fini_order_witness :
  exists s', (init_objects (LS := inert_sys) 5 ;~ destruct_objects (LS := inert_sys)) ready_objects = ROk tt s' /\
    calls s' = map Called [1200; 201; 202; 1100; 101; 102; 104; 103; 2100; 204; 203; 2200] /\
    init_list (storage s') = [] /\
    forall o, o ∈ [100; 200] -> heap s' !! o = Some (with_destructed true (after_init ready_defs [100; 200] o)).
Proof.
  apply (init_fini_order (LS := inert_sys) 5 ready_defs ready_inits ready_finis ready_objects).
  - intros f m k a (o & Ho & Ha). apply lookup_insert_ne. destruct (ready_in o Ho) as [-> | ->]; cbn in Ha; lia.
  - change (NoDup [100; 200]). apply list.NoDup_cons. split; [| apply list.NoDup_singleton].
    intros H. apply list_elem_of_singleton in H. discriminate.
  - intros o Ho. split; [destruct (ready_in o Ho) as [-> | ->]; vm_compute; reflexivity |].
    assert (B : forall x, init_array (ready_defs o) <= x < init_array (ready_defs o) + 32 ->
      array_bytes ready_defs ([100; 200] ++ []) x) by (intros x Hx; exists o; split; [exact Ho | cbn in *; lia]).
    split; (split; [cbn; lia |]; split; [cbn; lia |]); apply ready_array;
      try (intros x Hx; apply B; cbn in *; lia); destruct (ready_in o Ho) as [-> | ->]; vm_compute; reflexivity.
  - intros o Ho. destruct (ready_in o Ho) as [-> | ->]; reflexivity.
  - intros o Ho. destruct (ready_in o Ho) as [-> | ->]; reflexivity.
  - reflexivity.
Defined.
