(* ===== verification/LoadFacts.v ===== *)
(** * Loading objects and their dependencies: invariants

    What [ObjectStorage::load_dependencies] keeps: every object that a list, a scope or
    a dependency names is alive, no object is listed twice, the module indices are
    positions of the module table, and the blocks of the initial TLS model are
    disjoint, aligned and within the space accounted for. *)

From stdpp Require Import gmap.
From S2P Require Import Prelude CMem Elf Linker LookupFacts.

#[local] Open Scope Z_scope.
#[local] Open Scope rt_scope.

(** ** Computations that move along a relation *)

Class Follows {K : Type} (R : rtld K -> rtld K -> Prop) := {
  follows_order :: PreOrder R;
  follows_memory : forall s m, R s (set_memory m s);
  follows_kernel : forall s k, R s (set_kernel k s);
  follows_calls : forall s l, R s (set_calls l s)
}.

Section Stable.
Context {K : Type} {LS : LinkSys K} (R : rtld K -> rtld K -> Prop) {F : Follows R}.

Definition stable {A} (c : RT K A) : Prop := forall s a s', c s = ROk a s' -> R s s'.

Lemma stable_ret {A} (a : A) : stable (rret a).
Proof using F. intros s b s' [= _ <-]. reflexivity. Qed.

Lemma stable_bind {A B} (c : RT K A) (f : A -> RT K B) : stable c -> (forall a, stable (f a)) -> stable (rbind c f).
Proof using F.
  intros Hc Hf s b s' E. unfold rbind in E. destruct (c s) as [a s1 | | |] eqn:E1; try discriminate.
  transitivity s1; [exact (Hc _ _ _ E1) | exact (Hf _ _ _ _ E)].
Qed.

Lemma stable_get {A} (f : rtld K -> A) : stable (get f).
Proof using F. intros s b s' [= _ <-]. reflexivity. Qed.

Lemma stable_obj o : stable (obj o).
Proof using F. intros s b s' E. unfold obj in E. destruct (heap s !! o); [| discriminate]. injection E as _ <-. reflexivity. Qed.

Lemma stable_ensure b : stable (ensure b).
Proof using F. intros s a s' E. unfold ensure in E. destruct b; [| discriminate]. injection E as _ <-. reflexivity. Qed.

Lemma stable_cm {A} (c : CM A) : stable (cm c).
Proof using F. intros s a s' E. unfold cm in E. destruct (c (memory s)); try discriminate. injection E as _ <-. apply follows_memory. Qed.

Lemma stable_sys {A} (f : K -> A * K) : stable (sys f).
Proof using F. intros s a s' E. unfold sys in E. destruct (f (kernel s)). injection E as _ <-. apply follows_kernel. Qed.

Lemma stable_memory (f : rtld K -> mem) : stable (put (fun s => set_memory (f s) s)).
Proof using F. intros s a s' E. injection E as _ <-. apply follows_memory. Qed.

Lemma stable_fuel {A} : stable (@out_of_fuel K A).
Proof using. intros s a s' E. discriminate. Qed.

Lemma stable_fault {A} : stable (fun _ => @RFault K A).
Proof using. intros s a s' E. discriminate. Qed.

Lemma stable_call f : stable (rt_call f).
Proof using F.
  intros s a s' E. unfold rt_call in E. destruct (call_fn f (memory s) (kernel s)) as [[r m] k]. injection E as _ <-.
  transitivity (set_memory m s); [apply follows_memory |].
  transitivity (set_kernel k (set_memory m s)); [apply follows_kernel | apply follows_calls].
Qed.
End Stable.

Create HintDb stable.
#[export] Hint Resolve stable_ret stable_get stable_obj stable_ensure stable_cm stable_sys stable_memory
  stable_fuel stable_fault stable_call : stable.

(** Splits a computation along its binds and cases. *)
Ltac stable_step :=
  first
    [ solve [eauto with stable]
    | match goal with |- stable ?R (rbind _ _) => apply (stable_bind R); [| intros ?] end
    | match goal with |- stable _ (match ?x with _ => _ end) => destruct x end
    | match goal with |- stable _ (if ?x then _ else _) => destruct x end ].
Ltac stables := repeat stable_step.

Section Loading.
Context {K : Type} {LS : LinkSys K}.
Variable fuel : nat.
Variables DEBUG_INTERFACE tlsdesc_static tlsdesc_dynamic : Z.
Variable library_paths : list (list Z).
Variable sizeof_SharedObject : Z.

(** ** Loading one image adds an object *)

(** Objects and lists stay; an object that is new has not been used yet. *)
Record loads (s s' : rtld K) : Prop := {
  lo_storage : storage s' = storage s;
  lo_debug : debug_end s' = debug_end s;
  lo_keep : forall o so, heap s !! o = Some so -> heap s' !! o = Some so;
  lo_new : forall o so, heap s' !! o = Some so -> heap s !! o = None -> o <> 0 /\ exists img, so = new_object img
}.

#[local] Instance loads_follows : Follows loads.
Proof.
  split; [split |..].
  - intros s. split; auto. intros o so E N. congruence.
  - intros s1 s2 s3 [A1 B1 C1 D1] [A2 B2 C2 D2]. split; [congruence | congruence | auto |].
    intros o so E N. destruct (heap s2 !! o) as [so' |] eqn:E2; [| eauto].
    rewrite (C2 o so' E2) in E. injection E as <-. eauto.
  - intros s m. split; auto. intros o so E N. simpl in E. congruence.
  - intros s k. split; auto. intros o so E N. simpl in E. congruence.
  - intros s l. split; auto. intros o so E N. simpl in E. congruence.
Qed.

#[local] Hint Resolve loads_follows : stable.

Lemma stable_alloc size : stable loads (rt_allocate size).
Proof using. unfold rt_allocate. stables. Qed.

Lemma stable_map_segments l : forall fd b, stable loads (map_segments l fd b).
Proof using.
  induction l as [| h l IH]; intros fd b; cbn [map_segments]; [stables |].
  unfold try_seek, try_read. stables.
Qed.

Lemma stable_munmap p n : stable loads (rt_munmap p n).
Proof using. unfold rt_munmap. stables. Qed.

Lemma stable_close fd : stable loads (close_fd fd).
Proof using. unfold close_fd. stables. Qed.

Lemma stable_try_read fd n : stable loads (try_read fd n).
Proof using. unfold try_read. stables. Qed.

Lemma stable_try_seek fd n : stable loads (try_seek fd n).
Proof using. unfold try_seek. stables. Qed.
#[local] Hint Resolve stable_alloc stable_map_segments stable_munmap stable_close stable_try_read stable_try_seek : stable.

(** A loading function returns an object that was not there before. *)
Definition fresh (s : rtld K) (r : LoadError + Z) (s' : rtld K) : Prop :=
  match r with inl e => e <> Success | inr o => heap s !! o = None /\ o <> 0 /\ exists img, heap s' !! o = Some (new_object img) end.

Definition gives (c : RT K (LoadError + Z)) : Prop := forall s r s', c s = ROk r s' -> loads s s' /\ fresh s r s'.

Lemma gives_err e : e <> Success -> gives (rret (inl e)).
Proof using. intros N s r s' [= <- <-]. split; [reflexivity | exact N]. Qed.

Lemma gives_bind {A} (c : RT K A) f : stable loads c -> (forall a, gives (f a)) -> gives (rbind c f).
Proof using.
  intros Hc Hf s r s' E. unfold rbind in E. destruct (c s) as [a s1 | | |] eqn:E1; try discriminate.
  pose proof (Hc _ _ _ E1) as L1. destruct (Hf a s1 r s' E) as [L2 Q]. split; [transitivity s1; assumption |].
  destruct r as [e' | o]; [exact Q |]. destruct Q as (N & Q). split; [| exact Q].
  destruct (heap s !! o) as [so |] eqn:Eo; [| reflexivity]. rewrite (lo_keep _ _ L1 o so Eo) in N. discriminate.
Qed.

Lemma gives_ensure b c : (b = true -> gives c) -> gives (ensure b ;~ c).
Proof using. intros H s r s' E. unfold rbind, ensure in E. destruct b; [exact (H eq_refl s r s' E) | discriminate]. Qed.

(** What follows on a load without another one. *)
Lemma gives_after (c : RT K (LoadError + Z)) (k : RT K unit) : gives c -> stable loads k -> gives (r <~ c ;; k ;~ rret r).
Proof using.
  intros Hc Hk s r s' E. unfold rbind in E. destruct (c s) as [r1 s1 | | |] eqn:E1; try discriminate.
  destruct (Hc _ _ _ E1) as [L1 Q1]. destruct (k s1) as [u s2 | | |] eqn:E2; try discriminate. injection E as <- <-.
  pose proof (Hk _ _ _ E2) as L2. split; [transitivity s1; assumption |].
  destruct r1 as [e' | o]; [exact Q1 |]. destruct Q1 as (N & Z & img & H). split; [exact N |]. split; [exact Z |].
  exists img. exact (lo_keep _ _ L2 o _ H).
Qed.

Lemma gives_seq (k : RT K unit) c : stable loads k -> gives c -> gives (k ;~ c).
Proof using. intros Hk Hc. apply gives_bind; [exact Hk | intros _; exact Hc]. Qed.

Lemma gives_image origin path fd phdrs es n :
  gives (load_image fuel DEBUG_INTERFACE sizeof_SharedObject origin path fd phdrs es n).
Proof using.
  unfold load_image. apply gives_bind; [eauto with stable |]. intros [d |]; [| apply gives_err; discriminate].
  apply gives_bind; [eauto with stable |]. intros _. apply gives_bind; [eauto with stable |]. intros hs.
  apply gives_ensure. intros _. apply gives_bind; [eauto with stable |]. intros [e | b]; [apply gives_err; discriminate |].
  apply gives_bind; [eauto with stable |]. intros ok. destruct ok; cbn [negb].
  2: { apply gives_bind; [eauto with stable | intros; apply gives_err; discriminate]. }
  apply gives_bind; [eauto with stable |]. intros o. apply gives_ensure. intros No.
  apply gives_bind; [eauto with stable |]. intros org. apply gives_bind; [eauto with stable |].
  intros [img |]; [| apply gives_ensure; discriminate].
  intros s r s' E. destruct (heap s !! o) eqn:Eo; [discriminate |]. injection E as <- <-.
  destruct (Z.eqb_spec o 0); [discriminate |]. split; [split |].
  - reflexivity.
  - reflexivity.
  - intros x so Ex. simpl. rewrite lookup_insert_ne; [exact Ex | congruence].
  - intros x so Ex Nx. simpl in Ex. destruct (decide (x = o)) as [-> | Ne].
    + rewrite lookup_insert_eq in Ex. injection Ex as <-. eauto.
    + rewrite lookup_insert_ne in Ex by congruence. congruence.
  - split; [exact Eo |]. split; [assumption |]. exists img. apply lookup_insert_eq.
Qed.

Lemma gives_object origin path fd : gives (load_object fuel DEBUG_INTERFACE sizeof_SharedObject origin path fd).
Proof using.
  unfold load_object. apply gives_bind; [eauto with stable |]. intros [e |]; [| apply gives_err; discriminate].
  destruct (negb (valid_ident e)); [apply gives_err; discriminate |]. destruct (negb (valid_arch e)); [apply gives_err; discriminate |].
  apply gives_bind; [eauto with stable |]. intros ok. destruct (negb ok); [apply gives_err; discriminate |].
  apply gives_seq; [destruct (_ <? _); eauto with stable |].
  apply gives_bind; [eauto with stable |]. intros p. apply gives_after; [apply gives_image | eauto with stable].
Qed.

Lemma gives_at_path origin path : gives (load_object_at_path fuel DEBUG_INTERFACE sizeof_SharedObject origin path).
Proof using.
  unfold load_object_at_path. apply gives_bind; [eauto with stable |]. intros [e | fd]; [apply gives_err; discriminate |].
  apply gives_after; [apply gives_object | eauto with stable].
Qed.

Lemma gives_from dirs origin nm : gives (load_from fuel DEBUG_INTERFACE sizeof_SharedObject dirs origin nm).
Proof using.
  induction dirs as [| dir dirs IH]; cbn [load_from]; [apply gives_err; discriminate |].
  apply gives_bind; [eauto with stable |]. intros [e | d]; [exact IH |].
  apply gives_bind; [eauto with stable |]. intros [e | f].
  - apply gives_bind; [eauto with stable | intros _; exact IH].
  - apply gives_bind; [eauto with stable |]. intros _.
    intros s r s' E. unfold rbind at 1 in E.
    destruct (load_object _ _ _ _ _ _ s) as [[e | o] s1 | | |] eqn:E1; try discriminate.
    + apply (gives_bind (close_fd f) (fun _ => load_from fuel DEBUG_INTERFACE sizeof_SharedObject dirs origin nm)) in E;
        [| eauto with stable | intros _; exact IH].
      destruct (gives_object _ _ _ _ _ _ E1) as [L1 _]. destruct E as [L2 Q]. split; [transitivity s1; assumption |].
      destruct r as [e' | o]; [exact Q |]. destruct Q as (N & Q). split; [| exact Q].
      destruct (heap s !! o) as [so |] eqn:Eo; [| reflexivity]. rewrite (lo_keep _ _ L1 o so Eo) in N. discriminate.
    + apply (gives_after (load_object fuel DEBUG_INTERFACE sizeof_SharedObject origin (join_path dir nm) f) (close_fd f) (gives_object _ _ _)); [eauto with stable |].
      unfold rbind at 1. rewrite E1. exact E.
Qed.

Lemma gives_with_name origin nm : gives (load_object_with_name fuel DEBUG_INTERFACE library_paths sizeof_SharedObject origin nm).
Proof using. unfold load_object_with_name. apply gives_bind; [eauto with stable | intros; apply gives_from]. Qed.

(** ** Invariants *)

(** What the invariants read of an object. *)
Record core := Core {
  c_image : Image; c_scope : list Z; c_deps : list Z; c_offset : Z; c_index : Z; c_model : bool; c_loaded : bool }.
Definition core_of (so : SharedObject) : core :=
  Core so (local_scope so) (dependencies so) (tls_offset so) (tls_module_index so) (initial_tls_model so) (rtld_loaded so).
Definition hcore (s : rtld K) (o : Z) : option core := core_of <$> heap s !! o.

(** Everything that is named is alive; nothing is listed twice; an index is a position. *)
Record storage_ok (s : rtld K) : Prop := {
  ok_null : hcore s 0 = None;
  ok_objects : forall o, o ∈ objects (storage s) -> is_Some (hcore s o);
  ok_nodup : NoDup (objects (storage s));
  ok_global : forall o, o ∈ global_scope (storage s) -> o ∈ objects (storage s);
  ok_init : forall o, o ∈ init_list (storage s) -> o ∈ objects (storage s);
  ok_tls : forall o, o ∈ runtime_tls_map (storage s) -> o ∈ objects (storage s);
  ok_deps : forall o c x, hcore s o = Some c -> x ∈ c_deps c \/ x ∈ c_scope c -> x ∈ objects (storage s);
  ok_tls_nodup : NoDup (runtime_tls_map (storage s));
  ok_index : forall i o c, runtime_tls_map (storage s) !! i = Some o -> hcore s o = Some c -> c_index c = Z.of_nat i
}.

(** Blocks of the initial TLS model: object [o] at position [i] of the module table. *)
Definition static_at (s : rtld K) (i : nat) (c : core) : Prop :=
  exists o, runtime_tls_map (storage s) !! i = Some o /\ hcore s o = Some c /\ c_model c && c_loaded c = true.

(** The block of an object is the [tls_size] bytes from [tls_offset] below the thread
    pointer on. *)
Record tls_ok (s : rtld K) : Prop := {
  tl_within : forall i c, static_at s i c -> tls_size (c_image c) <= c_offset c <= initial_tls_size (storage s) /\ (tls_align (c_image c) | c_offset c);
  tl_disjoint : forall i j c d, (i < j)%nat -> static_at s i c -> static_at s j d -> c_offset c + tls_size (c_image d) <= c_offset d;
  tl_bound : 0 <= initial_tls_size (storage s) <= 2 ^ 62 + 2 ^ 41 * zlen (runtime_tls_map (storage s))
}.

(** Sizes far from the end of the address space, alignments powers of two. *)
Definition tls_fits (s : rtld K) : Prop :=
  zlen (runtime_tls_map (storage s)) <= 2 ^ 20 /\
  forall o c, hcore s o = Some c -> tls_size (c_image c) <> 0 ->
    0 < tls_size (c_image c) <= 2 ^ 40 /\ exists k, 0 <= k <= 40 /\ tls_align (c_image c) = 2 ^ k.

Lemma tls_end_ok size n k : 0 <= size -> 0 < n -> 0 <= k <= 40 -> size + n + 2 ^ 40 < 2 ^ 64 ->
  size + n <= tls_end size n (2 ^ k) < size + n + 2 ^ k /\ (2 ^ k | tls_end size n (2 ^ k)).
Proof using.
  intros Hs Hn Hk B. assert (P : 0 < 2 ^ k) by (apply Z.pow_pos_nonneg; lia).
  assert (P40 : 2 ^ k <= 2 ^ 40) by (apply Z.pow_le_mono_r; lia).
  unfold tls_end. rewrite wrapu_small by (unfold is_u; lia).
  assert (E : Z.land (size + n + 2 ^ k - 1) (Z.lnot (2 ^ k - 1)) = (size + n + 2 ^ k - 1) / 2 ^ k * 2 ^ k).
  { rewrite <- Z.ldiff_land. replace (2 ^ k - 1) with (Z.ones k) by (rewrite Z.ones_equiv; lia).
    rewrite Z.ldiff_ones_r by lia. rewrite Z.shiftl_mul_pow2, Z.shiftr_div_pow2 by lia. reflexivity. }
  rewrite E. split; [| apply Z.divide_factor_r].
  pose proof (Z.div_mod (size + n + 2 ^ k - 1) (2 ^ k) ltac:(lia)). pose proof (Z.mod_pos_bound (size + n + 2 ^ k - 1) (2 ^ k) P). lia.
Qed.

(** A later state: the final sizes bound the earlier ones, and the layout is kept. *)
Definition later (s s' : rtld K) : Prop :=
  (tls_fits s' -> tls_fits s) /\ (tls_fits s' -> tls_ok s -> tls_ok s').

#[local] Instance later_order : PreOrder later.
Proof.
  split; [intros s; split; auto |]. intros s1 s2 s3 [A B] [C D]. split; [auto |]. intros F O. apply D; auto.
Qed.

(** A change that keeps the images and what the layout reads of placed objects. *)
Lemma later_keep s s' :
  runtime_tls_map (storage s') = runtime_tls_map (storage s) ->
  initial_tls_size (storage s') = initial_tls_size (storage s) ->
  (forall o c, hcore s o = Some c -> exists c', hcore s' o = Some c' /\ c_image c' = c_image c) ->
  (forall o c', o ∈ runtime_tls_map (storage s) -> hcore s' o = Some c' -> exists c, hcore s o = Some c /\
     c_image c' = c_image c /\ c_offset c' = c_offset c /\ c_model c' && c_loaded c' = c_model c && c_loaded c) ->
  later s s'.
Proof using.
  intros R I G P. split.
  - intros [L F]. split; [rewrite <- R; exact L |]. intros o c E. destruct (G o c E) as (c' & E' & Ei). rewrite <- Ei. exact (F o c' E').
  - intros _ [W D B]. assert (Q : forall i c', static_at s' i c' -> exists c, static_at s i c /\ c_image c' = c_image c /\ c_offset c' = c_offset c).
    { intros i c' (o & A1 & A2 & A3). rewrite R in A1. destruct (P o c' (list_elem_of_lookup_2 _ _ _ A1) A2) as (c & E & E1 & E2 & E3).
      exists c. split; [exists o; rewrite <- E3; auto | auto]. }
    split.
    + intros i c' H. destruct (Q i c' H) as (c & Hc & -> & ->). rewrite I. exact (W i c Hc).
    + intros i j c' d' L H H'. destruct (Q i c' H) as (c & Hc & _ & ->), (Q j d' H') as (d & Hd & -> & ->). exact (D i j c d L Hc Hd).
    + rewrite R, I. exact B.
Qed.

Lemma hcore_keep s s' o c : loads s s' -> hcore s o = Some c -> hcore s' o = Some c.
Proof using.
  intros L E. unfold hcore in *. destruct (heap s !! o) as [so |] eqn:Eo; [| discriminate]. rewrite (lo_keep _ _ L o so Eo). exact E.
Qed.

Lemma hcore_new s s' o c : loads s s' -> hcore s' o = Some c -> hcore s o = Some c \/ (o <> 0 /\ hcore s o = None /\ exists img, c = core_of (new_object img)).
Proof using.
  intros L E. destruct (hcore s o) as [c1 |] eqn:E1; [left; rewrite <- E; symmetry; exact (hcore_keep s s' o c1 L E1) |]. right.
  unfold hcore in *. destruct (heap s' !! o) as [so |] eqn:Eo; [| discriminate]. destruct (heap s !! o) eqn:E2; [discriminate |].
  destruct (lo_new _ _ L o so Eo E2) as (N & img & ->). injection E as <-. eauto.
Qed.

Lemma loads_ok s s' : loads s s' -> storage_ok s -> storage_ok s' /\ later s s'.
Proof using.
  intros L [N O ND G I T D TN X]. pose proof (lo_storage _ _ L) as St. split.
  - split; rewrite ?St; try assumption.
    + destruct (hcore s' 0) as [c |] eqn:E; [| reflexivity]. destruct (hcore_new s s' 0 c L E) as [E' | (Z0 & _)]; congruence.
    + intros o Ho. destruct (O o Ho) as [c E]. exists c. exact (hcore_keep s s' o c L E).
    + intros o c x E Hx. destruct (hcore_new s s' o c L E) as [E' | (_ & _ & img & ->)]; [exact (D o c x E' Hx) |].
      simpl in Hx. destruct Hx as [Hx | Hx]; contradict Hx; apply not_elem_of_nil.
    + intros i o c R E. destruct (hcore_new s s' o c L E) as [E' | (_ & E' & _)]; [exact (X i o c R E') |].
      destruct (O o (T o (list_elem_of_lookup_2 _ _ _ R))) as [c' E2]. congruence.
  - apply later_keep; rewrite ?St; try reflexivity.
    + intros o c E. exists c. split; [exact (hcore_keep s s' o c L E) | reflexivity].
    + intros o c' Ho E. destruct (hcore_new s s' o c' L E) as [E' | (_ & E' & _)]; [exists c'; auto |].
      destruct (O o (T o Ho)) as [c2 E2]. congruence.
Qed.

(** ** Relocation and the debugger's list *)

(** Only links, descriptors and the table of unique symbols change. *)
Definition settles (s s' : rtld K) : Prop :=
  (forall o, hcore s' o = hcore s o) /\ exists u, storage s' = with_unique_map u (storage s).

#[local] Instance settles_follows : Follows settles.
Proof.
  split; [split |..].
  - intros s. split; [reflexivity |]. exists (unique_map (storage s)). destruct (storage s); reflexivity.
  - intros s1 s2 s3 [A (u & B)] [C (v & D)]. split; [congruence |]. exists v. rewrite D, B. reflexivity.
  - intros s m. split; [reflexivity |]. exists (unique_map (storage s)). destruct s as [? ? []]; reflexivity.
  - intros s k. split; [reflexivity |]. exists (unique_map (storage s)). destruct s as [? ? []]; reflexivity.
  - intros s l. split; [reflexivity |]. exists (unique_map (storage s)). destruct s as [? ? []]; reflexivity.
Qed.
#[local] Hint Resolve settles_follows : stable.

Lemma hcore_update (s : rtld K) o so f x : heap s !! o = Some so ->
  hcore (set_heap (<[o := f so]> (heap s)) s) x = if decide (x = o) then Some (core_of (f so)) else hcore s x.
Proof using.
  intros E. unfold hcore. simpl. destruct (decide (x = o)) as [-> | N]; [rewrite lookup_insert_eq | rewrite lookup_insert_ne by congruence]; reflexivity.
Qed.

Lemma settles_upd o f : (forall so, core_of (f so) = core_of so) -> stable settles (upd_obj o f).
Proof using.
  intros H s a s' E. unfold upd_obj in E. destruct (heap s !! o) as [so |] eqn:Eo; [| discriminate]. injection E as _ <-.
  split; [| exists (unique_map (storage s)); destruct s as [? ? []]; reflexivity].
  intros x. rewrite (hcore_update s o so f x Eo). destruct (decide (x = o)) as [-> | N]; [| reflexivity].
  rewrite H. unfold hcore. rewrite Eo. reflexivity.
Qed.

Lemma settles_put (f : rtld K -> rtld K) : (forall s, heap (f s) = heap s /\ storage (f s) = storage s) -> stable settles (put f).
Proof using.
  intros H s a s' [= _ <-]. destruct (H s) as [A B]. split; [unfold hcore; rewrite A; reflexivity |].
  exists (unique_map (storage s)). rewrite B. destruct (storage s); reflexivity.
Qed.

Lemma settles_unique u : stable settles (upd_storage (with_unique_map u)).
Proof using. intros s a s' [= _ <-]. split; [reflexivity |]. exists u. reflexivity. Qed.
#[local] Hint Resolve settles_unique : stable.
#[local] Hint Extern 1 (stable settles (upd_obj _ _)) => apply settles_upd; reflexivity : stable.
#[local] Hint Extern 1 (stable settles (put _)) => apply settles_put; split; reflexivity : stable.

Lemma settles_try o nm res : stable settles (try_object fuel o nm res).
Proof using. unfold try_object, defined_sym. stables. Qed.
#[local] Hint Resolve settles_try : stable.

Lemma settles_scan l : forall local nm res, stable settles (scan fuel l local nm res).
Proof using. induction l as [| o l IH]; intros; cbn [scan]; stables. Qed.

Lemma settles_search n : forall stack visited nm res, stable settles (search_deps fuel n stack visited nm res).
Proof using. induction n as [| n IH]; intros [| o rest] visited nm res; cbn [search_deps]; stables. Qed.
#[local] Hint Resolve settles_scan settles_search : stable.

Lemma settles_lookup local nm policy : stable settles (storage_lookup fuel local nm policy).
Proof using. unfold storage_lookup, or_continue. stables. Qed.
#[local] Hint Resolve settles_lookup : stable.

Lemma settles_alloc size : stable settles (rt_allocate size).
Proof using. unfold rt_allocate. stables. Qed.
#[local] Hint Resolve settles_alloc : stable.

Lemma settles_access o : stable settles (access_tls_for_object o).
Proof using. unfold access_tls_for_object. stables. Qed.
#[local] Hint Resolve settles_access : stable.

Lemma settles_process self r rs : stable settles (process_relocation tlsdesc_static tlsdesc_dynamic self r rs).
Proof using. unfold process_relocation, apply_symbol, apply, is_weak. stables. Qed.

Lemma settles_late self r rs : stable settles (process_late_relocation self r rs).
Proof using. unfold process_late_relocation, apply. stables. Qed.

Lemma settles_resolve self how info : stable settles (resolve fuel self how info).
Proof using. unfold resolve. stables. Qed.
#[local] Hint Resolve settles_process settles_late settles_resolve : stable.

Lemma settles_rela n : forall self how rela, stable settles (rela_loop fuel tlsdesc_static tlsdesc_dynamic n self how rela).
Proof using. induction n as [| n IH]; intros; cbn [rela_loop]; stables. Qed.

Lemma settles_rel n : forall self how rel i, stable settles (rel_loop fuel tlsdesc_static tlsdesc_dynamic n self how rel i).
Proof using. induction n as [| n IH]; intros; cbn [rel_loop]; stables. Qed.

Lemma settles_relr n : forall b relr a, stable settles (relr_loop n b relr a).
Proof using. induction n as [| n IH]; intros; cbn [relr_loop]; stables. Qed.

Lemma settles_late_loop n : forall self w t, stable settles (late_loop fuel n self w t).
Proof using. induction n as [| n IH]; intros; cbn [late_loop]; stables. Qed.
#[local] Hint Resolve settles_rela settles_rel settles_relr settles_late_loop : stable.

Lemma settles_relocate self : stable settles (relocate fuel tlsdesc_static tlsdesc_dynamic self).
Proof using. unfold relocate, relocate_with. stables. Qed.

Lemma settles_late_relocate self : stable settles (late_relocate fuel self).
Proof using. unfold late_relocate. stables. Qed.

Lemma settles_protect o : stable settles (protect_object o).
Proof using.
  unfold protect_object. apply (stable_bind settles); [stables | intros so]. generalize (phdrs_vec so) as l.
  induction l as [| h l IH]; stables.
Qed.
#[local] Hint Resolve settles_relocate settles_late_relocate settles_protect : stable.

Lemma settles_each f l : (forall o, stable settles (f o)) -> stable settles (for_each f l).
Proof using. intros H. induction l as [| o l IH]; cbn [for_each]; stables. Qed.

Lemma settles_debug o : stable settles (add_object_to_debug_list o).
Proof using. unfold add_object_to_debug_list. stables. Qed.

(** ** The steps of load_dependencies *)

(** A change of the storage and of one object at most. *)
Lemma settles_ok s s' : settles s s' -> storage_ok s -> storage_ok s' /\ later s s'.
Proof using.
  intros [H (u & St)] [N O ND G I T D TN X]. split.
  - split; rewrite ?St; simpl; try assumption.
    + rewrite H. exact N.
    + intros o Ho. rewrite H. exact (O o Ho).
    + intros o c x E. rewrite H in E. exact (D o c x E).
    + intros i o c R E. rewrite H in E. exact (X i o c R E).
  - apply later_keep; rewrite ?St; try reflexivity.
    + intros o c E. exists c. rewrite H. auto.
    + intros o c Ho E. exists c. rewrite <- H. auto.
Qed.

Lemma add_object_ok d s u s' : add_object d s = ROk u s' -> storage_ok s -> is_Some (hcore s d) -> d ∉ objects (storage s) ->
  storage_ok s' /\ later s s' /\ objects (storage s') = objects (storage s) ++ [d] /\
  runtime_tls_map (storage s') = runtime_tls_map (storage s) /\ forall o, hcore s' o = hcore s o.
Proof using.
  unfold add_object, rbind. intros E [N O ND G I T D TN X] Al Nd. cbn [upd_storage put] in E.
  destruct (settles_debug d _ _ _ E) as [H (v & St)].
  assert (Hs : forall o, hcore s' o = hcore s o) by (intros o; rewrite H; reflexivity). clear H. split_and!.
  - split; rewrite ?St; simpl; try assumption.
    + rewrite Hs. exact N.
    + intros o [Ho | Ho]%elem_of_app; rewrite Hs; [exact (O o Ho) |]. apply list_elem_of_singleton in Ho as ->. exact Al.
    + apply list.NoDup_app. split_and!; [exact ND | | apply list.NoDup_singleton]. intros x Hx Hd. apply list_elem_of_singleton in Hd as ->. contradiction.
    + intros o Ho. apply elem_of_app. left. exact (G o Ho).
    + intros o Ho. apply elem_of_app. left. exact (I o Ho).
    + intros o Ho. apply elem_of_app. left. exact (T o Ho).
    + intros o c x Ec Hx. rewrite Hs in Ec. apply elem_of_app. left. exact (D o c x Ec Hx).
    + intros i o c R Ec. rewrite Hs in Ec. exact (X i o c R Ec).
  - apply later_keep; rewrite ?St; try reflexivity.
    + intros o c Ec. exists c. rewrite Hs. auto.
    + intros o c Ho Ec. exists c. rewrite <- Hs. auto.
  - rewrite St. reflexivity.
  - rewrite St. reflexivity.
  - exact Hs.
Qed.

Lemma add_dependency_ok o d s u s' : add_dependency o d s = ROk u s' -> storage_ok s -> d ∈ objects (storage s) ->
  storage_ok s' /\ later s s' /\ storage s' = storage s.
Proof using.
  unfold add_dependency, upd_obj. intros E [N O ND G I T D TN X] Hd. destruct (heap s !! o) as [so |] eqn:Eo; [| discriminate].
  injection E as _ <-. set (f := fun so => with_dependencies (dependencies so ++ [d]) so).
  pose proof (fun x => hcore_update s o so f x Eo) as H. fold (f so).
  assert (Co : hcore s o = Some (core_of so)) by (unfold hcore; rewrite Eo; reflexivity). split_and!.
  - split; simpl; try assumption.
    + rewrite H. destruct (decide (0 = o)) as [<- | _]; [congruence | exact N].
    + intros x Hx. rewrite H. destruct (decide (x = o)); [eauto | exact (O x Hx)].
    + intros x c y Ec Hy. rewrite H in Ec. destruct (decide (x = o)) as [-> | _]; [| exact (D x c y Ec Hy)].
      injection Ec as <-. simpl in Hy. destruct Hy as [Hy | Hy].
      * apply elem_of_app in Hy as [Hy | Hy]; [exact (D o _ y Co (or_introl Hy)) |]. apply list_elem_of_singleton in Hy as ->. exact Hd.
      * exact (D o _ y Co (or_intror Hy)).
    + intros i x c R Ec. rewrite H in Ec. destruct (decide (x = o)) as [-> | _]; [injection Ec as <-; exact (X i o _ R Co) | exact (X i x c R Ec)].
  - apply later_keep; try reflexivity.
    + intros x c Ec. rewrite H. destruct (decide (x = o)) as [-> | _]; [| eauto]. eexists. split; [reflexivity |]. rewrite Co in Ec. injection Ec as <-. reflexivity.
    + intros x c Hx Ec. rewrite H in Ec. destruct (decide (x = o)) as [-> | _]; [| eauto]. injection Ec as <-. exists (core_of so). auto.
  - reflexivity.
Qed.

Lemma find_object_ok p l : forall (s : rtld K) r s', find_object p l s = ROk r s' -> s' = s /\ forall d, r = Some d -> d ∈ l.
Proof using.
  induction l as [| o l IH]; intros s r s' E; cbn [find_object] in E.
  - injection E as <- <-. split; [reflexivity | discriminate].
  - unfold rbind, obj in E. destruct (heap s !! o) as [so |]; [| discriminate]. destruct (p so).
    + injection E as <- <-. split; [reflexivity |]. intros d [= <-]. left.
    + destruct (IH s r s' E) as [-> H]. split; [reflexivity |]. intros d Hd. right. exact (H d Hd).
Qed.

(** One needed library: the objects stay, one may be added at the end. *)
Lemma load_needed_ok o nm s r s' :
  load_needed fuel DEBUG_INTERFACE library_paths sizeof_SharedObject o nm s = ROk r s' -> storage_ok s ->
  match r with
  | inl e => e <> Success
  | inr new => storage_ok s' /\ later s s' /\ runtime_tls_map (storage s') = runtime_tls_map (storage s) /\
      match new with
      | None => objects (storage s') = objects (storage s)
      | Some d => d ∉ objects (storage s) /\ objects (storage s') = objects (storage s) ++ [d]
      end
  end.
Proof using.
  unfold load_needed. intros E Ok. destruct (bool_decide (nm ∈ builtin_names)).
  { injection E as <- <-. split_and!; [exact Ok | reflexivity ..]. }
  unfold rbind at 1, get in E. unfold rbind at 1 in E.
  destruct (find_object _ _ s) as [known s1 | | |] eqn:E1; try discriminate. apply find_object_ok in E1 as [-> Hk].
  destruct known as [d |].
  - unfold rbind in E. destruct (add_dependency o d s) as [u s2 | | |] eqn:E2; try discriminate. injection E as <- <-.
    destruct (add_dependency_ok _ _ _ _ _ E2 Ok (Hk d eq_refl)) as (Ok2 & L2 & St). split_and!; [exact Ok2 | exact L2 | rewrite St; reflexivity ..].
  - unfold rbind at 1 in E. set (c := if has_slash nm then _ else _) in E.
    assert (Gc : gives c) by (unfold c; destruct (has_slash nm); [apply gives_at_path | apply gives_with_name]).
    destruct (c s) as [[e | d] s2 | | |] eqn:E2; try discriminate; [injection E as <- _; exact (proj2 (Gc _ _ _ E2)) |].
    destruct (Gc _ _ _ E2) as [L2 (Nd & Zd & img & Hd)]. destruct (loads_ok _ _ L2 Ok) as [Ok2 La2].
    pose proof (lo_storage _ _ L2) as St2.
    assert (Fd : d ∉ objects (storage s)) by (intros Hi; destruct (ok_objects _ Ok d Hi) as [c' Ec]; unfold hcore in Ec; rewrite Nd in Ec; discriminate).
    unfold rbind at 1 in E. destruct (add_object d s2) as [u s3 | | |] eqn:E3; try discriminate.
    destruct (add_object_ok _ _ _ _ E3 Ok2) as (Ok3 & La3 & Ob3 & Rt3 & _); [unfold hcore; rewrite Hd; eauto | rewrite St2; exact Fd |].
    unfold rbind in E. destruct (add_dependency o d s3) as [v s4 | | |] eqn:E4; try discriminate. injection E as <- <-.
    destruct (add_dependency_ok _ _ _ _ _ E4 Ok3) as (Ok4 & La4 & St4); [rewrite Ob3; apply elem_of_app; right; left |].
    split_and!; [exact Ok4 | transitivity s2; [exact La2 | transitivity s3; assumption] | rewrite St4, Rt3, St2; reflexivity | exact Fd | rewrite St4, Ob3, St2; reflexivity].
Qed.

(** Lists of the storage that the layout does not depend on. *)
Lemma upd_lists_ok f s u s' : upd_storage f s = ROk u s' -> storage_ok s ->
  objects (f (storage s)) = objects (storage s) -> runtime_tls_map (f (storage s)) = runtime_tls_map (storage s) ->
  initial_tls_size (f (storage s)) = initial_tls_size (storage s) ->
  (forall o, o ∈ global_scope (f (storage s)) -> o ∈ objects (storage s)) ->
  (forall o, o ∈ init_list (f (storage s)) -> o ∈ objects (storage s)) ->
  storage_ok s' /\ later s s' /\ storage s' = f (storage s).
Proof using.
  intros [= _ <-] [N O ND G I T D TN X] Eo Er Ei Hg Hi. split_and!.
  - split; simpl; rewrite ?Eo, ?Er; try assumption.
  - apply later_keep; simpl; [exact Er | exact Ei | |]; intros o c; [intros E; exists c; auto | intros Ho E; exists c; auto].
  - reflexivity.
Qed.

(** [stack]: objects that are listed, each once, and not placed yet. *)
Definition waiting (s : rtld K) (stack : list Z) : Prop :=
  NoDup stack /\ forall o, o ∈ stack -> o ∈ objects (storage s) /\ o ∉ runtime_tls_map (storage s).

Lemma needed_loop_ok ds o global : forall stack s r s',
  needed_loop fuel DEBUG_INTERFACE library_paths sizeof_SharedObject ds o global stack s = ROk r s' ->
  storage_ok s -> waiting s stack ->
  match r with inl e => e <> Success | inr stack' => storage_ok s' /\ later s s' /\ waiting s' stack' end.
Proof using.
  induction ds as [| [tag v] ds IH]; intros stack s r s' E Ok W; cbn [needed_loop] in E.
  - injection E as <- <-. split_and!; [exact Ok | reflexivity | exact W].
  - destruct (negb (tag =? DT_NEEDED)); [exact (IH _ _ _ _ E Ok W) |].
    unfold rbind at 1, obj in E. destruct (heap s !! o) as [so |]; [| discriminate].
    unfold rbind at 1 in E. destruct (cm _ s) as [nm s1 | | |] eqn:E1; try discriminate.
    pose proof (stable_cm loads _ _ _ _ E1) as L1. destruct (loads_ok _ _ L1 Ok) as [Ok1 La1]. pose proof (lo_storage _ _ L1) as St1.
    unfold rbind at 1 in E. destruct (load_needed _ _ _ _ o nm s1) as [x s2 | | |] eqn:E2; try discriminate.
    pose proof (load_needed_ok _ _ _ _ _ E2 Ok1) as P. destruct x as [e | [d |]].
    + injection E as <- _. exact P.
    + destruct P as (Ok2 & La2 & Rt2 & Fd & Ob2). rewrite St1 in *.
      assert (Dd : d ∈ objects (storage s2)) by (rewrite Ob2; apply elem_of_app; right; left).
      unfold rbind in E.
      lazymatch type of E with match ?c with _ => _ end = _ => destruct c as [u s3 | | |] eqn:E3 end; try discriminate.
      assert (P3 : storage_ok s3 /\ later s2 s3 /\ objects (storage s3) = objects (storage s2) /\ runtime_tls_map (storage s3) = runtime_tls_map (storage s2)).
      { destruct global; [| injection E3 as _ <-; split_and!; [exact Ok2 | reflexivity ..]].
        destruct (upd_lists_ok _ _ _ _ E3 Ok2) as (A & B & C); try reflexivity.
        - simpl. intros y [Hy | Hy]%elem_of_app; [exact (ok_global _ Ok2 y Hy) |]. apply list_elem_of_singleton in Hy as ->. exact Dd.
        - exact (ok_init _ Ok2).
        - rewrite C. split_and!; [exact A | exact B | reflexivity ..]. }
      destruct P3 as (Ok3 & La3 & Ob3 & Rt3).
      assert (W3 : waiting s3 (d :: stack)).
      { destruct W as [ND Ws]. split.
        - apply list.NoDup_cons. split; [| exact ND]. intros Hd. apply Fd. apply Ws. exact Hd.
        - intros y [-> | Hy]%elem_of_cons.
          + rewrite Ob3, Rt3, Rt2. split; [exact Dd |]. intros Hd. apply Fd, (ok_tls _ Ok d Hd).
          + rewrite Ob3, Rt3, Rt2, Ob2. destruct (Ws y Hy). split; [apply elem_of_app; left |]; assumption. }
      specialize (IH (d :: stack) s3 r s' E Ok3 W3). destruct r as [e | stack']; [exact IH |]. destruct IH as (Ok4 & La4 & W4).
      split_and!; [exact Ok4 | | exact W4]. transitivity s1; [exact La1 |]. transitivity s2; [exact La2 |]. transitivity s3; assumption.
    + destruct P as (Ok2 & La2 & Rt2 & Ob2). rewrite St1 in *. assert (W2 : waiting s2 stack) by (destruct W as [ND Ws]; split; [exact ND |]; intros y Hy; rewrite Ob2, Rt2; exact (Ws y Hy)).
      specialize (IH stack s2 r s' E Ok2 W2). destruct r as [e | stack']; [exact IH |]. destruct IH as (Ok3 & La3 & W3).
      split_and!; [exact Ok3 | | exact W3]. transitivity s1; [exact La1 |]. transitivity s2; assumption.
Qed.

(** The flag of an object that is not placed yet. *)
Lemma set_model_ok o s u s' : upd_obj o (with_initial_tls_model true) s = ROk u s' -> storage_ok s ->
  o ∉ runtime_tls_map (storage s) -> storage_ok s' /\ later s s' /\ storage s' = storage s.
Proof using.
  unfold upd_obj. intros E [N O ND G I T D TN X] Np. destruct (heap s !! o) as [so |] eqn:Eo; [| discriminate]. injection E as _ <-.
  pose proof (fun x => hcore_update s o so (with_initial_tls_model true) x Eo) as H.
  assert (Co : hcore s o = Some (core_of so)) by (unfold hcore; rewrite Eo; reflexivity). split_and!.
  - split; simpl; try assumption.
    + rewrite H. destruct (decide (0 = o)) as [<- | _]; [congruence | exact N].
    + intros x Hx. rewrite H. destruct (decide (x = o)); [eauto | exact (O x Hx)].
    + intros x c y Ec Hy. rewrite H in Ec. destruct (decide (x = o)) as [-> | _]; [| exact (D x c y Ec Hy)].
      injection Ec as <-. exact (D o _ y Co Hy).
    + intros i x c R Ec. rewrite H in Ec. destruct (decide (x = o)) as [-> | _]; [injection Ec as <-; exact (X i o _ R Co) | exact (X i x c R Ec)].
  - apply later_keep; try reflexivity.
    + intros x c Ec. rewrite H. destruct (decide (x = o)) as [-> | _]; [| eauto]. eexists. split; [reflexivity |]. rewrite Co in Ec. injection Ec as <-. reflexivity.
    + intros x c Hx Ec. rewrite H in Ec. destruct (decide (x = o)) as [-> | _]; [contradiction | eauto].
  - reflexivity.
Qed.

(** The state after an object was placed. *)
Definition placed (s : rtld K) (o : Z) (so : SharedObject) : rtld K :=
  let st := storage s in
  let offset := tls_end (initial_tls_size st) (tls_size so) (tls_align so) in
  let static := initial_tls_model so && rtld_loaded so in
  let so' := with_tls_module_index (zlen (runtime_tls_map st)) (if static then with_tls_offset offset so else so) in
  set_storage (with_runtime_tls_map (runtime_tls_map st ++ [o]) (if static then with_initial_tls_size offset st else st))
    (set_heap (<[o := so']> (heap s)) s).

Lemma place_tls_eq o s b s' : place_tls o s = ROk b s' -> b = true ->
  exists so : SharedObject, heap s !! o = Some so /\ ((tls_size so = 0 /\ s' = s) \/ (tls_size so <> 0 /\ s' = placed s o so)).
Proof using.
  unfold place_tls, rbind at 1, obj. intros E ->. destruct (heap s !! o) as [so |] eqn:Eo; [| discriminate]. exists so. split; [reflexivity |].
  destruct (Z.eqb_spec (tls_size so) 0) as [Z0 | N0]; [left; injection E as <-; auto | right]. split; [exact N0 |].
  unfold rbind at 1, get in E. unfold placed. cbv zeta. destruct (initial_tls_model so && rtld_loaded so).
  - destruct (true && _ && _); [discriminate |]. unfold rbind, upd_obj, upd_storage, put in E. rewrite Eo in E. simpl in E.
    rewrite lookup_insert_eq in E. simpl in E. injection E as <-. rewrite insert_insert_eq. destruct s as [? ? []]; reflexivity.
  - cbn [andb] in E. unfold rbind, upd_obj, upd_storage, put, rret in E. rewrite Eo in E. simpl in E. injection E as <-. destruct s as [? ? []]; reflexivity.
Qed.

Lemma hcore_placed s o (so : SharedObject) x : heap s !! o = Some so -> hcore (placed s o so) x =
  if decide (x = o) then Some (Core so (local_scope so) (dependencies so)
    (if initial_tls_model so && rtld_loaded so then tls_end (initial_tls_size (storage s)) (tls_size so) (tls_align so) else tls_offset so)
    (zlen (runtime_tls_map (storage s))) (initial_tls_model so) (rtld_loaded so)) else hcore s x.
Proof using.
  intros E. unfold hcore, placed. simpl. destruct (decide (x = o)) as [-> | N]; [rewrite lookup_insert_eq | rewrite lookup_insert_ne by congruence; reflexivity].
  simpl. f_equal. unfold core_of. destruct (initial_tls_model so && rtld_loaded so); reflexivity.
Qed.

Lemma storage_placed s o (so : SharedObject) : objects (storage (placed s o so)) = objects (storage s) /\
  global_scope (storage (placed s o so)) = global_scope (storage s) /\ init_list (storage (placed s o so)) = init_list (storage s) /\
  runtime_tls_map (storage (placed s o so)) = runtime_tls_map (storage s) ++ [o] /\
  initial_tls_size (storage (placed s o so)) = if initial_tls_model so && rtld_loaded so
    then tls_end (initial_tls_size (storage s)) (tls_size so) (tls_align so) else initial_tls_size (storage s).
Proof using. unfold placed. simpl. destruct (initial_tls_model so && rtld_loaded so); auto. Qed.

Lemma placed_storage_ok s o (so : SharedObject) : heap s !! o = Some so -> storage_ok s -> o ∈ objects (storage s) -> o ∉ runtime_tls_map (storage s) ->
  storage_ok (placed s o so).
Proof using.
  intros Eo [N O ND G I T D TN X] Ho Np. destruct (storage_placed s o so) as (S1 & S2 & S3 & S4 & _).
  assert (Co : hcore s o = Some (core_of so)) by (unfold hcore; rewrite Eo; reflexivity).
  split; rewrite ?S1, ?S2, ?S3, ?S4; try assumption.
  - rewrite hcore_placed by exact Eo. destruct (decide (0 = o)) as [<- | _]; [congruence | exact N].
  - intros x Hx. rewrite hcore_placed by exact Eo. destruct (decide (x = o)); [eauto | exact (O x Hx)].
  - intros x [Hx | Hx]%elem_of_app; [exact (T x Hx) |]. apply list_elem_of_singleton in Hx as ->. exact Ho.
  - intros x c y Ec Hy. rewrite hcore_placed in Ec by exact Eo. destruct (decide (x = o)) as [-> | _]; [| exact (D x c y Ec Hy)].
    injection Ec as <-. exact (D o _ y Co Hy).
  - apply list.NoDup_app. split_and!; [exact TN | | apply list.NoDup_singleton]. intros x Hx Hd. apply list_elem_of_singleton in Hd as ->. contradiction.
  - intros i x c R Ec. rewrite hcore_placed in Ec by exact Eo. apply lookup_app_Some in R as [R | [L R]].
    + destruct (decide (x = o)) as [-> | _]; [contradict Np; exact (list_elem_of_lookup_2 _ _ _ R) | exact (X i x c R Ec)].
    + apply list_lookup_singleton_Some in R as [Ei <-]. rewrite decide_True in Ec by reflexivity. injection Ec as <-. simpl. unfold zlen. lia.
Qed.

Lemma placed_later s o (so : SharedObject) : heap s !! o = Some so -> storage_ok s -> o ∉ runtime_tls_map (storage s) -> tls_size so <> 0 ->
  later s (placed s o so).
Proof using.
  intros Eo Ok Np Nz. destruct (storage_placed s o so) as (_ & _ & _ & S4 & S5).
  assert (Co : hcore s o = Some (core_of so)) by (unfold hcore; rewrite Eo; reflexivity). split.
  - intros [L F]. split; [rewrite S4, zlen_app in L; unfold zlen in *; simpl in L; lia |].
    intros x c Ec. specialize (F x). rewrite hcore_placed in F by exact Eo. destruct (decide (x = o)) as [-> | _]; [| exact (F c Ec)].
    rewrite Co in Ec. injection Ec as <-. exact (F _ eq_refl).
  - intros [L F] [W Dj B]. rewrite S4, zlen_app in L. change (zlen [o]) with 1 in L.
    specialize (F o). rewrite hcore_placed, decide_True in F by (exact Eo || reflexivity). specialize (F _ eq_refl Nz). simpl in F.
    destruct F as (Sz & k & Hk & Ea).
    assert (Q : forall i c, static_at (placed s o so) i c -> (static_at s i c) \/
      (i = length (runtime_tls_map (storage s)) /\ initial_tls_model so && rtld_loaded so = true /\ c_image c = so /\
       c_offset c = tls_end (initial_tls_size (storage s)) (tls_size so) (tls_align so))).
    { intros i c (x & A1 & A2 & A3). rewrite S4 in A1. rewrite hcore_placed in A2 by exact Eo. apply lookup_app_Some in A1 as [A1 | [A0 A1]].
      - left. exists x. destruct (decide (x = o)) as [-> | _]; [contradict Np; exact (list_elem_of_lookup_2 _ _ _ A1) | auto].
      - right. apply list_lookup_singleton_Some in A1 as [Ei <-]. rewrite decide_True in A2 by reflexivity. injection A2 as <-. simpl in *.
        rewrite A3. split_and!; [lia | reflexivity ..]. }
    rewrite Ea in *. destruct (tls_end_ok (initial_tls_size (storage s)) (tls_size so) k) as [[E1 E2] E3]; [lia | lia | lia | unfold zlen in *; lia |].
    assert (P40 : 2 ^ k <= 2 ^ 40) by (apply Z.pow_le_mono_r; lia).
    assert (Lt : forall i c, static_at s i c -> (i < length (runtime_tls_map (storage s)))%nat) by (intros i c (x & A1 & _); exact (lookup_lt_Some _ _ _ A1)).
    split; rewrite ?S5.
    + intros i c H. destruct (Q i c H) as [H' | (-> & -> & -> & ->)].
      * destruct (W i c H') as [W1 W2]. split; [destruct (_ && _); lia | exact W2].
      * rewrite Ea. split; [lia | exact E3].
    + intros i j c d Lij Hi Hj. destruct (Q i c Hi) as [Hi' | (-> & _)], (Q j d Hj) as [Hj' | (-> & M & -> & ->)].
      * exact (Dj i j c d Lij Hi' Hj').
      * destruct (W i c Hi') as [W1 _]. lia.
      * pose proof (Lt j d Hj'). lia.
      * lia.
    + rewrite S4, zlen_app. change (zlen [o]) with 1. destruct (_ && _); lia.
Qed.

Lemma load_loop_ok global initial n : forall stack s e s',
  load_loop fuel DEBUG_INTERFACE library_paths sizeof_SharedObject n stack global initial s = ROk e s' -> e = Success ->
  storage_ok s -> waiting s stack -> storage_ok s' /\ later s s'.
Proof using.
  induction n as [| n IH]; intros [| o rest] s e s' E Es Ok W; cbn [load_loop] in E; try discriminate;
    try (injection E as _ <-; split; [exact Ok | reflexivity]).
  destruct W as [ND Ws]. destruct (Ws o ltac:(left)) as [Ho Np].
  unfold rbind at 1 in E. destruct (upd_storage _ s) as [u1 s1 | | |] eqn:E1; try discriminate.
  destruct (upd_lists_ok _ _ _ _ E1 Ok) as (Ok1 & La1 & St1); try reflexivity.
  { exact (ok_global _ Ok). }
  { simpl. intros x [Hx | Hx]%elem_of_app; [exact (ok_init _ Ok x Hx) |]. apply list_elem_of_singleton in Hx as ->. exact Ho. }
  unfold rbind at 1 in E. lazymatch type of E with match ?c with _ => _ end = _ => destruct c as [u2 s2 | | |] eqn:E2 end; try discriminate.
  assert (P2 : storage_ok s2 /\ later s1 s2 /\ storage s2 = storage s1).
  { destruct initial; [apply (set_model_ok o s1 u2 s2 E2 Ok1); rewrite St1; exact Np |]. injection E2 as _ <-. split_and!; [exact Ok1 | reflexivity ..]. }
  destruct P2 as (Ok2 & La2 & St2). rewrite St1 in St2.
  unfold rbind at 1 in E. destruct (place_tls o s2) as [b s3 | | |] eqn:E3; try discriminate.
  destruct b; cbn [negb] in E; [| injection E as <- _; discriminate].
  destruct (place_tls_eq _ _ _ _ E3 eq_refl) as (so & Eo & C).
  assert (P3 : storage_ok s3 /\ later s2 s3 /\ objects (storage s3) = objects (storage s) /\
    (forall x, x ∈ runtime_tls_map (storage s3) -> x = o \/ x ∈ runtime_tls_map (storage s))).
  { destruct C as [(_ & ->) | (Nz & ->)].
    - rewrite St2. split_and!; [exact Ok2 | reflexivity | reflexivity | auto].
    - assert (Np2 : o ∉ runtime_tls_map (storage s2)) by (rewrite St2; exact Np).
      assert (Ho2 : o ∈ objects (storage s2)) by (rewrite St2; exact Ho).
      destruct (storage_placed s2 o so) as (Q1 & _ & _ & Q4 & _). rewrite Q1, Q4, St2.
      split_and!; [exact (placed_storage_ok s2 o so Eo Ok2 Ho2 Np2) | exact (placed_later s2 o so Eo Ok2 Np2 Nz) | reflexivity |].
      simpl. intros x [Hx | Hx]%elem_of_app; [right; exact Hx | left; apply list_elem_of_singleton in Hx; exact Hx]. }
  destruct P3 as (Ok3 & La3 & Ob3 & Rt3).
  unfold rbind at 1 in E. destruct (obj o s3) as [so3 s3' | | |] eqn:E4; try discriminate.
  assert (s3' = s3) as -> by (unfold obj in E4; destruct (heap s3 !! o); [injection E4 as _ <-; reflexivity | discriminate]).
  unfold rbind at 1 in E. destruct (cm _ s3) as [ds s4 | | |] eqn:E5; try discriminate.
  pose proof (stable_cm loads _ _ _ _ E5) as L4. destruct (loads_ok _ _ L4 Ok3) as [Ok4 La4]. pose proof (lo_storage _ _ L4) as St4.
  unfold rbind at 1 in E. destruct (needed_loop _ _ _ _ ds o global rest s4) as [x s5 | | |] eqn:E6; try discriminate.
  apply list.NoDup_cons in ND as [No ND].
  assert (W4 : waiting s4 rest).
  { split; [exact ND |]. intros y Hy. rewrite St4, Ob3. destruct (Ws y ltac:(right; exact Hy)) as [A B]. split; [exact A |].
    intros Hr. destruct (Rt3 y Hr) as [-> | Hr']; contradiction. }
  pose proof (needed_loop_ok _ _ _ _ _ _ _ E6 Ok4 W4) as P5. destruct x as [e' | stack'].
  - injection E as <- _. contradiction.
  - destruct P5 as (Ok5 & La5 & W5). destruct (IH _ _ _ _ E Es Ok5 W5) as [Ok6 La6]. split; [exact Ok6 |].
    transitivity s1; [exact La1 |]. transitivity s2; [exact La2 |]. transitivity s3; [exact La3 |]. transitivity s4; [exact La4 |]. transitivity s5; assumption.
Qed.

(** What follows when everything is loaded. *)
Lemma settles_finish : stable settles (
  l <~ get (fun s => init_list (storage s)) ;;
  for_each (relocate fuel tlsdesc_static tlsdesc_dynamic) l ;~
  for_each (fun o => late_relocate fuel o ;~ so <~ obj o ;; if executable so then rret tt else protect_object o) l ;~
  rret Success).
Proof using.
  apply (stable_bind settles); [stables | intros l].
  apply (stable_bind settles); [apply settles_each; intros o; stables | intros _].
  apply (stable_bind settles); [apply settles_each; intros o; stables | intros _]. stables.
Qed.

Lemma load_dependencies_ok object global initial s s' :
  load_dependencies fuel DEBUG_INTERFACE tlsdesc_static tlsdesc_dynamic library_paths sizeof_SharedObject object global initial s = ROk Success s' ->
  storage_ok s -> object ∈ objects (storage s) -> object ∉ runtime_tls_map (storage s) ->
  storage_ok s' /\ later s s'.
Proof using.
  unfold load_dependencies. intros E Ok Ho Np.
  unfold rbind at 1 in E. lazymatch type of E with match ?c with _ => _ end = _ => destruct c as [u1 s1 | | |] eqn:E1 end; try discriminate.
  assert (P1 : storage_ok s1 /\ later s s1 /\ objects (storage s1) = objects (storage s) /\ runtime_tls_map (storage s1) = runtime_tls_map (storage s)).
  { destruct global; [| injection E1 as _ <-; split_and!; [exact Ok | reflexivity ..]].
    destruct (upd_lists_ok _ _ _ _ E1 Ok) as (A & B & C); try reflexivity.
    - simpl. intros y [Hy | Hy]%elem_of_app; [exact (ok_global _ Ok y Hy) |]. apply list_elem_of_singleton in Hy as ->. exact Ho.
    - exact (ok_init _ Ok).
    - rewrite C. split_and!; [exact A | exact B | reflexivity ..]. }
  destruct P1 as (Ok1 & La1 & Ob1 & Rt1). unfold rbind at 1, get in E. unfold rbind at 1 in E.
  destruct (load_loop _ _ _ _ _ _ _ _ s1) as [e s2 | | |] eqn:E2; try discriminate.
  destruct (bool_decide (e = Success)) eqn:B.
  - apply bool_decide_eq_true in B as ->.
    destruct (load_loop_ok _ _ _ _ _ _ _ E2 eq_refl Ok1) as [Ok2 La2].
    { split; [apply list.NoDup_singleton |]. intros x Hx. apply list_elem_of_singleton in Hx as ->. rewrite Ob1, Rt1. auto. }
    assert (Se : settles s2 s').
    { exact (settles_finish _ _ _ E). }
    destruct (settles_ok _ _ Se Ok2) as [Ok3 La3]. split; [exact Ok3 |]. transitivity s1; [exact La1 |]. transitivity s2; assumption.
  - apply bool_decide_eq_false in B. unfold rbind in E. destruct (undo_load _ _ _ _ s2); try discriminate. injection E as -> _. contradiction.
Qed.
End Loading.

(** Lookups from a listed object, or from none, only meet objects alive. *)
Lemma storage_scopes {K} (s : rtld K) local : storage_ok s -> local = 0 \/ local ∈ objects (storage s) -> scopes_alive s local.
Proof.
  intros Ok Hl.
  assert (Al : forall x, x ∈ objects (storage s) -> is_Some (heap s !! x)).
  { intros x Hx. destruct (ok_objects _ Ok x Hx) as [c E]. unfold hcore in E. destruct (heap s !! x); [eauto | discriminate]. }
  assert (Hc : forall o so, heap s !! o = Some so -> hcore s o = Some (core_of so)) by (intros o so E; unfold hcore; rewrite E; reflexivity).
  split.
  - pose proof (ok_null _ Ok) as E. unfold hcore in E. destruct (heap s !! 0); [discriminate | reflexivity].
  - intros N. destruct Hl; [contradiction | auto].
  - intros o Ho. apply Al, (ok_global _ Ok o Ho).
  - intros o so x E Hx. apply Al, (ok_deps _ Ok o _ x (Hc o so E)). left. exact Hx.
  - intros o so x E Hx. apply Al, (ok_deps _ Ok o _ x (Hc o so E)). right. exact Hx.
Qed.

