(* ===== verification/LinkExample.v ===== *)
(** * The dynamic linker at work

    A small kernel with files in memory and images made for it: the linker loads
    them, and the theorems of [LoadFacts] apply to the run.  Two findings are
    evaluated on such runs. *)

From stdpp Require Import gmap.
From S2P Require Import Prelude CMem Elf ElfFacts Linker LookupFacts InitFacts LoadFacts.

#[local] Open Scope Z_scope.
#[local] Open Scope rt_scope.

(** ** A kernel *)

Record mini := Mini { opened : gmap Z (list Z * Z); next_fd : Z; next_page : Z; next_block : Z }.

Definition find_file (files : list (list Z * list Z)) (p : list Z) : option (list Z) :=
  snd <$> List.find (fun f => bool_decide (fst f = p)) files.

Definition mini_sys (files : list (list Z * list Z)) : LinkSys mini :=
  {| sys_openat dir p flags k :=
       if flags =? O_DIRECTORY then (inr 3, k)
       else match find_file files p with
            | None => (inl 2, k)
            | Some d => (inr (next_fd k), Mini (<[next_fd k := (d, 0)]> (opened k)) (next_fd k + 1) (next_page k) (next_block k))
            end;
     sys_read fd n k :=
       match opened k !! fd with
       | None => (inl 9, k)
       | Some (d, pos) =>
           let r := take (Z.to_nat n) (drop (Z.to_nat pos) d) in
           (inr r, Mini (<[fd := (d, pos + zlen r)]> (opened k)) (next_fd k) (next_page k) (next_block k))
       end;
     sys_lseek fd off k :=
       match opened k !! fd with
       | None => (9, k)
       | Some (d, _) => (0, Mini (<[fd := (d, off)]> (opened k)) (next_fd k) (next_page k) (next_block k))
       end;
     sys_close fd k := (0, k);
     sys_mmap addr size _ _ k :=
       if addr =? 0 then (inr (next_page k), Mini (opened k) (next_fd k) (next_page k + size) (next_block k)) else (inr addr, k);
     sys_munmap _ _ k := (0, k);
     sys_mprotect _ _ _ k := (0, k);
     allocate size k := (next_block k, Mini (opened k) (next_fd k) (next_page k) (next_block k + size + 16));
     deallocate _ k := k;
     call_fn _ m k := (0, m, k) |}.

(** ** Images

    One segment with the headers, the dynamic section, an empty hash table, one null
    symbol and the strings; a TLS block of [tls] bytes. *)
Definition string_offsets (l : list (list Z)) : list Z :=
  snd (fold_left (fun '(o, r) s => (o + zlen s + 1, r ++ [o])) l (1, [])).

Definition elf_image (soname : list Z) (needed : list (list Z)) (tls : Z) : list Z :=
  let strings := soname :: needed in
  let offs := string_offsets strings in
  let strtab := 0 :: concat (map (fun s => s ++ [0]) strings) in
  let dyn_pos := 64 + 3 * 56 in
  let dyn_size := 16 * (zlen needed + 5) in
  let hash_pos := dyn_pos + dyn_size in
  let sym_pos := hash_pos + 16 in
  let str_pos := sym_pos + 24 in
  let total := str_pos + zlen strtab in
  let entry tag v := le_bytes 8 tag ++ le_bytes 8 v in
  let phdr type flags vaddr size := le_bytes 4 type ++ le_bytes 4 flags ++ le_bytes 8 vaddr ++ le_bytes 8 vaddr ++ le_bytes 8 vaddr ++
    le_bytes 8 (if type =? PT_TLS then 0 else size) ++ le_bytes 8 size ++ le_bytes 8 16 in
  [0x7F; 69; 76; 70; 2; 1; 1] ++ repeat 0 9 ++ le_bytes 2 3 ++ le_bytes 2 0x3E ++ le_bytes 4 1 ++ le_bytes 8 0 ++
  le_bytes 8 64 ++ le_bytes 8 0 ++ le_bytes 4 0 ++ le_bytes 2 64 ++ le_bytes 2 56 ++ le_bytes 2 3 ++ le_bytes 2 0 ++ le_bytes 2 0 ++ le_bytes 2 0 ++
  phdr PT_LOAD 6 0 total ++ phdr PT_DYNAMIC 6 dyn_pos dyn_size ++ phdr PT_TLS 4 str_pos tls ++
  concat (map (fun o => entry DT_NEEDED o) (tail offs)) ++
  entry DT_SONAME (hd 0 offs) ++ entry DT_STRTAB str_pos ++ entry DT_SYMTAB sym_pos ++ entry DT_HASH hash_pos ++ entry DT_NULL 0 ++
  concat (map (le_bytes 4) [1; 1; 0; 0]) ++ repeat 0 24 ++ strtab.

(** ** Runs *)

Definition n_main : list Z := [47; 109].
Definition n_a : list Z := [97].
Definition n_b : list Z := [98].

(** The state before: an object at address 8 that loads the others. *)
Definition start_state : rtld mini :=
  Rtld ∅ (<[8 := new_object (small_object 0 0)]> ∅) (Storage [8] [8] ∅ [] [] 0 0 []) [] 8 8 Consistent None [] None []
    (Mini ∅ 4 0x100000 0x9000).

Section Run.
Variable files : list (list Z * list Z).

Definition load_main : RT mini Z :=
  r <~ load_object_at_path (LS := mini_sys files) 64 0 4096 8 n_main ;;
  match r with inl _ => ensure false ;~ rret 0 | inr o => add_object o ;~ rret o end.

Definition load_all (o : Z) : RT mini LoadError :=
  load_dependencies (LS := mini_sys files) 64 0 0 0 [[47; 108]] 4096 o true true.
End Run.

(** "/m" needs "a" and "b", and "a" needs "b"; all have thread-local data. *)
Definition diamond : list (list Z * list Z) :=
  [(n_main, elf_image n_main [n_a; n_b] 24); (n_a, elf_image n_a [n_b] 40); (n_b, elf_image n_b [] 8)].

(** The result of a run, and the state after it. *)
Definition result {K A} (r : rres K A) : option A := match r with ROk a _ => Some a | _ => None end.
Definition after {K A} (s : rtld K) (r : rres K A) : rtld K := match r with ROk _ s' => s' | _ => s end.

Lemma run_eq {K A} (r : rres K A) s a : result r = Some a -> r = ROk a (after s r).
Proof. destruct r; try discriminate. intros [= ->]. reflexivity. Qed.

(** The object of the first file, the state after it, and after the others. *)
Definition main_object : Z := 37048.
Definition loaded_main (files : list (list Z * list Z)) : rtld mini := after start_state (load_main files start_state).
Definition loaded_all (files : list (list Z * list Z)) : rtld mini :=
  after start_state (load_all files main_object (loaded_main files)).

Lemma start_core o c : hcore start_state o = Some c -> o = 8 /\ c = core_of (new_object (small_object 0 0)).
Proof.
  unfold hcore, start_state. cbn [heap]. destruct (decide (o = 8)) as [-> | N].
  - rewrite lookup_insert_eq. intros [= <-]. auto.
  - rewrite lookup_insert_ne, lookup_empty by congruence. discriminate.
Qed.

Lemma start_ok : storage_ok start_state /\ tls_ok start_state.
Proof.
  split.
  - split; cbn.
    + reflexivity.
    + intros o Ho. apply list_elem_of_singleton in Ho as ->. vm_compute. eauto.
    + apply list.NoDup_singleton.
    + auto.
    + intros o Ho. contradict Ho. apply not_elem_of_nil.
    + intros o Ho. contradict Ho. apply not_elem_of_nil.
    + intros o c x E Hx. apply start_core in E as [_ ->]. cbn in Hx. destruct Hx as [Hx | Hx]; contradict Hx; apply not_elem_of_nil.
    + apply base.NoDup_nil_2.
    + discriminate.
  - split; cbn.
    + intros i c (o & A & _). discriminate.
    + intros i j c d _ (o & A & _). discriminate.
    + unfold zlen. simpl. lia.
Qed.

Lemma loaded_main_eq : load_main diamond start_state = ROk main_object (loaded_main diamond).
Proof. apply run_eq. vm_compute. reflexivity. Qed.

(** Loading the first file keeps the invariants. *)
Lemma load_main_ok files s o s' : load_main files s = ROk o s' -> storage_ok s -> tls_ok s ->
  storage_ok s' /\ (tls_fits s' -> tls_ok s') /\ o ∈ objects (storage s').
Proof.
  intros E Ok T. unfold load_main in E. unfold rbind at 1 in E.
  destruct (load_object_at_path _ _ _ _ _ s) as [[e | o'] s1 | | |] eqn:E1; try discriminate.
  destruct (gives_at_path _ _ _ _ _ _ _ _ E1) as [L (N & Nz & img & Hi)]. destruct (loads_ok _ _ L Ok) as [Ok1 La1].
  unfold rbind in E. destruct (add_object o' s1) as [u s2 | | |] eqn:E2; try discriminate. injection E as <- <-.
  destruct (add_object_ok _ _ _ _ E2 Ok1) as (Ok2 & La2 & Ob & _).
  - unfold hcore. rewrite Hi. eauto.
  - rewrite (lo_storage _ _ L). intros Hin. destruct (ok_objects _ Ok o' Hin) as [c Ec]. unfold hcore in Ec. rewrite N in Ec. discriminate.
  - split_and!; [exact Ok2 | | rewrite Ob; apply elem_of_app; right; left].
    intros F. exact (proj2 La2 F (proj2 La1 (proj1 La2 F) T)).
Qed.

Lemma loaded_main_ok : storage_ok (loaded_main diamond) /\ (tls_fits (loaded_main diamond) -> tls_ok (loaded_main diamond)) /\
  main_object ∈ objects (storage (loaded_main diamond)).
Proof. exact (load_main_ok diamond start_state main_object (loaded_main diamond) loaded_main_eq (proj1 start_ok) (proj2 start_ok)). Qed.

(** Sizes of a run, checked object by object. *)
Definition fits_check (so : SharedObject) : bool :=
  (tls_size so =? 0) || ((0 <? tls_size so) && (tls_size so <=? 2 ^ 40) && (tls_align so =? 2 ^ Z.log2 (tls_align so)) && (Z.log2 (tls_align so) <=? 40)).

Lemma fits_by_check (s : rtld mini) :
  forallb (fun p => fits_check p.2) (map_to_list (heap s)) && (zlen (runtime_tls_map (storage s)) <=? 2 ^ 20) = true -> tls_fits s.
Proof.
  rewrite andb_true_iff, forallb_forall. intros [A B]. split; [lia |]. intros o c E Nz. unfold hcore in E.
  destruct (heap s !! o) as [so |] eqn:Eo; [| discriminate]. injection E as <-.
  specialize (A (o, so)). rewrite <- list_elem_of_In, elem_of_map_to_list in A. specialize (A Eo). unfold fits_check in A. cbn [snd] in A.
  cbn [core_of c_image] in *. destruct (Z.eqb_spec (tls_size so) 0); [contradiction |]. cbn [orb] in A. rewrite !andb_true_iff in A.
  destruct A as [[[A1 A2] A3] A4]. split; [lia |]. exists (Z.log2 (tls_align so)). pose proof (Z.log2_nonneg (tls_align so)). lia.
Qed.


(** ** Findings *)

(** The constructors of "a" run before those of "b", on which it depends: the list
    is in the order of loading, not of the dependencies. *)
Theorem init_order_ignores_dependencies : exists a b,
  dependencies <$> heap (loaded_all diamond) !! a = Some [b] /\
  let r := init_objects (LS := mini_sys diamond) 64 (loaded_all diamond) in
  result r = Some tt /\ destruct_list (storage (after start_state r)) = [a; b; main_object].
Proof. exists 41344, 45640. cbv zeta. split_and!; vm_compute; reflexivity. Qed.

(** "/m" needs "a", which is there, and "b", which is not. *)
Definition incomplete : list (list Z * list Z) :=
  [(n_main, elf_image n_main [n_a; n_b] 24); (n_a, elf_image n_a [] 40)].

(** After the failure the list of objects to initialise still names the destroyed
    object, and so does the module table; the next initialisation uses it. *)
Theorem failed_load_leaves_dangling_object :
  let r := load_all incomplete main_object (loaded_main incomplete) in
  let s' := after start_state r in
  result r = Some NotFound /\ init_list (storage s') = [main_object] /\ runtime_tls_map (storage s') = [main_object] /\
  core_of <$> heap s' !! main_object = None /\
  match init_objects (LS := mini_sys incomplete) 64 s' with RFault => true | _ => false end = true.
Proof. cbv zeta. split_and!; vm_compute; reflexivity. Qed.
