(* ===== verification/Dlfcn.v ===== *)
(** * The run-time interface of the dynamic linker

    [src/src/rtld/rtld.cpp]: [dlopen], [dlsym], [dladdr], [dlerror] (the functions
    [__dlapi_*] behind them), [_dl_find_object], [__tls_get_addr], [dl_iterate_phdr] and the
    thread control blocks, over [Linker]. *)

From stdpp Require Import gmap.
From S2P Require Import Prelude CMem Elf Linker LookupFacts InitFacts LoadFacts.

#[local] Open Scope Z_scope.
#[local] Open Scope rt_scope.

Definition RTLD_NEXT : Z := -1.
Definition RTLD_DEFAULT : Z := 0.
Definition RTLD_NOLOAD : Z := 0x4.
Definition RTLD_GLOBAL : Z := 0x100.

(** [DlInfo]; a null [symbol] is 0. *)
Record DlInfo := {
  object_path : list Z; object_base : Z; symbol_name : Z; symbol_address : Z; symbol : Z; info_map : Z }.

Record dl_find_object := { dlfo_map_start : Z; dlfo_map_end : Z; dlfo_link_map : Z; dlfo_eh_frame : option Z }.

Section Dlfcn.
Context {K : Type} {LS : LinkSys K}.
Variable fuel : nat.
Variables DEBUG_INTERFACE tlsdesc_static tlsdesc_dynamic : Z.
Variable library_paths : list (list Z).
Variable sizeof_SharedObject : Z.
(** The thread control block of the calling thread. *)
Variable current_tcb : Z.

Abbreviation RTK := (RT K).

(** [addr] is in a loaded segment of the image. *)
Definition in_segments (so : Image) (addr : Z) : bool :=
  existsb (fun h => is_type PT_LOAD h && (u64 (base so + p_vaddr h) <=? addr) && (addr <? u64 (base so + p_vaddr h + p_memsz h)))
    (phdrs_vec so).

Definition object_from_addr (addr : Z) : RTK (option Z) :=
  l <~ get (fun s => objects (storage s)) ;; find_object (fun so => in_segments so addr) l.

Definition set_error (e : dl_error) : RTK unit := put (set_last_error (Some e)).

Definition set_debug_state_to_load : RTK unit := put (set_debug_state Add).
Definition set_debug_state_to_normal : RTK unit := put (set_debug_state Consistent).

(** "libc.so" and the names that stand for it. *)
Definition libc_name : list Z := [108; 105; 98; 99; 46; 115; 111].
Definition libc_aliases : list (list Z) :=
  [ [108; 100; 45; 108; 105; 110; 117; 120; 46; 115; 111; 46; 50]
  ; [108; 100; 45; 108; 105; 110; 117; 120; 45; 120; 56; 54; 45; 54; 52; 46; 115; 111; 46; 50]
  ; [108; 105; 98; 99; 46; 115; 111; 46; 54]
  ; [108; 105; 98; 112; 116; 104; 114; 101; 97; 100; 46; 115; 111; 46; 48] ].

Definition canonical (nm : list Z) : list Z := if bool_decide (nm ∈ libc_aliases) then libc_name else nm.

Definition ends_with (suffix l : list Z) : bool := bool_decide (drop (length l - length suffix) l = suffix).

(** The test for an object that is loaded already. *)
Definition matches (nm : list Z) (so : SharedObject) : bool :=
  if has_slash nm then bool_decide (Elf.path so = nm)
  else bool_decide (Elf.name so = Some nm) || ends_with nm (Elf.path so).

(** Loading a new object: [None] after an error. *)
Definition open_new (origin : Z) (nm : list Z) (flags : Z) : RTK (option Z) :=
  let global := negb (Z.land flags RTLD_GLOBAL =? 0) in
  set_debug_state_to_load ;~
  r <~ (if has_slash nm then load_object_at_path fuel DEBUG_INTERFACE sizeof_SharedObject origin nm
        else load_object_with_name fuel DEBUG_INTERFACE library_paths sizeof_SharedObject origin nm) ;;
  match r with
  | inl e => set_error (LoadFailed e) ;~ set_debug_state_to_normal ;~ rret None
  | inr o =>
    add_object o ;~
    st <~ load_dependencies fuel DEBUG_INTERFACE tlsdesc_static tlsdesc_dynamic library_paths sizeof_SharedObject o global false ;;
    if bool_decide (st = Success) then rret (Some o)
    else
      upd_storage (fun s => with_objects (removelast (objects s)) s) ;~
      set_error (LoadFailed st) ;~ set_debug_state_to_normal ;~ rret None
  end.

(** [filename] is [None] for a null pointer; the result is a handle or 0. *)
Definition dlapi_open (filename : option (list Z)) (flags return_addr : Z) : RTK Z :=
  match filename with
  | None =>
    l <~ get (fun s => objects (storage s)) ;;
    match l with [] => fun _ => RFault | o :: _ => rret o end
  | Some fname =>
    origin <~ object_from_addr return_addr ;;
    match origin with
    | None => ensure false ;~ rret 0
    | Some origin =>
      let nm := canonical fname in
      l <~ get (fun s => objects (storage s)) ;;
      known <~ find_object (matches nm) l ;;
      match known with
      | Some o => rret o
      | None =>
        if negb (Z.land flags RTLD_NOLOAD =? 0) then set_error OBJECT_NOT_FOUND ;~ rret nullptr
        else
          r <~ open_new origin nm flags ;;
          match r with
          | None => rret nullptr
          | Some o =>
            (if Z.land flags RTLD_GLOBAL =? 0
             then upd_obj origin (fun so => with_local_scope (local_scope so ++ [o]) so) else rret tt) ;~
            set_debug_state_to_normal ;~
            init_tls current_tcb true ;~
            l <~ get (fun s => init_list (storage s)) ;;
            upd_storage (with_init_list []) ;~
            for_each (init_one fuel) (rev l) ;~
            rret o
          end
      end
    end
  end.

Definition dlapi_close (handle : Z) : RTK Z := rret 0.

(** The value of a resolved symbol, or an error. *)
Definition symbol_value (r : option (Z * Z)) : RTK Z :=
  match r with
  | None => set_error SYMBOL_NOT_FOUND ;~ rret nullptr
  | Some (o, p) => so <~ obj o ;; sym <~ cm (read_sym p) ;; rret (u64 (base so + st_value sym))
  end.

Definition dlapi_get_sym (handle nm return_addr : Z) : RTK Z :=
  if handle =? RTLD_DEFAULT then r <~ storage_lookup fuel 0 nm PolicyNone ;; symbol_value r
  else if handle =? RTLD_NEXT then
    origin <~ object_from_addr return_addr ;;
    match origin with
    | None => ensure false ;~ rret 0
    | Some o => r <~ storage_lookup fuel o nm IgnoreLocal ;; symbol_value r
    end
  else r <~ storage_lookup fuel handle nm LocalAndDeps ;; symbol_value r.

(** [addr] is in the symbol; one without a size is its first byte. *)
Definition covers (b : Z) (sym : Elf_Sym) (addr : Z) : bool :=
  negb (st_shndx sym =? SHN_UNDEF) && negb (ELF_ST_BIND (st_info sym) =? STB_LOCAL) &&
  (u64 (b + st_value sym) <=? addr) &&
  (if negb (st_size sym =? 0) then addr <? u64 (u64 (b + st_value sym) + st_size sym) else addr =? u64 (b + st_value sym)).

(** The first symbol from [i] on that covers [addr]: its address and itself. *)
Fixpoint symbol_at (n : nat) (so : Image) (i addr : Z) : CM (option (Z * Elf_Sym)) :=
  match n with
  | O => cret None
  | S n' =>
    let p := symtab so + sizeof_Elf_Sym * i in
    (sym <- read_sym p ;;
     if covers (base so) sym addr then cret (Some (p, sym)) else symbol_at n' so (i + 1) addr)%cm
  end.

Definition dlapi_dladdr (addr : Z) : RTK (option DlInfo) :=
  o <~ object_from_addr addr ;;
  match o with
  | None => rret None
  | Some o =>
    so <~ obj o ;;
    r <~ cm (symbol_at (Z.to_nat (num_symbols so - 1)) so 1 addr) ;;
    rret (Some (match r with
      | Some (p, sym) => {| object_path := Elf.path so; object_base := base so; symbol_name := strtab so + st_name sym;
                            symbol_address := u64 (base so + st_value sym); symbol := p; info_map := o |}
      | None => {| object_path := Elf.path so; object_base := base so; symbol_name := 0; symbol_address := 0;
                   symbol := 0; info_map := o |}
      end))
  end.

Definition _dl_find_object (addr : Z) : RTK (option dl_find_object) :=
  l <~ get (fun s => objects (storage s)) ;;
  o <~ find_object (fun so => negb ((addr <? base so) || (end_ so <? addr))) l ;;
  match o with
  | None => rret None
  | Some o =>
    so <~ obj o ;;
    rret (Some {| dlfo_map_start := base so; dlfo_map_end := end_ so; dlfo_link_map := o;
      dlfo_eh_frame := match List.filter (is_type PT_GNU_EH_FRAME) (phdrs_vec so) with
                       | h :: _ => Some (u64 (base so + p_vaddr h)) | [] => None end |})
  end.

(** [entry] is a [TlsEntry]: the object and an offset. *)
Definition __tls_get_addr (object offset : Z) : RTK Z := p <~ access_tls_for_object object ;; rret (p + offset).

(** The callback of [dl_iterate_phdr] is a parameter: it sees the object and the address of
    its thread-local block. *)
Fixpoint iterate_phdr (callback : Z -> SharedObject -> Z -> RTK Z) (l : list Z) : RTK Z :=
  match l with
  | [] => rret 0
  | o :: r =>
    so <~ obj o ;;
    data <~ try_access_tls_for_object o ;;
    ret <~ callback o so data ;;
    if negb (ret =? 0) then rret ret else iterate_phdr callback r
  end.
Definition dlapi_iterate_phdr (callback : Z -> SharedObject -> Z -> RTK Z) : RTK Z :=
  l <~ get (fun s => objects (storage s)) ;; iterate_phdr callback l.

(** The last error, once. *)
Definition dlapi_get_error : RTK (option dl_error) :=
  e <~ get last_error ;; put (set_last_error None) ;~ rret e.

Definition dlapi_exit : RTK unit := destruct_objects.
Definition dlapi_destroy : RTK unit := unload_objects.

(** [sizeof(Tcb)] and its alignment. *)
Variables sizeof_Tcb : Z.
Definition alignof_Tcb : Z := 16.

Definition tcb_offset (st : ObjectStorage) : Z :=
  Z.land (u64 (total_initial_tls_size st + alignof_Tcb - 1)) (Z.lnot (alignof_Tcb - 1)).

(** [None] when there is no memory. *)
Definition dlapi_create_tcb : RTK (option Z) :=
  st <~ get storage ;;
  p <~ sys (allocate (tcb_offset st + sizeof_Tcb)) ;;
  if p =? 0 then rret None
  else
    put (fun s => set_memory (fill (Z.to_nat (tcb_offset st + sizeof_Tcb)) p 0 (memory s)) s) ;~
    init_tls (p + tcb_offset st) false ;~
    rret (Some (p + tcb_offset st)).

Definition dlapi_destroy_tcb (tcb : Z) : RTK unit :=
  st <~ get storage ;; sys (fun k => (tt, deallocate (tcb - tcb_offset st) k)).

(** ** Theorems *)

Lemma find_object_none p l (s : rtld K) : (forall o, o ∈ l -> exists so, heap s !! o = Some so /\ p so = false) ->
  find_object p l s = ROk None s.
Proof using.
  induction l as [| o l IH]; intros H; cbn [find_object]; [reflexivity |].
  destruct (H o ltac:(left)) as (so & E & F). rewrite (rbind_ok _ _ _ _ _ (obj_ok o s so E)), F. apply IH. intros x Hx. apply H. right. exact Hx.
Qed.

Lemma find_object_first p l o so (s : rtld K) : forall pre post, l = pre ++ o :: post ->
  (forall x, x ∈ pre -> exists so, heap s !! x = Some so /\ p so = false) -> heap s !! o = Some so -> p so = true ->
  find_object p l s = ROk (Some o) s.
Proof using.
  intros pre post ->. induction pre as [| x pre IH]; intros H E P; cbn [find_object app].
  - rewrite (rbind_ok _ _ _ _ _ (obj_ok o s so E)), P. reflexivity.
  - destruct (H x ltac:(left)) as (sx & Ex & Fx). rewrite (rbind_ok _ _ _ _ _ (obj_ok x s sx Ex)), Fx.
    apply IH; [intros y Hy; apply H; right; exact Hy | exact E | exact P].
Qed.

(** Opening an object that is loaded already changes nothing and gives its handle. *)
Lemma dlopen_known flags ret fname origin o so (s : rtld K) pre post :
  object_from_addr ret s = ROk (Some origin) s ->
  objects (storage s) = pre ++ o :: post -> (forall x, x ∈ pre -> exists sx, heap s !! x = Some sx /\ matches (canonical fname) sx = false) ->
  heap s !! o = Some so -> matches (canonical fname) so = true ->
  dlapi_open (Some fname) flags ret s = ROk o s.
Proof using.
  intros O L P E M. unfold dlapi_open. rewrite (rbind_ok _ _ _ _ _ O). unfold rbind at 1, get.
  rewrite (rbind_ok _ _ _ _ _ (find_object_first _ _ o so s pre post L P E M)). reflexivity.
Qed.

(** With [RTLD_NOLOAD] an object that is not loaded is an error. *)
Lemma dlopen_noload flags ret fname origin (s : rtld K) :
  object_from_addr ret s = ROk (Some origin) s -> Z.land flags RTLD_NOLOAD <> 0 ->
  (forall x, x ∈ objects (storage s) -> exists sx, heap s !! x = Some sx /\ matches (canonical fname) sx = false) ->
  dlapi_open (Some fname) flags ret s = ROk nullptr (set_last_error (Some OBJECT_NOT_FOUND) s).
Proof using.
  intros O F P. unfold dlapi_open. rewrite (rbind_ok _ _ _ _ _ O). unfold rbind at 1, get.
  rewrite (rbind_ok _ _ _ _ _ (find_object_none _ _ s P)). destruct (Z.eqb_spec (Z.land flags RTLD_NOLOAD) 0); [contradiction | reflexivity].
Qed.

(** [dladdr] names a defined symbol of the object that covers the address. *)
Lemma symbol_at_ok n : forall so i addr m p sym m', symbol_at n so i addr m = Ret (Some (p, sym)) m' ->
  covers (base so) sym addr = true /\ exists j, i <= j < i + Z.of_nat n /\ p = symtab so + sizeof_Elf_Sym * j /\ read_sym p m = Ret sym m.
Proof using.
  induction n as [| n IH]; intros so i addr m p sym m' E; cbn [symbol_at] in E; [discriminate |].
  assert (RO : forall q v mm, read_sym q m = Ret v mm -> mm = m).
  { clear. intros q v mm. unfold read_sym, load16, load32, load64, load_le, cbind, load8, cret.
    repeat match goal with |- context [m !! ?a] => destruct (m !! a); try discriminate end. congruence. }
  unfold cbind in E. destruct (read_sym (symtab so + sizeof_Elf_Sym * i) m) as [v mm | |] eqn:R; try discriminate.
  pose proof (RO _ _ _ R) as ->. destruct (covers (base so) v addr) eqn:C.
  - injection E as <- <- _. split; [exact C |]. exists i. split_and!; [lia | lia | reflexivity | exact R].
  - destruct (IH _ _ _ _ _ _ _ E) as (C' & j & J & P & R'). split; [exact C' |]. exists j. split_and!; [lia | lia | exact P | exact R'].
Qed.
End Dlfcn.
