(* ===== verification/Literal.v ===== *)
(** * String literals and C strings

    The components hold strings as lists of character codes; [chars] is the list for a
    literal of the source, and [cstring] the string at the front of some memory.  They have
    their own file because [chars] needs the strings of the Standard Library, which the
    prelude does not load. *)

From Stdlib Require Import String Ascii.
From stdpp Require Import base list.
From Stdlib Require Import ZArith.

#[local] Open Scope Z_scope.

Definition chars (s : string) : list Z := map (fun c => Z.of_N (N_of_ascii c)) (list_ascii_of_string s).
Arguments chars s%_string_scope.

Fixpoint cstring (m : list Z) : list Z := match m with [] => [] | c :: r => if c =? 0 then [] else c :: cstring r end.

Lemma cstring_app (s r : list Z) : 0 ∉ s -> cstring (s ++ 0 :: r) = s.
Proof. induction s as [| c s IH]; [reflexivity |]. intros N%not_elem_of_cons. cbn. destruct (Z.eqb_spec c 0); [by subst; destruct N | by rewrite IH by apply N]. Qed.
