(* ===== verification/StrToFloat.v ===== *)
(** * Floating point numbers in strings

    [str_to_float] of [src/src/ansi/str_to_float.hpp], the template behind [strtof],
    [strtod], [strtold], [atof] ([ansi/stdlib.cpp]), their locale forms
    ([posix/stdlib.cpp]) and the wide forms ([ansi/wchar.cpp]).

    As in [StrToInt] a pointer is the list of the characters from it to the terminator.
    The type [T] is a format of [Ieee]; [long double] has the values of a format with 64
    bits of precision and 15 bits of exponent.  The result is [None] when the code
    reads behind the terminator or overflows an [int], both undefined; otherwise the
    number, the end pointer, and whether [errno] is set to [ERANGE]. *)

From Stdlib Require Import String Ascii.
From stdpp Require Import base list option.
From S2P Require Import Prelude Literal Ctype StrToInt Ieee MathBits MathRound PrintfFloat.

#[local] Open Scope Z_scope.

Definition F80 : fmt := {| mbits := 63; ebits := 15 |}.

Definition ch_dot : Z := 46.
Definition ch_open : Z := 40.
Definition ch_close : Z := 41.

(** [s2] has no terminator within [count]. *)
Fixpoint str_case_cmp (C : CharType) (s1 s2 : list Z) : Z :=
  match s2 with
  | [] => 0
  | c2 :: s2 =>
    let res := tolower_helper C (at_ s1 0) - tolower_helper char_type c2 in
    if negb (res =? 0) || (at_ s1 0 =? 0) then res else str_case_cmp C (drop 1 s1) s2
  end.

(** Up to the closing parenthesis and behind it. *)
Fixpoint skip_parens (ptr : list Z) : option (list Z) :=
  match ptr with [] => None | c :: r => if c =? ch_close then Some r else skip_parens r end.

Section StrToFloat.
Context (F : fmt) (C : CharType).

Definition float_char (base c : Z) : bool :=
  if base =? 10 then (ch_0 <=? c) && (c <=? ch_9)
  else ((ch_0 <=? c) && (c <=? ch_9)) || ((ch_a <=? Z.lor c (Z.shiftl 1 5)) && (Z.lor c (Z.shiftl 1 5) <=? 102)).

(** The digits before the point. *)
Fixpoint int_part (base : Z) (ptr : list Z) (value : Z) : Z * list Z :=
  match ptr with
  | [] => (value, [])
  | c :: r =>
    if float_char base c then int_part base r (fadd F (fmul F value (of_int F base)) (of_int F (digit_of C c)))
    else (value, ptr)
  end.

(** The digits behind it; [decimal] is the weight of the next one. *)
Fixpoint frac_part (base : Z) (ptr : list Z) (value decimal : Z) : Z * list Z :=
  match ptr with
  | [] => (value, [])
  | c :: r =>
    if float_char base c
    then frac_part base r (fadd F value (fdiv F (of_int F (digit_of C c)) decimal)) (fmul F decimal (of_int F base))
    else (value, ptr)
  end.

(** The exponent is an [int]. *)
Fixpoint exponent_digits (ptr : list Z) (exponent : Z) : option (Z * list Z) :=
  match ptr with
  | [] => Some (exponent, [])
  | c :: r =>
    if (ch_0 <=? c) && (c <=? ch_9) then
      x ← chk_s 32 (exponent * 10); x ← chk_s 32 (x + (c - ch_0)); exponent_digits r x
    else Some (exponent, ptr)
  end.

(** The loops over [i < exponent]. *)
Definition scale (sign : bool) (exponent by_ value : Z) : Z :=
  Z.iter exponent (fun v => if sign then fdiv F v (of_int F by_) else fmul F v (of_int F by_)) value.

Definition exponent_part (base : Z) (ptr : list Z) (value : Z) : option (Z * list Z) :=
  if tolower_helper C (at_ ptr 0) =? (if base =? 10 then 101 else 112) then
    let '(exponent_sign, ptr) := parse_sign (drop 1 ptr) in
    '(exponent, ptr) ← exponent_digits ptr 0;
    Some (scale exponent_sign exponent (if base =? 10 then 10 else 2) value, ptr)
  else Some (value, ptr).

(** What is left when the text is neither a NaN nor an infinity. *)
Definition number_part (ptr : list Z) : option (Z * list Z) :=
  let '(base, ptr) := if (at_ ptr 0 =? ch_0) && (tolower_helper C (at_ ptr 1) =? ch_x) then (16, drop 2 ptr) else (10, ptr) in
  let '(value, ptr) := int_part base ptr 0 in
  let '(value, ptr) := if at_ ptr 0 =? ch_dot then frac_part base (drop 1 ptr) value (of_int F base) else (value, ptr) in
  exponent_part base ptr value.

Definition str_to_float (ptr : list Z) : option (Z * list Z * bool) :=
  let '(sign, ptr) := parse_sign (skip_space C ptr) in
  if str_case_cmp C ptr (chars "nan") =? 0 then
    let ptr := drop 3 ptr in
    ptr ← (if at_ ptr 0 =? ch_open then skip_parens ptr else Some ptr);
    Some (qnan F, ptr, false)
  else if str_case_cmp C ptr (chars "infinity") =? 0 then Some (inf_mag F, drop 8 ptr, false)
  else if str_case_cmp C ptr (chars "inf") =? 0 then Some (inf_mag F, drop 3 ptr, false)
  else
    '(value, ptr) ← number_part ptr;
    Some (if sign then fneg F value else value, ptr, isinf F value).
End StrToFloat.

Definition strtof : list Z -> option (Z * list Z * bool) := str_to_float F32 char_type.
Definition strtod : list Z -> option (Z * list Z * bool) := str_to_float F64 char_type.
Definition strtold : list Z -> option (Z * list Z * bool) := str_to_float F80 char_type.
Definition wcstof : list Z -> option (Z * list Z * bool) := str_to_float F32 wchar_type.
Definition wcstod : list Z -> option (Z * list Z * bool) := str_to_float F64 wchar_type.
Definition wcstold : list Z -> option (Z * list Z * bool) := str_to_float F80 wchar_type.
Definition strtof_l (ptr : list Z) (locale : Z) : option (Z * list Z * bool) := strtof ptr.
Definition strtod_l (ptr : list Z) (locale : Z) : option (Z * list Z * bool) := strtod ptr.
Definition strtold_l (ptr : list Z) (locale : Z) : option (Z * list Z * bool) := strtold ptr.

(** [end_ptr] is null. *)
Definition atof (str : list Z) : option (Z * bool) := '(value, _, erange) ← str_to_float F64 char_type str; Some (value, erange).

(** 0x1.8p+1, 12.5, 1e3, and text that is no number. *)
Example strtod_hex : strtod (chars "0x1.8p+1;") = Some (0x4008000000000000, chars ";", false).
Proof. by_vm. Qed.
Example strtod_dec : strtod (chars " -12.5e1x") = Some (0xc05f400000000000, chars "x", false).
Proof. by_vm. Qed.

(** ** Exact steps *)

Section Exact.
Context (F : fmt) {HF : FmtOk F}.

Abbreviation One := (2 ^ eunit F).

(** A magnitude and its value in units. *)
Definition holds (x v : Z) : Prop := 0 <= x < inf_mag F /\ mval F x = v.

Lemma holds_facts x v : holds x v -> isfinite F x = true /\ is_u (width F) x /\ sgn F x = false /\ mag F x = x /\ fval F x = v /\
  isnan F x = false /\ isinf F x = false.
Proof using HF.
  intros [R V]. destruct (with_sgn_finite F false x R) as (A & B & C & D & E). cbn [with_sgn] in *.
  destruct (finite_cases F x A) as (N & I & _). rewrite V in E. auto 10.
Qed.

Lemma holds_inj x y v : holds x v -> holds y v -> x = y.
Proof using HF. intros [R <-] [R' E]. symmetry. apply (mval_inj F); lia. Qed.

Lemma holds_nonneg x v : holds x v -> 0 <= v.
Proof using HF. intros [R <-]. apply mval_nonneg; [exact HF | lia]. Qed.

Lemma holds_0 : holds 0 0.
Proof using HF. split; [pose proof (inf_lt_sgnbit F); lia | apply mval_0; exact HF]. Qed.

Lemma holds_zero x : holds x 0 -> x = 0.
Proof using HF. intros H. exact (holds_inj _ _ _ H holds_0). Qed.

Lemma holds_int d : 0 <= d <= 2 * 2 ^ mbits F -> holds (of_int F d) (d * One).
Proof using HF.
  intros Hd. destruct (of_int_exact F d ltac:(lia)) as (V & Fi & U & S). unfold holds.
  destruct (finite_cases F _ Fi) as (_ & _ & M). pose proof (with_sgn_split F _ U) as E. rewrite S in E.
  destruct (Z.ltb_spec d 0); [lia |]. cbn [with_sgn] in E. rewrite E in M. pose proof (mag_range F (of_int F d)). rewrite E in H0.
  split; [lia |]. unfold fval in V. rewrite S in V. destruct (Z.ltb_spec d 0); [lia |]. rewrite E in V. exact V.
Qed.

Lemma exact_add x y z v w : holds x v -> holds y w -> holds z (v + w) -> fadd F x y = z.
Proof using HF.
  intros Hx Hy Hz. pose proof (holds_nonneg _ _ Hz) as Nz. destruct (holds_facts _ _ Hx) as (Fx & _ & Sx & _ & Vx & _).
  destruct (holds_facts _ _ Hy) as (Fy & _ & Sy & _ & Vy & _). destruct (fadd_exact F x y Fx Fy) as (V & Fi & U & S).
  { rewrite Vx, Vy. destruct Hz as [R E]. exists z. split; [exact R | lia]. }
  rewrite Vx, Vy, Sx in *. assert (S' : sgn F (fadd F x y) = false) by (rewrite S; destruct (Z.eqb_spec (v + w) 0), (Z.ltb_spec (v + w) 0); lia || reflexivity).
  pose proof (with_sgn_split F _ U) as E. rewrite S' in E. cbn [with_sgn] in E. destruct (finite_cases F _ Fi) as (_ & _ & M).
  apply (holds_inj _ _ (v + w)); [| exact Hz]. unfold fval in V. rewrite S' in V. rewrite E in *. pose proof (mag_range F (fadd F x y)). split; [lia | exact V].
Qed.

Lemma decode_holds x v : holds x v -> exists m k, decode F x = (m, k) /\ m * 2 ^ k = v /\ 0 <= k /\ 0 <= m < 2 * 2 ^ mbits F.
Proof using HF.
  intros [R V]. destruct (decode F x) as [m k] eqn:D. exists m, k. destruct (decode_spec F x m k ltac:(lia) D) as (_ & K & M & _).
  rewrite (mval_decode F x m k D) in V. auto.
Qed.

(** An exact rounding: [n * 2 ^ (a - b)] units are the value of [z]. *)
Lemma round_holds n a b z v : 0 < n -> 0 <= a -> 0 <= b -> holds z v -> n * 2 ^ a = v * 2 ^ b -> round_mag F n (a - b) = z.
Proof using HF.
  intros Hn Ha Hb [R V] E. apply round_mag_exact; [exact HF | exact Hn | exact R |]. rewrite V.
  apply (Z.mul_reg_r _ _ (2 ^ Z.min a b)); [apply Z.pow_nonzero; lia |]. rewrite <- !Z.mul_assoc, <- !Z.pow_add_r by lia.
  replace (Z.max 0 (a - b) + Z.min a b) with a by lia. replace (Z.max 0 (- (a - b)) + Z.min a b) with b by lia. exact E.
Qed.

Lemma exact_mul x c z v k : holds x v -> holds c (k * One) -> holds z (v * k) -> fmul F x c = z.
Proof using HF.
  intros Hx Hc Hz. pose proof (eunit_pos F) as Eu. pose proof (Z.pow_pos_nonneg 2 (eunit F) ltac:(lia) ltac:(lia)) as P.
  destruct (holds_facts _ _ Hx) as (_ & _ & Sx & Mx & _ & Nx & Ix). destruct (holds_facts _ _ Hc) as (_ & _ & Sc & Mc & _ & Nc & Ic).
  destruct (decode_holds _ _ Hx) as (m1 & k1 & D1 & E1 & K1 & M1). destruct (decode_holds _ _ Hc) as (m2 & k2 & D2 & E2 & K2 & M2).
  unfold fmul. rewrite Nx, Nc, Ix, Ic, Sx, Sc, Mx, Mc, D1, D2. cbn [orb xorb with_sgn].
  pose proof (Z.pow_pos_nonneg 2 k1 ltac:(lia) K1). pose proof (Z.pow_pos_nonneg 2 k2 ltac:(lia) K2).
  destruct (Z.eqb_spec m1 0) as [-> | N1]; [| destruct (Z.eqb_spec m2 0) as [-> | N2]]; cbn [orb].
  - symmetry. apply holds_zero. replace 0 with (v * k) by nia. exact Hz.
  - symmetry. apply holds_zero. replace 0 with (v * k) by nia. exact Hz.
  - apply (round_holds (m1 * m2) (k1 + k2) (eunit F) z (v * k)); [apply Z.mul_pos_pos; lia | lia | lia | exact Hz |].
    rewrite Z.pow_add_r by lia. transitivity ((m1 * 2 ^ k1) * (m2 * 2 ^ k2)); [ring |]. rewrite E1, E2. ring.
Qed.

(** A division by a power of two. *)
Lemma exact_div x c z v w j : 0 <= j -> holds x v -> holds c (2 ^ j * One) -> holds z w -> w * 2 ^ j = v -> fdiv F x c = z.
Proof using HF.
  intros Hj Hx Hc Hz E. pose proof (eunit_pos F) as Eu. pose proof (mbits_gt F) as Mb.
  destruct (holds_facts _ _ Hx) as (_ & _ & Sx & Mx & _ & Nx & Ix). destruct (holds_facts _ _ Hc) as (_ & _ & Sc & Mc & _ & Nc & Ic).
  destruct (decode_holds _ _ Hx) as (m1 & k1 & D1 & E1 & K1 & M1). destruct (decode_holds _ _ Hc) as (m2 & k2 & D2 & E2 & K2 & M2).
  rewrite <- Z.pow_add_r in E2 by lia. pose proof (Z.pow_pos_nonneg 2 (j + eunit F) ltac:(lia) ltac:(lia)) as P.
  assert (L : k2 <= j + eunit F).
  { destruct (Z.le_gt_cases k2 (j + eunit F)); [assumption |]. pose proof (Z.pow_lt_mono_r 2 (j + eunit F) k2 ltac:(lia) ltac:(lia) ltac:(lia)). assert (m2 <> 0) by (intros ->; lia). nia. }
  set (t := j + eunit F - k2) in *. assert (Em : m2 = 2 ^ t).
  { apply (Z.mul_reg_r _ _ (2 ^ k2)); [apply Z.pow_nonzero; lia |]. rewrite E2, <- Z.pow_add_r by lia. f_equal. lia. }
  assert (Lt : t <= mbits F).
  { destruct (Z.le_gt_cases t (mbits F)); [assumption |]. pose proof (Z.pow_le_mono_r 2 (mbits F + 1) t ltac:(lia) ltac:(lia)).
    rewrite Z.pow_add_r in H0 by lia. lia. }
  unfold fdiv. rewrite Nx, Nc, Ix, Ic, Sx, Sc, Mx, Mc, D1, D2. cbn [orb xorb with_sgn].
  destruct (Z.eqb_spec c 0) as [-> | _]; [destruct Hc as [_ V]; rewrite mval_0 in V by exact HF; rewrite <- Z.pow_add_r in V by lia; lia |].
  destruct (Z.eqb_spec m1 0) as [-> | N1].
  - symmetry. apply holds_zero. pose proof (Z.pow_pos_nonneg 2 j ltac:(lia) Hj). replace 0 with w by nia. exact Hz.
  - set (e := 2 * mbits F + 4). replace (m1 * 2 ^ e) with (m1 * 2 ^ (e - t) * m2)
      by (rewrite Em, <- Z.mul_assoc, <- Z.pow_add_r by lia; f_equal; f_equal; lia).
    assert (m2 <> 0) by (rewrite Em; apply Z.pow_nonzero; lia). rewrite Z.div_mul, Z.mod_mul by assumption. cbn [Z.eqb]. rewrite Z.add_0_r.
    pose proof (Z.pow_pos_nonneg 2 (e - t) ltac:(lia) ltac:(lia)).
    replace (k1 - k2 - e - 1 + eunit F) with (k1 + eunit F - (k2 + e + 1)) by lia.
    apply (round_holds _ _ _ z w); [nia | lia | lia | exact Hz |].
    replace (2 * (m1 * 2 ^ (e - t)) * 2 ^ (k1 + eunit F)) with (m1 * 2 ^ k1 * (2 ^ (1 + (e - t) + eunit F)))
      by (rewrite !Z.pow_add_r by lia; rewrite Z.pow_1_r; ring).
    rewrite E1, <- E, <- Z.mul_assoc, <- Z.pow_add_r by lia. f_equal. f_equal. lia.
Qed.
End Exact.

(** ** Hexadecimal digits *)

(** A digit of [%a]. *)
Definition hexchar (d : Z) : Z := Z.lor (if d <? 10 then 48 + d else 55 + d) 32.

Lemma hexchar_ok d : 0 <= d < 16 -> float_char 16 (hexchar d) = true /\ digit_of char_type (hexchar d) = d.
Proof.
  intros Hd. assert (T : check_range 0 16 (fun d => float_char 16 (hexchar d) && (digit_of char_type (hexchar d) =? d)) = true) by by_vm.
  pose proof (range_check 0 16 _ T d ltac:(lia)) as R. apply andb_prop in R as [A B]. split; [exact A | lia].
Qed.

(** The number with the digits [ds] behind [acc]. *)
Definition hexval (acc : Z) (ds : list Z) : Z := fold_left (fun a d => 16 * a + d) ds acc.

Lemma hexval_shift ds : forall acc, hexval acc ds = acc * 16 ^ Z.of_nat (length ds) + hexval 0 ds.
Proof.
  induction ds as [| d ds IH]; intros acc; [cbn; lia |]. unfold hexval in *. cbn [fold_left length].
  rewrite IH, (IH (16 * 0 + d)), Nat2Z.inj_succ, Z.pow_succ_r by lia. ring.
Qed.

Lemma hexval_nonneg ds : Forall (fun d => 0 <= d < 16) ds -> forall acc, 0 <= acc -> 0 <= hexval acc ds.
Proof. induction 1 as [| d ds Hd _ IH]; intros acc Ha; [exact Ha |]. apply IH. lia. Qed.

Section Parse.
Context (F : fmt) {HF : FmtOk F}.

Abbreviation One := (2 ^ eunit F).

Lemma holds_scaled d k : 0 <= d <= 2 * 2 ^ mbits F -> 0 <= k <= emax F - 3 -> exists a, holds F a (d * 2 ^ k).
Proof using HF.
  intros Hd Hk. destruct (repr_scaled F d k Hd Hk) as (a & R & E). exists a. split; [exact R |].
  rewrite E. apply Z.abs_eq. apply Z.mul_nonneg_nonneg; [lia | apply Z.pow_nonneg; lia].
Qed.

(** The exponents reach far enough for the weights of the digits; so it is in every
    format of the library. *)
Context (Room : eunit F + mbits F + 4 <= emax F - 3).

(** The digits behind the point: [i] of them are read. *)
Lemma frac_part_ok rest ds : float_char 16 (at_ rest 0) = false -> Forall (fun d => 0 <= d < 16) ds ->
  forall i N value decimal, 0 <= i -> 4 * (i + Z.of_nat (length ds)) <= mbits F -> 0 <= N < 2 * 16 ^ i ->
  holds F value (N * 2 ^ (eunit F - 4 * i)) -> holds F decimal (2 ^ (4 * (i + 1)) * One) ->
  exists a, frac_part F char_type 16 (map hexchar ds ++ rest) value decimal = (a, rest) /\
    holds F a (hexval N ds * 2 ^ (eunit F - 4 * (i + Z.of_nat (length ds)))).
Proof using HF Room.
  intros Hr. pose proof Room as Em. pose proof (mbits_bias F) as Mb. pose proof (mbits_gt F) as Mg.
  assert (Eb : mbits F <= eunit F) by (unfold eunit; pose proof (mbits_bias F); lia).
  induction 1 as [| d ds Hd Fd IH]; intros i N value decimal Hi Hl HN Hv Hc.
  - cbn [map app]. exists value. split; [destruct rest as [| c r]; [reflexivity |]; cbn [frac_part]; cbn [at_ nth] in Hr; by rewrite Hr |].
    cbn [hexval fold_left length]. rewrite Z.add_0_r. exact Hv.
  - cbn [length] in Hl |- *. rewrite Nat2Z.inj_succ in Hl |- *. cbn [map app frac_part]. destruct (hexchar_ok d Hd) as [-> ->].
    assert (P16 : 16 ^ i = 2 ^ (4 * i)) by (rewrite Z.pow_mul_r by lia; reflexivity).
    assert (Pm : 2 * 2 ^ (4 * (i + 1)) <= 2 * 2 ^ mbits F) by (apply Zmult_le_compat_l; [apply Z.pow_le_mono_r; lia | lia]).
    assert (P4 : 2 ^ (4 * (i + 1)) = 16 * 2 ^ (4 * i)) by (rewrite Z.mul_add_distr_l, Z.pow_add_r by lia; change (2 ^ (4 * 1)) with 16; lia).
    assert (Hd16 : 16 <= 2 ^ (4 * (i + 1))) by (rewrite P4; pose proof (Z.pow_pos_nonneg 2 (4 * i) ltac:(lia) ltac:(lia)); lia).
    destruct (holds_scaled d (eunit F - 4 * (i + 1))) as (q & Hq); [lia | lia |].
    destruct (holds_scaled (16 * N + d) (eunit F - 4 * (i + 1))) as (s & Hs); [lia | lia |].
    destruct (holds_scaled 1 (4 * (i + 1 + 1) + eunit F)) as (c' & Hc'); [lia | lia |].
    rewrite (exact_div F _ decimal q (d * One) (d * 2 ^ (eunit F - 4 * (i + 1))) (4 * (i + 1))); [| lia | apply holds_int; [exact HF | lia] | exact Hc | exact Hq |].
    2: { rewrite <- Z.mul_assoc, <- Z.pow_add_r by lia. f_equal. f_equal. lia. }
    rewrite (exact_add F value q s _ _ Hv Hq).
    2: { replace (N * 2 ^ (eunit F - 4 * i)) with (16 * N * 2 ^ (eunit F - 4 * (i + 1))); [rewrite <- Z.mul_add_distr_r; exact Hs |].
         replace (eunit F - 4 * i) with (4 + (eunit F - 4 * (i + 1))) by lia. rewrite (Z.pow_add_r 2 4) by lia. change (2 ^ 4) with 16. ring. }
    rewrite (exact_mul F decimal (of_int F 16) c' _ 16 Hc); [| apply holds_int; [exact HF | lia] |].
    2: { rewrite Z.mul_1_l in Hc'. replace (2 ^ (4 * (i + 1)) * One * 16) with (2 ^ (4 * (i + 1 + 1) + eunit F)); [exact Hc' |].
         change 16 with (2 ^ 4). rewrite <- !Z.pow_add_r by lia. f_equal. lia. }
    destruct (IH (i + 1) (16 * N + d) s c') as (a & Ea & Ha); [lia | lia | | exact Hs | |].
    + rewrite Z.pow_add_r by lia. change (16 ^ 1) with 16. lia.
    + rewrite <- Z.pow_add_r by lia. rewrite Z.mul_1_l in Hc'. exact Hc'.
    + exists a. split; [exact Ea |]. replace (i + Z.succ (Z.of_nat (length ds))) with (i + 1 + Z.of_nat (length ds)) by lia. exact Ha.
Qed.

(** Scaling step by step. *)
Lemma iter_up n : forall v w, holds F v w -> (forall i, 0 <= i <= Z.of_nat n -> exists a, holds F a (w * 2 ^ i)) ->
  holds F (Nat.iter n (fun v => fmul F v (of_int F 2)) v) (w * 2 ^ Z.of_nat n).
Proof using HF.
  pose proof (pow_m_pos F) as Pm. induction n as [| n IH]; intros v w Hv R; [cbn; rewrite Z.mul_1_r; exact Hv |].
  rewrite Nat2Z.inj_succ, Z.pow_succ_r by lia. cbn [Nat.iter nat_rect]. fold (Nat.iter n (fun v => fmul F v (of_int F 2)) v).
  destruct (R (Z.succ (Z.of_nat n)) ltac:(lia)) as (a & Ha). rewrite Z.pow_succ_r in Ha by lia.
  rewrite (exact_mul F _ (of_int F 2) a (w * 2 ^ Z.of_nat n) 2); [exact Ha | apply IH; [exact Hv | intros i Hi; apply R; lia] | apply holds_int; [exact HF | lia] |].
  replace (w * 2 ^ Z.of_nat n * 2) with (w * (2 * 2 ^ Z.of_nat n)) by ring. exact Ha.
Qed.

Lemma iter_down n : forall v w, holds F v (w * 2 ^ Z.of_nat n) -> (forall i, 0 <= i <= Z.of_nat n -> exists a, holds F a (w * 2 ^ i)) ->
  holds F (Nat.iter n (fun v => fdiv F v (of_int F 2)) v) w.
Proof using HF.
  pose proof (pow_m_pos F) as Pm. induction n as [| n IH]; intros v w Hv R; [cbn in *; rewrite Z.mul_1_r in Hv; exact Hv |].
  cbn [Nat.iter nat_rect]. fold (Nat.iter n (fun v => fdiv F v (of_int F 2)) v).
  destruct (R 0 ltac:(lia)) as (a & Ha). change (2 ^ 0) with 1 in Ha. rewrite Z.mul_1_r in Ha.
  assert (E : forall j, 2 * w * 2 ^ j = w * 2 ^ Z.succ j \/ j < 0) by (intros j; destruct (Z.lt_ge_cases j 0); [auto | left; rewrite Z.pow_succ_r by lia; ring]).
  rewrite (exact_div F _ (of_int F 2) a (2 * w) w 1); [exact Ha | lia | | apply holds_int; [exact HF | lia] | exact Ha | change (2 ^ 1) with 2; ring].
  apply IH.
  - destruct (E (Z.of_nat n)) as [-> | ?]; [| lia]. rewrite <- Nat2Z.inj_succ. exact Hv.
  - intros i Hi. destruct (E i) as [-> | ?]; [apply R; lia | lia].
Qed.

Lemma iter_nat {A} (f : A -> A) n x : Z.iter (Z.of_nat n) f x = Nat.iter n f x.
Proof using. rewrite iter_nat_of_Z by lia. by rewrite Zabs2Nat.id. Qed.
End Parse.

(** The digits of a hexadecimal number, with a point when there is a fraction. *)
Definition hex_text (d0 : Z) (ds : list Z) : list Z := hexchar d0 :: match ds with [] => [] | _ => 46 :: map hexchar ds end.

Section Hex.
Context (F : fmt) {HF : FmtOk F} (Room : eunit F + mbits F + 4 <= emax F - 3) (Wide : 4 <= mbits F).

Lemma int_part_hex d0 rest : 0 <= d0 < 16 -> float_char 16 (at_ rest 0) = false ->
  int_part F char_type 16 (hexchar d0 :: rest) 0 = (of_int F d0, rest).
Proof using HF Wide.
  intros Hd Hr. pose proof (Z.pow_le_mono_r 2 4 (mbits F) ltac:(lia) Wide) as P. change (2 ^ 4) with 16 in P.
  cbn [int_part]. destruct (hexchar_ok d0 Hd) as [-> ->].
  rewrite (exact_mul F 0 (of_int F 16) 0 0 16); [| apply holds_0; exact HF | apply holds_int; [exact HF | lia] | apply holds_0; exact HF].
  rewrite (exact_add F 0 (of_int F d0) (of_int F d0) 0 (d0 * 2 ^ eunit F)); [| apply holds_0; exact HF | apply holds_int; [exact HF | lia] | apply holds_int; [exact HF | lia]].
  destruct rest as [| c r]; [reflexivity |]. cbn [int_part]. cbn [at_ nth] in Hr. by rewrite Hr.
Qed.

(** The part before the exponent. *)
Lemma mantissa_hex d0 ds rest : 0 <= d0 < 2 -> Forall (fun d => 0 <= d < 16) ds -> 4 * Z.of_nat (length ds) <= mbits F ->
  float_char 16 (at_ rest 0) = false -> (at_ rest 0 =? 46) = false ->
  exists a, holds F a (hexval d0 ds * 2 ^ (eunit F - 4 * Z.of_nat (length ds))) /\
    (let '(value, ptr) := int_part F char_type 16 (hex_text d0 ds ++ rest) 0 in
     if at_ ptr 0 =? ch_dot then frac_part F char_type 16 (drop 1 ptr) value (of_int F 16) else (value, ptr)) = (a, rest).
Proof using HF Room Wide.
  intros Hd Fd Hl Hr Hn. pose proof (Z.pow_le_mono_r 2 4 (mbits F) ltac:(lia) Wide) as P. change (2 ^ 4) with 16 in P. destruct ds as [| d ds].
  - exists (of_int F d0). cbn [hex_text app]. rewrite int_part_hex by (lia || exact Hr). unfold ch_dot. rewrite Hn. split; [| reflexivity].
    cbn [hexval fold_left length]. change (4 * Z.of_nat 0) with 0. rewrite Z.sub_0_r. apply holds_int; [exact HF | lia].
  - cbn [hex_text app]. rewrite int_part_hex by (lia || reflexivity). change (at_ (46 :: _) 0 =? ch_dot) with true. cbv iota. cbn [drop].
    destruct (frac_part_ok F Room rest (d :: ds) Hr Fd 0 d0 (of_int F d0) (of_int F 16)) as (a & Ea & Ha).
    + lia. + lia. + change (16 ^ 0) with 1. lia.
    + rewrite Z.mul_0_r, Z.sub_0_r. apply holds_int; [exact HF | lia].
    + change (2 ^ (4 * (0 + 1))) with 16. apply holds_int; [exact HF | lia].
    + exists a. split; [exact Ha | exact Ea].
Qed.

(** The exponent: [t] units is the number that is meant. *)
Lemma exponent_hex (neg : bool) ed E v0 v t : exponent_digits ed 0 = Some (E, []) -> 0 <= E -> holds F v0 v ->
  (if neg then v = t * 2 ^ E else t = v * 2 ^ E) ->
  (forall i, 0 <= i <= E -> exists a, holds F a ((if neg then t else v) * 2 ^ i)) ->
  exists a, holds F a t /\ exponent_part F char_type 16 (112 :: (if neg then 45 else 43) :: ed) v0 = Some (a, []).
Proof using HF.
  intros De HE Hv Ht R. unfold exponent_part.
  assert ((tolower_helper char_type (at_ (112 :: (if neg then 45 else 43) :: ed) 0) =? (if 16 =? 10 then 101 else 112)) = true) as -> by (cbn [at_ nth]; by_vm).
  assert (parse_sign (drop 1 (112 :: (if neg then 45 else 43) :: ed)) = (neg, ed)) as -> by (destruct neg; reflexivity).
  rewrite De. cbn [mbind option_bind]. unfold scale. rewrite <- (Z2Nat.id E) by lia. rewrite iter_nat. rewrite <- (Z2Nat.id E) in Ht, R by lia.
  destruct neg; eexists; (split; [| reflexivity]); cbn [Z.eqb Pos.eqb].
  - apply iter_down; [exact HF | by rewrite <- Ht | exact R].
  - rewrite Ht. apply iter_up; [exact HF | exact Hv | exact R].
Qed.

Lemma number_part_hex d0 ds (neg : bool) ed E t : 0 <= d0 < 2 -> Forall (fun d => 0 <= d < 16) ds -> 4 * Z.of_nat (length ds) <= mbits F ->
  exponent_digits ed 0 = Some (E, []) -> 0 <= E ->
  let v := hexval d0 ds * 2 ^ (eunit F - 4 * Z.of_nat (length ds)) in
  (if neg then v = t * 2 ^ E else t = v * 2 ^ E) ->
  (forall i, 0 <= i <= E -> exists a, holds F a ((if neg then t else v) * 2 ^ i)) ->
  exists a, holds F a t /\ number_part F char_type (48 :: 120 :: hex_text d0 ds ++ 112 :: (if neg then 45 else 43) :: ed) = Some (a, []).
Proof using HF Room Wide.
  intros Hd Fd Hl De HE v Ht R. destruct (mantissa_hex d0 ds (112 :: (if neg then 45 else 43) :: ed) Hd Fd Hl eq_refl eq_refl) as (v0 & Hv & Em).
  destruct (exponent_hex neg ed E v0 v t De HE Hv Ht R) as (a & Ha & Ee). exists a. split; [exact Ha |]. unfold number_part.
  assert ((at_ (48 :: 120 :: hex_text d0 ds ++ 112 :: (if neg then 45 else 43) :: ed) 0 =? ch_0) &&
    (tolower_helper char_type (at_ (48 :: 120 :: hex_text d0 ds ++ 112 :: (if neg then 45 else 43) :: ed) 1) =? ch_x) = true) as ->
    by (cbn [at_ nth]; by_vm). cbn [drop]. rewrite drop_0. set (l := hex_text d0 ds ++ _) in *.
  destruct (int_part F char_type 16 l 0) as [value ptr]. destruct (at_ ptr 0 =? ch_dot); [| injection Em as -> ->; exact Ee].
  rewrite Em. exact Ee.
Qed.
End Hex.
