(* ===== verification/FloatText.v ===== *)
(** * Printing a number with %a and reading it back

    The hexadecimal conversion of [PrintfFloat] and the parser of [StrToFloat] are inverse
    to each other: every finite double survives [sprintf] and [strtod]. *)

From Stdlib Require Import String.
From stdpp Require Import base list option.
From S2P Require Import Prelude Ctype StrToInt Ieee MathBits MathRound PrintfFloat Printf PrintfFacts Literal StrToFloat.

#[local] Open Scope Z_scope.

(** ** The digits of %a *)

Lemma bits_le m : 0 <= m < 2 ^ 64 -> bits m - 64 <= 0.
Proof.
  intros Hm. unfold bits. destruct (Z.eqb_spec m 0); [lia |]. rewrite Z.abs_eq by lia.
  assert (Z.log2 m < 64) by (apply Z.log2_lt_pow2; lia). lia.
Qed.

Lemma ld_round_id m e : 0 <= m < 2 ^ 64 -> ld_round (m, e) = (m, e).
Proof. intros Hm. unfold ld_round. pose proof (bits_le m Hm). by destruct (Z.leb_spec (bits m - 64) 0); [| lia]. Qed.

Section Digits.
Context (B : Z) (HB : 0 < B <= 56).

(** One round of the loop: the digit and what is left. *)
Lemma hex_step m : 0 <= m < 16 * 2 ^ B ->
  ld_trunc (m, - B) = m / 2 ^ B /\ ld_mul (16, 0) (ld_sub (m, - B) (m / 2 ^ B, 0)) = (16 * (m mod 2 ^ B), - B) /\
  0 <= m / 2 ^ B < 16 /\ 0 <= 16 * (m mod 2 ^ B) < 16 * 2 ^ B.
Proof using HB.
  intros Hm. pose proof (Z.pow_pos_nonneg 2 B ltac:(lia) ltac:(lia)) as P. pose proof (Z.mod_pos_bound m (2 ^ B) P) as R.
  pose proof (Z.pow_le_mono_r 2 B 56 ltac:(lia) ltac:(lia)) as P56.
  split_and!; [| | apply Z.div_pos; lia | apply Z.div_lt_upper_bound; lia | lia | lia].
  - unfold ld_trunc. destruct (Z.leb_spec 0 (- B)); [lia |]. rewrite Z.opp_involutive. apply Z.quot_div_nonneg; lia.
  - unfold ld_sub, ld_neg, ld_add. cbn [fst snd]. rewrite Z.min_l by lia. rewrite Z.sub_diag. replace (0 - - B) with B by lia.
    replace (m * 2 ^ 0 + - (m / 2 ^ B) * 2 ^ B) with (m mod 2 ^ B) by (rewrite (Z.mod_eq m (2 ^ B)) by lia; ring).
    rewrite ld_round_id by (change (2 ^ 56) with (2 ^ 56) in *; lia). unfold ld_mul. cbn [fst snd]. by rewrite ld_round_id, Z.add_0_l by lia.
Qed.

Fixpoint hex_digits (n : nat) (m : Z) : list Z :=
  match n with
  | O => []
  | S n => m / 2 ^ B :: (let m := 16 * (m mod 2 ^ B) in if m =? 0 then [] else hex_digits n m)
  end.

(** [n] digits are enough for a multiple of [2 ^ q]. *)
Definition enough (n : nat) (q m : Z) : Prop := (0 < n)%nat /\ 0 <= q /\ (2 ^ q | m) /\ B <= q + 4 * (Z.of_nat n - 1).

Lemma enough_step n q m : enough (S n) q m -> 16 * (m mod 2 ^ B) <> 0 -> enough n (q + 4) (16 * (m mod 2 ^ B)).
Proof using HB.
  intros (_ & Hq & D & L) N. pose proof (Z.pow_pos_nonneg 2 B ltac:(lia) ltac:(lia)) as P.
  assert (Lq : q < B).
  { destruct (Z.lt_ge_cases q B) as [| G]; [assumption |]. exfalso. apply N.
    assert (2 ^ B | m) as [k ->] by (apply (Z.divide_trans _ (2 ^ q)); [exists (2 ^ (q - B)); rewrite <- Z.pow_add_r by lia; f_equal; lia | exact D]).
    rewrite Z.mod_mul by lia. reflexivity. }
  split_and!; [destruct n; [change (Z.of_nat 1) with 1 in L; lia | lia] | lia | | lia].
  rewrite Z.mul_comm, Z.pow_add_r by lia. apply Z.mul_divide_mono_r. rewrite Z.mod_eq by lia. apply Z.divide_sub_r; [exact D |].
  apply Z.divide_mul_l. exists (2 ^ (B - q)). rewrite <- Z.pow_add_r by lia. f_equal. lia.
Qed.

Lemma hex_digits_ok n : forall q m, enough n q m -> 0 <= m < 16 * 2 ^ B ->
  let ds := hex_digits n m in
  ds <> [] /\ (length ds <= n)%nat /\ Forall (fun d => 0 <= d < 16) ds /\ hexval 0 ds * 2 ^ B = m * 16 ^ (Z.of_nat (length ds) - 1).
Proof using HB.
  induction n as [| n IH]; intros q m E Hm; [destruct E; lia |]. destruct (hex_step m Hm) as (_ & _ & D & R). cbn [hex_digits]. cbv zeta.
  pose proof (Z.div_mod m (2 ^ B) ltac:(apply Z.pow_nonzero; lia)) as Dm. destruct (Z.eqb_spec (16 * (m mod 2 ^ B)) 0) as [Z0 | N0].
  - split_and!; [done | simpl; lia | by constructor |]. cbn. lia.
  - destruct (IH _ _ (enough_step n q m E N0) R) as (Ne & Ln & Fd & V). set (ds := hex_digits n (16 * (m mod 2 ^ B))) in *.
    split_and!; [done | simpl; lia | by constructor |]. change (hexval 0 (m / 2 ^ B :: ds)) with (hexval (16 * 0 + m / 2 ^ B) ds).
    rewrite hexval_shift, Z.mul_add_distr_r, V. cbn [length]. rewrite Nat2Z.inj_succ. unfold Z.succ. rewrite Z.add_simpl_r.
    destruct ds as [| d ds]; [done |]. cbn [length]. rewrite Nat2Z.inj_succ. unfold Z.succ. rewrite Z.add_simpl_r, Z.pow_add_r, Z.pow_1_r by lia. nia.
Qed.

(** The rounds behind the point. *)
Lemma hex_loop_tail n : forall q m fuel str, enough n q m -> 0 <= m < 16 * 2 ^ B -> (n <= fuel)%nat -> 2 <= zlen str -> zlen str + Z.of_nat n <= 25 ->
  hex_loop fuel (m, - B) 32 false str = Some (str ++ map hexchar (hex_digits n m)).
Proof using HB.
  induction n as [| n IH]; intros q m fuel str E Hm Hf Ls Lt; [destruct E; lia |]. destruct fuel as [| fuel]; [lia |].
  destruct (hex_step m Hm) as (T & M & D & R). cbn [hex_loop hex_digits]. rewrite T.
  destruct (Z.leb_spec 0 (m / 2 ^ B)); [| lia]. destruct (Z.ltb_spec (m / 2 ^ B) 16); [| lia]. cbn [andb mbind option_bind].
  fold (hexchar (m / 2 ^ B)). rewrite M. set (c := hexchar (m / 2 ^ B)). assert (Lc : zlen (str ++ [c]) = zlen str + 1) by (rewrite zlen_app; reflexivity).
  destruct (Z.eqb_spec (zlen (str ++ [c])) 1); [lia |]. cbn [andb]. destruct (Z.ltb_spec 25 (zlen (str ++ [c]))); [lia |].
  unfold ld_nonzero. cbn [fst map]. destruct (Z.eqb_spec (16 * (m mod 2 ^ B)) 0) as [Z0 | N0]; cbn [negb]; [reflexivity |].
  rewrite (IH (q + 4)); [by rewrite <- app_assoc | by apply enough_step | exact R | lia | lia | lia].
Qed.

Lemma hex_loop_ok n q m fuel : enough (S n) q m -> 0 <= m < 16 * 2 ^ B -> (n <= 20)%nat -> (n <= fuel)%nat ->
  exists ds, hex_digits (S n) m = m / 2 ^ B :: ds /\ hex_loop (S fuel) (m, - B) 32 false [] = Some (hex_text (m / 2 ^ B) ds).
Proof using HB.
  intros E Hm Hn Hf. destruct (hex_step m Hm) as (T & M & D & R). exists (if 16 * (m mod 2 ^ B) =? 0 then [] else hex_digits n (16 * (m mod 2 ^ B))).
  split; [reflexivity |]. cbn [hex_loop]. rewrite T.
  destruct (Z.leb_spec 0 (m / 2 ^ B)); [| lia]. destruct (Z.ltb_spec (m / 2 ^ B) 16); [| lia]. cbn [andb mbind option_bind app].
  fold (hexchar (m / 2 ^ B)). rewrite M. set (c := hexchar (m / 2 ^ B)). change (zlen [c] =? 1) with true. cbn [andb]. unfold ld_nonzero. cbn [fst].
  rewrite orb_false_r. destruct (Z.eqb_spec (16 * (m mod 2 ^ B)) 0) as [Z0 | N0]; cbn [negb]; [reflexivity |].
  change (25 <? zlen ([c] ++ [46])) with false. cbv iota.
  assert (En : enough n (q + 4) (16 * (m mod 2 ^ B))) by (by apply enough_step).
  rewrite (hex_loop_tail n (q + 4)); [| exact En | exact R | lia | reflexivity | unfold zlen; simpl; lia].
  unfold hex_text. destruct (hex_digits_ok n _ _ En R) as (Ne & _). cbv zeta in Ne.
  destruct (hex_digits n (16 * (m mod 2 ^ B))); [done | reflexivity].
Qed.
End Digits.

(** ** The text of a number *)

(** The exponent with its letter and sign, and what [strtod] makes of it. *)
Definition exponent_chars (E : Z) : list Z := match e_digits E with Some [] => [48] | Some e => e | None => [] end.

Lemma exponent_chars_ok E : -1100 <= E < 1100 ->
  exponent_digits (exponent_chars E) 0 = Some (Z.abs E, []) /\ zlen (exponent_chars E) <= 12 /\ exists e, e_digits E = Some e.
Proof.
  intros HE. assert (T : check_range (-1100) 2200 (fun E => bool_decide (exponent_digits (exponent_chars E) 0 = Some (Z.abs E, [])) &&
    (zlen (exponent_chars E) <=? 12) && bool_decide (e_digits E <> None)) = true) by by_vm.
  pose proof (range_check _ _ _ T E ltac:(lia)) as R. clear T. apply andb_prop in R as [R C]. apply andb_prop in R as [A B].
  apply bool_decide_eq_true in A, C. split; [exact A |]. split; [lia |]. destruct (e_digits E) as [e |]; [exists e; reflexivity | by destruct (C eq_refl)].
Qed.

(** What [sprintf] writes for [%a]. *)
Definition a_text (neg : bool) (ds : list Z) (E : Z) : list Z :=
  (if neg then [45] else []) ++ 48 :: 120 :: hex_text 1 ds ++ 112 :: (if E <? 0 then 45 else 43) :: exponent_chars E.

(** A significand, its number of bits and its digits. *)
Lemma significand m : 0 < m < 2 ^ 53 ->
  let B := bits m in 0 < B <= 53 /\ exists ds, hex_loop 26 (2 * m, - B) 32 false [] = Some (hex_text 1 ds) /\
    Forall (fun d => 0 <= d < 16) ds /\ (length ds <= 13)%nat /\ hexval 1 ds * 2 ^ B = 2 * m * 2 ^ (4 * Z.of_nat (length ds)).
Proof.
  intros Hm B. assert (EB : B = Z.log2 m + 1) by (unfold B, bits; destruct (Z.eqb_spec m 0); [lia |]; by rewrite Z.abs_eq by lia).
  pose proof (Z.log2_spec m ltac:(lia)) as L. pose proof (Z.log2_nonneg m) as L0. assert (Z.log2 m < 53) by (apply Z.log2_lt_pow2; lia).
  unfold Z.succ in L. rewrite <- EB in L. assert (E2 : 2 ^ B = 2 * 2 ^ Z.log2 m) by (rewrite EB, Z.pow_add_r, Z.pow_1_r by lia; lia).
  split; [lia |]. assert (D1 : 2 * m / 2 ^ B = 1) by (symmetry; apply (Z.div_unique _ _ 1 (2 * m - 2 ^ B)); lia).
  assert (En : enough B 14 1 (2 * m)) by (split_and!; [lia | lia | exists m; rewrite Z.pow_1_r; lia | change (Z.of_nat 14) with 14; lia]).
  destruct (hex_loop_ok B ltac:(lia) 13 1 (2 * m) 25 En ltac:(lia) ltac:(lia) ltac:(lia)) as (ds & Hd & Hl). rewrite D1 in Hd, Hl.
  destruct (hex_digits_ok B ltac:(lia) 14 1 (2 * m) En ltac:(lia)) as (_ & Ln & Fd & V). rewrite Hd in Ln, Fd, V. exists ds.
  split_and!; [exact Hl | by inversion Fd | simpl in Ln; lia |]. change (hexval 0 (1 :: ds)) with (hexval 1 ds) in V. rewrite V.
  f_equal. cbn [length]. rewrite Nat2Z.inj_succ. unfold Z.succ. rewrite Z.add_simpl_r, Z.pow_mul_r by lia. reflexivity.
Qed.

(** The branch for [%a], without flags, width and precision. *)
Lemma fin_chunks_a neg d : fin_chunks 97 false false 0 false neg d =
  let '(value, exponent) := frexpl d in
  let value := ld_mul value (2, 0) in
  a_chunks 97 false 0 false neg value (if ld_nonzero value then exponent - 1 else exponent).
Proof. reflexivity. Qed.

Lemma a_chunks_plain neg value exponent : a_chunks 97 false 0 false neg value exponent =
  (e ← e_digits exponent;
   let e_str := 112 :: (if exponent <? 0 then 45 else 43) :: (match e with [] => [48] | _ :: _ => e end) in
   str ← hex_loop 26 value 32 false [];
   Some ((if neg then [[45]] else []) ++ [[48; 120]; str] ++ pad_chunks (s32 (zlen str + zlen e_str - zlen e_str - zlen str)) 0 48 ++ [e_str])).
Proof. reflexivity. Qed.

Lemma exponent_chars_eq E ed : e_digits E = Some ed -> exponent_chars E = match ed with [] => [48] | _ :: _ => ed end.
Proof. intros H. unfold exponent_chars. rewrite H. by destruct ed. Qed.

Lemma concat_chunks (neg : bool) (str e_str : list Z) :
  concat ((if neg then [[45]] else []) ++ [[48; 120]; str] ++ pad_chunks (s32 (zlen str + zlen e_str - zlen e_str - zlen str)) 0 48 ++ [e_str]) =
  (if neg then [45] else []) ++ 48 :: 120 :: str ++ e_str.
Proof.
  replace (zlen str + zlen e_str - zlen e_str - zlen str) with 0 by lia. change (s32 0) with 0. rewrite concat_app.
  assert (concat (if neg then [[45]] else []) = (if neg then [45] else [])) as -> by (destruct neg; reflexivity).
  cbn [pad_chunks Z.ltb Z.compare app concat]. by rewrite app_nil_r.
Qed.

Lemma a_chunks_some neg value exponent ed str : e_digits exponent = Some ed -> hex_loop 26 value 32 false [] = Some str ->
  exists l, a_chunks 97 false 0 false neg value exponent = Some l /\
    concat l = (if neg then [45] else []) ++ 48 :: 120 :: str ++ 112 :: (if exponent <? 0 then 45 else 43) :: exponent_chars exponent.
Proof.
  intros He Hs. rewrite a_chunks_plain, (exponent_chars_eq _ _ He). revert He Hs. generalize (e_digits exponent) as x, (hex_loop 26 value 32 false []) as y.
  intros x y -> ->. eexists. split; [reflexivity |]. apply concat_chunks.
Qed.

Lemma float_chunks_fin neg m e : 0 < m < 2 ^ 53 ->
  float_chunks 97 false false false 0 0 false (LFin neg (m, e)) = a_chunks 97 false 0 false neg (2 * m, - bits m) (bits m + e - 1).
Proof.
  intros Hm. transitivity (fin_chunks 97 false false 0 false neg (m, e)).
  { unfold float_chunks, ld_nonzero. cbn [fst]. destruct (Z.eqb_spec m 0); [lia |]. cbn [negb]. by rewrite andb_true_r. }
  assert (M : ld_mul (m, - bits m) (2, 0) = (2 * m, - bits m)) by (unfold ld_mul; cbn [fst snd]; rewrite Z.add_0_r, ld_round_id by lia; f_equal; lia).
  rewrite fin_chunks_a. assert (frexpl (m, e) = ((m, - bits m), bits m + e)) as -> by (unfold frexpl; by destruct (Z.eqb_spec m 0); [lia |]).
  cbv zeta iota beta. rewrite M. assert (ld_nonzero (2 * m, - bits m) = true) as -> by (unfold ld_nonzero; cbn [fst]; by destruct (Z.eqb_spec (2 * m) 0); [lia |]).
  reflexivity.
Qed.

(** The chunks of the conversion. *)
Lemma float_chunks_a neg m e : 0 < m < 2 ^ 53 -> -1100 <= bits m + e - 1 < 1100 ->
  exists ds, (exists l, float_chunks 97 false false false 0 0 false (LFin neg (m, e)) = Some l /\ concat l = a_text neg ds (bits m + e - 1)) /\
    Forall (fun d => 0 <= d < 16) ds /\ (length ds <= 13)%nat /\ hexval 1 ds * 2 ^ bits m = 2 * m * 2 ^ (4 * Z.of_nat (length ds)).
Proof.
  intros Hm HE. destruct (significand m Hm) as (HB & ds & Hl & Fd & Ln & V). exists ds. split; [| auto].
  destruct (exponent_chars_ok _ HE) as (_ & _ & ed & Ee). rewrite (float_chunks_fin neg m e Hm). exact (a_chunks_some neg _ _ ed _ Ee Hl).
Qed.

(** ** Reading it back *)

Lemma digit_first c2 s2 r : tolower_helper char_type 48 - tolower_helper char_type c2 <> 0 -> (str_case_cmp char_type (48 :: r) (c2 :: s2) =? 0) = false.
Proof.
  intros N. cbn [str_case_cmp]. change (at_ (48 :: r) 0) with 48. destruct (Z.eqb_spec (tolower_helper char_type 48 - tolower_helper char_type c2) 0); [done |].
  cbn [negb orb]. by apply Z.eqb_neq.
Qed.

Lemma str_to_float_hex F (neg : bool) r a :
  number_part F char_type (48 :: r) = Some (a, []) -> str_to_float F char_type ((if neg then [45] else []) ++ 48 :: r) = Some (if neg then fneg F a else a, [], isinf F a).
Proof.
  intros H. unfold str_to_float.
  assert (S : parse_sign (skip_space char_type ((if neg then [45] else []) ++ 48 :: r)) = (neg, 48 :: r)).
  { assert (I : isspace_helper char_type 45 = false /\ isspace_helper char_type 48 = false) by (split; by_vm). destruct I as [I1 I2].
    destruct neg; cbn [app skip_space]; rewrite ?I1, ?I2; reflexivity. }
  rewrite S. change (chars "nan") with [110; 97; 110]. change (chars "infinity") with [105; 110; 102; 105; 110; 105; 116; 121]. change (chars "inf") with [105; 110; 102].
  assert (N : tolower_helper char_type 48 - tolower_helper char_type 110 <> 0 /\ tolower_helper char_type 48 - tolower_helper char_type 105 <> 0)
    by (split; vm_compute; discriminate). destruct N as [N1 N2].
  rewrite (digit_first 110 _ r N1), !(digit_first 105 _ r N2). rewrite H. reflexivity.
Qed.

Lemma exponent_range m k a : 0 <= a < inf_mag F64 -> decode F64 a = (m, k) -> 0 < a ->
  0 < m < 2 ^ 53 /\ 0 <= k <= 2045 /\ holds F64 a (m * 2 ^ k).
Proof.
  intros Ha D Hp. destruct (decode_spec F64 a m k ltac:(lia) D) as (E & K & M & N & _). change (mbits F64) with 52 in *.
  change (2 * 2 ^ 52) with (2 ^ 53) in M. change (inf_mag F64) with (2047 * 2 ^ 52) in Ha. split_and!.
  - destruct (Z.eq_dec k 0) as [-> | ]; lia.
  - lia.
  - lia.
  - destruct (Z.le_gt_cases k 2045); [assumption |]. specialize (N ltac:(lia)). lia.
  - split; [exact Ha | exact (mval_decode F64 a m k D)].
Qed.

Lemma strtod_a x m k ds : is_u 64 x -> isfinite F64 x = true -> decode F64 (mag F64 x) = (m, k) -> 0 < mag F64 x ->
  Forall (fun d => 0 <= d < 16) ds -> (length ds <= 13)%nat -> hexval 1 ds * 2 ^ bits m = 2 * m * 2 ^ (4 * Z.of_nat (length ds)) -> 0 < bits m <= 53 ->
  strtod (a_text (sgn F64 x) ds (bits m + (k - eunit F64) - 1)) = Some (x, [], false).
Proof.
  intros U Fi D Hp Fd Ln V HB. destruct (finite_cases F64 x Fi) as (_ & _ & Mx). pose proof (mag_range F64 x) as Rx.
  destruct (exponent_range m k (mag F64 x) ltac:(lia) D Hp) as (Hm & Hk & Hx). change (eunit F64) with 1074. set (B := bits m) in *. set (E := B + (k - 1074) - 1).
  destruct (exponent_chars_ok E ltac:(lia)) as (De & _). set (n := Z.of_nat (length ds)) in *.
  assert (Ev : hexval 1 ds * 2 ^ (1074 - 4 * n) = m * 2 ^ (1075 - B)).
  { apply (Z.mul_reg_r _ _ (2 ^ B)); [apply Z.pow_nonzero; lia |].
    replace (hexval 1 ds * 2 ^ (1074 - 4 * n) * 2 ^ B) with (hexval 1 ds * 2 ^ B * 2 ^ (1074 - 4 * n)) by ring. rewrite V.
    rewrite <- !Z.mul_assoc, <- !Z.pow_add_r by lia. replace (4 * n + (1074 - 4 * n)) with 1074 by lia. replace (1075 - B + B) with (Z.succ 1074) by lia.
    rewrite (Z.pow_succ_r 2 1074) by lia. ring. }
  destruct (number_part_hex F64 ltac:(vm_compute; discriminate) ltac:(vm_compute; discriminate) 1 ds (E <? 0) (exponent_chars E) (Z.abs E) (m * 2 ^ k)) as (a & Ha & Ea).
  - lia.
  - exact Fd.
  - change (mbits F64) with 52. lia.
  - exact De.
  - lia.
  - change (eunit F64) with 1074. fold n. rewrite Ev. destruct (Z.ltb_spec E 0); rewrite <- Z.mul_assoc, <- Z.pow_add_r by lia; f_equal; f_equal; lia.
  - intros i Hi. change (eunit F64) with 1074. fold n. rewrite Ev. destruct (Z.ltb_spec E 0) as [Ne | Po].
    + rewrite <- Z.mul_assoc, <- Z.pow_add_r by lia. apply holds_scaled; [exact _ | change (2 * 2 ^ mbits F64) with (2 ^ 53); lia | change (emax F64) with 2047; lia].
    + rewrite <- Z.mul_assoc, <- Z.pow_add_r by lia. destruct (Z.eq_dec i (Z.abs E)) as [-> | Ni].
      * exists (mag F64 x). replace (1075 - B + Z.abs E) with k by lia. exact Hx.
      * apply holds_scaled; [exact _ | change (2 * 2 ^ mbits F64) with (2 ^ 53); lia | change (emax F64) with 2047; lia].
  - assert (a = mag F64 x) as -> by exact (holds_inj F64 _ _ _ Ha Hx). unfold strtod, a_text. rewrite (str_to_float_hex F64 _ _ _ Ea).
    destruct (holds_facts F64 _ _ Hx) as (_ & _ & Sa & _ & _ & _ & Ia). rewrite Ia.
    assert ((if sgn F64 x then fneg F64 (mag F64 x) else mag F64 x) = x) as ->; [| reflexivity].
    transitivity (with_sgn F64 (sgn F64 x) (mag F64 x)); [| exact (with_sgn_split F64 x U)]. unfold with_sgn, fneg. rewrite Sa. destruct (sgn F64 x); lia.
Qed.

(** ** The round trip *)

Section RoundTrip.
Context `{ToInteger}.

Lemma run_a x l : float_chunks 97 false false false 0 0 false (ldbl_of_double x) = Some l -> zlen (concat l) <= 1000 ->
  vfprintf 3 [37; 97] (initial (Some ([] : text)) 0 [ADouble x]) = POk (zlen (concat l)) (PState (Some (concat l)) (zlen (concat l)) 0 0 [] []).
Proof.
  intros C L. unfold vfprintf, pbind at 1, lock_by, initial. cbn [sink written perrno held stores args]. change (0 + 1) with 1.
  cbn [format_loop literal Z.eqb Pos.eqb percents length Nat.add Nat.eqb]. unfold pbind at 1.
  assert (Sp : forall st : pstate text, specification [97] st = (conv_float no_flags 97 0 0 false SNone ;~ pret [])%printf st) by (intros; reflexivity).
  rewrite Sp. unfold conv_float, va_arg, pbind, pret. cbn [args sink written perrno held stores LJUST SIGN ALT no_flags]. rewrite C.
  pose proof (zlen_nonneg (concat l)). rewrite writes_chunks by (unfold fits; cbn [sink written]; split; [discriminate |]; unfold INT_MAX, smax; lia).
  unfold emit, lock_by, get_state. cbn [sink written perrno held stores args option_map app literal percents length Nat.add Nat.eqb]. change (1 + -1) with 0. rewrite Z.add_0_l.
  rewrite wraps_small; [reflexivity | lia | unfold is_s, smin, smax; lia].
Qed.

Lemma sprintf_a x l : float_chunks 97 false false false 0 0 false (ldbl_of_double x) = Some l -> zlen (concat l) <= 1000 ->
  sprintf 3 [37; 97] 0 [ADouble x] = SnRet (zlen (concat l)) 0 [] (concat l ++ [0]).
Proof.
  intros C L. unfold sprintf, vsprintf. destruct (vsnprintf_text 3 SIZE_MAX [37; 97] 0 [ADouble x] ltac:(unfold SIZE_MAX, umax; lia))
    as [-> | (st & [Ef | [n Ef]] & N)]; rewrite (run_a x l C L) in *; try discriminate.
  - cbn [perrno stores sink default]. f_equal. unfold truncated. destruct (Z.eqb_spec SIZE_MAX 0) as [E | _]; [by vm_compute in E |].
    rewrite take_ge; [reflexivity |]. unfold SIZE_MAX, umax, id. unfold zlen in L. lia.
  - injection Ef as _ <-. discriminate.
Qed.
End RoundTrip.

Lemma a_text_short neg ds E : (length ds <= 13)%nat -> -1100 <= E < 1100 -> zlen (a_text neg ds E) <= 1000.
Proof.
  intros Ld HE. destruct (exponent_chars_ok E HE) as (_ & L & _). unfold a_text, hex_text. rewrite zlen_app.
  assert (zlen (if neg then [45] else []) <= 1) by (destruct neg; vm_compute; discriminate).
  unfold zlen in *. cbn [length app]. rewrite length_app. cbn [length]. destruct ds; cbn [length] in *; rewrite ?length_map; cbn [length] in *; lia.
Qed.

(** C19: every finite double survives [sprintf] with [%a] and [strtod].  The text that is
    written is read completely, no range error is reported, and the number is the one
    that was printed, bit for bit, normal or subnormal; the sign of a zero is lost. *)
Theorem sprintf_strtod_roundtrip `{ToInteger} x : is_u 64 x -> isfinite F64 x = true ->
  exists text, sprintf 3 [37; 97] 0 [ADouble x] = SnRet (zlen text) 0 [] (text ++ [0]) /\
    strtod text = Some (if mag F64 x =? 0 then 0 else x, [], false).
Proof.
  intros U Fi. destruct (Z.eqb_spec (mag F64 x) 0) as [Z0 | N0].
  - assert (E : x = 0 \/ x = 2 ^ 63) by (pose proof (with_sgn_split F64 x U) as W; rewrite Z0 in W; unfold with_sgn in W; change (sgnbit F64) with (2 ^ 63) in W; destruct (sgn F64 x); lia).
    exists [48; 120; 48; 112; 43; 48]. split; [| by_vm].
    apply (sprintf_a x [[48; 120]; [48]; [112; 43; 48]]); [destruct E as [-> | ->]; by_vm | vm_compute; discriminate].
  - destruct (decode F64 (mag F64 x)) as [m k] eqn:D. pose proof (mag_range F64 x) as Rx. destruct (finite_cases F64 x Fi) as (Nx & Ix & Mx).
    destruct (exponent_range m k (mag F64 x) ltac:(lia) D ltac:(lia)) as (Hm & Hk & Hx). destruct (significand m Hm) as (HB & _).
    destruct (float_chunks_a (sgn F64 x) m (k - eunit F64) Hm ltac:(change (eunit F64) with 1074; lia)) as (ds & (l & C & T) & Fd & Ln & V).
    exists (a_text (sgn F64 x) ds (bits m + (k - eunit F64) - 1)). rewrite <- T at 1 2. split.
    + apply sprintf_a; [| rewrite T; apply a_text_short; [exact Ln | change (eunit F64) with 1074; lia]]. unfold ldbl_of_double. by rewrite Nx, Ix, D.
    + exact (strtod_a x m k ds U Fi D ltac:(lia) Fd Ln V HB).
Qed.

(** One third: 0x1.5555555555555p-2. *)
Lemma sprintf_strtod_roundtrip_witness :
  exists text, @sprintf (fun s => (0, 0)) 3 [37; 97] 0 [ADouble 0x3fd5555555555555] = SnRet (zlen text) 0 [] (text ++ [0]) /\
    strtod text = Some (0x3fd5555555555555, [], false).
Proof. apply (@sprintf_strtod_roundtrip (fun s => (0, 0)) 0x3fd5555555555555); [unfold is_u; lia | by_vm]. Defined.

(** ** Findings *)

(** The sign of an infinity is dropped, and so is that of a NaN. *)
Theorem strtod_negative_infinity : strtod (chars "-inf") = Some (inf_mag F64, [], false).
Proof. by_vm. Qed.

(** Text that is no number moves the end pointer past white space, sign and prefix. *)
Theorem strtod_no_number : strtod (chars "  +x") = Some (0, chars "x", false) /\ strtod (chars "0xg") = Some (0, chars "g", false).
Proof. split; by_vm. Qed.

(** A NaN with an open parenthesis makes the function read behind the terminator. *)
Theorem strtod_open_nan : strtod (chars "nan(") = None.
Proof. by_vm. Qed.

(** Decimal fractions are summed up with a rounding for each digit: 0.15 is not the double
    nearest to it. *)
Theorem strtod_not_nearest :
  strtod (chars "0.15") = Some (0x3fc3333333333334, [], false) /\ fdiv F64 (of_int F64 15) (of_int F64 100) = 0x3fc3333333333333.
Proof. split; by_vm. Qed.

(** A number that is too small becomes zero without a range error. *)
Theorem strtod_underflow_silent : strtod (chars "1e-400") = Some (0, [], false).
Proof. by_vm. Qed.
