(* ===== verification/Strftime.v ===== *)
(** * Formatted calendar time

    [strftime], [asctime] and [ctime] of [src/src/ansi/time.cpp] and
    [wcsftime] of [src/src/ansi/wchar.cpp], whose bodies differ in the character
    type and in how a zone name is copied.

    The format is the characters up to and with its terminator; reading behind the
    terminator is a fault ([Bad]), as is a table access out of range.  The
    destination is written from its start on without gaps, so its state is the
    list of the characters stored so far ([stored], with [written] its length).  A
    failed [write] ends the function with 0 and leaves what is stored. *)

From Stdlib Require Import String Ascii.
From stdpp Require Import base list option.
From S2P Require Import Prelude Literal Calendar.

#[local] Open Scope Z_scope.

Definition CHARS : list Z := chars "0123456789ABCDEF" ++ [0].
Definition MONTH_ABBREVS : list (list Z) :=
  map chars ["Jan"; "Feb"; "Mar"; "Apr"; "May"; "Jun"; "Jul"; "Aug"; "Sep"; "Oct"; "Nov"; "Dec"]%string.
Definition MONTHS : list (list Z) :=
  map chars ["January"; "February"; "March"; "April"; "May"; "June"; "July"; "August"; "September"; "October";
            "November"; "December"]%string.
Definition DAY_ABBREVS : list (list Z) := map chars ["Sun"; "Mon"; "Tue"; "Wed"; "Thu"; "Fri"; "Sat"]%string.
Definition DAYS : list (list Z) :=
  map chars ["Sunday"; "Monday"; "Tuesday"; "Wednesday"; "Thursday"; "Friday"; "Saturday"]%string.

(** ** The writer *)

Inductive outcome (A : Type) : Type :=
  | Go (a : A) (stored : list Z)
  | Stop (stored : list Z)
  | Bad
  | NoFuel.
Arguments Go {A} a stored. Arguments Stop {A} stored. Arguments Bad {A}. Arguments NoFuel {A}.

Definition W (A : Type) : Type := list Z -> outcome A.
Definition wret {A} (a : A) : W A := fun s => Go a s.
Definition wbind {A B} (x : W A) (f : A -> W B) : W B :=
  fun s => match x s with Go a s' => f a s' | Stop s' => Stop s' | Bad => Bad | NoFuel => NoFuel end.
Definition wbad {A} : W A := fun _ => Bad.
Definition wfail {A} : W A := fun s => Stop s.
Definition wof {A} (x : option A) : W A := match x with Some a => wret a | None => wbad end.

#[global] Instance W_ret : MRet W := fun A a => wret a.
#[global] Instance W_bind : MBind W := fun A B f x => wbind x f.

(** An access [table[i]]. *)
Definition at_index {A} (table : list A) (i : Z) : option A := if i <? 0 then None else table !! Z.to_nat i.

(** The digits of [write_int], from the last slot of [buf] down; [room] slots are
    left. *)
Fixpoint digits_down (room : nat) (value base : Z) (acc : list Z) : option (list Z) :=
  match room with
  | O => None
  | S n =>
    c ← at_index CHARS (Z.rem value base);
    let value := Z.quot value base in
    if value =? 0 then Some (c :: acc) else digits_down n value base (c :: acc)
  end.

Definition pad_zero (pad : Z) (ds : list Z) : option (list Z) :=
  let ds := replicate (Z.to_nat (pad - zlen ds)) 48 ++ ds in
  if zlen ds <=? 64 then Some ds else None.

Section Format.
Context (count : Z).

Definition write (l : list Z) : W unit :=
  fun stored => if count <? zlen stored + zlen l then Stop stored else Go tt (stored ++ l).

Definition write_int (value base pad : Z) : W unit :=
  ds ← wof (ds ← digits_down 64 value base []; pad_zero pad ds); write ds.

(** Two digits of the table. *)
Definition write_chars (a b : Z) : W unit :=
  x ← wof (at_index CHARS a); y ← wof (at_index CHARS b); write [x; y].

Definition write_name (table : list (list Z)) (i : Z) : W unit := n ← wof (at_index table i); write n.

Definition hour12 (hour : Z) : Z := let h := Z.rem hour 12 in if h =? 0 then 12 else h.

Context (tz : option (Z -> TzData)) (write_zone : list Z -> W unit) (time : tm).

(** Arithmetic on [int] fields; an overflow is undefined. *)
Definition int_result (z : Z) : W Z := if (smin 32 <=? z) && (z <=? smax 32) then wret z else wbad.

(** [time->tm_year + 1900]. *)
Definition full_year : W Z := int_result (tm_year time + 1900).

Definition with_zone (k : TzData -> W unit) : W unit :=
  match tz with
  | None => wret tt
  | Some get_tz_data =>
    match mktime tz time with
    | Some (t, _) => if t =? -1 then wret tt else k (get_tz_data t)
    | None => wret tt
    end
  end.

Definition write_offset (info : TzData) : W unit :=
  let neg := gmt_offset info <? 0 in
  write (chars (if neg then "-" else "+")) ;;
  off ← (if neg then int_result (gmt_offset info * -1) else wret (gmt_offset info));
  write_int (Z.quot off (60 * 60)) 10 2 ;;
  write_int (Z.quot (Z.rem off (60 * 60)) 60) 10 2.

Definition one_of (c : Z) (s : string) : bool := existsb (Z.eqb c) (chars s).

(** The characters that may follow [O], where nothing is written. *)
Definition after_O : string := "ybBmdewuHIMS".

(** Line breaks and the year. *)
Definition year_conversion (c : Z) (r : list Z) : W (list Z) :=
  if one_of c "n" then write [10] ;; wret r
  else if one_of c "t" then write [9] ;; wret r
  else if one_of c "Y" then y ← full_year; write_int y 10 0 ;; wret r
  else if one_of c "E" then
    match r with
    | [] => wbad
    | c :: r =>
      if one_of c "Y" then y ← full_year; write_int y 10 0 ;; wret r
      else if one_of c "y" then
        y ← full_year;
        let era := Z.quot y 1000 * 1000 in
        write_int (y - era) 10 2 ;; wret r
      else if one_of c "CcX" then wret r
      else wfail
    end
  else if one_of c "y" then y ← full_year; write_chars (Z.rem (Z.quot y 10) 10) (Z.rem y 10) ;; wret r
  else if one_of c "O" then
    match r with [] => wbad | c :: r => if one_of c after_O then wret r else wfail end
  else if one_of c "C" then
    y ← full_year;
    write_chars (Z.rem (Z.quot (Z.quot (Z.quot y 10) 10) 10) 10)
                (Z.rem (Z.quot (Z.quot y 10) 10) 10) ;; wret r
  else wret r.

(** The month and the day. *)
Definition date_conversion (c : Z) (r : list Z) : W (list Z) :=
  if one_of c "bh" then write_name MONTH_ABBREVS (tm_mon time) ;; wret r
  else if one_of c "B" then write_name MONTHS (tm_mon time) ;; wret r
  else if one_of c "m" then n ← int_result (tm_mon time + 1); write_int n 10 2 ;; wret r
  else if one_of c "j" then n ← int_result (tm_yday time + 1); write_int n 10 3 ;; wret r
  else if one_of c "d" then write_int (tm_mday time) 10 2 ;; wret r
  else if one_of c "e" then
    a ← wof (at_index CHARS (Z.rem (Z.quot (tm_mday time) 10) 10));
    b ← wof (at_index CHARS (Z.rem (tm_mday time) 10));
    (if a =? 48 then write [b] else write [a; b]) ;; wret r
  else if one_of c "a" then write_name DAY_ABBREVS (tm_wday time) ;; wret r
  else if one_of c "A" then write_name DAYS (tm_wday time) ;; wret r
  else if one_of c "w" then write_int (tm_wday time) 10 0 ;; wret r
  else n ← int_result (tm_wday time + 1); write_int n 10 0 ;; wret r.

(** The time of day, and [c] and [x]. *)
Definition clock_conversion (c : Z) (r : list Z) : W (list Z) :=
  if one_of c "H" then write_int (tm_hour time) 10 2 ;; wret r
  else if one_of c "I" then write_int (hour12 (tm_hour time)) 10 0 ;; wret r
  else if one_of c "M" then write_int (tm_min time) 10 2 ;; wret r
  else if one_of c "S" then write_int (tm_sec time) 10 2 ;; wret r
  else if one_of c "c" then
    write_name DAY_ABBREVS (tm_wday time) ;; write (chars " ") ;;
    write_name MONTH_ABBREVS (tm_mon time) ;; write (chars " ") ;;
    write_int (tm_mday time) 10 0 ;; write (chars " ") ;;
    write_int (tm_hour time) 10 2 ;; write (chars ":") ;;
    write_int (tm_min time) 10 2 ;; write (chars ":") ;;
    write_int (tm_sec time) 10 2 ;; write (chars " ") ;;
    y ← full_year; write_int y 10 0 ;; wret r
  else
    write_int (tm_mday time) 10 2 ;; write (chars ".") ;;
    n ← int_result (tm_mon time + 1); write_int n 10 0 ;; write (chars ".") ;;
    y ← full_year; write_int y 10 0 ;; wret r.

(** The composites. *)
Definition composite_conversion (c : Z) (r : list Z) : W (list Z) :=
  if one_of c "D" then
    n ← int_result (tm_mon time + 1); write_int n 10 0 ;; write (chars "/") ;;
    write_int (tm_mday time) 10 2 ;; write (chars "/") ;;
    y ← full_year; write_int y 10 0 ;; wret r
  else if one_of c "F" then
    y ← full_year; write_int y 10 0 ;; write (chars "-") ;;
    n ← int_result (tm_mon time + 1); write_int n 10 0 ;; write (chars "-") ;;
    write_int (tm_mday time) 10 2 ;; wret r
  else if one_of c "r" then
    write_int (hour12 (tm_hour time)) 10 0 ;; write (chars ":") ;;
    write_int (tm_min time) 10 2 ;; wret r
  else if one_of c "R" then
    write_int (tm_hour time) 10 2 ;; write (chars ":") ;; write_int (tm_min time) 10 2 ;; wret r
  else
    write_int (tm_hour time) 10 2 ;; write (chars ":") ;;
    write_int (tm_min time) 10 2 ;; write (chars ":") ;;
    write_int (tm_sec time) 10 2 ;; wret r.

(** The conversion [*fmt], [prev] the character in front of it; the result is the rest
    of the format: [p], [z] and [Z] leave the position at their own letter. *)
Definition conversion (prev : Z) (fmt : list Z) : W (list Z) :=
  match fmt with
  | [] => wbad
  | c :: r =>
    if one_of c "ntYEyOCGg" then year_conversion c r
    else if one_of c "bhBmjdeaAwu" then date_conversion c r
    else if one_of c "HIMScx" then clock_conversion c r
    else if one_of c "DFrRT" then composite_conversion c r
    else if one_of c "p" then write (chars (if tm_hour time <? 12 then "AM" else "PM")) ;; wret fmt
    else if one_of c "z" then with_zone write_offset ;; wret fmt
    else if one_of c "Z" then with_zone (fun info => write_zone (zone info)) ;; wret fmt
    else write [prev; c] ;; wret r
  end.

(** [for (; *fmt && *fmt != '%'; ++fmt);]: the characters passed and the rest. *)
Fixpoint literal (fmt : list Z) : option (list Z * list Z) :=
  match fmt with
  | [] => None
  | c :: r => if (c =? 0) || (c =? 37) then Some ([], fmt) else '(l, r) ← literal r; Some (c :: l, r)
  end.

(** [for (; *fmt == '%' && fmt[1] == '%'; fmt += 2) ++len;] *)
Fixpoint percents (fmt : list Z) : option (nat * list Z) :=
  match fmt with
  | [] => None
  | c :: r =>
    if c =? 37 then
      match r with
      | [] => None
      | d :: r' => if d =? 37 then '(n, r) ← percents r'; Some (S n, r) else Some (O, fmt)
      end
    else Some (O, fmt)
  end.

Fixpoint format_loop (n : nat) (fmt : list Z) : W unit :=
  match n with
  | O => fun _ => NoFuel
  | S n =>
    x ← wof (literal fmt);
    y ← wof (percents x.2);
    let len := (length x.1 + y.1)%nat in
    (if (len =? 0)%nat then wret tt else write (take len fmt)) ;;
    match y.2 with
    | [] => wbad
    | c :: r => if c =? 0 then wret tt else fmt ← conversion c r; format_loop n fmt
    end
  end.

(** The result and the characters of the destination that are written. *)
Definition ftime (fmt : list Z) : option (Z * list Z) :=
  match format_loop (length fmt) fmt [] with
  | Go _ s => if count =? 0 then Some (zlen s, s)
              else if zlen s <? count then Some (zlen s, s ++ [0]) else Some (0, s)
  | Stop s => Some (0, s)
  | Bad | NoFuel => None
  end.
End Format.

(** One character at a time. *)
Fixpoint write_each (count : Z) (l : list Z) : W unit :=
  match l with [] => wret tt | c :: r => write count [c] ;; write_each count r end.

Definition strftime (tz : option (Z -> TzData)) (count : Z) (fmt : list Z) (time : tm) : option (Z * list Z) :=
  ftime count tz (write count) time fmt.

Definition wcsftime (tz : option (Z -> TzData)) (count : Z) (fmt : list Z) (time : tm) : option (Z * list Z) :=
  ftime count tz (write_each count) time fmt.

(** The contents of [ASCTIME_BUF] after the call, from what it held before. *)
Definition asctime (tz : option (Z -> TzData)) (time : tm) (buf : list Z) : option (list Z) :=
  '(_, s) ← strftime tz 26 (chars "%a %b %d %T %Y" ++ [10; 0]) time;
  Some (s ++ drop (length s) buf).

Definition ctime (tz : option (Z -> TzData)) (time_value : Z) (buf : list Z) : option (list Z) :=
  t ← localtime_r tz time_value; asctime tz t buf.

(** ** The writer, composed

    [emits w e a]: [w] writes [e] and returns [a] if there is room; otherwise it stops
    and has written a part of [e] that fits. *)
Definition emits {A} (count : Z) (w : W A) (e : list Z) (a : A) : Prop :=
  forall s, zlen s <= count ->
    (zlen s + zlen e <= count /\ w s = Go a (s ++ e)) \/
    (count < zlen s + zlen e /\ exists p, p `prefix_of` e /\ zlen s + zlen p <= count /\ w s = Stop (s ++ p)).


Lemma emits_ret {A} count (a : A) : emits count (wret a) [] a.
Proof. intros s H. left. rewrite app_nil_r. unfold zlen at 2. simpl. split; [lia | reflexivity]. Qed.

Lemma emits_write count l : emits count (write count l) l tt.
Proof.
  intros s H. unfold write. destruct (Z.ltb_spec count (zlen s + zlen l)); [right | left; split; [lia | reflexivity]].
  split; [lia |]. exists []. rewrite app_nil_r. unfold zlen at 2. simpl. split_and!; [apply prefix_nil | lia | reflexivity].
Qed.

Lemma emits_bind {A B} count (w : W A) (k : A -> W B) e e' a b :
  emits count w e a -> emits count (k a) e' b -> emits count (w ≫= k) (e ++ e') b.
Proof.
  intros Hw Hk s H. unfold mbind, W_bind, wbind. rewrite zlen_app. pose proof (zlen_nonneg e').
  destruct (Hw s H) as [(L & ->) | (L & p & P & Lp & ->)].
  - destruct (Hk (s ++ e)) as [(L' & ->) | (L' & p & P & Lp & ->)]; rewrite zlen_app in *; [lia | left | right].
    + rewrite app_assoc. split; [lia | reflexivity].
    + split; [lia |]. exists (e ++ p). rewrite zlen_app, app_assoc. split_and!; [by apply prefix_app | lia | reflexivity].
  - right. split; [lia |]. exists p. split_and!; [by apply prefix_app_r | lia | reflexivity].
Qed.

(** Behind a writer that only returns. *)
Lemma emits_then {A B} count (w : W A) (b : B) e a : emits count w e a -> emits count (w ;; wret b) e b.
Proof. intros Hw. rewrite <- (app_nil_r e). eapply emits_bind; [exact Hw | apply emits_ret]. Qed.

Lemma emits_write_int count v pad ds :
  (ds ← digits_down 64 v 10 []; pad_zero pad ds) = Some ds -> emits count (write_int count v 10 pad) ds tt.
Proof. intros E. unfold write_int. rewrite E. apply emits_write. Qed.

(** The last [w] decimal digits of [n]. *)
Definition padded (w : nat) (n : Z) : list Z := map (fun k => 48 + n / 10 ^ Z.of_nat k mod 10) (rev (seq 0 w)).

(** Numbers below the bound are written as their [w] digits. *)
Definition written_as (w : nat) (pad lo n : Z) : bool :=
  check_range lo n (fun v => bool_decide ((ds ← digits_down 64 v 10 []; pad_zero pad ds) = Some (padded w v))).

Lemma written_as_ok w pad lo n : written_as w pad lo n = true ->
  forall count v, lo <= v < lo + n -> emits count (write_int count v 10 pad) (padded w v) tt.
Proof.
  intros C count v H. apply emits_write_int. apply (bool_decide_unpack _).
  apply Is_true_eq_left. exact (range_check lo n _ C v H).
Qed.

Lemma emits_2 count v : 0 <= v < 100 -> emits count (write_int count v 10 2) (padded 2 v) tt.
Proof. exact (written_as_ok 2 2 0 100 ltac:(by_vm) count v). Qed.
Lemma emits_3 count v : 0 <= v < 1000 -> emits count (write_int count v 10 3) (padded 3 v) tt.
Proof. exact (written_as_ok 3 3 0 1000 ltac:(by_vm) count v). Qed.
Lemma emits_digit count v : 0 <= v < 10 -> emits count (write_int count v 10 0) (padded 1 v) tt.
Proof. exact (written_as_ok 1 0 0 10 ltac:(by_vm) count v). Qed.
Lemma emits_year count v : 1000 <= v < 10000 -> emits count (write_int count v 10 0) (padded 4 v) tt.
Proof. intros H. apply (written_as_ok 4 0 1000 9000 ltac:(by_vm) count v). lia. Qed.

(** ** The reference: C17 7.27.3.5, in the C locale *)

(** The fields in their ranges, a year of four digits. *)
Definition tm_ok (t : tm) : Prop :=
  0 <= tm_sec t <= 60 /\ 0 <= tm_min t <= 59 /\ 0 <= tm_hour t <= 23 /\ 1 <= tm_mday t <= 31 /\
  0 <= tm_mon t <= 11 /\ 1000 <= tm_year t + 1900 <= 9999 /\ 0 <= tm_wday t <= 6 /\ 0 <= tm_yday t <= 365.

Section Reference.
Context (t : tm).
Let year := tm_year t + 1900.
Let hm := padded 2 (tm_hour t) ++ chars ":" ++ padded 2 (tm_min t).

(** What a conversion stands for; [None] for the ones left out here. *)
Definition reference_conversion (c : Z) : option (list Z) :=
  if c =? 110 then Some [10] else if c =? 116 then Some [9]
  else if c =? 89 then Some (padded 4 year) else if c =? 121 then Some (padded 2 (year mod 100))
  else if c =? 67 then Some (padded 2 (year / 100)) else if one_of c "bh" then Some (nth (Z.to_nat (tm_mon t)) MONTH_ABBREVS [])
  else if c =? 66 then Some (nth (Z.to_nat (tm_mon t)) MONTHS []) else if c =? 109 then Some (padded 2 (tm_mon t + 1))
  else if c =? 106 then Some (padded 3 (tm_yday t + 1)) else if c =? 100 then Some (padded 2 (tm_mday t))
  else if c =? 97 then Some (nth (Z.to_nat (tm_wday t)) DAY_ABBREVS []) else if c =? 65 then Some (nth (Z.to_nat (tm_wday t)) DAYS [])
  else if c =? 119 then Some (padded 1 (tm_wday t)) else if c =? 72 then Some (padded 2 (tm_hour t))
  else if c =? 77 then Some (padded 2 (tm_min t)) else if c =? 83 then Some (padded 2 (tm_sec t))
  else if c =? 82 then Some hm else if c =? 84 then Some (hm ++ chars ":" ++ padded 2 (tm_sec t))
  else None.

(** The text of a format.  [None] where the code departs from the standard: a
    conversion that is not in the table, a lone % at the end, %% in front of a
    character that does not start a conversion. *)
Fixpoint reference (fmt : list Z) : option (list Z) :=
  match fmt with
  | [] => Some []
  | c :: r =>
    if c =? 37 then
      match r with
      | [] => None
      | d :: r' =>
        if d =? 37 then
          if bool_decide (r' = []) || bool_decide (head r' = Some 37) then e ← reference r'; Some (37 :: e) else None
        else x ← reference_conversion d; e ← reference r'; Some (x ++ e)
      end
    else if c =? 0 then None else e ← reference r; Some (c :: e)
  end.
End Reference.

Lemma emits_name count table i : 0 <= i < zlen table -> emits count (write_name count table i) (nth (Z.to_nat i) table []) tt.
Proof.
  intros H. unfold write_name, at_index. destruct (Z.ltb_spec i 0); [lia |]. unfold zlen in H.
  destruct (nth_lookup_or_length table (Z.to_nat i) []) as [-> | ?]; [apply emits_write | lia].
Qed.

Lemma chars_digit d : 0 <= d < 10 -> at_index CHARS d = Some (48 + d).
Proof.
  intros H. assert (C : check_range 0 10 (fun d => bool_decide (at_index CHARS d = Some (48 + d))) = true) by by_vm.
  by apply (range_check 0 10 _ C d), bool_decide_eq_true in H.
Qed.

Lemma emits_chars count a b : 0 <= a < 10 -> 0 <= b < 10 -> emits count (write_chars count a b) [48 + a; 48 + b] tt.
Proof. intros Ha Hb. unfold write_chars. rewrite !chars_digit by assumption. apply emits_write. Qed.

Lemma padded_2 n : padded 2 n = [48 + n / 10 mod 10; 48 + n mod 10].
Proof. unfold padded. simpl. by rewrite Z.div_1_r. Qed.

Lemma emits_chars' count a b x y : 0 <= a < 10 -> 0 <= b < 10 -> x = 48 + a -> y = 48 + b ->
  emits count (write_chars count a b) [x; y] tt.
Proof. intros Ha Hb -> ->. by apply emits_chars. Qed.

(** A sequence of writers. *)
Ltac emit :=
  lazymatch goal with
  | |- emits _ (_ ≫= (fun _ => wret _)) _ _ => eapply emits_then; emit
  | |- emits _ (_ ≫= _) _ _ => eapply emits_bind; [emit | emit]
  | _ => first [ apply emits_write | apply emits_2; lia | apply emits_3; lia | apply emits_year; lia | apply emits_digit; lia
               | apply emits_name; unfold zlen; simpl; lia ]
  end.

(** Choosing the branch of a character that is known. *)
Ltac known_char :=
  repeat match goal with
  | |- context [one_of ?c ?s] => 
      let H := fresh in let b := eval vm_compute in (one_of c s) in assert (H : one_of c s = b) by by_vm; rewrite H; clear H; cbv iota
  end.

Lemma wbind_ret {A B} (a : A) (f : A -> W B) : (wret a ≫= f) = f a.
Proof. reflexivity. Qed.

Lemma one_of_2 c : one_of c "bh" = true -> c = 98 \/ c = 104.
Proof. unfold one_of. rewrite existsb_exists. intros (x & I & ->%Z.eqb_eq). vm_compute in I. lia. Qed.

Lemma conversion_ok count tz wz t prev c r e : tm_ok t -> reference_conversion t c = Some e ->
  emits count (conversion count tz wz t prev (c :: r)) e r.
Proof.
  intros (Hs & Hmi & Hh & Hd & Hmo & Hy & Hw & Hyd) E.
  assert (S32 : forall v, 0 <= v <= 10000 -> int_result v = wret v)
    by (intros; unfold int_result, smin, smax; rewrite !(proj2 (Z.leb_le _ _)) by lia; reflexivity).
  assert (Y : full_year t = wret (tm_year t + 1900)) by (apply S32; lia).
  unfold reference_conversion in E.
  repeat match type of E with
  | (if ?c =? ?k then _ else _) = _ => destruct (Z.eqb_spec c k) as [-> | _]; [apply (inj Some) in E; subst e |]
  | (if one_of ?c "bh" then _ else _) = _ => destruct (one_of c "bh") eqn:O; [apply (inj Some) in E; subst e |]
  end; try discriminate; try (apply one_of_2 in O as [-> | ->]); unfold conversion; known_char;
    unfold year_conversion, date_conversion, clock_conversion, composite_conversion; known_char;
    rewrite ?Y, ?S32 by lia; rewrite ?wbind_ret; repeat rewrite <- !app_assoc; try emit.
  - rewrite padded_2. eapply emits_then, emits_chars'; Z.to_euclidean_division_equations; lia.
  - rewrite padded_2. eapply emits_then, emits_chars'; Z.to_euclidean_division_equations; lia.
Qed.

(** ** The loop over the format *)

Lemma reference_cons t c r : c <> 37 -> c <> 0 -> reference t (c :: r) = (e ← reference t r; Some (c :: e)).
Proof. intros H H'. cbn [reference]. by rewrite (proj2 (Z.eqb_neq c 37) H), (proj2 (Z.eqb_neq c 0) H'). Qed.

(** A format is characters, pairs of percent signs and a conversion or the end. *)
Lemma literal_ok t fmt : forall e, reference t fmt = Some e -> exists l r e',
  fmt = l ++ r /\ literal (fmt ++ [0]) = Some (l, r ++ [0]) /\ (r = [] \/ head r = Some 37) /\
  reference t r = Some e' /\ e = l ++ e'.
Proof.
  induction fmt as [| c r IH]; intros e E; [exists [], [], []; split_and!; auto; by injection E as <- |].
  cbn [app literal]. destruct (Z.eqb_spec c 37) as [-> | N37].
  { exists [], (37 :: r), e. split_and!; auto. }
  destruct (Z.eqb_spec c 0) as [-> | N0]; [discriminate |]. rewrite reference_cons in E by assumption.
  destruct (reference t r) as [e1 |]; [injection E as <- | discriminate].
  destruct (IH e1 eq_refl) as (l & r' & e' & -> & -> & Hd & R & ->). exists (c :: l), r', e'. split_and!; auto.
Qed.

Lemma take_cons_same (x : Z) k l : take k l = replicate k x -> take k (x :: l) = replicate k x.
Proof.
  intros T. destruct k as [| k]; [reflexivity |]. cbn [take replicate]. f_equal.
  rewrite <- (Nat.min_l k (S k)) by lia. rewrite <- take_take, T. apply take_replicate.
Qed.

Lemma percents_ok t n : forall r e, (length r <= n)%nat -> r = [] \/ head r = Some 37 -> reference t r = Some e -> exists k r' e',
  percents (r ++ [0]) = Some (k, r' ++ [0]) /\ take k (r ++ [0]) = replicate k 37 /\ (length r' <= length r)%nat /\
  reference t r' = Some e' /\ e = replicate k 37 ++ e' /\
  (r' = [] \/ exists d r'' x e'', r' = 37 :: d :: r'' /\ reference_conversion t d = Some x /\ reference t r'' = Some e'' /\ e' = x ++ e'').
Proof.
  induction n as [| n IH]; intros r e L Hd E.
  { destruct r; [| simpl in L; lia]. exists O, [], []. injection E as <-. split_and!; auto. }
  destruct Hd as [-> | Hd]; [apply IH; auto; simpl; lia |]. destruct r as [| c [| d r]]; [discriminate | |].
  { injection Hd as ->. discriminate. }
  injection Hd as ->. cbn [reference] in E. rewrite Z.eqb_refl in E. cbn [app percents]. rewrite Z.eqb_refl.
  destruct (Z.eqb_spec d 37) as [-> | Nd].
  - destruct (bool_decide (r = []) || bool_decide (head r = Some 37)) eqn:Hr; [| discriminate].
    destruct (reference t r) as [e1 |] eqn:R; [injection E as <- | discriminate].
    destruct (IH r e1) as (k & r' & e' & P & T & L' & R' & -> & C); [simpl in L; lia | | exact R |].
    { apply orb_true_iff in Hr as [H | H]; apply bool_decide_eq_true in H; auto. }
    rewrite P. exists (S k), r', e'. split_and!; auto; [| simpl; lia]. cbn [take replicate]. f_equal. by apply take_cons_same.
  - destruct (reference_conversion t d) as [x |] eqn:X; [| discriminate].
    destruct (reference t r) as [e1 |] eqn:R; [injection E as <- | discriminate].
    exists O, (37 :: d :: r), (x ++ e1). split_and!; auto.
    + cbn [reference]. rewrite Z.eqb_refl, (proj2 (Z.eqb_neq d 37) Nd), X. cbn. by rewrite R.
    + right. exists d, r, x, e1. auto.
Qed.

Lemma format_loop_ok count tz wz t : tm_ok t -> forall n fmt e, (length fmt < n)%nat -> reference t fmt = Some e ->
  emits count (format_loop count tz wz t n (fmt ++ [0])) e tt.
Proof.
  intros T. induction n as [| n IH]; intros fmt e L E; [lia |]. cbn [format_loop].
  destruct (literal_ok t fmt e E) as (l & r & e1 & -> & -> & Hd & R & ->).
  destruct (percents_ok t (length r) r e1) as (k & r' & e' & P & Tk & Lr & R' & -> & C); auto.
  change (wof (Some (l, r ++ [0]))) with (wret (l, r ++ [0])). rewrite length_app in L.
  change (l ++ replicate k 37 ++ e') with ([] ++ l ++ replicate k 37 ++ e'). eapply emits_bind; [apply emits_ret |]. cbn [fst snd].
  rewrite P. change (l ++ replicate k 37 ++ e') with ([] ++ l ++ replicate k 37 ++ e').
  eapply emits_bind; [apply emits_ret |]. cbn [fst snd]. rewrite app_assoc. eapply emits_bind.
  - destruct (Nat.eqb_spec (length l + k) 0) as [Z0 | _].
    + destruct l; [| simpl in Z0; lia]. destruct k; [| simpl in Z0; lia]. apply emits_ret.
    + rewrite <- app_assoc, take_app_add, Tk. apply emits_write.
  - destruct C as [-> | (d & r'' & x & e'' & -> & X & R'' & ->)]; cbn [app].
    + injection R' as <-. apply emits_ret.
    + eapply emits_bind; [apply conversion_ok; eassumption |]. apply IH; [simpl in Lr; lia | exact R''].
Qed.

Lemma ftime_ok count tz wz t fmt e : 0 <= count -> tm_ok t -> reference t fmt = Some e ->
  let result := ftime count tz wz t (fmt ++ [0]) in
  if zlen e <? count then result = Some (zlen e, e ++ [0])
  else exists p, p `prefix_of` e /\ zlen p <= count /\ result = Some (0, p).
Proof.
  intros H T E result. unfold result, ftime.
  assert (L : (length fmt < length (fmt ++ [0%Z]))%nat) by (rewrite length_app; simpl; lia).
  pose proof (format_loop_ok count tz wz t T _ fmt e L E [] H) as G. change (zlen []) with 0 in G. cbn [app] in G.
  pose proof (zlen_nonneg e). destruct G as [(C & ->) | (C & p & P & Lp & ->)].
  - destruct (Z.ltb_spec (zlen e) count), (Z.eqb_spec count 0); try lia; try reflexivity; exists e; split_and!; auto; try lia.
    f_equal. f_equal. lia.
  - destruct (Z.ltb_spec (zlen e) count); [lia |]. exists p. split_and!; auto; lia.
Qed.

(** C17: [strftime] and [wcsftime] write the text the standard prescribes, within the
    bounds of the destination.  For every time whose fields are in their ranges (and
    whose year has four digits) and every format whose conversions are among
    a, A, b, B, C, d, h, H, j, m, M, n, R, S, t, T, w, y, Y and %% (the latter at the
    end or in front of another conversion), with any [count] and zone data: both
    functions terminate without reading behind the format, and with [e] the reference
    text, if [e] and a terminator fit they store exactly these and return the length
    of [e]; otherwise they return 0 and have stored a part of [e] of at most
    [count] characters. *)
Theorem strftime_correct (wide : bool) tz count fmt t e :
  0 <= count -> tm_ok t -> reference t fmt = Some e ->
  let result := (if wide then wcsftime else strftime) tz count (fmt ++ [0]) t in
  if zlen e <? count then result = Some (zlen e, e ++ [0])
  else exists p, p `prefix_of` e /\ zlen p <= count /\ result = Some (0, p).
Proof.
  intros H T E result. unfold result, strftime, wcsftime. destruct wide; by apply ftime_ok.
Qed.

(** 5 January 2024, 14:03:07, a Friday. *)
Definition january_5 : tm := mk_tm 7 3 14 5 0 124 5 4 0 0 UTC.

Lemma january_5_ok : tm_ok january_5.
Proof. unfold tm_ok. simpl. lia. Qed.

Lemma strftime_correct_witness :
  strftime None 100 (chars "%A, %d %B %Y %T%%" ++ [0]) january_5 = Some (33, chars "Friday, 05 January 2024 14:03:07%" ++ [0]).
Proof.
  exact (strftime_correct false None 100 (chars "%A, %d %B %Y %T%%") january_5 (chars "Friday, 05 January 2024 14:03:07%")
           ltac:(lia) january_5_ok eq_refl).
Defined.

(** ** [asctime] *)

(** A table whose entries all have one length. *)
Lemma name_length (table : list (list Z)) (n : nat) i :
  Forall (fun l => length l = n) table -> 0 <= i < zlen table -> zlen (nth (Z.to_nat i) table []) = Z.of_nat n.
Proof.
  intros F H. unfold zlen in *. f_equal. apply (proj1 (List.Forall_forall _ _) F). apply nth_In. lia.
Qed.

Lemma padded_length w n : zlen (padded w n) = Z.of_nat w.
Proof. unfold padded, zlen. by rewrite length_map, length_rev, length_seq. Qed.

(** [asctime] fills its buffer of 26 characters exactly. *)
Theorem asctime_ok tz t buf : tm_ok t -> length buf = 26%nat ->
  asctime tz t buf = Some (
    nth (Z.to_nat (tm_wday t)) DAY_ABBREVS [] ++ chars " " ++ nth (Z.to_nat (tm_mon t)) MONTH_ABBREVS [] ++ chars " " ++
    padded 2 (tm_mday t) ++ chars " " ++ (padded 2 (tm_hour t) ++ chars ":" ++ padded 2 (tm_min t)) ++ chars ":" ++
    padded 2 (tm_sec t) ++ chars " " ++ padded 4 (tm_year t + 1900) ++ [10; 0]).
Proof.
  intros T B. unfold asctime, strftime.
  set (e := nth (Z.to_nat (tm_wday t)) DAY_ABBREVS [] ++ chars " " ++ nth (Z.to_nat (tm_mon t)) MONTH_ABBREVS [] ++ chars " " ++
    padded 2 (tm_mday t) ++ chars " " ++ ((padded 2 (tm_hour t) ++ chars ":" ++ padded 2 (tm_min t)) ++ chars ":" ++
    padded 2 (tm_sec t)) ++ chars " " ++ padded 4 (tm_year t + 1900) ++ [10]).
  assert (L : zlen e = 25).
  { destruct T as (_ & _ & _ & _ & Hmo & _ & Hw & _). unfold e. rewrite !zlen_app, !padded_length.
    rewrite (name_length DAY_ABBREVS 3), (name_length MONTH_ABBREVS 3);
      try (unfold zlen; simpl; lia); repeat constructor. }
  pose proof (ftime_ok 26 tz (write 26) t (chars "%a %b %d %T %Y" ++ [10]) e ltac:(lia) T eq_refl) as G.
  cbv zeta in G. rewrite L in G. change (25 <? 26) with true in G. cbv iota in G.
  change (chars "%a %b %d %T %Y" ++ [10; 0]) with ((chars "%a %b %d %T %Y" ++ [10]) ++ [0]). rewrite G. cbn [mbind option_bind].
  rewrite drop_ge by (rewrite length_app; unfold zlen in L; simpl; lia). f_equal. unfold e. by rewrite !app_nil_r, <- !app_assoc.
Qed.

(** ** A round trip through ISO 8601 *)

Definition number (l : list Z) : Z := fold_left (fun v c => 10 * v + (c - 48)) l 0.

(** Reading YYYY-MM-DDThh:mm:ss back. *)
Definition read_iso (s : list Z) : tm :=
  let field i n := number (take n (drop i s)) in
  mk_tm (field 17%nat 2%nat) (field 14%nat 2%nat) (field 11%nat 2%nat) (field 8%nat 2%nat) (field 5%nat 2%nat - 1)
    (field 0%nat 4%nat - 1900) 0 0 0 0 [].

Lemma number_padded_2 n : 0 <= n < 100 -> number (padded 2 n) = n.
Proof. intros H. rewrite padded_2. unfold number. simpl. Z.to_euclidean_division_equations. lia. Qed.

Lemma number_padded_4 n : 0 <= n < 10000 -> number (padded 4 n) = n.
Proof. intros H. unfold padded, number. simpl. Z.to_euclidean_division_equations. lia. Qed.

(** The months before the [k]-th and the days of a date in it. *)
Lemma month_sum_bounds y k d : 0 <= k < 12 -> 1 <= d <= znth 0 (get_days_per_month_table y) k ->
  d - 1 <= month_sum (Z.to_nat k) (get_days_per_month_table y) (d - 1) <= 365.
Proof.
  intros K D. unfold get_days_per_month_table in *.
  assert (C : k = 0 \/ k = 1 \/ k = 2 \/ k = 3 \/ k = 4 \/ k = 5 \/ k = 6 \/ k = 7 \/ k = 8 \/ k = 9 \/ k = 10 \/ k = 11) by lia.
  destruct (is_leap y); repeat destruct C as [-> | C]; subst; cbv -[Z.add Z.sub Z.le Z.lt] in *; lia.
Qed.

Lemma year_sum_bound n : forall y, 365 * Z.of_nat n <= year_sum n y 0.
Proof. induction n as [| n IH]; intros y; [simpl; lia |]. cbn [year_sum]. rewrite year_sum_acc. pose proof (days_per_year_bounds y). pose proof (IH (y + 1)). lia. Qed.

(** The fields of a normal time before the year 3000 or so. *)
Lemma normal_tm_ok t : normal_tm t -> utc_seconds t < TIME_LIMIT -> tm_ok t.
Proof.
  intros (Hs & Hmi & Hh & Hmo & Hy & Hd & Hw & Hyd) U.
  pose proof (month_len (tm_year t + 1900) (tm_mon t) Hmo).
  pose proof (month_sum_bounds _ _ _ Hmo Hd) as M. rewrite <- Hyd in M.
  pose proof (Z.mod_pos_bound (civil_days (tm_year t + 1900) (tm_mon t) (tm_mday t - 1) + 4) 7 ltac:(lia)).
  pose proof (year_sum_bound (Z.to_nat (tm_year t + 1900 - EPOCH_YEAR)) EPOCH_YEAR) as B.
  unfold utc_seconds, civil_days, days_between in *. rewrite <- Hyd in U. unfold EPOCH_YEAR, TIME_LIMIT in *.
  unfold tm_ok. split_and!; lia.
Qed.

Definition ISO : list Z := chars "%Y-%m-%dT%H:%M:%S".

(** [timegm] looks at the date and the time of day only. *)
Lemma timegm_fields t t' : tm_sec t = tm_sec t' -> tm_min t = tm_min t' -> tm_hour t = tm_hour t' -> tm_mday t = tm_mday t' ->
  tm_mon t = tm_mon t' -> tm_year t = tm_year t' -> timegm t = timegm t'.
Proof. intros A B C D E F. unfold timegm, normalise. by rewrite A, B, C, D, E, F. Qed.

(** A time broken down, written in the ISO format, read back and composed again is the
    same time. *)
Theorem iso_roundtrip tz t : 0 <= t < TIME_LIMIT -> exists d s,
  gmtime_r t = Some d /\ strftime tz 20 (ISO ++ [0]) d = Some (19, s ++ [0]) /\ timegm (read_iso s) = Some (t, d).
Proof.
  intros H. destruct (break_down_ok t 0 0 UTC ltac:(lia)) as (d & E & N & U & I & O & Zn).
  assert (T : tm_ok d) by (apply normal_tm_ok; [exact N | lia]).
  set (s := padded 4 (tm_year d + 1900) ++ chars "-" ++ padded 2 (tm_mon d + 1) ++ chars "-" ++ padded 2 (tm_mday d) ++ chars "T" ++
            padded 2 (tm_hour d) ++ chars ":" ++ padded 2 (tm_min d) ++ chars ":" ++ padded 2 (tm_sec d)).
  exists d, s. split; [| split].
  - unfold gmtime_r. rewrite (proj2 (Z.ltb_ge _ _)), (proj2 (Z.leb_gt _ _)) by (unfold TIME_LIMIT in *; lia). exact E.
  - assert (L : zlen s = 19) by (unfold s; rewrite !zlen_app, !padded_length; by_vm).
    assert (R : reference d ISO = Some s).
    { change ISO with (chars "%Y-%m-%dT%H:%M:%S"). unfold s. rewrite <- (app_nil_r (padded 2 (tm_sec d))). reflexivity. }
    pose proof (ftime_ok 20 tz (write 20) d ISO s ltac:(lia) T R) as G. cbv zeta in G. rewrite L in G.
    change (19 <? 20) with true in G. exact G.
  - unfold tm_ok in T. rewrite (timegm_fields (read_iso s) d).
    + rewrite (timegm_normal d N), U. destruct d; simpl in *. by subst.
    + change (number (padded 2 (tm_sec d)) = tm_sec d). apply number_padded_2. lia.
    + change (number (padded 2 (tm_min d)) = tm_min d). apply number_padded_2. lia.
    + change (number (padded 2 (tm_hour d)) = tm_hour d). apply number_padded_2. lia.
    + change (number (padded 2 (tm_mday d)) = tm_mday d). apply number_padded_2. lia.
    + change (number (padded 2 (tm_mon d + 1)) - 1 = tm_mon d). rewrite number_padded_2; lia.
    + change (number (padded 4 (tm_year d + 1900)) - 1900 = tm_year d). rewrite number_padded_4; lia.
Qed.

(** ** Findings *)

(** Behind %% the next character is dropped as if it were a percent sign, and the one
    after it is taken for a conversion. *)
Theorem strftime_text_after_percent :
  strftime None 100 (chars "100%% done" ++ [0]) january_5 = Some (9, chars "100%05one" ++ [0]).
Proof. by_vm. Qed.

(** A percent sign at the end of the format makes the function read behind it. *)
Theorem strftime_trailing_percent : strftime None 100 (chars "100%" ++ [0]) january_5 = None.
Proof. by_vm. Qed.

(** %p does not skip its own letter. *)
Theorem strftime_p_repeats_letter : strftime None 100 (chars "%I %p" ++ [0]) january_5 = Some (5, chars "2 PMp" ++ [0]).
Proof. by_vm. Qed.

(** %F and %D do not pad the month, %D has all digits of the year, %u counts from 1 for
    Sunday, %r has no seconds and no AM or PM. *)
Theorem strftime_composites :
  strftime None 100 (chars "%F %D %u %r" ++ [0]) january_5 = Some (26, chars "2024-1-05 1/05/2024 6 2:03" ++ [0]).
Proof. by_vm. Qed.
