(* ===== verification/Env.v ===== *)
(** * The environment

    [ENV] and [ALLOCATED_ENV] with [hzlibc_env_init] and [getenv]
    ([src/src/ansi/stdlib.cpp]), [setenv], [unsetenv], [putenv] and [clearenv]
    ([src/src/posix/stdlib.cpp]).

    [ENV] is a vector of pointers to C strings that ends in a null pointer.  Some of the
    strings belong to the program ([putenv], the initial environment), the others
    to the map [ALLOCATED_ENV], which frees the old string of a key when a new one is
    inserted.  [strs] is the store: the strings that are alive, by address.  Reading
    through another pointer is a fault, like the panic of the code on a string without
    an equals sign ([None]).  The allocator is a parameter: it returns an address that
    is not in use. *)

From stdpp Require Import base list option gmap fin_maps.
From S2P Require Import Prelude.

#[local] Open Scope Z_scope.

(** An equals sign. *)
Definition EQ : Z := 61.

Record env := {
  strs : gmap Z (list Z);
  ENV : list Z;
  ALLOCATED_ENV : gmap (list Z) Z;
}.

Class StringAlloc := {
  new_str : gmap Z (list Z) -> Z;
  new_str_fresh m : m !! new_str m = None;
  new_str_nonnull m : new_str m <> 0;
}.

(** The part before and behind the first equals sign. *)
Fixpoint split_eq (s : list Z) : option (list Z * list Z) :=
  match s with
  | [] => None
  | c :: r => if c =? EQ then Some ([], r) else '(n, v) ← split_eq r; Some (c :: n, v)
  end.

Definition EINVAL : Z := 22.

(** A result: the value returned, [errno] if it is set, the new state. *)
Definition result : Type := Z * option Z * env.

Definition hzlibc_env_init (initial : list Z) (e : env) : env :=
  {| strs := strs e; ENV := ENV e ++ initial ++ [0]; ALLOCATED_ENV := ALLOCATED_ENV e |}.

(** The loop of [getenv]: [None] is a fault, otherwise the address of the string and
    the length of the name, or nothing. *)
Fixpoint getenv_loop (m : gmap Z (list Z)) (l : list Z) (name : list Z) : option (option (Z * list Z)) :=
  match l with
  | [] => None
  | p :: r =>
    if p =? 0 then Some None
    else
      s ← m !! p;
      match split_eq s with
      | None => getenv_loop m r name
      | Some (n, v) => if decide (n = name) then Some (Some (p + zlen n + 1, v)) else getenv_loop m r name
      end
  end.

(** The address of the value and the value it holds. *)
Definition getenv (name : list Z) (e : env) : option (option (Z * list Z)) :=
  if decide (ENV e = []) then None else getenv_loop (strs e) (ENV e) name.

(** The loop of the other functions over the entries before the last one: the index of
    the variable. *)
Fixpoint find_var (m : gmap Z (list Z)) (l : list Z) (name : list Z) (i : nat) : option (option nat) :=
  match l with
  | [] => Some None
  | p :: r =>
    s ← m !! p;
    '(n, _) ← split_eq s;
    if decide (n = name) then Some (Some i) else find_var m r name (S i)
  end.

(** [ALLOCATED_ENV.insert]: the old string of the key is freed. *)
Definition alloc_insert (name : list Z) (p : Z) (e : env) : env :=
  {| strs := match ALLOCATED_ENV e !! name with Some q => delete q (strs e) | None => strs e end;
     ENV := ENV e; ALLOCATED_ENV := <[name := p]> (ALLOCATED_ENV e) |}.

Definition alloc_remove (name : list Z) (e : env) : env :=
  {| strs := match ALLOCATED_ENV e !! name with Some q => delete q (strs e) | None => strs e end;
     ENV := ENV e; ALLOCATED_ENV := delete name (ALLOCATED_ENV e) |}.

Definition new_string (p : Z) (s : list Z) (e : env) : env :=
  {| strs := <[p := s]> (strs e); ENV := ENV e; ALLOCATED_ENV := ALLOCATED_ENV e |}.

Definition with_ENV (l : list Z) (e : env) : env := {| strs := strs e; ENV := l; ALLOCATED_ENV := ALLOCATED_ENV e |}.

(** [ENV.back() = p; ENV.push_back(nullptr);] *)
Definition push_var (p : Z) (e : env) : env := with_ENV (removelast (ENV e) ++ [p; 0]) e.

Section Operations.
Context `{StringAlloc}.

Definition bad_name (name : list Z) : bool := bool_decide (name = []) || bool_decide (EQ ∈ name).

(** The new string is built, owned by the map, and its address taken. *)
Definition own_string (name value : list Z) (e : env) : Z * env :=
  let p := new_str (strs e) in
  (p, alloc_insert name p (new_string p (name ++ [EQ] ++ value) e)).

(** [name] is [None] for a null pointer. *)
Definition setenv (name : option (list Z)) (value : list Z) (overwrite : Z) (e : env) : option result :=
  match name with
  | None => Some (-1, Some EINVAL, e)
  | Some name =>
    if bad_name name then Some (-1, Some EINVAL, e)
    else
      x ← find_var (strs e) (removelast (ENV e)) name 0;
      match x with
      | Some i =>
        if negb (overwrite =? 0) then
          let '(p, e) := own_string name value e in
          Some (0, None, with_ENV (<[i := p]> (ENV e)) e)
        else Some (0, None, e)
      | None => let '(p, e) := own_string name value e in Some (0, None, push_var p e)
      end
  end.

Definition unsetenv (name : option (list Z)) (e : env) : option result :=
  match name with
  | None => Some (-1, Some EINVAL, e)
  | Some name =>
    if bad_name name then Some (-1, Some EINVAL, e)
    else
      x ← find_var (strs e) (removelast (ENV e)) name 0;
      match x with
      | Some i =>
        let e := alloc_remove name e in
        old_last ← ENV e !! (length (ENV e) - 2)%nat;
        let l := removelast (<[i := old_last]> (ENV e)) in
        Some (0, None, with_ENV (removelast l ++ [0]) e)
      | None => Some (0, None, e)
      end
  end.

(** [string] is an address of the program's own. *)
Definition putenv (string : Z) (e : env) : option result :=
  s ← strs e !! string;
  match split_eq s with
  | None => unsetenv (Some s) e
  | Some (name, _) =>
    x ← find_var (strs e) (removelast (ENV e)) name 0;
    match x with
    | Some i => Some (0, None, with_ENV (<[i := string]> (ENV e)) e)
    | None => Some (0, None, push_var string e)
    end
  end.

Definition clearenv (e : env) : option result := Some (0, None, with_ENV [0] e).
End Operations.

(** ** The map behind it *)

(** What the entries say: the variable of an address. *)
Definition var_of (m : gmap Z (list Z)) (p : Z) : option (list Z * list Z) := s ← m !! p; split_eq s.

Definition view (e : env) : gmap (list Z) (list Z) := list_to_map (omap (var_of (strs e)) (ENV e)).

(** The entries are live strings with distinct names; what the map owns is alive, has
    the name of its key, and is shared with no other owner. *)
Record env_ok (e : env) : Prop := {
  ok_entries : exists ps, ENV e = ps ++ [0] /\ 0 ∉ ps /\
    exists vs, Forall2 (fun p nv => var_of (strs e) p = Some nv) ps vs /\ NoDup vs.*1;
  ok_owned : forall n p, ALLOCATED_ENV e !! n = Some p -> p <> 0 /\ exists v, var_of (strs e) p = Some (n, v);
  ok_null : strs e !! 0 = None;
}.

Notation entries m := (Forall2 (fun p nv => var_of m p = Some nv)).

(** The strings of other names are as before. *)
Definition agree (n : list Z) (m m' : gmap Z (list Z)) : Prop :=
  forall p n' v, n' <> n -> var_of m p = Some (n', v) -> var_of m' p = Some (n', v).

Lemma entries_agree n m m' ps vs : agree n m m' -> n ∉ vs.*1 -> entries m ps vs -> entries m' ps vs.
Proof.
  intros A N E. induction E as [| p [n' v] ps vs Hp E IH]; [constructor |].
  cbn [fmap list_fmap fst] in N. apply not_elem_of_cons in N as [N1 N2]. constructor; [apply A; auto | apply IH, N2].
Qed.

Lemma names_other (vs : list (list Z * list Z)) i n v : NoDup vs.*1 -> vs !! i = Some (n, v) ->
  n ∉ (take i vs).*1 /\ n ∉ (drop (S i) vs).*1.
Proof.
  intros D E. rewrite <- (take_drop_middle vs i (n, v) E), fmap_app, fmap_cons in D.
  apply list.NoDup_app in D as (_ & D1 & D2). apply list.NoDup_cons in D2 as [D2 _]. split; [| exact D2].
  intros I. apply (D1 n I). set_solver.
Qed.

(** Another string for the variable at index [i]. *)
Lemma entries_update m m' ps vs i n v p v' : agree n m m' -> NoDup vs.*1 -> vs !! i = Some (n, v) ->
  var_of m' p = Some (n, v') -> entries m ps vs -> entries m' (<[i := p]> ps) (<[i := (n, v')]> vs).
Proof.
  intros A D E Hp F. destruct (names_other vs i n v D E) as [N1 N2].
  assert (L : (i < length ps)%nat) by (rewrite (Forall2_length F); eapply lookup_lt_Some, E).
  assert (L' : (i < length vs)%nat) by (rewrite <- (Forall2_length F); exact L).
  rewrite !insert_take_drop by assumption. apply Forall2_app; [| constructor; [exact Hp |]].
  - eapply entries_agree; [exact A | exact N1 | by apply Forall2_take].
  - eapply entries_agree; [exact A | exact N2 | by apply Forall2_drop].
Qed.

Lemma map_update (vs : list (list Z * list Z)) i n v v' : NoDup vs.*1 -> vs !! i = Some (n, v) ->
  NoDup (<[i := (n, v')]> vs).*1 /\
  (list_to_map (<[i := (n, v')]> vs) : gmap (list Z) (list Z)) = <[n := v']> (list_to_map vs).
Proof.
  intros D E. assert (L : (i < length vs)%nat) by (eapply lookup_lt_Some, E).
  assert (P : <[i := (n, v')]> vs ≡ₚ (n, v') :: delete i vs).
  { rewrite insert_take_drop by exact L. rewrite delete_take_drop. symmetry. apply Permutation_middle. }
  assert (P0 : vs ≡ₚ (n, v) :: delete i vs) by (by apply delete_Permutation).
  assert (N : (<[i := (n, v')]> vs).*1 = vs.*1).
  { rewrite list_fmap_insert. apply list_insert_id. by rewrite list_lookup_fmap, E. }
  split; [by rewrite N |].
  rewrite (list_to_map_proper _ _ ltac:(by rewrite N) P), (list_to_map_proper _ _ D P0). simpl. by rewrite insert_insert_eq.
Qed.

Lemma map_delete (vs : list (list Z * list Z)) i n v : NoDup vs.*1 -> vs !! i = Some (n, v) ->
  (list_to_map (delete i vs) : gmap (list Z) (list Z)) = delete n (list_to_map vs).
Proof.
  intros D E. assert (P0 : vs ≡ₚ (n, v) :: delete i vs) by (by apply delete_Permutation).
  rewrite (list_to_map_proper _ _ D P0). simpl. rewrite delete_insert_id; [done |].
  apply not_elem_of_list_to_map_1. rewrite P0 in D. cbn in D. by apply list.NoDup_cons in D as [? _].
Qed.

Lemma view_entries e ps vs : ENV e = ps ++ [0] -> strs e !! 0 = None -> entries (strs e) ps vs -> view e = list_to_map vs.
Proof.
  intros E N F. unfold view. rewrite E. f_equal. rewrite omap_app. replace (omap (var_of (strs e)) [0]) with (@nil (list Z * list Z))
    by (cbn; unfold var_of; by rewrite N). rewrite app_nil_r. clear E.
  induction F as [| p nv ps vs Hp F IH]; [reflexivity |]. cbn. by rewrite Hp, IH.
Qed.

Lemma find_var_ok m n ps vs : entries m ps vs -> NoDup vs.*1 -> forall k,
  match (list_to_map vs : gmap (list Z) (list Z)) !! n with
  | Some v => exists i, find_var m ps n k = Some (Some (k + i)%nat) /\ vs !! i = Some (n, v)
  | None => find_var m ps n k = Some None /\ n ∉ vs.*1
  end.
Proof.
  intros F. induction F as [| p [n' v] ps vs Hp F IH]; intros D k.
  - rewrite list_to_map_nil, lookup_empty. split; [reflexivity | apply not_elem_of_nil].
  - cbn [fmap list_fmap fst] in D. apply list.NoDup_cons in D as [D1 D2]. cbn [list_to_map foldr fst snd uncurry find_var].
    unfold var_of in Hp. destruct (m !! p) as [s |]; [| discriminate]. cbn [mbind option_bind] in *. rewrite Hp. cbn [mbind option_bind].
    destruct (decide (n' = n)) as [-> | Ne].
    + rewrite lookup_insert_eq. exists O. split; [by rewrite Nat.add_0_r | reflexivity].
    + rewrite lookup_insert_ne by exact Ne. specialize (IH D2 (S k)).
      destruct (list_to_map vs !! n) as [v' |] eqn:Ev.
      * destruct IH as (i & -> & Ei). exists (S i). split; [do 2 f_equal; lia | exact Ei].
      * destruct IH as (-> & N). split; [reflexivity |]. set_solver.
Qed.

(** ** Sequences of operations *)

Inductive op :=
  | OpSet (name : option (list Z)) (value : list Z) (overwrite : Z)
  | OpUnset (name : option (list Z))
  | OpPut (string : Z)
  | OpClear.

Definition do_op `{StringAlloc} (o : op) (e : env) : option result :=
  match o with
  | OpSet name value overwrite => setenv name value overwrite e
  | OpUnset name => unsetenv name e
  | OpPut p => putenv p e
  | OpClear => clearenv e
  end.

(** The results of a sequence and the last state. *)
Fixpoint run `{StringAlloc} (l : list op) (e : env) : option (list (Z * option Z) * env) :=
  match l with
  | [] => Some ([], e)
  | o :: r => '(x, e) ← do_op o e; '(xs, e) ← run r e; Some (x :: xs, e)
  end.

(** The same on a map; [C] are the strings of the program. *)
Definition spec_unset (name : option (list Z)) (a : gmap (list Z) (list Z)) : (Z * option Z) * gmap (list Z) (list Z) :=
  match name with
  | Some n => if bad_name n then ((-1, Some EINVAL), a) else ((0, None), delete n a)
  | None => ((-1, Some EINVAL), a)
  end.

Definition spec (C : gmap Z (list Z)) (o : op) (a : gmap (list Z) (list Z)) : (Z * option Z) * gmap (list Z) (list Z) :=
  match o with
  | OpSet (Some n) v overwrite =>
    if bad_name n then ((-1, Some EINVAL), a)
    else ((0, None), match a !! n with Some _ => if overwrite =? 0 then a else <[n := v]> a | None => <[n := v]> a end)
  | OpSet None _ _ => ((-1, Some EINVAL), a)
  | OpUnset name => spec_unset name a
  | OpPut p =>
    match C !! p with
    | Some s => match split_eq s with Some (n, v) => ((0, None), <[n := v]> a) | None => spec_unset (Some s) a end
    | None => ((0, None), a)
    end
  | OpClear => ((0, None), ∅)
  end.

Fixpoint spec_run (C : gmap Z (list Z)) (l : list op) (a : gmap (list Z) (list Z)) : list (Z * option Z) * gmap (list Z) (list Z) :=
  match l with
  | [] => ([], a)
  | o :: r => let '(x, a) := spec C o a in let '(xs, a) := spec_run C r a in (x :: xs, a)
  end.

(** The program's strings are alive and not the library's. *)
Definition caller (C : gmap Z (list Z)) (e : env) : Prop :=
  forall p s, C !! p = Some s -> strs e !! p = Some s /\ forall n, ALLOCATED_ENV e !! n <> Some p.

(** Only strings of the program are given to [putenv]. *)
Definition valid_op (C : gmap Z (list Z)) (o : op) : Prop :=
  match o with OpPut p => is_Some (C !! p) | _ => True end.

Lemma split_eq_app n v : EQ ∉ n -> split_eq (n ++ [EQ] ++ v) = Some (n, v).
Proof.
  induction n as [| c n IH]; intros N; [reflexivity |]. apply not_elem_of_cons in N as [N1 N2]. cbn [app split_eq].
  destruct (Z.eqb_spec c EQ); [congruence |]. cbn [app] in IH. by rewrite IH.
Qed.

Lemma bad_name_false n : bad_name n = false -> EQ ∉ n.
Proof. unfold bad_name. rewrite orb_false_iff, !bool_decide_eq_false. tauto. Qed.

(** Freeing the string of a key. *)
Lemma free_agree e n q : env_ok e -> ALLOCATED_ENV e !! n = Some q -> agree n (strs e) (delete q (strs e)).
Proof.
  intros O Q p n' v N V. destruct (ok_owned e O n q Q) as (_ & v' & V'). unfold var_of in *.
  rewrite lookup_delete_ne; [exact V |]. intros ->. congruence.
Qed.

Lemma agree_refl n m : agree n m m.
Proof. intros p n' v _ V. exact V. Qed.

Lemma own_string_ok `{StringAlloc} C n v e p e1 : env_ok e -> caller C e -> bad_name n = false -> own_string n v e = (p, e1) ->
  agree n (strs e) (strs e1) /\ var_of (strs e1) p = Some (n, v) /\ p <> 0 /\ ENV e1 = ENV e /\
  (forall n p, ALLOCATED_ENV e1 !! n = Some p -> p <> 0 /\ exists v, var_of (strs e1) p = Some (n, v)) /\
  strs e1 !! 0 = None /\ caller C e1.
Proof.
  intros O K B E. injection E as <- <-. unfold alloc_insert, new_string. cbn [strs ENV ALLOCATED_ENV].
  set (p := new_str (strs e)). pose proof (new_str_fresh (strs e)) as F. pose proof (new_str_nonnull (strs e)) as N0. fold p in F, N0.
  set (m' := match ALLOCATED_ENV e !! n with Some q => delete q (<[p := n ++ [EQ] ++ v]> (strs e)) | None => <[p := n ++ [EQ] ++ v]> (strs e) end).
  assert (L : forall x, x <> p -> (forall q, ALLOCATED_ENV e !! n = Some q -> x <> q) -> m' !! x = strs e !! x).
  { intros x Nx Q. unfold m'. destruct (ALLOCATED_ENV e !! n) as [q |]; [rewrite lookup_delete_ne by (intros ->; by apply (Q x)) |]; by rewrite lookup_insert_ne by auto. }
  assert (Vp : var_of m' p = Some (n, v)).
  { unfold var_of. assert (m' !! p = Some (n ++ [EQ] ++ v)) as ->.
    { unfold m'. destruct (ALLOCATED_ENV e !! n) as [q |] eqn:Q; [| apply lookup_insert_eq].
      destruct (ok_owned e O n q Q) as (_ & v' & V'). rewrite lookup_delete_ne; [apply lookup_insert_eq |].
      intros ->. unfold var_of in V'. by rewrite F in V'. }
    cbn [mbind option_bind]. apply split_eq_app, bad_name_false, B. }
  assert (A : agree n (strs e) m').
  { intros x n' v' N V. unfold var_of in *. rewrite L; [exact V | intros ->; by rewrite F in V |].
    intros q Q ->. destruct (ok_owned e O n q Q) as (_ & v2 & V2). unfold var_of in V2. congruence. }
  split_and!; auto.
  - intros n' x. destruct (decide (n' = n)) as [-> | Ne].
    + rewrite lookup_insert_eq. intros [= <-]. split; [exact N0 | by exists v].
    + rewrite lookup_insert_ne by auto. intros Q. destruct (ok_owned e O n' x Q) as (N' & v' & V'). split; [exact N' |].
      exists v'. by apply A.
  - rewrite L; [apply (ok_null e O) | auto |]. intros q Q <-. by apply (ok_owned e O n 0 Q).
  - intros x s Cx. destruct (K x s Cx) as [Sx Ox]. split.
    + cbn [strs]. rewrite L; [exact Sx | intros ->; congruence |]. intros q Q ->. by apply (Ox n).
    + cbn [ALLOCATED_ENV]. intros n'. destruct (decide (n' = n)) as [-> | Ne]; [rewrite lookup_insert_eq; intros [= <-]; congruence |].
      rewrite lookup_insert_ne by auto. apply Ox.
Qed.

(** ** Each operation *)

(** What the map owns, after an operation. *)
Definition owned_ok (e : env) : Prop :=
  (forall n p, ALLOCATED_ENV e !! n = Some p -> p <> 0 /\ exists v, var_of (strs e) p = Some (n, v)) /\ strs e !! 0 = None.

Lemma env_intro e ps vs : ENV e = ps ++ [0] -> 0 ∉ ps -> entries (strs e) ps vs -> NoDup vs.*1 -> owned_ok e ->
  env_ok e /\ view e = list_to_map vs.
Proof.
  intros E Z0 F D [O N]. split; [| by eapply view_entries]. constructor; [| exact O | exact N].
  exists ps. split_and!; auto. by exists vs.
Qed.

Section Steps.
Context (e e1 : env) (ps : list Z) (vs : list (list Z * list Z)) (n v : list Z) (p : Z).
Hypothesis E : ENV e1 = ps ++ [0].
Hypothesis P0 : 0 ∉ ps.
Hypothesis F : entries (strs e) ps vs.
Hypothesis D : NoDup vs.*1.
Hypothesis A : agree n (strs e) (strs e1).
Hypothesis V : var_of (strs e1) p = Some (n, v).
Hypothesis Np : p <> 0.
Hypothesis O : owned_ok e1.

Lemma replace_ok i v0 : vs !! i = Some (n, v0) ->
  let e2 := with_ENV (<[i := p]> (ENV e1)) e1 in env_ok e2 /\ view e2 = <[n := v]> (list_to_map vs).
Proof using All.
  intros I e2. destruct (map_update vs i n v0 v D I) as [D' <-].
  assert (L : (i < length ps)%nat) by (rewrite (Forall2_length F); eapply lookup_lt_Some, I).
  apply (env_intro e2 (<[i := p]> ps)); auto; unfold e2; cbn [with_ENV ENV strs].
  - rewrite E. by rewrite insert_app_l.
  - assert (Q : Forall (fun x => x <> 0) (<[i := p]> ps)) by (apply Forall_insert; [apply list.Forall_forall; congruence | exact Np]).
    intros J. by apply (proj1 (list.Forall_forall _ _) Q 0 J).
  - by eapply entries_update.
Qed.

Lemma push_ok : n ∉ vs.*1 ->
  let e2 := push_var p e1 in env_ok e2 /\ view e2 = <[n := v]> (list_to_map vs).
Proof using All.
  intros N e2. assert (M : (list_to_map (vs ++ [(n, v)]) : gmap (list Z) (list Z)) = <[n := v]> (list_to_map vs)).
  { apply list_to_map_snoc, N. }
  rewrite <- M. apply (env_intro e2 (ps ++ [p])); auto; unfold e2, push_var; cbn [with_ENV ENV strs].
  - rewrite E, removelast_last, <- app_assoc. reflexivity.
  - set_solver.
  - apply Forall2_app; [by eapply entries_agree | by constructor].
  - rewrite fmap_app. apply list.NoDup_app. split_and!; [exact D | | apply NoDup_singleton]. set_solver.
Qed.
End Steps.

Lemma env_ok_elim e : env_ok e -> exists ps vs, ENV e = ps ++ [0] /\ 0 ∉ ps /\ entries (strs e) ps vs /\ NoDup vs.*1 /\
  owned_ok e /\ view e = list_to_map vs.
Proof.
  intros [(ps & E & P0 & vs & F & D) O N]. exists ps, vs. split_and!; auto; [by split | by eapply view_entries].
Qed.

Lemma find_view e ps vs n : ENV e = ps ++ [0] -> entries (strs e) ps vs -> NoDup vs.*1 -> view e = list_to_map vs ->
  match view e !! n with
  | Some v => exists i, find_var (strs e) (removelast (ENV e)) n 0 = Some (Some i) /\ vs !! i = Some (n, v)
  | None => find_var (strs e) (removelast (ENV e)) n 0 = Some None /\ n ∉ vs.*1
  end.
Proof. intros E F D ->. rewrite E, removelast_last. exact (find_var_ok (strs e) n ps vs F D 0). Qed.

Lemma setenv_ok `{StringAlloc} C name value overwrite e : env_ok e -> caller C e -> exists e',
  setenv name value overwrite e = Some ((spec C (OpSet name value overwrite) (view e)).1, e') /\
  env_ok e' /\ caller C e' /\ view e' = (spec C (OpSet name value overwrite) (view e)).2.
Proof.
  intros O K. destruct name as [n |]; [| by exists e]. unfold setenv, spec. destruct (bad_name n) eqn:B; [by exists e |].
  destruct (env_ok_elim e O) as (ps & vs & E & P0 & F & D & Ow & Vw). pose proof (find_view e ps vs n E F D Vw) as S.
  destruct (own_string n value e) as [p e1] eqn:W.
  destruct (own_string_ok C n value e p e1 O K B W) as (A & V & Np & E1 & Ow1 & N1 & K1).
  destruct (view e !! n) as [v0 |] eqn:Vn.
  - destruct S as (i & -> & I). cbn [mbind option_bind]. destruct (Z.eqb_spec overwrite 0) as [-> | No]; cbn [negb]; [by exists e |].
    eexists. split; [reflexivity |]. rewrite Vw. destruct (replace_ok e e1 ps vs n value p) with (i := i) (v0 := v0) as [O2 V2]; auto; [by rewrite E1 | by split].
  - destruct S as (-> & Nn). cbn [mbind option_bind].
    eexists. split; [reflexivity |]. rewrite Vw. destruct (push_ok e e1 ps vs n value p) as [O2 V2]; auto; [by rewrite E1 | by split].
Qed.

(** Dropping the entry at [i]: the last one takes its place. *)
Lemma drop_entry {A} (l : list A) i x : l !! i = Some x -> exists z l',
  l !! (length l - 1)%nat = Some z /\ removelast (<[i := z]> l) = l' /\ l' ≡ₚ delete i l /\ (forall y, y ∈ l' -> y ∈ l).
Proof.
  intros I. destruct (exists_last (l := l)) as (q & z & ->); [by intros -> |].
  assert (L : (i < length (q ++ [z]))%nat) by (eapply lookup_lt_Some, I). rewrite length_app in *. cbn [length] in *.
  exists z, (removelast (<[i := z]> (q ++ [z]))).
  replace (length q + 1 - 1)%nat with (length q) by lia.
  assert (Lz : (q ++ [z]) !! length q = Some z) by (by rewrite lookup_app_r, Nat.sub_diag by lia).
  assert (P : removelast (<[i := z]> (q ++ [z])) ≡ₚ delete i (q ++ [z])).
  { destruct (decide (i = length q)) as [-> | Ne].
    - rewrite list_insert_id by exact Lz. rewrite removelast_last, delete_take_drop, take_app_length.
      rewrite drop_ge by (rewrite length_app; simpl; lia). by rewrite app_nil_r.
    - rewrite insert_app_l, removelast_last by lia. rewrite insert_take_drop by lia.
      rewrite delete_take_drop, take_app_le, drop_app_le by lia. rewrite <- Permutation_middle. rewrite app_assoc. apply Permutation_cons_append. }
  split_and!; auto. intros y. rewrite P. intros Y. rewrite (delete_Permutation (q ++ [z]) i x I). set_solver.
Qed.

Lemma drop_entry_2 {A B} (R : A -> B -> Prop) l k i z w : Forall2 R l k -> l !! (length l - 1)%nat = Some z -> k !! (length k - 1)%nat = Some w ->
  Forall2 R (removelast (<[i := z]> l)) (removelast (<[i := w]> k)).
Proof.
  intros F Z W. rewrite !removelast_firstn_len, !length_insert, <- (Forall2_length F). apply Forall2_take, Forall2_insert; [exact F |].
  rewrite <- (Forall2_length F) in W. by eapply Forall2_lookup_lr.
Qed.

Lemma unsetenv_ok `{StringAlloc} C name e : env_ok e -> caller C e -> exists e',
  unsetenv name e = Some ((spec_unset name (view e)).1, e') /\ env_ok e' /\ caller C e' /\ view e' = (spec_unset name (view e)).2.
Proof.
  intros O K. destruct name as [n |]; [| by exists e]. unfold unsetenv, spec_unset. destruct (bad_name n) eqn:B; [by exists e |].
  destruct (env_ok_elim e O) as (ps & vs & E & P0 & F & D & Ow & Vw). pose proof (find_view e ps vs n E F D Vw) as S.
  destruct (view e !! n) as [v0 |] eqn:Vn; cycle 1.
  { destruct S as (-> & Nn). exists e. cbn. by rewrite delete_id. }
  destruct S as (i & -> & I). cbn [mbind option_bind].
  set (e1 := alloc_remove n e). assert (E1 : ENV e1 = ps ++ [0]) by exact E. rewrite E1, length_app. cbn [length].
  assert (Li : exists p0, ps !! i = Some p0) by (apply lookup_lt_is_Some; rewrite (Forall2_length F); eapply lookup_lt_Some, I).
  destruct Li as (p0 & Ip). destruct (drop_entry ps i p0 Ip) as (z & ps' & Lz & Eps & Pps & Sub).
  destruct (drop_entry vs i _ I) as (w & vs' & Lw & Evs & Pvs & _).
  replace (length ps + 1 - 2)%nat with (length ps - 1)%nat by lia.
  assert (Lz' := lookup_lt_Some _ _ _ Lz). rewrite lookup_app_l, Lz by lia. cbn [mbind option_bind].
  rewrite insert_app_l, removelast_last, Eps by (eapply lookup_lt_Some, Ip). eexists. split; [reflexivity |].
  assert (A : agree n (strs e) (strs e1)).
  { unfold e1, alloc_remove. cbn [strs]. destruct (ALLOCATED_ENV e !! n) as [q |] eqn:Q; [by apply free_agree | apply agree_refl]. }
  assert (D' : NoDup (n :: vs'.*1)).
  { rewrite (delete_Permutation vs i _ I) in D. cbn in D. by rewrite Pvs. }
  apply list.NoDup_cons in D' as [Nn D'].
  assert (M : (list_to_map vs' : gmap (list Z) (list Z)) = delete n (list_to_map vs)).
  { rewrite <- (map_delete vs i n v0 D I). by apply list_to_map_proper. }
  destruct (env_intro (with_ENV (ps' ++ [0]) e1) ps' vs') as [O2 V2]; auto.
  - cbn [with_ENV strs]. eapply entries_agree; [exact A | exact Nn |]. rewrite <- Eps, <- Evs. by apply drop_entry_2.
  - split; cbn [with_ENV strs ALLOCATED_ENV e1 alloc_remove].
    + intros n' q Q. apply lookup_delete_Some in Q as [Ne Q]. destruct (ok_owned e O n' q Q) as (Nq & v & V). split; [exact Nq |].
      exists v. by apply A.
    + pose proof (ok_null e O) as N. destruct (ALLOCATED_ENV e !! n) as [q |]; [| exact N].
      by rewrite lookup_delete_None; right.
  - split_and!; [exact O2 | | by rewrite V2, M, Vw].
    intros x s Cx. destruct (K x s Cx) as [Sx Ox]. cbn [with_ENV strs ALLOCATED_ENV e1 alloc_remove]. split.
    + destruct (ALLOCATED_ENV e !! n) as [q |] eqn:Q; [| exact Sx]. rewrite lookup_delete_ne; [exact Sx |]. intros ->. by apply (Ox n).
    + intros n' Q. apply lookup_delete_Some in Q as [_ Q]. by apply (Ox n').
Qed.

Lemma putenv_ok `{StringAlloc} C p e : env_ok e -> caller C e -> is_Some (C !! p) -> exists e',
  putenv p e = Some ((spec C (OpPut p) (view e)).1, e') /\ env_ok e' /\ caller C e' /\ view e' = (spec C (OpPut p) (view e)).2.
Proof.
  intros O K [s Cp]. destruct (K p s Cp) as [Sp Op]. unfold putenv, spec. rewrite Sp, Cp. cbn [mbind option_bind].
  destruct (split_eq s) as [[n v] |] eqn:Sq; [| by apply unsetenv_ok].
  destruct (env_ok_elim e O) as (ps & vs & E & P0 & F & D & Ow & Vw). pose proof (find_view e ps vs n E F D Vw) as S.
  assert (V : var_of (strs e) p = Some (n, v)) by (unfold var_of; by rewrite Sp).
  assert (Np : p <> 0) by (intros ->; rewrite (ok_null e O) in Sp; discriminate).
  destruct (view e !! n) as [v0 |] eqn:Vn.
  - destruct S as (i & -> & I). eexists. split; [reflexivity |]. rewrite Vw.
    destruct (replace_ok e e ps vs n v p) with (i := i) (v0 := v0) as [O2 V2]; auto. apply agree_refl.
  - destruct S as (-> & Nn). eexists. split; [reflexivity |]. rewrite Vw.
    destruct (push_ok e e ps vs n v p) as [O2 V2]; auto. apply agree_refl.
Qed.

Lemma clearenv_ok e : env_ok e -> env_ok (with_ENV [0] e) /\ view (with_ENV [0] e) = ∅.
Proof.
  intros O. destruct (env_ok_elim e O) as (_ & _ & _ & _ & _ & _ & Ow & _).
  destruct (env_intro (with_ENV [0] e) [] []) as [O2 V2]; auto; try constructor; try apply Ow; try apply not_elem_of_nil.
Qed.

Lemma do_op_ok `{StringAlloc} C o e : env_ok e -> caller C e -> valid_op C o -> exists e',
  do_op o e = Some ((spec C o (view e)).1, e') /\ env_ok e' /\ caller C e' /\ view e' = (spec C o (view e)).2.
Proof.
  intros O K Vo. destruct o as [name value ow | name | p |].
  - by apply setenv_ok.
  - by apply unsetenv_ok.
  - by apply putenv_ok.
  - destruct (clearenv_ok e O) as [O2 V2]. exists (with_ENV [0] e). split_and!; auto.
Qed.

Lemma getenv_ok e name : env_ok e -> exists x, getenv name e = Some x /\ snd <$> x = view e !! name.
Proof.
  intros O. destruct (env_ok_elim e O) as (ps & vs & E & P0 & F & D & Ow & Vw). unfold getenv. rewrite E, Vw.
  destruct (decide (ps ++ [0] = [])) as [C | _]; [by apply app_nil in C as [_ ?] |]. clear E Vw O Ow.
  induction F as [| p [n v] ps vs Hp F IH]; [by exists None |].
  cbn [fmap list_fmap fst] in D. apply list.NoDup_cons in D as [D1 D2]. apply not_elem_of_cons in P0 as [Np P0].
  cbn [app getenv_loop list_to_map foldr fst snd uncurry]. destruct (Z.eqb_spec p 0); [congruence |].
  unfold var_of in Hp. destruct (strs e !! p) as [s |]; [| discriminate]. cbn [mbind option_bind] in *. rewrite Hp.
  destruct (decide (n = name)) as [-> | Ne]; [eexists; split; [reflexivity |]; by rewrite lookup_insert_eq |].
  destruct (IH P0 D2) as (x & -> & Ex). exists x. split; [reflexivity |]. by rewrite lookup_insert_ne.
Qed.

(** C13: the environment refines a map from names to values.  From any state whose entries
    are live strings with distinct names, and for any sequence of [setenv], [unsetenv],
    [putenv] (of strings of the program) and [clearenv], with arguments of any form: no
    call reads a freed or missing string, every call returns what the operation on the map
    returns ([EINVAL] for a null, empty or malformed name), the state stays
    well formed, the strings of the program are untouched, and afterwards [getenv]
    finds for every name exactly the value in the map. *)
Theorem environment_refines_map `{StringAlloc} C l e :
  env_ok e -> caller C e -> Forall (valid_op C) l ->
  exists e', run l e = Some ((spec_run C l (view e)).1, e') /\ env_ok e' /\ caller C e' /\
    view e' = (spec_run C l (view e)).2 /\
    forall name, exists x, getenv name e' = Some x /\ snd <$> x = (spec_run C l (view e)).2 !! name.
Proof.
  intros O K F. revert e O K. induction F as [| o l Vo F IH]; intros e O K.
  - exists e. split_and!; auto. intros name. by apply getenv_ok.
  - destruct (do_op_ok C o e O K Vo) as (e1 & E1 & O1 & K1 & V1). destruct (IH e1 O1 K1) as (e2 & E2 & O2 & K2 & V2 & G).
    exists e2. cbn [run spec_run]. rewrite E1. cbn [mbind option_bind]. rewrite E2. rewrite V1 in *.
    destruct (spec C o (view e)) as [x a]. cbn [fst snd] in *. destruct (spec_run C l a) as [xs a']. by split_and!.
Qed.

(** The start: the strings of the initial environment have an equals sign and distinct
    names. *)
Lemma env_init_ok m ps vs : entries m ps vs -> NoDup vs.*1 -> m !! 0 = None ->
  env_ok (hzlibc_env_init ps {| strs := m; ENV := []; ALLOCATED_ENV := ∅ |}) /\
  view (hzlibc_env_init ps {| strs := m; ENV := []; ALLOCATED_ENV := ∅ |}) = list_to_map vs.
Proof.
  intros F D N. apply (env_intro _ ps vs); auto.
  - intros I. apply list_elem_of_lookup in I as [i I]. destruct (Forall2_lookup_l _ _ _ _ _ F I) as (nv & _ & V).
    unfold var_of in V. by rewrite N in V.
  - split; [| exact N]. intros n p Q. cbn in Q. by rewrite lookup_empty in Q.
Qed.

(** ** An example *)

#[global] Instance fresh_alloc : StringAlloc.
Proof.
  refine {| new_str m := fresh (dom m ∪ {[0]}) |}.
  - intros m. apply not_elem_of_dom. pose proof (is_fresh (dom m ∪ {[0 : Z]})). set_solver.
  - intros m E. pose proof (is_fresh (dom m ∪ {[0 : Z]})). set_solver.
Defined.

(** "A=1", "B=2" at the start, "C=3" a string of the program. *)
Definition example_strs : gmap Z (list Z) := {[ 100 := [65; EQ; 49]; 200 := [66; EQ; 50]; 300 := [67; EQ; 51] ]}.
Definition example_env : env := hzlibc_env_init [100; 200] {| strs := example_strs; ENV := []; ALLOCATED_ENV := ∅ |}.

(** Overwrite A twice, put C, drop B, and a name with an equals sign. *)
Definition example_ops : list op :=
  [OpSet (Some [65]) [57] 1; OpPut 300; OpSet (Some [65]) [56] 1; OpUnset (Some [66]); OpSet (Some [65; EQ]) [] 1].

Lemma environment_refines_map_witness : exists e', run example_ops example_env =
    Some ([(0, None); (0, None); (0, None); (0, None); (-1, Some EINVAL)], e') /\
  (exists x, getenv [65] e' = Some x /\ snd <$> x = Some [56]) /\
  (exists x, getenv [66] e' = Some x /\ snd <$> x = None).
Proof.
  assert (O : env_ok example_env).
  { apply (env_init_ok example_strs [100; 200] [([65], [49]); ([66], [50])]).
    - constructor; [by_vm | constructor; [by_vm | constructor]].
    - apply (bool_decide_unpack _). by_vm.
    - by_vm. }
  assert (K : caller {[ 300 := [67; EQ; 51] ]} example_env).
  { intros p s E. apply lookup_singleton_Some in E as [<- <-]. split; [by_vm |]. intros n Q. cbn in Q. by rewrite lookup_empty in Q. }
  destruct (environment_refines_map {[ 300 := [67; EQ; 51] ]} example_ops example_env O K) as (e' & R & _ & _ & _ & G).
  { repeat constructor. exists [67; EQ; 51]. by_vm. }
  exists e'. split; [| split].
  - rewrite R. assert ((spec_run {[ 300 := [67; EQ; 51] ]} example_ops (view example_env)).1 =
      [(0, None); (0, None); (0, None); (0, None); (-1, Some EINVAL)]) as -> by by_vm. reflexivity.
  - destruct (G [65]) as (x & X & Y). exists x. split; [exact X |]. rewrite Y. by_vm.
  - destruct (G [66]) as (x & X & Y). exists x. split; [exact X |]. rewrite Y. by_vm.
Defined.

(** ** Findings *)

(** A name that occurs twice in the initial environment is still set after [unsetenv]. *)
Definition twice : env :=
  hzlibc_env_init [100; 200] {| strs := {[ 100 := [65; EQ; 49]; 200 := [65; EQ; 50] ]}; ENV := []; ALLOCATED_ENV := ∅ |}.

Theorem unsetenv_leaves_duplicate :
  ('(_, _, e) ← unsetenv (Some [65]) twice; getenv [65] e) = Some (Some (202, [50])).
Proof. by_vm. Qed.

(** A string without an equals sign, which [getenv] skips, makes [setenv] panic. *)
Theorem setenv_panics_on_foreign_string :
  let e := hzlibc_env_init [100] {| strs := {[ 100 := [65] ]}; ENV := []; ALLOCATED_ENV := ∅ |} in
  getenv [65] e = Some None /\ setenv (Some [66]) [49] 1 e = None.
Proof. split; by_vm. Qed.
