(* ===== verification/Random.v ===== *)
(** * Random numbers

    The ChaCha20 block of [src/src/internal/cha_cha.cpp] and its clients:
    [arc4random_buf] ([src/src/bsd/stdlib.cpp]), [random_r] with its state
    ([src/src/glibc/stdlib.cpp], [src/src/posix/stdlib.cpp]); [rand] and [srand]
    ([src/src/ansi/stdlib.cpp]).  Words are 32-bit numbers, the state of a block is a
    list of sixteen of them. *)

From stdpp Require Import base list option.
From S2P Require Import Prelude.

#[local] Open Scope Z_scope.

(** ** ChaCha20 *)

Definition rotate_left (value num : Z) : Z := Z.lor (u32 (Z.shiftl value num)) (Z.shiftr value (32 - num)).

Definition chacha20_quarter_round (a b c d : Z) : Z * Z * Z * Z :=
  let a := u32 (a + b) in let d := Z.lxor d a in let d := rotate_left d 16 in
  let c := u32 (c + d) in let b := Z.lxor b c in let b := rotate_left b 12 in
  let a := u32 (a + b) in let d := Z.lxor d a in let d := rotate_left d 8 in
  let c := u32 (c + d) in let b := Z.lxor b c in let b := rotate_left b 7 in
  (a, b, c, d).

Definition state_init (key : list Z) (block_counter : Z) (nonce : list Z) : list Z :=
  [0x61707865; 0x3320646E; 0x79622D32; 0x6B206574] ++ take 8 key ++ [block_counter] ++ take 3 nonce.

Definition quarter_round (x y z w : nat) (s : list Z) : list Z :=
  let '(a, b, c, d) := chacha20_quarter_round (nth x s 0) (nth y s 0) (nth z s 0) (nth w s 0) in
  <[w := d]> (<[z := c]> (<[y := b]> (<[x := a]> s))).

Definition inner_block (s : list Z) : list Z :=
  let s := quarter_round 0 4 8 12 s in
  let s := quarter_round 1 5 9 13 s in
  let s := quarter_round 2 6 10 14 s in
  let s := quarter_round 3 7 11 15 s in
  let s := quarter_round 0 5 10 15 s in
  let s := quarter_round 1 6 11 12 s in
  let s := quarter_round 2 7 8 13 s in
  quarter_round 3 4 9 14 s.

Definition cha_cha20_block (key : list Z) (block_counter : Z) (nonce : list Z) : list Z :=
  let initial_state := state_init key block_counter nonce in
  let state := Nat.iter 10 inner_block initial_state in
  zip_with (fun a b => u32 (a + b)) state initial_state.

(** [Nonce::use]: the three words are one number. *)
Definition nonce_use (n : Z * Z * Z) : Z * Z * Z :=
  let '(n0, n1, n2) := n in
  let n0 := u32 (n0 + 1) in
  if n0 =? 0 then
    let n1 := u32 (n1 + 1) in
    if n1 =? 0 then (n0, n1, u32 (n2 + 1)) else (n0, n1, n2)
  else (n0, n1, n2).

Definition nonce_words (n : Z * Z * Z) : list Z := let '(n0, n1, n2) := n in [n0; n1; n2].

(** ** [arc4random_buf] *)

(** The bytes of a block, little endian. *)
Definition word_bytes (w : Z) : list Z := [w mod 256; w / 2 ^ 8 mod 256; w / 2 ^ 16 mod 256; w / 2 ^ 24].

Record arc4 := { KEY : list Z; NONCE : Z * Z * Z }.

(** [for (i = 0; i < num_bytes; i += 64)], [left] bytes from the end; [n] is a bound on the
    number of blocks.  The result is the bytes and the counters used. *)
Fixpoint fill (n : nat) (key : list Z) (nonce : Z * Z * Z) (counter left : Z) : list Z * list Z :=
  match n with
  | O => ([], [])
  | S n =>
    if 0 <? left then
      let state := cha_cha20_block key counter (nonce_words nonce) in
      let to_copy := Z.min left 64 in
      let '(bytes, used) := fill n key nonce (u32 (counter + 1)) (left - 64) in
      (take (Z.to_nat to_copy) (concat (map word_bytes state)) ++ bytes, counter :: used)
    else ([], [])
  end.

Definition blocks (num_bytes : Z) : nat := Z.to_nat ((num_bytes + 63) / 64).

(** [key] is what [sys_getrandom] stores: the flag [INITIALIZED] is never set, so the key
    is drawn again by every call.  The result is the bytes, the blocks of the key
    stream they are taken from, and the new state. *)
Definition arc4random_buf (key : list Z) (num_bytes : Z) (s : arc4) : list Z * list (Z * (Z * Z * Z)) * arc4 :=
  let '(bytes, used) := fill (blocks num_bytes) key (NONCE s) 0 num_bytes in
  (bytes, map (fun c => (c, NONCE s)) used, {| KEY := key; NONCE := nonce_use (NONCE s) |}).

Definition arc4random (key : list Z) (s : arc4) : Z * arc4 :=
  let '(bytes, _, s) := arc4random_buf key 4 s in
  (nth 0 bytes 0 + 2 ^ 8 * nth 1 bytes 0 + 2 ^ 16 * nth 2 bytes 0 + 2 ^ 24 * nth 3 bytes 0, s).

(** ** [random] and its relatives *)

Definition RAND_MAX : Z := 0x7FFFFFFF.
Definition EINVAL : Z := 22.

(** [struct random_data]: the state buffer as 32-bit words, [fptr] and [end_ptr] as the
    number of nonce words between them. *)
Record random_data := { rd_state : list Z; rd_nonce : Z }.

(** [state_buf] holds [state_len / 4] words; the result is [errno] or the new data. *)
Definition initstate_r (seed : Z) (state_buf : list Z) (state_len : Z) : Z + random_data :=
  if state_len <? 8 then inl EINVAL
  else
    let state_len := if umax 32 <? state_len then umax 32 else state_len in
    let separate_nonce_len := Z.min (state_len / 4 - 2) 3 in
    inr {| rd_state := [u32 seed; separate_nonce_len] ++ replicate (Z.to_nat separate_nonce_len) 0 ++
                       drop (2 + Z.to_nat separate_nonce_len) state_buf;
           rd_nonce := separate_nonce_len |}.

Definition setstate_r (state_buf : option (list Z)) : Z + random_data :=
  match state_buf with
  | None => inl EINVAL
  | Some s => inr {| rd_state := s; rd_nonce := u32 (nth 1 s 0) |}
  end.

Definition srandom_r (seed : Z) (buf : random_data) : random_data :=
  {| rd_state := <[0%nat := u32 seed]> (rd_state buf); rd_nonce := rd_nonce buf |}.

(** The nonce of a state that has [k] words for it. *)
Definition read_nonce (k : nat) (s : list Z) : Z * Z * Z :=
  let l := take k (drop 2 s) in (nth 0 l 0, nth 1 l 0, nth 2 l 0).

(** [None]: a nonce of more than three words, which the array of the code does not
    have. *)
Definition random_r (buf : random_data) : option (Z * random_data) :=
  let s := rd_state buf in
  let key := [nth 0 s 0; nth 1 s 0; 0; 0; 0; 0; 0; 0] in
  let k := Z.to_nat (rd_nonce buf) in
  if 3 <? rd_nonce buf then None
  else if negb (rd_nonce buf =? 0) then
    let nonce := read_nonce k s in
    let state := cha_cha20_block key 0 (nonce_words nonce) in
    Some (nth 0 state 0 mod RAND_MAX,
      {| rd_state := take 2 s ++ take k (nonce_words (nonce_use nonce)) ++ drop (2 + k) s; rd_nonce := rd_nonce buf |})
  else
    let nonce := (nth 0 s 0, nth 1 s 0, 0) in
    let state := cha_cha20_block key 0 (nonce_words nonce) in
    Some (nth 0 state 0 mod RAND_MAX,
      {| rd_state := <[0%nat := nth 0 (nonce_words (nonce_use nonce)) 0]> s; rd_nonce := rd_nonce buf |}).

(** [RANDOM_DATA] with [INITIALIZED]. *)
Definition RANDOM_STATE : list Z := replicate 8 0.

Definition first_state (seed : Z) : random_data :=
  match initstate_r seed RANDOM_STATE 32 with inr d => d | inl _ => {| rd_state := []; rd_nonce := 0 |} end.

Definition srandom (seed : Z) (d : option random_data) : option random_data :=
  match d with
  | None => Some (first_state seed)
  | Some d => Some (srandom_r seed d)
  end.

Definition random (d : option random_data) : option (Z * option random_data) :=
  let d := match d with None => first_state 0xCAFEBABE | Some d => d end in
  '(v, d) ← random_r d; Some (v, Some d).

(** ** [rand] *)

Definition rand_step (x : Z) : Z :=
  let x := Z.lxor x (u32 (Z.shiftl x 13)) in
  let x := Z.lxor x (Z.shiftr x 17) in
  Z.lxor x (u32 (Z.shiftl x 5)).

Definition srand (seed : Z) (state : Z) : Z := u32 seed.

Definition rand (state : Z) : Z * Z := let x := rand_step state in (x mod RAND_MAX, x).

(** ** The published test vectors (RFC 8439, 2.1.1 and 2.3.2) *)

Example quarter_round_vector :
  chacha20_quarter_round 0x11111111 0x01020304 0x9b8d6f43 0x01234567 = (0xea2a92f4, 0xcb1cf8ce, 0x4581472e, 0x5881c4bb).
Proof. by_vm. Qed.

Definition rfc_key : list Z :=
  [0x03020100; 0x07060504; 0x0b0a0908; 0x0f0e0d0c; 0x13121110; 0x17161514; 0x1b1a1918; 0x1f1e1d1c].

Example block_vector :
  cha_cha20_block rfc_key 1 [0x09000000; 0x4a000000; 0x00000000] =
  [0xe4e7f110; 0x15593bd1; 0x1fdd0f50; 0xc47120a3; 0xc7f4d1c7; 0x0368c033; 0x9aaa2204; 0x4e6cd4c3;
   0x466482d2; 0x09aa9f07; 0x05d7c214; 0xa2028bd9; 0xd19c12b5; 0xb94e16de; 0xe883d0cb; 0x4e3c50a2].
Proof. by_vm. Qed.

(** ** The rounds are a permutation *)

Notation word := (is_u 32).

Lemma word_bits x i : word x -> 32 <= i -> Z.testbit x i = false.
Proof. intros H Hi. rewrite <- (Z.mod_small x (2 ^ 32) H). apply Z.mod_pow2_bits_high. lia. Qed.

Lemma bits_word x : (forall i, 32 <= i -> Z.testbit x i = false) -> word x.
Proof.
  intros H. assert (E : x = x mod 2 ^ 32).
  { apply Z.bits_inj'. intros i Hi. destruct (Z.lt_ge_cases i 32); [by rewrite Z.mod_pow2_bits_low | rewrite Z.mod_pow2_bits_high by lia; by apply H]. }
  rewrite E. apply Z.mod_pos_bound. lia.
Qed.

Lemma word_lxor x y : word x -> word y -> word (Z.lxor x y).
Proof. intros Hx Hy. apply bits_word. intros i Hi. by rewrite Z.lxor_spec, !word_bits. Qed.

Lemma lxor_cancel x y : Z.lxor (Z.lxor x y) y = x.
Proof. by rewrite Z.lxor_assoc, Z.lxor_nilpotent, Z.lxor_0_r. Qed.

Lemma u32_word x : word (u32 x).
Proof. apply wrapu_range. lia. Qed.

Lemma add_cancel a b : word a -> u32 (u32 (a + b) - b) = a.
Proof. intros H. unfold wrapu. rewrite Zminus_mod_idemp_l. replace (a + b - b) with a by lia. by apply Z.mod_small. Qed.

(** A rotation moves the upper bits below the others. *)
Lemma rotate_left_eq v n : word v -> 0 < n < 32 -> rotate_left v n = v mod 2 ^ (32 - n) * 2 ^ n + v / 2 ^ (32 - n).
Proof.
  intros H Hn. unfold rotate_left, wrapu. rewrite Z.shiftl_mul_pow2, Z.shiftr_div_pow2 by lia.
  replace (2 ^ 32) with (2 ^ (32 - n) * 2 ^ n) by (rewrite <- Z.pow_add_r by lia; f_equal; lia).
  rewrite Z.mul_mod_distr_r by (apply Z.pow_nonzero; lia). rewrite Z.lor_comm, <- Z.shiftl_mul_pow2 by lia. rewrite lor_fields; [rewrite Z.shiftl_mul_pow2 by lia; lia | lia |].
  unfold is_u in H. split; [apply Z.div_pos; lia |]. apply Z.div_lt_upper_bound; [lia |]. rewrite <- Z.pow_add_r by lia.
  replace (32 - n + n) with 32 by lia. lia.
Qed.

Lemma rotate_bounds v n : word v -> 0 < n < 32 ->
  0 <= v mod 2 ^ (32 - n) < 2 ^ (32 - n) /\ 0 <= v / 2 ^ (32 - n) < 2 ^ n.
Proof.
  intros H Hn. split; [apply Z.mod_pos_bound; lia |]. unfold is_u in H. split; [apply Z.div_pos; lia |].
  apply Z.div_lt_upper_bound; [lia |]. rewrite <- Z.pow_add_r by lia. replace (32 - n + n) with 32 by lia. lia.
Qed.

Lemma rotate_word v n : word v -> 0 < n < 32 -> word (rotate_left v n).
Proof.
  intros H Hn. rewrite rotate_left_eq by assumption. destruct (rotate_bounds v n H Hn). unfold is_u.
  assert (2 ^ 32 = 2 ^ (32 - n) * 2 ^ n) as -> by (rewrite <- Z.pow_add_r by lia; f_equal; lia). nia.
Qed.

Lemma rotate_back v n : word v -> 0 < n < 32 -> rotate_left (rotate_left v n) (32 - n) = v.
Proof.
  intros H Hn. rewrite (rotate_left_eq (rotate_left v n)) by (try apply rotate_word; lia || assumption).
  rewrite (rotate_left_eq v) by assumption. destruct (rotate_bounds v n H Hn) as [B1 B2]. replace (32 - (32 - n)) with n by lia.
  set (r := v mod 2 ^ (32 - n)) in *. set (q := v / 2 ^ (32 - n)) in *.
  replace (r * 2 ^ n + q) with (q + r * 2 ^ n) by lia. rewrite Z.mod_add, Z.div_add by (apply Z.pow_nonzero; lia). rewrite Z.mod_small, Z.div_small by assumption.
  pose proof (Z.div_mod v (2 ^ (32 - n)) ltac:(apply Z.pow_nonzero; lia)). lia.
Qed.

(** The quarter round, undone. *)
Definition quarter_round_undo (a b c d : Z) : Z * Z * Z * Z :=
  let b := Z.lxor (rotate_left b 25) c in let c := u32 (c - d) in
  let d := Z.lxor (rotate_left d 24) a in let a := u32 (a - b) in
  let b := Z.lxor (rotate_left b 20) c in let c := u32 (c - d) in
  let d := Z.lxor (rotate_left d 16) a in let a := u32 (a - b) in
  (a, b, c, d).

Create HintDb words.
#[local] Hint Resolve u32_word word_lxor rotate_word : words.

Lemma quarter_round_bijective a b c d : word a -> word b -> word c -> word d ->
  let '(a', b', c', d') := chacha20_quarter_round a b c d in
  word a' /\ word b' /\ word c' /\ word d' /\ quarter_round_undo a' b' c' d' = (a, b, c, d).
Proof.
  intros Ha Hb Hc Hd. unfold chacha20_quarter_round.
  set (a1 := u32 (a + b)). set (d1 := rotate_left (Z.lxor d a1) 16). set (c1 := u32 (c + d1)).
  set (b1 := rotate_left (Z.lxor b c1) 12). set (a2 := u32 (a1 + b1)). set (d2 := rotate_left (Z.lxor d1 a2) 8).
  set (c2 := u32 (c1 + d2)). set (b2 := rotate_left (Z.lxor b1 c2) 7).
  assert (word a1 /\ word c1 /\ word a2 /\ word c2) as (Wa1 & Wc1 & Wa2 & Wc2) by (unfold a1, c1, a2, c2; auto with words).
  assert (word d1 /\ word b1) as (Wd1 & Wb1) by (unfold d1, b1; split; apply rotate_word; auto with words; lia).
  assert (word d2 /\ word b2) as (Wd2 & Wb2) by (unfold d2, b2; split; apply rotate_word; auto with words; lia).
  split_and!; auto. unfold quarter_round_undo.
  assert (Z.lxor (rotate_left b2 25) c2 = b1) as -> by (unfold b2; rewrite (rotate_back _ 7) by (auto with words; lia); apply lxor_cancel).
  assert (u32 (c2 - d2) = c1) as -> by (by apply add_cancel).
  assert (Z.lxor (rotate_left d2 24) a2 = d1) as -> by (unfold d2; rewrite (rotate_back _ 8) by (auto with words; lia); apply lxor_cancel).
  assert (u32 (a2 - b1) = a1) as -> by (by apply add_cancel).
  assert (Z.lxor (rotate_left b1 20) c1 = b) as -> by (unfold b1; rewrite (rotate_back _ 12) by (auto with words; lia); apply lxor_cancel).
  assert (u32 (c1 - d1) = c) as -> by (by apply add_cancel).
  assert (Z.lxor (rotate_left d1 16) a1 = d) as -> by (unfold d1; rewrite (rotate_back _ 16) by (auto with words; lia); apply lxor_cancel).
  assert (u32 (a1 - b) = a) as -> by (by apply add_cancel). reflexivity.
Qed.

Definition words16 (s : list Z) : Prop := length s = 16%nat /\ Forall word s.

(** The quarter round on four places of a state, undone. *)
Definition undo (x y z w : nat) (s : list Z) : list Z :=
  let '(a, b, c, d) := quarter_round_undo (nth x s 0) (nth y s 0) (nth z s 0) (nth w s 0) in
  <[w := d]> (<[z := c]> (<[y := b]> (<[x := a]> s))).

Definition distinct4 (x y z w : nat) : bool :=
  forallb (fun i => (i <? 16)%nat) [x; y; z; w] && bool_decide (NoDup [x; y; z; w]).

Lemma word_nth s i : words16 s -> (i < 16)%nat -> word (nth i s 0).
Proof. intros [L F] Hi. apply (proj1 (List.Forall_forall _ _) F). apply nth_In. lia. Qed.

Lemma nth_insert (s : list Z) i j v : (i < length s)%nat -> nth j (<[i := v]> s) 0 = if (j =? i)%nat then v else nth j s 0.
Proof.
  intros L. destruct (Nat.eqb_spec j i) as [-> | N]; rewrite !nth_lookup.
  - by rewrite list_lookup_insert_eq.
  - by rewrite list_lookup_insert_ne by auto.
Qed.

Lemma quarter_round_undo_ok x y z w s : distinct4 x y z w = true -> words16 s ->
  words16 (quarter_round x y z w s) /\ undo x y z w (quarter_round x y z w s) = s.
Proof.
  intros Di W. unfold distinct4 in Di. rewrite andb_true_iff, bool_decide_eq_true in Di. destruct Di as [B Dn].
  cbn [forallb] in B. rewrite !andb_true_iff, !Nat.ltb_lt in B. destruct B as (Bx & By & Bz & Bw & _).
  rewrite !list.NoDup_cons, !elem_of_cons in Dn. destruct Dn as (N1 & N2 & N3 & _).
  assert (x <> y /\ x <> z /\ x <> w /\ y <> z /\ y <> w /\ z <> w) as (? & ? & ? & ? & ? & ?) by (clear - N1 N2 N3; tauto).
  pose proof (quarter_round_bijective _ _ _ _ (word_nth s x W Bx) (word_nth s y W By) (word_nth s z W Bz) (word_nth s w W Bw)) as Q.
  unfold quarter_round, undo. destruct (chacha20_quarter_round _ _ _ _) as [[[a b] c] d]. destruct Q as (Wa & Wb & Wc & Wd & U).
  destruct W as [L F]. split.
  - split; [by rewrite !length_insert |]. by repeat apply Forall_insert.
  - rewrite !nth_insert by (rewrite ?length_insert; lia).
    repeat match goal with
    | |- context [(?i =? ?i)%nat] => rewrite (Nat.eqb_refl i)
    | |- context [(?i =? ?j)%nat] => rewrite (proj2 (Nat.eqb_neq i j)) by congruence
    end.
    rewrite U. cbv beta iota. apply list_eq. intros i.
    repeat match goal with |- context [<[?j := _]> _ !! i] =>
      destruct (decide (i = j)) as [-> | ?]; [rewrite list_lookup_insert_eq by (rewrite ?length_insert; lia) | rewrite list_lookup_insert_ne by auto] end;
      try reflexivity; try congruence;
      match goal with |- Some (nth ?j s 0) = _ => destruct (lookup_lt_is_Some_2 s j ltac:(lia)) as [v E]; by rewrite nth_lookup, E end.
Qed.

(** The eight quarter rounds, undone from the last to the first. *)
Definition inner_block_undo (s : list Z) : list Z :=
  undo 0 4 8 12 (undo 1 5 9 13 (undo 2 6 10 14 (undo 3 7 11 15 (undo 0 5 10 15 (undo 1 6 11 12 (undo 2 7 8 13 (undo 3 4 9 14 s))))))).

Lemma inner_block_undo_ok s : words16 s -> words16 (inner_block s) /\ inner_block_undo (inner_block s) = s.
Proof.
  intros W. unfold inner_block, inner_block_undo.
  repeat match goal with
  | |- context [quarter_round ?x ?y ?z ?w ?t] =>
    lazymatch t with context [quarter_round _ _ _ _ _] => fail | _ => idtac end;
    let E := fresh "E" in let W' := fresh "W" in
    destruct (quarter_round_undo_ok x y z w t eq_refl ltac:(assumption)) as [W' E];
    set (quarter_round x y z w t) in *
  end.
  split; [assumption |]. repeat match goal with E : undo ?x ?y ?z ?w ?t = _ |- _ => rewrite E; clear E end. reflexivity.
Qed.

(** The ten double rounds lose nothing: different keys, counters or nonces go into
    different states. *)
Theorem rounds_injective n s t : words16 s -> words16 t -> Nat.iter n inner_block s = Nat.iter n inner_block t -> s = t.
Proof.
  assert (G : forall u, words16 u -> words16 (Nat.iter n inner_block u) /\ Nat.iter n inner_block_undo (Nat.iter n inner_block u) = u).
  { induction n as [| n IH]; intros u W; [done |]. destruct (IH u W) as [W1 E1]. rewrite (Nat.iter_succ_r n _ inner_block_undo).
    change (Nat.iter (S n) inner_block u) with (inner_block (Nat.iter n inner_block u)).
    destruct (inner_block_undo_ok _ W1) as [W2 E2]. by rewrite E2. }
  intros Ws Wt E. destruct (G s Ws) as [_ <-], (G t Wt) as [_ <-]. by rewrite E.
Qed.

(** ** The key stream *)

Definition nonce_ok (n : Z * Z * Z) : Prop := let '(n0, n1, n2) := n in word n0 /\ word n1 /\ word n2.
Definition nonce_value (n : Z * Z * Z) : Z := let '(n0, n1, n2) := n in n0 + 2 ^ 32 * n1 + 2 ^ 64 * n2.

(** The nonce counts to 2^96. *)
Lemma nonce_use_ok n : nonce_ok n -> nonce_ok (nonce_use n) /\ nonce_value (nonce_use n) = (nonce_value n + 1) mod 2 ^ 96.
Proof.
  destruct n as [[n0 n1] n2]. intros (H0 & H1 & H2). unfold nonce_use.
  assert (S : forall x, word x -> u32 (x + 1) = 0 /\ x = 2 ^ 32 - 1 \/ u32 (x + 1) = x + 1 /\ x + 1 < 2 ^ 32).
  { intros x Hx. unfold is_u in Hx. destruct (Z.eq_dec x (2 ^ 32 - 1)) as [-> | N]; [left; split; [by_vm | lia] |].
    right. rewrite wrapu_small; unfold is_u; lia. }
  unfold is_u in *.
  destruct (S n0 H0) as [[-> ->] | [-> B0]]; [cbn [Z.eqb] | destruct (Z.eqb_spec (n0 + 1) 0); [lia |]].
  - destruct (S n1 H1) as [[-> ->] | [-> B1]]; [cbn [Z.eqb] | destruct (Z.eqb_spec (n1 + 1) 0); [lia |]].
    + destruct (S n2 H2) as [[-> ->] | [-> B2]]; cbn [nonce_ok nonce_value]; unfold is_u; (split; [lia |]).
      * by_vm.
      * rewrite Z.mod_small; lia.
    + cbn [nonce_ok nonce_value]; unfold is_u; (split; [lia |]). rewrite Z.mod_small; lia.
  - cbn [nonce_ok nonce_value]; unfold is_u; (split; [lia |]). rewrite Z.mod_small; lia.
Qed.

Lemma nonce_value_bound n : nonce_ok n -> 0 <= nonce_value n < 2 ^ 96.
Proof. destruct n as [[n0 n1] n2]. unfold nonce_ok, nonce_value, is_u. lia. Qed.

Lemma quarter_round_length x y z w s : length (quarter_round x y z w s) = length s.
Proof. unfold quarter_round. destruct (chacha20_quarter_round _ _ _ _) as [[[? ?] ?] ?]. by rewrite !length_insert. Qed.

Lemma block_length key c n : length key = 8%nat -> length (cha_cha20_block key c (nonce_words n)) = 16%nat.
Proof.
  intros K. assert (I : forall s, length (inner_block s) = length s).
  { intros s. unfold inner_block. by rewrite !quarter_round_length. }
  assert (L : length (state_init key c (nonce_words n)) = 16%nat).
  { unfold state_init. rewrite !length_app, length_take, K. destruct n as [[? ?] ?]. reflexivity. }
  assert (IT : forall k, length (Nat.iter k inner_block (state_init key c (nonce_words n))) = 16%nat).
  { induction k as [| k IH]; [exact L |]. cbn [Nat.iter nat_rect]. by rewrite I. }
  unfold cha_cha20_block. rewrite length_zip_with, IT, L. reflexivity.
Qed.

Lemma block_bytes key c n : length key = 8%nat -> length (concat (map word_bytes (cha_cha20_block key c (nonce_words n)))) = 64%nat.
Proof.
  intros K. pose proof (block_length key c n K) as L. generalize dependent (cha_cha20_block key c (nonce_words n)). intros l L.
  do 17 (destruct l as [| ? l]; try discriminate). reflexivity.
Qed.

(** A call takes consecutive blocks and returns the bytes that were asked for. *)
Lemma fill_ok key nonce : length key = 8%nat -> forall n counter left, n = blocks left -> 0 <= left ->
  0 <= counter -> counter + Z.of_nat n <= 2 ^ 32 ->
  zlen (fill n key nonce counter left).1 = left /\ (fill n key nonce counter left).2 = map (fun i => counter + Z.of_nat i) (seq 0 n).
Proof.
  intros K. induction n as [| n IH]; intros counter left N L C B; cbn [fill].
  - assert (left = 0) as -> by (unfold blocks in N; Z.to_euclidean_division_equations; lia). done.
  - destruct (Z.ltb_spec 0 left) as [P | P]; [| unfold blocks in N; Z.to_euclidean_division_equations; lia].
    set (c' := u32 (counter + 1)). destruct (Z.le_gt_cases left 64) as [Small | Large].
    + assert (n = O) as -> by (unfold blocks in N; Z.to_euclidean_division_equations; lia). cbn [fill fst snd seq map].
      rewrite app_nil_r, Z.add_0_r. split; [| done]. unfold zlen. rewrite length_take, block_bytes by exact K. lia.
    + assert (Nb : n = blocks (left - 64)) by (unfold blocks in *; Z.to_euclidean_division_equations; lia).
      assert (n <> O) by (unfold blocks in *; Z.to_euclidean_division_equations; lia).
      assert (c' = counter + 1) as Ec by (unfold c'; apply wrapu_small; unfold is_u; lia).
      destruct (IH c' (left - 64) Nb ltac:(lia) ltac:(lia) ltac:(lia)) as [IH1 IH2].
      destruct (fill n key nonce c' (left - 64)) as [bytes used]. cbn [fst snd] in *. rewrite IH2, zlen_app, IH1. split.
      * unfold zlen. rewrite length_take, block_bytes by exact K. lia.
      * cbn [seq map]. f_equal; [lia |]. rewrite <- seq_shift, map_map. apply map_ext. intros i. lia.
Qed.

(** Calls in sequence: the bytes of each, and every block of the key stream used. *)
Fixpoint arc4_run (calls : list (list Z * Z)) (s : arc4) : list (list Z) * list (Z * (Z * Z * Z)) :=
  match calls with
  | [] => ([], [])
  | (key, n) :: r =>
    let '(bytes, used, s) := arc4random_buf key n s in
    let '(bs, us) := arc4_run r s in (bytes :: bs, used ++ us)
  end.

(** A key of eight words, and at most 2^32 blocks. *)
Definition call_ok (c : list Z * Z) : Prop := length c.1 = 8%nat /\ 0 <= c.2 <= 2 ^ 38.

Lemma arc4_run_nonces calls : Forall call_ok calls -> forall s x, nonce_ok (NONCE s) -> x ∈ (arc4_run calls s).2 ->
  exists k, (k < length calls)%nat /\ nonce_value x.2 = (nonce_value (NONCE s) + Z.of_nat k) mod 2 ^ 96.
Proof.
  induction 1 as [| [key n] calls C F IH]; intros s x Ok X; [by apply elem_of_nil in X |]. cbn [arc4_run] in X.
  unfold arc4random_buf in X. destruct (fill (blocks n) key (NONCE s) 0 n) as [bytes used].
  destruct (nonce_use_ok (NONCE s) Ok) as [Ok' V].
  specialize (IH {| KEY := key; NONCE := nonce_use (NONCE s) |} x Ok').
  destruct (arc4_run calls _) as [bs us]. cbn [snd NONCE] in *. apply elem_of_app in X as [X | X].
  - apply list_elem_of_In, in_map_iff in X as (c & <- & _). exists O. split; [simpl; lia |]. cbn [snd].
    rewrite Z.add_0_r, Z.mod_small; [done | by apply nonce_value_bound].
  - destruct (IH X) as (k & Lk & ->). exists (S k). split; [simpl; lia |]. rewrite V, Zplus_mod_idemp_l. f_equal. lia.
Qed.

(** C15: no part of the key stream is used twice.  For any sequence of fewer than 2^96 calls
    of [arc4random_buf] of up to 2^38 bytes each, whatever keys the kernel supplies:
    every call returns exactly the bytes asked for, and the pairs of block counter
    and nonce that they are taken from are all different. *)
Theorem keystream_never_reused calls s :
  nonce_ok (NONCE s) -> Forall call_ok calls -> zlen calls <= 2 ^ 96 ->
  map zlen (arc4_run calls s).1 = map snd calls /\ NoDup (arc4_run calls s).2.
Proof.
  intros Ok F L. revert s Ok. induction F as [| [key n] calls C F IH]; intros s Ok; [split; [done | constructor] |].
  rewrite zlen_cons in L. destruct (nonce_use_ok (NONCE s) Ok) as [Ok' V].
  pose proof (arc4_run_nonces calls F {| KEY := key; NONCE := nonce_use (NONCE s) |}) as N.
  destruct (IH ltac:(lia) {| KEY := key; NONCE := nonce_use (NONCE s) |} Ok') as [IH1 IH2]. destruct C as [K B]. cbn [fst snd] in K, B.
  assert (Bl : 0 + Z.of_nat (blocks n) <= 2 ^ 32) by (unfold blocks; Z.to_euclidean_division_equations; lia).
  destruct (fill_ok key (NONCE s) K (blocks n) 0 n eq_refl ltac:(lia) ltac:(lia) Bl) as [F1 F2].
  cbn [arc4_run]. unfold arc4random_buf. destruct (fill (blocks n) key (NONCE s) 0 n) as [bytes used].
  destruct (arc4_run calls _) as [bs us]. cbn [fst snd map NONCE] in *. split; [by rewrite F1, IH1 |].
  apply list.NoDup_app. split_and!; [| | exact IH2].
  - rewrite F2, map_map. apply NoDup_fmap_2; [intros i j E; injection E; lia | apply NoDup_seq].
  - intros x X Y. apply list_elem_of_In, in_map_iff in X as (c & <- & _). destruct (N _ Ok' Y) as (k & Lk & E). cbn [snd] in E.
    rewrite V, Zplus_mod_idemp_l in E. pose proof (nonce_value_bound _ Ok) as B1. unfold zlen in L.
    Z.to_euclidean_division_equations. lia.
Qed.

Lemma keystream_never_reused_witness :
  let calls := [(rfc_key, 4); (rfc_key, 200)] in
  let s := {| KEY := rfc_key; NONCE := (umax 32, 0, 0) |} in
  map zlen (arc4_run calls s).1 = [4; 200] /\ NoDup (arc4_run calls s).2.
Proof.
  apply (keystream_never_reused [(rfc_key, 4); (rfc_key, 200)] {| KEY := rfc_key; NONCE := (umax 32, 0, 0) |}).
  - unfold nonce_ok, is_u, umax. cbn [NONCE]. lia.
  - repeat constructor; cbn [fst snd]; lia.
  - unfold zlen. simpl. lia.
Defined.

(** ** [rand] *)

(** Mixing a word with itself, shifted, can be undone. *)
Lemma lxor_shiftl_inj k x y : 0 < k -> word x -> word y ->
  Z.lxor x (u32 (Z.shiftl x k)) = Z.lxor y (u32 (Z.shiftl y k)) -> x = y.
Proof.
  intros Hk Hx Hy E. apply Z.bits_inj'. intros i Hi.
  assert (G : forall n i, (Z.to_nat i < n)%nat -> 0 <= i -> Z.testbit x i = Z.testbit y i).
  { induction n as [| n IH]; intros j Lj Hj; [lia |]. destruct (Z.le_gt_cases 32 j); [by rewrite !word_bits |].
    pose proof (f_equal (fun z => Z.testbit z j) E) as Ej. cbv beta in Ej. unfold wrapu in Ej.
    rewrite !Z.lxor_spec, !Z.mod_pow2_bits_low, !Z.shiftl_spec in Ej by lia.
    destruct (Z.le_gt_cases k j).
    - rewrite (IH (j - k)) in Ej by lia. destruct (Z.testbit x j), (Z.testbit y j), (Z.testbit y (j - k)); discriminate || reflexivity.
    - rewrite !(Z.testbit_neg_r _ (j - k)), !xorb_false_r in Ej by lia. exact Ej. }
  apply (G (S (Z.to_nat i))); lia.
Qed.

Lemma lxor_shiftr_inj k x y : 0 < k -> word x -> word y ->
  Z.lxor x (Z.shiftr x k) = Z.lxor y (Z.shiftr y k) -> x = y.
Proof.
  intros Hk Hx Hy E. apply Z.bits_inj'. intros i Hi.
  assert (G : forall n i, (Z.to_nat (32 - i) < n)%nat -> 0 <= i -> Z.testbit x i = Z.testbit y i).
  { induction n as [| n IH]; intros j Lj Hj; [lia |]. destruct (Z.le_gt_cases 32 j); [by rewrite !word_bits |].
    pose proof (f_equal (fun z => Z.testbit z j) E) as Ej. cbv beta in Ej.
    rewrite !Z.lxor_spec, !Z.shiftr_spec in Ej by lia. rewrite (IH (j + k)) in Ej by lia.
    destruct (Z.testbit x j), (Z.testbit y j), (Z.testbit y (j + k)); discriminate || reflexivity. }
  apply (G (S (Z.to_nat (32 - i)))); lia.
Qed.

Lemma word_shiftr x k : 0 <= k -> word x -> word (Z.shiftr x k).
Proof. intros Hk H. apply bits_word. intros i Hi. rewrite Z.shiftr_spec by lia. apply word_bits; [exact H | lia]. Qed.

(** The generator is a permutation of the words: no state is lost, and a state other
    than zero never becomes zero. *)
Theorem rand_step_injective x y : word x -> word y -> rand_step x = rand_step y -> x = y.
Proof.
  intros Hx Hy E. unfold rand_step in E.
  assert (W : forall z, word z -> word (Z.lxor z (u32 (Z.shiftl z 13)))) by auto with words.
  apply lxor_shiftl_inj in E; [| lia | apply word_lxor; [| apply word_shiftr; [lia |]]; auto .. ].
  apply lxor_shiftr_inj in E; [| lia | auto ..]. apply lxor_shiftl_inj in E; [exact E | lia | assumption ..].
Qed.

Theorem rand_step_nonzero x : word x -> x <> 0 -> rand_step x <> 0.
Proof.
  intros Hx N E. apply N. change 0 with (rand_step 0) in E. apply rand_step_injective in E; [exact E | exact Hx | unfold is_u; lia].
Qed.

(** ** Findings *)

(** [srand(0)] stops the generator. *)
Theorem srand_zero_stuck state : rand (srand 0 state) = (0, 0).
Proof. by_vm. Qed.

(** [srandom] with the same seed does not restart the sequence: the nonce of the state is
    kept. *)
Theorem srandom_does_not_restart :
  match random (srandom 1 None) with
  | Some (v, d) => match random (srandom 1 d) with Some (v', _) => v <> v' | None => False end
  | None => False
  end.
Proof. vm_compute. discriminate. Qed.
