(* ===== verification/Exit.v ===== *)
(** * Process termination

    [atexit], [__cxa_atexit], [at_quick_exit], [exit], [quick_exit] and [_Exit] of
    [src/src/ansi/stdlib.cpp], and the destructors of thread-local objects of
    [src/src/glibc/cxx.cpp].

    The handlers are kept in blocks of eight, the newest block first.  What a handler does
    is a parameter: the registrations it makes when it is called.  [BLOCKS] and
    [QUICK_BLOCKS] are guarded by spin locks, which [run_exit_handlers] and [quick_exit]
    hold while they call the handlers: a registration that finds its lock held never
    returns ([Deadlock]).  The trace lists the calls in the order they are made. *)

From stdpp Require Import base list option.
From S2P Require Import Prelude.

#[local] Open Scope Z_scope.

Record AtExit := { fn : Z; arg : Z; dso_handle : Z }.

(** [fns] up to [size]; the block at the end of the list is [INITIAL_BLOCK]. *)
Definition AtExitBlock : Type := list AtExit.

Inductive event :=
  | Destructor (f object : Z)
  | Handler (f a : Z)
  | DlDestroy
  | SysExit (status : Z).

Record exit_state := {
  BLOCKS : list AtExitBlock;
  QUICK_BLOCKS : list AtExitBlock;
  blocks_locked : bool;
  quick_locked : bool;
  DESTRUCTOR_LIST : list (Z * Z);
  trace : list event;
}.

Inductive outcome := Done (s : exit_state) | Deadlock.

Definition obind (o : outcome) (k : exit_state -> outcome) : outcome := match o with Done s => k s | Deadlock => Deadlock end.

Definition with_blocks (b : list AtExitBlock) (l : bool) (s : exit_state) : exit_state :=
  {| BLOCKS := b; QUICK_BLOCKS := QUICK_BLOCKS s; blocks_locked := l; quick_locked := quick_locked s;
     DESTRUCTOR_LIST := DESTRUCTOR_LIST s; trace := trace s |}.
Definition with_quick (b : list AtExitBlock) (l : bool) (s : exit_state) : exit_state :=
  {| BLOCKS := BLOCKS s; QUICK_BLOCKS := b; blocks_locked := blocks_locked s; quick_locked := l;
     DESTRUCTOR_LIST := DESTRUCTOR_LIST s; trace := trace s |}.
Definition with_destructors (d : list (Z * Z)) (s : exit_state) : exit_state :=
  {| BLOCKS := BLOCKS s; QUICK_BLOCKS := QUICK_BLOCKS s; blocks_locked := blocks_locked s; quick_locked := quick_locked s;
     DESTRUCTOR_LIST := d; trace := trace s |}.
Definition emit (e : event) (s : exit_state) : exit_state :=
  {| BLOCKS := BLOCKS s; QUICK_BLOCKS := QUICK_BLOCKS s; blocks_locked := blocks_locked s; quick_locked := quick_locked s;
     DESTRUCTOR_LIST := DESTRUCTOR_LIST s; trace := trace s ++ [e] |}.

(** ** Registration *)

(** A handler goes into the first block, or into a new one when that is full. *)
Definition add_handler (h : AtExit) (blocks : list AtExitBlock) : list AtExitBlock :=
  match blocks with
  | [] => [[h]]
  | b :: r => if (length b =? 8)%nat then [h] :: b :: r else (b ++ [h]) :: r
  end.

Definition __cxa_atexit (func a dso : Z) (s : exit_state) : outcome :=
  if blocks_locked s then Deadlock
  else Done (with_blocks (add_handler {| fn := func; arg := a; dso_handle := dso |} (BLOCKS s)) false s).

Definition atexit (func : Z) (s : exit_state) : outcome := __cxa_atexit func 0 0 s.

Definition at_quick_exit (func : Z) (s : exit_state) : outcome :=
  if quick_locked s then Deadlock
  else Done (with_quick (add_handler {| fn := func; arg := 0; dso_handle := 0 |} (QUICK_BLOCKS s)) false s).

Definition __cxa_thread_atexit_impl (f object : Z) (s : exit_state) : outcome :=
  Done (with_destructors (DESTRUCTOR_LIST s ++ [(f, object)]) s).

(** ** Calls *)

Inductive registration :=
  | RegAtExit (func a dso : Z)
  | RegQuick (func : Z)
  | RegThread (f object : Z).

Definition register (r : registration) (s : exit_state) : outcome :=
  match r with
  | RegAtExit f a d => __cxa_atexit f a d s
  | RegQuick f => at_quick_exit f s
  | RegThread f o => __cxa_thread_atexit_impl f o s
  end.

Fixpoint register_all (l : list registration) (s : exit_state) : outcome :=
  match l with [] => Done s | r :: l => obind (register r s) (register_all l) end.

Section Calls.
(** The registrations a function makes when it is called with an argument. *)
Context (body : Z -> Z -> list registration).

Definition call (e : event) (f a : Z) (s : exit_state) : outcome := register_all (body f a) (emit e s).

(** [for (int i = block->size; i > 0; --i)], over the block from its end. *)
Fixpoint run_block (l : list AtExit) (s : exit_state) : outcome :=
  match l with
  | [] => Done s
  | h :: r =>
    if fn h =? 0 then run_block r s else obind (call (Handler (fn h) (arg h)) (fn h) (arg h) s) (run_block r)
  end.

Fixpoint run_blocks (l : list AtExitBlock) (s : exit_state) : outcome :=
  match l with [] => Done s | b :: r => obind (run_block (rev b) s) (run_blocks r) end.

Definition run_exit_handlers (s : exit_state) : outcome :=
  if blocks_locked s then Deadlock
  else obind (run_blocks (BLOCKS s) (with_blocks (BLOCKS s) true s)) (fun s => Done (with_blocks [[]] false s)).

(** The destructors there are at the start of the loop, from the last to the first; what
    they register is dropped with the list. *)
Fixpoint run_destructors (l : list (Z * Z)) (s : exit_state) : outcome :=
  match l with [] => Done s | (f, o) :: r => obind (call (Destructor f o) f o s) (run_destructors r) end.

Definition call_cxx_tls_destructors (s : exit_state) : outcome :=
  obind (run_destructors (rev (DESTRUCTOR_LIST s)) s) (fun s => Done (with_destructors [] s)).

Definition _Exit (status : Z) (s : exit_state) : outcome := Done (emit (SysExit status) (emit DlDestroy s)).

Definition exit (status : Z) (s : exit_state) : outcome :=
  obind (call_cxx_tls_destructors s) (fun s => obind (run_exit_handlers s) (_Exit status)).

Definition quick_exit (status : Z) (s : exit_state) : outcome :=
  if quick_locked s then Deadlock
  else obind (run_blocks (QUICK_BLOCKS s) (with_quick (QUICK_BLOCKS s) true s))
         (fun s => _Exit status (with_quick [[]] false s)).
End Calls.

Definition initial : exit_state :=
  {| BLOCKS := [[]]; QUICK_BLOCKS := [[]]; blocks_locked := false; quick_locked := false; DESTRUCTOR_LIST := []; trace := [] |}.

(** ** The order of the calls *)

(** The handlers in the order of registration. *)
Definition handlers (blocks : list AtExitBlock) : list AtExit := concat (rev blocks).

Lemma handlers_add h blocks : handlers (add_handler h blocks) = handlers blocks ++ [h].
Proof.
  unfold handlers. destruct blocks as [| b r]; [reflexivity |]. unfold add_handler.
  destruct (length b =? 8)%nat; cbn [rev]; rewrite !concat_app; simpl; by rewrite ?app_nil_r, ?app_assoc.
Qed.

Lemma blocks_full h blocks : Forall (fun b => (length b <= 8)%nat) blocks -> Forall (fun b => (length b <= 8)%nat) (add_handler h blocks).
Proof.
  intros F. destruct F as [| b r Hb F]; [by repeat constructor |]. unfold add_handler.
  destruct (Nat.eqb_spec (length b) 8); constructor; auto; [simpl; lia | rewrite length_app; simpl; lia].
Qed.

(** What a handler list leads to: the ones that are not null. *)
Definition handler_events (l : list AtExit) : list event :=
  map (fun h => Handler (fn h) (arg h)) (filter (fun h => fn h <> 0) l).

Definition destructor_events (l : list (Z * Z)) : list event := map (fun d => Destructor d.1 d.2) l.

Lemma handler_events_app l k : handler_events (l ++ k) = handler_events l ++ handler_events k.
Proof. unfold handler_events. by rewrite list.filter_app, map_app. Qed.

Lemma handler_events_cons h l :
  handler_events (h :: l) = (if fn h =? 0 then [] else [Handler (fn h) (arg h)]) ++ handler_events l.
Proof.
  unfold handler_events. rewrite filter_cons. destruct (Z.eqb_spec (fn h) 0), (decide (fn h <> 0)); tauto || reflexivity.
Qed.

Section Quiet.
(** Functions that register nothing. *)
Context (body : Z -> Z -> list registration) (quiet : forall f a, body f a = []).

Definition traced (s : exit_state) (l : list event) : exit_state :=
  {| BLOCKS := BLOCKS s; QUICK_BLOCKS := QUICK_BLOCKS s; blocks_locked := blocks_locked s; quick_locked := quick_locked s;
     DESTRUCTOR_LIST := DESTRUCTOR_LIST s; trace := trace s ++ l |}.

Lemma traced_nil s : traced s [] = s.
Proof. destruct s. unfold traced. simpl. by rewrite app_nil_r. Qed.

Lemma traced_app s l k : traced (traced s l) k = traced s (l ++ k).
Proof. unfold traced. simpl. by rewrite app_assoc. Qed.

Lemma run_block_ok l : forall s, run_block body l s = Done (traced s (handler_events l)).
Proof using quiet.
  induction l as [| h l IH]; intros s; [by rewrite traced_nil |]. cbn [run_block].
  rewrite handler_events_cons, <- traced_app. destruct (fn h =? 0).
  - by rewrite traced_nil, IH.
  - unfold call. rewrite quiet. cbn [register_all obind]. by rewrite IH.
Qed.

Lemma run_blocks_ok l : forall s, run_blocks body l s = Done (traced s (handler_events (rev (handlers l)))).
Proof using quiet.
  induction l as [| b l IH]; intros s; [by rewrite traced_nil |]. cbn [run_blocks]. rewrite run_block_ok. cbn [obind].
  rewrite IH, traced_app, <- handler_events_app. do 3 f_equal. unfold handlers. cbn [rev]. rewrite concat_app, rev_app_distr.
  simpl. by rewrite app_nil_r.
Qed.

Lemma run_destructors_ok l : forall s, run_destructors body l s = Done (traced s (destructor_events l)).
Proof using quiet.
  induction l as [| [f o] l IH]; intros s; [by rewrite traced_nil |]. cbn [run_destructors]. unfold call. rewrite quiet.
  cbn [register_all obind]. rewrite IH. unfold destructor_events, traced, emit. simpl. by rewrite <- app_assoc.
Qed.

(** [exit] and [quick_exit] from a state where no lock is held. *)
Lemma exit_ok status s : blocks_locked s = false ->
  exists s', exit body status s = Done s' /\ BLOCKS s' = [[]] /\ DESTRUCTOR_LIST s' = [] /\
    trace s' = trace s ++ destructor_events (rev (DESTRUCTOR_LIST s)) ++ handler_events (rev (handlers (BLOCKS s))) ++ [DlDestroy; SysExit status].
Proof using quiet.
  intros L. unfold exit, call_cxx_tls_destructors. rewrite run_destructors_ok. cbn [obind]. unfold run_exit_handlers.
  cbn [with_destructors traced blocks_locked]. rewrite L, run_blocks_ok. cbn. eexists. split_and!; [reflexivity .. |].
  simpl. by rewrite <- !app_assoc.
Qed.

Lemma quick_exit_ok status s : quick_locked s = false ->
  exists s', quick_exit body status s = Done s' /\ QUICK_BLOCKS s' = [[]] /\
    trace s' = trace s ++ handler_events (rev (handlers (QUICK_BLOCKS s))) ++ [DlDestroy; SysExit status].
Proof using quiet.
  intros L. unfold quick_exit. rewrite L, run_blocks_ok. cbn. eexists. split_and!; [reflexivity .. |].
  simpl. by rewrite <- !app_assoc.
Qed.
End Quiet.

(** The handlers and destructors of a list of registrations. *)
Definition exit_handlers (l : list registration) : list AtExit :=
  omap (fun r => match r with RegAtExit f a d => Some {| fn := f; arg := a; dso_handle := d |} | _ => None end) l.
Definition quick_handlers (l : list registration) : list AtExit :=
  omap (fun r => match r with RegQuick f => Some {| fn := f; arg := 0; dso_handle := 0 |} | _ => None end) l.
Definition destructors (l : list registration) : list (Z * Z) :=
  omap (fun r => match r with RegThread f o => Some (f, o) | _ => None end) l.

Definition unlocked (s : exit_state) : Prop := blocks_locked s = false /\ quick_locked s = false.

Lemma register_all_ok l : forall s, unlocked s -> exists s', register_all l s = Done s' /\ unlocked s' /\ trace s' = trace s /\
  handlers (BLOCKS s') = handlers (BLOCKS s) ++ exit_handlers l /\
  handlers (QUICK_BLOCKS s') = handlers (QUICK_BLOCKS s) ++ quick_handlers l /\
  DESTRUCTOR_LIST s' = DESTRUCTOR_LIST s ++ destructors l.
Proof.
  induction l as [| r l IH]; intros s U; [exists s; rewrite !app_nil_r; by split_and! |].
  assert (G : exists s1, register r s = Done s1 /\ unlocked s1 /\ trace s1 = trace s /\
    handlers (BLOCKS s1) = handlers (BLOCKS s) ++ exit_handlers [r] /\
    handlers (QUICK_BLOCKS s1) = handlers (QUICK_BLOCKS s) ++ quick_handlers [r] /\
    DESTRUCTOR_LIST s1 = DESTRUCTOR_LIST s ++ destructors [r]).
  { destruct U as [U1 U2]. destruct r as [f a d | f | f o]; cbn [register]; unfold __cxa_atexit, at_quick_exit, __cxa_thread_atexit_impl;
      rewrite ?U1, ?U2; eexists; (split; [reflexivity |]); cbn; rewrite ?app_nil_r, ?handlers_add; split_and!; try split; auto; apply handlers_add. }
  destruct G as (s1 & E1 & U1 & T1 & B1 & Q1 & D1). destruct (IH s1 U1) as (s2 & E2 & U2 & T2 & B2 & Q2 & D2).
  exists s2. cbn [register_all]. rewrite E1. cbn [obind]. rewrite E2, T2, T1, B2, B1, Q2, Q1, D2, D1, <- !app_assoc.
  split_and!; auto; by destruct r.
Qed.

(** Handlers run once, in the reverse order of their registration, whatever their number
    and the blocks they are in: for any registrations made after the start, [exit] runs the
    destructors of thread-local objects, then the handlers of [atexit], then leaves the
    linker and the process; [quick_exit] runs the handlers of [at_quick_exit] only. *)
Theorem exit_runs_handlers_in_reverse body status l : (forall f a, body f a = []) ->
  exists s, register_all l initial = Done s /\
    (exists s', exit body status s = Done s' /\ trace s' =
       destructor_events (rev (destructors l)) ++ handler_events (rev (exit_handlers l)) ++ [DlDestroy; SysExit status]) /\
    (exists s', quick_exit body status s = Done s' /\ trace s' =
       handler_events (rev (quick_handlers l)) ++ [DlDestroy; SysExit status]).
Proof.
  intros Q. destruct (register_all_ok l initial ltac:(by split)) as (s & E & [U1 U2] & T & B & Qk & D). exists s. split; [exact E |].
  destruct (exit_ok body Q status s U1) as (s1 & E1 & _ & _ & T1). destruct (quick_exit_ok body Q status s U2) as (s2 & E2 & _ & T2).
  split; [exists s1 | exists s2]; (split; [assumption |]).
  - by rewrite T1, T, B, D.
  - by rewrite T2, T, Qk.
Qed.

(** The blocks never overflow. *)
Lemma register_blocks_full r s s' : Forall (fun b => (length b <= 8)%nat) (BLOCKS s) -> register r s = Done s' ->
  Forall (fun b => (length b <= 8)%nat) (BLOCKS s').
Proof.
  intros F. destruct r as [f a d | f | f o]; cbn [register]; unfold __cxa_atexit, at_quick_exit, __cxa_thread_atexit_impl.
  - destruct (blocks_locked s); intros [= <-]. by apply blocks_full.
  - destruct (quick_locked s); intros [= <-]. exact F.
  - intros [= <-]. exact F.
Qed.

(** ** Findings *)

(** A handler that registers another one, which the standard allows, hangs: the lock is
    held. *)
Theorem atexit_in_handler_hangs :
  obind (atexit 1 initial) (exit (fun f _ => if f =? 1 then [RegAtExit 2 0 0] else []) 0) = Deadlock.
Proof. by_vm. Qed.

(** A destructor that is registered while the destructors run is dropped. *)
Theorem destructor_in_destructor_dropped :
  match obind (__cxa_thread_atexit_impl 1 0 initial) (exit (fun f _ => if f =? 1 then [RegThread 2 0] else []) 0) with
  | Done s => trace s = [Destructor 1 0; DlDestroy; SysExit 0]
  | Deadlock => False
  end.
Proof. by_vm. Qed.
