(* ===== verification/Inet.v ===== *)
(** * Internet addresses

    [src/src/posix/net_utils.cpp] and [src/src/posix/inet.cpp].  The support library's
    [string_view] and [to_integer] are parameters, with what the code relies on as laws:
    [find] gives the first position from an offset on, [substr_abs] the characters from
    one position to another, [to_integer] the value of a number of its type that is
    written with the digits of the base, and the characters it used.  [inet_ntop] prints
    with the [snprintf] of [Printf].  An address in network order is the number or the
    half words the machine reads from it (little endian). *)

From stdpp Require Import base list option.
From S2P Require Import Prelude Ctype StrToInt PrintfFloat Printf PrintfFacts.

#[local] Open Scope Z_scope.

Class StringView := {
  sv_find : list Z -> Z -> nat -> option nat;
  sv_find_str : list Z -> list Z -> option nat;
  sv_count : list Z -> Z -> Z;
  sv_substr_abs : list Z -> nat -> option nat -> list Z;
  sv_find_law s c off : sv_find s c off = (x ← list_find (fun d => d = c) (drop off s); Some (off + x.1)%nat);
  sv_substr_law s a e : sv_substr_abs s a e = match e with Some e => take (e - a) (drop a s) | None => drop a s end;
}.

(** [hz::to_integer<T>(str, base, &count)] for an unsigned [T] of [w] bits. *)
Class ParseInt := {
  to_int : Z -> Z -> list Z -> Z * Z;
  to_int_range w base s : 0 <= w -> 0 <= (to_int w base s).1 <= umax w;
  to_int_law w base v ds : 2 <= base <= 16 -> digits_of base v ds -> 0 <= v <= umax w -> to_int w base ds = (v, zlen ds);
}.

Section Addresses.
Context `{StringView} `{ParseInt}.

(** ** Parsing *)

(** A whole segment is a number: [count != segment.size() || !count] fails. *)
Definition segment_value (w base : Z) (segment : list Z) : option Z :=
  let '(num, count) := to_int w base segment in
  if negb (count =? zlen segment) || (count =? 0) then None else Some num.

(** [num << (i * 8)].  A shift by 32 or more, for a fifth number, is undefined in the
    source; here the count is masked, as the machine does it.  Whatever such a shift
    gives, the address it goes into is never returned: [i] is then past 4, and the
    loops return an address only when [i] is 4. *)
Definition octet (num : Z) (i : Z) : Z := u32 (Z.shiftl num ((i * 8) mod 32)).

Fixpoint ipv4_loop (n : nat) (ip : list Z) (offset : nat) (addr i : Z) : option (option Z) :=
  match n with
  | O => None
  | S n =>
    let segment_end := sv_find ip 46 offset in
    let segment := sv_substr_abs ip offset segment_end in
    match segment_value 8 10 segment with
    | None => Some None
    | Some num =>
      let addr := Z.lor addr (octet num i) in
      let i := i + 1 in
      match segment_end with
      | None => if i =? 4 then Some (Some addr) else Some None
      | Some e => ipv4_loop n ip (e + 1) addr i
      end
    end
  end.

(** The outer [None] is exhausted fuel. *)
Definition parse_ipv4 (ip : list Z) : option (option Z) := ipv4_loop (S (length ip)) ip 0 0 0.

Record ipv6_state := { offset6 : nat; addr6 : list Z; i6 : Z }.

(** [addr.s6_addr16[i] = num]: [None] out of range. *)
Definition store16 (addr : list Z) (i num : Z) : option (list Z) :=
  if (i <? 0) || (8 <=? i) then None else Some (<[Z.to_nat i := num]> addr).

Fixpoint ipv6_loop (n : nat) (ip : list Z) (compressed_pos : option nat) (zeros : Z) (offset : nat) (addr : list Z) (i : Z)
  : option (option (list Z)) :=
  match n with
  | O => None
  | S n =>
    if bool_decide (compressed_pos = Some offset) then
      let i := i + zeros in
      if i =? 8 then Some (Some addr) else ipv6_loop n ip compressed_pos zeros (offset + 2) addr i
    else
      let segment_end := sv_find ip 58 offset in
      let segment := sv_substr_abs ip offset segment_end in
      match segment_value 16 16 segment with
      | None => Some None
      | Some num =>
        addr ← store16 addr i num;
        let i := i + 1 in
        match segment_end with
        | None => if negb (i =? 8) then Some None else Some (Some addr)
        | Some e =>
          if i =? 8 then Some None
          else ipv6_loop n ip compressed_pos zeros (if bool_decide (compressed_pos = Some e) then e else e + 1) addr i
        end
      end
  end.

Definition parse_ipv6 (ip : list Z) : option (option (list Z)) :=
  match sv_find_str ip [58; 58] with
  | None => ipv6_loop (S (length ip)) ip None 0 0 (replicate 8 0) 0
  | Some compressed_pos =>
    let segments := sv_count ip 58 - 1 in
    if 7 <? segments then Some None
    else
      let segments := if negb (bool_decide (compressed_pos = 0%nat)) && negb (Z.of_nat compressed_pos =? zlen ip - 2)
                      then segments + 1 else segments in
      ipv6_loop (S (length ip)) ip (Some compressed_pos) (8 - segments) 0 (replicate 8 0) 0
  end.

(** [inet_aton]: 0, or 1 with the address. *)
Fixpoint aton_loop (n : nat) (ip : list Z) (offset : nat) (addr i : Z) : option (option Z) :=
  match n with
  | O => None
  | S n =>
    let segment_end := sv_find ip 46 offset in
    let segment := sv_substr_abs ip offset segment_end in
    let next :=
      match segment_value 8 10 segment with
      | None => Some None
      | Some num =>
        let addr := Z.lor addr (octet num i) in
        let i := i + 1 in
        match segment_end with
        | None => if i =? 4 then Some (Some addr) else Some None
        | Some e => aton_loop n ip (e + 1) addr i
        end
      end in
    let last k :=
      match segment_value 32 0 segment with None => Some None | Some num => k num end in
    match segment_end with
    | None =>
      if i =? 0 then last (fun num => Some (Some num))
      else if i =? 1 then last (fun num =>
        if negb (Z.land num (Z.lnot 0xFFFFFF) =? 0) then Some None
        else Some (Some (Z.lor (Z.lor (Z.lor addr (Z.shiftl (Z.land num 0xFF) 8)) (Z.shiftl (Z.land (Z.shiftr num 8) 0xFF) 16))
                           (Z.shiftl (Z.land (Z.shiftr num 16) 0xFF) 24))))
      else if i =? 2 then last (fun num =>
        if 0xFFFF <? num then Some None
        else Some (Some (Z.lor (Z.lor addr (Z.shiftl (Z.land num 0xFF) 16)) (Z.shiftl (Z.shiftr num 8) 24))))
      else next
    | Some _ => next
    end
  end.

Definition inet_aton (str : list Z) : option (option Z) := aton_loop (S (length str)) str 0 0 0.

Definition inet_addr (str : list Z) : option Z :=
  x ← parse_ipv4 str; match x with Some a => Some a | None => Some (umax 32) end.

(** ** Printing *)

Definition AF_INET : Z := 2.
Definition AF_INET6 : Z := 10.
Definition INET_ADDRSTRLEN : Z := 16.
Definition INET6_ADDRSTRLEN : Z := 46.
Definition ENOSPC : Z := 28.
Definition EAFNOSUPPORT : Z := 97.

(** An address: a word, or eight half words. *)
Inductive address := V4 (s_addr : Z) | V6 (s6_addr16 : list Z).

(** The pointer returned, counted from [dest], and the characters at [dest]; a null
    pointer with [errno]; a failed assertion. *)
Inductive ntop_result := NtopRet (offset : Z) (buffer : list Z) | NtopErr (errno : Z) | NtopPanic.

Context `{ToInteger} (to_ne_from_be16 : Z -> Z).

Definition fmt_dotted : list Z := [37; 100; 46; 37; 100; 46; 37; 100; 46; 37; 100].

Definition ntop4 (value size : Z) : ntop_result :=
  if size <? INET_ADDRSTRLEN then NtopErr ENOSPC
  else
    match snprintf (S (length fmt_dotted)) size fmt_dotted 0
            [AInt (Z.land value 0xFF); AInt (Z.land (Z.shiftr value 8) 0xFF); AInt (Z.land (Z.shiftr value 16) 0xFF);
             AInt (Z.shiftr value 24)] with
    | SnRet ret _ _ buffer => if ret =? -1 then NtopPanic else NtopRet 0 buffer
    | _ => NtopPanic
    end.

(** The zero half words at the front. *)
Fixpoint zero_count (l : list Z) : nat := match l with x :: r => if x =? 0 then S (zero_count r) else O | [] => O end.

(** One [snprintf] at [dest], which moves behind the text; [acc] is the text before it. *)
Definition print_at (acc : list Z) (size : Z) (fmt : list Z) (ap : list arg) : option (list Z * Z) :=
  match snprintf (S (length fmt)) size fmt 0 ap with
  | SnRet count _ _ buffer => Some (acc ++ take (Z.to_nat count) buffer, size - count)
  | _ => None
  end.

Fixpoint print_words (l : list Z) (first : bool) (acc : list Z) (size : Z) : option (list Z) :=
  match l with
  | [] => Some acc
  | x :: r =>
    '(acc, size) ← print_at acc size (if first then [37; 120] else [58; 37; 120]) [AInt (to_ne_from_be16 x)];
    print_words r false acc size
  end.

Definition ntop6 (words : list Z) (size : Z) : ntop_result :=
  if size <? INET6_ADDRSTRLEN then NtopErr ENOSPC
  else
    let zeros := zero_count words in
    let start := if (zeros =? 0)%nat then Some ([], size) else print_at [] size [58; 58] [] in
    match ('(acc, size) ← start; print_words (drop zeros words) true acc size) with
    | Some text => NtopRet (zlen text) (text ++ [0])
    | None => NtopPanic
    end.

Definition inet_ntop (af : Z) (src : address) (size : Z) : ntop_result :=
  match src with
  | V4 value => if af =? AF_INET then ntop4 value size else NtopErr EAFNOSUPPORT
  | V6 words => if af =? AF_INET6 then ntop6 words size else NtopErr EAFNOSUPPORT
  end.

(** The returned value and, when it is 1, the address stored. *)
Definition inet_pton (af : Z) (src : list Z) : option (Z * option address) :=
  if af =? AF_INET then
    x ← parse_ipv4 src; match x with Some a => Some (1, Some (V4 a)) | None => Some (0, None) end
  else if af =? AF_INET6 then
    x ← parse_ipv6 src; match x with Some a => Some (1, Some (V6 a)) | None => Some (0, None) end
  else Some (-1, None).

Definition inet_ntoa (addr : Z) : ntop_result := inet_ntop AF_INET (V4 addr) INET_ADDRSTRLEN.
End Addresses.

(** ** Dotted quads *)

(** The segments between the dots. *)
Fixpoint split_dots (s : list Z) : list (list Z) :=
  match s with
  | [] => [[]]
  | c :: r => if c =? 46 then [] :: split_dots r
              else match split_dots r with seg :: segs => (c :: seg) :: segs | [] => [[c]] end
  end.

Lemma split_dots_find s :
  match list_find (fun d => d = 46) s with
  | None => split_dots s = [s]
  | Some (j, _) => split_dots s = take j s :: split_dots (drop (S j) s) /\ (j < length s)%nat
  end.
Proof.
  induction s as [| c r IH]; [reflexivity |]. cbn [split_dots list_find]. destruct (Z.eqb_spec c 46) as [-> | N].
  - rewrite decide_True by reflexivity. split; [reflexivity | simpl; lia].
  - rewrite decide_False by exact N. destruct (list_find (fun d => d = 46) r) as [[j x] |]; cbn [fmap option_fmap option_map prod_map].
    + destruct IH as [-> L]. split; [reflexivity | simpl; lia].
    + by rewrite IH.
Qed.

Definition pack4 (l : list Z) : option Z :=
  match l with [a; b; c; d] => Some (a + 2 ^ 8 * b + 2 ^ 16 * c + 2 ^ 24 * d) | _ => None end.

Section Dotted.
Context `{StringView} `{ParseInt}.

(** What the loop computes, on the segments. *)
Fixpoint segments_value (segs : list (list Z)) (addr i : Z) : option Z :=
  match segs with
  | [] => None
  | s :: r =>
    num ← segment_value 8 10 s;
    let addr := Z.lor addr (octet num i) in
    match r with [] => if i + 1 =? 4 then Some addr else None | _ => segments_value r addr (i + 1) end
  end.

Lemma split_dots_nonempty s : split_dots s <> [].
Proof. destruct s as [| c r]; [discriminate |]. cbn. destruct (c =? 46); [discriminate |]. by destruct (split_dots r). Qed.

Lemma ipv4_loop_ok ip : forall n offset addr i, (length (drop offset ip) < n)%nat ->
  ipv4_loop n ip offset addr i = Some (segments_value (split_dots (drop offset ip)) addr i).
Proof.
  induction n as [| n IH]; intros offset addr i L; [lia |]. cbn [ipv4_loop].
  rewrite sv_substr_law, sv_find_law. pose proof (split_dots_find (drop offset ip)) as S.
  destruct (list_find (fun d => d = 46) (drop offset ip)) as [[j x] |]; cbn [mbind option_bind fst].
  - destruct S as [-> Lj]. cbn [segments_value]. replace (offset + j - offset)%nat with j by lia.
    destruct (segment_value 8 10 (take j (drop offset ip))) as [num |]; [| reflexivity]. cbn [mbind option_bind].
    rewrite drop_drop. replace (offset + S j)%nat with (offset + j + 1)%nat by lia.
    rewrite IH by (rewrite length_drop in *; lia).
    destruct (split_dots (drop (offset + j + 1) ip)) eqn:E; [by apply split_dots_nonempty in E | reflexivity].
  - rewrite S. cbn [segments_value]. destruct (segment_value 8 10 (drop offset ip)); reflexivity || (cbn; by destruct (i + 1 =? 4)).
Qed.

Lemma segments_long segs : forall addr i, 4 <= i -> segments_value segs addr i = None.
Proof.
  induction segs as [| s r IH]; intros addr i Hi; [reflexivity |]. cbn [segments_value].
  destruct (segment_value 8 10 s); [| reflexivity]. cbn [mbind option_bind].
  destruct r; [destruct (Z.eqb_spec (i + 1) 4); [lia | reflexivity] | apply IH; lia].
Qed.

Lemma segment_range w base s v : 0 <= w -> segment_value w base s = Some v -> 0 <= v <= umax w.
Proof.
  intros Hw. unfold segment_value. pose proof (to_int_range w base s Hw) as R. destruct (to_int w base s) as [num count]. cbn [fst] in R.
  destruct (negb _ || _); [discriminate |]. by intros [= <-].
Qed.

Lemma octet_add addr num i : 0 <= i < 4 -> 0 <= num <= umax 8 -> 0 <= addr < 2 ^ (8 * i) ->
  Z.lor addr (octet num i) = addr + num * 2 ^ (8 * i) /\ 0 <= addr + num * 2 ^ (8 * i) < 2 ^ (8 * (i + 1)).
Proof.
  intros Hi Hn Ha. unfold umax in Hn. assert (P : 2 ^ (8 * (i + 1)) = 2 ^ (8 * i) * 256) by (rewrite Z.mul_add_distr_l, Z.pow_add_r by lia; reflexivity).
  assert (B : 0 <= addr + num * 2 ^ (8 * i) < 2 ^ (8 * (i + 1))) by (rewrite P; nia). split; [| exact B].
  unfold octet. rewrite Z.mod_small by lia. rewrite wrapu_small.
  - rewrite (Z.mul_comm i 8). apply lor_fields; lia.
  - unfold is_u. rewrite Z.shiftl_mul_pow2, (Z.mul_comm i 8) by lia.
    assert (2 ^ (8 * (i + 1)) <= 2 ^ 32) by (apply Z.pow_le_mono_r; lia). lia.
Qed.

(** [parse_ipv4] terminates on every string, and accepts exactly the strings of four
    numbers below 256 with dots between them; the first number is the lowest byte. *)
Theorem parse_ipv4_correct ip :
  parse_ipv4 ip = Some (vs ← mapM (segment_value 8 10) (split_dots ip); pack4 vs).
Proof.
  unfold parse_ipv4. rewrite ipv4_loop_ok by (rewrite drop_0; lia). rewrite drop_0. f_equal.
  destruct (split_dots ip) as [| s1 r]; [reflexivity |]. cbn [segments_value mapM].
  destruct (segment_value 8 10 s1) as [a |] eqn:E1; [| reflexivity]. apply segment_range in E1; [| lia]. cbn [mbind option_bind].
  destruct (octet_add 0 a 0 ltac:(lia) E1 ltac:(simpl; lia)) as [-> B1]. cbn [mbind option_bind].
  destruct r as [| s2 r]; [reflexivity |]. cbn [segments_value mapM].
  destruct (segment_value 8 10 s2) as [b |] eqn:E2; [| reflexivity]. apply segment_range in E2; [| lia]. cbn [mbind option_bind].
  destruct (octet_add _ b (0 + 1) ltac:(lia) E2 B1) as [-> B2]. cbn [mbind option_bind].
  destruct r as [| s3 r]; [reflexivity |]. cbn [segments_value mapM].
  destruct (segment_value 8 10 s3) as [c |] eqn:E3; [| reflexivity]. apply segment_range in E3; [| lia]. cbn [mbind option_bind].
  destruct (octet_add _ c (0 + 1 + 1) ltac:(lia) E3 B2) as [-> B3]. cbn [mbind option_bind].
  destruct r as [| s4 r]; [reflexivity |]. cbn [segments_value mapM].
  destruct (segment_value 8 10 s4) as [d |] eqn:E4; [| reflexivity]. apply segment_range in E4; [| lia]. cbn [mbind option_bind].
  destruct (octet_add _ d (0 + 1 + 1 + 1) ltac:(lia) E4 B3) as [-> B4]. cbn [mbind option_bind].
  destruct r as [| s5 r]; [cbn; f_equal; lia |]. rewrite segments_long by lia.
  cbn [mapM]. destruct (segment_value 8 10 s5); [| reflexivity]. cbn [mbind option_bind]. by destruct (mapM _ r).
Qed.
End Dotted.

(** ** Printing a dotted quad and reading it back *)

(** The decimal digits. *)
Definition dec (v : Z) : list Z := default [] (int_digits 64 false 10 v).

Lemma dec_ok v : 0 <= v < 2 ^ 16 -> int_digits 64 false 10 v = Some (dec v) /\ digits_of 10 v (dec v) /\ zlen (dec v) <= 64.
Proof.
  intros Hv. assert (B : 2 ^ 16 < 10 ^ Z.of_nat 64) by reflexivity.
  destruct (int_digits_ok false 10 64 ltac:(lia) v ltac:(lia) ltac:(lia)) as (ds & E & D).
  unfold dec. rewrite E. cbn [from_option id]. split; [done |]. split; [exact D |]. apply int_digits_length in E. unfold zlen. lia.
Qed.

Section Print.
Context `{ToInteger}.

Lemma specification_plain_d rest (st : pstate text) :
  specification (100 :: rest) st = (conv_signed no_flags 0 false 0 false SNone ;~ pret rest)%printf st.
Proof. reflexivity. Qed.

(** A [%d] of a small number in a format. *)
Lemma loop_d n rest (t : text) w v ap : 0 <= v < 2 ^ 16 -> 0 <= w <= 1000 ->
  format_loop (S n) (37 :: 100 :: rest) (PState (Some t) w 0 1 [] (AInt v :: ap)) =
  format_loop n rest (PState (Some (t ++ dec v)) (w + zlen (dec v)) 0 1 [] ap).
Proof.
  intros Hv Hw. destruct (dec_ok v Hv) as (E & D & L).
  assert (W : writes (write_int v 10 (plain false)) (dec v)).
  { pose proof (plain_text false (dec v) (digits_nonempty _ _ _ D)) as T. cbn [app] in T. rewrite <- T. apply write_int_text.
    - auto.
    - change (precision (plain false) =? 0) with false. rewrite andb_false_r. exact E.
    - change (Z.max (zlen (dec v)) 1 + 0 + 0 <= INT_MAX). unfold INT_MAX, smax. lia. }
  cbn [format_loop literal Z.eqb Pos.eqb percents length Nat.add Nat.eqb]. unfold pbind at 1. rewrite specification_plain_d.
  unfold conv_signed, pop_signed_int, va_int, va_arg, pbind, pret. cbn [args].
  rewrite wraps_small by (unfold is_s, smin, smax; lia). destruct (Z.eqb_spec v (smin 64)) as [Em | _]; [unfold smin in Em; lia |].
  destruct (Z.ltb_spec v 0); [lia |]. rewrite Z.abs_eq by lia. change (int_opts no_flags 0 false 0 false false false false) with (plain false).
  rewrite W; [reflexivity |]. unfold fits. cbn [sink written]. split; [discriminate |]. unfold INT_MAX, smax. lia.
Qed.

(** Literal text. *)
Lemma loop_dot n rest (t : text) w ap : 0 <= w <= 1000 ->
  format_loop (S n) (46 :: 37 :: 100 :: rest) (PState (Some t) w 0 1 [] ap) =
  format_loop n (37 :: 100 :: rest) (PState (Some (t ++ [46])) (w + 1) 0 1 [] ap).
Proof.
  intros Hw. cbn [format_loop literal Z.eqb Pos.eqb percents length Nat.add Nat.eqb take]. unfold pbind at 1.
  rewrite writes_write; [reflexivity |]. unfold fits. cbn [sink written]. split; [discriminate |]. unfold INT_MAX, smax, zlen. simpl. lia.
Qed.

Definition dotted (a b c d : Z) : list Z := dec a ++ [46] ++ dec b ++ [46] ++ dec c ++ [46] ++ dec d.

(** The run of the whole format. *)
Lemma run_dotted a b c d : 0 <= a < 256 -> 0 <= b < 256 -> 0 <= c < 256 -> 0 <= d < 256 ->
  vfprintf (S (length fmt_dotted)) fmt_dotted (initial (Some ([] : text)) 0 [AInt a; AInt b; AInt c; AInt d]) =
    POk (zlen (dotted a b c d)) (PState (Some (dotted a b c d)) (zlen (dotted a b c d)) 0 0 [] []).
Proof.
  intros Ha Hb Hc Hd. unfold vfprintf, pbind at 1, lock_by, initial. cbn [sink written perrno held stores args].
  unfold fmt_dotted. cbn [length]. change (0 + 1) with 1.
  assert (L : forall v, 0 <= v < 256 -> 0 <= zlen (dec v) <= 64).
  { intros v Hv. destruct (dec_ok v ltac:(lia)) as (_ & _ & B). pose proof (zlen_nonneg (dec v)). lia. }
  pose proof (L a Ha). pose proof (L b Hb). pose proof (L c Hc). pose proof (L d Hd).
  rewrite loop_d, loop_dot, loop_d, loop_dot, loop_d, loop_dot, loop_d by lia.
  cbn [format_loop literal percents length Nat.add Nat.eqb]. unfold pbind, lock_by, get_state, pret.
  cbn [sink written perrno held stores args]. change (1 + -1) with 0.
  assert (Et : (((((((([] : text) ++ dec a) ++ [46]) ++ dec b) ++ [46]) ++ dec c) ++ [46]) ++ dec d) = dotted a b c d)
    by (unfold dotted; by rewrite <- !app_assoc).
  assert (El : 0 + zlen (dec a) + 1 + zlen (dec b) + 1 + zlen (dec c) + 1 + zlen (dec d) = zlen (dotted a b c d))
    by (unfold dotted; rewrite !zlen_app; unfold zlen; simpl; lia).
  rewrite Et, El. rewrite wraps_small; [reflexivity | lia |]. unfold is_s, smin, smax. rewrite <- El. lia.
Qed.

(** At most three digits. *)
Lemma dec_short v : 0 <= v < 256 -> zlen (dec v) <= 3.
Proof.
  intros Hv. assert (C : check_range 0 256 (fun v => zlen (dec v) <=? 3) = true) by by_vm.
  apply Z.leb_le. exact (range_check 0 256 _ C v ltac:(lia)).
Qed.

Lemma snprintf_dotted size a b c d : 16 <= size -> 0 <= a < 256 -> 0 <= b < 256 -> 0 <= c < 256 -> 0 <= d < 256 ->
  snprintf (S (length fmt_dotted)) size fmt_dotted 0 [AInt a; AInt b; AInt c; AInt d] =
    SnRet (zlen (dotted a b c d)) 0 [] (dotted a b c d ++ [0]) /\ zlen (dotted a b c d) <= 15.
Proof.
  intros Hs Ha Hb Hc Hd.
  assert (L : zlen (dotted a b c d) <= 15).
  { unfold dotted. rewrite !zlen_app. pose proof (dec_short a Ha). pose proof (dec_short b Hb). pose proof (dec_short c Hc).
    pose proof (dec_short d Hd). change (zlen [46]) with 1. lia. }
  split; [| exact L]. unfold snprintf.
  destruct (vsnprintf_text (S (length fmt_dotted)) size fmt_dotted 0 [AInt a; AInt b; AInt c; AInt d] ltac:(lia))
    as [-> | (st & [Ef | [m Ef]] & N)]; rewrite run_dotted in * by assumption; try discriminate.
  - cbn [perrno stores sink default]. f_equal. unfold truncated. destruct (Z.eqb_spec size 0); [lia |].
    rewrite take_ge; [reflexivity |]. unfold zlen in L. unfold id. lia.
  - injection Ef as _ <-. discriminate.
Qed.
End Print.

(** Digits are not dots. *)
Lemma digits_no_dot v ds : digits_of 10 v ds -> 46 ∉ ds.
Proof.
  intros D I. pose proof (digits_good _ _ _ D) as G. rewrite List.Forall_forall in G.
  apply list_elem_of_In, G in I as (d & _ & Gd). pose proof (good_valid _ _ _ Gd) as V. vm_compute in V. discriminate.
Qed.

Lemma split_no_dot s : 46 ∉ s -> split_dots s = [s].
Proof.
  induction s as [| c r IH]; intros N; [reflexivity |]. apply not_elem_of_cons in N as [N1 N2]. cbn [split_dots].
  destruct (Z.eqb_spec c 46); [congruence |]. by rewrite IH.
Qed.

Lemma split_dot_app s r : 46 ∉ s -> split_dots (s ++ [46] ++ r) = s :: split_dots r.
Proof.
  induction s as [| c s IH]; intros N; [reflexivity |]. apply not_elem_of_cons in N as [N1 N2]. cbn [split_dots app].
  destruct (Z.eqb_spec c 46); [congruence |]. cbn [app] in IH. by rewrite IH.
Qed.

Section RoundTrip.
Context `{StringView} `{ParseInt}.

Lemma dec_segment v : 0 <= v < 256 -> segment_value 8 10 (dec v) = Some v.
Proof.
  intros Hv. destruct (dec_ok v ltac:(lia)) as (_ & D & _). unfold segment_value. rewrite (to_int_law 8 10 v); [| lia | exact D | unfold umax; lia].
  rewrite Z.eqb_refl. cbn [negb orb]. destruct (Z.eqb_spec (zlen (dec v)) 0) as [E | _]; [| reflexivity].
  destruct (digits_nonempty _ _ _ D). unfold zlen in E. by destruct (dec v).
Qed.

Lemma parse_dotted a b c d : 0 <= a < 256 -> 0 <= b < 256 -> 0 <= c < 256 -> 0 <= d < 256 ->
  parse_ipv4 (dotted a b c d) = Some (pack4 [a; b; c; d]).
Proof.
  intros Ha Hb Hc Hd. rewrite parse_ipv4_correct. unfold dotted.
  assert (N : forall v, 0 <= v < 256 -> 46 ∉ dec v) by (intros v Hv; destruct (dec_ok v ltac:(lia)) as (_ & D & _); by eapply digits_no_dot).
  rewrite !split_dot_app, split_no_dot by auto. cbn [mapM]. by rewrite !dec_segment by assumption.
Qed.
End RoundTrip.

(** The bytes of an address. *)
Lemma address_bytes a : is_u 32 a ->
  Z.land a 0xFF = a mod 256 /\ Z.land (Z.shiftr a 8) 0xFF = a / 2 ^ 8 mod 256 /\ Z.land (Z.shiftr a 16) 0xFF = a / 2 ^ 16 mod 256 /\
  Z.shiftr a 24 = a / 2 ^ 24 /\ 0 <= a / 2 ^ 24 < 256.
Proof.
  intros Ha. unfold is_u in Ha. rewrite !Z.shiftr_div_pow2 by lia. change 0xFF with (Z.ones 8). rewrite !Z.land_ones by lia.
  split_and!; try reflexivity; Z.to_euclidean_division_equations; lia.
Qed.

(** C16: IPv4 addresses survive the round trip through their text.  For every address and
    every buffer of at least [INET_ADDRSTRLEN] characters, [inet_ntop] returns the buffer
    with a terminated text of at most 15 characters, and [inet_pton], [inet_addr] and
    [parse_ipv4] give the same address back, with any support library that keeps its
    laws. *)
Theorem inet_ipv4_roundtrip `{StringView} `{ParseInt} `{ToInteger} (order : Z -> Z) a size :
  is_u 32 a -> INET_ADDRSTRLEN <= size ->
  exists text, inet_ntop order AF_INET (V4 a) size = NtopRet 0 (text ++ [0]) /\ zlen text <= 15 /\
    inet_pton AF_INET text = Some (1, Some (V4 a)) /\ inet_addr text = Some a.
Proof.
  intros Ha Hs. destruct (address_bytes a Ha) as (E0 & E1 & E2 & E3 & B3).
  pose proof (Z.mod_pos_bound a 256 ltac:(lia)) as B0. pose proof (Z.mod_pos_bound (a / 2 ^ 8) 256 ltac:(lia)) as B1.
  pose proof (Z.mod_pos_bound (a / 2 ^ 16) 256 ltac:(lia)) as B2.
  set (text := dotted (a mod 256) (a / 2 ^ 8 mod 256) (a / 2 ^ 16 mod 256) (a / 2 ^ 24)).
  destruct (snprintf_dotted size _ _ _ _ Hs B0 B1 B2 B3) as [P L].
  assert (R : parse_ipv4 text = Some (Some a)).
  { unfold text. rewrite parse_dotted by assumption. unfold pack4. do 2 f_equal. unfold is_u in Ha. Z.to_euclidean_division_equations. lia. }
  exists text. split_and!; [| exact L | |].
  - unfold inet_ntop. rewrite Z.eqb_refl. unfold ntop4. destruct (Z.ltb_spec size INET_ADDRSTRLEN); [lia |].
    rewrite E0, E1, E2, E3, P. fold text in L |- *. pose proof (zlen_nonneg text). destruct (Z.eqb_spec (zlen text) (-1)); [lia | reflexivity].
  - unfold inet_pton. rewrite Z.eqb_refl, R. reflexivity.
  - unfold inet_addr. by rewrite R.
Qed.

(** ** A concrete support library *)

Fixpoint find_pair (s p : list Z) (i : nat) : option nat :=
  match s with
  | [] => None
  | _ :: r => if bool_decide (take (length p) s = p) then Some i else find_pair r p (S i)
  end.

#[local] Instance lists : StringView := {|
  sv_find s c off := x ← list_find (fun d => d = c) (drop off s); Some (off + x.1)%nat;
  sv_find_str s p := find_pair s p 0;
  sv_count s c := zlen (filter (fun d => d = c) s);
  sv_substr_abs s a e := match e with Some e => take (e - a) (drop a s) | None => drop a s end;
  sv_find_law s c off := eq_refl;
  sv_substr_law s a e := eq_refl;
|}.

(** The digits at the front, saturating. *)
Definition read_number (w base : Z) (s : list Z) : Z * Z :=
  let ds := fst (span_digits char_type base s) in
  (Z.max 0 (Z.min (digits_value char_type base ds 0) (umax w)), zlen ds).

Lemma span_good base ds : Forall (fun c => exists d, 0 <= d < base /\ good_digit base c d) ds -> span_digits char_type base ds = (ds, []).
Proof.
  induction 1 as [| c l (d & _ & G) _ IH]; [reflexivity |]. cbn [span_digits]. rewrite (good_valid _ _ _ G). by rewrite IH.
Qed.

#[local] Instance numbers : ParseInt.
Proof.
  refine {| to_int := read_number |}.
  - intros w base s Hw. unfold read_number. cbn [fst]. unfold umax. pose proof (Z.pow_pos_nonneg 2 w ltac:(lia) Hw). lia.
  - intros w base v ds Hb D Hv. unfold read_number. rewrite span_good by apply D. cbn [fst]. rewrite (digits_sum _ _ _ D). f_equal. lia.
Defined.

#[local] Instance widths : ToInteger := fun s => read_number 31 10 s.

(** 127.0.0.1 in memory order. *)
Lemma inet_ipv4_roundtrip_witness :
  exists text, inet_ntop (fun x => x) AF_INET (V4 0x0100007F) 16 = NtopRet 0 (text ++ [0]) /\ zlen text <= 15 /\
    inet_pton AF_INET text = Some (1, Some (V4 0x0100007F)) /\ inet_addr text = Some 0x0100007F.
Proof. apply (inet_ipv4_roundtrip (fun x => x) 0x0100007F 16); [unfold is_u; lia | unfold INET_ADDRSTRLEN; lia]. Defined.

(** ** Findings *)

Definition bswap16 (x : Z) : Z := x / 256 + 256 * (x mod 256).

(** The address of all zeros, which [inet_ntop] writes as "::", is not accepted. *)
Theorem inet_pton_rejects_any : inet_pton AF_INET6 [58; 58] = Some (0, None).
Proof. by_vm. Qed.

(** [inet_pton] stores the numbers of an IPv6 address in the order of the machine:
    "2001:db8::1", read and printed again, has the bytes of each number swapped, and
    the pointer returned is behind the text. *)
Theorem inet_ipv6_byte_order :
  match inet_pton AF_INET6 [50; 48; 48; 49; 58; 100; 98; 56; 58; 58; 49] with
  | Some (1, Some addr) => inet_ntop bswap16 AF_INET6 addr 46 =
      NtopRet 22 [49; 50; 48; 58; 98; 56; 48; 100; 58; 48; 58; 48; 58; 48; 58; 48; 58; 48; 58; 49; 48; 48; 0]
  | _ => False
  end.
Proof. by_vm. Qed.

(** A lone number is not put into network order by [inet_aton]: "1" is 1.0.0.0. *)
Theorem inet_aton_single_number `{ParseInt} : to_int 32 0 [49] = (1, 1) -> inet_aton [49] = Some (Some 1).
Proof.
  intros E. unfold inet_aton. cbn [length aton_loop]. rewrite sv_substr_law, sv_find_law. cbn [drop list_find].
  rewrite decide_False by lia. cbn. unfold segment_value. by rewrite E.
Qed.
