(* ===== verification/Dns.v ===== *)
(** * DNS messages

    [src/src/internal/dns.cpp] and [src/src/internal/dns.hpp]: building a query, asking
    the name servers, reading names and answers; the parts of [src/src/posix/netdb.cpp]
    that use them.

    A message is the list of the bytes that can be read from [base] on; an access behind it
    is a fault.  [msg_end] is an index into it.  What the sockets do is a parameter. *)

From stdpp Require Import base list option.
From S2P Require Import Prelude Ctype StrToInt PrintfFloat Printf PrintfFacts Inet.

#[local] Open Scope Z_scope.

(** A failed assertion, an access out of range, fuel. *)
Inductive dres (A : Type) := DOk (a : A) | DPanic | DFault | DNoFuel.
Arguments DOk {A} a. Arguments DPanic {A}. Arguments DFault {A}. Arguments DNoFuel {A}.

#[global] Instance dres_ret : MRet dres := fun A a => DOk a.
#[global] Instance dres_bind : MBind dres := fun A B f x =>
  match x with DOk a => f a | DPanic => DPanic | DFault => DFault | DNoFuel => DNoFuel end.

Definition rd (msg : list Z) (i : nat) : dres Z := match msg !! i with Some b => DOk b | None => DFault end.

(** [hz::string_view {ptr, len}]. *)
Definition bytes_at (msg : list Z) (i len : nat) : dres (list Z) :=
  if decide (i + len <= length msg)%nat then DOk (take len (drop i msg)) else DFault.

(** The bytes read as [char]. *)
Definition schar (b : Z) : Z := wraps 8 b.

Definition is_pointer (len : Z) : bool := Z.land len 0xC0 =? 0xC0.

(** [uint8_t str_offset = (len & 0b111111) << 8 | *ptr++]: eight bits of fourteen. *)
Definition pointer_offset (len low : Z) : nat := Z.to_nat (u8 (Z.lor (Z.shiftl (Z.land len 0x3F) 8) low)).

(** ** [Ptr::parse_dns_name] *)

(** The labels at the target of a pointer, from [ptr2] on. *)
Fixpoint parse_target (n : nat) (msg : list Z) (ptr2 : nat) (name : list Z) : dres (list Z) :=
  match n with
  | O => DNoFuel
  | S n =>
    len2 ← rd msg ptr2;
    let ptr2 := S ptr2 in
    if is_pointer len2 then DPanic
    else if len2 =? 0 then DOk name
    else
      label ← bytes_at msg ptr2 (Z.to_nat len2);
      let ptr2 := (ptr2 + Z.to_nat len2)%nat in
      next ← rd msg ptr2;
      parse_target n msg ptr2 (name ++ label ++ (if negb (next =? 0) then [46] else []))
  end.

(** The name and the position behind it. *)
Fixpoint parse_name (n : nat) (msg : list Z) (ptr : nat) (name : list Z) : dres (list Z * nat) :=
  match n with
  | O => DNoFuel
  | S n =>
    len ← rd msg ptr;
    let ptr := S ptr in
    if is_pointer len then
      low ← rd msg ptr;
      name ← parse_target (S (length msg)) msg (pointer_offset len low) name;
      DOk (name, S ptr)
    else if len =? 0 then DOk (name, ptr)
    else
      label ← bytes_at msg ptr (Z.to_nat len);
      let ptr := (ptr + Z.to_nat len)%nat in
      next ← rd msg ptr;
      parse_name n msg ptr (name ++ label ++ (if negb (next =? 0) then [46] else []))
  end.

Definition parse_dns_name (msg : list Z) (ptr : nat) : dres (list Z * nat) := parse_name (S (length msg)) msg ptr [].

(** ** [Ptr::expand_dns_name] *)

Definition EMSGSIZE : Z := 90.
Definition EOVERFLOW : Z := 75.

(** What is written to [dest] so far and [dest_size], what is left of it. *)
Record dest := { d_out : list Z; d_size : Z }.

(** A label and the dot behind it: [inr] the error. *)
Definition put_label (label : list Z) (next : Z) (d : dest) : dest + Z :=
  if d_size d <? zlen label then inr EOVERFLOW
  else
    let d := {| d_out := d_out d ++ label; d_size := d_size d - zlen label |} in
    if negb (next =? 0) then
      if d_size d =? 0 then inr EOVERFLOW
      else inl {| d_out := d_out d ++ [46]; d_size := d_size d - 1 |}
    else inl d.

Fixpoint expand_target (n : nat) (msg : list Z) (msg_end ptr2 : nat) (d : dest) : dres (dest + Z) :=
  match n with
  | O => DNoFuel
  | S n =>
    if (msg_end <=? ptr2)%nat then DOk (inr EMSGSIZE)
    else
      len2 ← rd msg ptr2;
      let ptr2 := S ptr2 in
      if is_pointer len2 then DPanic
      else if len2 =? 0 then DOk (inl d)
      else if (msg_end <? ptr2 + Z.to_nat len2)%nat then DOk (inr EMSGSIZE)
      else if d_size d <? len2 then DOk (inr EOVERFLOW)
      else
        label ← bytes_at msg ptr2 (Z.to_nat len2);
        let ptr2 := (ptr2 + Z.to_nat len2)%nat in
        next ← rd msg ptr2;
        match put_label label next d with
        | inr e => DOk (inr e)
        | inl d => expand_target n msg msg_end ptr2 d
        end
  end.

Fixpoint expand_name (n : nat) (msg : list Z) (msg_end ptr : nat) (d : dest) : dres (dest + Z) :=
  match n with
  | O => DNoFuel
  | S n =>
    if (msg_end <=? ptr)%nat then DOk (inr EMSGSIZE)
    else
      len ← rd msg ptr;
      let ptr := S ptr in
      if is_pointer len then
        low ← rd msg ptr;
        expand_target (S msg_end) msg msg_end (pointer_offset len low) d
      else if len =? 0 then DOk (inl d)
      else if (msg_end <? ptr + Z.to_nat len)%nat then DOk (inr EMSGSIZE)
      else if d_size d <? len then DOk (inr EOVERFLOW)
      else
        label ← bytes_at msg ptr (Z.to_nat len);
        let ptr := (ptr + Z.to_nat len)%nat in
        next ← rd msg ptr;
        match put_label label next d with
        | inr e => DOk (inr e)
        | inl d => expand_name n msg msg_end ptr d
        end
  end.

(** The returned value and what [dest] holds when it is 0. *)
Definition expand_dns_name (msg : list Z) (ptr msg_end : nat) (dest_size : Z) : dres (Z * list Z) :=
  x ← expand_name (S msg_end) msg msg_end ptr {| d_out := []; d_size := dest_size |};
  match x with
  | inr e => DOk (e, [])
  | inl d => if d_size d =? 0 then DOk (EOVERFLOW, []) else DOk (0, d_out d ++ [0])
  end.

(** ** [Query] *)

Definition A : Z := 1.
Definition CNAME : Z := 5.
Definition PTR : Z := 12.
Definition AAAA : Z := 28.

(** The header in network order: id 1234, recursion desired, one question. *)
Definition query_header : list Z := [0x04; 0xD2; 1; 0; 0; 1; 0; 0; 0; 0; 0; 0].

(** [None]: the assertion on the size. *)
Definition add_segment (segment req : list Z) : option (list Z) :=
  if 0xFF <? zlen segment then None else Some (req ++ [zlen segment] ++ segment).

Definition finish_query (type : Z) (req : list Z) : list Z :=
  req ++ [0] ++ [u8 (Z.shiftr type 8); Z.land type 0xFF] ++ [0; 1].

(** What one exchange with a name server comes to. *)
Inductive exchange := SocketFailed (e : Z) | SendFailed (e : Z) | ReceiveFailed (e : Z) | Reply (bytes : list Z).

Definition EINVAL : Z := 22.

(** Three rounds over the name servers, the exchanges in order; [inl] is the error. *)
Fixpoint try_servers (l : list exchange) (response_size last_err : Z) : Z + list Z :=
  match l with
  | [] => inl last_err
  | SocketFailed e :: _ => inl e
  | SendFailed e :: r | ReceiveFailed e :: r => try_servers r response_size e
  | Reply bytes :: r =>
    if zlen bytes <? 12 then try_servers r response_size EINVAL
    else if negb (bool_decide (take 2 bytes = [0x04; 0xD2])) then inl EINVAL
    else if response_size <? zlen bytes then inl EOVERFLOW
    else inr bytes
  end.

Section Query.
(** The exchange of a request with a server in a round; the name servers. *)
Context {server : Type} (ask : server -> nat -> list Z -> exchange).

Definition query_send (servers : list server) (req : list Z) (response_size : Z) : Z + list Z :=
  try_servers (flat_map (fun round => map (fun s => ask s round req) servers) (seq 0 3)) response_size 0.
End Query.

(** The name of a question. *)
Fixpoint skip_name (n : nat) (msg : list Z) (ptr : nat) : dres nat :=
  match n with
  | O => DNoFuel
  | S n => len ← rd msg ptr; if len =? 0 then DOk (S ptr) else skip_name n msg (S ptr + Z.to_nat len)
  end.

Fixpoint skip_questions (k : nat) (msg : list Z) (ptr : nat) : dres nat :=
  match k with
  | O => DOk ptr
  | S k => ptr ← skip_name (S (length msg)) msg ptr; skip_questions k msg (ptr + 4)
  end.

(** [uint16_t v = ptr[0] << 8 | ptr[1]] on signed characters. *)
Definition be16 (b0 b1 : Z) : Z := u16 (Z.lor (Z.shiftl (schar b0) 8) (schar b1)).

Section Answers.
Context {X : Type} (on_answer : Z -> nat -> X -> dres (Z * X)).

Fixpoint answers (k : nat) (msg : list Z) (ptr : nat) (x : X) : dres (Z * X) :=
  match k with
  | O => DOk (0, x)
  | S k =>
    '(_, ptr) ← parse_dns_name msg ptr;
    t0 ← rd msg ptr; t1 ← rd msg (ptr + 1);
    l0 ← rd msg (ptr + 8); l1 ← rd msg (ptr + 9);
    let ptr := (ptr + 10)%nat in
    '(status, x) ← on_answer (be16 t0 t1) ptr x;
    if negb (status =? 0) then DOk (status, x)
    else answers k msg (ptr + Z.to_nat (be16 l0 l1)) x
  end.

(** [Query::send] with a callback: the buffer [res] has 256 bytes, of which the reply sets
    the first; [rest] is what the others hold. *)
Definition read_response (res : list Z) (x : X) : dres (Z * X) :=
  q0 ← rd res 4; q1 ← rd res 5; a0 ← rd res 6; a1 ← rd res 7;
  ptr ← skip_questions (Z.to_nat (q0 * 256 + q1)) res 12;
  answers (Z.to_nat (a0 * 256 + a1)) res ptr x.
End Answers.

Definition parse_ipv4_at (msg : list Z) (ptr : nat) : dres Z :=
  b ← bytes_at msg ptr 4;
  DOk (nth 0 b 0 + 2 ^ 8 * nth 1 b 0 + 2 ^ 16 * nth 2 b 0 + 2 ^ 24 * nth 3 b 0).

Definition parse_ipv6_at (msg : list Z) (ptr : nat) : dres (list Z) :=
  b ← bytes_at msg ptr 16;
  DOk (map (fun i => nth (2 * i) b 0 + 2 ^ 8 * nth (2 * i + 1) b 0) (seq 0 8)).

(** The callback of [resolve_name_dns]. *)
Definition on_address (res : list Z) (ipv6 : bool) (type : Z) (ptr : nat) (ips : list address) : dres (Z * list address) :=
  if ipv6 && (type =? AAAA) then w ← parse_ipv6_at res ptr; DOk (0, ips ++ [V6 w])
  else if negb ipv6 && (type =? A) then a ← parse_ipv4_at res ptr; DOk (0, ips ++ [V4 a])
  else DOk (0, ips).

(** The callback of [resolve_canon_dns]: the first CNAME, [ESRCH] to stop. *)
Definition ESRCH : Z := 3.
Definition on_cname (res : list Z) (type : Z) (ptr : nat) (name : list Z) : dres (Z * list Z) :=
  if type =? CNAME then '(n, _) ← parse_dns_name res ptr; DOk (ESRCH, n) else DOk (0, name).

Definition EAI_NONAME : Z := -2.
Definition EAI_FAIL : Z := -4.

(** [resolve_name_dns] from the reply on; [None] is an error of the exchange. *)
Definition resolve_name_reply (res : option (list Z)) (ipv6 : bool) (ips : list address) : dres (Z * list address) :=
  match res with
  | None => DOk (EAI_FAIL, ips)
  | Some res =>
    '(err, ips) ← read_response (on_address res ipv6) res ips;
    DOk (if negb (err =? 0) then EAI_FAIL else if negb (bool_decide (ips = [])) then 0 else EAI_NONAME, ips)
  end.

Definition resolve_canon_reply (res : option (list Z)) (name : list Z) : dres (Z * list Z) :=
  match res with
  | None => DOk (EAI_FAIL, name)
  | Some res =>
    '(err, name) ← read_response (on_cname res) res name;
    DOk (if err =? 0 then EAI_NONAME else if err =? ESRCH then 0 else EAI_FAIL, name)
  end.

(** ** Names on the wire *)

(** A label of 1 to 63 bytes, a label on the wire, a name. *)
Definition label_ok (l : list Z) : Prop := 1 <= zlen l <= 63.
Definition enc_label (l : list Z) : list Z := zlen l :: l.
Definition enc_labels (ls : list (list Z)) : list Z := concat (map enc_label ls).
Definition encode (ls : list (list Z)) : list Z := enc_labels ls ++ [0].

(** The labels with dots, the last dot if another byte than the terminator follows. *)
Fixpoint names (b : Z) (ls : list (list Z)) : list Z :=
  match ls with
  | [] => []
  | [l] => l ++ (if negb (b =? 0) then [46] else [])
  | l :: r => l ++ [46] ++ names b r
  end.

(** Labels joined by dots. *)
Definition join (ls : list (list Z)) : list Z := names 0 ls.

Lemma rd_app pre x r : rd (pre ++ x :: r) (length pre) = DOk x.
Proof. unfold rd. by rewrite lookup_app_r, Nat.sub_diag by lia. Qed.

(** The byte behind [l] labels: the next length, or [b]. *)
Definition following (b : Z) (ls : list (list Z)) : Z := match ls with [] => b | m :: _ => zlen m end.

Lemma following_byte b ls post : exists r, enc_labels ls ++ b :: post = following b ls :: r.
Proof. destruct ls as [| m ls]; cbn; eauto. Qed.

Lemma not_pointer l : label_ok l -> is_pointer (zlen l) = false /\ (zlen l =? 0) = false /\ Z.to_nat (zlen l) = length l.
Proof.
  intros H. unfold label_ok in H. split_and!; [| lia | unfold zlen; lia]. unfold is_pointer.
  assert (C : check_range 1 63 (fun v => negb (Z.land v 0xC0 =? 0xC0)) = true) by by_vm.
  apply negb_true_iff. exact (range_check 1 63 _ C (zlen l) ltac:(lia)).
Qed.

(** What the readers see at a label. *)
Lemma at_label pre l ls b post : label_ok l ->
  let msg := pre ++ enc_labels (l :: ls) ++ b :: post in
  rd msg (length pre) = DOk (zlen l) /\ bytes_at msg (S (length pre)) (length l) = DOk l /\
  rd msg (S (length pre + length l)) = DOk (following b ls) /\
  msg = (pre ++ enc_label l) ++ enc_labels ls ++ b :: post /\ length (pre ++ enc_label l) = (S (length pre + length l))%nat.
Proof.
  intros Hl msg. destruct (following_byte b ls post) as (r & Er).
  assert (E : msg = pre ++ zlen l :: l ++ following b ls :: r).
  { unfold msg. change (enc_labels (l :: ls)) with ((zlen l :: l) ++ enc_labels ls). rewrite <- app_assoc, Er. reflexivity. }
  assert (Ln : length (pre ++ enc_label l) = (S (length pre + length l))%nat) by (rewrite length_app; simpl; lia).
  rewrite E. split_and!; [apply rd_app | | | | exact Ln].
  - unfold bytes_at. rewrite decide_True by (rewrite !length_app; simpl; rewrite length_app; simpl; lia).
    rewrite cons_middle, app_assoc. replace (S (length pre)) with (length (pre ++ [zlen l])) by (rewrite length_app; simpl; lia).
    by rewrite drop_app_length, take_app_length.
  - rewrite <- Ln. replace (pre ++ zlen l :: l ++ following b ls :: r) with ((pre ++ enc_label l) ++ following b ls :: r) by (by rewrite <- app_assoc).
    apply rd_app.
  - by rewrite Er, <- app_assoc.
Qed.

Lemma names_step b l ls : Forall label_ok ls ->
  names b (l :: ls) = l ++ (if negb (following b ls =? 0) then [46] else []) ++ names b ls.
Proof.
  intros F. destruct ls as [| m r]; [cbn; by rewrite app_nil_r |]. apply Forall_inv in F. unfold label_ok in F. cbn [names following].
  destruct (Z.eqb_spec (zlen m) 0); [lia | reflexivity].
Qed.

(** Reading labels, by the two readers. *)
Lemma parse_name_labels ls b post : Forall label_ok ls -> forall pre n name,
  let msg := pre ++ enc_labels ls ++ b :: post in
  parse_name (length ls + n) msg (length pre) name = parse_name n msg (length (pre ++ enc_labels ls)) (name ++ names b ls).
Proof.
  induction 1 as [| l ls Hl F IH]; intros pre n name msg.
  - cbn. by rewrite !app_nil_r.
  - destruct (at_label pre l ls b post Hl) as (R1 & B & R2 & E & Ln). fold msg in R1, B, R2, E. destruct (not_pointer l Hl) as (P & Z0 & T).
    cbn [length Nat.add parse_name]. rewrite R1. cbn [mbind dres_bind]. rewrite P, Z0, T, B. cbn [mbind dres_bind]. rewrite R2. cbn [mbind dres_bind].
    rewrite <- Ln, E, IH. rewrite names_step by exact F. rewrite <- !app_assoc. do 2 f_equal.
Qed.

Lemma parse_target_labels ls b post : Forall label_ok ls -> forall pre n name,
  let msg := pre ++ enc_labels ls ++ b :: post in
  parse_target (length ls + n) msg (length pre) name = parse_target n msg (length (pre ++ enc_labels ls)) (name ++ names b ls).
Proof.
  induction 1 as [| l ls Hl F IH]; intros pre n name msg.
  - cbn. by rewrite !app_nil_r.
  - destruct (at_label pre l ls b post Hl) as (R1 & B & R2 & E & Ln). fold msg in R1, B, R2, E. destruct (not_pointer l Hl) as (P & Z0 & T).
    cbn [length Nat.add parse_target]. rewrite R1. cbn [mbind dres_bind]. rewrite P, Z0, T, B. cbn [mbind dres_bind]. rewrite R2. cbn [mbind dres_bind].
    rewrite <- Ln, E, IH. rewrite names_step by exact F. rewrite <- !app_assoc. do 2 f_equal.
Qed.

Lemma enc_length ls : Forall label_ok ls -> (length ls <= length (enc_labels ls))%nat.
Proof.
  induction 1 as [| l ls Hl F IH]; [done |]. change (enc_labels (l :: ls)) with ((zlen l :: l) ++ enc_labels ls). rewrite length_app. simpl. lia.
Qed.

(** A name that ends in a terminator. *)
Lemma parse_plain pre ls post : Forall label_ok ls ->
  let msg := pre ++ encode ls ++ post in
  parse_dns_name msg (length pre) = DOk (join ls, length (pre ++ encode ls)).
Proof.
  intros F msg. unfold parse_dns_name, msg, encode. rewrite <- (app_assoc (enc_labels ls)). cbn [app].
  pose proof (enc_length ls F) as L.
  assert (exists n, S (length (pre ++ enc_labels ls ++ 0%Z :: post)) = (length ls + S n)%nat) as [n ->].
  { exists (length (pre ++ enc_labels ls ++ 0%Z :: post) - length ls)%nat. rewrite !length_app. simpl. lia. }
  rewrite parse_name_labels by exact F. cbn [parse_name]. rewrite app_assoc, rd_app. cbn [mbind dres_bind]. cbn.
  do 2 f_equal. rewrite !length_app. simpl. lia.
Qed.

(** A compressed name: labels, and a pointer to a name in the first 256 bytes. *)
Lemma parse_compressed pre ls2 mid ls1 post : Forall label_ok ls1 -> Forall label_ok ls2 -> ls2 <> [] -> (length pre < 256)%nat ->
  let before := pre ++ encode ls2 ++ mid in
  let msg := before ++ enc_labels ls1 ++ [0xC0; Z.of_nat (length pre)] ++ post in
  parse_dns_name msg (length before) = DOk (join (ls1 ++ ls2), (length before + length (enc_labels ls1) + 2)%nat).
Proof.
  intros F1 F2 N2 Lp before msg. unfold parse_dns_name.
  assert (Em : msg = before ++ enc_labels ls1 ++ 0xC0 :: (Z.of_nat (length pre) :: post)) by reflexivity.
  pose proof (enc_length ls1 F1) as L1. pose proof (enc_length ls2 F2) as L2.
  assert (exists n, S (length msg) = (length ls1 + S n)%nat) as [n ->].
  { exists (length msg - length ls1)%nat. rewrite Em, !length_app. simpl. lia. }
  rewrite Em. rewrite (parse_name_labels ls1 0xC0 (Z.of_nat (length pre) :: post) F1 before (S n) []). rewrite <- Em. cbn [parse_name app].
  assert (R1 : rd msg (length (before ++ enc_labels ls1)) = DOk 0xC0) by (rewrite Em, app_assoc; apply rd_app).
  assert (R2 : rd msg (S (length (before ++ enc_labels ls1))) = DOk (Z.of_nat (length pre))).
  { rewrite Em. rewrite (cons_middle 0xC0), app_assoc, app_assoc.
    replace (S (length (before ++ enc_labels ls1))) with (length ((before ++ enc_labels ls1) ++ [0xC0])) by (rewrite !length_app; simpl; lia). apply rd_app. }
  rewrite R1. cbn [mbind dres_bind]. change (is_pointer 0xC0) with true. cbv iota. rewrite R2. cbn [mbind dres_bind].
  assert (Po : pointer_offset 0xC0 (Z.of_nat (length pre)) = length pre).
  { unfold pointer_offset. change (Z.shiftl (Z.land 0xC0 0x3F) 8) with 0. rewrite Z.lor_0_l, wrapu_small by (unfold is_u; lia). lia. }
  rewrite Po.
  set (r := mid ++ enc_labels ls1 ++ 0xC0 :: Z.of_nat (length pre) :: post).
  assert (Em2 : msg = pre ++ enc_labels ls2 ++ 0 :: r).
  { rewrite Em. unfold before, encode, r. by rewrite <- !app_assoc. }
  assert (exists k, S (length msg) = (length ls2 + S k)%nat) as [k ->].
  { exists (length msg - length ls2)%nat. rewrite Em2, !length_app. simpl. lia. }
  rewrite Em2, parse_target_labels by exact F2. cbn [parse_target]. rewrite app_assoc, rd_app. cbn [mbind dres_bind].
  change (is_pointer 0) with false. cbn. do 2 f_equal; [| rewrite !length_app; lia].
  unfold join. clear - F1 F2 N2. induction F1 as [| l ls1 Hl F1 IH]; [reflexivity |]. cbn [app]. rewrite !names_step by (try apply Forall_app; auto).
  rewrite <- !app_assoc, IH. f_equal. destruct ls1 as [| m ls1]; [| reflexivity]. cbn [app following].
  destruct ls2 as [| m ls2]; [congruence |]. apply Forall_inv in F2. unfold label_ok in F2. cbn [following]. destruct (Z.eqb_spec (zlen m) 0); [lia | reflexivity].
Qed.

(** ** Expanding names *)

Lemma put_label_ok l nx d : zlen l + (if negb (nx =? 0) then 1 else 0) <= d_size d ->
  put_label l nx d = inl {| d_out := d_out d ++ l ++ (if negb (nx =? 0) then [46] else []);
                            d_size := d_size d - zlen l - (if negb (nx =? 0) then 1 else 0) |}.
Proof.
  intros H. unfold put_label. destruct (Z.ltb_spec (d_size d) (zlen l)); [destruct (negb (nx =? 0)); lia |]. cbn [d_size d_out].
  destruct (negb (nx =? 0)).
  - destruct (Z.eqb_spec (d_size d - zlen l) 0); [lia |]. by rewrite <- app_assoc.
  - by rewrite app_nil_r, Z.sub_0_r.
Qed.

(** The destination after [s]. *)
Definition put (s : list Z) (d : dest) : dest := {| d_out := d_out d ++ s; d_size := d_size d - zlen s |}.

Lemma put_nil d : put [] d = d.
Proof. destruct d. unfold put. cbn. by rewrite app_nil_r, Z.sub_0_r. Qed.

Lemma put_app s t d : put t (put s d) = put (s ++ t) d.
Proof. unfold put. cbn. rewrite zlen_app, <- app_assoc. f_equal. lia. Qed.

Lemma put_label_put l nx d : zlen (l ++ (if negb (nx =? 0) then [46] else [])) <= d_size d ->
  put_label l nx d = inl (put (l ++ (if negb (nx =? 0) then [46] else [])) d).
Proof.
  rewrite zlen_app. intros H. rewrite put_label_ok by (destruct (negb (nx =? 0)); unfold zlen in *; simpl in *; lia).
  unfold put. rewrite zlen_app. do 2 f_equal. destruct (negb (nx =? 0)); unfold zlen; simpl; lia.
Qed.

Lemma expand_name_labels ls b post msg_end : Forall label_ok ls -> forall pre n d,
  let msg := pre ++ enc_labels ls ++ b :: post in
  (length (pre ++ enc_labels ls) <= msg_end)%nat -> zlen (names b ls) <= d_size d ->
  expand_name (length ls + n) msg msg_end (length pre) d =
  expand_name n msg msg_end (length (pre ++ enc_labels ls)) (put (names b ls) d).
Proof.
  induction 1 as [| l ls Hl F IH]; intros pre n d msg Lm Ld.
  - cbn. by rewrite !app_nil_r, put_nil.
  - destruct (at_label pre l ls b post Hl) as (R1 & B & R2 & E & Ln). fold msg in R1, B, R2, E. destruct (not_pointer l Hl) as (P & Z0 & T).
    change (enc_labels (l :: ls)) with (enc_label l ++ enc_labels ls) in Lm. rewrite app_assoc in Lm.
    rewrite names_step, app_assoc, zlen_app in Ld by exact F.
    set (piece := l ++ (if negb (following b ls =? 0) then [46] else [])) in *.
    assert (Lp : length (pre ++ enc_label l ++ enc_labels ls) = (S (length pre + length l) + length (enc_labels ls))%nat) by (rewrite app_assoc, length_app, Ln; reflexivity).
    rewrite length_app, Ln in Lm. pose proof (zlen_nonneg (names b ls)). pose proof (zlen_nonneg piece) as Pn.
    assert (Lz : zlen l <= zlen piece) by (unfold piece; rewrite zlen_app; pose proof (zlen_nonneg (if negb (following b ls =? 0) then [46] else [])); lia).
    cbn [length Nat.add expand_name]. destruct (Nat.leb_spec msg_end (length pre)); [lia |]. rewrite R1. cbn [mbind dres_bind]. rewrite P, Z0, T.
    destruct (Nat.ltb_spec msg_end (S (length pre + length l))); [lia |]. destruct (Z.ltb_spec (d_size d) (zlen l)); [lia |].
    rewrite B. cbn [mbind dres_bind]. cbn [Nat.add]. rewrite R2. cbn [mbind dres_bind]. rewrite put_label_put by (fold piece; lia). fold piece.
    rewrite <- Ln, E, IH; [| rewrite length_app, Ln; lia | unfold put; cbn; lia].
    rewrite names_step by exact F. rewrite put_app. fold piece. rewrite (app_assoc l). fold piece.
    change (enc_labels (l :: ls)) with (enc_label l ++ enc_labels ls). by rewrite (app_assoc pre).
Qed.

(** A name that ends in a terminator, in a message that holds it, expanded into a
    destination that has room for it and a terminator. *)
Lemma expand_plain pre ls post msg_end dest_size : Forall label_ok ls ->
  (length (pre ++ encode ls) <= msg_end)%nat -> zlen (join ls) < dest_size ->
  expand_dns_name (pre ++ encode ls ++ post) (length pre) msg_end dest_size = DOk (0, join ls ++ [0]).
Proof.
  intros F Lm Ld. unfold expand_dns_name, encode in *. rewrite <- (app_assoc (enc_labels ls)). cbn [app]. rewrite app_assoc, length_app in Lm. cbn [length] in Lm.
  pose proof (enc_length ls F) as L. rewrite length_app in Lm.
  assert (exists n, S msg_end = (length ls + S n)%nat) as [n ->] by (exists (msg_end - length ls)%nat; lia).
  rewrite expand_name_labels; [| exact F | rewrite length_app; lia | cbn; unfold join in Ld; lia].
  cbn [expand_name]. destruct (Nat.leb_spec msg_end (length (pre ++ enc_labels ls))); [rewrite length_app in *; lia |].
  rewrite app_assoc, rd_app. cbn [mbind dres_bind]. change (is_pointer 0) with false. cbn [Z.eqb]. fold (join ls). cbn [mbind dres_bind put d_out d_size app].
  destruct (Z.eqb_spec (dest_size - zlen (join ls)) 0); [lia | reflexivity].
Qed.

(** *** Any message *)

Definition byte (b : Z) : Prop := 0 <= b <= 255.

(** What may come out: an error, or a destination with nothing lost or gained. *)
Definition has_pointer (msg : list Z) (msg_end : nat) : Prop :=
  exists i b, (i < msg_end)%nat /\ msg !! i = Some b /\ is_pointer b = true.

Definition outcome_ok (msg : list Z) (msg_end : nat) (total : Z) (r : dres (dest + Z)) : Prop :=
  match r with
  | DOk (inl d) => 0 <= d_size d /\ zlen (d_out d) + d_size d = total
  | DOk (inr e) => e = EMSGSIZE \/ e = EOVERFLOW
  | DPanic => has_pointer msg msg_end
  | DFault => length msg = msg_end
  | DNoFuel => False
  end.

Lemma rd_byte msg i : Forall byte msg -> (i < length msg)%nat -> exists b, rd msg i = DOk b /\ byte b.
Proof.
  intros F L. unfold rd. destruct (lookup_lt_is_Some_2 msg i L) as [b E]. rewrite E. exists b. split; [done |].
  by eapply Forall_lookup_1 in F.
Qed.

Lemma put_label_total l nx d total : 0 <= d_size d -> zlen (d_out d) + d_size d = total ->
  match put_label l nx d with
  | inl d' => 0 <= d_size d' /\ zlen (d_out d') + d_size d' = total
  | inr e => e = EMSGSIZE \/ e = EOVERFLOW
  end.
Proof.
  intros H T. unfold put_label. pose proof (zlen_nonneg l). destruct (Z.ltb_spec (d_size d) (zlen l)); [auto |]. cbn [d_size d_out].
  destruct (negb (nx =? 0)); [destruct (Z.eqb_spec (d_size d - zlen l) 0); [auto |] |]; cbn [d_size d_out]; rewrite !zlen_app; change (zlen [46]) with 1; lia.
Qed.

(** A read of a byte up to the one at [msg_end]. *)
Lemma read_step msg msg_end total i (k : Z -> dres (dest + Z)) : Forall byte msg -> (msg_end <= length msg)%nat -> (i <= msg_end)%nat ->
  (forall b, msg !! i = Some b -> byte b -> outcome_ok msg msg_end total (k b)) -> outcome_ok msg msg_end total (b ← rd msg i; k b).
Proof.
  intros F L Hi K. unfold rd. destruct (msg !! i) as [b |] eqn:E.
  - apply K; [reflexivity |]. by eapply Forall_lookup_1 in F.
  - apply lookup_ge_None in E. cbn. lia.
Qed.

(** One label of either loop: it fits into the message. *)
Lemma label_step msg msg_end ptr len total d (k : nat -> dest -> dres (dest + Z)) : Forall byte msg -> (msg_end <= length msg)%nat ->
  byte len -> len <> 0 -> 0 <= d_size d -> zlen (d_out d) + d_size d = total ->
  (forall ptr' d', (ptr < ptr')%nat -> 0 <= d_size d' -> zlen (d_out d') + d_size d' = total -> outcome_ok msg msg_end total (k ptr' d')) ->
  outcome_ok msg msg_end total
    (if (msg_end <? ptr + Z.to_nat len)%nat then DOk (inr EMSGSIZE)
     else if d_size d <? len then DOk (inr EOVERFLOW)
     else
       label ← bytes_at msg ptr (Z.to_nat len);
       next ← rd msg (ptr + Z.to_nat len);
       match put_label label next d with inr e => DOk (inr e) | inl d => k (ptr + Z.to_nat len)%nat d end).
Proof.
  intros F L Bl N D T K. unfold byte in Bl.
  destruct (Nat.ltb_spec msg_end (ptr + Z.to_nat len)); [cbn; auto |]. destruct (Z.ltb_spec (d_size d) len); [cbn; auto |].
  unfold bytes_at. rewrite decide_True by lia. cbn [mbind dres_bind]. apply read_step; [exact F | exact L | lia |]. intros nx _ _.
  pose proof (put_label_total (take (Z.to_nat len) (drop ptr msg)) nx d total D T) as P.
  destruct (put_label _ _ _) as [d' | e]; [| exact P]. destruct P as [P1 P2]. apply K; [lia | exact P1 | exact P2].
Qed.

Lemma expand_target_ok msg msg_end total : Forall byte msg -> (msg_end <= length msg)%nat ->
  forall n ptr d, (msg_end - ptr < n)%nat -> 0 <= d_size d -> zlen (d_out d) + d_size d = total ->
  outcome_ok msg msg_end total (expand_target n msg msg_end ptr d).
Proof.
  intros F L. induction n as [| n IH]; intros ptr d Ln D T; [lia |]. cbn [expand_target].
  destruct (Nat.leb_spec msg_end ptr); [cbn; auto |]. apply read_step; [exact F | exact L | lia |]. intros len E Bl.
  destruct (is_pointer len) eqn:Pt; [exists ptr, len; auto |]. destruct (Z.eqb_spec len 0); [by split |].
  apply (label_step msg msg_end (S ptr) len total d (expand_target n msg msg_end)); auto.
  intros ptr' d' Hp Hd Ht. apply IH; [lia | exact Hd | exact Ht].
Qed.

Lemma expand_name_ok msg msg_end total : Forall byte msg -> (msg_end <= length msg)%nat ->
  forall n ptr d, (msg_end - ptr < n)%nat -> 0 <= d_size d -> zlen (d_out d) + d_size d = total ->
  outcome_ok msg msg_end total (expand_name n msg msg_end ptr d).
Proof.
  intros F L. induction n as [| n IH]; intros ptr d Ln D T; [lia |]. cbn [expand_name].
  destruct (Nat.leb_spec msg_end ptr); [cbn; auto |]. apply read_step; [exact F | exact L | lia |]. intros len E Bl.
  destruct (is_pointer len).
  { apply read_step; [exact F | exact L | lia |]. intros low _ _. apply expand_target_ok; auto. lia. }
  destruct (Z.eqb_spec len 0); [by split |].
  apply (label_step msg msg_end (S ptr) len total d (expand_name n msg msg_end)); auto.
  intros ptr' d' Hp Hd Ht. apply IH; [lia | exact Hd | exact Ht].
Qed.



(** A message that ends in a label, or in the first byte of a pointer: the byte behind the
    message is read. *)
Theorem expand_dns_name_reads_behind :
  expand_dns_name [1; 97] 0 2 16 = DFault /\ expand_dns_name [0xC0] 0 1 16 = DFault.
Proof. split; reflexivity. Qed.

(** ** Questions and answers *)

Lemma rd_slice msg p n s k : take n (drop p msg) = s -> (k < length s)%nat -> rd msg (p + k) = DOk (nth k s 0).
Proof.
  intros E L. unfold rd. subst s. rewrite length_take in L.
  destruct (lookup_lt_is_Some_2 (take n (drop p msg)) k ltac:(rewrite length_take; lia)) as [v V].
  rewrite (nth_lookup_Some _ _ _ _ V). apply lookup_take_Some in V as [V _]. rewrite lookup_drop in V. by rewrite V.
Qed.

Lemma skip_name_labels ls post : Forall label_ok ls -> forall pre n,
  skip_name (length ls + S n) (pre ++ encode ls ++ post) (length pre) = DOk (length (pre ++ encode ls)).
Proof.
  intros F. induction F as [| l ls Hl F IH]; intros pre n.
  - cbn [length Nat.add skip_name]. change (encode [] ++ post) with (0 :: post). rewrite rd_app. cbn. f_equal. rewrite length_app. simpl. lia.
  - unfold encode. rewrite <- (app_assoc (enc_labels (l :: ls))). cbn [app].
    destruct (at_label pre l ls 0 post Hl) as (R1 & _ & _ & E & Ln). destruct (not_pointer l Hl) as (_ & Z0 & T).
    cbn [length Nat.add skip_name]. rewrite R1. cbn [mbind dres_bind]. rewrite Z0, T. cbn [Nat.add]. rewrite <- Ln, E.
    specialize (IH (pre ++ enc_label l) n). unfold encode in IH. rewrite <- (app_assoc (enc_labels ls)) in IH. cbn [app] in IH. rewrite IH.
    change (enc_labels (l :: ls)) with (enc_label l ++ enc_labels ls). f_equal. rewrite !length_app. lia.
Qed.

(** A question: a name, its type and class. *)
Definition question : Type := list (list Z) * list Z.
Definition question_ok (q : question) : Prop := Forall label_ok q.1 /\ length q.2 = 4%nat.
Definition enc_question (q : question) : list Z := encode q.1 ++ q.2.

Lemma skip_questions_ok qs : Forall question_ok qs -> forall pre post,
  skip_questions (length qs) (pre ++ concat (map enc_question qs) ++ post) (length pre) = DOk (length (pre ++ concat (map enc_question qs))).
Proof.
  induction 1 as [| [ls tc] qs [Fl Lt] F IH]; intros pre post; [cbn; by rewrite app_nil_r |]. cbn [fst snd] in *.
  cbn [length skip_questions map concat]. unfold enc_question at 1 3 5. cbn [fst snd].
  set (rest := concat (map enc_question qs)). rewrite <- !app_assoc.
  pose proof (enc_length ls Fl) as Le.
  assert (exists n, S (length (pre ++ encode ls ++ tc ++ rest ++ post)) = (length ls + S n)%nat) as [n ->].
  { exists (length (pre ++ encode ls ++ tc ++ rest ++ post) - length ls)%nat. unfold encode. rewrite !length_app. simpl. lia. }
  rewrite skip_name_labels by exact Fl. cbn [mbind dres_bind].
  replace (length (pre ++ encode ls) + 4)%nat with (length (pre ++ encode ls ++ tc)) by (rewrite !length_app, Lt; lia).
  specialize (IH (pre ++ encode ls ++ tc) post). fold rest in IH. rewrite <- !app_assoc in IH. rewrite IH. unfold enc_question. cbn [fst snd]. by rewrite <- !app_assoc.
Qed.

(** An answer: the bytes of its name, the type, class and time to live, the data. *)
Record answer := { a_name : list Z; a_type : Z; a_fixed : list Z; a_data : list Z }.

Definition enc_answer (a : answer) : list Z :=
  a_name a ++ [a_type a / 256; a_type a mod 256] ++ a_fixed a ++ [zlen (a_data a) / 256; zlen (a_data a) mod 256] ++ a_data a.

(** Low bytes below 128, which the code needs. *)
Definition answer_ok (a : answer) : Prop :=
  0 <= a_type a < 2 ^ 16 /\ a_type a mod 256 < 128 /\ length (a_fixed a) = 6%nat /\ zlen (a_data a) < 2 ^ 16 /\ zlen (a_data a) mod 256 < 128.

(** The answers follow one another from [ptr] on, and their names can be read. *)
Fixpoint answers_at (msg : list Z) (ptr : nat) (l : list answer) : Prop :=
  match l with
  | [] => True
  | a :: r =>
    (exists nm, parse_dns_name msg ptr = DOk (nm, (ptr + length (a_name a))%nat)) /\
    take (length (enc_answer a)) (drop ptr msg) = enc_answer a /\ answers_at msg (ptr + length (enc_answer a)) r
  end.

Lemma be16_ok v : 0 <= v < 2 ^ 16 -> v mod 256 < 128 -> be16 (v / 256) (v mod 256) = v.
Proof.
  intros Hv Hl. unfold be16, schar. pose proof (Z.mod_pos_bound v 256 ltac:(lia)).
  rewrite (wraps_small 8 (v mod 256)) by (unfold is_s, smin, smax; lia). rewrite Z.lor_comm, lor_fields by lia.
  unfold wraps, wrapu. assert (0 <= v / 256 < 256) by (Z.to_euclidean_division_equations; lia).
  change (2 ^ (8 - 1)) with 128. change (2 ^ 8) with 256. change (2 ^ 16) with 65536.
  pose proof (Z.div_mod v 256 ltac:(lia)). set (q := v / 256) in *. set (m := v mod 256) in *.
  assert ((q + 128) mod 256 - 128 = q \/ (q + 128) mod 256 - 128 = q - 256) as [-> | ->] by (Z.to_euclidean_division_equations; lia);
    symmetry; [apply Z.mod_unique_pos with 0 | apply Z.mod_unique_pos with (-1)]; lia.
Qed.

Lemma nth_enc a k : nth (length (a_name a) + k) (enc_answer a) 0 =
  nth k ([a_type a / 256; a_type a mod 256] ++ a_fixed a ++ [zlen (a_data a) / 256; zlen (a_data a) mod 256] ++ a_data a) 0.
Proof. unfold enc_answer. rewrite app_nth2 by lia. f_equal. lia. Qed.

Section Visit.
Context {X : Type} (on_answer : Z -> nat -> X -> dres (Z * X)).

(** What the callback is called with, in order, until it returns a status. *)
Fixpoint visit (l : list answer) (ptr : nat) (x : X) : dres (Z * X) :=
  match l with
  | [] => DOk (0, x)
  | a :: r =>
    '(status, x) ← on_answer (a_type a) (ptr + length (a_name a) + 10)%nat x;
    if negb (status =? 0) then DOk (status, x) else visit r (ptr + length (enc_answer a)) x
  end.

Lemma answers_visit msg l : Forall answer_ok l -> forall ptr x, answers_at msg ptr l ->
  answers on_answer (length l) msg ptr x = visit l ptr x.
Proof.
  induction 1 as [| a l (T1 & T2 & Lf & D1 & D2) F IH]; intros ptr x At; [reflexivity |].
  destruct At as ((nm & P) & S & At). cbn [length answers visit]. rewrite P. cbn [mbind dres_bind].
  assert (Le : length (enc_answer a) = (length (a_name a) + 10 + length (a_data a))%nat)
    by (unfold enc_answer; rewrite !length_app, Lf; simpl; lia).
  assert (R : forall k, (k < 10)%nat -> rd msg (ptr + length (a_name a) + k) = DOk (nth (length (a_name a) + k) (enc_answer a) 0)).
  { intros k Hk. rewrite <- Nat.add_assoc. apply (rd_slice msg ptr _ _ _ S). lia. }
  rewrite <- (Nat.add_0_r (ptr + length (a_name a))) at 1. rewrite !R, !nth_enc by lia. cbn [mbind dres_bind].
  destruct (a_fixed a) as [| f0 [| f1 [| f2 [| f3 [| f4 [| f5 [| ? ?]]]]]]]; try discriminate Lf. cbn [app nth].
  rewrite !be16_ok by (auto || (pose proof (zlen_nonneg (a_data a)); lia)).
  destruct (on_answer (a_type a) (ptr + length (a_name a) + 10)%nat x) as [[status x'] | | |]; try reflexivity. cbn [mbind dres_bind].
  destruct (negb (status =? 0)); [reflexivity |].
  assert (En : (ptr + length (a_name a) + 10 + Z.to_nat (zlen (a_data a)))%nat = (ptr + length (enc_answer a))%nat) by (rewrite Le; unfold zlen; lia).
  rewrite En. by apply IH.
Qed.
End Visit.

(** The addresses of the A records. *)
Definition a_addresses (l : list answer) : list address :=
  omap (fun a => if a_type a =? A then Some (V4 (nth 0 (a_data a) 0 + 2 ^ 8 * nth 1 (a_data a) 0 + 2 ^ 16 * nth 2 (a_data a) 0 + 2 ^ 24 * nth 3 (a_data a) 0)) else None) l.

Definition a_record_ok (a : answer) : Prop := answer_ok a /\ (a_type a = A -> length (a_data a) = 4%nat).

Lemma visit_addresses msg l : Forall a_record_ok l -> forall ptr ips, answers_at msg ptr l ->
  visit (on_address msg false) l ptr ips = DOk (0, ips ++ a_addresses l).
Proof.
  induction 1 as [| a l [(T1 & T2 & Lf & D1 & D2) Da] F IH]; intros ptr ips At; [cbn; by rewrite app_nil_r |].
  destruct At as (_ & S & At). cbn [visit].
  assert (O : on_address msg false (a_type a) (ptr + length (a_name a) + 10) ips = DOk (0, ips ++ a_addresses [a])).
  { unfold on_address, a_addresses. cbn [andb negb omap list_omap]. destruct (Z.eqb_spec (a_type a) A) as [E | _]; [| cbn; by rewrite app_nil_r].
    specialize (Da E). assert (Le : length (enc_answer a) = (length (a_name a) + 10 + 4)%nat)
      by (unfold enc_answer; rewrite !length_app, Lf, Da; simpl; lia).
    assert (Lm : (ptr + length (enc_answer a) <= length msg)%nat).
    { pose proof (f_equal length S) as Q. rewrite length_take, length_drop in Q. lia. }
    assert (B : bytes_at msg (ptr + length (a_name a) + 10) 4 = DOk (a_data a)).
    { unfold bytes_at. rewrite decide_True by lia. f_equal. rewrite <- Nat.add_assoc, <- drop_drop.
      assert (Q : drop (length (a_name a) + 10) (take (length (enc_answer a)) (drop ptr msg)) = a_data a).
      { rewrite S. unfold enc_answer. rewrite !app_assoc. apply drop_app_length'. rewrite !length_app, Lf. simpl. lia. }
      rewrite <- Q, Le. by rewrite take_drop_commute. }
    unfold parse_ipv4_at. by rewrite B. }
  rewrite O. cbn [mbind dres_bind negb Z.eqb]. rewrite IH by exact At. rewrite <- app_assoc. do 3 f_equal.
  unfold a_addresses. cbn [omap list_omap]. by destruct (a_type a =? A).
Qed.

(** A response: id and flags, the counts, questions, answers, and whatever follows. *)
Definition header (fixed : list Z) (questions answers : Z) (tail : list Z) : list Z :=
  fixed ++ [questions / 256; questions mod 256; answers / 256; answers mod 256] ++ tail.

(** The addresses of a name: for a response whose questions are well-formed names and whose
    answers follow them, [resolve_name_dns] returns the addresses of all A records in
    order, and [EAI_NONAME] if there are none. *)
Theorem resolve_name_addresses fixed tail qs l rest ips :
  let hdr := header fixed (zlen qs) (zlen l) tail in
  let before := hdr ++ concat (map enc_question qs) in
  let res := before ++ rest in
  length fixed = 4%nat -> length tail = 4%nat -> zlen qs < 2 ^ 16 -> zlen l < 2 ^ 16 ->
  Forall question_ok qs -> Forall a_record_ok l -> answers_at res (length before) l ->
  resolve_name_reply (Some res) false ips =
    DOk (if bool_decide (ips ++ a_addresses l = []) then EAI_NONAME else 0, ips ++ a_addresses l).
Proof.
  intros hdr before res Lf Lt Bq Bl Fq Fl At. unfold resolve_name_reply, read_response.
  assert (Lh : length hdr = 12%nat) by (unfold hdr, header; rewrite !length_app, Lf, Lt; reflexivity).
  assert (Eres : res = hdr ++ concat (map enc_question qs) ++ rest) by (unfold res, before; by rewrite <- app_assoc).
  assert (R : forall k, (k < 4)%nat -> rd res (4 + k) = DOk (nth k [zlen qs / 256; zlen qs mod 256; zlen l / 256; zlen l mod 256] 0)).
  { intros k Hk. rewrite Eres. unfold hdr, header. rewrite <- !app_assoc. rewrite <- Lf.
    apply (rd_slice _ (length fixed) 4 [zlen qs / 256; zlen qs mod 256; zlen l / 256; zlen l mod 256]); [| simpl; lia]. by rewrite drop_app_length. }
  pose proof (R 0%nat ltac:(lia)) as R0; pose proof (R 1%nat ltac:(lia)) as R1; pose proof (R 2%nat ltac:(lia)) as R2; pose proof (R 3%nat ltac:(lia)) as R3. clear R.
  cbn [Nat.add nth] in R0, R1, R2, R3. rewrite R0, R1, R2, R3. cbn [mbind dres_bind].
  assert (E2 : forall v : nat, Z.to_nat (Z.of_nat v / 256 * 256 + Z.of_nat v mod 256) = v)
    by (intros v; pose proof (Z.div_mod (Z.of_nat v) 256 ltac:(lia)); lia).
  unfold zlen. rewrite !E2. rewrite Eres at 1. rewrite <- Lh, skip_questions_ok by exact Fq. cbn [mbind dres_bind].
  fold before. rewrite answers_visit with (l := l); [| eapply list.Forall_impl; [exact Fl | by intros a [? _]] | exact At].
  rewrite visit_addresses by assumption. cbn [mbind dres_bind]. cbn [negb Z.eqb]. by destruct (bool_decide (ips ++ a_addresses l = [])).
Qed.

(** A response with one question, "a", a CNAME and two addresses, the names compressed. *)
Definition example_qs : list question := [([[97]], [0; 1; 0; 1])].
Definition example_answers : list answer :=
  [ {| a_name := [0xC0; 12]; a_type := CNAME; a_fixed := [0; 1; 0; 0; 0; 9]; a_data := [1; 98; 0] |};
    {| a_name := [1; 98; 0]; a_type := A; a_fixed := [0; 1; 0; 0; 0; 9]; a_data := [10; 0; 0; 1] |};
    {| a_name := [1; 98; 0]; a_type := A; a_fixed := [0; 1; 0; 0; 0; 9]; a_data := [10; 0; 0; 2] |} ].

Lemma resolve_name_addresses_witness :
  resolve_name_reply (Some (header [4; 0xD2; 0x81; 0x80] 1 3 [0; 0; 0; 0] ++ concat (map enc_question example_qs) ++
    concat (map enc_answer example_answers))) false [] = DOk (0, [V4 0x0100000A; V4 0x0200000A]).
Proof.
  apply (resolve_name_addresses [4; 0xD2; 0x81; 0x80] [0; 0; 0; 0] example_qs example_answers (concat (map enc_answer example_answers)) []);
    try reflexivity.
  - constructor; [| constructor]. split; [| reflexivity]. constructor; [unfold label_ok, zlen; simpl; lia | constructor].
  - repeat constructor; try discriminate; cbn; try lia; intros E; discriminate E.
  - cbn [answers_at example_answers]. split_and!; try (eexists; by_vm); by_vm.
Defined.

(** ** Findings *)

(** A pointer behind the first 256 bytes is cut to eight bits. *)
Theorem pointer_offset_truncated : pointer_offset 0xC1 0x10 = 16%nat.
Proof. by_vm. Qed.

(** A pointer to a name that itself ends in a pointer, which the protocol allows, aborts the
    program, so a reply can do it. *)
Theorem pointer_chain_panics : parse_dns_name [1; 97; 0; 1; 98; 0xC0; 0; 0xC0; 3] 7 = DPanic.
Proof. by_vm. Qed.

(** The length of the data is put together from signed characters: 200 becomes 65480, and
    the next answer is looked for far behind the buffer. *)
Theorem data_length_sign_extended : be16 0 200 = 65480.
Proof. by_vm. Qed.

(** A label of more than 63 bytes is not rejected: its length reads as a pointer. *)
Theorem long_segment_is_pointer : add_segment (replicate 192 97) [] = Some (192 :: replicate 192 97) /\ is_pointer 192 = true.
Proof. split; by_vm. Qed.
