(* ===== verification/Netdb.v ===== *)
(** * Names of hosts and services

    [src/src/posix/netdb.cpp] and [get_nameservers] of [src/src/internal/dns.cpp], over the
    messages of [Dns] and the addresses of [Inet].

    A configuration file is [None] when it cannot be opened and otherwise the strings that
    [fgets] stores, in order.  The name servers' exchanges, the outcome of the probes of
    [AI_ADDRCONFIG] and the bytes the reply buffer holds before the reply are parameters.
    [npos] as an offset is the end of the string. *)

From Stdlib Require Import String Ascii.
From stdpp Require Import base list option.
From S2P Require Import Prelude Literal Ctype StrToInt PrintfFloat Printf PrintfFacts Inet Dns.

#[local] Open Scope Z_scope.

(** What this file uses of [string_view] beyond [Inet]: [find] with a predicate, [substr]. *)
Class StringSearch := {
  sv_find_if : list Z -> (Z -> bool) -> nat -> option nat;
  sv_substr : list Z -> Z -> list Z;
  sv_find_if_law s p off : sv_find_if s p off = (x ← list_find (fun d => p d = true) (drop off s); Some (off + x.1)%nat);
  sv_substr_end_law s k : 0 <= k -> sv_substr s k = drop (Z.to_nat k) s;
}.

Section Netdb.
Context `{StringView} `{ParseInt} `{StringSearch}.

Definition file : Type := option (list (list Z)).

Definition is_space (c : Z) : bool := negb (isspace (wraps 8 c) =? 0).
Definition not_space (c : Z) : bool := isspace (wraps 8 c) =? 0.

(** [npos] as an offset. *)
Definition pos (line : list Z) (o : option nat) : nat := default (length line) o.

(** The part of a line before a number sign. *)
Definition strip_comment (line : list Z) : list Z :=
  match sv_find line 35 0 with Some k => sv_substr_abs line 0 (Some k) | None => line end.

Definition starts_with (p line : list Z) : bool := bool_decide (take (length p) line = p).

(** ** /etc/resolv.conf *)

Fixpoint nameserver_lines (l : list (list Z)) (res : list address) : option (list address) :=
  match l with
  | [] => Some res
  | line :: r =>
    let line := sv_substr_abs line 0 (Some (length line - 1)%nat) in
    if negb (starts_with (chars "nameserver ") line) then nameserver_lines r res
    else
      let ip_str := sv_substr_abs line 11 None in
      v4 ← parse_ipv4 ip_str;
      match v4 with
      | Some a => nameserver_lines r (res ++ [V4 a])
      | None =>
        v6 ← parse_ipv6 ip_str;
        nameserver_lines r (res ++ match v6 with Some w => [V6 w] | None => [] end)
      end
  end.

Definition get_nameservers (resolv : file) : option (list address) :=
  match resolv with None => Some [] | Some l => nameserver_lines l [] end.

(** ** /etc/hosts *)

Definition push_address (ipv6 : bool) (ip : list Z) (ips : list address) : option (list address) :=
  if ipv6 then a ← parse_ipv6 ip; Some (ips ++ match a with Some w => [V6 w] | None => [] end)
  else a ← parse_ipv4 ip; Some (ips ++ match a with Some v => [V4 v] | None => [] end).

(** The address of a line and the position behind it. *)
Definition hosts_line (line : list Z) : option (list Z * list Z * nat) :=
  if (length line =? 0)%nat || starts_with [35] line then None
  else
    let line := strip_comment line in
    match sv_find_if line is_space 0 with
    | None => None
    | Some ip_end => if (ip_end =? 0)%nat then None else Some (line, sv_substr_abs line 0 (Some ip_end), ip_end)
    end.

Fixpoint host_loop (n : nat) (name : list Z) (ipv6 : bool) (line ip : list Z) (offset : nat) (ips : list address) : option (list address) :=
  match n with
  | O => None
  | S n =>
    match sv_find_if line not_space offset with
    | None => Some ips
    | Some host_start =>
      let host_end := sv_find_if line is_space host_start in
      let host := sv_substr_abs line host_start host_end in
      ips ← (if bool_decide (host = name) then push_address ipv6 ip ips else Some ips);
      match host_end with
      | None => Some ips
      | Some e => host_loop n name ipv6 line ip e ips
      end
    end
  end.

Fixpoint name_in_hosts (l : list (list Z)) (name : list Z) (ipv6 : bool) (ips : list address) : option (list address) :=
  match l with
  | [] => Some ips
  | buf :: r =>
    ips ← match hosts_line buf with
          | None => Some ips
          | Some (line, ip, ip_end) => host_loop (S (length line)) name ipv6 line ip ip_end ips
          end;
    name_in_hosts r name ipv6 ips
  end.

Definition resolve_name_in_hosts (hosts : file) (name : list Z) (ipv6 : bool) (ips : list address) : option (list address) :=
  match hosts with None => Some ips | Some l => name_in_hosts l name ipv6 ips end.

(** The address of the line is the one looked for. *)
Definition same_address (ip_str : list Z) (ip : address) : option bool :=
  match ip with
  | V6 w => a ← parse_ipv6 ip_str; Some (bool_decide (a = Some w))
  | V4 v => a ← parse_ipv4 ip_str; Some (bool_decide (a = Some v))
  end.

Fixpoint addr_in_hosts (l : list (list Z)) (ip : address) : option (option (list Z)) :=
  match l with
  | [] => Some None
  | buf :: r =>
    match hosts_line buf with
    | None => addr_in_hosts r ip
    | Some (line, ip_str, ip_end) =>
      same ← same_address ip_str ip;
      if negb same then addr_in_hosts r ip
      else
        match sv_find_if line not_space ip_end with
        | None => addr_in_hosts r ip
        | Some host_start => Some (Some (sv_substr_abs line host_start (sv_find_if line is_space host_start)))
        end
    end
  end.

Definition resolve_addr_in_hosts (hosts : file) (ip : address) : option (option (list Z)) :=
  match hosts with None => Some None | Some l => addr_in_hosts l ip end.

(** ** /etc/services *)

(** The line without its comment, the name, the port and the position behind it. *)
Definition service_line (buf : list Z) : option (list Z * list Z * list Z * option nat) :=
  let line := strip_comment buf in
  let name_end := sv_find_if line is_space 0 in
  let service_name := sv_substr_abs line 0 name_end in
  match sv_find_if line not_space (pos line name_end) with
  | None => None
  | Some port_start =>
    let port_end := sv_find_if line is_space port_start in
    Some (line, service_name, sv_substr_abs line port_start port_end, port_end)
  end.

(** [end == "/tcp" && tcp || end == "/udp" && !tcp]. *)
Definition protocol_matches (e : list Z) (tcp : bool) : bool :=
  (bool_decide (e = chars "/tcp") && tcp) || (bool_decide (e = chars "/udp") && negb tcp).

(** [Some (Some r)] when the port is the one to return; [skip] is 1 for the name and 0 for
    an alias. *)
Definition port_result (port : list Z) (skip : Z) (tcp : bool) : option (Z * bool) :=
  let '(real_port, count) := to_int 16 10 port in
  let e := sv_substr port (count + skip) in
  if protocol_matches e tcp then Some (real_port, bool_decide (e = chars "/tcp")) else None.

Fixpoint alias_loop (n : nat) (line : list Z) (offset : nat) : option (list (list Z)) :=
  match n with
  | O => None
  | S n =>
    let alias_start := sv_find_if line not_space offset in
    let alias_end := sv_find_if line is_space (pos line alias_start) in
    let alias := sv_substr_abs line (pos line alias_start) alias_end in
    if (length alias =? 0)%nat then Some []
    else
      match alias_end with
      | None => Some [alias]
      | Some e => rest ← alias_loop n line (e + 1); Some (alias :: rest)
      end
  end.

(** The aliases in turn; the body of the loop does not depend on earlier rounds. *)
Fixpoint match_alias (l : list (list Z)) (name port : list Z) (tcp : bool) : option (Z * bool) :=
  match l with
  | [] => None
  | alias :: r =>
    match (if bool_decide (alias = name) then port_result port 0 tcp else None) with
    | Some x => Some x
    | None => match_alias r name port tcp
    end
  end.

Fixpoint name_in_services (l : list (list Z)) (name : list Z) (tcp : bool) : option (option (Z * bool)) :=
  match l with
  | [] => Some None
  | buf :: r =>
    match service_line buf with
    | None => name_in_services r name tcp
    | Some (line, service_name, port, port_end) =>
      match (if bool_decide (service_name = name) then port_result port 1 tcp else None) with
      | Some x => Some (Some x)
      | None =>
        aliases ← alias_loop (S (length line)) line (pos line port_end);
        match match_alias aliases name port tcp with
        | Some x => Some (Some x)
        | None => name_in_services r name tcp
        end
      end
    end
  end.

Definition resolve_name_in_services (services : file) (name : list Z) (tcp : bool) : option (option (Z * bool)) :=
  match services with None => Some None | Some l => name_in_services l name tcp end.

Fixpoint port_in_services (l : list (list Z)) (port : Z) : option (list Z) :=
  match l with
  | [] => None
  | buf :: r =>
    match service_line buf with
    | Some (_, service_name, port_str, _) =>
      if (to_int 16 10 port_str).1 =? port then Some service_name else port_in_services r port
    | None => port_in_services r port
    end
  end.

Definition resolve_port_in_services (services : file) (port : Z) : option (list Z) :=
  match services with None => None | Some l => port_in_services l port end.

(** ** Questions to the name servers *)

Section Ask.
(** The exchange with a server in a round; /etc/resolv.conf; the bytes of the reply buffer
    before the reply. *)
Context (ask : address -> nat -> list Z -> exchange) (resolv : file) (stack : list Z).

Definition LOCALHOST : Z := 127 + 2 ^ 24.

Definition of_option {A} (x : option A) : dres A := match x with Some a => DOk a | None => DFault end.

(** [Query::send(response, 256)] up to the contents of the buffer; [inl] the error. *)
Definition send (type : Z) (req : list Z) : dres (Z + list Z) :=
  name_servers ← of_option (get_nameservers resolv);
  let name_servers := if bool_decide (name_servers = []) then [V4 LOCALHOST] else name_servers in
  match query_send ask name_servers (finish_query type req) 256 with
  | inl e => DOk (if e =? 0 then inr stack else inl e)
  | inr reply => DOk (inr (reply ++ drop (length reply) stack))
  end.

Fixpoint add_all (segs : list (list Z)) (req : list Z) : dres (list Z) :=
  match segs with
  | [] => DOk req
  | s :: r => match add_segment s req with Some req => add_all r req | None => DPanic end
  end.

(** A segment for each part between dots. *)
Fixpoint add_chunks (n : nat) (name : list Z) (offset : nat) (req : list Z) : dres (list Z) :=
  match n with
  | O => DNoFuel
  | S n =>
    let next_offset := sv_find name 46 offset in
    let chunk := sv_substr_abs name offset next_offset in
    req ← add_all [chunk] req;
    match next_offset with
    | None => DOk req
    | Some k => add_chunks n name (k + 1) req
    end
  end.

Definition EAI_FAMILY : Z := -6.
Definition EAI_SERVICE : Z := -8.
Definition EAI_OVERFLOW : Z := -12.

Definition HEX_CHARS : list Z := chars "0123456789abcdef".
Definition hex_segment (v : Z) : list Z := [nth (Z.to_nat v) HEX_CHARS 0].

(** The bytes of an address in memory order. *)
Definition s6_bytes (w : list Z) : list Z := flat_map (fun v => [v mod 256; v / 256]) w.

(** Two segments for each byte, from the last byte. *)
Definition nibble_segments (w : list Z) : list (list Z) :=
  flat_map (fun byte => [hex_segment (Z.land byte 0xF); hex_segment (Z.shiftr byte 4)]) (rev (s6_bytes w)).

(** The callback of [resolve_addr_dns]: what is copied to [dest]. *)
Definition on_ptr (res : list Z) (dest_size : Z) (type : Z) (ptr : nat) (dest : option (list Z)) : dres (Z * option (list Z)) :=
  if type =? PTR then
    '(name, _) ← parse_dns_name res ptr;
    if dest_size <? zlen name + 1 then DOk (EAI_OVERFLOW, dest) else DOk (ESRCH, Some (name ++ [0]))
  else DOk (0, dest).

Definition resolve_addr_dns (addr : list Z) (ipv6 : bool) (dest_size : Z) : dres (Z * option (list Z)) :=
  req ← (if ipv6 then
           parsed ← of_option (parse_ipv6 addr);
           match parsed with
           | None => DPanic
           | Some w => add_all (nibble_segments w ++ [chars "ip6"]) query_header
           end
         else
           req ← add_chunks (S (length addr)) addr 0 query_header;
           add_all [chars "in-addr"] req);
  req ← add_all [chars "arpa"] req;
  sent ← send PTR req;
  '(err, dest) ← match sent with
                 | inl e => DOk (e, None)
                 | inr res => read_response (on_ptr res dest_size) res None
                 end;
  DOk (if err =? 0 then EAI_NONAME else if err =? ESRCH then 0
       else if err =? EAI_OVERFLOW then EAI_OVERFLOW else EAI_FAIL, dest).

Definition reply_of (sent : Z + list Z) : option (list Z) := match sent with inl _ => None | inr res => Some res end.

Definition resolve_canon_dns (name dest : list Z) : dres (Z * list Z) :=
  req ← add_chunks (S (length name)) name 0 query_header;
  sent ← send CNAME req;
  match sent with
  | inl e => DOk (if e =? ESRCH then 0 else EAI_FAIL, dest)
  | inr res => resolve_canon_reply (Some res) dest
  end.

Definition resolve_name_dns (name : list Z) (ipv6 : bool) (ips : list address) : dres (Z * list address) :=
  req ← add_chunks (S (length name)) name 0 query_header;
  sent ← send (if ipv6 then AAAA else A) req;
  resolve_name_reply (reply_of sent) ipv6 ips.

(** ** [getnameinfo] *)

Context (hosts services : file) `{ToInteger} (order : Z -> Z).

Definition NI_NUMERICHOST : Z := 1.
Definition NI_NUMERICSERV : Z := 2.
Definition NI_NAMEREQD : Z := 8.

(** [flags & f] *)
Definition has (flags f : Z) : bool := negb (Z.land flags f =? 0).

Record sockaddr := { sa_family : Z; sa_addr : address; sa_port : Z }.

Definition sockaddr_size (family : Z) : Z := if family =? AF_INET then 16 else 28.

(** [snprintf(serv, serv_len, "%u", port)] and its bound; [inl] is the error. *)
Definition print_port (port serv_len : Z) : dres (Z + list Z) :=
  match snprintf 3 serv_len [37; 117] 0 [AInt port] with
  | SnRet size _ _ buffer => if serv_len <? u64 (u64 size + 1) then DOk (inl EAI_OVERFLOW) else DOk (inr buffer)
  | _ => DFault
  end.

(** A copy with its terminator. *)
Definition copy_out (len : Z) (s : list Z) : Z + list Z :=
  if len <? zlen s + 1 then inl EAI_OVERFLOW else inr (s ++ [0]).

Definition service_text (port serv_len flags : Z) : dres (Z + list Z) :=
  if has flags NI_NUMERICSERV then print_port port serv_len
  else match resolve_port_in_services services port with
       | Some res => DOk (copy_out serv_len res)
       | None => print_port port serv_len
       end.

(** The text [inet_ntop] stores, without its terminator. *)
Definition address_text (addr : address) (family : Z) : dres (list Z) :=
  match inet_ntop order family addr INET6_ADDRSTRLEN with
  | NtopRet _ buffer => DOk (take (length buffer - 1) buffer)
  | _ => DPanic
  end.

(** The result of the host part and what is stored. *)
Definition host_text (addr : address) (family host_len flags : Z) : dres (Z * option (list Z)) :=
  addr_str ← address_text addr family;
  let numeric :=
    if has flags NI_NAMEREQD then DOk (EAI_NONAME, None)
    else match copy_out host_len addr_str with inl e => DOk (e, None) | inr b => DOk (0, Some b) end in
  if has flags NI_NUMERICHOST then numeric
  else
    in_hosts ← of_option (resolve_addr_in_hosts hosts addr);
    match in_hosts with
    | Some res => match copy_out host_len res with inl e => DOk (e, None) | inr b => DOk (0, Some b) end
    | None =>
      '(dns_res, dest) ← resolve_addr_dns addr_str (family =? AF_INET6) host_len;
      if negb (dns_res =? EAI_NONAME) then DOk (dns_res, dest) else numeric
    end.

(** The result, the host and the service; a length is 0 for a null pointer too. *)
Definition getnameinfo (addr : sockaddr) (addr_len host_len serv_len flags : Z) : dres (Z * option (list Z) * option (list Z)) :=
  if negb ((sa_family addr =? AF_INET) || (sa_family addr =? AF_INET6)) || (addr_len <? sockaddr_size (sa_family addr))
  then DOk (EAI_FAMILY, None, None)
  else
    serv ← (if serv_len =? 0 then DOk (inr None)
            else x ← service_text (sa_port addr) serv_len flags;
                 DOk (match x with inl e => inl e | inr b => inr (Some b) end));
    match serv with
    | inl e => DOk (e, None, None)
    | inr serv =>
      if host_len =? 0 then DOk (0, None, serv)
      else '(r, host) ← host_text (sa_addr addr) (sa_family addr) host_len flags; DOk (r, host, serv)
    end.

(** ** [getaddrinfo] *)

Definition AF_UNSPEC : Z := 0.
Definition AI_PASSIVE : Z := 1.
Definition AI_CANONNAME : Z := 2.
Definition AI_NUMERICHOST : Z := 4.
Definition AI_V4MAPPED : Z := 8.
Definition AI_ADDRCONFIG : Z := 0x20.
Definition AI_NUMERICSERV : Z := 0x400.
Definition SOCK_STREAM : Z := 1.
Definition SOCK_DGRAM : Z := 2.

Definition IPV6_LOOPBACK : list Z := replicate 7 0 ++ [256].
Definition IPV6_ANY : list Z := replicate 8 0.

Record hints := { ai_flags : Z; ai_family : Z; ai_socktype : Z; ai_protocol : Z }.

(** An element of the result; the family is the address's. *)
Record addrinfo := { i_addr : address; i_port : Z; i_socktype : Z; i_protocol : Z; i_canonname : option (list Z) }.

(** [AI_NUMERICHOST]: [None] is [EAI_NONAME]. *)
Definition numeric_host (node : list Z) (use_ipv4 use_ipv6 : bool) (family : Z) : dres (option (list address)) :=
  let v4 := a ← of_option (parse_ipv4 node); DOk (match a with Some v => Some [V4 v] | None => None end) in
  let v6 := a ← of_option (parse_ipv6 node); DOk (match a with Some w => Some [V6 w] | None => None end) in
  if use_ipv4 && (family =? AF_INET) then v4
  else if use_ipv6 && (family =? AF_INET6) then v6
  else if family =? AF_UNSPEC then
    a ← (if use_ipv4 then v4 else DOk None);
    match a with
    | Some l => DOk (Some l)
    | None => if use_ipv6 then v6 else DOk None
    end
  else DOk None.

(** The lookups in files and at the servers; [inl] is the error. *)
Definition lookup_host (name : list Z) (use_ipv4 use_ipv6 : bool) : dres (Z + list address) :=
  ips ← (if use_ipv6 then
           ips ← of_option (resolve_name_in_hosts hosts name true []);
           '(_, ips) ← resolve_name_dns name true ips; DOk ips
         else DOk []);
  x ← (if use_ipv4 then
         ips ← of_option (resolve_name_in_hosts hosts name false ips);
         '(err, ips) ← resolve_name_dns name false ips;
         DOk (if bool_decide (ips = []) && negb (err =? 0) then inl err else inr ips)
       else DOk (inr ips));
  DOk (match x with inl e => inl e | inr ips => if bool_decide (ips = []) then inl EAI_NONAME else inr ips end).

(** The name to look up and the addresses: [inl] the error. *)
Definition resolve_node (node : option (list Z)) (flags family : Z) (use_ipv4 use_ipv6 : bool) : dres (Z + list Z * list address) :=
  match node with
  | Some node =>
    if has flags AI_NUMERICHOST then
      ips ← numeric_host node use_ipv4 use_ipv6 family;
      DOk (match ips with None => inl EAI_NONAME | Some ips => inr ([], ips) end)
    else
      name ← (if has flags AI_CANONNAME then
                '(err, name) ← resolve_canon_dns node [];
                DOk (if negb (err =? 0) then node else name)
              else DOk node);
      x ← lookup_host name use_ipv4 use_ipv6;
      DOk (match x with inl e => inl e | inr ips => inr (name, ips) end)
  | None =>
    let passive := has flags AI_PASSIVE in
    DOk (inr ([], (if use_ipv6 then [V6 (if passive then IPV6_ANY else IPV6_LOOPBACK)] else []) ++
                  (if use_ipv4 then [V4 (if passive then 0 else LOCALHOST)] else [])))
  end.

(** The port and the type of socket: [inl] the error. *)
Definition resolve_service (service : option (list Z)) (flags socket_type : Z) : dres (Z + Z * Z) :=
  match service with
  | None => DOk (inr (0, socket_type))
  | Some view =>
    let '(value, count) := to_int 16 10 view in
    if has flags AI_NUMERICSERV then
      DOk (if negb (count =? zlen view) then inl EAI_NONAME else inr (value, socket_type))
    else if count =? zlen view then DOk (inr (value, socket_type))
    else
      x ← of_option (resolve_name_in_services services view ((socket_type =? SOCK_STREAM) || (socket_type =? 0)));
      DOk (match x with
           | Some (port, tcp) => inr (port, if tcp : bool then SOCK_STREAM else SOCK_DGRAM)
           | None => inl EAI_SERVICE
           end)
  end.

(** [probe4]: a datagram socket can be connected to the IPv4 loopback address. *)
Definition getaddrinfo (probe4 : bool) (node service : option (list Z)) (h : option hints) : dres (Z + list addrinfo) :=
  match node, service with
  | None, None => DOk (inl EAI_NONAME)
  | _, _ =>
    let h := default {| ai_flags := Z.lor AI_V4MAPPED AI_ADDRCONFIG; ai_family := AF_UNSPEC; ai_socktype := 0; ai_protocol := 0 |} h in
    let flags := ai_flags h in
    let use_ipv4 := ((ai_family h =? AF_INET) || (ai_family h =? AF_UNSPEC)) && (if has flags AI_ADDRCONFIG then probe4 else true) in
    let use_ipv6 := false in
    x ← resolve_node node flags (ai_family h) use_ipv4 use_ipv6;
    match x with
    | inl e => DOk (inl e)
    | inr (name, ips) =>
      y ← resolve_service service flags (ai_socktype h);
      DOk (match y with
           | inl e => inl e
           | inr (port, socket_type) =>
             inr (map (fun ip => {| i_addr := ip; i_port := port; i_socktype := socket_type; i_protocol := ai_protocol h;
                                    i_canonname := if bool_decide (name = []) then None else Some name |}) ips)
           end)
    end
  end.

(** ** [gethostbyname] *)

Definition NO_RECOVERY : Z := 3.
Definition HOST_NOT_FOUND : Z := 1.

(** An array on the heap that the static entry points to: none, one it owns, one that is
    freed already. *)
Inductive owned := Null | Live (l : list address) | Freed.

Record hostent := { h_name : option (list Z); h_aliases : option (list (list Z)); h_addrtype : Z; h_length : Z; h_addr_list : owned }.

(** What the call frees first; freeing an array twice is a fault. *)
Definition release (e : hostent) : dres hostent :=
  match h_addr_list e with
  | Freed => DFault
  | l => DOk {| h_name := None; h_aliases := None; h_addrtype := h_addrtype e; h_length := h_length e;
                h_addr_list := match l with Null => Null | _ => Freed end |}
  end.

Definition is_v4 (a : address) : bool := match a with V4 _ => true | V6 _ => false end.

(** The addresses of one family, IPv4 when there are any. *)
Definition chosen (ips : list address) : list address :=
  if existsb is_v4 ips then List.filter is_v4 ips else List.filter (fun a => negb (is_v4 a)) ips.

(** [inl] is [h_errno] with a null pointer; the second component is the static entry. *)
Definition gethostbyname (name : list Z) (e : hostent) : dres ((Z + hostent) * hostent) :=
  e ← release e;
  literal ← of_option (parse_ipv4 name);
  match literal with
  | Some v =>
    let e := {| h_name := Some name; h_aliases := None; h_addrtype := AF_INET; h_length := 4; h_addr_list := Live [V4 v] |} in
    DOk (inr e, e)
  | None =>
    '(res, canon_name) ← resolve_canon_dns name [];
    let canon_name := if negb (res =? 0) then name else canon_name in
    ips ← of_option (resolve_name_in_hosts hosts canon_name true []);
    '(_, ips) ← resolve_name_dns canon_name true ips;
    '(err, ips) ← resolve_name_dns canon_name false ips;
    if bool_decide (ips = []) then DOk (inl (if negb (err =? 0) then NO_RECOVERY else HOST_NOT_FOUND), e)
    else
      let e := {| h_name := Some canon_name;
                  h_aliases := if bool_decide (canon_name = name) then None else Some [name];
                  h_addrtype := if existsb is_v4 ips then AF_INET else AF_INET6;
                  h_length := if existsb is_v4 ips then 4 else 16;
                  h_addr_list := Live (chosen ips) |} in
      DOk (inr e, e)
  end.
End Ask.

(** ** [getservbyname] *)

Record servent := { s_name : list Z; s_aliases : list (list Z); s_port : Z; s_proto : list Z }.

(** [proto] is empty for a null pointer. *)
Fixpoint service_by_name (l : list (list Z)) (name proto : list Z) : option (option servent) :=
  match l with
  | [] => Some None
  | buf :: r =>
    match service_line buf with
    | None => service_by_name r name proto
    | Some (line, service_name, port, port_end) =>
      let '(real_port, count) := to_int 16 10 port in
      let e := sv_substr port (count + 1) in
      if bool_decide (service_name = name) &&
         ((length proto =? 0)%nat || (bool_decide (proto = chars "tcp") && bool_decide (e = chars "tcp")) ||
          (bool_decide (proto = chars "udp") && bool_decide (e = chars "udp"))) then
        aliases ← alias_loop (S (length line)) line (pos line port_end);
        Some (Some {| s_name := name; s_aliases := aliases; s_port := real_port; s_proto := e |})
      else service_by_name r name proto
    end
  end.

Definition getservbyname (services : file) (name proto : list Z) : option (option servent) :=
  match services with None => Some None | Some l => service_by_name l name proto end.

Definition gai_strerror (err_code : Z) : list Z :=
  match err_code with
  | -1 => chars "Bad value for ai_flags"
  | -2 => chars "Name or service not known"
  | -3 => chars "Temporary failure in name resolution"
  | -4 => chars "Non-recoverable failure in name resolution"
  | -6 => chars "ai_family not supported"
  | -7 => chars "ai_socktype not supported"
  | -8 => chars "Service not supported for ai_socktype"
  | -10 => chars "Memory allocation failure"
  | -11 => chars "System error"
  | -12 => chars "Result too large for supplied buffer"
  | -5 => chars "No address associated with hostname"
  | -9 => chars "Address family for hostname not supported"
  | -100 => chars "Processing request in progress"
  | -101 => chars "Request canceled"
  | -102 => chars "Request not canceled"
  | -103 => chars "All requests done"
  | -104 => chars "Interrupted by a signal"
  | -105 => chars "Parameter string not correctly encoded"
  | _ => chars "Unknown error"
  end.
End Netdb.

(** ** The words of a line *)

Section Facts.
Context `{StringView} `{ParseInt} `{StringSearch}.

(** The pieces between spaces, and those that are not empty. *)
Fixpoint split_spaces (s : list Z) : list (list Z) :=
  match s with
  | [] => [[]]
  | c :: r => if is_space c then [] :: split_spaces r
              else match split_spaces r with w :: ws => (c :: w) :: ws | [] => [[c]] end
  end.

Definition words (s : list Z) : list (list Z) := filter (fun w => w <> []) (split_spaces s).

Lemma not_space_negb c : not_space c = negb (is_space c).
Proof. unfold not_space, is_space. by rewrite negb_involutive. Qed.

Lemma split_spaces_find s : split_spaces s =
  match list_find (fun c => is_space c = true) s with None => [s] | Some (e, _) => take e s :: split_spaces (drop (S e) s) end.
Proof.
  induction s as [| c r IH]; [reflexivity |]. cbn [split_spaces list_find]. destruct (is_space c) eqn:E.
  - by rewrite decide_True by done.
  - rewrite decide_False by done. rewrite IH. by destruct (list_find _ r) as [[e x] |].
Qed.

Lemma words_space c r : is_space c = true -> words (c :: r) = words r.
Proof. intros E. unfold words. cbn [split_spaces]. by rewrite E. Qed.

Lemma words_word s : (exists c r, s = c :: r /\ is_space c = false) -> words s =
  match list_find (fun c => is_space c = true) s with None => [s] | Some (e, _) => take e s :: words (drop e s) end.
Proof.
  intros (c & r & -> & E). unfold words. rewrite (split_spaces_find (c :: r)). destruct (list_find _ (c :: r)) as [[e x] |] eqn:F.
  - apply list_find_Some in F as (L & X & _). destruct e as [| e]; [cbn in L; injection L as <-; congruence |].
    rewrite filter_cons_True by done. f_equal. fold (words (drop (S e) (c :: r))).
    erewrite (drop_S (c :: r) x (S e)) by exact L. by rewrite words_space.
  - by rewrite filter_cons_True.
Qed.

(** What the loops find first. *)
Lemma words_find s : words s =
  match list_find (fun c => not_space c = true) s with
  | None => []
  | Some (k, _) =>
    match list_find (fun c => is_space c = true) (drop k s) with
    | None => [drop k s]
    | Some (e, _) => take e (drop k s) :: words (drop (k + e) s)
    end
  end.
Proof.
  induction s as [| c r IH]; [reflexivity |]. cbn [list_find]. destruct (is_space c) eqn:E.
  - rewrite words_space, IH by done. rewrite decide_False by (rewrite not_space_negb, E; done).
    by destruct (list_find _ r) as [[k x] |].
  - rewrite decide_True by (rewrite not_space_negb, E; done). rewrite drop_0. cbn [Nat.add].
    by rewrite words_word by (exists c, r; done).
Qed.

(** The same with the operations of the code. *)
Lemma words_at line offset : words (drop offset line) =
  match sv_find_if line not_space offset with
  | None => []
  | Some k =>
    match sv_find_if line is_space k with
    | None => [sv_substr_abs line k None]
    | Some e => sv_substr_abs line k (Some e) :: words (drop e line)
    end
  end.
Proof.
  rewrite words_find, sv_find_if_law. destruct (list_find _ (drop offset line)) as [[k x] |]; cbn [mbind option_bind fst]; [| reflexivity].
  rewrite sv_find_if_law, drop_drop. destruct (list_find _ (drop (offset + k) line)) as [[e y] |]; cbn [mbind option_bind fst]; rewrite sv_substr_law; [| reflexivity].
  rewrite drop_drop. f_equal; [f_equal; lia | f_equal; f_equal; lia].
Qed.

Lemma find_if_lt line p offset k : sv_find_if line p offset = Some k -> (offset <= k < length line)%nat.
Proof.
  rewrite sv_find_if_law. destruct (list_find _ _) as [[i x] |] eqn:E; [| done]. intros [= <-].
  apply list_find_Some in E as (L & _). rewrite lookup_drop in L. apply lookup_lt_Some in L. simpl. lia.
Qed.

(** A word ends behind its start. *)
Lemma word_end line offset k e : sv_find_if line not_space offset = Some k -> sv_find_if line is_space k = Some e -> (offset < e < length line)%nat.
Proof.
  intros K E. pose proof (find_if_lt _ _ _ _ K). pose proof (find_if_lt _ _ _ _ E). destruct (decide (k = e)) as [<- |]; [| lia]. exfalso.
  rewrite sv_find_if_law in K, E. destruct (list_find _ (drop offset line)) as [[i x] |] eqn:K'; [| done]. injection K as <-.
  destruct (list_find (fun c => is_space c = true) _) as [[j y] |] eqn:E'; [| done]. cbn [mbind option_bind fst] in E. injection E as Ej.
  apply list_find_Some in K' as (L & X & _). apply list_find_Some in E' as (L' & Y & _).
  rewrite lookup_drop in L, L'. assert (j = 0)%nat as -> by lia. replace (offset + i + 0)%nat with (offset + i)%nat in L' by lia.
  rewrite L in L'. injection L' as <-. rewrite not_space_negb, Y in X. done.
Qed.

(** ** Hosts *)

(** The addresses of the lines that matched, in order. *)
Fixpoint push_all (ipv6 : bool) (l : list (list Z)) (ips : list address) : option (list address) :=
  match l with [] => Some ips | ip :: r => ips ← push_address ipv6 ip ips; push_all ipv6 r ips end.

Lemma push_all_app ipv6 l k ips : push_all ipv6 (l ++ k) ips = (ips ← push_all ipv6 l ips; push_all ipv6 k ips).
Proof. revert ips. induction l as [| ip l IH]; intros ips; [reflexivity |]. cbn [push_all app]. by destruct (push_address ipv6 ip ips); cbn. Qed.

(** One copy of the address for each time the name is among the hosts. *)
Definition copies (name ip : list Z) (hs : list (list Z)) : list (list Z) := map (fun _ => ip) (filter (fun h => h = name) hs).

Lemma host_loop_ok name ipv6 line ip n : forall offset ips, (length line - offset < n)%nat ->
  host_loop n name ipv6 line ip offset ips = push_all ipv6 (copies name ip (words (drop offset line))) ips.
Proof.
  induction n as [| n IH]; intros offset ips Hn; [lia |]. cbn [host_loop]. rewrite words_at.
  destruct (sv_find_if line not_space offset) as [k |] eqn:K; [| reflexivity].
  destruct (sv_find_if line is_space k) as [e |] eqn:E.
  - pose proof (word_end _ _ _ _ K E). unfold copies. rewrite filter_cons. destruct (decide (sv_substr_abs line k (Some e) = name)) as [D | D].
    + rewrite bool_decide_true by done. cbn [map push_all]. destruct (push_address ipv6 ip ips); cbn; [apply IH; lia | reflexivity].
    + rewrite bool_decide_false by done. cbn [mbind option_bind]. apply IH. lia.
  - unfold copies. rewrite filter_cons. destruct (decide (sv_substr_abs line k None = name)).
    + rewrite bool_decide_true by done. cbn [map filter push_all list_filter]. by destruct (push_address ipv6 ip ips).
    + by rewrite bool_decide_false by done.
Qed.

(** The text before a number sign. *)
Fixpoint before_hash (s : list Z) : list Z := match s with c :: r => if c =? 35 then [] else c :: before_hash r | [] => [] end.

Lemma strip_comment_ok s : strip_comment s = before_hash s.
Proof.
  unfold strip_comment. rewrite sv_find_law, drop_0. induction s as [| c r IH]; [reflexivity |]. cbn [list_find before_hash].
  destruct (Z.eqb_spec c 35) as [-> | N].
  - rewrite decide_True by done. cbn. rewrite sv_substr_law. reflexivity.
  - rewrite decide_False by done. destruct (list_find _ r) as [[k x] |]; cbn in IH |- *; rewrite <- IH; rewrite ?sv_substr_law; [| done].
    by rewrite !drop_0, !Nat.sub_0_r.
Qed.

(** The hosts of a line with their address: a line that starts with a space has none. *)
Definition line_matches (name buf : list Z) : list (list Z) :=
  match before_hash buf with
  | c :: r => if is_space c then [] else match words (c :: r) with ip :: hs => copies name ip hs | [] => [] end
  | [] => []
  end.

Lemma hosts_line_ok name ipv6 buf ips :
  match hosts_line buf with
  | None => Some ips
  | Some (line, ip, ip_end) => host_loop (S (length line)) name ipv6 line ip ip_end ips
  end = push_all ipv6 (line_matches name buf) ips.
Proof.
  unfold hosts_line, line_matches, starts_with. destruct buf as [| c0 r0]; [reflexivity |]. cbn [length Nat.eqb take orb].
  case_bool_decide as D; [injection D as ->; reflexivity |].
  rewrite strip_comment_ok. cbn [before_hash]. destruct (Z.eqb_spec c0 35) as [-> | _]; [done |].
  set (line := c0 :: before_hash r0). destruct (is_space c0) eqn:S.
  - rewrite sv_find_if_law, drop_0. unfold line. cbn [list_find]. by rewrite decide_True by done.
  - rewrite words_word by (exists c0, (before_hash r0); done). fold line. rewrite sv_find_if_law, drop_0.
    destruct (list_find _ line) as [[e x] |] eqn:F; cbn [mbind option_bind fst Nat.add]; [| reflexivity].
    destruct e as [| e]; [apply list_find_Some in F as (L & X & _); cbn in L; injection L as <-; congruence |].
    cbn [Nat.eqb]. rewrite host_loop_ok by lia. f_equal. rewrite sv_substr_law, Nat.sub_0_r, drop_0. reflexivity.
Qed.

Lemma name_in_hosts_ok name ipv6 l : forall ips, name_in_hosts l name ipv6 ips = push_all ipv6 (flat_map (line_matches name) l) ips.
Proof.
  induction l as [| buf l IH]; intros ips; [reflexivity |]. cbn [name_in_hosts flat_map]. rewrite hosts_line_ok, push_all_app.
  destruct (push_all ipv6 (line_matches name buf) ips); cbn; [apply IH | reflexivity].
Qed.

(** The value of a dotted address. *)
Definition ipv4_value (ip : list Z) : option address := V4 <$> (vs ← mapM (segment_value 8 10) (split_dots ip); pack4 vs).

Definition hosts_addresses (hosts : file) (name : list Z) : list address :=
  match hosts with None => [] | Some l => omap ipv4_value (flat_map (line_matches name) l) end.

Lemma resolve_name_in_hosts_ok hosts name ips : resolve_name_in_hosts hosts name false ips = Some (ips ++ hosts_addresses hosts name).
Proof.
  unfold resolve_name_in_hosts, hosts_addresses. destruct hosts as [l |]; [| by rewrite app_nil_r]. rewrite name_in_hosts_ok.
  generalize (flat_map (line_matches name) l) as k. clear l. intros k. revert ips.
  induction k as [| ip k IH]; intros ips; [by rewrite app_nil_r |]. cbn [push_all omap list_omap]. unfold push_address. rewrite parse_ipv4_correct.
  cbn [mbind option_bind]. rewrite IH. unfold ipv4_value. unfold mbind, option_bind.
  destruct (mapM (segment_value 8 10) (split_dots ip)) as [vs |]; [destruct (pack4 vs) |]; cbn; rewrite <- app_assoc; reflexivity.
Qed.

(** ** The question on the wire *)

Lemma add_chunks_ok name n : forall offset req, (length name - offset < n)%nat ->
  add_chunks n name offset req = add_all (split_dots (drop offset name)) req.
Proof.
  induction n as [| n IH]; intros offset req Hn; [lia |]. cbn [add_chunks]. rewrite sv_find_law.
  pose proof (split_dots_find (drop offset name)) as S. destruct (list_find _ (drop offset name)) as [[j x] |]; cbn [mbind option_bind fst].
  - destruct S as [-> L]. rewrite length_drop in L. rewrite sv_substr_law. replace (offset + j - offset)%nat with j by lia.
    cbn [add_all]. destruct (add_segment (take j (drop offset name)) req); cbn [mbind dres_bind]; [| reflexivity].
    rewrite IH by lia. rewrite drop_drop. f_equal. f_equal. f_equal. lia.
  - rewrite S, sv_substr_law. cbn [add_all]. by destruct (add_segment (drop offset name) req).
Qed.

Lemma add_all_ok ls : Forall label_ok ls -> forall req, add_all ls req = DOk (req ++ enc_labels ls).
Proof.
  induction 1 as [| l ls Hl _ IH]; intros req; cbn [add_all]; [by rewrite app_nil_r |]. unfold add_segment. unfold label_ok in Hl.
  destruct (Z.ltb_spec 0xFF (zlen l)); [lia |]. rewrite IH, <- app_assoc. reflexivity.
Qed.

(** The question for the addresses of a name. *)
Definition question_for (name : list Z) : list Z := finish_query A (query_header ++ enc_labels (split_dots name)).

Section Lookup.
Context (ask : address -> nat -> list Z -> exchange) (resolv : file) (stack : list Z) (hosts : file).

(** The first server. *)
Definition first_server (servers : list address) : address := hd (V4 LOCALHOST) servers.

Lemma send_ok name reply servers : get_nameservers resolv = Some servers ->
  ask (first_server servers) 0 (question_for name) = Reply reply -> take 2 reply = [0x04; 0xD2] -> 12 <= zlen reply <= 256 ->
  send ask resolv stack A (query_header ++ enc_labels (split_dots name)) = DOk (inr (reply ++ drop (length reply) stack)).
Proof.
  intros G Q T L. unfold send. rewrite G. cbn [of_option mbind dres_bind].
  assert (E : exists r, (if bool_decide (servers = []) then [V4 LOCALHOST] else servers) = first_server servers :: r)
    by (destruct servers; [exists [] | eexists]; reflexivity).
  destruct E as [r ->]. unfold query_send. cbn [seq flat_map map app]. fold (question_for name). rewrite Q. cbn [try_servers].
  destruct (Z.ltb_spec (zlen reply) 12); [lia |]. rewrite bool_decide_true by exact T. cbn [negb].
  destruct (Z.ltb_spec 256 (zlen reply)); [lia |]. reflexivity.
Qed.

(** A reply with questions [qs] and answers [l], as [Dns.resolve_name_addresses] has it. *)
Record reply_ok (reply : list Z) (l : list answer) : Prop := {
  reply_size : 12 <= zlen reply <= 256;
  reply_parts : exists f1 f2 tail qs rest,
    let before := header [0x04; 0xD2; f1; f2] (zlen qs) (zlen l) tail ++ concat (map enc_question qs) in
    reply = before ++ rest /\ length tail = 4%nat /\ zlen qs < 2 ^ 16 /\ zlen l < 2 ^ 16 /\
    Forall question_ok qs /\ Forall a_record_ok l /\ answers_at (reply ++ drop (length reply) stack) (length before) l
}.

Lemma resolve_name_dns_ok name reply servers l ips : Forall label_ok (split_dots name) -> get_nameservers resolv = Some servers ->
  ask (first_server servers) 0 (question_for name) = Reply reply -> reply_ok reply l ->
  resolve_name_dns ask resolv stack name false ips =
    DOk (if bool_decide (ips ++ a_addresses l = []) then EAI_NONAME else 0, ips ++ a_addresses l).
Proof.
  intros Hn G Q [Ls (f1 & f2 & tail & qs & rest & P)]. cbv zeta in P. destruct P as (E & Lt & Bq & Bl & Fq & Fl & At). unfold resolve_name_dns.
  rewrite add_chunks_ok, drop_0, add_all_ok by (lia || exact Hn). cbn [mbind dres_bind].
  rewrite (send_ok name reply servers G Q) by (exact Ls || (rewrite E; reflexivity)). cbn [mbind dres_bind reply_of].
  rewrite E in At |- *. rewrite <- app_assoc in At |- *. by apply resolve_name_addresses.
Qed.

Lemma lookup_host_ok name reply servers l : Forall label_ok (split_dots name) -> get_nameservers resolv = Some servers ->
  ask (first_server servers) 0 (question_for name) = Reply reply -> reply_ok reply l ->
  lookup_host ask resolv stack hosts name true false =
    DOk (let all := hosts_addresses hosts name ++ a_addresses l in if bool_decide (all = []) then inl EAI_NONAME else inr all).
Proof.
  intros Hn G Q R. unfold lookup_host. cbn [mbind dres_bind]. rewrite resolve_name_in_hosts_ok. cbn [of_option mbind dres_bind app].
  rewrite (resolve_name_dns_ok name reply servers l _ Hn G Q R). cbn [mbind dres_bind].
  case_bool_decide as D; cbn [andb negb Z.eqb]; [reflexivity | by rewrite bool_decide_false].
Qed.
End Lookup.

(** ** Services *)

Lemma words_skip line e : (exists c, line !! e = Some c /\ is_space c = true) -> words (drop e line) = words (drop (e + 1) line).
Proof. intros (c & L & S). rewrite (drop_S line c e L), words_space by exact S. f_equal. f_equal. lia. Qed.

Lemma find_if_holds line p offset k : sv_find_if line p offset = Some k -> exists c, line !! k = Some c /\ p c = true.
Proof.
  rewrite sv_find_if_law. destruct (list_find _ _) as [[i x] |] eqn:E; [| done]. intros [= <-].
  apply list_find_Some in E as (L & P & _). rewrite lookup_drop in L. eauto.
Qed.

(** The aliases are the words that follow. *)
Lemma alias_loop_ok line n : forall offset, (length line - offset < n)%nat -> alias_loop n line offset = Some (words (drop offset line)).
Proof.
  induction n as [| n IH]; intros offset Hn; [lia |]. cbn [alias_loop]. rewrite words_at.
  destruct (sv_find_if line not_space offset) as [k |] eqn:K; unfold pos; cbn [default from_option id].
  - pose proof (find_if_lt _ _ _ _ K). destruct (sv_find_if line is_space k) as [e |] eqn:E.
    + pose proof (word_end _ _ _ _ K E). pose proof (find_if_lt _ _ _ _ E). rewrite sv_substr_law.
      destruct (Nat.eqb_spec (length (take (e - k) (drop k line))) 0) as [Z |].
      * rewrite length_take, length_drop in Z. assert (k = e) as <- by lia.
        destruct (find_if_holds _ _ _ _ K) as (c & L & N). destruct (find_if_holds _ _ _ _ E) as (c' & L' & S).
        rewrite L in L'. injection L' as <-. rewrite not_space_negb, S in N. done.
      * rewrite IH by lia. cbn [mbind option_bind]. rewrite <- words_skip by (apply (find_if_holds _ _ _ _ E)). reflexivity.
    + rewrite sv_substr_law, length_drop. by destruct (Nat.eqb_spec (length line - k) 0); [lia |].
  - rewrite sv_find_if_law, drop_all. cbn [list_find mbind option_bind]. rewrite sv_substr_law, drop_all. reflexivity.
Qed.

(** The lookups in the services file end, whatever it holds. *)
Theorem services_total l name tcp proto :
  is_Some (resolve_name_in_services (Some l) name tcp) /\ is_Some (getservbyname (Some l) name proto).
Proof.
  cbn [resolve_name_in_services getservbyname]. split; induction l as [| buf l IH]; cbn [name_in_services service_by_name]; eauto.
  - destruct (service_line buf) as [[[[line sn] port] pe] |]; [| exact IH]. destruct (if bool_decide _ then _ else _); [eauto |].
    rewrite alias_loop_ok by lia. cbn [mbind option_bind]. destruct (match_alias _ _ _ _); eauto.
  - destruct (service_line buf) as [[[[line sn] port] pe] |]; [| exact IH]. destruct (to_int 16 10 port) as [real count].
    destruct (_ && _); [| exact IH]. rewrite alias_loop_ok by lia. cbn. eauto.
Qed.
End Facts.

(** C18: [getaddrinfo] finds a host in /etc/hosts and at the name server.  Let the first name
    server answer the question for a name, whose parts between dots are labels of 1
    to 63 bytes, with a well-formed reply of at most 256 bytes.  Then, for a service given
    as a decimal number and hints that ask for IPv4 and neither for numeric nor
    canonical names, the result is one element for each entry of the hosts file that has
    the name among its hosts, in the order of the file, followed by one for each address
    record of the reply, each with that port, the type of the hints and the name; when
    there are none it is [EAI_NONAME]. *)
Theorem getaddrinfo_resolves `{StringView} `{ParseInt} `{StringSearch} ask resolv stack hosts services servers name reply l service port h :
  Forall label_ok (split_dots name) -> get_nameservers resolv = Some servers ->
  ask (first_server servers) 0%nat (question_for name) = Reply reply -> reply_ok stack reply l ->
  digits_of 10 port service -> 0 <= port < 2 ^ 16 ->
  has (ai_flags h) AI_NUMERICHOST = false -> has (ai_flags h) AI_CANONNAME = false -> ai_family h = AF_INET \/ ai_family h = AF_UNSPEC ->
  getaddrinfo ask resolv stack hosts services true (Some name) (Some service) (Some h) =
    DOk (let all := hosts_addresses hosts name ++ a_addresses l in
         if bool_decide (all = []) then inl EAI_NONAME
         else inr (map (fun ip => {| i_addr := ip; i_port := port; i_socktype := ai_socktype h; i_protocol := ai_protocol h;
                                     i_canonname := Some name |}) all)).
Proof.
  intros Hn G Q R D Hp F1 F2 Fam. unfold getaddrinfo. cbn [default from_option id].
  assert (((ai_family h =? AF_INET) || (ai_family h =? AF_UNSPEC)) && (if has (ai_flags h) AI_ADDRCONFIG then true else true) = true) as ->
    by (destruct Fam as [-> | ->], (has _ AI_ADDRCONFIG); reflexivity).
  unfold resolve_node. rewrite F1, F2. cbn [mbind dres_bind]. rewrite (lookup_host_ok _ _ _ _ name reply servers l Hn G Q R). cbn [mbind dres_bind].
  case_bool_decide as E; [reflexivity |]. unfold resolve_service. rewrite (to_int_law 16 10 port service ltac:(lia) D) by (change (umax 16) with 65535; lia).
  rewrite Z.eqb_refl. cbn [negb].
  assert (name <> []) as N by (intros ->; cbn in Hn; apply Forall_inv in Hn; unfold label_ok in Hn; change (zlen []) with 0 in Hn; lia).
  destruct (has (ai_flags h) AI_NUMERICSERV); cbn [mbind dres_bind]; by rewrite bool_decide_false.
Qed.

#[local] Existing Instance lists.
#[local] Existing Instance numbers.
#[local] Existing Instance widths.

#[local] Instance searches : StringSearch.
Proof.
  refine {| sv_find_if s p off := x ← list_find (fun d => p d = true) (drop off s); Some (off + x.1)%nat;
            sv_substr s k := drop (Z.to_nat k) s |}; reflexivity.
Defined.

Definition example_reply : list Z :=
  header [4; 0xD2; 0x81; 0x80] 1 3 [0; 0; 0; 0] ++ concat (map enc_question example_qs) ++ concat (map enc_answer example_answers).

Definition example_hosts : file := Some [chars "# hosts" ++ [10]; chars "10.0.0.9 b a" ++ [10]].

(** The name is in the file once, and the reply has two addresses. *)
Lemma getaddrinfo_resolves_witness :
  getaddrinfo (fun _ _ _ => Reply example_reply) None [] example_hosts None true (Some [97]) (Some [56; 48])
    (Some {| ai_flags := 0; ai_family := AF_INET; ai_socktype := SOCK_STREAM; ai_protocol := 0 |}) =
  DOk (inr (map (fun ip => {| i_addr := ip; i_port := 80; i_socktype := SOCK_STREAM; i_protocol := 0; i_canonname := Some [97] |})
                [V4 0x0900000A; V4 0x0100000A; V4 0x0200000A])).
Proof.
  refine (eq_trans (getaddrinfo_resolves (fun _ _ _ => Reply example_reply) None [] example_hosts None [] [97] example_reply example_answers [56; 48] 80
    {| ai_flags := 0; ai_family := AF_INET; ai_socktype := SOCK_STREAM; ai_protocol := 0 |} _ _ _ _ _ _ _ _ _) _); try reflexivity.
  - constructor; [unfold label_ok, zlen; simpl; lia | constructor].
  - split; [vm_compute; split; discriminate |]. exists 0x81, 0x80, [0; 0; 0; 0], example_qs, (concat (map enc_answer example_answers)).
    cbv zeta. split_and!; try reflexivity.
    + constructor; [| constructor]. split; [| reflexivity]. constructor; [unfold label_ok, zlen; simpl; lia | constructor].
    + repeat constructor; try discriminate; cbn; try lia; intros E; discriminate E.
    + cbn [answers_at example_answers]. split_and!; try (eexists; by_vm); by_vm.
  - destruct (dec_ok 80 ltac:(lia)) as (_ & D & _). assert (E : dec 80 = [56; 48]) by by_vm. by rewrite E in D.
  - lia.
  - by left.
Defined.

(** ** Findings *)

(** The name of a service is compared with the text behind the slash, which it never
    equals: only aliases are found. *)
Theorem service_name_not_found :
  let services := Some [chars "http 80/tcp www" ++ [10]] in
  resolve_name_in_services services (chars "http") true = Some None /\ resolve_name_in_services services (chars "www") true = Some (Some (80, true)).
Proof. split; by_vm. Qed.

(** A last line without a line feed loses its last character. *)
Theorem nameserver_last_line : get_nameservers (Some [chars "nameserver 10.0.0.12"]) = Some [V4 0x0100000A].
Proof. by_vm. Qed.

(** The numbers of an IPv4 address are asked for in the order of the text, not
    backwards as the domain requires. *)
Theorem reverse_lookup_order :
  add_chunks 8 (chars "1.2.3.4") 0 [] = DOk ([1; 49] ++ [1; 50] ++ [1; 51] ++ [1; 52]).
Proof. by_vm. Qed.

(** A lookup that fails leaves the freed array of the one before in the static entry, and
    the next call frees it again. *)
Theorem gethostbyname_double_free :
  let call := gethostbyname (fun _ _ _ => SocketFailed 1) None [] None in
  match call (chars "10.0.0.1") {| h_name := None; h_aliases := None; h_addrtype := 0; h_length := 0; h_addr_list := Null |} with
  | DOk (inr _, e1) =>
    match call (chars "host") e1 with
    | DOk (inl h, e2) => h = NO_RECOVERY /\ call (chars "10.0.0.1") e2 = DFault
    | _ => False
    end
  | _ => False
  end.
Proof. split; by_vm. Qed.

(** [gethostbyname] does not look for IPv4 addresses in the hosts file. *)
Theorem gethostbyname_ignores_hosts :
  match gethostbyname (fun _ _ _ => SocketFailed 1) None [] example_hosts (chars "a")
          {| h_name := None; h_aliases := None; h_addrtype := 0; h_length := 0; h_addr_list := Null |} with
  | DOk (r, _) => r = inl NO_RECOVERY
  | _ => False
  end.
Proof. by_vm. Qed.

(** The port of a socket address, which is in network order, is used as it is: port 80 of
    an address that was built with [htons] is looked up and printed as 20480. *)
Theorem getnameinfo_port_order :
  match getnameinfo (fun _ _ _ => SocketFailed 1) None [] None None (fun x => x)
          {| sa_family := AF_INET; sa_addr := V4 0x0100007F; sa_port := 0x5000 |} 16 0 8 NI_NUMERICSERV with
  | DOk (r, _, serv) => r = 0 /\ serv = Some (chars "20480" ++ [0])
  | _ => False
  end.
Proof. split; by_vm. Qed.
