(* ===== verification/Getopt.v ===== *)
(** * Command line options

    [getopt] of [src/src/posix/getopt.cpp] and [getopt_long] of
    [src/src/glibc/getopt.cpp].

    A string is the list of its characters, as values of [char], without the terminator; a
    pointer into it is the list of the characters from there on.  [argv] has [argc] strings
    and a null pointer, which matters for [getopt_long] only: it moves the pointers of
    [argv].  The result [None] stands for an access behind a string, outside of [argv] or
    through a null pointer, and for a failed [__ensure].  Messages on [stderr] are recorded
    by what they complain about.  Whether the environment has [POSIXLY_CORRECT] is the
    argument [posixly_correct]; the table of long options is the list of its rows in front
    of the one without a name.

    The theorems [getopt_parses] and [getopt_long_parses] describe the two functions on all
    command lines of a grammar ([spells], [mixed]); the lemmas at the end show on examples
    where they differ from what POSIX and glibc document. *)

From stdpp Require Import base list option sets.
From S2P Require Import Prelude.

#[local] Open Scope Z_scope.

Definition DASH : Z := 45.
Definition COLON : Z := 58.
Definition QUESTION : Z := 63.
Definition PLUS : Z := 43.

(** The character at a pointer: 0 at the end. *)
Definition chr (s : list Z) (i : nat) : Z := nth i s 0.

(** [strchr(s, c)] for [c] other than 0: the text from the character on. *)
Fixpoint strchr_from (s : list Z) (c : Z) : option (list Z) :=
  match s with [] => None | d :: r => if d =? c then Some s else strchr_from r c end.

Inductive complaint := Unknown (c : Z) | MissingArgument (c : Z) | UnknownLong (s : list Z) | MissingLong (s : list Z).

(** ** [getopt] *)

Record opts := { optarg : option (list Z); optind : Z; optopt : Z; CURRENT_PTR : option (list Z); messages : list complaint }.

Definition with_optarg (a : option (list Z)) (s : opts) : opts :=
  {| optarg := a; optind := optind s; optopt := optopt s; CURRENT_PTR := CURRENT_PTR s; messages := messages s |}.
Definition with_optind (i : Z) (s : opts) : opts :=
  {| optarg := optarg s; optind := i; optopt := optopt s; CURRENT_PTR := CURRENT_PTR s; messages := messages s |}.
Definition with_ptr (p : option (list Z)) (s : opts) : opts :=
  {| optarg := optarg s; optind := optind s; optopt := optopt s; CURRENT_PTR := p; messages := messages s |}.
Definition complain (m : complaint) (s : opts) : opts :=
  {| optarg := optarg s; optind := optind s; optopt := optopt s; CURRENT_PTR := CURRENT_PTR s; messages := messages s ++ [m] |}.

Definition initial_opts : opts := {| optarg := None; optind := 1; optopt := 0; CURRENT_PTR := None; messages := [] |}.

(** [argv[i]]. *)
Definition arg_at (argv : list (list Z)) (i : Z) : option (list Z) := if i <? 0 then None else argv !! Z.to_nat i.

Section Getopt.
Context (argv : list (list Z)) (opt_string : list Z).

Definition argc : Z := zlen argv.

(** A character of the current argument and what follows. *)
Definition option_char (s : opts) (c : Z) (rest : list Z) : option (Z * opts) :=
  let s := with_ptr (Some rest) s in
  match (if c =? COLON then None else strchr_from opt_string c) with
  | None => Some (QUESTION, complain (Unknown c) s)
  | Some contained =>
    if chr contained 1 =? COLON then
      if negb (bool_decide (rest = [])) then Some (c, with_ptr None (with_optarg (Some rest) s))
      else if optind s <? argc then
        a ← arg_at argv (optind s); Some (c, with_optind (optind s + 1) (with_optarg (Some a) s))
      else Some (COLON, complain (MissingArgument c) s)
    else Some (c, s)
  end.

Definition getopt (s : opts) : option (Z * opts) :=
  let s := with_optarg None s in
  match CURRENT_PTR s with
  | Some (c :: rest) => option_char s c rest
  | _ =>
    let s := if optind s =? 0 then with_optind (optind s + 1) s else s in
    if argc <=? optind s then Some (-1, s)
    else
      a ← arg_at argv (optind s);
      if negb (chr a 0 =? DASH) || (chr a 1 =? 0) then Some (-1, s)
      else if (chr a 1 =? DASH) && (chr a 2 =? 0) then Some (-1, with_optind (optind s + 1) s)
      else
        match drop 1 a with
        | c :: rest => option_char (with_optind (optind s + 1) s) c rest
        | [] => None
        end
  end.

(** What a program sees that calls [getopt] until it returns -1. *)
Fixpoint getopt_loop (n : nat) (s : opts) : option (list (Z * option (list Z)) * opts) :=
  match n with
  | O => None
  | S n =>
    '(c, s) ← getopt s;
    if c =? -1 then Some ([], s)
    else '(l, s') ← getopt_loop n s; Some ((c, optarg s) :: l, s')
  end.
End Getopt.

(** ** Command lines *)

Section CommandLines.
Context (opt_string : list Z).

(** A letter that stands for an option without, with an argument. *)
Definition letter (c : Z) : Prop := c <> 0 /\ c <> COLON /\ c <> DASH /\ c <> QUESTION /\ c <> -1.
Definition flag (c : Z) : Prop := letter c /\ exists t, strchr_from opt_string c = Some t /\ chr t 1 <> COLON.
Definition valued (c : Z) : Prop := letter c /\ exists t, strchr_from opt_string c = Some t /\ chr t 1 = COLON.

(** Strings hold no terminator. *)
Definition string_ok (s : list Z) : Prop := 0 ∉ s.

(** Operands: none, or a first one that is no option, or anything behind "--". *)
Inductive operands : list (list Z) -> Prop :=
| no_operands : operands []
| first_operand a r : string_ok a -> a = [DASH] \/ chr a 0 <> DASH -> operands (a :: r).

(** The arguments [args] spell the options [l] and then the operands [ops]: each argument
    is a dash with flags and perhaps a last option with its argument, in the same or in
    the next argument. *)
Inductive spells : list (Z * option (list Z)) -> list (list Z) -> list (list Z) -> Prop :=
| spells_operands ops : operands ops -> spells [] ops ops
| spells_dashes ops : spells [] ([DASH; DASH] :: ops) ops
| spells_flags fs l args ops : fs <> [] -> Forall flag fs -> spells l args ops ->
    spells (map (fun f => (f, None)) fs ++ l) ((DASH :: fs) :: args) ops
| spells_attached fs c v l args ops : Forall flag fs -> valued c -> v <> [] -> string_ok v -> spells l args ops ->
    spells (map (fun f => (f, None)) fs ++ (c, Some v) :: l) ((DASH :: fs ++ c :: v) :: args) ops
| spells_separate fs c v l args ops : Forall flag fs -> valued c -> spells l args ops ->
    spells (map (fun f => (f, None)) fs ++ (c, Some v) :: l) ((DASH :: fs ++ [c]) :: v :: args) ops.
End CommandLines.

(** ** Running [getopt] *)

Section Run.
Context (argv : list (list Z)) (opt_string : list Z).

(** The states between two calls, without messages. *)
Definition at_state (x : option (list Z)) (i : Z) (p : option (list Z)) : opts :=
  {| optarg := x; optind := i; optopt := 0; CURRENT_PTR := p; messages := [] |}.

(** The last option argument does not matter. *)
Lemma loop_optarg n x i p : getopt_loop argv opt_string n (at_state x i p) = getopt_loop argv opt_string n (at_state None i p).
Proof. destruct n; reflexivity. Qed.

Lemma loop_step n s c s' : getopt argv opt_string s = Some (c, s') -> c <> -1 ->
  getopt_loop argv opt_string (S n) s = ('(l, s'') ← getopt_loop argv opt_string n s'; Some ((c, optarg s') :: l, s'')).
Proof. intros E N. cbn [getopt_loop]. rewrite E. cbn [mbind option_bind]. by destruct (Z.eqb_spec c (-1)). Qed.

Lemma letter_char c s rest : letter c -> option_char argv opt_string s c rest =
  match strchr_from opt_string c with
  | None => Some (QUESTION, complain (Unknown c) (with_ptr (Some rest) s))
  | Some contained =>
    if chr contained 1 =? COLON then
      if negb (bool_decide (rest = [])) then Some (c, with_ptr None (with_optarg (Some rest) (with_ptr (Some rest) s)))
      else if optind s <? argc argv then
        a ← arg_at argv (optind s); Some (c, with_optind (optind s + 1) (with_optarg (Some a) (with_ptr (Some rest) s)))
      else Some (COLON, complain (MissingArgument c) (with_ptr (Some rest) s))
    else Some (c, with_ptr (Some rest) s)
  end.
Proof. intros (_ & N & _). unfold option_char. by destruct (Z.eqb_spec c COLON). Qed.

Lemma flag_char c i rest : flag opt_string c -> option_char argv opt_string (at_state None i (Some (c :: rest))) c rest = Some (c, at_state None i (Some rest)).
Proof. intros (L & t & E & N). rewrite letter_char by exact L. rewrite E. by destruct (Z.eqb_spec (chr t 1) COLON). Qed.

(** The flags of an argument in turn. *)
Lemma flags_run fs rest n i : Forall (flag opt_string) fs ->
  getopt_loop argv opt_string (length fs + n) (at_state None i (Some (fs ++ rest))) =
  ('(l, s) ← getopt_loop argv opt_string n (at_state None i (Some rest)); Some (map (fun f => (f, None)) fs ++ l, s)).
Proof.
  induction 1 as [| f fs Hf _ IH]; cbn [length Nat.add app map]; [by destruct (getopt_loop argv opt_string n _) as [[l s] |] |].
  rewrite (loop_step _ _ f (at_state None i (Some (fs ++ rest)))); [| exact (flag_char f i (fs ++ rest) Hf) | by destruct Hf as [(? & ? & ? & ? & ?) _]].
  rewrite IH. by destruct (getopt_loop argv opt_string n _) as [[l s] |].
Qed.

(** A new argument that starts with an option is as good as a pointer behind its dash. *)
Lemma enter_argument n i c rest : arg_at argv i = Some (DASH :: c :: rest) -> 0 < i -> letter c ->
  getopt_loop argv opt_string n (at_state None i None) = getopt_loop argv opt_string n (at_state None (i + 1) (Some (c :: rest))) /\
  getopt_loop argv opt_string n (at_state None i (Some [])) = getopt_loop argv opt_string n (at_state None (i + 1) (Some (c :: rest))).
Proof.
  intros A Hi (N0 & _ & N1 & _). assert (L : i < argc argv).
  { unfold arg_at in A. destruct (Z.ltb_spec i 0); [lia |]. apply lookup_lt_Some in A. unfold argc, zlen. lia. }
  assert (E : forall p, p = None \/ p = Some [] -> getopt argv opt_string (at_state None i p) = getopt argv opt_string (at_state None (i + 1) (Some (c :: rest)))).
  { intros p Hp. unfold getopt. destruct Hp as [-> | ->]; cbn [with_optarg CURRENT_PTR at_state optind];
      (destruct (Z.eqb_spec i 0); [lia |]); cbn [optind with_optarg at_state]; (destruct (Z.leb_spec (argc argv) i); [lia |]); cbn [optind with_optarg at_state]; rewrite A; cbn [mbind option_bind];
      change (chr (DASH :: c :: rest) 0) with DASH; change (chr (DASH :: c :: rest) 1) with c; rewrite Z.eqb_refl;
      (destruct (Z.eqb_spec c 0); [done |]); (destruct (Z.eqb_spec c DASH); [done |]); reflexivity. }
  split; destruct n; try reflexivity; cbn [getopt_loop]; rewrite E by auto; reflexivity.
Qed.
End Run.

Section Parse.
Context (opt_string : list Z).

Lemma arg_at_pre (pre : list (list Z)) a args : arg_at (pre ++ a :: args) (zlen pre) = Some a.
Proof.
  unfold arg_at. pose proof (zlen_nonneg pre). destruct (Z.ltb_spec (zlen pre) 0); [lia |]. unfold zlen.
  rewrite Nat2Z.id, lookup_app_r, Nat.sub_diag by lia. reflexivity.
Qed.

Lemma valued_char argv c s rest : valued opt_string c -> option_char argv opt_string s c rest =
  if negb (bool_decide (rest = [])) then Some (c, with_ptr None (with_optarg (Some rest) (with_ptr (Some rest) s)))
  else if optind s <? argc argv then
    a ← arg_at argv (optind s); Some (c, with_optind (optind s + 1) (with_optarg (Some a) (with_ptr (Some rest) s)))
  else Some (COLON, complain (MissingArgument c) (with_ptr (Some rest) s)).
Proof. intros (L & t & E & N). rewrite letter_char by exact L. by rewrite E, N, Z.eqb_refl. Qed.

(** Where the options end. *)
Lemma stop_at argv i p a : p = None \/ p = Some [] -> 0 < i -> (argc argv <= i \/ arg_at argv i = Some a /\ i < argc argv /\ (chr a 0 <> DASH \/ chr a 1 = 0)) ->
  getopt argv opt_string (at_state None i p) = Some (-1, at_state None i p).
Proof.
  intros Hp Hi C. unfold getopt. destruct Hp as [-> | ->]; cbn [with_optarg CURRENT_PTR at_state optind]; (destruct (Z.eqb_spec i 0); [lia |]); cbn [optind with_optarg at_state];
    (destruct (Z.leb_spec (argc argv) i); [reflexivity |]); (destruct C as [| (A & _ & D)]; [lia |]); cbn [optind with_optarg at_state]; rewrite A; cbn [mbind option_bind];
    (destruct D as [D | D]; [destruct (Z.eqb_spec (chr a 0) DASH); [done | reflexivity] | rewrite D, orb_true_r; reflexivity]).
Qed.

Definition fresh (p : option (list Z)) : Prop := p = None \/ p = Some [].

Lemma spells_run l args ops : spells opt_string l args ops -> forall pre p, pre <> [] -> fresh p ->
  exists p', getopt_loop (pre ++ args) opt_string (S (length l)) (at_state None (zlen pre) p) =
    Some (l, at_state None (zlen (pre ++ args) - zlen ops) p').
Proof.
  assert (Pos : forall pre : list (list Z), pre <> [] -> 0 < zlen pre) by (intros [| ? ?] ?; [done |]; unfold zlen; simpl; lia).
  induction 1 as [ops Ho | ops | fs l args ops Ne Fs Sp IH | fs c v l args ops Fs Vc Nv Sv Sp IH | fs c v l args ops Fs Vc Sp IH]; intros pre p Np Hp;
    specialize (Pos pre Np).
  - exists p. cbn [length getopt_loop]. rewrite (stop_at _ _ p (nth 0 ops [])); [cbn; do 3 f_equal; rewrite zlen_app; lia | exact Hp | exact Pos |].
    destruct Ho as [| a r Sa Ha]; [left; rewrite app_nil_r; unfold argc; lia |]. right. split; [apply arg_at_pre |].
    split; [unfold argc; rewrite zlen_app, zlen_cons; pose proof (zlen_nonneg r); lia |]. cbn [nth]. destruct Ha as [-> | N]; [right; reflexivity | left; exact N].
  - exists p. cbn [length getopt_loop]. assert (getopt (pre ++ [DASH; DASH] :: ops) opt_string (at_state None (zlen pre) p) = Some (-1, at_state None (zlen pre + 1) p)) as ->.
    { unfold getopt. destruct Hp as [-> | ->]; cbn [with_optarg CURRENT_PTR at_state optind]; (destruct (Z.eqb_spec (zlen pre) 0); [lia |]); cbn [optind with_optarg at_state];
        (destruct (Z.leb_spec (argc (pre ++ [DASH; DASH] :: ops)) (zlen pre)) as [L |]; [unfold argc in L; rewrite zlen_app, zlen_cons in L; pose proof (zlen_nonneg ops); lia |]);
        rewrite arg_at_pre; reflexivity. }
    cbn. do 3 f_equal. rewrite zlen_app, zlen_cons. lia.
  - destruct fs as [| f fs]; [done |]. destruct (IH (pre ++ [DASH :: f :: fs]) (Some []) ltac:(by destruct pre) (or_intror eq_refl)) as (p' & R). exists p'.
    rewrite <- app_assoc in R. cbn [app] in R. rewrite length_app, length_map. replace (S (length (f :: fs) + length l)) with (length (f :: fs) + S (length l))%nat by lia.
    assert (Lf : letter f) by (by apply Forall_inv in Fs as [? _]).
    destruct (enter_argument (pre ++ (DASH :: f :: fs) :: args) opt_string (length (f :: fs) + S (length l)) (zlen pre) f fs (arg_at_pre _ _ _) Pos Lf) as [E1 E2].
    assert (getopt_loop (pre ++ (DASH :: f :: fs) :: args) opt_string (length (f :: fs) + S (length l)) (at_state None (zlen pre) p) =
      getopt_loop (pre ++ (DASH :: f :: fs) :: args) opt_string (length (f :: fs) + S (length l)) (at_state None (zlen pre + 1) (Some ((f :: fs) ++ [])))) as ->
      by (rewrite app_nil_r; destruct Hp as [-> | ->]; assumption).
    rewrite flags_run by exact Fs. replace (zlen pre + 1) with (zlen (pre ++ [DASH :: f :: fs])) by (rewrite zlen_app; reflexivity). by rewrite R.
  - destruct (IH (pre ++ [DASH :: fs ++ c :: v]) None ltac:(by destruct pre) (or_introl eq_refl)) as (p' & R). exists p'. rewrite <- app_assoc in R. cbn [app] in R.
    rewrite length_app, length_map. cbn [length]. replace (S (length fs + S (length l))) with (length fs + S (S (length l)))%nat by lia.
    assert (exists g gs, fs ++ c :: v = g :: gs /\ letter g) as (g & gs & Eg & Lg)
      by (destruct Fs as [| f fs Hf _]; [exists c, v; split; [reflexivity | apply Vc] | eexists _, _; split; [reflexivity | apply Hf]]).
    destruct (enter_argument (pre ++ (DASH :: fs ++ c :: v) :: args) opt_string (length fs + S (S (length l))) (zlen pre) g gs) as [E1 E2];
      [rewrite arg_at_pre; by rewrite Eg | exact Pos | exact Lg |].
    assert (getopt_loop (pre ++ (DASH :: fs ++ c :: v) :: args) opt_string (length fs + S (S (length l))) (at_state None (zlen pre) p) =
      getopt_loop (pre ++ (DASH :: fs ++ c :: v) :: args) opt_string (length fs + S (S (length l))) (at_state None (zlen pre + 1) (Some (fs ++ c :: v)))) as ->
      by (rewrite Eg in *; destruct Hp as [-> | ->]; assumption).
    rewrite flags_run by exact Fs.
    rewrite (loop_step _ _ _ _ c (at_state (Some v) (zlen pre + 1) None)); [| unfold getopt; cbn [with_optarg CURRENT_PTR at_state]; rewrite valued_char by exact Vc; by rewrite bool_decide_false by done | apply Vc].
    rewrite loop_optarg. replace (zlen pre + 1) with (zlen (pre ++ [DASH :: fs ++ c :: v])) by (rewrite zlen_app; reflexivity). by rewrite R.
  - destruct (IH (pre ++ [DASH :: fs ++ [c]; v]) (Some []) ltac:(by destruct pre) (or_intror eq_refl)) as (p' & R). exists p'. rewrite <- app_assoc in R. cbn [app] in R.
    rewrite length_app, length_map. cbn [length]. replace (S (length fs + S (length l))) with (length fs + S (S (length l)))%nat by lia.
    assert (exists g gs, fs ++ [c] = g :: gs /\ letter g) as (g & gs & Eg & Lg)
      by (destruct Fs as [| f fs Hf _]; [exists c, []; split; [reflexivity | apply Vc] | eexists _, _; split; [reflexivity | apply Hf]]).
    destruct (enter_argument (pre ++ (DASH :: fs ++ [c]) :: v :: args) opt_string (length fs + S (S (length l))) (zlen pre) g gs) as [E1 E2];
      [rewrite arg_at_pre; by rewrite Eg | exact Pos | exact Lg |].
    assert (getopt_loop (pre ++ (DASH :: fs ++ [c]) :: v :: args) opt_string (length fs + S (S (length l))) (at_state None (zlen pre) p) =
      getopt_loop (pre ++ (DASH :: fs ++ [c]) :: v :: args) opt_string (length fs + S (S (length l))) (at_state None (zlen pre + 1) (Some (fs ++ [c])))) as ->
      by (rewrite Eg in *; destruct Hp as [-> | ->]; assumption).
    rewrite flags_run by exact Fs.
    rewrite (loop_step _ _ _ _ c (at_state (Some v) (zlen pre + 1 + 1) (Some []))); [| | apply Vc].
    2: { unfold getopt. cbn [with_optarg CURRENT_PTR at_state]. rewrite valued_char by exact Vc. rewrite bool_decide_true by done. cbn [negb with_optarg optind at_state].
         destruct (Z.ltb_spec (zlen pre + 1) (argc (pre ++ (DASH :: fs ++ [c]) :: v :: args))) as [_ | L];
           [| unfold argc in L; rewrite zlen_app, !zlen_cons in L; pose proof (zlen_nonneg args); lia].
         pose proof (arg_at_pre (pre ++ [DASH :: fs ++ [c]]) v args) as A. rewrite <- app_assoc, zlen_app in A. cbn [app] in A. change (zlen [DASH :: fs ++ [c]]) with 1 in A. by rewrite A. }
    rewrite loop_optarg. replace (zlen pre + 1 + 1) with (zlen (pre ++ [DASH :: fs ++ [c]; v])) by (rewrite zlen_app; unfold zlen; simpl; lia). by rewrite R.
Qed.
End Parse.

(** ** [getopt_long] *)

Definition EQUALS : Z := 61.

(** A row of the table of long options; [flag_ptr] is the variable it names, if any. *)
Record long_option := { opt_name : list Z; has_arg : Z; flag_ptr : option nat; opt_val : Z }.
Definition no_argument : Z := 0.
Definition required_argument : Z := 1.
Definition optional_argument : Z := 2.

(** [argv] with its [argc + 1] pointers, the variables of [unistd.h], the two static
    variables, the variable that [long_index] points to, what was stored through [flag]
    pointers, and the messages. *)
Record long_state := {
  l_argv : list (option (list Z)); l_optarg : option (list Z); l_optind : Z; l_opterr : Z; l_optopt : Z;
  next_char : nat; COPY_NON_OPTION_PTR : Z; l_index : option Z; l_stored : list (nat * Z); l_messages : list complaint }.

Definition set_argv v s := {| l_argv := v; l_optarg := l_optarg s; l_optind := l_optind s; l_opterr := l_opterr s; l_optopt := l_optopt s;
  next_char := next_char s; COPY_NON_OPTION_PTR := COPY_NON_OPTION_PTR s; l_index := l_index s; l_stored := l_stored s; l_messages := l_messages s |}.
Definition set_optarg v s := {| l_argv := l_argv s; l_optarg := v; l_optind := l_optind s; l_opterr := l_opterr s; l_optopt := l_optopt s;
  next_char := next_char s; COPY_NON_OPTION_PTR := COPY_NON_OPTION_PTR s; l_index := l_index s; l_stored := l_stored s; l_messages := l_messages s |}.
Definition set_optind v s := {| l_argv := l_argv s; l_optarg := l_optarg s; l_optind := v; l_opterr := l_opterr s; l_optopt := l_optopt s;
  next_char := next_char s; COPY_NON_OPTION_PTR := COPY_NON_OPTION_PTR s; l_index := l_index s; l_stored := l_stored s; l_messages := l_messages s |}.
Definition set_opterr v s := {| l_argv := l_argv s; l_optarg := l_optarg s; l_optind := l_optind s; l_opterr := v; l_optopt := l_optopt s;
  next_char := next_char s; COPY_NON_OPTION_PTR := COPY_NON_OPTION_PTR s; l_index := l_index s; l_stored := l_stored s; l_messages := l_messages s |}.
Definition set_optopt v s := {| l_argv := l_argv s; l_optarg := l_optarg s; l_optind := l_optind s; l_opterr := l_opterr s; l_optopt := v;
  next_char := next_char s; COPY_NON_OPTION_PTR := COPY_NON_OPTION_PTR s; l_index := l_index s; l_stored := l_stored s; l_messages := l_messages s |}.
Definition set_next_char v s := {| l_argv := l_argv s; l_optarg := l_optarg s; l_optind := l_optind s; l_opterr := l_opterr s; l_optopt := l_optopt s;
  next_char := v; COPY_NON_OPTION_PTR := COPY_NON_OPTION_PTR s; l_index := l_index s; l_stored := l_stored s; l_messages := l_messages s |}.
Definition set_copy v s := {| l_argv := l_argv s; l_optarg := l_optarg s; l_optind := l_optind s; l_opterr := l_opterr s; l_optopt := l_optopt s;
  next_char := next_char s; COPY_NON_OPTION_PTR := v; l_index := l_index s; l_stored := l_stored s; l_messages := l_messages s |}.
Definition set_index v s := {| l_argv := l_argv s; l_optarg := l_optarg s; l_optind := l_optind s; l_opterr := l_opterr s; l_optopt := l_optopt s;
  next_char := next_char s; COPY_NON_OPTION_PTR := COPY_NON_OPTION_PTR s; l_index := v; l_stored := l_stored s; l_messages := l_messages s |}.
Definition store_flag p v s := {| l_argv := l_argv s; l_optarg := l_optarg s; l_optind := l_optind s; l_opterr := l_opterr s; l_optopt := l_optopt s;
  next_char := next_char s; COPY_NON_OPTION_PTR := COPY_NON_OPTION_PTR s; l_index := l_index s; l_stored := l_stored s ++ [(p, v)]; l_messages := l_messages s |}.
Definition l_complain m s := {| l_argv := l_argv s; l_optarg := l_optarg s; l_optind := l_optind s; l_opterr := l_opterr s; l_optopt := l_optopt s;
  next_char := next_char s; COPY_NON_OPTION_PTR := COPY_NON_OPTION_PTR s; l_index := l_index s; l_stored := l_stored s; l_messages := l_messages s ++ [m] |}.

Definition is_option (str : list Z) : bool :=
  negb (negb (chr str 0 =? DASH) || (chr str 1 =? 0) || ((chr str 1 =? DASH) && (chr str 2 =? 0))).

(** [argv[i]], which must be a string. *)
Definition l_arg (s : long_state) (i : Z) : option (list Z) := if i <? 0 then None else mjoin (l_argv s !! Z.to_nat i).

(** [argv[i] = a]. *)
Definition put_arg (i : Z) (a : option (list Z)) (s : long_state) : option long_state :=
  if (0 <=? i) && (i <? zlen (l_argv s)) then Some (set_argv (<[Z.to_nat i := a]> (l_argv s)) s) else None.

Section GetoptLong.
Context (argc : Z) (posixly_correct : bool) (opt_str : list Z) (long_opts : list long_option) (long_index : bool).

Definition stop_on_non_option : bool := (chr opt_str 0 =? PLUS) || posixly_correct.
Definition short_opts : list Z := if chr opt_str 0 =? PLUS then drop 1 opt_str else opt_str.
Definition colon : bool := chr short_opts 0 =? COLON.

(** [for (++optind; optind < argc; ++optind) if (is_option(argv[optind])) break;] *)
Fixpoint skip_non_options (n : nat) (s : long_state) : option long_state :=
  match n with
  | O => Some s
  | S n =>
    if l_optind s <? argc then
      a ← l_arg s (l_optind s); if is_option a then Some s else skip_non_options n (set_optind (l_optind s + 1) s)
    else Some s
  end.

(** [for (int i = skip_start; i < optind; ++i) argv[COPY_NON_OPTION_PTR++] = argv[i];] *)
Fixpoint copy_non_options (n : nat) (i : Z) (s : long_state) : option long_state :=
  match n with
  | O => Some s
  | S n =>
    a ← l_arg s i; s ← put_arg (COPY_NON_OPTION_PTR s) (Some a) s;
    copy_non_options n (i + 1) (set_copy (COPY_NON_OPTION_PTR s + 1) s)
  end.

(** What follows when the row [i] has the name of the argument. *)
Definition long_found (i : Z) (o : long_option) (arg : list Z) (name_end : option (list Z)) (s : long_state) : option (Z * long_state) :=
  let finish s :=
    let s := if long_index then set_index (Some i) s else s in
    match flag_ptr o with None => Some (opt_val o, s) | Some p => Some (0, store_flag p (opt_val o) s) end in
  let next a s := set_optarg a (set_optind (l_optind s + 1) s) in
  if has_arg o =? no_argument then finish (next None s)
  else if has_arg o =? required_argument then
    match name_end with
    | Some e => finish (next (Some (drop 1 e)) s)
    | None =>
      if l_optind s + 1 <? argc then a ← l_arg s (l_optind s + 1); finish (set_optind (l_optind s + 2) (set_optarg (Some a) s))
      else Some (if colon then COLON else QUESTION, if negb colon && negb (l_opterr s =? 0) then l_complain (MissingLong arg) s else s)
    end
  else if has_arg o =? optional_argument then
    match name_end with Some e => finish (next (Some (drop 1 e)) s) | None => finish (next None s) end
  else None.

Fixpoint long_search (rows : list long_option) (i : Z) (arg name : list Z) (name_end : option (list Z)) (s : long_state) : option (Z * long_state) :=
  match rows with
  | [] => Some (QUESTION, if negb (l_opterr s =? 0) then l_complain (UnknownLong arg) s else s)
  | o :: rows => if bool_decide (name = opt_name o) then long_found i o arg name_end s else long_search rows (i + 1) arg name name_end s
  end.

(** An argument behind its two dashes. *)
Definition long_argument (arg : list Z) (s : long_state) : option (Z * long_state) :=
  let name_end := strchr_from arg EQUALS in
  let name := match name_end with Some e => take (length arg - length e) arg | None => arg end in
  long_search long_opts 0 arg name name_end s.

(** An argument behind its dash. *)
Definition short_argument (arg : list Z) (s : long_state) : option (Z * long_state) :=
  c ← arg !! next_char s;
  match strchr_from short_opts c with
  | None =>
    let s := if negb (l_opterr s =? 0) then l_complain (Unknown c) s else s in
    Some (QUESTION, set_optopt (c mod 256) s)
  | Some pos =>
    if chr pos 1 =? COLON then
      let optional := chr pos 2 =? COLON in
      let refuse s :=
        if optional then Some (c, set_optind (l_optind s + 1) (set_next_char 0 (set_optarg None s)))
        else Some (if colon then COLON else QUESTION, set_next_char 0 (set_optopt (c mod 256) s)) in
      if negb (chr arg (next_char s + 1) =? 0) then
        Some (c, set_optind (l_optind s + 1) (set_next_char 0 (set_optarg (Some (drop (next_char s + 1) arg)) s)))
      else if negb optional && (l_optind s + 1 <? argc) then
        a ← l_arg s (l_optind s + 1);
        if is_option a then refuse s else Some (c, set_optind (l_optind s + 2) (set_next_char 0 (set_optarg (Some a) s)))
      else refuse s
    else if negb (chr arg (next_char s + 1) =? 0) then Some (c, set_next_char (next_char s + 1) s)
    else Some (c, set_optind (l_optind s + 1) (set_next_char 0 s))
  end.

(** The [while] loop; [n] bounds its iterations, each of which but the last moves [optind]. *)
Fixpoint long_while (n : nat) (s : long_state) : option (Z * long_state) :=
  match n with
  | O => None
  | S n =>
    if l_optind s <? argc then
      arg ← l_arg s (l_optind s);
      if negb (is_option arg) then
        if stop_on_non_option then Some (-1, s)
        else
          let skip_start := l_optind s in
          s ← skip_non_options (Z.to_nat (argc - skip_start)) (set_optind (skip_start + 1) s);
          s ← copy_non_options (Z.to_nat (l_optind s - skip_start)) skip_start s;
          if l_optind s =? argc then s ← put_arg (COPY_NON_OPTION_PTR s) None (set_optind 1 s); Some (-1, s)
          else long_while n s
      else if chr arg 1 =? DASH then if chr arg 2 =? 0 then Some (-1, s) else long_argument (drop 2 arg) s
      else short_argument (drop 1 arg) s
    else Some (-1, s)
  end.

Definition getopt_long (s : long_state) : option (Z * long_state) :=
  let s := if l_optind s =? 0 then set_copy 1 (set_next_char 0 (set_optopt 0 (set_opterr 1 (set_optind 1 (set_optarg None s))))) else s in
  long_while (S (Z.to_nat (argc - l_optind s))) s.

(** [getopt_long_only] is a failing [__ensure]. *)
Definition getopt_long_only (s : long_state) : option (Z * long_state) := None.

(** A program that calls [getopt_long] until it returns -1. *)
Fixpoint getopt_long_loop (n : nat) (s : long_state) : option (list (Z * option (list Z)) * long_state) :=
  match n with
  | O => None
  | S n =>
    '(c, s) ← getopt_long s;
    if c =? -1 then Some ([], s)
    else '(l, s') ← getopt_long_loop n s; Some ((c, l_optarg s) :: l, s')
  end.
End GetoptLong.

(** ** Command lines with long options *)

Section LongCommandLines.
Context (opt_str : list Z) (long_opts : list long_option).

Definition short_flag (c : Z) : Prop := letter c /\ exists t, strchr_from (short_opts opt_str) c = Some t /\ chr t 1 <> COLON.
Definition short_valued (c : Z) : Prop := letter c /\ exists t, strchr_from (short_opts opt_str) c = Some t /\ chr t 1 = COLON.
Definition short_required (c : Z) : Prop := letter c /\ exists t, strchr_from (short_opts opt_str) c = Some t /\ chr t 1 = COLON /\ chr t 2 <> COLON.
Definition short_optional (c : Z) : Prop := letter c /\ exists t, strchr_from (short_opts opt_str) c = Some t /\ chr t 1 = COLON /\ chr t 2 = COLON.

(** What a row of the table makes [getopt_long] return. *)
Definition row_code (o : long_option) : Z := match flag_ptr o with None => opt_val o | Some _ => 0 end.

(** The first row with a name. *)
Definition row (name : list Z) (o : long_option) : Prop :=
  name <> [] /\ string_ok name /\ EQUALS ∉ name /\ row_code o <> -1 /\ exists pre post, long_opts = pre ++ o :: post /\ opt_name o = name /\ Forall (fun o => opt_name o <> name) pre.

(** [option_item x l x' args]: with [optarg] at [x] before, the arguments [args] spell the
    options [l] and leave [optarg] at [x'].  A flag leaves it as it was. *)
Inductive option_item (x : option (list Z)) : list (Z * option (list Z)) -> option (list Z) -> list (list Z) -> Prop :=
| item_flags fs : fs <> [] -> Forall short_flag fs -> option_item x (map (fun f => (f, x)) fs) x [DASH :: fs]
| item_attached fs c v : Forall short_flag fs -> short_valued c -> v <> [] -> string_ok v ->
    option_item x (map (fun f => (f, x)) fs ++ [(c, Some v)]) (Some v) [DASH :: fs ++ c :: v]
| item_separate fs c v : Forall short_flag fs -> short_required c -> is_option v = false ->
    option_item x (map (fun f => (f, x)) fs ++ [(c, Some v)]) (Some v) [DASH :: fs ++ [c]; v]
| item_optional fs c : Forall short_flag fs -> short_optional c -> option_item x (map (fun f => (f, x)) fs ++ [(c, None)]) None [DASH :: fs ++ [c]]
| item_long name o : row name o -> has_arg o = no_argument \/ has_arg o = optional_argument ->
    option_item x [(row_code o, None)] None [DASH :: DASH :: name]
| item_long_attached name o v : row name o -> has_arg o = required_argument \/ has_arg o = optional_argument ->
    option_item x [(row_code o, Some v)] (Some v) [DASH :: DASH :: name ++ EQUALS :: v]
| item_long_separate name o v : row name o -> has_arg o = required_argument ->
    option_item x [(row_code o, Some v)] (Some v) [DASH :: DASH :: name; v].

Definition operand (a : list Z) : Prop := is_option a = false.

(** [mixed x l args ops t]: the arguments spell the options [l] with the operands [ops]
    anywhere between them; [t] are the operands behind the last option. *)
Inductive mixed (x : option (list Z)) : list (Z * option (list Z)) -> list (list Z) -> list (list Z) -> list (list Z) -> Prop :=
| mixed_end t : Forall operand t -> mixed x [] t t t
| mixed_item os l x' args l' args' ops t : Forall operand os -> option_item x l x' args -> mixed x' l' args' ops t ->
    mixed x (l ++ l') (os ++ args ++ args') (os ++ ops) t.
End LongCommandLines.

(** ** Running [getopt_long] *)

Section LongRun.
Context (argc : Z) (opt_str : list Z) (long_opts : list long_option) (long_index : bool).
Context (no_plus : chr opt_str 0 <> PLUS).

Local Notation step := (getopt_long argc false opt_str long_opts long_index).
Local Notation loop := (getopt_long_loop argc false opt_str long_opts long_index).

(** The states between two calls: [done] are the pointers that were looked at, [todo] the
    arguments ahead, [k] the position in the first of them. *)
Definition long_at (x : option (list Z)) (done : list (option (list Z))) (todo : list (list Z)) (k : nat) (C : Z) (j : option Z) (st : list (nat * Z)) : long_state :=
  {| l_argv := done ++ map Some todo ++ [None]; l_optarg := x; l_optind := zlen done; l_opterr := 1; l_optopt := 0; next_char := k;
     COPY_NON_OPTION_PTR := C; l_index := j; l_stored := st; l_messages := [] |}.

Lemma l_arg_at x done a todo k C j st : l_arg (long_at x done (a :: todo) k C j st) (zlen done) = Some a.
Proof.
  unfold l_arg. pose proof (zlen_nonneg done). destruct (Z.ltb_spec (zlen done) 0); [lia |]. unfold zlen. rewrite Nat2Z.id. cbn [l_argv long_at].
  by rewrite lookup_app_r, Nat.sub_diag by lia.
Qed.

Lemma l_arg_next x done a b todo k C j st : l_arg (long_at x done (a :: b :: todo) k C j st) (zlen done + 1) = Some b.
Proof.
  pose proof (l_arg_at x (done ++ [Some a]) b todo k C j st) as E. rewrite zlen_app in E. cbn in E. unfold long_at in *. cbn [l_argv] in *.
  unfold l_arg in *. cbn [l_argv] in *. by rewrite <- app_assoc in E.
Qed.

(** Skipping operands. *)
Lemma skip_run x os : Forall operand os -> forall n done todo k C j st, (length os < n)%nat -> argc = zlen done + zlen os + zlen todo ->
  (todo = [] \/ exists a r, todo = a :: r /\ is_option a = true) ->
  skip_non_options argc n (long_at x done (os ++ todo) k C j st) = Some (long_at x (done ++ map Some os) todo k C j st).
Proof.
  induction 1 as [| o os Ho _ IH]; intros [| n] done todo k C j st L A T; try (cbn in L; lia); cbn [skip_non_options l_optind long_at].
  - cbn [map app]. rewrite app_nil_r. destruct T as [-> | (a & r & -> & E)].
    + destruct (Z.ltb_spec (zlen done) argc); [| reflexivity]. unfold zlen in A; cbn in A. unfold zlen in *; lia.
    + rewrite l_arg_at. cbn [mbind option_bind]. rewrite E. by destruct (zlen done <? argc).
  - cbn [app]. rewrite l_arg_at. cbn [mbind option_bind]. rewrite Ho. rewrite zlen_cons in A.
    destruct (Z.ltb_spec (zlen done) argc); [| pose proof (zlen_nonneg os); pose proof (zlen_nonneg todo); lia].
    pose proof (IH n (done ++ [Some o]) todo k C j st) as E. cbn in L. rewrite zlen_app in E. change (zlen [Some o]) with 1 in E.
    specialize (E ltac:(lia) ltac:(lia) T). cbn [map]. rewrite <- app_assoc in E. cbn [app] in E. rewrite <- E. f_equal. unfold long_at, set_optind. cbn. rewrite <- app_assoc, zlen_app. reflexivity.
Qed.

(** Copying them to the front. *)
Lemma copy_run (os : list (list Z)) : forall done rest i s, l_argv s = done ++ map Some os ++ rest -> zlen done = i -> 0 <= COPY_NON_OPTION_PTR s <= i ->
  exists done', length done' = (length done + length os)%nat /\
    take (Z.to_nat (COPY_NON_OPTION_PTR s) + length os) done' = take (Z.to_nat (COPY_NON_OPTION_PTR s)) done ++ map Some os /\
    copy_non_options (length os) i s = Some (set_copy (COPY_NON_OPTION_PTR s + zlen os) (set_argv (done' ++ rest) s)).
Proof.
  induction os as [| o os IH]; intros done rest i s E D C; cbn [length copy_non_options].
  - exists done. rewrite !Nat.add_0_r. split; [reflexivity |]. split; [by rewrite app_nil_r |]. cbn in E. rewrite Z.add_0_r.
    destruct s; cbn in *; by subst.
  - set (c := Z.to_nat (COPY_NON_OPTION_PTR s)) in *. unfold zlen in D.
    assert (l_arg s i = Some o) as ->.
    { unfold l_arg. destruct (Z.ltb_spec i 0); [lia |]. rewrite E. replace (Z.to_nat i) with (length done) by lia. by rewrite lookup_app_r, Nat.sub_diag by lia. }
    cbn [mbind option_bind]. unfold put_arg. assert ((0 <=? COPY_NON_OPTION_PTR s) && (COPY_NON_OPTION_PTR s <? zlen (l_argv s)) = true) as ->.
    { apply andb_true_iff; split; [apply Z.leb_le; lia | apply Z.ltb_lt]. rewrite E, zlen_app. unfold zlen. rewrite length_app. cbn. lia. }
    cbn [mbind option_bind]. fold c. 
    assert (N : <[c := Some o]> (l_argv s) = (<[c := Some o]> done ++ [Some o]) ++ map Some os ++ rest).
    { rewrite E, <- app_assoc. cbn [map app]. destruct (decide (c < length done)%nat); [by rewrite insert_app_l |].
      rewrite insert_app_r_alt, (list_insert_ge done) by lia. by replace (c - length done)%nat with 0%nat by lia. }
    destruct (IH _ rest (i + 1) (set_copy (COPY_NON_OPTION_PTR s + 1) (set_argv (<[c:=Some o]> (l_argv s)) s)) N) as (done' & L & T & R).
    { unfold zlen. rewrite length_app, length_insert. cbn. lia. }
    { cbn. lia. }
    cbn [COPY_NON_OPTION_PTR set_copy set_argv] in *. replace (Z.to_nat (COPY_NON_OPTION_PTR s + 1)) with (S c) in T by lia.
    assert (K : take (S c) (<[c := Some o]> done ++ [Some o]) = take c done ++ [Some o]).
    { destruct (decide (c < length done)%nat).
      - rewrite take_app_le by (rewrite length_insert; lia). rewrite (take_S_r _ c (Some o)) by (apply list_lookup_insert_eq; lia). by rewrite take_insert_ge by lia.
      - rewrite (list_insert_ge done) by lia. replace c with (length done) by lia. rewrite take_app_ge by lia.
        replace (S (length done) - length done)%nat with 1%nat by lia. cbn. by rewrite firstn_all. }
    exists done'. rewrite length_app, length_insert in L. cbn in L. split; [lia |]. split.
    { replace (c + S (length os))%nat with (S c + length os)%nat by lia. rewrite T, K. cbn [map]. by rewrite <- app_assoc. }
    rewrite R. f_equal. rewrite zlen_cons. unfold set_copy, set_argv. cbn. f_equal. lia.
Qed.

Lemma loop_step_long n s c s' : step s = Some (c, s') -> c <> -1 -> loop (S n) s = ('(l, s'') ← loop n s'; Some ((c, l_optarg s') :: l, s'')).
Proof. intros E N. cbn [getopt_long_loop]. rewrite E. cbn [mbind option_bind]. by destruct (Z.eqb_spec c (-1)). Qed.

(** A call that finds an option in front of it. *)
Lemma step_option x done a todo k C j st : is_option a = true -> done <> [] -> argc = zlen done + zlen (a :: todo) ->
  step (long_at x done (a :: todo) k C j st) =
  if chr a 1 =? DASH then if chr a 2 =? 0 then Some (-1, long_at x done (a :: todo) k C j st) else long_argument argc opt_str long_opts long_index (drop 2 a) (long_at x done (a :: todo) k C j st)
  else short_argument argc opt_str (drop 1 a) (long_at x done (a :: todo) k C j st).
Proof.
  intros O D A. unfold getopt_long. rewrite zlen_cons in A. pose proof (zlen_nonneg todo). assert (0 < zlen done) by (destruct done; [done |]; unfold zlen; simpl; lia).
  cbn [l_optind long_at]. destruct (Z.eqb_spec (zlen done) 0); [lia |]. cbn [long_while l_optind long_at].
  destruct (Z.ltb_spec (zlen done) argc); [| lia]. rewrite l_arg_at. cbn [mbind option_bind]. rewrite O. reflexivity.
Qed.

(** A call that finds operands first copies them, then goes on with what follows. *)
Lemma step_operands x done os todo C j st : Forall operand os -> os <> [] -> done <> [] -> 0 <= C <= zlen done -> argc = zlen done + zlen os + zlen todo ->
  (todo = [] \/ exists a r, todo = a :: r /\ is_option a = true) ->
  exists done', length done' = (length done + length os)%nat /\ take (Z.to_nat C + length os) done' = take (Z.to_nat C) done ++ map Some os /\
    step (long_at x done (os ++ todo) 0 C j st) =
    match todo with
    | [] => s ← put_arg (C + zlen os) None (set_optind 1 (long_at x done' [] 0 (C + zlen os) j st)); Some (-1, s)
    | _ => step (long_at x done' todo 0 (C + zlen os) j st)
    end.
Proof.
  intros Fo No Nd HC A T. destruct (copy_run os done (map Some todo ++ [None]) (zlen done) (long_at x (done ++ map Some os) todo 0 C j st)) as (done' & L & Tk & R);
    [cbn; by rewrite <- app_assoc | reflexivity | exact HC |].
  exists done'. split; [exact L |]. split; [exact Tk |].
  assert (Hd : 0 < zlen done) by (destruct done; [done |]; unfold zlen; simpl; lia). assert (Ho : 0 < zlen os) by (destruct os; [done |]; unfold zlen; simpl; lia).
  assert (Zd : zlen done' = zlen done + zlen os) by (unfold zlen; lia). pose proof (zlen_nonneg todo).
  assert (E : forall n, long_while argc false opt_str long_opts long_index (S n) (long_at x done (os ++ todo) 0 C j st) =
    let s := long_at x done' todo 0 (C + zlen os) j st in
    if zlen done' =? argc then s ← put_arg (C + zlen os) None (set_optind 1 s); Some (-1, s) else long_while argc false opt_str long_opts long_index n s).
  { intros n. cbn [long_while l_optind long_at]. destruct (Z.ltb_spec (zlen done) argc); [| lia].
    destruct os as [| o os]; [done |]. cbn [app]. rewrite l_arg_at. cbn [mbind option_bind]. rewrite (Forall_inv Fo). cbn [negb].
    unfold stop_on_non_option. destruct (Z.eqb_spec (chr opt_str 0) PLUS); [done |]. cbn [orb].
    pose proof (skip_run x os (Forall_inv_tail Fo) (Z.to_nat (argc - zlen done)) (done ++ [Some o]) todo 0 C j st) as K. rewrite zlen_cons in *.
    rewrite zlen_app in K. change (zlen [Some o]) with 1 in K. specialize (K ltac:(unfold zlen in *; lia) ltac:(lia) T).
    rewrite <- app_assoc in K. cbn [app] in K.
    assert (set_optind (zlen done + 1) (long_at x done (o :: os ++ todo) 0 C j st) = long_at x (done ++ [Some o]) (os ++ todo) 0 C j st) as ->
      by (unfold set_optind, long_at; cbn; by rewrite <- app_assoc, zlen_app).
    rewrite K. cbn [mbind option_bind]. cbn [map] in R.
    assert (zlen (done ++ Some o :: map Some os) - zlen done = zlen (o :: os)) as Len by (rewrite zlen_app; unfold zlen; cbn; rewrite length_map; lia).
    cbn [l_optind long_at]. rewrite Len. unfold zlen at 1. rewrite Nat2Z.id, R. cbn [mbind option_bind].
    assert (zlen (done ++ Some o :: map Some os) = zlen done') as Len' by (rewrite zlen_app, Zd; unfold zlen; cbn; rewrite length_map; lia).
    unfold set_copy, set_argv, long_at. cbn [l_optind COPY_NON_OPTION_PTR]. rewrite !Len'. rewrite ?zlen_cons. reflexivity. }
  unfold getopt_long at 1. cbn [l_optind long_at]. destruct (Z.eqb_spec (zlen done) 0); [lia |]. cbn [l_optind long_at]. fold (long_at x done (os ++ todo) 0 C j st). rewrite E.
  cbv zeta. destruct T as [-> | (a & r & -> & O)]; [change (zlen (@nil (list Z))) with 0 in A; destruct (Z.eqb_spec (zlen done') argc); [reflexivity | lia] |].
  rewrite zlen_cons in *. pose proof (zlen_nonneg r). destruct (Z.eqb_spec (zlen done') argc); [lia |].
  assert (Nd' : done' <> []) by (intros ->; change (zlen (@nil (option (list Z)))) with 0 in Zd; lia).
  rewrite step_option; [| exact O | exact Nd' | rewrite zlen_cons; lia].
  destruct (Z.to_nat (argc - zlen done)) as [| m] eqn:M; [lia |].
  cbn [long_while l_optind long_at]. destruct (Z.ltb_spec (zlen done') argc); [| lia]. rewrite l_arg_at. cbn [mbind option_bind]. by rewrite O.
Qed.

(** Short options. *)

Definition short_word (a : list Z) : Prop := chr a 0 <> 0 /\ chr a 0 <> DASH.

Lemma short_word_option a : short_word a -> is_option (DASH :: a) = true.
Proof.
  intros [N0 N1]. unfold is_option. change (chr (DASH :: a) 0) with DASH. change (chr (DASH :: a) 1) with (chr a 0). rewrite Z.eqb_refl.
  destruct (Z.eqb_spec (chr a 0) 0); [done |]. by destruct (Z.eqb_spec (chr a 0) DASH).
Qed.

Lemma step_short x done a todo k C j st : short_word a -> done <> [] -> argc = zlen done + zlen ((DASH :: a) :: todo) ->
  step (long_at x done ((DASH :: a) :: todo) k C j st) = short_argument argc opt_str a (long_at x done ((DASH :: a) :: todo) k C j st).
Proof.
  intros W D A. rewrite step_option by (try apply short_word_option; assumption). change (chr (DASH :: a) 1) with (chr a 0).
  destruct (Z.eqb_spec (chr a 0) DASH); [by destruct W | reflexivity].
Qed.

Lemma chr_behind pre c rest n : n = S (length pre) -> chr (pre ++ c :: rest) n = chr rest 0.
Proof. intros ->. unfold chr. rewrite app_nth2 by lia. by replace (S (length pre) - length pre)%nat with 1%nat by lia. Qed.

Lemma letter_ok c : letter c -> c <> -1 /\ c <> 0 /\ c <> DASH.
Proof. intros (? & ? & ? & ? & ?). auto. Qed.

(** The flags in front of another option of the same argument. *)
Lemma short_flags_run x done todo C j st n rest : chr rest 0 <> 0 -> forall fs pre a, a = pre ++ fs ++ rest -> Forall (short_flag opt_str) fs ->
  short_word a -> done <> [] -> argc = zlen done + zlen ((DASH :: a) :: todo) ->
  loop (length fs + n) (long_at x done ((DASH :: a) :: todo) (length pre) C j st) =
  ('(l, s) ← loop n (long_at x done ((DASH :: a) :: todo) (length (pre ++ fs)) C j st); Some (map (fun f => (f, x)) fs ++ l, s)).
Proof.
  intros Nr. induction fs as [| f fs IH]; intros pre a Ea Ff W D A; cbn [length Nat.add map app].
  - rewrite app_nil_r. by destruct (loop n _) as [[l s] |].
  - pose proof (Forall_inv Ff) as (Lf & t & Et & Nt). rewrite (loop_step_long _ _ f (long_at x done ((DASH :: a) :: todo) (length (pre ++ [f])) C j st)).
    + rewrite (IH (pre ++ [f]) a); [| by rewrite <- app_assoc | by apply Forall_inv_tail in Ff | assumption..]. rewrite <- app_assoc. cbn [app l_optarg long_at].
      by destruct (loop n _) as [[l s] |].
    + rewrite step_short by assumption. unfold short_argument. cbn [next_char long_at].
      assert (a !! length pre = Some f) as -> by (rewrite Ea, lookup_app_r, Nat.sub_diag by lia; reflexivity). cbn [mbind option_bind].
      rewrite Et. destruct (Z.eqb_spec (chr t 1) COLON); [done |].
      assert (chr a (length pre + 1) <> 0) as Na.
      { rewrite Ea. cbn [app]. rewrite chr_behind by lia. destruct fs as [| g fs]; [exact Nr |]. apply Forall_inv_tail, Forall_inv in Ff as [Lg _]. by apply letter_ok. }
      destruct (Z.eqb_spec (chr a (length pre + 1)) 0); [done |]. cbn [negb]. unfold set_next_char, long_at. cbn. rewrite length_app. reflexivity.
    + by apply letter_ok.
Qed.

Lemma short_word_flags fs c v : Forall (short_flag opt_str) fs -> letter c -> short_word (fs ++ c :: v).
Proof. intros Ff Lc. destruct Ff as [| f fs [Lf _] _]; cbn; [split; by apply letter_ok | split; by apply letter_ok]. Qed.

(** Flags and then one option that ends the argument or takes the rest of it. *)
Lemma short_last_run x done todo C j st n fs c v r y s : Forall (short_flag opt_str) fs -> letter c -> done <> [] -> argc = zlen done + zlen ((DASH :: fs ++ c :: v) :: todo) ->
  r = (c, y) -> l_optarg s = y ->
  short_argument argc opt_str (fs ++ c :: v) (long_at x done ((DASH :: fs ++ c :: v) :: todo) (length fs) C j st) = Some (c, s) ->
  loop (length fs + S n) (long_at x done ((DASH :: fs ++ c :: v) :: todo) 0 C j st) = ('(l, s) ← loop n s; Some ((map (fun f => (f, x)) fs ++ [r]) ++ l, s)).
Proof.
  intros Ff Lc D A -> <- E. pose proof (short_word_flags fs c v Ff Lc) as W.
  pose proof (short_flags_run x done todo C j st (S n) (c :: v) (proj1 (proj2 (letter_ok c Lc))) fs [] (fs ++ c :: v) eq_refl Ff W D A) as K.
  change (length (@nil Z)) with 0%nat in K. cbn [app] in K. rewrite K.
  rewrite (loop_step_long _ _ c s); [| by rewrite step_short by assumption | by apply letter_ok]. destruct (loop n s) as [[l s'] |]; [| reflexivity].
  cbn. by rewrite <- app_assoc.
Qed.

Lemma at_last fs (c : Z) v : (fs ++ c :: v) !! length fs = Some c.
Proof. by rewrite lookup_app_r, Nat.sub_diag by lia. Qed.

Lemma argument_one x y done a todo k k' C j st : set_optind (zlen done + 1) (set_next_char k (set_optarg y (long_at x done (a :: todo) k' C j st))) = long_at y (done ++ [Some a]) todo k C j st.
Proof. unfold set_optind, set_next_char, set_optarg, long_at. cbn. by rewrite <- app_assoc, zlen_app. Qed.

Lemma argument_two x y done a b todo k k' C j st :
  set_optind (zlen done + 2) (set_next_char k (set_optarg y (long_at x done (a :: b :: todo) k' C j st))) = long_at y (done ++ [Some a; Some b]) todo k C j st.
Proof. unfold set_optind, set_next_char, set_optarg, long_at. cbn. by rewrite <- app_assoc, zlen_app. Qed.

(** What it means that the arguments [args] make the loop report [l]. *)
Definition reports (x : option (list Z)) (l : list (Z * option (list Z))) (x' : option (list Z)) (args : list (list Z)) : Prop :=
  forall done todo C j st n, done <> [] -> argc = zlen done + zlen args + zlen todo ->
  exists j' st', loop (length l + n) (long_at x done (args ++ todo) 0 C j st) = ('(l', s) ← loop n (long_at x' (done ++ map Some args) todo 0 C j' st'); Some (l ++ l', s)).

(** One that ends with a short option. *)
Lemma reports_short x x' fs c v more : Forall (short_flag opt_str) fs -> letter c ->
  (forall done todo C j st, argc = zlen done + zlen ((DASH :: fs ++ c :: v) :: more) + zlen todo ->
     short_argument argc opt_str (fs ++ c :: v) (long_at x done ((DASH :: fs ++ c :: v) :: more ++ todo) (length fs) C j st) =
     Some (c, long_at x' (done ++ map Some ((DASH :: fs ++ c :: v) :: more)) todo 0 C j st)) ->
  reports x (map (fun f => (f, x)) fs ++ [(c, x')]) x' ((DASH :: fs ++ c :: v) :: more).
Proof.
  intros Ff Lc E done todo C j st n D A. exists j, st. rewrite length_app, length_map, <- Nat.add_assoc. cbn [length Nat.add app].
  rewrite (short_last_run x done (more ++ todo) C j st n fs c v (c, x') x' (long_at x' (done ++ map Some ((DASH :: fs ++ c :: v) :: more)) todo 0 C j st)); try done; [| by apply E].
  rewrite zlen_cons, zlen_app in *. lia.
Qed.

Lemma reports_flags x fs : fs <> [] -> Forall (short_flag opt_str) fs -> reports x (map (fun f => (f, x)) fs) x [DASH :: fs].
Proof.
  intros Nf Ff. destruct (exists_last Nf) as (gs & g & ->). apply Forall_app in Ff as [Fg (Lg & t & Et & Nt)%Forall_inv]. rewrite map_app.
  apply reports_short; [exact Fg | exact Lg |]. intros done todo C j st A.
  unfold short_argument. cbn [next_char long_at]. rewrite at_last. cbn [mbind option_bind]. rewrite Et. destruct (Z.eqb_spec (chr t 1) COLON); [done |].
  rewrite chr_behind by lia. cbn. unfold long_at. by rewrite <- app_assoc, zlen_app.
Qed.

Lemma reports_attached x fs c v : Forall (short_flag opt_str) fs -> short_valued opt_str c -> v <> [] -> string_ok v ->
  reports x (map (fun f => (f, x)) fs ++ [(c, Some v)]) (Some v) [DASH :: fs ++ c :: v].
Proof.
  intros Ff (Lc & t & Et & Nt) Nv Sv. apply reports_short; [exact Ff | exact Lc |]. intros done todo C j st A.
  unfold short_argument. cbn [next_char long_at]. rewrite at_last. cbn [mbind option_bind]. rewrite Et, Nt, Z.eqb_refl, chr_behind by lia.
  destruct v as [| u v]; [done |]. assert (u <> 0) by (intros ->; apply Sv; left). cbn [chr nth]. destruct (Z.eqb_spec u 0); [done |]. cbn [negb].
  cbn [map app l_optind long_at]. rewrite <- (argument_one x (Some (u :: v)) done _ todo 0 (length fs)). do 5 f_equal.
  rewrite (cons_middle c), app_assoc, drop_app_length' by (rewrite length_app; cbn; lia). reflexivity.
Qed.

Lemma reports_separate x fs c v : Forall (short_flag opt_str) fs -> short_required opt_str c -> is_option v = false ->
  reports x (map (fun f => (f, x)) fs ++ [(c, Some v)]) (Some v) [DASH :: fs ++ [c]; v].
Proof.
  intros Ff (Lc & t & Et & Nt & Nt2) Ov. apply reports_short; [exact Ff | exact Lc |]. intros done todo C j st A.
  unfold short_argument. cbn [next_char long_at]. rewrite at_last. cbn [mbind option_bind]. rewrite Et, Nt, Z.eqb_refl, chr_behind by lia.
  destruct (Z.eqb_spec (chr t 2) COLON); [done |]. cbn [chr nth negb Z.eqb andb l_optind long_at app].
  rewrite !zlen_cons in A. change (zlen (@nil (list Z))) with 0 in A. pose proof (zlen_nonneg todo).
  destruct (Z.ltb_spec (zlen done + 1) argc); [| lia]. rewrite l_arg_next. cbn [mbind option_bind]. rewrite Ov.
  cbn [map]. by rewrite <- (argument_two x (Some v) done _ v todo 0 (length fs)).
Qed.

Lemma reports_optional x fs c : Forall (short_flag opt_str) fs -> short_optional opt_str c ->
  reports x (map (fun f => (f, x)) fs ++ [(c, None)]) None [DASH :: fs ++ [c]].
Proof.
  intros Ff (Lc & t & Et & Nt & Nt2). apply reports_short; [exact Ff | exact Lc |]. intros done todo C j st A.
  unfold short_argument. cbn [next_char long_at]. rewrite at_last. cbn [mbind option_bind]. rewrite Et, Nt, Nt2, Z.eqb_refl, chr_behind by lia.
  cbn [chr nth negb Z.eqb andb map app l_optind long_at]. by rewrite <- (argument_one x None done _ todo 0 (length fs)).
Qed.

(** Long options. *)

Lemma strchr_app_none (name : list Z) c : c ∉ name -> strchr_from name c = None.
Proof. induction name as [| d name IH]; intros N; [reflexivity |]. cbn. apply not_elem_of_cons in N as [N1 N2]. destruct (Z.eqb_spec d c); [by subst | by apply IH]. Qed.

Lemma strchr_app_some (name : list Z) c v : c ∉ name -> strchr_from (name ++ c :: v) c = Some (c :: v).
Proof.
  induction name as [| d name IH]; intros N; cbn; [by rewrite Z.eqb_refl |]. apply not_elem_of_cons in N as [N1 N2]. destruct (Z.eqb_spec d c); [by subst | by apply IH].
Qed.

Lemma search_row rows o post arg name e s : Forall (fun o => opt_name o <> name) rows -> opt_name o = name ->
  forall i, long_search argc opt_str long_index (rows ++ o :: post) i arg name e s = long_found argc opt_str long_index (i + zlen rows) o arg e s.
Proof.
  induction 1 as [| r rows Hr _ IH]; intros E i; cbn [app long_search].
  - rewrite bool_decide_true by done. by rewrite Z.add_0_r.
  - rewrite bool_decide_false by done. rewrite IH by exact E. f_equal. rewrite zlen_cons. lia.
Qed.

(** One call that reads a long option. *)
Lemma reports_long x x' name rest o more : row long_opts name o -> (rest = [] \/ exists v, rest = EQUALS :: v) ->
  (forall done todo C j st i, argc = zlen done + zlen ((DASH :: DASH :: name ++ rest) :: more) + zlen todo -> exists j' st',
     long_found argc opt_str long_index i o (name ++ rest) (if bool_decide (rest = []) then None else Some rest) (long_at x done ((DASH :: DASH :: name ++ rest) :: more ++ todo) 0 C j st) =
     Some (row_code o, long_at x' (done ++ map Some ((DASH :: DASH :: name ++ rest) :: more)) todo 0 C j' st')) ->
  reports x [(row_code o, x')] x' ((DASH :: DASH :: name ++ rest) :: more).
Proof.
  intros (Nn & Sn & En & Nc & pre & post & El & Eo & Fp) Hr E done todo C j st n D A. destruct (E done todo C j st (0 + zlen pre) A) as (j' & st' & F).
  exists j', st'. cbn [length Nat.add app]. destruct name as [| u name]; [done |]. assert (u <> 0) by (intros ->; apply Sn; left).
  rewrite (loop_step_long _ _ (row_code o) (long_at x' (done ++ map Some ((DASH :: DASH :: (u :: name) ++ rest) :: more)) todo 0 C j' st'));
    [by destruct (loop n _) as [[l s] |] | | exact Nc].
  rewrite zlen_cons in A.
  rewrite step_option; [| unfold is_option; cbn; by destruct (Z.eqb_spec u 0) | exact D | rewrite zlen_cons, zlen_app; lia].
  change (chr (DASH :: DASH :: (u :: name) ++ rest) 1) with DASH. rewrite Z.eqb_refl. change (chr (DASH :: DASH :: (u :: name) ++ rest) 2) with u.
  destruct (Z.eqb_spec u 0); [done |]. unfold long_argument. change (drop 2 (DASH :: DASH :: (u :: name) ++ rest)) with ((u :: name) ++ rest).
  destruct Hr as [-> | (v & ->)].
  - rewrite bool_decide_true in F by done. rewrite app_nil_r in *. rewrite strchr_app_none by exact En. rewrite El, search_row by assumption. exact F.
  - rewrite bool_decide_false in F by done. rewrite strchr_app_some by exact En. rewrite length_app, Nat.add_sub, take_app_length. rewrite El, search_row by assumption. exact F.
Qed.

(** The end of [long_found]. *)
Lemma found_next x y i o done a todo C j st arg e : has_arg o = no_argument /\ y = None \/ has_arg o = required_argument /\ (exists v, e = Some (EQUALS :: v) /\ y = Some v) \/
    has_arg o = optional_argument /\ (e = None /\ y = None \/ exists v, e = Some (EQUALS :: v) /\ y = Some v) ->
  exists j' st', long_found argc opt_str long_index i o arg e (long_at x done (a :: todo) 0 C j st) = Some (row_code o, long_at y (done ++ [Some a]) todo 0 C j' st').
Proof.
  intros H. exists (if long_index then Some i else j), (match flag_ptr o with None => st | Some p => st ++ [(p, opt_val o)] end). rewrite <- (argument_one x y done a todo 0 0).
  unfold long_found, row_code. destruct H as [(-> & ->) | [(-> & v & -> & ->) | (-> & [(-> & ->) | (v & -> & ->)])]]; by destruct long_index, (flag_ptr o).
Qed.

Lemma reports_item x l x' args : option_item opt_str long_opts x l x' args -> reports x l x' args.
Proof.
  destruct 1 as [fs Nf Ff | fs c v Ff Hc Nv Sv | fs c v Ff Hc Ov | fs c Ff Hc | name o Hr Ha | name o v Hr Ha | name o v Hr Ha];
    [by apply reports_flags | by apply reports_attached | by apply reports_separate | by apply reports_optional | ..].
  - pose proof (reports_long x None name [] o [] Hr (or_introl eq_refl)) as R. rewrite app_nil_r in R. apply R. intros done todo C j st i A.
    rewrite bool_decide_true by done. apply found_next. naive_solver.
  - pose proof (reports_long x (Some v) name (EQUALS :: v) o [] Hr (or_intror (ex_intro _ v eq_refl))) as R. apply R. intros done todo C j st i A.
    rewrite bool_decide_false by done. apply found_next. naive_solver.
  - pose proof (reports_long x (Some v) name [] o [v] Hr (or_introl eq_refl)) as R. rewrite app_nil_r in R. apply R. intros done todo C j st i A.
    rewrite !zlen_cons in A. change (zlen (@nil (list Z))) with 0 in A. pose proof (zlen_nonneg todo). rewrite bool_decide_true by done.
    exists (if long_index then Some i else j), (match flag_ptr o with None => st | Some p => st ++ [(p, opt_val o)] end).
    cbn [map app]. rewrite <- (argument_two x (Some v) done _ v todo 0 0). unfold long_found, row_code. rewrite Ha. cbn [Z.eqb no_argument required_argument Pos.eqb l_optind long_at].
    destruct (Z.ltb_spec (zlen done + 1) argc); [| lia]. rewrite l_arg_next. cbn [mbind option_bind]. by destruct long_index, (flag_ptr o).
Qed.

Lemma item_head x l x' args : option_item opt_str long_opts x l x' args -> exists a r, args = a :: r /\ is_option a = true.
Proof.
  assert (Lr : forall name o rest, row long_opts name o -> is_option (DASH :: DASH :: name ++ rest) = true).
  { intros [| u name] o rest (Nn & Sn & _); [done |]. assert (u <> 0) by (intros ->; apply Sn; left). unfold is_option. cbn. by destruct (Z.eqb_spec u 0). }
  destruct 1 as [fs Nf Ff | fs c v Ff Hc Nv Sv | fs c v Ff Hc Ov | fs c Ff Hc | name o Hr Ha | name o v Hr Ha | name o v Hr Ha]; eexists _, _; (split; [reflexivity |]);
    try (eapply Lr; eassumption); try (specialize (Lr _ _ [] Hr); by rewrite app_nil_r in Lr); apply short_word_option.
  - destruct Ff as [| f fs [Lf _] _]; [done |]. split; by apply letter_ok.
  - by apply short_word_flags, Hc.
  - by apply short_word_flags, Hc.
  - by apply short_word_flags, Hc.
Qed.

(** Operands in front of anything. *)
Lemma operands_run x os done todo C j st n : Forall operand os -> done <> [] -> 0 <= C <= zlen done -> argc = zlen done + zlen os + zlen todo ->
  (exists a r, todo = a :: r /\ is_option a = true) ->
  exists done', zlen done' = zlen done + zlen os /\ take (Z.to_nat C + length os) done' = take (Z.to_nat C) done ++ map Some os /\
    loop (S n) (long_at x done (os ++ todo) 0 C j st) = loop (S n) (long_at x done' todo 0 (C + zlen os) j st).
Proof.
  intros Fo D HC A T. destruct os as [| o os].
  - exists done. cbn [length app map]. rewrite Nat.add_0_r, app_nil_r. change (zlen (@nil (list Z))) with 0. rewrite !Z.add_0_r. auto.
  - destruct (step_operands x done (o :: os) todo C j st Fo ltac:(done) D HC A (or_intror T)) as (done' & L & Tk & E).
    exists done'. split; [unfold zlen; lia |]. split; [exact Tk |]. destruct T as (a & r & -> & _). cbn [getopt_long_loop]. by rewrite E.
Qed.

Lemma mixed_run x l args ops t : mixed opt_str long_opts x l args ops t -> forall done C j st, done <> [] -> 0 <= C <= zlen done -> argc = zlen done + zlen args ->
  exists s, loop (S (length l)) (long_at x done args 0 C j st) = Some (l, s) /\ l_messages s = [] /\
    take (Z.to_nat C + length ops) (l_argv s) = take (Z.to_nat C) done ++ map Some ops /\
    l_optind s = (if bool_decide (t = []) then argc else 1) /\ (t <> [] -> l_argv s !! (Z.to_nat C + length ops)%nat = Some None).
Proof.
  induction 1 as [x t Ft | x os l x' args l' args' ops t Fo Hi Hm IH]; intros done C j st D HC A.
  - destruct t as [| a t].
    + exists (long_at x done [] 0 C j st). cbn [length getopt_long_loop]. rewrite bool_decide_true by done. change (zlen (@nil (list Z))) with 0 in A.
      unfold getopt_long. cbn [l_optind long_at]. assert (0 < zlen done) by (destruct done; [done |]; unfold zlen; simpl; lia).
      destruct (Z.eqb_spec (zlen done) 0); [lia |]. cbn [long_while l_optind long_at]. destruct (Z.ltb_spec (zlen done) argc); [lia |].
      split; [reflexivity |]. split; [reflexivity |]. split; [| split; [cbn; lia | done]].
      cbn [l_argv long_at map app]. rewrite Nat.add_0_r, app_nil_r, take_app_le by (unfold zlen in *; lia). reflexivity.
    + destruct (step_operands x done (a :: t) [] C j st Ft ltac:(done) D HC) as (done' & L & Tk & E); [rewrite A; unfold zlen; cbn; lia | by left |].
      rewrite app_nil_r in E. cbn [length getopt_long_loop]. rewrite E. unfold put_arg. cbn [set_optind l_argv long_at map app]. cbn [length] in L, Tk.
      assert (In : 0 <= C + zlen (a :: t) < zlen (done' ++ [None])) by (rewrite zlen_app; unfold zlen in *; cbn [length] in *; lia).
      assert ((0 <=? C + zlen (a :: t)) && (C + zlen (a :: t) <? zlen (done' ++ [None])) = true) as -> by (apply andb_true_iff; split; [apply Z.leb_le | apply Z.ltb_lt]; lia).
      eexists. split; [reflexivity |]. cbn [l_messages l_argv l_optind set_argv]. rewrite bool_decide_false by done.
      replace (Z.to_nat (C + zlen (a :: t))) with (Z.to_nat C + S (length t))%nat by (unfold zlen; cbn [length]; lia). cbn [length].
      unfold zlen in In, HC. rewrite length_app in In. cbn [length] in In.
      split; [reflexivity |]. split; [rewrite take_insert_ge by lia; by rewrite take_app_le by lia |]. split; [reflexivity |]. intros _. apply list_lookup_insert_eq. rewrite length_app. cbn. lia.
  - destruct (item_head _ _ _ _ Hi) as (a & r & Ea & Oa). rewrite zlen_app, zlen_app in A. pose proof (reports_item _ _ _ _ Hi) as R.
    assert (exists k, length l = S k) as [k Ek] by (destruct Hi; rewrite ?length_app; cbn; eauto; [destruct fs; cbn; eauto; done | rewrite Nat.add_comm; cbn; eauto..]).
    destruct (operands_run x os done (args ++ args') C j st (k + S (length l')) Fo D HC) as (done' & Ld & Tk & E); [rewrite zlen_app; lia | rewrite Ea; by eexists _, _ |].
    assert (Nd : done' <> []) by (intros ->; change (zlen (@nil (option (list Z)))) with 0 in Ld; destruct done; [done |]; unfold zlen in Ld; cbn in Ld; lia).
    destruct (R done' args' (C + zlen os) j st (S (length l')) Nd ltac:(lia)) as (j' & st' & F).
    destruct (IH (done' ++ map Some args) (C + zlen os) j' st') as (s & G & Ms & Ar & Oi & Nu);
      [by destruct done' | rewrite zlen_app; pose proof (zlen_nonneg (map Some args)); pose proof (zlen_nonneg os); lia | rewrite zlen_app; unfold zlen in *; rewrite length_map; lia |].
    replace (Z.to_nat (C + zlen os)) with (Z.to_nat C + length os)%nat in * by (unfold zlen; lia).
    exists s. rewrite length_app, Ek. cbn [Nat.add]. replace (S (k + length l'))%nat with (k + S (length l'))%nat by lia. rewrite E.
    rewrite Ek in F. cbn [Nat.add] in F. rewrite F, G. cbn [mbind option_bind]. split; [reflexivity |]. split; [exact Ms |].
    rewrite length_app, Nat.add_assoc. split; [| split; [exact Oi | exact Nu]]. rewrite Ar, map_app, app_assoc. f_equal.
    rewrite take_app_le by (unfold zlen in *; lia). exact Tk.
Qed.
End LongRun.

(** ** The two functions on whole command lines *)

(** C20: [getopt] reads command lines as POSIX describes them: whenever the arguments [args]
    spell the options [l] - letters grouped behind a dash, the last of a group perhaps with
    an argument in the same or in the next argument - and then the operands [ops], with or
    without "--" in front of them, a program that calls [getopt] until it returns -1 sees
    exactly the options [l] with their arguments, in order and within [length l + 1] calls;
    then [optind] is the index of the first operand and nothing was written to [stderr]. *)
Theorem getopt_parses (opt_string prog : list Z) l args ops : spells opt_string l args ops ->
  exists s, getopt_loop (prog :: args) opt_string (S (length l)) initial_opts = Some (l, s) /\
    optind s = zlen (prog :: args) - zlen ops /\ drop (Z.to_nat (optind s)) (prog :: args) = ops /\ messages s = [].
Proof.
  intros Sp. destruct (spells_run opt_string l args ops Sp [prog] None ltac:(done) (or_introl eq_refl)) as (p & R). cbn [app] in R.
  eexists. split; [exact R |]. cbn [optind messages at_state]. split; [reflexivity |]. split; [| reflexivity].
  assert (exists pre, args = pre ++ ops) as [pre ->]
    by (clear R; induction Sp as [| | ? ? ? ? ? ? ? [pre ->] | ? ? ? ? ? ? ? ? ? ? ? [pre ->] | ? ? ? ? ? ? ? ? ? [pre ->]]; [by exists [] | by eexists [_] | by eexists (_ :: pre) | by eexists (_ :: pre) | by eexists (_ :: _ :: pre)]).
  replace (Z.to_nat _) with (length (prog :: pre)) by (unfold zlen; cbn [length]; rewrite length_app; lia). by rewrite app_comm_cons, drop_app_length.
Qed.

(** [prog -ab x -bx f] with "ab:". *)
Lemma getopt_parses_witness :
  let argv := [[112]; [45; 97; 98]; [120]; [45; 98; 120]; [102]] in
  exists s, getopt_loop argv [97; 98; 58] 4 initial_opts = Some ([(97, None); (98, Some [120]); (98, Some [120])], s) /\
    optind s = zlen argv - 1 /\ drop (Z.to_nat (optind s)) argv = [[102]] /\ messages s = [].
Proof.
  apply (getopt_parses [97; 98; 58] [112] [(97, None); (98, Some [120]); (98, Some [120])] [[45; 97; 98]; [120]; [45; 98; 120]; [102]] [[102]]).
  assert (Fa : flag [97; 98; 58] 97) by (split; [unfold letter, COLON, DASH, QUESTION; lia | eexists; split; [reflexivity | by cbn]]).
  assert (Vb : valued [97; 98; 58] 98) by (split; [unfold letter, COLON, DASH, QUESTION; lia | eexists; split; [reflexivity | by cbn]]).
  apply (spells_separate _ [97] 98 [120]); [constructor; [exact Fa | constructor] | exact Vb |].
  apply (spells_attached _ [] 98 [120]); [constructor | exact Vb | done | unfold string_ok; set_solver |].
  constructor. constructor; [unfold string_ok; set_solver | right; by cbn].
Defined.

Definition initial_long (argv : list (list Z)) : long_state :=
  {| l_argv := map Some argv ++ [None]; l_optarg := None; l_optind := 1; l_opterr := 1; l_optopt := 0; next_char := 0;
     COPY_NON_OPTION_PTR := 1; l_index := None; l_stored := []; l_messages := [] |}.

(** C21: [getopt_long] with operands anywhere between the options: whenever [args] spell the
    options [l] (short ones as for [getopt], with required and optional arguments, and long
    ones of the table, "--name", "--name=value" and "--name value") interleaved with the
    operands [ops], the calls until -1 return exactly the options [l] with their arguments,
    in order; afterwards [argv] holds the program name and the operands, in their order, in
    front, and nothing was written to [stderr].  When the last argument is an operand
    ([t] is not empty) [optind] is 1 and a null pointer ends the operands; otherwise
    [optind] is [argc]. *)
Theorem getopt_long_parses (opt_str prog : list Z) (long_opts : list long_option) (long_index : bool) l args ops t :
  chr opt_str 0 <> PLUS -> mixed opt_str long_opts None l args ops t ->
  exists s, getopt_long_loop (zlen (prog :: args)) false opt_str long_opts long_index (S (length l)) (initial_long (prog :: args)) = Some (l, s) /\
    take (S (length ops)) (l_argv s) = map Some (prog :: ops) /\ l_messages s = [] /\
    l_optind s = (if bool_decide (t = []) then zlen (prog :: args) else 1) /\ (t <> [] -> l_argv s !! S (length ops) = Some None).
Proof.
  intros Np Mx. destruct (mixed_run (zlen (prog :: args)) opt_str long_opts long_index Np _ _ _ _ _ Mx [Some prog] 1 None [] ltac:(done)) as (s & R & Ms & Ar & Oi & Nu);
    [unfold zlen; cbn; lia | rewrite zlen_cons; unfold zlen; cbn; lia |].
  exists s. split; [exact R |]. split; [exact Ar |]. auto.
Qed.

(** [prog a --out=x -v b --all] and so on, with "vo::" and the rows "out" and "all". *)
Lemma getopt_long_parses_witness :
  let rows := [{| opt_name := [111; 117; 116]; has_arg := 1; flag_ptr := None; opt_val := 111 |}; {| opt_name := [97]; has_arg := 0; flag_ptr := Some 0%nat; opt_val := 7 |}] in
  let argv := [[112]; [102]; [45; 45; 111; 117; 116; 61; 120]; [45; 118]; [103]; [45; 45; 97]; [104]] in
  exists s, getopt_long_loop 7 false [118] rows true 4 (initial_long argv) = Some ([(111, Some [120]); (118, Some [120]); (0, None)], s) /\
    take 4 (l_argv s) = map Some [[112]; [102]; [103]; [104]] /\ l_messages s = [] /\ l_optind s = 1 /\ ([[104]] <> [] -> l_argv s !! 4%nat = Some None).
Proof.
  intros rows argv.
  refine (getopt_long_parses [118] [112] rows true [(111, Some [120]); (118, Some [120]); (0, None)] [[102]; [45; 45; 111; 117; 116; 61; 120]; [45; 118]; [103]; [45; 45; 97]; [104]] [[102]; [103]; [104]] [[104]] _ _);
    [by cbn |].
  apply (mixed_item _ _ _ [[102]] [(111, Some [120])] (Some [120]) [[45; 45; 111; 117; 116; 61; 120]]); [by repeat constructor | |].
  { refine (item_long_attached _ _ _ [111; 117; 116] {| opt_name := [111; 117; 116]; has_arg := 1; flag_ptr := None; opt_val := 111 |} [120] _ _); [| by left].
    split; [done |]. split; [unfold string_ok; set_solver |]. split; [unfold EQUALS; set_solver |]. split; [done |]. exists [], [{| opt_name := [97]; has_arg := 0; flag_ptr := Some 0%nat; opt_val := 7 |}].
    split; [reflexivity |]. split; [reflexivity | constructor]. }
  apply (mixed_item _ _ _ [] [(118, Some [120])] (Some [120]) [[45; 118]]); [constructor | |].
  { apply (item_flags _ _ _ [118]); [done |]. constructor; [| constructor]. split; [unfold letter, COLON, DASH, QUESTION; lia |]. eexists. split; [reflexivity | by cbn]. }
  apply (mixed_item _ _ _ [[103]] [(0, None)] None [[45; 45; 97]] [] [[104]] [[104]]); [by repeat constructor | | constructor; by repeat constructor].
  refine (item_long _ _ _ [97] {| opt_name := [97]; has_arg := 0; flag_ptr := Some 0%nat; opt_val := 7 |} _ _); [| by left].
  split; [done |]. split; [unfold string_ok; set_solver |]. split; [unfold EQUALS; set_solver |]. split; [done |].
  exists [{| opt_name := [111; 117; 116]; has_arg := 1; flag_ptr := None; opt_val := 111 |}], []. split; [reflexivity |]. split; [reflexivity | by repeat constructor].
Defined.

(** ** Where the code differs *)

(** A missing option argument is reported as ':' although [opt_string] does not start with
    a colon, and [optopt] does not name the option. *)
Lemma getopt_missing_argument : exists s, getopt [[112]; [45; 98]] [98; 58] initial_opts = Some (COLON, s) /\ optopt s = 0 /\ messages s = [MissingArgument 98].
Proof. eexists. by split. Qed.

(** An unknown option does not set [optopt] either. *)
Lemma getopt_unknown_option : exists s, getopt [[112]; [45; 122]] [98; 58] initial_opts = Some (QUESTION, s) /\ optopt s = 0.
Proof. eexists. by split. Qed.

(** An unknown short option is not consumed: every call returns it again. *)
Lemma getopt_long_unknown_stays : exists s, getopt_long 2 false [98] [] true (initial_long [[112]; [45; 122]]) = Some (QUESTION, s) /\
  l_optind s = 1 /\ next_char s = 0%nat /\ exists s', getopt_long 2 false [98] [] true s = Some (QUESTION, s') /\ l_optind s' = 1.
Proof. eexists. split; [reflexivity |]. split; [reflexivity |]. split; [reflexivity |]. eexists. by split. Qed.

(** So is an unknown long option. *)
Lemma getopt_long_unknown_long_stays : exists s, getopt_long 2 false [98] [] true (initial_long [[112]; [45; 45; 122]]) = Some (QUESTION, s) /\ l_optind s = 1 /\ next_char s = 0%nat.
Proof. eexists. by split. Qed.

(** [prog f -b]: the operand in front of the last option is behind [optind] at the end. *)
Lemma getopt_long_loses_operands : exists s, getopt_long_loop 3 false [98] [] true 2 (initial_long [[112]; [102]; [45; 98]]) = Some ([(98, None)], s) /\ l_optind s = 3.
Proof. eexists. by split. Qed.

(** [prog -b -- -b]: "--" is an operand and does not end the options. *)
Lemma getopt_long_ignores_dashes : exists s,
  getopt_long_loop 4 false [98] [] true 3 (initial_long [[112]; [45; 98]; [45; 45]; [45; 98]]) = Some ([(98, None); (98, None)], s) /\ l_argv s !! 1%nat = Some (Some [45; 45]).
Proof. eexists. by split. Qed.

(** [prog -b -1] with "b:": a required argument that starts with a dash is refused. *)
Lemma getopt_long_refuses_argument : exists s, getopt_long 3 false [98; 58] [] true (initial_long [[112]; [45; 98]; [45; 49]]) = Some (QUESTION, s) /\ l_messages s = [].
Proof. eexists. by split. Qed.
