(* ===== verification/Fnmatch.v ===== *)
(** * File name patterns

    [fnmatch] of [src/src/posix/fnmatch.cpp].

    The pattern and the string are the lists of their characters (values of [char],
    without the terminator); a pointer is the list of what follows it.  [None] only stands
    for a bound on the iterations that is too small, and [fnmatch_returns] shows that it is
    not.  [fnmatch_correct] compares the function with a matching relation for patterns
    without a star except at their end; the lemmas at the end of the file evaluate what it
    does with other stars. *)

From Stdlib Require Import String.
From stdpp Require Import base list option.
From S2P Require Import Prelude Literal Ctype.

#[local] Open Scope Z_scope.

Definition FNM_PATHNAME : Z := 1.
Definition FNM_NOMATCH : Z := 1.
Definition FNM_LEADING_DIR : Z := 8.
Definition FNM_CASEFOLD : Z := 16.

Definition SLASH : Z := 47.
Definition STAR : Z := 42.
Definition QUERY : Z := 63.
Definition OPEN : Z := 91.
Definition CLOSE : Z := 93.
Definition BANG : Z := 33.
Definition CARET : Z := 94.
Definition COLON : Z := 58.
Definition DASH : Z := 45.

(** [p[i]]. *)
Definition chr (p : list Z) (i : nat) : Z := nth i p 0.

(** [static_cast<char>]. *)
Definition as_char (z : Z) : Z := (z + 128) mod 256 - 128.

(** The test of a character class by its name. *)
Definition in_class (name : list Z) (c : Z) : bool :=
  if bool_decide (name = chars "alnum") then truthy (isalnum c)
  else if bool_decide (name = chars "alpha") then truthy (isalpha c)
  else if bool_decide (name = chars "blank") then truthy (isblank c)
  else if bool_decide (name = chars "cntrl") then truthy (iscntrl c)
  else if bool_decide (name = chars "digit") then truthy (isdigit c)
  else if bool_decide (name = chars "graph") then truthy (isgraph c)
  else if bool_decide (name = chars "lower") then truthy (islower c)
  else if bool_decide (name = chars "print") then truthy (isprint c)
  else if bool_decide (name = chars "punct") then truthy (ispunct c)
  else if bool_decide (name = chars "space") then truthy (isspace c)
  else if bool_decide (name = chars "upper") then truthy (isupper c)
  else if bool_decide (name = chars "xdigit") then truthy (isxdigit c)
  else false.

(** The first ":]" from [pattern] on. *)
Fixpoint class_end (pattern : list Z) : option (list Z) :=
  match pattern with
  | [] => None
  | c :: r => if (c =? COLON) && (chr r 0 =? CLOSE) then Some pattern else class_end r
  end.

(** How a bracket expression ends: no such expression, or the character is not in it, or
    it is and the pattern goes on behind it. *)
Inductive bracket := Malformed | Mismatch | Matched (rest : list Z).

Section Fnmatch.
Context (flags : Z).
Definition path : bool := negb (Z.land flags FNM_PATHNAME =? 0).
Definition fold : bool := negb (Z.land flags FNM_CASEFOLD =? 0).
Definition leading_dir : bool := negb (Z.land flags FNM_LEADING_DIR =? 0).

Definition folded (c : Z) : Z := if fold then as_char (tolower c) else c.

Section Bracket.
Context (exclude : bool) (str_c : Z).

(** The loop over the members; [first] says that [pattern == group_start].  A class name
    of length -1, from "[:]", is no name. *)
Fixpoint bracket_items (n : nat) (first : bool) (pattern : list Z) (found : bool) : bracket :=
  match n with
  | O => Malformed
  | S n =>
    let next match_ pattern := if match_ && exclude then Mismatch else bracket_items n false pattern (found || match_) in
    match pattern with
    | [] => Malformed
    | c :: p1 =>
      if (c =? CLOSE) && negb first then if found then Matched p1 else Mismatch
      else if (c =? OPEN) && (chr p1 0 =? COLON) then
        let start := drop 1 p1 in
        match class_end pattern with
        | None => Malformed
        | Some e =>
          if (length e =? length start)%nat then Malformed
          else next (if (length start <? length e)%nat then false else in_class (take (length start - length e) start) str_c) (drop 2 e)
        end
      else if (chr p1 0 =? DASH) && negb (chr p1 1 =? 0) then
        next ((folded c <=? str_c) && (str_c <=? folded (chr p1 1))) (drop 2 p1)
      else next ((folded c =? str_c) && (negb path || negb (str_c =? SLASH))) p1
    end
  end.
End Bracket.

(** Behind the opening bracket. *)
Definition bracket_match (pattern : list Z) (str_c : Z) : bracket :=
  if (chr pattern 0 =? BANG) || (chr pattern 0 =? CARET) then bracket_items true str_c (S (length pattern)) true (drop 1 pattern) true
  else bracket_items false str_c (S (length pattern)) true pattern false.

(** The main loop; [n] bounds its iterations.  [in_star] comes with [pattern_at_star]. *)
Fixpoint fnmatch_loop (n : nat) (pattern str : list Z) (in_star : bool) (pattern_at_star : list Z) : option Z :=
  match n with
  | O => None
  | S n =>
    let c := chr pattern 0 in
    if negb in_star && (c =? 0) then
      match str with
      | [] => Some 0
      | _ => if leading_dir && (chr str 0 =? SLASH) then Some 0 else Some FNM_NOMATCH
      end
    else
      let pattern := drop 1 pattern in
      match str with
      | [] => if in_star || (c =? STAR) then Some 0 else Some FNM_NOMATCH
      | str_c :: str' =>
        let '(c, str_c) := if fold then (as_char (tolower c), as_char (tolower (as_char (tolower c)))) else (c, str_c) in
        let again := fnmatch_loop n pattern_at_star str' true pattern_at_star in
        if c =? QUERY then
          if path && (str_c =? SLASH) then
            if in_star then again else if leading_dir && (chr pattern 0 =? 0) then Some 0 else Some FNM_NOMATCH
          else fnmatch_loop n pattern str' false pattern_at_star
        else if c =? STAR then fnmatch_loop n pattern str true pattern
        else if c =? OPEN then
          match bracket_match pattern str_c with
          | Malformed => Some FNM_NOMATCH
          | Mismatch => if in_star then again else Some FNM_NOMATCH
          | Matched pattern => fnmatch_loop n pattern str' false pattern_at_star
          end
        else if negb (str_c =? c) then
          if in_star && (negb path || negb (str_c =? SLASH)) then again
          else if leading_dir && (chr pattern 0 =? 0) && (str_c =? SLASH) then Some 0
          else Some FNM_NOMATCH
        else fnmatch_loop n pattern str' false pattern_at_star
      end
  end.

Definition fnmatch (pattern str : list Z) : option Z := fnmatch_loop (S (length pattern + length str)) pattern str false [].
End Fnmatch.

(** ** Every call returns *)

Section Returns.
Context (flags : Z).

Lemma class_end_shorter p e : class_end p = Some e -> (length e <= length p)%nat.
Proof.
  induction p as [| c p IH]; [done |]. cbn. destruct ((c =? COLON) && (chr p 0 =? CLOSE)); [intros [= <-]; reflexivity |]. intros H%IH. lia.
Qed.

Lemma bracket_shorter exclude c n : forall first p found rest, bracket_items flags exclude c n first p found = Matched rest -> (length rest < length p)%nat.
Proof.
  induction n as [| n IH]; [done |]. intros first [| d p] found rest; [done |]. cbn [bracket_items length].
  destruct ((d =? CLOSE) && negb first); [destruct found; [intros [= <-]; lia | done] |].
  destruct ((d =? OPEN) && (chr p 0 =? COLON)).
  { destruct (class_end (d :: p)) as [e |] eqn:E; [| done]. apply class_end_shorter in E. cbn in E. destruct (length e =? _)%nat; [done |].
    destruct (_ && exclude); [done |]. intros H%IH. rewrite length_drop in H. lia. }
  destruct ((chr p 0 =? DASH) && _); destruct (_ && exclude); try done; intros H%IH; rewrite ?length_drop in H; lia.
Qed.

Lemma bracket_match_shorter p c rest : bracket_match flags p c = Matched rest -> (length rest < length p)%nat.
Proof.
  unfold bracket_match. destruct ((chr p 0 =? BANG) || _); intros H%bracket_shorter; [rewrite length_drop in H |]; lia.
Qed.

Definition result (r : option Z) : Prop := r = Some 0 \/ r = Some FNM_NOMATCH.

(** While [in_star] holds the pattern is the one behind the star; every iteration takes a
    character of the string or leaves a star of the pattern behind. *)
Lemma loop_returns n : forall pattern str (in_star : bool) at_star, (in_star = true -> pattern = at_star) ->
  (length pattern + length str < n)%nat -> result (fnmatch_loop flags n pattern str in_star at_star).
Proof.
  induction n as [| n IH]; [lia |]. intros pattern str in_star at_star Inv L. cbn [fnmatch_loop].
  assert (R0 : result (Some 0)) by (by left). assert (R1 : result (Some FNM_NOMATCH)) by (by right).
  destruct (negb in_star && (chr pattern 0 =? 0)) eqn:E; [destruct str; [| destruct (leading_dir flags && _)]; assumption |].
  destruct str as [| d str]; [destruct (in_star || _); assumption |]. cbn [length] in L.
  assert (Again : in_star = true -> result (fnmatch_loop flags n at_star str true at_star)) by (intros I; apply IH; [done |]; rewrite <- (Inv I); lia).
  assert (Next : forall p, (length p <= length pattern)%nat -> result (fnmatch_loop flags n p str false at_star)) by (intros p Lp; apply IH; [done | lia]).
  assert (Drop : (length (drop 1 pattern) <= length pattern)%nat) by (rewrite length_drop; lia).
  destruct (if fold flags then _ else _) as [c e] eqn:F.
  destruct (c =? QUERY); [destruct (path flags && _); [destruct in_star; [by apply Again |]; destruct (leading_dir flags && _); assumption | by apply Next] |].
  destruct (Z.eqb_spec c STAR) as [-> |].
  { assert (pattern <> []) by (intros ->; destruct (fold flags); vm_compute in F; by injection F). apply IH; [done |]. assert (0 < length pattern)%nat by (destruct pattern; [done | cbn; lia]). rewrite length_drop. cbn [length]. lia. }
  destruct (c =? OPEN).
  { destruct (bracket_match flags (drop 1 pattern) e) as [| | rest] eqn:B; [assumption | destruct in_star; [by apply Again | assumption] |].
    apply Next. apply bracket_match_shorter in B. lia. }
  destruct (negb (e =? c)); [| by apply Next]. destruct in_star; cbn [andb]; [destruct (negb _ || negb _); [by apply Again |] |]; destruct (leading_dir flags && _ && _); assumption.
Qed.

Lemma fnmatch_returns pattern str : result (fnmatch flags pattern str).
Proof. apply loop_returns; [done | lia]. Qed.
End Returns.

(** ** Patterns and what they match *)

Inductive class := Alnum | Alpha | Blank | Cntrl | Digit | Graph | Lower | Print | Punct | Space | Upper | Xdigit.

Definition class_name (k : class) : list Z :=
  match k with
  | Alnum => chars "alnum" | Alpha => chars "alpha" | Blank => chars "blank" | Cntrl => chars "cntrl" | Digit => chars "digit" | Graph => chars "graph"
  | Lower => chars "lower" | Print => chars "print" | Punct => chars "punct" | Space => chars "space" | Upper => chars "upper" | Xdigit => chars "xdigit"
  end.

Definition class_holds (k : class) : Z -> bool :=
  match k with
  | Alnum => CLocale.alnum | Alpha => CLocale.alpha | Blank => CLocale.blank | Cntrl => CLocale.cntrl | Digit => CLocale.digit | Graph => CLocale.graph
  | Lower => CLocale.lower | Print => CLocale.print | Punct => CLocale.punct | Space => CLocale.space | Upper => CLocale.upper | Xdigit => CLocale.xdigit
  end.

(** A member of a bracket expression, and an element of a pattern. *)
Inductive member := Char (x : Z) | Range (a b : Z) | Class_ (k : class).
Inductive element := Literal (x : Z) | AnyChar | Set_ (negated : bool) (ms : list member).

Definition member_text (m : member) : list Z :=
  match m with Char x => [x] | Range a b => [a; DASH; b] | Class_ k => OPEN :: COLON :: class_name k ++ [COLON; CLOSE] end.
Definition members_text (ms : list member) : list Z := concat (map member_text ms).
Definition element_text (e : element) : list Z :=
  match e with
  | Literal x => [x] | AnyChar => [QUERY]
  | Set_ negated ms => OPEN :: (if negated then [BANG] else []) ++ members_text ms ++ [CLOSE]
  end.
Definition pattern_text (es : list element) (star : bool) : list Z := concat (map element_text es) ++ (if star then [STAR] else []).

(** A "]" and a "-" stand for themselves as the first member. *)
Definition member_ok (first : bool) (m : member) : Prop :=
  match m with
  | Char x => x <> 0 /\ x <> OPEN /\ (first = true \/ x <> CLOSE /\ x <> DASH)
  | Range a b => a <> 0 /\ b <> 0 /\ (first = true \/ a <> CLOSE /\ a <> DASH)
  | Class_ _ => True
  end.
Definition element_ok (e : element) : Prop :=
  match e with
  | Literal x => x <> 0 /\ x <> QUERY /\ x <> STAR /\ x <> OPEN
  | AnyChar => True
  | Set_ negated ms =>
    match ms with
    | [] => False
    | m :: ms => member_ok true m /\ Forall (member_ok false) ms /\ (negated = true \/ chr (member_text m) 0 <> BANG /\ chr (member_text m) 0 <> CARET)
    end
  end.

Definition member_holds (c : Z) (m : member) : bool :=
  match m with Char x => x =? c | Range a b => (a <=? c) && (c <=? b) | Class_ k => class_holds k c end.
Definition element_holds (e : element) (c : Z) : bool :=
  match e with Literal x => c =? x | AnyChar => true | Set_ negated ms => xorb negated (existsb (member_holds c) ms) end.

(** The string that is made of one character per element, and of anything behind them
    when the pattern ends with a star. *)
Fixpoint matches (es : list element) (star : bool) (str : list Z) : bool :=
  match es, str with
  | [], _ => star || bool_decide (str = [])
  | e :: es, [] => false
  | e :: es, c :: str => element_holds e c && matches es star str
  end.

Section Correct.

Lemma class_correct k c : ctype_index c -> in_class (class_name k) c = class_holds k c.
Proof. intros H. ctype_agree c H. destruct k; assumption. Qed.

Lemma class_end_name k r : class_end (OPEN :: COLON :: class_name k ++ COLON :: CLOSE :: r) = Some (COLON :: CLOSE :: r).
Proof. by destruct k. Qed.

(** One member of a bracket expression. *)
Lemma bracket_member exclude c n first m tail found : ctype_index c -> member_ok first m -> chr tail 0 <> DASH ->
  bracket_items 0 exclude c (S n) first (member_text m ++ tail) found =
  if member_holds c m && exclude then Mismatch else bracket_items 0 exclude c n false tail (found || member_holds c m).
Proof.
  intros Hc Hm Ht. destruct m as [x | a b | k]; cbn [member_text app bracket_items].
  - destruct Hm as (N0 & No & F). assert ((x =? CLOSE) && negb first = false) as -> by (destruct F as [-> | [Nc _]]; [apply andb_false_r | by destruct (Z.eqb_spec x CLOSE)]).
    destruct (Z.eqb_spec x OPEN); [done |]. destruct (Z.eqb_spec (chr tail 0) DASH); [done |]. cbn. by rewrite andb_true_r.
  - destruct Hm as (Na & Nb & F). assert ((a =? CLOSE) && negb first = false) as -> by (destruct F as [-> | [Nc _]]; [apply andb_false_r | by destruct (Z.eqb_spec a CLOSE)]).
    change (chr (DASH :: b :: tail) 0) with DASH. change (chr (DASH :: b :: tail) 1) with b. rewrite Z.eqb_refl. change (DASH =? COLON) with false. rewrite andb_false_r.
    destruct (Z.eqb_spec b 0); [done |]. reflexivity.
  - change (chr _ 0) with COLON. rewrite Z.eqb_refl. change (OPEN =? CLOSE) with false. rewrite Z.eqb_refl. cbn [andb].
    rewrite <- app_assoc. cbn [app]. rewrite class_end_name. cbn [drop length]. rewrite !drop_0, length_app. cbn [length].
    assert (0 < length (class_name k))%nat by (destruct k; cbn; lia). destruct (Nat.eqb_spec (S (S (length tail))) (length (class_name k) + S (S (length tail)))); [lia |].
    destruct (Nat.ltb_spec (length (class_name k) + S (S (length tail))) (S (S (length tail)))); [lia |].
    rewrite Nat.add_sub, take_app_length, class_correct by exact Hc. reflexivity.
Qed.

Lemma member_head m tail : member_ok false m -> chr (member_text m ++ tail) 0 <> DASH.
Proof. destruct m as [x | a b | k]; [intros (_ & _ & [H | [_ N]]); [done | exact N] | intros (_ & _ & [H | [_ N]]); [done | exact N] | done]. Qed.

Lemma members_run exclude c rest : ctype_index c -> forall ms n first found, Forall (member_ok false) ms -> (length (members_text ms) < n)%nat -> first = false ->
  bracket_items 0 exclude c n first (members_text ms ++ CLOSE :: rest) found =
  if exclude && existsb (member_holds c) ms then Mismatch else if found || existsb (member_holds c) ms then Matched rest else Mismatch.
Proof.
  intros Hc. induction ms as [| m ms IH]; intros n first found Fm L ->.
  - destruct n; [lia |]. cbn. rewrite andb_false_r, orb_false_r. reflexivity.
  - destruct n as [| n]; [lia |]. unfold members_text in *. cbn [map concat] in *. rewrite <- app_assoc. apply list.Forall_cons in Fm as [Hm Fm].
    rewrite bracket_member; [| exact Hc | exact Hm | destruct ms as [| m' ms]; [done | cbn [map concat]; rewrite <- app_assoc; apply list.Forall_cons in Fm as [Hm' _]; by apply member_head]].
    rewrite length_app in L. assert (0 < length (member_text m))%nat by (destruct m; cbn; lia).
    rewrite IH by (try assumption; try done; lia). cbn [existsb]. destruct (member_holds c m), exclude, found; cbn; rewrite ?orb_true_r; reflexivity.
Qed.

Lemma bracket_correct negated ms c rest : ctype_index c -> element_ok (Set_ negated ms) ->
  bracket_match 0 ((if negated then [BANG] else []) ++ members_text ms ++ CLOSE :: rest) c = if element_holds (Set_ negated ms) c then Matched rest else Mismatch.
Proof.
  intros Hc Ok. destruct ms as [| m ms]; [done |]. destruct Ok as (Hm & Fm & Hn).
  assert (K : forall n found, (length (members_text (m :: ms)) < n)%nat -> bracket_items 0 negated c n true (members_text (m :: ms) ++ CLOSE :: rest) found =
    if negated && existsb (member_holds c) (m :: ms) then Mismatch else if found || existsb (member_holds c) (m :: ms) then Matched rest else Mismatch).
  { intros n found L. destruct n as [| n]; [lia |]. unfold members_text in *. cbn [map concat] in *. rewrite <- app_assoc.
    rewrite bracket_member; [| exact Hc | exact Hm | destruct ms as [| m' ms]; [done | cbn [map concat]; rewrite <- app_assoc; apply list.Forall_cons in Fm as [Hm' _]; by apply member_head]].
    rewrite length_app in L. assert (0 < length (member_text m))%nat by (destruct m; cbn; lia).
    rewrite (members_run negated c rest Hc ms) by (try assumption; try done; unfold members_text; lia). cbn [existsb]. destruct (member_holds c m), negated, found; cbn; rewrite ?orb_true_r; reflexivity. }
  unfold bracket_match, element_holds. destruct negated; cbn [app].
  - change (chr (BANG :: _) 0) with BANG. rewrite Z.eqb_refl. cbn [orb drop]. rewrite K by (rewrite length_cons, length_app; lia).
    by destruct (existsb _ _).
  - assert (H0 : chr (members_text (m :: ms) ++ CLOSE :: rest) 0 = chr (member_text m) 0) by (destruct m; reflexivity). rewrite H0. destruct Hn as [? | [N1 N2]]; [done |].
    destruct (Z.eqb_spec (chr (member_text m) 0) BANG); [done |]. destruct (Z.eqb_spec (chr (member_text m) 0) CARET); [done |]. cbn [orb].
    rewrite K by (rewrite length_app; lia). by destruct (existsb _ _).
Qed.

(** A star at the end takes the rest of the string. *)
Lemma star_run str : forall n, (length str < n)%nat -> 0 ∉ str -> fnmatch_loop 0 n [] str true [] = Some 0.
Proof.
  induction str as [| c str IH]; intros [| n] L N; cbn [length] in L; try lia; [reflexivity |]. apply not_elem_of_cons in N as [N0 N].
  rewrite <- (IH n ltac:(lia) N). change (fnmatch_loop 0 (S n) [] (c :: str) true []) with (if negb (c =? 0) then fnmatch_loop 0 n [] str true [] else fnmatch_loop 0 n [] str false []).
  destruct (Z.eqb_spec c 0); [by subst | reflexivity].
Qed.

(** One element. *)
Lemma element_run e tail c str n : ctype_index c -> element_ok e ->
  fnmatch_loop 0 (S n) (element_text e ++ tail) (c :: str) false [] = if element_holds e c then fnmatch_loop 0 n tail str false [] else Some FNM_NOMATCH.
Proof.
  intros Hc Ok. destruct e as [x | | negated ms].
  - destruct Ok as (N0 & Nq & Ns & No). cbn [fnmatch_loop element_text app element_holds]. change (chr (x :: tail) 0) with x. change (fold 0) with false. change (path 0) with false.
    change (leading_dir 0) with false. cbn [negb andb drop]. rewrite drop_0.
    destruct (Z.eqb_spec x 0); [done |]. destruct (Z.eqb_spec x QUERY); [done |]. destruct (Z.eqb_spec x STAR); [done |]. destruct (Z.eqb_spec x OPEN); [done |]. by destruct (c =? x).
  - cbn [fnmatch_loop element_text app element_holds]. change (chr (QUERY :: tail) 0) with QUERY. change (fold 0) with false. change (path 0) with false. cbn [negb andb drop]. by rewrite drop_0.
  - pose proof (bracket_correct negated ms c tail Hc Ok) as B. cbn [fnmatch_loop element_text]. rewrite <- app_comm_cons. change (chr (OPEN :: _) 0) with OPEN. change (fold 0) with false.
    cbn [negb andb drop]. rewrite drop_0, <- !app_assoc. cbn [app]. change (OPEN =? 0) with false. change (OPEN =? QUERY) with false. change (OPEN =? STAR) with false. rewrite Z.eqb_refl, B.
    by destruct (element_holds _ c).
Qed.

Lemma element_no_star e tail n : element_ok e -> fnmatch_loop 0 (S n) (element_text e ++ tail) [] false [] = Some FNM_NOMATCH.
Proof.
  intros Ok. cbn [fnmatch_loop]. assert (H : chr (element_text e ++ tail) 0 <> 0 /\ chr (element_text e ++ tail) 0 <> STAR).
  { destruct e as [x | | negated ms]; [by destruct Ok as (? & ? & ? & ?) | done | done]. }
  destruct H as [H0 H1]. destruct (Z.eqb_spec (chr (element_text e ++ tail) 0) 0); [done |]. by destruct (Z.eqb_spec (chr (element_text e ++ tail) 0) STAR).
Qed.

Lemma elements_run star str : forall es n, Forall element_ok es -> Forall ctype_index str -> 0 ∉ str -> (length (pattern_text es star) + length str < n)%nat ->
  fnmatch_loop 0 n (pattern_text es star) str false [] = Some (if matches es star str then 0 else FNM_NOMATCH).
Proof.
  induction str as [| c str IH]; intros es n Fe Fc N L; (destruct n as [| n]; [lia |]); (destruct es as [| e es];
    [| unfold pattern_text; cbn [map concat]; rewrite <- app_assoc; apply list.Forall_cons in Fe as [He Fe]]).
  - by destruct star.
  - rewrite element_no_star by exact He. reflexivity.
  - destruct star; [| by destruct str]. cbn in L. cbn [matches orb]. change (pattern_text [] true) with [STAR].
    change (fnmatch_loop 0 (S n) [STAR] (c :: str) false []) with (fnmatch_loop 0 n [] (c :: str) true []). apply star_run; [cbn; lia | exact N].
  - apply list.Forall_cons in Fc as [Hc Fc]. apply not_elem_of_cons in N as [_ N]. rewrite element_run by assumption. cbn [matches].
    unfold pattern_text in L. cbn [map concat length] in L. rewrite <- app_assoc, length_app in L. fold (pattern_text es star) in *.
    destruct (element_holds e c); [| reflexivity]. cbn [andb]. apply IH; try assumption. lia.
Qed.

(** C22: [fnmatch] without flags, on every pattern made of literal characters, "?" and bracket
    expressions (with single characters, ranges, the twelve character classes, negation,
    and "]" and "-" as first members), with or without a star at the end: the call returns
    0 exactly when the string has one character of each element in turn, followed by
    anything if there is the star and by nothing if there is not, and [FNM_NOMATCH]
    otherwise. *)
Theorem fnmatch_correct es star str : Forall element_ok es -> Forall ctype_index str -> 0 ∉ str ->
  fnmatch 0 (pattern_text es star) str = Some (if matches es star str then 0 else FNM_NOMATCH).
Proof. intros Fe Fc N. apply elements_run; try assumption. lia. Qed.

Lemma fnmatch_correct_witness :
  fnmatch 0 (chars "a?[!x-z[:digit:]]*") (chars "abc.c") = Some 0 /\
  fnmatch 0 (chars "a?[!x-z[:digit:]]*") (chars "ab7.c") = Some FNM_NOMATCH.
Proof.
  assert (E : Forall element_ok [Literal 97; AnyChar; Set_ true [Range 120 122; Class_ Digit]]).
  { repeat constructor; unfold member_ok, QUERY, STAR, OPEN; lia. }
  split; [apply (fnmatch_correct [Literal 97; AnyChar; Set_ true [Range 120 122; Class_ Digit]] true (chars "abc.c") E) |
    apply (fnmatch_correct [Literal 97; AnyChar; Set_ true [Range 120 122; Class_ Digit]] true (chars "ab7.c") E)];
    solve [repeat constructor; unfold ctype_index; cbn; lia | intros H; repeat (apply elem_of_cons in H as [H | H]; [done |]); by apply elem_of_nil in H].
Defined.

(** ** Stars in front of something else *)

(** The end of the string ends the search behind a star with a match. *)
Lemma fnmatch_star_too_much : fnmatch 0 (chars "*.c") (chars "makefile") = Some 0 /\ fnmatch 0 (chars "a*b") (chars "a") = Some 0.
Proof. by split. Qed.

(** The first character that fits ends the star, there is no way back. *)
Lemma fnmatch_star_too_little : fnmatch 0 (chars "*.c") (chars "a.b.c") = Some FNM_NOMATCH /\ fnmatch 0 (chars "*ab") (chars "aab") = Some FNM_NOMATCH.
Proof. by split. Qed.

(** With [FNM_CASEFOLD] the character of the string is replaced by the one of the pattern. *)
Lemma fnmatch_casefold : fnmatch FNM_CASEFOLD (chars "abc") (chars "xyz") = Some 0.
Proof. reflexivity. Qed.

(** A dash in front of the closing bracket makes a range that ends with the bracket. *)
Lemma fnmatch_last_dash : fnmatch 0 (chars "[a-]") (chars "a") = Some FNM_NOMATCH.
Proof. reflexivity. Qed.

(** There are no escapes: a backslash is an ordinary character. *)
Lemma fnmatch_no_escape : fnmatch 0 (chars "\*") (chars "*") = Some FNM_NOMATCH.
Proof. reflexivity. Qed.
End Correct.
