(* ===== verification/Libgen.v ===== *)
(** * Parts of path names

    [basename] and [dirname] of [src/src/posix/libgen.cpp].

    The path is the memory from its first character on, with the terminator behind it; a
    pointer into it is an offset.  Both functions may store a terminator, so they return
    the memory, and the pointer or the literal ".". *)

From Stdlib Require Import String.
From stdpp Require Import base list option.
From S2P Require Import Prelude Literal.

#[local] Open Scope Z_scope.

Definition SLASH : Z := 47.

(** [m[i]]. *)
Definition at_ptr (m : list Z) (i : nat) : Z := nth i m 0.

(** [strrchr(path, '/')] and the offset of what it finds. *)
Fixpoint last_slash (m : list Z) : option nat :=
  match m with
  | [] => None
  | c :: r => if c =? 0 then None else match last_slash r with Some i => Some (S i) | None => if c =? SLASH then Some 0%nat else None end
  end.

(** [for (; ptr > path && test(ptr[-1]);) --ptr;] *)
Fixpoint back_while (test : Z -> bool) (m : list Z) (ptr : nat) : nat :=
  match ptr with O => O | S q => if test (at_ptr m q) then back_while test m q else ptr end.

(** [while (ptr[1]) ++ptr;] in the [n] characters that are left. *)
Fixpoint to_last (n : nat) (m : list Z) (ptr : nat) : nat :=
  match n with O => ptr | S n => if at_ptr m (S ptr) =? 0 then ptr else to_last n m (S ptr) end.

Inductive place := Dot | Ptr (offset : nat).

Definition basename (m : option (list Z)) : place * list Z :=
  match m with
  | None => (Dot, [])
  | Some m =>
    if at_ptr m 0 =? 0 then (Dot, m)
    else
      match last_slash m with
      | None => (Ptr 0, m)
      | Some ptr =>
        if negb (at_ptr m (S ptr) =? 0) then (Ptr (S ptr), m)
        else
          let ptr := back_while (fun c => c =? SLASH) m ptr in
          if (0 <? ptr)%nat then
            let m := <[ptr := 0]> m in (Ptr (back_while (fun c => negb (c =? SLASH)) m (ptr - 1)), m)
          else (Ptr (to_last (length m) m ptr), m)
      end
  end.

Definition dirname (m : option (list Z)) : place * list Z :=
  match m with
  | None => (Dot, [])
  | Some m =>
    if at_ptr m 0 =? 0 then (Dot, m)
    else
      match last_slash m with
      | None => (Dot, m)
      | Some ptr => if (ptr =? 0)%nat && (at_ptr m (S ptr) =? 0) then (Ptr ptr, m) else (Ptr 0, <[ptr := 0]> m)
      end
  end.

(** The string at a result. *)
Definition string_of (r : place * list Z) : list Z := match r with (Dot, _) => chars "." | (Ptr i, m) => cstring (drop i m) end.

(** ** [basename] *)

Lemma at_ptr_app (a b : list Z) c : at_ptr (a ++ c :: b) (length a) = c.
Proof. unfold at_ptr. by rewrite app_nth2, Nat.sub_diag by lia. Qed.

Lemma no_slash s r : 0 ∉ s -> SLASH ∉ s -> last_slash (s ++ 0 :: r) = None.
Proof.
  induction s as [| c s IH]; [reflexivity |]. intros N%not_elem_of_cons M%not_elem_of_cons. cbn. destruct (Z.eqb_spec c 0); [done |].
  rewrite IH by (apply N || apply M). destruct (Z.eqb_spec c SLASH); [by subst; destruct M | reflexivity].
Qed.

Lemma last_slash_app a s r : 0 ∉ a -> 0 ∉ s -> SLASH ∉ s -> last_slash (a ++ SLASH :: s ++ 0 :: r) = Some (length a).
Proof.
  intros Na Ns Ms. induction a as [| c a IH]; cbn.
  - by rewrite no_slash.
  - apply not_elem_of_cons in Na as [N0 Na]. destruct (Z.eqb_spec c 0); [done |]. by rewrite IH.
Qed.

(** Going back over [b] to the end of [a]. *)
Lemma back_over test a b c : Forall (fun x => test x = true) b -> (a = [] \/ exists a' x, a = a' ++ [x] /\ test x = false) ->
  back_while test (a ++ b ++ c) (length a + length b) = length a.
Proof.
  revert c. induction b as [| x b IH] using rev_ind; intros c Fb Ha; cbn [app length].
  - rewrite Nat.add_0_r. destruct Ha as [-> | (a' & x & -> & E)]; [reflexivity |]. rewrite length_app, Nat.add_comm. cbn [length Nat.add back_while].
    rewrite <- app_assoc. cbn [app]. rewrite at_ptr_app, E. reflexivity.
  - rewrite length_app, Nat.add_assoc, (Nat.add_comm _ 1). cbn [Nat.add back_while]. apply Forall_app in Fb as [Fb Fx%Forall_inv].
    rewrite <- app_assoc. cbn [app]. rewrite (app_assoc a b), <- length_app, at_ptr_app, Fx. rewrite length_app, <- app_assoc. by apply IH.
Qed.

Lemma to_last_slashes k : forall n a, (k < n)%nat -> to_last n (a ++ SLASH :: replicate k SLASH ++ [0]) (length a) = (length a + k)%nat.
Proof.
  induction k as [| k IH]; intros [| n] a L; try lia; cbn [to_last replicate app].
  - rewrite (cons_middle SLASH a), app_assoc. replace (S (length a)) with (length (a ++ [SLASH])) by (rewrite length_app; cbn; lia). rewrite at_ptr_app. cbn. lia.
  - rewrite (cons_middle SLASH a), app_assoc. replace (S (length a)) with (length (a ++ [SLASH])) by (rewrite length_app; cbn; lia). rewrite at_ptr_app. cbn.
    rewrite IH by lia. rewrite length_app. cbn. lia.
Qed.

(** With slashes behind the name: it is cut off in front of them. *)
Lemma basename_slashes dir name k : 0 ∉ dir -> 0 ∉ name -> SLASH ∉ name -> name <> [] -> dir = [] \/ (exists d, dir = d ++ [SLASH]) ->
  at_ptr (dir ++ name ++ replicate (S k) SLASH ++ [0]) 0 <> 0 ->
  string_of (basename (Some (dir ++ name ++ replicate (S k) SLASH ++ [0]))) = name.
Proof.
  intros N0 N1 M Nn Hd H0. unfold basename. destruct (Z.eqb_spec (at_ptr (dir ++ name ++ replicate (S k) SLASH ++ [0]) 0) 0); [done |].
  destruct (exists_last Nn) as (n' & x & ->). apply not_elem_of_app in N1 as [N1 N2]. apply not_elem_of_app in M as [M1 M2].
  assert (x <> SLASH) by (intros ->; apply M2; left).
  rewrite replicate_S_end, <- (app_assoc _ [SLASH]). cbn [app].
  assert (last_slash (dir ++ (n' ++ [x]) ++ replicate k SLASH ++ [SLASH; 0]) = Some (length (dir ++ (n' ++ [x]) ++ replicate k SLASH))) as ->.
  { rewrite !app_assoc. rewrite <- (last_slash_app _ [] []); [reflexivity | | apply not_elem_of_nil..].
    rewrite !not_elem_of_app. repeat split; try assumption. intros [E _]%elem_of_replicate. done. }
  assert (at_ptr (dir ++ (n' ++ [x]) ++ replicate k SLASH ++ [SLASH; 0]) (S (length (dir ++ (n' ++ [x]) ++ replicate k SLASH))) = 0) as ->.
  { rewrite (cons_middle SLASH (replicate k SLASH)), !app_assoc, <- !app_assoc.
    pose proof (at_ptr_app ((dir ++ (n' ++ [x]) ++ replicate k SLASH) ++ [SLASH]) [] 0) as E. rewrite length_app, Nat.add_comm in E. cbn [length Nat.add] in E.
    rewrite <- !app_assoc in *. exact E. }
  rewrite Z.eqb_refl. cbn [negb].
  assert (back_while (fun c => c =? SLASH) (dir ++ (n' ++ [x]) ++ replicate k SLASH ++ [SLASH; 0]) (length (dir ++ (n' ++ [x]) ++ replicate k SLASH)) = length (dir ++ n' ++ [x])) as ->.
  { pose proof (back_over (fun c => c =? SLASH) (dir ++ n' ++ [x]) (replicate k SLASH) [SLASH; 0]) as E.
    rewrite <- E; [rewrite <- !app_assoc, !length_app; f_equal; lia | apply Forall_replicate; reflexivity | right; exists (dir ++ n'), x; rewrite <- app_assoc; split; [reflexivity | by apply Z.eqb_neq]]. }
  destruct (Nat.ltb_spec 0 (length (dir ++ n' ++ [x]))) as [_ | L]; [| rewrite !length_app in L; cbn in L; lia].
  assert (<[length (dir ++ n' ++ [x]) := 0]> (dir ++ (n' ++ [x]) ++ replicate k SLASH ++ [SLASH; 0]) = dir ++ n' ++ x :: 0 :: drop 1 (replicate k SLASH ++ [SLASH; 0])) as ->.
  { replace (dir ++ (n' ++ [x]) ++ replicate k SLASH ++ [SLASH; 0]) with ((dir ++ n' ++ [x]) ++ replicate k SLASH ++ [SLASH; 0]) by (by rewrite <- !app_assoc).
    rewrite insert_app_r_alt, Nat.sub_diag by reflexivity. rewrite <- !app_assoc. cbn [app]. by destruct k. }
  replace (length (dir ++ n' ++ [x]) - 1)%nat with (length dir + length n')%nat by (rewrite !length_app; cbn; lia).
  rewrite back_over; [| apply list.Forall_forall; intros y Hy; apply negb_true_iff, Z.eqb_neq; intros ->; by apply M1 |].
  2: { destruct Hd as [-> | (d & ->)]; [by left | right; exists d, SLASH; split; reflexivity]. }
  cbn [string_of]. rewrite drop_app_length, (cons_middle x), app_assoc. apply cstring_app. by apply not_elem_of_app.
Qed.

(** [basename] of a path that names something: the last component, with whatever slashes
    are behind it. *)
Theorem basename_component dir name k : 0 ∉ dir ++ name -> SLASH ∉ name -> name <> [] -> dir = [] \/ (exists d, dir = d ++ [SLASH]) ->
  string_of (basename (Some (dir ++ name ++ replicate k SLASH ++ [0]))) = name.
Proof.
  intros [N0 N1]%not_elem_of_app M Nn Hd.
  assert (at_ptr (dir ++ name ++ replicate k SLASH ++ [0]) 0 <> 0) as H0.
  { destruct dir as [| d dir]; [destruct name as [| x name]; [done |] |]; cbn; intros ->; [apply N1 | apply N0]; left. }
  destruct k as [| k]; [| by apply basename_slashes]. unfold basename.
  destruct (Z.eqb_spec (at_ptr (dir ++ name ++ replicate 0 SLASH ++ [0]) 0) 0); [done |].
  cbn [replicate app]. destruct Hd as [-> | (d & ->)].
  - cbn [app]. rewrite no_slash by assumption. cbn [string_of]. rewrite drop_0. by apply cstring_app.
  - rewrite <- app_assoc. cbn [app]. apply not_elem_of_app in N0 as [N0 _]. rewrite last_slash_app by assumption.
      destruct name as [| x name]; [done |]. cbn [app]. rewrite (cons_middle SLASH d), app_assoc.
      replace (S (length d)) with (length (d ++ [SLASH])) by (rewrite length_app; cbn; lia). rewrite at_ptr_app.
      destruct (Z.eqb_spec x 0) as [-> |]; [by destruct N1; left |]. cbn [negb string_of]. rewrite drop_app_length. by apply (cstring_app (x :: name)).
Qed.

(** [basename] of nothing but slashes. *)
Theorem basename_root k : string_of (basename (Some (SLASH :: replicate k SLASH ++ [0]))) = [SLASH].
Proof.
  unfold basename. change (at_ptr (SLASH :: replicate k SLASH ++ [0]) 0) with SLASH. change (SLASH =? 0) with false. cbv iota.
  assert (E : SLASH :: replicate k SLASH ++ [0] = replicate k SLASH ++ [SLASH; 0]) by (rewrite app_comm_cons; change (SLASH :: replicate k SLASH) with (replicate (S k) SLASH); by rewrite replicate_S_end, <- app_assoc).
  assert (Nz : 0 ∉ replicate k SLASH) by (intros [? _]%elem_of_replicate; done).
  assert (last_slash (SLASH :: replicate k SLASH ++ [0]) = Some k) as ->.
  { rewrite E. rewrite <- (length_replicate k SLASH) at 2. by apply (last_slash_app _ [] []); [| apply not_elem_of_nil..]. }
  assert (at_ptr (SLASH :: replicate k SLASH ++ [0]) (S k) = 0) as ->.
  { change (at_ptr (SLASH :: replicate k SLASH ++ [0]) (S k)) with (at_ptr (replicate k SLASH ++ [0]) k). rewrite <- (length_replicate k SLASH) at 2. apply at_ptr_app. }
  rewrite Z.eqb_refl. cbn [negb].
  assert (back_while (fun c => c =? SLASH) (SLASH :: replicate k SLASH ++ [0]) k = 0%nat) as ->.
  { rewrite E. pose proof (back_over (fun c => c =? SLASH) [] (replicate k SLASH) [SLASH; 0]) as B. cbn [app length Nat.add] in B. rewrite length_replicate in B.
    apply B; [by apply Forall_replicate | by left]. }
  pose proof (to_last_slashes k (length (SLASH :: replicate k SLASH ++ [0])) [] ltac:(cbn; rewrite length_app, length_replicate; lia)) as L. cbn [app] in L.
  change (length (@nil Z)) with 0%nat in L. cbn [Nat.ltb Nat.leb string_of]. rewrite L. cbn [Nat.add]. rewrite E, drop_app_length' by (by rewrite length_replicate). reflexivity.
Qed.

(** [dirname] of a path with a name behind a slash that is not its first character. *)
Theorem dirname_component dir name : 0 ∉ dir ++ name -> SLASH ∉ name -> dir <> [] -> string_of (dirname (Some (dir ++ SLASH :: name ++ [0]))) = dir.
Proof.
  intros [N0 N1]%not_elem_of_app M Nd. unfold dirname. destruct dir as [| d dir]; [done |]. change (at_ptr ((d :: dir) ++ _) 0) with d.
  destruct (Z.eqb_spec d 0) as [-> |]; [by destruct N0; left |]. rewrite last_slash_app by assumption. cbn [length Nat.eqb andb string_of]. rewrite drop_0.
  rewrite insert_app_r_alt, Nat.sub_diag by reflexivity. by apply (cstring_app (d :: dir)).
Qed.

(** What POSIX asks for is "/", "." and "a". *)
Lemma dirname_root : string_of (dirname (Some (chars "/usr" ++ [0]))) = [].
Proof. reflexivity. Qed.
Lemma dirname_trailing_slash : string_of (dirname (Some (chars "usr/" ++ [0]))) = chars "usr".
Proof. reflexivity. Qed.
Lemma dirname_double_slash : string_of (dirname (Some (chars "a//b" ++ [0]))) = chars "a/".
Proof. reflexivity. Qed.
