(* ===== verification/Accounts.v ===== *)
(** * The user and group databases

    [src/src/posix/pwd.cpp], [src/src/posix/grp.cpp] and [initgroups] and [setgroups] of
    [src/src/bsd/grp.cpp].

    A file is [None] when it cannot be opened, and otherwise the strings that [fgets]
    stores, in order, and whether [ferror] holds at the end; the buffers of the callers
    are longer than every line.  [string_view] and [to_integer] are those of [Inet];
    [hz::string] and [hz::vector] are lists.  Memory that the caller provides is a list of
    bytes of its size, a pointer into it an offset, and a store outside of it the result
    [None].  What a function returns comes with [closed], whether it has closed the file it
    opened. *)

From Stdlib Require Import String.
From stdpp Require Import base list option.
From S2P Require Import Prelude StrToInt Printf PrintfFacts Literal Inet.

#[local] Open Scope Z_scope.

Definition ENOENT : Z := 2.
Definition EIO : Z := 5.
Definition ERANGE : Z := 34.

Definition COLON : Z := 58.
Definition COMMA : Z := 44.
Definition NEWLINE : Z := 10.

Record stream := { lines : list (list Z); failed : bool }.
Definition file : Type := option stream.

(** [memcpy(area + i, s, size)]. *)
Definition store (i : nat) (s area : list Z) : option (list Z) :=
  if (i + length s <=? length area)%nat then Some (take i area ++ s ++ drop (i + length s) area) else None.

(** [memcpy(area + offset, s, size); offset += size + 1; area[offset - 1] = 0;] *)
Definition store_string (offset : nat) (s area : list Z) : option (nat * list Z) :=
  area ← store offset s area; area ← store (offset + length s) [0] area; Some ((offset + length s + 1)%nat, area).

(** The string at an offset. *)
Definition string_at (area : list Z) (i : nat) : list Z := cstring (drop i area).

(** What the functions that return a pointer give: the structure with its strings, or
    [errno] and a null pointer. *)
Inductive answer (R : Type) := Pointer (r : R) (area : list Z) (closed : bool) | Null (errno : Z) (closed : bool).
Arguments Pointer {R} r area closed.
Arguments Null {R} errno closed.

Section Accounts.
Context `{StringView} `{ParseInt}.

(** The lambda [parse_segment]: the segment, and the new offset when there is a separator. *)
Definition parse_segment (line : list Z) (offset : nat) : list Z * option nat :=
  match sv_find line COLON offset with
  | Some k => (sv_substr_abs line offset (Some k), Some (k + 1)%nat)
  | None => (sv_substr_abs line offset None, None)
  end.

(** A segment that a separator must follow. *)
Definition segment (line : list Z) (offset : nat) : option (list Z * nat) :=
  let '(s, next) := parse_segment line offset in offset ← next; Some (s, offset).

(** The last segment, which no separator may follow. *)
Definition last_segment (line : list Z) (offset : nat) : option (list Z) :=
  let '(s, next) := parse_segment line offset in match next with Some _ => None | None => Some s end.

(** [hz::to_integer<uid_t>], which must use the whole segment. *)
Definition id_value (s : list Z) : option Z := let '(num, count) := to_int 32 10 s in if negb (count =? zlen s) then None else Some num.

(** ** Users *)

Record user_view := { v_name : list Z; v_password : list Z; v_uid : Z; v_gid : Z; v_info : list Z; v_dir : list Z; v_shell : list Z }.

Definition parse_entry (line : list Z) : option user_view :=
  '(name, o) ← segment line 0; '(password, o) ← segment line o; '(user_id, o) ← segment line o; '(group_id, o) ← segment line o;
  '(info, o) ← segment line o; '(home, o) ← segment line o; shell ← last_segment line o;
  uid ← id_value user_id; gid ← id_value group_id;
  Some {| v_name := name; v_password := password; v_uid := uid; v_gid := gid; v_info := info; v_dir := home; v_shell := shell |}.

Record passwd := { pw_name : nat; pw_passwd : nat; pw_uid : Z; pw_gid : Z; pw_gecos : nat; pw_dir : nat; pw_shell : nat }.

Definition user_size (view : user_view) : Z :=
  zlen (v_name view) + 1 + (zlen (v_password view) + 1) + (zlen (v_info view) + 1) + (zlen (v_dir view) + 1) + (zlen (v_shell view) + 1).

(** [fill_user_in_area]: the result, and the structure when it is 0. *)
Definition fill_user_in_area (view : user_view) (area : list Z) : option (Z * option passwd * list Z) :=
  if zlen area <? user_size view then Some (ERANGE, None, area)
  else
    '(pwd_passwd_offset, area) ← store_string 0 (v_name view) area;
    '(pwd_gecos_offset, area) ← store_string pwd_passwd_offset (v_password view) area;
    '(pwd_dir_offset, area) ← store_string pwd_gecos_offset (v_info view) area;
    '(pwd_shell_offset, area) ← store_string pwd_dir_offset (v_dir view) area;
    '(_, area) ← store_string pwd_shell_offset (v_shell view) area;
    Some (0, Some {| pw_name := 0; pw_passwd := pwd_passwd_offset; pw_uid := v_uid view; pw_gid := v_gid view;
                     pw_gecos := pwd_gecos_offset; pw_dir := pwd_dir_offset; pw_shell := pwd_shell_offset |}, area).

(** [fill_user]: the structure and [PWD_STR_AREA]. *)
Definition fill_user (view : user_view) : passwd * list Z :=
  let a := v_name view ++ [0] in
  let pwd_passwd_offset := length a in let a := a ++ v_password view ++ [0] in
  let pwd_gecos_offset := length a in let a := a ++ v_info view ++ [0] in
  let pwd_dir_offset := length a in let a := a ++ v_dir view ++ [0] in
  let pwd_shell_offset := length a in let a := a ++ v_shell view ++ [0] in
  ({| pw_name := 0; pw_passwd := pwd_passwd_offset; pw_uid := v_uid view; pw_gid := v_gid view;
      pw_gecos := pwd_gecos_offset; pw_dir := pwd_dir_offset; pw_shell := pwd_shell_offset |}, a).

(** The loop of the callers over the lines, for the first entry that [wanted] accepts. *)
Fixpoint find_entry {V : Type} (parse : list Z -> option V) (wanted : V -> bool) (l : list (list Z)) : option V :=
  match l with
  | [] => None
  | line :: l => match parse line with None => find_entry parse wanted l | Some view => if wanted view then Some view else find_entry parse wanted l end
  end.

(** [getpwnam], [getpwuid], [getgrnam] and [getgrgid] differ in the parser, the test and
    the function that fills the static structure. *)
Definition get_entry {V R : Type} (parse : list Z -> option V) (fill : V -> R * list Z) (wanted : V -> bool) (f : file) : answer R :=
  match f with
  | None => Null EIO true
  | Some f =>
    match find_entry parse wanted (lines f) with
    | Some view => let '(r, area) := fill view in Pointer r area false
    | None => Null (if failed f then EIO else ENOENT) true
    end
  end.

(** Their forms with [_r]: what they return, the structure that [*result] points to or
    null, the caller's buffer, and whether the file is closed. *)
Definition get_entry_r {V R : Type} (parse : list Z -> option V) (fill : V -> list Z -> option (Z * option R * list Z)) (wanted : V -> bool) (f : file)
    (buf : list Z) : option (Z * option R * list Z * bool) :=
  match f with
  | None => Some (EIO, None, buf, true)
  | Some f =>
    match find_entry parse wanted (lines f) with
    | Some view =>
      '(err, r, buf) ← fill view buf;
      if negb (err =? 0) then Some (err, None, buf, true) else Some (0, r, buf, false)
    | None => Some (if failed f then EIO else 0, None, buf, true)
    end
  end.

Definition getpwnam (name : list Z) : file -> answer passwd := get_entry parse_entry fill_user (fun view => bool_decide (v_name view = name)).
Definition getpwuid (uid : Z) : file -> answer passwd := get_entry parse_entry fill_user (fun view => v_uid view =? uid).
Definition getpwnam_r (name : list Z) := get_entry_r parse_entry fill_user_in_area (fun view => bool_decide (v_name view = name)).
Definition getpwuid_r (uid : Z) := get_entry_r parse_entry fill_user_in_area (fun view => v_uid view =? uid).

(** ** Enumeration *)

(** [GLOBAL_FILE]: the lines of the open file and those that are still to be read. *)
Definition global : Type := option (list (list Z) * list (list Z)).

(** [open_global_file] with what [fopen] would open. *)
Definition open_global_file (f : file) (g : global) : global :=
  match g with Some _ => g | None => option_map (fun f => (lines f, lines f)) f end.

Definition setent (f : file) (g : global) : global := option_map (fun '(all, _) => (all, all)) (open_global_file f g).

(** The first entry of the lines and what is behind it. *)
Fixpoint next_entry {V : Type} (parse : list Z -> option V) (l : list (list Z)) : option V * list (list Z) :=
  match l with
  | [] => (None, [])
  | line :: l => match parse line with None => next_entry parse l | Some view => (Some view, l) end
  end.

Definition getent {V R : Type} (parse : list Z -> option V) (fill : V -> R * list Z) (f : file) (g : global) : answer R * global :=
  match open_global_file f g with
  | None => (Null EIO true, None)
  | Some (all, l) =>
    match next_entry parse l with
    | (Some view, l) => let '(r, area) := fill view in (Pointer r area false, Some (all, l))
    | (None, l) => (Null ENOENT false, Some (all, l))
    end
  end.

Definition setpwent : file -> global -> global := setent.
Definition getpwent : file -> global -> answer passwd * global := getent parse_entry fill_user.
Definition endpwent (g : global) : global := None.

(** ** Groups *)

Record group_view := { g_name : list Z; g_password : list Z; g_gid : Z; g_members : list Z }.

(** [ends_with] a line feed: dropped. *)
Definition strip_newline (s : list Z) : list Z := if nth (length s - 1) s 0 =? NEWLINE then sv_substr_abs s 0 (Some (length s - 1)%nat) else s.

Definition parse_group (line : list Z) : option group_view :=
  '(name, o) ← segment line 0; '(password, o) ← segment line o; '(group_id, o) ← segment line o; member_list ← last_segment line o;
  let member_list := strip_newline member_list in
  gid ← id_value group_id;
  Some {| g_name := name; g_password := password; g_gid := gid; g_members := member_list |}.

(** The names that the loops over [member_list] visit; there are at most as many as
    characters, and one. *)
Fixpoint member_names (n : nat) (member_list : list Z) (offset : nat) : list (list Z) :=
  match n with
  | O => []
  | S n =>
    let end_ := sv_find member_list COMMA offset in
    sv_substr_abs member_list offset end_ :: match end_ with Some e => member_names n member_list (e + 1) | None => [] end
  end.
Definition members (view : group_view) : list (list Z) := member_names (S (length (g_members view))) (g_members view) 0.

(** [gr_mem] is the offset of an array of pointers, in the caller's memory or in
    [GRP_PTR_AREA]. *)
Record group := { gr_name : nat; gr_passwd : nat; gr_gid : Z; gr_mem : nat }.

Definition ptr_size : nat := 8.
Definition ptr_bytes (p : Z) : list Z := map (fun i => Z.shiftr p (8 * Z.of_nat i) mod 256) (seq 0 ptr_size).

Section Area.
Context (base : Z).

(** The second loop: each name is stored, and the address of its copy in the array. *)
Fixpoint store_members (names : list (list Z)) (k offset : nat) (area : list Z) : option (nat * list Z) :=
  match names with
  | [] => Some (k, area)
  | name :: names =>
    area ← store offset name area; area ← store (ptr_size * k) (ptr_bytes (base + Z.of_nat offset)) area;
    area ← store (offset + length name) [0] area; store_members names (S k) (offset + length name + 1) area
  end.

Definition group_size (view : group_view) : Z :=
  zlen (g_name view) + 1 + (zlen (g_password view) + 1) + foldr (fun n acc => zlen n + 1 + Z.of_nat ptr_size + acc) 0 (members view) + Z.of_nat ptr_size.

(** [fill_group_in_area] in memory at the address [base].  The name goes to the front of
    the memory, not to its offset. *)
Definition fill_group_in_area (view : group_view) (area : list Z) : option (Z * option group * list Z) :=
  if zlen area <? group_size view then Some (ERANGE, None, area)
  else
    let grp_name_offset := ((length (members view) + 1) * ptr_size)%nat in
    area ← store 0 (g_name view) area; area ← store (grp_name_offset + length (g_name view)) [0] area;
    let grp_passwd_offset := (grp_name_offset + length (g_name view) + 1)%nat in
    '(offset, area) ← store_string grp_passwd_offset (g_password view) area;
    '(count, area) ← store_members (members view) 0 offset area;
    area ← store (ptr_size * count) (ptr_bytes 0) area;
    Some (0, Some {| gr_name := grp_name_offset; gr_passwd := grp_passwd_offset; gr_gid := g_gid view; gr_mem := 0 |}, area).
End Area.

(** [fill_group]: the structure with [GRP_PTR_AREA], pointers into [GRP_STR_AREA] and a null
    pointer ([None]), and [GRP_STR_AREA]. *)
Definition fill_group (view : group_view) : group * list (option nat) * list Z :=
  let a := g_name view ++ [0] in
  let grp_passwd_offset := length a in let a := a ++ g_password view ++ [0] in
  let '(a, offsets) := fold_left (fun '(a, offsets) name => (a ++ name ++ [0], offsets ++ [length a])) (members view) (a, []) in
  ({| gr_name := 0; gr_passwd := grp_passwd_offset; gr_gid := g_gid view; gr_mem := 0 |}, map Some offsets ++ [None], a).

Definition getgrnam (name : list Z) : file -> answer (group * list (option nat)) := get_entry parse_group fill_group (fun view => bool_decide (g_name view = name)).
Definition getgrgid (gid : Z) : file -> answer (group * list (option nat)) := get_entry parse_group fill_group (fun view => g_gid view =? gid).
Definition getgrnam_r (base : Z) (name : list Z) := get_entry_r parse_group (fill_group_in_area base) (fun view => bool_decide (g_name view = name)).
Definition getgrgid_r (base gid : Z) := get_entry_r parse_group (fill_group_in_area base) (fun view => g_gid view =? gid).

Definition setgrent : file -> global -> global := setent.
Definition getgrent : file -> global -> answer (group * list (option nat)) * global := getent parse_group fill_group.
Definition endgrent (g : global) : global := None.

(** ** The groups of a user *)

(** One line: the array, the count, [ret], and [contained]. *)
Definition grouplist_line (user : list Z) (group max_groups : Z) (line : list Z) (st : list Z * Z * Z * bool) : option (list Z * Z * Z * bool) :=
  match parse_group line with
  | None => Some st
  | Some view =>
    if existsb (fun name => bool_decide (name = user)) (members view) then
      let '(groups, total, ret, contained) := st in
      '(groups, ret) ← (if total <? max_groups then groups ← store (Z.to_nat total) [g_gid view] groups; Some (groups, ret) else Some (groups, -1));
      Some (groups, total + 1, ret, contained || (g_gid view =? group))
    else Some st
  end.

Fixpoint grouplist_lines (user : list Z) (group max_groups : Z) (l : list (list Z)) (st : list Z * Z * Z * bool) : option (list Z * Z * Z * bool) :=
  match l with [] => Some st | line :: l => st ← grouplist_line user group max_groups line st; grouplist_lines user group max_groups l st end.

(** The array [groups] and the variable [num_groups] in memory: what is returned, and the two. *)
Definition getgrouplist (f : file) (user : list Z) (group : Z) (groups : list Z) (num_groups : Z) : option (Z * list Z * Z) :=
  match f with
  | None => Some (-1, groups, num_groups)
  | Some f =>
    '(groups, total, ret, contained) ← grouplist_lines user group num_groups (lines f) (groups, 0, 0, false);
    if failed f then Some (-1, groups, num_groups)
    else
      '(groups, total, ret) ← (if negb contained then
          if total <? num_groups then groups ← store (Z.to_nat total) [group] groups; Some (groups, total + 1, ret) else Some (groups, total + 1, -1)
        else Some (groups, total, ret));
      Some (ret, groups, total)
  end.

(** [setgroups] over [sys_setgroups], which gets the first [size] groups and returns an
    error number. *)
Definition setgroups (sys_setgroups : list Z -> Z) (size : Z) (list_ : list Z) : Z * option Z :=
  let err := sys_setgroups (take (Z.to_nat size) list_) in if negb (err =? 0) then (-1, Some err) else (0, None).

(** [initgroups]: [n] bounds the calls of [getgrouplist]; [alloc_ok count] says whether
    [calloc] succeeds.  The result is what it returns and the list given to [setgroups]. *)
Fixpoint initgroups_loop (sys_setgroups : list Z -> Z) (alloc_ok : Z -> bool) (f : file) (user : list Z) (group : Z) (n : nat)
    (groups : list Z) (prev_count num_groups : Z) : option (Z * option (list Z)) :=
  match n with
  | O => None
  | S n =>
    '(ret, groups, num_groups) ← getgrouplist f user group groups num_groups;
    if ret <? 0 then
      if num_groups <=? prev_count then Some (-1, None)
      else
        let num_groups := if num_groups <? prev_count + Z.quot prev_count 2 then prev_count + Z.quot prev_count 2 else num_groups in
        if negb (alloc_ok num_groups) then Some (-1, None)
        else initgroups_loop sys_setgroups alloc_ok f user group n (replicate (Z.to_nat num_groups) 0) num_groups num_groups
    else Some ((setgroups sys_setgroups num_groups groups).1, Some (take (Z.to_nat num_groups) groups))
  end.
Definition initgroups (sys_setgroups : list Z -> Z) (alloc_ok : Z -> bool) (f : file) (user : list Z) (group : Z) (n : nat) : option (Z * option (list Z)) :=
  initgroups_loop sys_setgroups alloc_ok f user group n [] 0 0.
End Accounts.

(** ** Lines *)

Section Lines.
Context `{StringView} `{ParseInt}.

Lemma find_colon line off s rest c : drop off line = s ++ c :: rest -> c ∉ s -> sv_find line c off = Some (off + length s)%nat.
Proof.
  intros D N. rewrite sv_find_law, D. rewrite list_find_app_r by (apply list_find_None, list.Forall_forall; intros x Hx ->; by apply N).
  cbn [list_find]. by rewrite decide_True by reflexivity.
Qed.

Lemma find_none line off s c : drop off line = s -> c ∉ s -> sv_find line c off = None.
Proof.
  intros D N. rewrite sv_find_law, D. assert (list_find (fun d => d = c) s = None) as -> by (apply list_find_None, list.Forall_forall; intros x Hx ->; by apply N). reflexivity.
Qed.

Lemma substr_front line off s rest : drop off line = s ++ rest -> sv_substr_abs line off (Some (off + length s)%nat) = s.
Proof. intros D. rewrite sv_substr_law, D. replace (off + length s - off)%nat with (length s) by lia. apply take_app_length. Qed.

Lemma drop_behind line off s (c : Z) rest : drop off line = s ++ c :: rest -> drop (off + length s + 1) line = rest.
Proof. intros D. rewrite <- Nat.add_assoc, <- drop_drop, D, (cons_middle c), app_assoc, drop_app_length' by (rewrite length_app; cbn; lia). reflexivity. Qed.

Lemma segment_ok line off s rest : drop off line = s ++ COLON :: rest -> COLON ∉ s ->
  segment line off = Some (s, (off + length s + 1)%nat) /\ drop (off + length s + 1) line = rest.
Proof.
  intros D N. split; [| by apply (drop_behind _ _ s COLON)]. unfold segment, parse_segment. rewrite (find_colon line off s rest COLON D N).
  cbn [mbind option_bind]. by rewrite (substr_front line off s (COLON :: rest) D).
Qed.

Lemma last_segment_ok line off s : drop off line = s -> COLON ∉ s -> last_segment line off = Some s.
Proof. intros D N. unfold last_segment, parse_segment. rewrite (find_none line off s COLON D N), sv_substr_law. by rewrite D. Qed.

Lemma id_ok v ds : digits_of 10 v ds -> 0 <= v < 2 ^ 32 -> id_value ds = Some v.
Proof. intros D Hv. unfold id_value. rewrite (to_int_law 32 10 v ds) by (try exact D; unfold umax; lia). by rewrite Z.eqb_refl. Qed.
End Lines.

(** A user, and its line in the file. *)
Record user := { u_name : list Z; u_password : list Z; u_uid : Z; u_uid_text : list Z; u_gid : Z; u_gid_text : list Z; u_info : list Z; u_dir : list Z; u_shell : list Z }.

Definition plain (s : list Z) : Prop := COLON ∉ s /\ 0 ∉ s.
Definition user_ok (u : user) : Prop :=
  plain (u_name u) /\ plain (u_password u) /\ plain (u_info u) /\ plain (u_dir u) /\ plain (u_shell u) /\
  COLON ∉ u_uid_text u /\ COLON ∉ u_gid_text u /\
  digits_of 10 (u_uid u) (u_uid_text u) /\ 0 <= u_uid u < 2 ^ 32 /\ digits_of 10 (u_gid u) (u_gid_text u) /\ 0 <= u_gid u < 2 ^ 32.

Definition user_line (u : user) : list Z :=
  u_name u ++ COLON :: u_password u ++ COLON :: u_uid_text u ++ COLON :: u_gid_text u ++ COLON :: u_info u ++ COLON :: u_dir u ++ COLON :: u_shell u ++ [NEWLINE].

(** What the code makes of it: the shell keeps the line feed. *)
Definition view_of (u : user) : user_view :=
  {| v_name := u_name u; v_password := u_password u; v_uid := u_uid u; v_gid := u_gid u; v_info := u_info u; v_dir := u_dir u; v_shell := u_shell u ++ [NEWLINE] |}.

Section Users.
Context `{StringView} `{ParseInt}.

Lemma parse_user u : user_ok u -> parse_entry (user_line u) = Some (view_of u).
Proof.
  intros ((N1 & _) & (N2 & _) & (N5 & _) & (N6 & _) & (N7 & _) & N3 & N4 & D3 & R3 & D4 & R4). unfold parse_entry.
  destruct (segment_ok (user_line u) 0 (u_name u) _ eq_refl N1) as [-> E1]. cbn [mbind option_bind].
  destruct (segment_ok _ _ _ _ E1 N2) as [-> E2]. cbn [mbind option_bind]. destruct (segment_ok _ _ _ _ E2 N3) as [-> E3]. cbn [mbind option_bind].
  destruct (segment_ok _ _ _ _ E3 N4) as [-> E4]. cbn [mbind option_bind]. destruct (segment_ok _ _ _ _ E4 N5) as [-> E5]. cbn [mbind option_bind].
  destruct (segment_ok _ _ _ _ E5 N6) as [-> E6]. cbn [mbind option_bind].
  rewrite (last_segment_ok _ _ _ E6) by (apply not_elem_of_app; split; [exact N7 | by apply not_elem_of_cons; split; [| apply not_elem_of_nil]]). cbn [mbind option_bind].
  rewrite (id_ok _ _ D3 R3), (id_ok _ _ D4 R4). reflexivity.
Qed.

(** Storing behind what is there. *)
Lemma store_ok i p s t : i = length p -> (length s <= length t)%nat -> store i s (p ++ t) = Some (p ++ s ++ drop (length s) t).
Proof.
  intros -> L. unfold store. rewrite length_app. destruct (Nat.leb_spec (length p + length s) (length p + length t)); [| lia].
  rewrite take_app_length, drop_app, drop_ge by lia. by replace (length p + length s - length p)%nat with (length s) by lia.
Qed.

Lemma store_string_ok p s t : (length s + 1 <= length t)%nat ->
  store_string (length p) s (p ++ t) = Some (length (p ++ s ++ [0]), (p ++ s ++ [0]) ++ drop (length s + 1) t).
Proof.
  intros L. unfold store_string. rewrite store_ok by lia. cbn [mbind option_bind]. rewrite app_assoc.
  rewrite store_ok by (rewrite ?length_app, ?length_drop; cbn [length]; lia). cbn [mbind option_bind length]. rewrite drop_drop, <- !app_assoc, !length_app. cbn [length]. do 2 f_equal. lia.
Qed.

(** The memory of the caller gets what [fill_user] puts into its own. *)
Lemma fill_user_area view area : user_size view <= zlen area ->
  fill_user_in_area view area = Some (0, Some (fill_user view).1, (fill_user view).2 ++ drop (length (fill_user view).2) area) /\
  zlen (fill_user view).2 = user_size view.
Proof.
  intros L. assert (zlen (fill_user view).2 = user_size view) as Lp by (unfold fill_user, user_size; cbn; rewrite !zlen_app; change (zlen [0]) with 1; lia).
  split; [| exact Lp]. unfold fill_user_in_area. destruct (Z.ltb_spec (zlen area) (user_size view)); [lia |].
  unfold user_size, zlen in L.
  pose proof (store_string_ok [] (v_name view) area ltac:(lia)) as E1. cbn [app length] in E1. rewrite E1. cbn [mbind option_bind].
  rewrite store_string_ok by (rewrite length_drop; lia). cbn [mbind option_bind]. rewrite store_string_ok by (rewrite !length_drop; lia). cbn [mbind option_bind].
  rewrite store_string_ok by (rewrite !length_drop; lia). cbn [mbind option_bind]. rewrite store_string_ok by (rewrite !length_drop; lia). cbn [mbind option_bind].
  unfold fill_user. cbn [fst snd]. do 2 f_equal. f_equal. rewrite !drop_drop. f_equal. rewrite !length_app. cbn [length]. lia.
Qed.

Lemma string_at_app p s r area : 0 ∉ s -> area = p ++ s ++ 0 :: r -> string_at area (length p) = s.
Proof. intros N ->. unfold string_at. rewrite drop_app_length. by apply cstring_app. Qed.

(** The structure and the memory describe a user. *)
Definition describes (u : user) (pw : passwd) (area : list Z) : Prop :=
  string_at area (pw_name pw) = u_name u /\ string_at area (pw_passwd pw) = u_password u /\ pw_uid pw = u_uid u /\ pw_gid pw = u_gid u /\
  string_at area (pw_gecos pw) = u_info u /\ string_at area (pw_dir pw) = u_dir u /\ string_at area (pw_shell pw) = u_shell u ++ [NEWLINE].

Lemma fill_user_describes u rest : user_ok u -> describes u (fill_user (view_of u)).1 ((fill_user (view_of u)).2 ++ rest).
Proof.
  intros ((_ & N1) & (_ & N2) & (_ & N5) & (_ & N6) & (_ & N7) & _). unfold describes, fill_user. cbn [fst snd pw_name pw_passwd pw_uid pw_gid pw_gecos pw_dir pw_shell view_of v_name v_password v_uid v_gid v_info v_dir v_shell].
  assert (N7' : 0 ∉ u_shell u ++ [NEWLINE]) by (apply not_elem_of_app; split; [exact N7 | by apply not_elem_of_cons; split; [| apply not_elem_of_nil]]).
  repeat split; [eapply (string_at_app [] (u_name u)) | eapply string_at_app | eapply string_at_app | eapply string_at_app | eapply string_at_app];
    first [assumption | rewrite <- !app_assoc; reflexivity].
Qed.

Lemma find_user wanted us : Forall user_ok us -> find_entry parse_entry wanted (map user_line us) = view_of <$> find (fun u => wanted (view_of u)) us.
Proof.
  induction 1 as [| u us Hu _ IH]; [reflexivity |]. cbn [map find_entry find]. rewrite (parse_user u Hu). destruct (wanted (view_of u)); [reflexivity | exact IH].
Qed.

(** C23: [getpwnam_r] on a file with one line for each of any list of users, in the format of
    passwd(5): it returns the first user with that name.  If the caller's buffer has room
    for the strings and their terminators the result is 0, every pointer of the structure
    is at a string in the buffer that is the user's field (the shell with the line feed at
    its end), the numbers are the user's, and the buffer behind the strings is untouched;
    otherwise it is [ERANGE] with a null pointer and the buffer as it was.  Without such a
    user it returns a null pointer and 0, or [EIO] after a read error. *)
Theorem getpwnam_r_correct us err name buf : Forall user_ok us ->
  match find (fun u => bool_decide (u_name u = name)) us with
  | None => getpwnam_r name (Some {| lines := map user_line us; failed := err |}) buf = Some (if err then EIO else 0, None, buf, true)
  | Some u =>
    if zlen buf <? user_size (view_of u) then getpwnam_r name (Some {| lines := map user_line us; failed := err |}) buf = Some (ERANGE, None, buf, true)
    else exists pw strings, getpwnam_r name (Some {| lines := map user_line us; failed := err |}) buf = Some (0, Some pw, strings ++ drop (length strings) buf, false) /\
      zlen strings = user_size (view_of u) /\ describes u pw (strings ++ drop (length strings) buf)
  end.
Proof.
  intros Us. unfold getpwnam_r, get_entry_r. cbn [lines failed]. rewrite (find_user _ us Us). cbn [view_of v_name].
  destruct (find _ us) as [u |] eqn:F; [| reflexivity]. cbn [fmap option_fmap option_map].
  assert (Hu : user_ok u) by (apply find_some in F as [F _]; rewrite list.Forall_forall in Us; apply Us; by apply list_elem_of_In).
  destruct (Z.ltb_spec (zlen buf) (user_size (view_of u))) as [L | L].
  - unfold fill_user_in_area. destruct (Z.ltb_spec (zlen buf) (user_size (view_of u))); [reflexivity | lia].
  - destruct (fill_user_area (view_of u) buf L) as [E Z]. exists (fill_user (view_of u)).1, (fill_user (view_of u)).2.
    rewrite E. split; [reflexivity |]. split; [exact Z |]. by apply fill_user_describes.
Qed.
End Users.

(** ** Enumerating the users *)

Section Enumeration.
Context `{StringView} `{ParseInt}.

(** [n] calls of [getpwent]. *)
Fixpoint pwents (n : nat) (f : file) (g : global) : list (answer passwd) * global :=
  match n with O => ([], g) | S n => let '(a, g) := getpwent f g in let '(l, g) := pwents n f g in (a :: l, g) end.

Definition fill_answer (u : user) : answer passwd := Pointer (fill_user (view_of u)).1 (fill_user (view_of u)).2 false.

(** After [setpwent] the calls return the users in the order of the file, then null with
    [ENOENT]. *)
Theorem getpwent_enumerates us err g : Forall user_ok us -> g = None \/ (exists l, g = Some (map user_line us, l)) ->
  let f := Some {| lines := map user_line us; failed := err |} in
  pwents (S (length us)) f (setpwent f g) = (map fill_answer us ++ [Null ENOENT false], Some (map user_line us, [])).
Proof.
  intros Us Hg f. assert (setpwent f g = Some (map user_line us, map user_line us)) as -> by (destruct Hg as [-> | (l & ->)]; reflexivity).
  clearbody f. clear Hg. generalize (map user_line us) at 1 3 as all. induction Us as [| u us Hu _ IH]; intros all; [reflexivity |].
  cbn [map length]. change (pwents (S (S (length us))) f (Some (all, user_line u :: map user_line us))) with
    (let '(a, g) := getpwent f (Some (all, user_line u :: map user_line us)) in let '(l, g) := pwents (S (length us)) f g in (a :: l, g)).
  unfold getpwent at 1, getent. cbn [open_global_file next_entry]. rewrite (parse_user u Hu). unfold fill_answer at 1.
  destruct (fill_user (view_of u)) as [pw area]. rewrite IH. reflexivity.
Qed.
End Enumeration.

(** ** Lines of groups *)

Record grp := { gp_name : list Z; gp_password : list Z; gp_gid : Z; gp_gid_text : list Z; gp_members : list (list Z) }.

Fixpoint join (ms : list (list Z)) : list Z := match ms with [] => [] | [m] => m | m :: ms => m ++ COMMA :: join ms end.

Definition group_line (g : grp) : list Z := gp_name g ++ COLON :: gp_password g ++ COLON :: gp_gid_text g ++ COLON :: join (gp_members g) ++ [NEWLINE].

Definition grp_ok (g : grp) : Prop :=
  COLON ∉ gp_name g /\ COLON ∉ gp_password g /\ COLON ∉ gp_gid_text g /\ digits_of 10 (gp_gid g) (gp_gid_text g) /\ 0 <= gp_gid g < 2 ^ 32 /\
  Forall (fun m => COLON ∉ m /\ COMMA ∉ m) (gp_members g).

Definition group_view_of (g : grp) : group_view := {| g_name := gp_name g; g_password := gp_password g; g_gid := gp_gid g; g_members := join (gp_members g) |}.

Section Groups.
Context `{StringView} `{ParseInt}.

Lemma join_elem c ms : c <> COMMA -> Forall (fun m => c ∉ m) ms -> c ∉ join ms.
Proof.
  intros N F. induction F as [| m ms Hm F IH]; [apply not_elem_of_nil |]. cbn [join]. destruct ms as [| m' ms]; [exact Hm |].
  apply not_elem_of_app. split; [exact Hm |]. apply not_elem_of_cons. by split.
Qed.

Lemma strip_newline_ok s : strip_newline (s ++ [NEWLINE]) = s.
Proof.
  unfold strip_newline. rewrite length_app. cbn [length]. rewrite Nat.add_sub, app_nth2, Nat.sub_diag by lia. cbn [nth]. rewrite Z.eqb_refl.
  pose proof (substr_front (s ++ [NEWLINE]) 0 s [NEWLINE] eq_refl) as E. exact E.
Qed.

Lemma parse_group_ok g : grp_ok g -> parse_group (group_line g) = Some (group_view_of g).
Proof.
  intros (N1 & N2 & N3 & D3 & R3 & Fm). unfold parse_group.
  destruct (segment_ok (group_line g) 0 (gp_name g) _ eq_refl N1) as [-> E1]. cbn [mbind option_bind].
  destruct (segment_ok _ _ _ _ E1 N2) as [-> E2]. cbn [mbind option_bind]. destruct (segment_ok _ _ _ _ E2 N3) as [-> E3]. cbn [mbind option_bind].
  rewrite (last_segment_ok _ _ _ E3).
  - cbn [mbind option_bind]. rewrite strip_newline_ok, (id_ok _ _ D3 R3). reflexivity.
  - apply not_elem_of_app. split; [apply join_elem; [done |]; eapply list.Forall_impl; [exact Fm | by intros ? []] | by apply not_elem_of_cons; split; [| apply not_elem_of_nil]].
Qed.

(** The loop over the members finds the names. *)
Lemma member_names_ok L ms : forall m off n, drop off L = join (m :: ms) -> Forall (fun m => COMMA ∉ m) (m :: ms) -> (length ms < n)%nat -> member_names n L off = m :: ms.
Proof.
  induction ms as [| m' ms IH]; intros m off [| n] D F Ln; try (cbn in Ln; lia); apply list.Forall_cons in F as [Fm F]; cbn [member_names].
  - cbn [join] in D. rewrite (find_none L off m COMMA D Fm), sv_substr_law, D. reflexivity.
  - change (join (m :: m' :: ms)) with (m ++ COMMA :: join (m' :: ms)) in D. rewrite (find_colon L off m _ COMMA D Fm), (substr_front L off m _ D).
    f_equal. apply IH; [exact (drop_behind _ _ _ _ _ D) | exact F | cbn in Ln; lia].
Qed.

Lemma join_length m ms : (length ms <= length (join (m :: ms)))%nat.
Proof. revert m. induction ms as [| m' ms IH]; intros m; [cbn; lia |]. change (join (m :: m' :: ms)) with (m ++ COMMA :: join (m' :: ms)). rewrite length_app. specialize (IH m'). cbn [length] in *. lia. Qed.

Lemma members_ok g : grp_ok g -> members (group_view_of g) = match gp_members g with [] => [[]] | ms => ms end.
Proof.
  intros (_ & _ & _ & _ & _ & Fm). unfold members. cbn [g_members group_view_of]. destruct (gp_members g) as [| m ms].
  - cbn [join length member_names]. rewrite (find_none [] 0 [] COMMA eq_refl), sv_substr_law by apply not_elem_of_nil. reflexivity.
  - apply member_names_ok; [reflexivity | eapply list.Forall_impl; [exact Fm | by intros ? []] |]. pose proof (join_length m ms). lia.
Qed.

(** ** The groups of a user *)

(** The groups that list the user, in the order of the file, and the given one unless it
    is among them. *)
Definition listed (gs : list grp) (user : list Z) : list Z := map gp_gid (List.filter (fun g => existsb (fun m => bool_decide (m = user)) (gp_members g)) gs).
Definition groups_of (gs : list grp) (user : list Z) (group : Z) : list Z := listed gs user ++ (if bool_decide (group ∈ listed gs user) then [] else [group]).

(** The array after the groups [l], which may be too many for it, and the result. *)
Definition filled (groups l : list Z) : list Z := take (length groups) l ++ drop (length l) groups.
Definition overflow (groups l : list Z) : Z := if zlen groups <? zlen l then -1 else 0.

Lemma push_group groups l x :
  (if zlen l <? zlen groups then a ← store (Z.to_nat (zlen l)) [x] (filled groups l); Some (a, overflow groups l) else Some (filled groups l, -1)) =
  Some (filled groups (l ++ [x]), overflow groups (l ++ [x])).
Proof.
  unfold filled, overflow. rewrite zlen_app. change (zlen [x]) with 1. unfold zlen. rewrite Nat2Z.id, !length_app. cbn [length].
  destruct (Z.ltb_spec (Z.of_nat (length l)) (Z.of_nat (length groups))).
  - rewrite !take_ge by (rewrite ?length_app; cbn; lia). rewrite store_ok by (rewrite ?length_drop; cbn; lia). cbn [mbind option_bind length].
    destruct (Z.ltb_spec (Z.of_nat (length groups)) (Z.of_nat (length l))); [lia |]. destruct (Z.ltb_spec (Z.of_nat (length groups)) (Z.of_nat (length l) + 1)); [lia |].
    by rewrite drop_drop, <- app_assoc.
  - destruct (Z.ltb_spec (Z.of_nat (length groups)) (Z.of_nat (length l) + 1)); [| lia]. rewrite !drop_ge by lia. by rewrite take_app_le by lia.
Qed.

Lemma lines_run user group groups gs : user <> [] -> Forall grp_ok gs -> forall l,
  grouplist_lines user group (zlen groups) (map group_line gs) (filled groups l, zlen l, overflow groups l, bool_decide (group ∈ l)) =
  Some (filled groups (l ++ listed gs user), zlen (l ++ listed gs user), overflow groups (l ++ listed gs user), bool_decide (group ∈ l ++ listed gs user)).
Proof.
  intros Nu. unfold listed. induction 1 as [| g gs Hg _ IH]; intros l; cbn [map grouplist_lines List.filter]; [by rewrite app_nil_r |].
  unfold grouplist_line. rewrite (parse_group_ok g Hg), (members_ok g Hg). cbn [g_gid group_view_of].
  assert (existsb (fun name => bool_decide (name = user)) (match gp_members g with [] => [[]] | ms => ms end) = existsb (fun m => bool_decide (m = user)) (gp_members g)) as ->.
  { destruct (gp_members g); [| reflexivity]. cbn. by rewrite bool_decide_false by done. }
  destruct (existsb _ (gp_members g)); cbn [map mbind option_bind]; [| apply IH].
  rewrite push_group. cbn [mbind option_bind]. specialize (IH (l ++ [gp_gid g])). rewrite zlen_app in IH at 1. change (zlen [gp_gid g]) with 1 in IH.
  rewrite <- app_assoc in IH. cbn [app] in IH. rewrite <- IH. f_equal. f_equal.
  destruct (Z.eqb_spec (gp_gid g) group) as [<- |].
  - rewrite orb_true_r. symmetry. apply bool_decide_true. apply elem_of_app. right. by left.
  - rewrite orb_false_r. apply bool_decide_ext. rewrite elem_of_app, list_elem_of_singleton. naive_solver.
Qed.

(** [getgrouplist] with room for [zlen groups] groups. *)
Lemma getgrouplist_ok gs user group groups : user <> [] -> Forall grp_ok gs ->
  getgrouplist (Some {| lines := map group_line gs; failed := false |}) user group groups (zlen groups) =
  Some (overflow groups (groups_of gs user group), filled groups (groups_of gs user group), zlen (groups_of gs user group)).
Proof.
  intros Nu F. unfold getgrouplist. cbn [lines failed]. pose proof (lines_run user group groups gs Nu F []) as E.
  change (filled groups []) with (take (length groups) [] ++ groups) in E. rewrite take_nil in E. cbn [app] in E. change (zlen (@nil Z)) with 0 in E.
  assert (overflow groups [] = 0) as O by (unfold overflow; pose proof (zlen_nonneg groups); change (zlen (@nil Z)) with 0; destruct (Z.ltb_spec (zlen groups) 0); [lia | reflexivity]).
  rewrite O, (bool_decide_false (group ∈ [])) in E by apply not_elem_of_nil. rewrite E. cbn [mbind option_bind]. unfold groups_of. destruct (bool_decide (group ∈ listed gs user)); cbn [negb].
  - by rewrite app_nil_r.
  - pose proof (push_group groups (listed gs user) group) as P. rewrite zlen_app. change (zlen [group]) with 1. revert P.
    destruct (zlen (listed gs user) <? zlen groups); [destruct (store _ _ _); [| done] |]; cbn [mbind option_bind]; intros [= <- <-]; reflexivity.
Qed.

(** C24: [initgroups] gives the system the groups of the user: on a file with one line for each
    of any list of groups, in the format of group(5), and with memory for them, the second
    call of [getgrouplist] has room for all, and [setgroups] gets exactly the numbers of the
    groups that list the user, in the order of the file, followed by [group] if it is not
    among them.  [initgroups] returns 0, or -1 when the system call fails. *)
Theorem initgroups_correct sys_setgroups alloc_ok gs user group : user <> [] -> Forall grp_ok gs -> alloc_ok (zlen (groups_of gs user group)) = true ->
  initgroups sys_setgroups alloc_ok (Some {| lines := map group_line gs; failed := false |}) user group 2 =
  Some (if sys_setgroups (groups_of gs user group) =? 0 then 0 else -1, Some (groups_of gs user group)).
Proof.
  intros Nu F A. unfold initgroups. cbn [initgroups_loop]. pose proof (getgrouplist_ok gs user group [] Nu F) as E0. change (zlen (@nil Z)) with 0 in E0. rewrite E0. cbn [mbind option_bind].
  set (l := groups_of gs user group) in *. assert (Hl : 0 < zlen l).
  { unfold l, groups_of. destruct (bool_decide_reflect (group ∈ listed gs user)) as [I |]; [| rewrite zlen_app; pose proof (zlen_nonneg (listed gs user)); change (zlen [group]) with 1; lia].
    rewrite app_nil_r. destruct (listed gs user); [by apply elem_of_nil in I |]. rewrite zlen_cons. pose proof (zlen_nonneg l0). lia. }
  unfold overflow at 1. change (zlen (@nil Z)) with 0. destruct (Z.ltb_spec 0 (zlen l)); [| lia]. cbn [Z.ltb Z.compare].
  destruct (Z.leb_spec (zlen l) 0); [lia |]. change (0 + Z.quot 0 2) with 0. destruct (Z.ltb_spec (zlen l) 0); [lia |]. rewrite A. cbn [negb].
  pose proof (getgrouplist_ok gs user group (replicate (Z.to_nat (zlen l)) 0) Nu F) as E1. fold l in E1.
  assert (zlen (replicate (Z.to_nat (zlen l)) 0) = zlen l) as Lr by (unfold zlen; rewrite length_replicate; lia). rewrite Lr in E1. rewrite E1. cbn [mbind option_bind].
  unfold overflow. rewrite Lr. destruct (Z.ltb_spec (zlen l) (zlen l)); [lia |]. cbn [Z.ltb Z.compare].
  assert (filled (replicate (Z.to_nat (zlen l)) 0) l = l) as -> by (unfold filled; unfold zlen in *; rewrite length_replicate, take_ge, drop_ge, app_nil_r by (rewrite ?length_replicate; lia); reflexivity).
  unfold setgroups. assert (take (Z.to_nat (zlen l)) l = l) as -> by (apply take_ge; unfold zlen; lia). by destruct (sys_setgroups l =? 0).
Qed.
End Groups.

(** ** On a concrete support library *)

#[local] Existing Instance lists.
#[local] Existing Instance numbers.

Lemma absent c s : forallb (fun d => negb (d =? c)) s = true -> c ∉ s.
Proof. intros B I. apply list_elem_of_In in I. rewrite forallb_forall in B. specialize (B c I). by rewrite Z.eqb_refl in B. Qed.

Definition root_user : user :=
  {| u_name := chars "root"; u_password := chars "x"; u_uid := 0; u_uid_text := chars "0"; u_gid := 0; u_gid_text := chars "0"; u_info := chars "System"; u_dir := chars "/"; u_shell := chars "/bin/sh" |}.

Lemma digits_small v ds : 0 <= v < 100 -> int_digits 64 false 10 v = Some ds -> digits_of 10 v ds.
Proof. intros Hv E. destruct (int_digits_ok false 10 64 ltac:(lia) v ltac:(lia) ltac:(lia)) as (ds' & E' & D). congruence. Qed.

Lemma root_ok : user_ok root_user.
Proof.
  assert (D : digits_of 10 0 (chars "0")) by (apply digits_small; [lia | reflexivity]).
  unfold user_ok, plain. do 5 (split; [split; by apply absent |]). split; [by apply absent |]. split; [by apply absent |]. cbn [u_uid u_gid u_uid_text u_gid_text root_user].
  split; [exact D |]. split; [lia |]. split; [exact D | lia].
Qed.

Lemma getpwnam_r_correct_witness :
  exists pw strings, getpwnam_r (chars "root") (Some {| lines := [user_line root_user]; failed := false |}) (replicate 64 7) = Some (0, Some pw, strings ++ drop (length strings) (replicate 64 7), false) /\
    zlen strings = 25 /\ describes root_user pw (strings ++ drop (length strings) (replicate 64 7)).
Proof. exact (getpwnam_r_correct [root_user] false (chars "root") (replicate 64 7) (Forall_cons_2 _ _ _ root_ok (Forall_nil_2 _))). Defined.

Definition wheel : grp := {| gp_name := chars "wheel"; gp_password := chars "x"; gp_gid := 10; gp_gid_text := chars "10"; gp_members := [chars "root"; chars "ann"] |}.
Definition games : grp := {| gp_name := chars "games"; gp_password := chars "x"; gp_gid := 20; gp_gid_text := chars "20"; gp_members := [] |}.

Lemma initgroups_correct_witness : initgroups (fun _ => 0) (fun _ => true) (Some {| lines := map group_line [games; wheel]; failed := false |}) (chars "ann") 100 2 = Some (0, Some [10; 100]).
Proof.
  refine (initgroups_correct (fun _ => 0) (fun _ => true) [games; wheel] (chars "ann") 100 _ _ _); [done | | reflexivity].
  assert (O : forall g, forallb (fun d => negb (d =? COLON)) (gp_name g) = true -> forallb (fun d => negb (d =? COLON)) (gp_password g) = true -> forallb (fun d => negb (d =? COLON)) (gp_gid_text g) = true ->
    int_digits 64 false 10 (gp_gid g) = Some (gp_gid_text g) -> 0 <= gp_gid g < 100 ->
    forallb (fun m => forallb (fun d => negb (d =? COLON)) m && forallb (fun d => negb (d =? COMMA)) m) (gp_members g) = true -> grp_ok g).
  { intros g N1 N2 N3 D R M. repeat (split; [by apply absent |]). split; [by apply digits_small |]. split; [lia |]. apply list.Forall_forall. intros m I. apply list_elem_of_In in I.
    rewrite forallb_forall in M. specialize (M m I). apply andb_true_iff in M as [M1 M2]. split; by apply absent. }
  constructor; [apply O; try reflexivity; cbn; lia |]. constructor; [apply O; try reflexivity; cbn; lia | constructor].
Defined.

(** ** Where the code differs *)

(** The shell of a user keeps the line feed of its line; the members of a group do not. *)
Lemma shell_has_newline : v_shell (view_of root_user) = chars "/bin/sh" ++ [NEWLINE] /\ parse_entry (user_line root_user) = Some (view_of root_user).
Proof. split; [reflexivity | apply parse_user, root_ok]. Qed.

(** [getgrnam_r] copies the name to the front of the buffer, where the pointers to the members
    go, and not to where [gr_name] points. *)
Lemma getgrnam_r_name : match getgrnam_r 0x1000 (chars "games") (Some {| lines := [group_line games]; failed := false |}) (replicate 64 7) with
  | Some (0, Some g, buf, _) => string_at buf (gr_name g) = [7; 7; 7; 7; 7] | _ => False end.
Proof. vm_compute. reflexivity. Qed.

(** The file stays open when an entry is found. *)
Lemma getpwnam_leaves_open : match getpwnam (chars "root") (Some {| lines := [user_line root_user]; failed := false |}) with Pointer _ _ closed => closed = false | Null _ _ => False end.
Proof. vm_compute. reflexivity. Qed.

(** A group without members has one with an empty name. *)
Lemma empty_group_has_member : match getgrnam (chars "games") (Some {| lines := [group_line games]; failed := false |}) with
  | Pointer (g, ptrs) area _ => length ptrs = 2%nat | Null _ _ => False end.
Proof. vm_compute. reflexivity. Qed.
