(* ===== verification/Dirent.v ===== *)
(** * Directory streams

    [src/src/posix/dirent.cpp] where pointers have 64 bits, so that [dirent] and [dirent64]
    have the same layout and [scandir64] is [scandir].

    A directory stream has the 2048 bytes of its buffer and the 280 bytes of its entry.  The
    kernel's side of the open directory is a state with the operations [sys_read_dir], which
    gives an error number or bytes, and the rewinding [sys_lseek].  The result [None] stands
    for an access outside of a buffer and for a failed [__ensure]. *)

From Stdlib Require Import String Sorting.Sorted Sorting.Permutation.
From stdpp Require Import base list option.
From S2P Require Import Prelude Literal SortSearch.

#[local] Open Scope Z_scope.

Definition BUF_SIZE : Z := 2048.
Definition DIRENT_SIZE : nat := 280.
(** [offsetof(dirent64, d_reclen)] and [offsetof(dirent64, d_name)]. *)
Definition D_RECLEN : nat := 16.
Definition D_NAME : nat := 19.

Section Dirent.
Context {K : Type} (sys_read_dir : K -> Z -> K * (Z + list Z)) (sys_lseek_start : K -> K).

Record DIR := { handle : K; buf : list Z; ptr : Z; size : Z; entry : list Z }.

Definition new_dir (k : K) : DIR := {| handle := k; buf := replicate (Z.to_nat BUF_SIZE) 0; ptr := 0; size := 0; entry := replicate DIRENT_SIZE 0 |}.
Definition opendir (sys_open_dir : Z + K) : Z + DIR := match sys_open_dir with inl err => inl err | inr k => inr (new_dir k) end.
Definition fdopendir (k : K) : DIR := new_dir k.
Definition dirfd (d : DIR) : K := handle d.

(** [closedir] with what [sys_close] returns. *)
Definition closedir (sys_close : Z) (d : DIR) : Z * option Z := if negb (sys_close =? 0) then (-1, Some sys_close) else (0, None).

Definition rewinddir (d : DIR) : DIR := {| handle := sys_lseek_start (handle d); buf := buf d; ptr := 0; size := 0; entry := entry d |}.

(** The first half of [readdir], [readdir64] and [readdir_r]: an error, the end of the
    directory, or an entry at [ptr]. *)
Inductive refilled := Failed (err : Z) | AtEnd | Ready.

Definition refill (d : DIR) : option (refilled * DIR) :=
  if size d <? ptr d then None
  else if ptr d =? size d then
    match sys_read_dir (handle d) BUF_SIZE with
    | (k, inl err) => Some (Failed err, {| handle := k; buf := buf d; ptr := ptr d; size := size d; entry := entry d |})
    | (k, inr bytes) =>
      if BUF_SIZE <? zlen bytes then None
      else
        Some (if zlen bytes =? 0 then AtEnd else Ready, {| handle := k; buf := bytes ++ drop (length bytes) (buf d); ptr := 0; size := zlen bytes; entry := entry d |})
    end
  else Some (Ready, d).

(** [memcpy(dest, entry, offsetof(dirent64, d_name) + strlen(entry->d_name) + 1)] for the entry
    at the front of [bytes]. *)
Definition copy_entry (bytes dest : list Z) : option (list Z) :=
  let name := cstring (drop D_NAME bytes) in
  let n := (D_NAME + length name + 1)%nat in
  if bool_decide (drop D_NAME bytes !! length name = Some 0) && (n <=? length dest)%nat then Some (take n bytes ++ drop n dest) else None.

Definition reclen_at (bytes : list Z) : option Z := lo ← bytes !! D_RECLEN; hi ← bytes !! S D_RECLEN; Some (lo + 256 * hi).

(** The second half: the copy goes to [dest], and [ptr] moves on. *)
Definition take_entry (d : DIR) (dest : list Z) : option (list Z * Z) :=
  let bytes := drop (Z.to_nat (ptr d)) (buf d) in
  dest ← copy_entry bytes dest; reclen ← reclen_at bytes; Some (dest, ptr d + reclen).

(** What [readdir] returns: [&dir->entry], or null, with [errno] if there was an error. *)
Inductive read := Entry | Null (errno : option Z).

Definition readdir (d : DIR) : option (read * DIR) :=
  '(r, d) ← refill d;
  match r with
  | Failed err => Some (Null (Some err), d)
  | AtEnd => Some (Null None, d)
  | Ready => '(e, p) ← take_entry d (entry d); Some (Entry, {| handle := handle d; buf := buf d; ptr := p; size := size d; entry := e |})
  end.
Definition readdir64 : DIR -> option (read * DIR) := readdir.

(** [readdir_r]: the result, whether [*result] is the caller's entry, if it is stored at all,
    and the caller's entry. *)
Definition readdir_r (d : DIR) (dest : list Z) : option (Z * option bool * list Z * DIR) :=
  '(r, d) ← refill d;
  match r with
  | Failed err => Some (err, None, dest, d)
  | AtEnd => Some (0, Some false, dest, d)
  | Ready => '(e, p) ← take_entry d dest; Some (0, Some true, e, {| handle := handle d; buf := buf d; ptr := p; size := size d; entry := entry d |})
  end.

(** ** [scandir] *)

Section Scandir.
Context (filter : option (list Z -> bool)) (realloc_ok : nat -> bool) (malloc : nat -> option (list Z)).

Definition ENOMEM : Z := 12.

(** The array of the pointers to the copies, in order, with what they point to; [max] is its
    capacity, [errno] the variable, 0 before the loop.  [n] bounds the calls of [readdir]. *)
Fixpoint scan_loop (n : nat) (d : DIR) (res_array : list (list Z * list Z)) (max : nat) : option (list (list Z * list Z) * Z) :=
  match n with
  | O => None
  | S n =>
    '(r, d) ← readdir d;
    match r with
    | Null errno => Some (res_array, default 0 errno)
    | Entry =>
      if negb (match filter with Some f => f (entry d) | None => true end) then scan_loop n d res_array max
      else
        let grow := (length res_array =? max)%nat in
        let max' := if grow then if (max <? 8)%nat then 8%nat else (max * 2)%nat else max in
        if grow && negb (realloc_ok max') then Some (res_array, ENOMEM)
        else
          match malloc (length res_array) with
          | None => Some (res_array, ENOMEM)
          | Some address =>
            reclen ← reclen_at (entry d);
            if (Z.of_nat DIRENT_SIZE <? reclen) then None
            else scan_loop n d (res_array ++ [(address, take (Z.to_nat reclen) (entry d))]) max'
          end
    end
  end.

(** The bytes at an address. *)
Definition at_address (heap : list (list Z * list Z)) (a : list Z) : list Z := default [] (snd <$> find (fun p => bool_decide (p.1 = a)) heap).

(** The result: -1 with [errno], or the number of entries with the array of addresses and the
    memory they point into. *)
Definition scandir (compar : option (list Z -> list Z -> Z)) (sys_open_dir : Z + K) (sys_close : Z) (n : nat) : option (Z * option Z * option (list (list Z) * list (list Z * list Z))) :=
  match opendir sys_open_dir with
  | inl err => Some (-1, Some err, None)
  | inr d =>
    '(res_array, errno) ← scan_loop n d [] 0;
    let errno := default errno (closedir sys_close d).2 in
    if negb (errno =? 0) then Some (-1, Some errno, None)
    else
      let addresses := map fst res_array in
      let sorted := match compar with Some c => qsort 8 (fun a b => c (at_address res_array a) (at_address res_array b)) addresses | None => addresses end in
      Some (zlen addresses, None, Some (sorted, res_array))
  end.
End Scandir.

(** [strcoll], which is [strcmp], on the names. *)
Fixpoint name_cmp (a b : list Z) : Z :=
  match a, b with
  | [], [] => 0
  | x :: _, [] => s8 x
  | [], y :: _ => - s8 y
  | x :: a, y :: b => if s8 x - s8 y =? 0 then name_cmp a b else s8 x - s8 y
  end.
Definition alphasort (a b : list Z) : Z := name_cmp (cstring (drop D_NAME a)) (cstring (drop D_NAME b)).
End Dirent.

(** ** Directories *)

(** An entry as the kernel writes it: its number, offset and type, its name, and bytes that
    fill its record. *)
Record dent := { e_ino : list Z; e_off : list Z; e_type : Z; e_name : list Z; e_pad : list Z }.

Definition record_length (e : dent) : Z := Z.of_nat D_NAME + zlen (e_name e) + 1 + zlen (e_pad e).
(** The fields up to the end of the name. *)
Definition fields (e : dent) : list Z := e_ino e ++ e_off e ++ [record_length e mod 256; record_length e / 256; e_type e] ++ e_name e ++ [0].
Definition encode (e : dent) : list Z := fields e ++ e_pad e.

Definition dent_ok (e : dent) : Prop :=
  length (e_ino e) = 8%nat /\ length (e_off e) = 8%nat /\ 0 ∉ e_name e /\ (length (e_name e) <= 255)%nat /\ record_length e <= Z.of_nat DIRENT_SIZE.

(** The bytes [b] start with the fields of the entry. *)
Definition shows (e : dent) (b : list Z) : Prop := exists t, b = fields e ++ t.

Lemma fields_name e : dent_ok e -> exists h, fields e = h ++ e_name e ++ [0] /\ length h = D_NAME.
Proof.
  intros (L1 & L2 & _). exists (e_ino e ++ e_off e ++ [record_length e mod 256; record_length e / 256; e_type e]). unfold fields.
  split; [by rewrite <- !app_assoc | rewrite !length_app, L1, L2; reflexivity].
Qed.

Lemma fields_length e : dent_ok e -> length (fields e) = (D_NAME + length (e_name e) + 1)%nat.
Proof. intros Ok. destruct (fields_name e Ok) as (h & -> & L). rewrite !length_app, L. cbn. lia. Qed.

Lemma encode_length e : dent_ok e -> zlen (encode e) = record_length e.
Proof. intros Ok. unfold encode. rewrite zlen_app. unfold zlen at 1. rewrite fields_length by exact Ok. unfold record_length, zlen. lia. Qed.

Lemma reclen_ok e rest : dent_ok e -> reclen_at (fields e ++ rest) = Some (record_length e).
Proof.
  intros (L1 & L2 & _). unfold reclen_at, fields. rewrite <- !app_assoc. rewrite !(lookup_app_r (e_ino e)) by (rewrite L1; unfold D_RECLEN; lia).
  rewrite L1. rewrite !(lookup_app_r (e_off e)) by (rewrite L2; unfold D_RECLEN; lia). rewrite L2. change (D_RECLEN - 8 - 8)%nat with 0%nat. change (S D_RECLEN - 8 - 8)%nat with 1%nat.
  cbn. f_equal. pose proof (Z.div_mod (record_length e) 256). lia.
Qed.

Lemma copy_entry_ok e rest dest : dent_ok e -> length dest = DIRENT_SIZE ->
  copy_entry (encode e ++ rest) dest = Some (fields e ++ drop (length (fields e)) dest).
Proof.
  intros Ok Ld. destruct (fields_name e Ok) as (h & F & L). unfold copy_entry.
  assert (E : encode e ++ rest = h ++ e_name e ++ 0 :: e_pad e ++ rest) by (unfold encode; rewrite F, <- !app_assoc; reflexivity).
  assert (D : drop D_NAME (encode e ++ rest) = e_name e ++ 0 :: e_pad e ++ rest) by (rewrite E, <- L; apply drop_app_length).
  destruct Ok as (L1 & L2 & N & Ln & R). rewrite D, cstring_app by exact N.
  rewrite bool_decide_true by (rewrite lookup_app_r, Nat.sub_diag by lia; reflexivity).
  rewrite Ld. destruct (Nat.leb_spec (D_NAME + length (e_name e) + 1) DIRENT_SIZE); [| unfold D_NAME, DIRENT_SIZE in *; lia]. cbn [andb].
  rewrite (fields_length e) by (repeat split; assumption). do 2 f_equal.
  rewrite E, F. replace (h ++ e_name e ++ 0 :: e_pad e ++ rest) with ((h ++ e_name e ++ [0]) ++ e_pad e ++ rest) by (by rewrite <- !app_assoc).
  apply take_app_length'. rewrite !length_app, L. cbn. lia.
Qed.

(** ** Reading a directory *)

Definition bytes_of (es : list dent) : list Z := concat (map encode es).
(** What one call of the kernel gives. *)
Definition group_ok (es : list dent) : Prop := es <> [] /\ Forall dent_ok es /\ zlen (bytes_of es) <= BUF_SIZE.

Section Reading.
Context {K : Type} (sys_read_dir : K -> Z -> K * (Z + list Z)).
Local Notation DIR := (@DIR K).
Local Notation call := (readdir sys_read_dir).

(** [serves k gs]: from the state [k] on, the calls return the bytes of the groups [gs] and
    then none. *)
Inductive serves : K -> list (list dent) -> Prop :=
| serves_end k k' : sys_read_dir k BUF_SIZE = (k', inr []) -> serves k []
| serves_group k k' es gs : sys_read_dir k BUF_SIZE = (k', inr (bytes_of es)) -> group_ok es -> serves k' gs -> serves k (es :: gs).

(** The stream has the entries [es] in its buffer, and the kernel the groups [gs]. *)
Record at_entries (d : DIR) (es : list dent) (gs : list (list dent)) : Prop := {
  at_ptr_ok : 0 <= ptr d;
  at_size : size d = ptr d + zlen (bytes_of es);
  at_bytes : exists r, drop (Z.to_nat (ptr d)) (buf d) = bytes_of es ++ r;
  at_entry : length (entry d) = DIRENT_SIZE;
  at_ok : Forall dent_ok es;
  at_serves : serves (handle d) gs }.

(** The stream will give the entries [l]. *)
Definition holds (d : DIR) (l : list dent) : Prop := exists es gs, at_entries d es gs /\ l = es ++ concat gs.

Lemma holds_new k gs : serves k gs -> holds (new_dir k) (concat gs).
Proof. intros S. exists [], gs. split; [| reflexivity]. split; try reflexivity; [by eexists | constructor | exact S]. Qed.

Lemma encode_pos e : dent_ok e -> 0 < zlen (encode e).
Proof. intros Ok. rewrite (encode_length e Ok). unfold record_length, D_NAME. pose proof (zlen_nonneg (e_name e)). pose proof (zlen_nonneg (e_pad e)). lia. Qed.

Lemma bytes_pos e es : dent_ok e -> 0 < zlen (bytes_of (e :: es)).
Proof. intros Ok. unfold bytes_of. cbn [map concat]. rewrite zlen_app. pose proof (encode_pos e Ok). pose proof (zlen_nonneg (concat (map encode es))). lia. Qed.

(** An entry in the buffer. *)
Lemma take_entry_ok d e es gs : at_entries d (e :: es) gs ->
  exists x, take_entry d (entry d) = Some (x, ptr d + record_length e) /\ shows e x /\ length x = DIRENT_SIZE /\
    at_entries {| handle := handle d; buf := buf d; ptr := ptr d + record_length e; size := size d; entry := x |} es gs.
Proof.
  intros [P0 Sz (r & B) Le Ok Sv]. apply list.Forall_cons in Ok as [He Ok]. unfold take_entry. unfold bytes_of in *. cbn [map concat] in *. rewrite <- app_assoc in B. rewrite B.
  rewrite (copy_entry_ok e _ (entry d) He Le). cbn [mbind option_bind]. unfold encode at 1. rewrite <- app_assoc, (reclen_ok e _ He). cbn [mbind option_bind].
  eexists. split; [reflexivity |]. split; [by eexists |].
  assert (Lx : length (fields e ++ drop (length (fields e)) (entry d)) = DIRENT_SIZE).
  { rewrite length_app, length_drop, Le, (fields_length e He). destruct He as (_ & _ & _ & Ln & _). unfold D_NAME, DIRENT_SIZE. lia. }
  split; [exact Lx |]. pose proof (encode_length e He) as El. pose proof (encode_pos e He). rewrite zlen_app in Sz. fold (bytes_of es) in *. split; cbn [handle buf ptr size entry]; try assumption; try lia.
  exists r. rewrite Z2Nat.inj_add, <- drop_drop, B by lia. rewrite <- El. unfold zlen. by rewrite Nat2Z.id, drop_app_length.
Qed.

(** One call. *)
Lemma readdir_next d e l : holds d (e :: l) -> exists d', call d = Some (Entry, d') /\ shows e (entry d') /\ length (entry d') = DIRENT_SIZE /\ holds d' l.
Proof.
  intros (es & gs & A & E). unfold readdir, refill. pose proof A as [P0 Sz _ Le Ok Sv]. destruct es as [| e' es].
  - change (zlen (bytes_of [])) with 0 in Sz. destruct (Z.ltb_spec (size d) (ptr d)); [lia |]. destruct (Z.eqb_spec (ptr d) (size d)); [| lia].
    destruct Sv as [| k k' es gs R G Sv]; [done |]. rewrite R. destruct G as (Ne & Fe & Lb). destruct (Z.ltb_spec BUF_SIZE (zlen (bytes_of es))); [lia |].
    destruct es as [| e' es]; [done |]. cbn [app concat] in E. injection E as <- ->. pose proof (bytes_pos e es (Forall_inv Fe)).
    destruct (Z.eqb_spec (zlen (bytes_of (e :: es))) 0); [lia |]. cbn [mbind option_bind].
    set (d1 := {| handle := k'; buf := _; ptr := 0; size := _; entry := entry d |}).
    destruct (take_entry_ok d1 e es gs) as (x & T & Sx & Lx & A'); [unfold d1; split; cbn [handle buf ptr size entry]; try assumption; try lia; by eexists |].
    rewrite T. eexists. split; [reflexivity |]. split; [exact Sx |]. split; [exact Lx |]. exists es, gs. by split.
  - cbn [app] in E. injection E as <- ->. pose proof (bytes_pos e es (Forall_inv Ok)). destruct (Z.ltb_spec (size d) (ptr d)); [lia |]. destruct (Z.eqb_spec (ptr d) (size d)); [lia |].
    cbn [mbind option_bind]. destruct (take_entry_ok d e es gs A) as (x & T & Sx & Lx & A'). rewrite T. eexists. split; [reflexivity |]. split; [exact Sx |]. split; [exact Lx |]. exists es, gs. by split.
Qed.

Lemma readdir_end d : holds d [] -> exists d', call d = Some (Null None, d').
Proof.
  intros (es & gs & [P0 Sz B Le Ok Sv] & E). unfold readdir, refill. destruct es as [| e' es]; [| done]. change (zlen (bytes_of [])) with 0 in Sz.
  destruct (Z.ltb_spec (size d) (ptr d)); [lia |]. destruct (Z.eqb_spec (ptr d) (size d)); [| lia].
  destruct Sv as [k k' R | k k' es gs R (Ne & Fe & Lb) Sv]; [rewrite R; by eexists | destruct es; done].
Qed.

(** The calls of [readdir] until it returns null: the entries, and [errno] if it is set. *)
Fixpoint readdirs (n : nat) (d : DIR) : option (list (list Z) * option Z) :=
  match n with
  | O => None
  | S n => '(r, d) ← call d; match r with Entry => '(l, e) ← readdirs n d; Some (entry d :: l, e) | Null e => Some ([], e) end
  end.

Lemma readdirs_ok l : forall d, holds d l -> exists bs, readdirs (S (length l)) d = Some (bs, None) /\ Forall2 shows l bs.
Proof.
  induction l as [| e l IH]; intros d Hd; cbn [length readdirs].
  - destruct (readdir_end d Hd) as (d' & ->). by exists [].
  - destruct (readdir_next d e l Hd) as (d' & -> & Se & _ & Hd'). cbn [mbind option_bind]. destruct (IH d' Hd') as (bs & R & F). cbn [length readdirs] in R. rewrite R.
    eexists. split; [reflexivity | by constructor].
Qed.
End Reading.

(** ** Scanning a directory *)

Section Scanning.
Context {K : Type} (sys_read_dir : K -> Z -> K * (Z + list Z)).
Context (filter : option (list Z -> bool)) (keep : dent -> bool) (realloc_ok : nat -> bool) (malloc : nat -> option (list Z)) (address : nat -> list Z).

(** The filter looks at the fields of the entry. *)
Hypothesis filter_keep : forall e b, shows e b -> match filter with Some f => f b | None => true end = keep e.
(** There is memory for [room] entries, at addresses of their own. *)
Context (room : nat).
Hypothesis realloc_works : forall n, realloc_ok n = true.
Hypothesis malloc_works : forall i, (i < room)%nat -> malloc i = Some (address i) /\ length (address i) = 8%nat.
Hypothesis address_inj : forall i j, (i < room)%nat -> (j < room)%nat -> address i = address j -> i = j.

Local Notation scan := (scan_loop sys_read_dir filter realloc_ok malloc).

Lemma shows_copy e b : dent_ok e -> shows e b -> shows e (take (Z.to_nat (record_length e)) b).
Proof.
  intros Ok (t & ->). exists (take (Z.to_nat (record_length e) - length (fields e)) t). rewrite take_app, take_ge; [reflexivity |].
  rewrite (fields_length e Ok). unfold record_length, zlen, D_NAME. pose proof (zlen_nonneg (e_pad e)). unfold zlen in *. lia.
Qed.

Lemma scan_entries l : Forall dent_ok l -> forall d arr max, holds sys_read_dir d l -> (length arr + length l <= room)%nat ->
  exists new, scan (S (length l)) d arr max = Some (arr ++ new, 0) /\ Forall2 shows (List.filter keep l) (map snd new) /\
    map fst new = map address (seq (length arr) (length new)) /\ (length arr + length new <= room)%nat.
Proof.
  induction 1 as [| e l He _ IH]; intros d arr max Hd Lr; cbn [length] in *.
  - destruct (readdir_end sys_read_dir d Hd) as (d' & E). cbn [scan_loop]. rewrite E. exists []. cbn. rewrite app_nil_r. repeat split; [constructor | lia].
  - destruct (readdir_next sys_read_dir d e l Hd) as (d' & E & Se & Le & Hd').
    change (scan (S (S (length l))) d arr max) with
      ('(r, d) ← readdir sys_read_dir d;
       match r with
       | Null errno => Some (arr, default 0 errno)
       | Entry =>
         if negb (match filter with Some f => f (entry d) | None => true end) then scan (S (length l)) d arr max
         else
           let grow := (length arr =? max)%nat in
           let max' := if grow then if (max <? 8)%nat then 8%nat else (max * 2)%nat else max in
           if grow && negb (realloc_ok max') then Some (arr, ENOMEM)
           else
             match malloc (length arr) with
             | None => Some (arr, ENOMEM)
             | Some a => reclen ← reclen_at (entry d);
               if (Z.of_nat DIRENT_SIZE <? reclen) then None else scan (S (length l)) d (arr ++ [(a, take (Z.to_nat reclen) (entry d))]) max'
             end
       end).
    rewrite E. cbn [mbind option_bind]. rewrite (filter_keep e (entry d') Se). cbn [List.filter]. destruct (keep e); cbn [negb]; [| apply IH; [exact Hd' | lia]].
    cbv zeta. rewrite realloc_works, andb_false_r. destruct (malloc_works (length arr) ltac:(lia)) as [-> _]. destruct Se as (t & Et) eqn:Q. rewrite Et, (reclen_ok e t He). cbn [mbind option_bind].
    pose proof He as (_ & _ & _ & _ & R). destruct (Z.ltb_spec (Z.of_nat DIRENT_SIZE) (record_length e)); [lia |].
    destruct (IH d' (arr ++ [(address (length arr), take (Z.to_nat (record_length e)) (fields e ++ t))])
      (if (length arr =? max)%nat then if (max <? 8)%nat then 8%nat else (max * 2)%nat else max) Hd') as (new & -> & F & A & Ln); [rewrite length_app; cbn; lia |]. rewrite length_app in Ln. cbn in Ln.
    exists ((address (length arr), take (Z.to_nat (record_length e)) (fields e ++ t)) :: new). split; [by rewrite <- app_assoc |]. split.
    + cbn [map]. constructor; [apply shows_copy; [exact He | by eexists] | exact F].
    + split; [cbn [map length seq]; rewrite A, length_app; cbn [length]; by rewrite Nat.add_1_r | cbn; lia].
Qed.

(** The copies are at their addresses. *)
Lemma at_address_ok (new : list (list Z * list Z)) : NoDup (map fst new) -> map (at_address new) (map fst new) = map snd new.
Proof.
  intros N. rewrite map_map. apply map_ext_in. intros [a b] I. unfold at_address. cbn [fst snd].
  induction new as [| [a' b'] new IH]; [done |]. cbn [find fst]. cbn [map fst] in N. apply list.NoDup_cons in N as [Na N]. destruct I as [[= -> ->] | I].
  - by rewrite bool_decide_true.
  - rewrite bool_decide_false; [by apply IH |]. intros ->. apply Na. apply list_elem_of_In. apply in_map_iff. by exists (a, b).
Qed.

(** C25: [scandir] returns the entries that the filter keeps, sorted.  For a directory whose
    bytes the kernel returns in any groups, with memory for the copies, the call returns
    their number; the array has the addresses of copies of exactly these entries, in
    nondecreasing order of the comparison (a total preorder), and [errno] is as before. *)
Theorem scandir_correct (compar : list Z -> list Z -> Z) k gs :
  (forall a b, compar a b <= 0 \/ compar b a <= 0) -> (forall a b c, compar a b <= 0 -> compar b c <= 0 -> compar a c <= 0) ->
  serves sys_read_dir k gs -> (length (concat gs) <= room)%nat ->
  exists array heap, scandir sys_read_dir filter realloc_ok malloc (Some compar) (inr k) 0 (S (length (concat gs))) =
      Some (zlen (List.filter keep (concat gs)), None, Some (array, heap)) /\
    Sorted (fun a b => compar (at_address heap a) (at_address heap b) <= 0) array /\
    exists es, Permutation (List.filter keep (concat gs)) es /\ Forall2 (fun e a => shows e (at_address heap a)) es array.
Proof.
  intros T R S Lr. assert (Ok : Forall dent_ok (concat gs)) by (clear Lr; induction S as [| ? ? ? ? ? (_ & F & _) _ IH]; cbn [concat]; [constructor | by apply Forall_app]).
  destruct (scan_entries (concat gs) Ok (new_dir k) [] 0 (holds_new sys_read_dir k gs S) Lr) as (new & E & F & A & Lw). cbn [app length Nat.add] in *.
  set (comp := fun a b => compar (at_address new a) (at_address new b)).
  exists (qsort 8 comp (map fst new)), new. unfold scandir. cbn [opendir]. rewrite E. cbn [mbind option_bind closedir snd Z.eqb negb default from_option].
  assert (Ln : zlen (map fst new) = zlen (List.filter keep (concat gs))) by (unfold zlen; rewrite length_map; apply list.Forall2_length in F; rewrite length_map in F; by rewrite F).
  rewrite Ln. split; [reflexivity |].
  assert (El : elements 8 (map fst new)) by (rewrite A; apply list.Forall_forall; intros a I; apply list_elem_of_In, in_map_iff in I as (i & <- & J%in_seq); apply malloc_works; lia).
  assert (N : NoDup (map fst new)) by (rewrite A; apply (NoDup_fmap_2_strong address); [intros i j [_ Hi]%elem_of_seq [_ Hj]%elem_of_seq; apply address_inj; lia | apply NoDup_seq]).
  pose proof (qsort_loop_sorts 8 comp ltac:(intros; apply T) ltac:(intros a b c; apply R) (length (map fst new)) (map fst new) []) as Q. rewrite app_nil_r in Q.
  destruct Q as [Sq Pq]; [lia | exact El | split; [constructor | apply list.Forall_forall; constructor] |]. split; [exact Sq |].
  assert (F' : Forall2 (fun a e => shows e (at_address new a)) (map fst new) (List.filter keep (concat gs))).
  { apply list.Forall2_flip. rewrite <- (at_address_ok new N) in F. exact (proj1 (Forall2_fmap_r (at_address new) shows _ _) F). }
  destruct (Permutation_Forall2 Pq F') as (es & P & Fs). exists es. split; [exact P | by apply list.Forall2_flip].
Qed.
End Scanning.

(** A small directory on a kernel that returns one group for each call. *)
Definition list_kernel (k : list (list Z)) (max : Z) : list (list Z) * (Z + list Z) := match k with [] => ([], inr []) | c :: k => (k, inr c) end.
Definition small_entry (name : list Z) : dent := {| e_ino := replicate 8 1; e_off := replicate 8 2; e_type := 8; e_name := name; e_pad := [] |}.

Lemma scandir_correct_witness :
  let compar a b := zlen a - zlen b in
  exists array heap, scandir list_kernel None (fun _ => true) (fun i => Some (Z.of_nat i :: replicate 7 0)) (Some compar) (inr [encode (small_entry (chars "abc")); encode (small_entry (chars "b"))]) 0 3 =
      Some (2, None, Some (array, heap)) /\
    Sorted (fun a b => compar (at_address heap a) (at_address heap b) <= 0) array /\
    exists es, Permutation [small_entry (chars "abc"); small_entry (chars "b")] es /\ Forall2 (fun e a => shows e (at_address heap a)) es array.
Proof.
  assert (O : forall name, (length name <= 3)%nat -> forallb (fun c => negb (c =? 0)) name = true -> group_ok [small_entry name]).
  { intros name L N. assert (0 ∉ name) by (intros I%list_elem_of_In; rewrite forallb_forall in N; specialize (N 0 I); discriminate N).
    assert (D : dent_ok (small_entry name)) by (split; [reflexivity |]; split; [reflexivity |]; split; [assumption |]; unfold record_length, D_NAME, DIRENT_SIZE, zlen; cbn [e_name e_pad small_entry length]; lia).
    split; [done |]. split; [by constructor |]. unfold bytes_of. cbn [map concat]. rewrite app_nil_r, (encode_length _ D). unfold record_length, D_NAME, BUF_SIZE, zlen. cbn [e_name e_pad small_entry length]. lia. }
  apply (scandir_correct list_kernel None (fun _ => true) (fun _ => true) (fun i => Some (Z.of_nat i :: replicate 7 0)) (fun i => Z.of_nat i :: replicate 7 0) ltac:(done) 2 ltac:(done)
    ltac:(done) ltac:(intros i j _ _ E; injection E; lia) (fun a b => zlen a - zlen b) _ [[small_entry (chars "abc")]; [small_entry (chars "b")]] ltac:(intros; lia) ltac:(intros; lia)); [| cbn; lia].
  apply (serves_group _ _ [encode (small_entry (chars "b"))]); [reflexivity | apply O; [cbn; lia | reflexivity] |]. apply (serves_group _ _ []); [reflexivity | apply O; [cbn; lia | reflexivity] |]. by apply (serves_end _ _ []).
Defined.

(** What a program sees that calls [readdir] until it returns null. *)
Theorem readdir_enumerates {K : Type} (sys_read_dir : K -> Z -> K * (Z + list Z)) k gs : serves sys_read_dir k gs ->
  exists bs, readdirs sys_read_dir (S (length (concat gs))) (fdopendir k) = Some (bs, None) /\ Forall2 shows (concat gs) bs.
Proof. intros S. apply readdirs_ok, holds_new, S. Qed.

(** [rewinddir] starts again with what the kernel gives from the start. *)
Theorem rewinddir_restarts {K : Type} (sys_read_dir : K -> Z -> K * (Z + list Z)) (sys_lseek_start : K -> K) d l gs :
  holds sys_read_dir d l -> serves sys_read_dir (sys_lseek_start (handle d)) gs -> holds sys_read_dir (rewinddir sys_lseek_start d) (concat gs).
Proof.
  intros (es & gs' & [P0 Sz B Le Ok Sv] & _) S. exists [], gs. split; [| reflexivity]. split; cbn [rewinddir handle buf ptr size entry]; try done. by eexists.
Qed.
