(* ===== verification/Tokens.v ===== *)
(** * Tokens

    [strtok_r] of [src/src/internal/string.cpp], behind [strtok] ([ansi/string.cpp]) and
    [strtok_r] ([posix/string.cpp]), [wcstok] of [ansi/wchar.cpp] and [strsep] of
    [glibc/string.cpp].

    Memory is the list of its characters, a pointer an offset into it; what is read or
    written outside of it, and a null pointer that is followed, give [None].  A string must
    have a terminator.  The two searches of [string_view] are parameters. *)

From Stdlib Require Import String.
From stdpp Require Import base list option.
From S2P Require Import Prelude Literal.

#[local] Open Scope Z_scope.

Class SetSearch := {
  find_first_not_of : list Z -> list Z -> option nat;
  find_first_of : list Z -> list Z -> nat -> option nat;
  find_first_not_of_law s set : find_first_not_of s set = fst <$> list_find (fun c => c ∉ set) s;
  find_first_of_law s set off : find_first_of s set off = (fun x => (off + x.1)%nat) <$> list_find (fun c => c ∈ set) (drop off s);
}.

(** The string at a pointer. *)
Definition string_at (mem : list Z) (p : Z) : option (list Z) :=
  if p <? 0 then None
  else let s := cstring (drop (Z.to_nat p) mem) in if bool_decide (drop (Z.to_nat p) mem !! length s = Some 0) then Some s else None.

Section Tokens.
Context `{SetSearch}.

(** The body that [strtok_r] and [wcstok] share: the token or null, the memory and
    [*save_ptr].  They differ in how far [*save_ptr] moves behind the last token. *)
Definition tok (at_end : list Z -> Z) (str : option Z) (delim mem : list Z) (save_ptr : option Z) : option (option Z * list Z * option Z) :=
  let save_ptr := match str with Some _ => str | None => save_ptr end in
  start ← save_ptr; str_view ← string_at mem start;
  match find_first_not_of str_view delim with
  | None => Some (None, mem, Some start)
  | Some start_pos =>
    match find_first_of str_view delim start_pos with
    | Some end_pos => Some (Some (start + Z.of_nat start_pos), <[(Z.to_nat start + end_pos)%nat := 0]> mem, Some (start + Z.of_nat end_pos + 1))
    | None => Some (Some (start + Z.of_nat start_pos), mem, Some (start + at_end str_view))
    end
  end.

Definition strtok_r := tok (fun str_view => zlen str_view).
(** [strtok] has [STRTOK_SAVE_PTR]. *)
Definition strtok := strtok_r.
(** [*save_ptr += end_pos] with [end_pos] at [npos]: one character back. *)
Definition wcstok := tok (fun _ => -1).

(** [strsep]: [*str] is the second component. *)
Definition strsep (delim mem : list Z) (str : option Z) : option (option Z * list Z * option Z) :=
  match str with
  | None => Some (None, mem, None)
  | Some token =>
    s ← string_at mem token;
    match list_find (fun c => c ∈ delim) s with
    | Some (k, _) => Some (Some token, <[(Z.to_nat token + k)%nat := 0]> mem, Some (token + Z.of_nat k + 1))
    | None => Some (Some token, mem, None)
    end
  end.

(** The calls of a program that goes through a string: the tokens and the memory. *)
Fixpoint tokens (n : nat) (str : option Z) (delim mem : list Z) (save_ptr : option Z) : option (list Z * list Z) :=
  match n with
  | O => None
  | S n => '(t, mem, save_ptr) ← strtok_r str delim mem save_ptr;
           match t with None => Some ([], mem) | Some p => '(ps, mem) ← tokens n None delim mem save_ptr; Some (p :: ps, mem) end
  end.

Fixpoint separated (n : nat) (delim mem : list Z) (str : option Z) : option (list Z * list Z) :=
  match n with
  | O => None
  | S n => '(t, mem, str) ← strsep delim mem str;
           match t with None => Some ([], mem) | Some p => '(ps, mem) ← separated n delim mem str; Some (p :: ps, mem) end
  end.

(** ** What tokens are *)

(** The words of a text: nonempty, without delimiters, and delimiters between them. *)
Inductive words (delim : list Z) : list Z -> list (list Z) -> Prop :=
| words_none g : Forall (fun c => c ∈ delim) g -> words delim g []
| words_last g w : Forall (fun c => c ∈ delim) g -> w <> [] -> Forall (fun c => c ∉ delim) w -> words delim (g ++ w) [w]
| words_more g w d s ws : Forall (fun c => c ∈ delim) g -> w <> [] -> Forall (fun c => c ∉ delim) w -> d ∈ delim -> words delim s ws -> words delim (g ++ w ++ d :: s) (w :: ws).

(** The fields of a text: what is between two delimiters, the empty text too. *)
Inductive fields (delim : list Z) : list Z -> list (list Z) -> Prop :=
| fields_last f : Forall (fun c => c ∉ delim) f -> fields delim f [f]
| fields_more f d s fs : Forall (fun c => c ∉ delim) f -> d ∈ delim -> fields delim s fs -> fields delim (f ++ d :: s) (f :: fs).

Lemma string_at_ok pre s rest : 0 ∉ s -> string_at (pre ++ s ++ 0 :: rest) (zlen pre) = Some s.
Proof.
  intros N. unfold string_at. pose proof (zlen_nonneg pre). destruct (Z.ltb_spec (zlen pre) 0); [lia |]. unfold zlen. rewrite Nat2Z.id, drop_app_length, cstring_app by exact N.
  rewrite bool_decide_true; [reflexivity |]. by rewrite lookup_app_r, Nat.sub_diag by lia.
Qed.

Lemma first_not g w r delim : Forall (fun c => c ∈ delim) g -> w <> [] -> Forall (fun c => c ∉ delim) w -> find_first_not_of (g ++ w ++ r) delim = Some (length g).
Proof.
  intros Fg Nw Fw. rewrite find_first_not_of_law. destruct w as [| c w]; [done |]. rewrite list_find_app_r by (apply list_find_None; eapply list.Forall_impl; [exact Fg | auto]).
  cbn [app list_find]. by rewrite decide_True by apply (Forall_inv Fw).
Qed.

Lemma first_not_none g delim : Forall (fun c => c ∈ delim) g -> find_first_not_of g delim = None.
Proof. intros Fg. rewrite find_first_not_of_law. assert (list_find (fun c => c ∉ delim) g = None) as -> by (apply list_find_None; eapply list.Forall_impl; [exact Fg | auto]). reflexivity. Qed.

Lemma first_of (g w : list Z) d s delim : Forall (fun c => c ∉ delim) w -> d ∈ delim -> find_first_of (g ++ w ++ d :: s) delim (length g) = Some (length g + length w)%nat.
Proof.
  intros Fw Hd. rewrite find_first_of_law, drop_app_length. rewrite list_find_app_r by (by apply list_find_None). cbn [list_find]. by rewrite decide_True by exact Hd.
Qed.

Lemma first_of_none (g w : list Z) delim : Forall (fun c => c ∉ delim) w -> find_first_of (g ++ w) delim (length g) = None.
Proof. intros Fw. rewrite find_first_of_law, drop_app_length. assert (list_find (fun c => c ∈ delim) w = None) as -> by (by apply list_find_None). reflexivity. Qed.

(** The strings at pointers behind [pre] in memory that goes on with [m]. *)
Definition point_at (pre m : list Z) (ws : list (list Z)) (ps : list Z) : Prop := Forall2 (fun w p => exists off, p = zlen pre + Z.of_nat off /\ cstring (drop off m) = w) ws ps.

Lemma point_behind pre q m ws ps : point_at (pre ++ q) m ws ps -> point_at pre (q ++ m) ws ps.
Proof.
  intros F. eapply list.Forall2_impl; [exact F |]. intros w p (off & -> & E). exists (length q + off)%nat. rewrite zlen_app. split; [unfold zlen; lia |].
  by rewrite drop_app, drop_ge, Nat.add_comm, Nat.add_sub by lia.
Qed.

(** The byte behind a token is overwritten. *)
Lemma cut (pre g w : list Z) (d : Z) s : <[(Z.to_nat (zlen pre) + (length g + length w))%nat := 0]> (pre ++ g ++ w ++ d :: s) = (pre ++ g ++ w ++ [0]) ++ s.
Proof.
  replace (Z.to_nat (zlen pre) + (length g + length w))%nat with (length (pre ++ g ++ w)) by (unfold zlen; rewrite !length_app; lia).
  replace (pre ++ g ++ w ++ d :: s) with ((pre ++ g ++ w) ++ d :: s) by (by rewrite <- !app_assoc). rewrite insert_app_r_alt, Nat.sub_diag by lia. by rewrite <- !app_assoc.
Qed.

(** One call of [strtok_r]. *)
Section Call.
Context (delim rest pre : list Z) (str save : option Z).
Hypothesis at_pre : match str with Some _ => str | None => save end = Some (zlen pre).

Lemma tok_none g : Forall (fun c => c ∈ delim) g -> 0 ∉ g -> strtok_r str delim (pre ++ g ++ 0 :: rest) save = Some (None, pre ++ g ++ 0 :: rest, Some (zlen pre)).
Proof. intros Fg N. unfold strtok_r, tok. rewrite at_pre. cbn [mbind option_bind]. rewrite string_at_ok by exact N. cbn [mbind option_bind]. by rewrite first_not_none. Qed.

Lemma tok_last g w : Forall (fun c => c ∈ delim) g -> w <> [] -> Forall (fun c => c ∉ delim) w -> 0 ∉ g ++ w ->
  strtok_r str delim (pre ++ (g ++ w) ++ 0 :: rest) save = Some (Some (zlen pre + Z.of_nat (length g)), pre ++ (g ++ w) ++ 0 :: rest, Some (zlen (pre ++ g ++ w))).
Proof.
  intros Fg Nw Fw N. unfold strtok_r, tok. rewrite at_pre. cbn [mbind option_bind]. rewrite string_at_ok by exact N. cbn [mbind option_bind].
  pose proof (first_not g w [] delim Fg Nw Fw) as E. rewrite app_nil_r in E. by rewrite E, first_of_none, <- zlen_app by exact Fw.
Qed.

Lemma tok_more g w d s : Forall (fun c => c ∈ delim) g -> w <> [] -> Forall (fun c => c ∉ delim) w -> d ∈ delim -> 0 ∉ g ++ w ++ d :: s ->
  strtok_r str delim (pre ++ (g ++ w ++ d :: s) ++ 0 :: rest) save =
  Some (Some (zlen pre + Z.of_nat (length g)), (pre ++ g ++ w ++ [0]) ++ s ++ 0 :: rest, Some (zlen (pre ++ g ++ w ++ [0]))).
Proof.
  intros Fg Nw Fw Hd N. unfold strtok_r, tok. rewrite at_pre. cbn [mbind option_bind]. rewrite string_at_ok by exact N. cbn [mbind option_bind]. rewrite first_not, first_of by assumption.
  pose proof (cut pre g w d (s ++ 0 :: rest)) as C. replace (pre ++ (g ++ w ++ d :: s) ++ 0 :: rest) with (pre ++ g ++ w ++ d :: s ++ 0 :: rest) by (rewrite <- !app_assoc; reflexivity).
  rewrite C. do 3 f_equal. rewrite !zlen_app. unfold zlen. cbn. lia.
Qed.
End Call.

Lemma tokens_step n str delim mem save : tokens (S n) str delim mem save =
  ('(t, mem, save) ← strtok_r str delim mem save; match t with None => Some ([], mem) | Some p => '(ps, mem) ← tokens n None delim mem save; Some (p :: ps, mem) end).
Proof. reflexivity. Qed.

Lemma words_run delim rest text ws : words delim text ws -> 0 ∉ text -> forall pre str save, match str with Some _ => str | None => save end = Some (zlen pre) ->
  exists ps text', tokens (S (length ws)) str delim (pre ++ text ++ 0 :: rest) save = Some (ps, pre ++ text' ++ 0 :: rest) /\ length text' = length text /\ point_at pre (text' ++ 0 :: rest) ws ps.
Proof.
  induction 1 as [g Fg | g w Fg Nw Fw | g w d s ws Fg Nw Fw Hd _ IH]; intros N pre str save P; cbn [length]; rewrite tokens_step.
  - rewrite (tok_none delim rest pre str save P g Fg N). exists [], g. split; [reflexivity |]. split; [reflexivity | constructor].
  - rewrite (tok_last delim rest pre str save P g w Fg Nw Fw N). cbn [mbind option_bind]. rewrite tokens_step.
    pose proof (tok_none delim rest (pre ++ g ++ w) None (Some (zlen (pre ++ g ++ w))) eq_refl [] ltac:(constructor) ltac:(apply not_elem_of_nil)) as E. rewrite <- !app_assoc in *. cbn [app] in E. rewrite E.
    cbn [mbind option_bind]. exists [zlen pre + Z.of_nat (length g)], (g ++ w). split; [by rewrite <- !app_assoc |]. split; [reflexivity |]. constructor; [| constructor].
    exists (length g). split; [reflexivity |]. rewrite <- app_assoc, drop_app_length. apply cstring_app. by apply not_elem_of_app in N as [_ N].
  - rewrite (tok_more delim rest pre str save P g w d s Fg Nw Fw Hd N). cbn [mbind option_bind].
    apply not_elem_of_app in N as [_ N]. apply not_elem_of_app in N as [N1 N2]. apply not_elem_of_cons in N2 as [_ N2].
    destruct (IH N2 (pre ++ g ++ w ++ [0]) None _ eq_refl) as (ps & s' & -> & L & F). cbn [mbind option_bind].
    exists (zlen pre + Z.of_nat (length g) :: ps), (g ++ w ++ 0 :: s'). rewrite <- !app_assoc. cbn [app]. split; [reflexivity |].
    split; [rewrite !length_app; cbn; rewrite L; reflexivity |]. constructor.
    + exists (length g). split; [reflexivity |]. rewrite drop_app_length. by apply cstring_app.
    + apply point_behind in F. rewrite <- !app_assoc in F. exact F.
Qed.

(** A program that calls [strtok] until it returns null gets a pointer for each word of the
    text, in order, and at the end the strings at the pointers are the words. *)
Theorem strtok_words delim text ws rest save : words delim text ws -> 0 ∉ text ->
  exists ps mem, tokens (S (length ws)) (Some 0) delim (text ++ 0 :: rest) save = Some (ps, mem) /\ length mem = length (text ++ 0 :: rest) /\
    Forall2 (fun w p => cstring (drop (Z.to_nat p) mem) = w) ws ps.
Proof.
  intros W N. destruct (words_run delim rest text ws W N [] (Some 0) save eq_refl) as (ps & text' & R & L & F). exists ps, (text' ++ 0 :: rest). cbn [app] in R.
  split; [exact R |]. split; [by rewrite !length_app, L |]. eapply list.Forall2_impl; [exact F |]. intros w p (off & -> & E).
  change (zlen []) with 0. rewrite Z.add_0_l, Nat2Z.id. exact E.
Qed.

Lemma separated_step n delim mem str : separated (S n) delim mem str =
  ('(t, mem, str) ← strsep delim mem str; match t with None => Some ([], mem) | Some p => '(ps, mem) ← separated n delim mem str; Some (p :: ps, mem) end).
Proof. reflexivity. Qed.

Lemma fields_run delim rest text fs : fields delim text fs -> 0 ∉ text -> forall pre,
  exists ps text', separated (S (length fs)) delim (pre ++ text ++ 0 :: rest) (Some (zlen pre)) = Some (ps, pre ++ text' ++ 0 :: rest) /\ length text' = length text /\
    point_at pre (text' ++ 0 :: rest) fs ps.
Proof.
  induction 1 as [f Ff | f d s fs Ff Hd _ IH]; intros N pre; cbn [length]; rewrite separated_step; unfold strsep at 1; rewrite string_at_ok by exact N; cbn [mbind option_bind].
  - assert (list_find (fun c => c ∈ delim) f = None) as -> by (by apply list_find_None). exists [zlen pre], f. split; [reflexivity |]. split; [reflexivity |].
    constructor; [| constructor]. exists 0%nat. split; [cbn; lia |]. rewrite drop_0. by apply cstring_app.
  - rewrite list_find_app_r by (by apply list_find_None). cbn [list_find]. rewrite decide_True by exact Hd. cbn [fmap option_fmap option_map prod_map fst snd mbind option_bind].
    pose proof (cut pre [] f d (s ++ 0 :: rest)) as C. cbn [app length Nat.add] in C. replace (pre ++ (f ++ d :: s) ++ 0 :: rest) with (pre ++ f ++ d :: s ++ 0 :: rest) by (rewrite <- !app_assoc; reflexivity).
    rewrite Nat.add_0_l, C. apply not_elem_of_app in N as [Nf Ns]. apply not_elem_of_cons in Ns as [_ Ns]. destruct (IH Ns (pre ++ f ++ [0])) as (ps & s' & R & L & F).
    replace (zlen pre + Z.of_nat (length f) + 1) with (zlen (pre ++ f ++ [0])) by (rewrite !zlen_app; unfold zlen; cbn; lia).
    rewrite R. cbn [mbind option_bind]. exists (zlen pre :: ps), (f ++ 0 :: s'). rewrite <- !app_assoc. cbn [app]. split; [reflexivity |]. split; [rewrite !length_app; cbn; rewrite L; reflexivity |].
    constructor; [exists 0%nat; split; [cbn; lia |]; rewrite drop_0; by apply cstring_app |]. apply point_behind in F. rewrite <- !app_assoc in F. exact F.
Qed.

(** A program that calls [strsep] until it returns null gets the fields, empty ones too. *)
Theorem strsep_fields delim text fs rest : fields delim text fs -> 0 ∉ text ->
  exists ps mem, separated (S (length fs)) delim (text ++ 0 :: rest) (Some 0) = Some (ps, mem) /\ length mem = length (text ++ 0 :: rest) /\
    Forall2 (fun w p => cstring (drop (Z.to_nat p) mem) = w) fs ps.
Proof.
  intros W N. destruct (fields_run delim rest text fs W N []) as (ps & text' & R & L & F). exists ps, (text' ++ 0 :: rest). cbn [app] in R.
  split; [exact R |]. split; [by rewrite !length_app, L |]. eapply list.Forall2_impl; [exact F |]. intros w p (off & -> & E).
  change (zlen []) with 0. rewrite Z.add_0_l, Nat2Z.id. exact E.
Qed.
End Tokens.

(** ** On a concrete support library *)

#[local] Instance list_search : SetSearch := {|
  find_first_not_of s set := fst <$> list_find (fun c => c ∉ set) s;
  find_first_of s set off := (fun x => (off + x.1)%nat) <$> list_find (fun c => c ∈ set) (drop off s);
  find_first_not_of_law s set := eq_refl;
  find_first_of_law s set off := eq_refl |}.

Example strtok_example : tokens 3 (Some 0) (chars " ,") (chars " ab,, c" ++ [0]) None = Some ([1; 6], chars " ab" ++ [0] ++ chars ", c" ++ [0]).
Proof. reflexivity. Qed.

(** Behind a single token [wcstok] is in front of the memory, where the next call reads. *)
Lemma wcstok_moves_back : exists mem save, wcstok (Some 0) (chars " ") (chars "ab" ++ [0]) None = Some (Some 0, mem, save) /\ wcstok None (chars " ") mem save = None.
Proof. eexists _, _. by split. Qed.
